(* ===== verification/_CoqProject ===== *)
-Q . S2P
Prelude.v
Target.v
Types.v
Pointer.v
Token.v
Lexer.v
Literal.v
Ast.v
Parser.v
ParserDecl.v
ParseSpec.v
ParseSafe.v
ParseDeclSafe.v
ParseGrammar.v
IR.v
ScalarFold.v
Graph.v
Storage.v
IRVerify.v
IRSound.v
IRTyping.v
ControlFlow.v
FlowSound.v
LoopSound.v
Liveness.v
Analysis.v
LoopIds.v
AddressProof.v
IRRun.v
AddressSound.v
AddressCond.v
AddressLoop.v
AddressCount.v
AddressRun.v
IRExec.v
AddressProps.v
DivModFusion.v
PairRun.v
FusionSound.v
FusionPass.v
FusionProps.v
Cost.v
Allocator.v
AllocSound.v
AllocLive.v
AllocWeigh.v
AllocProps.v
Object.v
Startup.v
Link.v
LinkSound.v
LinkCommand.v
AsmText.v
Encode.v
EncodeSound.v
Assembler.v
AsmSound.v
AsmProps.v
AsmObject.v
Machine.v
MachineRun.v
StartupRun.v
Boot.v
AsmRun.v
Isa.v
Gen.v
GenInt.v
GenRun.v
GenFlow.v
GenPatch.v
GenStack.v
ShiftRun.v
DivRun.v
ArithRun.v
