(* ===== verification/Prelude.v ===== *)
(** * DiscoC: a verification library for the compiler, assembler and linker

    DiscoC compiles a small language for the SuperFX (GSU) coprocessor.  Its
    tools are [discc] (compiler: lexer, parser, analyzer, typed IR, optimizers,
    register allocation, assembly output), [discas] (assembler: assembly text to
    object files) and [discld] (linker: object files to a payload with its
    startup code).  This library models the parts of [src/src] listed below as
    executable definitions and proves what each part promises to the next.

    ** Parts and files

    Each component has a file with its data and operations, written function by
    function after the source, and one or more files of proofs.  A file requires
    this prelude and the components it calls.

    - Shared configuration.  [Target]: [TargetConfig.hpp], [BitmapConfig.hpp],
      [GsuMemoryMap.hpp], [Placement.hpp].  [Types]: [Types.hpp].  [Pointer]:
      [GsuPointer.hpp], the address arithmetic of far pointers.
    - Front end.  [Token], [Lexer]: [Token.cpp], [Lexer.cpp], the scanner as a
      state record with the members of the class.  [Literal]:
      [IntegerLiteral.hpp].  [ScalarFold]: [ConstantEvaluator.cpp] and
      [IRScalarFold.hpp], the two constant evaluators.
    - The parser.  [Ast]: the nodes of [AST.hpp] as the parser builds them.
      [Parser]: the state of the class, tokens, types and expressions of
      [Parser.cpp]; [ParserDecl]: statements, declarations, programs.
      [ParseSpec]: rules for parsing functions; [ParseSafe], [ParseDeclSafe]: the
      parser ends and fails only with compile errors.  [ParseGrammar]: the grammar
      of expressions as a relation, as documented and as coded, and that the
      parser implements it.
    - The IR.  [IR]: [IR.hpp].  [Graph]: bit sets, reachability and dominators,
      which the verifier and the optimizer share.  [Storage], [IRVerify]: the IR
      verifier of [IR.cpp], in the order of its checks.  [IRSound]: what a
      verified function satisfies; [IRTyping]: the typing rule of every opcode.
    - The analysis of the optimizer.  [ControlFlow]: the constructor of
      [IRControlFlow].  [FlowSound] (edges, dominators, frontiers), [LoopSound]
      (natural loops), [Liveness] (the live sets) prove it exact; [Analysis]
      states the results on functions, and that the analysis of a verified
      function returns.
    - Address proofs.  [AddressProof]: [GSUAddressProof.cpp], the analysis that
      spares pointer checks: facts (intervals and alignments of scalars, frame
      offsets and addresses), loop inductions, branch conditions, propagation and
      the four queries.  [IRRun]: executions of a function as a step relation;
      [LoopIds]: hardware-loop numbers of a verified function are unique;
      [IRExec]: an interpreter whose runs are executions.  [AddressSound] (the
      meaning of facts, each transfer), [AddressCond] (conditions), [AddressLoop]
      (guarded loops), [AddressCount] (counted loops), [AddressRun] (the rounds)
      prove it sound; [AddressProps]: the answers against the run-time checks of
      [Pointer].
    - Pairing of divisions.  [DivModFusion]: [IRDivModFusion.cpp], the pass that
      computes a quotient and a remainder of the same words by one division.
      [PairRun]: the executions of [IRRun] with the second components of pairs.
      [FusionSound]: rewritings of this kind keep executions; [FusionPass]: the pass
      makes one; [FusionProps]: the theorem.
    - Register allocation.  [Cost]: [GSUCostModel.hpp].  [Allocator]:
      [runGlobalImpl], [improvePhiLocations] and [runGlobal] of
      [LinearScanAllocator.cpp].  [AllocSound], [AllocLive], [AllocWeigh]: proofs;
      [AllocProps]: what the allocation promises the code generator.
    - Object files.  [Object]: [ObjectFile.cpp], validation, writer and reader of
      all versions, as functions on byte lists.
    - The linker.  [Startup]: [RuntimeInitialization.hpp].  [Link]:
      [LinkerDriver.cpp].  [LinkSound]: what a successful link guarantees.
      [LinkCommand]: command lines, and what a run of the linker links.
    - The assembler.  [AsmText]: the text half of [Assembler.cpp] (lines,
      operands, numbers, [.define]s).  [Encode]: [encodeInstruction].
      [Assembler]: the two passes, branch relaxation and the symbols.
      [EncodeSound]: every instruction is one template of bytes wherever it is
      put.  [AsmSound], [AsmProps]: the passes agree.  [AsmObject]: the theorems
      on assembled objects.
    - The processor.  [Machine]: the instruction-level model of the GSU that the
      repository tests its code generator with ([tests/GSUInstructionModel.hpp],
      [tests/GSUGraphicsModel.hpp]), opcode by opcode, with prefetch pipeline
      and instruction cache.  [MachineRun]: rules for running code held in a
      payload.  [StartupRun]: the startup code, instruction by instruction.
      [Boot]: linked programs boot.  [AsmRun]: short and lengthened branches.
    - The code generator.  [Gen]: the emitter, the part of [IRCodeGenerator.cpp]
      and [IRPointerCodeGenerator.cpp] that appends bytes, symbols, relocations
      and fixups, with [GSUSpillCache.hpp] and [GSUStackCheckCredit.hpp].
      [GenInt]: integer operations ([IRIntegerCodeGenerator.cpp] and the scalar
      operations of [IRCodeGenerator.cpp]).
    - What generated code does.  [Isa]: the instructions generated code uses, as
      functions on registers, flags and memory, proved of [Machine].  [GenRun]:
      emissions only append, and what it means that a payload holds what was
      emitted.  [GenFlow]: a rule per emission for the code it leaves ([lands]),
      composed like the emissions.  [GenStack]: the stack.  [GenPatch]:
      [patchBranches] and the linker make a payload that holds the emission.
      [ShiftRun], [DivRun]: the loops of the checked shift and of the division.
      [ArithRun]: the theorems.

    ** How the parts are composed

    The parts meet in data: [IRVerify] hands a function to [ControlFlow], whose
    [Analysis] theorems are the interface the allocator's proofs use; [Assembler]
    makes an [ObjectFile] that [Object.validate] accepts ([AsmObject]); [Link]
    reads what [Object.write] wrote and puts [Startup] in front; [Boot] loads
    what [Link] made on the [Machine]; [Gen] appends to the code of an object,
    which [GenPatch] follows through patching and relocation to the [Machine].

    ** Modelling choices

    Errors are values of [result]: [Err] carries what the code throws, and the
    monad's bind is the propagation of an exception.  Integers are [Z]; where the
    code's width can matter the wrap-around is written out ([u8], [u16], [u32],
    [swrap]), and otherwise a bound is proved ([ScalarFold.binary_value_bounds])
    or the value is an offset into data in memory.  Byte vectors are [list Z],
    texts are [string]s or byte lists.  [std::map] and [std::set] are [gmap] and
    [gset] where only lookups matter, and lists in key order or sorted element
    lists where the order of iteration does.  What the code mutates in place is
    passed and returned.

    Loops whose recursion is not structural have fuel, and for each the bound is
    proved to be enough: the scanner one unit per byte left; the dominator and
    liveness iterations the round limits of the code, which are shown never to be
    the reason they stop ([IRSound.verify_dominators_exact],
    [Analysis.analyze_returns]); branch relaxation one round per line
    ([AsmObject.relaxation_resolves]); padding one unit per byte.  The recursion of
    the parser has one unit more than its nesting guards allow, and its loops one
    round per token ([ParseDeclSafe.parse_program_safe]).  The address analysis
    keeps the limits of the code (64 rounds, its work counters): its facts hold
    after every step, so stopping early loses answers, never soundness; halving an
    alignment from 65536 takes 17 steps at most.  The walk of the dominator tree that
    pairs divisions has one unit per block, and meets each once.

    The executions of [IRRun] are those of values: arithmetic is constant folding,
    phis read all at once, memory, calls and the screen deliver any value of the
    type.  Those of [PairRun] keep the second component of each [DivMod] from where it
    is computed to where [DivModResult] reads it.  The theorems on address proofs ask for a function the verifier accepts
    whose numbers are unsigned ([unsigned]), whose frame fits its bank below the
    stack ([frame_ok]) and whose shape is [canonical]: the entry has no
    predecessor, conditional branches have two targets, no latch is shared by two
    loops, and binary operations give scalars.  [AddressProps.bounds_need_shape]
    shows that the first three cannot be dropped.

    ** What the theorems show

    - Verified IR: reads are computed, phis select, hardware loops balance, blocks
      end in terminators, the dominator iteration is exact ([IRSound]); every
      instruction obeys the rule of its opcode ([IRTyping]).
    - Analysis: dominance, frontiers, loops and liveness are those of the graph,
      and the analysis of a verified function within the size limits, its hardware
      loops exposed, returns ([Analysis]).
    - Pairing of divisions: the pass returns a function with the same executions
      ([FusionProps]).
    - Address proofs: an access or an offset the analysis proves passes the
      run-time check it replaces, on every execution; bounds contain the value, and
      operands called bytes are bytes ([AddressProps]).
    - Allocation: no definition destroys a live value, calls save exactly what
      lives across them, every operand has a home, lent registers are free
      ([AllocProps]).
    - Booting: a linked program runs to its entry with the stack pointer, RAM
      bank and RAM image its options ask for ([Boot.link_boots]).
    - Assembly: every line stands where the first pass counted, short branches
      hold the distance to their label, labels are resolved inside the object,
      relaxation ends and never leaves a branch out of range, the object is valid
      unless a label takes the name of the layout hint ([AsmObject]); over a NOP a
      lengthened branch does what the short one does, and over anything else it may
      not ([AsmRun]).
    - Generated arithmetic: the code for shifts, quotients and remainders of
      words computes on the processor what constant folding computes, or stops
      with the fault of the operation, with the stack balanced ([ArithRun]).
    - Linking: relocations hold the addresses of their targets, every other byte
      is unchanged, the symbol table is exact, calls go to code, the memory areas
      are disjoint ([LinkSound]); a run of the linker takes its settings from the
      command line, keeps them in range, and links the objects in the named files
      ([LinkCommand]).
    - Object files: writer and reader are inverse in both directions, and
      validation decides validity ([Object]).
    - Parser: on every input it returns a program within the depth limits or
      throws a compile error ([ParseDeclSafe]); it returns the tree of an
      expression exactly when the grammar derives it, which is the documented one
      but for what may follow [++] and [--] ([ParseGrammar]).
    - Front end: the scanner is a longest-match cut of the source and fails only
      with positioned errors, literals have their positional value, the two
      evaluators agree with each other, and stay within 64 bits
      ([Lexer], [Literal], [ScalarFold], [Pointer]).

    ** Not modelled

    The analyzer, the lowering to the IR, the other rewriting optimizers,
    the scheduler and, of the code generator, functions, calls, loads of values,
    switches and far pointers: no semantics of the source language is stated, and
    [IRRun] leaves memory open, so nothing here says that a compiled program
    computes what its source says.  The manifest and project tools, the drivers, warnings and
    dumps are text handling around these parts.  Opening and closing files, the
    usage texts, the linker's assembly export and the access counters of the
    processor model are left out.  Of the allocator, the eager linear scan used
    without optimization is not modelled; of the control-flow analysis, the
    passes that rewrite blocks are not. *)

From Stdlib Require Export ZArith Lia.
From stdpp Require Export base gmap strings list fin_maps sorting pretty.

#[global] Open Scope Z_scope.

(* ------------------------------------------------------------------ *)
(** ** Errors and the error monad *)

(** What the C++ code can throw.  [RuntimeError] and [LogicError] carry the
    text of [std::runtime_error] and [std::logic_error]; [CompileError] is
    [CompilerError] with its source position; [OutOfRange] is what
    [std::vector::at], [std::map::at] and [std::sto*] throw;
    [InvalidArgument] is [std::invalid_argument]. *)
Inductive error :=
  | RuntimeError (message : string)
  | LogicError (message : string)
  | CompileError (message : string) (line col : Z)
  | OutOfRange
  | InvalidArgument.

Inductive result (A : Type) :=
  | Ok (a : A)
  | Err (e : error).
Arguments Ok {A} a.
Arguments Err {A} e.

Definition result_bind {A B} (f : A → result B) (m : result A) : result B :=
  match m with Ok a => f a | Err e => Err e end.

#[export] Instance result_mret : MRet result := @Ok.
#[export] Instance result_mbind : MBind result := @result_bind.
#[export] Instance result_fmap : FMap result :=
  fun A B f m => match m with Ok a => Ok (f a) | Err e => Err e end.

(** [if (b) throw e;] *)
Definition throw_if (b : bool) (e : error) : result unit :=
  if b then Err e else Ok tt.

#[global] Arguments throw_if : simpl never.

Definition is_ok {A} (m : result A) : bool :=
  match m with Ok _ => true | Err _ => false end.

(** [for (const auto& x : l) s = f(s, x);] where the body may throw. *)
Fixpoint foldM {A S} (f : S → A → result S) (s : S) (l : list A) : result S :=
  match l with
  | [] => Ok s
  | x :: l => s' ← f s x; foldM f s' l
  end.

(** A loop whose body only checks. *)
Fixpoint forM_ {A} (f : A → result unit) (l : list A) : result unit :=
  match l with
  | [] => Ok tt
  | x :: l => f x;; forM_ f l
  end.

Fixpoint mapM_r {A B} (f : A → result B) (l : list A) : result (list B) :=
  match l with
  | [] => Ok []
  | x :: l => y ← f x; ys ← mapM_r f l; Ok (y :: ys)
  end.

(** The elements of a vector with their indices, for index loops. *)
Definition indexed {A} (l : list A) : list (nat * A) := zip (seq 0 (length l)) l.

(** [a || b] and [a && b] where the tests may throw. *)
Definition or_r (a b : result bool) : result bool :=
  x ← a; if (x : bool) then Ok true else b.
Definition and_r (a b : result bool) : result bool :=
  x ← a; if (x : bool) then b else Ok false.
Definition not_r (a : result bool) : result bool := x ← a; Ok (negb x).

(** [if (c) throw e;] with such a test. *)
Definition throw_when (c : result bool) (e : error) : result unit := b ← c; throw_if b e.

(** [e.what()] *)
Definition what (e : error) : string :=
  match e with
  | RuntimeError m | LogicError m => m
  | CompileError m line col =>
      m +:+ " (line: " +:+ pretty line +:+ ", col: " +:+ pretty col +:+ ")"
  | OutOfRange => "out_of_range"
  | InvalidArgument => "invalid_argument"
  end.

(** A loop that runs until its body returns [inr], with binary fuel: [iterate
    step n s] makes up to [n] rounds, and stops early. *)
Fixpoint iterate {S R} (step : S → S + R) (fuel : positive) (s : S) : S + R :=
  match fuel with
  | xH => step s
  | xO n => match iterate step n s with inl s => iterate step n s | inr r => inr r end
  | xI n =>
      match step s with
      | inl s => match iterate step n s with inl s => iterate step n s | inr r => inr r end
      | inr r => inr r
      end
  end.

(** [v.at(i)] *)
Definition at_ {A} (l : list A) (i : Z) : result A :=
  if i <? 0 then Err OutOfRange else
  match l !! Z.to_nat i with Some x => Ok x | None => Err OutOfRange end.

(** [v.at(i) = x] *)
Definition set_at {A} (l : list A) (i : Z) (x : A) : result (list A) :=
  if (i <? 0) || (Z.of_nat (length l) <=? i) then Err OutOfRange
  else Ok (<[Z.to_nat i := x]> l).

(** [m.at(k)] *)
Definition map_at {K A} `{Countable K} (m : gmap K A) (k : K) : result A :=
  match m !! k with Some x => Ok x | None => Err OutOfRange end.

(* ------------------------------------------------------------------ *)
(** ** Machine integers *)

(** Conversion to an unsigned type of [w] bits, and to the signed type of the
    same width. *)
Definition uwrap (w : Z) (x : Z) : Z := x mod 2 ^ w.
Definition swrap (w : Z) (x : Z) : Z :=
  let b := x mod 2 ^ w in if 2 ^ (w - 1) <=? b then b - 2 ^ w else b.

Notation u8 := (uwrap 8).
Notation u16 := (uwrap 16).
Notation u32 := (uwrap 32).
Notation u64 := (uwrap 64).

(** [v.size()] as an integer. *)
Definition zlen {A} (l : list A) : Z := Z.of_nat (length l).
Definition slen (s : string) : Z := Z.of_nat (String.length s).

(** A byte vector holds values of [std::uint8_t]. *)
Definition byte_ok (b : Z) : Prop := 0 ≤ b < 256.
Definition bytes_ok (l : list Z) : Prop := Forall byte_ok l.

(** The characters of a [std::string] as byte values and back. *)
Definition z_of_ascii (c : Ascii.ascii) : Z := Z.of_N (Ascii.N_of_ascii c).
Definition ascii_of_z (z : Z) : Ascii.ascii := Ascii.ascii_of_N (Z.to_N z).
Definition bytes_of_string (s : string) : list Z :=
  z_of_ascii <$> String.list_ascii_of_string s.
Definition string_of_bytes (l : list Z) : string :=
  String.string_of_list_ascii (ascii_of_z <$> l).

(** [name.front()], 0 for the empty string. *)
Definition front (s : string) : Z :=
  match s with EmptyString => 0 | String c _ => z_of_ascii c end.

(** [name.compare(0, p.size(), p) == 0] *)
Definition starts_with (p s : string) : bool := String.prefix p s.

(** The string of one character, for prefixes with control characters. *)
Definition chr (z : Z) : string := String (ascii_of_z z) EmptyString.

(** A power of two or zero, as the code tests it: [!(x & (x - 1))]. *)
Definition pow2_or_zero (x : Z) : bool := Z.land x (x - 1) =? 0.

(* ------------------------------------------------------------------ *)
(** ** Tactics *)

Lemma Ok_inj {A} (a b : A) : Ok a = Ok b → a = b.
Proof. congruence. Qed.

(** Splits a successful run of the monad into the runs of its parts. *)
Ltac inv_result_step :=
  match goal with
  | u : unit |- _ => destruct u
  | H : Ok _ = Ok _ |- _ => apply Ok_inj in H; try subst
  | H : Err _ = Ok _ |- _ => discriminate H
  | H : Ok _ = Err _ |- _ => discriminate H
  | H : mret _ = Ok _ |- _ => unfold mret, result_mret in H
  | H : mbind _ ?m = Ok _ |- _ =>
      unfold mbind, result_mbind in H;
      let E := fresh "E" in destruct m eqn:E; cbn [result_bind] in H;
      [| discriminate H]
  | H : result_bind _ ?m = Ok _ |- _ =>
      let E := fresh "E" in destruct m eqn:E; cbn [result_bind] in H;
      [| discriminate H]
  | H : throw_if ?b _ = Ok _ |- _ =>
      unfold throw_if in H; let E := fresh "G" in destruct b eqn:E;
      [discriminate H | clear H]
  end.
Ltac inv_result := repeat inv_result_step.

(** Turns boolean tests of the code into the facts they decide. *)
Ltac bool_facts :=
  repeat match goal with
  | H : _ || _ = false |- _ => apply orb_false_iff in H; destruct H
  | H : _ && _ = true |- _ => apply andb_true_iff in H; destruct H
  | H : negb _ = true |- _ => apply negb_true_iff in H
  | H : negb _ = false |- _ => apply negb_false_iff in H
  | H : (_ <? _) = true |- _ => apply Z.ltb_lt in H
  | H : (_ <? _) = false |- _ => apply Z.ltb_ge in H
  | H : (_ <=? _) = true |- _ => apply Z.leb_le in H
  | H : (_ <=? _) = false |- _ => apply Z.leb_gt in H
  | H : (_ =? _) = true |- _ => apply Z.eqb_eq in H
  | H : (_ =? _) = false |- _ => apply Z.eqb_neq in H
  | H : (_ >? _) = _ |- _ => rewrite Z.gtb_ltb in H
  | H : (_ >=? _) = _ |- _ => rewrite Z.geb_leb in H
  | H : bool_decide _ = true |- _ => apply bool_decide_eq_true in H
  | H : bool_decide _ = false |- _ => apply bool_decide_eq_false in H
  end.

(** Evaluates the decisions that [done] settles, such as tests of constructors. *)
Ltac decides :=
  repeat match goal with
  | H : context [bool_decide ?P] |- _ => rewrite (bool_decide_true P) in H by done
  | H : context [bool_decide ?P] |- _ => rewrite (bool_decide_false P) in H by done
  | |- context [bool_decide ?P] => rewrite (bool_decide_true P) by done
  | |- context [bool_decide ?P] => rewrite (bool_decide_false P) by done
  end.

(** Cases on the tests of the goal, discharging the arithmetic ones. *)
Ltac case_tests :=
  repeat match goal with
  | |- context [Z.ltb ?a ?b] => destruct (Z.ltb_spec a b)
  | |- context [Z.leb ?a ?b] => destruct (Z.leb_spec a b)
  | |- context [Z.eqb ?a ?b] => destruct (Z.eqb_spec a b)
  end.

(** Arithmetic with / and mod. *)
Ltac zmod := Z.div_mod_to_equations; lia.
Ltac zmodn := Z.div_mod_to_equations; nia.

(* ------------------------------------------------------------------ *)
(** ** Lemmas on the monad *)

Lemma result_bind_ok {A B} (m : result A) (f : A → result B) b :
  (m ≫= f) = Ok b ↔ ∃ a, m = Ok a ∧ f a = Ok b.
Proof. destruct m; naive_solver. Qed.

Lemma throw_if_ok b e u : throw_if b e = Ok u ↔ b = false.
Proof. destruct b, u; naive_solver. Qed.

Lemma throw_if_false e : throw_if false e = Ok tt.
Proof. done. Qed.

Lemma forM_ok {A} (f : A → result unit) l u :
  forM_ f l = Ok u ↔ Forall (λ x, f x = Ok tt) l.
Proof.
  destruct u. induction l as [|x l IH]; cbn [forM_]; [naive_solver|].
  rewrite result_bind_ok, Forall_cons, <- IH. split.
  - by intros ([] & ? & ?).
  - intros [? ?]. by exists tt.
Qed.

Lemma foldM_app {A S} (f : S → A → result S) s l k :
  foldM f s (l ++ k) = (foldM f s l ≫= λ s', foldM f s' k).
Proof.
  revert s. induction l as [|x l IH]; intros s; cbn; [done|].
  unfold mbind, result_mbind. destruct (f s x); cbn; [apply IH | done].
Qed.

(** Rule of invariance for a throwing loop. *)
Lemma foldM_inv {A S} (P : S → Prop) (f : S → A → result S) l s s' :
  (∀ s x s', x ∈ l → P s → f s x = Ok s' → P s') →
  P s → foldM f s l = Ok s' → P s'.
Proof.
  revert s. induction l as [|x l IH]; intros s Hstep Hs H; cbn in H; inv_result; [done|].
  eapply IH; [| |done].
  - intros. eapply Hstep; eauto. by right.
  - eapply Hstep; eauto. left.
Qed.

Lemma indexed_lookup {A} (l : list A) k i x :
  indexed l !! k = Some (i, x) ↔ i = k ∧ l !! k = Some x.
Proof.
  unfold indexed. rewrite lookup_zip_Some, lookup_seq. split.
  - intros [[-> _] H]. done.
  - intros [-> H]. split; [|done]. split; [done|]. by apply lookup_lt_Some in H.
Qed.

Lemma elem_of_indexed {A} (l : list A) i x : (i, x) ∈ indexed l ↔ l !! i = Some x.
Proof.
  rewrite list_elem_of_lookup. split.
  - by intros (k & [-> H]%indexed_lookup).
  - intros H. exists i. by apply indexed_lookup.
Qed.

Lemma length_indexed {A} (l : list A) : length (indexed l) = length l.
Proof. unfold indexed. rewrite length_zip_with, length_seq. lia. Qed.

(** A loop over the elements of a vector, by the number of rounds done. *)
Lemma foldM_count {A S} (P : nat → S → Prop) (f : S → A → result S) l s s' :
  (∀ k x s s', l !! k = Some x → P k s → f s x = Ok s' → P (1 + k)%nat s') →
  P 0%nat s → foldM f s l = Ok s' → P (length l) s'.
Proof.
  revert P s. induction l as [|x l IH]; intros P s Hstep Hs H; cbn in H; inv_result; [done|].
  apply (IH (λ k, P (1 + k)%nat) a); [| |done].
  - intros k y t t' Hy. by apply (Hstep (1 + k)%nat).
  - by eapply (Hstep 0%nat).
Qed.

Lemma foldM_indexed {A S} (P : nat → S → Prop) (f : S → nat * A → result S) l s s' :
  (∀ k x s s', l !! k = Some x → P k s → f s (k, x) = Ok s' → P (1 + k)%nat s') →
  P 0%nat s → foldM f s (indexed l) = Ok s' → P (length l) s'.
Proof.
  intros Hstep Hs H. rewrite <- length_indexed. eapply foldM_count; [|done|done].
  intros k [i x] t t' [-> Hx]%indexed_lookup. by apply Hstep.
Qed.

Lemma forM_indexed {A} (f : nat * A → result unit) l u :
  forM_ f (indexed l) = Ok u ↔ ∀ k x, l !! k = Some x → f (k, x) = Ok tt.
Proof.
  rewrite forM_ok, Forall_forall. split.
  - intros H k x Hx. by apply H, elem_of_indexed.
  - intros H [k x] Hx%elem_of_indexed. by apply H.
Qed.

(** The rule of [iterate]: an invariant with a measure that every round
    decreases, and fuel for the measure, give a result. *)
Lemma iterate_steps {S R} (step : S → S + R) (I : S → Prop) (m : S → nat) (Q : R → Prop) :
  (∀ s, I s → match step s with inl s' => I s' ∧ (m s' < m s)%nat | inr r => Q r end) →
  ∀ fuel s, I s →
  match iterate step fuel s with
  | inl s' => I s' ∧ (m s' + Pos.to_nat fuel ≤ m s)%nat
  | inr r => Q r
  end.
Proof.
  intros Hstep fuel. induction fuel as [n IH|n IH|]; intros s Hs; cbn [iterate].
  - pose proof (Hstep s Hs) as H. destruct (step s) as [s1|r]; [|done]. destruct H as [H1 L1].
    pose proof (IH s1 H1) as H. destruct (iterate step n s1) as [s2|r]; [|done]. destruct H as [H2 L2].
    pose proof (IH s2 H2) as H. destruct (iterate step n s2); [|done]. destruct H. split; [done|lia].
  - pose proof (IH s Hs) as H. destruct (iterate step n s) as [s1|r]; [|done]. destruct H as [H1 L1].
    pose proof (IH s1 H1) as H. destruct (iterate step n s1); [|done]. destruct H. split; [done|lia].
  - pose proof (Hstep s Hs) as H. destruct (step s); [|done]. destruct H. split; [done|lia].
Qed.

Lemma iterate_ends {S R} (step : S → S + R) (I : S → Prop) (m : S → nat) (Q : R → Prop) fuel s :
  (∀ s, I s → match step s with inl s' => I s' ∧ (m s' < m s)%nat | inr r => Q r end) →
  I s → (m s < Pos.to_nat fuel)%nat → ∃ r, iterate step fuel s = inr r ∧ Q r.
Proof.
  intros Hstep Hs Hm. pose proof (iterate_steps step I m Q Hstep fuel s Hs) as H.
  destruct (iterate step fuel s) as [s'|r]; [lia | eauto].
Qed.

Lemma throw_when_ok c e u : throw_when c e = Ok u ↔ c = Ok false.
Proof.
  unfold throw_when. destruct c as [[]|]; cbn; destruct u; naive_solver.
Qed.

Lemma or_r_false a b : or_r a b = Ok false ↔ a = Ok false ∧ b = Ok false.
Proof. unfold or_r. rewrite result_bind_ok. destruct a as [[]|]; naive_solver. Qed.

Lemma and_r_false a b : and_r a b = Ok false ↔ a = Ok false ∨ (a = Ok true ∧ b = Ok false).
Proof. unfold and_r. rewrite result_bind_ok. destruct a as [[]|]; naive_solver. Qed.

Lemma not_r_false a : not_r a = Ok false ↔ a = Ok true.
Proof. unfold not_r. rewrite result_bind_ok. destruct a as [[]|]; naive_solver. Qed.

Lemma mapM_r_length {A B} (f : A → result B) l ys :
  mapM_r f l = Ok ys → length ys = length l.
Proof.
  revert ys. induction l as [|x l IH]; intros ys H; cbn in H; inv_result; [done|].
  cbn. f_equal. by apply IH.
Qed.

Lemma at_ok {A} (l : list A) i x :
  at_ l i = Ok x ↔ 0 ≤ i ∧ l !! Z.to_nat i = Some x.
Proof.
  unfold at_. destruct (Z.ltb_spec i 0); [split; [done | lia]|].
  destruct (l !! Z.to_nat i); naive_solver.
Qed.

Lemma at_lt {A} (l : list A) i x : at_ l i = Ok x → 0 ≤ i < zlen l.
Proof.
  rewrite at_ok. intros [? Hl]. apply lookup_lt_Some in Hl. unfold zlen. lia.
Qed.

Lemma at_total {A} (l : list A) i : 0 ≤ i < zlen l → ∃ x, at_ l i = Ok x.
Proof.
  unfold zlen. intros H. destruct (lookup_lt_is_Some_2 l (Z.to_nat i)) as [x Hx]; [lia|].
  exists x. apply at_ok. split; [lia | done].
Qed.

Lemma set_at_ok {A} (l l' : list A) i x :
  set_at l i x = Ok l' ↔ 0 ≤ i < zlen l ∧ l' = <[Z.to_nat i := x]> l.
Proof.
  unfold set_at, zlen. case_tests; cbn; split; intros; try done; try naive_solver lia.
Qed.

Lemma zlen_nonneg {A} (l : list A) : 0 ≤ zlen l.
Proof. unfold zlen. lia. Qed.

Lemma zlen_app {A} (l k : list A) : zlen (l ++ k) = zlen l + zlen k.
Proof. unfold zlen. rewrite length_app. lia. Qed.

Lemma zlen_cons {A} (x : A) l : zlen (x :: l) = 1 + zlen l.
Proof. unfold zlen. cbn [length]. lia. Qed.

Lemma zlen_nil {A} : zlen (@nil A) = 0.
Proof. done. Qed.

(** A relation between any two elements of a list. *)
Definition pairwise {A} (R : A → A → Prop) (l : list A) : Prop :=
  ∀ i j a b, i ≠ j → l !! i = Some a → l !! j = Some b → R a b.

Lemma pairwise_cons {A} (R : A → A → Prop) `{!Symmetric R} a l :
  pairwise R (a :: l) ↔ Forall (R a) l ∧ pairwise R l.
Proof.
  rewrite Forall_lookup. split.
  - intros H. split.
    + intros i b Hb. by apply (H 0%nat (S i)).
    + intros i j x y Hij. apply (H (S i) (S j)). congruence.
  - intros [Ha Hl] [|i] [|j] x y Hij; cbn; intros Hx Hy; [done | | |].
    + injection Hx as <-. by eapply Ha.
    + injection Hy as <-. symmetry. by eapply Ha.
    + eapply Hl; [|done|done]. congruence.
Qed.

Lemma pairwise_perm {A} (R : A → A → Prop) l k : l ≡ₚ k → pairwise R l → pairwise R k.
Proof.
  intros Hp%symmetry H i j a b Hij Ha Hb.
  apply Permutation_inj in Hp as (_ & f & Hf & Hl).
  rewrite Hl in Ha, Hb. eapply H; [|done|done]. intros E. by apply Hij, Hf.
Qed.

Lemma pairwise_fmap {A B} (R : B → B → Prop) (g : A → B) l :
  pairwise R (g <$> l) ↔ pairwise (λ a b, R (g a) (g b)) l.
Proof.
  unfold pairwise. setoid_rewrite list_lookup_fmap. split.
  - intros H i j a b Hij Ha Hb. apply (H i j); [done | by rewrite Ha | by rewrite Hb].
  - intros H i j a b Hij (x & Hx & ->)%fmap_Some (y & Hy & ->)%fmap_Some. eauto.
Qed.

(* ------------------------------------------------------------------ *)
(** ** Lemmas on machine integers *)

Lemma uwrap_range w x : 0 ≤ w → 0 ≤ uwrap w x < 2 ^ w.
Proof. intros. apply Z.mod_pos_bound. lia. Qed.

Lemma uwrap_small w x : 0 ≤ x < 2 ^ w → uwrap w x = x.
Proof. intros. by apply Z.mod_small. Qed.


Lemma u8_range x : 0 ≤ u8 x < 256.
Proof. apply (uwrap_range 8). lia. Qed.

Lemma u16_range x : 0 ≤ u16 x < 65536.
Proof. apply (uwrap_range 16). lia. Qed.

Lemma swrap_range w x : 0 < w → - 2 ^ (w - 1) ≤ swrap w x < 2 ^ (w - 1).
Proof.
  intros Hw. unfold swrap. pose proof (uwrap_range w x ltac:(lia)) as H. unfold uwrap in H.
  assert (2 ^ w = 2 * 2 ^ (w - 1)) as E by (rewrite <- Z.pow_succ_r by lia; f_equal; lia).
  destruct (Z.leb_spec (2 ^ (w - 1)) (x mod 2 ^ w)); lia.
Qed.

(** The signed and the unsigned view agree modulo [2 ^ w]. *)
Lemma swrap_mod w x : 0 < w → swrap w x mod 2 ^ w = x mod 2 ^ w.
Proof.
  intros Hw. unfold swrap. destruct (Z.leb_spec (2 ^ (w - 1)) (x mod 2 ^ w)).
  - rewrite <- (Z.mod_add (_ - _) 1) by lia. rewrite Z.mul_1_l, Z.sub_add. apply Z.mod_mod. lia.
  - apply Z.mod_mod. lia.
Qed.

Lemma swrap_id w x : 0 < w → - 2 ^ (w - 1) ≤ x < 2 ^ (w - 1) → swrap w x = x.
Proof.
  intros Hw Hx. assert (2 ^ w = 2 * 2 ^ (w - 1)) as E by (rewrite <- Z.pow_succ_r by lia; f_equal; lia).
  unfold swrap. destruct (Z_lt_le_dec x 0).
  - rewrite <- (Z.mod_add x 1), Z.mod_small by lia.
    destruct (Z.leb_spec (2 ^ (w - 1)) (x + 1 * 2 ^ w)); lia.
  - rewrite Z.mod_small by lia. destruct (Z.leb_spec (2 ^ (w - 1)) x); lia.
Qed.

Lemma swrap_congr w x y : x mod 2 ^ w = y mod 2 ^ w → swrap w x = swrap w y.
Proof. unfold swrap. by intros ->. Qed.

Lemma bytes_ok_app l k : bytes_ok (l ++ k) ↔ bytes_ok l ∧ bytes_ok k.
Proof. apply Forall_app. Qed.

(** Characters and bytes. *)
Lemma z_of_ascii_range c : 0 ≤ z_of_ascii c < 256.
Proof. unfold z_of_ascii. pose proof (Ascii.N_ascii_bounded c). lia. Qed.

Lemma ascii_of_z_of_ascii c : ascii_of_z (z_of_ascii c) = c.
Proof. unfold ascii_of_z, z_of_ascii. rewrite N2Z.id. apply Ascii.ascii_N_embedding. Qed.

Lemma z_of_ascii_of_z z : byte_ok z → z_of_ascii (ascii_of_z z) = z.
Proof.
  unfold byte_ok, ascii_of_z, z_of_ascii. intros.
  rewrite Ascii.N_ascii_embedding by lia. lia.
Qed.

Lemma bytes_of_string_ok s : bytes_ok (bytes_of_string s).
Proof. apply Forall_fmap, Forall_true. intros c. apply z_of_ascii_range. Qed.

Lemma string_of_bytes_of_string s : string_of_bytes (bytes_of_string s) = s.
Proof.
  unfold string_of_bytes, bytes_of_string. rewrite <- list_fmap_compose.
  rewrite <- (String.string_of_list_ascii_of_string s) at 2. f_equal.
  rewrite <- (list_fmap_id (String.list_ascii_of_string s)) at 2.
  apply list_fmap_ext. intros ? c _. apply ascii_of_z_of_ascii.
Qed.

Lemma length_bytes_of_string s : zlen (bytes_of_string s) = slen s.
Proof.
  unfold zlen, slen, bytes_of_string. rewrite length_fmap.
  induction s as [|c s IH]; cbn; lia.
Qed.

(* ------------------------------------------------------------------ *)
(** ** Bit operations as arithmetic *)

Lemma land_mask k x : 0 ≤ k → Z.land x (2 ^ k - 1) = x mod 2 ^ k.
Proof. intros. rewrite <- Z.land_ones by lia. f_equal. rewrite Z.ones_equiv. lia. Qed.

Lemma land_255 x : Z.land x 255 = x mod 256.
Proof. apply (land_mask 8). lia. Qed.

Lemma land_65535 x : Z.land x 65535 = x mod 65536.
Proof. apply (land_mask 16). lia. Qed.

Lemma shiftr_8 x : Z.shiftr x 8 = x / 256.
Proof. apply (Z.shiftr_div_pow2 x 8). lia. Qed.

Lemma shiftr_16 x : Z.shiftr x 16 = x / 65536.
Proof. apply (Z.shiftr_div_pow2 x 16). lia. Qed.

Lemma shiftr_24 x : Z.shiftr x 24 = x / 16777216.
Proof. apply (Z.shiftr_div_pow2 x 24). lia. Qed.

Lemma shiftl_8 x : Z.shiftl x 8 = x * 256.
Proof. apply (Z.shiftl_mul_pow2 x 8). lia. Qed.

Lemma shiftl_16 x : Z.shiftl x 16 = x * 65536.
Proof. apply (Z.shiftl_mul_pow2 x 16). lia. Qed.

Lemma shiftl_24 x : Z.shiftl x 24 = x * 16777216.
Proof. apply (Z.shiftl_mul_pow2 x 24). lia. Qed.

(** Or-ing fields that do not overlap is adding them. *)
Lemma lor_fields k hi lo : 0 ≤ k → 0 ≤ lo < 2 ^ k → Z.lor (hi * 2 ^ k) lo = hi * 2 ^ k + lo.
Proof.
  intros Hk Hlo. apply Z.bits_inj'. intros n Hn.
  rewrite Z.lor_spec. destruct (Z_lt_le_dec n k).
  - rewrite Z.mul_pow2_bits_low by lia. cbn.
    rewrite <- (Z.mod_pow2_bits_low (hi * 2 ^ k + lo) k n) by lia.
    rewrite Z.add_comm, Z.mod_add, Z.mod_small by lia. done.
  - rewrite Z.mul_pow2_bits by lia.
    rewrite <- (Z.mod_small lo (2 ^ k)) at 1 by lia. rewrite Z.mod_pow2_bits_high by lia.
    rewrite orb_false_r. replace n with ((n - k) + k) at 2 by lia.
    rewrite <- Z.div_pow2_bits by lia. rewrite Z.div_add_l, Z.div_small by lia.
    f_equal. lia.
Qed.

Lemma lor_fields_8 hi lo : byte_ok lo → Z.lor lo (hi * 256) = hi * 256 + lo.
Proof. intros H. rewrite Z.lor_comm. apply (lor_fields 8); [lia | apply H]. Qed.

Lemma lor_fields_16 hi lo : 0 ≤ lo < 65536 → Z.lor (hi * 65536) lo = hi * 65536 + lo.
Proof. intros H. apply (lor_fields 16); [lia | apply H]. Qed.

(** Keeping the bits from [k] up to [n]. *)
Lemma land_high k n x :
  0 ≤ k ≤ n → Z.land x (2 ^ n - 2 ^ k) = (x mod 2 ^ n) / 2 ^ k * 2 ^ k.
Proof.
  intros H. rewrite <- Z.shiftr_div_pow2, <- Z.shiftl_mul_pow2 by lia.
  rewrite <- land_mask by lia.
  assert (2 ^ n - 2 ^ k = Z.shiftl (Z.ones (n - k)) k) as ->.
  { rewrite Z.shiftl_mul_pow2, Z.ones_equiv by lia.
    replace n with ((n - k) + k) at 1 by lia. rewrite Z.pow_add_r by lia. lia. }
  replace (2 ^ n - 1) with (Z.ones n) by (rewrite Z.ones_equiv; lia).
  apply Z.bits_inj'. intros i Hi. rewrite Z.land_spec.
  destruct (Z_lt_le_dec i k).
  - by rewrite !Z.shiftl_spec_low, andb_false_r by lia.
  - rewrite !Z.shiftl_spec_high, Z.shiftr_spec, Z.land_spec by lia.
    replace (i - k + k) with i by lia.
    rewrite !Z.testbit_ones by lia. f_equal. case_tests; lia.
Qed.

Lemma land_bank x : 0 ≤ x < 16777216 → Z.land x 16711680 = x / 65536 * 65536.
Proof.
  intros. change 16711680 with (2 ^ 24 - 2 ^ 16). rewrite land_high by lia.
  rewrite Z.mod_small by lia. done.
Qed.

(** A power of two, recognised by [x & (x - 1)], in the range the code uses. *)
Lemma pow2_small x : 1 ≤ x ≤ 128 → pow2_or_zero x = true → x ∈ [1; 2; 4; 8; 16; 32; 64; 128].
Proof.
  intros Hx Hp. assert (x ∈ seqZ 1 128) as Hin by (apply elem_of_seqZ; lia).
  assert (forallb (λ x, implb (pow2_or_zero x) (bool_decide (x ∈ [1; 2; 4; 8; 16; 32; 64; 128])))
            (seqZ 1 128) = true) as Hall by (vm_compute; reflexivity).
  rewrite forallb_forall in Hall. specialize (Hall x). rewrite Hp in Hall.
  eapply bool_decide_eq_true, Hall. by apply list_elem_of_In.
Qed.

(* ------------------------------------------------------------------ *)
(** ** Automation *)

Create HintDb disco.
#[export] Hint Resolve zlen_nonneg u8_range u16_range bytes_of_string_ok z_of_ascii_range : disco.
#[export] Hint Rewrite @zlen_app @zlen_cons @zlen_nil : zlen.
