(* ===== verification/Target.v ===== *)
(** * Target: configuration shared by the compiler, the object format and the linker

    Models [TargetConfig.hpp], [BitmapConfig.hpp], [GsuMemoryMap.hpp],
    [Placement.hpp] and the memory-mapped-register test of
    [SPC700Target.hpp]: the target and mapping enumerations, the capability
    table, the host bitmap configuration, the GSU memory map with its payload
    and near-target checks, and the placement rule that picks the origin. *)

From S2P Require Import Prelude.

(** ** Enumerations and configuration records *)

Inductive TargetKind := GSU | SPC700.
Inductive TargetCapability := Graphics | InstructionCache | HardwareLoops | FarData.
Inductive MemoryMapping := LoROM | HiROM.
Inductive OptimizationLevel := Baseline | OptO1 | OptO2 | OptSize.

#[global] Instance TargetKind_eq_dec : EqDecision TargetKind.
Proof. solve_decision. Defined.
#[global] Instance TargetCapability_eq_dec : EqDecision TargetCapability.
Proof. solve_decision. Defined.
#[global] Instance MemoryMapping_eq_dec : EqDecision MemoryMapping.
Proof. solve_decision. Defined.
#[global] Instance OptimizationLevel_eq_dec : EqDecision OptimizationLevel.
Proof. solve_decision. Defined.

Definition supportsCapability (target : TargetKind) (capability : TargetCapability) : bool :=
  match target with
  | GSU =>
      match capability with
      | Graphics | InstructionCache | HardwareLoops | FarData => true
      end
  | SPC700 => false
  end.

Definition capabilityName (capability : TargetCapability) : string :=
  match capability with
  | Graphics => "graphics"
  | InstructionCache => "instruction-cache"
  | HardwareLoops => "hardware-loops"
  | FarData => "far-data"
  end.

Definition targetName (target : TargetKind) : string :=
  match target with GSU => "GSU" | SPC700 => "SPC700" end.

Definition isGlobalOptimization (level : OptimizationLevel) : bool :=
  match level with OptO2 | OptSize => true | _ => false end.

(** The byte the object format stores for an enumeration. *)
Definition target_code (t : TargetKind) : Z := match t with GSU => 0 | SPC700 => 1 end.
Definition mapping_code (m : MemoryMapping) : Z := match m with LoROM => 0 | HiROM => 1 end.

(** ** Bitmap configuration *)

Module Bitmap.

Record BitmapConfig := mkBitmap {
  enabled : bool;
  object_mode : bool;
  height : Z;   (* std::uint16_t *)
  depth : Z;    (* std::uint8_t *)
  base : Z      (* std::uint32_t *)
}.

Definition default : BitmapConfig := mkBitmap false false 128 4 0.

#[global] Instance BitmapConfig_eq_dec : EqDecision BitmapConfig.
Proof. solve_decision. Defined.

Definition sizeBytes (b : BitmapConfig) : Z :=
  u32 (u32 (256 * (if object_mode b then 256 else height b)) * depth b) / 8.

Definition scbr (b : BitmapConfig) : Z := u8 (Z.shiftr (base b) 10).

Definition scmr (b : BitmapConfig) : Z :=
  let h := if object_mode b then 36 else if height b =? 192 then 32
           else if height b =? 160 then 4 else 0 in
  u8 (Z.lor h (if depth b =? 8 then 3 else if depth b =? 4 then 1 else 0)).

Definition validate (b : BitmapConfig) : result unit :=
  if negb (enabled b) then Ok tt else
  throw_if ((negb (object_mode b) && negb (height b =? 128) && negb (height b =? 160)
             && negb (height b =? 192))
            || (object_mode b && negb (height b =? 256))
            || (negb (depth b =? 2) && negb (depth b =? 4) && negb (depth b =? 8)))
    (RuntimeError "Invalid SuperFX bitmap mode, size or depth.");;
  throw_if (negb (Z.land (base b) 1023 =? 0) || (131072 <=? base b)
            || (u32 (131072 - base b) <? sizeBytes b))
    (RuntimeError "SuperFX bitmap base must be SCBR-aligned (1024 bytes) and its framebuffer must fit in cartridge RAM.").

(** [operator==]: two disabled configurations are equal whatever they hold. *)
Definition eqb (a b : BitmapConfig) : bool :=
  Bool.eqb (enabled a) (enabled b)
  && (negb (enabled a)
      || (Bool.eqb (object_mode a) (object_mode b) && (height a =? height b)
          && (depth a =? depth b) && (base a =? base b))).

(** The ranges of the C++ fields. *)
Definition wf (b : BitmapConfig) : Prop :=
  0 ≤ height b < 65536 ∧ 0 ≤ depth b < 256 ∧ 0 ≤ base b < 2 ^ 32.

End Bitmap.
Notation BitmapConfig := Bitmap.BitmapConfig.

Record CompilerConfig := mkConfig {
  target : TargetKind;
  mapping : MemoryMapping;
  code_start_address : Z;   (* std::uint32_t *)
  optimize_loop_setup : bool;
  optimization : OptimizationLevel;
  require_no_spills : bool;
  warn_on_cache_overflow : bool;
  bitmap : BitmapConfig
}.

Definition default_config : CompilerConfig :=
  mkConfig GSU LoROM 32768 false Baseline false true Bitmap.default.

#[global] Instance CompilerConfig_eq_dec : EqDecision CompilerConfig.
Proof. solve_decision. Defined.

(** [operator==] compares the placement contract only. *)
Definition config_eqb (lhs rhs : CompilerConfig) : bool :=
  bool_decide (target lhs = target rhs) && bool_decide (mapping lhs = mapping rhs)
  && (code_start_address lhs =? code_start_address rhs).

Definition with_mapping (m : MemoryMapping) (c : CompilerConfig) : CompilerConfig :=
  mkConfig (target c) m (code_start_address c) (optimize_loop_setup c) (optimization c)
    (require_no_spills c) (warn_on_cache_overflow c) (bitmap c).
Definition with_start (a : Z) (c : CompilerConfig) : CompilerConfig :=
  mkConfig (target c) (mapping c) a (optimize_loop_setup c) (optimization c)
    (require_no_spills c) (warn_on_cache_overflow c) (bitmap c).
Definition with_bitmap (b : BitmapConfig) (c : CompilerConfig) : CompilerConfig :=
  mkConfig (target c) (mapping c) (code_start_address c) (optimize_loop_setup c) (optimization c)
    (require_no_spills c) (warn_on_cache_overflow c) b.

(** ** GSU memory map *)

Module MemoryMap.

Inductive Region := Unmapped | Rom | Ram.

#[global] Instance Region_eq_dec : EqDecision Region.
Proof. solve_decision. Defined.

(** Uppercase hexadecimal without padding; eight digits hold any 32-bit value. *)
Definition hex_digit (d : Z) : string :=
  chr (if d <? 10 then 48 + d else 55 + d).
Fixpoint hex_text (fuel : nat) (x : Z) : string :=
  match fuel with
  | O => ""
  | S fuel =>
      if x <? 16 then hex_digit x else hex_text fuel (x / 16) +:+ hex_digit (x mod 16)
  end.
Definition addressText (address : Z) : string := "$" +:+ hex_text 8 address.

Definition bank (address : Z) : Z := Z.shiftr address 16.

Definition region (address : Z) : Region :=
  if 16777215 <? address then Unmapped else
  let address_bank := bank address in
  let offset := Z.land address 65535 in
  if ((address_bank <=? 63) && (32768 <=? offset))
     || ((64 <=? address_bank) && (address_bank <=? 95)) then Rom
  else if (address_bank =? 112) || (address_bank =? 113) then Ram
  else Unmapped.

Definition validateAddress (address : Z) : result unit :=
  throw_if (bool_decide (region address = Unmapped))
    (RuntimeError ("GSU address " +:+ addressText address +:+
       " is outside supported ROM/RAM regions: $00-$3F:$8000-$FFFF, $40-$5F:$0000-$FFFF, or $70-$71:$0000-$FFFF.")).

Definition validatePayload (origin code_bytes data_bytes : Z) : result unit :=
  validateAddress origin;;
  let capacity := 65536 - Z.land origin 65535 in
  throw_if ((capacity <? code_bytes) || (u64 (capacity - code_bytes) <? data_bytes))
    (RuntimeError "GSU payload crosses a program-bank boundary; multi-bank placement is not supported.").

Definition validateNearTarget (origin target : Z) : result unit :=
  validateAddress origin;;
  validateAddress target;;
  throw_if (negb (bank origin =? bank target))
    (RuntimeError ("16-bit GSU relocation targets a different bank (" +:+
       addressText origin +:+ " -> " +:+ addressText target +:+ ").")).

End MemoryMap.

(** ** Placement *)

Module Placement.

Inductive Execution := Automatic | ExecRom | ExecRam.

#[global] Instance Execution_eq_dec : EqDecision Execution.
Proof. solve_decision. Defined.

Record PlacementOptions := mkPlacement {
  p_mapping : MemoryMapping;
  origin : Z;
  explicit_origin : bool;
  execution : Execution
}.

Definition default : PlacementOptions := mkPlacement LoROM 32768 false Automatic.

(** The start address an unconstrained build gets. *)
Definition chosen_origin (o : PlacementOptions) : Z :=
  if explicit_origin o then origin o
  else if bool_decide (execution o = ExecRam) then 7372800
  else if bool_decide (p_mapping o = LoROM) then 32768 else 4227072.

Definition applyPlacement (config : CompilerConfig) (o : PlacementOptions) : result CompilerConfig :=
  let config := with_start (chosen_origin o) (with_mapping (p_mapping o) config) in
  throw_if (16777215 <? code_start_address config) (RuntimeError "Origin must fit in 24 bits.");;
  if bool_decide (target config ≠ GSU) then
    throw_if (explicit_origin o || bool_decide (p_mapping o ≠ LoROM)
              || bool_decide (execution o ≠ Automatic))
      (RuntimeError "GSU placement options are not supported for this target.");;
    Ok config
  else
    (if bool_decide (execution o ≠ Automatic) then
       let expected := if bool_decide (execution o = ExecRam) then MemoryMap.Ram else MemoryMap.Rom in
       throw_if (bool_decide (MemoryMap.region (code_start_address config) ≠ expected))
         (RuntimeError "Origin does not match selected execution memory.")
     else Ok tt);;
    MemoryMap.validateAddress (code_start_address config);;
    Ok config.

End Placement.

(** ** SPC-700 data layout *)

Definition isMemoryMappedRegister (address : Z) : bool :=
  (240 <=? address) && (address <=? 255).

(* ------------------------------------------------------------------ *)
(** ** Lemmas *)

Lemma config_eqb_spec a b :
  config_eqb a b = true ↔
  target a = target b ∧ mapping a = mapping b ∧ code_start_address a = code_start_address b.
Proof.
  unfold config_eqb. rewrite !andb_true_iff, !bool_decide_eq_true, Z.eqb_eq. naive_solver.
Qed.

(** [region] in arithmetic form. *)
Lemma region_cases a :
  0 ≤ a →
  MemoryMap.region a =
    if 16777216 <=? a then MemoryMap.Unmapped
    else if (64 <=? a / 65536) && (a / 65536 <=? 95) then MemoryMap.Rom
    else if (a / 65536 <=? 63) && (32768 <=? a mod 65536) then MemoryMap.Rom
    else if (112 <=? a / 65536) && (a / 65536 <=? 113) then MemoryMap.Ram
    else MemoryMap.Unmapped.
Proof.
  intros Ha. unfold MemoryMap.region, MemoryMap.bank. rewrite land_65535, shiftr_16.
  case_tests; cbn; try done; try lia.
Qed.

Lemma validateAddress_ok a u :
  MemoryMap.validateAddress a = Ok u ↔ MemoryMap.region a ≠ MemoryMap.Unmapped.
Proof. unfold MemoryMap.validateAddress. by rewrite throw_if_ok, bool_decide_eq_false. Qed.

Lemma region_mapped_range a :
  0 ≤ a → MemoryMap.region a ≠ MemoryMap.Unmapped → a < 16777216.
Proof. intros Ha. rewrite region_cases by done. destruct (Z.leb_spec 16777216 a); [done | lia]. Qed.

Lemma region_ram a :
  0 ≤ a → MemoryMap.region a = MemoryMap.Ram ↔ 7340032 ≤ a < 7471104.
Proof.
  intros Ha. rewrite region_cases by done.
  split; case_tests; cbn; intros; try done; zmod.
Qed.

(** Two addresses of one window of a bank are in one region. *)
Lemma region_same_window a b :
  0 ≤ a ≤ b → a / 65536 = b / 65536 → MemoryMap.region a ≠ MemoryMap.Unmapped →
  MemoryMap.region b = MemoryMap.region a.
Proof.
  intros Hab Hbank. rewrite !region_cases by lia.
  rewrite <- Hbank. case_tests; cbn; intros; try done; zmod.
Qed.

Lemma validatePayload_ok origin code data u :
  0 ≤ origin → 0 ≤ code → 0 ≤ data →
  MemoryMap.validatePayload origin code data = Ok u ↔
  MemoryMap.region origin ≠ MemoryMap.Unmapped ∧ origin mod 65536 + code + data ≤ 65536.
Proof.
  intros Ho Hc Hd. unfold MemoryMap.validatePayload. rewrite result_bind_ok. split.
  - intros ([] & Hv & H). apply validateAddress_ok in Hv. rewrite throw_if_ok in H.
    rewrite land_65535 in H. bool_facts. split; [done|].
    rewrite uwrap_small in * by zmod. zmod.
  - intros [Hr Hb]. exists tt. split; [by apply validateAddress_ok|].
    rewrite throw_if_ok, land_65535. rewrite uwrap_small by zmod. case_tests; cbn; [zmod..|done].
Qed.

Lemma validateNearTarget_ok o t u :
  MemoryMap.validateNearTarget o t = Ok u ↔
  MemoryMap.region o ≠ MemoryMap.Unmapped ∧ MemoryMap.region t ≠ MemoryMap.Unmapped ∧
  MemoryMap.bank o = MemoryMap.bank t.
Proof.
  unfold MemoryMap.validateNearTarget. rewrite result_bind_ok. setoid_rewrite result_bind_ok.
  setoid_rewrite validateAddress_ok. setoid_rewrite throw_if_ok.
  setoid_rewrite negb_false_iff. setoid_rewrite Z.eqb_eq. split.
  - intros (? & ? & ? & ? & ?). done.
  - intros (? & ? & ?). do 2 (exists tt; split; [done|]). done.
Qed.

#[export] Hint Rewrite land_65535 land_255 shiftr_8 shiftr_16 shiftr_24 : bits.

(* ------------------------------------------------------------------ *)
(** ** Properties *)

(** A payload the linker accepts stays in the program bank and the memory
    region of its origin: every address of the payload has the bank and the
    region (ROM or RAM) of the origin, so no byte is placed outside mapped
    memory and no 16-bit address inside it wraps. *)
Theorem validatePayload_sound (origin code data i : Z) :
  0 ≤ origin → 0 ≤ code → 0 ≤ data →
  MemoryMap.validatePayload origin code data = Ok tt →
  0 ≤ i < code + data →
  MemoryMap.region (origin + i) = MemoryMap.region origin ∧
  MemoryMap.region origin ≠ MemoryMap.Unmapped ∧
  MemoryMap.bank (origin + i) = MemoryMap.bank origin.
Proof.
  intros Ho Hc Hd H Hi. apply validatePayload_ok in H as [Hr Hb]; try done.
  assert ((origin + i) / 65536 = origin / 65536) as Hbank by zmod.
  split; [by apply region_same_window; [lia| |]|]. split; [done|].
  unfold MemoryMap.bank. by rewrite !shiftr_16.
Qed.

Lemma validatePayload_sound_witness :
  MemoryMap.validatePayload 32768 100 20 = Ok tt ∧
  MemoryMap.region (32768 + 119) = MemoryMap.region 32768.
Proof.
  split; [reflexivity|].
  apply (validatePayload_sound 32768 100 20 119); [lia | lia | lia | reflexivity | lia].
Defined.

(** A bitmap configuration that validates describes a framebuffer that lies
    inside the 128 KiB of cartridge RAM, at an address the SCBR register can
    express exactly, and its SCMR byte keeps the host's ownership bits clear. *)
Theorem bitmap_validate_sound (b : BitmapConfig) :
  Bitmap.wf b → Bitmap.enabled b = true → Bitmap.validate b = Ok tt →
  Bitmap.base b + Bitmap.sizeBytes b ≤ 131072 ∧ 8192 ≤ Bitmap.sizeBytes b ∧
  Bitmap.scbr b * 1024 = Bitmap.base b ∧
  Z.land (Bitmap.scmr b) 24 = 0 ∧
  (∀ i, 0 ≤ i < Bitmap.sizeBytes b →
     MemoryMap.region (7340032 + Bitmap.base b + i) = MemoryMap.Ram).
Proof.
  intros (Hh & Hd & Hb) He H. unfold Bitmap.validate in H. rewrite He in H. cbn in H.
  inv_result. bool_facts.
  assert (Z.land (Bitmap.base b) 1023 = Bitmap.base b mod 1024) as Hm by (apply (land_mask 10); lia).
  rewrite Hm in *.
  rewrite (uwrap_small 32 (131072 - Bitmap.base b)) in * by lia.
  assert (8192 ≤ Bitmap.sizeBytes b) as Hsize.
  { unfold Bitmap.sizeBytes. rewrite !uwrap_small.
    - destruct (Bitmap.object_mode b); cbn in *;
        repeat match goal with H : _ && _ = false |- _ => apply andb_false_iff in H as [H|H] end;
        bool_facts; zmod.
    - destruct (Bitmap.object_mode b); lia.
    - rewrite uwrap_small by (destruct (Bitmap.object_mode b); lia).
      destruct (Bitmap.object_mode b); nia. }
  split_and!.
  - lia.
  - done.
  - unfold Bitmap.scbr. rewrite Z.shiftr_div_pow2 by lia. rewrite uwrap_small; zmod.
  - unfold Bitmap.scmr. destruct (Bitmap.object_mode b); case_tests; reflexivity.
  - intros i Hi. apply region_ram; lia.
Qed.

Lemma bitmap_validate_sound_witness :
  Bitmap.validate (Bitmap.mkBitmap true false 192 4 1024) = Ok tt ∧
  Bitmap.scbr (Bitmap.mkBitmap true false 192 4 1024) * 1024 = 1024.
Proof.
  split; [reflexivity|].
  apply (bitmap_validate_sound (Bitmap.mkBitmap true false 192 4 1024));
    [unfold Bitmap.wf; cbn; lia | reflexivity | reflexivity].
Defined.

(** Placement: the origin a GSU configuration ends with is a mapped 24-bit
    address, in the region the execution option selects, and everything but the
    mapping and the origin is left as it was. *)
Theorem applyPlacement_sound (c c' : CompilerConfig) (o : Placement.PlacementOptions) :
  target c = GSU → 0 ≤ Placement.origin o →
  Placement.applyPlacement c o = Ok c' →
  c' = with_start (Placement.chosen_origin o) (with_mapping (Placement.p_mapping o) c) ∧
  0 ≤ code_start_address c' < 16777216 ∧
  MemoryMap.region (code_start_address c') ≠ MemoryMap.Unmapped ∧
  (Placement.execution o = Placement.ExecRam →
     MemoryMap.region (code_start_address c') = MemoryMap.Ram) ∧
  (Placement.execution o = Placement.ExecRom →
     MemoryMap.region (code_start_address c') = MemoryMap.Rom).
Proof.
  intros Ht Ho H. unfold Placement.applyPlacement in H. inv_result. bool_facts.
  cbn in H, G. rewrite Ht in H. rewrite bool_decide_false in H by naive_solver. inv_result.
  cbn. split; [done|]. split.
  { unfold Placement.chosen_origin in *. case_match; [lia|]. case_bool_decide; [lia|].
    case_bool_decide; lia. }
  apply validateAddress_ok in E0. split; [done|].
  split; intros Hx; rewrite Hx in E; unfold throw_if in E; repeat case_bool_decide; naive_solver.
Qed.

Lemma applyPlacement_sound_witness :
  code_start_address
    (with_start (Placement.chosen_origin (Placement.mkPlacement LoROM 0 false Placement.ExecRam))
       (with_mapping LoROM default_config)) = 7372800 ∧
  MemoryMap.region 7372800 ≠ MemoryMap.Unmapped.
Proof.
  split; [reflexivity|].
  apply (applyPlacement_sound default_config
           (with_start 7372800 (with_mapping LoROM default_config))
           (Placement.mkPlacement LoROM 0 false Placement.ExecRam));
    [reflexivity | cbn; lia | vm_compute; reflexivity].
Defined.
