(* ===== verification/Types.v ===== *)
(** * Types: the compiler's semantic types

    Models [Types.hpp]: symbol identities, address spaces, access qualifiers,
    the [Type] record with its per-layer pointer metadata, and the operations
    that build, normalise and take apart pointer types.  A pointer layer at
    index [i] (innermost first) has a reach, an address space and the
    qualifiers of the object it points to. *)

From S2P Require Import Prelude.

Definition MaxPointerDepth : Z := 32.
Definition MaxAddressPointerDepth : Z := MaxPointerDepth + 1.

(** [SymbolId]: 0 is the invalid identity. *)
Definition SymbolId := Z.
Definition symbol_isValid (id : SymbolId) : bool := negb (id =? 0).

Inductive AddressSpace := SpaceNone | SpaceRam | SpaceRom.
Inductive BaseType := BaseNone | BaseByte | BaseWord | BaseVoid | BaseStruct | BaseBool.
Inductive Linkage := External | Internal.

Record AccessQualifiers := mkQual { q_const : bool; q_volatile : bool }.

#[global] Instance AddressSpace_eq_dec : EqDecision AddressSpace.
Proof. solve_decision. Defined.
#[global] Instance BaseType_eq_dec : EqDecision BaseType.
Proof. solve_decision. Defined.
#[global] Instance Linkage_eq_dec : EqDecision Linkage.
Proof. solve_decision. Defined.
#[global] Instance AccessQualifiers_eq_dec : EqDecision AccessQualifiers.
Proof. solve_decision. Defined.

Definition no_quals : AccessQualifiers := mkQual false false.

(** [struct Type] ([Type] is a keyword here). *)
Record CType := mkType {
  base : BaseType;
  structName : string;
  sizeInBytes : Z;
  is_unsigned : bool;
  pointer_level : Z;
  is_far : bool;
  array_size : Z;
  space : AddressSpace;
  pointer_reach : list bool;
  pointer_spaces : list AddressSpace;
  is_const : bool;
  is_volatile : bool;
  pointee_qualifiers : list AccessQualifiers;
  alignment : Z;
  aggregate_size : Z;
  enum_name : string
}.

#[global] Instance CType_eq_dec : EqDecision CType.
Proof. solve_decision. Defined.

Definition default_type : CType :=
  mkType BaseNone "" 0 false 0 false 0 SpaceNone [] [] false false [] 0 0 "".

(** A scalar of [size] bytes. *)
Definition scalar_type (b : BaseType) (size : Z) (unsigned : bool) : CType :=
  mkType b "" size unsigned 0 false 0 SpaceNone [] [] false false [] 0 0 "".

Definition storageAlignment (t : CType) : Z :=
  if 0 <? pointer_level t then 2
  else if bool_decide (base t = BaseByte) || bool_decide (base t = BaseBool)
          || bool_decide (base t = BaseVoid) then 1
  else if bool_decide (base t = BaseStruct) && (0 <? alignment t) then alignment t
  else 2.

(** [v.back()] and [v.front()] on a vector the code knows is not empty. *)
Definition back_or {A} (d : A) (l : list A) : A := default d (last l).

Definition isFarPointer (t : CType) : bool :=
  (0 <? pointer_level t)
  && (if bool_decide (pointer_reach t = []) then is_far t else back_or false (pointer_reach t)).

Definition isVoidValue (t : CType) : bool :=
  bool_decide (base t = BaseVoid) && (pointer_level t =? 0).

(** The metadata check that opens [normalizePointerLayers]. *)
Definition layers_ok (t : CType) : bool :=
  (0 <=? pointer_level t) && (pointer_level t <=? MaxAddressPointerDepth)
  && (bool_decide (pointer_reach t = []) || (zlen (pointer_reach t) =? pointer_level t))
  && (bool_decide (pointer_spaces t = []) || (zlen (pointer_spaces t) =? pointer_level t))
  && (bool_decide (pointee_qualifiers t = []) || (zlen (pointee_qualifiers t) =? pointer_level t)).

(** The layers filled in for a type that carries none. *)
Definition filled_reach (t : CType) : list bool :=
  if bool_decide (pointer_reach t = []) then
    <[Z.to_nat (pointer_level t - 1) := is_far t]> (replicate (Z.to_nat (pointer_level t)) false)
  else pointer_reach t.
Definition filled_spaces (t : CType) : list AddressSpace :=
  if bool_decide (pointer_spaces t = []) then
    <[0%nat := space t]> (replicate (Z.to_nat (pointer_level t)) SpaceRam)
  else pointer_spaces t.
Definition filled_qualifiers (t : CType) : list AccessQualifiers :=
  if bool_decide (pointee_qualifiers t = []) then
    replicate (Z.to_nat (pointer_level t)) no_quals
  else pointee_qualifiers t.

Definition normalizePointerLayers (t : CType) : result CType :=
  if negb (layers_ok t) then Err (LogicError "Invalid pointer layer metadata.")
  else if pointer_level t =? 0 then
    Ok (mkType (base t) (structName t) (sizeInBytes t) (is_unsigned t) 0 false (array_size t)
          (space t) [] [] (is_const t) (is_volatile t) [] (alignment t) (aggregate_size t)
          (enum_name t))
  else
    let reach := filled_reach t in
    let spaces := filled_spaces t in
    let far := back_or false reach in
    Ok (mkType (base t) (structName t) (if far then 4 else 2) (is_unsigned t) (pointer_level t)
          far (array_size t) (back_or SpaceNone spaces) reach spaces (is_const t) (is_volatile t)
          (filled_qualifiers t) (alignment t) (aggregate_size t) (enum_name t)).

(** The width of a value whose last pointer layer has been removed. *)
Definition value_size (t : CType) : Z :=
  match base t with
  | BaseByte | BaseBool => 1
  | BaseVoid => 0
  | BaseStruct => if 0 <? aggregate_size t then aggregate_size t else 2
  | _ => 2
  end.

Definition pointeeType (t : CType) : result CType :=
  if pointer_level t <=? 0 then Err (LogicError "A non-pointer has no pointee type.") else
  t ← normalizePointerLayers t;
  let q := back_or no_quals (pointee_qualifiers t) in
  let popped lvl size far sp :=
    mkType (base t) (structName t) size (is_unsigned t) lvl far (array_size t) sp
      (removelast (pointer_reach t)) (removelast (pointer_spaces t)) (q_const q) (q_volatile q)
      (removelast (pointee_qualifiers t)) (alignment t) (aggregate_size t) (enum_name t) in
  if 0 <? pointer_level t - 1 then
    normalizePointerLayers (popped (pointer_level t - 1) (sizeInBytes t) (is_far t) (space t))
  else Ok (popped (pointer_level t - 1) (value_size t) false (space t)).

Definition pointerTo (t : CType) (sp : AddressSpace) (far : bool) : result CType :=
  t ← normalizePointerLayers t;
  normalizePointerLayers
    (mkType (base t) (structName t) (sizeInBytes t) (is_unsigned t) (pointer_level t + 1)
       (is_far t) 0 (space t) (pointer_reach t ++ [far]) (pointer_spaces t ++ [sp]) false false
       (pointee_qualifiers t ++ [mkQual (is_const t) (is_volatile t)]) (alignment t)
       (aggregate_size t) (enum_name t)).

Definition samePointerLayers (left right : CType) : result bool :=
  left ← normalizePointerLayers left;
  right ← normalizePointerLayers right;
  Ok (bool_decide (pointer_reach left = pointer_reach right)
      && bool_decide (pointer_spaces left = pointer_spaces right)
      && bool_decide (pointee_qualifiers left = pointee_qualifiers right)).

Definition valueType (t : CType) : CType :=
  mkType (base t) (structName t) (sizeInBytes t) (is_unsigned t) (pointer_level t) (is_far t)
    (array_size t) (space t) (pointer_reach t) (pointer_spaces t) false false
    (pointee_qualifiers t) (alignment t) (aggregate_size t) (enum_name t).

Definition usesByteStorage (t : CType) : bool :=
  (pointer_level t =? 0) && (sizeInBytes t =? 1).

(** [struct Symbol]. *)
Record Symbol := mkSymbol {
  sym_type : CType;
  stackOffset : Z;
  initial_literal_value : string;
  sym_id : SymbolId
}.

(** The debugging text of a type.  [n] counts the layers still to print,
    [i] is the index of the next one. *)
Fixpoint layers_text (t : CType) (n : nat) (i : Z) : string :=
  match n with
  | O => ""
  | S n =>
      let last_layer := i + 1 =? pointer_level t in
      let q := if last_layer then mkQual (is_const t) (is_volatile t)
               else if bool_decide (pointee_qualifiers t = []) then no_quals
               else default no_quals (pointee_qualifiers t !! Z.to_nat (i + 1)) in
      "*" +:+ (if negb last_layer && negb (bool_decide (pointer_reach t = []))
                  && default false (pointer_reach t !! Z.to_nat i) then " far " else "")
      +:+ (if q_const q then " const " else "") +:+ (if q_volatile q then " volatile " else "")
      +:+ layers_text t n (i + 1)
  end.

Definition base_text (t : CType) : string :=
  match base t with
  | BaseByte => "byte"
  | BaseBool => "bool"
  | BaseWord => "word"
  | BaseStruct => "struct " +:+ structName t
  | BaseVoid => "void"
  | BaseNone => ""
  end.

Definition type_text (t : CType) : string :=
  let leaf := if (0 <? pointer_level t) && negb (bool_decide (pointee_qualifiers t = []))
              then default no_quals (head (pointee_qualifiers t))
              else mkQual (is_const t) (is_volatile t) in
  (if isFarPointer t then "far " else "")
  +:+ (if q_const leaf then "const " else "") +:+ (if q_volatile leaf then "volatile " else "")
  +:+ (if bool_decide (space t = SpaceRom) then "rom " else "")
  +:+ (if is_unsigned t then "unsigned " else "") +:+ base_text t
  +:+ layers_text t (Z.to_nat (pointer_level t)) 0
  +:+ (if 0 <? array_size t then "[" +:+ pretty (array_size t) +:+ "]" else "").

(** A type in the form [normalizePointerLayers] leaves behind. *)
Definition normalized (t : CType) : Prop := normalizePointerLayers t = Ok t.

(** The type with an empty array extent, which is what a pointer can point to. *)
Definition clear_array (t : CType) : CType :=
  mkType (base t) (structName t) (sizeInBytes t) (is_unsigned t) (pointer_level t) (is_far t)
    0 (space t) (pointer_reach t) (pointer_spaces t) (is_const t) (is_volatile t)
    (pointee_qualifiers t) (alignment t) (aggregate_size t) (enum_name t).

(* ------------------------------------------------------------------ *)
(** ** Lemmas *)

(** The side conditions on the lengths of the metadata lists. *)
Ltac fields := cbn [base structName is_unsigned pointer_level array_size pointer_reach
  pointer_spaces is_const is_volatile pointee_qualifiers alignment aggregate_size enum_name
  sizeInBytes is_far space q_const q_volatile].
Ltac layers :=
  cbn [pointer_level pointer_reach pointer_spaces pointee_qualifiers];
  autorewrite with zlen; lia.

Lemma back_or_app {A} (d x : A) l : back_or d (l ++ [x]) = x.
Proof. unfold back_or. by rewrite last_snoc. Qed.

Lemma layers_ok_spec t :
  layers_ok t = true ↔
  0 ≤ pointer_level t ≤ 33 ∧
  (pointer_reach t = [] ∨ zlen (pointer_reach t) = pointer_level t) ∧
  (pointer_spaces t = [] ∨ zlen (pointer_spaces t) = pointer_level t) ∧
  (pointee_qualifiers t = [] ∨ zlen (pointee_qualifiers t) = pointer_level t).
Proof.
  unfold layers_ok, MaxAddressPointerDepth, MaxPointerDepth.
  rewrite !andb_true_iff, !orb_true_iff, !bool_decide_eq_true, !Z.eqb_eq, !Z.leb_le.
  naive_solver lia.
Qed.

(** Filling a metadata list: one default entry per layer unless it is present. *)
Lemma filled_length {A} `{EqDecision A} (given fill : list A) n :
  (given = [] ∨ zlen given = n) → zlen fill = n →
  zlen (if bool_decide (given = []) then fill else given) = n.
Proof. intros [->|] ?; case_bool_decide; congruence. Qed.

Lemma filled_reach_length t :
  layers_ok t = true → zlen (filled_reach t) = pointer_level t.
Proof.
  rewrite layers_ok_spec. intros (? & ? & ? & ?). apply filled_length; [done|].
  unfold zlen. rewrite length_insert, length_replicate. lia.
Qed.

Lemma filled_spaces_length t :
  layers_ok t = true → zlen (filled_spaces t) = pointer_level t.
Proof.
  rewrite layers_ok_spec. intros (? & ? & ? & ?). apply filled_length; [done|].
  unfold zlen. rewrite length_insert, length_replicate. lia.
Qed.

Lemma filled_qualifiers_length t :
  layers_ok t = true → zlen (filled_qualifiers t) = pointer_level t.
Proof.
  rewrite layers_ok_spec. intros (? & ? & ? & ?). apply filled_length; [done|].
  unfold zlen. rewrite length_replicate. lia.
Qed.

(** What a successful normalisation leaves: one entry per layer in every list. *)
Lemma normalize_layers t n :
  normalizePointerLayers t = Ok n →
  pointer_level n = pointer_level t ∧ 0 ≤ pointer_level n ≤ 33 ∧
  zlen (pointer_reach n) = pointer_level n ∧ zlen (pointer_spaces n) = pointer_level n ∧
  zlen (pointee_qualifiers n) = pointer_level n ∧
  is_const n = is_const t ∧ is_volatile n = is_volatile t ∧ base n = base t.
Proof.
  unfold normalizePointerLayers. intros H.
  destruct (layers_ok t) eqn:Hok; cbn in H; [|done].
  assert (0 ≤ pointer_level t ≤ 33) as Hlev
    by (apply layers_ok_spec in Hok; lia).
  destruct (Z.eqb_spec (pointer_level t) 0) as [E|E]; inv_result; cbn.
  - rewrite E. split_and!; done || lia.
  - rewrite filled_reach_length, filled_spaces_length, filled_qualifiers_length by (done || lia).
    split_and!; done || lia.
Qed.

Lemma zlen_nonnil {A} `{EqDecision A} (l : list A) : 0 < zlen l → bool_decide (l = []) = false.
Proof. intros H. apply bool_decide_eq_false. intros ->. by cbn in H. Qed.

(** A type whose three lists have one entry per layer is normalised as soon as
    its cached reach, space and width agree with the outermost layer. *)
Lemma normalize_complete t :
  0 < pointer_level t ≤ 33 →
  zlen (pointer_reach t) = pointer_level t → zlen (pointer_spaces t) = pointer_level t →
  zlen (pointee_qualifiers t) = pointer_level t →
  normalizePointerLayers t = Ok (mkType (base t) (structName t)
    (if back_or false (pointer_reach t) then 4 else 2) (is_unsigned t) (pointer_level t)
    (back_or false (pointer_reach t)) (array_size t) (back_or SpaceNone (pointer_spaces t))
    (pointer_reach t) (pointer_spaces t) (is_const t) (is_volatile t) (pointee_qualifiers t)
    (alignment t) (aggregate_size t) (enum_name t)).
Proof.
  intros Hl Hr Hs Hq. unfold normalizePointerLayers, filled_reach, filled_spaces, filled_qualifiers.
  assert (layers_ok t = true) as ->.
  { apply layers_ok_spec. naive_solver lia. }
  cbn. rewrite (proj2 (Z.eqb_neq _ _)) by lia. rewrite !zlen_nonnil by lia. done.
Qed.

Lemma removelast_snoc {A} (l : list A) x : removelast (l ++ [x]) = l.
Proof. apply removelast_last. Qed.

(** What normalisation returns is a fixed point of it. *)
Lemma normalize_fixpoint t n :
  normalizePointerLayers t = Ok n → normalizePointerLayers n = Ok n.
Proof.
  intros H. pose proof (normalize_layers _ _ H) as (Hlev & Hrange & Hr & Hs & Hq & _).
  destruct (Z.eqb_spec (pointer_level t) 0) as [E|E].
  - unfold normalizePointerLayers in H. destruct (layers_ok t); cbn in H; [|done].
    rewrite E in H. cbn in H. by inv_result.
  - rewrite normalize_complete by lia. unfold normalizePointerLayers in H.
    destruct (layers_ok t); cbn in H; [|done].
    rewrite (proj2 (Z.eqb_neq _ _)) in H by done. by inv_result.
Qed.

(* ------------------------------------------------------------------ *)
(** ** Properties *)

(** Normalising a type fails exactly on inconsistent layer metadata, and is
    idempotent: what [normalizePointerLayers] returns is already normalised, so
    the repeated calls of the compiler change nothing. *)
Theorem normalize_idempotent (t : CType) :
  (layers_ok t = false ↔ normalizePointerLayers t = Err (LogicError "Invalid pointer layer metadata."))
  ∧ (layers_ok t = true → ∃ n, normalizePointerLayers t = Ok n ∧ normalizePointerLayers n = Ok n).
Proof.
  split.
  - unfold normalizePointerLayers. destruct (layers_ok t); cbn; [|done].
    split; [done|]. by destruct (pointer_level t =? 0).
  - intros Hok. destruct (normalizePointerLayers t) as [n|e] eqn:E.
    + exists n. split; [done | by eapply normalize_fixpoint].
    + unfold normalizePointerLayers in E. rewrite Hok in E. by destruct (pointer_level t =? 0).
Qed.

Lemma normalize_idempotent_witness :
  normalizePointerLayers (mkType BaseWord "" 0 false 2 true 0 SpaceRom [] [] false false [] 0 0 "")
    = Ok (mkType BaseWord "" 4 false 2 true 0 SpaceRam [false; true] [SpaceRom; SpaceRam]
            false false [no_quals; no_quals] 0 0 "") ∧
  normalizePointerLayers (mkType BaseWord "" 4 false 2 true 0 SpaceRam [false; true]
    [SpaceRom; SpaceRam] false false [no_quals; no_quals] 0 0 "")
    = Ok (mkType BaseWord "" 4 false 2 true 0 SpaceRam [false; true] [SpaceRom; SpaceRam]
            false false [no_quals; no_quals] 0 0 "").
Proof.
  destruct (proj2 (normalize_idempotent
    (mkType BaseWord "" 0 false 2 true 0 SpaceRom [] [] false false [] 0 0 "")) eq_refl)
    as (n & Hn & Hnn).
  assert (n = mkType BaseWord "" 4 false 2 true 0 SpaceRam [false; true] [SpaceRom; SpaceRam]
            false false [no_quals; no_quals] 0 0 "") as -> by (vm_compute in Hn; injection Hn as <-; reflexivity).
  split; [exact Hn | exact Hnn].
Defined.

(** Taking the address of an l-value and dereferencing it is the identity on
    every pointer type below the depth limit (an array extent is dropped): all
    inner layers, their reach, address space and qualifiers, and the qualifiers
    of the object itself survive [pointerTo] followed by [pointeeType]. *)
Theorem pointeeType_pointerTo (t n p : CType) (sp : AddressSpace) (far : bool) :
  0 < pointer_level t → normalizePointerLayers t = Ok n → pointerTo t sp far = Ok p →
  isFarPointer p = far ∧ space p = sp ∧ pointeeType p = Ok (clear_array n).
Proof.
  intros Hpos Hn Hp. pose proof (normalize_layers _ _ Hn) as (Hlev & Hrange & Hr & Hs & Hq & _).
  pose proof (normalize_fixpoint _ _ Hn) as Hid.
  rewrite normalize_complete in Hid by lia. injection Hid as Hid.
  pose proof (f_equal sizeInBytes Hid) as Hsz. pose proof (f_equal is_far Hid) as Hfar.
  pose proof (f_equal space Hid) as Hsp. cbn in Hsz, Hfar, Hsp. clear Hid.
  unfold pointerTo in Hp. rewrite Hn in Hp. cbn [mbind result_mbind result_bind] in Hp.
  pose proof (normalize_layers _ _ Hp) as (Hlp & Hr33 & _). cbn in Hlp.
  rewrite normalize_complete in Hp by layers.
  revert Hp. fields. intros Hp.
  rewrite !back_or_app in Hp. injection Hp as <-.
  split; [unfold isFarPointer; cbn [pointer_level pointer_reach is_far];
          rewrite (proj2 (Z.ltb_lt _ _)) by lia; rewrite back_or_app;
          by case_bool_decide as Hnil; [destruct (pointer_reach n)|]|].
  split; [done|]. unfold pointeeType. cbn [pointer_level].
  rewrite (proj2 (Z.leb_gt _ _)) by lia.
  rewrite normalize_complete by layers.
  unfold mbind, result_mbind, result_bind.
  fields.
  rewrite !back_or_app, !removelast_snoc, (proj2 (Z.ltb_lt _ _)) by lia.
  rewrite normalize_complete by layers.
  fields.
  replace (pointer_level n + 1 - 1) with (pointer_level n) by lia.
  unfold clear_array. congruence.
Qed.

Lemma pointeeType_pointerTo_witness :
  let t := mkType BaseByte "" 2 true 1 false 0 SpaceRam [false] [SpaceRam] true false
             [mkQual false true] 0 0 "" in
  let p := mkType BaseByte "" 4 true 2 true 0 SpaceRom [false; true] [SpaceRam; SpaceRom]
             false false [mkQual false true; mkQual true false] 0 0 "" in
  pointerTo t SpaceRom true = Ok p ∧ isFarPointer p = true ∧ space p = SpaceRom ∧
  pointeeType p = Ok (clear_array t).
Proof.
  cbn zeta. split; [vm_compute; reflexivity|].
  apply (pointeeType_pointerTo
    (mkType BaseByte "" 2 true 1 false 0 SpaceRam [false] [SpaceRam] true false
       [mkQual false true] 0 0 "")
    (mkType BaseByte "" 2 true 1 false 0 SpaceRam [false] [SpaceRam] true false
       [mkQual false true] 0 0 ""));
    [cbn; lia | vm_compute; reflexivity | vm_compute; reflexivity].
Defined.
