(* ===== verification/Pointer.v ===== *)
(** * Pointer: the GSU address policy

    Models [GsuPointer.hpp]: the check of a pointer constant or access
    ([validate]) and the constant pointer addition ([add]), with its three
    domains: near and multi-byte accesses, which must stay in one bank; far byte
    pointers into RAM; and far byte pointers into the LoROM windows and into the
    full ROM banks, which step across banks. *)

From S2P Require Import Prelude Types.

Definition validate (address : Z) (sp : AddressSpace) (far : bool) (width align : Z) : result unit :=
  throw_if ((width <=? 0) || (65536 <? width)) (RuntimeError "Invalid pointer access width.");;
  let align := if align =? 0 then (if width =? 1 then 1 else 2) else align in
  let bank := Z.shiftr address 16 in
  let offset := Z.land address 65535 in
  throw_if ((16777215 <? address) || (negb far && negb (bank =? 0)))
    (RuntimeError "Pointer address exceeds its representation.");;
  (if far then
     if bool_decide (sp = SpaceRom) then
       throw_if ((95 <? bank) || ((bank <=? 63) && (offset <? 32768)))
         (RuntimeError "Pointer address is outside GSU-visible ROM.")
     else
       throw_if (negb (bank =? 112) && negb (bank =? 113))
         (RuntimeError "Pointer address is outside GSU-visible RAM.")
   else Ok tt);;
  throw_if (negb far && (address =? 0)) (RuntimeError "Null pointer access is illegal.");;
  throw_if ((align <? 1) || (128 <? align) || negb (pow2_or_zero align))
    (RuntimeError "Invalid pointer alignment.");;
  throw_if ((1 <? align) && negb (Z.land offset (align - 1) =? 0))
    (RuntimeError "Misaligned 16-bit pointer address is illegal.");;
  throw_if (65536 - offset <? width) (RuntimeError "Pointer access crosses a bank boundary.").

(** The stepping domain of a far byte pointer: first bank, number of banks,
    bytes per bank and the offset its window starts at. *)
Record Domain := mkDomain { first_bank : Z; bank_count : Z; window : Z; lower : Z }.

Definition domain (sp : AddressSpace) (bank : Z) : Domain :=
  let lorom := bool_decide (sp = SpaceRom) && (bank <=? 63) in
  mkDomain (if bool_decide (sp = SpaceRam) then 112 else if lorom then 0 else 64)
    (if bool_decide (sp = SpaceRam) then 2 else if lorom then 64 else 32)
    (if lorom then 32768 else 65536) (if lorom then 32768 else 0).

(** Position of an address in its domain. *)
Definition linear_of (d : Domain) (address : Z) : Z :=
  (Z.shiftr address 16 - first_bank d) * window d + Z.land address 65535 - lower d.

Definition add (address index stride : Z) (sp : AddressSpace) (far : bool) (align : Z) : result Z :=
  validate address sp far stride align;;
  throw_if ((index <? -65535) || (65535 <? index))
    (RuntimeError "Pointer displacement exceeds 16 bits.");;
  let offset := Z.land address 65535 in
  let displaced := offset + index * stride in
  let bank := Z.shiftr address 16 in
  if (1 <? stride) || negb far then
    let lower := if far && bool_decide (sp = SpaceRom) && (bank <=? 63) then 32768 else 0 in
    throw_if ((displaced <? lower) || (65536 - stride <? displaced))
      (RuntimeError "Pointer arithmetic crosses a bank boundary.");;
    let r := Z.lor (Z.land address 16711680) displaced in
    validate r sp far stride align;;
    Ok r
  else
    let d := domain sp bank in
    let linear := linear_of d address + index in
    throw_if ((linear <? 0) || (bank_count d * window d <=? linear))
      (RuntimeError "Pointer arithmetic exceeds the accessible bank domain.");;
    Ok (Z.lor (Z.shiftl (first_bank d + linear / window d) 16) (lower d + linear mod window d)).

(** What [validate] accepts, as facts about bank and offset. *)
Record valid (address : Z) (sp : AddressSpace) (far : bool) (width align : Z) : Prop := {
  v_width : 0 < width ≤ 65536;
  v_range : 0 ≤ address < 16777216;
  v_near : far = false → address < 65536 ∧ address ≠ 0;
  v_rom : far = true → sp = SpaceRom →
    address / 65536 ≤ 95 ∧ (address / 65536 ≤ 63 → 32768 ≤ address mod 65536);
  v_ram : far = true → sp ≠ SpaceRom → 112 ≤ address / 65536 ≤ 113;
  v_align : (if align =? 0 then if width =? 1 then 1 else 2 else align) ∈ [1; 2; 4; 8; 16; 32; 64; 128];
  v_aligned : address mod 65536 mod (if align =? 0 then if width =? 1 then 1 else 2 else align) = 0;
  v_fits : address mod 65536 + width ≤ 65536
}.

(* ------------------------------------------------------------------ *)
(** ** Lemmas *)

Lemma land_align a x : a ∈ [1; 2; 4; 8; 16; 32; 64; 128] → Z.land x (a - 1) = x mod a.
Proof.
  intros H. repeat (apply elem_of_cons in H as [->|H]); [..|by apply elem_of_nil in H].
  - by rewrite Z.land_0_r, Z.mod_1_r.
  - apply (land_mask 1); lia.
  - apply (land_mask 2); lia.
  - apply (land_mask 3); lia.
  - apply (land_mask 4); lia.
  - apply (land_mask 5); lia.
  - apply (land_mask 6); lia.
  - apply (land_mask 7); lia.
Qed.

Lemma pow2_members a : a ∈ [1; 2; 4; 8; 16; 32; 64; 128] → 1 ≤ a ≤ 128 ∧ pow2_or_zero a = true.
Proof.
  intros H. repeat (apply elem_of_cons in H as [->|H]); [..|by apply elem_of_nil in H];
    (split; [lia | reflexivity]).
Qed.

Lemma validate_valid address sp far width align :
  0 ≤ address → validate address sp far width align = Ok tt ↔ valid address sp far width align.
Proof.
  intros Ha. unfold validate. rewrite shiftr_16, land_65535. cbn zeta.
  set (al := if align =? 0 then if width =? 1 then 1 else 2 else align).
  split.
  - intros H. inv_result. bool_facts. rewrite ?negb_false_iff in *.
    assert (al ∈ [1; 2; 4; 8; 16; 32; 64; 128]) as Hal by (apply pow2_small; [lia|done]).
    rewrite land_align in * by done.
    constructor; fold al; try done; try lia.
    + intros ->. cbn in *. bool_facts. zmod.
    + intros -> ->. decides. inv_result. bool_facts. split; [lia|].
      intros. destruct (Z.leb_spec (address / 65536) 63); [cbn in *; bool_facts; lia | lia].
    + intros -> Hsp. decides. inv_result.
      destruct (Z.eqb_spec (address / 65536) 112), (Z.eqb_spec (address / 65536) 113); try done; lia.
    + destruct (Z.ltb_spec 1 al); cbn in *; bool_facts; [done|].
      replace al with 1 by lia. apply Z.mod_1_r.
  - intros [Hw Hr Hn Hrom Hram Hal Hald Hf]. fold al in Hal, Hald.
    destruct (pow2_members _ Hal) as [Hal1 Hal2]. rewrite Hal2, land_align, Hald by done.
    cbn [negb Z.eqb]. rewrite andb_false_r, orb_false_r.
    rewrite (proj2 (Z.leb_gt width 0)), (proj2 (Z.ltb_ge 65536 width)) by lia. cbn.
    rewrite (proj2 (Z.ltb_ge 16777215 address)) by lia.
    rewrite (proj2 (Z.ltb_ge al 1)), (proj2 (Z.ltb_ge 128 al)),
      (proj2 (Z.ltb_ge (65536 - address mod 65536) width)) by lia. cbn.
    destruct far; cbn.
    + case_bool_decide as Hs.
      * specialize (Hrom eq_refl Hs). case_tests; cbn; try done; lia.
      * specialize (Hram eq_refl Hs). case_tests; cbn; try done; lia.
    + specialize (Hn eq_refl). case_tests; cbn; try done; zmod.
Qed.

(** Fields of an address put together from a bank and an offset. *)
Lemma address_of bank offset :
  0 ≤ offset < 65536 → Z.lor (Z.shiftl bank 16) offset = bank * 65536 + offset.
Proof. intros. rewrite shiftl_16. by apply lor_fields_16. Qed.

Lemma address_fields bank offset :
  0 ≤ offset < 65536 →
  (bank * 65536 + offset) / 65536 = bank ∧ (bank * 65536 + offset) mod 65536 = offset.
Proof. intros. zmod. Qed.

Lemma domain_shape sp bank :
  let d := domain sp bank in
  (window d = 65536 ∧ lower d = 0) ∨ (window d = 32768 ∧ lower d = 32768 ∧ first_bank d = 0 ∧ bank_count d = 64).
Proof. unfold domain. destruct sp, (bank <=? 63); cbn; tauto. Qed.

(** The address at a position of a domain, and its position again. *)
Lemma linear_roundtrip sp bank linear :
  let d := domain sp bank in
  0 ≤ linear < bank_count d * window d →
  let r := Z.lor (Z.shiftl (first_bank d + linear / window d) 16) (lower d + linear mod window d) in
  r / 65536 = first_bank d + linear / window d ∧ r mod 65536 = lower d + linear mod window d
  ∧ linear_of d r = linear.
Proof.
  intros d. subst d. generalize (domain_shape sp bank). generalize (domain sp bank).
  cbn zeta. intros d Hd Hl.
  assert (0 ≤ lower d + linear mod window d < 65536 ∧ 0 < window d) as [Hoff Hw].
  { destruct Hd as [[-> ->]|(-> & -> & _)]; zmod. }
  rewrite address_of by lia.
  destruct (address_fields (first_bank d + linear / window d) _ Hoff) as [Hb Ho].
  split; [done|]. split; [done|]. unfold linear_of. rewrite shiftr_16, land_65535, Hb, Ho.
  pose proof (Z.div_mod linear (window d)). lia.
Qed.

(** Every byte address of a far space has its position inside the domain. *)
Lemma far_byte_domain a sp align :
  sp ≠ SpaceNone → valid a sp true 1 align →
  let d := domain sp (a / 65536) in
  0 ≤ linear_of d a < bank_count d * window d.
Proof.
  intros Hs Hv. unfold linear_of. rewrite shiftr_16, land_65535.
  pose proof (Z.mod_pos_bound a 65536 ltac:(lia)).
  assert (0 ≤ a / 65536) by (pose proof (v_range _ _ _ _ _ Hv); zmod).
  destruct sp; [done|..]; unfold domain; decides; cbn.
  - pose proof (v_ram _ _ _ _ _ Hv eq_refl ltac:(done)). lia.
  - destruct (v_rom _ _ _ _ _ Hv eq_refl eq_refl) as [H95 H63].
    destruct (Z.leb_spec (a / 65536) 63); cbn; [specialize (H63 ltac:(lia))|]; lia.
Qed.

(** The result of a far byte step. *)
Lemma add_far_byte a i sp align r :
  sp ≠ SpaceNone → 0 ≤ a → add a i 1 sp true align = Ok r →
  valid a sp true 1 align ∧ -65535 ≤ i ≤ 65535 ∧
  let d := domain sp (a / 65536) in
  domain sp (r / 65536) = d ∧ 0 ≤ r < 16777216 ∧
  linear_of d r = linear_of d a + i ∧ 0 ≤ linear_of d r < bank_count d * window d ∧
  lower d ≤ r mod 65536 < lower d + window d.
Proof.
  intros Hs Ha H. unfold add in H. rewrite shiftr_16 in H. inv_result.
  apply validate_valid in E; [|done]. bool_facts.
  change ((1 <? 1) || negb true) with false in H. cbv iota zeta in H.
  split; [done|]. split; [lia|]. intros d. fold d in H. inv_result. bool_facts.
  assert (0 ≤ linear_of d a + i < bank_count d * window d) as Hrange by lia.
  destruct (linear_roundtrip sp (a / 65536) (linear_of d a + i) Hrange) as (Hb & Ho & Hl).
  fold d in Hb, Ho, Hl. rewrite Hl.
  assert (0 < window d) as Hw by (unfold d; destruct (domain_shape sp (a / 65536)) as [[-> _]|[-> _]]; lia).
  pose proof (Z.mod_pos_bound (linear_of d a + i) (window d) Hw) as Hmodw.
  clear -Hs Hb Hrange Ho Hmodw. split_and!; try lia.
  - rewrite Hb. unfold d in *. destruct sp; [done|..]; unfold domain in *; decides; cbn in *; [done|].
    destruct (Z.leb_spec (a / 65536) 63); cbn in *.
    + rewrite (proj2 (Z.leb_le _ _)); [done | zmod].
    + rewrite (proj2 (Z.leb_gt _ _)); [done | zmod].
  - apply Z.lor_nonneg. rewrite shiftl_16. unfold d in *.
    destruct sp; [done|..]; unfold domain in *; decides; cbn in *; try destruct (a / 65536 <=? 63); cbn in *; zmod.
  - match goal with |- ?r < _ => assert (r / 65536 ≤ 255) end; [|zmod].
    rewrite Hb. unfold d in *.
    destruct sp; [done|..]; unfold domain in *; decides; cbn in *; try destruct (a / 65536 <=? 63); cbn in *; zmod.
Qed.

(** The result of a far byte step is itself a valid far byte pointer. *)
Lemma far_valid_result a i sp r :
  sp ≠ SpaceNone → 0 ≤ a → add a i 1 sp true 0 = Ok r → valid r sp true 1 0.
Proof.
  intros Hs Ha H.
  apply add_far_byte in H as (Hv & Hi & Hd & Hr & Hl & Hlr & Hwin); [|done..].
  rewrite <- Hd in Hlr, Hwin.
  pose proof (Z.mod_pos_bound r 65536 ltac:(lia)).
  constructor; cbn; try done; try lia.
  - intros _ ->. unfold linear_of in Hlr. rewrite shiftr_16, land_65535 in Hlr.
    unfold domain in Hlr, Hwin. decides. cbn in Hlr, Hwin.
    destruct (Z.leb_spec (r / 65536) 63); cbn in Hlr, Hwin; lia.
  - intros _ Hsp. destruct sp; [done| |done]. unfold linear_of in Hlr.
    rewrite shiftr_16, land_65535 in Hlr. unfold domain in Hlr. decides. cbn in Hlr. lia.
  - left.
  - apply Z.mod_1_r.
Qed.

(** [add] on a valid far byte pointer. *)
Lemma add_far_unfold a i sp :
  0 ≤ a → valid a sp true 1 0 → -65535 ≤ i ≤ 65535 →
  add a i 1 sp true 0 =
    (throw_if ((linear_of (domain sp (a / 65536)) a + i <? 0)
               || (bank_count (domain sp (a / 65536)) * window (domain sp (a / 65536))
                   <=? linear_of (domain sp (a / 65536)) a + i))
      (RuntimeError "Pointer arithmetic exceeds the accessible bank domain.");;
     Ok (Z.lor (Z.shiftl (first_bank (domain sp (a / 65536))
                  + (linear_of (domain sp (a / 65536)) a + i) / window (domain sp (a / 65536))) 16)
          (lower (domain sp (a / 65536))
             + (linear_of (domain sp (a / 65536)) a + i) mod window (domain sp (a / 65536))))).
Proof.
  intros Ha Hv Hi. unfold add. rewrite (proj2 (validate_valid a sp true 1 0 Ha) Hv).
  rewrite shiftr_16.
  rewrite (proj2 (Z.ltb_ge i (-65535))), (proj2 (Z.ltb_ge 65535 i)) by lia. done.
Qed.

(** The address at the position of a valid far byte pointer is that pointer. *)
Lemma address_at_position a sp align :
  sp ≠ SpaceNone → valid a sp true 1 align →
  let d := domain sp (a / 65536) in
  Z.lor (Z.shiftl (first_bank d + linear_of d a / window d) 16)
    (lower d + linear_of d a mod window d) = a.
Proof.
  intros Hs Hv d. pose proof (v_range _ _ _ _ _ Hv) as Hr.
  pose proof (Z.mod_pos_bound a 65536 ltac:(lia)).
  assert (linear_of d a / window d = a / 65536 - first_bank d ∧
          lower d + linear_of d a mod window d = a mod 65536) as [-> ->].
  { unfold linear_of. rewrite shiftr_16, land_65535.
    assert (lower d ≤ a mod 65536 < lower d + window d) as Hwin.
    { destruct sp; [done|..]; unfold d, domain; decides; cbn; [lia|].
      destruct (v_rom _ _ _ _ _ Hv eq_refl eq_refl) as [_ H63].
      destruct (Z.leb_spec (a / 65536) 63); cbn; lia. }
    replace ((a / 65536 - first_bank d) * window d + a mod 65536 - lower d)
      with ((a mod 65536 - lower d) + (a / 65536 - first_bank d) * window d) by lia.
    rewrite Z.div_add, Z.mod_add by lia.
    rewrite Z.div_small, Z.mod_small by lia. lia. }
  replace (first_bank d + (a / 65536 - first_bank d)) with (a / 65536) by lia.
  rewrite address_of by lia. zmod.
Qed.

(* ------------------------------------------------------------------ *)
(** ** Properties *)

(** Pointer addition never leaves the space its operand is valid in: when
    [add] returns an address, that address passes the same [validate] check, for
    near pointers, wide accesses and far byte pointers alike. *)
Theorem add_valid (a i stride : Z) (sp : AddressSpace) (far : bool) (r : Z) :
  sp ≠ SpaceNone → 0 ≤ a → add a i stride sp far 0 = Ok r → validate r sp far stride 0 = Ok tt.
Proof.
  intros Hs Ha H. destruct ((1 <? stride) || negb far) eqn:Hwide.
  { unfold add in H. rewrite Hwide in H. by inv_result. }
  bool_facts. destruct far; [|done].
  assert (stride = 1) as ->.
  { unfold add in H. inv_result.
    apply validate_valid in E; [|done]. pose proof (v_width _ _ _ _ _ E). lia. }
  apply validate_valid; [by eapply add_far_byte in H as (_ & _ & _ & ? & _); [lia|..]|].
  by eapply far_valid_result.
Qed.

Lemma add_valid_witness :
  add 8421375 1 1 SpaceRom true 0 = Err (RuntimeError "Pointer address is outside GSU-visible ROM.") ∧
  add 65535 1 1 SpaceRom true 0 = Ok 98304 ∧ validate 98304 SpaceRom true 1 0 = Ok tt.
Proof.
  split; [reflexivity|]. split; [reflexivity|].
  apply (add_valid 65535 1 1); [discriminate | lia | reflexivity].
Defined.

(** Far byte pointers step exactly as in a flat array of the banks of their
    domain: a step by [i] moves the linear position by [i], and stepping back
    returns the original address; the LoROM window gaps never show. *)
Theorem add_far_steps (a i r : Z) (sp : AddressSpace) :
  sp ≠ SpaceNone → 0 ≤ a → add a i 1 sp true 0 = Ok r →
  linear_of (domain sp (a / 65536)) r = linear_of (domain sp (a / 65536)) a + i ∧
  add r (- i) 1 sp true 0 = Ok a.
Proof.
  intros Hs Ha H. pose proof (far_valid_result _ _ _ _ Hs Ha H) as Hvr.
  apply add_far_byte in H as (Hv & Hi & Hd & Hr & Hl & Hlr & Hwin); [|done..].
  split; [done|].
  rewrite add_far_unfold by (done || lia). rewrite Hd, Hl.
  replace (linear_of (domain sp (a / 65536)) a + i + - i) with (linear_of (domain sp (a / 65536)) a) by lia.
  pose proof (far_byte_domain _ _ _ Hs Hv) as Hdom. cbn zeta in Hdom.
  rewrite (proj2 (Z.ltb_ge _ _)), (proj2 (Z.leb_gt _ _)) by lia. cbn [orb].
  rewrite throw_if_false. cbn [mbind result_mbind result_bind].
  by rewrite (address_at_position _ _ _ Hs Hv).
Qed.

Lemma add_far_steps_witness :
  add 65535 1 1 SpaceRom true 0 = Ok 98304 ∧ add 98304 (-1) 1 SpaceRom true 0 = Ok 65535.
Proof.
  split; [reflexivity|].
  apply (add_far_steps 65535 1 98304); [discriminate | lia | reflexivity].
Defined.
