(* ===== verification/Token.v ===== *)
(** * Token: token kinds and tokens

    Models [TokenType.hpp], [Token.hpp] and [Token.cpp]: the enumeration with
    its declaration order, the token record, and [to_string].  The diagnostic
    name of a kind is its own name when the switch lists it, and its number
    otherwise, so the order of the enumeration is observable. *)

From S2P Require Import Prelude.

Inductive TokenType :=
  | KEYWORD_SWITCH | KEYWORD_CASE | KEYWORD_DEFAULT | KEYWORD_BREAK | KEYWORD_FAR |
    KEYWORD_SET | KEYWORD_STRUCT | KEYWORD_CONST | KEYWORD_VOLATILE | KEYWORD_RAM |
    KEYWORD_BOOL | KEYWORD_TRUE | KEYWORD_FALSE | KEYWORD_INTERNAL | KEYWORD_EXPORT |
    KEYWORD_EXTERN | KEYWORD_ROM | KEYWORD_DRAW | KEYWORD_AT | KEYWORD_WITH |
    KEYWORD_COLOR | KEYWORD_SET_PLOT_OPTIONS | KEYWORD_FLUSH_PIXELS | KEYWORD_SET_COLOR |
    KEYWORD_PLOT_BEGIN | KEYWORD_PLOT_END | KEYWORD_PLOT | KEYWORD_CURSOR | KEYWORD_PIXEL |
    KEYWORD_OPTIONS | KEYWORD_READ_PIXEL | KEYWORD_FLUSH | KEYWORD_BITMAP | KEYWORD_USE |
    KEYWORD_UNSIGNED | KEYWORD_FOR | KEYWORD_WHILE | KEYWORD_IF | KEYWORD_ELSE |
    KEYWORD_WORD | KEYWORD_BYTE | KEYWORD_VOID | KEYWORD_RETURN | KEYWORD_CACHE | AT_SIGN |
    KEYWORD_CONSTEXPR | KEYWORD_ENUM | KEYWORD_SIZEOF | KEYWORD_ALIGNOF |
    KEYWORD_OFFSETOF | KEYWORD_STATIC_ASSERT | KEYWORD_NULL | KEYWORD_CONTINUE |
    KEYWORD_FALLTHROUGH | KEYWORD_MODULE | KEYWORD_IMPORT | KEYWORD_TYPE | ARROW |
    PLUS_PLUS | MINUS_MINUS | PLUS_EQUAL | MINUS_EQUAL | STAR_EQUAL | SLASH_EQUAL |
    PERCENT_EQUAL | AND_EQUAL | OR_EQUAL | XOR_EQUAL | SHIFT_LEFT_EQUAL |
    SHIFT_RIGHT_EQUAL | LPAREN | RPAREN | LBRACE | RBRACE | SEMICOLON | COLON | EQUAL |
    LBRACKET | RBRACKET | AMPERSAND | COMMA | DOT | PLUS | MINUS | STAR | SLASH | PERCENT |
    PIPE | CARET | TILDE | SHIFT_LEFT | SHIFT_RIGHT | AND_AND | OR_OR | BANG | GREATER |
    GREATER_EQUAL | LESS | LESS_EQUAL | EQUAL_EQUAL | BANG_EQUAL | LITERAL_INTEGER |
    LITERAL_STRING | LITERAL_CHARACTER | IDENTIFIER | END_OF_FILE | UNKNOWN.

(** The kinds in declaration order. *)
Definition all_token_types : list TokenType :=
  [KEYWORD_SWITCH; KEYWORD_CASE; KEYWORD_DEFAULT; KEYWORD_BREAK; KEYWORD_FAR; KEYWORD_SET;
   KEYWORD_STRUCT; KEYWORD_CONST; KEYWORD_VOLATILE; KEYWORD_RAM; KEYWORD_BOOL;
   KEYWORD_TRUE; KEYWORD_FALSE; KEYWORD_INTERNAL; KEYWORD_EXPORT; KEYWORD_EXTERN;
   KEYWORD_ROM; KEYWORD_DRAW; KEYWORD_AT; KEYWORD_WITH; KEYWORD_COLOR;
   KEYWORD_SET_PLOT_OPTIONS; KEYWORD_FLUSH_PIXELS; KEYWORD_SET_COLOR; KEYWORD_PLOT_BEGIN;
   KEYWORD_PLOT_END; KEYWORD_PLOT; KEYWORD_CURSOR; KEYWORD_PIXEL; KEYWORD_OPTIONS;
   KEYWORD_READ_PIXEL; KEYWORD_FLUSH; KEYWORD_BITMAP; KEYWORD_USE; KEYWORD_UNSIGNED;
   KEYWORD_FOR; KEYWORD_WHILE; KEYWORD_IF; KEYWORD_ELSE; KEYWORD_WORD; KEYWORD_BYTE;
   KEYWORD_VOID; KEYWORD_RETURN; KEYWORD_CACHE; AT_SIGN; KEYWORD_CONSTEXPR; KEYWORD_ENUM;
   KEYWORD_SIZEOF; KEYWORD_ALIGNOF; KEYWORD_OFFSETOF; KEYWORD_STATIC_ASSERT; KEYWORD_NULL;
   KEYWORD_CONTINUE; KEYWORD_FALLTHROUGH; KEYWORD_MODULE; KEYWORD_IMPORT; KEYWORD_TYPE;
   ARROW; PLUS_PLUS; MINUS_MINUS; PLUS_EQUAL; MINUS_EQUAL; STAR_EQUAL; SLASH_EQUAL;
   PERCENT_EQUAL; AND_EQUAL; OR_EQUAL; XOR_EQUAL; SHIFT_LEFT_EQUAL; SHIFT_RIGHT_EQUAL;
   LPAREN; RPAREN; LBRACE; RBRACE; SEMICOLON; COLON; EQUAL; LBRACKET; RBRACKET; AMPERSAND;
   COMMA; DOT; PLUS; MINUS; STAR; SLASH; PERCENT; PIPE; CARET; TILDE; SHIFT_LEFT;
   SHIFT_RIGHT; AND_AND; OR_OR; BANG; GREATER; GREATER_EQUAL; LESS; LESS_EQUAL;
   EQUAL_EQUAL; BANG_EQUAL; LITERAL_INTEGER; LITERAL_STRING; LITERAL_CHARACTER; IDENTIFIER;
   END_OF_FILE; UNKNOWN].

(** [static_cast<int>(type)]: the position in the declaration. *)
Definition token_code (t : TokenType) : Z :=
  match t with
  | KEYWORD_SWITCH => 0 | KEYWORD_CASE => 1 | KEYWORD_DEFAULT => 2 | KEYWORD_BREAK => 3 |
    KEYWORD_FAR => 4 | KEYWORD_SET => 5 | KEYWORD_STRUCT => 6 | KEYWORD_CONST => 7 |
    KEYWORD_VOLATILE => 8 | KEYWORD_RAM => 9 | KEYWORD_BOOL => 10 | KEYWORD_TRUE => 11 |
    KEYWORD_FALSE => 12 | KEYWORD_INTERNAL => 13 | KEYWORD_EXPORT => 14 |
    KEYWORD_EXTERN => 15 | KEYWORD_ROM => 16 | KEYWORD_DRAW => 17 | KEYWORD_AT => 18 |
    KEYWORD_WITH => 19 | KEYWORD_COLOR => 20 | KEYWORD_SET_PLOT_OPTIONS => 21 |
    KEYWORD_FLUSH_PIXELS => 22 | KEYWORD_SET_COLOR => 23 | KEYWORD_PLOT_BEGIN => 24 |
    KEYWORD_PLOT_END => 25 | KEYWORD_PLOT => 26 | KEYWORD_CURSOR => 27 |
    KEYWORD_PIXEL => 28 | KEYWORD_OPTIONS => 29 | KEYWORD_READ_PIXEL => 30 |
    KEYWORD_FLUSH => 31 | KEYWORD_BITMAP => 32 | KEYWORD_USE => 33 |
    KEYWORD_UNSIGNED => 34 | KEYWORD_FOR => 35 | KEYWORD_WHILE => 36 | KEYWORD_IF => 37 |
    KEYWORD_ELSE => 38 | KEYWORD_WORD => 39 | KEYWORD_BYTE => 40 | KEYWORD_VOID => 41 |
    KEYWORD_RETURN => 42 | KEYWORD_CACHE => 43 | AT_SIGN => 44 | KEYWORD_CONSTEXPR => 45 |
    KEYWORD_ENUM => 46 | KEYWORD_SIZEOF => 47 | KEYWORD_ALIGNOF => 48 |
    KEYWORD_OFFSETOF => 49 | KEYWORD_STATIC_ASSERT => 50 | KEYWORD_NULL => 51 |
    KEYWORD_CONTINUE => 52 | KEYWORD_FALLTHROUGH => 53 | KEYWORD_MODULE => 54 |
    KEYWORD_IMPORT => 55 | KEYWORD_TYPE => 56 | ARROW => 57 | PLUS_PLUS => 58 |
    MINUS_MINUS => 59 | PLUS_EQUAL => 60 | MINUS_EQUAL => 61 | STAR_EQUAL => 62 |
    SLASH_EQUAL => 63 | PERCENT_EQUAL => 64 | AND_EQUAL => 65 | OR_EQUAL => 66 |
    XOR_EQUAL => 67 | SHIFT_LEFT_EQUAL => 68 | SHIFT_RIGHT_EQUAL => 69 | LPAREN => 70 |
    RPAREN => 71 | LBRACE => 72 | RBRACE => 73 | SEMICOLON => 74 | COLON => 75 |
    EQUAL => 76 | LBRACKET => 77 | RBRACKET => 78 | AMPERSAND => 79 | COMMA => 80 |
    DOT => 81 | PLUS => 82 | MINUS => 83 | STAR => 84 | SLASH => 85 | PERCENT => 86 |
    PIPE => 87 | CARET => 88 | TILDE => 89 | SHIFT_LEFT => 90 | SHIFT_RIGHT => 91 |
    AND_AND => 92 | OR_OR => 93 | BANG => 94 | GREATER => 95 | GREATER_EQUAL => 96 |
    LESS => 97 | LESS_EQUAL => 98 | EQUAL_EQUAL => 99 | BANG_EQUAL => 100 |
    LITERAL_INTEGER => 101 | LITERAL_STRING => 102 | LITERAL_CHARACTER => 103 |
    IDENTIFIER => 104 | END_OF_FILE => 105 | UNKNOWN => 106
  end.

(** The names [to_string] lists. *)
Definition token_name (t : TokenType) : option string :=
  match t with
  | KEYWORD_CURSOR => Some "KEYWORD_CURSOR" | KEYWORD_PIXEL => Some "KEYWORD_PIXEL" |
    KEYWORD_OPTIONS => Some "KEYWORD_OPTIONS" |
    KEYWORD_READ_PIXEL => Some "KEYWORD_READ_PIXEL" |
    KEYWORD_FLUSH => Some "KEYWORD_FLUSH" | KEYWORD_BITMAP => Some "KEYWORD_BITMAP" |
    KEYWORD_USE => Some "KEYWORD_USE" | KEYWORD_STRUCT => Some "KEYWORD_STRUCT" |
    KEYWORD_CONST => Some "KEYWORD_CONST" | KEYWORD_TYPE => Some "KEYWORD_TYPE" |
    KEYWORD_VOLATILE => Some "KEYWORD_VOLATILE" | KEYWORD_RAM => Some "KEYWORD_RAM" |
    KEYWORD_BOOL => Some "KEYWORD_BOOL" | KEYWORD_TRUE => Some "KEYWORD_TRUE" |
    KEYWORD_FALSE => Some "KEYWORD_FALSE" | KEYWORD_INTERNAL => Some "KEYWORD_INTERNAL" |
    KEYWORD_EXPORT => Some "KEYWORD_EXPORT" | KEYWORD_EXTERN => Some "KEYWORD_EXTERN" |
    KEYWORD_ROM => Some "KEYWORD_ROM" | KEYWORD_FAR => Some "KEYWORD_FAR" |
    KEYWORD_SET => Some "KEYWORD_SET" | KEYWORD_UNSIGNED => Some "KEYWORD_UNSIGNED" |
    KEYWORD_WORD => Some "KEYWORD_WORD" | KEYWORD_BYTE => Some "KEYWORD_BYTE" |
    KEYWORD_VOID => Some "KEYWORD_VOID" | KEYWORD_IF => Some "KEYWORD_IF" |
    KEYWORD_ELSE => Some "KEYWORD_ELSE" | KEYWORD_WHILE => Some "KEYWORD_WHILE" |
    KEYWORD_FOR => Some "KEYWORD_FOR" | KEYWORD_RETURN => Some "KEYWORD_RETURN" |
    KEYWORD_CACHE => Some "KEYWORD_CACHE" | LPAREN => Some "LPAREN" |
    RPAREN => Some "RPAREN" | LBRACE => Some "LBRACE" | RBRACE => Some "RBRACE" |
    LBRACKET => Some "LBRACKET" | RBRACKET => Some "RBRACKET" |
    SEMICOLON => Some "SEMICOLON" | DOT => Some "DOT" | AT_SIGN => Some "AT_SIGN" |
    COMMA => Some "COMMA" | EQUAL => Some "EQUAL" | PLUS => Some "PLUS" |
    MINUS => Some "MINUS" | STAR => Some "STAR" | SLASH => Some "SLASH" |
    PERCENT => Some "PERCENT" | PIPE => Some "PIPE" | CARET => Some "CARET" |
    TILDE => Some "TILDE" | SHIFT_LEFT => Some "SHIFT_LEFT" |
    SHIFT_RIGHT => Some "SHIFT_RIGHT" | AND_AND => Some "AND_AND" | OR_OR => Some "OR_OR" |
    BANG => Some "BANG" | GREATER => Some "GREATER" |
    GREATER_EQUAL => Some "GREATER_EQUAL" | LESS => Some "LESS" |
    LESS_EQUAL => Some "LESS_EQUAL" | EQUAL_EQUAL => Some "EQUAL_EQUAL" |
    BANG_EQUAL => Some "BANG_EQUAL" | LITERAL_INTEGER => Some "LITERAL_INTEGER" |
    IDENTIFIER => Some "IDENTIFIER" | END_OF_FILE => Some "END_OF_FILE" |
    UNKNOWN => Some "UNKNOWN"
  | _ => None
  end%string.

(** [to_string(TokenType)] *)
Definition to_string (t : TokenType) : string :=
  match token_name t with
  | Some name => name
  | None => "TOKEN_TYPE(" +:+ pretty (token_code t) +:+ ")"
  end.

(** [struct Token]; [source_path] is set when the token is copied into a
    file's context and is empty as the lexer builds it. *)
Record Token := mkToken {
  tok_type : TokenType;
  lexeme : string;
  line_number : Z;
  col_number : Z;
  source_path : string
}.

Definition token (t : TokenType) (text : string) (line col : Z) : Token :=
  mkToken t text line col "".

(** The constructor that takes its position from another token. *)
Definition token_from (t : TokenType) (text : string) (source : Token) : Token :=
  mkToken t text (line_number source) (col_number source) (source_path source).

(** [throw CompilerError(message, token)] *)
Definition error_at (message : string) (t : Token) : error :=
  CompileError message (line_number t) (col_number t).

(* ------------------------------------------------------------------ *)
(** ** The enumeration is a finite type with its order *)

Lemma all_token_types_code t : all_token_types !! Z.to_nat (token_code t) = Some t.
Proof. by destruct t. Qed.

#[global] Instance token_code_inj : Inj (=) (=) token_code.
Proof.
  intros t u E. pose proof (all_token_types_code t) as Ht. pose proof (all_token_types_code u) as Hu.
  rewrite E in Ht. congruence.
Qed.

#[global] Instance TokenType_eq_dec : EqDecision TokenType.
Proof.
  intros t u. destruct (decide (token_code t = token_code u)) as [E|E].
  - left. by apply token_code_inj.
  - right. congruence.
Defined.

#[global] Instance Token_eq_dec : EqDecision Token.
Proof. solve_decision. Defined.

(** Test of a kind, as the code writes [t == TokenType::K]. *)
Notation is_tok t k := (bool_decide (t = k)).

(** The diagnostic names are unambiguous: two token kinds with the same
    printed name are the same kind, including the kinds that print as numbers. *)
Theorem to_string_injective (t u : TokenType) : to_string t = to_string u → t = u.
Proof.
  intros E. assert (NoDup (to_string <$> all_token_types)) as Hnd.
  { apply (bool_decide_eq_true _). vm_compute. reflexivity. }
  pose proof (all_token_types_code t) as Ht. pose proof (all_token_types_code u) as Hu.
  assert (Z.to_nat (token_code t) = Z.to_nat (token_code u)) as En.
  { eapply (NoDup_lookup _ _ _ (to_string t) Hnd).
    - by rewrite list_lookup_fmap, Ht.
    - by rewrite list_lookup_fmap, Hu, E. }
  rewrite En in Ht. congruence.
Qed.

Lemma to_string_injective_witness :
  to_string COLON = "TOKEN_TYPE(75)"%string ∧ COLON = COLON.
Proof.
  split; [vm_compute; reflexivity|].
  apply (to_string_injective COLON COLON). reflexivity.
Defined.
