(* ===== verification/Lexer.v ===== *)
(** * Lexer: from source text to tokens

    Models [Lexer.hpp] and [Lexer.cpp].  The source is the list of its bytes
    (values 0..255; the code's comparisons treat [char] values of 128 and more
    as neither digit nor letter whatever the signedness of [char]).  The state
    record holds the members of the class; a member function is a function of
    the state, and one that can throw returns [result].

    The loops of the scanner are [while (condition) advance();].  They run
    here with as much fuel as there are bytes left, which
    [run_advance_while] shows to be enough: the loop always ends because its
    condition became false. *)

From S2P Require Import Prelude Token.

(** The reserved words. *)
Definition keyword_list : list (string * TokenType) :=
  [("switch", KEYWORD_SWITCH); ("case", KEYWORD_CASE); ("default", KEYWORD_DEFAULT);
   ("break", KEYWORD_BREAK); ("struct", KEYWORD_STRUCT); ("far", KEYWORD_FAR);
   ("set", KEYWORD_SET); ("const", KEYWORD_CONST); ("volatile", KEYWORD_VOLATILE);
   ("ram", KEYWORD_RAM); ("bool", KEYWORD_BOOL); ("true", KEYWORD_TRUE);
   ("false", KEYWORD_FALSE); ("internal", KEYWORD_INTERNAL); ("export", KEYWORD_EXPORT);
   ("extern", KEYWORD_EXTERN); ("rom", KEYWORD_ROM); ("draw", KEYWORD_DRAW);
   ("at", KEYWORD_AT); ("with", KEYWORD_WITH); ("color", KEYWORD_COLOR);
   ("set_plot_options", KEYWORD_SET_PLOT_OPTIONS); ("flush_pixels", KEYWORD_FLUSH_PIXELS);
   ("set_color", KEYWORD_SET_COLOR); ("plot_begin", KEYWORD_PLOT_BEGIN);
   ("plot_end", KEYWORD_PLOT_END); ("plot", KEYWORD_PLOT); ("cursor", KEYWORD_CURSOR);
   ("pixel", KEYWORD_PIXEL); ("options", KEYWORD_OPTIONS);
   ("read_pixel", KEYWORD_READ_PIXEL); ("flush", KEYWORD_FLUSH);
   ("bitmap", KEYWORD_BITMAP); ("use", KEYWORD_USE); ("unsigned", KEYWORD_UNSIGNED);
   ("word", KEYWORD_WORD); ("byte", KEYWORD_BYTE); ("for", KEYWORD_FOR);
   ("while", KEYWORD_WHILE); ("if", KEYWORD_IF); ("else", KEYWORD_ELSE);
   ("void", KEYWORD_VOID); ("return", KEYWORD_RETURN); ("cache", KEYWORD_CACHE);
   ("constexpr", KEYWORD_CONSTEXPR); ("enum", KEYWORD_ENUM); ("null", KEYWORD_NULL);
   ("module", KEYWORD_MODULE); ("import", KEYWORD_IMPORT); ("type", KEYWORD_TYPE);
   ("continue", KEYWORD_CONTINUE); ("fallthrough", KEYWORD_FALLTHROUGH);
   ("sizeof", KEYWORD_SIZEOF); ("alignof", KEYWORD_ALIGNOF);
   ("offsetof", KEYWORD_OFFSETOF); ("static_assert", KEYWORD_STATIC_ASSERT)]%string.

Definition keywords : gmap string TokenType := list_to_map keyword_list.

(* ------------------------------------------------------------------ *)
(** ** Character classes *)

Definition isDigit (c : Z) : bool := (48 <=? c) && (c <=? 57).
Definition isAlpha (c : Z) : bool :=
  ((65 <=? c) && (c <=? 90)) || ((97 <=? c) && (c <=? 122)) || (c =? 95).
Definition isAlphaNumeric (c : Z) : bool := isAlpha c || isDigit c.
Definition isHexDigit (c : Z) : bool :=
  isDigit c || ((97 <=? c) && (c <=? 102)) || ((65 <=? c) && (c <=? 70)).

(** The members of the class, less the source. *)
Record lexer := mkLexer {
  m_tokens : list Token;
  m_start : nat;
  m_current : nat;
  m_line : Z;
  m_col : Z;
  m_token_line : Z;
  m_token_col : Z
}.

Definition initial : lexer := mkLexer [] 0 0 1 1 1 1.

Section lexer.
Context (m_source : list Z).
Implicit Types st : lexer.

Definition isAtEnd st : bool := Nat.leb (length m_source) (m_current st).

(** [m_source[i]]; the code reads it only where it exists, except that the
    byte at the end is the terminating zero of the string. *)
Definition char_at (i : nat) : Z := default 0 (m_source !! i).

Definition peek st : Z := if isAtEnd st then 0 else char_at (m_current st).
Definition peekNext st : Z :=
  if Nat.leb (length m_source) (m_current st + 1) then 0 else char_at (m_current st + 1).

(** [advance]: the state after it; the byte it returns is [current]. *)
Definition current st : Z := char_at (m_current st).
Definition advance st : lexer :=
  let newline := current st =? 10 in
  mkLexer (m_tokens st) (m_start st) (m_current st + 1)
    (if newline then m_line st + 1 else m_line st)
    (if newline then 1 else m_col st + 1)
    (m_token_line st) (m_token_col st).

Definition emit (t : Token) st : lexer :=
  mkLexer (m_tokens st ++ [t]) (m_start st) (m_current st) (m_line st) (m_col st)
    (m_token_line st) (m_token_col st).

(** [m_source.substr(m_start, m_current - m_start)] *)
Definition text st : string :=
  string_of_bytes (take (m_current st - m_start st) (drop (m_start st) m_source)).

Definition addToken (t : TokenType) st : lexer :=
  emit (token t (text st) (m_token_line st) (m_token_col st)) st.

(** [match]: whether it matched, and the state. *)
Definition match_ (expected : Z) st : bool * lexer :=
  if isAtEnd st || negb (current st =? expected) then (false, st) else (true, advance st).

(** [while (cond) advance();] *)
Fixpoint advance_while_fuel (fuel : nat) (cond : lexer → bool) st : lexer :=
  match fuel with
  | O => st
  | S fuel => if cond st then advance_while_fuel fuel cond (advance st) else st
  end.
Definition advance_while (cond : lexer → bool) st : lexer :=
  advance_while_fuel (length m_source - m_current st) cond st.

Definition number (first_digit : Z) st : lexer :=
  let st :=
    if first_digit =? 48 then
      if (peek st =? 120) || (peek st =? 88) then
        advance_while (λ s, isHexDigit (peek s)) (advance st)
      else if (peek st =? 98) || (peek st =? 66) then
        advance_while (λ s, (peek s =? 48) || (peek s =? 49)) (advance st)
      else advance_while (λ s, (48 <=? peek s) && (peek s <=? 55)) st
    else advance_while (λ s, isDigit (peek s)) st in
  addToken LITERAL_INTEGER st.

Definition identifier st : lexer :=
  let st := advance_while (λ s, isAlphaNumeric (peek s)) st in
  let type := match keywords !! text st with None => IDENTIFIER | Some k => k end in
  addToken type st.

(** [throw CompilerError(m, m_token_line, m_token_col)] *)
Definition lex_error (m : string) st : error := CompileError m (m_token_line st) (m_token_col st).

(** The value of a hexadecimal digit, as the escape computes it. *)
Definition hex_value (hex : Z) : Z :=
  if hex <=? 57 then hex - 48 else if hex <=? 70 then hex - 65 + 10 else hex - 97 + 10.

(** [\xHH]: two rounds of the loop. *)
Definition hex_digit (value : Z) st : result (Z * lexer) :=
  let hex := peek st in
  throw_if (negb (isHexDigit hex)) (lex_error "Hex escape requires exactly two digits." st);;
  Ok (value * 16 + hex_value hex, advance st).

Definition escape st : result (Z * lexer) :=
  let c := current st in
  let st := advance st in
  if c =? 110 then Ok (10, st)                      (* n *)
  else if c =? 114 then Ok (13, st)                 (* r *)
  else if c =? 116 then Ok (9, st)                  (* t *)
  else if c =? 48 then Ok (0, st)                   (* 0 *)
  else if c =? 92 then Ok (92, st)
  else if c =? 39 then Ok (39, st)
  else if c =? 34 then Ok (34, st)
  else if c =? 120 then                             (* x *)
    '(v, st) ← hex_digit 0 st;
    '(v, st) ← hex_digit v st;
    Ok (u8 v, st)
  else Err (lex_error "Unsupported escape sequence." st).

(** The loop that decodes a quoted literal.  A backslash that ends the file
    leaves the loop, as [break] does.  The fuel is the number of bytes left. *)
Fixpoint decode (fuel : nat) (quote : Z) (decoded : list Z) st : result (list Z * lexer) :=
  match fuel with
  | O => Ok (decoded, st)
  | S fuel =>
      if isAtEnd st || (peek st =? quote) then Ok (decoded, st) else
      let character := current st in
      let st := advance st in
      throw_if ((character =? 10) || (character =? 13))
        (lex_error "Newline in quoted literal." st);;
      let store character st :=
        throw_if (65534 <=? zlen decoded)
          (lex_error "Quoted literal exceeds 65534 bytes." st);;
        decode fuel quote (decoded ++ [character]) st in
      if character =? 92 then
        if isAtEnd st then Ok (decoded, st) else
        '(character, st) ← escape st; store character st
      else
        throw_if (128 <=? character)
          (lex_error "Text literals use ASCII; encode other bytes with hex escapes." st);;
        store character st
  end.

Definition quotedLiteral (quote : Z) st : result lexer :=
  '(decoded, st) ← decode (length m_source - m_current st) quote [] st;
  throw_if (isAtEnd st) (lex_error "Unterminated quoted literal." st);;
  let st := advance st in
  if quote =? 39 then
    throw_if (negb (zlen decoded =? 1))
      (lex_error "Character literal must contain exactly one byte." st);;
    Ok (emit (token LITERAL_CHARACTER (pretty (default 0 (head decoded)))
                (m_token_line st) (m_token_col st)) st)
  else
    Ok (emit (token LITERAL_STRING (string_of_bytes decoded)
                (m_token_line st) (m_token_col st)) st).

(** [match(c) ? t : ...] *)
Definition or_match (c : Z) (t : TokenType) (otherwise : lexer → TokenType * lexer) st :
    TokenType * lexer :=
  let (matched, st') := match_ c st in if matched then (t, st') else otherwise st'.
Definition plain (t : TokenType) st : TokenType * lexer := (t, st).

(** [addToken(<choice>)] *)
Definition add_choice (choice : lexer → TokenType * lexer) st : result lexer :=
  let (t, st) := choice st in Ok (addToken t st).

(** [<<=], [<<]: the choice after the doubled sign. *)
Definition shift_choice (c : Z) (t_shift t_shift_equal t_equal t : TokenType) st :
    TokenType * lexer :=
  let (matched, st') := match_ c st in
  if matched then or_match 61 t_shift_equal (plain t_shift) st'
  else or_match 61 t_equal (plain t) st'.

Definition in_comment st : bool := negb ((peek st =? 42) && (peekNext st =? 47)) && negb (isAtEnd st).

(** The case of [/]. *)
Definition slash st : result lexer :=
  let (line_comment, st1) := match_ 47 st in
  if line_comment then
    Ok (advance_while (λ s, negb (peek s =? 10) && negb (isAtEnd s)) st1)
  else
    let (block_comment, st2) := match_ 42 st1 in
    if block_comment then
      let start_line := m_line st2 in
      let st3 := advance_while in_comment st2 in
      throw_if (isAtEnd st3) (CompileError "Unterminated multi-line comment." start_line 0);;
      Ok (advance (advance st3))
    else add_choice (or_match 61 SLASH_EQUAL (plain SLASH)) st2.

Definition scanToken st : result lexer :=
  let c := current st in
  let st := advance st in
  let add t := Ok (addToken t st) in
  if c =? 34 then quotedLiteral 34 st
  else if c =? 39 then quotedLiteral 39 st
  else if c =? 40 then add LPAREN
  else if c =? 41 then add RPAREN
  else if c =? 123 then add LBRACE
  else if c =? 125 then add RBRACE
  else if c =? 59 then add SEMICOLON
  else if c =? 58 then add COLON
  else if c =? 44 then add COMMA
  else if c =? 46 then add DOT
  else if c =? 64 then add AT_SIGN
  else if c =? 38 then add_choice (or_match 38 AND_AND (or_match 61 AND_EQUAL (plain AMPERSAND))) st
  else if c =? 124 then add_choice (or_match 124 OR_OR (or_match 61 OR_EQUAL (plain PIPE))) st
  else if c =? 94 then add_choice (or_match 61 XOR_EQUAL (plain CARET)) st
  else if c =? 126 then add TILDE
  else if c =? 37 then add_choice (or_match 61 PERCENT_EQUAL (plain PERCENT)) st
  else if c =? 91 then add LBRACKET
  else if c =? 93 then add RBRACKET
  else if c =? 61 then add_choice (or_match 61 EQUAL_EQUAL (plain EQUAL)) st
  else if c =? 33 then add_choice (or_match 61 BANG_EQUAL (plain BANG)) st
  else if c =? 60 then add_choice (shift_choice 60 SHIFT_LEFT SHIFT_LEFT_EQUAL LESS_EQUAL LESS) st
  else if c =? 62 then
    add_choice (shift_choice 62 SHIFT_RIGHT SHIFT_RIGHT_EQUAL GREATER_EQUAL GREATER) st
  else if c =? 43 then add_choice (or_match 43 PLUS_PLUS (or_match 61 PLUS_EQUAL (plain PLUS))) st
  else if c =? 45 then
    add_choice (or_match 45 MINUS_MINUS (or_match 62 ARROW (or_match 61 MINUS_EQUAL (plain MINUS)))) st
  else if c =? 42 then add_choice (or_match 61 STAR_EQUAL (plain STAR)) st
  else if c =? 47 then slash st
  else if (c =? 32) || (c =? 13) || (c =? 9) || (c =? 10) then Ok st
  else if isDigit c then Ok (number c st)
  else if isAlpha c then Ok (identifier st)
  else add UNKNOWN.

(** The bookkeeping at the start of a lexeme. *)
Definition begin_lexeme st : lexer :=
  mkLexer (m_tokens st) (m_current st) (m_current st) (m_line st) (m_col st)
    (m_line st) (m_col st).

(** The loop of [scanTokens]; every round consumes a byte, so the number of
    bytes is enough fuel ([scan_loop_ends]). *)
Fixpoint scan_loop (fuel : nat) st : result lexer :=
  match fuel with
  | O => Ok st
  | S fuel =>
      if isAtEnd st then Ok st
      else st' ← scanToken (begin_lexeme st); scan_loop fuel st'
  end.

Definition scan : result (list Token) :=
  st ← scan_loop (length m_source) initial;
  Ok (m_tokens st ++ [token END_OF_FILE "" (m_line st) (m_col st)]).

End lexer.

(** [Lexer(source).scanTokens()] *)
Definition scanTokens (source : string) : result (list Token) := scan (bytes_of_string source).

(* ------------------------------------------------------------------ *)
(** ** What a lexeme is

    The reference the scanner is compared with: which bytes may stand for
    which token, independently of how the scanner finds them. *)

(** The position after some text, counting from a position. *)
Definition next_pos (p : Z * Z) (c : Z) : Z * Z :=
  if c =? 10 then (p.1 + 1, 1) else (p.1, p.2 + 1).
Definition pos_after (p : Z * Z) (l : list Z) : Z * Z := foldl next_pos p l.

(** The spelling of the operators and punctuation. *)
Definition spelling (t : TokenType) : option string :=
  match t with
  | LPAREN => Some "(" | RPAREN => Some ")" | LBRACE => Some "{" | RBRACE => Some "}"
  | SEMICOLON => Some ";" | COLON => Some ":" | COMMA => Some "," | DOT => Some "."
  | AT_SIGN => Some "@" | LBRACKET => Some "[" | RBRACKET => Some "]"
  | AND_AND => Some "&&" | AND_EQUAL => Some "&=" | AMPERSAND => Some "&"
  | OR_OR => Some "||" | OR_EQUAL => Some "|=" | PIPE => Some "|"
  | XOR_EQUAL => Some "^=" | CARET => Some "^" | TILDE => Some "~"
  | PERCENT_EQUAL => Some "%=" | PERCENT => Some "%"
  | EQUAL_EQUAL => Some "==" | EQUAL => Some "=" | BANG_EQUAL => Some "!=" | BANG => Some "!"
  | SHIFT_LEFT_EQUAL => Some "<<=" | SHIFT_LEFT => Some "<<" | LESS_EQUAL => Some "<="
  | LESS => Some "<" | SHIFT_RIGHT_EQUAL => Some ">>=" | SHIFT_RIGHT => Some ">>"
  | GREATER_EQUAL => Some ">=" | GREATER => Some ">"
  | PLUS_PLUS => Some "++" | PLUS_EQUAL => Some "+=" | PLUS => Some "+"
  | MINUS_MINUS => Some "--" | ARROW => Some "->" | MINUS_EQUAL => Some "-=" | MINUS => Some "-"
  | STAR_EQUAL => Some "*=" | STAR => Some "*" | SLASH_EQUAL => Some "/=" | SLASH => Some "/"
  | _ => None
  end%string.

(** The bytes that would make an operator longer. *)
Definition extensions (s : string) : list Z :=
  omap (λ t, s' ← spelling t;
    match drop (String.length s) (bytes_of_string s') with
    | [c] => if String.prefix s s' then Some c else None
    | _ => None
    end) all_token_types.

(** What follows does not continue the lexeme. *)
Definition stops (p : Z → bool) (rest : list Z) : Prop :=
  match rest with [] => True | c :: _ => p c = false end.

(** The text of an integer literal, with what follows it. *)
Inductive integer_text : list Z → list Z → Prop :=
  | integer_hex x l rest :
      x = 120 ∨ x = 88 → Forall isHexDigit l → stops isHexDigit rest →
      integer_text (48 :: x :: l) rest
  | integer_bin b l rest :
      b = 98 ∨ b = 66 → Forall (λ c, c = 48 ∨ c = 49) l →
      stops (λ c, bool_decide (c = 48 ∨ c = 49)) rest → integer_text (48 :: b :: l) rest
  | integer_oct l rest :
      Forall (λ c, 48 ≤ c ≤ 55) l → stops (λ c, bool_decide (48 ≤ c ≤ 55)) rest →
      stops (λ c, bool_decide (c ∈ [120; 88; 98; 66])) (l ++ rest) →
      integer_text (48 :: l) rest
  | integer_dec c l rest :
      c ≠ 48 → isDigit c → Forall isDigit l → stops isDigit rest → integer_text (c :: l) rest.

(** The body of a quoted literal, in which its quote stands only escaped, and the
    bytes it stands for. *)
Inductive simple_escape : Z → Z → Prop :=
  | escape_n : simple_escape 110 10
  | escape_r : simple_escape 114 13
  | escape_t : simple_escape 116 9
  | escape_0 : simple_escape 48 0
  | escape_self c : c ∈ [92; 39; 34] → simple_escape c c.
Inductive unescapes (quote : Z) : list Z → list Z → Prop :=
  | unescapes_nil : unescapes quote [] []
  | unescapes_plain c l d :
      c ≠ quote → c ≠ 92 → c ≠ 10 → c ≠ 13 → c < 128 → unescapes quote l d → unescapes quote (c :: l) (c :: d)
  | unescapes_simple e v l d :
      simple_escape e v → unescapes quote l d → unescapes quote (92 :: e :: l) (v :: d)
  | unescapes_hex h1 h2 l d :
      isHexDigit h1 → isHexDigit h2 → unescapes quote l d →
      unescapes quote (92 :: 120 :: h1 :: h2 :: l) (hex_value h1 * 16 + hex_value h2 :: d).

(** White space and comments. *)
Inductive trivia : list Z → list Z → Prop :=
  | trivia_space c rest : c ∈ [32; 13; 9; 10] → trivia [c] rest
  | trivia_line l rest :
      Forall (λ c, c ≠ 10) l → stops (λ c, negb (c =? 10)) rest → trivia (47 :: 47 :: l) rest
  | trivia_block l rest :
      (∀ i, l !! i = Some 42 → l !! S i ≠ Some 47) → trivia (47 :: 42 :: l ++ [42; 47]) rest.

(** The tokens a piece of the source gives, with their text, before some rest. *)
Inductive lexed : list Z → list Z → list (TokenType * string) → Prop :=
  | lexed_trivia l rest : trivia l rest → lexed l rest []
  | lexed_operator t s rest :
      spelling t = Some s → stops (λ c, bool_decide (c ∈ extensions s)) rest →
      (t = SLASH → stops (λ c, bool_decide (c ∈ [47; 42])) rest) →
      lexed (bytes_of_string s) rest [(t, s)]
  | lexed_integer l rest :
      integer_text l rest → lexed l rest [(LITERAL_INTEGER, string_of_bytes l)]
  | lexed_word c l rest :
      isAlpha c → Forall isAlphaNumeric l → stops isAlphaNumeric rest →
      lexed (c :: l) rest
        [(default IDENTIFIER (keywords !! string_of_bytes (c :: l)), string_of_bytes (c :: l))]
  | lexed_character l v rest :
      unescapes 39 l [v] → lexed (39 :: l ++ [39]) rest [(LITERAL_CHARACTER, pretty v)]
  | lexed_string l d rest :
      unescapes 34 l d → zlen d ≤ 65534 →
      lexed (34 :: l ++ [34]) rest [(LITERAL_STRING, string_of_bytes d)]
  | lexed_unknown c rest :
      isAlphaNumeric c = false → c ∉ [34; 39; 32; 13; 9; 10] → c ∉ extensions "" →
      lexed [c] rest [(UNKNOWN, string_of_bytes [c])].

(** A source cut into pieces, with the position of each token. *)
Inductive lexes : Z * Z → list Z → list Token → Prop :=
  | lexes_end p : lexes p [] [token END_OF_FILE "" p.1 p.2]
  | lexes_piece p l ts rest toks :
      l ≠ [] → lexed l rest ts → lexes (pos_after p l) rest toks →
      lexes p (l ++ rest) (((λ '(t, s), token t s p.1 p.2) <$> ts) ++ toks).

(* ------------------------------------------------------------------ *)
(** ** Runs of the scanner *)

Section lexer_lemmas.
Context (src : list Z).
Implicit Types st : lexer.

Definition rest st : list Z := drop (m_current st) src.
#[local] Arguments rest : simpl never.

(** [run st l st']: the bytes [l] were consumed between the two states, and
    nothing but the position changed. *)
Record run st (l : list Z) st' : Prop := {
  run_rest : rest st = l ++ rest st';
  run_current : m_current st' = (m_current st + length l)%nat;
  run_pos : (m_line st', m_col st') = pos_after (m_line st, m_col st) l;
  run_tokens : m_tokens st' = m_tokens st;
  run_start : m_start st' = m_start st;
  run_token_pos : (m_token_line st', m_token_col st') = (m_token_line st, m_token_col st)
}.

Lemma run_refl st : run st [] st.
Proof. split; cbn; try done; lia. Qed.

Lemma run_trans st1 st2 st3 l k : run st1 l st2 → run st2 k st3 → run st1 (l ++ k) st3.
Proof.
  intros H1 H2. split.
  - by rewrite (run_rest _ _ _ H1), (run_rest _ _ _ H2), (assoc_L (++)).
  - rewrite (run_current _ _ _ H2), (run_current _ _ _ H1), length_app. lia.
  - rewrite (run_pos _ _ _ H2), (run_pos _ _ _ H1). unfold pos_after. by rewrite foldl_app.
  - by rewrite (run_tokens _ _ _ H2), (run_tokens _ _ _ H1).
  - by rewrite (run_start _ _ _ H2), (run_start _ _ _ H1).
  - by rewrite (run_token_pos _ _ _ H2), (run_token_pos _ _ _ H1).
Qed.

Lemma isAtEnd_rest st : isAtEnd src st = true ↔ rest st = [].
Proof.
  unfold isAtEnd, rest. rewrite Nat.leb_le. split; [apply drop_ge|].
  intros H. apply (f_equal length) in H. rewrite length_drop in H. cbn in H. lia.
Qed.

(** The byte in front of the scanner is the head of the rest. *)
Lemma rest_cons st :
  isAtEnd src st = false → rest st = current src st :: rest (advance src st).
Proof.
  unfold isAtEnd, rest, current, char_at. rewrite Nat.leb_gt. intros H. cbn.
  destruct (lookup_lt_is_Some_2 src (m_current st) H) as [c Hc].
  rewrite (drop_S _ _ _ Hc), Hc. cbn. by rewrite Nat.add_1_r.
Qed.

Lemma peek_cases st :
  (isAtEnd src st = true ∧ peek src st = 0 ∧ rest st = []) ∨
  (isAtEnd src st = false ∧ peek src st = current src st ∧
   rest st = peek src st :: rest (advance src st)).
Proof.
  unfold peek. destruct (isAtEnd src st) eqn:E; [left | right].
  - by rewrite <- isAtEnd_rest.
  - split_and!; [done | done | by apply rest_cons].
Qed.

Lemma peekNext_rest st : peekNext src st = default 0 (rest st !! 1%nat).
Proof.
  unfold peekNext, char_at, rest. rewrite lookup_drop.
  destruct (Nat.leb_spec (length src) (m_current st + 1)); [|done].
  rewrite lookup_ge_None_2 by lia. done.
Qed.

Lemma run_advance st : isAtEnd src st = false → run st [current src st] (advance src st).
Proof.
  intros H. split; try done; [by apply rest_cons |].
  cbn. unfold next_pos. by destruct (current src st =? 10).
Qed.

Lemma run_match c st m st' :
  match_ src c st = (m, st') →
  if m then run st [c] st' else st' = st ∧ stops (λ x, x =? c) (rest st).
Proof.
  unfold match_. destruct (isAtEnd src st) eqn:E; cbn.
  - intros [= <- <-]. apply isAtEnd_rest in E. by rewrite E.
  - destruct (Z.eqb_spec (current src st) c) as [<-|Hc]; cbn; intros [= <- <-].
    + by apply run_advance.
    + split; [done|]. rewrite rest_cons by done. cbn. by apply Z.eqb_neq.
Qed.

(** [while (cond) advance();] where the condition is a test of the bytes ahead
    that fails at the end of the source: the bytes consumed satisfied it, and
    it is false after the loop. *)
Lemma run_advance_while_fuel (f : list Z → bool) (cond : lexer → bool) fuel st :
  (∀ s, cond s = f (rest s)) → f [] = false → (length (rest st) ≤ fuel)%nat →
  let st' := advance_while_fuel src fuel cond st in
  ∃ l, run st l st' ∧ f (rest st') = false ∧
    (∀ l1 l2, l = l1 ++ l2 → l2 ≠ [] → f (l2 ++ rest st') = true).
Proof.
  intros Hcond Hend. revert st. induction fuel as [|fuel IH]; intros st Hfuel; cbn.
  - exists []. split; [apply run_refl|]. split.
    + destruct (rest st); [done | cbn in Hfuel; lia].
    + by intros [] [].
  - destruct (cond st) eqn:E.
    + assert (isAtEnd src st = false) as Hne.
      { destruct (isAtEnd src st) eqn:Ee; [|done]. apply isAtEnd_rest in Ee.
        rewrite Hcond, Ee in E. congruence. }
      destruct (IH (advance src st)) as (l & Hrun & Hf & Hall).
      { rewrite rest_cons in Hfuel by done. cbn in Hfuel. lia. }
      exists (current src st :: l). split; [|split; [done|]].
      * apply (run_trans _ _ _ [_] _ (run_advance _ Hne) Hrun).
      * intros [|c l1] l2 Hl Hl2; cbn in Hl; [|by apply (Hall l1); congruence].
        subst l2. cbn. rewrite <- (run_rest _ _ _ Hrun), <- rest_cons, <- Hcond by done. done.
    + exists []. split; [apply run_refl|]. split; [congruence|]. by intros [] [].
Qed.

Lemma run_advance_while (f : list Z → bool) (cond : lexer → bool) st :
  (∀ s, cond s = f (rest s)) → f [] = false →
  let st' := advance_while src cond st in
  ∃ l, run st l st' ∧ f (rest st') = false ∧
    (∀ l1 l2, l = l1 ++ l2 → l2 ≠ [] → f (l2 ++ rest st') = true).
Proof.
  intros. apply run_advance_while_fuel; [done..|]. unfold rest. by rewrite length_drop.
Qed.

(** The same for a test of one byte. *)
Lemma run_advance_while_byte (p : Z → bool) (cond : lexer → bool) st :
  (∀ s, cond s = match rest s with [] => false | c :: _ => p c end) →
  let st' := advance_while src cond st in
  ∃ l, run st l st' ∧ Forall p l ∧ stops p (rest st').
Proof.
  intros Hcond.
  destruct (run_advance_while (λ l, match l with [] => false | c :: _ => p c end) cond st)
    as (l & Hrun & Hf & Hall); [done..|].
  exists l. split; [done|]. split.
  - apply Forall_lookup. intros i c Hc. apply Is_true_true.
    specialize (Hall (take i l) (drop i l)). rewrite (drop_S _ _ _ Hc) in Hall.
    apply Hall; [by rewrite take_drop_middle | done].
  - unfold stops. by destruct (rest (advance_while src cond st)).
Qed.

(** Every loop of the scanner that tests one byte, as a test of the rest. *)
Lemma peek_test (p : Z → bool) st :
  p 0 = false → p (peek src st) = match rest st with [] => false | c :: _ => p c end.
Proof.
  intros H0. destruct (peek_cases st) as [(_ & -> & ->) | (_ & _ & ->)]; done.
Qed.

(** The text of a token that began [l] bytes ago. *)
Lemma run_text st l st' :
  run st l st' → m_start st = m_current st → text src st' = string_of_bytes l.
Proof.
  intros Hrun Hs. unfold text. f_equal.
  rewrite (run_start _ _ _ Hrun), Hs, (run_current _ _ _ Hrun).
  pose proof (run_rest _ _ _ Hrun) as Hr. unfold rest in Hr. rewrite Hr.
  replace (m_current st + length l - m_current st)%nat with (length l) by lia.
  by rewrite take_app_length.
Qed.

(** [scans st st']: from the start of a lexeme, the scanner consumed a piece
    and emitted the tokens of that piece. *)
Definition scans st st' : Prop :=
  ∃ l ts, l ≠ [] ∧ rest st = l ++ rest st' ∧
    (m_line st', m_col st') = pos_after (m_line st, m_col st) l ∧
    m_tokens st' = m_tokens st ++ ((λ '(t, s), token t s (m_line st) (m_col st)) <$> ts) ∧
    lexed l (rest st') ts.

(** A state in which a lexeme has just begun. *)
Definition fresh_lexeme st : Prop :=
  m_start st = m_current st ∧ (m_token_line st, m_token_col st) = (m_line st, m_col st).

Lemma scans_skip st l st' :
  run st l st' → l ≠ [] → trivia l (rest st') → scans st st'.
Proof.
  intros Hrun Hl Ht. exists l, []. split_and!; try done; try apply Hrun.
  - cbn. rewrite app_nil_r. apply Hrun.
  - by constructor.
Qed.

Lemma scans_emit st l st' t s :
  fresh_lexeme st → run st l st' → l ≠ [] → lexed l (rest st') [(t, s)] →
  scans st (emit (token t s (m_token_line st') (m_token_col st')) st').
Proof.
  intros [_ Hp] Hrun Hl Ht. exists l, [(t, s)]. cbn. split_and!; try done; try apply Hrun.
  rewrite (run_tokens _ _ _ Hrun). f_equal. pose proof (run_token_pos _ _ _ Hrun) as E.
  rewrite Hp in E. injection E as -> ->. done.
Qed.

Lemma scans_add st l st' t :
  fresh_lexeme st → run st l st' → l ≠ [] → lexed l (rest st') [(t, string_of_bytes l)] →
  scans st (addToken src t st').
Proof.
  intros Hf Hrun Hl Ht. unfold addToken. rewrite (run_text _ _ _ Hrun) by apply Hf.
  by eapply scans_emit.
Qed.

Lemma stops_elem (L : list Z) r :
  Forall (λ k, stops (λ x, x =? k) r) L → stops (λ c, bool_decide (c ∈ L)) r.
Proof.
  destruct r as [|c r]; [done|]. unfold stops. intros H. apply bool_decide_eq_false. intros Hc.
  rewrite Forall_forall in H. specialize (H c Hc). lia.
Qed.

Lemma stops_impl (p q : Z → bool) r :
  (∀ c, q c = true → p c = true) → stops p r → stops q r.
Proof.
  intros Hpq. destruct r as [|c r]; [done|]. unfold stops. specialize (Hpq c).
  destruct (p c), (q c); naive_solver.
Qed.

Lemma lexed_op t l r :
  spelling t = Some (string_of_bytes l) → bytes_of_string (string_of_bytes l) = l →
  Forall (λ k, stops (λ x, x =? k) r) (extensions (string_of_bytes l)) →
  (t = SLASH → stops (λ x, x =? 47) r ∧ stops (λ x, x =? 42) r) →
  lexed l r [(t, string_of_bytes l)].
Proof.
  intros Hs Hb He Hslash. rewrite <- Hb at 1. apply lexed_operator; [done | by apply stops_elem|].
  intros Ht. destruct (Hslash Ht). apply stops_elem. by repeat constructor.
Qed.

(** Composes the runs at hand. *)
Ltac runs :=
  match goal with
  | H : run ?s _ ?t |- run ?s _ ?t => exact H
  | H : run ?s _ ?m |- run ?s _ ?t =>
      eapply run_trans; [exact H|]; clear H; runs
  end.

(** Follows the choice of an operator through its tests of the next byte, and
    finds the operator that was spelled. *)
Ltac operator H :=
  unfold add_choice, shift_choice, or_match, plain in H;
  repeat match type of H with
  | context [match_ src ?c ?s] =>
      let E := fresh "E" in
      destruct (match_ src c s) as [[] ?] eqn:E; apply run_match in E;
      [| destruct E as [-> ?]]
  end; inv_result;
  (eapply scans_add; [done | runs | done |]; apply lexed_op;
   [ vm_compute; reflexivity | vm_compute; reflexivity
   | match goal with |- Forall _ ?e => let e' := eval vm_compute in e in change e with e' end;
     repeat constructor; done
   | done ]).

(** [while (p(peek())) advance();] *)
Lemma run_while_peek (p : Z → bool) st :
  p 0 = false →
  ∃ l, run st l (advance_while src (λ s, p (peek src s)) st) ∧ Forall p l ∧
    stops p (rest (advance_while src (λ s, p (peek src s)) st)).
Proof. intros Hp. apply run_advance_while_byte. intros s. by apply peek_test. Qed.

(** A byte that [peek] shows, other than zero, is there. *)
Lemma run_peek c st : peek src st = c → c ≠ 0 → run st [c] (advance src st).
Proof.
  intros <- Hc. destruct (peek_cases st) as [(_ & E & _) | (He & -> & _)]; [lia|].
  by apply run_advance.
Qed.

Lemma stops_peek (p : Z → bool) st : p (peek src st) = false → stops p (rest st).
Proof. destruct (peek_cases st) as [(_ & _ & ->) | (_ & _ & ->)]; done. Qed.

Lemma scans_number st0 st c :
  fresh_lexeme st0 → run st0 [c] st → isDigit c → scans st0 (number src c st).
Proof.
  intros Hf Hrun Hc. unfold number.
  assert (∀ l st', run st l st' → integer_text (c :: l) (rest st') →
    scans st0 (addToken src LITERAL_INTEGER st')) as Hadd.
  { intros l st' Hl Ht. apply (scans_add _ ([c] ++ l)); [done | by eapply run_trans | done |].
    by constructor. }
  destruct (Z.eqb_spec c 48) as [->|Hc0].
  2: { destruct (run_while_peek isDigit st) as (l & Hl & Hall & Hstop); [done|].
       apply (Hadd l); [done|]. by apply integer_dec. }
  destruct ((peek src st =? 120) || (peek src st =? 88)) eqn:Ex.
  { destruct (run_while_peek isHexDigit (advance src st)) as (l & Hl & Hall & Hstop); [done|].
    assert (run st [peek src st] (advance src st)) as Hx by (apply run_peek; [done | lia]).
    apply (Hadd ([peek src st] ++ l)); [by eapply run_trans|]. apply integer_hex; [lia | done..]. }
  destruct ((peek src st =? 98) || (peek src st =? 66)) eqn:Eb.
  { destruct (run_while_peek (λ c, (c =? 48) || (c =? 49)) (advance src st))
      as (l & Hl & Hall & Hstop); [done|].
    assert (run st [peek src st] (advance src st)) as Hx by (apply run_peek; [done | lia]).
    apply (Hadd ([peek src st] ++ l)); [by eapply run_trans|]. apply integer_bin; [lia | |].
    - eapply Forall_impl; [exact Hall|]. intros x Hd%Is_true_true. cbn in Hd. lia.
    - eapply stops_impl; [|exact Hstop]. intros x Hd%bool_decide_eq_true. cbn. lia. }
  destruct (run_while_peek (λ c, (48 <=? c) && (c <=? 55)) st) as (l & Hl & Hall & Hstop); [done|].
  apply (Hadd l); [done|]. apply integer_oct.
  - eapply Forall_impl; [exact Hall|]. intros x Hd%Is_true_true. cbn in Hd. lia.
  - eapply stops_impl; [|exact Hstop]. intros x Hd%bool_decide_eq_true. cbn. lia.
  - rewrite <- (run_rest _ _ _ Hl). apply stops_peek, bool_decide_eq_false.
    rewrite !elem_of_cons, elem_of_nil. lia.
Qed.

Lemma scans_identifier st0 st c :
  fresh_lexeme st0 → run st0 [c] st → isAlpha c → scans st0 (identifier src st).
Proof.
  intros Hf Hrun Hc. unfold identifier.
  destruct (run_while_peek isAlphaNumeric st) as (l & Hl & Hall & Hstop); [done|].
  set (st' := advance_while src (λ s, isAlphaNumeric (peek src s)) st) in *.
  assert (run st0 (c :: l) st') as Hcl by (apply (run_trans _ _ _ [c] l Hrun Hl)).
  apply (scans_add _ (c :: l)); [done..|].
  rewrite (run_text _ _ _ Hcl) by apply Hf. by apply lexed_word.
Qed.

(** ** Quoted literals *)

Lemma run_hex_digit v st v' st' :
  hex_digit src v st = Ok (v', st') →
  ∃ h, isHexDigit h ∧ run st [h] st' ∧ v' = v * 16 + hex_value h.
Proof.
  unfold hex_digit. intros H. inv_result. injection H as <- <-.
  apply negb_false_iff in G. exists (peek src st). split_and!; [by rewrite G | | done].
  apply run_peek; [done|]. intros E. by rewrite E in G.
Qed.

Lemma hex_value_range h : isHexDigit h → 0 ≤ hex_value h < 16.
Proof.
  unfold isHexDigit, isDigit, hex_value. intros Hh%Is_true_true. case_tests; lia.
Qed.

Lemma run_escape st v st' :
  isAtEnd src st = false → escape src st = Ok (v, st') →
  ∃ l, run st l st' ∧ (∀ quote k d, unescapes quote k d → unescapes quote (92 :: l ++ k) (v :: d)).
Proof.
  intros He H. pose proof (run_advance _ He) as Hc. unfold escape in H.
  set (c := current src st) in *.
  assert (∀ w, Ok (w, advance src st) = Ok (v, st') → simple_escape c w →
    ∃ l, run st l st' ∧ (∀ quote k d, unescapes quote k d → unescapes quote (92 :: l ++ k) (v :: d))) as Hsimple.
  { intros w [= <- <-] Hw. exists [c]. split; [done|]. intros. by constructor. }
  repeat match type of H with
  | (if c =? ?k then Ok _ else _) = _ =>
      destruct (Z.eqb_spec c k) as [E|];
      [apply (Hsimple _ H); rewrite E; constructor; set_solver|]
  end.
  destruct (Z.eqb_spec c 120) as [E|]; [|done]. clear Hsimple.
  apply result_bind_ok in H as ([v1 st1] & (h1 & Hh1 & Hr1 & Hv1)%run_hex_digit & H).
  apply result_bind_ok in H as ([v2 st2] & (h2 & Hh2 & Hr2 & Hv2)%run_hex_digit & H).
  injection H as <- <-. exists ([c] ++ [h1] ++ [h2]). split.
  { eapply run_trans; [exact Hc|]. by eapply run_trans. }
  intros q k d Hk. rewrite E. cbn.
  replace (u8 v2) with (hex_value h1 * 16 + hex_value h2); [by constructor|].
  pose proof (hex_value_range _ Hh1). pose proof (hex_value_range _ Hh2).
  rewrite uwrap_small; cbn; lia.
Qed.

(** The loop of [quotedLiteral]: if it stops before the end of the file, it
    stopped at the quote, and it decoded the bytes in between. *)
Lemma run_decode fuel quote dec st dec' st' :
  (length (rest st) ≤ fuel)%nat → zlen dec ≤ 65534 →
  decode src fuel quote dec st = Ok (dec', st') → isAtEnd src st' = false →
  ∃ l d, run st l st' ∧ dec' = dec ++ d ∧ zlen dec' ≤ 65534 ∧ unescapes quote l d ∧
    peek src st' = quote.
Proof.
  revert dec st. induction fuel as [|fuel IH]; intros dec st Hfuel Hdec H Hend; cbn [decode] in H.
  { injection H as <- <-. assert (rest st = []) as E by (destruct (rest st); [done | cbn in Hfuel; lia]).
    apply isAtEnd_rest in E. congruence. }
  destruct (isAtEnd src st) eqn:He; cbn [orb] in H; [injection H as <- <-; congruence|].
  destruct (Z.eqb_spec (peek src st) quote) as [Hq|Hq].
  { injection H as <- <-. exists [], []. rewrite app_nil_r. split_and!; auto using run_refl, unescapes_nil. }
  pose proof (run_advance _ He) as Hc. set (c := current src st) in *.
  assert (length (rest (advance src st)) ≤ fuel)%nat as Hfuel1.
  { rewrite (run_rest _ _ _ Hc) in Hfuel. cbn in Hfuel. lia. }
  set (st1 := advance src st) in *.
  assert (∀ x st2 l, run st l st2 → (length (rest st2) ≤ fuel)%nat →
    (∀ k d, unescapes quote k d → unescapes quote (l ++ k) (x :: d)) →
    (throw_if (65534 <=? zlen dec) (lex_error "Quoted literal exceeds 65534 bytes." st2);;
     decode src fuel quote (dec ++ [x]) st2) = Ok (dec', st') →
    ∃ l d, run st l st' ∧ dec' = dec ++ d ∧ zlen dec' ≤ 65534 ∧ unescapes quote l d ∧
      peek src st' = quote) as Hstore.
  { clear H. intros x st2 l Hl Hlen Hun Hd. inv_result.
    apply IH in Hd as (l' & d & Hrun & -> & Hsz & Hu & Hp); [| done | | done].
    2: { rewrite zlen_app, zlen_cons, zlen_nil. lia. }
    exists (l ++ l'), (x :: d). split_and!; try done.
    - by eapply run_trans.
    - by rewrite <- (assoc_L (++)).
    - by apply Hun. }
  apply result_bind_ok in H as ([] & Hnl%throw_if_ok & H).
  destruct (Z.eqb_spec c 92) as [Hc92|Hc92].
  - destruct (isAtEnd src st1) eqn:He1; [injection H as <- <-; congruence|].
    apply result_bind_ok in H as ([x st2] & Hesc & H).
    destruct (run_escape _ _ _ He1 Hesc) as (l & Hl & Hun).
    apply (Hstore x st2 (c :: l)); [by apply (run_trans _ _ _ [c] l Hc) | | | done].
    + rewrite (run_rest _ _ _ Hl), length_app in Hfuel1. lia.
    + rewrite Hc92. intros k d. apply Hun.
  - apply result_bind_ok in H as ([] & Hascii%throw_if_ok & H).
    apply (Hstore c st1 [c]); [done..| |done]. intros k d Hk.
    destruct (peek_cases st) as [(He' & _ & _)|(_ & Hpk & _)]; [congruence|]. apply unescapes_plain; by lia || done.
Qed.

Lemma scans_quoted st0 st st' q :
  q = 39 ∨ q = 34 → fresh_lexeme st0 → run st0 [q] st → quotedLiteral src q st = Ok st' →
  scans st0 st'.
Proof.
  intros Hq Hf Hrun H. unfold quotedLiteral in H.
  apply result_bind_ok in H as ([dec st1] & Hdec & H).
  apply result_bind_ok in H as ([] & Hend%throw_if_ok & H).
  apply run_decode in Hdec as (l & d & Hl & -> & Hlen & Hun & Hp);
    [| unfold rest; by rewrite length_drop | done | done].
  assert (run st1 [q] (advance src st1)) as Hr by (apply run_peek; [done | lia]).
  assert (run st0 (q :: l ++ [q]) (advance src st1)) as Hall.
  { apply (run_trans _ _ _ [q] _ Hrun). by apply (run_trans _ _ _ l [q] Hl). }
  destruct Hq as [-> | ->]; cbn in H.
  - inv_result. apply negb_false_iff, Z.eqb_eq in G. cbn in G.
    destruct d as [|v [|]]; try (unfold zlen in G; cbn in G; lia).
    eapply (scans_emit _ _ _ _ _ Hf Hall); [done|]. by apply lexed_character.
  - inv_result. eapply (scans_emit _ _ _ _ _ Hf Hall); [done|]. by apply lexed_string.
Qed.

(** ** Comments *)

(** A comment body up to its first closing pair. *)
Lemma comment_body l (r : list Z) :
  (∀ l1 l2, l = l1 ++ l2 → l2 ≠ [] →
    negb ((default 0 (head (l2 ++ r)) =? 42) && (default 0 ((l2 ++ r) !! 1%nat) =? 47)) = true) →
  ∀ i, l !! i = Some 42 → l !! S i ≠ Some 47.
Proof.
  intros H i Hi Hs. specialize (H (take i l) (drop i l)).
  rewrite (drop_S _ _ _ Hi), (drop_S _ _ _ Hs) in H. cbn in H.
  discriminate H; [|done]. by rewrite <- (drop_S _ _ _ Hs), take_drop_middle.
Qed.

Lemma scans_slash st0 st st' :
  fresh_lexeme st0 → run st0 [47] st → slash src st = Ok st' → scans st0 st'.
Proof.
  intros Hf Hrun H. unfold slash in H.
  destruct (match_ src 47 st) as [[] st1] eqn:E1; apply run_match in E1.
  { inv_result. destruct (run_advance_while_byte (λ c, negb (c =? 10))
      (λ s, negb (peek src s =? 10) && negb (isAtEnd src s)) st1) as (l & Hl & Hall & Hstop).
    { intros s. destruct (peek_cases s) as [(-> & _ & ->) | (-> & _ & ->)]; cbn.
      - apply andb_false_r.
      - apply andb_true_r. }
    eapply (scans_skip _ ([47] ++ [47] ++ l)); [| done |].
    - eapply run_trans; [done|]. by eapply run_trans.
    - apply trivia_line; [|done]. eapply Forall_impl; [exact Hall|].
      intros c Hc%Is_true_true. cbn in Hc. lia. }
  destruct E1 as [-> Hs1].
  destruct (match_ src 42 st) as [[] st2] eqn:E2; apply run_match in E2.
  2: { destruct E2 as [-> Hs2]. operator H. }
  inv_result. pose (f := λ l, match l with [] => false | _ =>
    negb ((default 0 (head l) =? 42) && (default 0 (l !! 1%nat) =? 47)) end).
  destruct (run_advance_while f (in_comment src) st2) as (l & Hl & Hf0 & Hall); [|done|].
  { intros s. unfold in_comment. rewrite peekNext_rest.
    destruct (peek_cases s) as [(-> & -> & ->) | (-> & _ & ->)]; [done|]. apply andb_true_r. }
  set (st3 := advance_while src (in_comment src) st2) in *.
  assert (run st3 [42; 47] (advance src (advance src st3)) ∧ rest st3 ≠ []) as [Hclose Hne].
  { clear Hall. rewrite (rest_cons _ G) in Hf0. unfold f in Hf0. cbn in Hf0.
    apply negb_false_iff, andb_true_iff in Hf0 as [E42%Z.eqb_eq E47%Z.eqb_eq].
    destruct (isAtEnd src (advance src st3)) eqn:E; [apply isAtEnd_rest in E; by rewrite E in E47|].
    rewrite (rest_cons _ E) in E47. cbn in E47. split; [|by rewrite (rest_cons _ G)].
    pose proof (run_advance _ G) as R1. pose proof (run_advance _ E) as R2.
    rewrite E42 in R1. rewrite E47 in R2. apply (run_trans _ _ _ _ _ R1 R2). }
  eapply (scans_skip _ ([47] ++ [42] ++ l ++ [42; 47])); [| done |].
  - do 2 (eapply run_trans; [done|]). by eapply run_trans.
  - apply trivia_block. apply (comment_body _ (rest st3)). intros l1 l2 -> Hl2.
    specialize (Hall l1 l2 eq_refl Hl2). unfold f in Hall.
    by destruct (l2 ++ rest st3).
Qed.

(** One call of [scanToken] from the start of a lexeme consumes a piece of the
    source and emits the tokens of that piece. *)
Lemma scanToken_scans st st' :
  fresh_lexeme st → isAtEnd src st = false → scanToken src st = Ok st' → scans st st'.
Proof.
  intros Hf He H. pose proof (run_advance _ He) as Hrun. unfold scanToken in H.
  set (c := current src st) in *. set (st1 := advance src st) in *. clearbody st1 c.
  assert (∀ t, spelling t = Some (string_of_bytes [c]) →
    bytes_of_string (string_of_bytes [c]) = [c] →
    extensions (string_of_bytes [c]) = [] → t ≠ SLASH →
    Ok (addToken src t st1) = Ok st' → scans st st') as Hadd.
  { intros t Ht Hb Hx Hn [= <-]. eapply scans_add; [done.. |]. apply lexed_op; [done | done | | done].
    by rewrite Hx. }
  repeat match type of H with
  | (if c =? ?k then _ else _) = _ => destruct (Z.eqb_spec c k) as [->|]
  end;
  try (eapply (Hadd _); [ | | | | exact H]; [vm_compute; reflexivity.. | done]);
  try operator H.
  - by apply (scans_quoted _ _ _ 34 ltac:(lia) Hf Hrun).
  - by apply (scans_quoted _ _ _ 39 ltac:(lia) Hf Hrun).
  - by apply (scans_slash _ _ _ Hf Hrun).
  - destruct ((c =? 32) || (c =? 13) || (c =? 9) || (c =? 10)) eqn:Ew.
    { injection H as <-. eapply (scans_skip _ _ _ Hrun); [done|]. constructor.
      rewrite !elem_of_cons, elem_of_nil. lia. }
    destruct (isDigit c) eqn:Ed.
    { injection H as <-. apply scans_number; [done.. | by rewrite Ed]. }
    destruct (isAlpha c) eqn:Ea.
    { injection H as <-. eapply scans_identifier; [done.. | by rewrite Ea]. }
    injection H as <-. eapply (scans_add _ _ _ _ Hf Hrun); [done|]. apply lexed_unknown.
    + unfold isAlphaNumeric. by rewrite Ea, Ed.
    + rewrite !elem_of_cons, elem_of_nil. lia.
    + let e := eval vm_compute in (extensions "") in change (extensions "") with e.
      rewrite !elem_of_cons, elem_of_nil. lia.
Qed.

Lemma scan_loop_lexes fuel st st' :
  (length (rest st) ≤ fuel)%nat → scan_loop src fuel st = Ok st' →
  isAtEnd src st' = true ∧ ∃ toks, m_tokens st' = m_tokens st ++ toks ∧
    lexes (m_line st, m_col st) (rest st)
      (toks ++ [token END_OF_FILE "" (m_line st') (m_col st')]).
Proof.
  revert st. induction fuel as [|fuel IH]; intros st Hfuel H; cbn [scan_loop] in H.
  - inv_result. assert (rest st' = []) as E by (destruct (rest st'); [done | cbn in Hfuel; lia]).
    split; [by apply isAtEnd_rest|]. exists []. rewrite app_nil_r, E. split; [done|].
    apply (lexes_end (_, _)).
  - destruct (isAtEnd src st) eqn:He.
    { inv_result. split; [done|]. exists []. apply isAtEnd_rest in He. rewrite He, app_nil_r.
      split; [done|]. apply (lexes_end (_, _)). }
    apply result_bind_ok in H as (st1 & Hs & H).
    apply scanToken_scans in Hs as (l & ts & Hl & Hr & Hp & Ht & Hlex); [| done | done].
    change (rest (begin_lexeme st)) with (rest st) in Hr. cbn in Hp, Ht.
    apply IH in H as [Hend (toks & Htoks & Hlexes)].
    2: { rewrite Hr, length_app in Hfuel. destruct l; [done | cbn in Hfuel; lia]. }
    split; [done|]. eexists. split; [rewrite Htoks, Ht, <- (assoc_L (++)); done|].
    rewrite Hr, <- (assoc_L (++)). rewrite Hp in Hlexes.
    by apply (lexes_piece (m_line st, m_col st)).
Qed.

(** ** Failures *)

(** A computation fails, if at all, with a compile error. *)
Definition compiles {A} (r : result A) : Prop :=
  match r with Ok _ | Err (CompileError _ _ _) => True | Err _ => False end.

Lemma compiles_bind {A B} (m : result A) (f : A → result B) :
  compiles m → (∀ a, m = Ok a → compiles (f a)) → compiles (m ≫= f).
Proof. destruct m as [a|[]]; cbn; eauto. Qed.

Lemma compiles_throw b m st : compiles (throw_if b (lex_error m st)).
Proof. by destruct b. Qed.

Lemma compiles_hex v st : compiles (hex_digit src v st).
Proof. apply compiles_bind; [apply compiles_throw | done]. Qed.

Lemma compiles_escape st : compiles (escape src st).
Proof.
  unfold escape. repeat match goal with |- compiles (if ?b then _ else _) => destruct b end; try done.
  apply compiles_bind; [apply compiles_hex|]. intros [] _.
  apply compiles_bind; [apply compiles_hex|]. by intros [] _.
Qed.

Lemma compiles_decode fuel q dec st : compiles (decode src fuel q dec st).
Proof.
  revert dec st. induction fuel as [|fuel IH]; intros dec st; cbn [decode]; [done|].
  assert (∀ x st, compiles (throw_if (65534 <=? zlen dec)
    (lex_error "Quoted literal exceeds 65534 bytes." st);; decode src fuel q (dec ++ [x]) st)) as Hs.
  { intros. apply compiles_bind; [apply compiles_throw | intros; apply IH]. }
  destruct (_ || _); [done|]. apply compiles_bind; [apply compiles_throw|]. intros _ _.
  destruct (current src st =? 92).
  - destruct (isAtEnd src _); [done|]. apply compiles_bind; [apply compiles_escape|].
    intros [] _. apply Hs.
  - apply compiles_bind; [apply compiles_throw | intros; apply Hs].
Qed.

Lemma compiles_quoted q st : compiles (quotedLiteral src q st).
Proof.
  apply compiles_bind; [apply compiles_decode|]. intros [dec st1] _.
  apply compiles_bind; [apply compiles_throw|]. intros _ _.
  destruct (q =? 39); [|done]. by apply compiles_bind; [apply compiles_throw|].
Qed.

(** Only quotes and block comments can fail. *)
Lemma scanToken_fails st e :
  isAtEnd src st = false → scanToken src st = Err e →
  compiles (A := unit) (Err e) ∧
  (34 ∈ rest st ∨ 39 ∈ rest st ∨ (∃ l, rest st = 47 :: 42 :: l)).
Proof.
  intros He H. rewrite (rest_cons _ He). unfold scanToken in H.
  repeat match type of H with
  | Ok _ = Err _ => discriminate H
  | (if current src st =? ?k then _ else _) = _ => destruct (Z.eqb_spec (current src st) k) as [->|]
  | (if ?b then _ else _) = _ => destruct b
  | add_choice src ?c ?s = _ => unfold add_choice in H; by destruct (c s)
  end.
  1,2: split; [|set_solver].
  1: pose proof (compiles_quoted 34 (advance src st)) as Hc; by rewrite H in Hc.
  1: pose proof (compiles_quoted 39 (advance src st)) as Hc; by rewrite H in Hc.
  unfold slash in H. set (st1 := advance src st) in *.
  destruct (match_ src 47 st1) as [[] st2] eqn:E1; [done|]. apply run_match in E1 as [-> _].
  destruct (match_ src 42 st1) as [[] st2] eqn:E2.
  - apply run_match in E2. cbv zeta in H.
    destruct (isAtEnd src (advance_while src (in_comment src) st2)); [|done].
    injection H as <-. split; [done|]. do 2 right. exists (rest st2).
    by rewrite (run_rest _ _ _ E2).
  - unfold add_choice in H. by destruct (or_match _ _ _ _ _).
Qed.

Lemma scan_loop_fails fuel st e :
  scan_loop src fuel st = Err e →
  compiles (A := unit) (Err e) ∧
  (34 ∈ rest st ∨ 39 ∈ rest st ∨ (∃ k l, rest st = k ++ 47 :: 42 :: l)).
Proof.
  revert st. induction fuel as [|fuel IH]; intros st H; cbn [scan_loop] in H; [done|].
  destruct (isAtEnd src st) eqn:He; [done|].
  destruct (scanToken src (begin_lexeme st)) as [st1|e'] eqn:Hs; cbn in H.
  - apply scanToken_scans in Hs as (l & ts & Hl & Hr & _); [| done | done].
    change (rest (begin_lexeme st)) with (rest st) in Hr.
    apply IH in H as [Hc Hcase]. split; [done|]. rewrite Hr, !elem_of_app.
    destruct Hcase as [|[|(k & l' & ->)]]; [by auto..|].
    do 2 right. exists (l ++ k), l'. by rewrite (assoc_L (++)).
  - injection H as ->. apply scanToken_fails in Hs as [Hc Hcase]; [|done].
    change (rest (begin_lexeme st)) with (rest st) in Hcase.
    split; [done|]. destruct Hcase as [|[|(l' & Hr)]]; [by auto..|].
    do 2 right. by exists [], l'.
Qed.

End lexer_lemmas.

(* ------------------------------------------------------------------ *)
(** ** Properties *)

(** C34. Scanning is lossless and positioned: when [scanTokens] succeeds, the
    source is a sequence of non-empty pieces, each either white space or a
    comment or the text of the one token it gives (longest spelling of an
    operator, whole word, whole number, the decoded bytes up to the first unescaped quote),
    every token carries the line and column where its piece begins, the
    tokens come in order, and the list ends with the end-of-file token at
    the final position. *)
Theorem scanTokens_lexes (source : string) (toks : list Token) :
  scanTokens source = Ok toks → lexes (1, 1) (bytes_of_string source) toks.
Proof.
  unfold scanTokens, scan. intros H. apply result_bind_ok in H as (st & H & [= <-]).
  apply scan_loop_lexes in H as [_ (toks & Ht & Hl)]; [|by cbn].
  rewrite Ht. exact Hl.
Qed.

Lemma scanTokens_lexes_witness :
  lexes (1, 1) (bytes_of_string "x<<=0x1F;") 
    [token IDENTIFIER "x" 1 1; token SHIFT_LEFT_EQUAL "<<=" 1 2;
     token LITERAL_INTEGER "0x1F" 1 5; token SEMICOLON ";" 1 9; token END_OF_FILE "" 1 10].
Proof. apply scanTokens_lexes. vm_compute. reflexivity. Defined.

(** C35. The scanner's only failures are positioned compile errors, and they
    come only from quoted literals and block comments: a source with no quote
    and no comment opening is always scanned to the end. *)
Theorem scanTokens_fails (source : string) (e : error) :
  scanTokens source = Err e →
  (∃ m line col, e = CompileError m line col) ∧
  (34 ∈ bytes_of_string source ∨ 39 ∈ bytes_of_string source ∨
   ∃ k l, bytes_of_string source = k ++ 47 :: 42 :: l).
Proof.
  unfold scanTokens, scan. intros H.
  destruct (scan_loop _ _ _) as [st|e'] eqn:E; cbn in H; [done|]. injection H as ->.
  apply scan_loop_fails in E as [Hc Hcase]. split; [|done]. destruct e; naive_solver.
Qed.

Lemma scanTokens_fails_witness :
  scanTokens "a /* b" = Err (CompileError "Unterminated multi-line comment." 1 0) ∧
  (34 ∈ bytes_of_string "a /* b" ∨ 39 ∈ bytes_of_string "a /* b" ∨
   ∃ k l, bytes_of_string "a /* b" = k ++ 47 :: 42 :: l).
Proof.
  split; [vm_compute; reflexivity|].
  apply (scanTokens_fails "a /* b" (CompileError "Unterminated multi-line comment." 1 0)).
  vm_compute. reflexivity.
Defined.
