(* ===== verification/Literal.v ===== *)
(** * Literal: integer literals

    Models [IntegerLiteral.hpp] ([DiscoNumeric::parse]) over a model of
    [std::stoll], which is part of the language's library: leading white space,
    an optional sign, the base prefix that base 0 and 16 recognise, the longest
    run of digits, [std::invalid_argument] when there is none and
    [std::out_of_range] when the value does not fit 64 bits.  The text is a
    list of bytes, and the result carries the number of bytes consumed. *)

From S2P Require Import Prelude Token Lexer.

(** [isspace] in the C locale. *)
Definition isSpace (c : Z) : bool := (c =? 32) || ((9 <=? c) && (c <=? 13)).

(** The value of an alphanumeric digit. *)
Definition digit_of (c : Z) : option Z :=
  if (48 <=? c) && (c <=? 57) then Some (c - 48)
  else if (97 <=? c) && (c <=? 122) then Some (c - 87)
  else if (65 <=? c) && (c <=? 90) then Some (c - 55)
  else None.
Definition digit_in (base : Z) (c : Z) : option Z :=
  d ← digit_of c; if d <? base then Some d else None.

(** The longest run of digits: the value so far and the digits read. *)
Fixpoint read_digits (base acc : Z) (n : nat) (l : list Z) : Z * nat :=
  match l with
  | c :: l =>
      match digit_in base c with
      | Some d => read_digits base (acc * base + d) (S n) l
      | None => (acc, n)
      end
  | [] => (acc, n)
  end.

Definition int64_ok (v : Z) : bool := (- 2 ^ 63 <=? v) && (v <? 2 ^ 63).

Fixpoint skip_space (l : list Z) : nat * list Z :=
  match l with
  | c :: l' => if isSpace c then let (n, r) := skip_space l' in (S n, r) else (O, l)
  | [] => (O, [])
  end.

(** The optional sign: whether it is a minus, its length, the rest. *)
Definition read_sign (l : list Z) : bool * nat * list Z :=
  match l with
  | 45 :: l => (true, 1%nat, l)
  | 43 :: l => (false, 1%nat, l)
  | _ => (false, 0%nat, l)
  end.

(** The base prefix: [0x] counts only before a hexadecimal digit; base 0 is 8
    after a zero and 10 otherwise. *)
Definition read_prefix (base : Z) (l : list Z) : Z * nat * list Z :=
  let hex :=
    match l with
    | 48 :: x :: d :: _ =>
        ((base =? 0) || (base =? 16)) && ((x =? 120) || (x =? 88)) &&
        bool_decide (is_Some (digit_in 16 d))
    | _ => false
    end in
  if hex then (16, 2%nat, drop 2 l)
  else if base =? 0 then ((match l with 48 :: _ => 8 | _ => 10 end), O, l)
  else (base, O, l).

(** [std::stoll(text, &consumed, base)] *)
Definition stoll (l : list Z) (base : Z) : result (Z * nat) :=
  let '(spaces, l1) := skip_space l in
  let '(minus, sign, l2) := read_sign l1 in
  let '(b, prefix, l3) := read_prefix base l2 in
  let '(magnitude, n) := read_digits b 0 0 l3 in
  if Nat.eqb n 0 then Err InvalidArgument
  else
    let v := if minus then - magnitude else magnitude in
    if int64_ok v then Ok (v, (spaces + sign + prefix + n)%nat) else Err OutOfRange.

(** [DiscoNumeric::parse(text, &consumed, base)]: the binary prefix, then
    [stoll]. *)
Definition parse (l : list Z) (base : Z) : result (Z * nat) :=
  let sign := match l with c :: _ => if (c =? 45) || (c =? 43) then 1%nat else O | [] => O end in
  let binary :=
    (base =? 0) && Nat.leb (sign + 2) (length l) &&
    (default 0 (l !! sign) =? 48) &&
    ((default 0 (l !! S sign) =? 98) || (default 0 (l !! S sign) =? 66)) in
  if binary then
    '(value, count) ← stoll (take sign l ++ drop (sign + 2) l) 2;
    Ok (value, (count + 2)%nat)
  else stoll l base.

(** The text of a token, as its callers pass it. *)
Definition parse_text (s : string) : result (Z * nat) := parse (bytes_of_string s) 0.

(* ------------------------------------------------------------------ *)
(** ** The reference: positional value *)

(** The value of a string of digits in a base, most significant first. *)
Fixpoint positional (base : Z) (ds : list Z) : Z :=
  match ds with
  | [] => 0
  | d :: ds => d * base ^ zlen ds + positional base ds
  end.

(** The value of the text of an integer token: its base comes from its prefix. *)
Definition literal_digits (l : list Z) : Z * list Z :=
  match l with
  | 48 :: x :: ds =>
      if (x =? 120) || (x =? 88) then (16, ds)
      else if (x =? 98) || (x =? 66) then (2, ds)
      else (8, l)
  | 48 :: _ => (8, l)
  | _ => (10, l)
  end.
Definition literal_value (l : list Z) : Z :=
  let (base, ds) := literal_digits l in
  positional base ((λ c, default 0 (digit_of c)) <$> ds).

Lemma read_digits_all base l :
  1 < base → Forall (λ c, is_Some (digit_in base c)) l → ∀ acc n rest,
  stops (λ c, bool_decide (is_Some (digit_in base c))) rest →
  read_digits base acc n (l ++ rest) =
    (acc * base ^ zlen l + positional base ((λ c, default 0 (digit_of c)) <$> l),
     (n + length l)%nat).
Proof.
  intros Hb. induction 1 as [|c l [d Hd] _ IH]; intros acc n rest Hstop; cbn [app read_digits].
  - assert (read_digits base acc n rest = (acc, n)) as ->.
    { destruct rest as [|c rest]; [done|]. cbn in Hstop |- *. apply bool_decide_eq_false in Hstop.
      destruct (digit_in base c); [exfalso; eauto | done]. }
    cbn [fmap list_fmap positional length]. rewrite zlen_nil, Z.pow_0_r. f_equal; lia.
  - rewrite Hd, IH by done. unfold digit_in in Hd. destruct (digit_of c) as [d'|] eqn:Ec; [|done].
    cbn in Hd. destruct (d' <? base); [|done]. injection Hd as ->. cbn [fmap list_fmap].
    rewrite Ec. cbn [positional default length].
    assert (zlen ((λ c, default 0 (digit_of c)) <$> l) = zlen l) as ->
      by (unfold zlen; by rewrite length_fmap).
    rewrite zlen_cons, Z.pow_add_r, Z.pow_1_r by (unfold zlen; lia). f_equal; [cbn; ring | lia].
Qed.

Lemma positional_nonneg base ds : 0 ≤ base → Forall (λ d, 0 ≤ d) ds → 0 ≤ positional base ds.
Proof.
  intros Hb. induction 1 as [|d ds Hd _ IH]; cbn [positional]; [done|].
  pose proof (Z.pow_nonneg base (zlen ds)). nia.
Qed.

Lemma digit_of_nonneg c : 0 ≤ default 0 (digit_of c).
Proof. unfold digit_of. case_tests; cbn; lia. Qed.

Lemma literal_value_nonneg l : 0 ≤ literal_value l.
Proof.
  unfold literal_value. destruct (literal_digits l) as [base ds] eqn:E.
  apply positional_nonneg.
  - unfold literal_digits in E.
    repeat match type of E with context [match ?x with _ => _ end] => destruct x end;
      injection E as <- <-; lia.
  - apply Forall_fmap, Forall_true. intros c. apply digit_of_nonneg.
Qed.

(** The digit classes of the scanner are digits of the base they belong to. *)
Lemma hex_digit_in c : isHexDigit c → is_Some (digit_in 16 c).
Proof.
  unfold isHexDigit, isDigit, digit_in, digit_of. intros H%Is_true_true.
  case_tests; cbn; case_tests; try done; lia.
Qed.
Lemma dec_digit_in c : isDigit c → is_Some (digit_in 10 c).
Proof.
  unfold isDigit, digit_in, digit_of. intros H%Is_true_true.
  case_tests; cbn; case_tests; try done; lia.
Qed.
Lemma oct_digit_in c : 48 ≤ c ≤ 55 → is_Some (digit_in 8 c).
Proof. unfold digit_in, digit_of. intros H. case_tests; cbn; case_tests; try done; lia. Qed.
Lemma bin_digit_in c : c = 48 ∨ c = 49 → is_Some (digit_in 2 c).
Proof. by intros [-> | ->]. Qed.

(** [stoll] on a run of digits that [read_prefix] leaves to a base. *)
Lemma stoll_digits l base b prefix ds :
  skip_space l = (O, l) → read_sign l = (false, O, l) → read_prefix base l = (b, prefix, ds) →
  1 < b → ds ≠ [] → Forall (λ c, is_Some (digit_in b c)) ds →
  let v := positional b ((λ c, default 0 (digit_of c)) <$> ds) in
  stoll l base = if int64_ok v then Ok (v, (prefix + length ds)%nat) else Err OutOfRange.
Proof.
  intros Hs Hg Hp Hb Hne Hds v. unfold stoll. rewrite Hs, Hg, Hp.
  pose proof (read_digits_all b ds Hb Hds 0 0 [] I) as E. rewrite app_nil_r in E. rewrite E.
  cbn [Nat.add]. destruct ds as [|d ds]; [done|]. cbn [length Nat.eqb].
  rewrite Z.mul_0_l, Z.add_0_l. fold v. destruct (int64_ok v); [|done]. done.
Qed.

(** A digit is neither space nor sign. *)
Lemma digit_start c l :
  48 ≤ c ≤ 57 → skip_space (c :: l) = (O, c :: l) ∧ read_sign (c :: l) = (false, O, c :: l).
Proof.
  intros Hc. unfold skip_space, isSpace, read_sign.
  destruct (Z.eqb_spec c 32), (Z.leb_spec 9 c), (Z.leb_spec c 13); cbn; try lia.
  split; [done|]. assert (c ∈ [48; 49; 50; 51; 52; 53; 54; 55; 56; 57]) as Hin
    by (rewrite !elem_of_cons; lia).
  rewrite !elem_of_cons, elem_of_nil in Hin. by repeat destruct Hin as [-> | Hin].
Qed.

Lemma Forall_digit_in (p : Z → Prop) b l :
  (∀ c, p c → is_Some (digit_in b c)) → Forall p l → Forall (λ c, is_Some (digit_in b c)) l.
Proof. intros H Hl. by eapply Forall_impl. Qed.

(** Every integer the scanner delimits is read whole: [DiscoNumeric::parse]
    consumes the full text of an integer token and returns the positional
    value of its digits in the base its prefix names, or reports
    [std::out_of_range] when that value does not fit 64 bits. *)
Theorem parse_integer_token (l rest : list Z) :
  integer_text l rest → (literal_digits l).2 ≠ [] →
  parse l 0 =
    if int64_ok (literal_value l) then Ok (literal_value l, length l) else Err OutOfRange.
Proof.
  intros Hl Hne. destruct Hl as [x l rest Hx Hall _ | b l rest Hb Hall _ | l rest Hall _ Hnext
    | c l rest Hc Hd Hall _].
  - assert (literal_digits (48 :: x :: l) = (16, l)) as E by (by destruct Hx as [-> | ->]).
    unfold literal_value. rewrite E in Hne |- *. cbn in Hne.
    assert (parse (48 :: x :: l) 0 = stoll (48 :: x :: l) 0) as -> by (by destruct Hx as [-> | ->]).
    destruct (digit_start 48 (x :: l) ltac:(lia)) as [Hs Hg].
    assert (Forall (λ c, is_Some (digit_in 16 c)) l) as Hds
      by (eapply Forall_digit_in; [apply hex_digit_in | done]).
    apply (stoll_digits _ 0 16 2 l Hs Hg); [|lia | done..].
    destruct l as [|d l]; [done|]. apply Forall_cons in Hds as [Hd _].
    destruct Hx as [-> | ->]; unfold read_prefix; cbv iota; by rewrite bool_decide_true.
  - assert (literal_digits (48 :: b :: l) = (2, l)) as E by (by destruct Hb as [-> | ->]).
    unfold literal_value. rewrite E in Hne |- *. cbn in Hne.
    assert (parse (48 :: b :: l) 0 = ('(value, count) ← stoll l 2; Ok (value, (count + 2)%nat))) as ->.
    { unfold parse. destruct Hb as [-> | ->]; cbn; by rewrite drop_0. }
    destruct l as [|d l]; [done|]. pose proof (Forall_inv Hall) as Hd. cbn in Hd.
    destruct (digit_start d l ltac:(lia)) as [Hs Hg].
    rewrite (stoll_digits _ 2 2 0 (d :: l) Hs Hg); [| | lia | done |].
    2: { destruct Hd as [-> | ->]; [by destruct l as [|? [|? ?]] | done]. }
    2: { eapply Forall_digit_in; [apply bin_digit_in | done]. }
    destruct (int64_ok _); cbn; [|done]. do 2 f_equal. lia.
  - assert (literal_digits (48 :: l) = (8, 48 :: l)) as E.
    { destruct l as [|d l]; [done|]. apply Forall_inv in Hall; cbn in Hall.
      unfold literal_digits. case_tests; try lia; done. }
    unfold literal_value. rewrite E in Hne |- *.
    assert (parse (48 :: l) 0 = stoll (48 :: l) 0) as ->.
    { unfold parse. destruct l as [|d l]; [done|]. apply Forall_inv in Hall; cbn in Hall |- *.
      case_tests; try lia; done. }
    destruct (digit_start 48 l ltac:(lia)) as [Hs Hg].
    apply (stoll_digits _ 0 8 0 (48 :: l) Hs Hg); [|lia | done|].
    + destruct l as [|d [|e l]]; [done..|]. apply Forall_inv in Hall; cbn in Hall.
      unfold read_prefix. cbv iota. replace ((d =? 120) || (d =? 88)) with false by lia.
      by rewrite andb_false_r.
    + constructor; [by eexists|]. eapply Forall_digit_in; [apply oct_digit_in | done].
  - assert (49 ≤ c ≤ 57) as Hr by (unfold isDigit in Hd; apply Is_true_true in Hd; lia).
    assert (literal_digits (c :: l) = (10, c :: l) ∧ read_prefix 0 (c :: l) = (10, O, c :: l) ∧
      parse (c :: l) 0 = stoll (c :: l) 0) as (E & Hp & ->).
    { assert (c ∈ [49; 50; 51; 52; 53; 54; 55; 56; 57]) as Hin by (rewrite !elem_of_cons; lia).
      rewrite !elem_of_cons, elem_of_nil in Hin.
      repeat destruct Hin as [-> | Hin]; try done; unfold parse; cbn; by destruct l. }
    unfold literal_value. rewrite E in Hne |- *.
    destruct (digit_start c l ltac:(lia)) as [Hs Hg].
    apply (stoll_digits _ 0 10 0 (c :: l) Hs Hg Hp); [lia | done|].
    constructor; [by apply dec_digit_in|]. eapply Forall_digit_in; [apply dec_digit_in | done].
Qed.

Lemma parse_integer_token_witness :
  literal_value (bytes_of_string "0x1F") = 31 ∧
  parse (bytes_of_string "0x1F") 0 = Ok (31, 4%nat).
Proof.
  split; [reflexivity|].
  rewrite (parse_integer_token (bytes_of_string "0x1F") []); [reflexivity | | done].
  apply (integer_hex 120 (bytes_of_string "1F") []); [by left | | done].
  repeat constructor.
Defined.
