(* ===== verification/Ast.v ===== *)
(** * Ast: the syntax tree of the parser

    Models the nodes of [AST.hpp] as the parser builds them: one constructor per
    class, with the members its constructor or the parser sets.  Members that
    only the analyzer fills in (result types, symbol identities, offsets, folded
    constants) are left out.  A node with children is made by [node], which is
    [includeChild]: it refuses trees deeper than [MaxDepth]. *)

From S2P Require Import Prelude Target Types Token.

(** [Token(TokenType::UNKNOWN, "", 0, 0)], the initial token of a node. *)
Definition unset_token : Token := token UNKNOWN "" 0 0.

Inductive Expr :=
  | LiteralExpr (tok : Token)
  | VariableExpr (tok : Token)
  | PlotCoordinateExpr (tok : Token) (is_y : bool)
  | ReadPixelExpr (tok : Token) (x y : option Expr)
  | LayoutQueryExpr (tok : Token) (queried_type : CType) (queried_expression : option Expr) (member : Token)
  | NullExpr (tok : Token)
  | InitializerListExpr (tok : Token) (elements : list Expr)
  | StringExpr (tok : Token)
  | UpdateExpr (tok : Token) (target value : Expr) (postfix : bool)
  | BinaryExpr (left : Expr) (tok : Token) (right : Expr)
  | AssignExpr (name value : Expr)
  | UnaryExpr (tok : Token) (right : Expr)
  | AddressOfExpr (tok : Token) (right : Expr)
  | DereferenceExpr (tok : Token) (right : Expr)
  | SubscriptExpr (array : Expr) (tok : Token) (index : Expr)
  | MemberAccessExpr (object : Expr) (tok : Token) (through_pointer : bool)
  | CallExpr (callee : Expr) (paren : Token) (arguments : list Expr)
  | CastExpr (tok : Token) (cast_to_type : CType) (expression : Expr).

(** [Expr::token]; an assignment takes that of its destination. *)
Fixpoint expr_token (e : Expr) : Token :=
  match e with
  | LiteralExpr t | VariableExpr t | PlotCoordinateExpr t _ | ReadPixelExpr t _ _
  | LayoutQueryExpr t _ _ _ | NullExpr t | InitializerListExpr t _ | StringExpr t
  | UpdateExpr t _ _ _ | BinaryExpr _ t _ | UnaryExpr t _ | AddressOfExpr t _
  | DereferenceExpr t _ | SubscriptExpr _ t _ | MemberAccessExpr _ t _ | CallExpr _ t _
  | CastExpr t _ _ => t
  | AssignExpr name _ => expr_token name
  end.

Definition MaxDepth : Z := 256.

(** [Expr::depth], as [includeChild] computes it. *)
Fixpoint depth (e : Expr) : Z :=
  let sub e := depth e + 1 in
  let over l := foldr (λ e d, Z.max (sub e) d) 1 l in
  let maybe o := match o with Some e => sub e | None => 1 end in
  match e with
  | LiteralExpr _ | VariableExpr _ | PlotCoordinateExpr _ _ | NullExpr _ | StringExpr _ => 1
  | ReadPixelExpr _ x y => Z.max (maybe x) (maybe y)
  | LayoutQueryExpr _ _ q _ => maybe q
  | InitializerListExpr _ l => over l
  | CallExpr c _ l => Z.max (sub c) (over l)
  | UpdateExpr _ l r _ | BinaryExpr l _ r | AssignExpr l r | SubscriptExpr l _ r => Z.max (sub l) (sub r)
  | UnaryExpr _ r | AddressOfExpr _ r | DereferenceExpr _ r | MemberAccessExpr r _ _ | CastExpr _ _ r => sub r
  end.

(** The constructor of a node with children. *)
Definition node (e : Expr) : result Expr :=
  throw_if (MaxDepth <? depth e) (error_at "Expression depth exceeds the supported limit of 256." (expr_token e));;
  Ok e.

(** ** Statements and declarations *)

Record Attribute := mkAttribute { a_name : Token; a_arguments : list Expr }.
(** [struct Parameter] (a keyword here). *)
Record Param := mkParam { p_type : CType; p_name : Token }.
Record Member := mkMember { mb_type : CType; mb_name : Token; mb_extent : option Expr }.
Record EnumEntry := mkEntry { en_name : Token; en_value : option Expr }.

(** The members of [Stmt] the parser sets. *)
Record StmtInfo := mkInfo { s_token : Token; s_attributes : list Attribute; s_linkage : Linkage }.
Definition at_token (t : Token) : StmtInfo := mkInfo t [] External.

Record VarDecl := mkVar {
  v_type : CType;
  v_initializer : option Expr;
  v_extent : option Expr;
  v_global : bool;
  v_extern : bool;
  v_inferred_extent : bool;
  v_constexpr : bool
}.

Inductive Stmt :=
  | TypeAliasDeclStmt (i : StmtInfo) (resolved_type : CType)
  | StructDefStmt (i : StmtInfo) (members : list Member)
  | EnumDeclStmt (i : StmtInfo) (underlying_type : CType) (entries : list EnumEntry)
  | StaticAssertStmt (i : StmtInfo) (condition : Expr)
  | BitmapDeclStmt (i : StmtInfo) (config : Bitmap.BitmapConfig)
  | UseBitmapStmt (i : StmtInfo)
  | BlockStmt (i : StmtInfo) (statements : list Stmt)
  | IfStmt (i : StmtInfo) (condition : Expr) (thenBranch : Stmt) (elseBranch : option Stmt)
  | WhileStmt (i : StmtInfo) (is_cached : bool) (condition : Expr) (body : Stmt)
  | ForStmt (i : StmtInfo) (is_cached : bool) (initializer : option Stmt) (condition : Expr)
      (increment : option Expr) (body : Stmt)
  | ContinueStmt (i : StmtInfo)
  | FallthroughStmt (i : StmtInfo)
  | BreakStmt (i : StmtInfo)
  | ReturnStmt (i : StmtInfo) (value : option Expr)
  | VarDeclStmt (i : StmtInfo) (d : VarDecl)
  | FunctionDeclStmt (i : StmtInfo) (is_cached is_prototype : bool) (returnType : CType)
      (params : list Param) (body : list Stmt)
  | ExpressionStmt (i : StmtInfo) (expression : Expr)
  | PlotStmt (i : StmtInfo)
  | PlotBlockStmt (i : StmtInfo) (body : Stmt)
  | SetColorStmt (i : StmtInfo) (color_value : Expr)
  | CmodeStmt (i : StmtInfo) (options_value : Expr)
  | RpixStmt (i : StmtInfo)
  | ConstDataStmt (i : StmtInfo) (type : CType) (is_array : bool) (array_extent : option Expr)
      (initializers : list Expr)
  | CaseStmt (i : StmtInfo) (value : Expr)
  | DefaultStmt (i : StmtInfo)
  | SwitchStmt (i : StmtInfo) (condition : Expr) (body : Stmt).

Definition stmt_info (s : Stmt) : StmtInfo :=
  match s with
  | TypeAliasDeclStmt i _ | StructDefStmt i _ | EnumDeclStmt i _ _ | StaticAssertStmt i _
  | BitmapDeclStmt i _ | UseBitmapStmt i | BlockStmt i _ | IfStmt i _ _ _ | WhileStmt i _ _ _
  | ForStmt i _ _ _ _ _ | ContinueStmt i | FallthroughStmt i | BreakStmt i | ReturnStmt i _
  | VarDeclStmt i _ | FunctionDeclStmt i _ _ _ _ _ | ExpressionStmt i _ | PlotStmt i
  | PlotBlockStmt i _ | SetColorStmt i _ | CmodeStmt i _ | RpixStmt i | ConstDataStmt i _ _ _ _
  | CaseStmt i _ | DefaultStmt i | SwitchStmt i _ _ => i
  end.
Definition stmt_token (s : Stmt) : Token := s_token (stmt_info s).

(** [statement->... = ...] on the members of [Stmt]. *)
Definition set_info (i : StmtInfo) (s : Stmt) : Stmt :=
  match s with
  | TypeAliasDeclStmt _ t => TypeAliasDeclStmt i t
  | StructDefStmt _ m => StructDefStmt i m
  | EnumDeclStmt _ u l => EnumDeclStmt i u l
  | StaticAssertStmt _ c => StaticAssertStmt i c
  | BitmapDeclStmt _ c => BitmapDeclStmt i c
  | UseBitmapStmt _ => UseBitmapStmt i
  | BlockStmt _ l => BlockStmt i l
  | IfStmt _ c t e => IfStmt i c t e
  | WhileStmt _ k c b => WhileStmt i k c b
  | ForStmt _ k n c s b => ForStmt i k n c s b
  | ContinueStmt _ => ContinueStmt i
  | FallthroughStmt _ => FallthroughStmt i
  | BreakStmt _ => BreakStmt i
  | ReturnStmt _ v => ReturnStmt i v
  | VarDeclStmt _ d => VarDeclStmt i d
  | FunctionDeclStmt _ k p r ps b => FunctionDeclStmt i k p r ps b
  | ExpressionStmt _ e => ExpressionStmt i e
  | PlotStmt _ => PlotStmt i
  | PlotBlockStmt _ b => PlotBlockStmt i b
  | SetColorStmt _ c => SetColorStmt i c
  | CmodeStmt _ o => CmodeStmt i o
  | RpixStmt _ => RpixStmt i
  | ConstDataStmt _ t a e l => ConstDataStmt i t a e l
  | CaseStmt _ v => CaseStmt i v
  | DefaultStmt _ => DefaultStmt i
  | SwitchStmt _ c b => SwitchStmt i c b
  end.

(** The constructors that take their token from a child. *)
Definition block_stmt (l : list Stmt) : Stmt :=
  BlockStmt (at_token (match l with s :: _ => stmt_token s | [] => unset_token end)) l.
Definition expression_stmt (e : Expr) : Stmt := ExpressionStmt (at_token (expr_token e)) e.
Definition return_stmt (v : option Expr) : Stmt :=
  ReturnStmt (at_token (match v with Some e => expr_token e | None => unset_token end)) v.

(** [is_cached = true] on a loop. *)
Definition cache_loop (s : Stmt) : Stmt :=
  match s with
  | WhileStmt i _ c b => WhileStmt i true c b
  | ForStmt i _ n c st b => ForStmt i true n c st b
  | _ => s
  end.
