(* ===== verification/Parser.v ===== *)
(** * Parser: recursive descent over the tokens

    Models [Parser.cpp] and [TypeAliases.hpp], [Attributes.hpp].  [Parser] holds
    the members of the class; [Parse] is a function on it that can throw.  The
    tokens are a parameter of every function.

    [assignment] and [unary], where expressions recurse, and [statement] hold a
    [ParseDepthGuard], so their recursion is at most 128 deep: [depth_fuel] is
    one more.  A loop makes at most one round per token ([rounds]).  Running out
    of either is [out_of_fuel], which is no error of the code; [ParseSafe] proves
    that it does not occur. *)

From S2P Require Import Prelude Target Types Token Literal Ast.

(* ------------------------------------------------------------------ *)
(** ** State *)

Record TypeAliasBinding := mkBinding { alias_type : CType; alias_declaration : Token }.
Definition MaxTypeAliases : Z := 4096.
Definition MaxArrayElements : Z := 1000000.

(** [u8], [i8], [u16], [i16]. *)
Definition builtin_type (name : string) : CType :=
  let byte := slen name =? 2 in
  mkType (if byte then BaseByte else BaseWord) "" (if byte then 1 else 2) (starts_with "u" name)
    0 false 0 SpaceRam [] [] false false [] 0 0 "".
Definition builtinTypeAliases : gmap string TypeAliasBinding :=
  list_to_map ((λ name, (name, mkBinding (builtin_type name) (token IDENTIFIER name 0 0)))
                 <$> ["u8"; "i8"; "u16"; "i16"]%string).

Record Parser := mkParser {
  m_current : nat;
  m_expression_depth : Z;
  m_statement_depth : Z;
  m_config : CompilerConfig;
  m_imports : list Token;
  m_module_name : string;
  m_preamble_parsed : bool;
  m_type_aliases : gmap string TypeAliasBinding
}.

(** [Parser::Parser]; the configuration is set through [getConfigForUpdate]. *)
Definition start (config : CompilerConfig) : Parser := mkParser 0 0 0 config [] "" false builtinTypeAliases.

Definition at_position (n : nat) (s : Parser) : Parser :=
  mkParser n (m_expression_depth s) (m_statement_depth s) (m_config s) (m_imports s) (m_module_name s)
    (m_preamble_parsed s) (m_type_aliases s).
Definition with_expression_depth (d : Z) (s : Parser) : Parser :=
  mkParser (m_current s) d (m_statement_depth s) (m_config s) (m_imports s) (m_module_name s)
    (m_preamble_parsed s) (m_type_aliases s).
Definition with_statement_depth (d : Z) (s : Parser) : Parser :=
  mkParser (m_current s) (m_expression_depth s) d (m_config s) (m_imports s) (m_module_name s)
    (m_preamble_parsed s) (m_type_aliases s).
Definition with_preamble (imports : list Token) (name : string) (s : Parser) : Parser :=
  mkParser (m_current s) (m_expression_depth s) (m_statement_depth s) (m_config s) imports name
    true (m_type_aliases s).
Definition with_aliases (a : gmap string TypeAliasBinding) (s : Parser) : Parser :=
  mkParser (m_current s) (m_expression_depth s) (m_statement_depth s) (m_config s) (m_imports s) (m_module_name s)
    (m_preamble_parsed s) a.

(** ** The monad *)

Definition Parse (A : Type) := Parser → result (A * Parser).
#[global] Instance Parse_ret : MRet Parse := λ A x s, Ok (x, s).
#[global] Instance Parse_bind : MBind Parse := λ A B f p s, '(x, s') ← p s; f x s'.
#[global] Instance Parse_fmap : FMap Parse := λ A B f p s, '(x, s') ← p s; Ok (f x, s').

Definition fail {A} (e : error) : Parse A := λ s, Err e.
Definition lift {A} (r : result A) : Parse A := λ s, x ← r; Ok (x, s).
Definition gets {A} (f : Parser → A) : Parse A := λ s, Ok (f s, s).
Definition modify (f : Parser → Parser) : Parse unit := λ s, Ok (tt, f s).
Definition guard_ (b : bool) (e : error) : Parse unit := lift (throw_if b e).

Definition out_of_fuel : error := LogicError "out of fuel".
Definition depth_fuel : nat := 129.

(** A loop whose body returns [inr] to leave it. *)
Fixpoint loop {A B} (fuel : nat) (body : A → Parse (A + B)) (a : A) : Parse B :=
  match fuel with
  | O => fail out_of_fuel
  | S fuel => r ← body a; match r with inl a => loop fuel body a | inr b => mret b end
  end.

(** [ParseDepthGuard] *)
Definition nesting_error (source : Token) : error := error_at "Parser nesting exceeds the supported limit of 128." source.


Section Tokens.
Context (m_tokens : list Token).

(* ------------------------------------------------------------------ *)
(** ** Tokens *)

Definition end_token : Token := token END_OF_FILE "" 0 0.
Definition token_at (n : nat) : Token := default end_token (m_tokens !! n).

Definition isAtEnd (s : Parser) : bool :=
  match m_tokens !! m_current s with Some t => is_tok (tok_type t) END_OF_FILE | None => true end.
Definition peek (s : Parser) : Token := token_at (m_current s).
Definition peekNext (s : Parser) : Token := token_at (S (m_current s)).
Definition previous (s : Parser) : Token :=
  if (Nat.eqb (m_current s) 0) || bool_decide (m_tokens = []) then end_token
  else token_at (Nat.min (m_current s - 1) (length m_tokens - 1)).

Definition advance : Parse Token := λ s,
  let s := if isAtEnd s then s else at_position (S (m_current s)) s in Ok (previous s, s).

Definition check (t : TokenType) (s : Parser) : bool := negb (isAtEnd s) && is_tok (tok_type (peek s)) t.

Fixpoint match_ (types : list TokenType) : Parse bool :=
  match types with
  | [] => mret false
  | t :: types => b ← gets (check t); if (b : bool) then _ ← advance; mret true else match_ types
  end.

(** The error stands behind the previous token. *)
Definition consume (t : TokenType) (message : string) : Parse Token := λ s,
  if check t s then advance s
  else Err (CompileError message (line_number (previous s)) (col_number (previous s) + slen (lexeme (previous s)))).

(** The kind of a token some places ahead, where there is one. *)
Definition ahead (k : nat) (s : Parser) (t : TokenType) : bool :=
  match m_tokens !! (m_current s + k)%nat with Some x => is_tok (tok_type x) t | None => false end.

Definition rounds : nat := S (length m_tokens).

(** [do { l.push_back(item()); } while (match(COMMA))] *)
Definition comma_list {A} (item : list A → Parse A) : Parse (list A) :=
  loop rounds (λ l, x ← item l; more ← match_ [COMMA];
                    mret (if (more : bool) then inl (l ++ [x]) else inr (l ++ [x]))) [].

(** [while (!check(t) && !isAtEnd()) ...], where the round may leave the loop. *)
Definition until {A} (t : TokenType) (round : A → Parse (A + A)) (a : A) : Parse A :=
  loop rounds (λ a, stop ← gets (λ s, check t s || isAtEnd s);
                    if (stop : bool) then mret (inr a) else round a) a.

Definition parseIntegerLiteral (t : Token) (context : string) : result Z :=
  match parse_text (lexeme t) with
  | Ok (value, parsed) =>
      if Z.of_nat parsed =? slen (lexeme t) then Ok value
      else Err (error_at ("Invalid integer literal for " +:+ context +:+ ".") t)
  | Err _ => Err (error_at ("Invalid integer literal for " +:+ context +:+ ".") t)
  end.

Definition validateValueType (type : CType) (t : Token) (context : string) : result unit :=
  throw_if (bool_decide (base type = BaseVoid) && (pointer_level type =? 0))
    (error_at ("Void is not a valid " +:+ context +:+ " type.") t);;
  throw_if (is_unsigned type && negb (bool_decide (base type = BaseByte)) && negb (bool_decide (base type = BaseWord)))
    (error_at "Unsigned is only valid with byte or word types." t).

Definition validateValueName (name : Token) : Parse unit := λ s,
  throw_if (bool_decide (is_Some (m_type_aliases s !! lexeme name)))
    (error_at ("Type alias name cannot be used as a value name: " +:+ lexeme name) name);;
  Ok (tt, s).

Definition isAtStartOfDeclaration (s : Parser) : bool :=
  match tok_type (peek s) with
  | IDENTIFIER => bool_decide (is_Some (m_type_aliases s !! lexeme (peek s)))
  | KEYWORD_ENUM | KEYWORD_ROM | KEYWORD_RAM | KEYWORD_CONST | KEYWORD_VOLATILE | KEYWORD_BOOL
  | KEYWORD_UNSIGNED | KEYWORD_WORD | KEYWORD_BYTE | KEYWORD_VOID | KEYWORD_STRUCT | KEYWORD_FAR => true
  | _ => false
  end.

(* ------------------------------------------------------------------ *)
(** ** Types *)

Definition set_base (b : BaseType) (struct enum : string) (t : CType) : CType :=
  mkType b struct (sizeInBytes t) (is_unsigned t) (pointer_level t) (is_far t) (array_size t) (space t)
    (pointer_reach t) (pointer_spaces t) (is_const t) (is_volatile t) (pointee_qualifiers t) (alignment t)
    (aggregate_size t) enum.
Definition set_unsigned (t : CType) : CType :=
  mkType (base t) (structName t) (sizeInBytes t) true (pointer_level t) (is_far t) (array_size t) (space t)
    (pointer_reach t) (pointer_spaces t) (is_const t) (is_volatile t) (pointee_qualifiers t) (alignment t)
    (aggregate_size t) (enum_name t).
Definition set_space (sp : AddressSpace) (t : CType) : CType :=
  mkType (base t) (structName t) (sizeInBytes t) (is_unsigned t) (pointer_level t) (is_far t) (array_size t) sp
    (pointer_reach t) (pointer_spaces t) (is_const t) (is_volatile t) (pointee_qualifiers t) (alignment t)
    (aggregate_size t) (enum_name t).
Definition set_quals (c v : bool) (t : CType) : CType :=
  mkType (base t) (structName t) (sizeInBytes t) (is_unsigned t) (pointer_level t) (is_far t) (array_size t) (space t)
    (pointer_reach t) (pointer_spaces t) c v (pointee_qualifiers t) (alignment t) (aggregate_size t) (enum_name t).
Definition set_array (n : Z) (t : CType) : CType :=
  mkType (base t) (structName t) (sizeInBytes t) (is_unsigned t) (pointer_level t) (is_far t) n (space t)
    (pointer_reach t) (pointer_spaces t) (is_const t) (is_volatile t) (pointee_qualifiers t) (alignment t)
    (aggregate_size t) (enum_name t).
Definition set_layers (level : Z) (reach : list bool) (spaces : list AddressSpace) (quals : list AccessQualifiers)
    (t : CType) : CType :=
  mkType (base t) (structName t) (sizeInBytes t) (is_unsigned t) level (is_far t) (array_size t) (space t)
    reach spaces (is_const t) (is_volatile t) quals (alignment t) (aggregate_size t) (enum_name t).

Definition fixed_signedness : string := "Signedness is fixed by a type alias; select u8/u16 or use a cast.".

(** The type named by an alias, with the specifiers in front of it. *)
Definition alias_specifier (type : CType) : Parse CType :=
  name ← advance;
  bindings ← gets m_type_aliases;
  match bindings !! lexeme name with
  | None => fail (error_at ("Unknown type alias '" +:+ lexeme name +:+ "'.") name)
  | Some binding =>
      _ ← guard_ (is_unsigned type) (error_at fixed_signedness name);
      let resolved := alias_type binding in
      let given := negb (bool_decide (space type = SpaceNone)) in
      _ ← guard_ (given && (0 <? pointer_level resolved) && negb (bool_decide (space type = space resolved)))
            (error_at "A pointer alias fixes its address space." name);
      mret (set_quals (is_const resolved || is_const type) (is_volatile resolved || is_volatile type)
              (if given then set_space (space type) resolved else resolved))
  end.

(** The specifiers read so far: the type, whether an alias named it, whether
    [far] was asked for. *)
Record Specifiers := mkSpecifiers { sp_type : CType; sp_alias : bool; sp_far : bool }.

Definition type_specifier (x : Specifiers) : Parse (Specifiers + Specifiers) :=
  let type := sp_type x in
  let untyped := bool_decide (base type = BaseNone) in
  let stop : Parse (Specifiers + Specifiers) := mret (inr x) in
  let take (t : CType) : Parse (Specifiers + Specifiers) := _ ← advance; mret (inl (mkSpecifiers t (sp_alias x) (sp_far x))) in
  let take_base b := if untyped then take (set_base b (structName type) (enum_name type) type) else stop in
  t ← gets peek;
  match tok_type t with
  | KEYWORD_CONST => if is_const type then stop else take (set_quals true (is_volatile type) type)
  | KEYWORD_VOLATILE => if is_volatile type then stop else take (set_quals (is_const type) true type)
  | KEYWORD_RAM => if bool_decide (space type = SpaceNone) then take (set_space SpaceRam type) else stop
  | KEYWORD_ROM => if bool_decide (space type = SpaceNone) then take (set_space SpaceRom type) else stop
  | KEYWORD_ENUM =>
      if untyped then
        _ ← advance; name ← consume IDENTIFIER "Expect enum type name.";
        mret (inl (mkSpecifiers (set_base BaseWord (structName type) (lexeme name) type) (sp_alias x) (sp_far x)))
      else stop
  | KEYWORD_STRUCT =>
      if untyped then
        _ ← advance; name ← consume IDENTIFIER "Expect struct name after 'struct' keyword.";
        mret (inl (mkSpecifiers (set_base BaseStruct (lexeme name) (enum_name type) type) (sp_alias x) (sp_far x)))
      else stop
  | KEYWORD_UNSIGNED =>
      if is_unsigned type then stop
      else if sp_alias x then fail (error_at fixed_signedness t) else take (set_unsigned type)
  | KEYWORD_FAR => if sp_far x then stop else _ ← advance; mret (inl (mkSpecifiers type (sp_alias x) true))
  | KEYWORD_WORD => take_base BaseWord
  | KEYWORD_BOOL => take_base BaseBool
  | KEYWORD_BYTE => take_base BaseByte
  | KEYWORD_VOID => take_base BaseVoid
  | IDENTIFIER =>
      if untyped then resolved ← alias_specifier type; mret (inl (mkSpecifiers resolved true (sp_far x))) else stop
  | _ => stop
  end.

(** The qualifiers of a pointer layer: its reach, [const] and [volatile]. *)
Definition layer_qualifier (q : bool * bool * bool) : Parse ((bool * bool * bool) + (bool * bool * bool)) :=
  let '(reach, c, v) := q in
  far ← (if reach then mret false else match_ [KEYWORD_FAR]);
  if (far : bool) then mret (inl (true, c, v)) else
  const ← (if c then mret false else match_ [KEYWORD_CONST]);
  if (const : bool) then mret (inl (reach, true, v)) else
  volatile ← (if v then mret false else match_ [KEYWORD_VOLATILE]);
  if (volatile : bool) then mret (inl (reach, c, true)) else
  mret (inr q).

Definition pointer_layer (type : CType) : Parse (CType + CType) :=
  star ← match_ [STAR];
  if (star : bool) then
    source ← gets previous;
    _ ← guard_ (pointer_level type =? MaxPointerDepth) (error_at "Pointer depth exceeds the supported limit of 32." source);
    '(reach, c, v) ← loop rounds layer_qualifier (false, false, false);
    mret (inl (set_quals c v
      (set_layers (pointer_level type + 1) (pointer_reach type ++ [reach])
         (if bool_decide (pointer_spaces type = []) then [] else pointer_spaces type ++ [SpaceRam])
         (pointee_qualifiers type ++ [mkQual (is_const type) (is_volatile type)]) type)))
  else mret (inr type).

(** [type.pointer_reach.back() = true] *)
Definition far_reach (t : CType) : CType :=
  set_layers (pointer_level t) (removelast (pointer_reach t) ++ [true]) (pointer_spaces t) (pointee_qualifiers t) t.

Definition parseType : Parse CType :=
  x ← loop rounds type_specifier (mkSpecifiers default_type false false);
  source ← gets peek;
  _ ← guard_ (bool_decide (base (sp_type x) = BaseNone))
        (error_at "Parse Error: Expected a base type specifier (word, byte, void, or type alias)." source);
  let type := if bool_decide (space (sp_type x) = SpaceNone) then set_space SpaceRam (sp_type x) else sp_type x in
  type ← loop rounds pointer_layer type;
  source ← gets peek;
  _ ← guard_ (sp_far x && (pointer_level type =? 0))
        (error_at "Parse Error: The 'far' keyword can only be applied to pointer types." source);
  if 0 <? pointer_level type
  then lift (normalizePointerLayers (if sp_far x then far_reach type else type))
  else mret type.

(* ------------------------------------------------------------------ *)
(** ** Expressions *)

(** [ParseDepthGuard depth(m_expression_depth, peek())] around the rest of a
    function. *)
Definition expression_guard {A} (p : Parse A) : Parse A := λ s,
  throw_if (128 <=? m_expression_depth s) (nesting_error (peek s));;
  '(x, s') ← p (with_expression_depth (m_expression_depth s + 1) s);
  Ok (x, with_expression_depth (m_expression_depth s' - 1) s').

Section Expressions.
Context (assignment unary : Parse Expr).

Definition expression : Parse Expr := assignment.

Definition initializer_list : Parse Expr :=
  brace ← gets previous;
  values ← until RBRACE (λ l,
    _ ← guard_ (65536 <=? zlen l) (error_at "Initializer list exceeds one bank." brace);
    x ← expression; more ← match_ [COMMA];
    mret (if (more : bool) then inl (l ++ [x]) else inr (l ++ [x]))) [];
  _ ← consume RBRACE "Expect '}' after initializer list.";
  lift (node (InitializerListExpr brace values)).

Definition layout_query : Parse Expr :=
  operation ← gets previous;
  _ ← consume LPAREN "Expect '(' after layout query.";
  typed ← gets isAtStartOfDeclaration;
  '(type, object) ←
    (if (typed : bool) then t ← parseType; mret (t, None)
     else if negb (is_tok (tok_type operation) KEYWORD_OFFSETOF)
     then e ← expression; mret (default_type, Some e)
     else fail (error_at "offsetof requires a type and member." operation));
  _ ← lift (node (LayoutQueryExpr operation type object (token UNKNOWN "" 1 1)));
  member ← (if is_tok (tok_type operation) KEYWORD_OFFSETOF
            then _ ← consume COMMA "Expect ',' in offsetof."; consume IDENTIFIER "Expect member name in offsetof."
            else mret (token UNKNOWN "" 1 1));
  _ ← consume RPAREN "Expect ')' after layout query.";
  mret (LayoutQueryExpr operation type object member).

Definition read_pixel : Parse Expr :=
  keyword ← gets previous;
  at_ ← match_ [KEYWORD_AT];
  if (at_ : bool) then
    _ ← consume LPAREN "Expect '(' after read_pixel at.";
    x ← expression; _ ← consume COMMA "Expect ',' between coordinates.";
    y ← expression; _ ← consume RPAREN "Expect ')' after coordinates.";
    lift (node (ReadPixelExpr keyword (Some x) (Some y)))
  else mret (ReadPixelExpr keyword None None).

Definition cursor_access : Parse Expr :=
  _ ← consume DOT "Expect '.' in cursor coordinate access.";
  member ← consume IDENTIFIER "Expect 'x' or 'y' after 'cursor.'.";
  _ ← guard_ (negb (String.eqb (lexeme member) "x") && negb (String.eqb (lexeme member) "y"))
        (error_at "Plot context has only x and y coordinates." member);
  mret (PlotCoordinateExpr member (String.eqb (lexeme member) "y")).

(** A cast or a parenthesized expression, behind its parenthesis. *)
Definition parenthesized : Parse Expr :=
  paren_token ← gets previous;
  typed ← gets isAtStartOfDeclaration;
  if (typed : bool) then
    cast_type ← parseType;
    _ ← consume RPAREN "Expect ')' after type in cast expression.";
    right ← unary;
    lift (node (CastExpr paren_token cast_type right))
  else
    expr ← expression;
    _ ← consume RPAREN "Expect ')' after expression.";
    mret expr.

Definition primary : Parse Expr :=
  b ← match_ [LITERAL_STRING]; if (b : bool) then StringExpr <$> gets previous else
  b ← match_ [LITERAL_CHARACTER]; if (b : bool) then LiteralExpr <$> gets previous else
  b ← match_ [LBRACE]; if (b : bool) then initializer_list else
  b ← match_ [KEYWORD_NULL]; if (b : bool) then NullExpr <$> gets previous else
  b ← match_ [KEYWORD_SIZEOF; KEYWORD_ALIGNOF; KEYWORD_OFFSETOF]; if (b : bool) then layout_query else
  b ← match_ [KEYWORD_READ_PIXEL]; if (b : bool) then read_pixel else
  removed ← gets (λ s, check KEYWORD_PLOT s && is_tok (tok_type (peekNext s)) DOT);
  source ← gets peek;
  _ ← guard_ removed (error_at "Use cursor.x/cursor.y inside plot { ... }; plot.x/plot.y were removed." source);
  b ← match_ [KEYWORD_CURSOR]; if (b : bool) then cursor_access else
  b ← match_ [KEYWORD_TRUE; KEYWORD_FALSE]; if (b : bool) then LiteralExpr <$> gets previous else
  b ← match_ [LITERAL_INTEGER]; if (b : bool) then LiteralExpr <$> gets previous else
  b ← match_ [IDENTIFIER]; if (b : bool) then VariableExpr <$> gets previous else
  b ← match_ [LPAREN]; if (b : bool) then parenthesized else
  fail (error_at "Expected primary expression." source).

(** The literal of [++] and [--]. *)
Definition one_at (operation : Token) : Expr := LiteralExpr (token_from LITERAL_INTEGER "1" operation).

(** One suffix of a postfix expression. *)
Definition postfix_round (expr : Expr) : Parse (Expr + Expr) :=
  b ← match_ [LPAREN];
  if (b : bool) then
    empty ← gets (check RPAREN);
    arguments ← (if (empty : bool) then mret [] else comma_list (λ _, expression));
    paren ← consume RPAREN "Expect ')' after arguments.";
    inl <$> lift (node (CallExpr expr paren arguments))
  else
  b ← match_ [LBRACKET];
  if (b : bool) then
    bracket ← gets previous;
    index ← expression;
    _ ← consume RBRACKET "Expect ']' after subscript index.";
    inl <$> lift (node (SubscriptExpr expr bracket index))
  else
  b ← match_ [DOT; ARROW];
  if (b : bool) then
    access ← gets previous;
    member ← consume IDENTIFIER "Expect member name after '.'.";
    inl <$> lift (node (MemberAccessExpr expr member (is_tok (tok_type access) ARROW)))
  else
  b ← match_ [PLUS_PLUS; MINUS_MINUS];
  if (b : bool) then
    operation ← gets previous;
    inr <$> lift (node (UpdateExpr operation expr (one_at operation) true))
  else mret (inr expr).

Definition postfix : Parse Expr := expr ← primary; loop rounds postfix_round expr.

(** [UnaryExpr], [AddressOfExpr] or [DereferenceExpr] by its operator. *)
Definition prefix_node (op : Token) (right : Expr) : Expr :=
  match tok_type op with
  | MINUS | BANG | TILDE => UnaryExpr op right
  | AMPERSAND => AddressOfExpr op right
  | _ => DereferenceExpr op right
  end.

Definition unary_body : Parse Expr := expression_guard (
  b ← match_ [PLUS_PLUS; MINUS_MINUS];
  if (b : bool) then
    operation ← gets previous;
    right ← unary;
    lift (node (UpdateExpr operation right (one_at operation) false))
  else
  b ← match_ [MINUS; AMPERSAND; STAR; BANG; TILDE];
  if (b : bool) then
    op ← gets previous;
    right ← unary;
    lift (node (prefix_node op right))
  else postfix).

Definition binary_round (operand : Parse Expr) (operators : list TokenType) (left : Expr) : Parse (Expr + Expr) :=
  b ← match_ operators;
  if (b : bool) then
    operation ← gets previous;
    right ← operand;
    inl <$> lift (node (BinaryExpr left operation right))
  else mret (inr left).

Definition binaryLeft (operand : Parse Expr) (operators : list TokenType) : Parse Expr :=
  left ← operand; loop rounds (binary_round operand operators) left.

Definition factor := binaryLeft unary [STAR; SLASH; PERCENT].
Definition term := binaryLeft factor [PLUS; MINUS].
Definition shift := binaryLeft term [SHIFT_LEFT; SHIFT_RIGHT].
Definition comparison := binaryLeft shift [GREATER; GREATER_EQUAL; LESS; LESS_EQUAL].
Definition equality := binaryLeft comparison [BANG_EQUAL; EQUAL_EQUAL].
Definition bitwiseAnd := binaryLeft equality [AMPERSAND].
Definition bitwiseXor := binaryLeft bitwiseAnd [CARET].
Definition bitwiseOr := binaryLeft bitwiseXor [PIPE].
Definition logicalAnd := binaryLeft bitwiseOr [AND_AND].
Definition logicalOr := binaryLeft logicalAnd [OR_OR].

Definition compound_operators : list TokenType :=
  [PLUS_EQUAL; MINUS_EQUAL; STAR_EQUAL; SLASH_EQUAL; PERCENT_EQUAL; AND_EQUAL; OR_EQUAL; XOR_EQUAL;
   SHIFT_LEFT_EQUAL; SHIFT_RIGHT_EQUAL].

Definition assignment_body : Parse Expr := expression_guard (
  expr ← logicalOr;
  b ← match_ [EQUAL];
  if (b : bool) then value ← assignment; lift (node (AssignExpr expr value)) else
  b ← match_ compound_operators;
  if (b : bool) then
    operation ← gets previous;
    value ← assignment;
    lift (node (UpdateExpr operation expr value false))
  else mret expr).

End Expressions.

(** The recursion through [assignment] and [unary]. *)
Fixpoint assignment_at (fuel : nat) (s : Parser) : result (Expr * Parser) :=
  match fuel with
  | O => Err out_of_fuel
  | S fuel => assignment_body (assignment_at fuel) (unary_at fuel) s
  end
with unary_at (fuel : nat) (s : Parser) : result (Expr * Parser) :=
  match fuel with
  | O => Err out_of_fuel
  | S fuel => unary_body (assignment_at fuel) (unary_at fuel) s
  end.

Definition parse_expression : Parse Expr := assignment_at depth_fuel.

End Tokens.
