(* ===== verification/ParserDecl.v ===== *)
(** * ParserDecl: statements, declarations and programs

    The rest of [Parser.cpp]: attributes, statements, declarations, the preamble
    of module and imports, and [parseProgram]. *)

From S2P Require Import Prelude Target Types Token Ast Parser.

(* ------------------------------------------------------------------ *)
(** ** Attributes *)

Inductive AttributeSite := TopLevel | InStatement.

Definition isReservedAttribute (name : string) : bool :=
  existsb (String.eqb name) ["interrupt"; "naked"; "section"; "bank"; "calling_convention"; "inline"]%string.

Definition target_name (config : CompilerConfig) : string :=
  if bool_decide (target config = GSU) then "gsu" else "spc700".

(** The target an attribute names, where its only argument is one. *)
Definition named_target (a : Attribute) : option string :=
  match a_arguments a with
  | [VariableExpr t] =>
      if String.eqb (lexeme t) "gsu" || String.eqb (lexeme t) "spc700" then Some (lexeme t) else None
  | _ => None
  end.

Definition configurationEnabled (config : CompilerConfig) (attributes : list Attribute) : result bool :=
  match List.find (λ a, String.eqb (lexeme (a_name a)) "cfg") attributes with
  | None => Ok true
  | Some a =>
      match named_target a with
      | Some t => Ok (String.eqb t (target_name config))
      | None => Err (error_at "@cfg requires exactly one target name: gsu or spc700." (a_name a))
      end
  end.

(** What [@cache] may mark, marked: a function with a body, a loop, or the
    [while] loop that ends a block of two statements. *)
Definition cache_target (s : Stmt) : option Stmt :=
  match s with
  | FunctionDeclStmt i _ false r ps b => Some (FunctionDeclStmt i true false r ps b)
  | WhileStmt _ _ _ _ | ForStmt _ _ _ _ _ _ => Some (cache_loop s)
  | BlockStmt i [a; WhileStmt _ _ _ _ as w] => Some (BlockStmt i [a; cache_loop w])
  | _ => None
  end.

Definition is_struct (s : Stmt) : bool := match s with StructDefStmt _ _ => true | _ => false end.
Definition is_function (s : Stmt) : bool := match s with FunctionDeclStmt _ _ _ _ _ _ => true | _ => false end.

Definition apply_attribute (config : CompilerConfig) (enabled : bool) (site : AttributeSite) (s : Stmt) (a : Attribute)
    : result Stmt :=
  let name := a_name a in
  let count := zlen (a_arguments a) in
  let named n := String.eqb (lexeme name) n in
  if named "cfg" then
    match site with
    | TopLevel => Ok s
    | InStatement => Err (error_at "@cfg is only supported on top-level declarations or imports." name)
    end
  else if named "cache" then
    match (if count =? 0 then cache_target s else None) with
    | Some s => Ok s
    | None => Err (error_at "@cache requires a function definition or loop and no arguments." name)
    end
  else if named "packed" || named "align" then
    throw_if (negb (is_struct s) || negb (count =? (if named "packed" then 0 else 1)))
      (error_at "Layout attributes require a struct definition; @align takes one argument." name);;
    Ok s
  else if named "target" then
    throw_if (negb (is_function s) || negb (count =? 1))
      (error_at "@target requires one target name on a function." name);;
    match named_target a with
    | Some t =>
        throw_if (enabled && negb (String.eqb t (target_name config)))
          (error_at "@target does not match the compilation target." name);;
        Ok s
    | None => Err (error_at "@target does not match the compilation target." name)
    end
  else if isReservedAttribute (lexeme name) then
    Err (error_at ("Attribute '@" +:+ lexeme name +:+ "' is reserved; its ABI/lowering contract is not implemented yet.") name)
  else Err (error_at ("Unsupported attribute '@" +:+ lexeme name +:+ "'.") name).

Definition set_attributes (attributes : list Attribute) (s : Stmt) : Stmt :=
  set_info (mkInfo (stmt_token s) attributes (s_linkage (stmt_info s))) s.
Definition set_linkage (linkage : Linkage) (s : Stmt) : Stmt :=
  set_info (mkInfo (stmt_token s) (s_attributes (stmt_info s)) linkage) s.

Definition applyAttributes (config : CompilerConfig) (s : Stmt) (attributes : list Attribute) (site : AttributeSite)
    : result Stmt :=
  enabled ← configurationEnabled config attributes;
  s ← foldM (apply_attribute config enabled site) s attributes;
  Ok (set_attributes attributes s).

Section Tokens.
Context (m_tokens : list Token).
Notation peek := (peek m_tokens).
Notation previous := (previous m_tokens).
Notation check := (check m_tokens).
Notation isAtEnd := (isAtEnd m_tokens).
Notation match_ := (match_ m_tokens).
Notation consume := (consume m_tokens).
Notation advance := (advance m_tokens).
Notation rounds := (rounds m_tokens).
Notation until := (until m_tokens).
Notation ahead := (ahead m_tokens).
Notation comma_list := (comma_list m_tokens).
Notation parseType := (parseType m_tokens).
Notation isAtStartOfDeclaration := (isAtStartOfDeclaration m_tokens).
Notation expression := (parse_expression m_tokens).

Definition attribute_round (attributes : list Attribute) : Parse (list Attribute + list Attribute) :=
  more ← match_ [AT_SIGN];
  if (more : bool) then
    name ← advance;
    _ ← guard_ (negb (is_tok (tok_type name) IDENTIFIER) && negb (is_tok (tok_type name) KEYWORD_CACHE))
          (error_at "Expect attribute name after '@'." name);
    _ ← guard_ ((32 <=? zlen attributes) || existsb (λ a, String.eqb (lexeme (a_name a)) (lexeme name)) attributes)
          (error_at "Duplicate attribute or attribute limit exceeded." name);
    open ← match_ [LPAREN];
    arguments ←
      (if (open : bool) then
         empty ← gets (check RPAREN);
         l ← (if (empty : bool) then mret []
              else comma_list (λ l, _ ← guard_ (16 <=? zlen l) (error_at "Too many attribute arguments." name); expression));
         _ ← consume RPAREN "Expect ')' after attribute arguments.";
         mret l
       else mret []);
    mret (inl (attributes ++ [mkAttribute name arguments]))
  else mret (inr attributes).
Definition parseAttributes : Parse (list Attribute) := loop rounds attribute_round [].

Definition apply (s : Stmt) (attributes : list Attribute) (site : AttributeSite) : Parse Stmt :=
  config ← gets m_config; lift (applyAttributes config s attributes site).

(* ------------------------------------------------------------------ *)
(** ** Declarations without statements *)

Definition bind_alias (name : string) (b : TypeAliasBinding) : Parse unit :=
  modify (λ s, with_aliases (<[name := b]> (m_type_aliases s)) s).
(** [m_type_aliases.size()] *)
Definition alias_count (s : Parser) : Z := Z.of_nat (size (m_type_aliases s)).

Definition addImportedAlias (binding : TypeAliasBinding) : Parse unit :=
  let d := alias_declaration binding in
  aliases ← gets m_type_aliases;
  match aliases !! lexeme d with
  | Some found =>
      let original := alias_declaration found in
      guard_ (negb (String.eqb (source_path original) (source_path d)) || negb (line_number original =? line_number d)
              || negb (col_number original =? col_number d))
        (error_at ("Conflicting type alias '" +:+ lexeme d +:+ "'.") d)
  | None =>
      count ← gets alias_count;
      _ ← guard_ (MaxTypeAliases <=? count) (error_at "Type alias count exceeds the supported limit of 4096." d);
      bind_alias (lexeme d) binding
  end.

Definition typeAliasDeclaration (enabled : bool) : Parse Stmt :=
  name ← consume IDENTIFIER "Expect type alias name.";
  aliases ← gets m_type_aliases;
  _ ← guard_ (enabled && bool_decide (is_Some (aliases !! lexeme name)))
        (error_at ("Type alias already declared or reserved: " +:+ lexeme name) name);
  _ ← consume EQUAL "Expect '=' in type alias.";
  type ← parseType;
  _ ← consume SEMICOLON "Expect ';' after type alias (array/function aliases are unsupported).";
  _ ← (if enabled then
         count ← gets alias_count;
         _ ← guard_ (MaxTypeAliases <=? count) (error_at "Type alias count exceeds the supported limit of 4096." name);
         bind_alias (lexeme name) (mkBinding type name)
       else mret tt);
  mret (TypeAliasDeclStmt (at_token name) type).

(** An optional [= expression]. *)
Definition optional_value : Parse (option Expr) :=
  b ← match_ [EQUAL]; if (b : bool) then Some <$> expression else mret None.

Definition enumDeclaration : Parse Stmt :=
  _ ← consume KEYWORD_ENUM "Expect 'enum'.";
  name ← consume IDENTIFIER "Expect enum name.";
  typed ← match_ [COLON];
  underlying ← (if (typed : bool) then parseType else mret (scalar_type BaseWord 2 false));
  _ ← guard_ (negb (pointer_level underlying =? 0)
              || (negb (bool_decide (base underlying = BaseByte)) && negb (bool_decide (base underlying = BaseWord)))
              || negb (String.eqb (enum_name underlying) ""))
        (error_at "Enum underlying type must be byte or word." name);
  _ ← consume LBRACE "Expect '{' in enum definition.";
  entries ← until RBRACE (λ l,
    entry ← consume IDENTIFIER "Expect enumerator name.";
    _ ← validateValueName entry;
    value ← optional_value;
    let l := l ++ [mkEntry entry value] in
    _ ← guard_ (65536 <? zlen l) (error_at "Too many enum entries." name);
    more ← match_ [COMMA];
    mret (if (more : bool) then inl l else inr l)) [];
  _ ← consume RBRACE "Expect '}' after enum entries.";
  _ ← consume SEMICOLON "Expect ';' after enum.";
  mret (EnumDeclStmt (at_token name) underlying entries).

Definition staticAssertion : Parse Stmt :=
  keyword ← gets previous;
  _ ← consume LPAREN "Expect '(' after static_assert.";
  condition ← expression;
  _ ← consume RPAREN "Expect ')' after static assertion.";
  _ ← consume SEMICOLON "Expect ';' after static_assert.";
  mret (StaticAssertStmt (at_token keyword) condition).

Definition struct_member (l : list Member) : Parse (list Member + list Member) :=
  memberType ← parseType;
  source ← gets peek;
  _ ← lift (validateValueType memberType source "struct member");
  memberName ← consume IDENTIFIER "Expect member name.";
  array ← match_ [LBRACKET];
  extent ← (if (array : bool) then
              e ← expression; _ ← consume RBRACKET "Expect ']' after member array extent."; mret (Some e)
            else mret None);
  _ ← consume SEMICOLON "Expect ';' after struct member.";
  mret (inl (l ++ [mkMember memberType memberName extent])).

Definition structDeclaration : Parse Stmt :=
  _ ← consume KEYWORD_STRUCT "Expect 'struct' keyword.";
  name ← consume IDENTIFIER "Expect struct name.";
  _ ← consume LBRACE "Expect '{' to begin struct body.";
  members ← until RBRACE struct_member [];
  _ ← consume RBRACE "Expect '}' to close struct body.";
  _ ← consume SEMICOLON "Expect ';' after struct declaration.";
  mret (StructDefStmt (at_token name) members).

(** [LiteralExpr] of a number the parser makes. *)
Definition number_at (n : Z) (source : Token) : Expr := LiteralExpr (token_from LITERAL_INTEGER (pretty n) source).

(** The bytes of a string as literals of the element type, and a zero. *)
Definition string_bytes (type : CType) (text : Token) : list Expr :=
  ((λ byte, number_at (if is_unsigned type || (byte <? 128) then byte else byte - 256) text)
     <$> bytes_of_string (lexeme text)) ++ [number_at 0 text].

Definition romConstDeclaration (type : CType) (name : Token) : Parse Stmt :=
  let finish is_array extent initializers : Stmt := ConstDataStmt (at_token name) type is_array extent initializers in
  is_array ← match_ [LBRACKET];
  if (is_array : bool) then
    empty ← gets (check RBRACKET);
    extent ← (if (empty : bool) then mret None else Some <$> expression);
    _ ← consume RBRACKET "Expect ']' for rom data array.";
    _ ← consume EQUAL "Expect '=' for rom data initialization.";
    text ← match_ [LITERAL_STRING];
    if (text : bool) then
      _ ← guard_ (negb (bool_decide (base type = BaseByte))) (error_at "String storage requires a byte array." name);
      text ← gets previous;
      _ ← consume SEMICOLON "Expect ';' after string storage.";
      mret (finish true extent (string_bytes type text))
    else
      _ ← consume LBRACE "Expect '{' for rom data list.";
      empty ← gets (check RBRACE);
      initializers ← (if (empty : bool) then mret [] else comma_list (λ l,
        source ← gets peek;
        _ ← guard_ (MaxArrayElements <=? zlen l) (error_at "ROM data initializer list is too large." source);
        expression));
      _ ← consume RBRACE "Expect '}' to close rom data list.";
      _ ← consume SEMICOLON "Expect ';' after rom data declaration.";
      mret (finish true extent initializers)
  else
    _ ← consume EQUAL "Expect '=' for rom const initialization.";
    value ← expression;
    _ ← consume SEMICOLON "Expect ';' after rom data declaration.";
    mret (finish false None [value]).

Definition varDeclaration (type : CType) (name : Token) : Parse VarDecl :=
  _ ← validateValueName name;
  _ ← lift (validateValueType type name "variable declaration");
  array ← match_ [LBRACKET];
  '(type, extent) ←
    (if (array : bool) then
       inferred ← gets (check RBRACKET);
       extent ← (if (inferred : bool) then mret None else Some <$> expression);
       _ ← consume RBRACKET "Expect ']' after array size.";
       mret (if (inferred : bool) then set_array (-1) type else type, extent)
     else mret (type, None));
  initializer ← optional_value;
  _ ← consume SEMICOLON "Expect ';' after variable declaration.";
  mret (mkVar type initializer extent false false (array_size type =? -1) false).

(** Its flags, which the callers set. *)
Definition var_stmt (name : Token) (global extern constexpr : bool) (d : VarDecl) : Stmt :=
  VarDeclStmt (at_token name)
    (mkVar (v_type d) (v_initializer d) (v_extent d) global extern (v_inferred_extent d) constexpr).

(** ** Bitmaps *)

(** The configuration so far, which of mode, size, depth and base were given,
    and the names of the fields seen. *)
Record BitmapFields := mkFields {
  f_config : Bitmap.BitmapConfig; f_mode : bool; f_size : bool; f_depth : bool; f_base : bool; f_seen : list string
}.

Definition bitmap_height (suffix : string) : option Z :=
  if String.eqb suffix "x128" then Some 128 else if String.eqb suffix "x160" then Some 160
  else if String.eqb suffix "x192" then Some 192 else None.

Definition bitmap_mode (x : BitmapFields) : Parse BitmapFields :=
  value ← advance;
  let c := f_config x in
  let chosen obj := mkFields (Bitmap.mkBitmap (Bitmap.enabled c) obj (Bitmap.height c) (Bitmap.depth c) (Bitmap.base c))
                      true (f_size x) (f_depth x) (f_base x) (f_seen x) in
  if is_tok (tok_type value) KEYWORD_BITMAP then mret (chosen false)
  else if is_tok (tok_type value) IDENTIFIER && String.eqb (lexeme value) "obj" then mret (chosen true)
  else fail (error_at "Bitmap mode must be bitmap or obj." value).

Definition bitmap_size (x : BitmapFields) : Parse BitmapFields :=
  width ← consume LITERAL_INTEGER "Expect bitmap width.";
  suffix ← consume IDENTIFIER "Expect x128, x160 or x192 after width.";
  n ← lift (parseIntegerLiteral width "bitmap width");
  let c := f_config x in
  match (if n =? 256 then bitmap_height (lexeme suffix) else None) with
  | Some h => mret (mkFields (Bitmap.mkBitmap (Bitmap.enabled c) (Bitmap.object_mode c) h (Bitmap.depth c) (Bitmap.base c))
                      (f_mode x) true (f_depth x) (f_base x) (f_seen x))
  | None => fail (error_at "Bitmap size must be 256x128, 256x160 or 256x192." width)
  end.

Definition bitmap_depth (x : BitmapFields) : Parse BitmapFields :=
  value ← consume LITERAL_INTEGER "Expect 2bpp, 4bpp or 8bpp.";
  suffix ← consume IDENTIFIER "Expect bpp after bitmap depth.";
  bits ← lift (parseIntegerLiteral value "bitmap depth");
  _ ← guard_ (negb (String.eqb (lexeme suffix) "bpp") || (negb (bits =? 2) && negb (bits =? 4) && negb (bits =? 8)))
        (error_at "Bitmap depth must be 2bpp, 4bpp or 8bpp." value);
  let c := f_config x in
  mret (mkFields (Bitmap.mkBitmap (Bitmap.enabled c) (Bitmap.object_mode c) (Bitmap.height c) bits (Bitmap.base c))
          (f_mode x) (f_size x) true (f_base x) (f_seen x)).

Definition bitmap_base (x : BitmapFields) : Parse BitmapFields :=
  value ← consume LITERAL_INTEGER "Expect constant SCBR base address.";
  address ← lift (parseIntegerLiteral value "bitmap base");
  _ ← guard_ ((address <? 0) || (131072 <=? address)) (error_at "Bitmap base is outside cartridge RAM." value);
  let c := f_config x in
  mret (mkFields (Bitmap.mkBitmap (Bitmap.enabled c) (Bitmap.object_mode c) (Bitmap.height c) (Bitmap.depth c) address)
          (f_mode x) (f_size x) (f_depth x) true (f_seen x)).

Definition bitmap_field (x : BitmapFields) : Parse (BitmapFields + BitmapFields) :=
  field ← consume IDENTIFIER "Expect bitmap field: mode, size, depth or base.";
  _ ← guard_ (existsb (String.eqb (lexeme field)) (f_seen x)) (error_at "Duplicate bitmap field." field);
  let x := mkFields (f_config x) (f_mode x) (f_size x) (f_depth x) (f_base x) (f_seen x ++ [lexeme field]) in
  x ← (if String.eqb (lexeme field) "mode" then bitmap_mode x
       else if String.eqb (lexeme field) "size" then bitmap_size x
       else if String.eqb (lexeme field) "depth" then bitmap_depth x
       else if String.eqb (lexeme field) "base" then bitmap_base x
       else fail (error_at "Unknown bitmap field." field));
  _ ← consume SEMICOLON "Expect ';' after bitmap field.";
  mret (inl x).

Definition bitmapDeclaration : Parse Stmt :=
  name ← consume IDENTIFIER "Expect bitmap name.";
  _ ← consume LBRACE "Expect '{' after bitmap name.";
  let d := Bitmap.default in
  x ← until RBRACE bitmap_field
        (mkFields (Bitmap.mkBitmap true (Bitmap.object_mode d) (Bitmap.height d) (Bitmap.depth d) (Bitmap.base d))
           false false false false []);
  _ ← consume RBRACE "Expect '}' after bitmap configuration.";
  _ ← match_ [SEMICOLON];
  let c := f_config x in
  let obj := Bitmap.object_mode c in
  _ ← guard_ (negb (f_mode x) || negb (f_depth x) || negb (f_base x) || (negb obj && negb (f_size x)) || (obj && f_size x))
        (error_at "Bitmap requires mode/depth/base and a bitmap size; OBJ mode forbids size." name);
  let c := if obj then Bitmap.mkBitmap (Bitmap.enabled c) obj 256 (Bitmap.depth c) (Bitmap.base c) else c in
  match Bitmap.validate c with
  | Ok _ => mret (BitmapDeclStmt (at_token name) c)
  | Err e => fail (error_at (what e) name)
  end.

(* ------------------------------------------------------------------ *)
(** ** Graphics statements *)

(** The assignments to [cursor.x] and [cursor.y]. *)
Definition cursor_write (is_y : bool) (value : Expr) (source : Token) : result Stmt :=
  e ← node (AssignExpr (PlotCoordinateExpr (token_from IDENTIFIER (if is_y then "y" else "x") source) is_y) value);
  Ok (expression_stmt e).
Definition cursorWrites (x y : Expr) (source : Token) : result (list Stmt) :=
  a ← cursor_write false x source; b ← cursor_write true y source; Ok [a; b].

Definition drawStatement : Parse Stmt :=
  keyword ← gets previous;
  _ ← consume KEYWORD_AT "Expect 'at' in draw statement.";
  _ ← consume LPAREN "Expect '(' after 'at'.";
  x ← expression;
  _ ← consume COMMA "Expect ',' to separate coordinates.";
  y ← expression;
  _ ← consume RPAREN "Expect ')' after coordinates.";
  with_ ← match_ [KEYWORD_WITH];
  colors ← (if (with_ : bool) then
              _ ← consume KEYWORD_COLOR "Expect 'color' after 'with'.";
              color ← expression;
              mret [SetColorStmt (at_token (expr_token color)) color]
            else mret []);
  _ ← consume SEMICOLON "Expect ';' after draw statement.";
  writes ← lift (cursorWrites x y keyword);
  mret (block_stmt (colors ++ writes ++ [PlotStmt (at_token keyword)])).

Definition atStatement : Parse Stmt :=
  keyword ← gets previous;
  _ ← consume LPAREN "Expect '(' after at.";
  x ← expression; _ ← consume COMMA "Expect ',' between coordinates.";
  y ← expression; _ ← consume RPAREN "Expect ')' after coordinates.";
  _ ← consume SEMICOLON "Expect ';' after at coordinates.";
  writes ← lift (cursorWrites x y keyword);
  mret (block_stmt writes).

(** The bit of a plot option; [transparent] clears bit 0. *)
Definition plot_option (name : string) (mask : Z) : option Z :=
  if String.eqb name "transparent" then Some (Z.land mask (Z.lnot 1))
  else if String.eqb name "dither" then Some (Z.lor mask 2)
  else if String.eqb name "high_nibble" then Some (Z.lor mask 4)
  else if String.eqb name "freeze_high" then Some (Z.lor mask 8)
  else if String.eqb name "object" then Some (Z.lor mask 16)
  else None.

Definition option_round (x : Z * list string) : Parse ((Z * list string) + (Z * list string)) :=
  let '(mask, seen) := x in
  named ← consume IDENTIFIER "Expect symbolic plot option.";
  _ ← guard_ (existsb (String.eqb (lexeme named)) seen) (error_at "Duplicate plot option." named);
  match plot_option (lexeme named) mask with
  | None => fail (error_at ("Unknown plot option: " +:+ lexeme named) named)
  | Some mask =>
      let x := (mask, seen ++ [lexeme named]) in
      more ← match_ [COMMA];
      mret (if (more : bool) then inl x else inr x)
  end.

Definition optionsStatement : Parse Stmt :=
  keyword ← gets previous;
  empty ← gets (check SEMICOLON);
  '(mask, _) ← (if (empty : bool) then mret (1, []) else loop rounds option_round (1, []));
  _ ← consume SEMICOLON "Expect ';' after plot options.";
  mret (let value := number_at mask keyword in CmodeStmt (at_token (expr_token value)) value).

(* ------------------------------------------------------------------ *)
(** ** Statements *)

Definition statement_guard {A} (p : Parse A) : Parse A := λ s,
  throw_if (128 <=? m_statement_depth s) (nesting_error (peek s));;
  '(x, s') ← p (with_statement_depth (m_statement_depth s + 1) s);
  Ok (x, with_statement_depth (m_statement_depth s' - 1) s').

Section Statements.
Context (statement : Parse Stmt).

Definition blockStatement : Parse Stmt :=
  statements ← until RBRACE (λ l, s ← statement; mret (inl (l ++ [s]))) [];
  _ ← consume RBRACE "Expect '}' after block.";
  mret (block_stmt statements).

Definition plotStatement : Parse Stmt :=
  keyword ← gets previous;
  dot ← gets (check DOT);
  _ ← guard_ dot (error_at "Use cursor.x/cursor.y inside plot { ... }; plot.x/plot.y were removed." keyword);
  _ ← consume LBRACE "Use plot { ... }; replace plot(x, y) with draw at (x, y).";
  body ← blockStatement;
  mret (PlotBlockStmt (at_token keyword) body).

Definition ifStatement : Parse Stmt :=
  _ ← consume LPAREN "Expect '(' after 'if'.";
  condition ← expression;
  _ ← consume RPAREN "Expect ')' after if condition.";
  thenBranch ← statement;
  b ← match_ [KEYWORD_ELSE];
  elseBranch ← (if (b : bool) then Some <$> statement else mret None);
  mret (IfStmt (at_token (expr_token condition)) condition thenBranch elseBranch).

Definition whileStatement (is_cached : bool) : Parse Stmt :=
  _ ← consume LPAREN "Expect '(' after 'while'.";
  condition ← expression;
  _ ← consume RPAREN "Expect ')' after while condition.";
  body ← statement;
  mret (WhileStmt (at_token (expr_token condition)) is_cached condition body).

Definition local_declaration (message : string) : Parse Stmt :=
  type ← parseType;
  name ← consume IDENTIFIER message;
  d ← varDeclaration type name;
  mret (var_stmt name false false false d).

Definition forStatement (is_cached : bool) : Parse Stmt :=
  keyword ← gets previous;
  _ ← consume LPAREN "Expect '(' after 'for'.";
  none ← match_ [SEMICOLON];
  declared ← gets isAtStartOfDeclaration;
  initializer ←
    (if (none : bool) then mret None
     else if (declared : bool) then Some <$> local_declaration "Expect identifier in for-loop initializer."
     else
       e ← expression;
       _ ← consume SEMICOLON "Expect ';' after for-loop expression initializer.";
       mret (Some (expression_stmt e)));
  none ← gets (check SEMICOLON);
  condition ← (if (none : bool) then mret None else Some <$> expression);
  _ ← consume SEMICOLON "Expect ';' after for-loop condition.";
  none ← gets (check RPAREN);
  increment ← (if (none : bool) then mret None else Some <$> expression);
  _ ← consume RPAREN "Expect ')' after for-loop clauses.";
  body ← statement;
  mret (ForStmt (at_token keyword) is_cached initializer
          (default (LiteralExpr (token_from KEYWORD_TRUE "true" keyword)) condition) increment body).

Definition switch_round (l : list Stmt) : Parse (list Stmt + list Stmt) :=
  b ← match_ [KEYWORD_CASE];
  if (b : bool) then
    keyword ← gets previous;
    value ← expression;
    _ ← consume COLON "Expect ':' after case value.";
    mret (inl (l ++ [CaseStmt (at_token keyword) value]))
  else
  b ← match_ [KEYWORD_DEFAULT];
  if (b : bool) then
    keyword ← gets previous;
    _ ← consume COLON "Expect ':' after 'default'.";
    mret (inl (l ++ [DefaultStmt (at_token keyword)]))
  else s ← statement; mret (inl (l ++ [s])).

Definition switchStatement : Parse Stmt :=
  _ ← consume LPAREN "Expect '(' after 'switch'.";
  condition ← expression;
  _ ← consume RPAREN "Expect ')' after switch condition.";
  _ ← consume LBRACE "Expect '{' to begin switch body.";
  body ← until RBRACE switch_round [];
  _ ← consume RBRACE "Expect '}' to close switch body.";
  mret (SwitchStmt (at_token (expr_token condition)) condition (block_stmt body)).

Definition returnStatement : Parse Stmt :=
  none ← gets (check SEMICOLON);
  value ← (if (none : bool) then mret None else Some <$> expression);
  _ ← consume SEMICOLON "Expect ';' after return value.";
  mret (return_stmt value).

(** A keyword and its semicolon. *)
Definition marker (f : StmtInfo → Stmt) (message : string) : Parse Stmt :=
  keyword ← gets previous; _ ← consume SEMICOLON message; mret (f (at_token keyword)).

Definition constexpr_declaration : Parse Stmt :=
  type ← parseType;
  name ← consume IDENTIFIER "Expect constexpr name.";
  d ← varDeclaration (set_quals true (is_volatile type) type) name;
  mret (var_stmt name false false true d).

Definition colorStatement : Parse Stmt :=
  value ← expression;
  _ ← consume SEMICOLON "Expect ';' after color value.";
  mret (SetColorStmt (at_token (expr_token value)) value).

Definition useStatement : Parse Stmt :=
  _ ← consume KEYWORD_BITMAP "Expect 'bitmap' after 'use'.";
  name ← consume IDENTIFIER "Expect bitmap name.";
  _ ← consume SEMICOLON "Expect ';' after bitmap selection.";
  mret (UseBitmapStmt (at_token name)).

(** What starts with no keyword of a statement. *)
Definition plain_statement (is_cached : bool) : Parse Stmt :=
  declared ← gets isAtStartOfDeclaration;
  source ← gets peek;
  if (declared : bool) then
    _ ← guard_ is_cached (error_at "Parse Error: 'cache' cannot precede a variable declaration." source);
    local_declaration "Expect identifier for variable declaration."
  else
    _ ← guard_ is_cached (error_at "Parse Error: 'cache' can only be applied to a for or while loop." source);
    expr ← expression;
    _ ← consume SEMICOLON "Expect ';' after expression.";
    mret (expression_stmt expr).

Definition keyword_statement (is_cached : bool) : Parse Stmt :=
  b ← match_ [KEYWORD_STATIC_ASSERT]; if (b : bool) then staticAssertion else
  b ← match_ [KEYWORD_CONSTEXPR]; if (b : bool) then constexpr_declaration else
  b ← match_ [KEYWORD_IF]; if (b : bool) then ifStatement else
  b ← match_ [KEYWORD_FOR]; if (b : bool) then forStatement is_cached else
  b ← match_ [KEYWORD_WHILE]; if (b : bool) then whileStatement is_cached else
  b ← match_ [KEYWORD_SWITCH]; if (b : bool) then switchStatement else
  b ← match_ [KEYWORD_CONTINUE]; if (b : bool) then marker ContinueStmt "Expect ';' after control-flow marker." else
  b ← match_ [KEYWORD_FALLTHROUGH]; if (b : bool) then marker FallthroughStmt "Expect ';' after control-flow marker." else
  b ← match_ [KEYWORD_BREAK]; if (b : bool) then marker BreakStmt "Expect ';' after 'break'." else
  b ← match_ [LBRACE]; if (b : bool) then blockStatement else
  b ← match_ [KEYWORD_RETURN]; if (b : bool) then returnStatement else
  b ← match_ [KEYWORD_PLOT]; if (b : bool) then plotStatement else
  legacy ← match_ [KEYWORD_PLOT_BEGIN; KEYWORD_PLOT_END; KEYWORD_SET_COLOR; KEYWORD_SET_PLOT_OPTIONS; KEYWORD_FLUSH_PIXELS];
  source ← gets previous;
  _ ← guard_ legacy (error_at "Legacy graphics API removed; use plot { ... }, color expr;, options names; and flush;." source);
  b ← match_ [KEYWORD_PIXEL]; if (b : bool) then marker PlotStmt "Expect ';' after pixel." else
  b ← match_ [KEYWORD_COLOR]; if (b : bool) then colorStatement else
  b ← match_ [KEYWORD_OPTIONS]; if (b : bool) then optionsStatement else
  b ← match_ [KEYWORD_FLUSH]; if (b : bool) then marker RpixStmt "Expect ';' after flush." else
  b ← match_ [KEYWORD_AT]; if (b : bool) then atStatement else
  b ← match_ [KEYWORD_USE]; if (b : bool) then useStatement else
  b ← match_ [KEYWORD_DRAW]; if (b : bool) then drawStatement else
  plain_statement is_cached.

Definition statement_body : Parse Stmt :=
  import ← gets (check KEYWORD_IMPORT);
  source ← gets peek;
  _ ← guard_ import (error_at "Imports are allowed only at file scope, before declarations." source);
  statement_guard (
    alias ← gets (check KEYWORD_TYPE);
    _ ← guard_ alias (error_at "Type aliases are top-level declarations." source);
    attributed ← gets (check AT_SIGN);
    if (attributed : bool) then
      attributes ← parseAttributes;
      s ← statement;
      apply s attributes InStatement
    else
      is_cached ← match_ [KEYWORD_CACHE];
      keyword_statement is_cached).

End Statements.

Fixpoint statement_at (fuel : nat) (s : Parser) : result (Stmt * Parser) :=
  match fuel with O => Err out_of_fuel | S fuel => statement_body (statement_at fuel) s end.
Definition parse_statement : Parse Stmt := statement_at depth_fuel.

(* ------------------------------------------------------------------ *)
(** ** Programs *)

Definition parameter (_ : list Param) : Parse Param :=
  declared ← gets isAtStartOfDeclaration;
  source ← gets peek;
  _ ← guard_ (negb declared) (error_at "Parse Error: Expect type specifier for parameter." source);
  paramType ← parseType;
  source ← gets peek;
  _ ← lift (validateValueType paramType source "function parameter");
  paramName ← consume IDENTIFIER "Expect parameter name.";
  _ ← validateValueName paramName;
  mret (mkParam paramType paramName).

Definition functionDeclaration (is_cached : bool) (returnType : CType) (name : Token) : Parse Stmt :=
  none ← gets (check RPAREN);
  params ← (if (none : bool) then mret [] else comma_list parameter);
  _ ← consume RPAREN "Expect ')' after parameters.";
  prototype ← match_ [SEMICOLON];
  if (prototype : bool) then
    _ ← guard_ is_cached (error_at "'cache' cannot be applied to a function prototype." name);
    mret (FunctionDeclStmt (at_token name) false true returnType params [])
  else
    body ← parse_statement;
    match body with
    | BlockStmt _ statements => mret (FunctionDeclStmt (at_token name) is_cached false returnType params statements)
    | _ => fail (error_at "Function body must be a block statement { ... }." name)
    end.

Definition is_prototype (s : Stmt) : bool := match s with FunctionDeclStmt _ _ p _ _ _ => p | _ => false end.

(** A declaration of storage or of a function, behind its attributes: the flags
    are [constexpr], [internal], [export] and [extern]. *)
Definition linked_declaration (attributes : list Attribute) (constant internal exported external_declaration : bool) : Parse Stmt :=
  let apply_linkage (d : Stmt) := apply (set_linkage (if internal then Internal else External) d) attributes TopLevel in
  is_cached ← match_ [KEYWORD_CACHE];
  structure ← gets (λ s, is_tok (tok_type (peek s)) KEYWORD_STRUCT && ahead 2 s LBRACE);
  source ← gets peek;
  if (structure : bool) then
    _ ← guard_ (internal || exported || external_declaration) (error_at "Struct definitions do not have linkage." source);
    d ← structDeclaration;
    apply d attributes TopLevel
  else
    type ← parseType;
    let type := if constant then set_quals true (is_volatile type) type else type in
    name ← consume IDENTIFIER "Expect identifier after type.";
    _ ← validateValueName name;
    function ← gets (check LPAREN);
    _ ← guard_ (constant && function) (error_at "constexpr declares a scalar constant, not a function." name);
    if bool_decide (space type = SpaceRom) && (pointer_level type =? 0) && negb function then
      _ ← guard_ is_cached (error_at "'cache' cannot be applied to ROM data." name);
      _ ← lift (validateValueType type name "ROM data");
      _ ← guard_ external_declaration (error_at "External ROM declarations are not supported yet." name);
      d ← romConstDeclaration type name;
      apply_linkage d
    else if negb function then
      _ ← guard_ is_cached (error_at "'cache' cannot be applied to global storage." name);
      d ← varDeclaration type name;
      apply_linkage (var_stmt name true external_declaration constant d)
    else
      _ ← consume LPAREN "Expect '(' to begin function declaration.";
      d ← functionDeclaration is_cached type name;
      _ ← guard_ (external_declaration && negb (is_prototype d))
            (error_at "An extern function declaration cannot have a body." name);
      apply_linkage d.

Definition globalDeclaration : Parse Stmt :=
  attributes ← parseAttributes;
  b ← match_ [KEYWORD_BITMAP];
  if (b : bool) then d ← bitmapDeclaration; apply d attributes TopLevel else
  import ← gets (check KEYWORD_IMPORT);
  source ← gets peek;
  _ ← guard_ import (error_at "Imports must precede declarations." source);
  b ← match_ [KEYWORD_TYPE];
  if (b : bool) then
    config ← gets m_config;
    enabled ← lift (configurationEnabled config attributes);
    d ← typeAliasDeclaration enabled;
    apply d attributes TopLevel
  else
  b ← match_ [KEYWORD_STATIC_ASSERT];
  if (b : bool) then d ← staticAssertion; apply d attributes TopLevel else
  enum ← gets (λ s, check KEYWORD_ENUM s && (ahead 2 s LBRACE || ahead 2 s COLON));
  if (enum : bool) then d ← enumDeclaration; apply d attributes TopLevel else
  constant ← match_ [KEYWORD_CONSTEXPR];
  internal ← match_ [KEYWORD_INTERNAL];
  exported ← (if internal then mret false else match_ [KEYWORD_EXPORT]);
  external_declaration ← match_ [KEYWORD_EXTERN];
  source ← gets peek;
  _ ← guard_ (internal && external_declaration) (error_at "'internal' and 'extern' cannot be combined." source);
  linked_declaration attributes constant internal exported external_declaration.

(** ** The preamble *)

(** The tokens behind balanced parentheses. *)
Fixpoint skip_arguments (depth : nat) (l : list Token) : option (list Token) :=
  match depth with
  | O => Some l
  | S d =>
      match l with
      | [] => None
      | t :: l =>
          match tok_type t with
          | END_OF_FILE => None
          | LPAREN => skip_arguments (S (S d)) l
          | RPAREN => skip_arguments d l
          | _ => skip_arguments (S d) l
          end
      end
  end.

(** An [import] behind the attributes that start [l]; a round reads one token at
    least. *)
Fixpoint import_behind (fuel : nat) (l : list Token) : bool :=
  match fuel, l with
  | S fuel, t :: l' =>
      if is_tok (tok_type t) AT_SIGN then
        match l' with
        | name :: l' =>
            if is_tok (tok_type name) IDENTIFIER || is_tok (tok_type name) KEYWORD_CACHE then
              match l' with
              | p :: l'' =>
                  if is_tok (tok_type p) LPAREN
                  then match skip_arguments 1 l'' with Some l => import_behind fuel l | None => false end
                  else import_behind fuel l'
              | [] => false
              end
            else false
        | [] => false
        end
      else is_tok (tok_type t) KEYWORD_IMPORT
  | _, _ => false
  end.
Definition preambleImportAhead (s : Parser) : bool :=
  let l := drop (m_current s) m_tokens in import_behind (S (length l)) l.

(** [path.substr(path.find_last_of('.'))] *)
Fixpoint from_last_dot (l : list Z) : option (list Z) :=
  match l with
  | [] => None
  | c :: l' => match from_last_dot l' with Some r => Some r | None => if c =? 46 then Some l else None end
  end.

Definition check_import_path (path : Token) : result unit :=
  let l := bytes_of_string (lexeme path) in
  throw_if (4096 <? zlen l) (error_at "Import path exceeds 4096 bytes." path);;
  throw_if (bool_decide (l = []) || (front (lexeme path) =? 47) || (front (lexeme path) =? 92)
            || existsb (Z.eqb 58) l || existsb (λ c, (c <? 32) || (c =? 127)) l)
    (error_at "Imports require a relative .dc source or .dci interface path." path);;
  throw_if (negb (bool_decide (from_last_dot l = Some (bytes_of_string ".dc")))
            && negb (bool_decide (from_last_dot l = Some (bytes_of_string ".dci"))))
    (error_at "Imports require a .dc source or .dci interface path." path).

(** One import; the count and the enabled paths so far. *)
Definition import_round (x : Z * list Token) : Parse ((Z * list Token) + (Z * list Token)) :=
  let '(imports, paths) := x in
  more ← gets (λ s, negb (isAtEnd s) && preambleImportAhead s);
  if (more : bool) then
    attributes ← parseAttributes;
    _ ← consume KEYWORD_IMPORT "Expect import after attributes.";
    _ ← match List.find (λ a, negb (String.eqb (lexeme (a_name a)) "cfg")) attributes with
        | Some a => fail (error_at "Only @cfg is supported on imports." (a_name a))
        | None => mret tt
        end;
    config ← gets m_config;
    enabled ← lift (configurationEnabled config attributes);
    path ← consume LITERAL_STRING "Expect quoted .dc source or .dci interface path.";
    _ ← lift (check_import_path path);
    _ ← guard_ (128 <? imports + 1) (error_at "Import count exceeds 128." path);
    _ ← consume SEMICOLON "Expect ';' after import.";
    mret (inl (imports + 1, if (enabled : bool) then paths ++ [path] else paths))
  else mret (inr x).

Definition parsePreamble : Parse unit :=
  parsed ← gets m_preamble_parsed;
  if (parsed : bool) then mret tt else
  module ← match_ [KEYWORD_MODULE];
  previous_name ← gets m_module_name;
  name ← (if (module : bool) then
            t ← consume IDENTIFIER "Expect module name.";
            _ ← consume SEMICOLON "Expect ';' after module name.";
            mret (lexeme t)
          else mret previous_name);
  previous_imports ← gets m_imports;
  '(_, imports) ← loop rounds import_round (0, previous_imports);
  modify (with_preamble imports name).

Definition program_round (statements : list Stmt) : Parse (list Stmt + list Stmt) :=
  end_ ← gets isAtEnd;
  if (end_ : bool) then mret (inr statements) else
  source ← gets peek;
  _ ← guard_ (is_tok (tok_type source) KEYWORD_MODULE)
        (error_at "module must appear once before imports and declarations." source);
  _ ← guard_ (is_tok (tok_type source) KEYWORD_IMPORT) (error_at "Imports must precede declarations." source);
  _ ← guard_ (is_tok (tok_type source) KEYWORD_SET)
        (error_at "Source-level set configuration has been removed; use --memory-mapping, --execution-memory and --origin on discc (or --origin on discld)." source);
  declaration ← globalDeclaration;
  config ← gets m_config;
  enabled ← lift (configurationEnabled config (s_attributes (stmt_info declaration)));
  mret (inl (if (enabled : bool) then statements ++ [declaration] else statements)).

Definition parseProgram : Parse (list Stmt) :=
  _ ← parsePreamble;
  loop rounds program_round [].

End Tokens.
