(* ===== verification/ParseSpec.v ===== *)
(** * ParseSpec: rules for parsing functions

    [wp E p Q s]: run from [s], [p] returns a result and a state in [Q] or throws
    an error in [E].  One rule per combinator of [Parser]; [wp_step] applies the
    one that fits.  [Good] is the invariant of the parser, [after] what every
    function of it does to the state. *)

From S2P Require Import Prelude Target Types Token Literal Ast Parser.

Definition wp {A} (E : error → Prop) (p : Parse A) (Q : A → Parser → Prop) (s : Parser) : Prop :=
  match p s with Ok (a, s') => Q a s' | Err e => E e end.

(** The errors of the parser. *)
Definition compile_error (e : error) : Prop := ∃ m l c, e = CompileError m l c.
Lemma compile_error_intro m l c : compile_error (CompileError m l c).
Proof. by exists m, l, c. Qed.
Lemma compile_error_at m t : compile_error (error_at m t).
Proof. apply compile_error_intro. Qed.
#[export] Hint Resolve compile_error_intro compile_error_at : parse.

Section Rules.
Context {E : error → Prop}.
Notation wp := (wp E).

Lemma wp_mono {A} (p : Parse A) (P Q : A → Parser → Prop) s : wp p P s → (∀ a s', P a s' → Q a s') → wp p Q s.
Proof. unfold ParseSpec.wp. destruct (p s) as [[a s']|e]; naive_solver. Qed.
Lemma wp_ret {A} (a : A) Q s : Q a s → wp (mret a) Q s.
Proof. done. Qed.
Lemma wp_bind {A B} (p : Parse A) (f : A → Parse B) Q s : wp p (λ a s', wp (f a) Q s') s → wp (p ≫= f) Q s.
Proof. unfold ParseSpec.wp, mbind, Parse_bind. cbn. by destruct (p s) as [[a s']|e]. Qed.
Lemma wp_fmap {A B} (f : A → B) (p : Parse A) Q s : wp p (λ a s', Q (f a) s') s → wp (f <$> p) Q s.
Proof. unfold ParseSpec.wp, fmap, Parse_fmap. cbn. by destruct (p s) as [[a s']|e]. Qed.
Lemma wp_fail {A} e (Q : A → Parser → Prop) s : E e → wp (fail e) Q s.
Proof. done. Qed.
Lemma wp_gets {A} (f : Parser → A) Q s : Q (f s) s → wp (gets f) Q s.
Proof. done. Qed.
Lemma wp_modify f Q s : Q tt (f s) → wp (modify f) Q s.
Proof. done. Qed.
Lemma wp_lift {A} (r : result A) Q s :
  (∀ a, r = Ok a → Q a s) → (∀ e, r = Err e → E e) → wp (lift r) Q s.
Proof. unfold ParseSpec.wp, lift. destruct r; cbn; auto. Qed.
Lemma wp_guard b e Q s : (b = true → E e) → (b = false → Q tt s) → wp (guard_ b e) Q s.
Proof. intros Ht Hf. apply wp_lift; unfold throw_if; destruct b; naive_solver. Qed.

Lemma wp_let {A B} (p : A) (f : A → Parse B) Q s : wp (f p) Q s → wp (let x := p in f x) Q s.
Proof. done. Qed.

(** A loop whose rounds that go on lower a measure. *)
Lemma wp_loop {A B} (body : A → Parse (A + B)) (m : Parser → nat) (I : A → Parser → Prop) (Q : B → Parser → Prop) fuel :
  ∀ a s, (m s < fuel)%nat → I a s →
  (∀ a s, I a s → wp (body a) (λ r s', match r with inl a => I a s' ∧ (m s' < m s)%nat | inr b => Q b s' end) s) →
  wp (loop fuel body a) Q s.
Proof.
  induction fuel as [|fuel IH]; intros a s Hm Ha Hbody; [lia|].
  cbn [loop]. apply wp_bind. eapply wp_mono; [by apply Hbody|].
  intros [a'|b] s'; [intros [Ha' Hlt]; apply IH; [lia|done..]|apply wp_ret].
Qed.
End Rules.

(** Applies the rule of the outermost combinator. *)
Ltac wp_step :=
  lazymatch goal with
  | |- wp _ (mret _) _ _ => apply wp_ret
  | |- wp _ (_ ≫= _) _ _ => apply wp_bind
  | |- wp _ (_ <$> _) _ _ => apply wp_fmap
  | |- wp _ (gets _) _ _ => apply wp_gets
  | |- wp _ (fail _) _ _ => apply wp_fail
  | |- wp _ (guard_ _ _) _ _ => apply wp_guard; [intros _|intros ?]
  | |- wp _ (lift _) _ _ => apply wp_lift; [intros ? ?|intros ? ?]
  | |- wp _ (match ?b with true => _ | false => _ end) _ _ => let H := fresh "Hif" in destruct b eqn:H
  end; cbv beta zeta.

(* ------------------------------------------------------------------ *)
(** ** The invariant *)

(** The layers of a type are consistent and few. *)
Definition layered (t : CType) : Prop :=
  0 ≤ pointer_level t ≤ MaxPointerDepth ∧ zlen (pointer_reach t) = pointer_level t
  ∧ zlen (pointee_qualifiers t) = pointer_level t
  ∧ (pointer_spaces t = [] ∨ zlen (pointer_spaces t) = pointer_level t).

Definition aliases_layered (a : gmap string TypeAliasBinding) : Prop :=
  ∀ name b, a !! name = Some b → layered (alias_type b).

Section Tokens.
Context (m_tokens : list Token).
Notation peek := (peek m_tokens).
Notation isAtEnd := (isAtEnd m_tokens).
Notation check := (check m_tokens).

Record Good (s : Parser) : Prop := {
  good_current : (m_current s ≤ length m_tokens)%nat;
  good_expression : 0 ≤ m_expression_depth s ≤ 128;
  good_statement : 0 ≤ m_statement_depth s ≤ 128;
  good_aliases : aliases_layered (m_type_aliases s)
}.

(** [s'] is [s] with [k] or more tokens read. *)
Record after (k : nat) (s s' : Parser) : Prop := {
  after_good : Good s → Good s';
  after_current : (m_current s + k ≤ m_current s')%nat;
  after_expression : m_expression_depth s' = m_expression_depth s;
  after_statement : m_statement_depth s' = m_statement_depth s;
  after_config : m_config s' = m_config s
}.

Lemma after_refl s : after 0 s s.
Proof. split; try done; lia. Qed.
Lemma after_trans j k s s' s'' : after j s s' → after k s' s'' → after (j + k) s s''.
Proof. intros [] []. split; [auto|lia|congruence..]. Qed.
Lemma after_weaken j k s s' : (k ≤ j)%nat → after j s s' → after k s s'.
Proof. intros ? []. split; auto; lia. Qed.

Lemma at_end_type s : isAtEnd s = true → tok_type (peek s) = END_OF_FILE.
Proof.
  unfold Parser.isAtEnd, Parser.peek, token_at. destruct (m_tokens !! m_current s); cbn; [|done].
  apply bool_decide_eq_true_1.
Qed.
Lemma not_at_end s : isAtEnd s = false → (m_current s < length m_tokens)%nat.
Proof. unfold Parser.isAtEnd. destruct (m_tokens !! m_current s) eqn:H; [|done]. intros _. by eapply lookup_lt_Some. Qed.

Lemma at_position_after s : isAtEnd s = false → after 1 s (at_position (S (m_current s)) s).
Proof. intros H%not_at_end. split; cbn; try done; [|lia]. intros []. split; cbn; try done; lia. Qed.

(** Reading one token. *)
Lemma check_spec t s : check t s = true → isAtEnd s = false ∧ tok_type (peek s) = t.
Proof. unfold Parser.check. intros [Ha Hb]%andb_true_iff. apply negb_true_iff in Ha. by apply bool_decide_eq_true in Hb. Qed.

Section Errors.
Context {E : error → Prop}.
Notation wp := (wp E).

Lemma wp_advance Q s :
  (isAtEnd s = true → Q (previous m_tokens s) s) →
  (isAtEnd s = false → let s' := at_position (S (m_current s)) s in after 1 s s' → Q (previous m_tokens s') s') →
  wp (advance m_tokens) Q s.
Proof.
  intros Ht Hf. unfold ParseSpec.wp, advance. destruct (isAtEnd s) eqn:H; [by apply Ht|].
  apply Hf; [done|]. by apply at_position_after.
Qed.

(** Where the next token is known not to be the last. *)
Lemma wp_advance_next Q s :
  tok_type (peek s) ≠ END_OF_FILE → (∀ t s', after 1 s s' → Q t s') → wp (advance m_tokens) Q s.
Proof. intros Hne HQ. apply wp_advance; [intros ?%at_end_type; done|]. intros _ s' H. by apply HQ. Qed.

Lemma wp_advance_any Q s : (∀ t s', after 0 s s' → Q t s') → wp (advance m_tokens) Q s.
Proof.
  intros HQ. apply wp_advance; intros; apply HQ; [apply after_refl|]. by eapply after_weaken; [|eassumption]; lia.
Qed.

Lemma wp_match types Q s :
  Q false s → (∀ s', after 1 s s' → Q true s') → wp (match_ m_tokens types) Q s.
Proof.
  intros Hf Ht. induction types as [|t types IH]; cbn [match_]; [by apply wp_ret|].
  wp_step. wp_step. wp_step; [|apply IH]. apply check_spec in Hif as [He _].
  wp_step. apply wp_advance; [congruence|]. intros _ s' Ha. apply wp_ret. by apply Ht.
Qed.

Lemma wp_consume t m Q s :
  (∀ l c, E (CompileError m l c)) → (∀ x s', after 1 s s' → Q x s') → wp (consume m_tokens t m) Q s.
Proof.
  intros HE HQ. unfold ParseSpec.wp, consume. destruct (check t s) eqn:H; [|apply HE].
  apply check_spec in H as [H _]. unfold advance. rewrite H. apply HQ. by apply at_position_after.
Qed.

(** A loop of the parser: every round that goes on reads a token. *)
Lemma wp_rounds {A B} (body : A → Parse (A + B)) (I : A → Parser → Prop) (Q : B → Parser → Prop) a s :
  I a s →
  (∀ a s, I a s → Good s ∧ wp (body a) (λ r s', match r with inl a => I a s' ∧ (m_current s < m_current s')%nat ∧ Good s' | inr b => Q b s' end) s) →
  wp (loop (rounds m_tokens) body a) Q s.
Proof.
  intros Ha Hbody. apply (wp_loop body (λ s, length m_tokens - m_current s)%nat I Q); [unfold rounds; lia|done|].
  intros a' s' Ha'. destruct (Hbody _ _ Ha') as [HG H]. eapply wp_mono; [exact H|].
  intros [a''|b] s''; [|done]. intros (? & ? & HG'). split; [done|]. pose proof (good_current _ HG'). lia.
Qed.
End Errors.
End Tokens.
