(* ===== verification/ParseSafe.v ===== *)
(** * ParseSafe: the parser ends and fails only with compile errors

    Every function of the parser, run in a good state, returns in a good state
    with the tokens it read behind it, or throws a [CompilerError]: no loop runs
    out of rounds, no recursion out of depth, no vector access or type
    operation fails.  The trees it returns are at most [MaxDepth] deep. *)

From S2P Require Import Prelude Target Types Token Literal Ast Parser ParserDecl ParseSpec.

(** [p] is safe where the depth counters are at least [le] and [ls]: it reads at
    least [k] tokens and its result is in [R]. *)
Definition safe (m_tokens : list Token) (le ls : Z) (k : nat) {A} (R : A → Prop) (p : Parse A) : Prop :=
  ∀ s, Good m_tokens s → le ≤ m_expression_depth s → ls ≤ m_statement_depth s →
  wp compile_error p (λ a s', R a ∧ after m_tokens k s s') s.

Lemma safe_weaken m_tokens le ls j k {A} (R R' : A → Prop) p :
  safe m_tokens le ls j R p → (k ≤ j)%nat → (∀ a, R a → R' a) → safe m_tokens le ls k R' p.
Proof.
  intros Hp Hk HR s G Hle Hls. eapply wp_mono; [by apply Hp|]. intros a s' [Ha Hs]. split; [auto|]. by eapply after_weaken.
Qed.

(** Extends the one [after] of the context by a step. *)
Ltac merge H :=
  lazymatch type of H with
  | after ?T ?j ?s ?s' =>
      match goal with
      | A : after T ?k ?s0 s |- _ => tryif constr_eq A H then fail else (apply (after_trans T _ _ _ _ _ A) in H; clear A)
      end
  end.
Ltac enter :=
  let s := fresh "s" in let G := fresh "G" in let Hle := fresh "Hle" in let Hls := fresh "Hls" in intros s G Hle Hls;
  lazymatch type of G with Good ?T _ => pose proof (after_refl T s) end.

(** The state the goal runs in is good, and its depths are those of the start. *)
Ltac good_now :=
  lazymatch goal with
  | A : after ?T _ ?s0 ?s |- Good ?T ?s => by apply (after_good _ _ _ _ A)
  | A : after ?T _ ?s0 ?s |- _ ≤ m_expression_depth ?s => pose proof (after_expression _ _ _ _ A); lia
  | A : after ?T _ ?s0 ?s |- _ ≤ m_statement_depth ?s => pose proof (after_statement _ _ _ _ A); lia
  end.
Ltac call L :=
  eapply wp_mono; [eapply L; try good_now|
    let a := fresh "a" in let s := fresh "s" in let Ha := fresh "Ha" in let H := fresh "H" in
    intros a s [Ha H]; merge H].
Ltac moved := lazymatch goal with A : after ?T _ ?s0 ?s |- after ?T _ ?s0 ?s => eapply after_weaken; [|exact A]; lia end.

Ltac parse_step :=
  cbv beta iota zeta;
  lazymatch goal with
  | |- wp _ (match_ _ _) _ _ => apply wp_match; [|let s := fresh "s" in let H := fresh "H" in intros s H; merge H]
  | |- wp _ (consume _ _ _) _ _ =>
      apply wp_consume; [intros; apply compile_error_intro|
        let t := fresh "t" in let s := fresh "s" in let H := fresh "H" in intros t s H; merge H]
  | |- wp _ (let '(_, _) := ?x in _) _ _ => let a := fresh "a" in let b := fresh "b" in destruct x as [a b]
  | |- compile_error _ => solve [auto with parse]
  | |- wp _ _ _ _ => wp_step
  end.
Ltac parse := repeat parse_step.
Ltac parsed := split; [try done|moved].

Section Safe.
Context (m_tokens : list Token).
Notation safe := (safe m_tokens).
Notation Good := (Good m_tokens).
Notation after := (after m_tokens).

Lemma safe_loop {A B} le ls (R : A → Prop) (R' : B → Prop) (body : A → Parse (A + B)) a :
  (∀ a, R a → ∀ s, Good s → le ≤ m_expression_depth s → ls ≤ m_statement_depth s →
     wp compile_error (body a) (λ r s', match r with inl a => R a ∧ after 1 s s' | inr b => R' b ∧ after 0 s s' end) s) →
  R a → safe le ls 0 R' (loop (rounds m_tokens) body a).
Proof.
  intros Hbody Ha s G Hle Hls. apply (wp_rounds m_tokens body (λ a s', R a ∧ after 0 s s')).
  - split; [done|apply after_refl].
  - intros a' s' [Ha' Hs']. split; [good_now|]. eapply wp_mono; [apply Hbody; [done|good_now..]|].
    intros [a''|b] s''; intros [HR H]; pose proof H as H1; apply (after_trans _ _ _ _ _ _ Hs') in H.
    + split_and!; [done|by eapply after_weaken; [|exact H]; lia| |].
      * pose proof (after_current _ _ _ _ H1). lia.
      * by apply (after_good _ _ _ _ H).
    + split; [done|]. by eapply after_weaken; [|exact H]; lia.
Qed.


(* ------------------------------------------------------------------ *)
(** ** Types *)

Lemma layered_base b st en t : layered t → layered (set_base b st en t).
Proof. done. Qed.
Lemma layered_unsigned t : layered t → layered (set_unsigned t).
Proof. done. Qed.
Lemma layered_space sp t : layered t → layered (set_space sp t).
Proof. done. Qed.
Lemma layered_quals c v t : layered t → layered (set_quals c v t).
Proof. done. Qed.
Lemma layered_spaced (b : bool) sp t : layered t → layered (if b then set_space sp t else t).
Proof. by destruct b. Qed.
Lemma layered_default : layered default_type.
Proof. split_and!; cbn; try done; by left. Qed.
Hint Resolve layered_base layered_unsigned layered_space layered_quals layered_default : parse.

Lemma safe_comma_list {A} le ls (R : A → Prop) (item : list A → Parse A) :
  (∀ l, safe le ls 1 R (item l)) → safe le ls 0 (Forall R) (comma_list m_tokens item).
Proof.
  intros Hitem. apply (safe_loop le ls (Forall R) (Forall R)); [|done]. intros l Hl. enter. parse. call Hitem.
  parse; (split; [|moved]); apply Forall_app; auto.
Qed.

Lemma safe_until {A} le ls (R : A → Prop) t (round : A → Parse (A + A)) a :
  (∀ a, R a → ∀ s, Good s → le ≤ m_expression_depth s → ls ≤ m_statement_depth s →
     wp compile_error (round a) (λ r s', match r with inl a => R a ∧ after 1 s s' | inr b => R b ∧ after 0 s s' end) s) →
  R a → safe le ls 0 R (until m_tokens t round a).
Proof.
  intros Hround. apply (safe_loop le ls R R). intros a' Ha'. enter. parse; [parsed|]. apply Hround; [done|good_now..].
Qed.

Lemma safe_alias_specifier le ls type : layered type → ∀ s, Good s → le ≤ m_expression_depth s → ls ≤ m_statement_depth s →
  tok_type (peek m_tokens s) ≠ END_OF_FILE →
  wp compile_error (alias_specifier m_tokens type) (λ t s', layered t ∧ after 1 s s') s.
Proof.
  intros Ht. enter. intros Hne. unfold alias_specifier. parse. apply wp_advance_next; [done|]. intros t s' H'. merge H'. parse.
  destruct (m_type_aliases s' !! lexeme t) as [b|] eqn:Hb; parse.
  assert (layered (alias_type b)) by (eapply (good_aliases m_tokens s'); [good_now|exact Hb]).
  destruct (negb _); parsed; auto with parse.
Qed.

Definition specified (x : Specifiers) : Prop := layered (sp_type x).

Lemma safe_type_specifier le ls x : specified x → ∀ s, Good s → le ≤ m_expression_depth s → ls ≤ m_statement_depth s →
  wp compile_error (type_specifier m_tokens x)
    (λ r s', match r with inl y => specified y ∧ after 1 s s' | inr y => specified y ∧ after 0 s s' end) s.
Proof.
  intros Hx. enter. unfold specified in *. unfold type_specifier. parse.
  destruct (tok_type (peek m_tokens s)) eqn:Ht; parse; try parsed;
    try (apply wp_advance_next; [congruence|]; intros t s' H'; merge H'; parse; parsed);
    try (apply safe_alias_specifier with (le := le) (ls := ls); [done|good_now|good_now|good_now|congruence]).
Qed.

Lemma safe_layer_qualifier le ls q : ∀ s, Good s → le ≤ m_expression_depth s → ls ≤ m_statement_depth s →
  wp compile_error (layer_qualifier m_tokens q)
    (λ r s', match r with inl _ => True ∧ after 1 s s' | inr _ => True ∧ after 0 s s' end) s.
Proof.
  destruct q as [[reach c] v]. enter. unfold layer_qualifier. destruct reach, c, v; parse; parsed.
Qed.

Lemma safe_pointer_layer le ls type : layered type → ∀ s, Good s → le ≤ m_expression_depth s → ls ≤ m_statement_depth s →
  wp compile_error (pointer_layer m_tokens type)
    (λ r s', match r with inl t => layered t ∧ after 1 s s' | inr t => layered t ∧ after 0 s s' end) s.
Proof.
  intros Ht. enter. unfold pointer_layer. parse; [parsed|].
  call (safe_loop le ls (λ _, True) (λ _, True) (layer_qualifier m_tokens)); [|done|].
  { intros q _. apply safe_layer_qualifier. }
  parse. split; [|moved]. destruct Ht as (Hl & Hr & Hq & Hs). bool_facts. unfold layered, MaxPointerDepth, zlen in *. cbn.
  rewrite !length_app. cbn [length]. split_and!; [lia..|].
  case_bool_decide; [by left|right]. destruct Hs; [done|]. rewrite length_app. cbn [length]. lia.
Qed.

Lemma normalize_layered t t' : layered t → normalizePointerLayers t = Ok t' → layered t'.
Proof.
  intros (Hl & Hr & Hq & Hs) Hn. unfold normalizePointerLayers in Hn. destruct (negb (layers_ok t)); [done|].
  destruct (pointer_level t =? 0) eqn:Hz; bool_facts; apply Ok_inj in Hn; subst t'; cbn.
  - split_and!; cbn; unfold MaxPointerDepth; try done; by left.
  - unfold layered, filled_reach, filled_spaces, filled_qualifiers, zlen in *. cbn.
    split_and!; [lia..| | |right]; case_bool_decide; try done; rewrite ?length_insert, ?length_replicate; try lia.
    by destruct Hs.
Qed.
Lemma normalize_total t : layered t → ∃ t', normalizePointerLayers t = Ok t'.
Proof.
  intros (Hl & Hr & Hq & Hs). unfold normalizePointerLayers.
  assert (layers_ok t = true) as ->; [|destruct (_ =? 0); eauto].
  unfold layers_ok. unfold MaxAddressPointerDepth, MaxPointerDepth in *. rewrite !andb_true_iff, !orb_true_iff, !bool_decide_eq_true, !Z.eqb_eq.
  split_and!; auto; lia.
Qed.

Lemma layered_far t : 0 < pointer_level t → layered t → layered (far_reach t).
Proof.
  intros Hp (Hl & Hr & Hq & Hs). split_and!; try done; cbn; [lia..|]. unfold zlen in *. rewrite length_app. cbn [length].
  rewrite removelast_firstn_len, length_firstn. lia.
Qed.

Lemma safe_parseType le ls : safe le ls 0 layered (parseType m_tokens).
Proof.
  enter. unfold parseType. parse.
  call (safe_loop le ls specified specified (type_specifier m_tokens)); [apply safe_type_specifier|apply layered_default|].
  parse. call (safe_loop le ls layered layered (pointer_layer m_tokens)); [apply safe_pointer_layer|by apply layered_spaced|].
  assert (0 < pointer_level a0 → layered (if sp_far a then far_reach a0 else a0)) as Hfar.
  { intros ?. destruct (sp_far a); [by apply layered_far|done]. }
  parse; [..|parsed]; bool_facts; specialize (Hfar Hif).
  - split; [by eapply normalize_layered|moved].
  - destruct (normalize_total _ Hfar) as [? ?]. congruence.
Qed.

(* ------------------------------------------------------------------ *)
(** ** Expressions *)

Definition shallow (e : Expr) : Prop := depth e ≤ MaxDepth.

Lemma node_shallow e e' : node e = Ok e' → e' = e ∧ shallow e.
Proof. unfold node. intros H. inv_result. bool_facts. done. Qed.
Lemma node_error e x : node e = Err x → compile_error x.
Proof. unfold node, throw_if. destruct (_ <? _); cbn; [|done]. intros [= <-]. auto with parse. Qed.

Lemma wp_node e Q s : (shallow e → Q e s) → wp compile_error (lift (node e)) Q s.
Proof. intros HQ. apply wp_lift; [intros e' He; destruct (node_shallow _ _ He) as [-> ?]; auto|apply node_error]. Qed.

Ltac expr_step :=
  lazymatch goal with
  | |- wp _ (lift (node _)) _ _ => apply wp_node; intros ?
  | _ => parse_step
  end.
Ltac exprs := repeat (cbv beta iota zeta; expr_step).

Section Expressions.
Context (le ls : Z) (assignment unary : Parse Expr).
Context (Hassign : safe le ls 1 shallow assignment) (Hunary : safe le ls 1 shallow unary).

Lemma safe_initializer_list : safe le ls 0 shallow (initializer_list m_tokens assignment).
Proof.
  enter. unfold initializer_list, expression. exprs.
  call (safe_until le ls (λ _ : list Expr, True)); [|done|].
  - intros l _. enter. exprs. call Hassign. exprs; parsed.
  - exprs. parsed.
Qed.

Lemma safe_layout_query : safe le ls 0 shallow (layout_query m_tokens assignment).
Proof.
  enter. unfold layout_query, expression. exprs.
  - call (safe_parseType le ls). exprs; parsed.
  - call Hassign. exprs; parsed.
Qed.

Lemma safe_read_pixel : safe le ls 0 shallow (read_pixel m_tokens assignment).
Proof.
  enter. unfold read_pixel, expression. exprs; [parsed|]. call Hassign. exprs. call Hassign. exprs. parsed.
Qed.

Lemma safe_cursor_access : safe le ls 0 shallow (cursor_access m_tokens).
Proof. enter. unfold cursor_access. exprs. parsed. Qed.

Lemma safe_parenthesized : safe le ls 0 shallow (parenthesized m_tokens assignment unary).
Proof.
  enter. unfold parenthesized, expression. exprs.
  - call (safe_parseType le ls). exprs. call Hunary. exprs. parsed.
  - call Hassign. exprs. parsed.
Qed.

(** Runs the part of [primary] behind a token. *)
Ltac part L := call L; exprs; parsed.

Lemma safe_primary : safe le ls 1 shallow (primary m_tokens assignment unary).
Proof.
  enter. unfold primary. exprs; try parsed.
  all: eapply wp_mono; [first [apply safe_initializer_list|apply safe_layout_query|apply safe_read_pixel|apply safe_cursor_access
                              |apply safe_parenthesized]; good_now|].
  all: intros a s' [Ha Hs']; merge Hs'; parsed.
Qed.

Lemma safe_postfix_round e : ∀ s, Good s → le ≤ m_expression_depth s → ls ≤ m_statement_depth s →
  wp compile_error (postfix_round m_tokens assignment e)
    (λ r s', match r with inl e' => shallow e' ∧ after 1 s s' | inr e' => (shallow e → shallow e') ∧ after 0 s s' end) s.
Proof.
  enter. unfold postfix_round, expression. exprs; try (split; [auto|moved]).
  - call Hassign. exprs. parsed.
  - call (safe_comma_list le ls shallow (λ _, assignment)); [done|]. exprs. parsed.
Qed.

Lemma safe_postfix : safe le ls 1 shallow (postfix m_tokens assignment unary).
Proof.
  enter. unfold postfix. exprs. call safe_primary.
  call (safe_loop le ls shallow shallow (postfix_round m_tokens assignment)); [|done|parsed].
  intros e He. enter. eapply wp_mono; [apply safe_postfix_round; good_now|]. intros [e'|e'] s' [He' Hs']; naive_solver.
Qed.

Lemma safe_binaryLeft k operand operators : (1 ≤ k)%nat →
  safe le ls k shallow operand → safe le ls k shallow (binaryLeft m_tokens operand operators).
Proof.
  intros Hk Hop. enter. unfold binaryLeft. exprs. call Hop.
  call (safe_loop le ls shallow shallow (binary_round m_tokens operand operators)); [|done|parsed].
  intros e He. enter. unfold binary_round. exprs; [parsed|]. call Hop. exprs. parsed.
Qed.

Lemma safe_logicalOr : safe le ls 1 shallow (logicalOr m_tokens unary).
Proof. repeat (apply safe_binaryLeft; [lia|]). done. Qed.

End Expressions.

(** Behind a depth guard the counter is one higher. *)
Lemma safe_expression_guard le ls k {A} (R : A → Prop) p :
  safe (le + 1) ls k R p → safe le ls k R (expression_guard m_tokens p).
Proof.
  intros Hp s G Hle Hls. unfold wp, expression_guard, throw_if. destruct (128 <=? m_expression_depth s) eqn:Hd; [apply compile_error_at|].
  bool_facts. pose proof G as [? ? ? ?].
  assert (Good (with_expression_depth (m_expression_depth s + 1) s)) as G1 by (split; cbn; try done; lia).
  specialize (Hp _ G1 ltac:(cbn; lia) Hls). unfold wp in Hp. cbn.
  destruct (p _) as [[x s']|e]; [|done]. destruct Hp as [Hx [Hgood Hcur He Hs Hc]]. cbn in *. split; [done|].
  destruct (Hgood G1). split; cbn; try done; try lia. intros _. split; cbn; try done; lia.
Qed.

Lemma safe_unary_body le ls assignment unary :
  safe (le + 1) ls 1 shallow assignment → safe (le + 1) ls 1 shallow unary → safe le ls 1 shallow (unary_body m_tokens assignment unary).
Proof.
  intros Ha Hu. apply safe_expression_guard. enter. exprs.
  - call (safe_postfix _ _ _ _ Ha Hu). parsed.
  - call Hu. exprs. parsed.
  - call Hu. exprs. parsed.
Qed.

Lemma safe_assignment_body le ls assignment unary :
  safe (le + 1) ls 1 shallow assignment → safe (le + 1) ls 1 shallow unary → safe le ls 1 shallow (assignment_body m_tokens assignment unary).
Proof.
  intros Ha Hu. apply safe_expression_guard. enter. exprs. call (safe_logicalOr _ _ _ Hu).
  exprs; [parsed|call Ha; exprs; parsed..].
Qed.

Lemma safe_levels ls fuel : ∀ le, 129 ≤ Z.of_nat fuel + le →
  safe le ls 1 shallow (assignment_at m_tokens fuel) ∧ safe le ls 1 shallow (unary_at m_tokens fuel).
Proof.
  induction fuel as [|fuel IH]; intros le Hf.
  - split; intros s G Hle; pose proof (good_expression _ _ G); lia.
  - destruct (IH (le + 1)) as [Ha Hu]; [lia|]. split; [by apply safe_assignment_body|by apply safe_unary_body].
Qed.

Lemma safe_expression ls : safe 0 ls 1 shallow (parse_expression m_tokens).
Proof. apply safe_levels. done. Qed.

End Safe.

(** Behind the combinators, the parts of a statement. *)
Ltac expr_step :=
  lazymatch goal with
  | |- wp _ (lift (node _)) _ _ => apply wp_node; intros ?
  | _ => parse_step
  end.
Ltac exprs := repeat (cbv beta iota zeta; expr_step).

(* ------------------------------------------------------------------ *)
(** ** The expressions of a statement *)

Definition attribute_exprs (l : list Attribute) : list Expr := flat_map a_arguments l.
Definition opt_list {A} (o : option A) : list A := match o with Some x => [x] | None => [] end.
Definition var_exprs (d : VarDecl) : list Expr := opt_list (v_initializer d) ++ opt_list (v_extent d).

Fixpoint stmt_exprs (s : Stmt) : list Expr :=
  attribute_exprs (s_attributes (stmt_info s)) ++
  match s with
  | StructDefStmt _ l => flat_map (λ m, opt_list (mb_extent m)) l
  | EnumDeclStmt _ _ l => flat_map (λ m, opt_list (en_value m)) l
  | StaticAssertStmt _ e | ExpressionStmt _ e | SetColorStmt _ e | CmodeStmt _ e | CaseStmt _ e => [e]
  | BlockStmt _ l | FunctionDeclStmt _ _ _ _ _ l => flat_map stmt_exprs l
  | IfStmt _ c t e => c :: stmt_exprs t ++ match e with Some e => stmt_exprs e | None => [] end
  | WhileStmt _ _ c b | SwitchStmt _ c b => c :: stmt_exprs b
  | ForStmt _ _ n c st b => match n with Some n => stmt_exprs n | None => [] end ++ c :: opt_list st ++ stmt_exprs b
  | ReturnStmt _ v => opt_list v
  | VarDeclStmt _ d => var_exprs d
  | PlotBlockStmt _ b => stmt_exprs b
  | ConstDataStmt _ _ _ x l => opt_list x ++ l
  | _ => []
  end.

Definition bounded (s : Stmt) : Prop := Forall shallow (stmt_exprs s).

Lemma bounded_list l : Forall bounded l → Forall shallow (flat_map stmt_exprs l).
Proof. induction 1; cbn; [done|]. apply Forall_app. done. Qed.

Ltac bounded :=
  unfold bounded in *; cbn in *;
  rewrite ?Forall_app in *; rewrite ?Forall_cons in *; rewrite ?Forall_app in *; intuition (auto using bounded_list).

Lemma info_bounded i s : Forall shallow (attribute_exprs (s_attributes i)) → bounded s → bounded (set_info i s).
Proof. intros Hi. unfold bounded. destruct s; cbn; rewrite !Forall_app; intuition. Qed.

Lemma cache_target_exprs s s' : cache_target s = Some s' → stmt_exprs s' = stmt_exprs s.
Proof.
  destruct s as [| | | | | |? l| | | | | | | | |? ? [] | | | | | | | | | |]; cbn; try done; try by intros [= <-].
  destruct l as [|a [|[] [|]]]; try done. by intros [= <-].
Qed.

Lemma apply_attribute_exprs config enabled site s a s' :
  apply_attribute config enabled site s a = Ok s' → stmt_exprs s' = stmt_exprs s.
Proof.
  unfold apply_attribute. intros H. repeat case_match; try done; inv_result; try done; try congruence.
  all: repeat case_match; inv_result; try done; by apply cache_target_exprs.
Qed.
Lemma apply_attribute_error config enabled site s a e : apply_attribute config enabled site s a = Err e → compile_error e.
Proof.
  unfold apply_attribute, throw_if, mbind, result_mbind, result_bind.
  intros H. repeat (case_match; simplify_eq); auto with parse.
Qed.

Lemma configurationEnabled_error config l e : configurationEnabled config l = Err e → compile_error e.
Proof. unfold configurationEnabled. repeat case_match; intros [= <-]; auto with parse. Qed.
#[export] Hint Resolve apply_attribute_error configurationEnabled_error : parse.

Lemma foldM_error {A S} (f : S → A → result S) (P : error → Prop) l : (∀ s x e, f s x = Err e → P e) →
  ∀ s e, foldM f s l = Err e → P e.
Proof.
  intros Hf. induction l as [|x l IH]; intros s e H; cbn in H; [done|]. unfold mbind, result_mbind, result_bind in H.
  destruct (f s x) eqn:Hx; [by eapply IH|]. injection H as <-. by eapply Hf.
Qed.

Lemma wp_applyAttributes config s l site Q st :
  bounded s → Forall shallow (attribute_exprs l) → (∀ s', bounded s' → Q s' st) →
  wp compile_error (lift (applyAttributes config s l site)) Q st.
Proof.
  intros Hs Hl HQ. apply wp_lift; unfold applyAttributes.
  - intros s' H. apply result_bind_ok in H as (b & Hb & H). apply result_bind_ok in H as (x & Hx & H). apply Ok_inj in H as <-.
    apply HQ, info_bounded; [done|]. unfold bounded in *. replace (stmt_exprs x) with (stmt_exprs s); [done|]. symmetry.
    eapply (foldM_inv (λ x, stmt_exprs x = stmt_exprs s)); [|done|exact Hx].
    intros y c y' _ Hy Hc. apply apply_attribute_exprs in Hc. congruence.
  - intros e H. unfold mbind, result_mbind, result_bind in H. destruct (configurationEnabled config l) eqn:Hc.
    + destruct (foldM _ s l) eqn:Hfold; [done|]. injection H as <-. eapply foldM_error; [|exact Hfold]. intros ???. apply apply_attribute_error.
    + injection H as <-. eauto with parse.
Qed.
