(* ===== verification/ParseDeclSafe.v ===== *)
(** * ParseDeclSafe: statements and programs are parsed safely

    The rest of [ParseSafe], for [ParserDecl], and the theorems: [parse_fails],
    [parse_bounded]. *)

From S2P Require Import Prelude Target Types Token Literal Ast Parser ParserDecl ParseSpec ParseSafe.

Lemma validateValueType_error type t c e : validateValueType type t c = Err e → compile_error e.
Proof. unfold validateValueType, throw_if, mbind, result_mbind, result_bind. intros H. repeat (case_match; simplify_eq); auto with parse. Qed.
Lemma parseIntegerLiteral_error t c e : parseIntegerLiteral t c = Err e → compile_error e.
Proof. unfold parseIntegerLiteral. intros H. repeat (case_match; simplify_eq); auto with parse. Qed.
#[local] Hint Resolve validateValueType_error parseIntegerLiteral_error : parse.

Lemma wp_validate_name name Q s : Q tt s → wp compile_error (validateValueName name) Q s.
Proof.
  intros HQ. unfold wp, validateValueName, throw_if. destruct (bool_decide _); [apply compile_error_at|done].
Qed.

(** One step of a function of [ParserDecl]. *)
Ltac decl_step ls :=
  lazymatch goal with
  | |- wp _ (parse_expression ?T) _ _ => call (safe_expression T ls)
  | |- wp _ (parseType ?T) _ _ => call (safe_parseType T 0 ls)
  | |- wp _ (validateValueName _) _ _ => apply wp_validate_name
  | |- compile_error _ => solve [eauto with parse]
  | _ => expr_step
  end.
Ltac decl_at ls := repeat (cbv beta iota zeta; decl_step ls).

Ltac closes := split; [|moved]; unfold bounded in *; cbn in *; rewrite ?app_nil_r in *; repeat first [rewrite Forall_app|rewrite Forall_cons]; rewrite ?Forall_nil; intuition auto.

Section Safe.
Context (m_tokens : list Token) (ls : Z).
Notation safe := (safe m_tokens 0 ls).
Notation Good := (Good m_tokens).
Notation after := (after m_tokens).
Notation expression := (parse_expression m_tokens).

Ltac decl := decl_at ls.
(** Reads a part with its lemma and goes on. *)
Ltac sub L := call L; decl.

Lemma safe_optional_value : safe 0 (λ o, Forall shallow (opt_list o)) (optional_value m_tokens).
Proof. enter. unfold optional_value. decl; closes. Qed.

Lemma safe_varDeclaration type name : safe 1 (λ d, Forall shallow (var_exprs d)) (varDeclaration m_tokens type name).
Proof.
  enter. unfold varDeclaration, var_exprs. decl; call safe_optional_value; decl; closes.
Qed.

Lemma safe_attribute_round l : Forall shallow (attribute_exprs l) → ∀ s, Good s → 0 ≤ m_expression_depth s → ls ≤ m_statement_depth s →
  wp compile_error (attribute_round m_tokens l)
    (λ r s', match r with inl l => Forall shallow (attribute_exprs l) ∧ after 1 s s' | inr l => Forall shallow (attribute_exprs l) ∧ after 0 s s' end) s.
Proof.
  intros Hl. enter. unfold attribute_round. decl; [parsed|]. apply wp_advance_any. intros t s' H'. merge H'. decl.
  - split; [|moved]. unfold attribute_exprs in *. rewrite flat_map_app. apply Forall_app. by rewrite Forall_nil.
  - split; [|moved]. unfold attribute_exprs in *. rewrite flat_map_app. apply Forall_app. by rewrite Forall_nil.
  - call (safe_comma_list m_tokens 0 ls shallow). { intros l'. enter. decl. parsed. }
    decl. split; [|moved]. unfold attribute_exprs in *. rewrite flat_map_app. apply Forall_app. split; [done|]. cbn. by rewrite app_nil_r.
Qed.

Definition attributes_ok (l : list Attribute) : Prop := Forall shallow (attribute_exprs l).
Lemma safe_parseAttributes : safe 0 attributes_ok (parseAttributes m_tokens).
Proof. apply (safe_loop m_tokens 0 ls attributes_ok attributes_ok (attribute_round m_tokens)); [apply safe_attribute_round|apply Forall_nil_2]. Qed.

Lemma safe_apply d l site : bounded d → attributes_ok l → safe 0 bounded (apply d l site).
Proof. intros Hd Hl. enter. unfold apply. apply wp_bind, wp_gets, wp_applyAttributes; [done..|]. intros d' Hd'. parsed. Qed.

Lemma after_alias name b s : layered (alias_type b) → after 0 s (with_aliases (<[name := b]> (m_type_aliases s)) s).
Proof.
  intros Hb. split; cbn; try done; [|lia]. intros [? ? ? Ha]. split; cbn; try done.
  intros n c. rewrite lookup_insert_Some. intros [[_ <-]|[_ Hc]]; [done|by eapply Ha].
Qed.

Lemma safe_typeAliasDeclaration enabled : safe 1 bounded (typeAliasDeclaration m_tokens enabled).
Proof.
  enter. unfold typeAliasDeclaration. decl; [|closes]. apply wp_modify. decl.
  pose proof (after_alias (lexeme t) (mkBinding a t) s3 Ha) as H'. merge H'. closes.
Qed.

Lemma safe_enumDeclaration : safe 1 bounded (enumDeclaration m_tokens).
Proof.
  enter. unfold enumDeclaration. decl.
  all: call (safe_until m_tokens 0 ls (λ l, Forall shallow (flat_map (λ m, opt_list (en_value m)) l))); [|done|decl; closes].
  all: intros l Hl; enter; decl; sub safe_optional_value; (split; [|moved]); rewrite flat_map_app, Forall_app; cbn; rewrite app_nil_r; auto.
Qed.

Lemma safe_staticAssertion : safe 1 bounded (staticAssertion m_tokens).
Proof. enter. unfold staticAssertion. decl. closes. Qed.

Lemma safe_structDeclaration : safe 1 bounded (structDeclaration m_tokens).
Proof.
  enter. unfold structDeclaration. decl.
  call (safe_until m_tokens 0 ls (λ l, Forall shallow (flat_map (λ m, opt_list (mb_extent m)) l))); [|done|decl; closes].
  intros l Hl; enter. unfold struct_member. decl; (split; [|moved]); rewrite flat_map_app, Forall_app; cbn; auto.
Qed.

Lemma shallow_number n t : shallow (number_at n t).
Proof. done. Qed.
Lemma shallow_string type t : Forall shallow (string_bytes type t).
Proof. apply Forall_app. split; [|by repeat constructor]. apply Forall_fmap, Forall_true. done. Qed.
Lemma shallow_literal t : shallow (LiteralExpr t).
Proof. done. Qed.
Hint Resolve shallow_number shallow_string shallow_literal : core.
Lemma safe_romConstDeclaration type name : safe 1 bounded (romConstDeclaration m_tokens type name).
Proof.
  enter. unfold romConstDeclaration. decl; try closes.
  all: try (call (safe_comma_list m_tokens 0 ls shallow); [intros l; enter; decl; parsed|decl; closes]).
Qed.

Lemma safe_bitmap_field x : ∀ s, Good s → 0 ≤ m_expression_depth s → ls ≤ m_statement_depth s →
  wp compile_error (bitmap_field m_tokens x)
    (λ r s', match r with inl _ => True ∧ after 1 s s' | inr _ => True ∧ after 0 s s' end) s.
Proof.
  enter. unfold bitmap_field. decl.
  - unfold bitmap_mode. decl. apply wp_advance_any. intros t' s' H'. merge H'. decl; parsed.
  - unfold bitmap_size. decl. destruct (if _ =? 256 then _ else _); decl; parsed.
  - unfold bitmap_depth. decl; parsed.
  - unfold bitmap_base. decl; parsed.
Qed.

Lemma safe_bitmapDeclaration : safe 1 bounded (bitmapDeclaration m_tokens).
Proof.
  enter. unfold bitmapDeclaration. decl.
  call (safe_until m_tokens 0 ls (λ _ : BitmapFields, True)); [|done|].
  - intros x _. apply safe_bitmap_field.
  - decl; destruct (Bitmap.validate _); decl; closes.
Qed.

Lemma cursor_write_ok y x t s : cursor_write y x t = Ok s → bounded s.
Proof.
  unfold cursor_write. intros H. apply result_bind_ok in H as (e & He & H). apply Ok_inj in H as <-.
  apply node_shallow in He as [-> ?]. by apply Forall_singleton.
Qed.
Lemma cursorWrites_ok x y t l : cursorWrites x y t = Ok l → Forall bounded l.
Proof.
  unfold cursorWrites. intros H. apply result_bind_ok in H as (a & Ha & H). apply result_bind_ok in H as (b & Hb & H).
  apply Ok_inj in H as <-. repeat constructor; by eapply cursor_write_ok.
Qed.
Lemma cursorWrites_error x y t e : cursorWrites x y t = Err e → compile_error e.
Proof.
  unfold cursorWrites, cursor_write, mbind, result_mbind, result_bind. intros H. repeat (case_match; simplify_eq); eauto using node_error.
Qed.
Hint Resolve cursorWrites_error : parse.

Lemma block_bounded l : Forall bounded l → bounded (block_stmt l).
Proof. intros H%bounded_list. done. Qed.

Lemma safe_drawStatement : safe 1 bounded (drawStatement m_tokens).
Proof.
  enter. unfold drawStatement. decl; (split; [|moved]); apply block_bounded; rewrite ?Forall_app, ?Forall_cons;
    split_and!; try done; try (by eapply cursorWrites_ok); by repeat constructor.
Qed.
Lemma safe_atStatement : safe 1 bounded (atStatement m_tokens).
Proof. enter. unfold atStatement. decl. split; [|moved]. apply block_bounded. by eapply cursorWrites_ok. Qed.

Lemma safe_optionsStatement : safe 1 bounded (optionsStatement m_tokens).
Proof.
  enter. unfold optionsStatement. decl.
  - closes.
  - call (safe_loop m_tokens 0 ls (λ _, True) (λ _, True) (option_round m_tokens)); [|done|decl; closes].
    intros [mask seen] _. enter. unfold option_round. decl. destruct (plot_option _ _); decl; parsed.
Qed.

(* ------------------------------------------------------------------ *)
(** ** Statements *)

Section Statements.
Context (statement : Parse Stmt) (Hstatement : safe 1 bounded statement).

Lemma safe_blockStatement : safe 1 bounded (blockStatement m_tokens statement).
Proof.
  enter. unfold blockStatement. decl. call (safe_until m_tokens 0 ls (Forall bounded)); [|done|].
  - intros l Hl. enter. decl. call Hstatement. decl. split; [|moved]. apply Forall_app; auto.
  - decl. split; [|moved]. by apply block_bounded.
Qed.

Lemma safe_plotStatement : safe 1 bounded (plotStatement m_tokens statement).
Proof. enter. unfold plotStatement. decl. sub safe_blockStatement. closes. Qed.

Lemma safe_ifStatement : safe 1 bounded (ifStatement m_tokens statement).
Proof. enter. unfold ifStatement. decl. sub Hstatement; [closes|]. sub Hstatement. closes. Qed.

Lemma safe_whileStatement c : safe 1 bounded (whileStatement m_tokens statement c).
Proof. enter. unfold whileStatement. decl. sub Hstatement. closes. Qed.

Lemma var_bounded name g x c d : Forall shallow (var_exprs d) → bounded (var_stmt name g x c d).
Proof. done. Qed.

Lemma safe_local_declaration m : safe 1 bounded (local_declaration m_tokens m).
Proof. enter. unfold local_declaration. decl. sub safe_varDeclaration. split; [by apply var_bounded|moved]. Qed.

Lemma safe_forStatement c : safe 1 bounded (forStatement m_tokens statement c).
Proof.
  enter. unfold forStatement. decl; try (sub safe_local_declaration); sub Hstatement; closes.
Qed.

Lemma safe_switchStatement : safe 1 bounded (switchStatement m_tokens statement).
Proof.
  enter. unfold switchStatement. decl. call (safe_until m_tokens 0 ls (Forall bounded)); [|done|].
  - intros l Hl. enter. unfold switch_round. decl; try (sub Hstatement); (split; [|moved]); apply Forall_app; split; try done;
      apply Forall_singleton; try done; unfold bounded; cbn; auto.
  - decl. split; [|moved]. apply Forall_cons. split; [done|]. by apply block_bounded.
Qed.

Lemma safe_returnStatement : safe 1 bounded (returnStatement m_tokens).
Proof. enter. unfold returnStatement. decl; closes. Qed.

Lemma safe_marker f m : (∀ t, bounded (f (at_token t))) → safe 1 bounded (marker m_tokens f m).
Proof. intros Hf. enter. unfold marker. decl. split; [done|moved]. Qed.

Lemma safe_constexpr : safe 1 bounded (constexpr_declaration m_tokens).
Proof. enter. unfold constexpr_declaration. decl. sub safe_varDeclaration. split; [by apply var_bounded|moved]. Qed.

Lemma safe_plain_statement c : safe 1 bounded (plain_statement m_tokens c).
Proof. enter. unfold plain_statement. decl; [call safe_local_declaration; parsed|closes]. Qed.

Lemma safe_colorStatement : safe 1 bounded (colorStatement m_tokens).
Proof. enter. unfold colorStatement. decl. closes. Qed.
Lemma safe_useStatement : safe 1 bounded (useStatement m_tokens).
Proof. enter. unfold useStatement. decl. closes. Qed.

(** The call of a statement form. *)
Ltac form :=
  lazymatch goal with
  | |- wp _ (plain_statement _ _) _ _ => call safe_plain_statement
  | |- wp _ (marker _ _ _) _ _ => call safe_marker; [intros; apply Forall_nil_2|]
  | |- wp _ (staticAssertion _) _ _ => call safe_staticAssertion
  | |- wp _ (constexpr_declaration _) _ _ => call safe_constexpr
  | |- wp _ (ifStatement _ _) _ _ => call safe_ifStatement
  | |- wp _ (forStatement _ _ _) _ _ => call safe_forStatement
  | |- wp _ (whileStatement _ _ _) _ _ => call safe_whileStatement
  | |- wp _ (switchStatement _ _) _ _ => call safe_switchStatement
  | |- wp _ (blockStatement _ _) _ _ => call safe_blockStatement
  | |- wp _ (returnStatement _) _ _ => call safe_returnStatement
  | |- wp _ (plotStatement _ _) _ _ => call safe_plotStatement
  | |- wp _ (optionsStatement _) _ _ => call safe_optionsStatement
  | |- wp _ (atStatement _) _ _ => call safe_atStatement
  | |- wp _ (drawStatement _) _ _ => call safe_drawStatement
  | |- wp _ (colorStatement _) _ _ => call safe_colorStatement
  | |- wp _ (useStatement _) _ _ => call safe_useStatement
  end.

Lemma safe_keyword_statement c : safe 1 bounded (keyword_statement m_tokens statement c).
Proof. enter. unfold keyword_statement. decl; form; parsed. Qed.

End Statements.
End Safe.

Section Programs.
Context (m_tokens : list Token).
Notation Good := (Good m_tokens).
Notation after := (after m_tokens).

Lemma safe_statement_guard ls k {A} (R : A → Prop) p :
  safe m_tokens 0 (ls + 1) k R p → safe m_tokens 0 ls k R (statement_guard m_tokens p).
Proof.
  intros Hp s G Hle Hls. unfold wp, statement_guard, throw_if. destruct (128 <=? m_statement_depth s) eqn:Hd; [apply compile_error_at|].
  bool_facts. pose proof G as [? ? ? ?].
  assert (Good (with_statement_depth (m_statement_depth s + 1) s)) as G1 by (split; cbn; try done; lia).
  specialize (Hp _ G1 Hle ltac:(cbn; lia)). unfold wp in Hp. cbn.
  destruct (p (with_statement_depth (m_statement_depth s + 1) s)) as [[x s']|e]; [|done]. cbn.
  destruct Hp as [Hx [Hgood Hcur He Hs Hc]]. cbn in *. split; [done|].
  destruct (Hgood G1). split; cbn; try done; try lia. intros _. split; cbn; try done; lia.
Qed.

Lemma safe_statement_body ls statement :
  safe m_tokens 0 (ls + 1) 1 bounded statement → safe m_tokens 0 ls 1 bounded (statement_body m_tokens statement).
Proof.
  intros Hst. enter. unfold statement_body. parse.
  call (safe_statement_guard ls 1 bounded); [|parsed]. enter. parse.
  - call (safe_parseAttributes m_tokens (ls + 1)). parse. call Hst. parse. call (safe_apply m_tokens (ls + 1)); [done..|parsed].
  - call (safe_keyword_statement m_tokens (ls + 1)); [done|parsed].
  - call (safe_keyword_statement m_tokens (ls + 1)); [done|parsed].
Qed.

Lemma safe_statements fuel : ∀ ls, 129 ≤ Z.of_nat fuel + ls → safe m_tokens 0 ls 1 bounded (statement_at m_tokens fuel).
Proof.
  induction fuel as [|fuel IH]; intros ls Hf.
  - intros s G Hle Hls. pose proof (good_statement _ _ G). lia.
  - apply safe_statement_body, IH. lia.
Qed.

Notation safe := (safe m_tokens 0 0).
Ltac decl := decl_at 0.

Lemma safe_statement : safe 1 bounded (parse_statement m_tokens).
Proof. by apply safe_statements. Qed.

Lemma safe_parameter l : safe 1 (λ _, True) (parameter m_tokens l).
Proof. enter. unfold parameter. decl. parsed. Qed.

(** The rest of a function behind its parameters. *)
Lemma function_body_bounded i l name c type ps : bounded (BlockStmt i l) → bounded (FunctionDeclStmt (at_token name) c false type ps l).
Proof. unfold bounded. cbn. by intros [_ ?]%Forall_app. Qed.

Lemma safe_functionDeclaration c type name : safe 1 bounded (functionDeclaration m_tokens c type name).
Proof.
  enter. unfold functionDeclaration. decl.
  all: try (call (safe_comma_list m_tokens 0 0 (λ _ : Param, True)); [apply safe_parameter|decl]).
  all: lazymatch goal with |- wp _ (parse_statement _) _ _ => call safe_statement | _ => idtac end.
  all: try (lazymatch goal with H : bounded ?b |- wp _ (match ?b with _ => _ end) _ _ => destruct b end; decl).
  all: split; [first [by eapply function_body_bounded|apply Forall_nil_2]|moved].
Qed.

Lemma linkage_bounded l s : bounded s → bounded (set_linkage l s).
Proof. intros Hs. apply info_bounded; [|done]. unfold bounded in Hs. destruct s; cbn in Hs; apply Forall_app in Hs; cbn; tauto. Qed.

Lemma safe_linked_declaration l k i x e : attributes_ok l → safe 1 bounded (linked_declaration m_tokens l k i x e).
Proof.
  intros Hl. enter. unfold linked_declaration. decl.
  all: try (call (safe_structDeclaration m_tokens 0); decl; call (safe_apply m_tokens 0); [done..|parsed]).
  all: try (call (safe_romConstDeclaration m_tokens 0); decl; call (safe_apply m_tokens 0); [by apply linkage_bounded|done|parsed]).
  all: try (call (safe_varDeclaration m_tokens 0); decl; call (safe_apply m_tokens 0); [by apply linkage_bounded, var_bounded|done|parsed]).
  all: call safe_functionDeclaration; decl; call (safe_apply m_tokens 0); [by apply linkage_bounded|done|parsed].
Qed.

(** A declaration and its attributes. *)
Ltac declared L := call L; decl; call (safe_apply m_tokens 0); [done..|parsed].
Ltac global :=
  lazymatch goal with
  | |- wp _ (linked_declaration _ _ _ _ _ _) _ _ => call safe_linked_declaration; [done|parsed]
  | |- wp _ (bitmapDeclaration _) _ _ => declared (safe_bitmapDeclaration m_tokens 0)
  | |- wp _ (typeAliasDeclaration _ _) _ _ => declared (safe_typeAliasDeclaration m_tokens 0)
  | |- wp _ (staticAssertion _) _ _ => declared (safe_staticAssertion m_tokens 0)
  | |- wp _ (enumDeclaration _) _ _ => declared (safe_enumDeclaration m_tokens 0)
  end.

Lemma safe_globalDeclaration : safe 1 bounded (globalDeclaration m_tokens).
Proof. enter. unfold globalDeclaration. parse. call (safe_parseAttributes m_tokens 0). decl; global. Qed.

(** ** Programs *)

Lemma check_import_error t e : check_import_path t = Err e → compile_error e.
Proof. unfold check_import_path, throw_if, mbind, result_mbind, result_bind. intros H. repeat (case_match; simplify_eq); auto with parse. Qed.
Hint Resolve check_import_error : parse.

Lemma safe_import_round x : ∀ s, Good s → 0 ≤ m_expression_depth s → 0 ≤ m_statement_depth s →
  wp compile_error (import_round m_tokens x)
    (λ r s', match r with inl _ => True ∧ after 1 s s' | inr _ => True ∧ after 0 s s' end) s.
Proof.
  destruct x as [imports paths]. enter. unfold import_round. decl; [|parsed].
  call (safe_parseAttributes m_tokens 0). decl. destruct (List.find _ a); decl. parsed.
Qed.

Lemma after_preamble imports name s : after 0 s (with_preamble imports name s).
Proof. split; cbn; try done; [|lia]. intros []. by split. Qed.

Lemma safe_parsePreamble : safe 0 (λ _, True) (parsePreamble m_tokens).
Proof.
  enter. unfold parsePreamble. decl; [parsed|..].
  all: call (safe_loop m_tokens 0 0 (λ _, True) (λ _, True) (import_round m_tokens)); [intros ? _; apply safe_import_round|done|].
  all: decl; apply wp_modify; lazymatch goal with |- context [with_preamble ?l ?n ?s] => pose proof (after_preamble l n s) as Hp; merge Hp end; parsed.
Qed.

Lemma program_parsed s : Good s →
  wp compile_error (parseProgram m_tokens)
    (λ l s', isAtEnd m_tokens s' = true ∧ Forall bounded l ∧ after 0 s s') s.
Proof.
  intros G. pose proof G as [_ [Hle _] [Hls _] _]. pose proof (after_refl m_tokens s) as Hs. unfold parseProgram. parse.
  call safe_parsePreamble. parse.
  apply (wp_rounds m_tokens (program_round m_tokens) (λ l s', Forall bounded l ∧ after 0 s s')); [split; [done|moved]|].
  clear dependent s0. intros l s' [Hl Hs']. split; [good_now|]. unfold program_round. decl.
  - done.
  - eapply wp_mono; [apply safe_globalDeclaration; good_now|]. intros d s'' [Hd Hnew]. pose proof (after_current _ _ _ _ Hnew).
    merge Hnew. decl; (split_and!; [|moved|lia|good_now]). destruct a0; [apply Forall_app; auto|done].
Qed.

End Programs.

Lemma start_good tokens config : Good tokens (start config).
Proof.
  split; [cbn; lia..|]. intros name b Hb. apply elem_of_list_to_map_2 in Hb.
  repeat (apply elem_of_cons in Hb as [[= -> ->]|Hb]; [split_and!; cbn; try done; by left|]). by apply elem_of_nil in Hb.
Qed.

(** C38. The parser ends on every input: it returns a program, with every token
    up to the end of the file read, both nesting counters back at zero and no
    expression deeper than [MaxDepth], or it throws a [CompilerError].  In
    particular no loop makes more rounds than there are tokens, the recursion
    stays within the nesting limits, and no vector access, type operation or
    number conversion fails in another way. *)
Theorem parse_program_safe (tokens : list Token) (config : CompilerConfig) :
  match parseProgram tokens (start config) with
  | Ok (statements, s) =>
      isAtEnd tokens s = true ∧ m_expression_depth s = 0 ∧ m_statement_depth s = 0 ∧
      Forall (λ d, Forall (λ e, depth e ≤ MaxDepth) (stmt_exprs d)) statements
  | Err e => ∃ message line col, e = CompileError message line col
  end.
Proof.
  pose proof (program_parsed tokens _ (start_good tokens config)) as H. unfold wp in H.
  destruct (parseProgram tokens (start config)) as [[l s]|e]; [|exact H]. destruct H as (He & Hl & Ha).
  split_and!; [done|by rewrite (after_expression _ _ _ _ Ha)|by rewrite (after_statement _ _ _ _ Ha)|done].
Qed.
