(* ===== verification/ParseGrammar.v ===== *)
(** * ParseGrammar: the grammar of expressions

    The grammar of docs/language-spec.md ("Grammar and precedence") as an
    inductive relation on spans of tokens, with the nesting and depth limits, in
    two readings.  The document lists the postfix [++] and [--] with calls, indexing
    and member access as one left-associative group; in the code nothing continues
    them ([Updated]).  The relation has the suffix rule of the document when its
    flag [documented] is set, and is the grammar of the code when it is not.  The
    theorems: what [parse_expression] returns is derived in both readings, and what
    the grammar of the code derives, and the token behind it does not continue, is
    returned.  [update_ends_suffixes] has an expression of the document that the
    code refuses.  The types in casts and layout queries are spans of [parseType].

    The table has no row for casts.  As in the code, a cast is a primary expression
    whose operand is a prefix expression, so that suffixes belong to the operand;
    after a cast of an operand that ends with [++] or [--] they belong to the cast. *)

From S2P Require Import Prelude Target Types Token Ast Parser ParseSpec ParseSafe.

(** The operators by precedence: assignment (0), and the binary ones from [||] (1)
    to [*] (10). *)
Definition operators (level : nat) : list TokenType :=
  match level with
  | 0 => EQUAL :: compound_operators
  | 1 => [OR_OR] | 2 => [AND_AND] | 3 => [PIPE] | 4 => [CARET] | 5 => [AMPERSAND]
  | 6 => [BANG_EQUAL; EQUAL_EQUAL] | 7 => [GREATER; GREATER_EQUAL; LESS; LESS_EQUAL]
  | 8 => [SHIFT_LEFT; SHIFT_RIGHT] | 9 => [PLUS; MINUS] | 10 => [STAR; SLASH; PERCENT]
  | _ => []
  end%nat.
Definition updates : list TokenType := [PLUS_PLUS; MINUS_MINUS].
Definition prefixes : list TokenType := [MINUS; AMPERSAND; STAR; BANG; TILDE].
(** What continues a postfix expression. *)
Definition suffixes : list TokenType := [LPAREN; LBRACKET; DOT; ARROW; PLUS_PLUS; MINUS_MINUS].

(** The levels of the grammar below the binary operators, which are 1 to 10. *)
Notation Assignment := 0%nat.
Notation Prefix := 11%nat.
Notation Postfix := 12%nat.
Notation Primary := 13%nat.
(** A prefix expression that ends with an unparenthesized [++] or [--]; nothing
    continues it. *)
Notation Updated := 14%nat.

Definition fits (e : Expr) : Prop := depth e ≤ MaxDepth.

Section Grammar.
Context (m_tokens : list Token) (aliases : gmap string TypeAliasBinding) (documented : bool).
Notation token_at := (token_at m_tokens).

Definition kind (i : nat) : TokenType := tok_type (token_at i).

(** A state at a position, for the parts whose result depends on nothing else. *)
Definition at_ (i : nat) : Parser := at_position i (with_aliases aliases (start default_config)).
Definition starts_type (i : nat) : bool := isAtStartOfDeclaration m_tokens (at_ i).
Definition type_span (i : nat) (type : CType) (j : nat) : Prop := parseType m_tokens (at_ i) = Ok (type, at_ j).

(** [derives k n i e j]: the tokens from [i] up to [j] are an expression of level
    [n] with the tree [e], nested at most [k] deep.  [d_suffix_update] is the rule
    the document has and the code does not. *)
Inductive derives : Z → nat → nat → Expr → nat → Prop :=
  | d_assign k i l m r j :
      0 < k → derives (k - 1) 1 i l m → kind m = EQUAL → derives (k - 1) Assignment (S m) r j →
      fits (AssignExpr l r) → derives k Assignment i (AssignExpr l r) j
  | d_update k i l m r j :
      0 < k → derives (k - 1) 1 i l m → kind m ∈ compound_operators → derives (k - 1) Assignment (S m) r j →
      fits (UpdateExpr (token_at m) l r false) → derives k Assignment i (UpdateExpr (token_at m) l r false) j
  | d_value k i e j : 0 < k → derives (k - 1) 1 i e j → derives k Assignment i e j
  | d_binary k n i l m r j :
      (1 ≤ n ≤ 10)%nat → derives k n i l m → kind m ∈ operators n → derives k (S n) (S m) r j →
      fits (BinaryExpr l (token_at m) r) → derives k n i (BinaryExpr l (token_at m) r) j
  | d_operand k n i e j : (1 ≤ n ≤ 10)%nat → derives k (S n) i e j → derives k n i e j
  | d_increment k i e j :
      0 < k → kind i ∈ updates → derives (k - 1) Prefix (S i) e j → fits (UpdateExpr (token_at i) e (one_at (token_at i)) false) →
      derives k Prefix i (UpdateExpr (token_at i) e (one_at (token_at i)) false) j
  | d_prefix k i e j :
      0 < k → kind i ∈ prefixes → derives (k - 1) Prefix (S i) e j → fits (prefix_node (token_at i) e) →
      derives k Prefix i (prefix_node (token_at i) e) j
  | d_postfix k i e j : 0 < k → derives (k - 1) Postfix i e j → derives k Prefix i e j
  | d_updated k i e j : derives k Updated i e j → derives k Prefix i e j
  | d_postfix_update k i e j :
      0 < k → derives (k - 1) Postfix i e j → kind j ∈ updates → fits (UpdateExpr (token_at j) e (one_at (token_at j)) true) →
      derives k Updated i (UpdateExpr (token_at j) e (one_at (token_at j)) true) (S j)
  | d_updated_increment k i e j :
      0 < k → kind i ∈ updates → derives (k - 1) Updated (S i) e j → fits (UpdateExpr (token_at i) e (one_at (token_at i)) false) →
      derives k Updated i (UpdateExpr (token_at i) e (one_at (token_at i)) false) j
  | d_updated_prefix k i e j :
      0 < k → kind i ∈ prefixes → derives (k - 1) Updated (S i) e j → fits (prefix_node (token_at i) e) →
      derives k Updated i (prefix_node (token_at i) e) j
  | d_primary k i e j : derives k Primary i e j → derives k Postfix i e j
  | d_call k i e m l j :
      derives k Postfix i e m → kind m = LPAREN → arguments k (S m) l j → kind j = RPAREN →
      fits (CallExpr e (token_at j) l) → derives k Postfix i (CallExpr e (token_at j) l) (S j)
  | d_subscript k i e m x j :
      derives k Postfix i e m → kind m = LBRACKET → derives k Assignment (S m) x j → kind j = RBRACKET →
      fits (SubscriptExpr e (token_at m) x) → derives k Postfix i (SubscriptExpr e (token_at m) x) (S j)
  | d_member k i e m :
      derives k Postfix i e m → kind m ∈ [DOT; ARROW] → kind (S m) = IDENTIFIER →
      fits (MemberAccessExpr e (token_at (S m)) (is_tok (kind m) ARROW)) →
      derives k Postfix i (MemberAccessExpr e (token_at (S m)) (is_tok (kind m) ARROW)) (S (S m))
  | d_suffix_update k i e m :
      documented = true → derives k Postfix i e m → kind m ∈ updates → fits (UpdateExpr (token_at m) e (one_at (token_at m)) true) →
      derives k Postfix i (UpdateExpr (token_at m) e (one_at (token_at m)) true) (S m)
  | d_string k i : kind i = LITERAL_STRING → derives k Primary i (StringExpr (token_at i)) (S i)
  | d_literal k i :
      kind i ∈ [LITERAL_CHARACTER; KEYWORD_TRUE; KEYWORD_FALSE; LITERAL_INTEGER] →
      derives k Primary i (LiteralExpr (token_at i)) (S i)
  | d_variable k i : kind i = IDENTIFIER → derives k Primary i (VariableExpr (token_at i)) (S i)
  | d_null k i : kind i = KEYWORD_NULL → derives k Primary i (NullExpr (token_at i)) (S i)
  | d_initializer k i l j :
      kind i = LBRACE → elements k (S i) l j → kind j = RBRACE → fits (InitializerListExpr (token_at i) l) →
      derives k Primary i (InitializerListExpr (token_at i) l) (S j)
  | d_layout k i type j :
      kind i ∈ [KEYWORD_SIZEOF; KEYWORD_ALIGNOF] → kind (S i) = LPAREN → starts_type (S (S i)) = true →
      type_span (S (S i)) type j → kind j = RPAREN →
      derives k Primary i (LayoutQueryExpr (token_at i) type None (token UNKNOWN "" 1 1)) (S j)
  | d_layout_value k i e j :
      kind i ∈ [KEYWORD_SIZEOF; KEYWORD_ALIGNOF] → kind (S i) = LPAREN → starts_type (S (S i)) = false →
      derives k Assignment (S (S i)) e j → kind j = RPAREN →
      fits (LayoutQueryExpr (token_at i) default_type (Some e) (token UNKNOWN "" 1 1)) →
      derives k Primary i (LayoutQueryExpr (token_at i) default_type (Some e) (token UNKNOWN "" 1 1)) (S j)
  | d_offset k i type j :
      kind i = KEYWORD_OFFSETOF → kind (S i) = LPAREN → starts_type (S (S i)) = true →
      type_span (S (S i)) type j → kind j = COMMA → kind (S j) = IDENTIFIER → kind (S (S j)) = RPAREN →
      derives k Primary i (LayoutQueryExpr (token_at i) type None (token_at (S j))) (S (S (S j)))
  | d_pixel k i : kind i = KEYWORD_READ_PIXEL → kind (S i) ≠ KEYWORD_AT → derives k Primary i (ReadPixelExpr (token_at i) None None) (S i)
  | d_pixel_at k i x m y j :
      kind i = KEYWORD_READ_PIXEL → kind (S i) = KEYWORD_AT → kind (S (S i)) = LPAREN →
      derives k Assignment (S (S (S i))) x m → kind m = COMMA → derives k Assignment (S m) y j → kind j = RPAREN →
      fits (ReadPixelExpr (token_at i) (Some x) (Some y)) →
      derives k Primary i (ReadPixelExpr (token_at i) (Some x) (Some y)) (S j)
  | d_cursor k i :
      kind i = KEYWORD_CURSOR → kind (S i) = DOT → kind (S (S i)) = IDENTIFIER →
      lexeme (token_at (S (S i))) ∈ ["x"; "y"]%string →
      derives k Primary i (PlotCoordinateExpr (token_at (S (S i))) (String.eqb (lexeme (token_at (S (S i)))) "y")) (S (S (S i)))
  | d_group k i e j :
      kind i = LPAREN → starts_type (S i) = false → derives k Assignment (S i) e j → kind j = RPAREN →
      derives k Primary i e (S j)
  | d_cast k i type m e j :
      kind i = LPAREN → starts_type (S i) = true → type_span (S i) type m → kind m = RPAREN →
      derives k Prefix (S m) e j → kind j ∉ suffixes → fits (CastExpr (token_at i) type e) →
      derives k Primary i (CastExpr (token_at i) type e) j
  | d_cast_updated k i type m e j :
      kind i = LPAREN → starts_type (S i) = true → type_span (S i) type m → kind m = RPAREN →
      derives k Updated (S m) e j → fits (CastExpr (token_at i) type e) →
      derives k Primary i (CastExpr (token_at i) type e) j
(** Expressions separated by commas: of a call, none before its parenthesis. *)
with arguments : Z → nat → list Expr → nat → Prop :=
  | no_arguments k i : kind i = RPAREN → arguments k i [] i
  | some_arguments k i l j : kind i ≠ RPAREN → items k i l j → arguments k i l j
with items : Z → nat → list Expr → nat → Prop :=
  | one_item k i e j : derives k Assignment i e j → items k i [e] j
  | more_items k i l m e j : items k i l m → kind m = COMMA → derives k Assignment (S m) e j → items k i (l ++ [e]) j
(** The elements of an initializer list, with or without a comma at the end. *)
with elements : Z → nat → list Expr → nat → Prop :=
  | all_elements k i l j : comma_ended k i l j → elements k i l j
  | last_element k i l m e j :
      comma_ended k i l m → kind m ≠ RBRACE → zlen l < 65536 → derives k Assignment m e j → elements k i (l ++ [e]) j
with comma_ended : Z → nat → list Expr → nat → Prop :=
  | no_elements k i : comma_ended k i [] i
  | next_element k i l m e j :
      comma_ended k i l m → kind m ≠ RBRACE → zlen l < 65536 → derives k Assignment m e j → kind j = COMMA →
      comma_ended k i (l ++ [e]) (S j).

(* ------------------------------------------------------------------ *)
(** ** Functions that only look at the position and the aliases *)

(** [p] does the same from states that agree on them, and only moves on. *)
Definition uniform {A} (p : Parse A) : Prop := ∀ s s', m_current s = m_current s' → m_type_aliases s = m_type_aliases s' →
  match p s, p s' with
  | Ok (a, t), Ok (a', t') => a = a' ∧ ∃ j, (m_current s ≤ j)%nat ∧ t = at_position j s ∧ t' = at_position j s'
  | Err _, Err _ => True
  | _, _ => False
  end.

Lemma at_position_self s : at_position (m_current s) s = s.
Proof. by destruct s. Qed.
Lemma uniform_ret {A} (a : A) : uniform (mret a).
Proof. intros s s' Hc _. split; [done|]. exists (m_current s). split; [done|]. split; [by rewrite at_position_self|]. by rewrite Hc, at_position_self. Qed.
Lemma uniform_fail {A} e : uniform (fail (A := A) e).
Proof. done. Qed.
Lemma uniform_lift {A} (r : result A) : uniform (lift r).
Proof. intros s s' Hc Ha. unfold lift. destruct r; cbn; [by apply uniform_ret|done]. Qed.
Lemma uniform_seq {A B} (p : Parse A) (f : A → Parse B) : uniform p → (∀ a, uniform (f a)) → uniform (p ≫= f).
Proof.
  intros Hp Hf s s' Hc Ha. specialize (Hp s s' Hc Ha). unfold mbind, Parse_bind.
  destruct (p s) as [[a t]|], (p s') as [[a' t']|]; cbn; try done. destruct Hp as (-> & j & Hj & -> & ->).
  specialize (Hf a' (at_position j s) (at_position j s') eq_refl Ha).
  destruct (f a' (at_position j s)) as [[b t]|], (f a' (at_position j s')) as [[b' t']|]; try done.
  destruct Hf as (-> & j' & Hj' & -> & ->). split; [done|]. exists j'. cbn in Hj'. split; [lia|done].
Qed.
Lemma uniform_gets {A} (f : Parser → A) :
  (∀ s s', m_current s = m_current s' → m_type_aliases s = m_type_aliases s' → f s = f s') → uniform (gets f).
Proof. intros Hf s s' Hc Ha. unfold gets. rewrite (Hf s s' Hc Ha). by apply uniform_ret. Qed.
Lemma uniform_if {A} (b : bool) (p q : Parse A) : uniform p → uniform q → uniform (if b then p else q).
Proof. by destruct b. Qed.
Lemma uniform_loop {A B} n (body : A → Parse (A + B)) : (∀ a, uniform (body a)) → ∀ a, uniform (loop n body a).
Proof.
  intros Hb. induction n as [|n IH]; intros a; [apply uniform_fail|]. cbn. apply uniform_seq; [apply Hb|].
  intros [x|x]; [apply IH|apply uniform_ret].
Qed.
Lemma uniform_advance : uniform (advance m_tokens).
Proof.
  intros s s' Hc Ha. unfold advance.
  assert (isAtEnd m_tokens s = isAtEnd m_tokens s') as <- by (unfold isAtEnd; by rewrite Hc).
  destruct (isAtEnd m_tokens s); cbv zeta; (split; [unfold previous; cbn; by rewrite Hc|]).
  - exists (m_current s). split; [done|]. split; [by rewrite at_position_self|by rewrite Hc, at_position_self].
  - exists (S (m_current s)). rewrite Hc. split; [lia|done].
Qed.
Lemma check_position t s s' : m_current s = m_current s' → check m_tokens t s = check m_tokens t s'.
Proof. intros Hc. unfold check, isAtEnd, peek. by rewrite Hc. Qed.
Lemma uniform_match types : uniform (match_ m_tokens types).
Proof.
  induction types as [|t types IH]; cbn [match_]; [apply uniform_ret|].
  apply uniform_seq; [apply uniform_gets; intros; by apply check_position|]. intros b. apply uniform_if; [|done].
  apply uniform_seq; [apply uniform_advance|]. intros _. apply uniform_ret.
Qed.
Lemma uniform_consume t m : uniform (consume m_tokens t m).
Proof.
  intros s s' Hc Ha. unfold consume. rewrite (check_position t s s' Hc). destruct (check m_tokens t s'); [by apply uniform_advance|done].
Qed.
Lemma uniform_peek : uniform (gets (peek m_tokens)).
Proof. apply uniform_gets. intros s s' Hc _. unfold peek. by rewrite Hc. Qed.
Lemma uniform_previous : uniform (gets (previous m_tokens)).
Proof. apply uniform_gets. intros s s' Hc _. unfold previous. by rewrite Hc. Qed.
Lemma uniform_aliases : uniform (gets m_type_aliases).
Proof. by apply uniform_gets. Qed.

Ltac uniform_step :=
  lazymatch goal with
  | |- uniform (mret _) => apply uniform_ret
  | |- uniform (fail _) => apply uniform_fail
  | |- uniform (lift _) => apply uniform_lift
  | |- uniform (guard_ _ _) => apply uniform_lift
  | |- uniform (_ ≫= _) => apply uniform_seq; [|intros ?]
  | |- uniform (gets (peek _)) => apply uniform_peek
  | |- uniform (gets (previous _)) => apply uniform_previous
  | |- uniform (gets m_type_aliases) => apply uniform_aliases
  | |- uniform (loop _ _ _) => apply uniform_loop; intros ?
  | |- uniform (advance _) => apply uniform_advance
  | |- uniform (match_ _ _) => apply uniform_match
  | |- uniform (consume _ _ _) => apply uniform_consume
  | |- uniform (match ?x with _ => _ end) => destruct x
  end.

Lemma uniform_parseType : uniform (parseType m_tokens).
Proof.
  unfold parseType, type_specifier, alias_specifier, pointer_layer, layer_qualifier. repeat (cbv beta zeta; uniform_step).
Qed.

Lemma starts_type_at s i : m_type_aliases s = aliases → isAtStartOfDeclaration m_tokens (at_position i s) = starts_type i.
Proof. intros Ha. unfold starts_type, isAtStartOfDeclaration. cbn. by rewrite Ha. Qed.

Lemma parseType_at s i type s' : m_type_aliases s = aliases → parseType m_tokens (at_position i s) = Ok (type, s') →
  ∃ j, s' = at_position j s ∧ type_span i type j.
Proof.
  intros Ha Hp. pose proof (uniform_parseType (at_position i s) (at_ i) eq_refl Ha) as H. rewrite Hp in H.
  destruct (parseType m_tokens (at_ i)) as [[type' t]|] eqn:Ht; [|done]. destruct H as (<- & j & _ & -> & ->). exists j. split; [done|].
  unfold type_span. by rewrite Ht.
Qed.
Lemma type_span_run s i type j : m_type_aliases s = aliases → type_span i type j →
  parseType m_tokens (at_position i s) = Ok (type, at_position j s).
Proof.
  unfold type_span. intros Ha Hp. pose proof (uniform_parseType (at_position i s) (at_ i) eq_refl Ha) as H. rewrite Hp in H.
  destruct (parseType m_tokens (at_position i s)) as [[type' t]|] eqn:Ht; [|done]. destruct H as (-> & n & _ & -> & Hn).
  cbn. assert (j = n) as -> by (by injection Hn). done.
Qed.

Lemma type_span_forward i type j : type_span i type j → (i ≤ j)%nat.
Proof.
  unfold type_span. intros Hp. pose proof (uniform_parseType (at_ i) (at_ i) eq_refl eq_refl) as H. rewrite Hp in H.
  destruct H as (_ & n & Hn & Ht & _). cbn in Hn. assert (j = n) as -> by (by injection Ht). done.
Qed.

(* ------------------------------------------------------------------ *)
(** ** Tokens by their kind *)

Lemma kind_inside i : kind i ≠ END_OF_FILE → (i < length m_tokens)%nat.
Proof. unfold kind, Parser.token_at. destruct (m_tokens !! i) eqn:H; [by apply lookup_lt_Some in H|done]. Qed.

Lemma check_at t s i : t ≠ END_OF_FILE → check m_tokens t (at_position i s) = is_tok (kind i) t.
Proof.
  intros Ht. unfold check, isAtEnd, peek, kind, Parser.token_at. cbn. destruct (m_tokens !! i) as [x|]; cbn.
  - destruct (decide (tok_type x = END_OF_FILE)) as [->|?]; decides; done.
  - by decides.
Qed.
Lemma previous_at s i : kind i ≠ END_OF_FILE → previous m_tokens (at_position (S i) s) = token_at i.
Proof.
  intros H%kind_inside. unfold previous. cbn. rewrite (bool_decide_false (m_tokens = [])) by (intros E; rewrite E in H; cbn in H; lia). cbn. f_equal. lia.
Qed.
Lemma advance_at s i : kind i ≠ END_OF_FILE → advance m_tokens (at_position i s) = Ok (token_at i, at_position (S i) s).
Proof.
  intros H. pose proof (kind_inside i H) as Hi. unfold advance, isAtEnd. cbn.
  unfold kind, Parser.token_at in H. destruct (m_tokens !! i) as [x|] eqn:Hx; [|done]. cbn in H. rewrite (bool_decide_false (_ = _)) by done.
  change (mkParser _ _ _ _ _ _ _ _) with (at_position (S i) s). rewrite previous_at; [done|]. unfold kind, Parser.token_at. by rewrite Hx.
Qed.
Lemma match_at types s i : forallb (λ t, negb (is_tok t END_OF_FILE)) types = true →
  match_ m_tokens types (at_position i s) =
  Ok (if bool_decide (kind i ∈ types) then (true, at_position (S i) s) else (false, at_position i s)).
Proof.
  induction types as [|t types IH]; cbn [match_ forallb]; intros H; [done|]. apply andb_true_iff in H as [Ht H].
  apply negb_true_iff, bool_decide_eq_false in Ht. unfold mbind, Parse_bind, gets. rewrite check_at by done.
  destruct (decide (kind i = t)) as [<-|Hne].
  - rewrite (bool_decide_true (kind i = kind i)) by done. rewrite (bool_decide_true (_ ∈ _)) by set_solver. cbn -[advance]. by rewrite advance_at.
  - rewrite (bool_decide_false (kind i = t)) by done. cbn -[match_]. rewrite IH by done. repeat case_bool_decide; set_solver.
Qed.
Lemma consume_at t m s i : t ≠ END_OF_FILE → kind i = t → consume m_tokens t m (at_position i s) = Ok (token_at i, at_position (S i) s).
Proof. intros Ht H. unfold consume. rewrite check_at by done. rewrite bool_decide_true by done. apply advance_at. congruence. Qed.

(** The same as rules. *)
Notation wp := (wp (λ _, True)).

Lemma wp_match_at {E} types Q s i : forallb (λ t, negb (is_tok t END_OF_FILE)) types = true →
  (kind i ∈ types → Q true (at_position (S i) s)) → (kind i ∉ types → Q false (at_position i s)) →
  ParseSpec.wp E (match_ m_tokens types) Q (at_position i s).
Proof. intros H Ht Hf. unfold ParseSpec.wp. rewrite match_at by done. case_bool_decide; auto. Qed.
Lemma wp_consume_at t m Q s i : t ≠ END_OF_FILE →
  (kind i = t → Q (token_at i) (at_position (S i) s)) → wp (consume m_tokens t m) Q (at_position i s).
Proof.
  intros Ht HQ. unfold ParseSpec.wp, consume. rewrite check_at by done. case_bool_decide as H; [|done].
  rewrite advance_at by congruence. auto.
Qed.
Lemma wp_previous_at Q s i : kind i ≠ END_OF_FILE → Q (token_at i) (at_position (S i) s) → wp (gets (previous m_tokens)) Q (at_position (S i) s).
Proof. intros H HQ. apply wp_gets. by rewrite previous_at. Qed.
Lemma wp_check_at t Q s i : t ≠ END_OF_FILE →
  Q (is_tok (kind i) t) (at_position i s) → wp (gets (check m_tokens t)) Q (at_position i s).
Proof. intros Ht HQ. apply wp_gets. by rewrite check_at. Qed.

(** A loop, without regard to its end. *)
Lemma wp_loop_partial {A B} (body : A → Parse (A + B)) (I : A → Parser → Prop) (Q : B → Parser → Prop) n : ∀ a s,
  I a s → (∀ a s, I a s → wp (body a) (λ r s', match r with inl a => I a s' | inr b => Q b s' end) s) →
  wp (loop n body a) Q s.
Proof.
  induction n as [|n IH]; intros a s Ha Hb; [done|]. cbn [loop]. apply wp_bind. eapply wp_mono; [by apply Hb|].
  intros [x|x] s' Hx; [by apply IH|by apply wp_ret].
Qed.

(* ------------------------------------------------------------------ *)
(** ** What the parser returns is derived *)

(** [p] returns what [G] spans, from a state with [k] levels of nesting left. *)
Definition spans {A} (k : Z) (p : Parse A) (G : nat → A → nat → Prop) : Prop := ∀ s i,
  m_type_aliases s = aliases → m_expression_depth s = 128 - k →
  wp p (λ a s', ∃ j, s' = at_position j s ∧ G i a j) (at_position i s).

Lemma spans_mono {A} k (p : Parse A) (G H : nat → A → nat → Prop) : spans k p G → (∀ i a j, G i a j → H i a j) → spans k p H.
Proof. intros Hp HG s i Ha Hd. eapply wp_mono; [by apply Hp|]. intros a s' (j & -> & Hj). eauto. Qed.

Lemma wp_node_fits e Q s : (fits e → Q e s) → wp (lift (node e)) Q s.
Proof. intros HQ. apply wp_lift; [|done]. intros e' [-> He]%node_shallow. auto. Qed.

Lemma wp_typed Q s i : m_type_aliases s = aliases →
  Q (starts_type i) (at_position i s) → wp (gets (isAtStartOfDeclaration m_tokens)) Q (at_position i s).
Proof. intros Ha HQ. apply wp_gets. by rewrite starts_type_at. Qed.
Lemma wp_type Q s i : m_type_aliases s = aliases →
  (∀ type j, type_span i type j → Q type (at_position j s)) → wp (parseType m_tokens) Q (at_position i s).
Proof.
  intros Ha HQ. unfold ParseSpec.wp. destruct (parseType m_tokens (at_position i s)) as [[type s']|] eqn:H; [|done].
  apply parseType_at in H as (j & -> & Hj); [|done]. auto.
Qed.

Ltac kinds := lazymatch goal with
  | H : kind ?i = _ |- kind ?i ≠ END_OF_FILE => rewrite H; discriminate
  | H : kind ?i ∈ _ |- kind ?i ≠ END_OF_FILE => let E := fresh in intros E; rewrite E in H; by apply (bool_decide_pack _) in H
  end.
Ltac span_step :=
  cbv beta iota zeta;
  lazymatch goal with
  | |- ParseSpec.wp _ (match_ _ _) _ _ => apply wp_match_at; [reflexivity|intros ?|intros ?]
  | |- ParseSpec.wp _ (consume _ _ _) _ _ => apply wp_consume_at; [discriminate|intros ?]
  | |- ParseSpec.wp _ (gets (previous _)) _ _ => apply wp_previous_at; [try kinds|]
  | |- ParseSpec.wp _ (gets (check _ _)) _ _ => apply wp_check_at; [discriminate|]
  | |- ParseSpec.wp _ (gets (isAtStartOfDeclaration _)) _ _ => apply wp_typed; [done|]
  | |- ParseSpec.wp _ (parseType _) _ _ => apply wp_type; [done|]; intros ? ? ?
  | |- ParseSpec.wp _ (lift (node _)) _ _ => apply wp_node_fits; intros ?
  | |- ParseSpec.wp _ (let '(_, _) := ?x in _) _ _ => let a := fresh "a" in let b := fresh "b" in destruct x as [a b]
  | |- ParseSpec.wp _ _ _ _ => wp_step
  | |- True => exact I
  end.
Ltac spanned := repeat span_step.
(** Uses what a part spans. *)
Ltac span L := eapply wp_mono; [apply L; done|]; let a := fresh "a" in let j := fresh "j" in let H := fresh "H" in intros a ? (j & -> & H).
Ltac found := eexists; (split; [reflexivity|]).

(** The functions from [logicalOr] down to [factor], as one by its level. *)
Fixpoint binary (unary : Parse Expr) (count n : nat) : Parse Expr :=
  match count with
  | O => unary
  | S count => binaryLeft m_tokens (binary unary count (S n)) (operators n)
  end.
Lemma logicalOr_binary unary : logicalOr m_tokens unary = binary unary 10 1.
Proof. reflexivity. Qed.

Lemma operators_end n : (1 ≤ n ≤ 10)%nat → END_OF_FILE ∉ operators n ∧ forallb (λ t, negb (is_tok t END_OF_FILE)) (operators n) = true.
Proof.
  intros Hn. destruct n as [|[|[|[|[|[|[|[|[|[|[]]]]]]]]]]]; try lia; (split; [by apply (bool_decide_unpack _)|done]).
Qed.

Lemma span_binaryLeft k n operand : (1 ≤ n ≤ 10)%nat → spans k operand (derives k (S n)) →
  spans k (binaryLeft m_tokens operand (operators n)) (derives k n).
Proof.
  intros Hn Hop s i Ha Hd. unfold binaryLeft. spanned. span Hop. destruct (operators_end n Hn) as [Hend Hall].
  apply (wp_loop_partial _ (λ e s', ∃ j, s' = at_position j s ∧ derives k n i e j)); [found; by apply d_operand|].
  intros e s' (m & -> & Hm). unfold binary_round. apply wp_bind, wp_match_at; [done| |].
  - intros Hin. spanned; [by intros E; rewrite E in Hin|]. span Hop. spanned. found. by eapply d_binary.
  - intros _. spanned. by found.
Qed.

(** What [unary] spans. *)
Definition unary_spans (k : Z) (i : nat) (e : Expr) (j : nat) : Prop :=
  derives k Updated i e j ∨ derives k Prefix i e j ∧ kind j ∉ suffixes.
Lemma unary_prefix k i e j : unary_spans k i e j → derives k Prefix i e j.
Proof. intros [H|[H _]]; [by apply d_updated|done]. Qed.

Section Sound.
Context (assignment unary : Parse Expr) (k : Z) (Hassignment : spans k assignment (derives k Assignment))
  (Hunary : spans k unary (unary_spans k)).

Lemma span_comma_list : spans k (comma_list m_tokens (λ _, assignment)) (items k).
Proof.
  intros s i Ha Hd. unfold comma_list.
  apply (wp_loop_partial _ (λ l s', ∃ m, s' = at_position m s ∧
    ((l = [] ∧ m = i) ∨ ∃ n, items k i l n ∧ kind n = COMMA ∧ m = S n))); [found; auto|].
  intros l s' (m & -> & Hm). spanned. span Hassignment.
  assert (items k i (l ++ [a]) j) by (destruct Hm as [[-> ->]|(n & Hn & ? & ->)]; [by constructor|by eapply more_items]).
  spanned; found; [right|done]. exists j. set_solver.
Qed.

Lemma span_elements brace : spans k (until m_tokens RBRACE (λ l,
    _ ← guard_ (65536 <=? zlen l) (error_at "Initializer list exceeds one bank." brace);
    x ← assignment; more ← match_ m_tokens [COMMA];
    mret (if (more : bool) then inl (l ++ [x]) else inr (l ++ [x]))) []) (elements k).
Proof.
  intros s i Ha Hd. apply (wp_loop_partial _ (λ l s', ∃ m, s' = at_position m s ∧ comma_ended k i l m)); [found; constructor|].
  intros l s' (m & -> & Hm). spanned; [found; by constructor|].
  rewrite check_at in Hif by done. bool_facts. span Hassignment. spanned; found.
  - eapply next_element; try done. set_solver.
  - by eapply last_element.
Qed.

Notation primaries := (λ i e j, derives k Primary i e j).
Definition opened (p : Parse Expr) (first : list TokenType) : Prop := ∀ s i, kind i ∈ first →
  m_type_aliases s = aliases → m_expression_depth s = 128 - k →
  wp p (λ e s', ∃ j, s' = at_position j s ∧ derives k Primary i e j) (at_position (S i) s).

Lemma span_initializer : opened (initializer_list m_tokens assignment) [LBRACE].
Proof.
  intros s i Hi Ha Hd. unfold initializer_list. spanned. span span_elements. spanned. found. eapply d_initializer; try done. set_solver.
Qed.

Lemma span_layout_query : opened (layout_query m_tokens assignment) [KEYWORD_SIZEOF; KEYWORD_ALIGNOF; KEYWORD_OFFSETOF].
Proof.
  intros s i Hi Ha Hd. unfold layout_query. spanned.
  - bool_facts. found. by eapply d_offset.
  - bool_facts. found. eapply d_layout; try done. set_solver.
  - span Hassignment. spanned; [by bool_facts|]. bool_facts. found. eapply d_layout_value; try done. set_solver.
Qed.

Lemma span_read_pixel : opened (read_pixel m_tokens assignment) [KEYWORD_READ_PIXEL].
Proof.
  intros s i Hi Ha Hd. assert (kind i = KEYWORD_READ_PIXEL) by set_solver. unfold read_pixel. spanned.
  - span Hassignment. spanned. span Hassignment. spanned. found. eapply d_pixel_at; try done. set_solver.
  - found. apply d_pixel; [done|set_solver].
Qed.

Lemma span_cursor : opened (cursor_access m_tokens) [KEYWORD_CURSOR].
Proof.
  intros s i Hi Ha Hd. unfold cursor_access. spanned. found. apply d_cursor; try done; [set_solver|].
  apply andb_false_iff in H1 as [H1|H1]; apply negb_false_iff, String.eqb_eq in H1; rewrite H1; set_solver.
Qed.

Lemma span_parenthesized : opened (parenthesized m_tokens assignment unary) [LPAREN].
Proof.
  intros s i Hi Ha Hd. assert (kind i = LPAREN) by set_solver. unfold parenthesized. spanned.
  - span Hunary. spanned. found.
    destruct H2 as [H2|[H2 ?]]; [by eapply d_cast_updated|by eapply d_cast].
  - span Hassignment. spanned. found. by eapply d_group.
Qed.

Ltac opening L := eapply wp_mono; [apply L; done|]; cbv beta; intros ? ? (? & -> & ?); by found.
Lemma span_primary : spans k (primary m_tokens assignment unary) (derives k Primary).
Proof.
  intros s i Ha Hd. unfold primary.
  spanned; lazymatch goal with
  | |- ParseSpec.wp _ (initializer_list _ _) _ _ => opening span_initializer
  | |- ParseSpec.wp _ (layout_query _ _) _ _ => opening span_layout_query
  | |- ParseSpec.wp _ (read_pixel _ _) _ _ => opening span_read_pixel
  | |- ParseSpec.wp _ (cursor_access _) _ _ => opening span_cursor
  | |- ParseSpec.wp _ (parenthesized _ _ _) _ _ => opening span_parenthesized
  | |- _ => found; repeat match goal with H : _ ∉ _ |- _ => clear H end; constructor; set_solver
  end.
Qed.

(** What [postfix] spans: a postfix expression that nothing continues, or one
    with an update at its end. *)
Definition postfix_spans (i : nat) (e : Expr) (j : nat) : Prop :=
  derives (k + 1) Updated i e j ∨ derives k Postfix i e j ∧ kind j ∉ suffixes.

Lemma span_postfix_round s i expr m : 0 ≤ k → m_type_aliases s = aliases → m_expression_depth s = 128 - k →
  derives k Postfix i expr m →
  wp (postfix_round m_tokens assignment expr)
    (λ r s', ∃ j, s' = at_position j s ∧ match r with inl e => derives k Postfix i e j | inr e => postfix_spans i e j end)
    (at_position m s).
Proof.
  intros Hk Ha Hd Hm. unfold postfix_round. spanned.
  - bool_facts. found. eapply d_call; try done; [set_solver|by apply no_arguments].
  - bool_facts. span span_comma_list. spanned. found.
    eapply d_call; try done; [set_solver|by apply some_arguments].
  - span Hassignment. spanned. found. eapply d_subscript; try done. set_solver.
  - found. by apply d_member.
  - found. left. apply d_postfix_update; [lia| |done..]. by replace (k + 1 - 1) with k by lia.
  - found. right. split; [done|]. unfold suffixes. set_solver.
Qed.

Lemma span_postfix : 0 ≤ k → spans k (postfix m_tokens assignment unary) postfix_spans.
Proof.
  intros Hk s i Ha Hd. unfold postfix. spanned. span span_primary.
  apply (wp_loop_partial _ (λ e s', ∃ m, s' = at_position m s ∧ derives k Postfix i e m)); [found; by constructor|].
  intros e s' (m & -> & Hm). eapply wp_mono; [by apply span_postfix_round|]. cbv beta. intros [] ? (? & -> & ?); by found.
Qed.

Lemma span_binary count : ∀ n, (1 ≤ n)%nat → (n + count = Prefix)%nat → spans k (binary unary count n) (derives k n).
Proof.
  induction count as [|count IH]; intros n Hn Hc; cbn [binary].
  - replace n with Prefix by lia. apply (spans_mono _ _ _ _ Hunary). apply unary_prefix.
  - apply span_binaryLeft; [lia|]. apply IH; lia.
Qed.
End Sound.

Lemma span_guard {A} k (p : Parse A) G : (0 < k → spans (k - 1) p G) → spans k (expression_guard m_tokens p) G.
Proof.
  intros Hp s i Ha Hd. unfold ParseSpec.wp, expression_guard. cbn [m_expression_depth at_position]. rewrite Hd.
  destruct (128 <=? 128 - k) eqn:Hk; [done|]. apply Z.leb_gt in Hk. cbn.
  assert (0 < k) as Hpos by lia. pose proof (Hp Hpos (with_expression_depth (128 - k + 1) s) i Ha ltac:(cbn; lia)) as H.
  change (at_position i (with_expression_depth (128 - k + 1) s)) with (with_expression_depth (128 - k + 1) (at_position i s)) in H.
  unfold ParseSpec.wp in H. destruct (p _) as [[a s']|]; [|done]. cbn. destruct H as (j & -> & H). exists j. split; [|done].
  destruct s; cbn in *. unfold with_expression_depth, at_position. cbn. f_equal. lia.
Qed.

Lemma span_unary_body assignment unary k :
  (0 < k → spans (k - 1) assignment (derives (k - 1) Assignment)) → (0 < k → spans (k - 1) unary (unary_spans (k - 1))) →
  spans k (unary_body m_tokens assignment unary) (unary_spans k).
Proof.
  intros HA HU. apply span_guard. intros Hk. specialize (HA Hk). specialize (HU Hk). intros s i Ha Hd. spanned.
  - span HU. spanned. found. destruct H0 as [?|[??]]; [left; by apply d_updated_increment|right]. split; [by apply d_increment|done].
  - span HU. spanned. found. destruct H1 as [?|[??]]; [left; by apply d_updated_prefix|right]. split; [by apply d_prefix|done].
  - assert (0 ≤ k - 1) as Hk' by lia. span (span_postfix _ _ _ HA HU Hk'). found. unfold postfix_spans in *. destruct H1 as [?|[??]]; [left; by replace k with (k - 1 + 1) by lia|right].
    split; [by apply d_postfix|done].
Qed.

Lemma span_assignment_body assignment unary k :
  (0 < k → spans (k - 1) assignment (derives (k - 1) Assignment)) → (0 < k → spans (k - 1) unary (unary_spans (k - 1))) →
  spans k (assignment_body m_tokens assignment unary) (derives k Assignment).
Proof.
  intros HA HU. apply span_guard. intros Hk. specialize (HA Hk). specialize (HU Hk). intros s i Ha Hd. spanned.
  rewrite (logicalOr_binary unary). span (span_binary unary _ HU 10 1%nat (le_n 1) eq_refl). spanned.
  - span HA. spanned. found. eapply d_assign; try done. set_solver.
  - span HA. spanned. found. by eapply d_update.
  - found. by apply d_value.
Qed.

Lemma span_levels fuel : ∀ k,
  spans k (assignment_at m_tokens fuel) (derives k Assignment) ∧ spans k (unary_at m_tokens fuel) (unary_spans k).
Proof.
  induction fuel as [|fuel IH]; intros k; [done|].
  split; intros s i Ha Hd; [apply span_assignment_body|apply span_unary_body]; try done; intros _; apply IH.
Qed.

Lemma assignment_derived fuel k s i e s' : m_type_aliases s = aliases → m_expression_depth s = 128 - k →
  assignment_at m_tokens fuel (at_position i s) = Ok (e, s') → ∃ j, s' = at_position j s ∧ derives k Assignment i e j.
Proof.
  intros Ha Hd Hp. destruct (span_levels fuel k) as [H _]. specialize (H s i Ha Hd). unfold ParseSpec.wp in H. by rewrite Hp in H.
Qed.

(* ------------------------------------------------------------------ *)
(** ** What is derived is returned *)

Scheme derives_min := Minimality for derives Sort Prop
  with arguments_min := Minimality for arguments Sort Prop
  with items_min := Minimality for items Sort Prop
  with elements_min := Minimality for elements Sort Prop
  with comma_ended_min := Minimality for comma_ended Sort Prop.
Combined Scheme grammar_ind from derives_min, arguments_min, items_min, elements_min, comma_ended_min.

(** An expression has tokens, and ends before the end of the file. *)
Definition forward (i j : nat) : Prop := (i < j ≤ length m_tokens)%nat.

Ltac inside := repeat match goal with
  | H : kind ?i = ?t |- _ => lazymatch goal with _ : (i < length m_tokens)%nat |- _ => fail | _ => assert (i < length m_tokens)%nat by (apply kind_inside; kinds) end
  | H : kind ?i ∈ _ |- _ => lazymatch goal with _ : (i < length m_tokens)%nat |- _ => fail | _ => assert (i < length m_tokens)%nat by (apply kind_inside; kinds) end
  | H : type_span _ _ _ |- _ => apply type_span_forward in H
  end.
Lemma grammar_forward :
  (∀ k n i e j, derives k n i e j → forward i j) ∧ (∀ k i l j, arguments k i l j → (i ≤ j)%nat)
  ∧ (∀ k i l j, items k i l j → forward i j) ∧ (∀ k i l j, elements k i l j → (i ≤ j)%nat)
  ∧ (∀ k i l j, comma_ended k i l j → (i ≤ j)%nat).
Proof. apply grammar_ind; unfold forward; intros; inside; lia. Qed.

(** What continues some expression. *)
Definition continuations : list TokenType := suffixes ++ mjoin (operators <$> seq 0 11).

(** [t] does not continue an expression of level [n]. *)
Definition closed (n : nat) (t : TokenType) : Prop := t ∉ suffixes ∧ ∀ m, (n ≤ m)%nat → t ∉ operators m.
Lemma closed_weaken n m t : closed n t → (n ≤ m)%nat → closed m t.
Proof. intros [Hs Ho] Hm. split; [done|]. intros m' Hm'. apply Ho. lia. Qed.
Lemma closed_suffix n t : (11 ≤ n)%nat → t ∉ suffixes → closed n t.
Proof. intros Hn Ht. split; [done|]. intros m Hm. do 11 (destruct m as [|m]; [lia|]). cbn. set_solver. Qed.
Lemma operator_closed n t : t ∈ operators n → closed (S n) t.
Proof.
  assert (forallb (λ n, forallb (λ t, negb (bool_decide (t ∈ suffixes)) &&
    forallb (λ m, negb (bool_decide (t ∈ operators m))) (seq (S n) (10 - n))) (operators n)) (seq 0 11) = true) as H by reflexivity.
  intros Ht. destruct (decide (n ≤ 10)%nat) as [Hn|Hn]; [|do 11 (destruct n as [|n]; [lia|]); by apply elem_of_nil in Ht].
  rewrite forallb_forall in H. specialize (H n ltac:(apply in_seq; lia)). rewrite forallb_forall in H.
  specialize (H t ltac:(by apply list_elem_of_In)). bool_facts. split; [done|].
  intros m Hm. destruct (decide (m ≤ 10)%nat) as [Hm'|Hm']; [|do 11 (destruct m as [|m]; [lia|]); set_solver].
  rewrite forallb_forall in H0. specialize (H0 m ltac:(apply in_seq; lia)). by bool_facts.
Qed.

Lemma closed_end t : t ∉ continuations → closed 0 t.
Proof.
  intros Ht. split; [intros H; apply Ht, elem_of_app; by left|]. intros m _ H. apply Ht, elem_of_app. right.
  destruct (decide (m ≤ 10)%nat); [|do 11 (destruct m as [|m]; [lia|]); by apply elem_of_nil in H].
  apply list_elem_of_join. exists (operators m). split; [done|]. apply list_elem_of_fmap. exists m. split; [done|]. apply elem_of_seq. lia.
Qed.
Lemma closed_at i t : kind i = t → bool_decide (t ∈ continuations) = false → closed 0 (kind i).
Proof. intros -> H. apply closed_end. by apply bool_decide_eq_false in H. Qed.

Notation goes := (ParseSpec.wp (λ _, False)).
Lemma goes_match b types Q s i t : kind i = t → forallb (λ t, negb (is_tok t END_OF_FILE)) types = true →
  bool_decide (t ∈ types) = b → Q b (at_position (if b then S i else i) s) → goes (match_ m_tokens types) Q (at_position i s).
Proof. intros <- H <- HQ. unfold ParseSpec.wp. rewrite match_at by done. by case_bool_decide. Qed.
Lemma goes_consume t m Q s i : t ≠ END_OF_FILE → kind i = t → Q (token_at i) (at_position (S i) s) → goes (consume m_tokens t m) Q (at_position i s).
Proof. intros Ht Hk HQ. unfold ParseSpec.wp. by rewrite (consume_at t m s i Ht Hk). Qed.
Lemma goes_previous Q s i : kind i ≠ END_OF_FILE → Q (token_at i) (at_position (S i) s) → goes (gets (previous m_tokens)) Q (at_position (S i) s).
Proof. intros H HQ. apply wp_gets. by rewrite previous_at. Qed.
Lemma goes_check t b Q s i : t ≠ END_OF_FILE → is_tok (kind i) t = b → Q b (at_position i s) → goes (gets (check m_tokens t)) Q (at_position i s).
Proof. intros Ht <- HQ. apply wp_gets. by rewrite check_at. Qed.
Lemma goes_typed b Q s i : m_type_aliases s = aliases → starts_type i = b → Q b (at_position i s) →
  goes (gets (isAtStartOfDeclaration m_tokens)) Q (at_position i s).
Proof. intros Ha <- HQ. apply wp_gets. by rewrite starts_type_at. Qed.
Lemma goes_type type j Q s i : m_type_aliases s = aliases → type_span i type j → Q type (at_position j s) →
  goes (parseType m_tokens) Q (at_position i s).
Proof. intros Ha Ht HQ. unfold ParseSpec.wp. by rewrite (type_span_run s i type j). Qed.
Lemma goes_node e Q s : fits e → Q e s → goes (lift (node e)) Q s.
Proof. intros He HQ. unfold ParseSpec.wp, lift, node. replace (MaxDepth <? depth e) with false by (symmetry; by apply Z.ltb_ge). done. Qed.

Section Complete.
Context (fuel : nat).
Notation assignment := (assignment_at m_tokens fuel).
Notation unary := (unary_at m_tokens fuel).

(** The function of a level. *)
Definition level (n : nat) : Parse Expr :=
  match n with
  | Assignment => assignment
  | Postfix => postfix m_tokens assignment unary
  | Primary => primary m_tokens assignment unary
  | Updated => unary
  | n => binary unary (11 - n) n
  end.
(** The loop it is in at the end of an expression. *)
Definition level_round (n : nat) : Expr → Parse (Expr + Expr) :=
  if Nat.eqb n Postfix then postfix_round m_tokens assignment
  else binary_round m_tokens (binary unary (10 - n) (S n)) (operators n).
(** Where [level n] gets to at [j], behind [e]. *)
Definition gets_to (n i : nat) (e : Expr) (j : nat) (Q : Expr → Parser → Prop) (s : Parser) : Prop :=
  match n with
  | Assignment | Prefix => closed n (kind j) ∧ Q e (at_position j s)
  | Primary | Updated => Q e (at_position j s)
  | Postfix => ∀ r, (r ≤ j - i)%nat → goes (loop (rounds m_tokens - r) (level_round n) e) Q (at_position j s)
  | _ => closed (S n) (kind j) ∧ ∀ r, (r ≤ j - i)%nat → goes (loop (rounds m_tokens - r) (level_round n) e) Q (at_position j s)
  end.
End Complete.

Definition parsed (k : Z) (n i : nat) (e : Expr) (j : nat) : Prop := ∀ fuel s Q,
  k < Z.of_nat fuel → m_type_aliases s = aliases → m_expression_depth s = 128 - k →
  gets_to fuel n i e j Q s → goes (level fuel n) Q (at_position i s).

Lemma level_binary fuel n : (1 ≤ n ≤ 11)%nat → level fuel n = binary (unary_at m_tokens fuel) (11 - n) n.
Proof. intros Hn. do 12 (destruct n as [|n]; [done || lia|]). lia. Qed.
Lemma gets_to_binary fuel n i e j Q s : (1 ≤ n ≤ 10)%nat → closed (S n) (kind j) →
  (∀ r, (r ≤ j - i)%nat → goes (loop (rounds m_tokens - r) (level_round fuel n) e) Q (at_position j s)) →
  gets_to fuel n i e j Q s.
Proof. intros Hn Hc HQ. do 11 (destruct n as [|n]; [try lia; by split|]). lia. Qed.

(** A loop that stops. *)
Lemma goes_loop {A B} (body : A → Parse (A + B)) r i a Q s : (r ≤ i ≤ length m_tokens)%nat →
  goes (body a) (λ x t, match x with inl a => goes (loop (rounds m_tokens - S r) body a) Q t | inr b => Q b t end) s →
  goes (loop (rounds m_tokens - r) body a) Q s.
Proof.
  intros Hr Hb. replace (rounds m_tokens - r)%nat with (S (rounds m_tokens - S r)) by (unfold rounds; lia).
  apply wp_bind. eapply wp_mono; [exact Hb|]. by intros [x|x] t.
Qed.

Lemma level_round_binary fuel n e :
  (n ≤ 10)%nat → level_round fuel n e = binary_round m_tokens (binary (unary_at m_tokens fuel) (10 - n) (S n)) (operators n) e.
Proof. intros Hn. unfold level_round. destruct (Nat.eqb_spec n Postfix); [lia|done]. Qed.

(** An operand, with what stands behind it. *)
Lemma operand_goes k n i e j fuel s Q : parsed k n i e j → forward i j → (1 ≤ n ≤ 11)%nat → closed n (kind j) →
  k < Z.of_nat fuel → m_type_aliases s = aliases → m_expression_depth s = 128 - k →
  Q e (at_position j s) → goes (binary (unary_at m_tokens fuel) (11 - n) n) Q (at_position i s).
Proof.
  intros Hp Hf Hn Hc Hk Ha Hd HQ. rewrite <- level_binary by done. apply Hp; try done.
  destruct (decide (n = 11)%nat) as [->|]; [done|]. apply gets_to_binary; [lia|apply (closed_weaken n); [done|lia]|].
  intros r Hr. destruct Hf. eapply (goes_loop _ r j); [lia|]. rewrite level_round_binary by lia. unfold binary_round.
  apply wp_bind, wp_match_at; [by apply operators_end; lia|intros Hin; by apply Hc in Hin|done].
Qed.

(** One more round of the loop of a level. *)
Lemma round_parsed k n i l m e j : (1 ≤ n ≤ 10 ∨ n = Postfix)%nat → parsed k n i l m → forward i m → (m < j)%nat →
  (n = Postfix ∨ closed (S n) (kind m)) →
  (∀ fuel s Q, k < Z.of_nat fuel → m_type_aliases s = aliases → m_expression_depth s = 128 - k →
    (n = Postfix ∨ closed (S n) (kind j)) →
    Q (inl e) (at_position j s) → goes (level_round fuel n l) Q (at_position m s)) →
  parsed k n i e j.
Proof.
  intros Hn Hp Hf Hm Hc Hround fuel s Q Hk Ha Hd HQ. unfold forward in Hf.
  destruct Hn as [Hn|Hn].
  - assert (closed (S n) (kind j) ∧ ∀ r, (r ≤ j - i)%nat → goes (loop (rounds m_tokens - r) (level_round fuel n) e) Q (at_position j s)) as [Hj HQ'].
    { do 11 (destruct n as [|n]; [try lia; exact HQ|]). lia. }
    apply Hp; [done..|]. apply gets_to_binary; [done|destruct Hc; [lia|done]|]. intros r Hr.
    apply (goes_loop _ r m); [lia|]. apply Hround; auto. apply HQ'. lia.
  - subst n. apply Hp; [done..|]. intros r Hr. apply (goes_loop _ r m); [lia|]. apply Hround; auto. apply HQ. lia.
Qed.

Lemma binary_parsed k n i l m r j : (1 ≤ n ≤ 10)%nat → parsed k n i l m → forward i m → kind m ∈ operators n →
  parsed k (S n) (S m) r j → forward (S m) j → fits (BinaryExpr l (token_at m) r) → parsed k n i (BinaryExpr l (token_at m) r) j.
Proof.
  intros Hn Hl Hfl Hop Hr Hfr Hfits. apply (round_parsed k n i l m); try done; [lia|by destruct Hfr; lia|right; by apply operator_closed|].
  intros fuel s Q Hk Ha Hd Hj HQ. rewrite level_round_binary by lia. unfold binary_round.
  destruct (operators_end n Hn) as [Hend Hall].
  apply wp_bind, wp_match_at; [done|intros _|done]. apply wp_bind, goes_previous; [by intros E; rewrite E in Hop|].
  apply wp_bind. replace (10 - n)%nat with (11 - S n)%nat by lia. eapply operand_goes; try done; [lia|destruct Hj; [lia|done]|].
  apply wp_fmap, goes_node; done.
Qed.

Lemma operand_parsed k n i e j : (1 ≤ n ≤ 10)%nat → parsed k (S n) i e j → forward i j → parsed k n i e j.
Proof.
  intros Hn Hp Hf fuel s Q Hk Ha Hd HQ.
  assert (closed (S n) (kind j) ∧ goes (loop (rounds m_tokens - 0) (level_round fuel n) e) Q (at_position j s)) as [Hj HQ'].
  { do 11 (destruct n as [|n]; [try lia; (split; [apply HQ|]; apply HQ; lia)|]). lia. }
  rewrite level_binary by lia. replace (11 - n)%nat with (S (11 - S n)) by lia. cbn [binary]. unfold binaryLeft.
  apply wp_bind. eapply operand_goes; try done; [lia|].
  rewrite Nat.sub_0_r in HQ'. unfold level_round in HQ'. destruct (Nat.eqb_spec n Postfix); [lia|].
  by replace (11 - S n)%nat with (10 - n)%nat by lia.
Qed.

Lemma goes_guard {A} k (p : Parse A) i Q s : m_expression_depth s = 128 - k → 0 < k →
  (∀ s1, m_type_aliases s1 = m_type_aliases s → m_expression_depth s1 = 128 - (k - 1) →
    goes p (λ a t, ∃ j, t = at_position j s1 ∧ Q a (at_position j s)) (at_position i s1)) →
  goes (expression_guard m_tokens p) Q (at_position i s).
Proof.
  intros Hd Hk Hp. unfold ParseSpec.wp, expression_guard. cbn [m_expression_depth at_position]. rewrite Hd.
  replace (128 <=? 128 - k) with false by (symmetry; apply Z.leb_gt; lia). cbn.
  specialize (Hp (with_expression_depth (128 - k + 1) s) eq_refl ltac:(cbn; lia)).
  change (at_position i (with_expression_depth (128 - k + 1) s)) with (with_expression_depth (128 - k + 1) (at_position i s)) in Hp.
  unfold ParseSpec.wp in Hp. destruct (p _) as [[a s']|]; [|done]. cbn. destruct Hp as (j & -> & HQ).
  replace (with_expression_depth _ _) with (at_position j s); [done|]. destruct s; cbn in *. unfold with_expression_depth, at_position. cbn. f_equal. lia.
Qed.

Ltac goes_step :=
  cbv beta iota zeta;
  lazymatch goal with
  | |- ParseSpec.wp _ (match_ _ _) _ _ => eapply goes_match; [eassumption|reflexivity|vm_compute; reflexivity|]
  | |- ParseSpec.wp _ (consume _ _ _) _ _ => apply goes_consume; [discriminate|done|]
  | |- ParseSpec.wp _ (gets (previous _)) _ _ => apply goes_previous; [kinds|]
  | |- ParseSpec.wp _ (gets (isAtStartOfDeclaration _)) _ _ => eapply goes_typed; [done|eassumption|]
  | |- ParseSpec.wp _ (parseType _) _ _ => eapply goes_type; [done|eassumption|]
  | |- ParseSpec.wp _ (lift (node _)) _ _ => apply goes_node; [done|]
  | |- ParseSpec.wp _ _ _ _ => wp_step
  end.
Ltac going := repeat goes_step.
Ltac ended := first [done | eapply closed_at; [eassumption|vm_compute; reflexivity]].
(** Uses that an expression is parsed. *)
Ltac expr H := eapply H; [done..|]; try (split; [ended|]).

(** A function that holds a guard. *)
Ltac guarded :=
  intros fuel s Q Hfuel Ha Hd HQ; destruct fuel as [|fuel]; [lia|]; cbn [level binary Nat.sub];
  try change (assignment_at m_tokens (S fuel)) with (assignment_body m_tokens (assignment_at m_tokens fuel) (unary_at m_tokens fuel));
  try change (unary_at m_tokens (S fuel)) with (unary_body m_tokens (assignment_at m_tokens fuel) (unary_at m_tokens fuel));
  eapply goes_guard; [exact Hd|assumption|]; intros s1 Ha1 Hd1; rewrite Ha in Ha1.
Ltac any_case H := repeat (apply elem_of_cons in H as [H|H]); [..|by apply elem_of_nil in H].

Lemma assign_parsed k i l m r j : 0 < k → parsed (k - 1) 1 i l m → forward i m → kind m = EQUAL →
  parsed (k - 1) Assignment (S m) r j → fits (AssignExpr l r) → parsed k Assignment i (AssignExpr l r) j.
Proof.
  intros Hk Hl Hfl Hm Hr Hfits. guarded. rewrite logicalOr_binary. destruct HQ as [Hc HQ].
  apply wp_bind. eapply (operand_goes (k - 1) 1); try eassumption; [lia|apply operator_closed; rewrite Hm; set_solver|lia|].
  going. eapply Hr; [lia|assumption..|]. split; [done|]. going. by found.
Qed.

Lemma update_parsed k i l m r j : 0 < k → parsed (k - 1) 1 i l m → forward i m → kind m ∈ compound_operators →
  parsed (k - 1) Assignment (S m) r j → fits (UpdateExpr (token_at m) l r false) → parsed k Assignment i (UpdateExpr (token_at m) l r false) j.
Proof.
  intros Hk Hl Hfl Hm Hr Hfits. guarded. rewrite logicalOr_binary. destruct HQ as [Hc HQ].
  apply wp_bind. eapply (operand_goes (k - 1) 1); try eassumption; [lia|apply operator_closed; set_solver|lia|].
  any_case Hm; going; (eapply Hr; [lia|assumption..|]; split; [done|]; going; by found).
Qed.

Lemma value_parsed k i e j : 0 < k → parsed (k - 1) 1 i e j → forward i j → parsed k Assignment i e j.
Proof.
  intros Hk Hp Hf. guarded. rewrite logicalOr_binary. destruct HQ as [Hc HQ].
  apply wp_bind. eapply (operand_goes (k - 1) 1); try eassumption; [lia|by eapply closed_weaken; [eassumption|lia]|lia|].
  destruct Hc as [_ Hc]. specialize (Hc 0%nat (le_n 0)).
  apply wp_bind, wp_match_at; [reflexivity|set_solver|intros _]. apply wp_bind, wp_match_at; [reflexivity|set_solver|intros _].
  apply wp_ret. by found.
Qed.

Lemma increment_parsed k n i e j : n = Prefix ∨ n = Updated → 0 < k → kind i ∈ updates → parsed (k - 1) n (S i) e j →
  fits (UpdateExpr (token_at i) e (one_at (token_at i)) false) →
  parsed k n i (UpdateExpr (token_at i) e (one_at (token_at i)) false) j.
Proof.
  intros Hn Hk Hi He Hfits. destruct Hn as [-> | ->]; guarded; apply wp_bind, wp_match_at; try done; intros _; goes_step; goes_step; goes_step;
   (eapply He; [lia|assumption..|]); cbn [gets_to]; try (split; [apply HQ|]); going; found; apply HQ.
Qed.

Lemma prefix_parsed k n i e j : n = Prefix ∨ n = Updated → 0 < k → kind i ∈ prefixes → parsed (k - 1) n (S i) e j →
  fits (prefix_node (token_at i) e) → parsed k n i (prefix_node (token_at i) e) j.
Proof.
  intros Hn Hk Hi He Hfits. destruct Hn as [-> | ->]; guarded; (any_case Hi; going;
   (eapply He; [lia|assumption..|]); cbn [gets_to]; try (split; [apply HQ|]); going; found; apply HQ).
Qed.

(** A primary expression starts with none of the operators in front. *)
Lemma postfix_opens k n i e j : derives k n i e j → n = Postfix ∨ n = Primary → kind i ∉ updates ++ prefixes.
Proof.
  induction 1 using derives_min with (P0 := λ _ _ _ _, True) (P1 := λ _ _ _ _, True) (P2 := λ _ _ _ _, True) (P3 := λ _ _ _ _, True);
    try done; intros Hn; try (by lia); try (by apply IHderives; auto);
    repeat match goal with H : kind _ ∈ _ :: _ |- _ => any_case H end;
    lazymatch goal with H : kind ?i = _ |- kind ?i ∉ _ => rewrite H; by apply (bool_decide_unpack _) end.
Qed.

Lemma postfix_parsed k i e j : 0 < k → parsed (k - 1) Postfix i e j → forward i j → kind i ∉ updates ++ prefixes → parsed k Prefix i e j.
Proof.
  intros Hk He Hf Hi. guarded. destruct HQ as [Hc HQ]. destruct Hf as [Hf Hf'].
  apply wp_bind, wp_match_at; [reflexivity|set_solver|intros _]. apply wp_bind, wp_match_at; [reflexivity|set_solver|intros _].
  eapply He; [lia|assumption..|]. intros r Hr. apply (goes_loop _ r j); [lia|]. cbn [level_round Nat.eqb].
  destruct Hc as [Hc _]. unfold suffixes in Hc.
  do 4 (apply wp_bind, wp_match_at; [reflexivity|set_solver|intros _]). apply wp_ret. by found.
Qed.
Lemma postfix_update_parsed k i e j : 0 < k → parsed (k - 1) Postfix i e j → forward i j → kind i ∉ updates ++ prefixes →
  kind j ∈ updates → fits (UpdateExpr (token_at j) e (one_at (token_at j)) true) →
  parsed k Updated i (UpdateExpr (token_at j) e (one_at (token_at j)) true) (S j).
Proof.
  intros Hk He Hf Hi Hj Hfits. guarded. destruct Hf as [Hf Hf'].
  apply wp_bind, wp_match_at; [reflexivity|set_solver|intros _]. apply wp_bind, wp_match_at; [reflexivity|set_solver|intros _].
  eapply He; [lia|assumption..|]. intros r Hr. apply (goes_loop _ r j); [lia|].
  change (level_round fuel Postfix) with (postfix_round m_tokens (assignment_at m_tokens fuel)). unfold postfix_round.
  any_case Hj; going; by found.
Qed.
Lemma updated_parsed k i e j : parsed k Updated i e j → parsed k Prefix i e j.
Proof. intros He fuel s Q Hk Ha Hd [_ HQ]. by apply He. Qed.
Lemma primary_parsed k i e j : parsed k Primary i e j → parsed k Postfix i e j.
Proof.
  intros He fuel s Q Hk Ha Hd HQ. cbn [level]. unfold postfix. apply wp_bind. eapply He; [done..|]. cbn [gets_to].
  specialize (HQ 0%nat ltac:(lia)). by rewrite Nat.sub_0_r in HQ.
Qed.

(** ** Lists of expressions *)

Definition item_round (fuel : nat) (l : list Expr) : Parse (list Expr + list Expr) :=
  x ← assignment_at m_tokens fuel; more ← match_ m_tokens [COMMA]; mret (if (more : bool) then inl (l ++ [x]) else inr (l ++ [x])).
Definition element_round (fuel : nat) (brace : Token) (l : list Expr) : Parse (list Expr + list Expr) :=
  stop ← gets (λ s, check m_tokens RBRACE s || isAtEnd m_tokens s);
  if (stop : bool) then mret (inr l) else
  (_ ← guard_ (65536 <=? zlen l) (error_at "Initializer list exceeds one bank." brace); item_round fuel l).

(** The loop [body] gets from [i] to [j], with [l] read. *)
Definition reaches (k : Z) (body : nat → list Expr → Parse (list Expr + list Expr)) (i : nat) (l : list Expr) (j : nat) : Prop := ∀ fuel s Q,
  k < Z.of_nat fuel → m_type_aliases s = aliases → m_expression_depth s = 128 - k →
  (∀ r, (r ≤ j - i)%nat → goes (loop (rounds m_tokens - r) (body fuel) l) Q (at_position j s)) →
  goes (loop (rounds m_tokens) (body fuel) []) Q (at_position i s).
(** ... and ends there. *)
Definition listed (k : Z) (body : nat → list Expr → Parse (list Expr + list Expr)) (i : nat) (l : list Expr) (j : nat) : Prop := ∀ fuel s Q,
  k < Z.of_nat fuel → m_type_aliases s = aliases → m_expression_depth s = 128 - k →
  Q l (at_position j s) → goes (loop (rounds m_tokens) (body fuel) []) Q (at_position i s).

Lemma reaches_start k body i : reaches k body i [] i.
Proof. intros fuel s Q _ _ _ HQ. specialize (HQ 0%nat ltac:(lia)). by rewrite Nat.sub_0_r in HQ. Qed.

Lemma item_goes k l i e j fuel s Q : parsed k Assignment i e j → closed 0 (kind j) →
  k < Z.of_nat fuel → m_type_aliases s = aliases → m_expression_depth s = 128 - k →
  (kind j = COMMA → Q (inl (l ++ [e])) (at_position (S j) s)) → (kind j ≠ COMMA → Q (inr (l ++ [e])) (at_position j s)) →
  goes (item_round fuel l) Q (at_position i s).
Proof.
  intros He Hc Hk Ha Hd Ht Hf. unfold item_round. apply wp_bind. eapply He; [assumption..|]. split; [done|].
  apply wp_bind, wp_match_at; [reflexivity|intros Hin|intros Hin]; apply wp_ret; [apply Ht|apply Hf]; set_solver.
Qed.

Lemma items_step k i l m e j : reaches k item_round i l m → parsed k Assignment m e j → (i ≤ m)%nat → forward m j →
  (kind j = COMMA → reaches k item_round i (l ++ [e]) (S j)) ∧
  (closed 0 (kind j) → kind j ≠ COMMA → listed k item_round i (l ++ [e]) j).
Proof.
  intros Hl He Hi [Hf Hf']. split; [intros Hj|intros Hc Hj]; intros fuel s Q Hk Ha Hd HQ; apply Hl; try done; intros r Hr;
    (apply (goes_loop _ r m); [lia|]); eapply (item_goes k); try done.
  - eapply closed_at; [done|by vm_compute].
  - intros _. apply HQ. lia.
Qed.

Lemma derives_starts k n i e j : derives k n i e j → kind i ≠ END_OF_FILE.
Proof.
  induction 1 using derives_min with (P0 := λ _ _ _ _, True) (P1 := λ _ _ _ _, True) (P2 := λ _ _ _ _, True) (P3 := λ _ _ _ _, True);
    try done; kinds.
Qed.
Lemma not_ended s i : kind i ≠ END_OF_FILE → isAtEnd m_tokens (at_position i s) = false.
Proof.
  intros H. pose proof (kind_inside i H) as Hi. unfold isAtEnd. cbn. unfold kind, Parser.token_at in H.
  destruct (m_tokens !! i); [|done]. by apply bool_decide_eq_false.
Qed.

Lemma elements_step k i l m e j brace : reaches k (λ fuel, element_round fuel brace) i l m → kind m ≠ RBRACE → kind m ≠ END_OF_FILE →
  zlen l < 65536 → parsed k Assignment m e j → (i ≤ m)%nat → forward m j →
  (kind j = COMMA → reaches k (λ fuel, element_round fuel brace) i (l ++ [e]) (S j)) ∧
  (kind j = RBRACE → listed k (λ fuel, element_round fuel brace) i (l ++ [e]) j).
Proof.
  intros Hl Hm Hm' Hz He Hi [Hf Hf']. split; intros Hj fuel s Q Hk Ha Hd HQ; apply Hl; try done; intros r Hr;
    (apply (goes_loop _ r m); [lia|]); unfold element_round; apply wp_bind, wp_gets; rewrite check_at, not_ended by done;
    (rewrite (bool_decide_false (kind m = RBRACE)) by done); cbn [orb];
    (apply wp_bind, wp_guard; [intros ?%Z.leb_le; lia|intros _]); (eapply (item_goes k); try done; [by eapply closed_at|..]).
  - intros _. apply HQ. lia.
  - congruence.
Qed.

Lemma elements_stop k i l j brace : reaches k (λ fuel, element_round fuel brace) i l j → kind j = RBRACE → (i ≤ j)%nat →
  listed k (λ fuel, element_round fuel brace) i l j.
Proof.
  intros Hl Hj Hi fuel s Q Hk Ha Hd HQ. assert (j < length m_tokens)%nat by (apply kind_inside; kinds).
  apply Hl; try done. intros r Hr. apply (goes_loop _ r j); [lia|]. unfold element_round. apply wp_bind, wp_gets.
  rewrite check_at by done. rewrite (bool_decide_true (kind j = RBRACE)) by done. by apply wp_ret.
Qed.

(** ** Suffixes *)

Lemma suffix_parsed k i l m e j : parsed k Postfix i l m → forward i m → (m < j)%nat →
  (∀ fuel s Q, k < Z.of_nat fuel → m_type_aliases s = aliases → m_expression_depth s = 128 - k →
    Q (inl e) (at_position j s) → goes (postfix_round m_tokens (assignment_at m_tokens fuel) l) Q (at_position m s)) →
  parsed k Postfix i e j.
Proof.
  intros Hl Hf Hm Hround. apply (round_parsed k Postfix i l m); try done; [by right|by left|]. intros. by apply Hround.
Qed.

Definition arguments_parsed (k : Z) (i : nat) (l : list Expr) (j : nat) : Prop :=
  kind i = RPAREN ∧ l = [] ∧ j = i ∨ kind i ≠ RPAREN ∧ (kind j = RPAREN → listed k item_round i l j).

Lemma call_parsed k i e m l j : parsed k Postfix i e m → forward i m → kind m = LPAREN → arguments_parsed k (S m) l j → (S m ≤ j)%nat →
  kind j = RPAREN → fits (CallExpr e (token_at j) l) → parsed k Postfix i (CallExpr e (token_at j) l) (S j).
Proof.
  intros He Hf Hm Hl Hj Hr Hfits. apply (suffix_parsed k i e m); try done; [lia|]. intros fuel s Q Hk Ha Hd HQ.
  unfold postfix_round. do 3 goes_step. destruct Hl as [(Hp & -> & ->)|(Hp & Hl)].
  - apply (goes_check RPAREN true); [done|by apply bool_decide_eq_true|]. going. exact HQ.
  - apply (goes_check RPAREN false); [done|by apply bool_decide_eq_false|]. goes_step. unfold comma_list. apply (Hl Hr fuel); try done. going. exact HQ.
Qed.

Lemma subscript_parsed k i e m x j : parsed k Postfix i e m → forward i m → kind m = LBRACKET → parsed k Assignment (S m) x j →
  (S m ≤ j)%nat → kind j = RBRACKET → fits (SubscriptExpr e (token_at m) x) → parsed k Postfix i (SubscriptExpr e (token_at m) x) (S j).
Proof.
  intros He Hf Hm Hx Hj Hr Hfits. apply (suffix_parsed k i e m); try done; [lia|]. intros fuel s Q Hk Ha Hd HQ.
  unfold postfix_round. going. eapply Hx; [done..|]. split; [by eapply closed_at|]. going. exact HQ.
Qed.

Lemma member_parsed k i e m : parsed k Postfix i e m → forward i m → kind m ∈ [DOT; ARROW] → kind (S m) = IDENTIFIER →
  fits (MemberAccessExpr e (token_at (S m)) (is_tok (kind m) ARROW)) →
  parsed k Postfix i (MemberAccessExpr e (token_at (S m)) (is_tok (kind m) ARROW)) (S (S m)).
Proof.
  intros He Hf Hm Hi Hfits. apply (suffix_parsed k i e m); try done; [lia|]. intros fuel s Q Hk Ha Hd HQ.
  unfold postfix_round. any_case Hm; going; exact HQ.
Qed.

(** ** Primary expressions *)

Ltac impossible := exfalso; bool_facts; unfold kind in *; congruence.
Ltac no_plot := let H := fresh in intros H; apply andb_true_iff in H as [H _]; rewrite check_at in H by done; impossible.
Ltac primary_step :=
  first [ lazymatch goal with |- ParseSpec.wp _ (guard_ _ _) _ _ => apply wp_guard; [try no_plot|intros _] end | goes_step ].
Ltac primary_case := intros fuel s Q Hk Ha Hd HQ; cbn [level gets_to] in *; unfold primary; repeat primary_step.

Lemma token_parsed k i e : kind i ∈ [LITERAL_STRING; LITERAL_CHARACTER; KEYWORD_TRUE; KEYWORD_FALSE; LITERAL_INTEGER; IDENTIFIER; KEYWORD_NULL] →
  e = match kind i with LITERAL_STRING => StringExpr (token_at i) | IDENTIFIER => VariableExpr (token_at i) | KEYWORD_NULL => NullExpr (token_at i)
      | _ => LiteralExpr (token_at i) end → parsed k Primary i e (S i).
Proof. intros Hi He. any_case Hi; rewrite Hi in He; subst e; primary_case; exact HQ. Qed.

Definition elements_parsed (k : Z) (i : nat) (l : list Expr) (j : nat) : Prop :=
  kind j = RBRACE → ∀ brace, listed k (λ fuel, element_round fuel brace) i l j.

Lemma initializer_parsed k i l j : kind i = LBRACE → elements_parsed k (S i) l j → kind j = RBRACE → fits (InitializerListExpr (token_at i) l) →
  parsed k Primary i (InitializerListExpr (token_at i) l) (S j).
Proof.
  intros Hi Hl Hj Hfits. primary_case. unfold initializer_list. primary_step. primary_step. primary_step.
  unfold until. apply (Hl Hj (token_at i) fuel); try done. going. exact HQ.
Qed.

Lemma layout_parsed k i type j : kind i ∈ [KEYWORD_SIZEOF; KEYWORD_ALIGNOF] → kind (S i) = LPAREN → starts_type (S (S i)) = true →
  type_span (S (S i)) type j → kind j = RPAREN →
  parsed k Primary i (LayoutQueryExpr (token_at i) type None (token UNKNOWN "" 1 1)) (S j).
Proof.
  intros Hi Hp Ht Hs Hj. any_case Hi; primary_case; unfold layout_query; repeat primary_step; try impossible; try exact HQ.
Qed.

(** An expression inside, with its end. *)
Ltac inner H := eapply H; [done..|]; cbn [gets_to]; (split; [by eapply closed_at|]); repeat primary_step.

Lemma layout_value_parsed k i e j : kind i ∈ [KEYWORD_SIZEOF; KEYWORD_ALIGNOF] → kind (S i) = LPAREN → starts_type (S (S i)) = false →
  parsed k Assignment (S (S i)) e j → kind j = RPAREN →
  fits (LayoutQueryExpr (token_at i) default_type (Some e) (token UNKNOWN "" 1 1)) →
  parsed k Primary i (LayoutQueryExpr (token_at i) default_type (Some e) (token UNKNOWN "" 1 1)) (S j).
Proof.
  intros Hi Hp Ht He Hj Hfits. any_case Hi; primary_case; unfold layout_query; repeat primary_step; try impossible;
    inner He; try impossible; exact HQ.
Qed.

Lemma offset_parsed k i type j : kind i = KEYWORD_OFFSETOF → kind (S i) = LPAREN → starts_type (S (S i)) = true →
  type_span (S (S i)) type j → kind j = COMMA → kind (S j) = IDENTIFIER → kind (S (S j)) = RPAREN →
  parsed k Primary i (LayoutQueryExpr (token_at i) type None (token_at (S j))) (S (S (S j))).
Proof.
  intros Hi Hp Ht Hs Hj Hn Hr. primary_case; unfold layout_query; repeat primary_step; try impossible; exact HQ.
Qed.

Lemma pixel_parsed k i : kind i = KEYWORD_READ_PIXEL → kind (S i) ≠ KEYWORD_AT → parsed k Primary i (ReadPixelExpr (token_at i) None None) (S i).
Proof.
  intros Hi Hat. primary_case. unfold read_pixel. primary_step. primary_step. primary_step.
  apply wp_match_at; [reflexivity|set_solver|intros _]. apply wp_ret. exact HQ.
Qed.
Lemma pixel_at_parsed k i x m y j : kind i = KEYWORD_READ_PIXEL → kind (S i) = KEYWORD_AT → kind (S (S i)) = LPAREN →
  parsed k Assignment (S (S (S i))) x m → kind m = COMMA → parsed k Assignment (S m) y j → kind j = RPAREN →
  fits (ReadPixelExpr (token_at i) (Some x) (Some y)) →
  parsed k Primary i (ReadPixelExpr (token_at i) (Some x) (Some y)) (S j).
Proof.
  intros Hi Hat Hp Hx Hm Hy Hj Hfits. primary_case. unfold read_pixel. repeat primary_step. inner Hx. inner Hy. exact HQ.
Qed.

Lemma cursor_parsed k i : kind i = KEYWORD_CURSOR → kind (S i) = DOT → kind (S (S i)) = IDENTIFIER →
  lexeme (token_at (S (S i))) ∈ ["x"; "y"]%string →
  parsed k Primary i (PlotCoordinateExpr (token_at (S (S i))) (String.eqb (lexeme (token_at (S (S i)))) "y")) (S (S (S i))).
Proof.
  intros Hi Hd' Hm Hl. primary_case. unfold cursor_access. repeat primary_step; [|exact HQ].
  any_case Hl; by rewrite Hl.
Qed.

Lemma group_parsed k i e j : kind i = LPAREN → starts_type (S i) = false → parsed k Assignment (S i) e j → kind j = RPAREN →
  parsed k Primary i e (S j).
Proof. intros Hi Ht He Hj. primary_case. unfold parenthesized. repeat primary_step. inner He. exact HQ. Qed.

Lemma cast_parsed k n i type m e j : n = Prefix ∨ n = Updated → kind i = LPAREN → starts_type (S i) = true → type_span (S i) type m → kind m = RPAREN →
  parsed k n (S m) e j → (n = Prefix → kind j ∉ suffixes) → fits (CastExpr (token_at i) type e) →
  parsed k Primary i (CastExpr (token_at i) type e) j.
Proof.
  intros Hn Hi Ht Hs Hm He Hj Hfits. primary_case. unfold parenthesized. repeat primary_step.
  destruct Hn as [-> | ->]; eapply (He fuel); try done; cbn [gets_to]; [split; [apply closed_suffix; auto with lia|]|]; repeat primary_step; exact HQ.
Qed.

(** ** All of it *)

Lemma grammar_parsed : documented = false →
  (∀ k n i e j, derives k n i e j → parsed k n i e j)
  ∧ (∀ k i l j, arguments k i l j → arguments_parsed k i l j)
  ∧ (∀ k i l j, items k i l j → (kind j = COMMA → reaches k item_round i l (S j)) ∧ (closed 0 (kind j) → kind j ≠ COMMA → listed k item_round i l j))
  ∧ (∀ k i l j, elements k i l j → elements_parsed k i l j)
  ∧ (∀ k i l j, comma_ended k i l j → ∀ brace, reaches k (λ fuel, element_round fuel brace) i l j).
Proof.
  destruct grammar_forward as (F & Fa & Fi & Fe & Fc). intros Hcode.
  apply grammar_ind; intros; try (by rewrite Hcode in *);
    repeat match goal with
    | H : derives ?k ?n ?i ?e ?j |- _ =>
        lazymatch goal with _ : forward i j |- _ => fail | _ => pose proof (F _ _ _ _ _ H) end
    end.
  all: try (by eauto using assign_parsed, update_parsed, value_parsed, binary_parsed, operand_parsed, increment_parsed, prefix_parsed,
    updated_parsed, primary_parsed, member_parsed, initializer_parsed, layout_parsed, layout_value_parsed, offset_parsed, pixel_parsed,
    pixel_at_parsed, cursor_parsed, group_parsed, cast_parsed, reaches_start).
  - apply postfix_parsed; auto. eapply postfix_opens; eauto.
  - apply postfix_update_parsed; auto. eapply postfix_opens; eauto.
  - eapply call_parsed; eauto.
  - eapply subscript_parsed; eauto. unfold forward in *. lia.
  - apply token_parsed; [|by rewrite H]. rewrite H. set_solver.
  - apply token_parsed; [set_solver|]. by any_case H; rewrite H.
  - apply token_parsed; [|by rewrite H]. rewrite H. set_solver.
  - apply token_parsed; [|by rewrite H]. rewrite H. set_solver.
  - eapply cast_parsed; eauto. done.
  - by left.
  - right. split; [done|]. intros Hj. destruct H1 as [_ H1]. apply H1; [by eapply closed_at|by rewrite Hj].
  - apply (items_step k i [] i); auto using reaches_start.
  - destruct H0 as [H0 _]. apply (items_step k i l (S m)); auto. pose proof (Fi _ _ _ _ H). unfold forward in *. lia.
  - intros Hj brace. apply elements_stop; auto. eapply Fc; eauto.
  - intros Hj brace. eapply elements_step; eauto using derives_starts.
  - eapply elements_step; eauto using derives_starts.
Qed.

Lemma assignment_parsed fuel s i e j : documented = false → 128 < Z.of_nat fuel → m_type_aliases s = aliases → m_expression_depth s = 0 →
  derives 128 Assignment i e j → kind j ∉ continuations → assignment_at m_tokens fuel (at_position i s) = Ok (e, at_position j s).
Proof.
  intros Hcode Hf Ha Hd He Hj. destruct (grammar_parsed Hcode) as [P _]. apply P in He.
  specialize (He fuel s (λ a t, a = e ∧ t = at_position j s)). unfold ParseSpec.wp in He. cbn [level gets_to] in He.
  destruct (assignment_at m_tokens fuel (at_position i s)) as [[a t]|].
  - destruct He as [-> ->]; try done. split; [by apply closed_end|done].
  - exfalso. apply He; try done. split; [by apply closed_end|done].
Qed.

(* ------------------------------------------------------------------ *)
(** ** Results *)

(** C37. Whatever [parse_expression] returns is derived, in the grammar of the
    document and in that of the code, from the tokens it read, which are the ones
    from where it started to where it stopped: its tree is one that the precedence
    and associativity of the operators give. *)
Theorem expression_derived s i e s' :
  m_type_aliases s = aliases → m_expression_depth s = 0 →
  parse_expression m_tokens (at_position i s) = Ok (e, s') → ∃ j, s' = at_position j s ∧ derives 128 Assignment i e j.
Proof. unfold parse_expression. apply (assignment_derived depth_fuel 128). Qed.

End Grammar.

(** At most one tree is derived for a span that is not continued. *)
Lemma grammar_unambiguous tokens aliases i e e' j : kind tokens j ∉ continuations →
  derives tokens aliases false 128 Assignment i e j → derives tokens aliases false 128 Assignment i e' j → e = e'.
Proof.
  intros Hj He He'.
  pose proof (λ e, assignment_parsed tokens aliases false depth_fuel (with_aliases aliases (start default_config)) i e j eq_refl eq_refl eq_refl eq_refl) as P.
  pose proof (P e He Hj). pose proof (P e' He' Hj). congruence.
Qed.

(** C36. On a span whose next token does not continue an expression,
    [parse_expression] returns a tree exactly when the grammar of the code derives
    it: the document's, with the limits, but for the [++] and [--] that end their
    operand's suffixes.  Such an expression is one of the document, with the same
    tree; not the other way round ([update_ends_suffixes]). *)
Theorem expression_grammar tokens aliases s i e j :
  m_type_aliases s = aliases → m_expression_depth s = 0 → kind tokens j ∉ continuations →
  (parse_expression tokens (at_position i s) = Ok (e, at_position j s) ↔ derives tokens aliases false 128 Assignment i e j) ∧
  (derives tokens aliases false 128 Assignment i e j → derives tokens aliases true 128 Assignment i e j).
Proof.
  unfold parse_expression. intros Ha Hd Hj.
  assert (∀ documented, assignment_at tokens depth_fuel (at_position i s) = Ok (e, at_position j s) →
    derives tokens aliases documented 128 Assignment i e j) as Hsound.
  { intros d Hp. destruct (assignment_derived tokens aliases d depth_fuel 128 s i e _ Ha Hd Hp) as (j' & Hj' & He). by injection Hj' as <-. }
  assert (derives tokens aliases false 128 Assignment i e j → assignment_at tokens depth_fuel (at_position i s) = Ok (e, at_position j s)) as Hcomplete.
  { intros He. by apply (assignment_parsed tokens aliases false depth_fuel). }
  split; [split|]; auto.
Qed.

(* ------------------------------------------------------------------ *)
(** ** Witnesses *)

(** [a = b - c - d * 2;] *)
Definition sample : list Token :=
  [token IDENTIFIER "a" 1 1; token EQUAL "=" 1 3; token IDENTIFIER "b" 1 5; token MINUS "-" 1 7; token IDENTIFIER "c" 1 9;
   token MINUS "-" 1 11; token IDENTIFIER "d" 1 13; token STAR "*" 1 15; token LITERAL_INTEGER "2" 1 17;
   token SEMICOLON ";" 1 18; token END_OF_FILE "" 1 19].
Definition sample_tree : Expr :=
  let t i := token_at sample i in
  AssignExpr (VariableExpr (t 0%nat))
    (BinaryExpr (BinaryExpr (VariableExpr (t 2%nat)) (t 3%nat) (VariableExpr (t 4%nat))) (t 5%nat)
       (BinaryExpr (VariableExpr (t 6%nat)) (t 7%nat) (LiteralExpr (t 8%nat)))).

Lemma expression_derived_witness :
  parse_expression sample (start default_config) = Ok (sample_tree, at_position 9 (start default_config)) ∧
  ∀ documented, ∃ j, at_position 9 (start default_config) = at_position j (start default_config) ∧
    derives sample builtinTypeAliases documented 128 0 0 sample_tree j.
Proof.
  split; [by vm_compute|]. intros documented.
  apply (expression_derived sample builtinTypeAliases documented (start default_config) 0); by vm_compute.
Defined.

Lemma expression_grammar_witness :
  kind sample 9 ∉ continuations ∧
  ((parse_expression sample (at_position 0 (start default_config)) = Ok (sample_tree, at_position 9 (start default_config)) ↔
    derives sample builtinTypeAliases false 128 0 0 sample_tree 9) ∧
   (derives sample builtinTypeAliases false 128 0 0 sample_tree 9 → derives sample builtinTypeAliases true 128 0 0 sample_tree 9)) ∧
  derives sample builtinTypeAliases true 128 0 0 sample_tree 9.
Proof.
  assert (kind sample 9 ∉ continuations) as H by (by apply (bool_decide_unpack _); vm_compute).
  pose proof (expression_grammar sample builtinTypeAliases (start default_config) 0 sample_tree 9 eq_refl eq_refl H) as G.
  split; [exact H|]. split; [exact G|]. apply G, G. by vm_compute.
Defined.

(** [x++[0]]: an expression of the document.  In the code nothing continues a
    postfix [++]; the parser stops before the bracket, and no other tree of the
    five tokens is derived. *)
Definition updated_subscript : list Token :=
  [token IDENTIFIER "x" 1 1; token PLUS_PLUS "++" 1 2; token LBRACKET "[" 1 4; token LITERAL_INTEGER "0" 1 5;
   token RBRACKET "]" 1 6; token SEMICOLON ";" 1 7; token END_OF_FILE "" 1 8].
Definition updated_subscript_tree : Expr :=
  let t i := token_at updated_subscript i in
  SubscriptExpr (UpdateExpr (t 1%nat) (VariableExpr (t 0%nat)) (one_at (t 1%nat)) true) (t 2%nat) (LiteralExpr (t 3%nat)).

(** A postfix expression is an expression. *)
Lemma value_derived tokens aliases documented k i e j : 2 ≤ k →
  derives tokens aliases documented (k - 2) Postfix i e j → derives tokens aliases documented k Assignment i e j.
Proof.
  intros Hk H. apply d_value; [lia|]. assert (∀ d n, (n + d = 11)%nat → (1 ≤ n)%nat → derives tokens aliases documented (k - 1) n i e j) as Hn.
  { induction d as [|d IH]; intros n Hd Hn.
    - replace n with Prefix by lia. apply d_postfix; [lia|]. by replace (k - 1 - 1) with (k - 2) by lia.
    - apply d_operand; [lia|]. apply IH; lia. }
  by apply (Hn 10%nat).
Qed.

Lemma update_ends_suffixes :
  (∃ e, parse_expression updated_subscript (start default_config) = Ok (e, at_position 2 (start default_config))) ∧
  derives updated_subscript builtinTypeAliases true 128 0 0 updated_subscript_tree 5 ∧
  ∀ e, ¬ derives updated_subscript builtinTypeAliases false 128 0 0 e 5.
Proof.
  split; [eexists; by vm_compute|]. split.
  - apply value_derived; [done|]. apply (d_subscript _ _ _ _ 0 _ 2 _ 4); try (by vm_compute).
    + apply (d_suffix_update _ _ _ _ 0 _ 1); [done| |by vm_compute; left|by vm_compute]. by apply d_primary, d_variable.
    + apply value_derived; [done|]. apply d_primary, d_literal. by apply (bool_decide_unpack _).
  - intros e He. apply (assignment_parsed _ _ _ depth_fuel (start default_config)) in He; try done.
    by apply (bool_decide_unpack _); vm_compute.
Qed.
