(* ===== verification/IR.v ===== *)
(** * IR: the typed intermediate representation

    Models the data of [IR.hpp] (handles, opcodes, instructions, blocks,
    functions, modules, hardware effects) and the classification predicates
    at the top of [IR.cpp].  A value handle is its number (0 is invalid), a
    block handle its index ([InvalidBlock] is invalid).  The [std::map]s of a
    function are lists of pairs in key order, which is the order the code
    iterates them in. *)

From S2P Require Import Prelude Target Types Token.

(** ** Handles *)

Notation IRValueId := Z (only parsing).
Definition InvalidValue : IRValueId := 0.
Definition value_isValid (v : IRValueId) : bool := negb (v =? InvalidValue).

Notation IRBlockId := Z (only parsing).
Definition InvalidBlock : IRBlockId := 2 ^ 32 - 1.
Definition block_isValid (b : IRBlockId) : bool := negb (b =? InvalidBlock).

(** ** Instructions *)

Inductive IROpcode :=
  | OpPhi | OpConstant | OpAddress | OpPointerOffset | OpPointerCompare | OpLoad
  | OpLoadIndirect | OpStore | OpStoreIndirect | OpMemoryInitialize | OpBinary | OpDivMod
  | OpDivModResult | OpBitExtract | OpUnary | OpCast | OpCall | OpPlotCoordinateRead
  | OpPlotCoordinateWrite | OpPlotBegin | OpPlotEnd | OpPlot | OpSetColor | OpCMode | OpRpix
  | OpCache | OpHardwareLoop | OpHardwareLoopEnd | OpHardwareLoopLeave | OpBranch
  | OpCondBranch | OpSwitch | OpReturn | OpReturnVoid | OpUnreachable.

#[global] Instance IROpcode_eq_dec : EqDecision IROpcode.
Proof. solve_decision. Defined.

Notation is_op o k := (bool_decide (o = k)).

Record IRInstruction := mkInstr {
  i_opcode : IROpcode;
  i_type : CType;
  i_result : IRValueId;
  i_operands : list IRValueId;
  i_targets : list IRBlockId;
  i_loop_target : IRBlockId;
  i_loop_id : Z;
  i_case_values : list Z;
  i_has_default_target : bool;
  i_immediate : Z;
  i_operation : string;
  i_symbol : string;
  i_symbol_id : SymbolId;
  i_memory_volatile : bool;
  i_in_plot_context : bool;
  i_is_live_range_split : bool;
  i_initialization_values : list Z;
  i_compiler_generated_loop : bool;
  i_source : Token
}.

Definition no_token : Token := token UNKNOWN "" 0 0.

(** A default-constructed instruction. *)
Definition default_instr : IRInstruction :=
  mkInstr OpConstant default_type InvalidValue [] [] InvalidBlock 0 [] false 0 "" "" 0
    false false false [] false no_token.

#[global] Instance IRInstruction_eq_dec : EqDecision IRInstruction.
Proof. solve_decision. Defined.

(** [IRHardwareEffects], with the registers as masks. *)
Record IRHardwareEffects := mkEffects {
  reads_registers : Z; writes_registers : Z;
  reads_color : bool; writes_color : bool; reads_por : bool; writes_por : bool;
  reads_framebuffer : bool; writes_framebuffer : bool; pixel_cache : bool; rom_buffer : bool
}.
Definition no_effects : IRHardwareEffects :=
  mkEffects 0 0 false false false false false false false false.

Definition observable (e : IRHardwareEffects) : bool :=
  negb (writes_registers e =? 0) || writes_color e || writes_por e || reads_framebuffer e
  || writes_framebuffer e || pixel_cache e || rom_buffer e.

Definition hardwareEffects (i : IRInstruction) : IRHardwareEffects :=
  let coordinate := u16 (Z.shiftl 1 (if i_immediate i =? 0 then 1 else 2)) in
  match i_opcode i with
  | OpPlotCoordinateRead => mkEffects coordinate 0 false false false false false false false false
  | OpPlotCoordinateWrite => mkEffects 0 coordinate false false false false false false false false
  | OpPlot => mkEffects 6 2 true false true false false true true false
  | OpRpix => mkEffects 6 0 false false true false true true true false
  | OpSetColor =>
      if String.eqb (i_operation i) "rom.byte"
      then mkEffects 0 (Z.shiftl 1 14) true true true false false false false true
      else mkEffects 0 0 true true true false false false false false
  | OpCMode => mkEffects 0 0 false false false true false false false false
  | OpHardwareLoop | OpHardwareLoopEnd | OpHardwareLoopLeave =>
      let m := Z.lor (Z.shiftl 1 12) (Z.shiftl 1 13) in
      mkEffects m m false false false false false false false false
  | _ => no_effects
  end.

(** ** Blocks, functions, modules *)

Record IRBasicBlock := mkBlock {
  b_id : IRBlockId;
  b_label : string;
  b_instructions : list IRInstruction
}.

(** An immutable local array: its type and its little-endian image. *)
Record IRImmutableLocalArray := mkPool { p_type : CType; p_bytes : list Z }.

(** [struct Parameter] of the AST. *)
Record FormalParameter := mkParam { param_type : CType; param_name : Token; param_symbol_id : SymbolId }.

Record IRFunction := mkFunction {
  f_name : string;
  f_link_name : string;
  f_return_type : CType;
  f_parameters : list FormalParameter;
  f_total_local_alloc_size : Z;
  f_is_cached : bool;
  f_needs_implicit_return : bool;
  f_blocks : list IRBasicBlock;
  f_entry : IRBlockId;
  f_value_count : Z;
  f_storage_layout_valid : bool;
  f_storage_layout : list (SymbolId * Symbol);
  f_immutable_local_arrays : list (SymbolId * IRImmutableLocalArray)
}.

Record IRModule := mkModule {
  m_functions : list IRFunction;
  m_target : TargetKind;
  m_bitmap : Bitmap.BitmapConfig
}.

(** [map.find] on an ordered map. *)
Fixpoint find_key {A} (m : list (Z * A)) (k : Z) : option A :=
  match m with
  | [] => None
  | (k', x) :: m => if k' =? k then Some x else find_key m k
  end.

Definition has_key {A} (m : list (Z * A)) (k : Z) : bool := existsb (λ e, e.1 =? k) m.

(* ------------------------------------------------------------------ *)
(** ** Classification *)

Definition MaxIRBlocksPerFunction : Z := 1000000.
Definition MaxIRValuesPerFunction : Z := 1000000.

Definition isValueOpcode (o : IROpcode) : bool :=
  match o with
  | OpPhi | OpRpix | OpPlotCoordinateRead | OpConstant | OpAddress | OpPointerOffset
  | OpPointerCompare | OpLoad | OpLoadIndirect | OpBinary | OpDivMod | OpDivModResult
  | OpBitExtract | OpUnary | OpCast | OpCall => true
  | _ => false
  end.

Definition isTerminatorOpcode (o : IROpcode) : bool :=
  match o with
  | OpBranch | OpCondBranch | OpSwitch | OpReturn | OpReturnVoid | OpUnreachable => true
  | _ => false
  end.

Definition opcodeName (o : IROpcode) : string :=
  match o with
  | OpPhi => "phi" | OpConstant => "const" | OpAddress => "address"
  | OpPointerOffset => "pointer.offset" | OpPointerCompare => "pointer.compare"
  | OpLoad => "load" | OpLoadIndirect => "load.indirect" | OpStore => "store"
  | OpStoreIndirect => "store.indirect" | OpMemoryInitialize => "memory.initialize"
  | OpBinary => "binary" | OpDivMod => "divmod" | OpDivModResult => "divmod.result"
  | OpBitExtract => "bit.extract" | OpUnary => "unary" | OpCast => "cast" | OpCall => "call"
  | OpPlotCoordinateRead => "cursor.read" | OpPlotCoordinateWrite => "cursor.write"
  | OpPlotBegin => "plot.begin" | OpPlotEnd => "plot.end" | OpPlot => "pixel"
  | OpSetColor => "color" | OpCMode => "cmode" | OpRpix => "rpix" | OpCache => "cache"
  | OpHardwareLoop => "hardware_loop" | OpHardwareLoopEnd => "hardware_loop.end"
  | OpHardwareLoopLeave => "hardware_loop.leave" | OpBranch => "br" | OpCondBranch => "condbr"
  | OpSwitch => "switch" | OpReturn => "return" | OpReturnVoid => "return.void"
  | OpUnreachable => "unreachable"
  end.

Definition typeName (t : CType) : string :=
  let name := type_text t in if String.eqb name "" then "none" else name.

Definition isVoidType (t : CType) : bool :=
  bool_decide (base t = BaseVoid) && (pointer_level t =? 0).

Definition isIntegerType (t : CType) : bool :=
  (pointer_level t =? 0)
  && (bool_decide (base t = BaseByte) || bool_decide (base t = BaseWord)
      || bool_decide (base t = BaseBool)).

Definition legal_operations : list string :=
  ["+"; "-"; "*"; "%"; "&"; "|"; "^"; "<<"; ">>"; "/"; ">"; "<"; ">="; "<="; "=="; "!="]%string.
Definition isLegalBinaryOperation (operation : string) : bool :=
  existsb (String.eqb operation) legal_operations.

(** Comparing layers of malformed types throws. *)
Definition sameValueType (left right : CType) : result bool :=
  if negb (bool_decide (base left = base right)
           && String.eqb (structName left) (structName right)
           && Bool.eqb (is_unsigned left) (is_unsigned right)
           && (pointer_level left =? pointer_level right)
           && (array_size left =? array_size right)) then Ok false
  else if pointer_level left =? 0 then Ok true
  else
    same ← samePointerLayers left right;
    Ok (same && bool_decide (space left = space right)).

Definition isTerminator (i : IRInstruction) : bool :=
  isTerminatorOpcode (i_opcode i)
  || ((is_op (i_opcode i) OpHardwareLoop || is_op (i_opcode i) OpHardwareLoopEnd)
      && negb (bool_decide (i_targets i = []))).

Definition producesValue (i : IRInstruction) : bool :=
  isValueOpcode (i_opcode i)
  && negb ((is_op (i_opcode i) OpCall || is_op (i_opcode i) OpRpix) && isVoidValue (i_type i)).

(* ------------------------------------------------------------------ *)
(** ** Lemmas *)

Lemma sameValueType_fields l r :
  sameValueType l r = Ok true →
  base l = base r ∧ structName l = structName r ∧ is_unsigned l = is_unsigned r ∧
  pointer_level l = pointer_level r ∧ array_size l = array_size r.
Proof.
  unfold sameValueType. destruct (negb _) eqn:E; [done|]. intros _. bool_facts.
  split_and!; try done; [by apply String.eqb_eq | by apply eqb_prop].
Qed.

Lemma sameValueType_integer l r :
  sameValueType l r = Ok true → isIntegerType l = isIntegerType r.
Proof.
  intros (Hb & _ & _ & Hp & _)%sameValueType_fields. unfold isIntegerType. by rewrite Hb, Hp.
Qed.
