(* ===== verification/ScalarFold.v ===== *)
(** * ScalarFold: compile-time evaluation

    Models [ConstantEvaluator.cpp] (constant expressions of the AST) and
    [IRScalarFold.hpp] (folding of IR instructions).  Both compute in
    [std::int64_t] and bring the result into the range of its type with
    [convert].  The arithmetic is exact here; [binary_value_bounds] shows that
    on operands of at most 16 bits no intermediate leaves 64 bits, so exact
    arithmetic is what the code computes.

    The evaluator sees four kinds of expression nodes; [OtherExpr] stands for
    the kinds it refuses.  [Ok None] is the code's [return false]. *)

From S2P Require Import Prelude Types Token Lexer Literal IR.

(* ------------------------------------------------------------------ *)
(** ** Conversion to a scalar type *)

Definition width (t : CType) : Z := if bool_decide (base t = BaseByte) then 8 else 16.

Definition convert (value : Z) (t : CType) : Z :=
  if 0 <? pointer_level t then value
  else if bool_decide (base t = BaseBool) then (if value =? 0 then 0 else 1)
  else
    let modulus := Z.shiftl 1 (width t) in
    let bits := Z.land (u64 value) (modulus - 1) in
    if negb (is_unsigned t) && (modulus / 2 <=? bits) then bits - modulus else bits.

(** The members every expression node has. *)
Record ExprInfo := mkExpr {
  e_token : Token;
  e_is_constant : bool;
  e_constant_value : Z;
  e_result_type : CType
}.

Inductive Expr :=
  | LiteralExpr (x : ExprInfo)
  | CastExpr (x : ExprInfo) (expression : Expr)
  | UnaryExpr (x : ExprInfo) (right : Expr)
  | BinaryExpr (x : ExprInfo) (left right : Expr) (pointer_stride : Z)
  | OtherExpr (x : ExprInfo).

Definition info (e : Expr) : ExprInfo :=
  match e with
  | LiteralExpr x | CastExpr x _ | UnaryExpr x _ | BinaryExpr x _ _ _ | OtherExpr x => x
  end.

Definition of_bool (b : bool) : Z := if b then 1 else 0.

(** The value of a literal node; a failed or partial parse is [false]. *)
Definition literal_expr_value (t : Token) : option Z :=
  if is_tok (tok_type t) KEYWORD_TRUE then Some 1
  else if is_tok (tok_type t) KEYWORD_FALSE then Some 0
  else
    match parse_text (lexeme t) with
    | Ok (value, consumed) => if Nat.eqb consumed (String.length (lexeme t)) then Some value else None
    | Err _ => None
    end.

Definition unary_value (op : TokenType) (value : Z) : option Z :=
  match op with
  | MINUS => Some (- value)
  | BANG => Some (of_bool (value =? 0))
  | TILDE => Some (Z.land (Z.lnot value) 65535)
  | _ => None
  end.

(** The arithmetic right shift, as the code divides. *)
Definition shift_right_value (left right : Z) : Z :=
  let divisor := Z.shiftl 1 right in
  if 0 <=? left then Z.quot left divisor else - Z.quot (- left + divisor - 1) divisor.

(** The switch over the binary operators. *)
Definition binary_value (t : Token) (left right : Z) : result (option Z) :=
  match tok_type t with
  | PLUS => Ok (Some (left + right))
  | MINUS => Ok (Some (left - right))
  | STAR => Ok (Some (left * right))
  | SLASH =>
      throw_if (right =? 0) (error_at "Division by zero in constant expression." t);;
      Ok (Some (Z.quot left right))
  | PERCENT =>
      throw_if (right =? 0) (error_at "Division by zero in constant expression." t);;
      Ok (Some (Z.rem left right))
  | AMPERSAND => Ok (Some (Z.land (Z.land left right) 65535))
  | PIPE => Ok (Some (Z.land (Z.lor left right) 65535))
  | CARET => Ok (Some (Z.land (Z.lxor left right) 65535))
  | SHIFT_LEFT =>
      throw_if ((right <? 0) || (15 <? right)) (error_at "Constant shift count must be in 0..15." t);;
      Ok (Some (Z.shiftl (Z.land left 65535) right))
  | SHIFT_RIGHT =>
      throw_if ((right <? 0) || (15 <? right)) (error_at "Constant shift count must be in 0..15." t);;
      Ok (Some (shift_right_value left right))
  | EQUAL_EQUAL => Ok (Some (of_bool (left =? right)))
  | BANG_EQUAL => Ok (Some (of_bool (negb (left =? right))))
  | LESS => Ok (Some (of_bool (left <? right)))
  | LESS_EQUAL => Ok (Some (of_bool (left <=? right)))
  | GREATER => Ok (Some (of_bool (right <? left)))
  | GREATER_EQUAL => Ok (Some (of_bool (right <=? left)))
  | AND_AND => Ok (Some (of_bool (negb (left =? 0) && negb (right =? 0))))
  | OR_OR => Ok (Some (of_bool (negb (left =? 0) || negb (right =? 0))))
  | _ => Ok None
  end.

(** [x ← m; ...] where [m] may also say [false]. *)
Definition bind_some {A B} (m : result (option A)) (f : A → result (option B)) : result (option B) :=
  r ← m; match r with Some x => f x | None => Ok None end.

Fixpoint evaluate (e : Expr) : result (option Z) :=
  if e_is_constant (info e) then Ok (Some (e_constant_value (info e))) else
  match e with
  | LiteralExpr x => Ok (literal_expr_value (e_token x))
  | CastExpr x sub =>
      bind_some (evaluate sub) (λ v, Ok (Some (convert v (e_result_type x))))
  | UnaryExpr x operand =>
      bind_some (evaluate operand) (λ v,
        Ok ((λ w, convert w (e_result_type x)) <$> unary_value (tok_type (e_token x)) v))
  | BinaryExpr x lhs rhs pointer_stride =>
      if (0 <? pointer_stride) || (0 <? pointer_level (e_result_type x)) then Ok None else
      bind_some (evaluate lhs) (λ l,
        let op := tok_type (e_token x) in
        if is_tok op AND_AND && (l =? 0) then Ok (Some 0)
        else if is_tok op OR_OR && negb (l =? 0) then Ok (Some 1)
        else
          bind_some (evaluate rhs) (λ r,
          bind_some (binary_value (e_token x) l r) (λ v,
            Ok (Some (convert v (e_result_type x))))))
  | OtherExpr _ => Ok None
  end.

(* ------------------------------------------------------------------ *)
(** ** Folding of IR instructions *)

Module IRScalarFold.

Definition scalar (t : CType) : bool :=
  (pointer_level t =? 0) && (array_size t =? 0)
  && (bool_decide (base t = BaseByte) || bool_decide (base t = BaseWord)
      || bool_decide (base t = BaseBool)).

(** An operand: its type, absent for a value that is not constant, and its
    value. *)
Record Operand := mkOperand { o_type : option CType; o_value : Z }.

(** The loop that converts the operands; [None] when one is not a scalar. *)
Fixpoint convert_operands (n : nat) (operands : list Operand) : option (list Z) :=
  match n with
  | O => Some []
  | S n =>
      match operands with
      | mkOperand (Some t) v :: operands =>
          if scalar t then vs ← convert_operands n operands; Some (convert v t :: vs) else None
      | _ => None
      end
  end.

Definition fold_unary (op : string) (a : Z) : option Z :=
  if String.eqb op "-" then Some (- a)
  else if String.eqb op "!" then Some (of_bool (a =? 0))
  else if String.eqb op "~" then Some (Z.land (Z.lnot a) 65535)
  else None.

Definition fold_binary (op : string) (a b : Z) : option Z :=
  if String.eqb op "+" then Some (a + b)
  else if String.eqb op "-" then Some (a - b)
  else if String.eqb op "*" then Some (a * b)
  else if String.eqb op "/" || String.eqb op "%" then
    if b =? 0 then None else Some (if String.eqb op "/" then Z.quot a b else Z.rem a b)
  else if String.eqb op "&" || String.eqb op "|" || String.eqb op "^" then
    Some (Z.land (if String.eqb op "&" then Z.land a b
                  else if String.eqb op "|" then Z.lor a b else Z.lxor a b) 65535)
  else if String.eqb op "<<" || String.eqb op ">>" then
    if (b <? 0) || (15 <? b) then None else
    let divisor := Z.shiftl 1 b in
    if String.eqb op "<<" then Some (Z.land a 65535 * divisor)
    else Some (if 0 <=? a then Z.quot a divisor else - Z.quot (- a + divisor - 1) divisor)
  else if String.eqb op "==" then Some (of_bool (a =? b))
  else if String.eqb op "!=" then Some (of_bool (negb (a =? b)))
  else if String.eqb op "<" then Some (of_bool (a <? b))
  else if String.eqb op "<=" then Some (of_bool (a <=? b))
  else if String.eqb op ">" then Some (of_bool (b <? a))
  else if String.eqb op ">=" then Some (of_bool (b <=? a))
  else None.

(** [IRScalarFold::evaluate] *)
Definition evaluate (i : IRInstruction) (operands : list Operand) : option Z :=
  if negb (scalar (i_type i)) || bool_decide (i_operands i = []) || (2 <? zlen (i_operands i))
  then None else
  values ← convert_operands (length (i_operands i)) operands;
  let a := default 0 (values !! 0%nat) in
  let b := default 0 (values !! 1%nat) in
  result ←
    match i_opcode i with
    | OpBitExtract =>
        if (i_immediate i <? 0) || (15 <? i_immediate i) then None
        else Some (Z.land (Z.shiftr (u64 a) (i_immediate i)) 1)
    | OpCast => Some a
    | OpUnary => fold_unary (i_operation i) a
    | OpBinary => fold_binary (i_operation i) a b
    | _ => None
    end;
  Some (convert result (i_type i)).

End IRScalarFold.

(* ------------------------------------------------------------------ *)
(** ** Conversion *)

(** The values a scalar type can hold. *)
Definition holds (t : CType) (v : Z) : Prop :=
  if bool_decide (base t = BaseBool) then v = 0 ∨ v = 1
  else if is_unsigned t then 0 ≤ v < 2 ^ width t
  else - 2 ^ (width t - 1) ≤ v < 2 ^ (width t - 1).

Lemma width_cases t : width t = 8 ∨ width t = 16.
Proof. unfold width. destruct (bool_decide _); auto. Qed.

Lemma land_u64 w v : w = 8 ∨ w = 16 → Z.land (u64 v) (Z.shiftl 1 w - 1) = v mod 2 ^ w.
Proof.
  intros Hw. rewrite Z.shiftl_mul_pow2, Z.mul_1_l, land_mask by lia. unfold uwrap.
  rewrite <- Znumtheory.Zmod_div_mod; [done | lia | lia |].
  exists (2 ^ (64 - w)). rewrite <- Z.pow_add_r by lia. f_equal. lia.
Qed.

(** On scalars that are not [bool], [convert] is the machine conversion. *)
Lemma convert_wrap t v :
  pointer_level t = 0 → base t ≠ BaseBool →
  convert v t = if is_unsigned t then uwrap (width t) v else swrap (width t) v.
Proof.
  intros Hp Hb. unfold convert. rewrite Hp, (bool_decide_false _ Hb). cbn [Z.ltb Z.compare].
  rewrite (land_u64 _ _ (width_cases t)). unfold uwrap, swrap.
  destruct (is_unsigned t); cbn [negb andb]; [done|].
  destruct (width_cases t) as [-> | ->]; cbn; done.
Qed.

Lemma convert_holds t v : pointer_level t = 0 → holds t (convert v t).
Proof.
  intros Hp. unfold holds. destruct (decide (base t = BaseBool)) as [Hb|Hb].
  - unfold convert. rewrite Hp, (bool_decide_true _ Hb). cbn. destruct (v =? 0); auto.
  - rewrite (bool_decide_false _ Hb), convert_wrap by done.
    destruct (is_unsigned t); [apply uwrap_range | apply swrap_range];
      destruct (width_cases t) as [-> | ->]; lia.
Qed.

Lemma convert_id t v : pointer_level t = 0 → holds t v → convert v t = v.
Proof.
  intros Hp. unfold holds. destruct (decide (base t = BaseBool)) as [Hb|Hb].
  - unfold convert. rewrite Hp, (bool_decide_true _ Hb). cbn. by intros [-> | ->].
  - rewrite (bool_decide_false _ Hb), convert_wrap by done.
    destruct (is_unsigned t); intros; [by apply uwrap_small | apply swrap_id; [|done]].
    destruct (width_cases t) as [-> | ->]; lia.
Qed.

(** Values that agree on the low bits convert alike. *)
Lemma convert_congr t v w :
  pointer_level t = 0 → base t ≠ BaseBool → v mod 2 ^ 16 = w mod 2 ^ 16 → convert v t = convert w t.
Proof.
  intros Hp Hb E. rewrite !convert_wrap by done.
  assert (v mod 2 ^ width t = w mod 2 ^ width t) as Ew.
  { destruct (width_cases t) as [-> | ->]; [|done].
    rewrite (Znumtheory.Zmod_div_mod (2 ^ 8) (2 ^ 16) v), (Znumtheory.Zmod_div_mod (2 ^ 8) (2 ^ 16) w);
      try done; try (by exists (2 ^ 8)). by rewrite E. }
  unfold uwrap. destruct (is_unsigned t); [done | by apply swrap_congr].
Qed.

Lemma holds_small t v : holds t v → -32768 ≤ v ≤ 65535.
Proof.
  unfold holds. destruct (bool_decide _); [lia|].
  destruct (is_unsigned t), (width_cases t) as [-> | ->]; cbn; lia.
Qed.

(** ** The shifts *)

Lemma shift_right_spec l r : 0 ≤ r → shift_right_value l r = Z.shiftr l r.
Proof.
  intros Hr. unfold shift_right_value. rewrite Z.shiftl_mul_pow2, Z.mul_1_l by done.
  rewrite Z.shiftr_div_pow2 by done. assert (0 < 2 ^ r) by lia.
  destruct (Z.leb_spec 0 l); rewrite Z.quot_div_nonneg by lia; [done|].
  generalize dependent (2 ^ r). intros d Hd. Z.div_mod_to_equations. nia.
Qed.

Lemma u16_convert t v :
  pointer_level t = 0 → base t = BaseWord → u16 (convert v t) = u16 v.
Proof.
  intros Hp Hb. rewrite convert_wrap by (congruence || done).
  unfold width. rewrite Hb. decides. destruct (is_unsigned t).
  - unfold uwrap. by rewrite Z.mod_mod.
  - unfold uwrap. by apply swrap_mod.
Qed.

(** The operations modulo 2^16, on bit patterns. *)
Definition alu (op : string) (x y : Z) : option Z :=
  if String.eqb op "+" then Some (u16 (x + y))
  else if String.eqb op "-" then Some (u16 (x - y))
  else if String.eqb op "*" then Some (u16 (x * y))
  else if String.eqb op "&" then Some (Z.land x y)
  else if String.eqb op "|" then Some (Z.lor x y)
  else if String.eqb op "^" then Some (Z.lxor x y)
  else if String.eqb op "<<" then if y <? 16 then Some (u16 (Z.shiftl x y)) else None
  else None.

Lemma u16_bitwise f g :
  (∀ x y n, Z.testbit (f x y) n = g (Z.testbit x n) (Z.testbit y n)) → g false false = false →
  ∀ x y, f (u16 x) (u16 y) = Z.land (f x y) 65535.
Proof.
  intros Hf Hg x y. apply Z.bits_inj'. intros n Hn.
  change 65535 with (Z.ones 16). rewrite Z.land_spec, !Hf. unfold uwrap.
  destruct (Z_lt_le_dec n 16).
  - rewrite !Z.mod_pow2_bits_low, Z.ones_spec_low, andb_true_r by lia. done.
  - rewrite !Z.mod_pow2_bits_high, Z.ones_spec_high, andb_false_r by lia. done.
Qed.

Lemma u16_land_mask x : u16 (Z.land x 65535) = u16 x.
Proof. rewrite land_65535. unfold uwrap. by rewrite Z.mod_mod. Qed.

Lemma land_mask_u16 x : Z.land x 65535 = u16 x.
Proof. apply land_65535. Qed.

(* ------------------------------------------------------------------ *)
(** ** Properties *)

(** Conversion to a byte or word type is the machine's: the result lies in
    the range of the type, agrees with the value modulo 2 to the width, and is
    the only such value; so converting twice changes nothing. *)
Theorem convert_correct (t : CType) (v : Z) :
  pointer_level t = 0 → base t ≠ BaseBool →
  holds t (convert v t) ∧ convert v t mod 2 ^ width t = v mod 2 ^ width t ∧
  (∀ w, holds t w → w mod 2 ^ width t = v mod 2 ^ width t → w = convert v t) ∧
  convert (convert v t) t = convert v t.
Proof.
  intros Hp Hb. assert (0 < width t) by (destruct (width_cases t); lia).
  split_and!.
  - by apply convert_holds.
  - rewrite convert_wrap by done. destruct (is_unsigned t); unfold uwrap.
    + apply Z.mod_mod. lia.
    + by apply swrap_mod.
  - intros w Hw E. rewrite <- (convert_id t w) by done. rewrite !convert_wrap by done.
    unfold uwrap. destruct (is_unsigned t); [done | by apply swrap_congr].
  - apply convert_id; [done | by apply convert_holds].
Qed.

Lemma convert_correct_witness :
  convert 40000 (scalar_type BaseWord 2 false) = -25536 ∧
  holds (scalar_type BaseWord 2 false) (convert 40000 (scalar_type BaseWord 2 false)).
Proof.
  split; [reflexivity|].
  apply (convert_correct (scalar_type BaseWord 2 false) 40000); [reflexivity | discriminate].
Defined.

(** The spelling of the operators both evaluators know. *)
Definition operator_text (t : TokenType) : option string :=
  match t with
  | PLUS => Some "+" | MINUS => Some "-" | STAR => Some "*" | SLASH => Some "/"
  | PERCENT => Some "%" | AMPERSAND => Some "&" | PIPE => Some "|" | CARET => Some "^"
  | SHIFT_LEFT => Some "<<" | SHIFT_RIGHT => Some ">>" | EQUAL_EQUAL => Some "=="
  | BANG_EQUAL => Some "!=" | LESS => Some "<" | LESS_EQUAL => Some "<=" | GREATER => Some ">"
  | GREATER_EQUAL => Some ">="
  | _ => None
  end%string.

(** C39. The two constant evaluators agree: on every operator that exists in
    both, [IRScalarFold] folds to exactly the value the AST evaluator computes,
    and it declines to fold exactly when the AST evaluator reports a compile
    error (division by zero, shift count out of range). *)
Theorem fold_binary_agrees (t : Token) (op : string) (a b : Z) :
  operator_text (tok_type t) = Some op →
  IRScalarFold.fold_binary op a b =
    match binary_value t a b with Ok r => r | Err _ => None end.
Proof.
  unfold binary_value. intros H.
  destruct (tok_type t); cbn in H; simplify_eq; cbn; try done; unfold throw_if.
  - by destruct (b =? 0).
  - by destruct (b =? 0).
  - destruct ((b <? 0) || (15 <? b)) eqn:E; [done|]. cbn. bool_facts.
    by rewrite !Z.shiftl_mul_pow2, Z.mul_1_l by lia.
  - by destruct ((b <? 0) || (15 <? b)).
Qed.

Lemma fold_binary_agrees_witness :
  IRScalarFold.fold_binary "%" (-7) 2 = Some (-1) ∧
  IRScalarFold.fold_binary "%" (-7) 2 =
    match binary_value (token PERCENT "%" 1 1) (-7) 2 with Ok r => r | Err _ => None end.
Proof.
  split; [reflexivity|]. apply (fold_binary_agrees (token PERCENT "%" 1 1)). reflexivity.
Defined.

(** Folding commutes with taking bit patterns: for a word type, the bit pattern
    of the folded and converted result is that of the operation modulo 2^16 on the
    bit patterns of the operands, for addition, subtraction, multiplication, the
    bitwise operations and left shift, whatever the signedness of the types. *)
Theorem fold_binary_machine (t : CType) (op : string) (a b v : Z) :
  pointer_level t = 0 → base t = BaseWord →
  IRScalarFold.fold_binary op a b = Some v → is_Some (alu op (u16 a) (u16 b)) →
  alu op (u16 a) (u16 b) = Some (u16 (convert v t)).
Proof.
  intros Hp Hb Hv Ha. rewrite u16_convert by done. unfold alu in *.
  repeat match goal with
  | |- context [String.eqb op ?k] => destruct (String.eqb_spec op k) as [->|]
  end; cbn in Hv; simplify_eq; try done; f_equal.
  - unfold uwrap. by rewrite <- Z.add_mod by lia.
  - unfold uwrap. by rewrite <- Zminus_mod.
  - unfold uwrap. by rewrite <- Z.mul_mod by lia.
  - rewrite u16_land_mask, <- (land_mask_u16 (Z.land a b)). apply (u16_bitwise Z.land andb); [|done].
    intros. apply Z.land_spec.
  - rewrite u16_land_mask, <- (land_mask_u16 (Z.lor a b)). apply (u16_bitwise Z.lor orb); [|done].
    intros. apply Z.lor_spec.
  - rewrite u16_land_mask, <- (land_mask_u16 (Z.lxor a b)). apply (u16_bitwise Z.lxor xorb); [|done].
    intros. apply Z.lxor_spec.
  - destruct ((b <? 0) || (15 <? b)) eqn:E; [done|]. bool_facts. injection Hv as <-.
    rewrite (uwrap_small 16 b) by lia. replace (b <? 16) with true by lia. f_equal.
    by rewrite !Z.shiftl_mul_pow2, Z.mul_1_l, land_mask_u16 by lia.
Qed.

Lemma fold_binary_machine_witness :
  alu "*" (u16 (-3)) (u16 300) = Some (u16 (convert (-900) (scalar_type BaseWord 2 false))).
Proof.
  apply (fold_binary_machine _ "*" (-3) 300 (-900)); [reflexivity.. | by eexists].
Defined.

(** ** No intermediate overflows *)

(** The range of every value that is in a scalar type. *)
Definition scalar_range (v : Z) : Prop := -32768 ≤ v ≤ 65535.

Lemma mask_range x : 0 ≤ Z.land x 65535 ≤ 65535.
Proof. rewrite land_mask_u16. pose proof (u16_range x). lia. Qed.

Lemma quot_range l r : scalar_range l → r ≠ 0 → -65535 ≤ Z.quot l r ≤ 65535.
Proof.
  unfold scalar_range. intros Hl Hr.
  assert (Z.abs (Z.quot l r) ≤ Z.abs l) as H; [|lia].
  rewrite <- Z.quot_abs by done. rewrite Z.quot_div_nonneg by lia.
  apply Z.div_le_upper_bound; nia.
Qed.

Lemma rem_range l r : scalar_range l → r ≠ 0 → -65535 ≤ Z.rem l r ≤ 65535.
Proof.
  unfold scalar_range. intros Hl Hr. pose proof (Z.rem_le (Z.abs l) (Z.abs r)) as H.
  rewrite Z.rem_abs in H by done. lia.
Qed.

Lemma shiftr_range l r : scalar_range l → 0 ≤ r → -32768 ≤ Z.shiftr l r ≤ 65535.
Proof.
  unfold scalar_range. intros Hl Hr. rewrite Z.shiftr_div_pow2 by done.
  assert (1 ≤ 2 ^ r) by (pose proof (Z.pow_pos_nonneg 2 r); lia).
  split; [apply Z.div_le_lower_bound; nia | apply Z.div_le_upper_bound; nia].
Qed.

Lemma of_bool_range b : 0 ≤ of_bool b ≤ 1.
Proof. destruct b; cbn; lia. Qed.

(** C40. No overflow: on operands in the range of the scalar types every
    operator's exact result has magnitude below 2 to the 33, far inside
    [std::int64_t], and so do the intermediates of the rounding right shift;
    the 64-bit arithmetic of the code is therefore exact. *)
Theorem binary_value_bounds (t : Token) (l r v : Z) :
  scalar_range l → scalar_range r → binary_value t l r = Ok (Some v) →
  - 2 ^ 33 ≤ v ≤ 2 ^ 33 ∧
  (tok_type t = SHIFT_RIGHT → - 2 ^ 33 ≤ - l + Z.shiftl 1 r - 1 ≤ 2 ^ 33).
Proof.
  intros Hl Hr H. split.
  - unfold binary_value in H. pose proof (mask_range l) as Hm.
    pose proof (quot_range l r Hl) as Hq. pose proof (rem_range l r Hl) as Hrem.
    destruct (tok_type t); inv_result; simplify_eq; bool_facts;
      try (match goal with |- context [Z.land ?x 65535] => pose proof (mask_range x); lia end);
      try (match goal with |- context [of_bool ?b] => pose proof (of_bool_range b); lia end);
      unfold scalar_range in *; try nia; try (specialize (Hq ltac:(done)); lia);
      try (specialize (Hrem ltac:(done)); lia).
    + rewrite Z.shiftl_mul_pow2 by lia. assert (2 ^ r ≤ 2 ^ 15) by (apply Z.pow_le_mono_r; lia).
      assert (0 < 2 ^ r) by lia. nia.
    + rewrite shift_right_spec by lia. pose proof (shiftr_range l r). unfold scalar_range in *. lia.
  - intros Hs. unfold binary_value in H. rewrite Hs in H. inv_result. bool_facts.
    rewrite Z.shiftl_mul_pow2, Z.mul_1_l by lia.
    assert (2 ^ r ≤ 2 ^ 15) by (apply Z.pow_le_mono_r; lia). assert (0 < 2 ^ r) by lia.
    unfold scalar_range in *. lia.
Qed.

Lemma binary_value_bounds_witness :
  binary_value (token STAR "*" 1 1) 65535 (-32768) = Ok (Some (-2147450880)) ∧
  - 2 ^ 33 ≤ -2147450880 ≤ 2 ^ 33.
Proof.
  split; [reflexivity|].
  apply (binary_value_bounds (token STAR "*" 1 1) 65535 (-32768)); [split; lia.. | reflexivity].
Defined.

(** Every leaf of the expression is in range and every node has scalar type. *)
Fixpoint scalar_expr (e : Expr) : Prop :=
  pointer_level (e_result_type (info e)) = 0 ∧
  (e_is_constant (info e) = true → scalar_range (e_constant_value (info e))) ∧
  match e with
  | LiteralExpr x => ∀ v, literal_expr_value (e_token x) = Some v → scalar_range v
  | CastExpr _ sub => scalar_expr sub
  | UnaryExpr _ sub => scalar_expr sub
  | BinaryExpr _ l r _ => scalar_expr l ∧ scalar_expr r
  | OtherExpr _ => True
  end.

(** Evaluation stays in range: an expression whose leaves are in the range
    of the scalar types evaluates, at every node, to a value in that range, so
    the operands of every operator satisfy the hypotheses of the overflow
    bound. *)
Theorem evaluate_range (e : Expr) (v : Z) :
  scalar_expr e → evaluate e = Ok (Some v) → scalar_range v.
Proof.
  assert (∀ x t, pointer_level t = 0 → scalar_range (convert x t)) as Hconv.
  { intros x t Ht. by apply (holds_small t), convert_holds. }
  destruct e; intros (Hp & Hc & Hs) H; cbn in H; destruct (e_is_constant x) eqn:E;
    try (simplify_eq; by apply Hc); unfold bind_some in H; inv_result; eauto; cbn in Hp.
  - destruct a; simplify_eq. by apply Hconv.
  - destruct a as [a|]; [|done]. cbn in H. destruct (unary_value _ a); cbn in H; simplify_eq.
    by apply Hconv.
  - destruct (_ || _); [done|]. inv_result. destruct a as [l|]; [|done].
    destruct (_ && _); [simplify_eq; unfold scalar_range; lia|].
    destruct (_ && _); [simplify_eq; unfold scalar_range; lia|].
    inv_result. destruct a as [r|]; [|done]. inv_result. destruct a as [w|]; [|done].
    simplify_eq. by apply Hconv.
Qed.

Lemma evaluate_range_witness :
  let x t := mkExpr t false 0 (scalar_type BaseWord 2 false) in
  let e := BinaryExpr (x (token STAR "*" 1 1)) (LiteralExpr (x (token LITERAL_INTEGER "300" 1 1)))
             (LiteralExpr (x (token LITERAL_INTEGER "0x100" 1 1))) 0 in
  evaluate e = Ok (Some 11264) ∧ scalar_range 11264.
Proof.
  intros x e. split; [vm_compute; reflexivity|].
  apply (evaluate_range e); [|vm_compute; reflexivity].
  cbn; split_and!; try done; intros w Hw; vm_compute in Hw; injection Hw as <-; unfold scalar_range; lia.
Defined.
