(* ===== verification/Graph.v ===== *)
(** * Graph: bit sets, reachability and dominance

    The graph algorithms that the IR verifier ([IRVerifier::verifyFunction] in
    [IR.cpp]) and the control-flow analysis ([IRControlFlow.cpp]) both contain:
    sets of blocks as vectors of 64-bit words, the reachability worklist, and
    the iteration of dominator sets to a fixed point.  The theory proves,
    once for both, that the worklist computes reachability and that the
    iteration ends in exactly the dominance relation of the graph. *)

From S2P Require Import Prelude.

(* ------------------------------------------------------------------ *)
(** ** Sets of block indices as words *)

Notation bits := (list Z).
#[local] Arguments Nat.modulo : simpl never.
#[local] Arguments Nat.div : simpl never.

Definition words (n : nat) : nat := Z.to_nat ((Z.of_nat n + 63) / 64).
Definition no_bits (n : nat) : bits := replicate (words n) 0.

Definition word_of (i : nat) : nat := (i / 64)%nat.
Definition bit_of (i : nat) : Z := Z.shiftl 1 (Z.of_nat (i mod 64)).

(** [bits[i / 64] |= 1 << (i % 64)] *)
Definition set_bit (s : bits) (i : nat) : bits := alter (λ w, Z.lor w (bit_of i)) (word_of i) s.

(** [(bits[i / 64] & (1 << (i % 64))) != 0] *)
Definition has_bit (s : bits) (i : nat) : bool :=
  negb (Z.land (default 0 (s !! word_of i)) (bit_of i) =? 0).

(** [for (w) a[w] &= b[w]] *)
Definition and_bits (a b : bits) : bits := zip_with Z.land a b.

(** Well-formed sets over [n] blocks: the right number of 64-bit words. *)
Definition wf_bits (n : nat) (s : bits) : Prop :=
  length s = words n ∧ Forall (λ w, 0 ≤ w < 2 ^ 64) s.

Lemma has_bit_testbit s i :
  has_bit s i = Z.testbit (default 0 (s !! word_of i)) (Z.of_nat (i mod 64)).
Proof.
  unfold has_bit, bit_of. set (w := default 0 _). set (k := Z.of_nat (i mod 64)).
  assert (0 ≤ k) as Hk by lia.
  destruct (Z.testbit w k) eqn:E.
  - apply negb_true_iff, Z.eqb_neq. intros H.
    apply (f_equal (λ x, Z.testbit x k)) in H. rewrite Z.land_spec, E, Z.bits_0 in H.
    rewrite Z.shiftl_spec, Z.sub_diag in H by done. done.
  - apply negb_false_iff, Z.eqb_eq. apply Z.bits_inj'. intros m Hm.
    rewrite Z.land_spec, Z.bits_0, Z.shiftl_spec by done.
    destruct (decide (m = k)) as [->|Hne]; [by rewrite E|].
    apply andb_false_iff. right. destruct (Z_lt_le_dec m k).
    + by rewrite (Z.testbit_neg_r 1) by lia.
    + change 1 with (2 ^ 0). rewrite Z.pow2_bits_false by lia. done.
Qed.

Lemma words_enough n i : (i < n)%nat → (word_of i < words n)%nat.
Proof.
  unfold word_of, words. intros H. pose proof (Nat2Z.inj_div i 64) as E. change (Z.of_nat 64) with 64 in E.
  apply Nat2Z.inj_lt. rewrite E, Z2Nat.id; zmod.
Qed.

Lemma has_set_bit n s i j :
  wf_bits n s → (i < n)%nat → has_bit (set_bit s i) j = bool_decide (i = j) || has_bit s j.
Proof.
  intros [Hlen _] Hi. rewrite !has_bit_testbit. unfold set_bit.
  pose proof (words_enough n i Hi) as Hw. rewrite <- Hlen in Hw.
  destruct (lookup_lt_is_Some_2 s (word_of i) Hw) as [w Hs].
  destruct (decide (word_of i = word_of j)) as [E|E].
  - rewrite <- E, list_lookup_alter_eq, Hs. cbn. rewrite Z.lor_spec. unfold bit_of.
    rewrite Z.shiftl_spec by lia. unfold word_of in E.
    rewrite orb_comm. f_equal. destruct (decide (i = j)) as [<-|Hij].
    + rewrite bool_decide_true by done. by rewrite Z.sub_diag.
    + rewrite bool_decide_false by done.
      assert ((i mod 64 ≠ j mod 64)%nat) by (intros ?; apply Hij;
        rewrite (Nat.div_mod_eq i 64), (Nat.div_mod_eq j 64); congruence).
      destruct (Z_lt_le_dec (Z.of_nat (j mod 64)) (Z.of_nat (i mod 64))).
      * by rewrite (Z.testbit_neg_r 1) by lia.
      * change 1 with (2 ^ 0). rewrite Z.pow2_bits_false by lia. done.
  - rewrite list_lookup_alter_ne by done. rewrite bool_decide_false; [done|]. congruence.
Qed.

Lemma has_and_bits n a b j :
  wf_bits n a → wf_bits n b → has_bit (and_bits a b) j = has_bit a j && has_bit b j.
Proof.
  intros [Ha _] [Hb _]. rewrite !has_bit_testbit. unfold and_bits. rewrite lookup_zip_with.
  destruct (a !! word_of j) as [x|] eqn:Ex; cbn.
  - destruct (lookup_lt_is_Some_2 b (word_of j)) as [y Hy].
    { apply lookup_lt_Some in Ex. congruence. }
    rewrite Hy. cbn. apply Z.land_spec.
  - rewrite Z.bits_0. done.
Qed.

Lemma has_no_bits n j : has_bit (no_bits n) j = false.
Proof.
  rewrite has_bit_testbit. unfold no_bits.
  destruct (decide (word_of j < words n)%nat).
  - rewrite lookup_replicate_2 by done. apply Z.bits_0.
  - rewrite (proj2 (lookup_ge_None _ _)) by (rewrite length_replicate; lia). apply Z.bits_0.
Qed.

Lemma wf_no_bits n : wf_bits n (no_bits n).
Proof.
  split; [apply length_replicate|]. apply Forall_replicate. lia.
Qed.

Lemma bit_of_range i : 0 ≤ bit_of i < 2 ^ 64.
Proof.
  unfold bit_of. rewrite Z.shiftl_mul_pow2, Z.mul_1_l by lia.
  pose proof (Nat.mod_upper_bound i 64). split; [lia|]. apply Z.pow_lt_mono_r; lia.
Qed.

Lemma lor_range x y : 0 ≤ x < 2 ^ 64 → 0 ≤ y < 2 ^ 64 → 0 ≤ Z.lor x y < 2 ^ 64.
Proof.
  intros Hx Hy. split; [apply Z.lor_nonneg; lia|].
  destruct (decide (Z.lor x y = 0)) as [->|Hne]; [lia|].
  apply Z.log2_lt_pow2; [pose proof (proj2 (Z.lor_nonneg x y)); lia|].
  rewrite Z.log2_lor by lia.
  destruct (decide (x = 0)) as [->|], (decide (y = 0)) as [->|]; cbn [Z.log2];
    try (pose proof (proj1 (Z.log2_lt_pow2 x 64 ltac:(lia)) ltac:(lia)));
    try (pose proof (proj1 (Z.log2_lt_pow2 y 64 ltac:(lia)) ltac:(lia))); lia.
Qed.

Lemma land_range x y : 0 ≤ x < 2 ^ 64 → 0 ≤ y → 0 ≤ Z.land x y < 2 ^ 64.
Proof.
  intros Hx _. assert (Z.land x y = Z.land x y mod 2 ^ 64) as ->; [|apply Z.mod_pos_bound; lia].
  rewrite <- (Z.land_ones (Z.land x y)) by lia.
  by rewrite <- Z.land_assoc, (Z.land_comm y), Z.land_assoc, Z.land_ones, Z.mod_small by lia.
Qed.

Lemma wf_set_bit n s i : wf_bits n s → wf_bits n (set_bit s i).
Proof.
  intros [Hlen Hw]. split; [by unfold set_bit; rewrite length_alter|].
  unfold set_bit. apply Forall_alter; [done|]. intros w Hs Hr.
  apply lor_range; [done | apply bit_of_range].
Qed.

Lemma wf_and_bits n a b : wf_bits n a → wf_bits n b → wf_bits n (and_bits a b).
Proof.
  intros [Ha Hwa] [Hb Hwb]. split; [unfold and_bits; rewrite length_zip_with; lia|].
  apply Forall_lookup. intros i w Hi. unfold and_bits in Hi. apply lookup_zip_with_Some in Hi as (x & y & -> & Hx & Hy).
  rewrite Forall_lookup in Hwa, Hwb. apply land_range; [by eapply Hwa|]. by eapply Hwb.
Qed.

(** Sets with the same members are the same words. *)
Lemma bits_ext n s s' :
  wf_bits n s → wf_bits n s' → (∀ j, (j < 64 * words n)%nat → has_bit s j = has_bit s' j) → s = s'.
Proof.
  intros [Hl Hr] [Hl' Hr'] H. apply list_eq_same_length with (words n); [done..|].
  intros i x y Hi Hx Hy. rewrite Forall_lookup in Hr, Hr'.
  pose proof (Hr _ _ Hx) as Hx64. pose proof (Hr' _ _ Hy) as Hy64.
  apply Z.bits_inj'. intros k Hk. destruct (Z_lt_le_dec k 64).
  - specialize (H (i * 64 + Z.to_nat k)%nat ltac:(lia)). rewrite !has_bit_testbit in H.
    assert (word_of (i * 64 + Z.to_nat k) = i) as Ew.
    { unfold word_of. rewrite Nat.div_add_l, (Nat.div_small (Z.to_nat k)) by lia. lia. }
    assert (Z.of_nat ((i * 64 + Z.to_nat k) mod 64) = k) as Em.
    { rewrite Nat.add_comm, Nat.Div0.mod_add, Nat.mod_small by lia. lia. }
    by rewrite Ew, Em, Hx, Hy in H.
  - rewrite <- (Z.mod_small x (2 ^ 64)), <- (Z.mod_small y (2 ^ 64)) by lia.
    by rewrite !Z.mod_pow2_bits_high by lia.
Qed.

(* ------------------------------------------------------------------ *)
(** ** Counting *)

Definition countb {A} (f : A → bool) (l : list A) : nat := length (List.filter f l).

Lemma countb_le {A} (f g : A → bool) l :
  (∀ x, x ∈ l → f x = true → g x = true) → (countb f l ≤ countb g l)%nat.
Proof.
  unfold countb. induction l as [|x l IH]; intros H; cbn; [done|].
  assert (length (List.filter f l) ≤ length (List.filter g l))%nat
    by (apply IH; intros; apply H; [by right | done]).
  specialize (H x ltac:(left)). destruct (f x), (g x); cbn; lia.
Qed.

Lemma countb_lt {A} (f g : A → bool) l x :
  (∀ x, x ∈ l → f x = true → g x = true) → x ∈ l → f x = false → g x = true →
  (countb f l < countb g l)%nat.
Proof.
  intros H Hx Hf Hg. unfold countb. induction l as [|y l IH]; [by apply elem_of_nil in Hx|].
  assert (length (List.filter f l) ≤ length (List.filter g l))%nat as Hle
    by (apply countb_le; intros; apply H; [by right | done]).
  cbn. apply elem_of_cons in Hx as [<- | Hx].
  - rewrite Hf, Hg. cbn. lia.
  - assert (length (List.filter f l) < length (List.filter g l))%nat
      by (apply IH; [|done]; intros; apply H; [by right | done]).
    specialize (H y ltac:(left)). destruct (f y), (g y); cbn; lia.
Qed.

Lemma countb_all {A} (f : A → bool) l : (countb f l ≤ length l)%nat.
Proof. unfold countb. induction l as [|x l IH]; cbn; [done|]. destruct (f x); cbn; lia. Qed.

Lemma countb_insert_gen {A} (f : A → bool) l i x y :
  l !! i = Some x → f x = false → f y = true → countb f (<[i:=y]> l) = S (countb f l).
Proof.
  unfold countb. intros H Hx Hy. revert i H. induction l as [|z l IH]; intros [|i] H; try done; cbn in *.
  - simplify_eq. by rewrite Hx, Hy.
  - destruct (f z); cbn; by rewrite IH.
Qed.

Lemma countb_insert l i :
  l !! i = Some false → countb id (<[i:=true]> l) = S (countb id l).
Proof. intros H. by eapply countb_insert_gen. Qed.

Lemma countb_replicate {A} (f : A → bool) n x : f x = false → countb f (replicate n x) = 0%nat.
Proof. unfold countb. intros H. induction n; cbn; [done|]. by rewrite H. Qed.

Lemma sum_insert {A} (f : A → nat) l i x y :
  l !! i = Some x → (sum_list_with f (<[i:=y]> l) + f x = sum_list_with f l + f y)%nat.
Proof.
  revert i. induction l as [|z l IH]; intros [|i] H; try done; cbn in *.
  - simplify_eq. lia.
  - specialize (IH i H). rewrite <- !Nat.add_assoc. f_equal. exact IH.
Qed.

(* ------------------------------------------------------------------ *)
(** ** Graphs given by successor and predecessor lists *)

Definition adjacent (g : list (list nat)) (b : nat) : list nat := default [] (g !! b).

(** The worklist of the verifier: a block is marked when it is queued. *)
Definition visit (st : list bool * list nat) (s : nat) : list bool * list nat :=
  if default false (st.1 !! s) then st else (<[s:=true]> st.1, st.2 ++ [s]).
Fixpoint bfs (succ : list (list nat)) (fuel : nat) (reach : list bool) (queue : list nat) : list bool :=
  match queue, fuel with
  | b :: queue, S fuel =>
      let '(reach, queue) := foldl visit (reach, queue) (adjacent succ b) in
      bfs succ fuel reach queue
  | _, _ => reach
  end.
Definition reachability (n : nat) (succ : list (list nat)) (entry : nat) : list bool :=
  bfs succ n (<[entry:=true]> (replicate n false)) [entry].

Definition is_reachable (reach : list bool) (b : nat) : bool := default false (reach !! b).

(** The dominator sets before the iteration: the entry alone for the entry,
    every reachable block for the other reachable blocks. *)
Definition all_reachable (n : nat) (reach : list bool) : bits :=
  foldl set_bit (no_bits n) (List.filter (is_reachable reach) (seq 0 n)).
Definition initial_dominators (n : nat) (reach : list bool) (entry : nat) : list bits :=
  (λ b, if negb (is_reachable reach b) then no_bits n
        else if Nat.eqb b entry then set_bit (no_bits n) b
        else all_reachable n reach) <$> seq 0 n.

Definition doms_of (doms : list bits) (b : nat) : bits := default [] (doms !! b).

(** One block of a round.  [inter] intersects the sets of the reachable
    predecessors; the two users start it differently. *)
Definition next_dominators (inter : list bits → bits) (reach : list bool)
    (pred : list (list nat)) (doms : list bits) (b : nat) : bits :=
  set_bit (inter (doms_of doms <$> List.filter (is_reachable reach) (adjacent pred b))) b.
Definition dominator_step (inter : list bits → bits) (reach : list bool)
    (pred : list (list nat)) (entry : nat) (st : list bits * bool) (b : nat) : list bits * bool :=
  if negb (is_reachable reach b) || Nat.eqb b entry then st else
  let next := next_dominators inter reach pred st.1 b in
  if bool_decide (next = doms_of st.1 b) then st else (<[b:=next]> st.1, true).
Definition dominator_round (inter : list bits → bits) (n : nat) (reach : list bool)
    (pred : list (list nat)) (entry : nat) (doms : list bits) : list bits * bool :=
  foldl (dominator_step inter reach pred entry) (doms, false) (seq 0 n).

(** [while (changed)]; [None] is a loop cut short by its fuel. *)
Fixpoint dominator_loop (inter : list bits → bits) (n : nat) (reach : list bool)
    (pred : list (list nat)) (entry : nat) (fuel : nat) (doms : list bits) : option (list bits) :=
  match fuel with
  | O => None
  | S fuel =>
      let '(doms, changed) := dominator_round inter n reach pred entry doms in
      if changed then dominator_loop inter n reach pred entry fuel doms else Some doms
  end.

(** Rounds that suffice: every round but the last clears a bit. *)
Definition dominator_fuel (n : nat) : nat := S (n * (64 * words n)).

(** The verifier's intersection: a copy of the first set, then [&=]. *)
Definition intersect_first (n : nat) (sets : list bits) : bits :=
  match sets with [] => no_bits n | s :: sets => foldl and_bits s sets end.

(* ------------------------------------------------------------------ *)
(** ** Walks *)

(** A walk from the entry, as the list of the blocks it visits. *)
Inductive walk (succ : list (list nat)) (entry : nat) : list nat → nat → Prop :=
  | walk_entry : walk succ entry [entry] entry
  | walk_step l b s :
      walk succ entry l b → s ∈ adjacent succ b → walk succ entry (l ++ [s]) s.

Definition reachable (succ : list (list nat)) (entry b : nat) : Prop := ∃ l, walk succ entry l b.

(** A list of steps from a block, checked by computation. *)
Fixpoint steps_ok (succ : list (list nat)) (b : nat) (l : list nat) : bool :=
  match l with
  | [] => true
  | s :: l => bool_decide (s ∈ adjacent succ b) && steps_ok succ s l
  end.

Lemma walk_steps succ entry l b k :
  walk succ entry l b → steps_ok succ b k = true → walk succ entry (l ++ k) (default b (last k)).
Proof.
  revert l b. induction k as [|s k IH]; intros l b Hw H; cbn [steps_ok] in H.
  - by rewrite app_nil_r.
  - apply andb_true_iff in H as [Hs%bool_decide_eq_true H].
    pose proof (IH (l ++ [s]) s (walk_step _ _ _ _ _ Hw Hs) H) as Hk.
    rewrite <- (assoc_L (++)) in Hk. rewrite last_cons. by destruct (last k).
Qed.

(** [d] dominates [b]: every walk to [b] visits [d]. *)
Definition dominates (succ : list (list nat)) (entry d b : nat) : Prop :=
  ∀ l, walk succ entry l b → d ∈ l.

(** What a control-flow graph over [n] blocks satisfies. *)
Record graph_ok (n : nat) (succ pred : list (list nat)) (entry : nat) : Prop := {
  graph_entry : (entry < n)%nat;
  graph_succ : ∀ b s, s ∈ adjacent succ b → (s < n)%nat;
  graph_pred : ∀ b p, p ∈ adjacent pred b ↔ b ∈ adjacent succ p
}.

Section reachability.
Context (n : nat) (succ : list (list nat)) (entry : nat).
Hypothesis Hentry : (entry < n)%nat.
Hypothesis Hsucc : ∀ b s, s ∈ adjacent succ b → (s < n)%nat.

Record bfs_inv (fuel : nat) (reach : list bool) (queue : list nat) : Prop := {
  bfs_length : length reach = n;
  bfs_queue : Forall (λ b, is_reachable reach b) queue;
  bfs_sound : ∀ b, is_reachable reach b → reachable succ entry b;
  bfs_closed : ∀ b s, is_reachable reach b → s ∈ adjacent succ b → b ∈ queue ∨ is_reachable reach s;
  bfs_entry : is_reachable reach entry;
  bfs_count : (countb id reach + fuel = n + length queue)%nat
}.

Lemma is_reachable_insert reach s b :
  (s < length reach)%nat → is_reachable (<[s:=true]> reach) b = bool_decide (s = b) || is_reachable reach b.
Proof.
  intros Hs. unfold is_reachable. destruct (decide (s = b)) as [->|Hne]; decides.
  - by rewrite list_lookup_insert_eq.
  - by rewrite list_lookup_insert_ne by done.
Qed.

(** Visiting the successors of a block that has left the queue. *)
Lemma visit_inv fuel b ss reach queue :
  reachable succ entry b → (∀ s, s ∈ ss → s ∈ adjacent succ b) →
  length reach = n → Forall (λ b, is_reachable reach b) queue →
  (∀ b, is_reachable reach b → reachable succ entry b) →
  (countb id reach + fuel = n + length queue)%nat →
  let st := foldl visit (reach, queue) ss in
  length st.1 = n ∧ Forall (λ b, is_reachable st.1 b) st.2 ∧
  (∀ b, is_reachable st.1 b → reachable succ entry b) ∧
  (countb id st.1 + fuel = n + length st.2)%nat ∧
  (∀ b, is_reachable reach b → is_reachable st.1 b) ∧
  (∀ s, s ∈ ss → is_reachable st.1 s) ∧
  (∀ b, is_reachable st.1 b → is_reachable reach b ∨ b ∈ st.2) ∧ (∀ b, b ∈ queue → b ∈ st.2).
Proof.
  intros Hb. revert reach queue. induction ss as [|s ss IH]; intros reach queue Hss Hlen Hq Hr Hc; cbn.
  { split_and!; auto; by intros s ?%elem_of_nil. }
  assert (s ∈ adjacent succ b) as Hs by (apply Hss; left).
  assert (visit (reach, queue) s = if default false (reach !! s) then (reach, queue)
    else (<[s:=true]> reach, queue ++ [s])) as -> by done.
  destruct (default false (reach !! s)) eqn:E.
  - destruct (IH reach queue) as (? & ? & ? & ? & Hmono & Hall & ? & ?); auto.
    { intros. apply Hss. by right. }
    split_and!; auto. intros s' [-> | Hs']%elem_of_cons; [|by apply Hall].
    apply Hmono. unfold is_reachable. by rewrite E.
  - assert (s < n)%nat as Hsn by by eapply Hsucc.
    assert (reach !! s = Some false) as Es.
    { destruct (lookup_lt_is_Some_2 reach s) as [[] Hx]; [congruence|by rewrite Hx in E|done]. }
    destruct (IH (<[s:=true]> reach) (queue ++ [s])) as (? & ? & ? & ? & Hmono & Hall & Hor & Hin).
    + intros. apply Hss. by right.
    + by rewrite length_insert.
    + apply Forall_app. split; [|constructor; [|done]].
      * eapply Forall_impl; [exact Hq|]. intros x Hx. rewrite is_reachable_insert by congruence.
        apply orb_True. by right.
      * rewrite is_reachable_insert by congruence. by rewrite bool_decide_true.
    + intros x. rewrite is_reachable_insert by congruence. intros [Hx | Hx]%orb_True; [|by auto].
      apply bool_decide_unpack in Hx as <-. destruct Hb as [l Hl]. exists (l ++ [s]).
      by eapply walk_step.
    + rewrite countb_insert, length_app by done. cbn. lia.
    + split_and!; auto.
      * intros x Hx. apply Hmono. rewrite is_reachable_insert by congruence. apply orb_True. by right.
      * intros s' [-> | Hs']%elem_of_cons; [|by apply Hall]. apply Hmono.
        rewrite is_reachable_insert by congruence. by rewrite bool_decide_true.
      * intros x [Hx | Hx]%Hor; [|by auto]. rewrite is_reachable_insert in Hx by congruence.
        apply orb_True in Hx as [Hx | Hx]; [|by auto]. apply bool_decide_unpack in Hx as <-.
        right. apply Hin, elem_of_app. right. by apply list_elem_of_singleton.
      * intros x Hx. apply Hin, elem_of_app. by left.
Qed.

Lemma bfs_done fuel reach :
  bfs_inv fuel reach [] → ∀ b, is_reachable reach b ↔ reachable succ entry b.
Proof.
  intros H b. split; [apply H|]. intros [l Hl]. induction Hl as [|l b s _ IH Hs]; [apply H|].
  by destruct (bfs_closed _ _ _ H b s IH Hs) as [?%elem_of_nil|].
Qed.

Lemma bfs_correct fuel reach queue :
  bfs_inv fuel reach queue →
  let r := bfs succ fuel reach queue in
  length r = n ∧ ∀ b, is_reachable r b ↔ reachable succ entry b.
Proof.
  revert reach queue. induction fuel as [|fuel IH]; intros reach queue H.
  - assert (queue = []) as ->.
    { pose proof (bfs_count _ _ _ H). pose proof (countb_all id reach). rewrite (bfs_length _ _ _ H) in *.
      destruct queue; [done | cbn in *; lia]. }
    cbn. split; [apply H | by eapply bfs_done].
  - destruct queue as [|b queue]; cbn [bfs]; [split; [apply H | by eapply bfs_done]|].
    pose proof (bfs_queue _ _ _ H) as [Hb Hq]%Forall_cons.
    destruct (visit_inv fuel b (adjacent succ b) reach queue)
      as (Hlen & Hq' & Hsound & Hcount & Hmono & Hall & Hor & Hin); try done; try apply H; [done| |].
    { pose proof (bfs_count _ _ _ H) as Hc. cbn in Hc. lia. }
    destruct (foldl visit _ _) as [reach' queue']. apply IH. split; try done.
    + intros x s Hx Hs. destruct (Hor x Hx) as [Hr|]; [|by left].
      destruct (bfs_closed _ _ _ H x s Hr Hs) as [[->|Hq2]%elem_of_cons | Hs2]; auto.
    + apply Hmono, H.
Qed.

Lemma reachability_correct :
  let r := reachability n succ entry in
  length r = n ∧ ∀ b, is_reachable r b ↔ reachable succ entry b.
Proof.
  assert (∀ b, is_reachable (<[entry:=true]> (replicate n false)) b ↔ b = entry) as Hinit.
  { intros b. rewrite is_reachable_insert by (by rewrite length_replicate). rewrite orb_True.
    unfold is_reachable. destruct (replicate n false !! b) eqn:E; cbn; [|naive_solver].
    apply lookup_replicate in E as [-> _]. naive_solver. }
  apply bfs_correct. split.
  - by rewrite length_insert, length_replicate.
  - constructor; [by apply Hinit | done].
  - intros b ->%Hinit. exists [entry]. constructor.
  - intros b s ->%Hinit _. left. by left.
  - by apply Hinit.
  - rewrite countb_insert by (by apply lookup_replicate_2). cbn.
    rewrite countb_replicate by done. lia.
Qed.
End reachability.

(* ------------------------------------------------------------------ *)
(** ** Dominance *)

Section dominance.
Context (n : nat) (succ pred : list (list nat)) (entry : nat) (reach : list bool).
Context (inter : list bits → bits).
Hypothesis Hgraph : graph_ok n succ pred entry.
Hypothesis Hreach : ∀ b, is_reachable reach b ↔ reachable succ entry b.
Hypothesis Hinter_wf : ∀ sets, Forall (wf_bits n) sets → wf_bits n (inter sets).
Hypothesis Hinter : ∀ sets j,
  sets ≠ [] → Forall (wf_bits n) sets →
  Forall (λ s, ∀ k, has_bit s k = true → is_reachable reach k) sets →
  has_bit (inter sets) j = forallb (λ s, has_bit s j) sets.

Implicit Types doms : list bits.

Notation hasd doms b j := (has_bit (doms_of doms b) j).
Notation rpreds b := (List.filter (is_reachable reach) (adjacent pred b)).

Lemma elem_of_rpreds b p : p ∈ rpreds b ↔ p ∈ adjacent pred b ∧ is_reachable reach p.
Proof. by rewrite list_elem_of_In, filter_In, <- list_elem_of_In, Is_true_true. Qed.

(** The entry apart, a reachable block has a reachable predecessor. *)
Lemma rpreds_nonempty b : is_reachable reach b → b ≠ entry → rpreds b ≠ [].
Proof.
  intros [l Hl]%Hreach Hne. destruct Hl as [|l p s Hl Hs]; [done|]. intros E.
  assert (p ∈ rpreds s) as Hin.
  { apply elem_of_rpreds. split; [by apply Hgraph|]. apply Hreach. by exists l. }
  rewrite E in Hin. by apply elem_of_nil in Hin.
Qed.

Lemma reachable_lt b : is_reachable reach b → (b < n)%nat.
Proof.
  intros [l Hl]%Hreach. destruct Hl; [apply Hgraph | by eapply Hgraph].
Qed.

Record dom_inv doms : Prop := {
  dom_length : length doms = n;
  dom_wf : Forall (wf_bits n) doms;
  dom_entry : ∀ j, hasd doms entry j = bool_decide (entry = j);
  dom_lower : ∀ b d, is_reachable reach b → dominates succ entry d b → hasd doms b d = true;
  dom_post : ∀ b j, is_reachable reach b → b ≠ entry →
    (b = j ∨ ∀ p, p ∈ rpreds b → hasd doms p j = true) → hasd doms b j = true;
  dom_upper : ∀ b j, is_reachable reach b → hasd doms b j = true → is_reachable reach j
}.

Lemma wf_doms_of doms b : dom_inv doms → (b < n)%nat → wf_bits n (doms_of doms b).
Proof.
  intros H Hb. rewrite <- (dom_length _ H) in Hb.
  destruct (lookup_lt_is_Some_2 doms b Hb) as [s Hs]. unfold doms_of. rewrite Hs.
  pose proof (dom_wf _ H) as Hwf. rewrite Forall_lookup in Hwf. by eapply Hwf.
Qed.

Lemma pred_sets_wf doms b :
  dom_inv doms → Forall (wf_bits n) (doms_of doms <$> rpreds b).
Proof.
  intros H. apply Forall_fmap, Forall_forall. intros p [_ Hp]%elem_of_rpreds.
  apply (wf_doms_of doms p); [done | by apply reachable_lt].
Qed.

Lemma has_next doms b j :
  dom_inv doms → is_reachable reach b → b ≠ entry →
  has_bit (next_dominators inter reach pred doms b) j = true ↔
    b = j ∨ ∀ p, p ∈ rpreds b → hasd doms p j = true.
Proof.
  intros H Hb Hne. unfold next_dominators.
  rewrite (has_set_bit n) by (try apply Hinter_wf; try apply pred_sets_wf; try apply reachable_lt; done).
  rewrite orb_true_iff, bool_decide_eq_true, Hinter; [| |by apply pred_sets_wf|].
  - rewrite forallb_forall. split; (intros [|Hall]; [by left | right]).
    + intros p Hp. apply (Hall (doms_of doms p)). apply list_elem_of_In, list_elem_of_fmap. eauto.
    + intros s (p & -> & Hp)%list_elem_of_In%list_elem_of_fmap. by apply Hall.
  - intros E%fmap_nil_inv. exact (rpreds_nonempty b Hb Hne E).
  - apply Forall_fmap, Forall_forall. intros p [_ Hp]%elem_of_rpreds k Hk. by apply (dom_upper _ H p).
Qed.

Lemma wf_next doms b : dom_inv doms → wf_bits n (next_dominators inter reach pred doms b).
Proof. intros H. apply wf_set_bit, Hinter_wf, pred_sets_wf, H. Qed.

Lemma doms_of_insert doms b s x :
  (b < length doms)%nat → doms_of (<[b:=s]> doms) x = if decide (b = x) then s else doms_of doms x.
Proof.
  intros Hb. unfold doms_of. destruct (decide (b = x)) as [->|].
  - by rewrite list_lookup_insert_eq.
  - by rewrite list_lookup_insert_ne.
Qed.

(** Updating one block keeps the invariant and only removes members. *)
Lemma dom_inv_update doms b :
  dom_inv doms → is_reachable reach b → b ≠ entry →
  let doms' := <[b:=next_dominators inter reach pred doms b]> doms in
  dom_inv doms' ∧ ∀ x j, hasd doms' x j = true → hasd doms x j = true.
Proof.
  intros H Hb Hne doms'.
  assert (b < length doms)%nat as Hlt by (rewrite (dom_length _ H); by apply reachable_lt).
  assert (∀ x j, hasd doms' x j = true → hasd doms x j = true) as Hsub.
  { intros x j. unfold doms'. rewrite doms_of_insert by done. destruct (decide (b = x)) as [<-|]; [|done].
    rewrite has_next by done. by apply (dom_post _ H). }
  split; [|done]. split.
  - unfold doms'. rewrite length_insert. apply H.
  - apply Forall_insert; [apply H | by apply wf_next].
  - intros j. unfold doms'. rewrite doms_of_insert, decide_False by done. apply H.
  - intros x d Hx Hd. unfold doms'. rewrite doms_of_insert by done.
    destruct (decide (b = x)) as [<-|]; [|by apply H]. rewrite has_next by done.
    destruct (decide (b = d)) as [|Hbd]; [by left|]. right. intros p [Hp Hpr]%elem_of_rpreds.
    apply (dom_lower _ H); [done|]. intros l Hl.
    assert (d ∈ l ++ [b]) as Hin by (apply Hd; eapply walk_step; [done | by apply Hgraph]).
    apply elem_of_app in Hin as [|Hin]; [done|]. apply list_elem_of_singleton in Hin. congruence.
  - intros x j Hx Hxe Hcase. unfold doms'. rewrite doms_of_insert by done.
    assert (x = j ∨ ∀ p, p ∈ rpreds x → hasd doms p j = true) as Hcase'
      by (destruct Hcase; [by left | right; eauto]).
    destruct (decide (b = x)) as [<-|]; [by rewrite has_next | by apply (dom_post _ H)].
  - intros x j Hx Hj. by apply (dom_upper _ H x), Hsub.
Qed.

(** ** The iteration ends *)

Definition cardinal (s : bits) : nat := countb (has_bit s) (seq 0 (64 * words n)).
Definition total doms : nat := sum_list_with cardinal doms.

Lemma cardinal_lt s s' :
  wf_bits n s → wf_bits n s' → (∀ j, has_bit s j = true → has_bit s' j = true) → s ≠ s' →
  (cardinal s < cardinal s')%nat.
Proof.
  intros Hs Hs' Hsub Hne.
  destruct (decide (Forall (λ j, has_bit s j = has_bit s' j) (seq 0 (64 * words n)))) as [Hall|Hex].
  - destruct Hne. apply (bits_ext n); [done..|]. intros j Hj. rewrite Forall_forall in Hall.
    apply Hall, elem_of_seq. lia.
  - apply not_Forall_Exists, Exists_exists in Hex as (j & Hj & Hd); [|apply _].
    apply (countb_lt _ _ _ j); auto.
    + destruct (has_bit s j) eqn:E; [|done]. cbn in Hd. by rewrite (Hsub j E) in Hd.
    + destruct (has_bit s' j) eqn:E; [done|]. cbn in Hd.
      destruct (has_bit s j) eqn:E'; [|done]. by rewrite (Hsub j E') in E.
Qed.

Lemma total_bound doms : dom_inv doms → (total doms ≤ n * (64 * words n))%nat.
Proof.
  intros H. rewrite <- (dom_length _ H) at 1. unfold total. clear H.
  induction doms as [|s doms IH]; cbn [sum_list_with length]; [lia|].
  assert (cardinal s ≤ 64 * words n)%nat; [|lia].
  unfold cardinal. etransitivity; [apply countb_all|]. by rewrite length_seq.
Qed.

Notation step := (dominator_step inter reach pred entry).
Notation next doms b := (next_dominators inter reach pred doms b).

Lemma dominator_steps l doms c :
  dom_inv doms →
  let st := foldl step (doms, c) l in
  dom_inv st.1 ∧
  (st = (doms, c) ∧ (∀ b, b ∈ l → is_reachable reach b → b ≠ entry → next doms b = doms_of doms b)
   ∨ st.2 = true ∧ (total st.1 < total doms)%nat).
Proof.
  revert doms c. induction l as [|b l IH]; intros doms c H; cbn [foldl].
  { split; [done|]. left. split; [done|]. by intros b ?%elem_of_nil. }
  assert (step (doms, c) b = if negb (is_reachable reach b) || Nat.eqb b entry then (doms, c)
    else if bool_decide (next doms b = doms_of doms b) then (doms, c)
    else (<[b:=next doms b]> doms, true)) as -> by done.
  destruct (negb (is_reachable reach b) || Nat.eqb b entry) eqn:Eskip.
  { destruct (IH doms c H) as [Hinv [[E Hall] | Hlt]]; split; auto. left. split; [done|].
    intros x [-> | Hx]%elem_of_cons Hr Hne; [|by apply Hall].
    apply orb_true_iff in Eskip as [E'%negb_true_iff | E'%Nat.eqb_eq]; [by rewrite E' in Hr | done]. }
  apply orb_false_iff in Eskip as [Hr%negb_false_iff Hne%Nat.eqb_neq].
  apply Is_true_true in Hr. case_bool_decide as Heq.
  { destruct (IH doms c H) as [Hinv [[E Hall] | Hlt]]; split; auto. left. split; [done|].
    intros x [-> | Hx]%elem_of_cons Hr' Hne'; [done | by apply Hall]. }
  destruct (dom_inv_update doms b H Hr Hne) as [H' Hsub].
  destruct (IH _ true H') as [Hinv Hcase]. split; [done|]. right.
  assert (b < length doms)%nat as Hlt by (rewrite (dom_length _ H); by apply reachable_lt).
  assert (total (<[b:=next doms b]> doms) < total doms)%nat as Hdec.
  { destruct (lookup_lt_is_Some_2 doms b Hlt) as [s Hs].
    pose proof (sum_insert cardinal doms b s (next doms b) Hs) as Hsum. unfold total.
    assert (cardinal (next doms b) < cardinal s)%nat; [|lia].
    assert (doms_of doms b = s) as Es by (unfold doms_of; by rewrite Hs). rewrite <- Es.
    apply cardinal_lt; [by apply wf_next | apply wf_doms_of; [done | by apply reachable_lt] | |done].
    intros j Hj. apply Hsub. rewrite doms_of_insert, decide_True by done. done. }
  destruct Hcase as [[-> _] | [-> Hlt']]; cbn; split; auto; lia.
Qed.

(** A round without change leaves a fixed point. *)
Definition dom_fixed doms : Prop :=
  ∀ b, is_reachable reach b → b ≠ entry → next doms b = doms_of doms b.

Lemma dominator_loop_correct fuel doms :
  dom_inv doms → (total doms < fuel)%nat →
  ∃ doms', dominator_loop inter n reach pred entry fuel doms = Some doms' ∧ dom_inv doms' ∧ dom_fixed doms'.
Proof.
  revert doms. induction fuel as [|fuel IH]; intros doms H Hlt; [lia|]. cbn [dominator_loop].
  unfold dominator_round.
  destruct (dominator_steps (seq 0 n) doms false H) as [Hinv Hcase].
  destruct (foldl step (doms, false) (seq 0 n)) as [doms' changed]. cbn [fst snd] in Hinv, Hcase.
  destruct Hcase as [[[= -> ->] Hall] | [-> Hdec]].
  - exists doms. split_and!; [done..|]. intros b Hb Hne. apply Hall; [|done..].
    apply elem_of_seq. pose proof (reachable_lt b Hb). lia.
  - apply IH; [done | lia].
Qed.

(** At a fixed point every member dominates. *)
Lemma dom_fixed_sound doms b l d :
  dom_inv doms → dom_fixed doms → walk succ entry l b → hasd doms b d = true → d ∈ l.
Proof.
  intros H Hfix Hl. induction Hl as [|l b s Hl IH Hs]; intros Hd.
  - rewrite (dom_entry _ H) in Hd. apply bool_decide_eq_true in Hd as <-. by left.
  - apply elem_of_app. destruct (decide (s = entry)) as [->|Hne].
    + rewrite (dom_entry _ H) in Hd. apply bool_decide_eq_true in Hd as <-. right. by left.
    + assert (is_reachable reach s) as Hrs by (apply Hreach; exists (l ++ [s]); by eapply walk_step).
      rewrite <- Hfix, has_next in Hd by done. destruct Hd as [-> | Hd]; [right; by left|].
      left. apply IH, Hd, elem_of_rpreds. split; [by apply Hgraph|]. apply Hreach. by exists l.
Qed.

(** ** The initial sets *)

Lemma has_all_reachable j :
  has_bit (all_reachable n reach) j = true ↔ is_reachable reach j.
Proof.
  unfold all_reachable.
  assert (∀ l s, wf_bits n s → (∀ b, b ∈ l → (b < n)%nat) →
    wf_bits n (foldl set_bit s l) ∧
    (has_bit (foldl set_bit s l) j = true ↔ j ∈ l ∨ has_bit s j = true)) as Hfold.
  { induction l as [|b l IH]; intros s Hs Hl; cbn [foldl].
    - split; [done|]. rewrite elem_of_nil. naive_solver.
    - destruct (IH (set_bit s b)) as [Hwf E]; [by apply wf_set_bit | intros; apply Hl; by right|].
      split; [done|]. rewrite E, (has_set_bit n), orb_true_iff, bool_decide_eq_true, elem_of_cons
        by (try done; apply Hl; by left). naive_solver. }
  destruct (Hfold (List.filter (is_reachable reach) (seq 0 n)) (no_bits n)) as [_ ->].
  - apply wf_no_bits.
  - intros b [Hb _]%list_elem_of_In%filter_In. apply in_seq in Hb. lia.
  - rewrite has_no_bits, list_elem_of_In, filter_In, in_seq, Is_true_true. split.
    + by intros [[]|].
    + intros Hj. left. split; [|done]. pose proof (reachable_lt j) as Hlt.
      rewrite Is_true_true in Hlt. specialize (Hlt Hj). lia.
Qed.

Lemma wf_all_reachable : wf_bits n (all_reachable n reach).
Proof.
  unfold all_reachable. generalize (List.filter (is_reachable reach) (seq 0 n)).
  assert (∀ l s, wf_bits n s → wf_bits n (foldl set_bit s l)) as H; [|intros; apply H, wf_no_bits].
  induction l as [|b l IH]; intros s Hs; cbn; [done|]. by apply IH, wf_set_bit.
Qed.

Lemma initial_doms_of b :
  (b < n)%nat →
  doms_of (initial_dominators n reach entry) b =
    if negb (is_reachable reach b) then no_bits n
    else if Nat.eqb b entry then set_bit (no_bits n) b else all_reachable n reach.
Proof.
  intros Hb. unfold doms_of, initial_dominators. rewrite list_lookup_fmap, lookup_seq_lt by done.
  done.
Qed.

Lemma dom_inv_initial : dom_inv (initial_dominators n reach entry).
Proof.
  assert (entry < n)%nat as He by apply Hgraph.
  assert (is_reachable reach entry = true) as Hre.
  { apply Is_true_true, Hreach. exists [entry]. constructor. }
  split.
  - unfold initial_dominators. by rewrite length_fmap, length_seq.
  - apply Forall_fmap, Forall_true. intros b. cbn.
    repeat case_match; auto using wf_no_bits, wf_set_bit, wf_all_reachable.
  - intros j. rewrite initial_doms_of, Hre, Nat.eqb_refl by done. cbn.
    rewrite (has_set_bit n), has_no_bits by (done || apply wf_no_bits). apply orb_false_r.
  - intros b d Hb Hd. pose proof (reachable_lt b Hb) as Hlt. rewrite initial_doms_of by done.
    apply Is_true_true in Hb as Hb'. rewrite Hb'. cbn [negb].
    destruct (Nat.eqb_spec b entry) as [->|Hne].
    + rewrite (has_set_bit n) by (done || apply wf_no_bits).
      specialize (Hd [entry] (walk_entry _ _)). apply list_elem_of_singleton in Hd as ->.
      by rewrite bool_decide_true.
    + apply has_all_reachable, Hreach. apply Hreach in Hb as [l Hl]. specialize (Hd l Hl).
      clear -Hl Hd. induction Hl as [|l b s Hl IH Hs].
      * apply list_elem_of_singleton in Hd as ->. exists [entry]. constructor.
      * apply elem_of_app in Hd as [|Hd]; [by apply IH|].
        apply list_elem_of_singleton in Hd as ->. exists (l ++ [s]). by eapply walk_step.
  - intros b j Hb Hne Hcase. pose proof (reachable_lt b Hb) as Hlt. rewrite initial_doms_of by done.
    apply Is_true_true in Hb as Hb'. rewrite Hb'. cbn [negb].
    destruct (Nat.eqb_spec b entry) as [|_]; [done|]. apply has_all_reachable.
    destruct Hcase as [-> | Hall]; [done|].
    destruct (rpreds b) as [|p ps] eqn:E; [by destruct (rpreds_nonempty b Hb Hne)|].
    assert (p ∈ rpreds b) as Hp by (rewrite E; left). specialize (Hall p ltac:(left)).
    apply elem_of_rpreds in Hp as [_ Hp]. rewrite initial_doms_of in Hall by (by apply reachable_lt).
    apply Is_true_true in Hp. rewrite Hp in Hall. cbn [negb] in Hall.
    destruct (Nat.eqb_spec p entry) as [->|]; [|by apply has_all_reachable].
    rewrite (has_set_bit n), has_no_bits in Hall by (done || apply wf_no_bits).
    rewrite orb_false_r in Hall. apply bool_decide_eq_true in Hall as <-. by apply Is_true_true.
  - intros b j Hb Hj. pose proof (reachable_lt b Hb) as Hlt. rewrite initial_doms_of in Hj by done.
    apply Is_true_true in Hb as Hb'. rewrite Hb' in Hj. cbn [negb] in Hj.
    destruct (Nat.eqb_spec b entry) as [->|]; [|by apply has_all_reachable].
    rewrite (has_set_bit n), has_no_bits, orb_false_r in Hj by (done || apply wf_no_bits).
    apply bool_decide_eq_true in Hj as <-. done.
Qed.

(** ** The number of rounds *)

(** After [k] rounds, a walk of at most [k] steps that avoids a block shows
    that the block does not dominate. *)
Definition avoids (k : nat) doms : Prop :=
  ∀ l b d, walk succ entry l b → (length l ≤ S k)%nat → d ∉ l → hasd doms b d = false.

Lemma walk_last l b : walk succ entry l b → b ∈ l.
Proof. destruct 1; [left | apply elem_of_app; right; by left]. Qed.

Lemma avoids_mono k doms doms' :
  (∀ x j, hasd doms' x j = true → hasd doms x j = true) → avoids k doms → avoids k doms'.
Proof.
  intros Hsub H l b d Hw Hl Hd. specialize (H l b d Hw Hl Hd).
  destruct (hasd doms' b d) eqn:E; [|done]. apply Hsub in E. congruence.
Qed.

(** A block whose set agrees with its predecessors is one step ahead. *)
Lemma avoids_next k doms l b d :
  dom_inv doms → avoids k doms → is_reachable reach b → b ≠ entry →
  walk succ entry l b → (length l ≤ S (S k))%nat → d ∉ l →
  has_bit (next doms b) d = false.
Proof.
  intros H Hk Hb Hne Hw Hl Hd. destruct (has_bit (next doms b) d) eqn:E; [|done].
  apply has_next in E; [|done..]. pose proof (walk_last _ _ Hw) as Hin.
  destruct Hw as [|l p b Hw Hs]; [done|]. rewrite length_app in Hl. cbn in Hl.
  apply not_elem_of_app in Hd as [Hd Hd'].
  destruct E as [->|E]; [destruct Hd'; by left|].
  assert (hasd doms p d = true) as Ht.
  { apply E, elem_of_rpreds. split; [by apply Hgraph | apply Hreach; by exists l]. }
  rewrite (Hk l p d Hw) in Ht by (lia || done). done.
Qed.

Lemma dominator_steps_avoid k ls doms c :
  dom_inv doms → avoids k doms →
  let st := foldl step (doms, c) ls in
  dom_inv st.1 ∧ avoids k st.1 ∧ (∀ x j, hasd st.1 x j = true → hasd doms x j = true)
  ∧ ∀ l b d, b ∈ ls → walk succ entry l b → (length l ≤ S (S k))%nat → d ∉ l → hasd st.1 b d = false.
Proof.
  revert doms c. induction ls as [|x ls IH]; intros doms c H Hk; cbn [foldl].
  { split; [done|]. split; [done|]. split; [done|]. by intros l b d ?%elem_of_nil. }
  set (doms1 := (step (doms, c) x).1).
  assert (dom_inv doms1 ∧ (∀ y j, hasd doms1 y j = true → hasd doms y j = true)
    ∧ ∀ l d, walk succ entry l x → (length l ≤ S (S k))%nat → d ∉ l → hasd doms1 x d = false) as (H1 & Hsub & Hx).
  { unfold doms1, dominator_step. cbn [fst snd].
    destruct (is_reachable reach x) eqn:Er; cbn [negb orb].
    2: { split; [done|]. split; [done|]. intros l d Hw. exfalso.
         assert (is_reachable reach x) as Hr by (apply Hreach; by exists l). by rewrite Er in Hr. }
    apply Is_true_true in Er. destruct (Nat.eqb_spec x entry) as [->|Hne].
    { split; [done|]. split; [done|]. intros l d Hw _ Hd. rewrite (dom_entry _ H).
      apply bool_decide_eq_false. intros <-. apply Hd. by eapply walk_last. }
    assert (x < length doms)%nat as Hlt by (rewrite (dom_length _ H); by apply reachable_lt).
    destruct (bool_decide_reflect (next doms x = doms_of doms x)) as [E|E]; cbn [fst].
    - split; [done|]. split; [done|]. intros l d Hw Hl Hd. rewrite <- E. by eapply avoids_next.
    - destruct (dom_inv_update doms x H Er Hne) as [Hi Hs]. split; [done|]. split; [done|].
      intros l d Hw Hl Hd. rewrite doms_of_insert, decide_True by done. by eapply avoids_next. }
  destruct (step (doms, c) x) as [d1 c1] eqn:Es. unfold doms1 in *. cbn [fst] in *. clear doms1.
  destruct (IH d1 c1 H1 (avoids_mono _ _ _ Hsub Hk)) as (Hi & Ha & Hs & Hall).
  split; [done|]. split; [done|]. split; [eauto|].
  intros l b d [->|Hb]%elem_of_cons Hw Hl Hd; [|by eapply Hall].
  destruct (hasd _ x d) eqn:E; [|done]. apply Hs in E. by rewrite (Hx l d Hw Hl Hd) in E.
Qed.

(** Every walk contains one without repetitions, to any of its blocks. *)
Lemma walk_simple l b x : walk succ entry l b → x ∈ l →
  ∃ l', walk succ entry l' x ∧ NoDup l' ∧ l' ⊆ l.
Proof.
  intros Hw. revert x. induction Hw as [|l b s Hw IH Hs]; intros x Hx.
  - apply list_elem_of_singleton in Hx as ->. exists [entry].
    split; [constructor|]. split; [apply NoDup_singleton | done].
  - destruct (decide (x ∈ l)) as [Hin|Hin].
    + destruct (IH x Hin) as (l' & ? & ? & ?). exists l'. split; [done|]. split; [done | set_solver].
    + apply elem_of_app in Hx as [Hx|Hx]; [done|]. apply list_elem_of_singleton in Hx as ->.
      destruct (IH b (walk_last _ _ Hw)) as (l' & Hw' & Hn & Hsub).
      exists (l' ++ [s]). split; [by eapply walk_step|]. split; [|set_solver].
      apply NoDup_app. split; [done|]. split; [|apply NoDup_singleton].
      intros y Hy ->%list_elem_of_singleton. by apply Hin, Hsub.
Qed.

Lemma walk_lt l b x : walk succ entry l b → x ∈ l → (x < n)%nat.
Proof.
  induction 1 as [|l b s Hw IH Hs]; intros Hx.
  - apply list_elem_of_singleton in Hx as ->. apply Hgraph.
  - apply elem_of_app in Hx as [Hx|Hx]; [by apply IH|].
    apply list_elem_of_singleton in Hx as ->. by eapply Hgraph.
Qed.

(** A walk without repetitions has at most [n] blocks. *)
Lemma simple_length l b : walk succ entry l b → NoDup l → (length l ≤ n)%nat.
Proof.
  intros Hw Hn. assert (l ⊆+ seq 0 n) as Hs%submseteq_length; [|by rewrite length_seq in Hs].
  apply NoDup_submseteq; [done|].
  intros x Hx. apply elem_of_seq. pose proof (walk_lt _ _ x Hw Hx). lia.
Qed.

Lemma avoids_exact doms : dom_inv doms → avoids (Nat.pred n) doms →
  ∀ b d, is_reachable reach b → hasd doms b d = true ↔ dominates succ entry d b.
Proof.
  intros H Ha b d Hb. split; [|by apply (dom_lower _ H)]. intros Hd l Hw.
  destruct (decide (d ∈ l)) as [|Hn]; [done|]. exfalso.
  destruct (walk_simple l b b Hw (walk_last _ _ Hw)) as (l' & Hw' & Hnd & Hsub).
  pose proof (simple_length l' b Hw' Hnd). rewrite (Ha l' b d Hw') in Hd; [done|lia|].
  intros Hin. by apply Hn, Hsub.
Qed.

(** Exact sets are a fixed point. *)
Lemma exact_fixed doms : dom_inv doms →
  (∀ b d, is_reachable reach b → hasd doms b d = true ↔ dominates succ entry d b) → dom_fixed doms.
Proof.
  intros H He b Hb Hne. pose proof (reachable_lt b Hb) as Hlt.
  apply (bits_ext n); [by apply wf_next | by apply wf_doms_of|]. intros j Hj.
  apply eq_true_iff_eq. rewrite has_next, He by done. split.
  - intros [->|Hall].
    + intros l Hw. by apply walk_last.
    + intros l Hw. destruct Hw as [|l p b Hw Hs]; [done|]. apply elem_of_app. left.
      assert (p ∈ rpreds b) as Hp.
      { apply elem_of_rpreds. split; [by apply Hgraph | apply Hreach; by exists l]. }
      specialize (Hall p Hp). rewrite He in Hall by (by apply elem_of_rpreds in Hp as [_ ?]). by apply Hall.
  - intros Hd. destruct (decide (b = j)) as [->|Hbj]; [by left | right].
    intros p [Hp Hpr]%elem_of_rpreds. rewrite He by done. intros l Hw.
    assert (j ∈ l ++ [b]) as Hin by (apply Hd; eapply walk_step; [done | by apply Hgraph]).
    apply elem_of_app in Hin as [|Hin]; [done|]. apply list_elem_of_singleton in Hin. congruence.
Qed.

Lemma dominator_steps_fixed ls doms c : dom_fixed doms → foldl step (doms, c) ls = (doms, c).
Proof.
  intros Hf. induction ls as [|x ls IH]; cbn [foldl]; [done|].
  assert (step (doms, c) x = (doms, c)) as ->; [|done].
  unfold dominator_step. cbn [fst snd]. destruct (is_reachable reach x) eqn:Er; [|done]. cbn [negb orb].
  destruct (Nat.eqb_spec x entry); [done|]. rewrite Hf by (done || by apply Is_true_true).
  by rewrite bool_decide_true.
Qed.

(** [k] rounds of fuel after [r] rounds suffice when [r + k] reaches [n]. *)
Lemma dominator_loop_rounds k r doms :
  dom_inv doms → avoids r doms → (n ≤ r + k)%nat → (0 < k)%nat →
  ∃ doms', dominator_loop inter n reach pred entry k doms = Some doms' ∧ dom_inv doms'
    ∧ ∀ b d, is_reachable reach b → hasd doms' b d = true ↔ dominates succ entry d b.
Proof.
  revert r doms. induction k as [|k IH]; intros r doms H Hr Hle Hk; [lia|].
  cbn [dominator_loop]. unfold dominator_round.
  destruct (decide (n ≤ S r)%nat) as [Hn|Hn].
  - assert (avoids (Nat.pred n) doms) as Ha by (intros l b d Hw Hl; apply Hr; [done|lia]).
    pose proof (avoids_exact doms H Ha) as He.
    rewrite dominator_steps_fixed by by apply exact_fixed. by exists doms.
  - destruct (dominator_steps_avoid r (seq 0 n) doms false H Hr) as (Hi & Ha & _ & Hall).
    destruct (foldl step (doms, false) (seq 0 n)) as [d1 changed] eqn:E. cbn [fst] in *.
    assert (avoids (S r) d1) as Hr1.
    { intros l b d Hw Hl Hd. apply (Hall l b d); [|done..]. apply elem_of_seq.
      pose proof (walk_lt _ _ b Hw (walk_last _ _ Hw)). lia. }
    destruct changed; [by apply (IH (S r) d1); [done|done|lia|lia]|].
    exists d1. split; [done|]. split; [done|].
    destruct (dominator_steps (seq 0 n) doms false H) as [_ Hcase]. rewrite E in Hcase. cbn [fst snd] in Hcase.
    destruct Hcase as [[[= ->] Hfix]|[? _]]; [|done].
    intros b d Hb. split; [|by apply (dom_lower _ H)]. intros Hd l Hw.
    eapply (dom_fixed_sound doms); [done| |done|done]. intros x Hx Hne. apply Hfix; [|done..].
    apply elem_of_seq. pose proof (reachable_lt x Hx). lia.
Qed.

(** At most [n] rounds are needed, whatever the order of the blocks. *)
Lemma dominators_rounds fuel : (n ≤ fuel)%nat →
  ∃ doms, dominator_loop inter n reach pred entry fuel (initial_dominators n reach entry) = Some doms ∧
    length doms = n ∧ Forall (wf_bits n) doms ∧
    ∀ b d, is_reachable reach b → hasd doms b d = true ↔ dominates succ entry d b.
Proof.
  intros Hf. assert (entry < n)%nat as He by apply Hgraph.
  destruct (dominator_loop_rounds fuel 0 (initial_dominators n reach entry)) as (doms & E & H & Hex);
    [apply dom_inv_initial| |lia|lia|].
  - intros l b d Hw Hl Hd. destruct Hw as [|l p b Hw Hs].
    + rewrite (dom_entry _ dom_inv_initial). apply bool_decide_eq_false. intros <-. apply Hd. by left.
    + rewrite length_app in Hl. cbn in Hl. destruct Hw; [cbn in Hl; lia|]. rewrite length_app in Hl. cbn in Hl. lia.
  - exists doms. split; [done|]. split; [apply H|]. split; [apply H | done].
Qed.

(** The iteration from the initial sets ends within its fuel, in the dominance
    relation of the graph. *)
Lemma dominators_correct :
  ∃ doms, dominator_loop inter n reach pred entry (dominator_fuel n)
            (initial_dominators n reach entry) = Some doms ∧
    length doms = n ∧ Forall (wf_bits n) doms ∧
    ∀ b d, is_reachable reach b → hasd doms b d = true ↔ dominates succ entry d b.
Proof.
  destruct (dominator_loop_correct (dominator_fuel n) (initial_dominators n reach entry))
    as (doms & E & H & Hfix).
  - apply dom_inv_initial.
  - pose proof (total_bound _ dom_inv_initial). unfold dominator_fuel. lia.
  - exists doms. split_and!; [done | apply H.. |]. intros b d Hb. split.
    + intros Hd l Hl. by eapply dom_fixed_sound.
    + by apply (dom_lower _ H).
Qed.
End dominance.

(** The verifier's intersection meets the requirements. *)
Lemma foldl_and_bits n sets s :
  wf_bits n s → Forall (wf_bits n) sets →
  wf_bits n (foldl and_bits s sets) ∧
  ∀ j, has_bit (foldl and_bits s sets) j = has_bit s j && forallb (λ s, has_bit s j) sets.
Proof.
  revert s. induction sets as [|t sets IH]; intros s Hs Hsets; cbn.
  - split; [done|]. intros. by rewrite andb_true_r.
  - apply Forall_cons in Hsets as [Ht Hsets].
    destruct (IH (and_bits s t)) as [Hwf E]; [by apply wf_and_bits | done|]. split; [done|].
    intros j. by rewrite E, (has_and_bits n), andb_assoc by done.
Qed.

Lemma intersect_first_wf n sets : Forall (wf_bits n) sets → wf_bits n (intersect_first n sets).
Proof.
  destruct sets as [|s sets]; intros H; [apply wf_no_bits|].
  apply Forall_cons in H as [Hs H]. by apply foldl_and_bits.
Qed.

Lemma has_intersect_first n sets j :
  sets ≠ [] → Forall (wf_bits n) sets →
  has_bit (intersect_first n sets) j = forallb (λ s, has_bit s j) sets.
Proof.
  destruct sets as [|s sets]; [done|]. intros _ [Hs H]%Forall_cons.
  destruct (foldl_and_bits n sets s Hs H) as [_ E]. apply E.
Qed.
