(* ===== verification/Storage.v ===== *)
(** * Storage: interference of shared local storage

    Models [verifyStorageInterference] of [IR.cpp]: when the storage layout of
    a function gives overlapping frame homes to different locals, or pools
    immutable arrays, the verifier recomputes which locals are live and
    rejects the function if two overlapping ones ever are at once, or if an
    address escapes what the analysis can follow.  Sets of symbols are finite
    sets; the vectors indexed by value or block are lists read with [at]. *)

From S2P Require Import Prelude Types Token IR.

Definition storage_conflict (f : IRFunction) : error :=
  error_at "IR verifier: pooled/shared storage has an alias or lifetime conflict."
    (token UNKNOWN (f_name f) 1 1).

(** The bytes a home may occupy: its words and the slack of its alignment. *)
Definition home_size (t : CType) : Z :=
  Z.quot (sizeInBytes t * Z.max 1 (array_size t) + 1) 2 * 2
  + Z.max (Z.max 2 (alignment t)) (storageAlignment t) - 2.

Definition homes_overlap (a b : Symbol) : bool :=
  (stackOffset a <? stackOffset b + home_size (sym_type b))
  && (stackOffset b <? stackOffset a + home_size (sym_type a)).

(** The pairs of locals below the frame pointer whose homes overlap, in key
    order. *)
Fixpoint overlapping_pairs (layout : list (SymbolId * Symbol)) : list (SymbolId * SymbolId) :=
  match layout with
  | [] => []
  | (ka, a) :: rest =>
      (if 0 <=? stackOffset a then []
       else (λ e, (ka, e.1)) <$>
              List.filter (λ e, (stackOffset e.2 <? 0) && homes_overlap a e.2) rest)
      ++ overlapping_pairs rest
  end.

(** What the analysis knows of a value: the local it addresses (0 for none),
    whether at offset zero, and its definition. *)
Record values_state := mkValues {
  s_owners : list SymbolId;
  s_zero : list bool;
  s_values : list (option IRInstruction);
  s_count : Z
}.

Definition instructions (f : IRFunction) : list IRInstruction :=
  mjoin (b_instructions <$> f_blocks f).

(** The first scan: definitions, roots of addresses, and what is refused. *)
Definition scan_instruction (f : IRFunction) (st : values_state) (i : IRInstruction) : result values_state :=
  let reject b := throw_if b (storage_conflict f) in
  let count := s_count st + 1 in
  reject (16000 <? count);;
  values ← (if value_isValid (i_result i) then set_at (s_values st) (i_result i) (Some i)
            else Ok (s_values st));
  reject (is_op (i_opcode i) OpCall || is_op (i_opcode i) OpLoad || is_op (i_opcode i) OpStore);;
  if is_op (i_opcode i) OpAddress && String.eqb (i_operation i) "" && symbol_isValid (i_symbol_id i) then
    owners ← set_at (s_owners st) (i_result i) (i_symbol_id i);
    zero ← set_at (s_zero st) (i_result i) true;
    match find_key (f_immutable_local_arrays f) (i_symbol_id i) with
    | Some pool =>
        pointee ← pointeeType (i_type i);
        throw_when (not_r (sameValueType (clear_array (p_type pool)) pointee)) (storage_conflict f)
    | None => Ok tt
    end;;
    Ok (mkValues owners zero values count)
  else Ok (mkValues (s_owners st) (s_zero st) values count).

(** One instruction of a propagation round. *)
Definition propagate_instruction (st : values_state * bool) (i : IRInstruction) :
    result (values_state * bool) :=
  let (s, changed) := st in
  if negb (value_isValid (i_result i)) then Ok st else
  known ← at_ (s_owners s) (i_result i);
  if symbol_isValid known || bool_decide (i_operands i = []) then Ok st else
  let first := default InvalidValue (i_operands i !! 0%nat) in
  owner ← at_ (s_owners s) first;
  if negb (symbol_isValid owner) then Ok st else
  if (is_op (i_opcode i) OpAddress && String.eqb (i_operation i) "member")
     || is_op (i_opcode i) OpPointerOffset then
    owners ← set_at (s_owners s) (i_result i) owner;
    same ←
      (if is_op (i_opcode i) OpPointerOffset then
         index ← at_ (s_values s) (default InvalidValue (i_operands i !! 1%nat));
         Ok ((zlen (i_operands i) =? 2)
             && match index with
                | Some d => is_op (i_opcode d) OpConstant && (i_immediate d =? 0)
                | None => false
                end)
       else Ok (is_op (i_opcode i) OpAddress && (i_immediate i =? 0)));
    base_zero ← at_ (s_zero s) first;
    zero ← set_at (s_zero s) (i_result i) (same && base_zero);
    Ok (mkValues owners zero (s_values s) (s_count s), true)
  else Ok st.

(** At most 64 rounds, until nothing changes. *)
Fixpoint propagate (f : IRFunction) (rounds : nat) (s : values_state) : result values_state :=
  match rounds with
  | O => Ok s
  | S rounds =>
      '(s, changed) ← foldM propagate_instruction (s, false) (instructions f);
      if (changed : bool) then propagate f rounds s else Ok s
  end.

Record Event := mkEvent { e_symbol : SymbolId; e_read : bool; e_write : bool; e_kill : bool }.
Definition no_event : Event := mkEvent 0 false false false.

Definition is_memory_op (o : IROpcode) : bool :=
  match o with OpLoadIndirect | OpStoreIndirect | OpMemoryInitialize => true | _ => false end.

(** No use of a tracked address may hide an access. *)
Definition check_operand (f : IRFunction) (s : values_state) (i : IRInstruction) (e : nat * IRValueId) :
    result unit :=
  let (operand, value) := e in
  owner ← at_ (s_owners s) value;
  if negb (symbol_isValid owner) then Ok tt else
  let first := Nat.eqb operand 0 in
  derived ←
    (if first && value_isValid (i_result i) then
       r ← at_ (s_owners s) (i_result i);
       Ok (symbol_isValid r && (is_op (i_opcode i) OpAddress || is_op (i_opcode i) OpPointerOffset))
     else Ok false);
  let read := first && is_op (i_opcode i) OpLoadIndirect in
  let write := first && (is_op (i_opcode i) OpStoreIndirect || is_op (i_opcode i) OpMemoryInitialize) in
  throw_if ((negb derived && negb read && negb write)
            || (write && has_key (f_immutable_local_arrays f) owner))
    (storage_conflict f).

(** The access of an instruction to a home. *)
Definition event_of (f : IRFunction) (s : values_state) (i : IRInstruction) : result Event :=
  if negb (is_memory_op (i_opcode i)) then Ok no_event else
  let address := default InvalidValue (i_operands i !! 0%nat) in
  symbol ← at_ (s_owners s) address;
  pointer ← at_ (s_values s) address;
  throw_if (negb (symbol_isValid symbol)
            && match pointer with
               | Some d => bool_decide (space (i_type d) = SpaceRam)
               | None => false
               end)
    (storage_conflict f);;
  match find_key (f_storage_layout f) symbol with
  | Some local =>
      if stackOffset local <? 0 then
        let read := is_op (i_opcode i) OpLoadIndirect in
        let width := sizeInBytes (i_type i)
          * (if is_op (i_opcode i) OpMemoryInitialize then zlen (i_initialization_values i) else 1) in
        z ← (if read then Ok false else at_ (s_zero s) address);
        Ok (mkEvent symbol read (negb read)
              (negb read && z
               && (width =? sizeInBytes (sym_type local) * Z.max 1 (array_size (sym_type local)))))
      else Ok (mkEvent symbol false false false)
  | None => Ok (mkEvent symbol false false false)
  end.

Definition instruction_event (f : IRFunction) (s : values_state) (i : IRInstruction) : result Event :=
  forM_ (check_operand f s i) (indexed (i_operands i));;
  event_of f s i.

(** The reads not preceded by a kill, and the kills, of a block. *)
Definition add_event (ud : gset Z * gset Z) (e : Event) : gset Z * gset Z :=
  let (uses, defs) := ud in
  ((if e_read e && negb (bool_decide (e_symbol e ∈ defs)) then {[ e_symbol e ]} ∪ uses else uses),
   (if e_kill e then {[ e_symbol e ]} ∪ defs else defs)).

Definition storage_successors (b : IRBasicBlock) : list nat :=
  mjoin ((λ i, if is_op (i_opcode i) OpPhi then [] else Z.to_nat <$> i_targets i) <$> b_instructions b).

(** The state of the backward iteration. *)
Record live_state := mkLive { l_in : list (gset Z); l_out : list (gset Z); l_work : Z }.

Definition set_of (l : list (gset Z)) (b : nat) : gset Z := default ∅ (l !! b).

Section liveness.
Context (f : IRFunction) (succs : list (list nat)) (uses defs : list (gset Z)).

Definition live_block (st : live_state * bool) (b : nat) : result (live_state * bool) :=
  let (s, changed) := st in
  let next_out := ⋃ ((λ n, set_of (l_in s) n) <$> default [] (succs !! b)) in
  let next_in := set_of uses b ∪ (next_out ∖ set_of defs b) in
  let work := l_work s + Z.of_nat (size next_in) + Z.of_nat (size next_out) + 1 in
  throw_if (2000000 <? work) (storage_conflict f);;
  if bool_decide (next_in = set_of (l_in s) b) && bool_decide (next_out = set_of (l_out s) b)
  then Ok (mkLive (l_in s) (l_out s) work, changed)
  else Ok (mkLive (<[b := next_in]> (l_in s)) (<[b := next_out]> (l_out s)) work, true).

Definition live_round (s : live_state) : live_state + result live_state :=
  match foldM live_block (s, false) (reverse (seq 0 (length (f_blocks f)))) with
  | Err e => inr (Err e)
  | Ok (s, changed) => if (changed : bool) then inl s else inr (Ok s)
  end.

(** [while (changed)]: the work limit ends it ([liveness_ends]). *)
Definition liveness : result live_state :=
  let n := length (f_blocks f) in
  match iterate live_round 2000002 (mkLive (replicate n ∅) (replicate n ∅) 0) with
  | inr r => r
  | inl _ => Err (LogicError "the liveness iteration did not end")
  end.
End liveness.

Section conflicts.
Context (f : IRFunction) (pairs : list (SymbolId * SymbolId)).

Definition conflict (a b : SymbolId) : result unit :=
  let (x, y) := if b <? a then (b, a) else (a, b) in
  throw_if (negb (x =? y) && bool_decide ((x, y) ∈ pairs)) (storage_conflict f).

Definition conflicts_with (a : SymbolId) (live : gset Z) : result unit :=
  forM_ (conflict a) (elements live).

(** One event, going backwards through a block. *)
Definition back_event (live : gset Z) (e : Event) : result (gset Z) :=
  (if e_write e then conflicts_with (e_symbol e) live else Ok tt);;
  let live := if e_kill e then live ∖ {[ e_symbol e ]} else live in
  if e_read e then conflicts_with (e_symbol e) live;; Ok ({[ e_symbol e ]} ∪ live) else Ok live.

Definition check_block (out : gset Z) (code : list Event) : result unit :=
  forM_ (λ a, conflicts_with a out) (elements out);;
  foldM back_event out (reverse code);;
  Ok tt.
End conflicts.

Definition verifyStorageInterference (f : IRFunction) : result unit :=
  if negb (f_storage_layout_valid f) then Ok tt else
  let pairs := overlapping_pairs (f_storage_layout f) in
  if bool_decide (pairs = []) && Nat.eqb (length (f_immutable_local_arrays f)) 0 then Ok tt else
  let reject b := throw_if b (storage_conflict f) in
  reject ((8192 <? f_value_count f) || (256 <? zlen (f_blocks f)));;
  forM_ (λ p, reject (negb (pointer_level (param_type p) =? 0)
                      && bool_decide (space (param_type p) = SpaceRam))) (f_parameters f);;
  let slots := Z.to_nat (f_value_count f + 1) in
  s ← foldM (scan_instruction f)
        (mkValues (replicate slots 0) (replicate slots false) (replicate slots None) 0) (instructions f);
  s ← propagate f 64 s;
  events ← mapM_r (λ b, mapM_r (instruction_event f s) (b_instructions b)) (f_blocks f);
  let ud := foldl add_event (∅, ∅) <$> events in
  live ← liveness f (storage_successors <$> f_blocks f) (fst <$> ud) (snd <$> ud);
  forM_ (λ '(b, code), check_block f pairs (set_of (l_out live) b) code) (indexed events).

(* ------------------------------------------------------------------ *)
(** ** The backward iteration ends *)

Section liveness_ends.
Context (f : IRFunction) (succs : list (list nat)) (uses defs : list (gset Z)).
Notation live_block := (live_block f succs uses defs).

Lemma live_block_work s c b s' c' :
  live_block (s, c) b = Ok (s', c') → l_work s < l_work s' ≤ 2000000.
Proof.
  unfold Storage.live_block. intros (u & Hw%throw_if_ok & H)%result_bind_ok. case_match; injection H as <- _; cbn [l_work]; lia.
Qed.

Lemma live_blocks_work l s c s' c' :
  foldM live_block (s, c) l = Ok (s', c') → l_work s ≤ 2000000 →
  l_work s ≤ l_work s' ≤ 2000000 ∧ (c' = c ∨ l_work s < l_work s').
Proof.
  revert s c. induction l as [|b l IH]; intros s c; cbn [foldM]; [intros [= <- <-] ?; split; [lia|by left]|].
  intros ([s1 c1] & H1%live_block_work & H)%result_bind_ok Hs. apply IH in H as (H2 & H3); [|lia]. split; [lia|right; lia].
Qed.

Lemma live_blocks_error l s e : foldM live_block s l = Err e → e = storage_conflict f.
Proof.
  revert s. induction l as [|b l IH]; intros [s c]; cbn [foldM]; [done|].
  destruct (live_block (s, c) b) as [s1|e1] eqn:H1; [apply IH|]. intros [= <-]. unfold Storage.live_block in H1.
  destruct (throw_if _ _) as [[]|e2] eqn:E in H1; cbn in H1; [by destruct (_ && _)|]. injection H1 as <-.
  unfold throw_if in E. destruct (2000000 <? _); [by injection E|done].
Qed.

Lemma liveness_ends : liveness f succs uses defs ≠ Err (LogicError "the liveness iteration did not end").
Proof.
  unfold liveness. set (s0 := mkLive _ _ 0).
  destruct (iterate_ends (live_round f succs uses defs) (λ s, 0 ≤ l_work s ≤ 2000000) (λ s, Z.to_nat (2000000 - l_work s))
    (λ r, ∀ e, r = Err e → e = storage_conflict f) 2000002 s0) as (r & -> & Hr).
  - intros s Hs. unfold live_round. destruct (foldM _ _ _) as [[s1 c1]|e] eqn:H; [|by intros e' [= <-]; eapply live_blocks_error].
    apply live_blocks_work in H as [H1 H2]; [|lia]. destruct c1; [|done]. destruct H2; [done|]. split; [lia|lia].
  - done.
  - cbn [l_work s0]. lia.
  - intros H. by apply Hr in H.
Qed.
End liveness_ends.
