(* ===== verification/IRVerify.v ===== *)
(** * IRVerify: the IR verifier

    Models [IRVerifier::verify] and [IRVerifier::verifyFunction] of [IR.cpp],
    check by check in the order of the code: the header and storage layout,
    the first pass that collects definitions, edges and hardware-loop scopes,
    reachability, dominators, the hardware-loop scope stack, and the typing of
    every instruction.  The first failing check decides the error.

    [std::map]s that the code only looks up are finite maps; those it iterates
    are lists in key order.  The two fixed-point loops are those of [Graph];
    the check of shared storage that ends the function is [Storage]'s. *)

From S2P Require Import Prelude Target Types Token Pointer IR Graph Storage.

(** [fail(message, source)] *)
Definition fail (message : string) (source : Token) : error := error_at message source.

Definition function_token (f : IRFunction) : Token := token UNKNOWN (f_name f) 1 1.

(* ------------------------------------------------------------------ *)
(** ** The module *)

Definition has_far_layer (t : CType) : bool := isFarPointer t || existsb id (pointer_reach t).

Definition check_type (target : TargetKind) (t : CType) (source : Token) : result unit :=
  throw_if (has_far_layer t && negb (supportsCapability target FarData))
    (fail "IR verifier: target lacks far-data capability." source).

Definition is_graphics (i : IRInstruction) : bool :=
  i_in_plot_context i ||
  match i_opcode i with
  | OpPlotCoordinateRead | OpPlotCoordinateWrite | OpPlotBegin | OpPlotEnd | OpPlot
  | OpSetColor | OpCMode | OpRpix => true
  | _ => false
  end.

Definition is_hardware_loop (o : IROpcode) : bool :=
  match o with OpHardwareLoop | OpHardwareLoopEnd | OpHardwareLoopLeave => true | _ => false end.

Definition check_capabilities (target : TargetKind) (i : IRInstruction) : result unit :=
  check_type target (i_type i) (i_source i);;
  throw_if (is_graphics i && negb (supportsCapability target Graphics))
    (fail "IR verifier: target lacks graphics capability." (i_source i));;
  throw_if (is_op (i_opcode i) OpCache && negb (supportsCapability target InstructionCache))
    (fail "IR verifier: target lacks instruction-cache capability." (i_source i));;
  throw_if (is_hardware_loop (i_opcode i) && negb (supportsCapability target HardwareLoops))
    (fail "IR verifier: target lacks hardware-loops capability." (i_source i)).

(* ------------------------------------------------------------------ *)
(** ** Header and storage layout *)

Definition verifyPointerType (t : CType) (source : Token) (maximum_depth : Z) : result unit :=
  throw_if
    ((pointer_level t <? 0) || (maximum_depth <? pointer_level t)
     || (negb (bool_decide (pointer_reach t = [])) && negb (zlen (pointer_reach t) =? pointer_level t))
     || (negb (bool_decide (pointer_spaces t = [])) && negb (zlen (pointer_spaces t) =? pointer_level t))
     || (negb (bool_decide (pointee_qualifiers t = []))
         && negb (zlen (pointee_qualifiers t) =? pointer_level t))
     || (negb (bool_decide (pointer_reach t = []))
         && negb (Bool.eqb (is_far t) (back_or false (pointer_reach t))))
     || (negb (bool_decide (pointer_spaces t = []))
         && negb (bool_decide (space t = back_or SpaceNone (pointer_spaces t))))
     || ((0 <? pointer_level t) && negb (sizeInBytes t =? (if isFarPointer t then 4 else 2))))
    (fail "IR verifier: invalid pointer representation or layer metadata." source).

Definition object_bytes (source : Token) (t : CType) : result Z :=
  throw_if ((sizeInBytes t <=? 0) || (65528 <? sizeInBytes t) || (array_size t <? 0)
            || (65528 / sizeInBytes t <? array_size t))
    (fail "IR verifier: invalid local object extent." source);;
  Ok (sizeInBytes t * Z.max 1 (array_size t)).

Definition object_alignment (t : CType) : Z := Z.max (Z.max 2 (alignment t)) (storageAlignment t).

Definition verify_local (f : IRFunction) (entry : SymbolId * Symbol) : result unit :=
  let source := function_token f in
  let (key, symbol) := entry in
  verifyPointerType (sym_type symbol) source MaxPointerDepth;;
  bytes ← object_bytes source (sym_type symbol);
  let al := object_alignment (sym_type symbol) in
  throw_if (negb (symbol_isValid key) || negb (key =? sym_id symbol) || (stackOffset symbol =? 0)
            || negb (Z.rem (stackOffset symbol) 2 =? 0) || (128 <? al) || negb (Z.land al (al - 1) =? 0)
            || has_key (f_immutable_local_arrays f) key)
    (fail "IR verifier: invalid local storage identity or alignment." source);;
  throw_if ((stackOffset symbol <? 0)
            && ((stackOffset symbol <? - f_total_local_alloc_size f + 2)
                || (0 <? stackOffset symbol + (bytes + 1) / 2 * 2 + al - 2)))
    (fail "IR verifier: local storage exceeds the checked frame." source).

(** The loop over the parameters threads their stack offset. *)
Definition verify_parameter (f : IRFunction) (parameter_offset : Z) (p : FormalParameter) : result Z :=
  throw_when
    (match find_key (f_storage_layout f) (param_symbol_id p) with
     | None => Ok true
     | Some local =>
         or_r (Ok (negb (stackOffset local =? parameter_offset)))
           (not_r (sameValueType (sym_type local) (param_type p)))
     end)
    (fail "IR verifier: storage layout changed parameter ABI offsets." (param_name p));;
  Ok (parameter_offset + (if isFarPointer (param_type p) then 4 else 2)).

Definition verify_pool (f : IRFunction) (pool_bytes : Z) (entry : SymbolId * IRImmutableLocalArray) :
    result Z :=
  let source := function_token f in
  let (key, pool) := entry in
  let t := p_type pool in
  throw_when
    (or_r
      (Ok (negb (symbol_isValid key) || negb (isIntegerType t) || negb (pointer_level t =? 0)
           || (array_size t <? 4) || (256 <? array_size t)
           || (negb (sizeInBytes t =? 1) && negb (sizeInBytes t =? 2))
           || negb (sizeInBytes t =? (if bool_decide (base t = BaseWord) then 2 else 1))
           || is_volatile t || (2 <? alignment t)))
      (or_r (bytes ← object_bytes source t; Ok (negb (zlen (p_bytes pool) =? bytes)))
         (Ok (65528 - pool_bytes <? zlen (p_bytes pool)))))
    (fail "IR verifier: invalid immutable local array extent." source);;
  throw_if (bool_decide (base t = BaseBool) && existsb (λ byte, 1 <? byte) (p_bytes pool))
    (fail "IR verifier: immutable bool array has an invalid representation." source);;
  Ok (pool_bytes + zlen (p_bytes pool)).

Definition verify_storage (f : IRFunction) : result unit :=
  let source := function_token f in
  throw_if (negb (f_storage_layout_valid f)
            && (negb (bool_decide (f_storage_layout f = []))
                || negb (Nat.eqb (length (f_immutable_local_arrays f)) 0)))
    (fail "IR verifier: storage metadata requires a valid owned layout." source);;
  if negb (f_storage_layout_valid f) then Ok tt else
  throw_if ((f_total_local_alloc_size f <? 0) || (65530 <? f_total_local_alloc_size f)
            || negb (Z.rem (f_total_local_alloc_size f) 2 =? 0) || (256 <? zlen (f_storage_layout f))
            || (256 <? zlen (f_immutable_local_arrays f)))
    (fail "IR verifier: invalid bounded local storage layout." source);;
  forM_ (verify_local f) (f_storage_layout f);;
  foldM (verify_parameter f) 6 (f_parameters f);;
  foldM (verify_pool f) 0 (f_immutable_local_arrays f);;
  Ok tt.

Definition verify_header (f : IRFunction) : result unit :=
  throw_if (String.eqb (f_name f) "") (fail "IR verifier: function has no name." no_token);;
  throw_if (Nat.eqb (length (f_blocks f)) 0) (fail "IR verifier: function has no basic blocks." no_token);;
  throw_if (negb (block_isValid (f_entry f)) || (zlen (f_blocks f) <=? f_entry f))
    (fail "IR verifier: function entry block is invalid." no_token);;
  throw_if (negb (f_entry f =? 0)) (fail "IR verifier: function entry block must be block zero." no_token);;
  verifyPointerType (f_return_type f) no_token MaxPointerDepth;;
  forM_ (λ p, verifyPointerType (param_type p) no_token MaxPointerDepth) (f_parameters f);;
  verify_storage f.

(* ------------------------------------------------------------------ *)
(** ** The first pass *)

Record Definition_ := mkDef { d_block : nat; d_instruction : nat }.

(** A hardware-loop scope: its setup, end and leave with their blocks. *)
Record HardwareScope := mkScope {
  h_setup : option (IRInstruction * nat);
  h_end : option (IRInstruction * nat);
  h_leave : option (IRInstruction * nat)
}.
Definition no_scope : HardwareScope := mkScope None None None.

Record pass1 := mkPass1 {
  definitions : gmap Z Definition_;
  successors : list (list nat);
  predecessors : list (list nat);
  hardware_scopes : list (Z * HardwareScope)
}.

(** [map[k]] on an ordered map, then an update of the element. *)
Fixpoint update_key {A} (d : A) (g : A → A) (k : Z) (m : list (Z * A)) : list (Z * A) :=
  match m with
  | [] => [(k, g d)]
  | (k', x) :: m' =>
      if k =? k' then (k', g x) :: m'
      else if k <? k' then (k, g d) :: m
      else (k', x) :: update_key d g k m'
  end.

Definition verifyTarget (f : IRFunction) (target : IRBlockId) (source : Token) : result unit :=
  throw_if (negb (block_isValid target) || (zlen (f_blocks f) <=? target))
    (fail "IR verifier: branch target is outside the function." source).

(** The metadata checks that open the loop body. *)
Definition verify_metadata (f : IRFunction) (b : IRBasicBlock) (k : nat) (i : IRInstruction) : result unit :=
  let t := i_type i in
  let src := i_source i in
  throw_if (negb (bool_decide (i_initialization_values i = [])) && negb (is_op (i_opcode i) OpMemoryInitialize))
    (fail "IR verifier: initializer values belong to memory.initialize only." src);;
  throw_if (i_compiler_generated_loop i && negb (is_op (i_opcode i) OpHardwareLoop))
    (fail "IR verifier: generated-loop metadata belongs to setup only." src);;
  throw_if (negb (i_loop_id i =? 0) && negb (is_hardware_loop (i_opcode i)))
    (fail "IR verifier: loop ID belongs to hardware-loop operations only." src);;
  (if block_isValid (i_loop_target i) then
     throw_if (negb (is_op (i_opcode i) OpHardwareLoop) || negb (zlen (i_targets i) =? 1))
       (fail "IR verifier: loop target belongs to explicit hardware-loop setup only." src);;
     verifyTarget f (i_loop_target i) src
   else Ok tt);;
  (if is_op (i_opcode i) OpPhi then
     throw_if (match k with
               | O => false
               | S k => negb (bool_decide (i_opcode <$> b_instructions b !! k = Some OpPhi))
               end)
       (fail "IR verifier: phi instructions must precede ordinary instructions." src);;
     throw_if (bool_decide (i_operands i = []) || negb (zlen (i_operands i) =? zlen (i_targets i))
               || negb (array_size t =? 0)
               || (negb (isIntegerType t) && negb ((0 <? pointer_level t) && negb (isFarPointer t)))
               || negb (String.eqb (i_operation i) ""))
       (fail "IR verifier: invalid phi incoming values." src)
   else Ok tt);;
  throw_if (i_memory_volatile i && negb (is_op (i_opcode i) OpLoadIndirect)
            && negb (is_op (i_opcode i) OpStoreIndirect))
    (fail "IR verifier: volatile metadata on a non-memory instruction." src);;
  throw_if (String.eqb (i_operation i) "null" && is_op (i_opcode i) OpConstant
            && (negb (i_immediate i =? 0) || (pointer_level t =? 0) || negb (bool_decide (i_operands i = []))))
    (fail "IR verifier: invalid null pointer constant." src);;
  verifyPointerType t src
    (if is_op (i_opcode i) OpAddress then MaxAddressPointerDepth else MaxPointerDepth).

(** The body of the [try] block on pointer constants. *)
Definition check_pointer_constant (i : IRInstruction) : result unit :=
  let t := i_type i in
  throw_if ((i_immediate i <? 0) || ((if isFarPointer t then 16777215 else 65535) <? i_immediate i))
    (RuntimeError "Pointer address exceeds its representation.");;
  element ← pointeeType t;
  Pointer.validate (u32 (i_immediate i)) (space t) (isFarPointer t)
    (if 0 <? sizeInBytes element then sizeInBytes element else 1) (storageAlignment element).

Definition verify_pointer_constant (i : IRInstruction) : result unit :=
  if is_op (i_opcode i) OpConstant && (0 <? pointer_level (i_type i))
     && negb (String.eqb (i_operation i) "null") then
    match check_pointer_constant i with
    | Ok _ => Ok tt
    | Err e => Err (fail ("IR verifier: invalid pointer constant: " +:+ what e) (i_source i))
    end
  else Ok tt.

(** [definitions.emplace(...)] and the result check. *)
Definition define_result (f : IRFunction) (index k : nat) (i : IRInstruction)
    (defs : gmap Z Definition_) : result (gmap Z Definition_) :=
  if producesValue i then
    throw_if (negb (value_isValid (i_result i)) || (f_value_count f <? i_result i))
      (fail "IR verifier: value-producing instruction has an invalid result." (i_source i));;
    throw_if (bool_decide (is_Some (defs !! i_result i)))
      (fail "IR verifier: value is defined more than once." (i_source i));;
    Ok (<[i_result i := mkDef index k]> defs)
  else
    throw_if (value_isValid (i_result i))
      (fail "IR verifier: non-value instruction unexpectedly has a result." (i_source i));;
    Ok defs.

Definition verify_operand (f : IRFunction) (src : Token) (operand : IRValueId) : result unit :=
  throw_if (negb (value_isValid operand) || (f_value_count f <? operand))
    (fail "IR verifier: instruction uses an invalid value." src).

Fixpoint has_duplicate (l : list Z) : bool :=
  match l with [] => false | x :: l => existsb (Z.eqb x) l || has_duplicate l end.

(** The switch of the first pass: shape of control operations, and the scopes
    of hardware loops. *)
Definition verify_shape (index : nat) (i : IRInstruction) (scopes : list (Z * HardwareScope)) :
    result (list (Z * HardwareScope)) :=
  let src := i_source i in
  let n_operands := zlen (i_operands i) in
  let n_targets := zlen (i_targets i) in
  let scope := default no_scope (find_key scopes (i_loop_id i)) in
  match i_opcode i with
  | OpHardwareLoop =>
      throw_if (negb (n_operands =? 1) || (1 <? n_targets)
                || (negb (n_targets =? 0) && negb (block_isValid (i_loop_target i)))
                || (i_loop_id i =? 0) || negb (String.eqb (i_operation i) ""))
        (fail "IR verifier: invalid hardware-loop setup." src);;
      throw_if (bool_decide (is_Some (h_setup scope)))
        (fail "IR verifier: duplicate hardware-loop setup ID." src);;
      Ok (update_key no_scope (λ s, mkScope (Some (i, index)) (h_end s) (h_leave s)) (i_loop_id i) scopes)
  | OpHardwareLoopEnd =>
      throw_if (negb (n_operands =? 0) || (negb (n_targets =? 0) && negb (n_targets =? 2))
                || (i_loop_id i =? 0) || negb (String.eqb (i_operation i) ""))
        (fail "IR verifier: hardware-loop end requires backedge and exit." src);;
      throw_if (bool_decide (is_Some (h_end scope)))
        (fail "IR verifier: duplicate hardware-loop end ID." src);;
      Ok (update_key no_scope (λ s, mkScope (h_setup s) (Some (i, index)) (h_leave s)) (i_loop_id i) scopes)
  | OpHardwareLoopLeave =>
      throw_if (negb (n_operands =? 0) || negb (n_targets =? 0)
                || (i_loop_id i =? 0) || negb (String.eqb (i_operation i) ""))
        (fail "IR verifier: invalid hardware-loop leave." src);;
      throw_if (bool_decide (is_Some (h_leave scope)))
        (fail "IR verifier: duplicate hardware-loop leave ID." src);;
      Ok (update_key no_scope (λ s, mkScope (h_setup s) (h_end s) (Some (i, index))) (i_loop_id i) scopes)
  | OpBranch =>
      throw_if (negb (n_operands =? 0) || negb (n_targets =? 1))
        (fail "IR verifier: branch must have one target and no operands." src);;
      Ok scopes
  | OpCondBranch =>
      throw_if (negb (n_operands =? 1) || negb (n_targets =? 2))
        (fail "IR verifier: conditional branch must have one condition and two targets." src);;
      Ok scopes
  | OpSwitch =>
      throw_if (negb (n_operands =? 1) || (n_targets =? 0))
        (fail "IR verifier: switch must have one condition and at least one target." src);;
      throw_if (negb (zlen (i_case_values i) + (if i_has_default_target i then 1 else 0) =? n_targets))
        (fail "IR verifier: switch case values and targets do not match." src);;
      throw_if (has_duplicate (i_case_values i))
        (fail "IR verifier: switch contains duplicate case values." src);;
      Ok scopes
  | OpReturn =>
      throw_if (negb (n_operands =? 1)) (fail "IR verifier: return must have one value." src);;
      Ok scopes
  | OpReturnVoid | OpUnreachable =>
      throw_if (negb (n_operands =? 0) || negb (n_targets =? 0))
        (fail "IR verifier: void return/unreachable cannot have operands or targets." src);;
      Ok scopes
  | _ => Ok scopes
  end.

(** [successors[b].push_back(t)] and [predecessors[t].push_back(b)] *)
Definition push_at (g : list (list nat)) (b t : nat) : list (list nat) := alter (λ l, l ++ [t]) b g.

Definition add_edge (f : IRFunction) (index : nat) (i : IRInstruction)
    (g : list (list nat) * list (list nat)) (target : IRBlockId) :
    result (list (list nat) * list (list nat)) :=
  verifyTarget f target (i_source i);;
  if is_op (i_opcode i) OpPhi then Ok g
  else Ok (push_at g.1 index (Z.to_nat target), push_at g.2 (Z.to_nat target) index).

Definition pass1_instruction (f : IRFunction) (b : IRBasicBlock) (index : nat) (st : pass1)
    (e : nat * IRInstruction) : result pass1 :=
  let (k, i) := e in
  verify_metadata f b k i;;
  verify_pointer_constant i;;
  throw_if (isTerminator i && negb (Nat.eqb (S k) (length (b_instructions b))))
    (fail "IR verifier: instruction appears after a terminator." (i_source i));;
  defs ← define_result f index k i (definitions st);
  forM_ (verify_operand f (i_source i)) (i_operands i);;
  scopes ← verify_shape index i (hardware_scopes st);
  g ← foldM (add_edge f index i) (successors st, predecessors st) (i_targets i);
  Ok (mkPass1 defs g.1 g.2 scopes).

Definition pass1_block (f : IRFunction) (st : pass1) (e : nat * IRBasicBlock) : result pass1 :=
  let (index, b) := e in
  throw_if (negb (block_isValid (b_id b)) || negb (b_id b =? Z.of_nat index))
    (fail "IR verifier: basic-block IDs are not stable or contiguous." no_token);;
  throw_if (Nat.eqb (length (b_instructions b)) 0)
    (fail "IR verifier: basic block has no terminator." no_token);;
  st ← foldM (pass1_instruction f b index) st (indexed (b_instructions b));
  throw_if (negb (match last (b_instructions b) with Some i => isTerminator i | None => false end))
    (fail "IR verifier: basic block does not end in a terminator."
       (match last (b_instructions b) with Some i => i_source i | None => no_token end));;
  Ok st.

Definition first_pass (f : IRFunction) : result pass1 :=
  let n := length (f_blocks f) in
  foldM (pass1_block f) (mkPass1 ∅ (replicate n []) (replicate n []) []) (indexed (f_blocks f)).

(** Every value number has exactly one definition. *)
Definition verify_values (f : IRFunction) (defs : gmap Z Definition_) : result unit :=
  throw_if (negb (Z.of_nat (size defs) =? f_value_count f))
    (fail "IR verifier: value IDs must form a contiguous definition sequence." no_token);;
  forM_ (λ v, throw_if (bool_decide (defs !! v = None))
                (fail "IR verifier: value ID has no definition." no_token))
    (seqZ 1 (f_value_count f)).

(* ------------------------------------------------------------------ *)
(** ** Reachability, dominators, hardware-loop scopes *)

Definition verify_unreachable (f : IRFunction) (reach : list bool) : result unit :=
  forM_ (λ '(index, b),
    throw_if (negb (is_reachable reach index)
              && negb (Nat.eqb (length (b_instructions b)) 1
                       && bool_decide (i_opcode <$> head (b_instructions b) = Some OpUnreachable)))
      (fail "IR verifier: unreachable blocks must contain only 'unreachable'."
         (match head (b_instructions b) with Some i => i_source i | None => no_token end)))
    (indexed (f_blocks f)).

(** [IRVerifier]'s dominator loop, with the rounds of [Graph.dominator_fuel];
    [IRSound.verify_dominators_exact] shows the second case is never taken. *)
Definition verify_dominators (f : IRFunction) (p : pass1) (reach : list bool) : result (list bits) :=
  let n := length (f_blocks f) in
  let entry := Z.to_nat (f_entry f) in
  match dominator_loop (intersect_first n) n reach (predecessors p) entry (dominator_fuel n)
          (initial_dominators n reach entry) with
  | Some doms => Ok doms
  | None => Err (LogicError "the dominator iteration did not end")
  end.

(** The checks on one hardware-loop scope. *)
Definition verify_scope (doms : list bits) (scope : HardwareScope) : result unit :=
  match h_setup scope, h_end scope with
  | Some (setup, setup_block), Some (end_, end_block) =>
      let explicit := negb (bool_decide (i_targets setup = [])) in
      throw_if (negb (Bool.eqb explicit (negb (bool_decide (i_targets end_ = []))))
                || (if explicit then bool_decide (h_leave scope = None)
                    else negb (bool_decide (h_leave scope = None))))
        (fail "IR verifier: unmatched hardware-loop setup/end/leave." no_token);;
      throw_if (explicit
                && (negb (i_loop_target setup =? default 0 (head (i_targets end_)))
                    || negb (has_bit (doms_of doms end_block) setup_block)
                    || negb (has_bit (doms_of doms (match h_leave scope with
                                                    | Some (_, b) => b | None => O end)) end_block)))
        (fail "IR verifier: hardware-loop backedge or exit does not match its setup." (i_source setup))
  | _, _ => Err (fail "IR verifier: unmatched hardware-loop setup/end/leave." no_token)
  end.

(** The save stack after an instruction. *)
Definition scope_step (active : list Z) (i : IRInstruction) : result (list Z) :=
  match i_opcode i with
  | OpHardwareLoop =>
      throw_if (256 <=? zlen active)
        (fail "IR verifier: hardware-loop nesting limit exceeded." (i_source i));;
      Ok (active ++ [i_loop_id i])
  | OpHardwareLoopEnd | OpHardwareLoopLeave =>
      throw_if (negb (bool_decide (last active = Some (i_loop_id i))))
        (fail "IR verifier: mismatched hardware-loop scope stack." (i_source i));;
      Ok (if is_op (i_opcode i) OpHardwareLoopLeave || bool_decide (i_targets i = [])
          then removelast active else active)
  | _ => Ok active
  end.

(** The state of the scope analysis: the stack at the start of each block that
    has one ([assigned]), the queue, and the entries stored. *)
Record scope_state := mkScopes {
  s_scopes : list (option (list Z));
  s_pending : list nat;
  s_entries : Z
}.

Definition block_source (f : IRFunction) (b : nat) (pick : list IRInstruction → option IRInstruction) : Token :=
  match f_blocks f !! b with
  | Some blk => match pick (b_instructions blk) with Some i => i_source i | None => no_token end
  | None => no_token
  end.

(** One successor of block [b], which is left with the stack [active]. *)
Definition scope_edge (f : IRFunction) (b : nat) (active : list Z) (st : scope_state) (s : nat) :
    result scope_state :=
  match default None (s_scopes st !! s) with
  | Some scope =>
      throw_if (negb (bool_decide (scope = active)))
        (fail "IR verifier: inconsistent hardware-loop scopes at CFG join." (block_source f s head));;
      Ok st
  | None =>
      let entries := s_entries st + zlen active in
      throw_if (1000000 <? entries)
        (fail "IR verifier: hardware-loop scope analysis limit exceeded." (block_source f b last));;
      Ok (mkScopes (<[s := Some active]> (s_scopes st)) (s_pending st ++ [s]) entries)
  end.

Definition scope_block (f : IRFunction) (p : pass1) (b : nat) (st : scope_state) : result scope_state :=
  active ← foldM scope_step (default [] (default None (s_scopes st !! b)))
             (match f_blocks f !! b with Some blk => b_instructions blk | None => [] end);
  throw_if (bool_decide (adjacent (successors p) b = []) && negb (bool_decide (active = [])))
    (fail "IR verifier: function exits with an active hardware-loop scope." (block_source f b last));;
  foldM (scope_edge f b active) st (adjacent (successors p) b).

(** The worklist; every block enters it at most once, so the number of blocks
    is enough fuel ([IRSound.scope_loop_ok]). *)
Fixpoint scope_loop (f : IRFunction) (p : pass1) (fuel : nat) (st : scope_state) : result scope_state :=
  match s_pending st, fuel with
  | b :: pending, S fuel =>
      st ← scope_block f p b (mkScopes (s_scopes st) pending (s_entries st));
      scope_loop f p fuel st
  | _, _ => Ok st
  end.

Definition initial_scopes (f : IRFunction) : scope_state :=
  let entry := Z.to_nat (f_entry f) in
  mkScopes (<[entry := Some []]> (replicate (length (f_blocks f)) None)) [entry] 0.

Definition verify_scopes (f : IRFunction) (p : pass1) (doms : list bits) : result unit :=
  forM_ (λ e, verify_scope doms e.2) (hardware_scopes p);;
  if bool_decide (hardware_scopes p = []) then Ok tt
  else scope_loop f p (length (f_blocks f)) (initial_scopes f);; Ok tt.

(* ------------------------------------------------------------------ *)
(** ** The second pass: uses and types *)

Record verifier := mkVerifier {
  v_fn : IRFunction;
  v_defs : gmap Z Definition_;
  v_pred : list (list nat);
  v_reach : list bool;
  v_doms : list bits
}.

(** [function.blocks[b].instructions[k]] *)
Definition instr_at (f : IRFunction) (b k : nat) : option IRInstruction :=
  blk ← f_blocks f !! b; b_instructions blk !! k.

Section second_pass.
Context (v : verifier).
Let f := v_fn v.

Definition origin (value : IRValueId) : result IRInstruction :=
  d ← map_at (v_defs v) value;
  match instr_at f (d_block d) (d_instruction d) with Some i => Ok i | None => Err OutOfRange end.

Definition definitionType (value : IRValueId) (source : Token) : result CType :=
  match v_defs v !! value with
  | None => Err (fail "IR verifier: operand refers to an undefined value." source)
  | Some d =>
      match instr_at f (d_block d) (d_instruction d) with Some i => Ok (i_type i) | None => Err OutOfRange end
  end.

(** The dominance check of an ordinary operand. *)
Definition verify_use (block_index k : nat) (i : IRInstruction) (operand : IRValueId) : result unit :=
  d ← map_at (v_defs v) operand;
  if Nat.eqb (d_block d) block_index then
    throw_if (Nat.leb k (d_instruction d))
      (fail "IR verifier: value is used before its definition." (i_source i))
  else
    throw_if (is_reachable (v_reach v) block_index
              && (negb (is_reachable (v_reach v) (d_block d))
                  || negb (has_bit (doms_of (v_doms v) block_index) (d_block d))))
      (fail "IR verifier: value definition does not dominate its use." (i_source i)).

(** One incoming value of a phi; [incoming] are the edges seen before it. *)
Definition verify_incoming (block_index : nat) (i : IRInstruction) (incoming : list nat)
    (e : IRValueId * IRBlockId) : result (list nat) :=
  let '(operand, target) := e in
  let edge := Z.to_nat target in
  d ← map_at (v_defs v) operand;
  throw_when
    (or_r
      (Ok (bool_decide (edge ∈ incoming) || negb (bool_decide (edge ∈ adjacent (v_pred v) block_index))
           || negb (is_reachable (v_reach v) edge)
           || negb (has_bit (doms_of (v_doms v) edge) (d_block d))))
      (or_r
        (t ← definitionType operand (i_source i); not_r (sameValueType (i_type i) t))
        (t ← definitionType operand (i_source i);
         Ok (negb (String.eqb (enum_name (i_type i)) (enum_name t))))))
    (fail "IR verifier: phi value must match its type and dominate its predecessor edge." (i_source i));;
  Ok (edge :: incoming).

Definition verify_phi (block_index : nat) (i : IRInstruction) : result unit :=
  incoming ← foldM (verify_incoming block_index i) [] (zip (i_operands i) (i_targets i));
  throw_if (negb (forallb (λ p, bool_decide (p ∈ incoming)) (adjacent (v_pred v) block_index)
                  && forallb (λ p, bool_decide (p ∈ adjacent (v_pred v) block_index)) incoming)
            || Nat.eqb block_index (Z.to_nat (f_entry f)))
    (fail "IR verifier: phi must cover every predecessor exactly once." (i_source i)).

(** Operands by position, and tests of their types. *)
Definition operand (i : IRInstruction) (n : nat) : IRValueId := default InvalidValue (i_operands i !! n).
Definition last_operand (i : IRInstruction) : IRValueId := default InvalidValue (last (i_operands i)).
Definition type_of (i : IRInstruction) (value : IRValueId) : result CType := definitionType value (i_source i).
Definition ty_test (i : IRInstruction) (value : IRValueId) (test : CType → bool) : result bool :=
  t ← type_of i value; Ok (test t).
Definition differs (i : IRInstruction) (value : IRValueId) : result bool :=
  t ← type_of i value; not_r (sameValueType (i_type i) t).
Definition pointee_of (i : IRInstruction) (value : IRValueId) : result CType :=
  t ← type_of i value; pointeeType t.
Definition is_name (i : IRInstruction) (s : string) : bool := String.eqb (i_operation i) s.
Definition no_targets (i : IRInstruction) : bool := bool_decide (i_targets i = []).
Definition n_operands (i : IRInstruction) : Z := zlen (i_operands i).
Definition not_pointer (t : CType) : bool := pointer_level t =? 0.

Notation "a ||! b" := (or_r a b) (at level 50, left associativity).

Definition reject (i : IRInstruction) (c : result bool) (message : string) : result unit :=
  throw_when c (fail message (i_source i)).

Definition verify_memory_initialize (i : IRInstruction) : result unit :=
  let t := i_type i in
  reject i (Ok (negb (n_operands i =? 1) || (zlen (i_initialization_values i) <? 4)
      || (256 <? zlen (i_initialization_values i)) || negb (no_targets i) || negb (isIntegerType t)
      || (negb (sizeInBytes t =? 1) && negb (sizeInBytes t =? 2)) || negb (array_size t =? 0)
      || is_volatile t || i_memory_volatile i || negb (is_name i "declare") || (i_immediate i <=? 0)
      || (f_total_local_alloc_size f <? i_immediate i)
      || (i_immediate i / sizeInBytes t <? zlen (i_initialization_values i))))
    "IR verifier: invalid bounded memory initializer.";;
  address ← origin (operand i 0);
  let at_ := i_type address in
  reject i (Ok (negb (is_op (i_opcode address) OpAddress) || negb (is_name address "")
      || negb (symbol_isValid (i_symbol_id address)) || negb (pointer_level at_ =? 1)
      || isFarPointer at_ || negb (bool_decide (space at_ = SpaceRam)))
      ||! (p ← pointeeType at_; not_r (sameValueType t p))
      ||! (p ← pointeeType at_; Ok (is_volatile p)))
    "IR verifier: memory initializer requires a local near RAM address.";;
  forM_ (λ value,
    throw_if ((usesByteStorage t && (255 <? value)) || (bool_decide (base t = BaseBool) && (1 <? value)))
      (fail "IR verifier: initializer value exceeds its storage width." (i_source i)))
    (i_initialization_values i).

Definition is_byte_address (t : CType) : result bool :=
  or_r (Ok ((pointer_level t =? 0) || negb (bool_decide (space t = SpaceRom))))
    (p ← pointeeType t;
     Ok (negb (bool_decide (base p = BaseByte)) || negb (pointer_level p =? 0) || is_volatile p)).

Definition verify_graphics (i : IRInstruction) : result unit :=
  let no_operands := bool_decide (i_operands i = []) in
  match i_opcode i with
  | OpPlot =>
      reject i (Ok (negb (i_in_plot_context i) || negb no_operands || negb (no_targets i)))
        "IR verifier: pixel requires a plot context and no explicit coordinates."
  | OpRpix =>
      reject i (Ok (negb no_operands || negb (no_targets i)
          || (producesValue i && (negb (i_in_plot_context i) || negb (pointer_level (i_type i) =? 0)
                                  || negb (bool_decide (base (i_type i) = BaseByte))))))
        "IR verifier: rpix must discard its result or return a byte in a plot context."
  | OpSetColor =>
      reject i (Ok (negb (i_in_plot_context i) || negb (n_operands i =? 1) || negb (no_targets i)))
        "IR verifier: color requires one source and a plot context.";;
      if is_name i "rom.byte" then
        reject i (t ← type_of i (operand i 0); is_byte_address t)
          "IR verifier: direct ROM color must address a ROM byte."
      else
        reject i (Ok (negb (is_name i "")) ||! ty_test i (operand i 0) (λ t, negb (isIntegerType t)))
          "IR verifier: color requires an integer value or direct ROM byte."
  | OpCMode =>
      reject i (Ok (negb (i_in_plot_context i) || negb no_operands || negb (no_targets i)
                    || (i_immediate i <? 0) || (31 <? i_immediate i)))
        "IR verifier: cmode requires a constant five-bit POR mask in a plot context."
  | _ =>
      reject i (Ok (negb (i_in_plot_context i) || negb (no_targets i) || negb (is_name i "")
          || (i_immediate i <? 0) || (1 <? i_immediate i) || negb (pointer_level (i_type i) =? 0)
          || negb (bool_decide (base (i_type i) = BaseWord)) || is_unsigned (i_type i)
          || negb (n_operands i =? (if is_op (i_opcode i) OpPlotCoordinateRead then 0 else 1)))
          ||! (if is_op (i_opcode i) OpPlotCoordinateWrite then differs i (operand i 0) else Ok false))
        "IR verifier: invalid plot coordinate access."
  end.

Definition verify_address (i : IRInstruction) : result unit :=
  let no_operands := bool_decide (i_operands i = []) in
  reject i (Ok ((pointer_level (i_type i) =? 0)
      || (is_name i "" && (negb no_operands || String.eqb (i_symbol i) "")))
      ||! (if is_name i "member" then
             Ok (negb (n_operands i =? 1) || (i_immediate i <? 0) || (65528 <? i_immediate i))
             ||! ty_test i (operand i 0) not_pointer
           else Ok false)
      ||! Ok ((is_name i "temporary"
               && (negb no_operands || (0 <=? i_immediate i)
                   || (i_immediate i <? - f_total_local_alloc_size f)
                   || negb (Z.rem (i_immediate i) 2 =? 0)))
              || (negb (is_name i "") && negb (is_name i "member") && negb (is_name i "temporary"))))
    "IR verifier: address has an invalid operation or operands.";;
  reject i (Ok (f_storage_layout_valid f && is_name i "" && symbol_isValid (i_symbol_id i)
      && negb (has_key (f_storage_layout f) (i_symbol_id i))
      && negb (has_key (f_immutable_local_arrays f) (i_symbol_id i))))
    "IR verifier: local address is absent from its owned storage layout.".

Definition verify_pointer_compare (i : IRInstruction) : result unit :=
  reject i (Ok (negb (n_operands i =? 2) || negb (bool_decide (base (i_type i) = BaseBool))
      || negb (pointer_level (i_type i) =? 0) || (negb (is_name i "==") && negb (is_name i "!=")))
      ||! ty_test i (operand i 0) not_pointer ||! ty_test i (operand i 1) not_pointer
      ||! (a ← type_of i (operand i 0); b ← type_of i (operand i 1);
           Ok (negb (bool_decide (space a = space b))))
      ||! (a ← type_of i (operand i 0); b ← type_of i (operand i 1);
           Ok (negb (Bool.eqb (isFarPointer a) (isFarPointer b)))))
    "IR verifier: incompatible pointer comparison.".

Definition verify_pointer_offset (i : IRInstruction) : result unit :=
  let scaled := is_name i "scaled+" || is_name i "scaled-" in
  reject i (Ok (negb (n_operands i =? (if scaled then 3 else 2)) || (i_immediate i <=? 0)
      || (65528 <? i_immediate i))
      ||! ty_test i (operand i 0) not_pointer ||! differs i (operand i 0)
      ||! ty_test i (operand i 1) (λ t, negb (isIntegerType t))
      ||! Ok (negb (is_name i "+") && negb (is_name i "-") && negb scaled))
    "IR verifier: pointer.offset has incompatible operands or stride.";;
  (if n_operands i =? 3 then
     reject i (Ok (isFarPointer (i_type i) || (i_immediate i <? 4))
         ||! ty_test i (operand i 1) (λ t, negb (bool_decide (base t = BaseWord)))
         ||! ty_test i (operand i 1) (λ t, negb (is_unsigned t))
         ||! (a ← type_of i (operand i 1); b ← type_of i (operand i 2); not_r (sameValueType a b)))
       "IR verifier: scaled offset requires matching unsigned words and a near address."
   else Ok tt);;
  if negb (bool_decide (base (i_type i) = BaseStruct)) || (1 <? pointer_level (i_type i)) then
    reject i (p ← pointeeType (i_type i); Ok (negb (i_immediate i =? sizeInBytes p)))
      "IR verifier: pointer.offset stride does not match the pointee."
  else Ok tt.

Definition verify_load (i : IRInstruction) : result unit :=
  reject i (Ok (negb (n_operands i =? 1)) ||! ty_test i (operand i 0) not_pointer
      ||! (p ← pointee_of i (operand i 0); not_r (sameValueType (i_type i) p)))
    "IR verifier: load.indirect requires one pointer operand.";;
  reject i (p ← pointee_of i (operand i 0); Ok (negb (Bool.eqb (i_memory_volatile i) (is_volatile p))))
    "IR verifier: volatile load metadata does not match its address.".

Definition verify_store (i : IRInstruction) : result unit :=
  reject i (Ok (negb (n_operands i =? 2)) ||! ty_test i (operand i 0) not_pointer
      ||! ty_test i (last_operand i) isVoidType ||! differs i (last_operand i)
      ||! (p ← pointee_of i (operand i 0); not_r (sameValueType (i_type i) p))
      ||! ty_test i (operand i 0) (λ t, bool_decide (space t = SpaceRom)))
    "IR verifier: store.indirect has incompatible operands.";;
  reject i (p ← pointee_of i (operand i 0); Ok (negb (Bool.eqb (i_memory_volatile i) (is_volatile p))))
    "IR verifier: volatile store metadata does not match its address.";;
  reject i (p ← pointee_of i (operand i 0); Ok (is_const p && negb (is_name i "declare")))
    "IR verifier: store through a const-qualified address.".

Definition enum_differs (i : IRInstruction) (value : IRValueId) : result bool :=
  ty_test i value (λ t, negb (String.eqb (enum_name (i_type i)) (enum_name t))).

Definition verify_divmod (i : IRInstruction) : result unit :=
  reject i (Ok (negb (n_operands i =? 2) || negb (no_targets i) || (negb (is_name i "/") && negb (is_name i "%"))
      || negb (bool_decide (base (i_type i) = BaseWord)) || negb (sizeInBytes (i_type i) =? 2)
      || negb (pointer_level (i_type i) =? 0) || negb (array_size (i_type i) =? 0))
      ||! differs i (operand i 0) ||! differs i (operand i 1)
      ||! enum_differs i (operand i 0) ||! enum_differs i (operand i 1))
    "IR verifier: divmod requires two matching words and a primary component.".

Definition verify_divmod_result (i : IRInstruction) : result unit :=
  reject i (Ok (negb (n_operands i =? 1) || negb (no_targets i) || (negb (is_name i "/") && negb (is_name i "%"))))
    "IR verifier: divmod.result requires one pair and the other component.";;
  pair ← origin (operand i 0);
  reject i (Ok (negb (is_op (i_opcode pair) OpDivMod) || String.eqb (i_operation pair) (i_operation i))
      ||! not_r (sameValueType (i_type i) (i_type pair))
      ||! Ok (negb (String.eqb (enum_name (i_type i)) (enum_name (i_type pair)))))
    "IR verifier: divmod.result must select the matching pair's other component.".

Definition verify_binary (i : IRInstruction) : result unit :=
  reject i (Ok (negb (n_operands i =? 2) || is_name i "")
      ||! ty_test i (operand i 0) isVoidType ||! ty_test i (operand i 1) isVoidType
      ||! Ok (negb (isLegalBinaryOperation (i_operation i)))
      ||! ty_test i (operand i 0) (λ t, negb (isIntegerType t))
      ||! ty_test i (operand i 1) (λ t, negb (isIntegerType t))
      ||! (if negb (is_name i "<<") && negb (is_name i ">>") then
             a ← type_of i (operand i 0); b ← type_of i (operand i 1); not_r (sameValueType a b)
           else Ok false)
      ||! Ok (negb (isIntegerType (i_type i))))
    "IR verifier: binary instruction has invalid operands.".

Definition verify_bit_extract (i : IRInstruction) : result unit :=
  reject i (Ok (negb (n_operands i =? 1) || (i_immediate i <? 0) || (15 <? i_immediate i)
      || negb (is_name i "") || negb (no_targets i) || i_memory_volatile i
      || negb (pointer_level (i_type i) =? 0) || negb (array_size (i_type i) =? 0)
      || negb (bool_decide (base (i_type i) = BaseWord)))
      ||! differs i (operand i 0))
    "IR verifier: bit.extract requires one matching word and a bit in 0..15.".

Definition verify_call (i : IRInstruction) : result unit :=
  reject i (Ok (String.eqb (i_symbol i) "")) "IR verifier: call has no target symbol.";;
  forM_ (λ value, reject i (ty_test i value isVoidType) "IR verifier: call cannot pass a void value.")
    (i_operands i).

(** The switch of the second pass. *)
Definition verify_typing (i : IRInstruction) : result unit :=
  let not_integer := ty_test i (operand i 0) (λ t, negb (isIntegerType t)) in
  match i_opcode i with
  | OpMemoryInitialize => verify_memory_initialize i
  | OpCache =>
      reject i (Ok (negb (bool_decide (i_operands i = [])) || negb (no_targets i)))
        "IR verifier: cache has no operands or targets."
  | OpPlot | OpRpix | OpSetColor | OpCMode | OpPlotCoordinateRead | OpPlotCoordinateWrite =>
      verify_graphics i
  | OpAddress => verify_address i
  | OpPointerCompare => verify_pointer_compare i
  | OpPointerOffset => verify_pointer_offset i
  | OpLoadIndirect => verify_load i
  | OpStoreIndirect => verify_store i
  | OpDivMod => verify_divmod i
  | OpDivModResult => verify_divmod_result i
  | OpBinary => verify_binary i
  | OpBitExtract => verify_bit_extract i
  | OpHardwareLoop => reject i not_integer "IR verifier: hardware-loop count must be an integer."
  | OpUnary | OpCast =>
      reject i (Ok (negb (n_operands i =? 1)) ||! ty_test i (operand i 0) isVoidType)
        "IR verifier: unary/cast instruction has an invalid operand."
  | OpCall => verify_call i
  | OpCondBranch =>
      reject i (Ok (negb (n_operands i =? 1) || negb (zlen (i_targets i) =? 2)) ||! not_integer)
        "IR verifier: conditional branch requires an integer condition."
  | OpSwitch =>
      reject i (Ok (negb (n_operands i =? 1)) ||! not_integer)
        "IR verifier: switch requires an integer condition."
  | OpReturn =>
      reject i (Ok (isVoidType (f_return_type f))
          ||! (t ← type_of i (operand i 0); not_r (sameValueType (f_return_type f) t)))
        "IR verifier: return value does not match the function return type."
  | OpReturnVoid =>
      reject i (Ok (negb (isVoidType (f_return_type f)))) "IR verifier: non-void function must return a value."
  | _ => Ok tt
  end.

Definition verify_live_range_split (i : IRInstruction) : result unit :=
  if negb (i_is_live_range_split i) then Ok tt else
  reject i (Ok (negb (is_op (i_opcode i) OpCast) || negb (n_operands i =? 1) || negb (isIntegerType (i_type i))
      || negb (array_size (i_type i) =? 0) || negb (is_name i ""))
      ||! differs i (operand i 0) ||! enum_differs i (operand i 0))
    "IR verifier: live-range split requires a representation-identical scalar copy.".

Definition pass2_instruction (block_index : nat) (e : nat * IRInstruction) : result unit :=
  let (k, i) := e in
  (if is_op (i_opcode i) OpPhi then verify_phi block_index i else Ok tt);;
  (if is_op (i_opcode i) OpPhi then Ok tt else forM_ (verify_use block_index k i) (i_operands i));;
  verify_live_range_split i;;
  verify_typing i.

Definition second_pass : result unit :=
  forM_ (λ '(index, b), forM_ (pass2_instruction index) (indexed (b_instructions b)))
    (indexed (f_blocks f)).

End second_pass.

(* ------------------------------------------------------------------ *)
(** ** The verifier *)

(** Everything but the last check, with the facts the passes collect. *)
Definition verify_structure (f : IRFunction) : result (pass1 * list bool * list bits) :=
  verify_header f;;
  p ← first_pass f;
  verify_values f (definitions p);;
  let reach := reachability (length (f_blocks f)) (successors p) (Z.to_nat (f_entry f)) in
  verify_unreachable f reach;;
  doms ← verify_dominators f p reach;
  verify_scopes f p doms;;
  second_pass (mkVerifier f (definitions p) (predecessors p) reach doms);;
  Ok (p, reach, doms).

Definition verifyFunction (f : IRFunction) : result unit :=
  verify_structure f;;
  verifyStorageInterference f.

Definition verify_one (m : IRModule) (f : IRFunction) : result unit :=
  throw_if (f_storage_layout_valid f && negb (bool_decide (m_target m = GSU)))
    (fail "IR verifier: owned storage planning requires the GSU target." (function_token f));;
  check_type (m_target m) (f_return_type f) (function_token f);;
  forM_ (λ p, check_type (m_target m) (param_type p) (param_name p)) (f_parameters f);;
  throw_if (f_is_cached f && negb (supportsCapability (m_target m) InstructionCache))
    (fail "IR verifier: target lacks instruction-cache capability." (token UNKNOWN "" 1 1));;
  forM_ (λ b, forM_ (check_capabilities (m_target m)) (b_instructions b)) (f_blocks f);;
  verifyFunction f.

Definition verify (m : IRModule) : result unit :=
  match Bitmap.validate (m_bitmap m) with
  | Ok _ => Ok tt
  | Err e => Err (fail ("IR verifier: " +:+ what e) (token UNKNOWN "" 1 1))
  end;;
  throw_if (Bitmap.enabled (m_bitmap m) && negb (supportsCapability (m_target m) Graphics))
    (fail "IR verifier: target lacks graphics capability for bitmap configuration." (token UNKNOWN "" 1 1));;
  forM_ (verify_one m) (m_functions m).
