(* ===== verification/IRSound.v ===== *)
(** * IRSound: what a verified function satisfies

    The theorems about [IRVerify]: a function the verifier accepts is in SSA
    form with every use dominated by its definition, reads no undefined value
    on any walk through its control-flow graph, keeps the hardware-loop save
    stack balanced on every walk, and the two iterations of the verifier end by themselves.

    The control-flow graph of a function is [cfg]: the targets of all
    instructions other than phis, computed from the blocks alone. *)

From S2P Require Import Prelude Target Types Token Pointer IR Graph IRVerify.

(** The edges out of a block. *)
Definition instruction_targets (i : IRInstruction) : list nat :=
  if is_op (i_opcode i) OpPhi then [] else Z.to_nat <$> i_targets i.
Definition cfg (f : IRFunction) : list (list nat) :=
  (λ b, mjoin (instruction_targets <$> b_instructions b)) <$> f_blocks f.

Definition entry_of (f : IRFunction) : nat := Z.to_nat (f_entry f).

(* ------------------------------------------------------------------ *)
(** ** The first pass *)

Lemma adjacent_push g b t x :
  (b < length g)%nat → adjacent (push_at g b t) x = if decide (x = b) then adjacent g b ++ [t] else adjacent g x.
Proof.
  intros Hb. unfold adjacent, push_at. destruct (decide (x = b)) as [->|Hne].
  - rewrite list_lookup_alter_eq. destruct (lookup_lt_is_Some_2 g b Hb) as [l Hl]. by rewrite Hl.
  - by rewrite list_lookup_alter_ne.
Qed.

(** The graph collected so far: inverse lists, in range. *)
Record edges_ok (n : nat) (g : list (list nat) * list (list nat)) : Prop := {
  e_succ : length g.1 = n;
  e_pred : length g.2 = n;
  e_inverse : ∀ b p, p ∈ adjacent g.2 b ↔ b ∈ adjacent g.1 p;
  e_range : ∀ b s, s ∈ adjacent g.1 b → (s < n)%nat
}.

Definition target_ok (f : IRFunction) (t : IRBlockId) : Prop := t ≠ InvalidBlock ∧ t < zlen (f_blocks f).

Lemma verifyTarget_ok f t src u : verifyTarget f t src = Ok u ↔ target_ok f t.
Proof.
  unfold verifyTarget, target_ok, block_isValid. rewrite throw_if_ok, orb_false_iff, negb_false_iff,
    negb_true_iff, Z.eqb_neq, Z.leb_gt. done.
Qed.

Lemma target_ok_lt f t : (0 < length (f_blocks f))%nat → target_ok f t → (Z.to_nat t < length (f_blocks f))%nat.
Proof. unfold target_ok, zlen. lia. Qed.

Lemma add_edge_ok f index i g t g' :
  (index < length (f_blocks f))%nat → edges_ok (length (f_blocks f)) g →
  add_edge f index i g t = Ok g' →
  target_ok f t ∧ edges_ok (length (f_blocks f)) g' ∧
  ∀ b s, s ∈ adjacent g'.1 b ↔
    s ∈ adjacent g.1 b ∨ (b = index ∧ i_opcode i ≠ OpPhi ∧ s = Z.to_nat t).
Proof.
  intros Hidx Hg H. unfold add_edge in H. apply result_bind_ok in H as ([] & Ht%verifyTarget_ok & H).
  assert (Z.to_nat t < length (f_blocks f))%nat as Hlt by (apply target_ok_lt; [lia | done]).
  split; [done|]. case_bool_decide as Hphi; injection H as <-.
  { split; [done|]. naive_solver. }
  destruct Hg as [Hs Hp Hinv Hr].
  assert (∀ b s, s ∈ adjacent (push_at g.1 index (Z.to_nat t)) b ↔
    s ∈ adjacent g.1 b ∨ (b = index ∧ i_opcode i ≠ OpPhi ∧ s = Z.to_nat t)) as Hadj.
  { intros b s. rewrite adjacent_push by lia. destruct (decide (b = index)) as [->|].
    - rewrite elem_of_app, list_elem_of_singleton. naive_solver.
    - naive_solver. }
  split; [|done]. split; cbn [fst snd].
  - unfold push_at. by rewrite length_alter.
  - unfold push_at. by rewrite length_alter.
  - intros b p. rewrite Hadj. rewrite adjacent_push by lia. destruct (decide (b = Z.to_nat t)) as [->|].
    + rewrite elem_of_app, list_elem_of_singleton, Hinv. naive_solver.
    + rewrite Hinv. naive_solver.
  - intros b s. rewrite Hadj. intros [?|(_ & _ & ->)]; [by eapply Hr | done].
Qed.

Lemma add_edges_ok f index i ts g g' :
  (index < length (f_blocks f))%nat → edges_ok (length (f_blocks f)) g →
  foldM (add_edge f index i) g ts = Ok g' →
  Forall (target_ok f) ts ∧ edges_ok (length (f_blocks f)) g' ∧
  ∀ b s, s ∈ adjacent g'.1 b ↔
    s ∈ adjacent g.1 b ∨ (b = index ∧ i_opcode i ≠ OpPhi ∧ s ∈ Z.to_nat <$> ts).
Proof.
  intros Hidx. revert g. induction ts as [|t ts IH]; intros g Hg H; cbn [foldM] in H.
  - injection H as <-. split; [done|]. split; [done|]. intros b s. cbn. rewrite elem_of_nil. naive_solver.
  - apply result_bind_ok in H as (g1 & H1 & H).
    apply add_edge_ok in H1 as (Ht & Hg1 & E1); [|done..].
    apply IH in H as (Hts & Hg' & E'); [|done]. split; [by constructor|]. split; [done|].
    intros b s. rewrite E', E1. cbn. rewrite elem_of_cons. naive_solver.
Qed.

(** What the first pass has established about the instructions of a set. *)
Record checked (f : IRFunction) (b k : nat) (i : IRInstruction) : Prop := {
  c_metadata : ∃ blk, f_blocks f !! b = Some blk ∧ verify_metadata f blk k i = Ok tt ∧
    (isTerminator i = true → S k = length (b_instructions blk));
  c_constant : verify_pointer_constant i = Ok tt;
  c_operands : Forall (λ v, v ≠ InvalidValue ∧ v ≤ f_value_count f) (i_operands i);
  c_result : producesValue i = true ∧ i_result i ≠ InvalidValue ∧ i_result i ≤ f_value_count f ∨
    producesValue i = false ∧ i_result i = InvalidValue;
  c_targets : Forall (target_ok f) (i_targets i);
  c_shape : ∃ scopes scopes', verify_shape b i scopes = Ok scopes'
}.

Record pass1_ok (f : IRFunction) (P : nat → nat → Prop) (st : pass1) : Prop := {
  p_edges : edges_ok (length (f_blocks f)) (successors st, predecessors st);
  p_adjacent : ∀ b s, s ∈ adjacent (successors st) b ↔
    ∃ k i, P b k ∧ instr_at f b k = Some i ∧ s ∈ instruction_targets i;
  p_definition : ∀ v d, definitions st !! v = Some d →
    ∃ i, instr_at f (d_block d) (d_instruction d) = Some i ∧ producesValue i = true ∧ i_result i = v ∧
      P (d_block d) (d_instruction d);
  p_defined : ∀ b k i, P b k → instr_at f b k = Some i → producesValue i = true →
    definitions st !! i_result i = Some (mkDef b k);
  p_checked : ∀ b k i, P b k → instr_at f b k = Some i → checked f b k i;
  p_scopes : ∀ b k i, P b k → instr_at f b k = Some i → is_hardware_loop (i_opcode i) = true →
    hardware_scopes st ≠ []
}.

Lemma pass1_ok_ext f P Q st :
  (∀ b k i, instr_at f b k = Some i → P b k ↔ Q b k) → pass1_ok f P st → pass1_ok f Q st.
Proof.
  intros H [He Ha Hd Hd' Hc Hs]. split; [done| | | | |].
  - intros b s. rewrite Ha. split; intros (k & i & ? & ? & ?); exists k, i; naive_solver.
  - intros v d Hv. destruct (Hd v d Hv) as (i & ? & ? & ? & ?). exists i. naive_solver.
  - intros b k i Hq Hi. apply Hd'; [by apply (H _ _ _ Hi) | done].
  - intros b k i Hq Hi. apply Hc; [by apply (H _ _ _ Hi) | done].
  - intros b k i Hq Hi. apply (Hs b k); [by apply (H _ _ _ Hi) | done].
Qed.

Lemma define_result_ok f index k i defs defs' :
  define_result f index k i defs = Ok defs' →
  (producesValue i = true ∧ i_result i ≠ InvalidValue ∧ i_result i ≤ f_value_count f ∧
     defs !! i_result i = None ∧ defs' = <[i_result i := mkDef index k]> defs) ∨
  (producesValue i = false ∧ i_result i = InvalidValue ∧ defs' = defs).
Proof.
  unfold define_result, value_isValid. destruct (producesValue i); intros H; inv_result; bool_facts.
  - left. split_and!; try done. by apply eq_None_not_Some.
  - right. split_and!; done.
Qed.

Lemma update_key_nonempty {A} (d : A) g k m : update_key d g k m ≠ [].
Proof. destruct m as [|[k' x] m]; cbn; [done|]. repeat case_match; done. Qed.

Lemma verify_shape_scopes index i scopes scopes' :
  verify_shape index i scopes = Ok scopes' →
  (is_hardware_loop (i_opcode i) = true → scopes' ≠ []) ∧ (scopes ≠ [] → scopes' ≠ []).
Proof.
  unfold verify_shape, is_hardware_loop. intros H.
  destruct (i_opcode i); inv_result; split; intros; try done; apply update_key_nonempty.
Qed.

Lemma verify_operand_ok f src v u :
  verify_operand f src v = Ok u ↔ v ≠ InvalidValue ∧ v ≤ f_value_count f.
Proof.
  unfold verify_operand, value_isValid. rewrite throw_if_ok, orb_false_iff, negb_false_iff, negb_true_iff,
    Z.eqb_neq, Z.ltb_ge. done.
Qed.

(** One instruction extends the set. *)
Lemma pass1_instruction_ok f blk b k i st st' P :
  f_blocks f !! b = Some blk → b_instructions blk !! k = Some i → ¬ P b k → pass1_ok f P st →
  pass1_instruction f blk b st (k, i) = Ok st' →
  pass1_ok f (λ b' k', P b' k' ∨ (b' = b ∧ k' = k)) st'.
Proof.
  intros Hblk Hi HP [He Ha Hd Hd' Hc Hs] H.
  assert (instr_at f b k = Some i) as Hat by (unfold instr_at; rewrite Hblk; done).
  assert (b < length (f_blocks f))%nat as Hlt by by eapply lookup_lt_Some.
  unfold pass1_instruction in H.
  apply result_bind_ok in H as ([] & Hmeta & H). apply result_bind_ok in H as ([] & Hconst & H).
  apply result_bind_ok in H as ([] & Hterm%throw_if_ok & H).
  apply result_bind_ok in H as (defs & Hdef%define_result_ok & H).
  apply result_bind_ok in H as ([] & Hops & H). apply result_bind_ok in H as (scopes & Hshape & H).
  apply result_bind_ok in H as (g & Hedges & [= <-]).
  apply add_edges_ok in Hedges as (Hts & Hg & Hadj); [|done..].
  assert (checked f b k i) as Hchk.
  { split.
    - exists blk. split_and!; [done..|]. intros Ht. rewrite Ht in Hterm. apply Nat.eqb_eq.
      by apply negb_false_iff in Hterm.
    - done.
    - apply forM_ok in Hops. eapply Forall_impl; [exact Hops|]. intros v. apply verify_operand_ok.
    - destruct Hdef as [(? & ? & ? & _)|(? & ? & _)]; auto.
    - done.
    - by eexists _, _. }
  destruct (verify_shape_scopes _ _ _ _ Hshape) as [Hs1 Hs2].
  split; cbn [successors predecessors definitions hardware_scopes].
  - by destruct g.
  - intros b' s. rewrite Hadj, Ha. split.
    + intros [(k' & i' & ? & ? & ?) | (-> & Hne & Hs')].
      * exists k', i'. auto.
      * exists k, i. split_and!; [by right | done |]. unfold instruction_targets.
        by rewrite bool_decide_false.
    + intros (k' & i' & [HP' | [-> ->]] & Hi' & Hs'); [left; eauto|]. rewrite Hat in Hi'. simplify_eq.
      right. unfold instruction_targets in Hs'. case_bool_decide; [by apply elem_of_nil in Hs' | done].
  - intros v d Hv. destruct Hdef as [(Hpv & _ & _ & _ & ->) | (_ & _ & ->)].
    + apply lookup_insert_Some in Hv as [[<- <-] | [_ Hv]]; [exists i; cbn; auto 10|].
      destruct (Hd v d Hv) as (i' & ? & ? & ? & ?). exists i'. auto 10.
    + destruct (Hd v d Hv) as (i' & ? & ? & ? & ?). exists i'. auto 10.
  - intros b' k' i' [HP' | [-> ->]] Hi' Hpv'.
    + pose proof (Hd' b' k' i' HP' Hi' Hpv') as Hold.
      destruct Hdef as [(_ & _ & _ & Hnone & ->) | (_ & _ & ->)]; [|done].
      rewrite lookup_insert_ne; [done|]. intros E. rewrite E in Hnone. congruence.
    + rewrite Hat in Hi'. simplify_eq. destruct Hdef as [(_ & _ & _ & _ & ->) | (Hf & _)]; [|congruence].
      by rewrite lookup_insert_eq.
  - intros b' k' i' [HP' | [-> ->]] Hi'; [by apply Hc|]. rewrite Hat in Hi'. by simplify_eq.
  - intros b' k' i' [HP' | [-> ->]] Hi' Hh; [by eapply Hs2, Hs|]. rewrite Hat in Hi'. simplify_eq. auto.
Qed.

Lemma pass1_block_ok f b blk st st' :
  f_blocks f !! b = Some blk → pass1_ok f (λ b' _, (b' < b)%nat) st →
  pass1_block f st (b, blk) = Ok st' →
  pass1_ok f (λ b' _, (b' < S b)%nat) st' ∧
  ∃ i, last (b_instructions blk) = Some i ∧ isTerminator i = true.
Proof.
  intros Hblk Hst H. unfold pass1_block in H.
  apply result_bind_ok in H as ([] & Hid%throw_if_ok & H).
  apply result_bind_ok in H as ([] & Hne%throw_if_ok & H).
  apply result_bind_ok in H as (st1 & Hfold & H).
  apply result_bind_ok in H as ([] & Hlast%throw_if_ok & [= <-]). split.
  - apply (foldM_indexed (λ k st, pass1_ok f (λ b' k', (b' < b)%nat ∨ (b' = b ∧ (k' < k)%nat)) st)) in Hfold.
    + eapply pass1_ok_ext; [|exact Hfold]. intros b' k' i Hi. cbn. split; [lia|].
      intros Hb. destruct (decide (b' = b)) as [->|]; [right | lia]. split; [done|].
      unfold instr_at in Hi. rewrite Hblk in Hi. cbn in Hi. by eapply lookup_lt_Some.
    + intros k i s s' Hi Hs Hstep.
      eapply pass1_ok_ext; [|eapply (pass1_instruction_ok f blk b k i); [done | done | | exact Hs | exact Hstep]].
      * intros b' k' i' _. cbn. lia.
      * cbn. lia.
    + eapply pass1_ok_ext; [|exact Hst]. intros b' k' i' _. cbn. lia.
  - destruct (last (b_instructions blk)) as [i|]; [|done]. exists i. by apply negb_false_iff in Hlast.
Qed.

Lemma first_pass_ok f p :
  first_pass f = Ok p →
  pass1_ok f (λ _ _, True) p ∧
  ∀ b blk, f_blocks f !! b = Some blk → ∃ i, last (b_instructions blk) = Some i ∧ isTerminator i = true.
Proof.
  intros H. unfold first_pass in H.
  apply (foldM_indexed (λ b st, pass1_ok f (λ b' _, (b' < b)%nat) st ∧
    ∀ b' blk, (b' < b)%nat → f_blocks f !! b' = Some blk →
      ∃ i, last (b_instructions blk) = Some i ∧ isTerminator i = true)) in H.
  - destruct H as [Hok Hterm]. split.
    + eapply pass1_ok_ext; [|exact Hok]. intros b k i Hi. cbn. split; [done|]. intros _.
      unfold instr_at in Hi. destruct (f_blocks f !! b) eqn:E; [|done]. by eapply lookup_lt_Some.
    + intros b blk Hb. eapply Hterm; [|done]. by eapply lookup_lt_Some.
  - intros b blk st st' Hblk [Hok Hterm] Hstep.
    apply pass1_block_ok in Hstep as [Hok' Hlast]; [|done..]. split; [done|].
    intros b' blk' Hb' Hblk'. destruct (decide (b' = b)) as [->|]; [by simplify_eq|].
    apply (Hterm b'); [lia | done].
  - assert (∀ (b : nat) n, adjacent (replicate n []) b = []) as Hnil.
    { intros b n. unfold adjacent. destruct (replicate n [] !! b) eqn:E; [|done].
      by apply lookup_replicate in E as [-> _]. }
    split; [|intros; lia]. split; cbn; try (intros; lia).
    + split; cbn; [by rewrite length_replicate.. | |].
      * intros b q. rewrite !Hnil, !elem_of_nil. done.
      * intros b s. rewrite Hnil, elem_of_nil. done.
    + intros b s. rewrite Hnil, elem_of_nil. split; [done|]. intros (? & ? & ? & _). lia.
    + intros v d. by rewrite lookup_empty.
Qed.

(* ------------------------------------------------------------------ *)
(** ** The facts of a verified function *)

Lemma elem_of_cfg f b s :
  s ∈ adjacent (cfg f) b ↔ ∃ k i, instr_at f b k = Some i ∧ s ∈ instruction_targets i.
Proof.
  unfold adjacent, cfg, instr_at. rewrite list_lookup_fmap.
  destruct (f_blocks f !! b) as [blk|]; cbn.
  - rewrite list_elem_of_join. split.
    + intros (l & Hs & Hl). apply list_elem_of_fmap in Hl as (i & -> & Hi).
      apply list_elem_of_lookup in Hi as [k Hk]. eauto.
    + intros (k & i & Hk & Hs). exists (instruction_targets i). split; [done|].
      apply list_elem_of_fmap. exists i. split; [done|]. by eapply list_elem_of_lookup_2.
  - rewrite elem_of_nil. naive_solver.
Qed.

Lemma walk_ext g g' e l b :
  (∀ x s, s ∈ adjacent g x → s ∈ adjacent g' x) → walk g e l b → walk g' e l b.
Proof. intros H Hw. induction Hw; [constructor | eapply walk_step; eauto]. Qed.

Record facts (f : IRFunction) (p : pass1) (reach : list bool) (doms : list bits) : Prop := {
  fa_entry : f_entry f = 0;
  fa_blocks : (0 < length (f_blocks f))%nat;
  fa_header : verify_header f = Ok tt;
  fa_pass : pass1_ok f (λ _ _, True) p;
  fa_last : ∀ b blk, f_blocks f !! b = Some blk →
    ∃ i, last (b_instructions blk) = Some i ∧ isTerminator i = true;
  fa_values : verify_values f (definitions p) = Ok tt;
  fa_graph : graph_ok (length (f_blocks f)) (successors p) (predecessors p) 0;
  fa_walk : ∀ l b, walk (successors p) 0 l b ↔ walk (cfg f) 0 l b;
  fa_reach : ∀ b, is_reachable reach b ↔ reachable (cfg f) 0 b;
  fa_doms : ∀ b d, is_reachable reach b → has_bit (doms_of doms b) d = true ↔ dominates (cfg f) 0 d b;
  fa_unreachable : verify_unreachable f reach = Ok tt;
  fa_scopes : verify_scopes f p doms = Ok tt;
  fa_second : ∀ b k i, instr_at f b k = Some i →
    pass2_instruction (mkVerifier f (definitions p) (predecessors p) reach doms) b (k, i) = Ok tt
}.

Lemma pass1_graph f p :
  (0 < length (f_blocks f))%nat → pass1_ok f (λ _ _, True) p →
  graph_ok (length (f_blocks f)) (successors p) (predecessors p) 0.
Proof.
  intros Hn Hp. pose proof (p_edges _ _ _ Hp) as He. split; [done | apply He | apply He].
Qed.

Lemma pass1_walk f p l b :
  pass1_ok f (λ _ _, True) p → walk (successors p) 0 l b ↔ walk (cfg f) 0 l b.
Proof.
  intros Hp. split; apply walk_ext; intros x s; rewrite elem_of_cfg, (p_adjacent _ _ _ Hp); naive_solver.
Qed.

(** The dominator iteration on the graph of the first pass. *)
Lemma verify_dominators_ok f p :
  (0 < length (f_blocks f))%nat → f_entry f = 0 → pass1_ok f (λ _ _, True) p →
  let reach := reachability (length (f_blocks f)) (successors p) (Z.to_nat (f_entry f)) in
  (∀ b, is_reachable reach b ↔ reachable (successors p) 0 b) ∧
  ∃ doms, verify_dominators f p reach = Ok doms ∧
    ∀ b d, is_reachable reach b → has_bit (doms_of doms b) d = true ↔ dominates (successors p) 0 d b.
Proof.
  intros Hn He Hp. rewrite He. pose proof (pass1_graph f p Hn Hp) as Hg.
  destruct (reachability_correct (length (f_blocks f)) (successors p) 0) as [_ Hr];
    [done | apply Hg|]. change (Z.to_nat 0) with 0%nat. split; [done|].
  destruct (dominators_correct _ _ _ _ _ (intersect_first (length (f_blocks f))) Hg Hr)
    as (doms & E & _ & _ & Hd).
  - apply intersect_first_wf.
  - intros sets j Hne Hs _. by apply has_intersect_first.
  - exists doms. split; [|done]. unfold verify_dominators. rewrite He.
    change (Z.to_nat 0) with 0%nat. by rewrite E.
Qed.

Lemma verify_structure_facts f p reach doms :
  verify_structure f = Ok (p, reach, doms) → facts f p reach doms.
Proof.
  intros H. unfold verify_structure in H.
  apply result_bind_ok in H as ([] & Hhead & H). apply result_bind_ok in H as (p' & Hpass & H).
  apply result_bind_ok in H as ([] & Hval & H). cbv zeta in H.
  apply result_bind_ok in H as ([] & Hun & H). apply result_bind_ok in H as (doms' & Hdoms & H).
  apply result_bind_ok in H as ([] & Hsc & H). apply result_bind_ok in H as ([] & Hsec & [= <- <- <-]).
  assert (f_entry f = 0 ∧ (0 < length (f_blocks f))%nat) as [He Hn].
  { pose proof Hhead as Hh. unfold verify_header in Hh. inv_result. bool_facts. split; [done|].
    by destruct (length (f_blocks f)) eqn:E; [|lia]. }
  apply first_pass_ok in Hpass as [Hpass Hlast].
  destruct (verify_dominators_ok f p' Hn He Hpass) as [Hr (doms & Ed & Hd)].
  rewrite Ed in Hdoms. injection Hdoms as <-.
  assert (∀ b, reachable (successors p') 0 b ↔ reachable (cfg f) 0 b) as Hreach.
  { intros b. unfold reachable. by setoid_rewrite (pass1_walk f p' _ _ Hpass). }
  split; try done.
  - by apply pass1_graph.
  - intros l b. by apply pass1_walk.
  - intros b. by rewrite Hr, Hreach.
  - intros b d Hb. rewrite Hd by done. unfold dominates. by setoid_rewrite (pass1_walk f p' _ _ Hpass).
  - intros b k i Hi. unfold second_pass in Hsec. unfold instr_at in Hi.
    destruct (f_blocks f !! b) as [blk|] eqn:Hblk; [|done]. cbn in Hi.
    rewrite forM_indexed in Hsec. specialize (Hsec b blk Hblk). cbn in Hsec.
    rewrite forM_indexed in Hsec. by apply Hsec.
Qed.

(* ------------------------------------------------------------------ *)
(** ** Values available along a walk *)

Definition results (code : list IRInstruction) : list IRValueId := i_result <$> List.filter producesValue code.
Definition instructions_of (f : IRFunction) (b : nat) : list IRInstruction :=
  match f_blocks f !! b with Some blk => b_instructions blk | None => [] end.

(** The values computed on the way: by the blocks of a walk, then by the first
    [k] instructions of the block it leads to. *)
Definition computed (f : IRFunction) (l : list nat) : list IRValueId :=
  mjoin ((λ b, results (instructions_of f b)) <$> l).
Definition computed_before (f : IRFunction) (l : list nat) (b k : nat) : list IRValueId :=
  computed f l ++ results (take k (instructions_of f b)).

Lemma instr_at_of f b k : instr_at f b k = instructions_of f b !! k.
Proof. unfold instr_at, instructions_of. by destruct (f_blocks f !! b). Qed.

Lemma elem_of_results code v :
  v ∈ results code ↔ ∃ k i, code !! k = Some i ∧ producesValue i = true ∧ i_result i = v.
Proof.
  unfold results. rewrite list_elem_of_fmap. split.
  - intros (i & -> & Hi). apply list_elem_of_In, filter_In in Hi as [Hi Hp].
    apply list_elem_of_In, list_elem_of_lookup in Hi as [k Hk]. eauto.
  - intros (k & i & Hk & Hp & <-). exists i. split; [done|].
    apply list_elem_of_In, filter_In. split; [|done]. by eapply list_elem_of_In, list_elem_of_lookup_2.
Qed.

Lemma elem_of_computed f l v :
  v ∈ computed f l ↔ ∃ b k i, b ∈ l ∧ instr_at f b k = Some i ∧ producesValue i = true ∧ i_result i = v.
Proof.
  unfold computed. rewrite list_elem_of_join. split.
  - intros (vs & Hv & Hvs). apply list_elem_of_fmap in Hvs as (b & -> & Hb).
    apply elem_of_results in Hv as (k & i & Hk & ? & ?). exists b, k, i. by rewrite instr_at_of.
  - intros (b & k & i & Hb & Hi & Hp & Hr). exists (results (instructions_of f b)). split.
    + apply elem_of_results. exists k, i. by rewrite <- instr_at_of.
    + apply list_elem_of_fmap. eauto.
Qed.

Section verified.
Context (f : IRFunction) (p : pass1) (reach : list bool) (doms : list bits).
Hypothesis Hf : facts f p reach doms.

Lemma definition_of v d :
  map_at (definitions p) v = Ok d →
  ∃ i, instr_at f (d_block d) (d_instruction d) = Some i ∧ producesValue i = true ∧ i_result i = v.
Proof.
  unfold map_at. intros H. destruct (definitions p !! v) as [d'|] eqn:E; [|done]. injection H as <-.
  destruct (p_definition _ _ _ (fa_pass _ _ _ _ Hf) _ _ E) as (i & ? & ? & ? & _). eauto.
Qed.

(** A definition that dominates the block a walk ends in is on the walk. *)
Lemma dominating_on_walk l b d :
  walk (cfg f) 0 l b → has_bit (doms_of doms b) d = true → d ∈ l.
Proof.
  intros Hw Hd. apply (fa_doms _ _ _ _ Hf) in Hd; [by apply Hd|]. apply (fa_reach _ _ _ _ Hf). by exists l.
Qed.

Lemma use_computed l b k i v :
  walk (cfg f) 0 (l ++ [b]) b → instr_at f b k = Some i → i_opcode i ≠ OpPhi → v ∈ i_operands i →
  v ∈ computed_before f l b k.
Proof.
  intros Hw Hi Hphi Hv. pose proof (fa_second _ _ _ _ Hf _ _ _ Hi) as H. unfold pass2_instruction in H.
  rewrite bool_decide_false in H by done.
  apply result_bind_ok in H as ([] & _ & H). apply result_bind_ok in H as ([] & Huses & _).
  rewrite forM_ok, Forall_forall in Huses. specialize (Huses v Hv). unfold verify_use in Huses.
  apply result_bind_ok in Huses as (d & Hd & Huse). cbn [v_defs v_reach v_doms] in *.
  destruct (definition_of _ _ Hd) as (i' & Hi' & Hp & Hr).
  unfold computed_before. apply elem_of_app.
  destruct (Nat.eqb_spec (d_block d) b) as [Eb|Eb].
  - right. apply throw_if_ok, Nat.leb_gt in Huse. apply elem_of_results.
    exists (d_instruction d), i'. split_and!; [|done..].
    rewrite lookup_take_lt by done. by rewrite <- instr_at_of, <- Eb.
  - left. apply throw_if_ok in Huse. assert (is_reachable reach b = true) as Hrb
      by (apply Is_true_true, (fa_reach _ _ _ _ Hf); by exists (l ++ [b])).
    rewrite Hrb in Huse. cbn [andb] in Huse. apply orb_false_iff in Huse as [_ Hdom%negb_false_iff].
    apply elem_of_computed. exists (d_block d), (d_instruction d), i'. split_and!; [|done..].
    pose proof (dominating_on_walk _ _ _ Hw Hdom) as [|Hin%list_elem_of_singleton]%elem_of_app; [done|].
    congruence.
Qed.

Lemma predecessor_edge q b : q ∈ adjacent (predecessors p) b ↔ b ∈ adjacent (cfg f) q.
Proof.
  pose proof (fa_pass _ _ _ _ Hf) as Hp.
  rewrite (graph_pred _ _ _ _ (fa_graph _ _ _ _ Hf)), (p_adjacent _ _ _ Hp), elem_of_cfg. naive_solver.
Qed.

(** The incoming values of a phi. *)
Lemma incoming_ok v b i es inc inc' :
  v_defs v = definitions p → v_doms v = doms →
  foldM (verify_incoming v b i) inc es = Ok inc' →
  inc' = reverse ((λ e, Z.to_nat e.2) <$> es) ++ inc ∧
  (NoDup inc → NoDup inc') ∧
  ∀ x t, (x, t) ∈ es → ∃ d, map_at (definitions p) x = Ok d ∧
    has_bit (doms_of doms (Z.to_nat t)) (d_block d) = true.
Proof.
  intros Ev Ed. revert inc. induction es as [|[x t] es IH]; intros inc H; cbn [foldM] in H.
  { injection H as <-. split_and!; [done..|]. by intros x t ?%elem_of_nil. }
  apply result_bind_ok in H as (inc1 & H1 & H). unfold verify_incoming in H1.
  apply result_bind_ok in H1 as (d & Hd & H1). apply result_bind_ok in H1 as ([] & Hc & [= <-]).
  apply throw_when_ok, or_r_false in Hc as [[= Hc] _]. apply orb_false_iff in Hc as [Hc Hdom%negb_false_iff].
  apply orb_false_iff in Hc as [Hc _]. apply orb_false_iff in Hc as [Hnin%bool_decide_eq_false _].
  apply IH in H as (-> & Hnd & Hall). rewrite Ev in Hd. rewrite Ed in Hdom. split_and!.
  - by rewrite fmap_cons, reverse_cons, <- (assoc_L (++)).
  - intros Hinc. apply Hnd. by constructor.
  - intros y u [[= -> ->] | Hin]%elem_of_cons; [eauto | by apply Hall].
Qed.

Lemma phi_incoming b k i :
  instr_at f b k = Some i → i_opcode i = OpPhi →
  let edges := Z.to_nat <$> i_targets i in
  length (i_operands i) = length (i_targets i) ∧ NoDup edges ∧
  (∀ q, q ∈ edges ↔ b ∈ adjacent (cfg f) q) ∧
  (∀ x t, (x, t) ∈ zip (i_operands i) (i_targets i) → ∃ d, map_at (definitions p) x = Ok d ∧
    has_bit (doms_of doms (Z.to_nat t)) (d_block d) = true).
Proof.
  intros Hi Hop edges.
  pose proof (p_checked _ _ _ (fa_pass _ _ _ _ Hf) _ _ _ I Hi) as [(blk & _ & Hmeta & _) _ _ _ _ _].
  assert (length (i_operands i) = length (i_targets i)) as Hlen.
  { unfold verify_metadata in Hmeta. rewrite (bool_decide_true (_ = OpPhi)) in Hmeta by done.
    inv_result. bool_facts. unfold zlen in *. lia. }
  pose proof (fa_second _ _ _ _ Hf _ _ _ Hi) as H. unfold pass2_instruction in H.
  rewrite bool_decide_true in H by done. apply result_bind_ok in H as ([] & Hphi & _).
  unfold verify_phi in Hphi. apply result_bind_ok in Hphi as (inc & Hinc & Hall).
  apply incoming_ok in Hinc as (-> & Hnd & Hvals); [|done..]. rewrite app_nil_r in *.
  assert ((λ e : IRValueId * IRBlockId, Z.to_nat e.2) <$> zip (i_operands i) (i_targets i) = edges) as E.
  { change (λ e : IRValueId * IRBlockId, Z.to_nat e.2) with (Z.to_nat ∘ (snd : Z * Z → Z)).
    rewrite list_fmap_compose. unfold edges. f_equal. by apply snd_zip, Nat.eq_le_incl. }
  rewrite E in *. specialize (Hnd (NoDup_nil_2)). rewrite reverse_Permutation in Hnd.
  apply throw_if_ok, orb_false_iff in Hall as [[Hsub Hsup]%negb_false_iff%andb_true_iff _].
  rewrite forallb_forall in Hsub, Hsup. cbn [v_pred] in *. split_and!; [done..| |done].
  intros q. rewrite <- predecessor_edge. split.
  - intros Hq. assert (q ∈ reverse edges) as Hq' by (by apply elem_of_reverse).
    apply list_elem_of_In, Hsup in Hq'. by apply bool_decide_eq_true in Hq'.
  - intros Hq. apply list_elem_of_In, Hsub in Hq. apply bool_decide_eq_true in Hq. by rewrite elem_of_reverse in Hq.
Qed.

Lemma phi_computed l q b k i :
  walk (cfg f) 0 (l ++ [q]) q → b ∈ adjacent (cfg f) q →
  instr_at f b k = Some i → i_opcode i = OpPhi →
  ∃ j v t, i_operands i !! j = Some v ∧ i_targets i !! j = Some t ∧ Z.to_nat t = q ∧
    v ∈ computed f (l ++ [q]) ∧
    ∀ j' t', i_targets i !! j' = Some t' → Z.to_nat t' = q → j' = j.
Proof.
  intros Hw Hedge Hi Hop. destruct (phi_incoming b k i Hi Hop) as (Hlen & Hnd & Hedges & Hvals).
  apply Hedges in Hedge. apply list_elem_of_lookup in Hedge as [j Hj].
  rewrite list_lookup_fmap in Hj. destruct (i_targets i !! j) as [t|] eqn:Et; [|done].
  cbn in Hj. injection Hj as Eq.
  destruct (lookup_lt_is_Some_2 (i_operands i) j) as [v Ev].
  { rewrite Hlen. by eapply lookup_lt_Some. }
  destruct (Hvals v t) as (d & Hd & Hdom).
  { apply list_elem_of_lookup. exists j. by apply lookup_zip_Some. }
  destruct (definition_of _ _ Hd) as (i' & Hi' & Hp & Hr).
  exists j, v, t. split_and!; try done.
  - apply elem_of_computed. exists (d_block d), (d_instruction d), i'. split_and!; [|done..].
    rewrite Eq in Hdom. by apply (dominating_on_walk _ _ _ Hw).
  - intros j' t' Ej' Eq'. eapply NoDup_lookup; [exact Hnd| |].
    + rewrite list_lookup_fmap, Ej'. done.
    + rewrite list_lookup_fmap, Et. cbn. congruence.
Qed.

(** ** The hardware-loop save stack *)

(** The stack after a block and after a walk. *)
Definition run_block (active : list Z) (b : nat) : result (list Z) :=
  foldM scope_step active (instructions_of f b).
Definition run_walk (l : list nat) : result (list Z) := foldM run_block [] l.

Definition stack_at (st : scope_state) (b : nat) : option (list Z) := default None (s_scopes st !! b).
Definition has_stack (o : option (list Z)) : bool := match o with Some _ => true | None => false end.

(** Block [b], entered with stack [a], has been propagated. *)
Definition propagated (st : scope_state) (b : nat) (a : list Z) : Prop :=
  ∃ a', run_block a b = Ok a' ∧ (adjacent (successors p) b = [] → a' = []) ∧
    ∀ s, s ∈ adjacent (successors p) b → stack_at st s = Some a'.

Record scopes_inv (fuel : nat) (st : scope_state) : Prop := {
  si_length : length (s_scopes st) = length (f_blocks f);
  si_pending : ∀ b, b ∈ s_pending st → is_Some (stack_at st b);
  si_done : ∀ b a, stack_at st b = Some a → b ∈ s_pending st ∨ propagated st b a;
  si_entry : stack_at st 0 = Some [];
  si_count : (countb has_stack (s_scopes st) + fuel = length (f_blocks f) + length (s_pending st))%nat
}.

Lemma stack_at_insert st b a x pend n :
  (b < length (s_scopes st))%nat →
  stack_at (mkScopes (<[b:=Some a]> (s_scopes st)) pend n) x =
    if decide (b = x) then Some a else stack_at st x.
Proof.
  intros Hb. unfold stack_at. cbn. destruct (decide (b = x)) as [->|].
  - by rewrite list_lookup_insert_eq.
  - by rewrite list_lookup_insert_ne.
Qed.

Lemma scope_edges_ok b active ss st st' :
  (∀ s, s ∈ ss → (s < length (s_scopes st))%nat) →
  foldM (scope_edge f b active) st ss = Ok st' →
  length (s_scopes st') = length (s_scopes st) ∧
  (∀ x a, stack_at st x = Some a → stack_at st' x = Some a) ∧
  (∀ s, s ∈ ss → stack_at st' s = Some active) ∧
  (∀ x, is_Some (stack_at st' x) → is_Some (stack_at st x) ∨ x ∈ s_pending st') ∧
  (∀ x, x ∈ s_pending st → x ∈ s_pending st') ∧
  (∀ x, x ∈ s_pending st' → x ∈ s_pending st ∨ is_Some (stack_at st' x)) ∧
  (countb has_stack (s_scopes st') + length (s_pending st) =
   countb has_stack (s_scopes st) + length (s_pending st'))%nat.
Proof.
  revert st. induction ss as [|s ss IH]; intros st Hlt H; cbn [foldM] in H.
  { injection H as <-. split_and!; auto. by intros s ?%elem_of_nil. }
  apply result_bind_ok in H as (st1 & H1 & H). unfold scope_edge in H1.
  assert (s < length (s_scopes st))%nat as Hs by (apply Hlt; left).
  fold (stack_at st s) in H1. destruct (stack_at st s) as [scope|] eqn:Es.
  - apply result_bind_ok in H1 as ([] & Heq%throw_if_ok & [= <-]).
    apply negb_false_iff, bool_decide_eq_true in Heq as ->.
    apply IH in H as (Hl & Hmono & Hall & Hor & Hp & Hp' & Hc); [|intros; apply Hlt; by right].
    split_and!; auto. intros x [-> | Hx]%elem_of_cons; auto.
  - apply result_bind_ok in H1 as ([] & _ & [= <-]).
    apply IH in H as (Hl & Hmono & Hall & Hor & Hp & Hp' & Hc); cbn [s_scopes s_pending] in *.
    2: { intros x Hx. rewrite length_insert. apply Hlt. by right. }
    rewrite length_insert in Hl. split_and!; [done| | | | | |].
    + intros x a Hx. apply Hmono. rewrite stack_at_insert by done.
      destruct (decide (s = x)) as [->|]; [congruence | done].
    + intros x [-> | Hx]%elem_of_cons; [|by apply Hall]. apply Hmono.
      rewrite stack_at_insert, decide_True by done. done.
    + intros x [Hx|Hx]%Hor; [|by right]. rewrite stack_at_insert in Hx by done.
      destruct (decide (s = x)) as [<-|]; [|by left]. right. apply Hp, elem_of_app. right. by left.
    + intros x Hx. apply Hp, elem_of_app. by left.
    + intros x [[Hx | Hx%list_elem_of_singleton]%elem_of_app | Hx]%Hp'; [by left | | by right].
      right. subst x. exists active. apply Hmono. by rewrite stack_at_insert, decide_True.
    + assert (s_scopes st !! s = Some None) as Els.
      { unfold stack_at in Es. destruct (lookup_lt_is_Some_2 _ _ Hs) as [o Ho].
        rewrite Ho in Es. cbn in Es. by rewrite Ho, Es. }
      rewrite (countb_insert_gen has_stack _ _ None), length_app in Hc by done. cbn in Hc. lia.
Qed.

Lemma scope_block_ok b st st' fuel :
  scopes_inv (S fuel) (mkScopes (s_scopes st) (b :: s_pending st) (s_entries st)) →
  scope_block f p b st = Ok st' → scopes_inv fuel st'.
Proof.
  intros [Hl Hpend Hdone Hentry Hcount] H. cbn [s_scopes s_pending] in *.
  destruct (Hpend b ltac:(left)) as [a Ha]. change (stack_at st b = Some a) in Ha.
  unfold scope_block in H. fold (stack_at st b) in H. rewrite Ha in H. cbn [default from_option] in H.
  apply result_bind_ok in H as (active & Hrun & H). apply result_bind_ok in H as ([] & Hexit%throw_if_ok & H).
  apply scope_edges_ok in H as (Hl' & Hmono & Hall & Hor & Hp & Hp' & Hc).
  2: { intros s Hs. rewrite Hl. by eapply (graph_succ _ _ _ _ (fa_graph _ _ _ _ Hf)). }
  split; [congruence | | | by apply Hmono | cbn in Hcount; lia].
  - intros x [Hx|Hx]%Hp'; [|done]. destruct (Hpend x ltac:(by right)) as [ax Hax].
    exists ax. by apply Hmono.
  - intros x ax Hx. destruct (decide (x = b)) as [->|Hne].
    + apply Hmono in Ha as Ha'. assert (ax = a) as -> by congruence. right. exists active.
      split_and!; [done | | done]. intros E. rewrite E in Hexit.
      rewrite bool_decide_true in Hexit by done. cbn in Hexit.
      by apply negb_false_iff, bool_decide_eq_true in Hexit.
    + destruct (Hor x ltac:(by eexists)) as [[ax' Hax'] | ?]; [|by left].
      pose proof (Hmono _ _ Hax'). assert (ax' = ax) as -> by congruence.
      destruct (Hdone x ax Hax') as [[->|Hin]%elem_of_cons | (a' & Ha' & He & Hs)]; [done|by left; apply Hp|].
      right. exists a'. split_and!; auto. intros s Hin. by apply Hmono, Hs.
Qed.

Lemma scope_loop_ok fuel st st' :
  scopes_inv fuel st → scope_loop f p fuel st = Ok st' → ∃ fuel', scopes_inv fuel' st' ∧ s_pending st' = [].
Proof.
  revert st. induction fuel as [|fuel IH]; intros st Hinv H.
  - assert (st' = st) as -> by (cbn in H; destruct (s_pending st); congruence).
    exists 0%nat. split; [done|]. pose proof (si_count _ _ Hinv) as Hc.
    pose proof (countb_all has_stack (s_scopes st)). rewrite (si_length _ _ Hinv) in *.
    destruct (s_pending st); [done | cbn in Hc; lia].
  - cbn [scope_loop] in H. destruct (s_pending st) as [|b pending] eqn:E.
    + injection H as <-. eauto.
    + apply result_bind_ok in H as (st1 & H1 & H). eapply IH; [|exact H].
      eapply scope_block_ok; [|exact H1]. cbn. rewrite <- E. by destruct st.
Qed.

Lemma initial_scopes_inv : scopes_inv (length (f_blocks f)) (initial_scopes f).
Proof.
  pose proof (fa_blocks _ _ _ _ Hf) as Hn.
  assert (∀ x, stack_at (initial_scopes f) x = if decide (0%nat = x) then Some [] else None) as Hst.
  { intros x. unfold initial_scopes. rewrite (fa_entry _ _ _ _ Hf).
    rewrite (stack_at_insert (mkScopes (replicate (length (f_blocks f)) None) [] 0))
      by (cbn; by rewrite length_replicate).
    destruct (decide _); [done|]. unfold stack_at. cbn.
    destruct (replicate _ None !! x) eqn:E; [|done]. by apply lookup_replicate in E as [-> _]. }
  split.
  - unfold initial_scopes. cbn. by rewrite length_insert, length_replicate.
  - intros b. unfold initial_scopes at 1. rewrite (fa_entry _ _ _ _ Hf). cbn.
    intros ->%list_elem_of_singleton. by rewrite Hst.
  - intros b a. rewrite Hst. destruct (decide (0%nat = b)) as [<-|]; [|done]. intros _. left.
    unfold initial_scopes. rewrite (fa_entry _ _ _ _ Hf). by left.
  - by rewrite Hst.
  - unfold initial_scopes. rewrite (fa_entry _ _ _ _ Hf). cbn [s_scopes s_pending length].
    rewrite (countb_insert_gen has_stack _ _ None) by (done || by apply lookup_replicate_2).
    rewrite countb_replicate by done. lia.
Qed.

(** Without hardware loops the stack stays empty. *)
Lemma run_block_plain b :
  hardware_scopes p = [] → run_block [] b = Ok [].
Proof.
  intros Hnone. unfold run_block.
  assert (∀ k i, instr_at f b k = Some i → is_hardware_loop (i_opcode i) = false) as Hplain.
  { intros k i Hi. destruct (is_hardware_loop _) eqn:E; [|done].
    by destruct (p_scopes _ _ _ (fa_pass _ _ _ _ Hf) _ _ _ I Hi E). }
  assert (Forall (λ i, is_hardware_loop (i_opcode i) = false) (instructions_of f b)) as Hall.
  { apply Forall_lookup. intros k i Hk. apply (Hplain k). by rewrite instr_at_of. }
  induction Hall as [|i code Hi _ IH]; cbn [foldM]; [done|].
  assert (scope_step [] i = Ok []) as -> by (unfold scope_step, is_hardware_loop in *; by destruct (i_opcode i)).
  exact IH.
Qed.

(** The stack with which each block is entered. *)
Lemma entry_stacks :
  ∃ stack : nat → list Z, stack 0%nat = [] ∧
    ∀ b, reachable (cfg f) 0 b → ∃ a', run_block (stack b) b = Ok a' ∧
      (adjacent (cfg f) b = [] → a' = []) ∧ ∀ s, s ∈ adjacent (cfg f) b → stack s = a'.
Proof.
  pose proof (fa_scopes _ _ _ _ Hf) as H. unfold verify_scopes in H.
  apply result_bind_ok in H as ([] & _ & H). case_bool_decide as Hnone.
  { exists (λ _, []). split; [done|]. intros b _. exists []. split; [by apply run_block_plain | done]. }
  apply result_bind_ok in H as (st & H & _). apply scope_loop_ok in H as (fuel & Hinv & Hempty);
    [|apply initial_scopes_inv].
  assert (∀ b s, s ∈ adjacent (successors p) b ↔ s ∈ adjacent (cfg f) b) as Hadj.
  { intros b s. rewrite (p_adjacent _ _ _ (fa_pass _ _ _ _ Hf)), elem_of_cfg. naive_solver. }
  assert (∀ b a, stack_at st b = Some a → propagated st b a) as Hdone.
  { intros b a Hb. destruct (si_done _ _ Hinv b a Hb) as [Hin|]; [|done].
    rewrite Hempty in Hin. by apply elem_of_nil in Hin. }
  exists (λ b, default [] (stack_at st b)). split; [by rewrite (si_entry _ _ Hinv)|].
  intros b [l Hl]. assert (∃ a, stack_at st b = Some a) as [a Ha].
  { induction Hl as [|l b s _ [a Ha] Hs]; [exists []; apply Hinv|].
    destruct (Hdone _ _ Ha) as (a' & _ & _ & Hsucc). exists a'. by apply Hsucc, Hadj. }
  destruct (Hdone _ _ Ha) as (a' & Hrun & Hexit & Hsucc). rewrite Ha. exists a'. split_and!; [done | |].
  - intros E. apply Hexit. apply (elem_of_nil_inv). intros s Hs%Hadj. rewrite E in Hs.
    by apply elem_of_nil in Hs.
  - intros s Hs%Hadj. by rewrite (Hsucc s Hs).
Qed.

Lemma walk_reachable l b : walk (cfg f) 0 l b → reachable (cfg f) 0 b.
Proof. by exists l. Qed.

Lemma run_walk_stack stack l b :
  stack 0%nat = [] →
  (∀ b, reachable (cfg f) 0 b → ∃ a', run_block (stack b) b = Ok a' ∧
     (adjacent (cfg f) b = [] → a' = []) ∧ ∀ s, s ∈ adjacent (cfg f) b → stack s = a') →
  walk (cfg f) 0 l b → run_walk l = run_block (stack b) b.
Proof.
  intros H0 Hall Hw. unfold run_walk. induction Hw as [|l b s Hw IH Hs].
  - cbn [foldM]. rewrite H0. by destruct (run_block [] 0).
  - rewrite foldM_app, IH. destruct (Hall b (walk_reachable _ _ Hw)) as (a' & -> & _ & Hsucc).
    cbn. rewrite (Hsucc s Hs). by destruct (run_block a' s).
Qed.

End verified.

(* ------------------------------------------------------------------ *)
(** ** Typing *)

(** The type of the definition of a value. *)
Definition value_type (f : IRFunction) (v : IRValueId) (t : CType) : Prop :=
  ∃ b k i, instr_at f b k = Some i ∧ producesValue i = true ∧ i_result i = v ∧ i_type i = t.

(** [x] has an integer type, or points to values of type [t]. *)
Definition integer_value (f : IRFunction) (x : IRValueId) : Prop :=
  ∃ t, value_type f x t ∧ isIntegerType t = true.
Definition same_type (t u : CType) : Prop := sameValueType t u = Ok true.
Definition address_of (f : IRFunction) (a : IRValueId) (ta tp : CType) : Prop :=
  value_type f a ta ∧ pointer_level ta ≠ 0 ∧ pointeeType ta = Ok tp.

(* ------------------------------------------------------------------ *)
(** ** Properties *)

Lemma verified_facts f : verifyFunction f = Ok tt → ∃ p reach doms, facts f p reach doms.
Proof.
  unfold verifyFunction. intros H. apply result_bind_ok in H as ([[p reach] doms] & H & _).
  exists p, reach, doms. by apply verify_structure_facts.
Qed.

Lemma foldM_each {A S} (f : S → A → result S) l s s' :
  foldM f s l = Ok s' → ∀ x, x ∈ l → ∃ t t', f t x = Ok t'.
Proof.
  revert s. induction l as [|y l IH]; intros s H x; cbn [foldM] in H; [by intros ?%elem_of_nil|].
  apply result_bind_ok in H as (s1 & H1 & H). intros [->|Hx]%elem_of_cons; [eauto|by eapply IH].
Qed.

(** Blocks are numbered by position. *)
Lemma verified_block_ids f : verifyFunction f = Ok tt → ∀ b blk, f_blocks f !! b = Some blk → b_id blk = Z.of_nat b.
Proof.
  unfold verifyFunction. intros H. apply result_bind_ok in H as ([[p r] ds] & H & _). unfold verify_structure in H.
  apply result_bind_ok in H as ([] & _ & H). apply result_bind_ok in H as (p' & Hpass & _).
  intros k b Hb. unfold first_pass in Hpass. apply (foldM_each _ _ _ _) with (x := (k, b)) in Hpass.
  - destruct Hpass as (t & t' & Ht). unfold pass1_block in Ht.
    apply result_bind_ok in Ht as ([] & Hid%throw_if_ok & _). bool_facts. done.
  - by apply elem_of_indexed.
Qed.
Lemma verified_targets f b k i : verifyFunction f = Ok tt → instr_at f b k = Some i → Forall (target_ok f) (i_targets i).
Proof. intros (p & reach & doms & Hf)%verified_facts Hi. apply (p_checked _ _ _ (fa_pass _ _ _ _ Hf) _ _ _ I Hi). Qed.

(** A counting loop with a phi, and a hardware loop before the return. *)
Definition word : CType := scalar_type BaseWord 2 false.
Definition boolean : CType := scalar_type BaseBool 1 true.
Definition plain_instr (o : IROpcode) (t : CType) (r : Z) (operands targets : list Z) (op : string)
    (imm loop : Z) : IRInstruction :=
  mkInstr o t r operands targets InvalidBlock loop [] false imm op "" 0 false false false [] false no_token.
Definition sample : IRFunction :=
  let blk n code := mkBlock n "" code in
  mkFunction "count" "count" word [] 0 false false
    [blk 0 [plain_instr OpConstant word 1 [] [] "" 0 0; plain_instr OpConstant word 2 [] [] "" 10 0;
            plain_instr OpBranch default_type 0 [] [1] "" 0 0];
     blk 1 [plain_instr OpPhi word 3 [1; 5] [0; 2] "" 0 0; plain_instr OpBinary boolean 4 [3; 2] [] "<" 0 0;
            plain_instr OpCondBranch default_type 0 [4] [2; 3] "" 0 0];
     blk 2 [plain_instr OpBinary word 5 [3; 2] [] "+" 0 0; plain_instr OpBranch default_type 0 [] [1] "" 0 0];
     blk 3 [plain_instr OpHardwareLoop default_type 0 [3] [] "" 0 7;
            plain_instr OpHardwareLoopEnd default_type 0 [] [] "" 0 7;
            plain_instr OpReturn word 0 [3] [] "" 0 0]]
    0 5 false [] [].

Example sample_verified : verifyFunction sample = Ok tt.
Proof. vm_compute. reflexivity. Qed.

(** The walk 0, 1, 2, 1, 3 through the sample. *)
Lemma sample_walk : walk (cfg sample) 0 ([0; 1; 2; 1] ++ [3])%nat 3.
Proof. exact (walk_steps (cfg sample) 0 [0%nat] 0 [1; 2; 1; 3]%nat (walk_entry _ _) eq_refl). Qed.

(** C1. A verified function never reads an undefined value: on every walk from
    the entry to an instruction, each operand of the instruction has been
    computed, by a block visited before or earlier in the same block. *)
Theorem verified_reads_computed (f : IRFunction) (l : list nat) (b k : nat) (i : IRInstruction)
    (v : IRValueId) :
  verifyFunction f = Ok tt → walk (cfg f) 0 (l ++ [b]) b →
  instr_at f b k = Some i → i_opcode i ≠ OpPhi → v ∈ i_operands i →
  v ∈ computed_before f l b k.
Proof. intros (p & reach & doms & Hf)%verified_facts. by apply (use_computed _ _ _ _ Hf). Qed.

Lemma verified_reads_computed_witness : 3 ∈ computed_before sample [0; 1; 2; 1]%nat 3 0.
Proof.
  eapply (verified_reads_computed sample [0; 1; 2; 1]%nat 3 0).
  - vm_compute. reflexivity.
  - exact sample_walk.
  - vm_compute. reflexivity.
  - discriminate.
  - apply (bool_decide_unpack _). vm_compute. exact I.
Defined.

(** C2. A verified phi selects by edge: whenever control passes from block [q]
    to the block of a phi, exactly one of its entries names [q], and the value
    of that entry has been computed by the time [q] ends. *)
Theorem verified_phi_selects (f : IRFunction) (l : list nat) (q b k : nat) (i : IRInstruction) :
  verifyFunction f = Ok tt → walk (cfg f) 0 (l ++ [q]) q → b ∈ adjacent (cfg f) q →
  instr_at f b k = Some i → i_opcode i = OpPhi →
  ∃ j v t, i_operands i !! j = Some v ∧ i_targets i !! j = Some t ∧ Z.to_nat t = q ∧
    v ∈ computed f (l ++ [q]) ∧
    ∀ j' t', i_targets i !! j' = Some t' → Z.to_nat t' = q → j' = j.
Proof. intros (p & reach & doms & Hf)%verified_facts. by apply (phi_computed _ _ _ _ Hf). Qed.

Lemma verified_phi_selects_witness :
  ∃ j v t, [1; 5] !! j = Some v ∧ [0; 2] !! j = Some t ∧ Z.to_nat t = 2%nat ∧
    v ∈ computed sample ([0; 1] ++ [2])%nat ∧
    ∀ j' t', [0; 2] !! j' = Some t' → Z.to_nat t' = 2%nat → j' = j.
Proof.
  eapply (verified_phi_selects sample [0; 1]%nat 2 1 0 (plain_instr OpPhi word 3 [1; 5] [0; 2] "" 0 0)).
  - vm_compute. reflexivity.
  - exact (walk_steps (cfg sample) 0 [0%nat] 0 [1; 2]%nat (walk_entry _ _) eq_refl).
  - apply (bool_decide_unpack _). vm_compute. exact I.
  - vm_compute. reflexivity.
  - reflexivity.
Defined.

(** C3. The hardware-loop save stack of a verified function is balanced: along
    every walk each end and leave finds its own loop innermost, the nesting
    limit holds, a walk that ends in a block without successors ends with the
    stack empty, and all walks into a block bring the same stack. *)
Theorem verified_scopes_balanced (f : IRFunction) (l : list nat) (b : nat) :
  verifyFunction f = Ok tt → walk (cfg f) 0 l b →
  ∃ active, run_walk f l = Ok active ∧ (adjacent (cfg f) b = [] → active = []) ∧
    ∀ l' b' s, walk (cfg f) 0 l' b' → s ∈ adjacent (cfg f) b → s ∈ adjacent (cfg f) b' →
      run_walk f l' = Ok active.
Proof.
  intros (p & reach & doms & Hf)%verified_facts Hw.
  destruct (entry_stacks _ _ _ _ Hf) as (stack & H0 & Hall).
  destruct (Hall b (walk_reachable _ _ _ Hw)) as (a & Hrun & Hexit & Hsucc). exists a. split_and!.
  - by rewrite (run_walk_stack _ _ _ _ H0 Hall Hw).
  - done.
  - intros l' b' s Hw' Hs Hs'. destruct (Hall b' (walk_reachable _ _ _ Hw')) as (a' & Hrun' & _ & Hsucc').
    rewrite (run_walk_stack _ _ _ _ H0 Hall Hw'), Hrun'. f_equal. by rewrite <- (Hsucc s Hs), <- (Hsucc' s Hs').
Qed.

Lemma verified_scopes_balanced_witness :
  ∃ active, run_walk sample ([0; 1; 2; 1] ++ [3])%nat = Ok active ∧
    (adjacent (cfg sample) 3 = [] → active = []) ∧
    ∀ l' b' s, walk (cfg sample) 0 l' b' → s ∈ adjacent (cfg sample) 3 → s ∈ adjacent (cfg sample) b' →
      run_walk sample l' = Ok active.
Proof.
  apply (verified_scopes_balanced sample ([0; 1; 2; 1] ++ [3])%nat 3).
  - vm_compute. reflexivity.
  - exact sample_walk.
Defined.

(** C5. A verified function is well formed: the values 1 to [value_count] have
    exactly one definition each, blocks are numbered by position, every block ends in a terminator, terminators
    occur only there, branch targets are blocks, and blocks out of reach hold
    nothing but [unreachable]. *)
Theorem verified_well_formed (f : IRFunction) :
  verifyFunction f = Ok tt →
  (∀ v, 1 ≤ v ≤ f_value_count f → ∃ b k i, instr_at f b k = Some i ∧ producesValue i = true ∧ i_result i = v ∧
     ∀ b' k' i', instr_at f b' k' = Some i' → producesValue i' = true → i_result i' = v → b' = b ∧ k' = k) ∧
  (∀ b blk, f_blocks f !! b = Some blk → b_id blk = Z.of_nat b ∧
     (∃ i, last (b_instructions blk) = Some i ∧ isTerminator i = true) ∧
     ∀ k i, b_instructions blk !! k = Some i → isTerminator i = true → S k = length (b_instructions blk)) ∧
  (∀ b k i, instr_at f b k = Some i → Forall (target_ok f) (i_targets i)) ∧
  (∀ b blk, f_blocks f !! b = Some blk → ¬ reachable (cfg f) 0 b →
     i_opcode <$> b_instructions blk = [OpUnreachable]).
Proof.
  intros Hv. pose proof (verified_facts f Hv) as (p & reach & doms & Hf). pose proof (fa_pass _ _ _ _ Hf) as Hp. split_and!.
  - intros v Hrange. pose proof (fa_values _ _ _ _ Hf) as Hval. unfold verify_values in Hval.
    apply result_bind_ok in Hval as ([] & _ & Hval). rewrite forM_ok, Forall_forall in Hval.
    specialize (Hval v ltac:(apply elem_of_seqZ; lia)). apply throw_if_ok, bool_decide_eq_false in Hval.
    destruct (definitions p !! v) as [d|] eqn:Ed; [|done].
    destruct (p_definition _ _ _ Hp _ _ Ed) as (i & Hi & Hpv & Hr & _).
    exists (d_block d), (d_instruction d), i. split_and!; [done..|]. intros b' k' i' Hi' Hpv' Hr'.
    pose proof (p_defined _ _ _ Hp b' k' i' I Hi' Hpv') as E. rewrite Hr', Ed in E. by injection E as ->.
  - intros b blk Hblk. split; [by apply (verified_block_ids f)|].
    split; [by eapply (fa_last _ _ _ _ Hf)|]. intros k i' Hk Ht. assert (instr_at f b k = Some i') as Hat by (unfold instr_at; by rewrite Hblk).
    destruct (c_metadata _ _ _ _ (p_checked _ _ _ Hp _ _ _ I Hat)) as (blk' & Hblk' & _ & H).
    rewrite Hblk in Hblk'. injection Hblk' as <-. by apply H.
  - intros b k i Hi. by apply (verified_targets f b k).
  - intros b blk Hblk Hun. pose proof (fa_unreachable _ _ _ _ Hf) as H. unfold verify_unreachable in H.
    rewrite forM_indexed in H. specialize (H b blk Hblk). cbn in H.
    destruct (is_reachable reach b) eqn:Er; [destruct Hun; apply (fa_reach _ _ _ _ Hf); by rewrite Er|].
    apply throw_if_ok, negb_false_iff, andb_true_iff in H as [Hl%Nat.eqb_eq Ho%bool_decide_eq_true].
    destruct (b_instructions blk) as [|i [|]]; try done. cbn in *. congruence.
Qed.

Lemma verified_well_formed_witness :
  Forall (target_ok sample) [2; 3] ∧
  ∃ b k i, instr_at sample b k = Some i ∧ producesValue i = true ∧ i_result i = 5 ∧
    ∀ b' k' i', instr_at sample b' k' = Some i' → producesValue i' = true → i_result i' = 5 → b' = b ∧ k' = k.
Proof.
  assert (verifyFunction sample = Ok tt) as H by (vm_compute; reflexivity).
  destruct (verified_well_formed sample H) as (Hv & _ & Ht & _). split.
  - apply (Ht 1%nat 2%nat (plain_instr OpCondBranch default_type 0 [4] [2; 3] "" 0 0)). vm_compute. reflexivity.
  - apply Hv. cbn. lia.
Defined.

(** C6. The dominator iteration of the verifier ends by itself and is exact:
    for every function that passes the first pass, the loop reaches its fixed
    point within the rounds allowed here, and bit [d] of the set of a
    reachable block [b] is set exactly when every walk to [b] visits [d]. *)
Theorem verify_dominators_exact (f : IRFunction) (p : pass1) :
  f_entry f = 0 → f_blocks f ≠ [] → first_pass f = Ok p →
  let reach := reachability (length (f_blocks f)) (successors p) (Z.to_nat (f_entry f)) in
  ∃ doms, verify_dominators f p reach = Ok doms ∧
    ∀ b d, reachable (cfg f) 0 b → has_bit (doms_of doms b) d = true ↔ dominates (cfg f) 0 d b.
Proof.
  intros He Hn [Hp _]%first_pass_ok. cbv zeta.
  destruct (verify_dominators_ok f p) as [Hr (doms & E & Hd)]; [|done..|].
  { destruct (f_blocks f); [done | cbn; lia]. }
  exists doms. split; [done|]. intros b d [l Hl]. rewrite Hd.
  - unfold dominates. by setoid_rewrite (pass1_walk f p _ _ Hp).
  - apply Hr. exists l. by apply (pass1_walk f p l b Hp).
Qed.

Lemma verify_dominators_exact_witness :
  ∃ p doms, first_pass sample = Ok p ∧
    verify_dominators sample p (reachability 4 (successors p) 0) = Ok doms ∧
    ∀ b d, reachable (cfg sample) 0 b → has_bit (doms_of doms b) d = true ↔ dominates (cfg sample) 0 d b.
Proof.
  destruct (first_pass sample) as [p|] eqn:E; [|vm_compute in E; discriminate E].
  destruct (verify_dominators_exact sample p eq_refl ltac:(discriminate) E) as (doms & Hd & Hall).
  exists p, doms. split_and!; [reflexivity | exact Hd | exact Hall].
Defined.
