(* ===== verification/IRTyping.v ===== *)
(** * IRTyping: the typing rules of verified functions

    What [IRVerify] checks of an instruction beyond the graph, opcode by opcode: the
    types of its operands and result, the operations and immediates it may have, its
    flags.  [Load], [Store], [PlotBegin], [PlotEnd] and [Unreachable] have no rule of
    their own in the second pass. *)

From S2P Require Import Prelude Target Types Token Pointer IR Graph IRVerify IRSound.

(* ------------------------------------------------------------------ *)
(** ** The rules *)

(** The instruction that defines [x] is [j]. *)
Definition defined_by (f : IRFunction) (x : IRValueId) (j : IRInstruction) : Prop :=
  ∃ b k, instr_at f b k = Some j ∧ producesValue j = true ∧ i_result j = x.

(** A constant pointer is null, or an address of its memory fit for its pointee. *)
Definition pointer_constant_rule (i : IRInstruction) : Prop :=
  (i_operation i = "null"%string → i_immediate i = 0 ∧ pointer_level (i_type i) ≠ 0 ∧ i_operands i = []) ∧
  (i_operation i ≠ "null"%string → 0 < pointer_level (i_type i) → ∃ element, pointeeType (i_type i) = Ok element ∧
     0 ≤ i_immediate i ≤ (if isFarPointer (i_type i) then 16777215 else 65535) ∧
     Pointer.validate (u32 (i_immediate i)) (space (i_type i)) (isFarPointer (i_type i))
       (if 0 <? sizeInBytes element then sizeInBytes element else 1) (storageAlignment element) = Ok tt).

Definition phi_rule (f : IRFunction) (i : IRInstruction) : Prop :=
  i_operands i ≠ [] ∧ zlen (i_operands i) = zlen (i_targets i) ∧ array_size (i_type i) = 0 ∧ i_operation i = ""%string ∧
  (isIntegerType (i_type i) = true ∨ 0 < pointer_level (i_type i) ∧ isFarPointer (i_type i) = false) ∧
  ∀ x, x ∈ i_operands i → ∃ t, value_type f x t ∧ same_type (i_type i) t ∧ enum_name (i_type i) = enum_name t.

(** A symbol, a member of an aggregate, or a temporary of the frame. *)
Definition address_rule (f : IRFunction) (i : IRInstruction) : Prop :=
  pointer_level (i_type i) ≠ 0 ∧
  ((i_operation i = ""%string ∧ i_operands i = [] ∧ i_symbol i ≠ ""%string ∧
      (f_storage_layout_valid f = true → symbol_isValid (i_symbol_id i) = true →
       has_key (f_storage_layout f) (i_symbol_id i) = true ∨ has_key (f_immutable_local_arrays f) (i_symbol_id i) = true)) ∨
   (i_operation i = "member"%string ∧ 0 ≤ i_immediate i ≤ 65528 ∧
      ∃ a t, i_operands i = [a] ∧ value_type f a t ∧ pointer_level t ≠ 0) ∨
   (i_operation i = "temporary"%string ∧ i_operands i = [] ∧ - f_total_local_alloc_size f ≤ i_immediate i < 0 ∧
      Z.rem (i_immediate i) 2 = 0)).

Definition initializer_rule (f : IRFunction) (i : IRInstruction) : Prop :=
  let t := i_type i in
  4 ≤ zlen (i_initialization_values i) ≤ 256 ∧ i_targets i = [] ∧ isIntegerType t = true ∧
  (sizeInBytes t = 1 ∨ sizeInBytes t = 2) ∧ array_size t = 0 ∧ is_volatile t = false ∧ i_operation i = "declare"%string ∧
  0 < i_immediate i ≤ f_total_local_alloc_size f ∧ zlen (i_initialization_values i) ≤ i_immediate i / sizeInBytes t ∧
  Forall (λ x, (usesByteStorage t = true → x ≤ 255) ∧ (base t = BaseBool → x ≤ 1)) (i_initialization_values i) ∧
  ∃ a j element, i_operands i = [a] ∧ defined_by f a j ∧ i_opcode j = OpAddress ∧ i_operation j = ""%string ∧
    symbol_isValid (i_symbol_id j) = true ∧ pointer_level (i_type j) = 1 ∧ isFarPointer (i_type j) = false ∧
    space (i_type j) = SpaceRam ∧ pointeeType (i_type j) = Ok element ∧ same_type t element ∧ is_volatile element = false.

(** The graphics instructions other than [Rpix] stand in a plot context. *)
Definition color_rule (f : IRFunction) (i : IRInstruction) : Prop :=
  i_in_plot_context i = true ∧ i_targets i = [] ∧ ∃ x t, i_operands i = [x] ∧ value_type f x t ∧
  (i_operation i = "rom.byte"%string ∧ pointer_level t ≠ 0 ∧ space t = SpaceRom ∧
     (∃ element, pointeeType t = Ok element ∧ base element = BaseByte ∧ pointer_level element = 0 ∧ is_volatile element = false) ∨
   i_operation i = ""%string ∧ isIntegerType t = true).
Definition coordinate_rule (i : IRInstruction) : Prop :=
  i_in_plot_context i = true ∧ i_targets i = [] ∧ i_operation i = ""%string ∧ (i_immediate i = 0 ∨ i_immediate i = 1) ∧
  pointer_level (i_type i) = 0 ∧ base (i_type i) = BaseWord ∧ is_unsigned (i_type i) = false.

Definition offset_rule (f : IRFunction) (i : IRInstruction) : Prop :=
  let scaled := i_operation i = "scaled+"%string ∨ i_operation i = "scaled-"%string in
  let plain := i_operation i = "+"%string ∨ i_operation i = "-"%string in
  ∃ a x ta tx, value_type f a ta ∧ value_type f x tx ∧ pointer_level ta ≠ 0 ∧ same_type (i_type i) ta ∧
    0 < i_immediate i ≤ 65528 ∧ isIntegerType tx = true ∧
    (plain ∧ i_operands i = [a; x] ∨
     scaled ∧ isFarPointer (i_type i) = false ∧ 4 ≤ i_immediate i ∧ base tx = BaseWord ∧ is_unsigned tx = true ∧
       ∃ y ty, i_operands i = [a; x; y] ∧ value_type f y ty ∧ same_type tx ty) ∧
    (base (i_type i) ≠ BaseStruct ∨ 1 < pointer_level (i_type i) →
     ∃ tp, pointeeType (i_type i) = Ok tp ∧ i_immediate i = sizeInBytes tp).

(** A copy that splits a live range does not change its value. *)
Definition split_rule (f : IRFunction) (i : IRInstruction) : Prop :=
  i_opcode i = OpCast ∧ i_operation i = ""%string ∧ isIntegerType (i_type i) = true ∧ array_size (i_type i) = 0 ∧
  ∃ x t, i_operands i = [x] ∧ value_type f x t ∧ same_type (i_type i) t ∧ enum_name (i_type i) = enum_name t.

Definition typing_rule (f : IRFunction) (i : IRInstruction) : Prop :=
  match i_opcode i with
  | OpPhi => phi_rule f i
  | OpConstant => pointer_constant_rule i
  | OpAddress => address_rule f i
  | OpBinary => ∃ x y tx ty, i_operands i = [x; y] ∧
      value_type f x tx ∧ value_type f y ty ∧ isIntegerType tx = true ∧ isIntegerType ty = true ∧
      isIntegerType (i_type i) = true ∧ i_operation i ∈ legal_operations ∧
      (i_operation i ≠ "<<"%string → i_operation i ≠ ">>"%string → same_type tx ty)
  | OpLoadIndirect => ∃ a ta tp, i_operands i = [a] ∧ address_of f a ta tp ∧
      same_type (i_type i) tp ∧ i_memory_volatile i = is_volatile tp
  | OpStoreIndirect => ∃ a x ta tp tx, i_operands i = [a; x] ∧ address_of f a ta tp ∧
      value_type f x tx ∧ same_type (i_type i) tx ∧ same_type (i_type i) tp ∧ isVoidType tx = false ∧
      space ta ≠ SpaceRom ∧ i_memory_volatile i = is_volatile tp ∧
      (is_const tp = true → i_operation i = "declare"%string)
  | OpMemoryInitialize => initializer_rule f i
  | OpPointerOffset => offset_rule f i
  | OpPointerCompare => ∃ a b ta tb, i_operands i = [a; b] ∧ value_type f a ta ∧ value_type f b tb ∧
      pointer_level ta ≠ 0 ∧ pointer_level tb ≠ 0 ∧ space ta = space tb ∧ isFarPointer ta = isFarPointer tb ∧
      base (i_type i) = BaseBool ∧ pointer_level (i_type i) = 0 ∧ (i_operation i = "=="%string ∨ i_operation i = "!="%string)
  | OpDivMod => ∃ x y tx ty, i_operands i = [x; y] ∧ i_targets i = [] ∧ value_type f x tx ∧ value_type f y ty ∧
      same_type (i_type i) tx ∧ same_type (i_type i) ty ∧
      enum_name (i_type i) = enum_name tx ∧ enum_name (i_type i) = enum_name ty ∧
      (i_operation i = "/"%string ∨ i_operation i = "%"%string) ∧
      base (i_type i) = BaseWord ∧ sizeInBytes (i_type i) = 2 ∧ pointer_level (i_type i) = 0 ∧ array_size (i_type i) = 0
  | OpDivModResult => ∃ x j, i_operands i = [x] ∧ i_targets i = [] ∧ defined_by f x j ∧ i_opcode j = OpDivMod ∧
      (i_operation i = "/"%string ∨ i_operation i = "%"%string) ∧ i_operation j ≠ i_operation i ∧
      same_type (i_type i) (i_type j) ∧ enum_name (i_type i) = enum_name (i_type j)
  | OpBitExtract => ∃ x tx, i_operands i = [x] ∧ value_type f x tx ∧ same_type (i_type i) tx ∧
      (base (i_type i) = BaseWord ∧ array_size (i_type i) = 0 ∧ i_operation i = ""%string ∧ i_targets i = []) ∧
      pointer_level (i_type i) = 0 ∧ 0 ≤ i_immediate i ≤ 15
  | OpUnary | OpCast => ∃ x t, i_operands i = [x] ∧ value_type f x t ∧ isVoidType t = false
  | OpCall => i_symbol i ≠ ""%string ∧
      ∀ x, x ∈ i_operands i → ∃ t, value_type f x t ∧ isVoidType t = false
  | OpCache => i_operands i = [] ∧ i_targets i = []
  | OpPlot => i_in_plot_context i = true ∧ i_operands i = [] ∧ i_targets i = []
  | OpRpix => i_operands i = [] ∧ i_targets i = [] ∧
      (producesValue i = true → i_in_plot_context i = true ∧ pointer_level (i_type i) = 0 ∧ base (i_type i) = BaseByte)
  | OpSetColor => color_rule f i
  | OpCMode => i_in_plot_context i = true ∧ i_operands i = [] ∧ i_targets i = [] ∧ 0 ≤ i_immediate i ≤ 31
  | OpPlotCoordinateRead => coordinate_rule i ∧ i_operands i = []
  | OpPlotCoordinateWrite => coordinate_rule i ∧ ∃ x t, i_operands i = [x] ∧ value_type f x t ∧ same_type (i_type i) t
  | OpHardwareLoop => ∃ x, i_operands i = [x] ∧ integer_value f x
  | OpHardwareLoopEnd | OpHardwareLoopLeave => i_operands i = []
  | OpBranch => i_operands i = [] ∧ ∃ t, i_targets i = [t]
  | OpCondBranch => ∃ x s t, i_operands i = [x] ∧ i_targets i = [s; t] ∧ integer_value f x
  | OpSwitch => ∃ x, i_operands i = [x] ∧ integer_value f x ∧ i_targets i ≠ [] ∧
      zlen (i_case_values i) + (if i_has_default_target i then 1 else 0) = zlen (i_targets i) ∧ NoDup (i_case_values i)
  | OpReturn => ∃ x t, i_operands i = [x] ∧ value_type f x t ∧
      isVoidType (f_return_type f) = false ∧ same_type (f_return_type f) t
  | OpReturnVoid => isVoidType (f_return_type f) = true ∧ i_operands i = []
  | OpUnreachable => i_operands i = [] ∧ i_targets i = []
  | OpLoad | OpStore | OpPlotBegin | OpPlotEnd => True
  end.

(** The rule of the opcode, the rule of live-range splits, and the flags that only
    memory accesses and initializers may carry. *)
Definition well_typed (f : IRFunction) (i : IRInstruction) : Prop :=
  typing_rule f i ∧ (i_is_live_range_split i = true → split_rule f i) ∧
  (i_memory_volatile i = true → i_opcode i = OpLoadIndirect ∨ i_opcode i = OpStoreIndirect) ∧
  (i_initialization_values i ≠ [] → i_opcode i = OpMemoryInitialize).

(* ------------------------------------------------------------------ *)
(** ** The checks give the rules *)

Section typing.
Context (f : IRFunction) (p : pass1) (reach : list bool) (doms : list bits).
Hypothesis Hf : facts f p reach doms.
Let v := mkVerifier f (definitions p) (predecessors p) reach doms.

Lemma definitionType_value x src t : definitionType v x src = Ok t → value_type f x t.
Proof.
  unfold definitionType. cbn [v_defs v]. intros H.
  destruct (definitions p !! x) as [d|] eqn:E; [|done].
  destruct (p_definition _ _ _ (fa_pass _ _ _ _ Hf) _ _ E) as (i & Hi & Hp & Hr & _).
  cbn [v_fn v] in H. rewrite Hi in H. injection H as <-. by exists (d_block d), (d_instruction d), i.
Qed.

Lemma ty_test_false i x test : ty_test v i x test = Ok false → ∃ t, value_type f x t ∧ test t = false.
Proof.
  unfold ty_test, type_of. intros H. apply result_bind_ok in H as (t & Ht & [= E]).
  apply definitionType_value in Ht. eauto.
Qed.

Lemma differs_false i x : differs v i x = Ok false → ∃ t, value_type f x t ∧ same_type (i_type i) t.
Proof.
  unfold differs, type_of. intros H. apply result_bind_ok in H as (t & Ht & E%not_r_false).
  apply definitionType_value in Ht. eauto.
Qed.

(** Definitions are unique, so a value has one type. *)
Lemma value_type_unique x t u : value_type f x t → value_type f x u → t = u.
Proof.
  intros (b & k & i & Hi & Hp & Hr & <-) (b' & k' & i' & Hi' & Hp' & Hr' & <-).
  pose proof (p_defined _ _ _ (fa_pass _ _ _ _ Hf) b k i I Hi Hp) as E.
  pose proof (p_defined _ _ _ (fa_pass _ _ _ _ Hf) b' k' i' I Hi' Hp') as E'.
  rewrite Hr in E. rewrite Hr' in E'. rewrite E in E'. injection E' as <- <-. congruence.
Qed.

Lemma pointee_of_ok i x tp :
  pointee_of v i x = Ok tp → ∃ t, value_type f x t ∧ pointeeType t = Ok tp.
Proof.
  unfold pointee_of, type_of. intros H. apply result_bind_ok in H as (t & Ht & E).
  apply definitionType_value in Ht. eauto.
Qed.

(** Splits a passed check into the facts of its parts. *)
Ltac split_reject H :=
  unfold reject in H; apply throw_when_ok in H; repeat rewrite or_r_false in H; destruct_and? H.

Ltac facts_of :=
  repeat match goal with
  | H : Ok _ = Ok false |- _ => injection H as H
  | H : ty_test v _ _ _ = Ok false |- _ => apply ty_test_false in H as (? & ? & ?)
  | H : differs v _ _ = Ok false |- _ => apply differs_false in H as (? & ? & ?)
  | H : mbind _ _ = Ok false |- _ => apply result_bind_ok in H as (? & ? & ?)
  | H : not_r _ = Ok false |- _ => apply not_r_false in H
  | H : pointee_of v _ _ = Ok _ |- _ => apply pointee_of_ok in H as (? & ? & ?)
  | H : type_of v _ _ = Ok _ |- _ => apply definitionType_value in H
  end; bool_facts;
  repeat match goal with
  | H1 : value_type f ?x ?t, H2 : value_type f ?x ?u |- _ =>
      tryif unify t u then fail else (assert (u = t) by (by eapply value_type_unique); subst u)
  end;
  repeat match goal with
  | H1 : pointeeType ?x = Ok ?t, H2 : pointeeType ?x = Ok ?u |- _ =>
      tryif unify t u then clear H2 else (assert (u = t) by congruence; subst u)
  end.

Lemma operands_1 i : n_operands i = 1 → i_operands i = [operand i 0].
Proof. unfold n_operands, zlen, operand. destruct (i_operands i) as [|x [|]]; cbn; [lia | done | lia]. Qed.
Lemma operands_2 i : n_operands i = 2 → i_operands i = [operand i 0; operand i 1].
Proof. unfold n_operands, zlen, operand. destruct (i_operands i) as [|x [|y [|]]]; cbn; (done || lia). Qed.
Lemma last_operand_2 i : n_operands i = 2 → last_operand i = operand i 1.
Proof. intros H. unfold last_operand. rewrite operands_2 by done. done. Qed.

Lemma legal_elem op : isLegalBinaryOperation op = true → op ∈ legal_operations.
Proof.
  unfold isLegalBinaryOperation. intros (s & Hs & ->%String.eqb_eq)%existsb_exists.
  by apply list_elem_of_In.
Qed.

Lemma binary_typed i : verify_binary v i = Ok tt → i_opcode i = OpBinary → typing_rule f i.
Proof.
  intros H Hop. unfold typing_rule. rewrite Hop. unfold verify_binary in H. split_reject H. facts_of.
  eexists _, _, _, _. split; [by apply operands_2|]. split_and!; try done.
  - by apply legal_elem.
  - intros Hl Hr. unfold is_name in *. apply String.eqb_neq in Hl, Hr.
    match goal with H : (if _ then _ else _) = Ok false |- _ => rewrite Hl, Hr in H; cbn [negb andb] in H end.
    facts_of. done.
Qed.

Lemma load_typed i : verify_load v i = Ok tt → i_opcode i = OpLoadIndirect → typing_rule f i.
Proof.
  intros H Hop. unfold typing_rule. rewrite Hop. unfold verify_load in H.
  apply result_bind_ok in H as ([] & H1 & H2). split_reject H1. split_reject H2. facts_of.
  unfold not_pointer in *. bool_facts. simplify_eq.
  eexists _, _, _. split; [by apply operands_1|]. unfold address_of. split_and!; try done.
  by apply eqb_prop.
Qed.

Lemma store_typed i : verify_store v i = Ok tt → i_opcode i = OpStoreIndirect → typing_rule f i.
Proof.
  intros H Hop. unfold typing_rule. rewrite Hop. unfold verify_store in H.
  apply result_bind_ok in H as ([] & H1 & H). apply result_bind_ok in H as ([] & H2 & H3).
  split_reject H1. split_reject H2. split_reject H3.
  assert (n_operands i = 2) as Hn by (facts_of; done). rewrite last_operand_2 in * by done. facts_of.
  unfold not_pointer in *. bool_facts. simplify_eq.
  eexists _, _, _, _, _. split; [by apply operands_2|]. unfold address_of. split_and!; try done.
  - by apply eqb_prop.
  - intros Hc. rewrite Hc in *. cbn [andb] in *. bool_facts. by apply String.eqb_eq.
Qed.

Lemma has_duplicate_NoDup l : has_duplicate l = false → NoDup l.
Proof.
  induction l as [|x l IH]; intros H; constructor; apply orb_false_iff in H as [Hx Hl]; [|by apply IH].
  intros Hin. apply not_true_iff_false in Hx. apply Hx, existsb_exists. exists x. split; [by apply list_elem_of_In|by apply Z.eqb_refl].
Qed.

Lemma is_name_eq i s : is_name i s = true → i_operation i = s.
Proof. apply String.eqb_eq. Qed.
Lemma is_name_ne i s : is_name i s = false → i_operation i ≠ s.
Proof. apply String.eqb_neq. Qed.
Lemma two_names i s t : negb (is_name i s) && negb (is_name i t) = false → i_operation i = s ∨ i_operation i = t.
Proof. intros [H|H]%andb_false_iff; apply negb_false_iff in H; [left|right]; by apply is_name_eq. Qed.
Lemma operands_0 i : n_operands i = 0 → i_operands i = [].
Proof. unfold n_operands, zlen. by destruct (i_operands i). Qed.
Lemma operands_3 i : n_operands i = 3 → i_operands i = [operand i 0; operand i 1; default InvalidValue (i_operands i !! 2%nat)].
Proof. unfold n_operands, zlen, operand. destruct (i_operands i) as [|x [|y [|z [|]]]]; cbn; (done || lia). Qed.
Lemma no_targets_eq i : no_targets i = true → i_targets i = [].
Proof. apply bool_decide_eq_true. Qed.
Lemma same_enum i t : negb (String.eqb (enum_name (i_type i)) (enum_name t)) = false → enum_name (i_type i) = enum_name t.
Proof. intros H%negb_false_iff. by apply String.eqb_eq. Qed.

Ltac more_checks := repeat match goal with H : or_r _ _ = Ok false |- _ => apply or_r_false in H as [? ?] end.

Lemma origin_defined x j : origin v x = Ok j → defined_by f x j.
Proof.
  unfold origin. intros H. apply result_bind_ok in H as (d & Hd & H). unfold map_at in Hd. cbn [v_defs v] in Hd.
  destruct (definitions p !! x) as [d'|] eqn:E; [|done]. injection Hd as ->.
  destruct (p_definition _ _ _ (fa_pass _ _ _ _ Hf) _ _ E) as (i & Hi & Hp & Hr & _).
  cbn [v_fn v] in H. rewrite Hi in H. injection H as <-. by exists (d_block d), (d_instruction d).
Qed.

Lemma offset_typed i : verify_pointer_offset v i = Ok tt → i_opcode i = OpPointerOffset → typing_rule f i.
Proof.
  intros H Hop. unfold typing_rule. rewrite Hop. unfold verify_pointer_offset in H. cbv zeta in H.
  apply result_bind_ok in H as ([] & H1 & H). apply result_bind_ok in H as ([] & H2 & H3).
  split_reject H1. facts_of. unfold not_pointer in *. bool_facts.
  assert (base (i_type i) ≠ BaseStruct ∨ 1 < pointer_level (i_type i) →
     ∃ tp, pointeeType (i_type i) = Ok tp ∧ i_immediate i = sizeInBytes tp) as Hstride.
  { intros Hcase. assert (negb (bool_decide (base (i_type i) = BaseStruct)) || (1 <? pointer_level (i_type i)) = true) as E.
    { destruct Hcase; [by rewrite bool_decide_false | apply orb_true_iff; right; lia]. }
    rewrite E in H3. split_reject H3. facts_of. eauto. }
  unfold offset_rule. cbv zeta. destruct (is_name i "scaled+" || is_name i "scaled-") eqn:Es.
  - assert (n_operands i =? 3 = true) as E3 by lia. rewrite E3 in H2. split_reject H2. facts_of.
    repeat match goal with H : mbind _ _ = Ok _ |- _ => apply result_bind_ok in H as (? & ? & ?) end. facts_of.
    exists (operand i 0), (operand i 1). eexists _, _. split; [eassumption|]. split; [eassumption|]. split_and!; try done. right.
    split; [apply orb_true_iff in Es as [Es|Es]; apply is_name_eq in Es; auto|]. split_and!; try done.
    eexists _, _. split; [by apply operands_3|]. done.
  - exists (operand i 0), (operand i 1). eexists _, _. split; [eassumption|]. split; [eassumption|]. split_and!; try done. left.
    split; [apply two_names; by destruct (is_name i "+"), (is_name i "-")|by apply operands_2].
Qed.

Lemma compare_typed i : verify_pointer_compare v i = Ok tt → i_opcode i = OpPointerCompare → typing_rule f i.
Proof.
  intros H Hop. unfold typing_rule. rewrite Hop. unfold verify_pointer_compare in H. split_reject H. facts_of.
  repeat match goal with H : mbind _ _ = Ok _ |- _ => apply result_bind_ok in H as (? & ? & ?) end. facts_of.
  unfold not_pointer in *. bool_facts.
  eexists _, _, _, _. split; [by apply operands_2|]. split_and!; try done; [by apply eqb_prop|by apply two_names].
Qed.

Lemma divmod_typed i : verify_divmod v i = Ok tt → i_opcode i = OpDivMod → typing_rule f i.
Proof.
  intros H Hop. unfold typing_rule. rewrite Hop. unfold verify_divmod, enum_differs in H. split_reject H. facts_of.
  eexists _, _, _, _. split; [by apply operands_2|]. split; [by apply no_targets_eq|]. split_and!; try done; try (by apply String.eqb_eq).
  by apply two_names.
Qed.

Lemma divmod_result_typed i : verify_divmod_result v i = Ok tt → i_opcode i = OpDivModResult → typing_rule f i.
Proof.
  intros H Hop. unfold typing_rule. rewrite Hop. unfold verify_divmod_result in H.
  apply result_bind_ok in H as ([] & H1 & H). apply result_bind_ok in H as (j & Hj & H2).
  split_reject H1. split_reject H2. facts_of.
  eexists _, j. split; [by apply operands_1|]. split; [by apply no_targets_eq|]. split; [by apply origin_defined|].
  split_and!; try done; [by apply two_names|by apply String.eqb_neq|by apply String.eqb_eq].
Qed.

Lemma bit_extract_typed i : verify_bit_extract v i = Ok tt → i_opcode i = OpBitExtract → typing_rule f i.
Proof.
  intros H Hop. unfold typing_rule. rewrite Hop. unfold verify_bit_extract in H. split_reject H. facts_of.
  eexists _, _. split; [by apply operands_1|]. split_and!; try done; [by apply is_name_eq|by apply no_targets_eq].
Qed.

Lemma address_typed i : verify_address v i = Ok tt → i_opcode i = OpAddress → typing_rule f i.
Proof.
  intros H Hop. unfold typing_rule, address_rule. rewrite Hop. unfold verify_address in H. cbv zeta in H.
  apply result_bind_ok in H as ([] & H1 & H2). split_reject H1. split_reject H2. facts_of.
  split; [done|].
  destruct (is_name i "") eqn:E0; [left|].
  - cbn [negb andb] in *. bool_facts. split; [by apply is_name_eq|]. split_and!; try done; [by apply String.eqb_neq|].
    intros Hl Hs. cbn [v_fn v] in *. rewrite Hl, Hs in *. cbn [andb] in *. destruct (has_key (f_storage_layout f) _); [by left|right].
    by destruct (has_key (f_immutable_local_arrays f) _).
  - destruct (is_name i "member") eqn:E1; [right; left|].
    + more_checks. facts_of. unfold not_pointer in *. bool_facts. split; [by apply is_name_eq|]. split; [lia|].
      eexists _, _. split; [by apply operands_1|]. done.
    + right; right. destruct (is_name i "temporary") eqn:E2; cbn [negb andb orb] in *; [|done]. bool_facts. cbn [v_fn v] in *.
      split; [by apply is_name_eq|]. split_and!; try done; lia.
Qed.

Lemma initializer_typed i : verify_memory_initialize v i = Ok tt → i_opcode i = OpMemoryInitialize → typing_rule f i.
Proof.
  intros H Hop. unfold typing_rule, initializer_rule. rewrite Hop. unfold verify_memory_initialize in H. cbv zeta in *.
  apply result_bind_ok in H as ([] & H1 & H). apply result_bind_ok in H as (j & Hj & H).
  apply result_bind_ok in H as ([] & H2 & H3). split_reject H1. split_reject H2. facts_of. cbn [v_fn v] in *.
  split; [lia|]. split; [by apply no_targets_eq|]. split_and!; try done; try lia.
  - by apply is_name_eq.
  - rewrite forM_ok in H3. eapply Forall_impl; [exact H3|]. intros x Hx%throw_if_ok. apply orb_false_iff in Hx as [Hx1 Hx2].
    split; intros E; [rewrite E in Hx1|rewrite bool_decide_true in Hx2 by done]; cbn in *; lia.
  - eexists _, j, _. split; [by apply operands_1|]. split; [by apply origin_defined|]. split_and!; try done. by apply is_name_eq.
Qed.

Lemma color_typed i : verify_graphics v i = Ok tt → i_opcode i = OpSetColor → typing_rule f i.
Proof.
  intros H Hop. unfold typing_rule, color_rule. rewrite Hop. unfold verify_graphics in H. rewrite Hop in H.
  apply result_bind_ok in H as ([] & H1 & H). split_reject H1. facts_of. split; [done|]. split; [by apply no_targets_eq|].
  destruct (is_name i "rom.byte") eqn:E.
  - split_reject H. facts_of. unfold is_byte_address in *. rewrite or_r_false in *. destruct_and?. facts_of.
    eexists _, _. split; [by apply operands_1|]. split; [done|]. left. split; [by apply is_name_eq|]. split_and!; try done. eauto.
  - split_reject H. facts_of. eexists _, _. split; [by apply operands_1|]. split; [done|]. right. split; [by apply is_name_eq|done].
Qed.

Lemma graphics_typed i : verify_graphics v i = Ok tt → i_opcode i ≠ OpSetColor →
  i_opcode i ∈ [OpPlot; OpRpix; OpCMode; OpPlotCoordinateRead; OpPlotCoordinateWrite] → typing_rule f i.
Proof.
  intros H Hne Hin. unfold typing_rule, coordinate_rule. unfold verify_graphics in H.
  destruct (i_opcode i) eqn:Hop; try (exfalso; set_solver); rewrite ?Hop in H; cbv zeta in H; try done;
    decides; split_reject H; facts_of.
  - split; [split_and!; try done; [by apply no_targets_eq|by apply is_name_eq|lia]|by apply operands_0].
  - split; [split_and!; try done; [by apply no_targets_eq|by apply is_name_eq|lia]|].
    eexists _, _. split; [by apply operands_1|done].
  - split_and!; try done. by apply no_targets_eq.
  - split_and!; try done. by apply no_targets_eq.
  - split; [done|]. split; [by apply no_targets_eq|]. intros Hp.
    match goal with H : producesValue i && _ = false |- _ => rewrite Hp in H; cbn [andb] in H end. bool_facts. done.
Qed.

Lemma unary_typed i : i_opcode i = OpUnary ∨ i_opcode i = OpCast →
  reject i (or_r (Ok (negb (n_operands i =? 1))) (ty_test v i (operand i 0) isVoidType))
    "IR verifier: unary/cast instruction has an invalid operand." = Ok tt → typing_rule f i.
Proof.
  intros Hop H. split_reject H. facts_of. unfold typing_rule.
  destruct Hop as [-> | ->]; (eexists _, _; split; [by apply operands_1|done]).
Qed.

Lemma call_typed i : verify_call v i = Ok tt → i_opcode i = OpCall → typing_rule f i.
Proof.
  intros H Hop. unfold typing_rule. rewrite Hop. unfold verify_call in H.
  apply result_bind_ok in H as ([] & H1 & H2). split_reject H1. facts_of. split; [by apply String.eqb_neq|].
  rewrite forM_ok, Forall_forall in H2. intros x Hx. specialize (H2 x Hx). split_reject H2. facts_of. eauto.
Qed.

(** The number of targets the first pass demands. *)
Lemma shape_of b k i : instr_at f b k = Some i → ∃ s s', verify_shape b i s = Ok s'.
Proof. intros Hi. apply (p_checked _ _ _ (fa_pass _ _ _ _ Hf) _ _ _ I Hi). Qed.

(** Constants and phis are checked in the first pass and with the edges. *)
Lemma constant_typed b k i : instr_at f b k = Some i → i_opcode i = OpConstant → typing_rule f i.
Proof.
  intros Hi Hop. unfold typing_rule. rewrite Hop.
  pose proof (p_checked _ _ _ (fa_pass _ _ _ _ Hf) _ _ _ I Hi) as [(blk & _ & Hm & _) Hc _ _ _ _]. split.
  - intros Hn. unfold verify_metadata in Hm. rewrite Hop, Hn in Hm. decides. cbn in Hm. inv_result. bool_facts. done.
  - intros Hn Hp. unfold verify_pointer_constant in Hc. rewrite Hop, (proj2 (Z.ltb_lt _ _) Hp), (proj2 (String.eqb_neq _ _) Hn) in Hc.
    decides. cbn [andb negb] in Hc. destruct (check_pointer_constant i) as [[]|] eqn:E; [|done]. unfold check_pointer_constant in E.
    apply result_bind_ok in E as ([] & Hr%throw_if_ok & E). apply result_bind_ok in E as (element & He & E).
    exists element. apply orb_false_iff in Hr as [H1 H2]. bool_facts. done.
Qed.
Lemma phi_typed b k i : instr_at f b k = Some i → i_opcode i = OpPhi → typing_rule f i.
Proof.
  intros Hi Hop. unfold typing_rule, phi_rule. rewrite Hop.
  pose proof (p_checked _ _ _ (fa_pass _ _ _ _ Hf) _ _ _ I Hi) as [(blk & _ & Hm & _) _ _ _ _ _].
  destruct (phi_incoming _ _ _ _ Hf b k i Hi Hop) as (Hlen & _).
  assert (i_operands i ≠ [] ∧ array_size (i_type i) = 0 ∧ i_operation i = ""%string ∧
    (isIntegerType (i_type i) = true ∨ 0 < pointer_level (i_type i) ∧ isFarPointer (i_type i) = false)) as (H1 & H2 & H3 & H4).
  { unfold verify_metadata in Hm. rewrite Hop in Hm. decides. inv_result. bool_facts. split_and!; try done; [by apply String.eqb_eq|].
    match goal with H : negb _ && negb _ = false |- _ => apply andb_false_iff in H as [H|H] end; bool_facts; auto. }
  split; [done|]. split; [by unfold zlen; rewrite Hlen|]. do 3 (split; [done|]). intros x Hx.
  apply list_elem_of_lookup in Hx as [j Hj]. destruct (lookup_lt_is_Some_2 (i_targets i) j) as [t Ht].
  { rewrite <- Hlen. by eapply lookup_lt_Some. }
  pose proof (fa_second _ _ _ _ Hf _ _ _ Hi) as H. unfold pass2_instruction in H. rewrite bool_decide_true in H by done.
  apply result_bind_ok in H as ([] & Hphi & _). unfold verify_phi in Hphi. apply result_bind_ok in Hphi as (inc & Hinc & _).
  destruct (foldM_each _ _ _ _ Hinc (x, t)) as (l & l' & Hl); [apply list_elem_of_lookup; exists j; by apply lookup_zip_Some|].
  unfold verify_incoming in Hl. apply result_bind_ok in Hl as (d & _ & Hl). apply result_bind_ok in Hl as ([] & Hl & _).
  apply throw_when_ok, or_r_false in Hl as [_ [H5 H6]%or_r_false].
  apply result_bind_ok in H5 as (u & Hu & H5%not_r_false), H6 as (u' & Hu' & [= H6]). assert (u' = u) as -> by congruence.
  exists u. split; [by eapply definitionType_value|]. split; [done|]. apply String.eqb_eq. by bool_facts.
Qed.

Lemma typing_ok b k i : instr_at f b k = Some i → verify_typing v i = Ok tt → typing_rule f i.
Proof.
  intros Hi H. destruct (shape_of _ _ _ Hi) as (s & s' & Hs). unfold verify_typing in H.
  destruct (i_opcode i) eqn:Hop; try (unfold typing_rule; by rewrite Hop);
    try (by apply graphics_typed; [|rewrite Hop|rewrite Hop; set_solver]).
  - by eapply phi_typed.
  - by eapply constant_typed.
  - by apply address_typed.
  - by apply offset_typed.
  - by apply compare_typed.
  - by apply load_typed.
  - by apply store_typed.
  - by apply initializer_typed.
  - by apply binary_typed.
  - by apply divmod_typed.
  - by apply divmod_result_typed.
  - by apply bit_extract_typed.
  - apply unary_typed; auto.
  - apply unary_typed; auto.
  - by apply call_typed.
  - by apply color_typed.
  - split_reject H. facts_of. unfold typing_rule. rewrite Hop. split; [done|by apply no_targets_eq].
  - split_reject H. facts_of. unfold typing_rule. rewrite Hop. unfold verify_shape in Hs. rewrite Hop in Hs.
    inv_result. bool_facts. eexists. split; [by apply operands_1|]. eexists. eauto.
  - unfold typing_rule. rewrite Hop. unfold verify_shape in Hs. rewrite Hop in Hs. inv_result. bool_facts. by apply operands_0.
  - unfold typing_rule. rewrite Hop. unfold verify_shape in Hs. rewrite Hop in Hs. inv_result. bool_facts. by apply operands_0.
  - unfold typing_rule. rewrite Hop. unfold verify_shape in Hs. rewrite Hop in Hs. inv_result. bool_facts.
    split; [by apply operands_0|]. destruct (i_targets i) as [|t [|]]; unfold zlen in *; cbn in *; try lia. eauto.
  - split_reject H. facts_of. unfold typing_rule. rewrite Hop.
    destruct (i_targets i) as [|s1 [|s2 [|]]] eqn:Et; unfold zlen in *; cbn in *; try lia.
    eexists _, _, _. split; [by apply operands_1|]. split; [done|]. eexists. eauto.
  - split_reject H. facts_of. unfold typing_rule. rewrite Hop. unfold verify_shape in Hs. rewrite Hop in Hs. inv_result. bool_facts.
    eexists. split; [by apply operands_1|]. split; [eexists; eauto|]. split; [by destruct (i_targets i)|]. split; [done|].
    by apply has_duplicate_NoDup.
  - split_reject H. facts_of. unfold typing_rule. rewrite Hop. unfold verify_shape in Hs. rewrite Hop in Hs.
    inv_result. bool_facts. eexists _, _. split; [by apply operands_1|]. split_and!; done.
  - split_reject H. facts_of. unfold typing_rule. rewrite Hop. unfold verify_shape in Hs. rewrite Hop in Hs.
    inv_result. bool_facts. split; [done|by apply operands_0].
  - unfold typing_rule. rewrite Hop. unfold verify_shape in Hs. rewrite Hop in Hs. inv_result. bool_facts.
    split; [by apply operands_0|]. by destruct (i_targets i).
Qed.

Lemma split_ok i : verify_live_range_split v i = Ok tt → i_is_live_range_split i = true → split_rule f i.
Proof.
  intros H Hs. unfold verify_live_range_split, enum_differs in H. rewrite Hs in H. cbn [negb] in H. split_reject H. facts_of.
  split; [done|]. split; [by apply is_name_eq|]. do 2 (split; [done|]).
  eexists _, _. split; [by apply operands_1|]. split; [done|]. split; [done|by apply String.eqb_eq].
Qed.
End typing.


(* ------------------------------------------------------------------ *)
(** ** The property *)

(** C4. Every instruction of a verified function is well typed: it obeys the rule of
    its opcode, whichever that is, a live-range split copies a value of its own type,
    and only memory accesses are volatile and only initializers carry values.  [Load],
    [Store], [PlotBegin] and [PlotEnd] have no rule. *)
Theorem verified_well_typed (f : IRFunction) (b k : nat) (i : IRInstruction) :
  verifyFunction f = Ok tt → instr_at f b k = Some i → well_typed f i.
Proof.
  intros (p & reach & doms & Hf)%verified_facts Hi.
  pose proof (fa_second _ _ _ _ Hf _ _ _ Hi) as H. unfold pass2_instruction in H.
  apply result_bind_ok in H as ([] & _ & H). apply result_bind_ok in H as ([] & _ & H).
  apply result_bind_ok in H as ([] & Hs & H).
  split; [by apply (typing_ok _ _ _ _ Hf b k)|]. split; [by apply (split_ok _ _ _ _ Hf)|].
  pose proof (p_checked _ _ _ (fa_pass _ _ _ _ Hf) _ _ _ I Hi) as [(blk & _ & Hm & _) _ _ _ _ _].
  unfold verify_metadata in Hm. split.
  - intros Hv. rewrite Hv in Hm. inv_result. bool_facts. destruct (i_opcode i); try done; auto.
  - intros Hv. rewrite (bool_decide_false _ Hv) in Hm. cbn [negb andb] in Hm. inv_result. bool_facts. done.
Qed.

Lemma verified_well_typed_witness :
  well_typed sample (plain_instr OpBinary boolean 4 [3; 2] [] "<" 0 0).
Proof.
  apply (verified_well_typed sample 1 1); vm_compute; reflexivity.
Defined.
