(* ===== verification/ControlFlow.v ===== *)
(** * ControlFlow: the control-flow analysis of the optimizer

    Models [IRControlFlow.hpp] and the constructor and [dominates] of
    [IRControlFlow.cpp]: edges, reachability, dominators, immediate dominators,
    dominance frontiers, natural loops and liveness.  Blocks are indices
    ([nat]), values their numbers, sets of values [gset Z]. *)

From S2P Require Import Prelude Target Types Token IR Graph.

Definition limit (condition : bool) : result unit :=
  throw_if condition (CompileError "O2 analysis resource limit exceeded (CFG/liveness)." 1 1).

(** [add(values, value)]: append unless present. *)
Definition add (values : list nat) (value : nat) : list nat :=
  if bool_decide (value ∈ values) then values else values ++ [value].

(** [v.at(i) = f(v.at(i))] *)
Definition update_at {A} (l : list A) (i : Z) (f : A → A) : result (list A) :=
  x ← at_ l i; set_at l i (f x).

Record Loop := mkLoop { header : nat; blocks : gset nat; latches : gset nat }.

Record IRControlFlow := mkCFG {
  successors : list (list nat);
  predecessors : list (list nat);
  children : list (list nat);
  frontier : list (list nat);
  reach : list bool;                          (* reachable *)
  immediate_dominator : list (option nat);    (* None is Invalid *)
  loops : list Loop;
  loop_depth : list nat;
  live_in : list (gset Z);
  live_out : list (gset Z);
  m_dominators : list bits
}.

(** ** Edges *)

Definition add_edge (n : nat) (from : Z) (source : Token) (g : list (list nat) * list (list nat))
    (target : IRBlockId) : result (list (list nat) * list (list nat)) :=
  throw_if (negb (block_isValid target) || (Z.of_nat n <=? target)) (error_at "O2 CFG: invalid edge." source);;
  succ ← update_at g.1 from (λ l, add l (Z.to_nat target));
  pred ← update_at g.2 target (λ l, add l (Z.to_nat from));
  Ok (succ, pred).

Definition instruction_edges (n : nat) (b : IRBasicBlock) (g : list (list nat) * list (list nat))
    (i : IRInstruction) : result (list (list nat) * list (list nat)) :=
  throw_if ((is_op (i_opcode i) OpHardwareLoop || is_op (i_opcode i) OpHardwareLoopEnd)
            && bool_decide (i_targets i = []))
    (error_at "O2 CFG requires exposed hardware-loop backedges." (i_source i));;
  if is_op (i_opcode i) OpPhi then Ok g
  else foldM (add_edge n (b_id b) (i_source i)) g (i_targets i).

Definition edges (f : IRFunction) : result (list (list nat) * list (list nat)) :=
  let n := length (f_blocks f) in
  foldM (λ g b, foldM (instruction_edges n b) g (b_instructions b))
    (replicate n [], replicate n []) (f_blocks f).

(** ** Reachability: a stack of blocks to visit *)

Fixpoint dfs (succ : list (list nat)) (fuel : nat) (r : list bool) (work : list nat) : list bool :=
  match work, fuel with
  | b :: work, S fuel =>
      if is_reachable r b then dfs succ fuel r work
      else dfs succ fuel (<[b:=true]> r) (rev (adjacent succ b) ++ work)
  | _, _ => r
  end.

(** Every block is expanded once, so the stack takes at most one entry per
    edge besides the entry. *)
Definition edge_count (succ : list (list nat)) : nat := sum_list_with length succ.
Definition find_reachable (n : nat) (succ : list (list nat)) (entry : nat) : list bool :=
  dfs succ (S (edge_count succ)) (replicate n false) [entry].

(** ** Dominators *)

(** The intersection starts from all reachable blocks. *)
Definition intersect_all (all : bits) (sets : list bits) : bits := foldl and_bits all sets.

(** [while (changed) { limit(++rounds > n + 1); ... }] *)
Definition find_dominators (n : nat) (r : list bool) (pred : list (list nat)) (entry : nat)
    : result (list bits) :=
  match dominator_loop (intersect_all (all_reachable n r)) n r pred entry (n + 1)
          (initial_dominators n r entry) with
  | Some doms => Ok doms
  | None => Err (CompileError "O2 analysis resource limit exceeded (CFG/liveness)." 1 1)
  end.

(** [dominates(d, b)] *)
Definition dominates_ (r : list bool) (doms : list bits) (d b : nat) : bool :=
  is_reachable r b && has_bit (doms_of doms b) d.

(** [while (bits) { bits &= bits - 1; ++rank; }] *)
Fixpoint count_bits (fuel : nat) (w : Z) : nat :=
  match fuel with
  | O => O
  | S fuel => if w =? 0 then O else S (count_bits fuel (Z.land w (w - 1)))
  end.
Definition rank (doms : list bits) (b : nat) : nat := sum_list_with (count_bits 64) (doms_of doms b).

(** The strict dominator of greatest rank. *)
Definition nearest (n : nat) (r : list bool) (doms : list bits) (entry b : nat) : nat :=
  foldl (λ parent d, if negb (Nat.eqb d b) && dominates_ r doms d b && Nat.ltb (rank doms parent) (rank doms d)
                     then d else parent) entry (seq 0 n).

Definition find_idoms (n : nat) (r : list bool) (doms : list bits) (entry : nat) : list (option nat) :=
  (λ b, if negb (is_reachable r b) || Nat.eqb b entry then None else Some (nearest n r doms entry b))
    <$> seq 0 n.

Definition idom_of (idoms : list (option nat)) (b : nat) : option nat := default None (idoms !! b).

Definition find_children (n : nat) (idoms : list (option nat)) : list (list nat) :=
  (λ p, List.filter (λ b, bool_decide (idom_of idoms b = Some p)) (seq 0 n)) <$> seq 0 n.

(** ** Dominance frontiers *)

(** From a predecessor up the dominator tree to the block's own dominator. *)
Fixpoint climb (idoms : list (option nat)) (b : nat) (fuel : nat) (fr : list (list nat)) (runner : option nat)
    : list (list nat) :=
  match fuel, runner with
  | S fuel, Some x =>
      if bool_decide (Some x = idom_of idoms b) then fr
      else climb idoms b fuel (alter (λ l, add l b) x fr) (idom_of idoms x)
  | _, _ => fr
  end.

Definition find_frontier (n : nat) (r : list bool) (pred : list (list nat)) (idoms : list (option nat))
    : list (list nat) :=
  foldl (λ fr b,
    if is_reachable r b && Nat.ltb 1 (length (adjacent pred b))
    then foldl (λ fr p, if is_reachable r p then climb idoms b (S n) fr (Some p) else fr) fr (adjacent pred b)
    else fr) (replicate n []) (seq 0 n).

(** ** Natural loops *)

(** The blocks that reach a latch without passing the header. *)
Fixpoint flood (r : list bool) (pred : list (list nat)) (h : nat) (fuel : nat) (bs : gset nat) (work : list nat)
    : gset nat :=
  match work, fuel with
  | current :: work, S fuel =>
      if bool_decide (current ∈ bs) || Nat.eqb current h then flood r pred h fuel ({[current]} ∪ bs) work
      else flood r pred h fuel ({[current]} ∪ bs)
             (rev (List.filter (is_reachable r) (adjacent pred current)) ++ work)
  | _, _ => bs
  end.

Definition add_latch (r : list bool) (pred : list (list nat)) (b : nat) (natural : gmap nat Loop) (h : nat)
    : gmap nat Loop :=
  let loop := default (mkLoop h {[h]} ∅) (natural !! h) in
  <[h := mkLoop h (flood r pred h (S (edge_count pred)) (blocks loop) [b]) ({[b]} ∪ latches loop)]> natural.

Definition find_loops (n : nat) (r : list bool) (doms : list bits) (succ pred : list (list nat))
    : gmap nat Loop :=
  foldl (λ natural b,
    if is_reachable r b
    then foldl (λ natural h, if dominates_ r doms h b then add_latch r pred b natural h else natural)
           natural (adjacent succ b)
    else natural) ∅ (seq 0 n).

(** The map's loops in the order of their headers. *)
Definition loop_list (n : nat) (natural : gmap nat Loop) : list Loop := omap (λ h, natural !! h) (seq 0 n).

Definition depth_of (l : list Loop) (b : nat) : nat :=
  length (List.filter (λ loop, bool_decide (b ∈ blocks loop)) l).

(** ** Liveness *)

(** Upward-exposed uses, definitions, and definitions by phis, of a block. *)
Record BlockSets := mkSets { uses : gset Z; defs : gset Z; phi_defs : gset Z }.

Definition block_step (s : BlockSets) (i : IRInstruction) : BlockSets :=
  let phi := is_op (i_opcode i) OpPhi in
  let result := if value_isValid (i_result i) then {[ i_result i ]} else ∅ in
  mkSets (if phi then uses s else uses s ∪ (list_to_set (i_operands i) ∖ defs s))
    (defs s ∪ result) (if phi then phi_defs s ∪ result else phi_defs s).

(** The phis that head a block. *)
Fixpoint leading_phis (l : list IRInstruction) : list IRInstruction :=
  match l with
  | i :: l => if is_op (i_opcode i) OpPhi then i :: leading_phis l else []
  | [] => []
  end.

(** The operands the phis of a successor take on the edge from [b]. *)
Definition phi_uses (b : nat) (i : IRInstruction) (out : gset Z) : result (gset Z) :=
  foldM (λ out et, let '(edge, target) := et in
    if target =? Z.of_nat b then v ← at_ (i_operands i) (Z.of_nat edge); Ok (out ∪ {[ v ]})
    else Ok out) out (indexed (i_targets i)).

Section Liveness.
Context (f : IRFunction) (r : list bool) (succ : list (list nat)).

Definition set_of (l : list (gset Z)) (b : nat) : gset Z := default ∅ (l !! b).
(** The tables are indexed by block id. *)
Definition sets_of (b : nat) : BlockSets :=
  foldl (λ s block, if b_id block =? Z.of_nat b then foldl block_step s (b_instructions block) else s)
    (mkSets ∅ ∅ ∅) (f_blocks f).
Definition phis_of (b : nat) : list IRInstruction :=
  match f_blocks f !! b with Some block => leading_phis (b_instructions block) | None => [] end.

(** [out] of a block from its successors. *)
Definition flow_out (ins : list (gset Z)) (b : nat) : result (gset Z) :=
  foldM (λ out s, foldM (λ out i, phi_uses b i out)
      (out ∪ (set_of ins s ∖ phi_defs (sets_of s))) (phis_of s)) ∅ (adjacent succ b).

Definition flow_in (out : gset Z) (b : nat) : gset Z := uses (sets_of b) ∪ (out ∖ defs (sets_of b)).

Record Flow := mkFlow { fl_in : list (gset Z); fl_out : list (gset Z); fl_changed : bool; fl_entries : Z }.

Definition flow_block (s : Flow) (b : nat) : result Flow :=
  if negb (is_reachable r b) then Ok s else
  out ← flow_out (fl_in s) b;
  let inn := flow_in out b in
  let same := bool_decide (inn = set_of (fl_in s) b) && bool_decide (out = set_of (fl_out s) b) in
  let s := if same then s else mkFlow (<[b:=inn]> (fl_in s)) (<[b:=out]> (fl_out s)) true (fl_entries s) in
  let entries := fl_entries s + Z.of_nat (size (set_of (fl_in s) b)) + Z.of_nat (size (set_of (fl_out s) b)) in
  limit (1000000 <? entries);;
  Ok (mkFlow (fl_in s) (fl_out s) (fl_changed s) entries).

(** One round, from the last block to the first. *)
Definition flow_round (n : nat) (ins outs : list (gset Z)) : result Flow :=
  foldM flow_block (mkFlow ins outs false 0) (rev (seq 0 n)).

(** [while (changed) { limit(++rounds > n + 2); ... }] *)
Fixpoint flow_loop (n : nat) (fuel : nat) (ins outs : list (gset Z))
    : result (list (gset Z) * list (gset Z)) :=
  match fuel with
  | O => limit true;; Ok (ins, outs)
  | S fuel =>
      s ← flow_round n ins outs;
      if fl_changed s then flow_loop n fuel (fl_in s) (fl_out s) else Ok (fl_in s, fl_out s)
  end.
End Liveness.

(** ** The constructor *)

Definition analyze (f : IRFunction) : result IRControlFlow :=
  let n := length (f_blocks f) in
  limit (Nat.eqb n 0 || (8192 <? Z.of_nat n) || (100000 <? f_value_count f));;
  '(succ, pred) ← edges f;
  _ ← at_ (replicate n false) (f_entry f);
  let entry := Z.to_nat (f_entry f) in
  let r := find_reachable n succ entry in
  doms ← find_dominators n r pred entry;
  let idoms := find_idoms n r doms entry in
  let natural := loop_list n (find_loops n r doms succ pred) in
  '(ins, outs) ← flow_loop f r succ n (n + 2) (replicate n ∅) (replicate n ∅);
  Ok (mkCFG succ pred (find_children n idoms) (find_frontier n r pred idoms) r idoms natural
        (depth_of natural <$> seq 0 n) ins outs doms).
