(* ===== verification/FlowSound.v ===== *)
(** * FlowSound: correctness of the control-flow analysis

    For a function whose block ids are its block indices: the edges are those
    of the terminators, the dominator sets are exactly the dominance relation
    (found within the round limit), the immediate dominators are the nearest
    strict dominators, and the frontiers are those of the graph. *)

From S2P Require Import Prelude Target Types Token IR Graph ControlFlow.

(** The id of a block is its index, as the IR verifier checks. *)
Definition ids_ok (f : IRFunction) : Prop := ∀ k b, f_blocks f !! k = Some b → b_id b = Z.of_nat k.

(* ------------------------------------------------------------------ *)
(** ** Edges *)

Lemma update_at_ok {A} (l l' : list A) i f :
  update_at l i f = Ok l' → 0 ≤ i < zlen l ∧ l' = alter f (Z.to_nat i) l.
Proof.
  unfold update_at. intros (x & Hx & [Hi ->]%set_at_ok)%result_bind_ok. split; [done|].
  apply at_ok in Hx as [_ Hx]. apply list_eq. intros j. destruct (decide (j = Z.to_nat i)) as [->|].
  - rewrite list_lookup_insert_eq by (apply lookup_lt_Some in Hx; lia).
    by rewrite list_lookup_alter_eq, Hx.
  - by rewrite list_lookup_insert_ne, list_lookup_alter_ne.
Qed.

Lemma elem_of_add l x y : y ∈ add l x ↔ y ∈ l ∨ y = x.
Proof.
  unfold add. case_bool_decide; [set_solver|]. rewrite elem_of_app, list_elem_of_singleton. done.
Qed.

Lemma adjacent_alter_add g i x b y : (i < length g)%nat →
  y ∈ adjacent (alter (λ l, add l x) i g) b ↔ y ∈ adjacent g b ∨ (b = i ∧ y = x).
Proof.
  intros Hi. unfold adjacent. destruct (decide (b = i)) as [->|Hne].
  - destruct (lookup_lt_is_Some_2 g i Hi) as [l Hl]. rewrite list_lookup_alter_eq, Hl. cbn.
    rewrite elem_of_add. naive_solver.
  - rewrite list_lookup_alter_ne by done. naive_solver.
Qed.

(** The graph has exactly the given edges. *)
Record edges_are (n : nat) (g : list (list nat) * list (list nat)) (E : list (nat * nat)) : Prop := {
  ea_succ_length : length g.1 = n;
  ea_pred_length : length g.2 = n;
  ea_range b s : (b, s) ∈ E → (b < n)%nat ∧ (s < n)%nat;
  ea_succ b s : s ∈ adjacent g.1 b ↔ (b, s) ∈ E;
  ea_pred b p : p ∈ adjacent g.2 b ↔ (p, b) ∈ E
}.

Lemma edges_are_empty n : edges_are n (replicate n [], replicate n []) [].
Proof.
  assert (∀ b x, x ∈ adjacent (replicate n ([] : list nat)) b ↔ False) as He.
  { intros b x. unfold adjacent. destruct (replicate n [] !! b) as [l|] eqn:E; cbn.
    - apply lookup_replicate in E as [-> _]. apply elem_of_nil.
    - apply elem_of_nil. }
  split; cbn [fst snd]; try apply length_replicate; intros b x; rewrite ?He, ?elem_of_nil; naive_solver.
Qed.

Lemma add_edge_are n from source g g' target E :
  edges_are n g E → add_edge n from source g target = Ok g' →
  edges_are n g' (E ++ [(Z.to_nat from, Z.to_nat target)]).
Proof.
  intros [H1 H2 Hr Hs Hp] H. unfold add_edge in H. apply result_bind_ok in H as ([] & Ht%throw_if_ok & H).
  apply result_bind_ok in H as (s & Hs' & H). apply result_bind_ok in H as (p & Hp' & [= <-]).
  apply update_at_ok in Hs' as [Hf ->], Hp' as [Hg ->]. unfold zlen in Hf, Hg. bool_facts.
  split; cbn [fst snd].
  - by rewrite length_alter.
  - by rewrite length_alter.
  - intros b x. rewrite elem_of_app, list_elem_of_singleton. intros [?|[= -> ->]]; [eauto | lia].
  - intros b x. rewrite adjacent_alter_add, elem_of_app, list_elem_of_singleton, Hs by lia.
    split; (intros [?|?]; [by left|right]; naive_solver congruence).
  - intros b x. rewrite adjacent_alter_add, elem_of_app, list_elem_of_singleton, Hp by lia.
    split; (intros [?|?]; [by left|right]; naive_solver congruence).
Qed.

(** The edges of a function: the targets of its instructions other than phis. *)
Definition instruction_targets (i : IRInstruction) : list nat :=
  if is_op (i_opcode i) OpPhi then [] else Z.to_nat <$> i_targets i.
Definition block_targets (b : IRBasicBlock) : list nat := b_instructions b ≫= instruction_targets.
Definition function_edges (bs : list IRBasicBlock) (k : nat) : list (nat * nat) :=
  mjoin (imap (λ j b, pair (k + j)%nat <$> block_targets b) bs).

Lemma targets_are n k source g g' E ts :
  edges_are n g E → foldM (add_edge n (Z.of_nat k) source) g ts = Ok g' →
  edges_are n g' (E ++ (pair k <$> (Z.to_nat <$> ts))).
Proof.
  revert g E. induction ts as [|t ts IH]; intros g E HE H; cbn [foldM] in H.
  - injection H as <-. by rewrite app_nil_r.
  - apply result_bind_ok in H as (g1 & H1 & H2). apply (add_edge_are _ _ _ _ _ _ _ HE) in H1.
    apply (IH _ _ H1) in H2. rewrite Nat2Z.id in H2. rewrite <- app_assoc in H2. exact H2.
Qed.

Lemma block_are n k b g g' E :
  b_id b = Z.of_nat k → edges_are n g E →
  foldM (instruction_edges n b) g (b_instructions b) = Ok g' →
  edges_are n g' (E ++ (pair k <$> block_targets b)).
Proof.
  intros Hid. unfold block_targets. revert g E. induction (b_instructions b) as [|i is_ IH]; intros g E HE H; cbn [foldM] in H.
  - injection H as <-. by rewrite app_nil_r.
  - apply result_bind_ok in H as (g1 & H1 & H2). unfold instruction_edges in H1. rewrite Hid in H1.
    apply result_bind_ok in H1 as ([] & _ & H1). cbn [mbind list_bind].
    rewrite fmap_app, app_assoc. apply IH with g1; [|done]. unfold instruction_targets.
    destruct (is_op (i_opcode i) OpPhi); [injection H1 as <-; by rewrite app_nil_r|].
    by eapply targets_are.
Qed.

Lemma blocks_are n k bs g g' E :
  (∀ j b, bs !! j = Some b → b_id b = Z.of_nat (k + j)) → edges_are n g E →
  foldM (λ g b, foldM (instruction_edges n b) g (b_instructions b)) g bs = Ok g' →
  edges_are n g' (E ++ function_edges bs k).
Proof.
  revert k g E. induction bs as [|b bs IH]; intros k g E Hid HE H; cbn [foldM] in H.
  - injection H as <-. by rewrite app_nil_r.
  - apply result_bind_ok in H as (g1 & H1 & H2).
    pose proof (Hid 0%nat b eq_refl) as Hb. rewrite Nat.add_0_r in Hb.
    apply (block_are n k _ _ _ _ Hb HE) in H1.
    assert (∀ j x, bs !! j = Some x → b_id x = Z.of_nat (S k + j)) as Hid'.
    { intros j x Hx. rewrite (Hid (S j) x Hx). f_equal. lia. }
    pose proof (IH (S k) _ _ Hid' H1 H2) as HE'. unfold function_edges in *.
    cbn [imap mjoin list_join foldr]. rewrite Nat.add_0_r, app_assoc.
    erewrite imap_ext; [exact HE'|]. intros j x _. cbn.
    by replace (k + S j)%nat with (S k + j)%nat by lia.
Qed.

Lemma edges_correct f g : ids_ok f → edges f = Ok g →
  edges_are (length (f_blocks f)) g (function_edges (f_blocks f) 0).
Proof. intros Hid H. by apply (blocks_are _ 0 _ _ _ [] Hid (edges_are_empty _)) in H. Qed.

(** An edge of the function, read off its blocks. *)
Lemma elem_of_function_edges bs b s :
  (b, s) ∈ function_edges bs 0 ↔ ∃ block i, bs !! b = Some block ∧ i ∈ b_instructions block
    ∧ i_opcode i ≠ OpPhi ∧ ∃ t, t ∈ i_targets i ∧ s = Z.to_nat t.
Proof.
  unfold function_edges. rewrite list_elem_of_join. split.
  - intros (l & Hin & Hl). apply list_elem_of_lookup in Hl as [j Hj].
    rewrite list_lookup_imap in Hj. apply fmap_Some in Hj as (block & Hb & ->).
    apply list_elem_of_fmap in Hin as (s' & [= -> ->] & Hs). unfold block_targets in Hs.
    apply list_elem_of_bind in Hs as (i & Hs & Hi). exists block, i. split; [done|]. split; [done|].
    unfold instruction_targets in Hs. case_bool_decide; [by apply elem_of_nil in Hs|]. split; [done|].
    apply list_elem_of_fmap in Hs as (t & -> & Ht). eauto.
  - intros (block & i & Hb & Hi & Hn & t & Ht & ->). exists (pair b <$> block_targets block). split.
    + apply list_elem_of_fmap. eexists. split; [done|]. apply list_elem_of_bind. exists i. split; [|done].
      unfold instruction_targets. rewrite bool_decide_false by done. apply list_elem_of_fmap. eauto.
    + apply list_elem_of_lookup. exists b. rewrite list_lookup_imap, Hb. done.
Qed.

Lemma graph_ok_of n g E entry : edges_are n g E → (entry < n)%nat → graph_ok n g.1 g.2 entry.
Proof.
  intros [H1 H2 Hr Hs Hp] He. split; [done| |].
  - intros b s Hin. apply Hs, Hr in Hin. lia.
  - intros b p. by rewrite Hs, Hp.
Qed.

(* ------------------------------------------------------------------ *)
(** ** Reachability *)

(** A sum over the elements not yet marked, when one more is marked. *)
Lemma sum_hide (P Q : nat → bool) (g : nat → nat) l b :
  NoDup l → b ∈ l → P b = false → Q b = true → (∀ x, x ≠ b → Q x = P x) →
  (sum_list_with (λ x, if Q x then O else g x) l + g b = sum_list_with (λ x, if P x then O else g x) l)%nat.
Proof.
  intros Hn Hin HP HQ Hother. induction l as [|x l IH]; [by apply elem_of_nil in Hin|].
  apply NoDup_cons in Hn as [Hx Hn]. cbn [sum_list_with]. destruct (decide (x = b)) as [->|Hne].
  - rewrite HP, HQ. assert (∀ k, b ∉ k →
      sum_list_with (λ x, if Q x then O else g x) k = sum_list_with (λ x, if P x then O else g x) k) as E.
    { induction k as [|y k IHk]; intros Hk; [done|]. apply not_elem_of_cons in Hk as [Hk1 Hk2].
      cbn [sum_list_with]. by rewrite Hother, IHk. }
    rewrite (E l Hx). lia.
  - rewrite Hother by done. apply elem_of_cons in Hin as [|Hin]; [done|]. specialize (IH Hn Hin). lia.
Qed.

Lemma sum_adjacent g : sum_list_with (λ b, length (adjacent g b)) (seq 0 (length g)) = edge_count g.
Proof.
  unfold edge_count. induction g as [|l s IH]; [done|].
  cbn [length sum_list_with]. rewrite <- cons_seq. cbn [sum_list_with]. f_equal. rewrite <- IH, <- fmap_S_seq.
  generalize (seq 0 (length s)) as k. intros k. induction k as [|x k IHk]; [done|].
  rewrite fmap_cons. cbn [sum_list_with]. by rewrite IHk.
Qed.

Section Reach.
Context (n : nat) (succ : list (list nat)) (entry : nat).
Hypothesis Hentry : (entry < n)%nat.
Hypothesis Hlen : length succ = n.
Hypothesis Hsucc : ∀ b s, s ∈ adjacent succ b → (s < n)%nat.

(** Edges that leave blocks not yet marked. *)
Definition edges_left (r : list bool) : nat :=
  sum_list_with (λ b, if is_reachable r b then O else length (adjacent succ b)) (seq 0 n).

Record dfs_inv (fuel : nat) (r : list bool) (work : list nat) : Prop := {
  di_length : length r = n;
  di_sound b : is_reachable r b → reachable succ entry b;
  di_work b : b ∈ work → reachable succ entry b ∧ (b < n)%nat;
  di_closed b s : is_reachable r b → s ∈ adjacent succ b → is_reachable r s ∨ s ∈ work;
  di_entry : is_reachable r entry ∨ entry ∈ work;
  di_fuel : (edges_left r + length work ≤ fuel)%nat
}.

Lemma sum_mark b (g : nat → nat) r : (b < n)%nat → (b < length r)%nat → is_reachable r b = false →
  (sum_list_with (λ x, if is_reachable (<[b:=true]> r) x then O else g x) (seq 0 n) + g b
   = sum_list_with (λ x, if is_reachable r x then O else g x) (seq 0 n))%nat.
Proof.
  intros Hb Hlt Hr. apply sum_hide; try done.
  - apply NoDup_seq.
  - apply elem_of_seq. lia.
  - unfold is_reachable. by rewrite list_lookup_insert_eq.
  - intros x Hx. unfold is_reachable. by rewrite list_lookup_insert_ne.
Qed.

Lemma dfs_correct fuel r work : dfs_inv fuel r work →
  length (dfs succ fuel r work) = n ∧ ∀ b, is_reachable (dfs succ fuel r work) b ↔ reachable succ entry b.
Proof.
  revert r work. induction fuel as [|fuel IH]; intros r work [Hl Hs Hw Hc He Hf].
  - destruct work; [|cbn in Hf; lia]. cbn [dfs]. split; [done|]. intros b. split; [apply Hs|].
    intros [l Hwalk]. induction Hwalk as [|l b s Hwalk IHw Hin].
    + destruct He as [?|?%elem_of_nil]; done.
    + destruct (Hc b s IHw Hin) as [?|?%elem_of_nil]; done.
  - destruct work as [|b work]; cbn [dfs].
    { split; [done|]. intros b. split; [apply Hs|]. intros [l Hwalk].
      induction Hwalk as [|l b s Hwalk IHw Hin].
      - destruct He as [?|?%elem_of_nil]; done.
      - destruct (Hc b s IHw Hin) as [?|?%elem_of_nil]; done. }
    destruct (Hw b ltac:(left)) as [Hrb Hlt]. destruct (is_reachable r b) eqn:Er; apply IH.
    + split; try done.
      * intros x Hx. apply Hw. by right.
      * intros x s Hx Hxs. destruct (Hc x s Hx Hxs) as [?|[->|?]%elem_of_cons]; [by left| |by right].
        left. by rewrite Er.
      * destruct He as [?|[->|?]%elem_of_cons]; [by left| |by right]. left. by rewrite Er.
      * cbn in Hf. lia.
    + assert (∀ x, is_reachable (<[b:=true]> r) x ↔ x = b ∨ is_reachable r x) as Hm.
      { intros x. unfold is_reachable. destruct (decide (x = b)) as [->|Hne].
        - rewrite list_lookup_insert_eq by lia. naive_solver.
        - rewrite list_lookup_insert_ne by done. naive_solver. }
      split.
      * by rewrite length_insert.
      * intros x [->|?]%Hm; [done | by apply Hs].
      * intros x [Hx|Hx]%elem_of_app; [|apply Hw; by right]. rewrite list_elem_of_In, <- in_rev, <- list_elem_of_In in Hx.
        split; [|by eapply Hsucc]. destruct Hrb as [l Hwalk]. exists (l ++ [x]). by eapply walk_step.
      * intros x s Hx Hxs. rewrite Hm. apply Hm in Hx as [->|Hx].
        -- right. apply elem_of_app. left. by rewrite list_elem_of_In, <- in_rev, <- list_elem_of_In.
        -- destruct (Hc x s Hx Hxs) as [?|[->|?]%elem_of_cons]; [by left; right|by left; left|].
           right. apply elem_of_app. by right.
      * rewrite Hm. destruct He as [?|[->|?]%elem_of_cons]; [by left; right|by left; left|].
        right. apply elem_of_app. by right.
      * unfold edges_left in *. rewrite length_app, length_rev. cbn [length] in Hf.
        pose proof (sum_mark b (λ b, length (adjacent succ b)) r) as Hsum.
        rewrite <- Hsum in Hf by (done || lia). lia.
Qed.

Lemma find_reachable_correct :
  let r := find_reachable n succ entry in
  length r = n ∧ ∀ b, is_reachable r b ↔ reachable succ entry b.
Proof.
  assert (∀ b, is_reachable (replicate n false) b = false) as Hinit.
  { intros b. unfold is_reachable. destruct (replicate n false !! b) eqn:E; [|done].
    by apply lookup_replicate in E as [-> _]. }
  apply dfs_correct. split.
  - apply length_replicate.
  - intros b. by rewrite Hinit.
  - intros b ->%list_elem_of_singleton. split; [|done]. exists [entry]. constructor.
  - intros b s. by rewrite Hinit.
  - right. by left.
  - unfold edges_left. rewrite <- sum_adjacent, Hlen. cbn [length].
    assert (sum_list_with (λ b, if is_reachable (replicate n false) b then O else length (adjacent succ b)) (seq 0 n)
      = sum_list_with (λ b, length (adjacent succ b)) (seq 0 n)) as ->; [|lia].
    induction (seq 0 n) as [|x k IHk]; [done|]. cbn [sum_list_with]. by rewrite Hinit, IHk.
Qed.
End Reach.

(* ------------------------------------------------------------------ *)
(** ** Dominators *)

Section Dominators.
Context (n : nat) (succ pred : list (list nat)) (entry : nat) (r : list bool).
Hypothesis Hgraph : graph_ok n succ pred entry.
Hypothesis Hreach : ∀ b, is_reachable r b ↔ reachable succ entry b.

Lemma intersect_all_ok sets : Forall (wf_bits n) sets →
  wf_bits n (intersect_all (all_reachable n r) sets)
  ∧ ∀ j, has_bit (intersect_all (all_reachable n r) sets) j
         = has_bit (all_reachable n r) j && forallb (λ s, has_bit s j) sets.
Proof. apply foldl_and_bits. apply wf_all_reachable. Qed.

Lemma find_dominators_correct :
  ∃ doms, find_dominators n r pred entry = Ok doms ∧ length doms = n ∧ Forall (wf_bits n) doms
    ∧ ∀ b d, is_reachable r b → has_bit (doms_of doms b) d = true ↔ dominates succ entry d b.
Proof.
  unfold find_dominators.
  destruct (dominators_rounds n succ pred entry r (intersect_all (all_reachable n r)) Hgraph Hreach)
    with (fuel := (n + 1)%nat) as (doms & -> & H); [| |lia|by exists doms].
  - intros sets Hs. by apply intersect_all_ok.
  - intros sets j Hne Hs Hsub. destruct (intersect_all_ok sets Hs) as [_ ->].
    destruct (forallb (λ s, has_bit s j) sets) eqn:E; [|apply andb_false_r].
    rewrite andb_true_r. destruct sets as [|s sets]; [done|].
    cbn [forallb] in E. apply andb_true_iff in E as [E _]. apply Forall_cons in Hsub as [Hsub _].
    apply (has_all_reachable n succ pred entry r Hgraph Hreach). by apply Hsub.
Qed.

(** Dominance is a partial order with a chain above every block. *)
Lemma dominates_refl b : dominates succ entry b b.
Proof. intros l Hw. by eapply walk_last. Qed.

Lemma walk_split l b d : walk succ entry l b → d ∈ l →
  ∃ l1 l2, l = l1 ++ l2 ∧ walk succ entry l1 d.
Proof.
  induction 1 as [|l b s Hw IH Hs]; intros Hd.
  - apply list_elem_of_singleton in Hd as ->. exists [entry], []. split; [done|constructor].
  - apply elem_of_app in Hd as [Hd|Hd].
    + destruct (IH Hd) as (l1 & l2 & -> & H1). exists l1, (l2 ++ [s]). by rewrite app_assoc.
    + apply list_elem_of_singleton in Hd as ->. exists (l ++ [s]), []. rewrite app_nil_r.
      split; [done | by eapply walk_step].
Qed.

Lemma dominates_trans a b c : dominates succ entry a b → dominates succ entry b c → dominates succ entry a c.
Proof.
  intros Hab Hbc l Hw. destruct (walk_split l c b Hw (Hbc l Hw)) as (l1 & l2 & -> & H1).
  apply elem_of_app. left. by apply Hab.
Qed.

(** Before the first visit to [d], a walk to a block does not pass it. *)
Lemma walk_first l b d : walk succ entry l b → d ∈ l →
  ∃ l1, walk succ entry (l1 ++ [d]) d ∧ d ∉ l1 ∧ (l1 ++ [d]) `prefix_of` l.
Proof.
  induction 1 as [|l b s Hw IH Hs]; intros Hd.
  - apply list_elem_of_singleton in Hd as ->. exists []. split; [constructor|]. split; [apply not_elem_of_nil|done].
  - destruct (decide (d ∈ l)) as [Hin|Hin].
    + destruct (IH Hin) as (l1 & H1 & H2 & H3). exists l1. split; [done|]. split; [done|]. by apply prefix_app_r.
    + apply elem_of_app in Hd as [Hd|Hd]; [done|]. apply list_elem_of_singleton in Hd as ->.
      exists l. split; [by eapply walk_step|]. split; [done|done].
Qed.

Lemma dominates_antisym a b : reachable succ entry a →
  dominates succ entry a b → dominates succ entry b a → a = b.
Proof.
  intros [l Hw] Hab Hba. destruct (walk_first l a a Hw (walk_last _ _ _ _ Hw)) as (l1 & H1 & Hn & _).
  pose proof (Hba _ H1) as Hb. apply elem_of_app in Hb as [Hb|Hb]; [|by apply list_elem_of_singleton in Hb].
  exfalso. inversion H1 as [E1 E2|l0 b0 s0 Hw0 Hs0 E1 E2].
  - destruct l1 as [|x l1]; [by apply elem_of_nil in Hb|]. injection E1 as _ E1. by destruct l1.
  - apply app_inj_tail in E1 as [-> _]. destruct (walk_split _ _ _ Hw0 Hb) as (l2 & l3 & -> & H2).
    apply Hn, elem_of_app. left. by apply Hab.
Qed.

Lemma walk_snoc l b : walk succ entry l b → ∃ l', l = l' ++ [b].
Proof. destruct 1 as [|l b s]; [by exists [] | by exists l]. Qed.

Lemma walk_app l1 a l2 b : walk succ entry (l1 ++ [a] ++ l2) b → ∀ l0, walk succ entry (l0 ++ [a]) a →
  walk succ entry (l0 ++ [a] ++ l2) b.
Proof.
  revert b. induction l2 as [|x l2 IH] using rev_ind; intros b Hw l0 H0.
  - rewrite app_nil_r in *. destruct (walk_snoc _ _ Hw) as [l' [_ ->]%app_inj_tail]. done.
  - replace (l1 ++ [a] ++ l2 ++ [x]) with ((l1 ++ [a] ++ l2) ++ [x]) in Hw by by rewrite <- !app_assoc.
    replace (l0 ++ [a] ++ l2 ++ [x]) with ((l0 ++ [a] ++ l2) ++ [x]) by by rewrite <- !app_assoc.
    inversion Hw as [E1 E2|l p s Hw0 Hs E1 E2].
    + destruct l1; [by destruct l2 | by destruct l1].
    + apply app_inj_tail in E1 as [-> E1]. subst. eapply walk_step; [by apply IH | done].
Qed.

Lemma dominates_chain a b c : reachable succ entry c →
  dominates succ entry a c → dominates succ entry b c →
  dominates succ entry a b ∨ dominates succ entry b a.
Proof.
  intros [l Hw] Hac Hbc.
  (* the last of the two on a walk to [c] is dominated by the other *)
  assert (∀ x y l, dominates succ entry x c → walk succ entry l c → x ∈ l → y ∈ l →
    (∃ l1 l2, l = l1 ++ [y] ++ l2 ∧ x ∉ l2) → x ≠ y → dominates succ entry x y) as Hlast.
  { clear l Hw Hac Hbc. intros x y l Hxc Hw Hx Hy (l1 & l2 & -> & Hn) Hxy k Hk.
    assert (∃ k', k = k' ++ [y]) as [k' ->].
    { by eapply walk_snoc. }
    pose proof (Hxc _ (walk_app _ _ _ _ Hw _ Hk)) as Hin. rewrite app_assoc in Hin.
    apply elem_of_app in Hin as [|]; done. }
  destruct (decide (a = b)) as [->|Hne]; [left; apply dominates_refl|].
  pose proof (Hac l Hw) as Ha. pose proof (Hbc l Hw) as Hb.
  assert (∀ y, y ∈ l → ∃ l1 l2, l = l1 ++ [y] ++ l2 ∧ y ∉ l2) as Hlastocc.
  { clear. intros y. induction l as [|z l IH] using rev_ind; intros Hy; [by apply elem_of_nil in Hy|].
    destruct (decide (y = z)) as [->|Hyz].
    - exists l, []. split; [done | apply not_elem_of_nil].
    - apply elem_of_app in Hy as [Hy|Hy]; [|by apply list_elem_of_singleton in Hy].
      destruct (IH Hy) as (l1 & l2 & -> & Hn). exists l1, (l2 ++ [z]). split; [by rewrite <- !app_assoc|].
      rewrite not_elem_of_app, list_elem_of_singleton. done. }
  destruct (Hlastocc a Ha) as (l1 & l2 & El & Hn). destruct (decide (b ∈ l2)) as [Hb2|Hb2].
  - left. destruct (Hlastocc b Hb) as (l3 & l4 & El' & Hn'). apply (Hlast a b l); try done.
    exists l3, l4. split; [done|]. intros Ha4.
    assert (∃ l5, l2 = l5 ++ [b] ++ l4) as [l5 ->].
    { clear -El El' Hb2 Hn' Hn Hne. rewrite El in El'. clear El. revert l3 El'.
      induction l1 as [|z l1 IH]; intros [|z' l3] E; cbn in E; simplify_eq.
      - by exists l3.
      - destruct Hn'. rewrite elem_of_app, elem_of_cons. auto.
      - by apply (IH l3). }
    apply Hn. rewrite !elem_of_app. right. by right.
  - right. apply (Hlast b a l); try done. by exists l1, l2.
Qed.
End Dominators.

(* ------------------------------------------------------------------ *)
(** ** Counting bits *)

(** The lowest set bit. *)
Lemma lowest_bit w : 0 < w → ∃ k u, 0 ≤ k ∧ 0 ≤ u ∧ w = 2 ^ k * (2 * u + 1).
Proof.
  destruct w as [|p|p]; try lia. intros _. induction p as [p _|p IH|].
  - exists 0, (Z.pos p). lia.
  - destruct IH as (k & u & Hk & Hu & E). exists (k + 1), u. split; [lia|]. split; [done|].
    rewrite Z.pow_add_r by lia. lia.
  - exists 0, 0. lia.
Qed.

(** [w & (w - 1)] clears it and nothing else. *)
Lemma clear_lowest w : 0 < w → ∃ k, 0 ≤ k ∧ Z.testbit w k = true ∧
  ∀ i, 0 ≤ i → Z.testbit (Z.land w (w - 1)) i = Z.testbit w i && negb (i =? k).
Proof.
  intros (k & u & Hk & Hu & ->)%lowest_bit. exists k. split; [done|].
  assert (0 < 2 ^ k) as Hp by (apply Z.pow_pos_nonneg; lia).
  assert ((2 ^ k * (2 * u + 1)) / 2 ^ k = 2 * u + 1) as Ew by (rewrite Z.mul_comm; apply Z.div_mul; lia).
  assert ((2 ^ k * (2 * u + 1) - 1) / 2 ^ k = 2 * u) as Ew1.
  { symmetry. apply Z.div_unique with (2 ^ k - 1); [lia|]. lia. }
  assert (∀ x i, k ≤ i → Z.testbit x i = Z.testbit (x / 2 ^ k) (i - k)) as Hhigh.
  { intros x i Hi. rewrite Z.div_pow2_bits by lia. f_equal. lia. }
  assert (∀ i, 0 ≤ i < k → Z.testbit (2 ^ k * (2 * u + 1)) i = false) as Hlow.
  { intros i Hi. rewrite Z.mul_comm. apply Z.mul_pow2_bits_low. lia. }
  split.
  - rewrite Hhigh, Ew, Z.sub_diag by lia. apply Z.testbit_odd_0.
  - intros i Hi. rewrite Z.land_spec. destruct (Z_lt_le_dec i k) as [Hlt|Hge].
    + by rewrite Hlow by lia.
    + rewrite !(Hhigh _ i) by lia. rewrite Ew, Ew1. destruct (Z.eqb_spec i k) as [->|Hne].
      * rewrite Z.sub_diag, Z.testbit_odd_0, Z.testbit_even_0. done.
      * rewrite andb_true_r. replace (i - k) with (Z.succ (i - k - 1)) by lia.
        rewrite Z.testbit_odd_succ, Z.testbit_even_succ by lia. apply andb_diag.
Qed.

Lemma countb_ext {A} (f g : A → bool) l : (∀ x, x ∈ l → f x = g x) → countb f l = countb g l.
Proof.
  intros H. unfold countb. f_equal. induction l as [|x l IH]; [done|]. cbn [List.filter].
  rewrite (H x) by left. rewrite IH; [done|]. intros y Hy. apply H. by right.
Qed.

Lemma countb_remove {A} (f g : A → bool) l x :
  NoDup l → x ∈ l → f x = true → g x = false → (∀ y, y ∈ l → y ≠ x → f y = g y) →
  countb f l = S (countb g l).
Proof.
  unfold countb. induction l as [|y l IH]; intros Hn Hx Hf Hg Hall; [by apply elem_of_nil in Hx|].
  apply NoDup_cons in Hn as [Hy Hn]. cbn [List.filter]. apply elem_of_cons in Hx as [->|Hx].
  - rewrite Hf, Hg. cbn [length]. f_equal. apply (countb_ext f g l). intros z Hz.
    apply Hall; [by right|]. by intros ->.
  - assert (y ≠ x) as Hne by (by intros ->). rewrite (Hall y) by (left || done).
    assert (length (List.filter f l) = S (length (List.filter g l))) as E
      by (apply IH; [done..|intros; apply Hall; [by right | done]]).
    destruct (g y); cbn [length]; lia.
Qed.

Definition popcount (m : nat) (w : Z) : nat := countb (λ k, Z.testbit w (Z.of_nat k)) (seq 0 m).

Lemma count_bits_correct m fuel w :
  0 ≤ w < 2 ^ Z.of_nat m → (popcount m w ≤ fuel)%nat → count_bits fuel w = popcount m w.
Proof.
  revert w. induction fuel as [|fuel IH]; intros w Hw Hf; cbn [count_bits]; [lia|].
  destruct (Z.eqb_spec w 0) as [->|Hne].
  - unfold popcount, countb.
    induction (seq 0 m) as [|k l IHl]; [done|]. cbn [List.filter]. by rewrite Z.testbit_0_l.
  - destruct (clear_lowest w ltac:(lia)) as (k & Hk & Hbit & Hclear).
    assert (k < Z.of_nat m) as Hkm.
    { destruct (Z_lt_le_dec k (Z.of_nat m)) as [|Hge]; [done|].
      rewrite Z.bits_above_log2 in Hbit; [done|lia|].
      apply Z.log2_lt_pow2; [lia|]. eapply Z.lt_le_trans; [apply Hw|]. apply Z.pow_le_mono_r; lia. }
    assert (popcount m w = S (popcount m (Z.land w (w - 1)))) as E.
    { apply (countb_remove _ _ _ (Z.to_nat k)).
      - apply NoDup_seq.
      - apply elem_of_seq. lia.
      - by rewrite Z2Nat.id.
      - rewrite Hclear, Z2Nat.id, Z.eqb_refl by lia. apply andb_false_r.
      - intros y _ Hy. rewrite Hclear by lia. rewrite (proj2 (Z.eqb_neq _ _)) by lia. by rewrite andb_true_r. }
    rewrite IH; [lia| |lia]. split; [apply Z.land_nonneg; lia|].
    assert (0 ≤ w - 1) as H1 by lia.
    destruct (decide (Z.land w (w - 1) = 0)) as [->|Hnz]; [apply Z.pow_pos_nonneg; lia|].
    apply Z.log2_lt_pow2; [pose proof (proj2 (Z.land_nonneg w (w - 1))); lia|].
    eapply Z.le_lt_trans; [apply Z.log2_land; lia|].
    eapply Z.le_lt_trans; [apply Z.le_min_l|]. apply Z.log2_lt_pow2; lia.
Qed.

Lemma popcount_le m w : (popcount m w ≤ m)%nat.
Proof. unfold popcount. etransitivity; [apply countb_all|]. by rewrite length_seq. Qed.

Lemma countb_none {A} (f : A → bool) l : (∀ x, x ∈ l → f x = false) → countb f l = 0%nat.
Proof.
  intros H. rewrite (countb_ext f (λ _, false) l H). clear. unfold countb. by induction l.
Qed.

Lemma countb_app {A} (f : A → bool) l k : countb f (l ++ k) = (countb f l + countb f k)%nat.
Proof. unfold countb. by rewrite List.filter_app, length_app. Qed.

(** The bits of a set, word by word. *)
Lemma cardinal_words (s : bits) :
  countb (has_bit s) (seq 0 (64 * length s)) = sum_list_with (popcount 64) s.
Proof.
  induction s as [|w s IH]; [done|]. cbn [length sum_list_with].
  replace (64 * S (length s))%nat with (64 + 64 * length s)%nat by lia.
  rewrite seq_app, countb_app. f_equal.
  - unfold popcount. apply countb_ext. intros k Hk%elem_of_seq. rewrite has_bit_testbit.
    unfold word_of. rewrite Nat.div_small, Nat.mod_small by lia. done.
  - rewrite <- IH. clear IH. change (0 + 64)%nat with (64 + 0)%nat. rewrite <- fmap_add_seq. unfold countb.
    generalize (seq 0 (64 * length s)) as ks. intros ks. induction ks as [|k l IHl]; [done|].
    rewrite fmap_cons. cbn [List.filter].
    assert (has_bit (w :: s) (64 + k) = has_bit s k) as ->; [|by destruct (has_bit s k); cbn [length]; rewrite IHl].
    rewrite !has_bit_testbit. unfold word_of.
    replace (64 + k)%nat with (k + 1 * 64)%nat by lia. rewrite Nat.div_add, Nat.Div0.mod_add by lia.
    by rewrite Nat.add_1_r.
Qed.

Lemma rank_cardinal n doms b : wf_bits n (doms_of doms b) → rank doms b = cardinal n (doms_of doms b).
Proof.
  intros [Hl Hw]. unfold cardinal, rank. rewrite <- Hl, cardinal_words. clear Hl.
  induction Hw as [|w s Hws _ IH]; [done|]. cbn [sum_list_with]. f_equal; [|exact IH].
  apply (count_bits_correct 64); [done | apply popcount_le].
Qed.

(* ------------------------------------------------------------------ *)
(** ** Immediate dominators *)

Lemma adjacent_alter_other g x y f : x ≠ y → adjacent (alter f x g) y = adjacent g y.
Proof. intros Hne. unfold adjacent. by rewrite list_lookup_alter_ne by done. Qed.

Lemma foldl_collect {A B C} (R : A → C → Prop) (step : A → B → A) (S : B → C → Prop) (good : A → Prop) l a :
  good a → (∀ a x, x ∈ l → good a → good (step a x) ∧ ∀ c, R (step a x) c ↔ R a c ∨ S x c) →
  good (foldl step a l) ∧ ∀ c, R (foldl step a l) c ↔ R a c ∨ ∃ x, x ∈ l ∧ S x c.
Proof.
  revert a. induction l as [|x l IH]; intros a Ha Hstep; cbn [foldl].
  - split; [done|]. intros c. split; [by left|]. intros [|(x & Hx & _)]; [done|]. by apply elem_of_nil in Hx.
  - destruct (Hstep a x) as [H1 H2]; [by left|done|].
    destruct (IH (step a x) H1) as [H3 H4]; [intros; apply Hstep; [by right|done]|].
    split; [done|]. intros c. rewrite H4, H2. setoid_rewrite elem_of_cons. naive_solver.
Qed.

Lemma foldl_greatest {A} (P : A → bool) (w : A → nat) l p0 : P p0 →
  let p := foldl (λ p d, if P d && Nat.ltb (w p) (w d) then d else p) p0 l in
  P p ∧ (w p0 ≤ w p)%nat ∧ ∀ d, d ∈ l → P d → (w d ≤ w p)%nat.
Proof.
  revert p0. induction l as [|x l IH]; intros p0 H0; cbn [foldl].
  - split_and!; [done|lia|]. by intros d ?%elem_of_nil.
  - set (p1 := if P x && Nat.ltb (w p0) (w x) then x else p0).
    assert (P p1) as H1 by (unfold p1; destruct (P x) eqn:E; [|done]; cbn [andb]; case_match; [by rewrite E|done]).
    assert (w p0 ≤ w p1 ∧ (P x → w x ≤ w p1))%nat as [Ha Hb].
    { unfold p1. destruct (P x); cbn [andb]; [|split; [lia|done]]. destruct (Nat.ltb_spec (w p0) (w x)); split; intros; lia. }
    destruct (IH p1 H1) as (Hp & Hw & Hall). split_and!; [done|lia|].
    intros d [->|Hd]%elem_of_cons HPd; [specialize (Hb HPd); lia | auto].
Qed.

Section Idoms.
Context (n : nat) (succ pred : list (list nat)) (entry : nat) (r : list bool) (doms : list bits).
Hypothesis Hgraph : graph_ok n succ pred entry.
Hypothesis Hreach : ∀ b, is_reachable r b ↔ reachable succ entry b.
Hypothesis Hwf : length doms = n ∧ Forall (wf_bits n) doms.
Hypothesis Hdoms : ∀ b d, is_reachable r b → has_bit (doms_of doms b) d = true ↔ dominates succ entry d b.

Notation dom := (dominates succ entry).

Lemma reachable_lt' b : reachable succ entry b → (b < n)%nat.
Proof. intros [l Hw]. apply (walk_lt n succ pred entry Hgraph l b b Hw). by eapply walk_last. Qed.

Lemma dominates_reachable d b : reachable succ entry b → dom d b → reachable succ entry d.
Proof. intros [l Hw] Hd. destruct (walk_split succ entry l b d Hw (Hd l Hw)) as (l1 & l2 & _ & H). by exists l1. Qed.

Lemma dominates_iff d b : dominates_ r doms d b = true ↔ reachable succ entry b ∧ dom d b.
Proof.
  unfold dominates_. rewrite andb_true_iff, <- Hreach. split.
  - intros [H1 H2]. assert (is_reachable r b) as H1' by (by rewrite H1). split; [done|]. by apply Hdoms.
  - intros [H1 H2]. split; [by destruct (is_reachable r b)|]. by apply Hdoms.
Qed.

Lemma wf_doms_at b : (b < n)%nat → wf_bits n (doms_of doms b).
Proof.
  intros Hb. destruct Hwf as [Hl Hw]. unfold doms_of.
  destruct (lookup_lt_is_Some_2 doms b) as [s Hs]; [lia|]. rewrite Hs.
  rewrite Forall_forall in Hw. apply Hw. by eapply list_elem_of_lookup_2.
Qed.

(** A strict dominator has fewer dominators. *)
Lemma rank_lt d b : reachable succ entry b → dom d b → d ≠ b → (rank doms d < rank doms b)%nat.
Proof.
  intros Hb Hd Hne. pose proof (dominates_reachable d b Hb Hd) as Hdr.
  pose proof (wf_doms_at b (reachable_lt' b Hb)) as Hwb.
  pose proof (wf_doms_at d (reachable_lt' d Hdr)) as Hwd.
  rewrite !(rank_cardinal n) by done. apply cardinal_lt; [done..| |].
  - intros j Hj. apply Hdoms in Hj; [|by apply Hreach]. apply Hdoms; [by apply Hreach|].
    by eapply dominates_trans.
  - intros E. apply Hne, (dominates_antisym succ entry); [done..|].
    apply Hdoms; [by apply Hreach|]. rewrite E. apply Hdoms; [by apply Hreach|]. apply dominates_refl.
Qed.

Definition idom_spec (b i : nat) : Prop := i ≠ b ∧ dom i b ∧ ∀ d, d ≠ b → dom d b → dom d i.

Lemma idom_unique b i j : reachable succ entry b → idom_spec b i → idom_spec b j → i = j.
Proof.
  intros Hb (Hi1 & Hi2 & Hi3) (Hj1 & Hj2 & Hj3). apply (dominates_antisym succ entry).
  - by eapply dominates_reachable.
  - by apply Hj3.
  - by apply Hi3.
Qed.

Lemma entry_dominates b : dom entry b.
Proof. intros l. induction 1 as [|l b s Hw IH]; [by left | apply elem_of_app; auto]. Qed.

Lemma nearest_correct b : reachable succ entry b → b ≠ entry → idom_spec b (nearest n r doms entry b).
Proof.
  intros Hb Hne. set (P := λ d, negb (Nat.eqb d b) && dominates_ r doms d b).
  assert (∀ d, P d = true ↔ d ≠ b ∧ dom d b) as HP.
  { intros d. unfold P. rewrite andb_true_iff, dominates_iff, negb_true_iff, Nat.eqb_neq. naive_solver. }
  destruct (foldl_greatest P (rank doms) (seq 0 n) entry) as (Hp & _ & Hmax).
  { apply Is_true_true, HP. split; [done | apply entry_dominates]. }
  change (foldl _ entry (seq 0 n)) with (nearest n r doms entry b) in *.
  set (i := nearest n r doms entry b) in *. apply Is_true_true, HP in Hp as [Hib Hi].
  split; [done|]. split; [done|]. intros d Hd Hdb.
  destruct (decide (d = i)) as [->|Hdi]; [apply dominates_refl|].
  destruct (dominates_chain succ entry d i b Hb Hdb Hi) as [|Hid]; [done|exfalso].
  pose proof (dominates_reachable d b Hb Hdb) as Hdr.
  pose proof (rank_lt i d Hdr Hid ltac:(done)) as Hlt.
  assert (rank doms d ≤ rank doms i)%nat; [|lia]. apply Hmax.
  - apply elem_of_seq. pose proof (reachable_lt' d Hdr). lia.
  - apply Is_true_true, HP. done.
Qed.

Lemma find_idoms_correct b : idom_of (find_idoms n r doms entry) b =
  if is_reachable r b && negb (Nat.eqb b entry) then Some (nearest n r doms entry b) else None.
Proof.
  unfold idom_of, find_idoms. rewrite list_lookup_fmap. destruct (decide (b < n)%nat) as [Hb|Hb].
  - rewrite lookup_seq_lt by done. cbn. destruct (is_reachable r b), (Nat.eqb b entry); done.
  - rewrite lookup_seq_ge by lia. cbn. destruct (is_reachable r b) eqn:E; [|done].
    assert (is_reachable r b) as E' by (by rewrite E). apply Hreach, reachable_lt' in E'. lia.
Qed.

(** ** Dominance frontiers *)

Notation idoms := (find_idoms n r doms entry).

Lemma idom_of_Some b i : idom_of idoms b = Some i →
  reachable succ entry b ∧ b ≠ entry ∧ idom_spec b i.
Proof.
  rewrite find_idoms_correct.
  destruct (is_reachable r b) eqn:E; [|done]. destruct (Nat.eqb_spec b entry) as [|Hne]; [done|].
  assert (is_reachable r b) as Hb%Hreach by (by rewrite E).
  intros [= <-]. split_and!; try done; apply nearest_correct; done.
Qed.

Lemma idom_of_exists b : reachable succ entry b → b ≠ entry →
  ∃ i, idom_of idoms b = Some i ∧ idom_spec b i.
Proof.
  intros Hb Hne. pose proof (nearest_correct b Hb Hne) as H.
  eexists. split; [|exact H]. rewrite find_idoms_correct.
  apply Hreach in Hb. rewrite (proj2 (Nat.eqb_neq _ _) Hne). by destruct (is_reachable r b).
Qed.

Lemma dominates_entry d : dom d entry → d = entry.
Proof. intros H. pose proof (H [entry] (walk_entry _ _)) as Hd. by apply list_elem_of_singleton in Hd. Qed.

(** A strict dominator of a block dominates its predecessors. *)
Lemma dominates_pred d b p : b ∈ adjacent succ p → dom d b → d ≠ b → dom d p.
Proof.
  intros Hp Hd Hne l Hw. pose proof (Hd (l ++ [b]) (walk_step _ _ _ _ _ Hw Hp)) as Hin.
  apply elem_of_app in Hin as [|Hin]; [done|]. by apply list_elem_of_singleton in Hin.
Qed.

Lemma rank_le b : reachable succ entry b → (rank doms b ≤ n)%nat.
Proof.
  intros Hb. rewrite (rank_cardinal n) by (by apply wf_doms_at, reachable_lt').
  unfold cardinal. assert (n ≤ 64 * words n)%nat as Hw.
  { unfold words. pose proof (Z.div_mod (Z.of_nat n + 63) 64). pose proof (Z.mod_pos_bound (Z.of_nat n + 63) 64). lia. }
  replace (64 * words n)%nat with (n + (64 * words n - n))%nat by lia. rewrite seq_app, countb_app.
  assert (countb (has_bit (doms_of doms b)) (seq (0 + n) (64 * words n - n)) = 0%nat) as ->.
  { apply countb_none. intros j Hj%elem_of_seq.
    destruct (has_bit (doms_of doms b) j) eqn:E; [|done]. apply Hdoms in E; [|by apply Hreach].
    apply dominates_reachable in E; [|done].
    pose proof (reachable_lt' j E). lia. }
  pose proof (countb_all (has_bit (doms_of doms b)) (seq 0 n)) as H. rewrite length_seq in H. lia.
Qed.

(** The climb adds [b] to the frontiers of the blocks between the runner and
    the dominator of [b]. *)
Lemma climb_correct b i fuel fr y :
  idom_of idoms b = Some i → length fr = n → reachable succ entry y → dom i y → (rank doms y < fuel)%nat →
  length (climb idoms b fuel fr (Some y)) = n ∧
  ∀ c x, c ∈ adjacent (climb idoms b fuel fr (Some y)) x ↔ c ∈ adjacent fr x ∨ c = b ∧ dom x y ∧ ¬ dom x i.
Proof.
  intros Hi. revert fr y. induction fuel as [|fuel IH]; intros fr y Hfr Hy Hiy Hf; [lia|].
  cbn [climb]. rewrite Hi. case_bool_decide as E; [simplify_eq; naive_solver|].
  assert (y ≠ i) as Hne by congruence. clear E.
  assert (y ≠ entry) as Hye by (intros ->; by apply dominates_entry in Hiy).
  destruct (idom_of_exists y Hy Hye) as (j & Hj & Hj1 & Hj2 & Hj3). rewrite Hj.
  pose proof (reachable_lt' y Hy) as Hlt.
  destruct (IH (alter (λ l, add l b) y fr) j) as [H1 H2].
  { by rewrite length_alter. }
  { by eapply dominates_reachable. }
  { apply Hj3; [|done]. congruence. }
  { pose proof (rank_lt j y Hy Hj2 Hj1). lia. }
  split; [done|]. intros c x. rewrite H2.
  assert (c ∈ adjacent (alter (λ l, add l b) y fr) x ↔ c ∈ adjacent fr x ∨ c = b ∧ x = y) as ->.
  { destruct (decide (x = y)) as [->|Hxy].
    - unfold adjacent. destruct (lookup_lt_is_Some_2 fr y) as [l Hl]; [lia|].
      rewrite list_lookup_alter_eq, Hl. cbn. rewrite elem_of_add. naive_solver.
    - rewrite adjacent_alter_other by done. naive_solver. }
  assert (dom x y ↔ x = y ∨ dom x j) as ->.
  { split.
    - intros Hx. destruct (decide (x = y)); [by left|]. right. by apply Hj3.
    - intros [->|Hx]; [apply dominates_refl | by eapply dominates_trans]. }
  assert (x = y → ¬ dom x i) as Hyi.
  { intros -> Hyi. apply Hne, (dominates_antisym succ entry); done. }
  naive_solver.
Qed.

(** The frontier of [x]: the joins it reaches without dominating them
    strictly. *)
Definition frontier_spec (x b : nat) : Prop :=
  reachable succ entry b ∧ ∃ p, p ∈ adjacent pred b ∧ reachable succ entry p ∧ dom x p ∧ ¬ (dom x b ∧ x ≠ b).

(** A block with one way in is in no frontier. *)
Lemma single_pred x b p : reachable succ entry b → b ≠ entry → adjacent pred b = [p] →
  reachable succ entry p → dom x p → dom x b ∧ x ≠ b.
Proof.
  intros Hb Hne Hp Hrp Hx.
  assert (∀ l, walk succ entry l b → ∃ l', l = l' ++ [b] ∧ walk succ entry l' p) as Hlast.
  { intros l Hw. inversion Hw as [E1 E2|l0 q s Hw0 Hs E1 E2]; subst; [done|].
    apply (graph_pred _ _ _ _ Hgraph) in Hs. rewrite Hp in Hs. apply list_elem_of_singleton in Hs as ->. eauto. }
  split.
  - intros l Hw. destruct (Hlast l Hw) as (l' & -> & Hw'). apply elem_of_app. left. by apply Hx.
  - intros ->. destruct Hb as [l Hw].
    destruct (walk_first succ entry l b b Hw (walk_last _ _ _ _ Hw)) as (l1 & H1 & Hn & _).
    destruct (Hlast _ H1) as (l' & [-> _]%app_inj_tail & Hw'). by apply Hn, Hx.
Qed.


Lemma climb_length b fuel fr y : length (climb idoms b fuel fr y) = length fr.
Proof.
  revert fr y. induction fuel as [|fuel IH]; intros fr [y|]; cbn [climb]; [done..| |done].
  case_bool_decide; [done|]. by rewrite IH, length_alter.
Qed.

Lemma climb_other b c fuel fr y x : c ≠ b → c ∈ adjacent (climb idoms b fuel fr y) x ↔ c ∈ adjacent fr x.
Proof.
  intros Hne. revert fr y. induction fuel as [|fuel IH]; intros fr [y|]; cbn [climb]; [done..| |done].
  case_bool_decide; [done|]. rewrite IH. destruct (decide (x = y)) as [->|]; [|by rewrite adjacent_alter_other].
  unfold adjacent. destruct (fr !! y) as [l|] eqn:E.
  - rewrite list_lookup_alter_eq, E. cbn. rewrite elem_of_add. naive_solver.
  - by rewrite list_lookup_alter_eq, E.
Qed.

(** The climbs from the predecessors [ps] of a block. *)
Definition climbs (b : nat) (fr : list (list nat)) (ps : list nat) : list (list nat) :=
  foldl (λ fr p, if is_reachable r p then climb idoms b (S n) fr (Some p) else fr) fr ps.

Lemma climbs_other b c fr ps x : c ≠ b →
  length (climbs b fr ps) = length fr ∧ (c ∈ adjacent (climbs b fr ps) x ↔ c ∈ adjacent fr x).
Proof.
  intros Hne. unfold climbs. revert fr. induction ps as [|p ps IH]; intros fr; cbn [foldl]; [done|].
  destruct (IH (if is_reachable r p then climb idoms b (S n) fr (Some p) else fr)) as [-> ->].
  destruct (is_reachable r p); [|done]. by rewrite climb_length, climb_other.
Qed.

Lemma climbs_correct b fr x : reachable succ entry b → b ≠ entry → length fr = n →
  length (climbs b fr (adjacent pred b)) = n ∧
  (b ∈ adjacent (climbs b fr (adjacent pred b)) x ↔ b ∈ adjacent fr x ∨ frontier_spec x b).
Proof.
  intros Hb Hne Hfr. destruct (idom_of_exists b Hb Hne) as (i & Hi & Hib & Hidom & Hlast).
  assert (∀ y, dom y i ↔ dom y b ∧ y ≠ b) as Hstrict.
  { intros y. split; [|naive_solver]. intros Hy. split; [by eapply dominates_trans|].
    intros ->. apply Hib. apply (dominates_antisym succ entry); [by eapply dominates_reachable|done..]. }
  destruct (foldl_collect (λ fr (_ : unit), b ∈ adjacent fr x)
    (λ fr p, if is_reachable r p then climb idoms b (S n) fr (Some p) else fr)
    (λ p _, reachable succ entry p ∧ dom x p ∧ ¬ dom x i) (λ fr, length fr = n) (adjacent pred b) fr Hfr)
    as [Hlen H].
  { intros g p Hp Hg. destruct (is_reachable r p) eqn:E.
    - assert (is_reachable r p) as Hpr%Hreach by (by rewrite E).
      apply (graph_pred _ _ _ _ Hgraph) in Hp.
      destruct (climb_correct b i (S n) g p Hi Hg Hpr) as [H1 H2].
      + by eapply dominates_pred.
      + pose proof (rank_le p Hpr). lia.
      + split; [done|]. intros _. rewrite H2. naive_solver.
    - split; [done|]. intros _. assert (¬ reachable succ entry p); [|naive_solver].
      intros Hpr%Hreach. by rewrite E in Hpr. }
  split; [done|]. rewrite (H ()). unfold frontier_spec. setoid_rewrite Hstrict. naive_solver.
Qed.

Lemma find_frontier_correct x b : b ≠ entry →
  b ∈ adjacent (find_frontier n r pred idoms) x ↔ frontier_spec x b.
Proof.
  intros Hne.
  destruct (foldl_collect (λ fr (_ : unit), b ∈ adjacent fr x)
    (λ fr b, if is_reachable r b && Nat.ltb 1 (length (adjacent pred b)) then climbs b fr (adjacent pred b) else fr)
    (λ b' _, b' = b ∧ frontier_spec x b) (λ fr, length fr = n) (seq 0 n) (replicate n []))
    as [_ H]; [apply length_replicate| |].
  - intros fr b' _ Hfr. destruct (decide (b' = b)) as [->|Hne'].
    + destruct (is_reachable r b) eqn:E.
      * assert (is_reachable r b) as Hb%Hreach by (by rewrite E).
        destruct (climbs_correct b fr x Hb Hne Hfr) as [H1 H2].
        destruct (Nat.ltb_spec 1 (length (adjacent pred b))) as [Hl|Hl]; cbn [andb].
        -- split; [done|]. intros _. rewrite H2. naive_solver.
        -- split; [done|]. intros _. assert (¬ frontier_spec x b); [|naive_solver].
           intros (_ & p & Hp & Hpr & Hx & Hns). apply Hns, (single_pred x b p); try done.
           destruct (adjacent pred b) as [|q [|q' l]]; [by apply elem_of_nil in Hp| |cbn in Hl; lia].
           by apply list_elem_of_singleton in Hp as ->.
      * split; [done|]. intros _. assert (¬ frontier_spec x b); [|naive_solver].
        intros [Hb%Hreach _]. by rewrite E in Hb.
    + destruct (is_reachable r b' && Nat.ltb 1 (length (adjacent pred b'))).
      * destruct (climbs_other b' b fr (adjacent pred b') x) as [H1 H2]; [done|].
        split; [congruence|]. intros _. rewrite H2. naive_solver.
      * split; [done|]. naive_solver.
  - specialize (H ()). cbv beta in H. unfold find_frontier. unfold climbs in H. rewrite H.
    assert (adjacent (replicate n []) x = []) as ->.
    { unfold adjacent. destruct (replicate n [] !! x) eqn:E; [|done]. by apply lookup_replicate in E as [-> _]. }
    rewrite elem_of_nil. split; [naive_solver|]. intros Hs. right. exists b. split; [|done].
    destruct Hs as [Hb _]. pose proof (reachable_lt' b Hb). apply elem_of_seq. lia.
Qed.

(** The children of a block are the blocks it immediately dominates. *)
Lemma find_children_correct p b : b ∈ adjacent (find_children n idoms) p ↔ idom_of idoms b = Some p.
Proof.
  unfold find_children, adjacent. rewrite list_lookup_fmap. split.
  - destruct (seq 0 n !! p) as [q|] eqn:E; cbn [fmap option_fmap option_map from_option id]; [|by intros ?%elem_of_nil].
    apply lookup_seq in E as [-> _]. rewrite list_elem_of_In, filter_In. by intros [_ H%bool_decide_eq_true].
  - intros H. destruct (idom_of_Some b p H) as (Hb & _ & _ & Hp & _).
    pose proof (reachable_lt' b Hb). pose proof (reachable_lt' p (dominates_reachable p b Hb Hp)).
    rewrite lookup_seq_lt by done. cbn [fmap option_fmap option_map from_option id].
    rewrite list_elem_of_In, filter_In, <- list_elem_of_In, elem_of_seq. split; [lia|].
    by apply bool_decide_eq_true.
Qed.
End Idoms.
