(* ===== verification/LoopSound.v ===== *)
(** * LoopSound: the natural loops are the loops of the graph

    Proofs about [flood], [add_latch] and [find_loops] of [ControlFlow]: the
    blocks recorded for a header are those that reach a latch without passing
    the header. *)

From S2P Require Import Prelude Target Types Token IR Graph ControlFlow FlowSound.

(** The loop of the header [h] and the latches [L]: what reaches a latch
    without passing the header. *)
Inductive in_loop (r : list bool) (pred : list (list nat)) (h : nat) (L : nat → Prop) : nat → Prop :=
  | in_loop_header : in_loop r pred h L h
  | in_loop_latch b : L b → in_loop r pred h L b
  | in_loop_body x p : in_loop r pred h L x → x ≠ h → p ∈ adjacent pred x → is_reachable r p →
      in_loop r pred h L p.

Lemma in_loop_mono r pred h (L L' : nat → Prop) x :
  (∀ b, L b → L' b) → in_loop r pred h L x → in_loop r pred h L' x.
Proof.
  intros Hsub. induction 1 as [|b Hb|x p _ IH Hne Hp Hr]; [constructor 1|constructor 2; auto|].
  by apply (in_loop_body _ _ _ _ x).
Qed.

Section Flood.
Context (n : nat) (pred : list (list nat)) (r : list bool) (h : nat) (L : nat → Prop).
Hypothesis Hlen : length pred = n.
Hypothesis Hpred : ∀ b p, p ∈ adjacent pred b → (p < n)%nat.

Notation inl := (in_loop r pred h L).

Definition edges_out (bs : gset nat) : nat :=
  sum_list_with (λ x, if bool_decide (x ∈ bs) then O else length (adjacent pred x)) (seq 0 n).

Definition closed (bs : gset nat) (work : list nat) : Prop :=
  ∀ x p, x ∈ bs → x ≠ h → p ∈ adjacent pred x → is_reachable r p → p ∈ bs ∨ p ∈ work.

Lemma flood_correct fuel bs work :
  (∀ x, x ∈ bs → inl x) → (∀ x, x ∈ work → inl x ∧ (x < n)%nat) → closed bs work →
  (edges_out bs + length work ≤ fuel)%nat →
  let bs' := flood r pred h fuel bs work in
  bs ⊆ bs' ∧ (∀ x, x ∈ work → x ∈ bs') ∧ (∀ x, x ∈ bs' → inl x) ∧ closed bs' [].
Proof.
  revert bs work. induction fuel as [|fuel IH]; intros bs [|x work] Hs Hw Hc Hf; cbn [flood];
    [by split_and!; try set_solver|cbn [length] in Hf; lia|by split_and!; try set_solver|].
  destruct (Hw x ltac:(left)) as [Hx Hlt].
  assert (∀ y, y ∈ {[x]} ∪ bs → inl y) as Hs' by (intros y [->%elem_of_singleton|]%elem_of_union; auto).
  assert (bool_decide (x ∈ bs) = false →
    edges_out ({[x]} ∪ bs) + length (adjacent pred x) = edges_out bs)%nat as Hsum.
  { intros E. apply (sum_hide (λ y, bool_decide (y ∈ bs)) (λ y, bool_decide (y ∈ {[x]} ∪ bs))
      (λ y, length (adjacent pred y)) (seq 0 n) x); [..|done| |].
    - apply NoDup_seq.
    - apply elem_of_seq. lia.
    - apply bool_decide_eq_true. set_solver.
    - intros y Hy. apply bool_decide_ext. set_solver. }
  cbn [length] in Hf. destruct (bool_decide (x ∈ bs) || Nat.eqb x h) eqn:E.
  - destruct (IH ({[x]} ∪ bs) work) as (H1 & H2 & H3 & H4); [done|intros; apply Hw; by right| | |].
    + intros y p Hy Hne Hp Hr. apply orb_true_iff in E as [E%bool_decide_eq_true|E%Nat.eqb_eq].
      * destruct (Hc y p ltac:(set_solver) Hne Hp Hr) as [|[->|]%elem_of_cons]; [set_solver..|by right].
      * destruct (Hc y p ltac:(set_solver) Hne Hp Hr) as [|[->|]%elem_of_cons]; [set_solver..|by right].
    + destruct (bool_decide (x ∈ bs)) eqn:Ex; [|specialize (Hsum eq_refl); lia].
      apply bool_decide_eq_true in Ex. replace ({[x]} ∪ bs) with bs by set_solver. lia.
    + split_and!; [set_solver| |done|done]. intros y [->|Hy]%elem_of_cons; [set_solver | auto].
  - apply orb_false_iff in E as [E Eh%Nat.eqb_neq]. specialize (Hsum E).
    set (new := rev (List.filter (is_reachable r) (adjacent pred x))).
    assert (∀ p, p ∈ new ↔ p ∈ adjacent pred x ∧ is_reachable r p) as Hnew.
    { intros p. unfold new. rewrite list_elem_of_In, <- in_rev, filter_In, <- list_elem_of_In.
      by rewrite Is_true_true. }
    assert (length new ≤ length (adjacent pred x))%nat as Hl.
    { unfold new. rewrite length_rev. clear. induction (adjacent pred x) as [|p l IHl]; cbn; [lia|]. case_match; cbn; lia. }
    destruct (IH ({[x]} ∪ bs) (new ++ work)) as (H1 & H2 & H3 & H4); [done| | | |].
    + intros p [[Hp Hr]%Hnew|Hp]%elem_of_app; [|apply Hw; by right].
      split; [by apply (in_loop_body _ _ _ _ x)|by eapply Hpred].
    + intros y p Hy Hne Hp Hr. apply elem_of_union in Hy as [->%elem_of_singleton|Hy].
      * right. apply elem_of_app. left. by apply Hnew.
      * destruct (Hc y p Hy Hne Hp Hr) as [|[->|]%elem_of_cons]; [set_solver..|].
        right. apply elem_of_app. by right.
    + rewrite length_app. lia.
    + split_and!; [set_solver| |done|done]. intros y [->|Hy]%elem_of_cons; [set_solver|].
      apply H2, elem_of_app. by right.
Qed.

Lemma closed_in_loop bs x : h ∈ bs → (∀ b, L b → b ∈ bs) → closed bs [] → inl x → x ∈ bs.
Proof.
  intros Hh HL Hc. induction 1 as [|b Hb|x p _ IH Hne Hp Hr]; [done|auto|].
  destruct (Hc x p IH Hne Hp Hr) as [|?%elem_of_nil]; done.
Qed.
End Flood.

Lemma in_loop_ext r pred h (L L' : nat → Prop) x :
  (∀ b, L b ↔ L' b) → in_loop r pred h L x ↔ in_loop r pred h L' x.
Proof. intros H. split; apply in_loop_mono; intros b; apply H. Qed.

Section Loops.
Context (n : nat) (pred : list (list nat)) (r : list bool).
Hypothesis Hlen : length pred = n.
Hypothesis Hpred : ∀ b p, p ∈ adjacent pred b → (p < n)%nat.

(** The loops of the back edges [E b h], from the latch [b] to the header
    [h]. *)
Definition loop_is (E : nat → nat → Prop) (h : nat) (loop : Loop) : Prop :=
  header loop = h ∧ (∃ b, E b h) ∧ (∀ b, b ∈ latches loop ↔ E b h)
  ∧ ∀ x, x ∈ blocks loop ↔ in_loop r pred h (λ b, E b h) x.
Definition loops_are (natural : gmap nat Loop) (E : nat → nat → Prop) : Prop :=
  ∀ h, match natural !! h with Some loop => loop_is E h loop | None => ∀ b, ¬ E b h end.

Lemma loops_are_ext natural E E' : (∀ b h, E b h ↔ E' b h) → loops_are natural E → loops_are natural E'.
Proof.
  intros HE H h. specialize (H h). destruct (natural !! h) as [loop|].
  - destruct H as (H1 & (b & H2) & H3 & H4). split_and!; [done| |setoid_rewrite <- HE; done|].
    + exists b. by apply HE.
    + intros x. rewrite H4. apply in_loop_ext. intros; apply HE.
  - intros b Hb%HE. by apply (H b).
Qed.

Lemma add_latch_are natural E b h : (b < n)%nat → loops_are natural E →
  loops_are (add_latch r pred b natural h) (λ b' h', E b' h' ∨ b' = b ∧ h' = h).
Proof.
  intros Hb H h'. unfold add_latch. destruct (decide (h' = h)) as [->|Hne].
  - rewrite lookup_insert_eq. set (loop := default _ _).
    assert (∀ x, x ∈ latches loop ↔ E x h) as Hl.
    { unfold loop. specialize (H h). destruct (natural !! h) as [l|]; [by apply H|].
      cbn. intros x. specialize (H x). set_solver. }
    assert (∀ x, x ∈ blocks loop ↔ in_loop r pred h (λ b, E b h) x) as Hbl.
    { unfold loop. specialize (H h). destruct (natural !! h) as [l|]; [by apply H|].
      cbn. intros x. rewrite elem_of_singleton. split; [intros ->; constructor 1|].
      induction 1 as [|b' Hb'|x p _ -> Hx]; [done | by apply H in Hb' | done]. }
    set (L := λ b', E b' h ∨ b' = b ∧ h = h).
    destruct (flood_correct n pred r h L Hlen Hpred (S (edge_count pred)) (blocks loop) [b])
      as (H1 & H2 & H3 & H4).
    { intros x Hx%Hbl. eapply in_loop_mono; [|exact Hx]. cbn. by left. }
    { intros x ->%list_elem_of_singleton. split; [|done]. constructor 2. right. done. }
    { intros x p Hx%Hbl Hxh Hp Hr. left. apply Hbl. by apply (in_loop_body _ _ _ _ x). }
    { cbn [length]. rewrite <- sum_adjacent, Hlen. unfold edges_out.
      assert (∀ l, sum_list_with (λ x, if bool_decide (x ∈ blocks loop) then O else length (adjacent pred x)) l
              ≤ sum_list_with (λ b, length (adjacent pred b)) l)%nat as Hle.
      { induction l as [|x l IH]; cbn [sum_list_with]; [lia|]. case_match; lia. }
      specialize (Hle (seq 0 n)). lia. }
    split_and!; cbn [header latches blocks]; [done| | |].
    + exists b. by right.
    + intros x. rewrite elem_of_union, elem_of_singleton, Hl. naive_solver.
    + intros x. split; [apply H3|]. apply (closed_in_loop pred r h L); [|..|exact H4].
      * apply H1, Hbl. constructor 1.
      * intros y [Hy|[-> _]]; [|apply H2; by left]. apply H1, Hbl. by constructor 2.
  - rewrite lookup_insert_ne by done. specialize (H h'). destruct (natural !! h') as [loop|].
    + destruct H as (H1 & (b' & H2) & H3 & H4). split_and!; [done|exists b'; by left| |].
      * intros x. rewrite H3. naive_solver.
      * intros x. rewrite H4. apply in_loop_ext. naive_solver.
    + intros b' [Hb'|[_ ->]]; [by apply (H b') | done].
Qed.

(** A fold that adds back edges. *)
Lemma foldl_loops {A} (step : gmap nat Loop → A → gmap nat Loop) (S : A → nat → nat → Prop) l natural E :
  (∀ natural E x, x ∈ l → loops_are natural E → loops_are (step natural x) (λ b h, E b h ∨ S x b h)) →
  loops_are natural E → loops_are (foldl step natural l) (λ b h, E b h ∨ ∃ x, x ∈ l ∧ S x b h).
Proof.
  revert natural E. induction l as [|x l IH]; intros natural E Hstep H; cbn [foldl].
  - eapply loops_are_ext; [|exact H]. intros b h. setoid_rewrite elem_of_nil. naive_solver.
  - eapply loops_are_ext; [|apply (IH _ (λ b h, E b h ∨ S x b h))].
    + intros b h. cbn. setoid_rewrite elem_of_cons. naive_solver.
    + intros ????. apply Hstep. by right.
    + apply Hstep; [by left|done].
Qed.

Lemma find_loops_correct succ doms :
  loops_are (find_loops n r doms succ pred)
    (λ b h, (b < n)%nat ∧ is_reachable r b ∧ h ∈ adjacent succ b ∧ dominates_ r doms h b).
Proof.
  unfold find_loops. eapply loops_are_ext; [|apply (foldl_loops _
    (λ b' b h, b' = b ∧ is_reachable r b ∧ h ∈ adjacent succ b ∧ dominates_ r doms h b) (seq 0 n) ∅ (λ _ _, False))].
  - intros b h. cbn. setoid_rewrite elem_of_seq. split; [intros [[]|(b' & Hb' & -> & H)]; split; [lia|done]|].
    intros [Hb H]. right. exists b. split; [lia|done].
  - intros natural E b Hb%elem_of_seq H. destruct (is_reachable r b) eqn:Er.
    + eapply loops_are_ext; [|apply (foldl_loops _ (λ h' b' h, b' = b ∧ h = h' ∧ dominates_ r doms h b));
        [|exact H]].
      * intros b' h. cbn. assert (is_reachable r b) by (by rewrite Er). naive_solver.
      * intros nat' E' h Hh H'. destruct (dominates_ r doms h b) eqn:Ed.
        -- eapply loops_are_ext; [|apply add_latch_are; [|exact H']; lia]. cbn. naive_solver.
        -- eapply loops_are_ext; [|exact H']. cbn. intros b' h'. split; [by left|].
           intros [|(-> & -> & Hd)]; [done|]. by rewrite Ed in Hd.
    + eapply loops_are_ext; [|exact H]. cbn. intros b' h'. split; [by left|].
      intros [|(-> & Hr & _)]; [done|]. by rewrite Er in Hr.
  - intros h. rewrite lookup_empty. by intros b [].
Qed.
End Loops.
