(* ===== verification/Liveness.v ===== *)
(** * Liveness: the liveness sets are exact

    Proofs about [block_sets], [flow_out], [flow_round] and [flow_loop] of
    [ControlFlow]: the sets the iteration ends with hold exactly the values
    some path uses before it defines them, and the round limit is never the
    reason the iteration stops. *)

From S2P Require Import Prelude Target Types Token IR Graph ControlFlow FlowSound.

(* ------------------------------------------------------------------ *)
(** ** The sets of a block *)

Definition defines (i : IRInstruction) (v : Z) : Prop := value_isValid (i_result i) ∧ i_result i = v.

(** [v] is read, other than by a phi, before it is written. *)
Definition exposed (l : list IRInstruction) (v : Z) : Prop :=
  ∃ k i, l !! k = Some i ∧ i_opcode i ≠ OpPhi ∧ v ∈ i_operands i
    ∧ ∀ j i', (j < k)%nat → l !! j = Some i' → ¬ defines i' v.

Lemma exposed_app l i v : exposed (l ++ [i]) v ↔
  exposed l v ∨ i_opcode i ≠ OpPhi ∧ v ∈ i_operands i ∧ ∀ i', i' ∈ l → ¬ defines i' v.
Proof.
  unfold exposed. split.
  - intros (k & x & Hk & Ho & Hv & Hj). apply lookup_app_Some in Hk as [Hk|[Hle Hk]].
    + left. exists k, x. split_and!; try done. intros j i' Hlt Hi'. apply (Hj j i' Hlt).
      by apply lookup_app_l_Some.
    + right. apply list_lookup_singleton_Some in Hk as [Hk ->]. split_and!; try done.
      intros i' Hi'. apply list_elem_of_lookup in Hi' as [j Hi']. apply (Hj j).
      * apply lookup_lt_Some in Hi'. lia.
      * by apply lookup_app_l_Some.
  - intros [(k & x & Hk & Ho & Hv & Hj)|(Ho & Hv & Hj)].
    + exists k, x. split_and!; try done; [by apply lookup_app_l_Some|]. intros j i' Hlt Hi'. apply (Hj j i' Hlt).
      rewrite lookup_app_l in Hi'; [done|]. apply lookup_lt_Some in Hk. lia.
    + exists (length l), i. split_and!; try done.
      * rewrite lookup_app_r, Nat.sub_diag by lia. done.
      * intros j i' Hlt Hi'. apply Hj. rewrite lookup_app_l in Hi' by done. by eapply list_elem_of_lookup_2.
Qed.

Lemma is_op_phi i : is_op (i_opcode i) OpPhi = true ↔ i_opcode i = OpPhi.
Proof. unfold is_op. apply bool_decide_eq_true. Qed.

Definition block_sets (b : IRBasicBlock) : BlockSets := foldl block_step (mkSets ∅ ∅ ∅) (b_instructions b).

(** With ids in order the tables hold each block's sets. *)
Lemma sets_of_block f b : ids_ok f →
  sets_of f b = match f_blocks f !! b with Some block => block_sets block | None => mkSets ∅ ∅ ∅ end.
Proof.
  intros Hid. unfold sets_of.
  assert (∀ l k s, (∀ j blk, l !! j = Some blk → b_id blk = Z.of_nat (k + j)) →
    foldl (λ s block, if b_id block =? Z.of_nat b then foldl block_step s (b_instructions block) else s) s l
    = if decide (k ≤ b)%nat then match l !! (b - k)%nat with
        Some block => foldl block_step s (b_instructions block) | None => s end else s) as H.
  { induction l as [|blk l IH]; intros k s Hl; cbn [foldl]; [by case_decide|].
    rewrite (IH (S k)) by (intros j x Hx; rewrite (Hl (S j) x Hx); f_equal; lia).
    rewrite (Hl 0%nat blk eq_refl), Nat.add_0_r. destruct (Z.eqb_spec (Z.of_nat k) (Z.of_nat b)) as [E|E].
    - apply Nat2Z.inj in E as ->. rewrite !decide_False, decide_True by lia.
      rewrite Nat.sub_diag. done.
    - destruct (decide (S k ≤ b)%nat); [rewrite decide_True by lia|by rewrite decide_False by lia].
      replace (b - k)%nat with (S (b - S k)) by lia. done. }
  rewrite (H _ 0%nat) by done. rewrite decide_True, Nat.sub_0_r by lia. by destruct (f_blocks f !! b).
Qed.

Lemma block_sets_correct b v :
  (v ∈ uses (block_sets b) ↔ exposed (b_instructions b) v)
  ∧ (v ∈ defs (block_sets b) ↔ ∃ i, i ∈ b_instructions b ∧ defines i v)
  ∧ (v ∈ phi_defs (block_sets b) ↔ ∃ i, i ∈ b_instructions b ∧ i_opcode i = OpPhi ∧ defines i v).
Proof.
  unfold block_sets. induction (b_instructions b) as [|i l IH] using rev_ind.
  - cbn [foldl uses defs phi_defs]. split_and!; (split; [set_solver|]).
    + by intros (k & i & Hk & _).
    + by intros (i & ?%elem_of_nil & _).
    + by intros (i & ?%elem_of_nil & _).
  - rewrite foldl_app. cbn [foldl]. destruct IH as (IHu & IHd & IHp).
    set (s := foldl block_step _ l) in *. unfold block_step. cbn [uses defs phi_defs].
    assert (v ∈ (if value_isValid (i_result i) then {[i_result i]} else ∅ : gset Z) ↔ defines i v) as Hres.
    { unfold defines. destruct (value_isValid (i_result i)); set_solver. }
    assert (∀ i', i' ∈ l ++ [i] ↔ i' ∈ l ∨ i' = i) as Hel by (intros; rewrite elem_of_app, list_elem_of_singleton; done).
    split_and!.
    + rewrite exposed_app. destruct (is_op (i_opcode i) OpPhi) eqn:Eo.
      * apply is_op_phi in Eo. rewrite IHu. naive_solver.
      * assert (i_opcode i ≠ OpPhi) by (intros ?%is_op_phi; congruence).
        rewrite elem_of_union, elem_of_difference, elem_of_list_to_set, IHu, IHd. naive_solver.
    + rewrite elem_of_union, Hres, IHd. setoid_rewrite Hel. naive_solver.
    + destruct (is_op (i_opcode i) OpPhi) eqn:Eo.
      * apply is_op_phi in Eo. rewrite elem_of_union, Hres, IHp. setoid_rewrite Hel. naive_solver.
      * assert (i_opcode i ≠ OpPhi) by (intros ?%is_op_phi; congruence).
        rewrite IHp. setoid_rewrite Hel. naive_solver.
Qed.

(* ------------------------------------------------------------------ *)
(** ** Values on the edges *)

Lemma foldM_collect {A} (f : gset Z → A → result (gset Z)) (S : A → Z → Prop) l s s' :
  (∀ s x s', x ∈ l → f s x = Ok s' → ∀ v, v ∈ s' ↔ v ∈ s ∨ S x v) → foldM f s l = Ok s' →
  ∀ v, v ∈ s' ↔ v ∈ s ∨ ∃ x, x ∈ l ∧ S x v.
Proof.
  revert s. induction l as [|x l IH]; intros s Hf H; cbn [foldM] in H.
  - injection H as <-. intros v. setoid_rewrite elem_of_nil. naive_solver.
  - apply result_bind_ok in H as (s1 & H1 & H). intros v. rewrite (IH s1); [|intros; eapply Hf; [by right|done]|done].
    rewrite (Hf s x s1 ltac:(by left) H1). setoid_rewrite elem_of_cons. naive_solver.
Qed.

Lemma foldM_returns {A S} (P : S → Prop) (f : S → A → result S) l s :
  P s → (∀ s x, x ∈ l → P s → ∃ s', f s x = Ok s' ∧ P s') → ∃ s', foldM f s l = Ok s' ∧ P s'.
Proof.
  revert s. induction l as [|x l IH]; intros s Hs Hf; cbn [foldM]; [eauto|].
  destruct (Hf s x ltac:(by left) Hs) as (s1 & -> & H1). cbn. apply IH; [done|]. intros; apply Hf; [by right|done].
Qed.

(** A phi of [l] takes [v] on the edge from [b]. *)
Definition phi_arg (l : list IRInstruction) (b : nat) (v : Z) : Prop :=
  ∃ i e, i ∈ l ∧ i_targets i !! e = Some (Z.of_nat b) ∧ i_operands i !! e = Some v.

Definition phi_complete (i : IRInstruction) : Prop := (length (i_targets i) ≤ length (i_operands i))%nat.

Lemma phi_uses_correct b i out out' : phi_uses b i out = Ok out' →
  ∀ v, v ∈ out' ↔ v ∈ out ∨ phi_arg [i] b v.
Proof.
  intros H v. unfold phi_uses in H.
  apply (foldM_collect _ (λ et v, et.2 = Z.of_nat b ∧ i_operands i !! et.1 = Some v)) with (v := v) in H.
  - rewrite H. unfold phi_arg. split; (intros [Hv|Hv]; [by left|right]).
    + destruct Hv as ([e t] & Hin%elem_of_indexed & Ht & Hv). cbn in Ht, Hv. subst t. exists i, e. split_and!; [by left|done|done].
    + destruct Hv as (i' & e & ->%list_elem_of_singleton & Ht & Hv). exists (e, Z.of_nat b).
      split; [by apply elem_of_indexed|done].
  - intros s [e t] s' _ Hs w. destruct (Z.eqb_spec t (Z.of_nat b)) as [->|Hne].
    + apply result_bind_ok in Hs as (x & [_ Hx]%at_ok & [= <-]). rewrite Nat2Z.id in Hx. cbn. set_solver.
    + injection Hs as <-. cbn. naive_solver.
Qed.

Lemma phi_uses_returns b i out : phi_complete i → ∃ out', phi_uses b i out = Ok out'.
Proof.
  intros Hi. destruct (foldM_returns (λ _, True) (λ out et, let '(edge, target) := et in
    if target =? Z.of_nat b then v ← at_ (i_operands i) (Z.of_nat edge); Ok (out ∪ {[ v ]})
    else Ok out) (indexed (i_targets i)) out I) as (s & Hs & _); [|by exists s].
  intros s [e t] Hin%elem_of_indexed _. destruct (t =? Z.of_nat b); [|eauto].
  destruct (at_total (i_operands i) (Z.of_nat e)) as [x ->]; [|eauto].
  apply lookup_lt_Some in Hin. unfold phi_complete in Hi. unfold zlen. lia.
Qed.

Section Live.
Context (f : IRFunction) (r : list bool) (succ : list (list nat)).
Let n := length (f_blocks f).
Hypothesis Hid : ids_ok f.
Hypothesis Hsucc : ∀ b s, s ∈ adjacent succ b → (b < n)%nat ∧ (s < n)%nat.
Hypothesis Hclosed : ∀ b s, is_reachable r b → s ∈ adjacent succ b → is_reachable r s.
Hypothesis Hbound : ∀ b, is_reachable r b → (b < n)%nat.

Notation sets := (sets_of f).

(** [v] is live into [b]: some path from the start of [b] uses it before it
    defines it; phis use their operands at the end of the edge's source. *)
Inductive live : nat → Z → Prop :=
  | live_use b v : v ∈ uses (sets b) → live b v
  | live_edge b s v : s ∈ adjacent succ b → v ∉ defs (sets b) → live s v → v ∉ phi_defs (sets s) → live b v
  | live_phi b s v : s ∈ adjacent succ b → v ∉ defs (sets b) → phi_arg (phis_of f s) b v → live b v.

Definition live_after (b : nat) (v : Z) : Prop :=
  ∃ s, s ∈ adjacent succ b ∧ (live s v ∧ v ∉ phi_defs (sets s) ∨ phi_arg (phis_of f s) b v).

Lemma live_iff b v : live b v ↔ v ∈ uses (sets b) ∨ live_after b v ∧ v ∉ defs (sets b).
Proof.
  split.
  - destruct 1; [by left| |]; right; (split; [|done]); eexists; split; [done|by left|done|by right].
  - intros [|[(s & Hs & [[]|])]]; [by apply live_use|by eapply live_edge|by eapply live_phi].
Qed.

(** The sets of the successors, as the iteration reads them. *)
Lemma flow_out_correct ins b out : flow_out f succ ins b = Ok out →
  ∀ v, v ∈ out ↔ ∃ s, s ∈ adjacent succ b ∧
    (v ∈ set_of ins s ∧ v ∉ phi_defs (sets s) ∨ phi_arg (phis_of f s) b v).
Proof.
  intros H v. unfold flow_out in H.
  apply (foldM_collect _ (λ s v, v ∈ set_of ins s ∧ v ∉ phi_defs (sets s) ∨ phi_arg (phis_of f s) b v))
    with (v := v) in H; [rewrite H; set_solver|].
  intros o s o' _ Ho w. apply (foldM_collect _ (λ i v, phi_arg [i] b v)) with (v := w) in Ho.
  - rewrite Ho, elem_of_union, elem_of_difference. unfold phi_arg. setoid_rewrite list_elem_of_singleton.
    naive_solver.
  - intros o1 i o2 _ Hi. by apply phi_uses_correct.
Qed.

Lemma flow_out_returns ins b : (∀ s i, i ∈ phis_of f s → phi_complete i) → ∃ out, flow_out f succ ins b = Ok out.
Proof.
  intros Hc. destruct (foldM_returns (λ _, True) (λ out s, foldM (λ out i, phi_uses b i out)
      (out ∪ (set_of ins s ∖ phi_defs (sets_of f s))) (phis_of f s)) (adjacent succ b) ∅ I) as (s & Hs & _);
    [|by exists s].
  intros o s _ _. destruct (foldM_returns (λ _, True) (λ out i, phi_uses b i out) (phis_of f s)
    (o ∪ (set_of ins s ∖ phi_defs (sets_of f s))) I) as (o' & Ho & _); [|by exists o'].
  intros o1 i Hi _. destruct (phi_uses_returns b i o1) as [o2 Ho2]; [by eapply Hc|by exists o2].
Qed.

Lemma elem_flow_in out b v : v ∈ flow_in f out b ↔ v ∈ uses (sets b) ∨ v ∈ out ∧ v ∉ defs (sets b).
Proof. unfold flow_in. set_solver. Qed.

(** ** One block *)

Lemma set_of_insert_eq (l : list (gset Z)) b x : (b < length l)%nat → set_of (<[b:=x]> l) b = x.
Proof. intros H. unfold set_of. by rewrite list_lookup_insert_eq. Qed.
Lemma set_of_insert_ne (l : list (gset Z)) b c x : c ≠ b → set_of (<[b:=x]> l) c = set_of l c.
Proof. intros H. unfold set_of. by rewrite list_lookup_insert_ne. Qed.

Definition sized (s : Flow) : Prop := length (fl_in s) = n ∧ length (fl_out s) = n.

(** The block's equations, in a state. *)
Definition balanced (ins outs : list (gset Z)) (b : nat) : Prop :=
  ∃ out, flow_out f succ ins b = Ok out ∧ set_of ins b = flow_in f out b ∧ set_of outs b = out.

Lemma flow_block_spec s b s' : sized s → is_reachable r b → flow_block f r succ s b = Ok s' →
  sized s' ∧ ∃ out, flow_out f succ (fl_in s) b = Ok out
  ∧ set_of (fl_in s') b = flow_in f out b ∧ set_of (fl_out s') b = out
  ∧ (∀ c, c ≠ b → set_of (fl_in s') c = set_of (fl_in s) c ∧ set_of (fl_out s') c = set_of (fl_out s) c)
  ∧ (fl_changed s' = false → fl_changed s = false ∧ fl_in s' = fl_in s ∧ fl_out s' = fl_out s)
  ∧ (fl_changed s' = true → fl_changed s = true ∨ ¬ balanced (fl_in s) (fl_out s) b).
Proof.
  intros [Hi Ho] Hr H. unfold flow_block in H. apply Is_true_true in Hr as Hr'. rewrite Hr' in H. cbn [negb] in H.
  apply result_bind_ok in H as (out & Hout & H). cbv zeta in H.
  apply result_bind_ok in H as (u & _ & [= <-]). cbn [fl_in fl_out fl_changed].
  pose proof (Hbound b Hr) as Hb.
  destruct (bool_decide (flow_in f out b = set_of (fl_in s) b) && bool_decide (out = set_of (fl_out s) b)) eqn:E.
  - apply andb_true_iff in E as [E1%bool_decide_eq_true E2%bool_decide_eq_true].
    split; [done|]. exists out. split_and!; try done. by left.
  - cbn [fl_in fl_out fl_changed]. split; [split; cbn [fl_in fl_out]; by rewrite length_insert|]. exists out.
    rewrite !set_of_insert_eq by lia. split_and!; try done.
    + intros c Hc. by rewrite !set_of_insert_ne.
    + intros _. right. intros (out' & Hout' & E1 & E2). simplify_eq.
      rewrite !bool_decide_eq_true_2 in E by congruence. done.
Qed.

Lemma flow_block_skip s b s' : is_reachable r b = false → flow_block f r succ s b = Ok s' → s' = s.
Proof. intros Hr H. unfold flow_block in H. rewrite Hr in H. by injection H. Qed.

(** ** The invariant of the iteration *)

(** [v] is live into [b] along a path of fewer than [k] edges. *)
Fixpoint live_within (k : nat) (b : nat) (v : Z) : Prop :=
  match k with
  | O => False
  | S k => v ∈ uses (sets b) ∨ v ∉ defs (sets b) ∧ ∃ s, s ∈ adjacent succ b ∧
             (phi_arg (phis_of f s) b v ∨ live_within k s v ∧ v ∉ phi_defs (sets s))
  end.

Lemma live_within_S k b v : live_within k b v → live_within (S k) b v.
Proof.
  revert b. induction k as [|k IH]; intros b; [done|]. intros [|[Hv (s & Hs & [|[H1 H2]])]]; [by left|..];
    right; (split; [done|]); exists s; (split; [done|]); [by left|right]. split; [|done]. by apply IH.
Qed.

Lemma live_within_le k m b v : (k ≤ m)%nat → live_within k b v → live_within m b v.
Proof. induction 1 as [|m _ IH]; [done|]. intros Hw. by apply live_within_S, IH. Qed.

Lemma live_within_live k b v : live_within k b v → live b v.
Proof.
  revert b. induction k as [|k IH]; intros b; [done|]. intros [|[Hv (s & Hs & [|[H1 H2]])]].
  - by apply live_use.
  - by eapply live_phi.
  - eapply live_edge; eauto.
Qed.

(** A path along which [v] is live. *)
Inductive live_path (v : Z) : list nat → Prop :=
  | path_end b : live_within 1 b v → live_path v [b]
  | path_edge b s l : s ∈ adjacent succ b → v ∉ defs (sets b) → v ∉ phi_defs (sets s) →
      live_path v (s :: l) → live_path v (b :: s :: l).

Lemma live_path_suffix v l1 b l2 : live_path v (l1 ++ b :: l2) → live_path v (b :: l2).
Proof.
  induction l1 as [|x l1 IH]; intros H; [done|]. apply IH. cbn in H. inversion H as [? ? E|? ? ? ? ? ? ? E]; [|done].
  by destruct l1.
Qed.

Lemma live_path_within v b l : live_path v (b :: l) → live_within (length (b :: l)) b v.
Proof.
  revert b. induction l as [|s l IH]; intros b H; inversion H; [done|].
  right. split; [done|]. exists s. split; [done|]. right. split; [by apply IH|done].
Qed.

Lemma sets_beyond b : (n ≤ b)%nat → uses (sets b) = ∅.
Proof. intros H. rewrite sets_of_block by done. by rewrite lookup_ge_None_2. Qed.

Lemma live_path_lt v l : live_path v l → ∀ b, b ∈ l → (b < n)%nat.
Proof.
  induction 1 as [b H|b s l Hs _ _ _ IH]; intros c Hc.
  - apply list_elem_of_singleton in Hc as ->. destruct H as [H|[_ (s & Hs & _)]]; [|apply (Hsucc b s Hs)].
    destruct (decide (b < n)%nat) as [|Hge]; [done|]. rewrite sets_beyond in H by lia. set_solver.
  - apply elem_of_cons in Hc as [->|Hc]; [apply (Hsucc b s Hs) | auto].
Qed.

Lemma live_simple b v : live b v → ∃ l, live_path v (b :: l) ∧ NoDup (b :: l).
Proof.
  induction 1 as [b v H|b s v Hs Hd _ (l & Hl & Hn) Hp|b s v Hs Hd Hp].
  - exists []. split; [|apply NoDup_singleton]. constructor. by left.
  - destruct (decide (b ∈ s :: l)) as [Hin|Hin].
    + apply list_elem_of_split in Hin as (l1 & l2 & E). rewrite E in Hl, Hn. exists l2.
      split; [by eapply live_path_suffix|]. by apply NoDup_app in Hn as (_ & _ & ?).
    + exists (s :: l). split; [by constructor|]. by constructor.
  - exists []. split; [|apply NoDup_singleton]. constructor. right. split; [done|]. exists s. split; [done|by left].
Qed.

(** A shortest path visits no block twice. *)
Lemma live_within_n b v : live b v → live_within n b v.
Proof.
  intros H. destruct (live_simple b v H) as (l & Hl & Hn). pose proof (live_path_within v b l Hl) as Hw.
  assert (length (b :: l) ≤ n)%nat as Hle.
  { transitivity (length (seq 0 n)); [|by rewrite length_seq]. apply submseteq_length, NoDup_submseteq; [done|].
    intros x Hx. apply elem_of_seq. pose proof (live_path_lt v _ Hl x Hx). lia. }
  by eapply live_within_le.
Qed.

Record flow_inv (k : nat) (done : nat → Prop) (s : Flow) : Prop := {
  fi_sized : sized s;
  fi_in b v : v ∈ set_of (fl_in s) b → live b v;
  fi_out b v : v ∈ set_of (fl_out s) b → live_after b v;
  fi_live b v : is_reachable r b → live_within k b v → v ∈ set_of (fl_in s) b;
  fi_done b v : is_reachable r b → done b → live_within (S k) b v → v ∈ set_of (fl_in s) b;
  fi_after b v : is_reachable r b → done b → (n ≤ k)%nat → live_after b v → v ∈ set_of (fl_out s) b
}.

Lemma flow_block_inv k done s b s' : flow_inv k done s → flow_block f r succ s b = Ok s' →
  flow_inv k (λ x, done x ∨ x = b) s'.
Proof.
  intros Hinv H. destruct (is_reachable r b) eqn:Er.
  - assert (is_reachable r b) as Hr by (by rewrite Er). destruct Hinv as [Hsz Hin Hout Hl Hd Ha].
    destruct (flow_block_spec s b s' Hsz Hr H) as (Hsz' & out & Eout & Ei & Eo & Hother & _).
    pose proof (flow_out_correct _ _ _ Eout) as Hv.
    assert (∀ v, v ∈ out → live_after b v) as Hafter.
    { intros v (s0 & Hs & [[H1 H2]|H1])%Hv; exists s0; (split; [done|]); [left|by right]. split; [|done]. by apply Hin. }
    assert (∀ v, live_within (S k) b v → v ∈ flow_in f out b) as Hstep.
    { intros v [Hu|[Hnd (s0 & Hs & Hor)]]; apply elem_flow_in; [by left|right]. split; [|done].
      apply Hv. exists s0. split; [done|]. destruct Hor as [|[H1 H2]]; [by right|left]. split; [|done].
      apply Hl; [by eapply Hclosed | done]. }
    assert ((n ≤ k)%nat → ∀ v, live_after b v → v ∈ out) as Hfull.
    { intros Hk v (s0 & Hs & Hor). apply Hv. exists s0. split; [done|]. destruct Hor as [[H1 H2]|]; [left|by right].
      split; [|done]. apply Hl; [by eapply Hclosed|]. by apply (live_within_le n), live_within_n. }
    split; [done|..]; intros c v; (destruct (decide (c = b)) as [->|Hne];
      [rewrite ?Ei, ?Eo | destruct (Hother c Hne) as [Ec1 Ec2]; rewrite ?Ec1, ?Ec2; try naive_solver]).
    + intros [Hu|[Ho Hnd]]%elem_flow_in; apply live_iff; [by left|right]. auto.
    + apply Hafter.
    + intros _ Hw. by apply Hstep, live_within_S.
    + intros _ _. apply Hstep.
    + intros _ _ Hk. by apply Hfull.
  - apply flow_block_skip in H as ->; [|done]. destruct Hinv as [Hsz Hin Hout Hl Hd Ha].
    split; try done; intros c v Hc [ | -> ]; [by apply Hd| |by apply Ha|]; by rewrite Er in Hc.
Qed.

Lemma flow_fold_inv k l done s s' : flow_inv k done s → foldM (flow_block f r succ) s l = Ok s' →
  flow_inv k (λ x, done x ∨ x ∈ l) s'.
Proof.
  revert done s. induction l as [|b l IH]; intros done s Hinv H; cbn [foldM] in H.
  - injection H as <-. destruct Hinv. split; try done; setoid_rewrite elem_of_nil; naive_solver.
  - apply result_bind_ok in H as (s1 & H1 & H). apply (flow_block_inv _ _ _ _ _ Hinv) in H1.
    specialize (IH _ s1 H1 H). destruct IH. split; try done; setoid_rewrite elem_of_cons; naive_solver.
Qed.

Lemma elem_of_rounds b : is_reachable r b → b ∈ rev (seq 0 n).
Proof. intros H%Hbound. rewrite list_elem_of_In, <- in_rev, <- list_elem_of_In, elem_of_seq. lia. Qed.

(** The iteration between two rounds. *)
Definition stage (k : nat) (ins outs : list (gset Z)) : Prop :=
  flow_inv k (λ _, False) (mkFlow ins outs false 0) ∧
  ((n < k)%nat → ∀ b v, is_reachable r b → live_after b v → v ∈ set_of outs b).

Lemma round_stage k ins outs s : stage k ins outs → flow_round f r succ n ins outs = Ok s →
  stage (S k) (fl_in s) (fl_out s).
Proof.
  intros [Hinv _] H. unfold flow_round in H. apply (flow_fold_inv _ _ _ _ _ Hinv) in H.
  destruct H as [Hsz Hin Hout Hl Hd Ha]. split; [split|]; cbn [fl_in fl_out]; try done.
  - intros b v Hr. apply Hd; [done|right]. by apply elem_of_rounds.
  - intros Hk b v Hr. apply Ha; [done| |lia]. right. by apply elem_of_rounds.
Qed.

Lemma stage_0 : stage 0 (replicate n ∅) (replicate n ∅).
Proof.
  assert (∀ b, set_of (replicate n ∅) b = ∅) as He.
  { intros b. unfold set_of. destruct (replicate n ∅ !! b) eqn:E; [|done]. by apply lookup_replicate in E as [-> _]. }
  split; [|lia]. split; cbn [fl_in fl_out]; try done.
  - split; apply length_replicate.
  - intros b v. by rewrite He.
  - intros b v. by rewrite He.
Qed.

(** ** The end of the iteration *)

Lemma flow_fold_stable l s s' : sized s → foldM (flow_block f r succ) s l = Ok s' → fl_changed s' = false →
  fl_changed s = false ∧ fl_in s' = fl_in s ∧ fl_out s' = fl_out s
  ∧ ∀ b, b ∈ l → is_reachable r b → balanced (fl_in s) (fl_out s) b.
Proof.
  revert s. induction l as [|b l IH]; intros s Hsz H Hch; cbn [foldM] in H.
  - injection H as ->. split_and!; try done. by intros b ?%elem_of_nil.
  - apply result_bind_ok in H as (s1 & H1 & H). destruct (is_reachable r b) eqn:Er.
    + assert (is_reachable r b) as Hr by (by rewrite Er).
      destruct (flow_block_spec s b s1 Hsz Hr H1) as (Hsz1 & out & Eout & Ei & Eo & _ & Hsame & _).
      destruct (IH s1 Hsz1 H Hch) as (Hc1 & -> & -> & Hall). destruct (Hsame Hc1) as (Hc & Ein & Eou).
      rewrite Ein, Eou in *. split_and!; try done. intros c [->|Hc']%elem_of_cons Hrc; [by exists out|auto].
    + apply flow_block_skip in H1 as ->; [|done]. destruct (IH s Hsz H Hch) as (? & ? & ? & Hall).
      split_and!; try done. intros c [->|Hc']%elem_of_cons Hrc; [by rewrite Er in Hrc|auto].
Qed.

Lemma flow_fold_balanced l s s' : sized s → (∀ b, is_reachable r b → balanced (fl_in s) (fl_out s) b) →
  fl_changed s = false → foldM (flow_block f r succ) s l = Ok s' → fl_changed s' = false.
Proof.
  revert s. induction l as [|b l IH]; intros s Hsz Hbal Hch H; cbn [foldM] in H; [by injection H as <-|].
  apply result_bind_ok in H as (s1 & H1 & H). destruct (is_reachable r b) eqn:Er.
  - assert (is_reachable r b) as Hr by (by rewrite Er).
    destruct (flow_block_spec s b s1 Hsz Hr H1) as (Hsz1 & out & _ & _ & _ & _ & Hsame & Hdiff).
    destruct (fl_changed s1) eqn:Hc1.
    + destruct (Hdiff eq_refl) as [|Hn]; [congruence|]. by destruct Hn; apply Hbal.
    + destruct (Hsame eq_refl) as (_ & Ein & Eou). apply (IH s1); [done| |done|done]. by rewrite Ein, Eou.
  - apply flow_block_skip in H1 as ->; [|done]. by apply (IH s).
Qed.

(** The values of balanced sets are exactly the live ones. *)
Definition exact (ins outs : list (gset Z)) : Prop := ∀ b v, is_reachable r b →
  (v ∈ set_of ins b ↔ live b v) ∧ (v ∈ set_of outs b ↔ live_after b v).

Lemma balanced_exact k ins outs : stage k ins outs → (∀ b, is_reachable r b → balanced ins outs b) →
  exact ins outs.
Proof.
  intros [[_ Hin Hout _ _ _] _] Hbal. cbn [fl_in fl_out] in Hin, Hout.
  assert (∀ b v, live b v → is_reachable r b → v ∈ set_of ins b) as Hlive.
  { induction 1 as [b v H|b s v Hs Hd _ IH Hp|b s v Hs Hd Hp]; intros Hr;
      destruct (Hbal b Hr) as (out & Eout & -> & _); apply elem_flow_in; [by left|right..]; (split; [|done]);
      apply (flow_out_correct _ _ _ Eout); exists s; (split; [done|]); [left|by right].
    split; [|done]. apply IH. by eapply Hclosed. }
  intros b v Hr. split; (split; [auto|]); [auto|]. intros (s & Hs & Hor).
  destruct (Hbal b Hr) as (out & Eout & _ & ->). apply (flow_out_correct _ _ _ Eout).
  exists s. split; [done|]. destruct Hor as [[H1 H2]|]; [left|by right]. split; [|done].
  apply Hlive; [done|]. by eapply Hclosed.
Qed.

Lemma flow_loop_exact fuel k ins outs ins' outs' : stage k ins outs →
  flow_loop f r succ n fuel ins outs = Ok (ins', outs') → exact ins' outs'.
Proof.
  revert k ins outs. induction fuel as [|fuel IH]; intros k ins outs Hst H; cbn [flow_loop] in H; [done|].
  apply result_bind_ok in H as (s & Hs & H). destruct (fl_changed s) eqn:Hc.
  - eapply IH; [|exact H]. by eapply round_stage.
  - injection H as <- <-. apply (balanced_exact (S k)); [by eapply round_stage|].
    unfold flow_round in Hs. apply flow_fold_stable in Hs as (_ & Ein & Eou & Hall); [|apply Hst|done].
    rewrite Ein, Eou. intros b Hr. apply Hall; [by apply elem_of_rounds|done].
Qed.

(** Values that can be live at all. *)
Definition operands_of : gset Z :=
  list_to_set (f_blocks f ≫= λ b, b_instructions b ≫= i_operands).

Lemma operands_of_block b block i v :
  f_blocks f !! b = Some block → i ∈ b_instructions block → v ∈ i_operands i → v ∈ operands_of.
Proof.
  intros Hb Hi Hv. apply elem_of_list_to_set, list_elem_of_bind. exists block.
  split; [|by eapply list_elem_of_lookup_2]. apply list_elem_of_bind. by exists i.
Qed.

Lemma leading_phis_in i l : i ∈ leading_phis l → i ∈ l ∧ i_opcode i = OpPhi.
Proof.
  induction l as [|x l IH]; cbn [leading_phis]; [by intros ?%elem_of_nil|].
  destruct (is_op (i_opcode x) OpPhi) eqn:E; [|by intros ?%elem_of_nil]. apply is_op_phi in E.
  intros [->|H]%elem_of_cons; [split; [by left|done]|]. apply IH in H as [H1 H2]. split; [by right|done].
Qed.

Lemma phi_arg_operand s b v : phi_arg (phis_of f s) b v → v ∈ operands_of.
Proof.
  intros (i & e & Hi & _ & Hv). unfold phis_of in Hi. destruct (f_blocks f !! s) as [block|] eqn:E.
  - apply leading_phis_in in Hi as [Hi _]. eapply operands_of_block; [done..|]. by eapply list_elem_of_lookup_2.
  - by apply elem_of_nil in Hi.
Qed.

Lemma live_operand b v : live b v → v ∈ operands_of.
Proof.
  induction 1 as [b v H|b s v _ _ _ IH _|b s v _ _ Hp]; [|done|by eapply phi_arg_operand].
  rewrite sets_of_block in H by done. destruct (f_blocks f !! b) as [block|] eqn:E; [|cbn in H; set_solver].
  apply block_sets_correct in H as (k & i & Hk & _ & Hv & _). eapply operands_of_block; [done| |done].
  by eapply list_elem_of_lookup_2.
Qed.

Lemma live_after_operand b v : live_after b v → v ∈ operands_of.
Proof. intros (s & _ & [[H _]|H]); [by eapply live_operand | by eapply phi_arg_operand]. Qed.

(** ** The iteration returns *)

Hypothesis Hphi : ∀ s i, i ∈ phis_of f s → phi_complete i.
Let bound := 2 * Z.of_nat (size operands_of).

Lemma flow_block_returns k done s b : flow_inv k done s → fl_entries s + bound ≤ 1000000 →
  ∃ s', flow_block f r succ s b = Ok s' ∧ fl_entries s' ≤ fl_entries s + bound.
Proof.
  intros Hinv He. unfold flow_block. destruct (is_reachable r b) eqn:Er; cbn [negb].
  2: { exists s. split; [done|]. unfold bound. lia. }
  destruct (flow_out_returns (fl_in s) b Hphi) as [out Eout]. rewrite Eout. cbn [mbind result_mbind result_bind].
  pose proof (flow_out_correct _ _ _ Eout) as Hv.
  assert (out ⊆ operands_of) as Hout.
  { intros v (s0 & Hs & [[H1 _]|H1])%Hv; [|by eapply phi_arg_operand].
    eapply live_operand. by apply (fi_in _ _ _ Hinv). }
  assert (flow_in f out b ⊆ operands_of) as Hin.
  { intros v [Hu|[Ho _]]%elem_flow_in; [|auto]. by eapply live_operand, live_use. }
  cbv zeta. set (same := bool_decide (flow_in f out b = set_of (fl_in s) b) && bool_decide (out = set_of (fl_out s) b)).
  set (s1 := if same then s
             else mkFlow (<[b:=flow_in f out b]> (fl_in s)) (<[b:=out]> (fl_out s)) true (fl_entries s)).
  assert (size (set_of (fl_in s1) b) ≤ size operands_of ∧ size (set_of (fl_out s1) b) ≤ size operands_of)%nat
    as [H1 H2].
  { unfold s1. destruct same.
    - split; apply subseteq_size; intros v Hvs; [eapply live_operand, (fi_in _ _ _ Hinv), Hvs|
        eapply live_after_operand, (fi_out _ _ _ Hinv), Hvs].
    - cbn [fl_in fl_out]. assert (is_reachable r b) as Hb%Hbound by (by rewrite Er).
      destruct (fi_sized _ _ _ Hinv) as [L1 L2]. rewrite !set_of_insert_eq by lia.
      split; by apply subseteq_size. }
  assert (fl_entries s1 = fl_entries s) as Ee by (unfold s1; by destruct same).
  unfold limit. rewrite (proj2 (Z.ltb_ge _ _)) by (unfold bound in He; lia). rewrite throw_if_false.
  eexists. split; [done|]. cbn [fl_entries]. unfold bound. lia.
Qed.

Lemma flow_fold_returns k l done s : flow_inv k done s →
  fl_entries s + Z.of_nat (length l) * bound ≤ 1000000 → ∃ s', foldM (flow_block f r succ) s l = Ok s'.
Proof.
  revert done s. induction l as [|b l IH]; intros done s Hinv He; cbn [foldM]; [eauto|].
  cbn [length] in He. assert (0 ≤ bound) by (unfold bound; lia).
  destruct (flow_block_returns k done s b Hinv) as (s1 & E1 & He1); [nia|]. rewrite E1. cbn [mbind result_mbind result_bind].
  eapply IH; [by eapply flow_block_inv|]. nia.
Qed.

Lemma stage_balanced ins outs : stage (S n) ins outs → ∀ b, is_reachable r b → balanced ins outs b.
Proof.
  intros [[_ Hin Hout Hl _ _] Ha] b Hr. cbn [fl_in fl_out] in *.
  destruct (flow_out_returns ins b Hphi) as [out Eout]. exists out.
  assert (∀ c v, is_reachable r c → v ∈ set_of ins c ↔ live c v) as Hins.
  { intros c v Hc. split; [apply Hin|]. intros Hv. apply Hl; [done|]. by apply live_within_S, live_within_n. }
  assert (∀ v, v ∈ out ↔ live_after b v) as Ho.
  { intros v. rewrite (flow_out_correct _ _ _ Eout). unfold live_after.
    split; intros (s & Hs & Hor); exists s; (split; [done|]); rewrite Hins in *; try done; by eapply Hclosed. }
  split_and!; [done|..]; apply set_eq; intros v.
  - by rewrite Hins, live_iff, elem_flow_in, Ho.
  - rewrite Ho. split; [apply Hout|]. apply Ha; [lia|done].
Qed.

(** A round per edge of a shortest path, one more for the sets after the
    blocks and one to see that nothing changes. *)
Lemma flow_loop_returns fuel k ins outs : Z.of_nat n * bound ≤ 1000000 →
  stage k ins outs → (k ≤ S n)%nat → (n + 2 ≤ fuel + k)%nat →
  ∃ res, flow_loop f r succ n fuel ins outs = Ok res.
Proof.
  intros Hlim. revert k ins outs. induction fuel as [|fuel IH]; intros k ins outs Hst Hk Hf; [lia|].
  cbn [flow_loop].
  destruct (flow_fold_returns k (rev (seq 0 n)) (λ _, False) (mkFlow ins outs false 0)) as [s Hs].
  { apply Hst. }
  { rewrite length_rev, length_seq. cbn [fl_entries]. lia. }
  unfold flow_round. rewrite Hs. cbn [mbind result_mbind result_bind]. destruct (fl_changed s) eqn:Hc; [|eauto].
  assert (k < S n)%nat as Hlt.
  { destruct (decide (k = S n)) as [->|]; [|lia].
    apply flow_fold_balanced in Hs; [congruence|apply Hst|by apply stage_balanced|done]. }
  apply (IH (S k)); [by eapply round_stage|lia|lia].
Qed.
End Live.
