(* ===== verification/Analysis.v ===== *)
(** * Analysis: what the optimizer's control-flow analysis promises

    The properties of [ControlFlow.analyze], stated on the graph and the
    instructions of the analysed function: edges and dominators, dominance
    frontiers, natural loops, liveness, and that the analysis of a verified
    function returns. *)

From S2P Require Import Prelude Target Types Token Pointer IR Graph IRVerify IRSound.
From S2P Require Import ControlFlow FlowSound LoopSound Liveness.

Notation succs := ControlFlow.successors.
Notation preds := ControlFlow.predecessors.

(** The parts of an analysis. *)
Record parts (f : IRFunction) (a : IRControlFlow) : Prop := {
  pa_size : (0 < length (f_blocks f))%nat;
  pa_edges : edges f = Ok (succs a, preds a);
  pa_entry : 0 ≤ f_entry f < zlen (f_blocks f);
  pa_reach : reach a = find_reachable (length (f_blocks f)) (succs a) (entry_of f);
  pa_doms : find_dominators (length (f_blocks f)) (reach a) (preds a) (entry_of f) = Ok (m_dominators a);
  pa_idoms : immediate_dominator a
             = find_idoms (length (f_blocks f)) (reach a) (m_dominators a) (entry_of f);
  pa_children : children a = find_children (length (f_blocks f)) (immediate_dominator a);
  pa_frontier : frontier a
                = find_frontier (length (f_blocks f)) (reach a) (preds a) (immediate_dominator a);
  pa_loops : loops a = loop_list (length (f_blocks f))
               (find_loops (length (f_blocks f)) (reach a) (m_dominators a) (succs a) (preds a));
  pa_depth : loop_depth a = depth_of (loops a) <$> seq 0 (length (f_blocks f));
  pa_flow : flow_loop f (reach a) (succs a) (length (f_blocks f)) (length (f_blocks f) + 2)
              (replicate (length (f_blocks f)) ∅) (replicate (length (f_blocks f)) ∅) = Ok (live_in a, live_out a)
}.

Lemma analyze_parts f a : analyze f = Ok a → parts f a.
Proof.
  unfold analyze. intros H. cbv zeta in H.
  apply result_bind_ok in H as ([] & Hl%throw_if_ok & H).
  apply result_bind_ok in H as ([succ pred] & He & H).
  apply result_bind_ok in H as (e & Hentry%at_lt & H).
  apply result_bind_ok in H as (doms & Hd & H).
  apply result_bind_ok in H as ([ins outs] & Hf & [= <-]).
  unfold zlen in Hentry. rewrite length_replicate in Hentry. bool_facts.
  split; cbn; try done. lia.
Qed.

(** The graph the analysis works on. *)
Section Parts.
Context (f : IRFunction) (a : IRControlFlow).
Hypothesis Hid : ids_ok f.
Hypothesis Ha : parts f a.
Notation n := (length (f_blocks f)).
Notation entry := (entry_of f).

Lemma parts_edges : edges_are n (succs a, preds a) (function_edges (f_blocks f) 0).
Proof. apply edges_correct; [done | apply Ha]. Qed.

Lemma parts_cfg b s : s ∈ adjacent (succs a) b ↔ s ∈ adjacent (cfg f) b.
Proof.
  rewrite (ea_succ _ _ _ parts_edges b s), elem_of_function_edges, elem_of_cfg. unfold instr_at. split.
  - intros (block & i & Hb & Hi & Hop & t & Ht & ->). apply list_elem_of_lookup in Hi as [k Hk].
    exists k, i. rewrite Hb. split; [done|]. unfold IRSound.instruction_targets.
    rewrite bool_decide_false by done. by apply list_elem_of_fmap_2.
  - intros (k & i & Hi & Hs). destruct (f_blocks f !! b) as [block|] eqn:E; [|done]. cbn in Hi.
    unfold IRSound.instruction_targets in Hs. case_bool_decide as Hop; [by apply elem_of_nil in Hs|].
    apply list_elem_of_fmap in Hs as (t & -> & Ht). exists block, i. split_and!; try done; [|by exists t].
    by eapply list_elem_of_lookup_2.
Qed.

Lemma parts_walk l b : walk (succs a) entry l b ↔ walk (cfg f) entry l b.
Proof. split; apply walk_ext; intros x s; apply parts_cfg. Qed.

Lemma parts_reachable b : reachable (succs a) entry b ↔ reachable (cfg f) entry b.
Proof. unfold reachable. by setoid_rewrite parts_walk. Qed.

Lemma parts_dominates d b : dominates (succs a) entry d b ↔ dominates (cfg f) entry d b.
Proof. unfold dominates. by setoid_rewrite parts_walk. Qed.

Lemma parts_graph : graph_ok n (succs a) (preds a) entry.
Proof. apply (graph_ok_of _ _ _ _ parts_edges). pose proof (pa_entry _ _ Ha). unfold zlen, entry_of in *. lia. Qed.

Lemma parts_reach b : is_reachable (reach a) b ↔ reachable (succs a) entry b.
Proof.
  rewrite (pa_reach _ _ Ha). apply find_reachable_correct.
  - apply parts_graph.
  - apply parts_edges.
  - apply parts_graph.
Qed.

Lemma parts_doms : (length (m_dominators a) = n ∧ Forall (wf_bits n) (m_dominators a)) ∧
  ∀ b d, is_reachable (reach a) b →
    has_bit (doms_of (m_dominators a) b) d = true ↔ dominates (succs a) entry d b.
Proof.
  destruct (find_dominators_correct _ _ _ _ _ parts_graph parts_reach) as (doms & E & H1 & H2 & H3).
  rewrite (pa_doms _ _ Ha) in E. by injection E as <-.
Qed.

Lemma parts_dominates_ d b :
  dominates_ (reach a) (m_dominators a) d b = true ↔ reachable (succs a) entry b ∧ dominates (succs a) entry d b.
Proof. eapply dominates_iff; [apply parts_reach | apply parts_doms]. Qed.

Lemma parts_idom b i : idom_of (immediate_dominator a) b = Some i ↔
  reachable (succs a) entry b ∧ b ≠ entry ∧ idom_spec (succs a) entry b i.
Proof.
  rewrite (pa_idoms _ _ Ha). destruct parts_doms as [Hwf Hd]. split.
  - intros H. by eapply idom_of_Some in H; [|apply parts_graph|apply parts_reach|..].
  - intros (Hb & Hne & Hi).
    destruct (idom_of_exists _ _ _ _ _ _ parts_graph parts_reach Hwf Hd b Hb Hne) as (j & Hj & Hjs).
    rewrite Hj. f_equal. by eapply idom_unique.
Qed.

Lemma reachable_edge_lt p x : x ∈ adjacent (succs a) p → (p < n)%nat ∧ (x < n)%nat.
Proof. intros H%(ea_succ _ _ _ parts_edges). by apply (ea_range _ _ _ parts_edges) in H. Qed.

(** What the liveness iteration relies on. *)
Lemma parts_flow :
  (∀ b s, s ∈ adjacent (succs a) b → (b < n)%nat ∧ (s < n)%nat) ∧
  (∀ b s, is_reachable (reach a) b → s ∈ adjacent (succs a) b → is_reachable (reach a) s) ∧
  (∀ b, is_reachable (reach a) b → (b < n)%nat).
Proof.
  split_and!.
  - apply reachable_edge_lt.
  - intros b s [l Hl]%parts_reach Hs. apply parts_reach. exists (l ++ [s]). by eapply walk_step.
  - intros b [l Hl]%parts_reach. eapply (walk_lt _ _ _ _ parts_graph); [exact Hl|]. by eapply walk_last.
Qed.
End Parts.

(* ------------------------------------------------------------------ *)
(** ** Liveness on the instructions *)

(** [v] is live into block [b]: some path from its start reads [v] before
    anything writes it.  A phi reads the operand of an edge at the end of the
    edge's source. *)
Inductive live_into (f : IRFunction) : nat → Z → Prop :=
  | live_into_use b v : exposed (instructions_of f b) v → live_into f b v
  | live_into_edge b v : live_out_of f b v → (∀ i, i ∈ instructions_of f b → ¬ defines i v) → live_into f b v
with live_out_of (f : IRFunction) : nat → Z → Prop :=
  | live_out_edge b s v : s ∈ adjacent (cfg f) b → live_into f s v →
      (∀ i, i ∈ instructions_of f s → i_opcode i = OpPhi → ¬ defines i v) → live_out_of f b v
  | live_out_phi b s v : s ∈ adjacent (cfg f) b → phi_arg (leading_phis (instructions_of f s)) b v →
      live_out_of f b v.

Scheme live_into_mind := Minimality for live_into Sort Prop
  with live_out_mind := Minimality for live_out_of Sort Prop.
Combined Scheme live_mutual from live_into_mind, live_out_mind.

Section LiveInto.
Context (f : IRFunction) (a : IRControlFlow).
Hypothesis Hid : ids_ok f.
Hypothesis Ha : parts f a.

Lemma sets_spec b v :
  (v ∈ uses (sets_of f b) ↔ exposed (instructions_of f b) v)
  ∧ (v ∉ defs (sets_of f b) ↔ ∀ i, i ∈ instructions_of f b → ¬ defines i v)
  ∧ (v ∉ phi_defs (sets_of f b) ↔ ∀ i, i ∈ instructions_of f b → i_opcode i = OpPhi → ¬ defines i v).
Proof.
  assert (sets_of f b = block_sets (mkBlock 0 "" (instructions_of f b))) as ->.
  { rewrite sets_of_block by done. unfold instructions_of. by destruct (f_blocks f !! b). }
  destruct (block_sets_correct (mkBlock 0 "" (instructions_of f b)) v) as (-> & -> & ->).
  cbn [b_instructions]. naive_solver.
Qed.

Lemma phis_spec b : phis_of f b = leading_phis (instructions_of f b).
Proof. unfold phis_of, instructions_of. by destruct (f_blocks f !! b). Qed.

Lemma live_into_iff b v : live f (succs a) b v ↔ live_into f b v.
Proof.
  pose proof (parts_cfg f a Hid Ha) as Hc. split.
  - induction 1 as [b v H|b s v Hs Hd _ IH Hp|b s v Hs Hd Hp].
    + apply live_into_use. by apply sets_spec.
    + apply live_into_edge; [|by apply sets_spec]. eapply live_out_edge; [by apply Hc|done|by apply sets_spec].
    + apply live_into_edge; [|by apply sets_spec]. eapply live_out_phi; [by apply Hc|]. by rewrite <- phis_spec.
  - revert b v. apply (live_into_mind f (live f (succs a)) (live_after f (succs a))).
    + intros b v H. apply live_use. by apply sets_spec.
    + intros b v _ (s & Hs & [[H1 H2]|H1]) Hd%sets_spec; [by eapply live_edge|by eapply live_phi].
    + intros b s v Hs _ Hl Hp%sets_spec. exists s. split; [by apply Hc|by left].
    + intros b s v Hs Hp. exists s. split; [by apply Hc|right]. by rewrite phis_spec.
Qed.

Lemma live_after_iff b v : live_after f (succs a) b v ↔ live_out_of f b v.
Proof.
  pose proof (parts_cfg f a Hid Ha) as Hc. split.
  - intros (s & Hs%Hc & [[H1 H2]|H1]).
    + eapply live_out_edge; [done|by apply live_into_iff|by apply sets_spec].
    + eapply live_out_phi; [done|]. by rewrite <- phis_spec.
  - destruct 1 as [b s v Hs Hl Hp|b s v Hs Hp]; exists s; (split; [by apply Hc|]).
    + left. split; [by apply live_into_iff|by apply sets_spec].
    + right. by rewrite phis_spec.
Qed.
End LiveInto.

(* ------------------------------------------------------------------ *)
(** ** Properties *)

Definition reaches (f : IRFunction) (b : nat) : Prop := reachable (cfg f) (entry_of f) b.
Definition doms (f : IRFunction) (d b : nat) : Prop := dominates (cfg f) (entry_of f) d b.

(** A back edge: from [b] to a block that dominates it. *)
Definition back_edge (f : IRFunction) (b h : nat) : Prop := reaches f b ∧ h ∈ adjacent (cfg f) b ∧ doms f h b.

(** The body of the natural loop of [h]: what reaches one of its back edges
    without passing [h]. *)
Inductive in_body (f : IRFunction) (h : nat) : nat → Prop :=
  | body_header : in_body f h h
  | body_latch b : back_edge f b h → in_body f h b
  | body_pred x p : in_body f h x → x ≠ h → x ∈ adjacent (cfg f) p → reaches f p → in_body f h p.

Lemma in_body_dominated f h x : (∃ b, back_edge f b h) → in_body f h x → reaches f x ∧ doms f h x.
Proof.
  intros (b0 & Hb0 & _ & Hd0).
  induction 1 as [|b (Hb & _ & Hd)|x p _ [Hx Hd] Hne Hp Hr]; [|done|].
  - split; [|apply dominates_refl]. by eapply dominates_reachable.
  - split; [done|]. apply (dominates_pred (cfg f) (entry_of f) h x p); auto.
Qed.

Lemma parts_natural f a : ids_ok f → parts f a →
  ∀ h, match find_loops (length (f_blocks f)) (reach a) (m_dominators a) (succs a) (preds a) !! h with
  | Some loop => header loop = h ∧ (∃ b, back_edge f b h) ∧ (∀ b, b ∈ latches loop ↔ back_edge f b h)
      ∧ (∀ x, x ∈ blocks loop ↔ in_body f h x)
  | None => ∀ b, ¬ back_edge f b h end.
Proof.
  intros Hid Ha. pose proof (parts_cfg f a Hid Ha) as Hc. pose proof (parts_graph f a Hid Ha) as Hg.
  pose proof (parts_reach f a Hid Ha) as Hr.
  assert (∀ p x, p ∈ adjacent (preds a) x ↔ x ∈ adjacent (cfg f) p) as Hp.
  { intros p x. by rewrite (graph_pred _ _ _ _ Hg), Hc. }
  assert (∀ b, is_reachable (reach a) b ↔ reaches f b) as Hrf.
  { intros b. rewrite Hr. by apply parts_reachable. }
  set (E := λ b h, (b < length (f_blocks f))%nat ∧ is_reachable (reach a) b ∧ h ∈ adjacent (succs a) b
                   ∧ dominates_ (reach a) (m_dominators a) h b).
  assert (∀ b h, E b h ↔ back_edge f b h) as HE.
  { intros b h. unfold E, back_edge. rewrite Hc, Hrf, Is_true_true, (parts_dominates_ f a Hid Ha).
    rewrite (parts_reachable f a Hid Ha), (parts_dominates f a Hid Ha). unfold reaches, doms. split; [naive_solver|].
    intros (H1 & H2 & H3). split_and!; try done. apply (parts_reachable f a Hid Ha) in H1.
    destruct H1 as [l Hl]. eapply (walk_lt _ _ _ _ Hg); [exact Hl|]. by eapply walk_last. }
  assert (∀ h x, in_loop (reach a) (preds a) h (λ b, E b h) x ↔ in_body f h x) as Hbody.
  { intros h x. split.
    - induction 1 as [|b Hb|x p _ IH Hne Hpx Hrp]; [constructor 1|constructor 2; by apply HE|].
      apply (body_pred _ _ x); [done..|by apply Hp|by apply Hrf].
    - induction 1 as [|b Hb|x p _ IH Hne Hpx Hrp]; [constructor 1|constructor 2; by apply HE|].
      apply (in_loop_body _ _ _ _ x); [done..|by apply Hp|by apply Hrf]. }
  intros h. pose proof (find_loops_correct (length (f_blocks f)) (preds a) (reach a)) as H.
  specialize (H ltac:(apply (parts_edges f a Hid Ha))).
  specialize (H ltac:(intros b p Hbp; apply Hp, Hc in Hbp; apply (reachable_edge_lt f a Hid Ha p b Hbp))).
  specialize (H (succs a) (m_dominators a) h). fold E in H.
  destruct (find_loops _ _ _ _ _ !! h) as [loop|]; [|intros b Hb%HE; by apply (H b)].
  destruct H as (H1 & (b & H2) & H3 & H4). split_and!; [done|exists b; by apply HE| |].
  - intros b'. by rewrite H3, HE.
  - intros x. by rewrite H4, Hbody.
Qed.

Lemma loop_list_headers n natural : (∀ h loop, natural !! h = Some loop → header loop = h) →
  NoDup (header <$> loop_list n natural).
Proof.
  intros Hh. unfold loop_list. pose proof (NoDup_seq 0 n) as Hn. revert Hn. generalize (seq 0 n) as l.
  induction l as [|h l IH]; intros Hn; [constructor|]. apply NoDup_cons in Hn as [Hx Hn]. cbn [omap list_omap].
  destruct (natural !! h) as [loop|] eqn:E; [|by apply IH]. rewrite fmap_cons. constructor; [|by apply IH].
  rewrite (Hh _ _ E). intros (loop' & Hl & (h' & Hin & E')%list_elem_of_omap)%list_elem_of_fmap.
  rewrite (Hh _ _ E') in Hl. by subst h'.
Qed.

(** C9. Graph part of the analysis: the edges are those of the terminators, the
    reachable blocks those some walk from the entry reaches, the dominator
    bits exactly the dominance relation, the immediate dominator of a block its
    nearest strict dominator, and the tree's children the inverse of that. *)
Theorem analyze_dominance (f : IRFunction) (a : IRControlFlow) :
  ids_ok f → analyze f = Ok a →
  (∀ b s, (s ∈ adjacent (succs a) b ↔ s ∈ adjacent (cfg f) b) ∧ (b ∈ adjacent (preds a) s ↔ s ∈ adjacent (cfg f) b)) ∧
  (∀ b, is_reachable (reach a) b ↔ reaches f b) ∧
  (∀ d b, dominates_ (reach a) (m_dominators a) d b = true ↔ reaches f b ∧ doms f d b) ∧
  (∀ b i, idom_of (immediate_dominator a) b = Some i ↔
     reaches f b ∧ b ≠ entry_of f ∧ i ≠ b ∧ doms f i b ∧ ∀ d, d ≠ b → doms f d b → doms f d i) ∧
  (∀ p b, b ∈ adjacent (children a) p ↔ idom_of (immediate_dominator a) b = Some p).
Proof.
  intros Hid Ha%analyze_parts. pose proof (parts_cfg f a Hid Ha) as Hc. pose proof (parts_graph f a Hid Ha) as Hg.
  split_and!.
  - intros b s. split; [apply Hc|]. rewrite (graph_pred _ _ _ _ Hg). apply Hc.
  - intros b. rewrite (parts_reach f a Hid Ha). by apply parts_reachable.
  - intros d b. rewrite (parts_dominates_ f a Hid Ha). unfold reaches, doms.
    by rewrite (parts_reachable f a Hid Ha), (parts_dominates f a Hid Ha).
  - intros b i. rewrite (parts_idom f a Hid Ha). unfold idom_spec, reaches, doms.
    setoid_rewrite (parts_reachable f a Hid Ha). setoid_rewrite (parts_dominates f a Hid Ha). done.
  - intros p b. rewrite (pa_children _ _ Ha), (pa_idoms _ _ Ha). destruct (parts_doms f a Hid Ha) as [Hwf Hd].
    eapply find_children_correct; [done|by apply parts_reach|done..].
Qed.

(** The dominance frontier of [x] holds exactly the blocks other than the entry
    that have a reachable predecessor [x] dominates, without being strictly
    dominated by [x] themselves: where values computed in [x] meet others. *)
Theorem analyze_frontier (f : IRFunction) (a : IRControlFlow) (x b : nat) :
  ids_ok f → analyze f = Ok a → b ≠ entry_of f →
  b ∈ adjacent (frontier a) x ↔
    ∃ p, b ∈ adjacent (cfg f) p ∧ reaches f p ∧ doms f x p ∧ ¬ (doms f x b ∧ x ≠ b).
Proof.
  intros Hid Ha%analyze_parts Hb. pose proof (parts_cfg f a Hid Ha) as Hc.
  pose proof (parts_graph f a Hid Ha) as Hg. destruct (parts_doms f a Hid Ha) as [Hwf Hd].
  rewrite (pa_frontier _ _ Ha), (pa_idoms _ _ Ha), find_frontier_correct; try done.
  2: by apply parts_reach.
  unfold frontier_spec, reaches, doms.
  setoid_rewrite (parts_reachable f a Hid Ha). setoid_rewrite (parts_dominates f a Hid Ha).
  setoid_rewrite (graph_pred _ _ _ _ Hg). setoid_rewrite Hc. split; [naive_solver|].
  intros (p & Hp & Hr & H). split; [|by exists p].
  destruct Hr as [l Hl]. exists (l ++ [b]). by eapply walk_step.
Qed.

(** C10. Natural loops: there is exactly one loop per header with a back edge, its
    latches are the sources of those edges, its blocks are what reaches a latch
    without passing the header, the header dominates all of them, and the loop
    depth of a block counts the loops it lies in. *)
Theorem analyze_loops (f : IRFunction) (a : IRControlFlow) :
  ids_ok f → analyze f = Ok a →
  (∀ h, (∃ b, back_edge f b h) ↔ ∃ loop, loop ∈ loops a ∧ header loop = h) ∧
  NoDup (header <$> loops a) ∧
  (∀ loop, loop ∈ loops a →
     (∀ b, b ∈ latches loop ↔ back_edge f b (header loop)) ∧
     (∀ x, x ∈ blocks loop ↔ in_body f (header loop) x) ∧
     (∀ x, x ∈ blocks loop → reaches f x ∧ doms f (header loop) x)) ∧
  (∀ b d, loop_depth a !! b = Some d →
     d = length (List.filter (λ loop, bool_decide (b ∈ blocks loop)) (loops a))).
Proof.
  intros Hid Ha%analyze_parts. set (n := length (f_blocks f)).
  set (natural := find_loops n (reach a) (m_dominators a) (succs a) (preds a)).
  assert (∀ h, match natural !! h with
      | Some loop => header loop = h ∧ (∃ b, back_edge f b h) ∧ (∀ b, b ∈ latches loop ↔ back_edge f b h)
          ∧ (∀ x, x ∈ blocks loop ↔ in_body f h x)
      | None => ∀ b, ¬ back_edge f b h end) as Hnat by by apply parts_natural.
  assert (∀ h loop, natural !! h = Some loop → (h < n)%nat) as Hlt.
  { intros h loop E. specialize (Hnat h). rewrite E in Hnat. destruct Hnat as (_ & (b & _ & Hs & _) & _).
    apply (parts_cfg f a Hid Ha) in Hs. by apply (parts_graph f a Hid Ha) in Hs. }
  assert (∀ loop, loop ∈ loops a ↔ natural !! header loop = Some loop) as Hin.
  { intros loop. rewrite (pa_loops _ _ Ha). unfold loop_list. rewrite list_elem_of_omap. split.
    - intros (h & _ & E). change (natural !! h = Some loop) in E. specialize (Hnat h). rewrite E in Hnat. destruct Hnat as [-> _]. done.
    - intros E. exists (header loop). split; [|done]. apply elem_of_seq. specialize (Hlt _ _ E). lia. }
  split_and!.
  - intros h. split.
    + intros [b Hb]. specialize (Hnat h). destruct (natural !! h) as [loop|] eqn:E; [|by destruct (Hnat b)].
      destruct Hnat as [Hh _]. exists loop. split; [apply Hin; by rewrite Hh|done].
    + intros (loop & Hl%Hin & <-). specialize (Hnat (header loop)). rewrite Hl in Hnat. by destruct Hnat as (_ & ? & _).
  - rewrite (pa_loops _ _ Ha). apply loop_list_headers. intros h loop E. change (natural !! h = Some loop) in E.
    specialize (Hnat h). rewrite E in Hnat. by destruct Hnat.
  - intros loop Hl%Hin. specialize (Hnat (header loop)). rewrite Hl in Hnat. destruct Hnat as (_ & Hex & Hla & Hbl).
    split_and!; [done..|]. intros x Hx%Hbl. by apply in_body_dominated.
  - intros b d H. rewrite (pa_depth _ _ Ha), list_lookup_fmap in H. apply fmap_Some in H as (b' & Hb' & ->).
    apply lookup_seq in Hb' as [-> _]. done.
Qed.

Lemma analyze_exact f a : ids_ok f → analyze f = Ok a → ∀ b v, reaches f b →
  (v ∈ set_of (live_in a) b ↔ live_into f b v) ∧ (v ∈ set_of (live_out a) b ↔ live_out_of f b v).
Proof.
  intros Hid Ha%analyze_parts b v Hb. rewrite <- (live_into_iff f a), <- (live_after_iff f a) by done.
  apply (flow_loop_exact f (reach a) (succs a)) with (fuel := (length (f_blocks f) + 2)%nat) (k := 0%nat)
    (ins := replicate (length (f_blocks f)) ∅) (outs := replicate (length (f_blocks f)) ∅);
    try apply (parts_flow f a Hid Ha).
  - done.
  - apply stage_0.
  - apply Ha.
  - apply (parts_reach f a Hid Ha). by apply parts_reachable.
Qed.

(** C7. Liveness is exact: at the start and at the end of every reachable block the
    sets hold exactly the values some path reads before anything writes them. *)
Theorem analyze_liveness (f : IRFunction) (a : IRControlFlow) (b : nat) (v : Z) :
  ids_ok f → analyze f = Ok a → reaches f b →
  (v ∈ set_of (live_in a) b ↔ live_into f b v) ∧ (v ∈ set_of (live_out a) b ↔ live_out_of f b v).
Proof. intros Hid Ha. by apply (analyze_exact f a). Qed.

(* ------------------------------------------------------------------ *)
(** ** Verified functions *)

Lemma verified_ids f : verifyFunction f = Ok tt → ids_ok f.
Proof. intros Hv k b. by apply verified_block_ids. Qed.

(** Ids are unsigned words. *)
Definition ids_unsigned (f : IRFunction) : Prop :=
  ∀ b k i, instr_at f b k = Some i → Forall (λ t, 0 ≤ t) (i_targets i).

(** The hardware loops carry their back edges, as after [exposeHardwareLoops]. *)
Definition loops_exposed (f : IRFunction) : Prop :=
  ∀ b k i, instr_at f b k = Some i → i_opcode i = OpHardwareLoop ∨ i_opcode i = OpHardwareLoopEnd → i_targets i ≠ [].

Section Returns.
Context (f : IRFunction).
Hypothesis Hverified : verifyFunction f = Ok tt.
Hypothesis Hunsigned : ids_unsigned f.
Hypothesis Hexposed : loops_exposed f.
Notation n := (length (f_blocks f)).

Definition graph_sized (g : list (list nat) * list (list nat)) : Prop := length g.1 = n ∧ length g.2 = n.

Lemma update_at_returns {A} (l : list A) i g : 0 ≤ i < zlen l →
  ∃ l', update_at l i g = Ok l' ∧ length l' = length l.
Proof.
  intros Hi. unfold update_at. destruct (at_total l i Hi) as [x ->]. cbn [mbind result_mbind result_bind].
  destruct (set_at l i (g x)) as [l'|e] eqn:E.
  - exists l'. split; [done|]. apply set_at_ok in E as [_ ->]. apply length_insert.
  - unfold set_at, zlen in *. repeat case_match; simplify_eq; bool_facts; lia.
Qed.

Lemma edges_returns : ∃ g, edges f = Ok g ∧ graph_sized g.
Proof.
  pose proof (verified_ids f Hverified) as Hid. pose proof (λ b k i, verified_targets f b k i Hverified) as Ht.
  apply foldM_returns; [by split; apply length_replicate|].
  intros g blk Hblk Hg. apply list_elem_of_lookup in Hblk as [b Hb]. apply foldM_returns; [done|].
  intros g' i Hi Hg'. apply list_elem_of_lookup in Hi as [k Hk].
  assert (instr_at f b k = Some i) as Hat by (unfold instr_at; by rewrite Hb).
  unfold instruction_edges.
  assert ((is_op (i_opcode i) OpHardwareLoop || is_op (i_opcode i) OpHardwareLoopEnd)
          && bool_decide (i_targets i = []) = false) as ->.
  { apply not_true_iff_false. intros [Hop%orb_true_iff Hnil%bool_decide_eq_true]%andb_true_iff.
    apply (Hexposed b k i Hat); [|done]. destruct Hop as [H|H]; apply bool_decide_eq_true in H; auto. }
  rewrite throw_if_false. cbn [mbind result_mbind result_bind].
  destruct (is_op (i_opcode i) OpPhi); [by eauto|]. apply foldM_returns; [done|].
  intros g1 t Hin [L1 L2]. pose proof (Ht b k i Hat) as Hok. pose proof (Hunsigned b k i Hat) as Hpos.
  rewrite Forall_forall in Hok, Hpos. specialize (Hok t Hin). specialize (Hpos t Hin). destruct Hok as [Hne Hlt].
  unfold add_edge, block_isValid. cbn [graph_sized] in *. unfold zlen in Hlt.
  rewrite (proj2 (Z.eqb_neq _ _) Hne), (proj2 (Z.leb_gt _ _)) by lia.
  cbn [negb orb]. rewrite throw_if_false. cbn [mbind result_mbind result_bind].
  destruct (update_at_returns g1.1 (b_id blk) (λ l, add l (Z.to_nat t))) as (s & -> & Ls).
  { rewrite (Hid b blk Hb). apply lookup_lt_Some in Hb. unfold zlen. lia. }
  cbn [mbind result_mbind result_bind].
  destruct (update_at_returns g1.2 t (λ l, add l (Z.to_nat (b_id blk)))) as (p & -> & Lp); [unfold zlen; lia|].
  exists (s, p). split; [done|]. split; cbn; lia.
Qed.

Lemma phis_complete s i : i ∈ phis_of f s → phi_complete i.
Proof.
  destruct (verified_facts f Hverified) as (p & r & ds & Hf).
  rewrite phis_spec. intros [Hi Hop]%leading_phis_in. apply list_elem_of_lookup in Hi as [k Hk].
  rewrite <- instr_at_of in Hk.
  destruct (phi_incoming _ _ _ _ Hf s k i Hk Hop) as [Hlen _]. unfold phi_complete. lia.
Qed.
End Returns.

(** C8. The analysis of a verified function returns, no iteration running into its
    round limit, when the function's hardware loops carry their back edges as
    targets ([loops_exposed]; [edges] refuses it otherwise), its target ids are
    unsigned, it has at most 8192 blocks and 100000 values, and the number of its
    blocks times twice the number of values used is at most a million. *)
Theorem analyze_returns (f : IRFunction) :
  verifyFunction f = Ok tt → ids_unsigned f → loops_exposed f →
  zlen (f_blocks f) ≤ 8192 → f_value_count f ≤ 100000 →
  zlen (f_blocks f) * (2 * Z.of_nat (size (operands_of f))) ≤ 1000000 →
  ∃ a, analyze f = Ok a.
Proof.
  intros Hv Hu Hx Hn Hc Hl. pose proof (verified_ids f Hv) as Hid.
  destruct (verified_facts f Hv) as (p & r & ds & Hf).
  pose proof (fa_blocks _ _ _ _ Hf) as Hb. pose proof (fa_entry _ _ _ _ Hf) as He.
  unfold analyze. cbv zeta. unfold limit, zlen in *.
  rewrite (proj2 (Nat.eqb_neq _ _)), !(proj2 (Z.ltb_ge _ _)) by lia. cbn [orb].
  rewrite throw_if_false. cbn [mbind result_mbind result_bind].
  destruct (edges_returns f Hv Hu Hx) as ([succ pred] & E & _). rewrite E. cbn [mbind result_mbind result_bind].
  destruct (at_total (replicate (length (f_blocks f)) false) (f_entry f)) as [x ->].
  { unfold zlen. rewrite length_replicate, He. lia. }
  cbn [mbind result_mbind result_bind].
  pose proof (edges_correct f _ Hid E) as HE. fold (entry_of f).
  assert (graph_ok (length (f_blocks f)) succ pred (entry_of f)) as Hg.
  { apply (graph_ok_of _ _ _ _ HE). unfold entry_of. rewrite He. cbn. lia. }
  destruct (find_reachable_correct (length (f_blocks f)) succ (entry_of f)) as [_ Hr];
    [apply Hg|apply HE|apply Hg|].
  destruct (find_dominators_correct _ _ _ _ _ Hg Hr) as (doms & -> & _). cbn [mbind result_mbind result_bind].
  destruct (flow_loop_returns f (find_reachable (length (f_blocks f)) succ (entry_of f)) succ) with
    (fuel := (length (f_blocks f) + 2)%nat) (k := 0%nat) (ins := replicate (length (f_blocks f)) (∅ : gset Z))
    (outs := replicate (length (f_blocks f)) (∅ : gset Z)) as [[ins outs] ->]; try done.
  - intros b s Hs%(ea_succ _ _ _ HE). by apply (ea_range _ _ _ HE) in Hs.
  - intros b s [l Hl']%Hr Hs. apply Hr. exists (l ++ [s]). by eapply walk_step.
  - intros b [l Hl']%Hr. eapply (walk_lt _ _ _ _ Hg); [exact Hl'|]. by eapply walk_last.
  - intros s i. by apply phis_complete.
  - apply stage_0.
  - lia.
  - lia.
  - by eexists.
Qed.

(** A live value's definition-free path to its read, as a walk. *)
Lemma live_into_walk f b v : live_into f b v → ∀ l, walk (cfg f) (entry_of f) (l ++ [b]) b →
  ∃ l' c, walk (cfg f) (entry_of f) (l ++ l' ++ [c]) c
    ∧ (∀ x i, x ∈ l' → i ∈ instructions_of f x → ¬ defines i v)
    ∧ (exposed (instructions_of f c) v ∨
       (∀ i, i ∈ instructions_of f c → ¬ defines i v) ∧
       ∃ s, s ∈ adjacent (cfg f) c ∧ phi_arg (leading_phis (instructions_of f s)) c v).
Proof.
  revert b v. apply (live_into_mind f
    (λ b v, ∀ l, walk (cfg f) (entry_of f) (l ++ [b]) b →
      ∃ l' c, walk (cfg f) (entry_of f) (l ++ l' ++ [c]) c
      ∧ (∀ x i, x ∈ l' → i ∈ instructions_of f x → ¬ defines i v)
      ∧ (exposed (instructions_of f c) v ∨
         (∀ i, i ∈ instructions_of f c → ¬ defines i v) ∧
         ∃ s, s ∈ adjacent (cfg f) c ∧ phi_arg (leading_phis (instructions_of f s)) c v))
    (λ b v, (∀ i, i ∈ instructions_of f b → ¬ defines i v) → ∀ l, walk (cfg f) (entry_of f) (l ++ [b]) b →
      ∃ l' c, walk (cfg f) (entry_of f) (l ++ l' ++ [c]) c
      ∧ (∀ x i, x ∈ l' → i ∈ instructions_of f x → ¬ defines i v)
      ∧ (exposed (instructions_of f c) v ∨
         (∀ i, i ∈ instructions_of f c → ¬ defines i v) ∧
         ∃ s, s ∈ adjacent (cfg f) c ∧ phi_arg (leading_phis (instructions_of f s)) c v))).
  - intros b v He l Hw. exists [], b. split; [done|]. split; [by intros ?? ?%elem_of_nil|by left].
  - intros b v _ IH Hd l Hw. by apply IH.
  - intros b s v Hs _ IH _ Hd l Hw.
    destruct (IH (l ++ [b]) (walk_step _ _ _ _ _ Hw Hs)) as (l' & c & Hc & Hl & Hr).
    exists (b :: l'), c. split; [by rewrite <- app_assoc in Hc|]. split; [|done].
    intros x i [->|Hx]%elem_of_cons; [apply Hd | by apply Hl].
  - intros b s v Hs Hp Hd l Hw. exists [], b. split; [done|]. split; [by intros ?? ?%elem_of_nil|].
    right. split; [done|]. by exists s.
Qed.

(** In a verified function nothing is live into the entry: the analysis agrees
    with the verifier that every read is preceded by a definition. *)
Theorem verified_entry_live (f : IRFunction) (a : IRControlFlow) :
  verifyFunction f = Ok tt → analyze f = Ok a → set_of (live_in a) (entry_of f) = ∅.
Proof.
  intros Hv Ha. apply set_eq. intros v. split; [|by intros ?%elem_of_empty]. intros Hin. exfalso.
  pose proof (verified_ids f Hv) as Hid. destruct (verified_facts f Hv) as (p & r & ds & Hf).
  assert (entry_of f = 0%nat) as He by (unfold entry_of; by rewrite (fa_entry _ _ _ _ Hf)).
  destruct (analyze_exact f a Hid Ha (entry_of f) v) as [Hlive _].
  { exists [entry_of f]. constructor. }
  apply Hlive in Hin. destruct (live_into_walk f _ v Hin []) as (l & c & Hw & Hl & Hr); [constructor|].
  cbn [app] in Hw. rewrite He in Hw.
  assert (∀ b k i, instr_at f b k = Some i → producesValue i = true → i_result i = v →
    (∀ i, i ∈ instructions_of f b → ¬ defines i v) → False) as Hdef.
  { intros b k i Hi Hp Hres Hn. apply (Hn i); [rewrite instr_at_of in Hi; by eapply list_elem_of_lookup_2|].
    split; [|done]. destruct (p_checked _ _ _ (fa_pass _ _ _ _ Hf) _ _ _ I Hi) as [_ _ _ Hr' _ _].
    destruct Hr' as [(_ & Hne & _)|(Hpf & _)]; [|congruence]. unfold value_isValid.
    by rewrite (proj2 (Z.eqb_neq _ _) Hne). }
  destruct Hr as [(k & i & Hk & Hop & Hvi & Hbefore)|(Hn & s & Hs & i & e & Hi & Ht & Hvi)].
  - rewrite <- instr_at_of in Hk. pose proof (use_computed _ _ _ _ Hf l c k i v Hw Hk Hop Hvi) as Hc.
    unfold computed_before in Hc. apply elem_of_app in Hc as [Hc|Hc].
    + apply elem_of_computed in Hc as (b & j & i' & Hb & Hi' & Hp & Hres).
      apply (Hdef b j i' Hi' Hp Hres). intros x Hx. by apply (Hl b).
    + apply elem_of_results in Hc as (j & i' & Hj & Hp & Hres). apply lookup_take_Some in Hj as [Hj Hlt].
      rewrite <- instr_at_of in Hj. apply (Hbefore j i' Hlt); [by rewrite <- instr_at_of|]. split; [|done].
      destruct (p_checked _ _ _ (fa_pass _ _ _ _ Hf) _ _ _ I Hj) as [_ _ _ Hr' _ _].
      destruct Hr' as [(_ & Hne & _)|(Hpf & _)]; [|congruence]. unfold value_isValid.
      by rewrite (proj2 (Z.eqb_neq _ _) Hne).
  - apply leading_phis_in in Hi as [Hi Hop]. apply list_elem_of_lookup in Hi as [k Hk].
    rewrite <- instr_at_of in Hk.
    destruct (phi_computed _ _ _ _ Hf l c s k i Hw Hs Hk Hop) as (j & w & t & Hw' & Ht' & Ec & Hc & Huniq).
    assert (e = j) as -> by (eapply Huniq; [exact Ht|by rewrite Nat2Z.id]).
    rewrite Hw' in Hvi. injection Hvi as ->.
    apply elem_of_computed in Hc as (b & j' & i' & Hb & Hi' & Hp & Hres).
    apply (Hdef b j' i' Hi' Hp Hres). intros x Hx. apply elem_of_app in Hb as [Hb|Hb]; [by apply (Hl b)|].
    apply list_elem_of_singleton in Hb as ->. by apply Hn.
Qed.

(* ------------------------------------------------------------------ *)
(** ** Witnesses *)

(** A counting loop: 0 enters 1, 1 leaves to 3 or runs 2, which returns to 1. *)
Definition counting : IRFunction :=
  let blk n code := mkBlock n "" code in
  mkFunction "count" "count" word [] 0 false false
    [blk 0 [plain_instr OpConstant word 1 [] [] "" 0 0; plain_instr OpConstant word 2 [] [] "" 10 0;
            plain_instr OpBranch default_type 0 [] [1] "" 0 0];
     blk 1 [plain_instr OpPhi word 3 [1; 5] [0; 2] "" 0 0; plain_instr OpBinary boolean 4 [3; 2] [] "<" 0 0;
            plain_instr OpCondBranch default_type 0 [4] [2; 3] "" 0 0];
     blk 2 [plain_instr OpBinary word 5 [3; 2] [] "+" 0 0; plain_instr OpBranch default_type 0 [] [1] "" 0 0];
     blk 3 [plain_instr OpReturn word 0 [3] [] "" 0 0]]
    0 5 false [] [].

Example counting_verified : verifyFunction counting = Ok tt.
Proof. vm_compute. reflexivity. Qed.

Lemma counting_ids : ids_ok counting.
Proof. intros k b H. do 4 (destruct k as [|k]; [by injection H as <-|]). done. Qed.

(** The analysis of the sample: dominator tree, frontier, loop, liveness. *)
Example counting_analyzed : ∃ a, analyze counting = Ok a ∧
  immediate_dominator a = [None; Some 0%nat; Some 1%nat; Some 1%nat] ∧ children a = [[1]; [2; 3]; []; []]%nat ∧
  frontier a = [[]; [1]; [1]; []]%nat ∧ loop_depth a = [0; 1; 1; 0]%nat ∧
  header <$> loops a = [1%nat] ∧ elements <$> live_in a = [[]; [2]; [3; 2]; [3]].
Proof. eexists. split; [vm_compute; reflexivity|]. vm_compute. done. Qed.

Lemma analyze_dominance_witness : ∃ a, analyze counting = Ok a ∧
  reaches counting 3 ∧ ∀ d, d ≠ 3%nat → doms counting d 3 → doms counting d 1.
Proof.
  destruct (analyze counting) as [a|] eqn:E; [|vm_compute in E; discriminate E].
  destruct (analyze_dominance counting a counting_ids E) as (_ & _ & _ & Hi & _).
  exists a. split; [reflexivity|]. destruct (proj1 (Hi 3%nat 1%nat)) as (Hr & _ & _ & _ & Hd).
  - vm_compute in E. injection E as <-. vm_compute. reflexivity.
  - exact (conj Hr Hd).
Defined.

Lemma analyze_frontier_witness :
  ∃ p, 1%nat ∈ adjacent (cfg counting) p ∧ reaches counting p ∧ doms counting 2 p ∧ ¬ (doms counting 2 1 ∧ 2%nat ≠ 1%nat).
Proof.
  destruct (analyze counting) as [a|] eqn:E; [|vm_compute in E; discriminate E].
  apply (analyze_frontier counting a 2 1 counting_ids E); [vm_compute; lia|].
  vm_compute in E. injection E as <-. apply (bool_decide_unpack _). vm_compute. exact I.
Defined.

Lemma analyze_loops_witness : ∃ a loop, analyze counting = Ok a ∧ loop ∈ loops a ∧ header loop = 1%nat ∧
  ∀ x, x ∈ blocks loop → reaches counting x ∧ doms counting 1 x.
Proof.
  destruct (analyze counting) as [a|] eqn:E; [|vm_compute in E; discriminate E].
  destruct (analyze_loops counting a counting_ids E) as (_ & _ & Hl & _).
  destruct (loops a) as [|loop l] eqn:El; [vm_compute in E; injection E as <-; discriminate El|].
  exists a, loop. destruct (Hl loop) as (_ & _ & Hd); [by left|]. assert (header loop = 1%nat) as Hh.
  { vm_compute in E. injection E as <-. vm_compute in El. injection El as <- <-. reflexivity. }
  rewrite Hh in Hd. rewrite El. split_and!; [reflexivity|by left|exact Hh|exact Hd].
Defined.

Lemma analyze_liveness_witness : live_into counting 2 3.
Proof.
  destruct (analyze counting) as [a|] eqn:E; [|vm_compute in E; discriminate E].
  apply (analyze_liveness counting a 2 3 counting_ids E).
  - exists ([0; 1] ++ [2])%nat. exact (walk_steps (cfg counting) 0 [0%nat] 0 [1; 2]%nat (walk_entry _ _) eq_refl).
  - vm_compute in E. injection E as <-. apply (bool_decide_unpack _). vm_compute. exact I.
Defined.

Lemma analyze_returns_witness : ∃ a, analyze counting = Ok a.
Proof.
  apply (analyze_returns counting).
  - vm_compute. reflexivity.
  - intros b k i H. unfold instr_at in H. destruct (f_blocks counting !! b) as [blk|] eqn:E; [|discriminate H].
    assert (Forall (λ b, Forall (λ i, Forall (λ t, 0 ≤ t) (i_targets i)) (b_instructions b)) (f_blocks counting)) as Hall
      by (apply (bool_decide_unpack _); vm_compute; exact I).
    rewrite Forall_lookup in Hall. specialize (Hall b blk E). rewrite Forall_lookup in Hall. exact (Hall k i H).
  - intros b k i H. unfold instr_at in H. destruct (f_blocks counting !! b) as [blk|] eqn:E; [|discriminate H].
    assert (Forall (λ b, Forall (λ i, i_opcode i = OpHardwareLoop ∨ i_opcode i = OpHardwareLoopEnd → i_targets i ≠ [])
      (b_instructions b)) (f_blocks counting)) as Hall by (apply (bool_decide_unpack _); vm_compute; exact I).
    rewrite Forall_lookup in Hall. specialize (Hall b blk E). rewrite Forall_lookup in Hall. exact (Hall k i H).
  - vm_compute. discriminate.
  - vm_compute. discriminate.
  - vm_compute. discriminate.
Defined.

Lemma verified_entry_live_witness : ∃ a, analyze counting = Ok a ∧ set_of (live_in a) 0 = ∅.
Proof.
  destruct (analyze counting) as [a|] eqn:E; [|vm_compute in E; discriminate E].
  exists a. split; [reflexivity|]. apply (verified_entry_live counting a); [vm_compute; reflexivity | exact E].
Defined.
