(* ===== verification/LoopIds.v ===== *)
(** * LoopIds: the numbers of hardware loops

    In a verified function no two hardware-loop setups, and no two ends, have the
    same loop number: what [verify_shape] records about the loops it has met. *)

From S2P Require Import Prelude Token IR Graph IRVerify IRSound.

(** ** Sorted association lists *)

Fixpoint ascending {A} (m : list (Z * A)) : Prop :=
  match m with
  | [] => True
  | (k, _) :: m => (∀ k' x, (k', x) ∈ m → k < k') ∧ ascending m
  end.

Lemma update_key_elem {A} (d : A) g k m k' x : (k', x) ∈ update_key d g k m → k' = k ∨ ∃ y, (k', y) ∈ m.
Proof.
  induction m as [|[k0 x0] m IH]; cbn [update_key].
  - intros [= -> _]%list_elem_of_singleton. by left.
  - destruct (Z.eqb_spec k k0) as [->|]; [|destruct (Z.ltb_spec k k0)].
    + intros [[= -> _]|]%elem_of_cons; [by left|right; exists x; by right].
    + intros [[= -> _]|]%elem_of_cons; [by left|right; by exists x].
    + intros [[= -> <-]|[->|[y ?]]%IH]%elem_of_cons; [right; exists x; by left|by left|right; exists y; by right].
Qed.
Lemma update_key_ascending {A} (d : A) g k m : ascending m → ascending (update_key d g k m).
Proof.
  induction m as [|[k0 x0] m IH]; cbn [update_key ascending]; intros Hm.
  - split; [|done]. intros k' x H. by apply elem_of_nil in H.
  - destruct Hm as [H1 H2]. destruct (Z.eqb_spec k k0) as [->|]; [done|]. destruct (Z.ltb_spec k k0); cbn [ascending].
    + split; [|done]. intros k' x [[= -> _]|Hin]%elem_of_cons; [done|]. pose proof (H1 _ _ Hin). lia.
    + split; [|by apply IH]. intros k' x [->|[y Hy]]%update_key_elem; [lia|by eapply H1].
Qed.
Lemma find_key_none {A} (m : list (Z * A)) k : (∀ k' x, (k', x) ∈ m → k < k') → find_key m k = None.
Proof.
  induction m as [|[k0 x0] m IH]; intros H; [done|]. cbn [find_key]. pose proof (H k0 x0 ltac:(left)).
  destruct (Z.eqb_spec k0 k); [lia|]. apply IH. intros k' x Hin. apply (H k' x). by right.
Qed.
Lemma find_update_key {A} (d : A) g k m k' : ascending m →
  find_key (update_key d g k m) k' = if k' =? k then Some (g (default d (find_key m k))) else find_key m k'.
Proof.
  induction m as [|[k0 x0] m IH]; intros Hm; cbn [update_key find_key].
  - cbn. rewrite (Z.eqb_sym k k'). done.
  - destruct Hm as [H1 H2]. rewrite (Z.eqb_sym k0 k). destruct (Z.eqb_spec k k0) as [->|Hne]; cbn [find_key].
    + rewrite (Z.eqb_sym k0 k'). by destruct (k' =? k0).
    + destruct (Z.ltb_spec k k0); cbn [find_key].
      * rewrite (Z.eqb_sym k k'). destruct (k' =? k); [|done].
        rewrite find_key_none; [done|]. intros k'' x Hin. pose proof (H1 _ _ Hin). lia.
      * rewrite IH by done. destruct (Z.eqb_spec k0 k') as [->|]; [|done]. rewrite (proj2 (Z.eqb_neq k' k)) by lia. done.
Qed.

(** ** Setups and ends *)

Definition scope_at (m : list (Z * HardwareScope)) (n : Z) : HardwareScope := default no_scope (find_key m n).

(** The setups, or the ends, of a set of instructions. *)
Definition seen (op : IROpcode) (P : nat → nat → Prop) (f : IRFunction) (n : Z) (b k : nat) : Prop :=
  ∃ i, P b k ∧ instr_at f b k = Some i ∧ i_opcode i = op ∧ i_loop_id i = n.
Record numbered (f : IRFunction) (P : nat → nat → Prop) (m : list (Z * HardwareScope)) : Prop := {
  nu_ascending : ascending m;
  nu_setup : ∀ n b k, seen OpHardwareLoop P f n b k → is_Some (h_setup (scope_at m n));
  nu_end : ∀ n b k, seen OpHardwareLoopEnd P f n b k → is_Some (h_end (scope_at m n));
  nu_setups : ∀ n b k b' k', seen OpHardwareLoop P f n b k → seen OpHardwareLoop P f n b' k' → b = b' ∧ k = k';
  nu_ends : ∀ n b k b' k', seen OpHardwareLoopEnd P f n b k → seen OpHardwareLoopEnd P f n b' k' → b = b' ∧ k = k'
}.

Lemma scope_at_update g k m n : ascending m →
  scope_at (update_key no_scope g k m) n = if n =? k then g (scope_at m k) else scope_at m n.
Proof. intros Hm. unfold scope_at. rewrite find_update_key by done. by destruct (n =? k). Qed.

Lemma numbered_ext f P Q m : (∀ b k i, instr_at f b k = Some i → P b k ↔ Q b k) → numbered f P m → numbered f Q m.
Proof.
  intros H [H1 H2 H3 H4 H5]. assert (∀ op n b k, seen op Q f n b k → seen op P f n b k) as Hs.
  { intros op n b k (i & Hq & Hi & ? & ?). exists i. split; [by apply (H b k i Hi)|done]. }
  split; [done|..]; intros; eauto.
Qed.

(** One instruction. *)
Lemma numbered_step f P m m' b k i : numbered f P m → instr_at f b k = Some i → ¬ P b k → verify_shape b i m = Ok m' →
  numbered f (λ b' k', P b' k' ∨ b' = b ∧ k' = k) m'.
Proof.
  intros [H1 H2 H3 H4 H5] Hi HP H.
  assert (∀ op n b' k', seen op (λ b' k', P b' k' ∨ b' = b ∧ k' = k) f n b' k' →
    seen op P f n b' k' ∨ b' = b ∧ k' = k ∧ i_opcode i = op ∧ i_loop_id i = n) as Hseen.
  { intros op n b' k' (j & [Hp|[-> ->]] & Hj & Hop & Hn); [left; by exists j|right]. rewrite Hi in Hj. by injection Hj as ->. }
  assert (i_opcode i = OpHardwareLoop ∧ h_setup (scope_at m (i_loop_id i)) = None ∧
      m' = update_key no_scope (λ s, mkScope (Some (i, b)) (h_end s) (h_leave s)) (i_loop_id i) m
    ∨ i_opcode i = OpHardwareLoopEnd ∧ h_end (scope_at m (i_loop_id i)) = None ∧
      m' = update_key no_scope (λ s, mkScope (h_setup s) (Some (i, b)) (h_leave s)) (i_loop_id i) m
    ∨ i_opcode i ≠ OpHardwareLoop ∧ i_opcode i ≠ OpHardwareLoopEnd ∧
      (m' = m ∨ m' = update_key no_scope (λ s, mkScope (h_setup s) (h_end s) (Some (i, b))) (i_loop_id i) m)) as Hcase.
  { unfold verify_shape in H. destruct (i_opcode i); inv_result; auto 10.
    - left. split; [done|]. split; [|done]. unfold scope_at. bool_facts. by apply eq_None_not_Some.
    - right; left. split; [done|]. split; [|done]. unfold scope_at. bool_facts. by apply eq_None_not_Some. }
  clear H. destruct Hcase as [(Hop & Hn & ->)|[(Hop & Hn & ->)|(Hop1 & Hop2 & Hm)]].
  - split; [by apply update_key_ascending|..].
    + intros n b' k' Hs. rewrite scope_at_update by done. destruct (Z.eqb_spec n (i_loop_id i)); [by eexists|].
      apply Hseen in Hs as [Hs|(_ & _ & _ & ?)]; [by eapply H2|congruence].
    + intros n b' k' [Hs|(_ & _ & ? & _)]%Hseen; [|congruence]. rewrite scope_at_update by done.
      destruct (Z.eqb_spec n (i_loop_id i)) as [->|]; [|by eapply H3]. cbn. by eapply H3.
    + intros n b1 k1 b2 k2 [Hs1|(-> & -> & _ & E1)]%Hseen [Hs2|(-> & -> & _ & E2)]%Hseen; [by eapply H4|..|done].
      * apply H2 in Hs1 as [x Hx]. congruence.
      * apply H2 in Hs2 as [x Hx]. congruence.
    + intros n b1 k1 b2 k2 [Hs1|(_ & _ & ? & _)]%Hseen [Hs2|(_ & _ & ? & _)]%Hseen; try congruence. by eapply H5.
  - split; [by apply update_key_ascending|..].
    + intros n b' k' [Hs|(_ & _ & ? & _)]%Hseen; [|congruence]. rewrite scope_at_update by done.
      destruct (Z.eqb_spec n (i_loop_id i)) as [->|]; [|by eapply H2]. cbn. by eapply H2.
    + intros n b' k' Hs. rewrite scope_at_update by done. destruct (Z.eqb_spec n (i_loop_id i)); [by eexists|].
      apply Hseen in Hs as [Hs|(_ & _ & _ & ?)]; [by eapply H3|congruence].
    + intros n b1 k1 b2 k2 [Hs1|(_ & _ & ? & _)]%Hseen [Hs2|(_ & _ & ? & _)]%Hseen; try congruence. by eapply H4.
    + intros n b1 k1 b2 k2 [Hs1|(-> & -> & _ & E1)]%Hseen [Hs2|(-> & -> & _ & E2)]%Hseen; [by eapply H5|..|done].
      * apply H3 in Hs1 as [x Hx]. congruence.
      * apply H3 in Hs2 as [x Hx]. congruence.
  - assert (ascending m' ∧ ∀ n, h_setup (scope_at m' n) = h_setup (scope_at m n) ∧ h_end (scope_at m' n) = h_end (scope_at m n)) as [Ha Hsame].
    { destruct Hm as [->| ->]; [done|]. split; [by apply update_key_ascending|]. intros n. rewrite scope_at_update by done.
      by destruct (Z.eqb_spec n (i_loop_id i)) as [->|]. }
    split; [done|..].
    + intros n b' k' [Hs|(_ & _ & ? & _)]%Hseen; [|congruence]. rewrite (proj1 (Hsame n)). by eapply H2.
    + intros n b' k' [Hs|(_ & _ & ? & _)]%Hseen; [|congruence]. rewrite (proj2 (Hsame n)). by eapply H3.
    + intros n b1 k1 b2 k2 [Hs1|(_ & _ & ? & _)]%Hseen [Hs2|(_ & _ & ? & _)]%Hseen; try congruence. by eapply H4.
    + intros n b1 k1 b2 k2 [Hs1|(_ & _ & ? & _)]%Hseen [Hs2|(_ & _ & ? & _)]%Hseen; try congruence. by eapply H5.
Qed.

Lemma first_pass_numbered f p : first_pass f = Ok p → numbered f (λ _ _, True) (hardware_scopes p).
Proof.
  intros H. unfold first_pass in H.
  apply (foldM_indexed (λ b st, numbered f (λ b' _, (b' < b)%nat) (hardware_scopes st))) in H.
  - eapply numbered_ext; [|exact H]. intros b k i Hi. cbn. split; [done|]. intros _.
    unfold instr_at in Hi. destruct (f_blocks f !! b) eqn:E; [|done]. by eapply lookup_lt_Some.
  - intros b blk st st' Hblk Hst Hstep. unfold pass1_block in Hstep.
    apply result_bind_ok in Hstep as ([] & _ & Hstep). apply result_bind_ok in Hstep as ([] & _ & Hstep).
    apply result_bind_ok in Hstep as (st1 & Hfold & Hstep). apply result_bind_ok in Hstep as ([] & _ & [= <-]).
    apply (foldM_indexed (λ k st, numbered f (λ b' k', (b' < b)%nat ∨ (b' = b ∧ (k' < k)%nat)) (hardware_scopes st))) in Hfold.
    + eapply numbered_ext; [|exact Hfold]. intros b' k' i Hi. cbn. split; [lia|].
      intros Hb. destruct (decide (b' = b)) as [->|]; [right|lia]. split; [done|].
      unfold instr_at in Hi. rewrite Hblk in Hi. cbn in Hi. by eapply lookup_lt_Some.
    + intros k i s s' Hi Hs Hone. unfold pass1_instruction in Hone.
      do 5 (apply result_bind_ok in Hone as (? & _ & Hone)). apply result_bind_ok in Hone as (scopes & Hshape & Hone).
      apply result_bind_ok in Hone as (g & _ & [= <-]). cbn [hardware_scopes].
      eapply numbered_ext; [|eapply (numbered_step f _ _ _ b k i); [exact Hs| | |exact Hshape]].
      * intros b' k' i' _. cbn. lia.
      * unfold instr_at. by rewrite Hblk.
      * cbn. lia.
    + eapply numbered_ext; [|exact Hst]. intros b' k' i' _. cbn. lia.
  - split; [done|..]; intros n b k; try (intros b' k'); intros (i & Hb & _); lia.
Qed.

(** No two setups and no two ends have the same number. *)
Lemma loop_ids_unique f op b k i b' k' i' : verifyFunction f = Ok tt → op = OpHardwareLoop ∨ op = OpHardwareLoopEnd →
  instr_at f b k = Some i → i_opcode i = op → instr_at f b' k' = Some i' → i_opcode i' = op → i_loop_id i = i_loop_id i' →
  b = b' ∧ k = k'.
Proof.
  intros Hv Hop Hi Hi1 Hi' Hi1' E.
  assert (∃ p, first_pass f = Ok p) as [p Hp%first_pass_numbered].
  { unfold verifyFunction in Hv. apply result_bind_ok in Hv as (x & Hv & _). unfold verify_structure in Hv.
    apply result_bind_ok in Hv as ([] & _ & Hv). apply result_bind_ok in Hv as (p & Hp & _). by exists p. }
  destruct Hop as [-> | ->].
  - eapply (nu_setups _ _ _ Hp (i_loop_id i)); [by exists i|by exists i'].
  - eapply (nu_ends _ _ _ Hp (i_loop_id i)); [by exists i|by exists i'].
Qed.
