(* ===== verification/AddressProof.v ===== *)
(** * AddressProof: proofs about addresses and ranges

    Models [GSUAddressProof.cpp]: facts about the values of a function (an
    interval and an alignment of a scalar, of an offset into the frame or of an
    absolute address), their propagation through the instructions, and the
    questions the back end asks ([provesAccess], [provesOffset], [scalarBounds],
    [multiplyKind]).  The members of the class are [AddressProof]; [run] builds it.

    The definitions are pointers into the function, here instructions; a value
    without one has [None].  [ScalarFold.convert] is [ConstantEvaluator::convert]. *)

From S2P Require Import Prelude Target Types Token IR ScalarFold Graph ControlFlow.

(* ------------------------------------------------------------------ *)
(** ** Facts *)

Inductive Kind := Unknown | Scalar | Frame | Absolute.
#[global] Instance Kind_eq_dec : EqDecision Kind.
Proof. solve_decision. Defined.

Record Fact := mkFact { kind : Kind; low : Z; high : Z; al : Z }.
#[global] Instance Fact_eq_dec : EqDecision Fact.
Proof. solve_decision. Defined.

Definition no_fact : Fact := mkFact Unknown 0 0 1.

Inductive MultiplyKind := FullWord | SignedByte | UnsignedByte.

Definition nearRam (t : CType) : bool :=
  (0 <? pointer_level t) && negb (isFarPointer t) && bool_decide (space t = SpaceRam).

(** [while (alignment > 1 && magnitude % alignment) alignment >>= 1] from 65536,
    which is 17 rounds at most. *)
Fixpoint halve_until (fuel : nat) (magnitude alignment : Z) : Z :=
  match fuel with
  | O => alignment
  | S fuel =>
      if (1 <? alignment) && negb (magnitude mod alignment =? 0)
      then halve_until fuel magnitude (Z.shiftr alignment 1) else alignment
  end.
Definition alignmentOfOffset (offset : Z) : Z := halve_until 17 (if offset <? 0 then - offset else offset) 65536.

Definition scalarRange (t : CType) : Fact :=
  if negb (IRScalarFold.scalar t) then no_fact
  else if bool_decide (base t = BaseBool) then mkFact Scalar 0 1 1
  else if bool_decide (base t = BaseByte)
  then mkFact Scalar (if is_unsigned t then 0 else -128) (if is_unsigned t then 255 else 127) 1
  else mkFact Scalar (if is_unsigned t then 0 else -32768) (if is_unsigned t then 65535 else 32767) 1.

Definition commonAlignment (alignment offset : Z) : Z := Z.min alignment (alignmentOfOffset offset).

(** The members of the class. *)
Record AddressProof := mkProof {
  m_facts : list Fact;
  m_inductions : list Fact;
  m_definition_blocks : list IRBlockId;
  m_constraints : list (gmap Z Fact);
  m_frame_low : Z;
  m_frame_end : Z;
  m_checked_frame : bool;
  m_block_count : Z
}.
Definition no_proof : AddressProof := mkProof [] [] [] [] 0 0 false 0.

Definition set_facts (facts : list Fact) (s : AddressProof) : AddressProof :=
  mkProof facts (m_inductions s) (m_definition_blocks s) (m_constraints s) (m_frame_low s) (m_frame_end s)
    (m_checked_frame s) (m_block_count s).
Definition set_refined (inductions : list Fact) (constraints : list (gmap Z Fact)) (s : AddressProof) : AddressProof :=
  mkProof (m_facts s) inductions (m_definition_blocks s) constraints (m_frame_low s) (m_frame_end s)
    (m_checked_frame s) (m_block_count s).

(** [v[i]] where the code has compared [i] with the size. *)
Definition nth_or {A} (d : A) (l : list A) (i : Z) : A := if i <? 0 then d else default d (l !! Z.to_nat i).

Definition get (s : AddressProof) (value : IRValueId) : Fact :=
  if negb (value_isValid value) || (zlen (m_facts s) <=? value) then no_fact else nth_or no_fact (m_facts s) value.

(** [get(value, block)] *)
Definition get_in (s : AddressProof) (value : IRValueId) (block : IRBlockId) : Fact :=
  let fact := get s value in
  if negb (bool_decide (kind fact = Scalar)) || (zlen (m_constraints s) <=? block) then fact else
  match nth_or ∅ (m_constraints s) block !! value with
  | None => fact
  | Some c =>
      let l := Z.max (low fact) (low c) in
      let h := Z.min (high fact) (high c) in
      if l <=? h then mkFact (kind fact) l h (al fact) else fact
  end.

(* ------------------------------------------------------------------ *)
(** ** Control flow: induction variables and conditions *)

Definition sameInteger (a b : CType) : bool :=
  IRScalarFold.scalar a && IRScalarFold.scalar b && bool_decide (base a = base b)
  && Bool.eqb (is_unsigned a) (is_unsigned b).

Definition is_operation (i : IRInstruction) (s : string) : bool := String.eqb (i_operation i) s.

(** A binary instruction with its two operands. *)
Definition is_binary (i : IRInstruction) : bool := is_op (i_opcode i) OpBinary && (zlen (i_operands i) =? 2).
Definition operand_of (i : IRInstruction) (n : nat) : IRValueId := default InvalidValue (i_operands i !! n).
Definition target_of (i : IRInstruction) (n : nat) : IRBlockId := default InvalidBlock (i_targets i !! n).

Section Refine.
Context (f : IRFunction) (definitions : list (option IRInstruction)) (cfg : IRControlFlow).

Definition definition (value : IRValueId) : option IRInstruction :=
  if value_isValid value && (value <? zlen definitions) then nth_or None definitions value else None.

Definition literal (value : IRValueId) : option Z :=
  source ← definition value;
  if is_op (i_opcode source) OpConstant && IRScalarFold.scalar (i_type source)
  then Some (convert (i_immediate source) (i_type source)) else None.

Definition code_of (block : nat) : list IRInstruction :=
  match f_blocks f !! block with Some b => b_instructions b | None => [] end.

(** A block that holds nothing but a branch. *)
Definition only_branch (code : list IRInstruction) : bool :=
  (zlen code =? 1) && match last code with Some i => is_op (i_opcode i) OpBranch | None => false end.

Fixpoint back_through (depth block : nat) : option nat :=
  match depth with
  | O => None
  | S depth =>
      if negb (only_branch (code_of block)) || negb (Nat.eqb (length (adjacent (predecessors cfg) block)) 1)
      then Some block
      else back_through depth (default O (head (adjacent (predecessors cfg) block)))
  end.
Definition predecessorThroughEdges (block : nat) : option nat := back_through (length (f_blocks f)) block.

Fixpoint through (depth block destination : nat) : bool :=
  match depth with
  | O => false
  | S depth =>
      if Nat.eqb block destination then true
      else match code_of block with
           | [i] => if is_op (i_opcode i) OpBranch && (zlen (i_targets i) =? 1)
                    then through depth (Z.to_nat (target_of i 0)) destination else false
           | _ => false
           end
  end.
Definition throughEdgesTo (block destination : IRBlockId) : bool :=
  through (length (f_blocks f)) (Z.to_nat block) (Z.to_nat destination).

(** The value a phi of a loop header has from outside, the block it comes from,
    and the value from the latch. *)
Record Incoming := mkIncoming { initial : IRValueId; preheader : IRBlockId; update : IRValueId }.
Definition in_blocks (loop : Loop) (b : IRBlockId) : bool := bool_decide (Z.to_nat b ∈ blocks loop).
Definition incoming (loop : Loop) (latch : nat) (phi : IRInstruction) : Incoming :=
  foldl (λ x edge,
    let target := target_of phi edge in
    if target =? Z.of_nat latch then mkIncoming (initial x) (preheader x) (operand_of phi edge)
    else if negb (in_blocks loop target) then mkIncoming (operand_of phi edge) target (update x)
    else x) (mkIncoming InvalidValue InvalidBlock InvalidValue) [0; 1]%nat.

(** The step of an update [phi + literal] or [phi - literal]. *)
Definition stride_of (phi : IRInstruction) (value : IRValueId) : option Z :=
  next ← definition value;
  if is_binary next && (operand_of next 0 =? i_result phi) && sameInteger (i_type next) (i_type phi) then
    step ← literal (operand_of next 1);
    if is_operation next "+" then Some step else if is_operation next "-" then Some (- step) else None
  else None.

(** How often a guarded loop runs, by the induction its condition tests. *)
Definition trip_count (start bound stride : Z) (op : string) (full : Fact) : option Z :=
  let trips :=
    if (0 <? stride) && (String.eqb op "<" || String.eqb op "<=") then
      let last := bound - (if String.eqb op "<" then 1 else 0) in
      Some (if last <? start then 0 else Z.quot (last - start) stride + 1)
    else if (stride <? 0) && (String.eqb op ">" || String.eqb op ">=") then
      let last := bound + (if String.eqb op ">" then 1 else 0) in
      Some (if start <? last then 0 else Z.quot (start - last) (- stride) + 1)
    else None in
  let after := start + Z.max 0 (default (-1) trips) * stride in
  if (65535 <? default (-1) trips) || (after <? low full) || (high full <? after) then None else trips.

Definition guarded_trips (loop : Loop) (latch : nat) (comparison : IRInstruction) : option Z :=
  control ← definition (operand_of comparison 0);
  end_ ← definition (operand_of comparison 1);
  if is_op (i_opcode control) OpPhi && (zlen (i_operands control) =? 2) && (zlen (i_targets control) =? 2)
     && sameInteger (i_type control) (i_type end_) then
    let x := incoming loop latch control in
    start ← literal (initial x);
    bound ← literal (operand_of comparison 1);
    stride ← stride_of control (update x);
    trip_count start bound stride (i_operation comparison) (scalarRange (i_type control))
  else None.

(** The comparison that decides at the header whether the loop goes on. *)
Definition guard_of (loop : Loop) (latch : nat) (terminal : IRInstruction) : option IRInstruction :=
  if negb (is_op (i_opcode terminal) OpCondBranch && (zlen (i_operands terminal) =? 1) && (zlen (i_targets terminal) =? 2))
  then None
  else if in_blocks loop (target_of terminal 0) && negb (in_blocks loop (target_of terminal 1))
          && Nat.eqb (length (adjacent (predecessors cfg) (Z.to_nat (target_of terminal 0)))) 1
          && dominates_ (reach cfg) (m_dominators cfg) (Z.to_nat (target_of terminal 0)) latch
  then
    comparison ← definition (operand_of terminal 0);
    if is_binary comparison then Some comparison else None
  else None.

(** An interval inside the range of the type, or nothing. *)
Definition within (full : Fact) (l h : Z) : option (Z * Z) :=
  if (l <? low full) || (high full <? h) then None else Some (l, h).

(** The bounds of an induction variable its own loop condition gives. *)
Definition guarded_bounds (comparison phi : IRInstruction) (start step : Z) (full : Fact) : option (Z * Z) :=
  end_ ← definition (operand_of comparison 1);
  if negb (sameInteger (i_type end_) (i_type phi)) then None else
  bound ← literal (operand_of comparison 1);
  let op := i_operation comparison in
  if (0 <? step) && (String.eqb op "<" || String.eqb op "<=") then
    let active_high := bound - (if String.eqb op "<" then 1 else 0) in
    within full start (if start <=? active_high then active_high + step else start)
  else if (step <? 0) && (String.eqb op ">" || String.eqb op ">=") then
    let active_low := bound + (if String.eqb op ">" then 1 else 0) in
    within full (if active_low <=? start then active_low + step else start) start
  else None.

(** The trip count of a counted hardware loop around [preheader] and [latch]. *)
Definition counted_trips (loop : Loop) (preheader : nat) (latch : nat) : option Z :=
  setup_block ← predecessorThroughEdges preheader;
  finish_block ← predecessorThroughEdges latch;
  setup ← last (code_of setup_block);
  finish ← last (code_of finish_block);
  if negb (is_op (i_opcode setup) OpHardwareLoop) || negb (is_op (i_opcode finish) OpHardwareLoopEnd)
     || negb (i_compiler_generated_loop setup) || negb (i_loop_id setup =? i_loop_id finish)
     || negb (zlen (i_operands setup) =? 1) || negb (zlen (i_targets setup) =? 1)
     || negb (block_isValid (i_loop_target setup)) || (zlen (f_blocks f) <=? i_loop_target setup)
     || negb (zlen (i_targets finish) =? 2)
  then None
  else if negb (throughEdgesTo (target_of setup 0) (Z.of_nat (header loop)))
     || negb (throughEdgesTo (i_loop_target setup) (Z.of_nat (header loop)))
     || negb (throughEdgesTo (target_of finish 0) (Z.of_nat (header loop)))
     || bool_decide (setup_block ∈ blocks loop) || negb (bool_decide (finish_block ∈ blocks loop))
     || in_blocks loop (target_of finish 1)
  then None else
  trips ← literal (operand_of setup 0);
  if (trips <? 1) || (65535 <? trips) then None else Some trips.

Definition counted_bounds (loop : Loop) (preheader latch : nat) (start step : Z) (full : Fact) : option (Z * Z) :=
  trips ← counted_trips loop preheader latch;
  let last := start + (trips - 1) * step in
  let after := start + trips * step in
  if (after <? low full) || (high full <? after) then None
  else within full (Z.min start last) (Z.max start last).

(** The fact about a phi of a loop header. *)
Definition induction (loop : Loop) (latch : nat) (guard : option IRInstruction) (trips : option Z) (phi : IRInstruction)
    : option Fact :=
  if negb (is_op (i_opcode phi) OpPhi) || negb (zlen (i_operands phi) =? 2) || negb (zlen (i_targets phi) =? 2)
     || negb (bool_decide (base (i_type phi) = BaseWord)) || negb (IRScalarFold.scalar (i_type phi)) then None else
  let x := incoming loop latch phi in
  if negb (value_isValid (initial x)) || (zlen (f_blocks f) <=? preheader x) then None else
  start ← literal (initial x);
  step ← stride_of phi (update x);
  if step =? 0 then None else
  let full := scalarRange (i_type phi) in
  bounds ←
    match guard with
    | Some comparison =>
        if operand_of comparison 0 =? i_result phi then guarded_bounds comparison phi start step full
        else match trips with
             | Some trips =>
                 let after := start + trips * step in within full (Z.min start after) (Z.max start after)
             | None => counted_bounds loop (Z.to_nat (preheader x)) latch start step full
             end
    | None => counted_bounds loop (Z.to_nat (preheader x)) latch start step full
    end;
  Some (mkFact Scalar bounds.1 bounds.2 (commonAlignment (commonAlignment 65536 start) step)).

(** The work done so far, and whether its limit has been reached. *)
Record Refined := mkRefined {
  r_inductions : list Fact;
  r_constraints : list (gmap Z Fact);
  r_work : Z;
  r_entries : Z;
  r_stopped : bool
}.
Definition stop (r : Refined) : Refined := mkRefined (r_inductions r) (r_constraints r) (r_work r) (r_entries r) true.
Definition next_work (r : Refined) : Refined :=
  mkRefined (r_inductions r) (r_constraints r) (r_work r + 1) (r_entries r) (r_stopped r).

Definition refine_phi (loop : Loop) (latch : nat) (guard : option IRInstruction) (trips : option Z) (r : Refined)
    (phi : IRInstruction) : Refined :=
  if r_stopped r then r else
  let r := next_work r in
  if 1000000 <? r_work r then stop r else
  match induction loop latch guard trips phi with
  | Some fact =>
      mkRefined (<[Z.to_nat (i_result phi) := fact]> (r_inductions r)) (r_constraints r) (r_work r) (r_entries r) false
  | None => r
  end.

(** [if (loop.latches.size() != 1 || ...) continue;] *)
Definition single_latch (loop : Loop) : option nat :=
  if Nat.eqb (length (adjacent (predecessors cfg) (header loop))) 2 then
    match elements (latches loop) with [latch] => Some latch | _ => None end
  else None.

Definition refine_loop (r : Refined) (loop : Loop) : Refined :=
  if r_stopped r then r else
  match single_latch loop, last (code_of (header loop)) with
  | Some latch, Some terminal =>
      let guard := guard_of loop latch terminal in
      let trips := guard ≫= guarded_trips loop latch in
      foldl (refine_phi loop latch guard trips) r (code_of (header loop))
  | _, _ => r
  end.

(** ** Conditions *)

(** The value a comparison with a literal tests, the literal, and the operator
    with the value on its left. *)
Definition flipped (op : string) : string :=
  if String.eqb op "<" then ">" else if String.eqb op "<=" then ">=" else
  if String.eqb op ">" then "<" else if String.eqb op ">=" then "<=" else op.
Definition tested (comparison : IRInstruction) : option (IRValueId * Z * string) :=
  match literal (operand_of comparison 1) with
  | Some bound => Some (operand_of comparison 0, bound, i_operation comparison)
  | None =>
      bound ← literal (operand_of comparison 0);
      Some (operand_of comparison 1, bound, flipped (i_operation comparison))
  end.

(** What the outcome of the test says about the value. *)
Definition condition_fact (op : string) (positive : bool) (bound : Z) (fact : Fact) : option Fact :=
  let above l := Some (mkFact (kind fact) (Z.max (low fact) l) (high fact) (al fact)) in
  let below h := Some (mkFact (kind fact) (low fact) (Z.min (high fact) h) (al fact)) in
  if String.eqb op "<" then if positive then below (bound - 1) else above bound
  else if String.eqb op "<=" then if positive then below bound else above (bound + 1)
  else if String.eqb op ">" then if positive then above (bound + 1) else below bound
  else if String.eqb op ">=" then if positive then above bound else below (bound - 1)
  else if (String.eqb op "==" && positive) || (String.eqb op "!=" && negb positive)
  then Some (mkFact (kind fact) bound bound (al fact))
  else None.

(** [constraints.emplace(value, fact)], or the intersection with what is there. *)
Definition constrain (value : IRValueId) (fact : Fact) (candidate : nat) (r : Refined) : Refined :=
  let m := default ∅ (r_constraints r !! candidate) in
  match m !! value with
  | None =>
      mkRefined (r_inductions r) (<[candidate := <[value := fact]> m]> (r_constraints r)) (r_work r) (r_entries r + 1) false
  | Some old =>
      let both := mkFact (kind old) (Z.max (low old) (low fact)) (Z.min (high old) (high fact)) (al old) in
      mkRefined (r_inductions r) (<[candidate := <[value := both]> m]> (r_constraints r)) (r_work r) (r_entries r) false
  end.

Definition refine_candidate (target : nat) (value : IRValueId) (fact : Fact) (r : Refined) (candidate : nat) : Refined :=
  if r_stopped r then r else
  let r := next_work r in
  if (1000000 <? r_work r) || (65536 <=? r_entries r) then stop r
  else if dominates_ (reach cfg) (m_dominators cfg) target candidate then constrain value fact candidate r
  else r.

Definition refine_edge (terminal : IRInstruction) (value : IRValueId) (type : CType) (bound : Z) (op : string)
    (r : Refined) (edge : nat) : Refined :=
  let target := Z.to_nat (target_of terminal edge) in
  if negb (Nat.eqb (length (adjacent (predecessors cfg) target)) 1) || negb (is_reachable (reach cfg) target) then r else
  match condition_fact op (Nat.eqb edge 0) bound (scalarRange type) with
  | Some fact =>
      if high fact <? low fact then r
      else foldl (refine_candidate target value fact) r (seq 0 (length (f_blocks f)))
  | None => r
  end.

(** What a conditional branch tests. *)
Definition condition_of (terminal : IRInstruction) : option (IRValueId * CType * Z * string) :=
  if negb (is_op (i_opcode terminal) OpCondBranch) || negb (zlen (i_operands terminal) =? 1)
     || negb (zlen (i_targets terminal) =? 2) then None else
  comparison ← definition (operand_of terminal 0);
  if negb (is_binary comparison) then None else
  '(value, bound, op) ← tested comparison;
  source ← definition value;
  other ← definition (operand_of comparison (if value =? operand_of comparison 0 then 1 else 0));
  if sameInteger (i_type source) (i_type other) then Some (value, i_type source, bound, op) else None.

Definition refine_block (r : Refined) (block : IRBasicBlock) : Refined :=
  if r_stopped r then r else
  match last (b_instructions block) with
  | Some terminal =>
      if negb (is_reachable (reach cfg) (Z.to_nat (b_id block))) then r else
      match condition_of terminal with
      | Some (value, type, bound, op) => foldl (refine_edge terminal value type bound op) r [0; 1]%nat
      | None => r
      end
  | None => r
  end.

(** The loops, then the conditions. *)
Definition refine (values : nat) : Refined :=
  let r := mkRefined (replicate values no_fact) (replicate (length (f_blocks f)) ∅) 0 0 false in
  let r := foldl refine_loop r (loops cfg) in
  foldl refine_block r (f_blocks f).
End Refine.

(** A hardware loop whose backedge is not in the graph. *)
Definition hidden_loop (i : IRInstruction) : bool :=
  (is_op (i_opcode i) OpHardwareLoop || is_op (i_opcode i) OpHardwareLoopEnd) && bool_decide (i_targets i = []).

Definition refineControlFlow (f : IRFunction) (definitions : list (option IRInstruction)) (s : AddressProof)
    : result AddressProof :=
  if bool_decide (f_blocks f = []) || (512 <? zlen (f_blocks f)) || (8192 <? f_value_count f)
     || negb (block_isValid (f_entry f)) || (zlen (f_blocks f) <=? f_entry f)
     || existsb (λ b, existsb hidden_loop (b_instructions b)) (f_blocks f) then Ok s else
  cfg ← analyze f;
  let r := refine f definitions cfg (length (m_facts s)) in
  Ok (set_refined (r_inductions r) (r_constraints r) s).

(* ------------------------------------------------------------------ *)
(** ** Propagation *)

Definition displaced (s : AddressProof) (address displacement : Fact) : Fact :=
  let l := low displacement in
  let h := high displacement in
  if negb (bool_decide (kind address = Frame)) && negb (bool_decide (kind address = Absolute)) then no_fact
  else if (l <? -65535) || (65535 <? h) || (h <? l) then no_fact
  else
    let r := mkFact (kind address) (low address + l) (high address + h) (Z.min (al address) (al displacement)) in
    if bool_decide (kind r = Absolute) && ((low r <? 0) || (65535 <? high r)) then no_fact
    else if bool_decide (kind r = Frame)
            && (negb (m_checked_frame s) || (low r <? m_frame_low s) || (m_frame_end s <=? high r)) then no_fact
    else r.

(** A mathematical interval is useful where no result wraps. *)
Definition boundedScalar (full : Fact) (l h alignment : Z) : Fact :=
  if negb (bool_decide (kind full = Scalar)) || (l <? low full) || (high full <? h) || (h <? l) then full
  else mkFact Scalar l h alignment.

Definition point (value : Z) : Fact := mkFact Scalar value value (commonAlignment 65536 value).

Definition transfer_constant (i : IRInstruction) (full : Fact) : Fact :=
  if bool_decide (kind full = Scalar) then point (convert (i_immediate i) (i_type i))
  else if nearRam (i_type i) && (0 <=? i_immediate i) && (i_immediate i <=? 65535)
  then mkFact Absolute (i_immediate i) (i_immediate i) (commonAlignment 65536 (i_immediate i))
  else no_fact.

(** The union of the incoming facts, of one kind; a cyclic pointer phi has none. *)
Fixpoint merge_incoming (s : AddressProof) (full merged : Fact) (operands : list IRValueId) : Fact :=
  match operands with
  | [] => merged
  | v :: operands =>
      let next := get s v in
      if bool_decide (kind next = Unknown) || negb (bool_decide (kind next = kind merged)) then full
      else merge_incoming s full
             (mkFact (kind merged) (Z.min (low merged) (low next)) (Z.max (high merged) (high next))
                (Z.min (al merged) (al next))) operands
  end.
Definition transfer_phi (s : AddressProof) (i : IRInstruction) (full a : Fact) : Fact :=
  let known := nth_or no_fact (m_inductions s) (i_result i) in
  if (i_result i <? zlen (m_inductions s)) && bool_decide (kind known = Scalar) then known
  else if bool_decide (i_operands i = []) then full
  else merge_incoming s full a (i_operands i).

Definition find_local (locals : list (SymbolId * Symbol)) (symbol : SymbolId) : option Symbol :=
  if symbol =? 0 then None else find_key locals symbol.

Definition transfer_address (s : AddressProof) (locals : list (SymbolId * Symbol)) (i : IRInstruction) (a : Fact) : Fact :=
  if is_operation i "member" && (zlen (i_operands i) =? 1) && (0 <=? i_immediate i) && (i_immediate i <=? 65535)
  then displaced s a (mkFact Scalar (i_immediate i) (i_immediate i) (commonAlignment (al a) (i_immediate i)))
  else if negb (m_checked_frame s) then no_fact
  else
    let offset :=
      if is_operation i "" then
        match find_local locals (i_symbol_id i) with
        | Some local => if 2 <? alignment (sym_type local) then None else Some (stackOffset local)
        | None => None
        end
      else if is_operation i "temporary" then Some (i_immediate i) else None in
    match offset with
    | Some offset =>
        if (offset <? m_frame_low s) || (m_frame_end s <=? offset) then no_fact
        else mkFact Frame offset offset (commonAlignment 2 offset)
    | None => no_fact
    end.

Definition transfer_offset (s : AddressProof) (i : IRInstruction) (a b : Fact) : Fact :=
  let stride := i_immediate i in
  let negative := is_operation i "-" in
  let l := if negative then - (high b * stride) else low b * stride in
  let h := if negative then - (low b * stride) else high b * stride in
  if (l <? -65535) || (65535 <? h) then no_fact
  else displaced s a (mkFact Scalar l h (if l =? h then commonAlignment (al a) l else commonAlignment (al a) stride)).

Definition transfer_pointer_cast (definitions : list (option IRInstruction)) (i : IRInstruction) (a : Fact) : Fact :=
  if negb (zlen (i_operands i) =? 1) || (zlen definitions <=? operand_of i 0) then no_fact else
  match nth_or None definitions (operand_of i 0) with
  | None => no_fact
  | Some source =>
      if nearRam (i_type source) then a
      else if bool_decide (kind a = Scalar) && (0 <=? low a) && (high a <=? 65535)
      then mkFact Absolute (low a) (high a) (al a) else no_fact
  end.

(** The operands of an instruction whose facts are points. *)
Fixpoint point_operands (s : AddressProof) (definitions : list (option IRInstruction)) (block : IRBlockId)
    (operands : list IRValueId) : option (list IRScalarFold.Operand) :=
  match operands with
  | [] => Some []
  | v :: operands =>
      if zlen definitions <=? v then None else
      source ← nth_or None definitions v;
      rest ← point_operands s definitions block operands;
      Some (IRScalarFold.mkOperand (Some (i_type source)) (low (get_in s v block)) :: rest)
  end.

Definition is_point (a : Fact) : bool := bool_decide (kind a = Scalar) && (low a =? high a).

Definition minimum (l : list Z) : Z := foldr Z.min (default 0 (head l)) l.
Definition maximum (l : list Z) : Z := foldr Z.max (default 0 (head l)) l.

Definition transfer_binary (i : IRInstruction) (full a b : Fact) : Fact :=
  let op := i_operation i in
  let bounded := boundedScalar full in
  let op_is s := String.eqb op s in
  if op_is "+"%string then bounded (low a + low b) (high a + high b) (Z.min (al a) (al b))
  else if op_is "-"%string then bounded (low a - high b) (high a - low b) (Z.min (al a) (al b))
  else if op_is "*"%string then
    let products := [low a * low b; low a * high b; high a * low b; high a * high b] in
    bounded (minimum products) (maximum products) (Z.min 65536 (al a * al b))
  else
    let mask := if (low a =? high a) && (0 <=? low a) then low a
                else if (low b =? high b) && (0 <=? low b) then low b else -1 in
    if op_is "&"%string && (0 <=? mask) then bounded 0 mask (Z.max (al a) (al b))
    else if op_is ">>"%string && (low b =? high b) && (0 <=? low b) && (low b <=? 15)
    then bounded (shift_right_value (low a) (low b)) (shift_right_value (high a) (low b)) 1
    else full.

Definition transfer_scalar (s : AddressProof) (definitions : list (option IRInstruction)) (block : IRBlockId)
    (i : IRInstruction) (full a b : Fact) : Fact :=
  let operate :=
    if is_op (i_opcode i) OpBitExtract then boundedScalar full 0 1 1
    else if negb (bool_decide (kind a = Scalar)) then full
    else if is_op (i_opcode i) OpCast then boundedScalar full (low a) (high a) (al a)
    else if is_op (i_opcode i) OpUnary then
      if is_operation i "!" then boundedScalar full 0 1 1
      else if is_operation i "-" then boundedScalar full (- high a) (- low a) (al a)
      else full
    else if negb (is_op (i_opcode i) OpBinary) || negb (bool_decide (kind b = Scalar)) then full
    else transfer_binary i full a b in
  if negb (bool_decide (i_operands i = [])) && (zlen (i_operands i) <=? 2) && is_point a
     && ((zlen (i_operands i) =? 1) || is_point b) then
    match point_operands s definitions block (i_operands i) with
    | None => full
    | Some inputs =>
        match IRScalarFold.evaluate i inputs with
        | Some value => point value
        | None => operate
        end
    end
  else operate.

Definition definition_block (s : AddressProof) (i : IRInstruction) : IRBlockId :=
  if value_isValid (i_result i) && (i_result i <? zlen (m_definition_blocks s))
  then nth_or InvalidBlock (m_definition_blocks s) (i_result i) else InvalidBlock.

Definition transfer (s : AddressProof) (locals : list (SymbolId * Symbol)) (definitions : list (option IRInstruction))
    (i : IRInstruction) : Fact :=
  let full := scalarRange (i_type i) in
  let block := definition_block s i in
  let operand n := match i_operands i !! n with Some v => get_in s v block | None => no_fact end in
  let a := operand 0%nat in
  let b := operand 1%nat in
  if is_op (i_opcode i) OpConstant then transfer_constant i full
  else if is_op (i_opcode i) OpPhi then transfer_phi s i full a
  else if is_op (i_opcode i) OpAddress && nearRam (i_type i) then transfer_address s locals i a
  else if is_op (i_opcode i) OpPointerOffset && nearRam (i_type i) && (zlen (i_operands i) =? 2)
          && (is_operation i "+" || is_operation i "-") && (0 <? i_immediate i) && (i_immediate i <=? 65535)
          && bool_decide (kind b = Scalar) then transfer_offset s i a b
  else if is_op (i_opcode i) OpCast && nearRam (i_type i) then transfer_pointer_cast definitions i a
  else if negb (bool_decide (kind full = Scalar)) then no_fact
  else transfer_scalar s definitions block i full a b.

(* ------------------------------------------------------------------ *)
(** ** The analysis *)

(** The validation of the input; [None] is an early return. *)
Definition check_instruction (f : IRFunction) (c : Z * Z) (i : IRInstruction) : option (Z * Z) :=
  let '(count, operands) := c in
  if (200000 <? count + 1) || (1000000 - operands <? zlen (i_operands i)) then None
  else if (f_value_count f <? i_result i)
          || (is_op (i_opcode i) OpPhi && (zlen (i_operands i) <? zlen (i_targets i))) then None
  else if existsb (λ v, negb (value_isValid v) || (f_value_count f <? v)) (i_operands i) then None
  else if existsb (λ t, negb (block_isValid t) || (zlen (f_blocks f) <=? t)) (i_targets i) then None
  else Some (count + 1, operands + zlen (i_operands i)).

Fixpoint fold_option {A B} (g : A → B → option A) (a : A) (l : list B) : option A :=
  match l with
  | [] => Some a
  | b :: l => a ← g a b; fold_option g a l
  end.

Definition check_block (f : IRFunction) (c : Z * Z) (nb : nat * IRBasicBlock) : option (Z * Z) :=
  let '(n, b) := nb in
  if negb (block_isValid (b_id b)) || negb (b_id b =? Z.of_nat n) then None
  else fold_option (check_instruction f) c (b_instructions b).

(** The bytes of the parameters. *)
Definition parameter_bytes (f : IRFunction) : option Z :=
  fold_option (λ n p, let n := n + (if isFarPointer (param_type p) then 4 else 2) in
                      if 65526 <? n then None else Some n) 0 (f_parameters f).

Definition FirstParameterOffset : Z := 6.

(** The tables of definitions; [None] where a value has two. *)
Record Tables := mkTables { t_definitions : list (option IRInstruction); t_blocks : list IRBlockId; t_facts : list Fact }.
Definition enter_definition (block : IRBlockId) (t : Tables) (i : IRInstruction) : option Tables :=
  if negb (value_isValid (i_result i)) then Some t else
  let n := Z.to_nat (i_result i) in
  match default None (t_definitions t !! n) with
  | Some _ => None
  | None => Some (mkTables (<[n := Some i]> (t_definitions t)) (<[n := block]> (t_blocks t))
                    (<[n := scalarRange (i_type i)]> (t_facts t)))
  end.
Definition enter_block (t : Tables) (b : IRBasicBlock) : option Tables :=
  fold_option (enter_definition (b_id b)) t (b_instructions b).

(** One instruction of a round: the proof, whether a fact changed, the work done;
    [None] once the work exceeds its limit. *)
Record Round := mkRound { rd_proof : AddressProof; rd_changed : bool; rd_work : Z; rd_stopped : bool }.
Definition round_instruction (locals : list (SymbolId * Symbol)) (definitions : list (option IRInstruction))
    (r : Round) (i : IRInstruction) : Round :=
  if rd_stopped r || negb (value_isValid (i_result i)) then r else
  let cost := zlen (i_operands i) + 1 in
  if 25000000 - rd_work r <? cost then mkRound (rd_proof r) (rd_changed r) (rd_work r) true else
  let s := rd_proof r in
  let next := transfer s locals definitions i in
  if bool_decide (nth_or no_fact (m_facts s) (i_result i) = next) then mkRound s (rd_changed r) (rd_work r + cost) false
  else mkRound (set_facts (<[Z.to_nat (i_result i) := next]> (m_facts s)) s) true (rd_work r + cost) false.

Definition all_instructions (f : IRFunction) : list IRInstruction := f_blocks f ≫= b_instructions.

Fixpoint rounds (locals : list (SymbolId * Symbol)) (definitions : list (option IRInstruction)) (f : IRFunction)
    (n : nat) (work : Z) (s : AddressProof) : AddressProof :=
  match n with
  | O => s
  | S n =>
      let r := foldl (round_instruction locals definitions) (mkRound s false work false) (all_instructions f) in
      if rd_stopped r || negb (rd_changed r) then rd_proof r else rounds locals definitions f n (rd_work r) (rd_proof r)
  end.

Definition run (f : IRFunction) (locals : list (SymbolId * Symbol)) (frame_bytes : Z) (checked_frame : bool)
    : result AddressProof :=
  if (100000 <? f_value_count f) || (8192 <? zlen (f_blocks f)) || (65526 <? frame_bytes) then Ok no_proof else
  match fold_option (check_block f) (0, 0) (indexed (f_blocks f)), parameter_bytes f with
  | Some _, Some parameters =>
      let values := S (Z.to_nat (f_value_count f)) in
      let frame_low := - frame_bytes + 2 in
      let frame_end := FirstParameterOffset + parameters in
      match fold_option enter_block
              (mkTables (replicate values None) (replicate values InvalidBlock) (replicate values no_fact)) (f_blocks f) with
      | None => Ok no_proof
      | Some t =>
          let s := mkProof (t_facts t) [] (t_blocks t) [] frame_low frame_end checked_frame (zlen (f_blocks f)) in
          s ← match refineControlFlow f (t_definitions t) s with
              | Ok s => Ok s
              | Err (CompileError _ _ _) => Ok (set_refined [] [] s)
              | Err e => Err e
              end;
          Ok (rounds locals (t_definitions t) f 64 0 s)
      end
  | _, _ => Ok no_proof
  end.

(* ------------------------------------------------------------------ *)
(** ** Questions *)

Definition provesAccess (s : AddressProof) (value : IRValueId) (pointer : CType) (width : Z) : result bool :=
  if negb (nearRam pointer) || (width <=? 0) || (65535 <? width) then Ok false else
  let fact := get s value in
  pointee ← pointeeType pointer;
  let alignment := storageAlignment pointee in
  Ok (if (1 <? width) && ((alignment <=? 0) || (al fact <? alignment)) then false
      else if bool_decide (kind fact = Frame)
      then m_checked_frame s && (m_frame_low s <=? low fact) && (high fact <=? m_frame_end s - width)
      else if bool_decide (kind fact = Absolute) then (0 <? low fact) && (high fact <=? 65536 - width)
      else false).

Definition scalarBounds (s : AddressProof) (value : IRValueId) (block : IRBlockId) : option (Z * Z) :=
  if negb (value_isValid value) || (zlen (m_facts s) <=? value) || negb (block_isValid block)
     || (m_block_count s <=? block) then None else
  let fact := get_in s value block in
  if negb (bool_decide (kind fact = Scalar)) || (high fact <? low fact) then None else Some (low fact, high fact).

Definition provesOffset (s : AddressProof) (i : IRInstruction) : result bool :=
  if negb (is_op (i_opcode i) OpPointerOffset) || negb (zlen (i_operands i) =? 2)
     || (negb (is_operation i "+") && negb (is_operation i "-"))
     || (i_immediate i <=? 0) || (65535 <? i_immediate i)
     || negb (Z.land (i_immediate i) (i_immediate i - 1) =? 0) then Ok false else
  let index := get_in s (operand_of i 1) (definition_block s i) in
  if bool_decide (kind index = Scalar) && (-65535 <=? low index * i_immediate i) && (high index * i_immediate i <=? 65535)
  then
    before ← provesAccess s (operand_of i 0) (i_type i) (i_immediate i);
    if (before : bool) then provesAccess s (i_result i) (i_type i) (i_immediate i) else Ok false
  else Ok false.

Definition multiplyKind (s : AddressProof) (i : IRInstruction) : MultiplyKind :=
  if negb (is_op (i_opcode i) OpBinary) || negb (is_operation i "*") || negb (zlen (i_operands i) =? 2) then FullWord else
  let block := definition_block s i in
  let a := get_in s (operand_of i 0) block in
  let b := get_in s (operand_of i 1) block in
  if negb (bool_decide (kind a = Scalar)) || negb (bool_decide (kind b = Scalar)) then FullWord
  else if (-128 <=? low a) && (high a <=? 127) && (-128 <=? low b) && (high b <=? 127) then SignedByte
  else if (0 <=? low a) && (high a <=? 255) && (0 <=? low b) && (high b <=? 255) then UnsignedByte
  else FullWord.
