(* ===== verification/IRRun.v ===== *)
(** * IRRun: executions of a function

    A small-step semantics of the values of a verified function: blocks,
    instructions and edges as the control-flow graph has them, phis on entry to a
    block, arithmetic as constant folding computes it (which [ArithRun] relates to
    the code of the back end), near RAM addresses as 16-bit words, hardware loops
    with a counter each.  What memory, calls and the screen deliver is any value of
    its type.  [ssa] is what the executions need of the verifier, and [Valid] what
    holds of every state they reach: above all, that the equation of an instruction
    holds wherever its block dominates. *)

From stdpp Require Import functions.
From S2P Require Import Prelude Target Types Token IR ScalarFold Graph IRVerify IRSound IRTyping.
From S2P Require Import LoopIds ControlFlow FlowSound LoopSound Liveness Analysis AddressProof.

Notation environment := (Z → option Z).

(* ------------------------------------------------------------------ *)
(** ** Semantics *)

(** The fold operands of an instruction: the types and values of its operands. *)
Definition inputs_of (f : IRFunction) (ρ : environment) (i : IRInstruction) (inputs : list IRScalarFold.Operand) : Prop :=
  Forall2 (λ v o, ∃ t w, value_type f v t ∧ IRScalarFold.scalar t = true ∧ ρ v = Some w ∧
    o = IRScalarFold.mkOperand (Some t) w) (i_operands i) inputs.

(** Instruction [i] can compute [w]. *)
Definition computes (f : IRFunction) (locals : list (SymbolId * Symbol)) (frame : Z) (ρ : environment) (i : IRInstruction)
    (w : Z) : Prop :=
  (IRScalarFold.scalar (i_type i) = true → holds (i_type i) w) ∧
  match i_opcode i with
  | OpConstant =>
      (IRScalarFold.scalar (i_type i) = true → w = convert (i_immediate i) (i_type i)) ∧
      (nearRam (i_type i) = true → w = i_immediate i)
  | OpAddress => nearRam (i_type i) = true →
      (i_operation i = "member"%string → ∀ a, ρ (operand_of i 0) = Some a → w = u16 (a + i_immediate i)) ∧
      (i_operation i = "temporary"%string → w = frame + i_immediate i) ∧
      (i_operation i = ""%string → ∀ local, find_local locals (i_symbol_id i) = Some local → w = frame + stackOffset local)
  | OpPointerOffset => nearRam (i_type i) = true → ∀ a x, ρ (operand_of i 0) = Some a → ρ (operand_of i 1) = Some x →
      w = u16 (if is_operation i "-" then a - x * i_immediate i else a + x * i_immediate i)
  | OpCast =>
      (nearRam (i_type i) = true → ∀ t a, value_type f (operand_of i 0) t → ρ (operand_of i 0) = Some a →
        (nearRam t = true → w = a) ∧ (IRScalarFold.scalar t = true → w = u16 a)) ∧
      (IRScalarFold.scalar (i_type i) = true → ∀ inputs, inputs_of f ρ i inputs → IRScalarFold.evaluate i inputs = Some w)
  | OpUnary | OpBinary | OpBitExtract =>
      IRScalarFold.scalar (i_type i) = true → ∀ inputs, inputs_of f ρ i inputs → IRScalarFold.evaluate i inputs = Some w
  | _ => True
  end.

Record state := mkState { st_block : nat; st_index : nat; st_values : environment; st_counts : Z → Z }.

(** Terminator [i] takes its [n]th target and leaves the loop counters [counts]. *)
Definition jumps (i : IRInstruction) (s : state) (n : nat) (counts : Z → Z) : Prop :=
  match i_opcode i with
  | OpCondBranch => ∃ c, st_values s (operand_of i 0) = Some c ∧ n = (if (c =? 0)%Z then 1 else 0)%nat ∧ counts = st_counts s
  | OpHardwareLoop => ∃ c, st_values s (operand_of i 0) = Some c ∧ n = 0%nat ∧ counts = <[i_loop_id i := u16 c]> (st_counts s)
  | OpHardwareLoopEnd =>
      let c := u16 (st_counts s (i_loop_id i) - 1) in
      n = (if (c =? 0)%Z then 1 else 0)%nat ∧ counts = <[i_loop_id i := c]> (st_counts s)
  | _ => counts = st_counts s
  end.

(** The phis of [b] on the edge from [p]: all at once. *)
Definition enters (f : IRFunction) (p b : nat) (ρ ρ' : environment) : Prop := ∀ v,
  (∃ k i j t, instr_at f b k = Some i ∧ i_opcode i = OpPhi ∧ i_result i = v ∧
     i_targets i !! j = Some t ∧ Z.to_nat t = p ∧ ρ' v = ρ (operand_of i j)) ∨
  ((∀ k i, instr_at f b k = Some i → i_opcode i = OpPhi → i_result i ≠ v) ∧ ρ' v = ρ v).

Section Steps.
Context (f : IRFunction) (locals : list (SymbolId * Symbol)) (frame : Z).

Inductive step : state → state → Prop :=
  | step_skip b k i ρ c :
      instr_at f b k = Some i → isTerminator i = false → producesValue i = false ∨ i_opcode i = OpPhi →
      step (mkState b k ρ c) (mkState b (S k) ρ c)
  | step_value b k i ρ c w :
      instr_at f b k = Some i → isTerminator i = false → producesValue i = true → i_opcode i ≠ OpPhi →
      computes f locals frame ρ i w →
      step (mkState b k ρ c) (mkState b (S k) (<[i_result i := Some w]> ρ) c)
  | step_jump b k i ρ c n t ρ' c' :
      instr_at f b k = Some i → isTerminator i = true → jumps i (mkState b k ρ c) n c' → i_targets i !! n = Some t →
      enters f b (Z.to_nat t) ρ ρ' →
      step (mkState b k ρ c) (mkState (Z.to_nat t) 0 ρ' c').

(** The states executions reach. *)
Inductive runs : state → Prop :=
  | runs_start c : runs (mkState (entry_of f) 0 (λ _, None) c)
  | runs_step s s' : runs s → step s s' → runs s'.
End Steps.

(* ------------------------------------------------------------------ *)
(** ** What the verifier gives *)

Definition defines (f : IRFunction) (b k : nat) (i : IRInstruction) : Prop :=
  instr_at f b k = Some i ∧ producesValue i = true.
(** The definition at [(d, k)] comes before instruction [n] of block [b]. *)
Definition precedes (f : IRFunction) (d k b n : nat) : Prop := d = b ∧ (k < n)%nat ∨ d ≠ b ∧ dominates (cfg f) 0 d b.

Record ssa (f : IRFunction) : Prop := {
  ssa_entry : entry_of f = 0%nat;
  ssa_unique : ∀ d k i d' k' i', defines f d k i → defines f d' k' i' → i_result i = i_result i' → d = d' ∧ k = k';
  ssa_valid : ∀ d k i, defines f d k i → i_result i ≠ InvalidValue ∧ i_result i ≤ f_value_count f;
  ssa_result : ∀ d k i, instr_at f d k = Some i → i_result i ≠ InvalidValue → producesValue i = true;
  ssa_use : ∀ b k i v, instr_at f b k = Some i → i_opcode i ≠ OpPhi → v ∈ i_operands i → reachable (cfg f) 0 b →
    ∃ d k' i', defines f d k' i' ∧ i_result i' = v ∧ precedes f d k' b k;
  ssa_phi : ∀ b k i j v t, instr_at f b k = Some i → i_opcode i = OpPhi → i_operands i !! j = Some v → i_targets i !! j = Some t →
    ∃ d k' i', defines f d k' i' ∧ i_result i' = v ∧ dominates (cfg f) 0 d (Z.to_nat t) ∧
      sameValueType (i_type i) (i_type i') = Ok true;
  ssa_phi_length : ∀ b k i, instr_at f b k = Some i → i_opcode i = OpPhi → length (i_operands i) = length (i_targets i);
  ssa_phi_edges : ∀ b k i j j' t t', instr_at f b k = Some i → i_opcode i = OpPhi → i_targets i !! j = Some t →
    i_targets i !! j' = Some t' → Z.to_nat t = Z.to_nat t' → j = j';
  ssa_phi_entry : ∀ k i, instr_at f 0 k = Some i → i_opcode i ≠ OpPhi;
  ssa_last : ∀ b k i, instr_at f b k = Some i → isTerminator i = true → S k = length (instructions_of f b);
  ssa_ids : ids_ok f;
  ssa_typed : ∀ b k i, instr_at f b k = Some i → typing_rule f i;
  ssa_single : ∀ b k i, instr_at f b k = Some i → i_opcode i = OpUnary ∨ i_opcode i = OpCast → ∃ x, i_operands i = [x];
  ssa_phi_preds : ∀ b k i q, instr_at f b k = Some i → i_opcode i = OpPhi →
    q ∈ Z.to_nat <$> i_targets i ↔ b ∈ adjacent (cfg f) q;
  ssa_loop_ids : ∀ op b k i b' k' i', op = OpHardwareLoop ∨ op = OpHardwareLoopEnd → instr_at f b k = Some i → i_opcode i = op →
    instr_at f b' k' = Some i' → i_opcode i' = op → i_loop_id i = i_loop_id i' → b = b' ∧ k = k'
}.

Lemma verified_ssa f : verifyFunction f = Ok tt → ssa f.
Proof.
  intros Hv. pose proof (verified_ids f Hv) as Hids. destruct (verified_facts f Hv) as (p & reach & doms & Hf).
  pose proof (fa_pass _ _ _ _ Hf) as Hp.
  assert (∀ d k i, defines f d k i → definitions p !! i_result i = Some (mkDef d k)) as Hdef
    by (intros d k i [Hi Hpv]; by apply (p_defined _ _ _ Hp)).
  split; try done.
  - unfold entry_of. by rewrite (fa_entry _ _ _ _ Hf).
  - intros d k i d' k' i' H%Hdef H'%Hdef E. rewrite E, H' in H. by injection H as <- <-.
  - intros d k i [Hi Hpv]. destruct (c_result _ _ _ _ (p_checked _ _ _ Hp _ _ _ I Hi)) as [(_ & ? & ?)|[? _]]; [done|congruence].
  - intros d k i Hi Hne. destruct (c_result _ _ _ _ (p_checked _ _ _ Hp _ _ _ I Hi)) as [(? & _)|[_ ?]]; [done|congruence].
  - intros b k i v Hi Hphi Hin Hb. pose proof (fa_second _ _ _ _ Hf _ _ _ Hi) as H. unfold pass2_instruction in H.
    rewrite bool_decide_false in H by done.
    apply result_bind_ok in H as ([] & _ & H). apply result_bind_ok in H as ([] & Huses & _).
    rewrite forM_ok, Forall_forall in Huses. specialize (Huses v Hin). unfold verify_use in Huses.
    apply result_bind_ok in Huses as (d & Hd & Huse). cbn [v_defs v_reach v_doms] in *.
    destruct (definition_of _ _ _ _ Hf _ _ Hd) as (i' & Hi' & Hpv & Hr). exists (d_block d), (d_instruction d), i'.
    split; [done|]. split; [done|]. destruct (Nat.eqb_spec (d_block d) b) as [Eb|Eb].
    + left. apply throw_if_ok, Nat.leb_gt in Huse. done.
    + right. split; [done|]. apply throw_if_ok in Huse. assert (is_reachable reach b = true) as Hrb by (by apply Is_true_true, (fa_reach _ _ _ _ Hf)).
      rewrite Hrb in Huse. cbn [andb] in Huse. apply orb_false_iff in Huse as [_ Hdom%negb_false_iff].
      apply (fa_doms _ _ _ _ Hf); [by rewrite Hrb|done].
  - intros b k i j v t Hi Hop Hj Ht. destruct (phi_incoming _ _ _ _ Hf b k i Hi Hop) as (_ & _ & _ & Hvals).
    assert ((v, t) ∈ zip (i_operands i) (i_targets i)) as Hin.
    { apply list_elem_of_lookup. exists j. by apply lookup_zip_Some. }
    destruct (Hvals v t Hin) as (d & Hd & Hdom). destruct (definition_of _ _ _ _ Hf _ _ Hd) as (i' & Hi' & Hpv & Hrv).
    pose proof (fa_second _ _ _ _ Hf _ _ _ Hi) as H. unfold pass2_instruction in H. rewrite bool_decide_true in H by done.
    apply result_bind_ok in H as ([] & Hphi & _). unfold verify_phi in Hphi. apply result_bind_ok in Hphi as (inc & Hinc & _).
    destruct (foldM_each _ _ _ _ Hinc _ Hin) as (x & x' & Hx). unfold verify_incoming in Hx.
    apply result_bind_ok in Hx as (d' & Hd' & Hx). apply result_bind_ok in Hx as ([] & Hx & _).
    apply throw_when_ok, or_r_false in Hx as [[= Hc] Hx]. apply or_r_false in Hx as [Hx _].
    apply orb_false_iff in Hc as [Hc _]. apply orb_false_iff in Hc as [_ Hc%negb_false_iff]. cbn [v_reach] in Hc.
    exists (d_block d), (d_instruction d), i'. split; [done|]. split; [done|]. split.
    { apply (fa_doms _ _ _ _ Hf); [by rewrite Hc|done]. }
    apply result_bind_ok in Hx as (ty & Hty & Hx%not_r_false). apply (definitionType_value _ _ _ _ Hf) in Hty.
    rewrite (value_type_unique _ _ _ _ Hf v ty (i_type i')) in Hx; [done|done|]. exists (d_block d), (d_instruction d), i'. done.
  - intros b k i Hi Hop. by destruct (phi_incoming _ _ _ _ Hf b k i Hi Hop).
  - intros b k i j j' t t' Hi Hop Hj Hj' E. destruct (phi_incoming _ _ _ _ Hf b k i Hi Hop) as (_ & Hnd & _).
    eapply NoDup_lookup; [exact Hnd| |]; rewrite list_lookup_fmap; [by rewrite Hj|]. rewrite Hj'. cbn. by rewrite E.
  - intros k i Hi Hop. pose proof (fa_second _ _ _ _ Hf _ _ _ Hi) as H. unfold pass2_instruction in H. rewrite bool_decide_true in H by done.
    apply result_bind_ok in H as ([] & Hphi & _). unfold verify_phi in Hphi. apply result_bind_ok in Hphi as (inc & _ & Hphi).
    apply throw_if_ok, orb_false_iff in Hphi as [_ He]. cbn [v_fn] in He. by rewrite (fa_entry _ _ _ _ Hf) in He.
  - intros b k i Hi Ht. destruct (c_metadata _ _ _ _ (p_checked _ _ _ Hp _ _ _ I Hi)) as (blk & Hblk & _ & H).
    unfold instructions_of. rewrite Hblk. by apply H.
  - intros b k i Hi. pose proof (fa_second _ _ _ _ Hf _ _ _ Hi) as H. unfold pass2_instruction in H.
    apply result_bind_ok in H as ([] & _ & H). apply result_bind_ok in H as ([] & _ & H).
    apply result_bind_ok in H as ([] & _ & H). by apply (typing_ok _ _ _ _ Hf b k).
  - intros b k i Hi Hop. pose proof (fa_second _ _ _ _ Hf _ _ _ Hi) as H. unfold pass2_instruction in H.
    apply result_bind_ok in H as ([] & _ & H). apply result_bind_ok in H as ([] & _ & H).
    apply result_bind_ok in H as ([] & _ & H). unfold verify_typing in H.
    assert (n_operands i = 1) as Hn.
    { destruct Hop as [Hop|Hop]; rewrite Hop in H; unfold reject in H; apply throw_when_ok, or_r_false in H as [[= H] _]; by bool_facts. }
    unfold n_operands, zlen in Hn. destruct (i_operands i) as [|x [|]]; cbn in Hn; try lia. eauto.
  - intros b k i q Hi Hop. by destruct (phi_incoming _ _ _ _ Hf b k i Hi Hop) as (_ & _ & H & _).
  - intros op b k i b' k' i' Ho. intros. by apply (loop_ids_unique f op b k i b' k' i' Hv Ho).
Qed.

(* ------------------------------------------------------------------ *)
(** ** What holds of every state *)

Section Valid.
Context (f : IRFunction) (locals : list (SymbolId * Symbol)) (frame : Z).
Hypothesis Hssa : ssa f.
Notation computes := (computes f locals frame).
Notation runs := (runs f locals frame).
Notation step := (step f locals frame).
Notation dom := (dominates (cfg f) 0).
Notation reach := (reachable (cfg f) 0).

(** A value can be read at instruction [n] of [b]. *)
Definition visible (d k : nat) (i : IRInstruction) (b n : nat) : Prop :=
  precedes f d k b n ∨ i_opcode i = OpPhi ∧ d = b.

Record Valid (s : state) : Prop := {
  va_reach : reach (st_block s);
  va_defined : ∀ d k i, defines f d k i → visible d k i (st_block s) (st_index s) → ∃ w, st_values s (i_result i) = Some w;
  va_typed : ∀ v w, st_values s v = Some w →
    ∃ d k i, defines f d k i ∧ i_result i = v ∧ (IRScalarFold.scalar (i_type i) = true → holds (i_type i) w);
  va_equation : ∀ d k i, defines f d k i → i_opcode i ≠ OpPhi → precedes f d k (st_block s) (st_index s) →
    ∃ w, st_values s (i_result i) = Some w ∧ computes (st_values s) i w
}.

Lemma elem_of_operand i n : operand_of i n ∈ i_operands i ∨ operand_of i n = InvalidValue.
Proof. unfold operand_of. destruct (i_operands i !! n) eqn:E; [left; by eapply list_elem_of_lookup_2|by right]. Qed.

(** The result depends on the operands alone. *)
Lemma computes_ext (ρ ρ' : environment) i w :
  (∀ v, v ∈ i_operands i → ρ v = ρ' v) → ρ InvalidValue = ρ' InvalidValue → computes ρ i w → computes ρ' i w.
Proof.
  intros Hv H0. assert (∀ n, ρ (operand_of i n) = ρ' (operand_of i n)) as Ho.
  { intros n. destruct (elem_of_operand i n) as [H|H]; [auto|by rewrite H]. }
  assert (∀ inputs, inputs_of f ρ' i inputs → inputs_of f ρ i inputs) as Hi.
  { intros inputs. unfold inputs_of. revert Hv. generalize (i_operands i). clear. intros vs Hv H.
    induction H as [|v o vs os (t & w & ? & ? & ? & ?) _ IH]; constructor.
    - exists t, w. split; [done|]. split; [done|]. rewrite Hv by set_solver. done.
    - apply IH. intros v' ?. apply Hv. set_solver. }
  unfold IRRun.computes. rewrite !Ho. intros [Hh H]. split; [done|]. destruct (i_opcode i); try done; try (naive_solver).
Qed.

Lemma jump_edge b k i n t : instr_at f b k = Some i → isTerminator i = true → i_targets i !! n = Some t →
  Z.to_nat t ∈ adjacent (cfg f) b.
Proof.
  intros Hi Ht Hn. apply elem_of_cfg. exists k, i. split; [done|]. unfold IRSound.instruction_targets.
  rewrite bool_decide_false by (intros E; unfold isTerminator in Ht; by rewrite E in Ht).
  apply list_elem_of_fmap. exists t. split; [done|]. by eapply list_elem_of_lookup_2.
Qed.
Lemma reach_step b s : reach b → s ∈ adjacent (cfg f) b → reach s.
Proof. intros [l Hl] Hs. exists (l ++ [s]). by eapply walk_step. Qed.

Lemma value_not_terminator i : producesValue i = true → isTerminator i = false.
Proof. unfold producesValue, isTerminator. destruct (i_opcode i); done. Qed.

Lemma defines_before d k i n t : defines f d k i → instr_at f d n = Some t → isTerminator t = true → (k < n)%nat.
Proof.
  intros [Hi Hp] Ht Htt. pose proof (ssa_last _ Hssa _ _ _ Ht Htt) as Hl.
  assert (k < length (instructions_of f d))%nat as Hk by (rewrite instr_at_of in Hi; by eapply lookup_lt_Some).
  destruct (decide (k = n)) as [->|]; [|lia]. rewrite Hi in Ht. injection Ht as ->. apply value_not_terminator in Hp. congruence.
Qed.

Lemma precedes_reach d k b n : reach b → precedes f d k b n → reach d.
Proof. intros Hb [[-> _]|[_ Hd]]; [done|]. by eapply dominates_reachable. Qed.

(** On entry to a block what is visible was visible at the end of the block
    before. *)
Lemma precedes_pred d k i b n t s : defines f d k i → instr_at f b n = Some t → isTerminator t = true → s ∈ adjacent (cfg f) b →
  precedes f d k s 0 → precedes f d k b n.
Proof.
  intros Hd Ht Htt Hs [[-> ?]|[Hne Hdom]]; [lia|]. destruct (decide (d = b)) as [->|].
  - left. split; [done|]. by eapply defines_before.
  - right. split; [done|]. by eapply dominates_pred.
Qed.

(** An operand is not defined where the instruction's own definition dominates. *)
Lemma operand_elsewhere d k i d' k' i' : defines f d k i → i_opcode i ≠ OpPhi → reach d →
  defines f d' k' i' → i_result i' ∈ i_operands i → precedes f d' k' d k.
Proof.
  intros [Hi _] Hphi Hr Hd' Hin. destruct (ssa_use _ Hssa _ _ _ _ Hi Hphi Hin Hr) as (e & n & j & He & Hej & Hp).
  destruct (ssa_unique _ Hssa _ _ _ _ _ _ He Hd' Hej) as [-> ->]. done.
Qed.

Lemma result_valid d k i : defines f d k i → i_result i ≠ InvalidValue.
Proof. intros Hd. apply (ssa_valid _ Hssa _ _ _ Hd). Qed.

Lemma valid_start c : Valid (mkState (entry_of f) 0 (λ _, None) c).
Proof.
  rewrite (ssa_entry _ Hssa). split; cbn; try done.
  - exists [0%nat]. constructor.
  - intros d k i Hd [[[-> ?]|[Hne Hdom]]|[Hop ->]]; [lia| |].
    + assert (d ∈ [0%nat]) as H by (apply Hdom; constructor). set_solver.
    + by destruct (ssa_phi_entry _ Hssa k i (proj1 Hd)).
  - intros d k i Hd _ [[-> ?]|[Hne Hdom]]; [lia|]. assert (d ∈ [0%nat]) as H by (apply Hdom; constructor). set_solver.
Qed.

Lemma precedes_succ d k b n : precedes f d k b (S n) → precedes f d k b n ∨ d = b ∧ k = n.
Proof. intros [[-> ?]|H]; [|by left; right]. destruct (decide (k = n)); [by right|left; left; lia]. Qed.

Lemma valid_skip b k i ρ c : Valid (mkState b k ρ c) → instr_at f b k = Some i → producesValue i = false ∨ i_opcode i = OpPhi →
  Valid (mkState b (S k) ρ c).
Proof.
  intros [H1 H2 H3 H4] Hi Hp. cbn in *. assert (∀ d n j, defines f d n j → i_opcode j ≠ OpPhi → precedes f d n b (S k) → precedes f d n b k) as H.
  { intros d n j [Hj Hpj] Hop [H|[-> ->]]%precedes_succ; [done|]. rewrite Hi in Hj. injection Hj as ->. destruct Hp; congruence. }
  split; cbn; try done.
  - intros d n j Hd Hv. apply (H2 d n j Hd). destruct (decide (i_opcode j = OpPhi)) as [Hop|Hop].
    + destruct Hv as [[[-> _]|Hd']|?]; [right|left; by right|by right]. done.
    + destruct Hv as [Hv|[? _]]; [left; by eapply H|done].
  - intros d n j Hd Hop Hv. apply (H4 d n j Hd Hop). by eapply H.
Qed.

Lemma precedes_asym d n b k : reach b → precedes f d n b k → precedes f b k d n → False.
Proof.
  intros Hr [[-> ?]|[Hne Hd]] [[? ?]|[Hne' Hd']]; [lia|done|congruence|].
  apply Hne. eapply dominates_antisym; [|exact Hd|exact Hd']. by eapply dominates_reachable.
Qed.

Lemma valid_value b k i ρ c w : Valid (mkState b k ρ c) → defines f b k i → i_opcode i ≠ OpPhi → computes ρ i w →
  Valid (mkState b (S k) (<[i_result i := Some w]> ρ) c).
Proof.
  intros [H1 H2 H3 H4] Hi Hphi Hw. cbn in *.
  assert (∀ d n j, defines f d n j → i_result j = i_result i → d = b ∧ n = k ∧ j = i) as Hsame.
  { intros d n j Hj E. destruct (ssa_unique _ Hssa _ _ _ _ _ _ Hj Hi E) as [-> ->]. split_and!; [done..|].
    destruct Hj as [Hj _], Hi as [Hi _]. rewrite Hi in Hj. by injection Hj. }
  assert (∀ d n j, defines f d n j → i_opcode j ≠ OpPhi → precedes f d n b k ∨ d = b ∧ n = k → i_result i ∉ i_operands j) as Hops.
  { intros d n j Hj Hop Hv Hin. assert (reach d) as Hrd by (destruct Hv as [Hv|[-> _]]; [by eapply precedes_reach|done]).
    pose proof (operand_elsewhere _ _ _ _ _ _ Hj Hop Hrd Hi Hin) as Hp. destruct Hv as [Hv|[-> ->]].
    - exact (precedes_asym _ _ _ _ H1 Hv Hp).
    - destruct Hp as [[_ ?]|[? _]]; [lia|done]. }
  split; cbn; try done.
  - intros d n j Hj Hv. destruct (decide (i_result j = i_result i)) as [->|Hne]; [rewrite fn_lookup_insert; eauto|].
    rewrite fn_lookup_insert_ne by done. apply (H2 d n j Hj). destruct Hv as [[Hv|[-> ->]]%precedes_succ|?]; [by left| |by right].
    destruct Hne. destruct Hj as [Hj _], Hi as [Hi _]. rewrite Hi in Hj. by injection Hj as ->.
  - intros v x Hx. destruct (decide (v = i_result i)) as [Ev|Hne]; [subst v|].
    + rewrite fn_lookup_insert in Hx. injection Hx as <-. exists b, k, i. split; [done|]. split; [done|]. apply Hw.
    + rewrite fn_lookup_insert_ne in Hx by done. by apply H3.
  - intros d n j Hj Hop Hv%precedes_succ.
    assert (∀ x, computes ρ j x → computes (<[i_result i:=Some w]> ρ) j x) as Hext.
    { intros x. apply computes_ext.
      - intros v Hv'. rewrite fn_lookup_insert_ne; [done|]. intros E. subst v. by eapply Hops.
      - rewrite fn_lookup_insert_ne; [done|]. by eapply result_valid. }
    destruct (decide (i_result j = i_result i)) as [E|Hne].
    + destruct (Hsame _ _ _ Hj E) as (-> & -> & ->). rewrite fn_lookup_insert. eauto.
    + destruct Hv as [Hv|[-> ->]]; [|destruct Hne; destruct Hj as [Hj _], Hi as [Hi _]; rewrite Hi in Hj; by injection Hj as ->].
      destruct (H4 _ _ _ Hj Hop Hv) as (x & Hx & Hc). rewrite fn_lookup_insert_ne by done. eauto.
Qed.

Lemma phi_defines b k i : instr_at f b k = Some i → i_opcode i = OpPhi → defines f b k i.
Proof. intros Hi Hop. split; [done|]. unfold producesValue. by rewrite Hop. Qed.
Lemma phi_operand b k i j t : instr_at f b k = Some i → i_opcode i = OpPhi → i_targets i !! j = Some t →
  i_operands i !! j = Some (operand_of i j).
Proof.
  intros Hi Hop Ht. unfold operand_of. destruct (lookup_lt_is_Some_2 (i_operands i) j) as [v ->]; [|done].
  rewrite (ssa_phi_length _ Hssa _ _ _ Hi Hop). by eapply lookup_lt_Some.
Qed.

Lemma scalar_same t u : sameValueType t u = Ok true → IRScalarFold.scalar t = IRScalarFold.scalar u ∧ ∀ w, holds u w → holds t w.
Proof.
  intros (Hb & _ & Hu & Hp & Ha)%sameValueType_fields. unfold IRScalarFold.scalar, holds, width. by rewrite Hb, Hu, Hp, Ha.
Qed.

(** The operand a phi takes on the edge from a block has been computed there. *)
Lemma phi_value b k ρ c i s q phi j t :
  Valid (mkState b k ρ c) → instr_at f b k = Some i → isTerminator i = true →
  instr_at f s q = Some phi → i_opcode phi = OpPhi → i_targets phi !! j = Some t → Z.to_nat t = b →
  ∃ w, ρ (operand_of phi j) = Some w ∧ (IRScalarFold.scalar (i_type phi) = true → holds (i_type phi) w).
Proof.
  intros [H1 H2 H3 H4] Hi Ht Hphi Hop Hj <-. cbn in *. pose proof (phi_operand _ _ _ _ _ Hphi Hop Hj) as Ho.
  destruct (ssa_phi _ Hssa _ _ _ _ _ _ Hphi Hop Ho Hj) as (d & n & i' & Hd & Hr & Hdom & Hty).
  destruct (H2 d n i' Hd) as [w Hw].
  { left. destruct (decide (d = Z.to_nat t)) as [->|]; [left; split; [done|by eapply defines_before]|by right]. }
  rewrite Hr in Hw. exists w. split; [done|]. intros Hs. destruct (H3 _ _ Hw) as (d' & n' & i'' & Hd' & Hr' & Hh).
  destruct (ssa_unique _ Hssa _ _ _ _ _ _ Hd' Hd) as [-> ->]; [congruence|].
  destruct Hd as [Hd _], Hd' as [Hd' _]. rewrite Hd in Hd'. injection Hd' as <-.
  destruct (scalar_same _ _ Hty) as [E Hsame]. apply Hsame, Hh. congruence.
Qed.

Lemma valid_jump b k i ρ c n t ρ' c' : Valid (mkState b k ρ c) → instr_at f b k = Some i → isTerminator i = true →
  i_targets i !! n = Some t → enters f b (Z.to_nat t) ρ ρ' → Valid (mkState (Z.to_nat t) 0 ρ' c').
Proof.
  intros HV Hi Ht Hn Hin. pose proof (jump_edge _ _ _ _ _ Hi Ht Hn) as Hedge. pose proof HV as [H1 H2 H3 H4]. cbn in *.
  set (s := Z.to_nat t) in *. assert (reach s) as Hs by (by eapply reach_step).
  assert (∀ d m j, defines f d m j → precedes f d m s 0 → precedes f d m b k ∧ ρ' (i_result j) = ρ (i_result j)) as Hold.
  { intros d m j Hj Hp. split; [by eapply precedes_pred|]. destruct (Hin (i_result j)) as [(q & phi & jj & t' & Hphi & Hop & Hr & _)|[_ E]]; [|done].
    destruct (ssa_unique _ Hssa _ _ _ _ _ _ (phi_defines _ _ _ Hphi Hop) Hj Hr) as [-> ->]. destruct Hp as [[_ ?]|[? _]]; [lia|done]. }
  split; cbn; try done.
  - intros d m j Hj [Hp|[Hop ->]].
    + destruct (Hold _ _ _ Hj Hp) as [Hb ->]. apply (H2 _ _ _ Hj). by left.
    + destruct (Hin (i_result j)) as [(q & phi & jj & t' & Hphi & Hop' & Hr & Htt & Eb & ->)|[Hno _]].
      * destruct (phi_value _ _ _ _ _ _ _ _ _ _ HV Hi Ht Hphi Hop' Htt Eb) as (w & -> & _). eauto.
      * by destruct (Hno m j (proj1 Hj) Hop).
  - intros v w Hw. destruct (Hin v) as [(q & phi & jj & t' & Hphi & Hop' & Hr & Htt & Eb & E)|[_ E]]; [|rewrite E in Hw; by apply H3].
    exists s, q, phi. split; [by apply phi_defines|]. split; [done|].
    destruct (phi_value _ _ _ _ _ _ _ _ _ _ HV Hi Ht Hphi Hop' Htt Eb) as (w' & E' & Hh). assert (w = w') as -> by congruence. done.
  - intros d m j Hj Hop Hp. destruct (Hold _ _ _ Hj Hp) as [Hb ->]. destruct (H4 _ _ _ Hj Hop Hb) as (w & Hw & Hc).
    exists w. split; [done|]. revert Hc. apply computes_ext.
    + intros v Hv. destruct (Hin v) as [(q & phi & jj & t' & Hphi & Hop' & Hr & _)|[_ E]]; [|done]. subst v.
      assert (reach d) as Hrd by (by eapply precedes_reach).
      pose proof (operand_elsewhere _ _ _ _ _ _ Hj Hop Hrd (phi_defines _ _ _ Hphi Hop') Hv) as Hp'.
      destruct Hp as [[_ ?]|[Hne Hdom]]; [lia|]. destruct Hp' as [[? _]|[_ Hdom']]; [congruence|].
      destruct Hne. eapply dominates_antisym; [|exact Hdom|exact Hdom']. done.
    + destruct (Hin InvalidValue) as [(q & phi & jj & t' & Hphi & Hop' & Hr & _)|[_ E]]; [|done].
      by apply (result_valid _ _ _ (phi_defines _ _ _ Hphi Hop')) in Hr.
Qed.

Lemma valid_step s s' : Valid s → step s s' → Valid s'.
Proof.
  intros HV Hs. destruct Hs.
  - by eapply valid_skip.
  - by eapply valid_value.
  - by eapply valid_jump.
Qed.
Theorem runs_valid s : runs s → Valid s.
Proof. induction 1; [apply valid_start|by eapply valid_step]. Qed.

(** ** Where a value comes from *)

(** Every value was computed at its definition, in a state that was reached. *)
Lemma value_origin s v w : runs s → st_values s v = Some w →
  (∃ b k i ρ c, runs (mkState b k ρ c) ∧ defines f b k i ∧ i_opcode i ≠ OpPhi ∧ i_result i = v ∧ computes ρ i w) ∨
  (∃ b k i ρ c d n phi j t, runs (mkState b k ρ c) ∧ instr_at f b k = Some i ∧ isTerminator i = true ∧
     instr_at f d n = Some phi ∧ i_opcode phi = OpPhi ∧ i_result phi = v ∧ i_targets phi !! j = Some t ∧ Z.to_nat t = b ∧
     ρ (operand_of phi j) = Some w).
Proof.
  intros Hr. revert v w. induction Hr as [c|s s' Hr IH Hs]; intros v w Hv; [done|].
  destruct Hs as [b k i ρ c Hi _ _|b k i ρ c w' Hi Ht Hp Hop Hc|b k i ρ c n t ρ' c' Hi Ht Hj Hn Hin]; cbn in *.
  - by apply IH.
  - destruct (decide (v = i_result i)) as [->|Hne].
    + rewrite fn_lookup_insert in Hv. injection Hv as <-. left. exists b, k, i, ρ, c. done.
    + rewrite fn_lookup_insert_ne in Hv by done. by apply IH.
  - destruct (Hin v) as [(q & phi & jj & t' & Hphi & Hop' & Hr' & Htt & Eb & E)|[_ E]]; [|rewrite E in Hv; by apply IH].
    right. exists b, k, i, ρ, c, (Z.to_nat t), q, phi, jj, t'. rewrite <- E. done.
Qed.
End Valid.
