(* ===== verification/AddressSound.v ===== *)
(** * AddressSound: the facts hold

    The meaning of a fact ([models]) and the soundness of the propagation: if the
    facts hold of every execution so does what [transfer] makes of them, whichever
    of its cases applies. *)

From stdpp Require Import functions.
From S2P Require Import Prelude Target Types Token IR ScalarFold Graph IRVerify IRSound IRTyping.
From S2P Require Import ControlFlow FlowSound LoopSound Liveness Analysis AddressProof IRRun.

(* ------------------------------------------------------------------ *)
(** ** Alignments *)

Definition pow2 (a : Z) : Prop := ∃ k, 0 ≤ k ≤ 16 ∧ a = 2 ^ k.

Lemma pow2_pos a : pow2 a → 0 < a.
Proof. intros (k & Hk & ->). lia. Qed.
Lemma pow2_divide a b : pow2 a → pow2 b → a ≤ b → (a | b).
Proof.
  intros (j & Hj & ->) (k & Hk & ->) H. apply Z.pow_le_mono_r_iff in H; [|lia..].
  exists (2 ^ (k - j)). rewrite <- Z.pow_add_r by lia. f_equal. lia.
Qed.
Lemma pow2_1 : pow2 1.
Proof. by exists 0. Qed.
Lemma pow2_min a b : pow2 a → pow2 b → pow2 (Z.min a b).
Proof. intros Ha Hb. destruct (Z.min_spec a b) as [[_ ->]|[_ ->]]; done. Qed.
Lemma pow2_max a b : pow2 a → pow2 b → pow2 (Z.max a b).
Proof. intros Ha Hb. destruct (Z.max_spec a b) as [[_ ->]|[_ ->]]; done. Qed.
Lemma pow2_mul a b : pow2 a → pow2 b → pow2 (Z.min 65536 (a * b)).
Proof.
  intros (j & Hj & ->) (k & Hk & ->). rewrite <- Z.pow_add_r by lia. destruct (Z.le_gt_cases (j + k) 16) as [H|H].
  - exists (j + k). split; [lia|]. apply Z.min_r. change 65536 with (2 ^ 16). by apply Z.pow_le_mono_r.
  - exists 16. split; [lia|]. apply Z.min_l. change 65536 with (2 ^ 16). apply Z.pow_le_mono_r; lia.
Qed.
Lemma divide_min a b x : pow2 a → pow2 b → (a | x) ∨ (b | x) → (Z.min a b | x).
Proof.
  intros Ha Hb. pose proof (pow2_divide a b Ha Hb). pose proof (pow2_divide b a Hb Ha).
  destruct (Z.min_spec a b) as [[? ->]|[? ->]]; intros [?|?]; try done; (etransitivity; [|eassumption]); auto with lia.
Qed.

Lemma halve_until_spec fuel : ∀ magnitude k, 0 ≤ k ≤ 16 → (Z.to_nat k < fuel)%nat →
  pow2 (halve_until fuel magnitude (2 ^ k)) ∧ (halve_until fuel magnitude (2 ^ k) | magnitude).
Proof.
  induction fuel as [|fuel IH]; intros m k Hk Hf; [lia|]. cbn [halve_until].
  destruct ((1 <? 2 ^ k) && negb (m mod 2 ^ k =? 0)) eqn:E.
  - bool_facts. assert (0 < k) by (destruct (decide (k = 0)) as [->|]; [done|lia]).
    replace (Z.shiftr (2 ^ k) 1) with (2 ^ (k - 1)); [apply IH; lia|].
    rewrite Z.shiftr_div_pow2 by lia. change (2 ^ 1) with 2. replace k with (k - 1 + 1) at 2 by lia.
    rewrite Z.pow_add_r by lia. change (2 ^ 1) with 2. by rewrite Z.div_mul.
  - split; [by exists k|]. apply andb_false_iff in E as [E|E].
    + apply Z.ltb_ge in E. assert (2 ^ k = 1) as -> by lia. apply Z.divide_1_l.
    + bool_facts. apply Z.mod_divide; [lia|done].
Qed.
Lemma alignmentOfOffset_spec o : pow2 (alignmentOfOffset o) ∧ (alignmentOfOffset o | o).
Proof.
  unfold alignmentOfOffset. destruct (halve_until_spec 17 (if o <? 0 then - o else o) 16) as [H1 H2]; [lia..|].
  split; [done|]. change (2 ^ 16) with 65536 in H2. destruct (o <? 0); [by apply Z.divide_opp_r|done].
Qed.
Lemma common_pow2 a o : pow2 a → pow2 (commonAlignment a o).
Proof. intros Ha. apply pow2_min; [done|apply alignmentOfOffset_spec]. Qed.
Lemma common_divide a o x : pow2 a → (a | x) ∨ (alignmentOfOffset o | x) → (commonAlignment a o | x).
Proof. intros Ha. apply divide_min; [done|apply alignmentOfOffset_spec]. Qed.
Lemma common_self a o : pow2 a → (commonAlignment a o | o).
Proof. intros Ha. apply common_divide; [done|]. right. apply alignmentOfOffset_spec. Qed.
Lemma pow2_65536 : pow2 65536.
Proof. by exists 16. Qed.
Lemma pow2_2 : pow2 2.
Proof. by exists 1. Qed.
#[export] Hint Resolve pow2_1 pow2_2 pow2_65536 pow2_min pow2_max pow2_mul common_pow2 common_self : pow2.

(* ------------------------------------------------------------------ *)
(** ** The meaning of facts *)

Definition models (frame : Z) (x : Fact) (w : Z) : Prop :=
  match kind x with
  | Unknown => True
  | Scalar | Absolute => low x ≤ w ≤ high x ∧ (al x | w)
  | Frame => ∃ o, w = frame + o ∧ low x ≤ o ≤ high x ∧ (al x | o) ∧ al x ≤ 2
  end.

(** The interval of a scalar type is what it holds. *)
Lemma scalarRange_kind t : kind (scalarRange t) = Scalar ↔ IRScalarFold.scalar t = true.
Proof.
  unfold scalarRange. destruct (IRScalarFold.scalar t); cbn; [|done]. by repeat case_bool_decide.
Qed.
Lemma scalarRange_al t : al (scalarRange t) = 1.
Proof. unfold scalarRange. destruct (IRScalarFold.scalar t); cbn; [|done]. by repeat case_bool_decide. Qed.
Lemma scalarRange_holds t w : IRScalarFold.scalar t = true →
  holds t w ↔ low (scalarRange t) ≤ w ≤ high (scalarRange t).
Proof.
  intros Hs. unfold scalarRange, holds, width. rewrite Hs. cbn [negb]. unfold IRScalarFold.scalar in Hs.
  destruct (base t); cbn in Hs |- *; try (by rewrite ?andb_false_r in Hs); decides; destruct (is_unsigned t); cbn; lia.
Qed.
Lemma scalar_level t : IRScalarFold.scalar t = true → pointer_level t = 0.
Proof. unfold IRScalarFold.scalar. intros H. by bool_facts. Qed.
Lemma scalarRange_models frame t w : (IRScalarFold.scalar t = true → holds t w) → models frame (scalarRange t) w.
Proof.
  intros Hh. unfold models. destruct (IRScalarFold.scalar t) eqn:Hs.
  - rewrite (proj2 (scalarRange_kind t) Hs), scalarRange_al. split; [by apply scalarRange_holds, Hh|apply Z.divide_1_l].
  - unfold scalarRange. by rewrite Hs.
Qed.

(** A result in the range of its type is not wrapped. *)
Lemma bounded_sound frame t m w l h a : IRScalarFold.scalar t = true → w = convert m t → l ≤ m ≤ h → (a | m) →
  models frame (boundedScalar (scalarRange t) l h a) w.
Proof.
  intros Hs -> Hm Ha. unfold boundedScalar. rewrite (proj2 (scalarRange_kind t) Hs). cbn [negb bool_decide].
  assert (holds t (convert m t)) as Hh by (by apply convert_holds, scalar_level).
  destruct (_ || _) eqn:E; [by apply scalarRange_models|]. bool_facts. unfold models. cbn.
  rewrite convert_id; [done|by apply scalar_level|]. apply scalarRange_holds; [done|lia].
Qed.
Lemma bounded_pow2 t l h a : pow2 a → pow2 (al (boundedScalar (scalarRange t) l h a)).
Proof. intros Ha. unfold boundedScalar. destruct (_ || _); cbn; [rewrite scalarRange_al; auto with pow2|done]. Qed.
Lemma bounded_kind t l h a : kind (boundedScalar (scalarRange t) l h a) = Scalar → IRScalarFold.scalar t = true.
Proof.
  unfold boundedScalar. destruct (bool_decide (kind (scalarRange t) = Scalar)) eqn:E.
  - intros _. apply scalarRange_kind. by bool_facts.
  - cbn. intros H. by apply scalarRange_kind.
Qed.

(* ------------------------------------------------------------------ *)
(** ** Arithmetic on intervals *)

Lemma scaled_bounds l h x c : l ≤ x ≤ h → Z.min (l * c) (h * c) ≤ x * c ≤ Z.max (l * c) (h * c).
Proof.
  intros Hx. destruct (Z.le_gt_cases 0 c).
  - assert (l * c ≤ x * c ≤ h * c) by (split; apply Z.mul_le_mono_nonneg_r; lia). lia.
  - assert (h * c ≤ x * c ≤ l * c) by (split; apply Z.mul_le_mono_nonpos_r; lia). lia.
Qed.
Lemma product_bounds l1 h1 l2 h2 x y : l1 ≤ x ≤ h1 → l2 ≤ y ≤ h2 →
  minimum [l1 * l2; l1 * h2; h1 * l2; h1 * h2] ≤ x * y ≤ maximum [l1 * l2; l1 * h2; h1 * l2; h1 * h2].
Proof.
  intros Hx Hy. unfold minimum, maximum. cbn [foldr head default from_option].
  pose proof (scaled_bounds l1 h1 x y Hx). pose proof (scaled_bounds l2 h2 y l1 Hy). pose proof (scaled_bounds l2 h2 y h1 Hy).
  rewrite (Z.mul_comm l1 l2), (Z.mul_comm l1 h2), (Z.mul_comm h1 l2), (Z.mul_comm h1 h2), (Z.mul_comm l1 y), (Z.mul_comm h1 y) in *. lia.
Qed.

Lemma product_divide a b x y : pow2 a → pow2 b → (a | x) → (b | y) → (Z.min 65536 (a * b) | x * y).
Proof.
  intros Ha Hb Hx Hy. assert (a * b | x * y) as H by (destruct Hx as [p ->], Hy as [q ->]; exists (p * q); ring).
  destruct Ha as (j & Hj & ->), Hb as (k & Hk & ->). rewrite <- Z.pow_add_r in * by lia.
  destruct (Z.min_spec 65536 (2 ^ (j + k))) as [[Hlt ->]|[_ ->]]; [|done]. etransitivity; [|exact H].
  change 65536 with (2 ^ 16) in *. exists (2 ^ (j + k - 16)). rewrite <- Z.pow_add_r; [f_equal; lia| |lia].
  apply Z.pow_lt_mono_r_iff in Hlt; lia.
Qed.

Lemma land_divide a x y : pow2 a → (a | x) → (a | Z.land x y).
Proof.
  intros (k & Hk & ->) H. apply Z.mod_divide in H; [|lia]. apply Z.mod_divide; [lia|].
  rewrite <- Z.land_ones in * by lia. rewrite <- Z.land_assoc, (Z.land_comm y), Z.land_assoc, H. apply Z.land_0_l.
Qed.
Lemma land_bounds x y : 0 ≤ x → 0 ≤ Z.land x y ≤ x.
Proof.
  intros Hx. split; [apply Z.land_nonneg; by left|].
  assert (Z.ldiff (Z.land x y) x = 0) as E.
  { apply Z.bits_inj'. intros n Hn. rewrite Z.ldiff_spec, Z.land_spec, Z.bits_0. by destruct (Z.testbit x n), (Z.testbit y n). }
  apply Z.sub_nocarry_ldiff in E. assert (0 ≤ Z.ldiff x (Z.land x y)) by (apply Z.ldiff_nonneg; by left). lia.
Qed.
Lemma masked x y : 0 ≤ x ≤ 65535 → Z.land (Z.land x y) 65535 = Z.land x y.
Proof. intros Hx. pose proof (land_bounds x y). rewrite land_65535. apply Z.mod_small. lia. Qed.

Lemma low_bit z : 0 ≤ Z.land z 1 ≤ 1.
Proof.
  pose proof (Z.land_ones z 1 ltac:(lia)) as E. change (Z.ones 1) with 1 in E. rewrite E. change (2 ^ 1) with 2.
  pose proof (Z.mod_pos_bound z 2). lia.
Qed.
Lemma shift_mono x l h n : 0 ≤ n → l ≤ x ≤ h → shift_right_value l n ≤ shift_right_value x n ≤ shift_right_value h n.
Proof. intros Hn Hx. rewrite !shift_right_spec, !Z.shiftr_div_pow2 by done. split; apply Z.div_le_mono; lia. Qed.

(** A value of a scalar fact. *)
Definition among (x : Fact) (w : Z) : Prop := low x ≤ w ≤ high x ∧ (al x | w).

Lemma transfer_binary_sound frame i t a b x y m w : IRScalarFold.scalar t = true → pow2 (al a) → pow2 (al b) →
  among a x → among b y → x ≤ 65535 → y ≤ 65535 → IRScalarFold.fold_binary (i_operation i) x y = Some m → w = convert m t →
  models frame (transfer_binary i (scalarRange t) a b) w.
Proof.
  intros Hs Pa Pb [Hx Ax] [Hy Ay] Sx Sy Hm Hw. unfold transfer_binary. unfold IRScalarFold.fold_binary in Hm.
  assert (models frame (scalarRange t) w) as Hfull by (apply scalarRange_models; intros _; rewrite Hw; by apply convert_holds, scalar_level).
  destruct (String.eqb_spec (i_operation i) "+") as [|_].
  { injection Hm as <-. eapply bounded_sound; [done..|lia|]. apply Z.divide_add_r; apply divide_min; auto. }
  destruct (String.eqb_spec (i_operation i) "-") as [|_].
  { injection Hm as <-. eapply bounded_sound; [done..|lia|]. apply Z.divide_sub_r; apply divide_min; auto. }
  destruct (String.eqb_spec (i_operation i) "*") as [|_].
  { injection Hm as <-. eapply bounded_sound; [done..|by apply product_bounds|by apply product_divide]. }
  destruct (String.eqb_spec (i_operation i) "&") as [E|_]; cbn [andb].
  { rewrite E in Hm. cbn in Hm. injection Hm as <-.
    set (mask := if (low a =? high a) && (0 <=? low a) then low a else if (low b =? high b) && (0 <=? low b) then low b else -1). assert (0 ≤ mask → 0 ≤ Z.land (Z.land x y) 65535 ≤ mask) as Hmask.
    { unfold mask. intros Hz. destruct ((low a =? high a) && (0 <=? low a)) eqn:Ea.
      - bool_facts. rewrite masked by lia. pose proof (land_bounds x y). lia.
      - destruct ((low b =? high b) && (0 <=? low b)) eqn:Eb; [|lia].
        bool_facts. rewrite (Z.land_comm x), masked by lia. pose proof (land_bounds y x). lia. }
    destruct (0 <=? mask) eqn:Ez; [|rewrite E; by destruct (String.eqb_spec "&" ">>")]. bool_facts.
    eapply bounded_sound; [done..|by apply Hmask|]. apply land_divide; [auto with pow2|].
    destruct (Z.max_spec (al a) (al b)) as [[_ ->]|[_ ->]]; [rewrite Z.land_comm|]; by apply land_divide. }
  destruct (String.eqb_spec (i_operation i) ">>") as [E|_]; [|done]. cbn [andb].
  destruct (low b =? high b) eqn:E1; [|done]. destruct (0 <=? low b) eqn:E2; [|done]. destruct (low b <=? 15) eqn:E3; [|done].
  cbn [andb]. bool_facts. rewrite E in Hm. cbn in Hm. destruct (_ || _) eqn:E4; [done|]. injection Hm as <-.
  assert (y = low b) as -> by lia. change (if 0 <=? x then _ else _) with (shift_right_value x (low b)) in Hw.
  eapply bounded_sound; [done..|by apply shift_mono|apply Z.divide_1_l].
Qed.

(** The displacement of a pointer, and the fact about it. *)
Definition offset_of (i : IRInstruction) (x : Z) : Z := if is_operation i "-" then - (x * i_immediate i) else x * i_immediate i.
Definition offset_fact (i : IRInstruction) (a b : Fact) : Fact :=
  let l := if is_operation i "-" then - (high b * i_immediate i) else low b * i_immediate i in
  let h := if is_operation i "-" then - (low b * i_immediate i) else high b * i_immediate i in
  mkFact Scalar l h (if l =? h then commonAlignment (al a) l else commonAlignment (al a) (i_immediate i)).
Lemma transfer_offset_displaced s i a b : transfer_offset s i a b =
  if (low (offset_fact i a b) <? -65535) || (65535 <? high (offset_fact i a b)) then no_fact else displaced s a (offset_fact i a b).
Proof. done. Qed.
Lemma offset_pow2 i a b : pow2 (al a) → pow2 (al (offset_fact i a b)).
Proof. intros Ha. cbn. destruct (_ =? _); by apply common_pow2. Qed.
Lemma offset_among i a b x : 0 < i_immediate i → among b x → pow2 (al a) → among (offset_fact i a b) (offset_of i x).
Proof.
  intros Hst [Hb _] Pa. assert (low b * i_immediate i ≤ x * i_immediate i ≤ high b * i_immediate i) by (split; apply Z.mul_le_mono_nonneg_r; lia).
  assert (i_immediate i | offset_of i x) as Hdiv.
  { unfold offset_of. destruct (is_operation i "-"); [apply Z.divide_opp_r|]; apply Z.divide_factor_r. }
  split; cbn [low high al offset_fact]; [unfold offset_of; by destruct (is_operation i "-"); lia|].
  destruct (_ =? _) eqn:El; [|etransitivity; [by apply common_self|exact Hdiv]]. bool_facts. unfold offset_of in *. destruct (is_operation i "-").
  - replace (- (x * i_immediate i)) with (- (high b * i_immediate i)) by lia. by apply common_self.
  - replace (x * i_immediate i) with (low b * i_immediate i) by lia. by apply common_self.
Qed.

(* ------------------------------------------------------------------ *)
(** ** Sound proofs *)

Section Sound.
Context (f : IRFunction) (locals : list (SymbolId * Symbol)) (frame : Z) (definitions : list (option IRInstruction)).
Hypothesis Hssa : ssa f.
(** The table of definitions. *)
Hypothesis Hdefinitions : ∀ v i, 0 ≤ v → definitions !! Z.to_nat v = Some (Some i) → ∃ d k, defines f d k i ∧ i_result i = v.
Notation runs := (runs f locals frame).
Notation computes := (computes f locals frame).
Notation models := (models frame).

Definition scalar_value (v : IRValueId) : Prop := ∃ t, value_type f v t ∧ IRScalarFold.scalar t = true.

Record sound (s : AddressProof) : Prop := {
  so_models : ∀ st v w, runs st → st_values st v = Some w → models (get s v) w;
  so_scalar : ∀ v, kind (get s v) = Scalar → scalar_value v;
  so_pow2 : ∀ v, pow2 (al (get s v));
  so_constraints : ∀ st v w m c, runs st → st_values st v = Some w → m_constraints s !! st_block st = Some m → m !! v = Some c →
    low c ≤ w ≤ high c;
  so_inductions : ∀ v x, 0 ≤ v → m_inductions s !! Z.to_nat v = Some x → kind x = Scalar →
    scalar_value v ∧ pow2 (al x) ∧ ∀ st w, runs st → st_values st v = Some w → models x w;
  so_blocks : ∀ d k i, defines f d k i → definition_block s i = Z.of_nat d;
  so_frame : m_checked_frame s = true → (2 | frame) ∧ 0 < frame + m_frame_low s ∧ frame + m_frame_end s ≤ 65536
}.

Lemma get_in_al s v b : al (get_in s v b) = al (get s v).
Proof. unfold get_in. destruct (_ || _); [done|]. destruct (_ !! v); [|done]. by destruct (_ <=? _). Qed.
Lemma get_in_kind s v b : kind (get_in s v b) = kind (get s v).
Proof. unfold get_in. destruct (_ || _); [done|]. destruct (_ !! v); [|done]. by destruct (_ <=? _). Qed.

Lemma get_in_models s st v w : sound s → runs st → st_values st v = Some w → models (get_in s v (Z.of_nat (st_block st))) w.
Proof.
  intros Hs Hr Hw. pose proof (so_models s Hs st v w Hr Hw) as Hm. unfold get_in.
  destruct (negb _ || _) eqn:E; [done|]. apply orb_false_iff in E as [E1 E2]. bool_facts.
  unfold nth_or. replace (Z.of_nat (st_block st) <? 0) with false by (symmetry; apply Z.ltb_ge; lia). rewrite Nat2Z.id.
  destruct (m_constraints s !! st_block st) as [m|] eqn:Em; cbn [default from_option id]; [|by rewrite lookup_empty].
  destruct (m !! v) as [c|] eqn:Ec; [|done].
  pose proof (so_constraints s Hs _ _ _ _ _ Hr Hw Em Ec) as Hc. destruct (_ <=? _) eqn:El; [|done].
  unfold AddressSound.models in *. cbn [kind low high al]. destruct (kind (get s v)); try done. split; [lia|apply Hm].
Qed.

(** A scalar fact of a value that has been read. *)
Lemma get_in_among s st v w : sound s → runs st → st_values st v = Some w → kind (get_in s v (Z.of_nat (st_block st))) = Scalar →
  among (get_in s v (Z.of_nat (st_block st))) w.
Proof.
  intros Hs Hr Hw Hk. pose proof (get_in_models s st v w Hs Hr Hw) as H. unfold AddressSound.models in H. by rewrite Hk in H.
Qed.

Lemma type_of_definition d k i t : defines f d k i → value_type f (i_result i) t → i_type i = t.
Proof.
  intros Hd (d' & k' & i' & Hi' & Hp' & Hr' & <-). destruct (ssa_unique _ Hssa _ _ _ _ _ _ Hd (conj Hi' Hp') (eq_sym Hr')) as [<- <-].
  destruct Hd as [Hd _]. rewrite Hi' in Hd. by injection Hd as ->.
Qed.
Lemma value_types_agree v t u : value_type f v t → value_type f v u → t = u.
Proof.
  intros (d & k & i & Hi & Hp & <- & <-) Hu. by apply (type_of_definition d k i u).
Qed.

(** A scalar value holds its type. *)
Lemma value_holds st v w t : runs st → st_values st v = Some w → value_type f v t → IRScalarFold.scalar t = true → holds t w.
Proof.
  intros Hr Hw Ht Hs. destruct (va_typed _ _ _ _ (runs_valid f locals frame Hssa st Hr) v w Hw) as (d & k & i & Hd & <- & Hh).
  rewrite (type_of_definition _ _ _ _ Hd Ht) in Hh. by apply Hh.
Qed.

Lemma operand_value d k i ρ c v : runs (mkState d k ρ c) → defines f d k i → i_opcode i ≠ OpPhi → v ∈ i_operands i → ∃ w, ρ v = Some w.
Proof.
  intros Hr [Hi _] Hop Hv. pose proof (runs_valid f locals frame Hssa _ Hr) as HV.
  destruct (ssa_use _ Hssa _ _ _ _ Hi Hop Hv (va_reach _ _ _ _ HV)) as (d' & k' & i' & Hd & <- & Hp).
  apply (va_defined _ _ _ _ HV d' k' i' Hd). by left.
Qed.

(** ** The cases of [transfer] *)

Lemma displaced_sound s A D a x w : sound s → models A a → among D x → pow2 (al A) → pow2 (al D) → w = u16 (a + x) →
  models (displaced s A D) w.
Proof.
  intros Hs HA [Hx Dx] PA PD ->. unfold displaced. destruct (_ && _) eqn:E1; [done|]. destruct (_ || _) eqn:E2; [done|].
  cbn [kind low high]. bool_facts. destruct (kind A) eqn:HK; cbn in E1; try done; decides; cbn [andb negb].
  - unfold AddressSound.models in HA. rewrite HK in HA. destruct HA as (o & -> & Ho & Ao & Hal).
    destruct (negb _ || _ || _) eqn:E3; [done|]. bool_facts. destruct (so_frame s Hs) as (_ & HF1 & HF2); [done|].
    exists (o + x). cbn. split; [|split; [lia|split; [|lia]]].
    + rewrite <- Z.add_assoc. apply uwrap_small. lia.
    + apply Z.divide_add_r; apply divide_min; auto.
  - unfold AddressSound.models in HA. rewrite HK in HA. destruct HA as [Ha Aa].
    destruct (_ || _) eqn:E3; [done|]. bool_facts. unfold AddressSound.models. cbn. rewrite uwrap_small by (cbn; lia).
    split; [lia|]. apply Z.divide_add_r; apply divide_min; auto.
Qed.

Lemma point_models w : models (point w) w.
Proof. unfold AddressSound.models. cbn. split; [lia|]. auto with pow2. Qed.

Lemma constant_sound ρ i w : i_opcode i = OpConstant → computes ρ i w → models (transfer_constant i (scalarRange (i_type i))) w.
Proof.
  intros Hop [_ Hc]. rewrite Hop in Hc. destruct Hc as [H1 H2]. unfold transfer_constant.
  destruct (bool_decide _) eqn:E; bool_facts.
  - rewrite H1 by (by apply scalarRange_kind). apply point_models.
  - destruct (_ && _) eqn:E2; [|done]. bool_facts. rewrite H2 by done. unfold AddressSound.models. cbn. split; [lia|]. auto with pow2.
Qed.

Section At.
Context (s : AddressProof) (d k : nat) (i : IRInstruction) (ρ : environment) (c : Z → Z) (w : Z).
Hypothesis (Hs : sound s) (Hr : runs (mkState d k ρ c)) (Hd : defines f d k i) (Hop : i_opcode i ≠ OpPhi) (Hw : computes ρ i w).
Notation block := (Z.of_nat d).
Notation fact n := (match i_operands i !! n with Some v => get_in s v block | None => no_fact end).

Lemma fact_models n a : ρ (operand_of i n) = Some a → models (fact n) a.
Proof.
  unfold operand_of. destruct (i_operands i !! n) as [v|]; [|done]. cbn. intros Ha. by apply (get_in_models s _ _ _ Hs Hr).
Qed.
Lemma fact_value n : (n < length (i_operands i))%nat → ∃ a, ρ (operand_of i n) = Some a.
Proof.
  intros Hn. destruct (lookup_lt_is_Some_2 _ _ Hn) as [v Hv]. unfold operand_of. rewrite Hv. cbn.
  eapply operand_value; [done..|]. by eapply list_elem_of_lookup_2.
Qed.
Lemma fact_among n : kind (fact n) = Scalar → ∃ a t, ρ (operand_of i n) = Some a ∧ among (fact n) a ∧
  value_type f (operand_of i n) t ∧ IRScalarFold.scalar t = true ∧ holds t a.
Proof.
  intros Hk. destruct (i_operands i !! n) as [v|] eqn:Hv; [|done].
  destruct (fact_value n) as [a Ha]; [by eapply lookup_lt_Some|]. assert (operand_of i n = v) as E by (unfold operand_of; by rewrite Hv).
  rewrite E in *. rewrite get_in_kind in Hk. destruct (so_scalar s Hs v Hk) as (t & Ht & Hsc). exists a, t.
  split; [done|]. split; [apply (get_in_among s _ _ _ Hs Hr Ha); by rewrite get_in_kind|]. split; [done|]. split; [done|].
  by apply (value_holds _ _ _ _ Hr Ha Ht).
Qed.
Lemma fact_pow2 n : pow2 (al (fact n)).
Proof. destruct (i_operands i !! n); [rewrite get_in_al; apply Hs|apply pow2_1]. Qed.

Lemma address_sound : i_opcode i = OpAddress → nearRam (i_type i) = true → models (transfer_address s locals i (fact 0%nat)) w.
Proof.
  intros Hop' Hn. destruct Hw as [_ Hc]. rewrite Hop' in Hc. destruct (Hc Hn) as (H1 & H2 & H3). unfold transfer_address, is_operation.
  destruct (_ && _) eqn:E.
  - bool_facts. apply String.eqb_eq in H. destruct (fact_value 0) as [a Ha]; [unfold zlen in *; lia|].
    eapply (displaced_sound s _ _ a (i_immediate i)); [done|by apply fact_models| |apply fact_pow2| |by apply H1].
    + split; cbn; [lia|]. apply common_self, fact_pow2.
    + cbn. apply common_pow2, fact_pow2.
  - destruct (m_checked_frame s) eqn:Ec; [|done]. cbn [negb]. destruct (so_frame s Hs Ec) as (Hf & _ & _).
    assert (∀ o, w = frame + o → models (if (o <? m_frame_low s) || (m_frame_end s <=? o) then no_fact else mkFact Frame o o (commonAlignment 2 o)) w) as Hfr.
    { intros o ->. destruct (_ || _); [done|]. exists o. cbn. split; [done|]. split; [lia|]. split; [auto with pow2|]. unfold commonAlignment. lia. }
    destruct (String.eqb_spec (i_operation i) "") as [E0|_].
    + destruct (find_local _ _) as [local|] eqn:El; [|done]. destruct (_ <? _); [done|]. apply Hfr. by apply H3.
    + destruct (String.eqb_spec (i_operation i) "temporary") as [E1|_]; [|done]. apply Hfr. by apply H2.
Qed.

Lemma offset_sound : i_opcode i = OpPointerOffset → nearRam (i_type i) = true → zlen (i_operands i) = 2 → kind (fact 1%nat) = Scalar →
  0 < i_immediate i → models (transfer_offset s i (fact 0%nat) (fact 1%nat)) w.
Proof.
  intros Hop' Hn Hl Hk Hst. destruct Hw as [_ Hc]. rewrite Hop' in Hc. specialize (Hc Hn).
  destruct (fact_value 0) as [a Ha]; [unfold zlen in *; lia|]. destruct (fact_among 1 Hk) as (x & t & Hx & Hb & _).
  specialize (Hc a x Ha Hx). rewrite transfer_offset_displaced. destruct (_ || _); [done|].
  eapply (displaced_sound s _ _ a); [done|by apply fact_models|apply offset_among; [done|done|apply fact_pow2]|apply fact_pow2|by apply offset_pow2, fact_pow2|].
  rewrite Hc. unfold offset_of. f_equal. destruct (is_operation i "-"); lia.
Qed.

Lemma pointer_cast_sound : i_opcode i = OpCast → nearRam (i_type i) = true → models (transfer_pointer_cast definitions i (fact 0%nat)) w.
Proof.
  intros Hop' Hn. destruct Hw as [_ Hc]. rewrite Hop' in Hc. destruct Hc as [Hc _]. specialize (Hc Hn). unfold transfer_pointer_cast.
  destruct (_ || _) eqn:E; [done|]. bool_facts. destruct (nth_or None definitions (operand_of i 0)) as [source|] eqn:Es; [|done].
  destruct (fact_value 0) as [a Ha]; [unfold zlen in *; lia|].
  assert (value_type f (operand_of i 0) (i_type source)) as Ht.
  { unfold nth_or in Es. destruct (operand_of i 0 <? 0) eqn:En; [done|]. bool_facts.
    destruct (definitions !! Z.to_nat (operand_of i 0)) as [x|] eqn:Ex; [|done]. cbn in Es. subst x.
    destruct (Hdefinitions _ _ En Ex) as (d' & k' & [Hi' Hp'] & Hr'). by exists d', k', source. }
  destruct (Hc _ _ Ht Ha) as [H1 H2]. destruct (nearRam (i_type source)) eqn:Er; [rewrite H1 by done; by apply fact_models|].
  destruct (_ && _) eqn:E2; [|done]. bool_facts. destruct (fact_among 0) as (a' & t & Ha' & [Hb Hal] & Ht' & Hsc & _); [done|].
  rewrite (value_types_agree _ _ _ Ht Ht') in *. rewrite H2 by done. rewrite Ha in Ha'. injection Ha' as <-.
  unfold AddressSound.models. cbn. rewrite uwrap_small by (cbn; lia). done.
Qed.

(** The result of an instruction that can be folded. *)
Definition folded (a b : Z) : option Z :=
  match i_opcode i with
  | OpBitExtract => if (i_immediate i <? 0) || (15 <? i_immediate i) then None else Some (Z.land (Z.shiftr (u64 a) (i_immediate i)) 1)
  | OpCast => Some a
  | OpUnary => IRScalarFold.fold_unary (i_operation i) a
  | OpBinary => IRScalarFold.fold_binary (i_operation i) a b
  | _ => None
  end.

Lemma evaluate_one v t a r : i_operands i = [v] → IRScalarFold.scalar t = true → holds t a →
  IRScalarFold.evaluate i [IRScalarFold.mkOperand (Some t) a] = Some r → ∃ m, folded a 0 = Some m ∧ r = convert m (i_type i).
Proof.
  intros Ho Ht Ha. unfold IRScalarFold.evaluate. rewrite Ho. destruct (_ || _ || _); [done|]. cbn [length IRScalarFold.convert_operands].
  rewrite Ht. cbn. rewrite (convert_id t a (scalar_level t Ht) Ha). change (match i_opcode i with OpBinary => _ | _ => _ end) with (folded a 0).
  destruct (folded a 0) as [m|]; [|done]. intros [= <-]. eauto.
Qed.
Lemma evaluate_two u v t t' a b r : i_operands i = [u; v] → IRScalarFold.scalar t = true → holds t a → IRScalarFold.scalar t' = true → holds t' b →
  IRScalarFold.evaluate i [IRScalarFold.mkOperand (Some t) a; IRScalarFold.mkOperand (Some t') b] = Some r →
  ∃ m, folded a b = Some m ∧ r = convert m (i_type i).
Proof.
  intros Ho Ht Ha Ht' Hb. unfold IRScalarFold.evaluate. rewrite Ho. destruct (_ || _ || _); [done|]. cbn [length IRScalarFold.convert_operands].
  rewrite Ht. cbn. rewrite Ht'. cbn. rewrite (convert_id t a (scalar_level t Ht) Ha), (convert_id t' b (scalar_level t' Ht') Hb).
  change (match i_opcode i with OpBinary => _ | _ => _ end) with (folded a b).
  destruct (folded a b) as [m|]; [|done]. intros [= <-]. eauto.
Qed.

(** What the instruction computes by folding. *)
Definition foldable : bool := match i_opcode i with OpCast | OpUnary | OpBinary | OpBitExtract => true | _ => false end.
Lemma computes_fold inputs : foldable = true → IRScalarFold.scalar (i_type i) = true → inputs_of f ρ i inputs →
  IRScalarFold.evaluate i inputs = Some w.
Proof.
  intros Hf Hsc Hin. destruct Hw as [_ Hc]. unfold foldable in Hf. destruct (i_opcode i); try done; try (by apply Hc); by apply (proj2 Hc).
Qed.

Lemma fold_one v a t : foldable = true → IRScalarFold.scalar (i_type i) = true → i_operands i = [v] → ρ v = Some a → value_type f v t →
  IRScalarFold.scalar t = true → holds t a → ∃ m, folded a 0 = Some m ∧ w = convert m (i_type i).
Proof.
  intros Hf Hsc Ho Ha Ht Hst Hh. eapply evaluate_one; [done|exact Hst|exact Hh|]. apply computes_fold; [done..|].
  unfold inputs_of. rewrite Ho. repeat constructor. by exists t, a.
Qed.
Lemma fold_two u v a b t t' : foldable = true → IRScalarFold.scalar (i_type i) = true → i_operands i = [u; v] → ρ u = Some a → ρ v = Some b →
  value_type f u t → value_type f v t' → IRScalarFold.scalar t = true → IRScalarFold.scalar t' = true → holds t a → holds t' b →
  ∃ m, folded a b = Some m ∧ w = convert m (i_type i).
Proof.
  intros Hf Hsc Ho Ha Hb Ht Ht' Hst Hst' Hh Hh'. eapply evaluate_two; [done|exact Hst|exact Hh|exact Hst'|exact Hh'|]. apply computes_fold; [done..|].
  unfold inputs_of. rewrite Ho. constructor; [by exists t, a|]. constructor; [by exists t', b|constructor].
Qed.

(** Points are the operands' values. *)
Lemma points_inputs operands inputs : point_operands s definitions block operands = Some inputs → (∀ v, v ∈ operands → v ∈ i_operands i) →
  (∀ v, v ∈ operands → is_point (get_in s v block) = true) →
  Forall2 (λ v o, ∃ t w, value_type f v t ∧ IRScalarFold.scalar t = true ∧ ρ v = Some w ∧ o = IRScalarFold.mkOperand (Some t) w) operands inputs.
Proof.
  revert inputs. induction operands as [|v operands IH]; intros inputs H Hin Hpt; cbn [point_operands] in H; [injection H as <-; constructor|].
  destruct (_ <=? _); [done|]. destruct (nth_or None definitions v) as [source|] eqn:Es; [|done]. cbn in H.
  destruct (point_operands s definitions block operands) as [rest|] eqn:Er; [|done]. injection H as <-. constructor; [|apply IH; [done|set_solver..]].
  destruct (operand_value d k i ρ c v Hr Hd Hop (Hin v ltac:(set_solver))) as [a Ha].
  specialize (Hpt v ltac:(set_solver)). unfold is_point in Hpt. bool_facts.
  pose proof (get_in_among s _ v a Hs Hr Ha H) as [Hb _]. cbn [st_block] in Hb.
  rewrite get_in_kind in H. destruct (so_scalar s Hs v H) as (t & Ht & Hsc). exists t, a. split; [done|]. split; [done|]. split; [done|].
  replace (low (get_in s v block)) with a by lia. f_equal. f_equal.
  unfold nth_or in Es. destruct (v <? 0) eqn:En; [done|]. bool_facts.
  destruct (definitions !! Z.to_nat v) as [x|] eqn:Ex; [|done]. cbn in Es. subst x.
  destruct (Hdefinitions _ _ En Ex) as (d' & k' & [Hi' Hp'] & Hr'). eapply value_types_agree; [|exact Ht]. by exists d', k', source.
Qed.

(** What [transfer_scalar] does where the operands are not points. *)
Definition operate : Fact :=
  let full := scalarRange (i_type i) in
  let a := fact 0%nat in
  let b := fact 1%nat in
  if is_op (i_opcode i) OpBitExtract then boundedScalar full 0 1 1
  else if negb (bool_decide (kind a = Scalar)) then full
  else if is_op (i_opcode i) OpCast then boundedScalar full (low a) (high a) (al a)
  else if is_op (i_opcode i) OpUnary then
    if is_operation i "!" then boundedScalar full 0 1 1
    else if is_operation i "-" then boundedScalar full (- high a) (- low a) (al a)
    else full
  else if negb (is_op (i_opcode i) OpBinary) || negb (bool_decide (kind b = Scalar)) then full
  else transfer_binary i full a b.

Lemma single_operand : i_opcode i = OpUnary ∨ i_opcode i = OpCast → ∃ x, i_operands i = [x] ∧ operand_of i 0 = x.
Proof. intros Ho. destruct (ssa_single _ Hssa _ _ _ (proj1 Hd) Ho) as [x Hx]. exists x. split; [done|]. unfold operand_of. by rewrite Hx. Qed.

Lemma operate_sound : IRScalarFold.scalar (i_type i) = true → models operate w.
Proof.
  intros Hsc. assert (models (scalarRange (i_type i)) w) as Hfull by (apply scalarRange_models; apply Hw).
  pose proof (ssa_typed _ Hssa _ _ _ (proj1 Hd)) as Hty. unfold typing_rule in Hty. unfold operate.
  destruct (decide (i_opcode i = OpBitExtract)) as [Ho|Ho].
  { rewrite bool_decide_true by done. rewrite Ho in Hty. destruct Hty as (x & tx & Hx & Htx & Hsame & _ & _ & Him).
    destruct (scalar_same _ _ Hsame) as [Hst _]. rewrite Hst in Hsc.
    destruct (operand_value d k i ρ c x Hr Hd Hop) as [a Ha]; [rewrite Hx; set_solver|].
    destruct (fold_one x a tx) as (m & Hm & E); try done; [by unfold foldable; rewrite Ho|congruence|by eapply value_holds|].
    unfold folded in Hm. rewrite Ho in Hm. destruct (_ || _); [done|]. injection Hm as <-.
    eapply bounded_sound; [congruence|exact E| |apply Z.divide_1_l].
    apply low_bit. }
  rewrite bool_decide_false by done. destruct (bool_decide (kind (fact 0%nat) = Scalar)) eqn:Ek; [|done]. bool_facts. cbn [negb].
  destruct (fact_among 0 Ek) as (a & t & Ha & [Hb Hal] & Ht & Hst & Hh).
  destruct (decide (i_opcode i = OpCast)) as [Hc|Hc].
  { rewrite bool_decide_true by done. destruct single_operand as (x & Hx & E); [by right|]. rewrite E in *.
    destruct (fold_one x a t) as (m & Hm & Em); try done; [by unfold foldable; rewrite Hc|].
    unfold folded in Hm. rewrite Hc in Hm. injection Hm as <-. by eapply bounded_sound. }
  rewrite bool_decide_false by done. destruct (decide (i_opcode i = OpUnary)) as [Hu|Hu].
  { rewrite bool_decide_true by done. destruct single_operand as (x & Hx & E); [by left|]. rewrite E in *.
    destruct (fold_one x a t) as (m & Hm & Em); try done; [by unfold foldable; rewrite Hu|].
    unfold folded in Hm. rewrite Hu in Hm. unfold IRScalarFold.fold_unary in Hm. unfold is_operation.
    destruct (String.eqb_spec (i_operation i) "!") as [Eo|_].
    - rewrite Eo in Hm. cbn in Hm. injection Hm as <-. eapply bounded_sound; [done|exact Em| |apply Z.divide_1_l].
      unfold of_bool. destruct (a =? 0); lia.
    - destruct (String.eqb_spec (i_operation i) "-"); [|done]. injection Hm as <-.
      eapply bounded_sound; [done|exact Em|lia|by apply Z.divide_opp_r]. }
  rewrite bool_decide_false by done. destruct (_ || _) eqn:Eb; [done|]. bool_facts.
  destruct (fact_among 1) as (b & t' & Hb' & Hbb & Ht' & Hst' & Hh'); [done|].
  rewrite H in Hty. destruct Hty as (x & y & tx & ty & Hxy & _). assert (operand_of i 0 = x ∧ operand_of i 1 = y) as [Ex Ey] by (unfold operand_of; by rewrite Hxy).
  rewrite Ex in Ha, Ht. rewrite Ey in Hb', Ht'.
  destruct (fold_two x y a b t t') as (m & Hm & Em); try done; [by unfold foldable; rewrite H|].
  unfold folded in Hm. rewrite H in Hm. pose proof (holds_small _ _ Hh). pose proof (holds_small _ _ Hh').
  eapply (transfer_binary_sound _ i _ _ _ a b m); try done; [apply fact_pow2..|lia|lia].
Qed.

Lemma scalar_sound : IRScalarFold.scalar (i_type i) = true →
  models (transfer_scalar s definitions block i (scalarRange (i_type i)) (fact 0%nat) (fact 1%nat)) w.
Proof.
  intros Hsc. unfold transfer_scalar. change (if is_op (i_opcode i) OpBitExtract then _ else _) with operate.
  pose proof (operate_sound Hsc) as Ho. destruct (_ && _) eqn:E; [|done]. bool_facts.
  destruct (point_operands _ _ _ _) as [inputs|] eqn:Ep; [|apply scalarRange_models; apply Hw].
  destruct (IRScalarFold.evaluate i inputs) as [r|] eqn:Ev; [|done].
  assert (IRScalarFold.evaluate i inputs = Some w) as Ew.
  { apply computes_fold; [|done|].
    - unfold IRScalarFold.evaluate in Ev. destruct (_ || _ || _); [done|]. destruct (IRScalarFold.convert_operands _ _); [|done].
      unfold foldable. by destruct (i_opcode i).
    - apply (points_inputs _ _ Ep); [done|]. unfold zlen in *. destruct (i_operands i) as [|x [|y [|]]]; cbn in *; try lia; [done| |].
      + intros v ->%list_elem_of_singleton. done.
      + intros v [-> | ->%list_elem_of_singleton]%elem_of_cons; [done|]. exact H0. }
  assert (w = r) as -> by congruence. apply point_models.
Qed.

(** A fact that holds before an instruction gives one that holds of its result. *)
Lemma transfer_sound : models (transfer s locals definitions i) w.
Proof.
  unfold transfer. rewrite (so_blocks s Hs _ _ _ Hd).
  destruct (bool_decide (i_opcode i = OpConstant)) eqn:E1; [bool_facts; by apply (constant_sound ρ)|].
  destruct (bool_decide (i_opcode i = OpPhi)) eqn:E2; [by bool_facts|].
  destruct (is_op (i_opcode i) OpAddress && nearRam (i_type i)) eqn:E3; [bool_facts; by apply address_sound|].
  destruct (_ && bool_decide (kind (fact 1%nat) = Scalar)) eqn:E4; [bool_facts; by apply offset_sound|].
  destruct (is_op (i_opcode i) OpCast && nearRam (i_type i)) eqn:E5; [bool_facts; by apply pointer_cast_sound|].
  destruct (bool_decide (kind (scalarRange (i_type i)) = Scalar)) eqn:E6; [|done]. bool_facts. apply scalar_sound. by apply scalarRange_kind.
Qed.
End At.

(** ** Phis *)

Lemma merge_keeps s full merged operands w : (∀ v, pow2 (al (get s v))) → pow2 (al merged) → models full w → models merged w →
  models (merge_incoming s full merged operands) w.
Proof.
  intros Hp. revert merged. induction operands as [|v operands IH]; intros merged Pm Hf Hm; cbn [merge_incoming]; [done|].
  destruct (_ || _) eqn:E; [done|]. bool_facts. apply IH; [by apply pow2_min|done|].
  unfold AddressSound.models in *. cbn [kind low high al]. destruct (kind merged); try done.
  - split; [lia|]. apply divide_min; auto. left. apply Hm.
  - destruct Hm as (o & -> & Ho & Ao & Hal). exists o. split; [done|]. split; [lia|]. split; [apply divide_min; auto|lia].
  - split; [lia|]. apply divide_min; auto. left. apply Hm.
Qed.
Lemma merge_covers s full merged operands v w : (∀ v, pow2 (al (get s v))) → pow2 (al merged) → models full w → v ∈ operands → models (get s v) w →
  models (merge_incoming s full merged operands) w.
Proof.
  intros Hp. revert merged. induction operands as [|v' operands IH]; intros merged Pm Hf Hin Hm; [by apply elem_of_nil in Hin|]. cbn [merge_incoming].
  destruct (_ || _) eqn:E; [done|]. bool_facts. apply elem_of_cons in Hin as [->|Hin]; [|by apply IH; [apply pow2_min|..]].
  apply merge_keeps; [done|by apply pow2_min|done|].
  unfold AddressSound.models in *. cbn [kind low high al]. rewrite <- H0. destruct (kind (get s v')); try done.
  - split; [lia|]. apply divide_min; auto. right. apply Hm.
  - destruct Hm as (o & -> & Ho & Ao & Hal). exists o. split; [done|]. split; [lia|]. split; [apply divide_min; auto|lia].
  - split; [lia|]. apply divide_min; auto. right. apply Hm.
Qed.
Lemma merge_pow2 s full merged operands : (∀ v, pow2 (al (get s v))) → pow2 (al merged) → pow2 (al full) →
  pow2 (al (merge_incoming s full merged operands)).
Proof.
  intros Hp. revert merged. induction operands as [|v operands IH]; intros merged Pm Hf; cbn [merge_incoming]; [done|].
  destruct (_ || _); [done|]. apply IH; [by apply pow2_min|done].
Qed.
Lemma merge_kind s full merged operands : kind (merge_incoming s full merged operands) = Scalar → kind full = Scalar ∨ kind merged = Scalar.
Proof.
  revert merged. induction operands as [|v operands IH]; intros merged; cbn [merge_incoming]; [by right|].
  destruct (_ || _); [by left|]. intros H%IH. done.
Qed.

Lemma phi_sound s d k i a st w : sound s → defines f d k i → i_opcode i = OpPhi → 0 ≤ i_result i → pow2 (al a) →
  runs st → st_values st (i_result i) = Some w → models (transfer_phi s i (scalarRange (i_type i)) a) w.
Proof.
  intros Hs Hd Hop Hpos Pa Hr Hw. pose proof (runs_valid f locals frame Hssa _ Hr) as HV. unfold transfer_phi.
  assert (models (scalarRange (i_type i)) w) as Hfull.
  { apply scalarRange_models. intros Hsc. eapply value_holds; [done|done| |done]. by exists d, k, i; destruct Hd. }
  destruct (_ && _) eqn:E.
  - bool_facts. unfold nth_or in *. destruct (i_result i <? 0) eqn:En; bool_facts; [lia|].
    destruct (m_inductions s !! Z.to_nat (i_result i)) as [x|] eqn:Ex; [|done]. cbn in *.
    destruct (so_inductions s Hs _ _ Hpos Ex H0) as (_ & _ & Hx). by apply (Hx st).
  - clear E. destruct (bool_decide _); [done|].
    destruct (value_origin f locals frame st _ w Hr Hw) as [(b & n & j & ρ & c & _ & Hj & Hopj & Hrj & _)|
      (b & n & j & ρ & c & e & m & phi & q & t & Hr' & _ & _ & Hphi & Hopp & Hrp & Ht & _ & Hv)].
    + destruct (ssa_unique _ Hssa _ _ _ _ _ _ Hj Hd Hrj) as [-> ->]. destruct Hj as [Hj _], Hd as [Hd _]. rewrite Hd in Hj. by injection Hj as <-.
    + destruct (ssa_unique _ Hssa _ _ _ _ _ _ (phi_defines _ _ _ _ Hphi Hopp) Hd Hrp) as [-> ->].
      destruct Hd as [Hd _]. rewrite Hd in Hphi. injection Hphi as <-.
      pose proof (phi_operand _ Hssa _ _ _ _ _ Hd Hop Ht) as Ho.
      eapply (merge_covers _ _ _ _ (operand_of i q)); [apply Hs|done|done|by eapply list_elem_of_lookup_2|]. by apply (so_models s Hs _ _ _ Hr').
Qed.

(** ** Facts of one kind *)

Lemma displaced_pow2 s A D : pow2 (al A) → pow2 (al D) → pow2 (al (displaced s A D)).
Proof.
  intros. unfold displaced. destruct (negb _ && negb _); [cbn; auto with pow2|]. destruct (_ || _); [cbn; auto with pow2|].
  cbn [kind low high]. destruct (_ && _); [cbn; auto with pow2|]. destruct (_ && _); cbn; auto with pow2.
Qed.
Lemma displaced_kind s A D : kind (displaced s A D) ≠ Scalar.
Proof.
  unfold displaced. destruct (kind A) eqn:Hk; cbn [negb andb bool_decide]; [done|done| |].
  all: destruct (_ || _); [done|]; cbn [kind low high]; repeat destruct (_ && _); done.
Qed.
Lemma point_pow2 w : pow2 (al (point w)).
Proof. cbn. auto with pow2. Qed.

(** The parts of [transfer] that do not depend on an execution. *)
Lemma binary_static i t a b : pow2 (al a) → pow2 (al b) → IRScalarFold.scalar t = true → pow2 (al (transfer_binary i (scalarRange t) a b)).
Proof.
  intros Pa Pb Ht. unfold transfer_binary. assert (pow2 (al (scalarRange t))) by (rewrite scalarRange_al; auto with pow2).
  destruct (String.eqb _ "+"); [apply bounded_pow2; auto with pow2|]. destruct (String.eqb _ "-"); [apply bounded_pow2; auto with pow2|].
  destruct (String.eqb _ "*"); [apply bounded_pow2; auto with pow2|]. destruct (String.eqb _ "&" && _); [apply bounded_pow2; auto with pow2|].
  destruct (String.eqb _ ">>" && _ && _ && _); [apply bounded_pow2; auto with pow2|done].
Qed.

Lemma scalar_static s b i x y : pow2 (al x) → pow2 (al y) → IRScalarFold.scalar (i_type i) = true →
  pow2 (al (transfer_scalar s definitions b i (scalarRange (i_type i)) x y)).
Proof.
  intros Px Py Hsc. assert (pow2 (al (scalarRange (i_type i)))) as Hfull by (rewrite scalarRange_al; auto with pow2).
  unfold transfer_scalar.
  set (o := if is_op (i_opcode i) OpBitExtract then _ else _). assert (pow2 (al o)) as Ho.
  { unfold o. destruct (bool_decide (_ = OpBitExtract)); [apply bounded_pow2; auto with pow2|]. destruct (negb _); [done|].
    destruct (bool_decide (_ = OpCast)); [by apply bounded_pow2|]. destruct (bool_decide (_ = OpUnary)).
    - destruct (is_operation i "!"); [apply bounded_pow2; auto with pow2|]. destruct (is_operation i "-"); [by apply bounded_pow2|done].
    - destruct (_ || _); [done|]. by apply binary_static. }
  destruct (_ && _); [|done]. destruct (point_operands _ _ _ _); [|done]. destruct (IRScalarFold.evaluate _ _); [apply point_pow2|done].
Qed.

Lemma no_fact_static (P : Prop) : pow2 (al no_fact) ∧ (kind no_fact = Scalar → P).
Proof. split; [apply pow2_1|done]. Qed.

Lemma transfer_static s i d k : sound s → defines f d k i → 0 ≤ i_result i →
  pow2 (al (transfer s locals definitions i)) ∧ (kind (transfer s locals definitions i) = Scalar → scalar_value (i_result i)).
Proof.
  intros Hs Hd Hpos. assert (IRScalarFold.scalar (i_type i) = true → scalar_value (i_result i)) as Hval.
  { intros Hsc. exists (i_type i). split; [|done]. by exists d, k, i; destruct Hd. }
  assert (pow2 (al (scalarRange (i_type i)))) as Hfull by (rewrite scalarRange_al; auto with pow2).
  assert (∀ n, pow2 (al (match i_operands i !! n with Some v => get_in s v (definition_block s i) | None => no_fact end))) as Hp.
  { intros n. destruct (i_operands i !! n); [rewrite get_in_al; apply Hs|apply pow2_1]. }
  assert (∀ x : Fact, kind x ≠ Scalar → pow2 (al x) → pow2 (al x) ∧ (kind x = Scalar → scalar_value (i_result i))) as Hn by done.
  unfold transfer.
  destruct (bool_decide (_ = OpConstant)).
  { unfold transfer_constant. destruct (bool_decide _) eqn:E; bool_facts.
    - split; [apply point_pow2|]. intros _. apply Hval. by apply scalarRange_kind.
    - destruct (_ && _); apply Hn; cbn; auto with pow2; done. }
  destruct (bool_decide (_ = OpPhi)) eqn:Ep.
  { bool_facts. unfold transfer_phi. destruct (_ && _) eqn:E.
    - bool_facts. unfold nth_or in *. destruct (_ <? 0); [done|]. destruct (m_inductions s !! _) as [x|] eqn:Ex; [|done]. cbn in *.
      destruct (so_inductions s Hs _ _ Hpos Ex) as (? & ? & _); done.
    - clear E. destruct (bool_decide _) eqn:Eo; [split; [done|]; intros Hk; by apply Hval, scalarRange_kind|]. bool_facts.
      split; [apply merge_pow2; [apply Hs|apply (Hp 0%nat)|done]|]. intros [Hk|Hk]%merge_kind; [by apply Hval, scalarRange_kind|].
      destruct (i_operands i) as [|v vs] eqn:Eops; [done|]. cbn in Hk. rewrite get_in_kind in Hk.
      destruct (so_scalar s Hs v Hk) as (t & Ht & Hsc). apply Hval.
      pose proof (ssa_phi_length _ Hssa _ _ _ (proj1 Hd) Ep) as Hl. rewrite Eops in Hl.
      destruct (i_targets i) as [|tg tgs] eqn:Et; [done|].
      destruct (ssa_phi _ Hssa d k i 0%nat v tg (proj1 Hd) Ep) as (d' & k' & i' & Hd' & Hr' & _ & Hty); [by rewrite Eops|by rewrite Et|].
      destruct (scalar_same _ _ Hty) as [E' _]. rewrite E'. subst v. by rewrite (type_of_definition _ _ _ _ Hd' Ht). }
  destruct (is_op (i_opcode i) OpAddress && _) eqn:E1.
  { bool_facts. unfold transfer_address. destruct (_ && _); [apply Hn; [apply displaced_kind|apply displaced_pow2; [apply (Hp 0%nat)|cbn; apply common_pow2, (Hp 0%nat)]]|].
    destruct (negb _); [apply no_fact_static|]. destruct (if is_operation i "" then _ else _) as [o|]; [|apply no_fact_static].
    destruct (_ || _); apply Hn; cbn; auto with pow2; done. }
  destruct (_ && bool_decide (kind _ = Scalar)) eqn:E2.
  { clear E2. unfold transfer_offset. destruct (_ || _); [apply no_fact_static|]. apply Hn; [apply displaced_kind|].
    apply displaced_pow2; [apply (Hp 0%nat)|]. cbn. destruct (_ =? _); apply common_pow2, (Hp 0%nat). }
  destruct (is_op (i_opcode i) OpCast && _) eqn:E3.
  { clear E1 E2. bool_facts. unfold transfer_pointer_cast. destruct (_ || _) eqn:Eo; [apply no_fact_static|]. bool_facts.
    destruct (nth_or None definitions (operand_of i 0)) as [source|] eqn:Es; [|apply no_fact_static].
    destruct (nearRam (i_type source)) eqn:En.
    - split; [apply (Hp 0%nat)|]. intros Hk. exfalso. unfold operand_of in *. destruct (i_operands i !! 0%nat) as [v|] eqn:Ev; [|done]. cbn in *.
      rewrite get_in_kind in Hk. destruct (so_scalar s Hs v Hk) as (t & Ht & Hsc).
      unfold nth_or in Es. destruct (v <? 0) eqn:Ez; [done|]. bool_facts.
      destruct (definitions !! Z.to_nat v) as [x|] eqn:Ex; [|done]. cbn in Es. subst x.
      destruct (Hdefinitions _ _ Ez Ex) as (d' & k' & Hd' & <-). rewrite <- (type_of_definition _ _ _ _ Hd' Ht) in Hsc.
      apply scalar_level in Hsc. unfold nearRam in En. bool_facts. lia.
    - destruct (_ && _); apply Hn; cbn; auto with pow2; try done. }
  clear Ep E1 E2 E3. destruct (bool_decide _) eqn:E4; [|apply no_fact_static]. bool_facts. cbn [negb].
  split; [apply scalar_static; [apply (Hp 0%nat)|apply (Hp 1%nat)|by apply scalarRange_kind]|]. intros _. by apply Hval, scalarRange_kind.
Qed.
End Sound.
