(* ===== verification/AddressCond.v ===== *)
(** * AddressCond: what a branch says about a value

    The constraints of [refineControlFlow] hold: in the blocks an edge of a tested
    comparison dominates, the value it tests is in the interval [condition_fact]
    gives.  This needs the shape [canonical] describes, which the verifier does not
    enforce: an entry block that is no loop header, and branches with two different
    targets. *)

From stdpp Require Import functions.
From S2P Require Import Prelude Target Types Token IR ScalarFold Graph IRVerify IRSound IRTyping.
From S2P Require Import ControlFlow FlowSound LoopSound Liveness Analysis AddressProof IRRun AddressSound.

(** The shape the analysis takes for granted. *)
Record canonical (f : IRFunction) : Prop := {
  ca_entry : ∀ b, 0%nat ∉ adjacent (cfg f) b;
  ca_branches : ∀ b k i, instr_at f b k = Some i → i_opcode i = OpCondBranch →
    Z.to_nat (target_of i 0) ≠ Z.to_nat (target_of i 1);
  ca_latches : ∀ b h h', back_edge f b h → back_edge f b h' → h = h';
  ca_scalars : ∀ b k i, instr_at f b k = Some i → i_opcode i = OpBinary → array_size (i_type i) = 0
}.
(** Numbers of values and blocks are unsigned. *)
Record unsigned (f : IRFunction) : Prop := {
  un_results : ∀ b k i, instr_at f b k = Some i → 0 ≤ i_result i;
  un_targets : ∀ b k i t, instr_at f b k = Some i → t ∈ i_targets i → 0 ≤ t
}.

(** Both can be computed. *)
Definition every_instruction (P : IRInstruction → bool) (f : IRFunction) : bool := forallb (λ b, forallb P (b_instructions b)) (f_blocks f).
Definition unsignedb : IRFunction → bool :=
  every_instruction (λ i, (0 <=? i_result i) && forallb (λ t, 0 <=? t) (i_targets i)).
Definition canonicalb (f : IRFunction) : bool :=
  match analyze f with
  | Ok a =>
      forallb (λ ss, negb (existsb (Nat.eqb 0) ss)) (cfg f)
      && every_instruction (λ i, if is_op (i_opcode i) OpCondBranch then negb (Nat.eqb (Z.to_nat (target_of i 0)) (Z.to_nat (target_of i 1))) else true) f
      && every_instruction (λ i, negb (is_op (i_opcode i) OpBinary) || (array_size (i_type i) =? 0)) f
      && forallb (λ b, Nat.leb (length (List.filter (λ h, dominates_ (ControlFlow.reach a) (m_dominators a) h b) (adjacent (cfg f) b))) 1)
           (seq 0 (length (f_blocks f)))
  | Err _ => false
  end.

Lemma every_instruction_at P f b k i : every_instruction P f = true → instr_at f b k = Some i → P i = true.
Proof.
  unfold every_instruction, instr_at. intros H Hi. destruct (f_blocks f !! b) as [blk|] eqn:Hb; [|done]. cbn in Hi.
  rewrite forallb_forall in H. specialize (H blk). rewrite <- list_elem_of_In in H. specialize (H ltac:(by eapply list_elem_of_lookup_2)).
  rewrite forallb_forall in H. apply H. rewrite <- list_elem_of_In. by eapply list_elem_of_lookup_2.
Qed.
Lemma unsigned_check f : unsignedb f = true → unsigned f.
Proof.
  intros H. split.
  - intros b k i Hi. pose proof (every_instruction_at _ _ _ _ _ H Hi) as E. cbn in E. by bool_facts.
  - intros b k i t Hi Ht. pose proof (every_instruction_at _ _ _ _ _ H Hi) as E. cbn in E. apply andb_true_iff in E as [_ E].
    rewrite forallb_forall in E. by apply Z.leb_le, E, list_elem_of_In.
Qed.
Lemma canonical_check f : ssa f → canonicalb f = true → canonical f.
Proof.
  intros Hssa H. unfold canonicalb in H. destruct (analyze f) as [a|] eqn:Ha; [|done]. apply analyze_parts in Ha.
  apply andb_true_iff in H as [H Hl]. apply andb_true_iff in H as [H Hs]. apply andb_true_iff in H as [He Hb].
  rewrite !forallb_forall in *. split.
  - intros b Hin. unfold adjacent in Hin. destruct (cfg f !! b) as [ss|] eqn:E; [|by apply elem_of_nil in Hin]. cbn in Hin.
    specialize (He ss). rewrite <- list_elem_of_In in He. specialize (He ltac:(by eapply list_elem_of_lookup_2)). apply negb_true_iff in He.
    apply list_elem_of_In in Hin. assert (existsb (Nat.eqb 0) ss = true) as E' by (apply existsb_exists; by exists 0%nat). congruence.
  - intros b k i Hi Hop. pose proof (every_instruction_at _ _ _ _ _ Hb Hi) as E. cbn in E. rewrite Hop in E. cbn in E.
    by apply negb_true_iff, Nat.eqb_neq in E.
  - intros b h h' (_ & Hh & Hd) (Hr & Hh' & Hd').
    assert (∀ x, x ∈ adjacent (cfg f) b → doms f x b →
      x ∈ List.filter (λ h, dominates_ (ControlFlow.reach a) (m_dominators a) h b) (adjacent (cfg f) b)) as Hin.
    { intros x Hx Hxd. apply list_elem_of_In, filter_In. rewrite <- list_elem_of_In. split; [done|].
      apply (parts_dominates_ f a (ssa_ids _ Hssa) Ha). rewrite (parts_reachable f a (ssa_ids _ Hssa) Ha), (parts_dominates f a (ssa_ids _ Hssa) Ha). done. }
    assert (b < length (f_blocks f))%nat as Hlt.
    { unfold adjacent, cfg in Hh. rewrite list_lookup_fmap in Hh. destruct (f_blocks f !! b) eqn:E; [by eapply lookup_lt_Some|by apply elem_of_nil in Hh]. }
    specialize (Hl b). rewrite <- list_elem_of_In, elem_of_seq in Hl. specialize (Hl ltac:(lia)). apply Nat.leb_le in Hl.
    pose proof (Hin h Hh Hd) as H1. pose proof (Hin h' Hh' Hd') as H2.
    destruct (List.filter _ (adjacent (cfg f) b)) as [|x [|]]; cbn in Hl; [by apply elem_of_nil in H1| |lia].
    apply list_elem_of_singleton in H1, H2. congruence.
  - intros b k i Hi Hop. pose proof (every_instruction_at _ _ _ _ _ Hs Hi) as E. cbn in E. rewrite Hop in E. cbn in E. by apply Z.eqb_eq.
Qed.

Section Conditions.
Context (f : IRFunction) (locals : list (SymbolId * Symbol)) (frame : Z) (definitions : list (option IRInstruction)) (a : IRControlFlow).
Hypothesis Hssa : ssa f.
Hypothesis Hdefinitions : ∀ v i, 0 ≤ v → definitions !! Z.to_nat v = Some (Some i) → ∃ d k, defines f d k i ∧ i_result i = v.
Hypothesis Ha : parts f a.
Hypothesis Hcanonical : canonical f.
Notation runs := (runs f locals frame).
Notation step := (step f locals frame).
Notation computes := (computes f locals frame).
Notation dom := (dominates (cfg f) 0).
Notation reach := (reachable (cfg f) 0).
Notation definition := (definition definitions).
Notation literal := (literal definitions).

Lemma definition_defines v i : definition v = Some i → ∃ d k, defines f d k i ∧ i_result i = v.
Proof.
  unfold AddressProof.definition, nth_or. destruct (_ && _); [|done]. destruct (Z.ltb_spec v 0); [done|].
  destruct (definitions !! Z.to_nat v) as [x|] eqn:E; [|done]. cbn. intros ->. by apply Hdefinitions.
Qed.

(** ** Values at a point *)

Lemma precedes_trans d k b n c m : reach d → precedes f d k b n → precedes f b n c m → precedes f d k c m.
Proof.
  intros Hr [[-> ?]|[Hne Hd]] [[-> ?]|[Hne' Hd']]; [left; split; [done|lia]|by right|by right|].
  right. split; [|by eapply dominates_trans]. intros ->. apply Hne. by eapply dominates_antisym.
Qed.

Lemma equation_at s v j d n : runs s → defines f d n j → i_result j = v → i_opcode j ≠ OpPhi →
  precedes f d n (st_block s) (st_index s) → ∃ w, st_values s v = Some w ∧ computes (st_values s) j w.
Proof.
  intros Hr Hd <- Hop Hp. by apply (va_equation _ _ _ _ (runs_valid f locals frame Hssa _ Hr) d n).
Qed.
Lemma defined_at s d n j : runs s → defines f d n j → precedes f d n (st_block s) (st_index s) → ∃ w, st_values s (i_result j) = Some w.
Proof. intros Hr Hd Hp. eapply (va_defined _ _ _ _ (runs_valid f locals frame Hssa _ Hr)); [done|by left]. Qed.

Lemma definition_precedes b k i v j : instr_at f b k = Some i → i_opcode i ≠ OpPhi → v ∈ i_operands i → reach b → definition v = Some j →
  ∃ d n, defines f d n j ∧ i_result j = v ∧ precedes f d n b k.
Proof.
  intros Hi Hop Hv Hb (d & n & Hd & Hr)%definition_defines. exists d, n. split; [done|]. split; [done|].
  destruct (ssa_use _ Hssa _ _ _ _ Hi Hop Hv Hb) as (d' & n' & j' & Hd' & Hr' & Hp).
  destruct (ssa_unique _ Hssa _ _ _ _ _ _ Hd' Hd) as [-> ->]; [congruence|]. done.
Qed.

Lemma literal_value s v z w : runs s → literal v = Some z → st_values s v = Some w → w = z.
Proof.
  intros Hr Hl Hw. unfold AddressProof.literal in Hl. destruct (definition v) as [i|] eqn:Ed; [|done]. cbn in Hl.
  destruct (_ && _) eqn:E; [|done]. injection Hl as <-. bool_facts. apply definition_defines in Ed as (d & k & Hd & Hrv).
  destruct (value_origin f locals frame _ _ _ Hr Hw) as [(b & n & j & ρ & c & _ & Hj & _ & Hrj & Hc)|
    (b & n & j & ρ & c & e & m & phi & q & t & _ & _ & _ & Hphi & Hopp & Hrp & _)].
  - destruct (ssa_unique _ Hssa _ _ _ _ _ _ Hj Hd) as [-> ->]; [congruence|]. destruct Hj as [Hj _], Hd as [Hd _].
    rewrite Hd in Hj. injection Hj as <-. destruct Hc as [_ Hc]. rewrite H in Hc. by apply Hc.
  - destruct (ssa_unique _ Hssa _ _ _ _ _ _ (phi_defines _ _ _ _ Hphi Hopp) Hd) as [-> ->]; [congruence|].
    destruct Hd as [Hd _]. rewrite Hd in Hphi. injection Hphi as <-. congruence.
Qed.

Lemma sameInteger_scalar t u : sameInteger t u = true → IRScalarFold.scalar t = true ∧ IRScalarFold.scalar u = true ∧
  (∀ x, convert x t = convert x u) ∧ scalarRange t = scalarRange u.
Proof.
  unfold sameInteger. intros H. bool_facts. apply eqb_prop in H0. split; [done|]. split; [done|].
  pose proof (scalar_level _ H). pose proof (scalar_level _ H2). split.
  - intros x. unfold convert, width. by rewrite H3, H4, H0, H1.
  - unfold scalarRange. by rewrite H, H2, H0, H1.
Qed.

Lemma sameInteger_sym t u : sameInteger t u = true → sameInteger u t = true.
Proof.
  unfold sameInteger. intros H. bool_facts. apply eqb_prop in H0. rewrite H, H2, H1, H0, eqb_reflx. by rewrite bool_decide_true.
Qed.

Lemma definition_type v j : definition v = Some j → value_type f v (i_type j).
Proof. intros (d & n & [Hj Hp] & Hr)%definition_defines. by exists d, n, j. Qed.

(** What a binary instruction computes from scalar operands. *)
Lemma binary_value s j x y w wx wy jx jy : runs s → is_binary j = true → operand_of j 0 = x → operand_of j 1 = y →
  IRScalarFold.scalar (i_type j) = true → computes (st_values s) j w →
  definition x = Some jx → definition y = Some jy → IRScalarFold.scalar (i_type jx) = true → IRScalarFold.scalar (i_type jy) = true →
  st_values s x = Some wx → st_values s y = Some wy →
  ∃ m, IRScalarFold.fold_binary (i_operation j) wx wy = Some m ∧ w = convert m (i_type j).
Proof.
  intros Hr Hb Hx Hy Hsc Hc Ejx Ejy Sx Sy Hwx Hwy. unfold is_binary in Hb. bool_facts.
  assert (i_operands j = [x; y]) as Ho.
  { unfold operand_of, zlen in *. destruct (i_operands j) as [|u [|v [|]]]; cbn in *; try lia. by subst. }
  pose proof (definition_type _ _ Ejx). pose proof (definition_type _ _ Ejy).
  destruct (fold_two f locals frame j (st_values s) w ltac:(congruence) Hc x y wx wy (i_type jx) (i_type jy)) as (m & Hm & E); try done.
  - unfold foldable. by rewrite H.
  - by eapply value_holds.
  - by eapply value_holds.
  - exists m. split; [|done]. unfold folded in Hm. by rewrite H in Hm.
Qed.

(** ** Edges *)

Lemma preds_single T B : adjacent (preds a) T = [B] → ∀ p, T ∈ adjacent (cfg f) p ↔ p = B.
Proof.
  intros HB p. pose proof (parts_graph f a (ssa_ids _ Hssa) Ha) as Hg.
  rewrite <- (parts_cfg f a (ssa_ids _ Hssa) Ha), <- (graph_pred _ _ _ _ Hg), HB. apply list_elem_of_singleton.
Qed.
Lemma preds_one T : Nat.eqb (length (adjacent (preds a) T)) 1 = true → ∃ B, ∀ p, T ∈ adjacent (cfg f) p ↔ p = B.
Proof.
  intros H%Nat.eqb_eq. destruct (adjacent (preds a) T) as [|B [|]] eqn:E; try done. exists B. by apply preds_single.
Qed.

Lemma sole_not_dominates T B : reach T → (∀ p, T ∈ adjacent (cfg f) p ↔ p = B) → ¬ dom T B.
Proof.
  intros [l Hl] HB HT. destruct (walk_first _ _ _ _ _ Hl (walk_last _ _ _ _ Hl)) as (l1 & H1 & Hn & _).
  inversion H1 as [E1 E2|l0 b0 s0 Hw0 Hs0 E1 E2].
  - destruct l1 as [|? l1]; [|by destruct l1]. injection E1 as <-. eapply (ca_entry _ Hcanonical B). by apply HB.
  - apply app_inj_tail in E1 as [-> _]. apply HB in Hs0 as ->. by apply Hn, HT.
Qed.

(** A property of a value that holds when the edge is taken holds in the blocks it
    dominates. *)
Lemma persists T B v d k i (P : Z → Prop) :
  (∀ p, T ∈ adjacent (cfg f) p ↔ p = B) → defines f d k i → i_result i = v → dom d B →
  (∀ n j ρ c e t c', runs (mkState B n ρ c) → instr_at f B n = Some j → isTerminator j = true →
     jumps j (mkState B n ρ c) e c' → i_targets j !! e = Some t → Z.to_nat t = T → ∀ w, ρ v = Some w → P w) →
  ∀ s, runs s → dom T (st_block s) → ∀ w, st_values s v = Some w → P w.
Proof.
  intros HB Hd Hv HdB HP s Hr. assert (∀ s, runs s → dom T (st_block s) → T ≠ d ∧ ¬ dom T d) as HTd.
  { intros s' Hr' HT. pose proof (va_reach _ _ _ _ (runs_valid f locals frame Hssa _ Hr')) as Hb.
    assert (reach T) as HrT by (by eapply dominates_reachable). assert (¬ dom T d) as H.
    { intros Hc. eapply sole_not_dominates; [done..|]. by eapply dominates_trans. }
    split; [|done]. intros ->. apply H, dominates_refl. }
  pose proof Hr as Hr0. induction Hr as [c|s s' Hr IH Hs]; intros HT w Hw; [done|]. pose proof (HTd _ Hr0 HT) as [HTne HTnd].
  destruct Hs as [b n j ρ c Hj _ _|b n j ρ c w' Hj Ht Hp Hop Hc|b n j ρ c e t ρ' c' Hj Ht Hjmp Hn Hin]; cbn in *.
  - by eapply IH.
  - destruct (decide (v = i_result j)) as [E|Hne]; [|rewrite fn_lookup_insert_ne in Hw by done; by eapply IH].
    destruct (ssa_unique _ Hssa b n j d k i) as [-> _]; [done|done|congruence|done].
  - pose proof (jump_edge _ _ _ _ _ _ Hj Ht Hn) as Hedge.
    assert (ρ v = Some w) as Hw'.
    { destruct (Hin v) as [(q & phi & jj & t' & Hphi & Hop' & Hr' & _)|[_ E]]; [|congruence].
      destruct (ssa_unique _ Hssa _ _ _ _ _ _ (phi_defines _ _ _ _ Hphi Hop') Hd) as [<- _]; [congruence|done]. }
    destruct (decide (T = Z.to_nat t)) as [->|Hne].
    + assert (b = B) as -> by (by apply HB). eapply HP; [exact Hr|done..].
    + eapply IH; [done| |done]. by eapply dominates_pred.
Qed.

(** ** Comparisons *)

Definition holds_op (op : string) (x y : Z) : bool :=
  if String.eqb op "<" then x <? y else if String.eqb op "<=" then x <=? y
  else if String.eqb op ">" then y <? x else if String.eqb op ">=" then y <=? x
  else if String.eqb op "==" then x =? y else if String.eqb op "!=" then negb (x =? y) else false.
Definition comparing (op : string) : bool :=
  String.eqb op "<" || String.eqb op "<=" || String.eqb op ">" || String.eqb op ">=" || String.eqb op "==" || String.eqb op "!=".

Ltac op_cases op := repeat (match goal with |- context [String.eqb op ?s] => destruct (String.eqb_spec op s) as [->|?]; cbn in *; try done end).

Lemma fold_comparison op x y m : comparing op = true → IRScalarFold.fold_binary op x y = Some m → m = of_bool (holds_op op x y).
Proof.
  unfold comparing, IRScalarFold.fold_binary, holds_op. intros Hc.
  op_cases op; cbn in *; try (by intros [= <-]).
Qed.
Lemma convert_bool t b : IRScalarFold.scalar t = true → convert (of_bool b) t = of_bool b.
Proof.
  intros Hs. apply convert_id; [by apply scalar_level|]. apply scalarRange_holds; [done|]. unfold scalarRange. rewrite Hs. cbn.
  unfold of_bool. destruct b; repeat case_bool_decide; cbn; try lia; destruct (is_unsigned t); cbn; lia.
Qed.
Lemma comparison_scalar d k j : defines f d k j → is_binary j = true → IRScalarFold.scalar (i_type j) = true.
Proof.
  intros [Hj _] Hb. unfold is_binary in Hb. bool_facts. pose proof (ssa_typed _ Hssa _ _ _ Hj) as Ht. unfold typing_rule in Ht.
  rewrite H in Ht. destruct Ht as (x & y & tx & ty & _ & _ & _ & _ & _ & Hi & _).
  unfold IRScalarFold.scalar, isIntegerType in *. rewrite (ca_scalars _ Hcanonical _ _ _ Hj H). cbn. by rewrite andb_true_r.
Qed.

(** The edge a conditional branch takes tells the outcome of its comparison. *)
Lemma branch_outcome n b j ρ c e c' cmp jx jy : runs (mkState b n ρ c) → instr_at f b n = Some j → i_opcode j = OpCondBranch →
  zlen (i_operands j) = 1 → jumps j (mkState b n ρ c) e c' → definition (operand_of j 0) = Some cmp → is_binary cmp = true → comparing (i_operation cmp) = true →
  definition (operand_of cmp 0) = Some jx → definition (operand_of cmp 1) = Some jy →
  IRScalarFold.scalar (i_type jx) = true → IRScalarFold.scalar (i_type jy) = true →
  ∃ x y, ρ (operand_of cmp 0) = Some x ∧ ρ (operand_of cmp 1) = Some y ∧ holds_op (i_operation cmp) x y = Nat.eqb e 0.
Proof.
  intros Hr Hj Hop Hone Hjmp Hcmp Hbin Hcomp Ex Ey Sx Sy. pose proof (runs_valid f locals frame Hssa _ Hr) as HV.
  pose proof (va_reach _ _ _ _ HV) as Hb. cbn in Hb.
  assert (operand_of j 0 ∈ i_operands j) as Hin.
  { unfold operand_of, zlen in *. destruct (i_operands j); cbn in *; [lia|left]. }
  destruct (definition_precedes _ _ _ _ _ Hj ltac:(congruence) Hin Hb Hcmp) as (d & k & Hd & Hres & Hp).
  pose proof Hbin as Hbin'. unfold is_binary in Hbin'. bool_facts.
  destruct (equation_at _ _ _ _ _ Hr Hd Hres ltac:(congruence) Hp) as (w & Hw & Hc).
  assert (∀ m, (m < 2)%nat → operand_of cmp m ∈ i_operands cmp) as Hops.
  { intros m Hm. unfold operand_of, zlen in *. destruct (lookup_lt_is_Some_2 (i_operands cmp) m) as [v Hv]; [lia|].
    rewrite Hv. by eapply list_elem_of_lookup_2. }
  assert (reach d) as Hrd by (by eapply precedes_reach).
  assert (∀ m jm, (m < 2)%nat → definition (operand_of cmp m) = Some jm → ∃ x, ρ (operand_of cmp m) = Some x) as Hval.
  { intros m jm Hm Em. destruct (definition_precedes _ _ _ _ _ (proj1 Hd) ltac:(congruence) (Hops m Hm) Hrd Em) as (dm & km & Hdm & <- & Hpm).
    eapply (defined_at _ dm km _ Hr Hdm). cbn. eapply precedes_trans; [|done..]. by eapply precedes_reach. }
  destruct (Hval 0%nat jx) as [x Hx]; [lia|done|]. destruct (Hval 1%nat jy) as [y Hy]; [lia|done|].
  exists x, y. split; [done|]. split; [done|]. pose proof (comparison_scalar _ _ _ Hd Hbin) as Hsc.
  destruct (binary_value _ cmp _ _ w x y jx jy Hr Hbin eq_refl eq_refl Hsc Hc Ex Ey Sx Sy Hx Hy) as (m & Hm & Ew).
  apply fold_comparison in Hm as ->; [|done]. rewrite convert_bool in Ew by done. subst w.
  unfold jumps in Hjmp. rewrite Hop in Hjmp. destruct Hjmp as (cv & Hcv & -> & _). cbn in Hcv, Hw. rewrite Hw in Hcv. injection Hcv as <-.
  unfold of_bool. by destruct (holds_op _ _ _).
Qed.

(** [condition_fact] is what the outcome says. *)
Lemma condition_fact_sound op positive bound t x w : condition_fact op positive bound (scalarRange t) = Some x →
  holds_op op w bound = positive → low (scalarRange t) ≤ w ≤ high (scalarRange t) →
  comparing op = true ∧ low x ≤ w ≤ high x.
Proof.
  unfold condition_fact, holds_op, comparing. intros Hf Ho Hw.
  op_cases op; destruct positive; cbn in *; try done; injection Hf as <-; cbn; bool_facts; (split; [done|lia]).
Qed.
Lemma condition_comparing op positive bound x y : condition_fact op positive bound x = Some y → comparing op = true.
Proof. unfold condition_fact, comparing. intros Hf. op_cases op. Qed.
Lemma holds_flipped op x y : comparing op = true → holds_op (flipped op) x y = holds_op op y x.
Proof. unfold comparing, flipped, holds_op. op_cases op; intros _; cbn; by rewrite (Z.eqb_sym x y). Qed.
Lemma comparing_flipped op : comparing (flipped op) = comparing op.
Proof. unfold comparing, flipped. op_cases op. Qed.

(** ** The constraints *)

Definition constraint_holds (b : nat) (v : Z) (x : Fact) : Prop :=
  ∀ s w, runs s → st_block s = b → st_values s v = Some w → low x ≤ w ≤ high x.
Definition constrained (r : Refined) : Prop :=
  ∀ b m v x, r_constraints r !! b = Some m → m !! v = Some x → constraint_holds b v x.

Lemma constrain_sound v x b r : constrained r → constraint_holds b v x → constrained (constrain v x b r).
Proof.
  intros Hr Hx b' m v' x' Hm Hv'. unfold constrain in Hm.
  assert (∀ old, default ∅ (r_constraints r !! b) !! v = Some old → constraint_holds b v old) as Hold.
  { intros old. destruct (r_constraints r !! b) as [m0|] eqn:E; cbn; [|by rewrite lookup_empty]. by apply Hr. }
  assert (∀ v' y, default ∅ (r_constraints r !! b) !! v' = Some y → constraint_holds b v' y) as Hall.
  { intros v'' y. destruct (r_constraints r !! b) as [m0|] eqn:E; cbn; [|by rewrite lookup_empty]. by apply Hr. }
  assert (∀ new, (constraint_holds b v new) → <[b := <[v := new]> (default ∅ (r_constraints r !! b))]> (r_constraints r) !! b' = Some m →
    constraint_holds b' v' x') as Hins.
  { intros new Hnew [(-> & <- & _)|[_ Hb']]%list_lookup_insert_Some; [|by eapply Hr].
    apply lookup_insert_Some in Hv' as [[<- <-]|[_ Hv']]; [done|by apply Hall]. }
  destruct (default ∅ (r_constraints r !! b) !! v) as [old|] eqn:Eo; cbn in Hm; [|by eapply Hins].
  eapply Hins; [|done]. intros s w Hs Hb Hw. pose proof (Hold _ eq_refl s w Hs Hb Hw). pose proof (Hx s w Hs Hb Hw). cbn. lia.
Qed.

Lemma foldl_inv {A B} (I : A → Prop) (g : A → B → A) l x : I x → (∀ x y, y ∈ l → I x → I (g x y)) → I (foldl g x l).
Proof.
  revert x. induction l as [|y l IH]; intros x Hx Hg; [done|]. cbn. apply IH; [apply Hg; [left|done]|]. intros x' y' Hy'. apply Hg. by right.
Qed.

Lemma parts_reach0 b : is_reachable (ControlFlow.reach a) b → reach b.
Proof.
  intros H%(parts_reach f a (ssa_ids _ Hssa) Ha)%(parts_reachable f a (ssa_ids _ Hssa) Ha). by rewrite (ssa_entry _ Hssa) in H.
Qed.
Lemma parts_dominates0 d b : dominates_ (ControlFlow.reach a) (m_dominators a) d b = true → dom d b.
Proof.
  intros [_ H]%(parts_dominates_ f a (ssa_ids _ Hssa) Ha). apply (parts_dominates f a (ssa_ids _ Hssa) Ha) in H. by rewrite (ssa_entry _ Hssa) in H.
Qed.

Lemma terminator_index B blk n j terminal : f_blocks f !! B = Some blk → last (b_instructions blk) = Some terminal →
  instr_at f B n = Some j → isTerminator j = true → j = terminal.
Proof.
  intros Hblk Hlast Hj Ht. pose proof (ssa_last _ Hssa _ _ _ Hj Ht) as Hn. unfold instructions_of in Hn. rewrite Hblk in Hn.
  unfold instr_at in Hj. rewrite Hblk in Hj. cbn in Hj. rewrite last_lookup, <- Hn in Hlast. cbn in Hlast. congruence.
Qed.
Lemma last_index B blk terminal : f_blocks f !! B = Some blk → last (b_instructions blk) = Some terminal →
  ∃ n, instr_at f B n = Some terminal.
Proof. intros Hblk Hlast. rewrite last_lookup in Hlast. unfold instr_at. rewrite Hblk. eauto. Qed.

(** The condition of a branch, as the analysis reads it. *)
Record condition (terminal cmp : IRInstruction) (v : IRValueId) (t : CType) (bound : Z) (op : string) : Prop := {
  co_branch : i_opcode terminal = OpCondBranch ∧ zlen (i_operands terminal) = 1 ∧ zlen (i_targets terminal) = 2;
  co_comparison : definition (operand_of terminal 0) = Some cmp ∧ is_binary cmp = true;
  co_operands : ∃ jx jy, definition (operand_of cmp 0) = Some jx ∧ definition (operand_of cmp 1) = Some jy ∧
    IRScalarFold.scalar (i_type jx) = true ∧ IRScalarFold.scalar (i_type jy) = true;
  co_value : ∃ source, definition v = Some source ∧ i_type source = t ∧ v ∈ i_operands cmp ∧ IRScalarFold.scalar t = true;
  co_outcome : comparing op = true → comparing (i_operation cmp) = true ∧ ∀ s x y w, runs s → st_values s (operand_of cmp 0) = Some x →
    st_values s (operand_of cmp 1) = Some y → st_values s v = Some w → holds_op op w bound = holds_op (i_operation cmp) x y
}.

Lemma binary_operands cmp n : is_binary cmp = true → (n < 2)%nat → operand_of cmp n ∈ i_operands cmp.
Proof.
  intros Hb Hn. unfold is_binary, zlen in Hb. bool_facts. unfold operand_of.
  destruct (lookup_lt_is_Some_2 (i_operands cmp) n) as [v Hv]; [lia|]. rewrite Hv. by eapply list_elem_of_lookup_2.
Qed.

Lemma condition_of_spec terminal v t bound op : condition_of definitions terminal = Some (v, t, bound, op) →
  ∃ cmp, condition terminal cmp v t bound op.
Proof.
  unfold condition_of. destruct (_ || _) eqn:E; [done|]. bool_facts. destruct (definition (operand_of terminal 0)) as [cmp|] eqn:Ec; [|done].
  cbn. destruct (is_binary cmp) eqn:Eb; [|done]. cbn. unfold tested. pose proof (binary_operands cmp 0 Eb ltac:(lia)). pose proof (binary_operands cmp 1 Eb ltac:(lia)).
  destruct (literal (operand_of cmp 1)) as [z|] eqn:El; cbn.
  - rewrite Z.eqb_refl. destruct (definition (operand_of cmp 0)) as [source|] eqn:Es; [|done]. cbn.
    destruct (definition (operand_of cmp 1)) as [other|] eqn:Eo; [|done]. cbn. destruct (sameInteger _ _) eqn:Ei; [|done].
    intros [= <- <- <- <-]. apply sameInteger_scalar in Ei as (S1 & S2 & _). exists cmp. split; try done; [by exists source, other|by exists source|].
    intros Hop. split; [done|]. intros s x y w Hs Hx Hy Hw. rewrite (literal_value _ _ _ _ Hs El Hy). congruence.
  - destruct (literal (operand_of cmp 0)) as [z|] eqn:El0; [|done]. cbn.
    destruct (definition (operand_of cmp 1)) as [source|] eqn:Es; [|done]. cbn.
    destruct (definition (operand_of cmp (if operand_of cmp 1 =? operand_of cmp 0 then 1 else 0))) as [other|] eqn:Eo; [|done]. cbn.
    destruct (sameInteger _ _) eqn:Ei; [|done]. intros [= <- <- <- <-]. apply sameInteger_scalar in Ei as (S1 & S2 & _).
    exists cmp. split; try done; [| by exists source|].
    + destruct (Z.eqb_spec (operand_of cmp 1) (operand_of cmp 0)) as [E'|]; [rewrite E' in *; by exists source, source|by exists other, source].
    + intros Hop. rewrite comparing_flipped in Hop. split; [done|]. intros s x y w Hs Hx Hy Hw.
      rewrite (literal_value _ _ _ _ Hs El0 Hx), holds_flipped by done. congruence.
Qed.

(** On the edge the branch takes, the value is as the condition says. *)
Lemma condition_edge B blk terminal cmp v t bound op n j ρ c e tgt c' x :
  condition terminal cmp v t bound op → f_blocks f !! B = Some blk → last (b_instructions blk) = Some terminal →
  runs (mkState B n ρ c) → instr_at f B n = Some j → isTerminator j = true → jumps j (mkState B n ρ c) e c' →
  i_targets j !! e = Some tgt → condition_fact op (Nat.eqb e 0) bound (scalarRange t) = Some x →
  ∀ w, ρ v = Some w → low x ≤ w ≤ high x.
Proof.
  intros [(Ho & Hone & _) [Hc Hb] (jx & jy & Ex & Ey & Sx & Sy) (source & Hs & <- & _ & Hsc) Hout] Hblk Hlast Hr Hj Ht Hjmp Htgt Hx w Hw.
  assert (j = terminal) as -> by (by eapply terminator_index). pose proof (condition_comparing _ _ _ _ _ Hx) as Hcmp.
  destruct (Hout Hcmp) as [Hcmp' Hval].
  destruct (branch_outcome _ _ _ _ _ _ _ _ _ _ Hr Hj Ho Hone Hjmp Hc Hb Hcmp' Ex Ey Sx Sy) as (u & y & Hu & Hy & Hops).
  eapply condition_fact_sound; [exact Hx|by rewrite (Hval _ u y w Hr Hu Hy Hw)|].
  apply scalarRange_holds; [done|]. eapply (value_holds f locals frame Hssa _ v); [exact Hr|exact Hw|by apply definition_type|done].
Qed.

(** The value a condition tests is computed before the branch. *)
Lemma condition_source B n terminal cmp v t bound op : condition terminal cmp v t bound op → instr_at f B n = Some terminal → reach B →
  ∃ d k i, defines f d k i ∧ i_result i = v ∧ dom d B.
Proof.
  intros [(Ho & Hone & _) [Hc Hb] _ (source & Hs & _ & Hv & _) _] Hi HB.
  assert (operand_of terminal 0 ∈ i_operands terminal) as Hin.
  { unfold operand_of, zlen in *. destruct (i_operands terminal); cbn in *; [lia|left]. }
  destruct (definition_precedes _ _ _ _ _ Hi ltac:(congruence) Hin HB Hc) as (d & k & Hd & _ & Hp).
  assert (i_opcode cmp ≠ OpPhi) as Hop by (unfold is_binary in Hb; bool_facts; congruence).
  destruct (definition_precedes _ _ _ _ _ (proj1 Hd) Hop Hv ltac:(by eapply precedes_reach) Hs) as (d' & k' & Hd' & Hr & Hp').
  exists d', k', source. split; [done|]. split; [done|].
  pose proof (precedes_trans _ _ _ _ _ _ ltac:(eapply precedes_reach; [|exact Hp']; by eapply precedes_reach) Hp' Hp) as H.
  destruct H as [[-> _]|[_ H]]; [apply dominates_refl|done].
Qed.

Lemma edge_constraint B blk terminal cmp v t bound op edge x b :
  condition terminal cmp v t bound op → f_blocks f !! B = Some blk → last (b_instructions blk) = Some terminal → reach B → (edge < 2)%nat →
  Nat.eqb (length (adjacent (preds a) (Z.to_nat (target_of terminal edge)))) 1 = true →
  condition_fact op (Nat.eqb edge 0) bound (scalarRange t) = Some x → dom (Z.to_nat (target_of terminal edge)) b → constraint_holds b v x.
Proof.
  intros Hcond Hblk Hlast HB Hedge (p & Hp)%preds_one Hx Hdom s w Hs <- Hw.
  destruct (last_index _ _ _ Hblk Hlast) as [n Hn]. destruct (condition_source _ _ _ _ _ _ _ _ Hcond Hn HB) as (d & k & i & Hd & Hi & HdB).
  destruct (co_branch _ _ _ _ _ _ Hcond) as (Ho & _ & Htwo).
  assert (∀ e, (e < 2)%nat → ∃ t, i_targets terminal !! e = Some t ∧ target_of terminal e = t) as Htgt.
  { intros e He. unfold target_of, zlen in *. destruct (lookup_lt_is_Some_2 (i_targets terminal) e) as [t' Ht']; [lia|]. rewrite Ht'. eauto. }
  assert (p = B) as ->.
  { symmetry. apply Hp. destruct (Htgt edge Hedge) as (t' & Ht' & ->). eapply jump_edge; [exact Hn| |exact Ht']. unfold isTerminator. by rewrite Ho. }
  apply (persists _ _ _ _ _ _ (λ w, low x ≤ w ≤ high x) Hp Hd Hi HdB) with (s := s); [|done..].
  intros n' j ρ c e t' c' Hr Hj Hterm Hjmp Ht' Et. assert (j = terminal) as -> by (by eapply terminator_index).
  assert (e < 2)%nat as He by (apply lookup_lt_Some in Ht'; unfold zlen in Htwo; lia).
  assert (e = edge) as ->.
  { destruct (Htgt e He) as (t2 & Ht2 & E2). rewrite Ht' in Ht2. injection Ht2 as <-. rewrite <- E2 in Et.
    pose proof (ca_branches _ Hcanonical _ _ _ Hn Ho). destruct e as [|[|]], edge as [|[|]]; try lia; congruence. }
  by eapply condition_edge.
Qed.

Lemma refine_block_sound r blk : constrained r → blk ∈ f_blocks f → constrained (refine_block f definitions a r blk).
Proof.
  intros Hr Hblk. unfold refine_block. destruct (r_stopped r); [done|]. destruct (last _) as [terminal|] eqn:El; [|done].
  destruct (is_reachable _ _) eqn:Er; [|done]. cbn [negb]. destruct (condition_of _ _) as [[[[v t] bound] op]|] eqn:Ec; [|done].
  apply condition_of_spec in Ec as [cmp Hcond]. apply list_elem_of_lookup in Hblk as [B HB].
  rewrite (ssa_ids _ Hssa _ _ HB), Nat2Z.id in Er. assert (reach B) as HrB by (apply parts_reach0; by rewrite Er).
  apply foldl_inv; [done|]. intros r' edge Hedge Hr'. unfold refine_edge. destruct (_ || _) eqn:E; [done|]. bool_facts.
  destruct (condition_fact _ _ _ _) as [x|] eqn:Ex; [|done]. destruct (_ <? _); [done|].
  apply foldl_inv; [done|]. intros r2 b _ Hr2. unfold refine_candidate. destruct (r_stopped r2); [done|].
  destruct (_ || _); [done|]. destruct (dominates_ _ _ _ _) eqn:Ed; [|done]. apply constrain_sound; [done|].
  eapply (edge_constraint B blk terminal cmp v t bound op edge); try done; [ |by apply parts_dominates0].
  set_unfold in Hedge. lia.
Qed.
End Conditions.
