(* ===== verification/AddressLoop.v ===== *)
(** * AddressLoop: induction variables

    The facts [refineControlFlow] gives about the phis of loop headers hold: the
    bounds a loop's own condition gives, those of a second variable that steps along
    with the one the condition tests, and those of a loop the hardware counts. *)

From stdpp Require Import functions.
From S2P Require Import Prelude Target Types Token IR ScalarFold Graph IRVerify IRSound.
From S2P Require Import ControlFlow FlowSound LoopSound Liveness Analysis AddressProof IRRun AddressSound AddressCond.

(** ** Arithmetic *)

Lemma within_spec full l h p : within full l h = Some p → p = (l, h) ∧ low full ≤ l ∧ h ≤ high full.
Proof. unfold within. destruct (_ || _) eqn:E; [done|]. intros [= <-]. bool_facts. done. Qed.

(** A condition that lets a loop go on leaves room for a step. *)
Lemma trip_step start bound stride op full trips x k : trip_count start bound stride op full = Some trips →
  low full ≤ start ≤ high full → condition_fact op true bound full = Some x →
  low x ≤ start + k * stride ≤ high x → 0 ≤ k → k + 1 ≤ trips ∧ low full ≤ start + (k + 1) * stride ≤ high full.
Proof.
  unfold trip_count, condition_fact. intros Ht Hs Hx Hw Hk.
  destruct ((0 <? stride) && (String.eqb op "<" || String.eqb op "<=")) eqn:Eup.
  - bool_facts. set (last := bound - (if String.eqb op "<" then 1 else 0)) in *. cbn [default from_option id] in Ht.
    assert (start + k * stride ≤ last) as Hlast.
    { unfold last. apply orb_true_iff in H0 as [->%String.eqb_eq | ->%String.eqb_eq]; injection Hx as <-; cbn in *; lia. }
    clear Hx H0. destruct (Z.ltb_spec last start) as [Hlt|Hge]; [nia|]. set (q := Z.quot (last - start) stride) in *.
    destruct (_ || _) eqn:E; [done|]. injection Ht as <-. bool_facts.
    assert (q = (last - start) / stride) as Hq by (unfold q; apply Z.quot_div_nonneg; lia).
    assert (0 ≤ q) by (rewrite Hq; apply Z.div_pos; lia).
    assert (k ≤ q) by (rewrite Hq; apply Z.div_le_lower_bound; lia).
    split; [lia|]. rewrite Z.max_r in * by lia. split; [nia|]. nia.
  - destruct ((stride <? 0) && (String.eqb op ">" || String.eqb op ">=")) eqn:Edown; [|clear - Ht; cbn in Ht; by destruct (_ || _)].
    bool_facts. set (last := bound + (if String.eqb op ">" then 1 else 0)) in *. cbn [default from_option id] in Ht.
    assert (last ≤ start + k * stride) as Hlast.
    { unfold last. apply orb_true_iff in H0 as [->%String.eqb_eq | ->%String.eqb_eq]; injection Hx as <-; cbn in *; lia. }
    clear Hx H0 Eup. destruct (Z.ltb_spec start last) as [Hlt|Hge]; [nia|]. set (q := Z.quot (start - last) (- stride)) in *.
    destruct (_ || _) eqn:E; [done|]. injection Ht as <-. bool_facts.
    assert (q = (start - last) / (- stride)) as Hq by (unfold q; apply Z.quot_div_nonneg; lia).
    assert (0 ≤ q) by (rewrite Hq; apply Z.div_pos; lia).
    assert (k ≤ q) by (rewrite Hq; apply Z.div_le_lower_bound; lia).
    split; [lia|]. rewrite Z.max_r in * by lia. split; nia.
Qed.
Lemma trips_nonneg start bound stride op full trips : trip_count start bound stride op full = Some trips → 0 ≤ trips.
Proof.
  unfold trip_count. destruct ((0 <? stride) && _) eqn:Eup; [|destruct ((stride <? 0) && _) eqn:Edown]; cbn [default from_option id];
    intros H; destruct (_ || _) in H; try done; injection H as <-; bool_facts.
  - destruct (_ <? _) eqn:E; [lia|]. bool_facts. set (l := bound - _) in *. rewrite Z.quot_div_nonneg by lia.
    pose proof (Z.div_pos (l - start) stride ltac:(lia) ltac:(lia)). lia.
  - clear Eup. destruct (_ <? _) eqn:E; [lia|]. bool_facts. set (l := bound + _) in *. rewrite Z.quot_div_nonneg by lia.
    pose proof (Z.div_pos (start - l) (- stride) ltac:(lia) ltac:(lia)). lia.
Qed.

(** Between the first and the last value of a walk. *)
Lemma steps_between start step k n : 0 ≤ k ≤ n → Z.min start (start + n * step) ≤ start + k * step ≤ Z.max start (start + n * step).
Proof.
  intros Hk. destruct (Z.le_gt_cases 0 step).
  - assert (0 ≤ k * step ≤ n * step) by (split; nia). lia.
  - assert (n * step ≤ k * step ≤ 0) by (split; nia). lia.
Qed.

Section Loops.
Context (f : IRFunction) (locals : list (SymbolId * Symbol)) (frame : Z) (definitions : list (option IRInstruction)) (a : IRControlFlow).
Hypothesis Hssa : ssa f.
Hypothesis Hdefinitions : ∀ v i, 0 ≤ v → definitions !! Z.to_nat v = Some (Some i) → ∃ d k, defines f d k i ∧ i_result i = v.
Hypothesis Hcomplete : ∀ d k i, defines f d k i → definition definitions (i_result i) = Some i.
Hypothesis Ha : parts f a.
Hypothesis Hcanonical : canonical f.
Hypothesis Hunsigned : unsigned f.
Notation runs := (runs f locals frame).
Notation step := (step f locals frame).
Notation computes := (computes f locals frame).
Notation dom := (dominates (cfg f) 0).
Notation reach := (reachable (cfg f) 0).
Notation definition := (definition definitions).
Notation literal := (literal definitions).

(** ** Natural loops *)

Record natural (loop : Loop) (latch : nat) : Prop := {
  na_latch : ∀ b, back_edge f b (header loop) ↔ b = latch;
  na_body : ∀ x, x ∈ blocks loop ↔ in_body f (header loop) x
}.

Lemma loop_natural loop latch : loop ∈ loops a → single_latch a loop = Some latch → natural loop latch.
Proof.
  intros Hl Hs. rewrite (pa_loops _ _ Ha) in Hl. unfold loop_list in Hl. rewrite list_elem_of_omap in Hl. destruct Hl as (h & _ & E).
  pose proof (parts_natural f a (ssa_ids _ Hssa) Ha h) as Hn. cbn in E. rewrite E in Hn. destruct Hn as (<- & _ & H1 & H2).
  split; [|done]. intros b. rewrite <- H1. unfold single_latch in Hs. destruct (Nat.eqb _ _); [|done].
  destruct (elements (latches loop)) as [|x [|]] eqn:Ee; try done. injection Hs as ->.
  rewrite <- elem_of_elements, Ee. apply list_elem_of_singleton.
Qed.

Section Loop.
Context (loop : Loop) (latch : nat).
Hypothesis Hloop : natural loop latch.
Notation H := (header loop).

Lemma latch_edge : reach latch ∧ H ∈ adjacent (cfg f) latch ∧ dom H latch.
Proof.
  pose proof (proj2 (na_latch _ _ Hloop latch) eq_refl) as (H1 & H2 & H3). unfold reaches, doms in *. by rewrite (ssa_entry _ Hssa) in *.
Qed.
Lemma header_reach : reach H.
Proof. destruct latch_edge as (H1 & _ & H2). by eapply dominates_reachable. Qed.
Lemma body_dominated x : x ∈ blocks loop → reach x ∧ dom H x.
Proof.
  intros Hx%(na_body _ _ Hloop). pose proof (in_body_dominated f H x) as Hd. unfold reaches, doms in Hd. rewrite (ssa_entry _ Hssa) in Hd.
  apply Hd; [|done]. exists latch. by apply (na_latch _ _ Hloop).
Qed.
Lemma into_header b : H ∈ adjacent (cfg f) b → b ∈ blocks loop → b = latch.
Proof.
  intros Hb [Hr Hd]%body_dominated. apply (na_latch _ _ Hloop). unfold back_edge, reaches, doms. by rewrite (ssa_entry _ Hssa).
Qed.
Lemma into_body x b : x ∈ blocks loop → x ≠ H → x ∈ adjacent (cfg f) b → reach b → b ∈ blocks loop.
Proof.
  rewrite !(na_body _ _ Hloop). intros Hx Hne He Hb. eapply body_pred; [exact Hx|done|done|]. unfold reaches. by rewrite (ssa_entry _ Hssa).
Qed.
Lemma latch_in : latch ∈ blocks loop.
Proof. apply (na_body _ _ Hloop). apply body_latch. by apply (na_latch _ _ Hloop). Qed.

(** ** Phis of two edges *)

Record two_edges (phi : IRInstruction) (x : Incoming) : Prop := {
  te_phi : i_opcode phi = OpPhi;
  te_update : ∃ j t, i_targets phi !! j = Some t ∧ Z.to_nat t = latch ∧ update x = operand_of phi j;
  te_edges : ∀ j t, i_targets phi !! j = Some t →
    Z.to_nat t = latch ∧ operand_of phi j = update x ∨
    Z.to_nat t ∉ blocks loop ∧ Z.to_nat (preheader x) = Z.to_nat t ∧ operand_of phi j = initial x
}.

Lemma incoming_spec d k phi : instr_at f d k = Some phi → i_opcode phi = OpPhi → zlen (i_targets phi) = 2 →
  value_isValid (initial (incoming loop latch phi)) = true → value_isValid (update (incoming loop latch phi)) = true →
  two_edges phi (incoming loop latch phi).
Proof.
  intros Hi Hop Ht Hv1 Hv2. unfold zlen in Ht. destruct (i_targets phi) as [|t0 [|t1 [|]]] eqn:Et; cbn in Ht; try lia. clear Ht.
  assert (0 ≤ t0 ∧ 0 ≤ t1) as [H0 H1] by (split; apply (un_targets _ Hunsigned _ _ _ _ Hi); rewrite Et; set_solver).
  unfold incoming in *. cbn [foldl] in *. unfold target_of in *. rewrite Et in *. cbn [lookup list_lookup default from_option id] in *.
  unfold in_blocks in *.
  destruct (Z.eqb_spec t0 (Z.of_nat latch)) as [->|N0]; destruct (Z.eqb_spec t1 (Z.of_nat latch)) as [->|N1];
    cbn [initial preheader update] in *; try done;
    repeat (match goal with |- context [bool_decide (?x ∈ ?y)] => destruct (bool_decide_reflect (x ∈ y)) end; cbn [negb initial preheader update] in *; try done).
  - split; [done|exists 0%nat, (Z.of_nat latch); rewrite Et, Nat2Z.id; done|]. rewrite Et.
    intros [|[|[]]] t; intros [= <-]; [left; by rewrite Nat2Z.id|by right].
  - split; [done|exists 1%nat, (Z.of_nat latch); rewrite Et, Nat2Z.id; done|]. rewrite Et.
    intros [|[|[]]] t; intros [= <-]; [by right|left; by rewrite Nat2Z.id].
Qed.

(** What a phi of the header becomes when the header is entered. *)
Lemma phi_enters k phi x b ρ ρ' : instr_at f H k = Some phi → two_edges phi x → enters f b H ρ ρ' →
  b = latch ∧ ρ' (i_result phi) = ρ (update x) ∨
  b ∉ blocks loop ∧ b = Z.to_nat (preheader x) ∧ ρ' (i_result phi) = ρ (initial x).
Proof.
  intros Hi [Hop _ He] Hin. destruct (Hin (i_result phi)) as [(k' & i' & j & t & Hi' & Hop' & Hr & Ht & <- & ->)|[Hn _]]; [|by destruct (Hn k phi Hi Hop)].
  destruct (ssa_unique _ Hssa _ _ _ _ _ _ (phi_defines _ _ _ _ Hi' Hop') (phi_defines _ _ _ _ Hi Hop) Hr) as [_ ->].
  rewrite Hi in Hi'. injection Hi' as <-. destruct (He j t Ht) as [[-> ->]|(? & -> & ->)]; auto.
Qed.

(** The instruction that steps a phi, and where it is. *)
Lemma update_spec d k phi x s : instr_at f d k = Some phi → two_edges phi x → stride_of definitions phi (update x) = Some s →
  IRScalarFold.scalar (i_type phi) = true ∧ dom d latch ∧
  ∃ next jy z dn kn dy ky, defines f dn kn next ∧ i_result next = update x ∧ dom dn latch ∧ is_binary next = true ∧
    operand_of next 0 = i_result phi ∧ sameInteger (i_type next) (i_type phi) = true ∧
    defines f dy ky jy ∧ i_result jy = operand_of next 1 ∧ dom dy latch ∧ IRScalarFold.scalar (i_type jy) = true ∧
    literal (operand_of next 1) = Some z ∧
    ∀ w m, IRScalarFold.fold_binary (i_operation next) w z = Some m → m = w + s.
Proof.
  intros Hi [Hop (e & t & Ht & Et & Hu) _] Hs. unfold stride_of in Hs.
  destruct (definition (update x)) as [next|] eqn:En; [|done]. cbn in Hs. destruct (is_binary next) eqn:Eb; [|done]. cbn [andb] in Hs.
  destruct (Z.eqb_spec (operand_of next 0) (i_result phi)) as [E0|]; [|done]. destruct (sameInteger _ _) eqn:Esi; [|done]. cbn [andb] in Hs.
  destruct (literal (operand_of next 1)) as [z|] eqn:El; [|done]. cbn in Hs.
  pose proof Esi as (Sn & Sp & _)%sameInteger_scalar. split; [done|].
  pose proof (phi_operand _ Hssa _ _ _ _ _ Hi Hop Ht) as Ho.
  destruct (ssa_phi _ Hssa _ _ _ _ _ _ Hi Hop Ho Ht) as (dn & kn & i' & Hdn & Hrn & Hdom & _). rewrite Et in Hdom.
  assert (i' = next) as ->.
  { pose proof (Hcomplete _ _ _ Hdn) as E. rewrite Hrn, <- Hu, En in E. by injection E as ->. }
  assert (i_opcode next ≠ OpPhi) as Hnop by (unfold is_binary in Eb; bool_facts; congruence).
  assert (reach dn) as Hrdn by (eapply dominates_reachable; [apply latch_edge|done]).
  assert (∀ v jv, v ∈ i_operands next → definition v = Some jv → ∃ dv kv, defines f dv kv jv ∧ i_result jv = v ∧ dom dv latch) as Hops.
  { intros v jv Hv Hdv. destruct (definition_precedes f definitions Hssa Hdefinitions _ _ _ _ _ (proj1 Hdn) Hnop Hv Hrdn Hdv) as (dv & kv & Hd & Hrv & Hpv).
    exists dv, kv. split; [done|]. split; [done|]. destruct Hpv as [[-> _]|[_ Hpv]]; [done|by eapply dominates_trans]. }
  destruct (Hops (i_result phi) phi) as (d' & k' & Hd' & _ & Hp').
  { rewrite <- E0. apply binary_operands; [done|lia]. }
  { apply (Hcomplete _ _ _ (phi_defines _ _ _ _ Hi Hop)). }
  destruct (ssa_unique _ Hssa _ _ _ _ _ _ Hd' (phi_defines _ _ _ _ Hi Hop) eq_refl) as [-> ->]. split; [done|].
  assert (∃ jy, definition (operand_of next 1) = Some jy ∧ IRScalarFold.scalar (i_type jy) = true) as (jy & Ejy & Sy).
  { unfold AddressProof.literal in El. destruct (definition (operand_of next 1)) as [jy|]; [|done]. cbn in El. exists jy. split; [done|].
    destruct (_ && _) eqn:E; [|done]. by bool_facts. }
  destruct (Hops (operand_of next 1) jy) as (dy & ky & Hdy & Hry & Hpy); [apply binary_operands; [done|lia]|done|].
  exists next, jy, z, dn, kn, dy, ky. repeat (split; [first [done|congruence]|]). intros w m Hm.
  unfold is_operation in Hs. unfold IRScalarFold.fold_binary in Hm.
  destruct (String.eqb_spec (i_operation next) "+"); [|destruct (String.eqb_spec (i_operation next) "-"); [|done]]; injection Hs as <-; injection Hm as <-; lia.
Qed.

Lemma precedes_latch d k i n j : defines f d k i → dom d latch → instr_at f latch n = Some j → isTerminator j = true → precedes f d k latch n.
Proof.
  intros Hd Hdom Hj Ht. destruct (decide (d = latch)) as [->|]; [left; split; [done|by eapply defines_before]|by right].
Qed.

(** The step at the latch. *)
Lemma update_value d k phi x s n ρ c j : instr_at f d k = Some phi → two_edges phi x → stride_of definitions phi (update x) = Some s →
  runs (mkState latch n ρ c) → instr_at f latch n = Some j → isTerminator j = true →
  ∃ w, ρ (i_result phi) = Some w ∧ ρ (update x) = Some (convert (w + s) (i_type phi)).
Proof.
  intros Hi Hx Hs Hr Hj Ht. pose proof (te_phi _ _ Hx) as Hop.
  destruct (update_spec _ _ _ _ _ Hi Hx Hs) as (Sp & Hdom & next & jy & z & dn & kn & dy & ky & Hdn & Hrn & Hdomn & Eb & E0 & Esi & Hdy & Hry & Hdomy & Sy & El & Hstep).
  apply sameInteger_scalar in Esi as (Sn & _ & Hconv & _).
  assert (i_opcode next ≠ OpPhi) as Hnop by (unfold is_binary in Eb; bool_facts; congruence).
  destruct (equation_at f locals frame Hssa (mkState latch n ρ c) _ _ _ _ Hr Hdn Hrn Hnop) as (w' & Hw' & Hc); [by eapply precedes_latch|]. cbn in Hw', Hc.
  pose proof (phi_defines _ _ _ _ Hi Hop) as Hd.
  destruct (defined_at f locals frame Hssa (mkState latch n ρ c) _ _ _ Hr Hd) as [w Hw]; [by eapply precedes_latch|]. cbn in Hw. exists w. split; [done|].
  destruct (defined_at f locals frame Hssa (mkState latch n ρ c) _ _ _ Hr Hdy) as [y Hy]; [by eapply precedes_latch|]. cbn in Hy. rewrite Hry in Hy.
  pose proof (literal_value f locals frame definitions Hssa Hdefinitions _ _ _ _ Hr El Hy) as ->.
  assert (definition (operand_of next 1) = Some jy) as Ejy by (rewrite <- Hry; by eapply Hcomplete).
  destruct (binary_value f locals frame definitions Hssa Hdefinitions _ next _ _ w' w z phi jy Hr Eb E0 eq_refl Sn Hc (Hcomplete _ _ _ Hd) Ejy Sp Sy Hw Hy) as (m & Hm & ->).
  rewrite Hw', Hconv. by rewrite (Hstep _ _ Hm).
Qed.

(** ** Invariants of the header's phis *)

(** [s'] has just entered the header from [s]. *)
Definition arrives (s s' : state) : Prop := st_block s' = H ∧ ∃ b k i ρ c n t ρ' c',
  s = mkState b k ρ c ∧ s' = mkState H 0 ρ' c' ∧ instr_at f b k = Some i ∧ isTerminator i = true ∧ jumps i (mkState b k ρ c) n c' ∧
  i_targets i !! n = Some t ∧ Z.to_nat t = H ∧ enters f b H ρ ρ'.

Definition header_phi (v : Z) : Prop := ∃ k phi, instr_at f H k = Some phi ∧ i_opcode phi = OpPhi ∧ i_result phi = v.

Lemma phi_stable s s' v : step s s' → header_phi v → arrives s s' ∨ st_values s' v = st_values s v ∧ (st_index s' = 0%nat → st_block s' ≠ H).
Proof.
  intros Hs (k & phi & Hi & Hop & <-). pose proof (phi_defines _ _ _ _ Hi Hop) as Hd.
  destruct Hs as [b n j ρ c Hj _ _|b n j ρ c w' Hj Ht Hp Hop' Hc|b n j ρ c e t ρ' c' Hj Ht Hjmp Hn Hin]; cbn; [by right| |].
  - right. split; [|done]. rewrite fn_lookup_insert_ne; [done|]. intros E. destruct (ssa_unique _ Hssa _ _ _ _ _ _ (conj Hj Hp) Hd) as [-> ->]; [congruence|]. congruence.
  - destruct (decide (Z.to_nat t = H)) as [E|Hne].
    + left. split; [done|]. rewrite E in *. exists b, n, j, ρ, c, e, t, ρ', c'. done.
    + right. split; [|done]. destruct (Hin (i_result phi)) as [(q & i & jj & t' & Hi' & Hop'' & Hr & _)|[_ E]]; [|done].
      destruct (ssa_unique _ Hssa _ _ _ _ _ _ (phi_defines _ _ _ _ Hi' Hop'') Hd) as [? _]; done.
Qed.

(** A property of the header's phis that every entry into the header keeps. *)
Lemma header_invariant (vs : list Z) (I : environment → Prop) :
  (∀ v, v ∈ vs → header_phi v) → (∀ ρ ρ', (∀ v, v ∈ vs → ρ v = ρ' v) → I ρ → I ρ') → I (λ _, None) →
  (∀ s s', runs s → arrives s s' → I (st_values s) → I (st_values s')) → ∀ s, runs s → I (st_values s).
Proof.
  intros Hvs Hext H0 Hstep s Hr. induction Hr as [c|s s' Hr IH Hs]; [done|].
  destruct (decide (vs = [])) as [->|Hne]. { eapply Hext; [|exact IH]. intros v Hv. by apply elem_of_nil in Hv. }
  assert (arrives s s' ∨ ∀ v, v ∈ vs → st_values s v = st_values s' v) as [Harr|Heq].
  { clear Hext H0 Hstep IH Hne. induction vs as [|v vs IHv]; [right; intros v Hv; by apply elem_of_nil in Hv|].
    destruct IHv as [|Hall]; [intros; apply Hvs; by right|by left|]. destruct (phi_stable _ _ v Hs) as [|[E _]]; [apply Hvs; left|by left|].
    right. intros v' [->|Hv']%elem_of_cons; [done|by apply Hall]. }
  - by eapply Hstep.
  - by eapply Hext.
Qed.

(** The phis of the header after an entry. *)
Lemma arrives_phi s s' k phi x : runs s → arrives s s' → instr_at f H k = Some phi → two_edges phi x →
  ∃ w, st_values s' (i_result phi) = Some w ∧ (IRScalarFold.scalar (i_type phi) = true → holds (i_type phi) w) ∧
  (st_block s = latch ∧ st_values s (update x) = Some w ∨
   st_block s ∉ blocks loop ∧ st_block s = Z.to_nat (preheader x) ∧ st_values s (initial x) = Some w).
Proof.
  intros Hr (_ & b & n & j & ρ & c & e & t & ρ' & c' & -> & -> & Hj & Ht & _ & Hte & Et & Hin) Hi Hx. cbn.
  pose proof (te_phi _ _ Hx) as Hop. pose proof (runs_valid f locals frame Hssa _ Hr) as HV.
  assert (∃ jj tt, i_targets phi !! jj = Some tt ∧ Z.to_nat tt = b ∧ ρ' (i_result phi) = ρ (operand_of phi jj)) as (jj & tt & Htt & Eb & E).
  { destruct (Hin (i_result phi)) as [(k' & i' & jj & t' & Hi' & Hop' & Hres & Ht' & Eb & E)|[Hn _]]; [|by destruct (Hn k phi Hi Hop)].
    destruct (ssa_unique _ Hssa _ _ _ _ _ _ (phi_defines _ _ _ _ Hi' Hop') (phi_defines _ _ _ _ Hi Hop) Hres) as [_ ->].
    rewrite Hi in Hi'. injection Hi' as <-. eauto. }
  destruct (phi_value f locals frame Hssa _ _ _ _ _ _ _ _ _ _ HV Hj Ht Hi Hop Htt Eb) as (w & Hw & Hh).
  exists w. split; [congruence|]. split; [done|]. destruct (te_edges _ _ Hx _ _ Htt) as [[<- <-]|(H1 & -> & <-)]; subst b; auto.
Qed.

(** ** The loop's own condition *)

Record guard (terminal cmp : IRInstruction) : Prop := {
  gu_shape : i_opcode terminal = OpCondBranch ∧ zlen (i_operands terminal) = 1 ∧ zlen (i_targets terminal) = 2;
  gu_pred : Nat.eqb (length (adjacent (preds a) (Z.to_nat (target_of terminal 0)))) 1 = true;
  gu_dom : dom (Z.to_nat (target_of terminal 0)) latch;
  gu_comparison : definition (operand_of terminal 0) = Some cmp ∧ is_binary cmp = true
}.
Lemma guard_of_spec terminal cmp : guard_of definitions a loop latch terminal = Some cmp → guard terminal cmp.
Proof.
  unfold guard_of. destruct (negb _) eqn:E0; [done|]. destruct (_ && _) eqn:E in |- *; [|done].
  destruct (definition (operand_of terminal 0)) as [c|] eqn:Ec; [|done]. cbn.
  destruct (is_binary c) eqn:Eb; [|done]. intros [= <-]. apply andb_true_iff in E as [E Ed%(parts_dominates0 f a Hssa Ha)].
  apply andb_true_iff in E as [E Ep]. bool_facts. split; [done..|]. by rewrite Ec.
Qed.

Lemma guard_at_latch terminal cmp jx jy bound x : last (code_of f H) = Some terminal → guard terminal cmp →
  definition (operand_of cmp 0) = Some jx → definition (operand_of cmp 1) = Some jy → sameInteger (i_type jx) (i_type jy) = true →
  literal (operand_of cmp 1) = Some bound → condition_fact (i_operation cmp) true bound (scalarRange (i_type jx)) = Some x →
  constraint_holds f locals frame latch (operand_of cmp 0) x.
Proof.
  intros Hlast [(Ho & H1 & H2) Hp Hd [Hc Hb]] Ex Ey (Sx & Sy & _)%sameInteger_scalar El Hx. unfold code_of in Hlast.
  destruct (f_blocks f !! H) as [blk|] eqn:Hblk; [|done].
  apply (edge_constraint f locals frame definitions a Hssa Hdefinitions Ha Hcanonical H blk terminal cmp (operand_of cmp 0) (i_type jx) bound (i_operation cmp) 0%nat);
    try done; [|by apply header_reach|lia].
  split; try done; [by exists jx, jy|exists jx; split_and!; try done; apply binary_operands; [done|lia]|].
  intros Hop. split; [done|]. intros s u v w Hr Hu Hv Hw. rewrite (literal_value f locals frame definitions Hssa Hdefinitions _ _ _ _ Hr El Hv). congruence.
Qed.

(** The condition of a loop, by the direction of its steps. *)
Lemma condition_bounds op step bound full : 
  (0 < step ∧ (op = "<" ∨ op = "<=")%string → ∃ x, condition_fact op true bound full = Some x ∧ high x ≤ bound - (if String.eqb op "<" then 1 else 0)) ∧
  (step < 0 ∧ (op = ">" ∨ op = ">=")%string → ∃ x, condition_fact op true bound full = Some x ∧ bound + (if String.eqb op ">" then 1 else 0) ≤ low x).
Proof.
  split; intros [_ [-> | ->]]; eexists; (split; [reflexivity|]); cbn; lia.
Qed.

Lemma scalar_in_range t w : IRScalarFold.scalar t = true → low (scalarRange t) ≤ w ≤ high (scalarRange t) → convert w t = w.
Proof. intros Hs Hw. apply convert_id; [by apply scalar_level|by apply scalarRange_holds]. Qed.

Lemma guarded_bounds_sound k phi x start s terminal cmp l h A :
  instr_at f H k = Some phi → two_edges phi x → literal (initial x) = Some start → stride_of definitions phi (update x) = Some s →
  last (code_of f H) = Some terminal → guard terminal cmp → operand_of cmp 0 = i_result phi →
  guarded_bounds definitions cmp phi start s (scalarRange (i_type phi)) = Some (l, h) → (A | start) → (A | s) →
  ∀ st w, runs st → st_values st (i_result phi) = Some w → l ≤ w ≤ h ∧ (A | w).
Proof.
  intros Hi Hx Hstart Hs Hlast Hg E0 Hb HA1 HA2 st w Hr. pose proof (te_phi _ _ Hx) as Hop.
  destruct (update_spec _ _ _ _ _ Hi Hx Hs) as (Sp & _). pose proof (Hcomplete _ _ _ (phi_defines _ _ _ _ Hi Hop)) as Ephi.
  assert (l ≤ start ≤ h ∧ ∃ y, constraint_holds f locals frame latch (i_result phi) y ∧
    ∀ w, l ≤ w ≤ h → low y ≤ w ≤ high y → l ≤ w + s ≤ h ∧ low (scalarRange (i_type phi)) ≤ w + s ≤ high (scalarRange (i_type phi))) as (Hin & y & Hy & Hnext).
  { unfold guarded_bounds in Hb. destruct (definition (operand_of cmp 1)) as [end_|] eqn:Ee; [|done]. cbn in Hb.
    destruct (sameInteger (i_type end_) (i_type phi)) eqn:Esi; [|done]. destruct (literal (operand_of cmp 1)) as [bound|] eqn:El; [|done]. cbn in Hb.
    apply sameInteger_sym in Esi.
    assert (∀ x, condition_fact (i_operation cmp) true bound (scalarRange (i_type phi)) = Some x → constraint_holds f locals frame latch (i_result phi) x) as Hlatch.
    { intros y Hy. rewrite <- E0. eapply (guard_at_latch terminal cmp phi end_); try done. by rewrite E0. }
    destruct (condition_bounds (i_operation cmp) s bound (scalarRange (i_type phi))) as [Hup Hdown].
    destruct ((0 <? s) && _) eqn:E1; [|destruct ((s <? 0) && _) eqn:E2; [|done]].
    - apply andb_true_iff in E1 as [E1%Z.ltb_lt E2%orb_true_iff]. rewrite !String.eqb_eq in E2. destruct (Hup (conj E1 E2)) as (y & Hy & Hhigh).
      apply within_spec in Hb as ([= -> ->] & Hl & Hh). destruct (Z.leb_spec start (bound - (if String.eqb (i_operation cmp) "<" then 1 else 0)));
        (split; [lia|]); exists y; (split; [by apply Hlatch|]); lia.
    - apply andb_true_iff in E2 as [E2%Z.ltb_lt E3%orb_true_iff]. rewrite !String.eqb_eq in E3. destruct (Hdown (conj E2 E3)) as (y & Hy & Hlow).
      apply within_spec in Hb as ([= -> ->] & Hl & Hh). destruct (Z.leb_spec (bound + (if String.eqb (i_operation cmp) ">" then 1 else 0)) start);
        (split; [lia|]); exists y; (split; [by apply Hlatch|]); lia. }
  revert st Hr w. apply (header_invariant [i_result phi] (λ ρ, ∀ w, ρ (i_result phi) = Some w → l ≤ w ≤ h ∧ (A | w))).
  - intros v ->%list_elem_of_singleton. by exists k, phi.
  - intros ρ ρ' Hext HI w Hw. apply HI. by rewrite (Hext (i_result phi)) by set_solver.
  - done.
  - intros s0 s' Hr Harr HI w Hw. destruct (arrives_phi _ _ _ _ _ Hr Harr Hi Hx) as (w' & Hw' & _ & Hcase).
    rewrite Hw' in Hw. injection Hw as ->. destruct Hcase as [[Eb Hu]|(_ & _ & Hu)].
    + destruct Harr as (_ & b & n & j & ρ & c & e & t & ρ' & c' & -> & -> & Hj & Ht & _). cbn in Eb, Hu, HI. subst b.
      destruct (update_value _ _ _ _ _ _ _ _ _ Hi Hx Hs Hr Hj Ht) as (u & Hu' & Hv). rewrite Hu in Hv. injection Hv as ->.
      destruct (HI u Hu') as [Hb1 Hd1]. destruct (Hnext u Hb1) as [Hb2 Hr2]; [by apply (Hy _ u Hr)|].
      rewrite scalar_in_range by done. split; [done|]. by apply Z.divide_add_r.
    + rewrite (literal_value f locals frame definitions Hssa Hdefinitions _ _ _ _ Hr Hstart Hu). done.
Qed.

(** ** A second variable *)

(** A phi the latch steps is in the header: the latch closes one loop only. *)
Lemma stepped_in_header d k phi x s : instr_at f d k = Some phi → two_edges phi x → stride_of definitions phi (update x) = Some s → d = H.
Proof.
  intros Hi Hx Hs. destruct (update_spec _ _ _ _ _ Hi Hx Hs) as (_ & Hdom & _). destruct latch_edge as (Hl & _ & _).
  apply (ca_latches _ Hcanonical latch); [|by apply (na_latch _ _ Hloop)].
  unfold back_edge, reaches, doms. rewrite (ssa_entry _ Hssa). split; [done|]. split; [|done].
  destruct (te_update _ _ Hx) as (j & t & Ht & <- & _). apply (ssa_phi_preds _ Hssa _ _ _ _ Hi (te_phi _ _ Hx)).
  apply list_elem_of_fmap. exists t. split; [done|]. by eapply list_elem_of_lookup_2.
Qed.

Lemma guarded_trips_sound k phi x start s terminal cmp trips :
  instr_at f H k = Some phi → two_edges phi x → literal (initial x) = Some start → stride_of definitions phi (update x) = Some s →
  last (code_of f H) = Some terminal → guard terminal cmp → guarded_trips definitions loop latch cmp = Some trips →
  low (scalarRange (i_type phi)) ≤ Z.min start (start + trips * s) → Z.max start (start + trips * s) ≤ high (scalarRange (i_type phi)) →
  ∀ st w, runs st → st_values st (i_result phi) = Some w → ∃ n, 0 ≤ n ≤ trips ∧ w = start + n * s.
Proof.
  intros Hi Hx Hstart Hs Hlast Hg Ht Hlow Hhigh st w Hr. destruct (update_spec _ _ _ _ _ Hi Hx Hs) as (Sp & _).
  unfold guarded_trips in Ht. destruct (definition (operand_of cmp 0)) as [ctl|] eqn:Ec; [|done]. cbn [mbind option_bind] in Ht.
  destruct (definition (operand_of cmp 1)) as [end_|] eqn:Ee; [|done]. cbn [mbind option_bind] in Ht. destruct (_ && sameInteger _ _) eqn:E1; [|done].
  bool_facts. set (y := incoming loop latch ctl) in *. destruct (literal (initial y)) as [cstart|] eqn:Ecs; [|done]. cbn [mbind option_bind] in Ht.
  destruct (literal (operand_of cmp 1)) as [bound|] eqn:Ebd; [|done]. cbn [mbind option_bind] in Ht. destruct (stride_of definitions ctl (update y)) as [cs|] eqn:Est; [|done]. cbn [mbind option_bind] in Ht.
  destruct (definition_defines f definitions Hdefinitions _ _ Ec) as (d & kc & Hdc & Hrc).
  assert (∀ v, is_Some (definition v) → value_isValid v = true) as Hvalid.
  { intros v [j Hj]. unfold AddressProof.definition in Hj. destruct (_ && _) eqn:E; [|done]. by bool_facts. }
  assert (two_edges ctl y) as Hy.
  { apply (incoming_spec d kc); [apply Hdc|done|done|apply Hvalid|apply Hvalid].
    - unfold AddressProof.literal in Ecs. by destruct (definition (initial _)).
    - unfold stride_of in Est. by destruct (definition (update _)). }
  pose proof (stepped_in_header _ _ _ _ _ (proj1 Hdc) Hy Est) as ->. destruct Hdc as [Hic _].
  destruct (update_spec _ _ _ _ _ Hic Hy Est) as (Sc & _).
  pose proof (trips_nonneg _ _ _ _ _ _ Ht) as Hpos.
  set (full := scalarRange (i_type ctl)) in *.
  assert (∀ st, runs st → ∀ w, st_values st (i_result phi) = Some w →
    ∃ n, 0 ≤ n ≤ trips ∧ w = start + n * s ∧ st_values st (i_result ctl) = Some (cstart + n * cs) ∧ low full ≤ cstart ≤ high full) as HI;
    [|intros Hw; destruct (HI st Hr w Hw) as (n & ? & ? & _); by exists n].
  clear st w Hr. apply (header_invariant [i_result phi; i_result ctl] (λ ρ, ∀ w, ρ (i_result phi) = Some w →
    ∃ n, 0 ≤ n ≤ trips ∧ w = start + n * s ∧ ρ (i_result ctl) = Some (cstart + n * cs) ∧ low full ≤ cstart ≤ high full)).
  - intros v [-> | ->%list_elem_of_singleton]%elem_of_cons; [exists k, phi; by split; [|split; [apply Hx|]]|exists kc, ctl; by split; [|split; [apply Hy|]]].
  - intros ρ ρ' Hext HI w Hw. assert (ρ (i_result phi) = ρ' (i_result phi)) as E1 by (apply Hext; left). assert (ρ (i_result ctl) = ρ' (i_result ctl)) as E2 by (apply Hext; right; left).
    rewrite <- E1 in Hw. rewrite <- E2. by apply HI.
  - done.
  - intros s0 s' Hr Harr HI w Hw. destruct (arrives_phi _ _ _ _ _ Hr Harr Hi Hx) as (w' & Hw' & _ & Hcase).
    rewrite Hw' in Hw. injection Hw as ->. destruct (arrives_phi _ _ _ _ _ Hr Harr Hic Hy) as (wc & Hwc & Hholds & Hcasec).
    destruct Hcase as [[Eb Hu]|(Hout & _ & Hu)]; destruct Hcasec as [[Ebc Huc]|(Houtc & _ & Huc)];
      [|by rewrite Eb in Houtc; destruct Houtc; apply latch_in|by rewrite Ebc in Hout; destruct Hout; apply latch_in|].
    + destruct Harr as (_ & b & n & j & ρ & c & e & t & ρ' & c' & -> & -> & Hj & Hterm & _). cbn in *. subst b.
      destruct (update_value _ _ _ _ _ _ _ _ _ Hi Hx Hs Hr Hj Hterm) as (u & Hu' & Hv). rewrite Hu in Hv. injection Hv as ->.
      destruct (update_value _ _ _ _ _ _ _ _ _ Hic Hy Est Hr Hj Hterm) as (uc & Huc' & Hvc). rewrite Huc in Hvc. injection Hvc as ->.
      destruct (HI u Hu') as (m & Hm & -> & Hctl & Hrange). rewrite Huc' in Hctl. injection Hctl as ->.
      assert (∃ z, condition_fact (i_operation cmp) true bound full = Some z) as [z Hz].
      { unfold trip_count in Ht. destruct (condition_bounds (i_operation cmp) cs bound full) as [Hup Hdown].
        destruct ((0 <? cs) && _) eqn:E5; [|destruct ((cs <? 0) && _) eqn:E6].
        - apply andb_true_iff in E5 as [E5%Z.ltb_lt E6%orb_true_iff]. rewrite !String.eqb_eq in E6. destruct Hup as (z & ? & _); eauto.
        - apply andb_true_iff in E6 as [E6%Z.ltb_lt E7%orb_true_iff]. rewrite !String.eqb_eq in E7. destruct Hdown as (z & ? & _); eauto.
        - cbn in Ht. clear - Ht. by destruct (_ || _). }
      assert (low z ≤ cstart + m * cs ≤ high z) as Hcond.
      { apply (guard_at_latch terminal cmp ctl end_ bound z Hlast Hg Ec Ee ltac:(done) Ebd Hz _ _ Hr eq_refl). cbn. by rewrite <- Hrc. }
      destruct (trip_step _ _ _ _ _ _ _ m Ht Hrange Hz Hcond) as [Hm1 Hin]; [lia|].
      exists (m + 1). split; [lia|]. split; [|split; [|done]].
      * rewrite scalar_in_range; [lia|done|]. pose proof (steps_between start s (m + 1) trips ltac:(lia)).
        replace (start + m * s + s) with (start + (m + 1) * s) by lia. lia.
      * rewrite Hwc. f_equal. replace (cstart + m * cs + cs) with (cstart + (m + 1) * cs) by lia. by apply scalar_in_range.
    + exists 0. split; [lia|]. rewrite (literal_value f locals frame definitions Hssa Hdefinitions _ _ _ _ Hr Hstart Hu).
      pose proof (literal_value f locals frame definitions Hssa Hdefinitions _ _ _ _ Hr Ecs Huc) as ->.
      split; [lia|]. split; [rewrite Hwc; f_equal; lia|]. by apply scalarRange_holds; [|apply Hholds].
Qed.
End Loop.
End Loops.
