(* ===== verification/AddressCount.v ===== *)
(** * AddressCount: loops the hardware counts

    The trip count of a hardware loop bounds the phis of its header: the counter and
    the number of rounds add up to no more than the count the setup loads.  With
    [AddressCond] and [AddressLoop] this makes everything [refineControlFlow]
    records hold. *)

From stdpp Require Import functions.
From S2P Require Import Prelude Target Types Token IR ScalarFold Graph IRVerify IRSound.
From S2P Require Import ControlFlow FlowSound LoopSound Liveness Analysis AddressProof IRRun AddressSound AddressCond AddressLoop.

Section Counted.
Context (f : IRFunction) (locals : list (SymbolId * Symbol)) (frame : Z) (definitions : list (option IRInstruction)) (a : IRControlFlow).
Hypothesis Hssa : ssa f.
Hypothesis Hdefinitions : ∀ v i, 0 ≤ v → definitions !! Z.to_nat v = Some (Some i) → ∃ d k, defines f d k i ∧ i_result i = v.
Hypothesis Hcomplete : ∀ d k i, defines f d k i → definition definitions (i_result i) = Some i.
Hypothesis Ha : parts f a.
Hypothesis Hcanonical : canonical f.
Hypothesis Hunsigned : unsigned f.
Notation runs := (runs f locals frame).
Notation step := (step f locals frame).
Notation dom := (dominates (cfg f) 0).
Notation reach := (reachable (cfg f) 0).
Notation definition := (definition definitions).
Notation literal := (literal definitions).

(** ** Chains of empty blocks *)

(** [b] is [s], or only empty blocks with one way in lie between them. *)
Inductive chain (s : nat) : nat → Prop :=
  | chain_here : chain s s
  | chain_next b p : only_branch (code_of f b) = true → (∀ q, b ∈ adjacent (cfg f) q ↔ q = p) → chain s p → chain s b.

Lemma back_through_chain depth b s : back_through f a depth b = Some s → chain s b.
Proof.
  revert b. induction depth as [|depth IH]; intros b; cbn [back_through]; [done|].
  destruct (only_branch (code_of f b)) eqn:Eo; cbn [negb orb]; [|intros [= <-]; constructor].
  destruct (Nat.eqb (length _) 1) eqn:El; cbn [negb]; [|intros [= <-]; constructor].
  apply Nat.eqb_eq in El. destruct (adjacent (preds a) b) as [|p [|]] eqn:Ep; try done. cbn. intros Hs%IH.
  eapply chain_next; [done| |exact Hs]. by apply (preds_single f a Hssa Ha).
Qed.

Lemma branch_block b k i : only_branch (code_of f b) = true → instr_at f b k = Some i → i_opcode i = OpBranch.
Proof.
  unfold only_branch, code_of, instr_at, zlen. destruct (f_blocks f !! b) as [blk|]; [|done]. cbn. intros H Hi. bool_facts.
  destruct (b_instructions blk) as [|j [|]]; cbn in *; try lia. destruct k as [|k]; [|done]. injection Hi as <-. by bool_facts.
Qed.
Lemma branch_counts b k i ρ c e c' : only_branch (code_of f b) = true → instr_at f b k = Some i → jumps i (mkState b k ρ c) e c' → c' = c.
Proof. intros Hb Hi. pose proof (branch_block _ _ _ Hb Hi) as Ho. unfold jumps. by rewrite Ho. Qed.

(** Into a block further down a chain one comes from the chain. *)
Lemma chain_pred s b q : chain s b → b ≠ s → b ∈ adjacent (cfg f) q → chain s q.
Proof. intros Hc Hne Hq. destruct Hc as [|b p _ Hp Hc]; [done|]. by apply Hp in Hq as ->. Qed.
Lemma chain_branch s b : chain s b → b ≠ s → only_branch (code_of f b) = true.
Proof. by destruct 1. Qed.

(** ** Setup and end *)

Section Loop.
Context (loop : Loop) (latch : nat) (setup_block finish_block : nat) (setup finish : IRInstruction) (trips : Z).
Hypothesis Hloop : natural f loop latch.
Hypothesis Hsetup : last (code_of f setup_block) = Some setup ∧ i_opcode setup = OpHardwareLoop ∧ literal (operand_of setup 0) = Some trips.
Hypothesis Hfinish : last (code_of f finish_block) = Some finish ∧ i_opcode finish = OpHardwareLoopEnd ∧ Z.to_nat (target_of finish 1) ∉ blocks loop.
Hypothesis Hids : i_loop_id setup = i_loop_id finish.
Hypothesis Houtside : setup_block ∉ blocks loop.
Hypothesis Htrips : 1 ≤ trips ≤ 65535.
Hypothesis Hlatch : chain finish_block latch.
Notation number := (i_loop_id setup).

Lemma last_is b k i j : last (code_of f b) = Some j → instr_at f b k = Some i → isTerminator i = true → i = j.
Proof.
  unfold code_of. intros Hl. destruct (f_blocks f !! b) as [blk|] eqn:E; [|done]. by apply (terminator_index f Hssa b blk k i j).
Qed.
Lemma last_at b j : last (code_of f b) = Some j → ∃ k, instr_at f b k = Some j.
Proof.
  unfold code_of. intros Hl. destruct (f_blocks f !! b) as [blk|] eqn:E; [|done]. by apply (last_index f b blk j).
Qed.

(** The counter changes at the setup and at the end only. *)
Lemma counter_kept b k j ρ c e c' : instr_at f b k = Some j → isTerminator j = true → jumps j (mkState b k ρ c) e c' →
  b ≠ setup_block → b ≠ finish_block → c' number = c number.
Proof.
  intros Hj Ht Hjmp Hs Hf. destruct Hsetup as (Hls & Hos & _), Hfinish as (Hlf & Hof & _).
  destruct (last_at _ _ Hls) as [ks Hks], (last_at _ _ Hlf) as [kf Hkf].
  assert (∀ n x, number ≠ n → <[n := x]> c number = c number) as Hother by (intros n x Hn; by rewrite fn_lookup_insert_ne).
  unfold jumps in Hjmp. destruct (i_opcode j) eqn:Ho; try (by rewrite Hjmp); cbn in Hjmp.
  - destruct Hjmp as (v & _ & _ & ->). apply Hother. intros E.
    destruct (ssa_loop_ids _ Hssa OpHardwareLoop _ _ _ _ _ _ ltac:(by left) Hks Hos Hj Ho E). congruence.
  - destruct Hjmp as (_ & ->). apply Hother. intros E. rewrite Hids in E.
    destruct (ssa_loop_ids _ Hssa OpHardwareLoopEnd _ _ _ _ _ _ ltac:(by right) Hkf Hof Hj Ho E). congruence.
  - by destruct Hjmp as (v & _ & _ & ->).
Qed.

(** Leaving the setup, or an empty block after it, the counter is loaded. *)
Lemma loaded s : runs s → ∀ b, st_block s = b → chain setup_block b → b ≠ setup_block → st_counts s number = trips.
Proof.
  assert (∀ p k j ρ c e c', runs (mkState p k ρ c) → instr_at f p k = Some j → isTerminator j = true → jumps j (mkState p k ρ c) e c' →
    chain setup_block p → (p ≠ setup_block → c number = trips) → c' number = trips) as Hleave.
  { intros p k j ρ c e c' Hr Hj Ht Hjmp Hc Hp. destruct (decide (p = setup_block)) as [->|Hne].
    - destruct Hsetup as (Hls & Hos & Hl). assert (j = setup) as -> by (by eapply last_is). unfold jumps in Hjmp. rewrite Hos in Hjmp. cbn in Hjmp.
      destruct Hjmp as (v & Hv & _ & ->). rewrite (literal_value f locals frame definitions Hssa Hdefinitions _ _ _ _ Hr Hl Hv).
      rewrite fn_lookup_insert. apply uwrap_small. cbn. lia.
    - rewrite (branch_counts _ _ _ _ _ _ _ (chain_branch _ _ Hc Hne) Hj Hjmp). by apply Hp. }
  intros Hr. induction Hr as [c|s s' Hr IH Hs]; intros b Hb Hc Hne.
  - destruct Hc as [|b p _ Hp _]; [done|]. cbn in Hb. rewrite (ssa_entry _ Hssa) in Hb. subst b.
    destruct (ca_entry _ Hcanonical p). by apply Hp.
  - destruct Hs as [p k j ρ c Hj _ _|p k j ρ c w' Hj Ht Hp Hop Hcm|p k j ρ c e t ρ' c' Hj Ht Hjmp Hn Hin]; cbn in *; [by eapply IH|by eapply IH|].
    subst b. pose proof (jump_edge _ _ _ _ _ _ Hj Ht Hn) as Hedge. pose proof (chain_pred _ _ _ Hc Hne Hedge) as Hcp.
    eapply Hleave; [exact Hr|done..|]. intros Hpne. by eapply IH.
Qed.
Lemma loaded_jump p k j ρ c e c' : runs (mkState p k ρ c) → instr_at f p k = Some j → isTerminator j = true → jumps j (mkState p k ρ c) e c' →
  chain setup_block p → c' number = trips.
Proof.
  intros Hr Hj Ht Hjmp Hc. destruct (decide (p = setup_block)) as [->|Hne].
  - destruct Hsetup as (Hls & Hos & Hl). assert (j = setup) as -> by (by eapply last_is). unfold jumps in Hjmp. rewrite Hos in Hjmp. cbn in Hjmp.
    destruct Hjmp as (v & Hv & _ & ->). rewrite (literal_value f locals frame definitions Hssa Hdefinitions _ _ _ _ Hr Hl Hv).
    rewrite fn_lookup_insert. apply uwrap_small. cbn. lia.
  - rewrite (branch_counts _ _ _ _ _ _ _ (chain_branch _ _ Hc Hne) Hj Hjmp). by apply (loaded _ Hr p).
Qed.

(** Leaving the end into the loop, one round is counted. *)
Lemma counted_jump k j ρ c e t c' n : instr_at f finish_block k = Some j → isTerminator j = true → jumps j (mkState finish_block k ρ c) e c' →
  i_targets j !! e = Some t → Z.to_nat t ∈ blocks loop → 0 ≤ n → 1 ≤ c number → c number + n ≤ trips →
  1 ≤ c' number ∧ c' number + n + 1 ≤ trips.
Proof.
  intros Hj Ht Hjmp He Hin Hn H1 H2. destruct Hfinish as (Hlf & Hof & Hex). assert (j = finish) as -> by (by eapply last_is).
  unfold jumps in Hjmp. rewrite Hof in Hjmp. cbn in Hjmp. destruct Hjmp as [Ee ->]. rewrite <- Hids in *.
  rewrite fn_lookup_insert. assert (u16 (c number - 1) = c number - 1) as E by (apply uwrap_small; cbn; lia). rewrite E in *.
  destruct (Z.eqb_spec (c number - 1) 0) as [|Hne]; [|lia]. subst e. destruct Hex. unfold target_of. by rewrite He.
Qed.

(** ** The counted phi *)

(** What the rounds so far say at a block. *)
Definition counted (start s : Z) (st : state) (w : Z) : Prop := ∃ n, 0 ≤ n ≤ trips - 1 ∧ w = start + n * s ∧
  (st_block st ∈ blocks loop → 1 ≤ st_counts st number ∧ st_counts st number + n ≤ trips ∧
     (chain finish_block (st_block st) → st_block st ≠ finish_block → st_counts st number + n + 1 ≤ trips)).

Lemma header_no_chain : chain finish_block (header loop) → header loop = finish_block.
Proof.
  intros Hc. destruct (decide (header loop = finish_block)) as [|Hne]; [done|]. inversion Hc as [E|b p _ Hp _ E]; [done|].
  destruct (latch_edge f Hssa loop latch Hloop) as (_ & He & Hd). apply Hp in He as ->.
  destruct (sole_not_dominates f Hcanonical (header loop) p); [by eapply header_reach|done|done].
Qed.

(** From one block of the loop to another. *)
Lemma counted_inside b k j ρ c e t c' n : instr_at f b k = Some j → isTerminator j = true → jumps j (mkState b k ρ c) e c' →
  i_targets j !! e = Some t → b ∈ blocks loop → Z.to_nat t ∈ blocks loop → 0 ≤ n → 1 ≤ c number → c number + n ≤ trips →
  (chain finish_block b → b ≠ finish_block → c number + n + 1 ≤ trips) →
  1 ≤ c' number ∧ c' number + n ≤ trips ∧ (chain finish_block b → c' number + n + 1 ≤ trips).
Proof.
  intros Hj Ht Hjmp He Hb Hin Hn H1 H2 H3. destruct (decide (b = finish_block)) as [->|Hne].
  - destruct (counted_jump _ _ _ _ _ _ _ _ Hj Ht Hjmp He Hin Hn H1 H2). split; [done|]. split; [lia|done].
  - rewrite (counter_kept _ _ _ _ _ _ _ Hj Ht Hjmp); [|by intros ->|done]. split; [done|]. split; [done|]. intros Hc. by apply H3.
Qed.

Lemma counted_sound k phi x start s : instr_at f (header loop) k = Some phi → two_edges loop latch phi x → literal (initial x) = Some start →
  stride_of definitions phi (update x) = Some s → chain setup_block (Z.to_nat (preheader x)) →
  low (scalarRange (i_type phi)) ≤ Z.min start (start + trips * s) → Z.max start (start + trips * s) ≤ high (scalarRange (i_type phi)) →
  ∀ st, runs st → ∀ w, st_values st (i_result phi) = Some w → counted start s st w.
Proof.
  intros Hi Hx Hstart Hs Hpre Hlow Hhigh st Hr. pose proof (te_phi _ _ _ _ Hx) as Hop.
  destruct (update_spec f definitions Hssa Hdefinitions Hcomplete loop latch Hloop _ _ _ _ _ Hi Hx Hs) as (Sp & _).
  assert (header_phi f loop (i_result phi)) as Hhp by (by exists k, phi).
  pose proof (latch_in f loop latch Hloop) as Hlin.
  induction Hr as [c|s0 s' Hr IH Hs0]; intros w Hw; [done|].
  destruct (phi_stable f locals frame Hssa loop _ _ _ Hs0 Hhp) as [Harr|[Heq Hnh]].
  - destruct (arrives_phi f locals frame Hssa loop latch Hloop _ _ _ _ _ Hr Harr Hi Hx) as (w' & Hw' & _ & Hcase). rewrite Hw' in Hw. injection Hw as ->.
    destruct Harr as (_ & b & n & j & ρ & c & e & t & ρ' & c' & -> & -> & Hj & Ht & Hjmp & Hte & Et & Hin). cbn in *.
    assert (∀ m, 0 ≤ m → c' number + m ≤ trips → 1 ≤ c' number → w = start + m * s → counted start s (mkState (header loop) 0 ρ' c') w) as Hdone.
    { intros m Hm1 Hm2 Hm3 ->. exists m. split; [lia|]. split; [done|]. intros _. cbn. split; [done|]. split; [done|]. intros Hc Hne.
      by apply header_no_chain in Hc. }
    destruct Hcase as [[-> Hu]|(_ & -> & Hu)].
    + destruct (update_value f locals frame definitions Hssa Hdefinitions Hcomplete loop latch Hloop _ _ _ _ _ _ _ _ _ Hi Hx Hs Hr Hj Ht) as (u & Hu' & Hv).
      rewrite Hu in Hv. injection Hv as ->. destruct (IH u Hu') as (m & Hm & -> & Hc). destruct (Hc Hlin) as (C1 & C2 & C3). cbn in C1, C2, C3.
      assert (Z.to_nat t ∈ blocks loop) as Htin.
      { rewrite Et. apply (na_body _ _ _ Hloop). constructor. }
      destruct (counted_inside _ _ _ _ _ _ _ _ m Hj Ht Hjmp Hte Hlin Htin) as (D1 & D2 & D3); [lia|done..|].
      specialize (D3 Hlatch). apply (Hdone (m + 1)); [lia..|].
      pose proof (steps_between start s (m + 1) trips ltac:(lia)) as Hbt. rewrite scalar_in_range; [lia|done|]. lia.
    + pose proof (loaded_jump _ _ _ _ _ _ _ Hr Hj Ht Hjmp Hpre) as Hc'. apply (Hdone 0); [lia..|].
      rewrite (literal_value f locals frame definitions Hssa Hdefinitions _ _ _ _ Hr Hstart Hu). lia.
  - rewrite Heq in Hw. pose proof (IH w Hw) as (m & Hm & -> & Hc).
    destruct Hs0 as [b n j ρ c Hj _ _|b n j ρ c w' Hj Ht Hp Hop' Hcm|b n j ρ c e t ρ' c' Hj Ht Hjmp Hn Hin]; cbn in *.
    + by exists m.
    + by exists m.
    + exists m. split; [done|]. split; [done|]. cbn. intros Htin. pose proof (Hnh eq_refl) as Hne.
      pose proof (jump_edge _ _ _ _ _ _ Hj Ht Hn) as Hedge.
      assert (b ∈ blocks loop) as Hbin.
      { eapply (into_body f Hssa loop latch Hloop); [exact Htin|done|done|]. apply (va_reach _ _ _ _ (runs_valid f locals frame Hssa _ Hr)). }
      destruct (Hc Hbin) as (C1 & C2 & C3).
      destruct (counted_inside _ _ _ _ _ _ _ _ m Hj Ht Hjmp Hn Hbin Htin) as (D1 & D2 & D3); [lia|done..|].
      split; [done|]. split; [done|]. intros Hct Hcne. apply D3. by eapply chain_pred.
Qed.
End Loop.

(** ** The facts about phis *)

Definition inducted (r : Refined) : Prop := ∀ v x, 0 ≤ v → r_inductions r !! Z.to_nat v = Some x → kind x = Scalar →
  scalar_value f v ∧ pow2 (al x) ∧ ∀ st w, runs st → st_values st v = Some w → models frame x w.

Lemma counted_trips_spec loop preheader latch trips : counted_trips f definitions a loop preheader latch = Some trips →
  1 ≤ trips ≤ 65535 ∧ ∃ setup_block finish_block setup finish, chain setup_block preheader ∧ chain finish_block latch ∧
    (last (code_of f setup_block) = Some setup ∧ i_opcode setup = OpHardwareLoop ∧ literal (operand_of setup 0) = Some trips) ∧
    (last (code_of f finish_block) = Some finish ∧ i_opcode finish = OpHardwareLoopEnd ∧ Z.to_nat (target_of finish 1) ∉ blocks loop) ∧
    i_loop_id setup = i_loop_id finish ∧ setup_block ∉ blocks loop.
Proof.
  unfold counted_trips, predecessorThroughEdges. intros H.
  destruct (back_through f a _ preheader) as [sb|] eqn:E1; [|done]. destruct (back_through f a _ latch) as [fb|] eqn:E2; [|done].
  apply back_through_chain in E1, E2. cbn [mbind option_bind] in H.
  destruct (last (code_of f sb)) as [setup|] eqn:E3; [|done]. destruct (last (code_of f fb)) as [finish|] eqn:E4; [|done]. cbn [mbind option_bind] in H.
  match type of H with (if ?c then _ else _) = _ => destruct c eqn:E5; [done|] end. repeat (apply orb_false_iff in E5 as [E5 ?]).
  match type of H with (if ?c then _ else _) = _ => destruct c eqn:E8; [done|] end. repeat (apply orb_false_iff in E8 as [E8 ?]).
  unfold in_blocks in *. bool_facts.
  destruct (literal (operand_of setup 0)) as [n|] eqn:E6; [|done]. cbn in H. destruct (_ || _) eqn:E7 in H; [done|]. injection H as ->. bool_facts.
  split; [lia|]. exists sb, fb, setup, finish. split_and!; try done.
Qed.

Lemma counted_bounds_sound loop latch k phi x start s l h :
  natural f loop latch → instr_at f (header loop) k = Some phi → two_edges loop latch phi x → literal (initial x) = Some start →
  stride_of definitions phi (update x) = Some s →
  counted_bounds f definitions a loop (Z.to_nat (preheader x)) latch start s (scalarRange (i_type phi)) = Some (l, h) →
  ∀ st w, runs st → st_values st (i_result phi) = Some w → ∃ n, w = start + n * s ∧ l ≤ w ≤ h.
Proof.
  intros Hloop Hi Hx Hstart Hs Hb st w Hr Hw. unfold counted_bounds in Hb.
  destruct (counted_trips _ _ _ _ _ _) as [trips|] eqn:Et; [|done]. cbn in Hb.
  apply counted_trips_spec in Et as (Htrips & sb & fb & setup & finish & Hcs & Hcf & Hsetup & Hfinish & Hids & Hout).
  destruct (_ || _) eqn:E in Hb; [done|]. bool_facts. apply within_spec in Hb as ([= -> ->] & Hl & Hh).
  destruct (counted_sound loop latch sb fb setup finish trips Hloop Hsetup Hfinish Hids Hout Htrips Hcf k phi x start s Hi Hx Hstart Hs Hcs ltac:(lia) ltac:(lia) st Hr w Hw)
    as (n & Hn & -> & _).
  exists n. split; [done|]. apply steps_between. lia.
Qed.

Lemma induction_sound loop latch guard trips k phi fact : loop ∈ loops a → single_latch a loop = Some latch →
  instr_at f (header loop) k = Some phi →
  (∀ cmp, guard = Some cmp → ∃ terminal, last (code_of f (header loop)) = Some terminal ∧ AddressLoop.guard f definitions a latch terminal cmp) →
  trips = guard ≫= guarded_trips definitions loop latch →
  induction f definitions a loop latch guard trips phi = Some fact →
  scalar_value f (i_result phi) ∧ pow2 (al fact) ∧ ∀ st w, runs st → st_values st (i_result phi) = Some w → models frame fact w.
Proof.
  intros Hl Hlat Hi Hg -> Hind. pose proof (loop_natural f a Hssa Ha _ _ Hl Hlat) as Hloop. unfold induction in Hind.
  match type of Hind with (if ?c then _ else _) = _ => destruct c eqn:E; [done|] end. repeat (apply orb_false_iff in E as [E ?]). bool_facts.
  set (x := incoming loop latch phi) in *. destruct (_ || _) eqn:E2 in Hind; [done|]. apply orb_false_iff in E2 as [Hv _]. apply negb_false_iff in Hv.
  destruct (literal (initial x)) as [start|] eqn:Estart; [|done]. cbn [mbind option_bind] in Hind.
  destruct (stride_of definitions phi (update x)) as [s|] eqn:Es; [|done]. cbn [mbind option_bind] in Hind.
  destruct (s =? 0); [done|]. destruct (match guard with Some _ => _ | None => _ end) as [[l h]|] eqn:Eb in Hind; [|done]. cbn in Hind. injection Hind as <-.
  assert (two_edges loop latch phi x) as Hx.
  { apply (incoming_spec f definitions a Hssa Hdefinitions Hcomplete Ha Hcanonical Hunsigned loop latch Hloop (header loop) k); try done. unfold stride_of in Es. destruct (definition (update x)) as [u|] eqn:Eu; [|done].
    unfold AddressProof.definition in Eu. destruct (_ && _) eqn:Ev in Eu; [|done]. by bool_facts. }
  set (A := commonAlignment (commonAlignment 65536 start) s).
  assert (pow2 A) as PA by (unfold A; auto with pow2). assert (A | start) as A1 by (apply common_divide; [auto with pow2|left; auto with pow2]).
  assert (A | s) as A2 by (apply common_self; auto with pow2).
  split. { exists (i_type phi). split; [|done]. exists (header loop), k, phi. split_and!; try done. unfold producesValue. by rewrite E. }
  split; [done|]. intros st w Hr Hw.
  assert ((∃ n, w = start + n * s ∧ l ≤ w ≤ h) ∨ l ≤ w ≤ h ∧ (A | w)) as [(n & -> & ?)|[? ?]]; [| |by split].
  2:{ split; [done|]. cbn. apply Z.divide_add_r; [done|]. by apply Z.divide_mul_r. }
  destruct guard as [cmp|]; [|left; by eapply counted_bounds_sound]. destruct (Hg cmp eq_refl) as (terminal & Hlast & Hguard).
  destruct (Z.eqb_spec (operand_of cmp 0) (i_result phi)) as [E0|].
  { right. by apply (guarded_bounds_sound f locals frame definitions a Hssa Hdefinitions Hcomplete Ha Hcanonical Hunsigned loop latch Hloop k phi x start s terminal cmp l h A
      Hi Hx Estart Es Hlast Hguard E0 Eb A1 A2 st w Hr). }
  cbn [mbind option_bind] in Eb. destruct (guarded_trips definitions loop latch cmp) as [trips|] eqn:Et; [|left; by eapply counted_bounds_sound].
  left. apply within_spec in Eb as ([= -> ->] & Hlo & Hhi).
  destruct (guarded_trips_sound f locals frame definitions a Hssa Hdefinitions Hcomplete Ha Hcanonical Hunsigned loop latch Hloop k phi x start s terminal cmp trips
    Hi Hx Estart Es Hlast Hguard Et Hlo Hhi st w Hr Hw) as (m & Hm & ->). exists m. split; [done|]. by apply steps_between.
Qed.

Lemma refine_loop_sound r loop : inducted r → constrained f locals frame r → loop ∈ loops a →
  inducted (refine_loop f definitions a r loop) ∧ constrained f locals frame (refine_loop f definitions a r loop).
Proof.
  intros Hr Hc Hl. unfold refine_loop. destruct (r_stopped r); [done|]. destruct (single_latch a loop) as [latch|] eqn:El; [|done].
  destruct (last (code_of f (header loop))) as [terminal|] eqn:Et; [|done].
  apply (foldl_inv (λ r, inducted r ∧ constrained f locals frame r)); [done|]. clear r Hr Hc. intros r phi Hphi [Hr Hc].
  unfold refine_phi. destruct (r_stopped r); [done|]. cbn. destruct (_ <? _); [done|]. destruct (induction _ _ _ _ _ _ _ _) as [fact|] eqn:Ei; [|done].
  split; [|done]. intros v x Hv. cbn. intros [(E & <- & _)|[_ Hx]]%list_lookup_insert_Some; [|by apply Hr].
  apply list_elem_of_lookup in Hphi as [k Hk].
  assert (instr_at f (header loop) k = Some phi) as Hi.
  { unfold code_of in Hk. unfold instr_at. by destruct (f_blocks f !! header loop). }
  assert (v = i_result phi) as ->. { pose proof (un_results _ Hunsigned _ _ _ Hi). lia. }
  intros _. eapply induction_sound; [exact Hl|exact El|exact Hi| |reflexivity|exact Ei].
  intros cmp Hg. exists terminal. split; [done|]. by apply (guard_of_spec f definitions a Hssa Ha loop latch).
Qed.

Theorem refine_sound values : inducted (refine f definitions a values) ∧ constrained f locals frame (refine f definitions a values).
Proof.
  unfold refine. apply (foldl_inv (λ r, inducted r ∧ constrained f locals frame r)).
  - apply (foldl_inv (λ r, inducted r ∧ constrained f locals frame r)); [|by intros r loop Hl [Hi Hc]; apply refine_loop_sound].
    split.
    + intros v x _ Hx. apply lookup_replicate in Hx as [-> _]. done.
    + intros b m v x Hm Hx. apply lookup_replicate in Hm as [-> _]. by rewrite lookup_empty in Hx.
  - intros r blk Hblk [Hi Hc]. split; [|by apply refine_block_sound].
    intros v x Hv Hx. apply Hi; [done|]. revert Hx. unfold refine_block. destruct (r_stopped r); [done|]. destruct (last _); [|done].
    destruct (negb _); [done|]. destruct (condition_of _ _) as [[[[? ?] ?] ?]|]; [|done].
    match goal with |- r_inductions ?y !! _ = _ → _ => assert (r_inductions y = r_inductions r) as ->; [|done] end.
    apply (foldl_inv (λ r', r_inductions r' = r_inductions r)); [done|]. intros r' e _ <-. unfold refine_edge. destruct (_ || _); [done|].
    destruct (condition_fact _ _ _ _); [|done]. destruct (_ <? _); [done|].
    apply (foldl_inv (λ r2, r_inductions r2 = r_inductions r')); [done|]. intros r2 ? _ <-. unfold refine_candidate.
    destruct (r_stopped r2); [done|]. destruct (_ || _); [done|]. destruct (dominates_ _ _ _ _); [|done]. unfold constrain. by destruct (_ !! _).
Qed.
End Counted.
