(* ===== verification/AddressRun.v ===== *)
(** * AddressRun: the analysis is sound

    The tables the analysis builds, its rounds and [run]: whatever it returns,
    [sound] holds of it, so that its answers hold of every execution: an access it
    proves is one [Pointer.validate] accepts, the bounds it gives contain the value,
    an offset it proves is one [Pointer.add] accepts, and an operand it calls a byte
    is one. *)

From stdpp Require Import functions.
From S2P Require Import Prelude Target Types Pointer Token IR ScalarFold Graph IRVerify IRSound.
From S2P Require Import ControlFlow FlowSound LoopSound Liveness Analysis AddressProof IRRun AddressSound AddressCond AddressLoop AddressCount.

(* ------------------------------------------------------------------ *)
(** ** Tables *)

Lemma fold_option_inv {A B} (I : list B → A → Prop) (g : A → B → option A) l : ∀ done x y, I done x →
  (∀ done x b y, b ∈ l → I done x → g x b = Some y → I (done ++ [b]) y) → fold_option g x l = Some y → I (done ++ l) y.
Proof.
  induction l as [|b l IH]; intros done x y Hx Hg; cbn [fold_option]; [intros [= <-]; by rewrite app_nil_r|].
  destruct (g x b) as [z|] eqn:E; [|done]. cbn. intros H. change (b :: l) with ([b] ++ l). rewrite app_assoc. apply (IH _ z).
  - eapply Hg; [left|done|done].
  - intros d' x' b' y' Hb'. apply Hg. by right.
  - done.
Qed.

Section Tables.
Context (f : IRFunction).
Hypothesis Hssa : ssa f.
Hypothesis Hunsigned : unsigned f.

Lemma in_block d b i : f_blocks f !! d = Some b → i ∈ b_instructions b → ∃ k, instr_at f d k = Some i.
Proof. intros Hb [k Hk]%list_elem_of_lookup. exists k. unfold instr_at. by rewrite Hb. Qed.
Lemma valid_defines d k i : instr_at f d k = Some i → value_isValid (i_result i) = true → defines f d k i.
Proof. intros Hi Hv. split; [done|]. apply (ssa_result _ Hssa _ _ _ Hi). intros E. by rewrite E in Hv. Qed.

(** The tables after the instructions [seen]. *)
Record entered (seen : list (Z * IRInstruction)) (t : Tables) : Prop := {
  en_size : length (t_definitions t) = S (Z.to_nat (f_value_count f)) ∧ length (t_blocks t) = S (Z.to_nat (f_value_count f)) ∧
    length (t_facts t) = S (Z.to_nat (f_value_count f));
  en_definitions : ∀ v i, t_definitions t !! v = Some (Some i) → ∃ d k, defines f d k i ∧ Z.to_nat (i_result i) = v;
  en_seen : ∀ b i, (b, i) ∈ seen → value_isValid (i_result i) = true →
    t_definitions t !! Z.to_nat (i_result i) = Some (Some i) ∧ t_blocks t !! Z.to_nat (i_result i) = Some b;
  en_facts : ∀ v x, t_facts t !! v = Some x → x = no_fact ∨ ∃ d k i, defines f d k i ∧ Z.to_nat (i_result i) = v ∧ x = scalarRange (i_type i)
}.

Lemma enter_definition_sound seen b t i t' d k : entered seen t → instr_at f d k = Some i → enter_definition b t i = Some t' →
  entered (seen ++ [(b, i)]) t'.
Proof.
  intros [H1 H2 H3 H4] Hi. unfold enter_definition. destruct (value_isValid (i_result i)) eqn:Ev; cbn [negb].
  2:{ intros [= <-]. split; try done. intros b' i' [Hin|[= -> ->]%list_elem_of_singleton]%elem_of_app; [by apply H3|congruence]. }
  pose proof (valid_defines _ _ _ Hi Ev) as Hd. destruct (ssa_valid _ Hssa _ _ _ Hd) as [_ Hle].
  pose proof (un_results _ Hunsigned _ _ _ Hi) as Hpos.
  destruct (default None (t_definitions t !! Z.to_nat (i_result i))) as [|] eqn:En; [done|]. intros [= <-].
  split; cbn [t_definitions t_blocks t_facts].
  - by rewrite !length_insert.
  - intros v j [(<- & [= <-] & _)|[_ Hj]]%list_lookup_insert_Some; [by exists d, k|by apply H2].
  - intros b' i' [Hin|[= -> ->]%list_elem_of_singleton]%elem_of_app Hv.
    + destruct (H3 _ _ Hin Hv) as [E1 E2]. assert (Z.to_nat (i_result i') ≠ Z.to_nat (i_result i)) as Hne.
      { intros E. rewrite <- E, E1 in En. done. }
      by rewrite !list_lookup_insert_ne by done.
    + rewrite !list_lookup_insert_eq by lia. done.
  - intros v x [(<- & <- & _)|[_ Hx]]%list_lookup_insert_Some; [right; by exists d, k, i|by apply H4].
Qed.

Definition labelled (b : IRBasicBlock) : list (Z * IRInstruction) := pair (b_id b) <$> b_instructions b.

Lemma enter_block_sound seen t b t' d : entered seen t → f_blocks f !! d = Some b → enter_block t b = Some t' →
  entered (seen ++ labelled b) t'.
Proof.
  intros Ht Hb H. unfold enter_block in H.
  apply (fold_option_inv (λ done t, entered (seen ++ (pair (b_id b) <$> done)) t) _ _ []) in H; [done|by rewrite app_nil_r|].
  intros done x i y Hi Hx Hy. destruct (in_block _ _ _ Hb Hi) as [k Hk]. rewrite fmap_app, app_assoc. by eapply enter_definition_sound.
Qed.

Lemma tables_entered t : fold_option enter_block
    (mkTables (replicate (S (Z.to_nat (f_value_count f))) None) (replicate (S (Z.to_nat (f_value_count f))) InvalidBlock)
       (replicate (S (Z.to_nat (f_value_count f))) no_fact)) (f_blocks f) = Some t → entered (f_blocks f ≫= labelled) t.
Proof.
  intros H. apply (fold_option_inv (λ done t, entered (done ≫= labelled) t) _ _ []) in H; [done| |].
  - split; cbn [t_definitions t_blocks t_facts].
    + by rewrite !length_replicate.
    + intros v i [? _]%lookup_replicate. done.
    + intros b i Hin. by apply elem_of_nil in Hin.
    + intros v x [-> _]%lookup_replicate. by left.
  - intros seen x b y Hb Hx Hy. apply list_elem_of_lookup in Hb as [d Hd]. rewrite bind_app. cbn. rewrite app_nil_r. by eapply enter_block_sound.
Qed.

Lemma labelled_elem d k i : instr_at f d k = Some i → (Z.of_nat d, i) ∈ f_blocks f ≫= labelled.
Proof.
  unfold instr_at. destruct (f_blocks f !! d) as [b|] eqn:E; [|done]. cbn. intros Hk. apply list_elem_of_bind. exists b.
  split; [|by eapply list_elem_of_lookup_2]. rewrite <- (ssa_ids _ Hssa _ _ E). apply list_elem_of_fmap_2. by eapply list_elem_of_lookup_2.
Qed.

Context (t : Tables).
Hypothesis Ht : entered (f_blocks f ≫= labelled) t.

Lemma table_definitions v i : 0 ≤ v → t_definitions t !! Z.to_nat v = Some (Some i) → ∃ d k, defines f d k i ∧ i_result i = v.
Proof.
  intros Hv Hi. destruct (en_definitions _ _ Ht _ _ Hi) as (d & k & Hd & E). exists d, k. split; [done|].
  pose proof (un_results _ Hunsigned _ _ _ (proj1 Hd)). lia.
Qed.
Lemma defines_valid d k i : defines f d k i → value_isValid (i_result i) = true ∧ 0 ≤ i_result i ≤ f_value_count f.
Proof.
  intros Hd. destruct (ssa_valid _ Hssa _ _ _ Hd). pose proof (un_results _ Hunsigned _ _ _ (proj1 Hd)).
  split; [|done]. unfold value_isValid. by apply negb_true_iff, Z.eqb_neq.
Qed.
Lemma table_complete d k i : defines f d k i → definition (t_definitions t) (i_result i) = Some i.
Proof.
  intros Hd. destruct (defines_valid _ _ _ Hd) as [Hv Hr]. destruct (en_seen _ _ Ht _ _ (labelled_elem _ _ _ (proj1 Hd)) Hv) as [E _].
  destruct (en_size _ _ Ht) as (Hl & _). unfold definition, nth_or, zlen. rewrite Hv, Hl.
  rewrite (proj2 (Z.ltb_lt _ _)), (proj2 (Z.ltb_ge _ _)) by lia. cbn. by rewrite E.
Qed.
Lemma table_block d k i s : defines f d k i → m_definition_blocks s = t_blocks t → definition_block s i = Z.of_nat d.
Proof.
  intros Hd Es. destruct (defines_valid _ _ _ Hd) as [Hv Hr]. destruct (en_seen _ _ Ht _ _ (labelled_elem _ _ _ (proj1 Hd)) Hv) as [_ E].
  destruct (en_size _ _ Ht) as (_ & Hl & _). unfold definition_block, nth_or, zlen. rewrite Es, Hv, Hl.
  rewrite (proj2 (Z.ltb_lt _ _)), (proj2 (Z.ltb_ge _ _)) by lia. cbn. by rewrite E.
Qed.
Lemma table_fact s v : m_facts s = t_facts t → get s v = no_fact ∨ ∃ ty, value_type f v ty ∧ get s v = scalarRange ty.
Proof.
  intros Es. unfold get, nth_or. rewrite Es. destruct (_ || _); [by left|]. destruct (Z.ltb_spec v 0); [by left|].
  destruct (t_facts t !! Z.to_nat v) as [x|] eqn:E; [|by left]. cbn.
  destruct (en_facts _ _ Ht _ _ E) as [->|(d & k & i & Hd & Ev & ->)]; [by left|]. right. exists (i_type i). split; [|done].
  exists d, k, i. destruct Hd as [Hi Hp]. pose proof (un_results _ Hunsigned _ _ _ Hi). split_and!; try done. lia.
Qed.
End Tables.

(* ------------------------------------------------------------------ *)
(** ** Rounds *)

(** The frame the proof assumes: even, and with room for what it holds. *)
Definition frame_ok (f : IRFunction) (frame frame_bytes : Z) (checked_frame : bool) : Prop :=
  checked_frame = true → (2 | frame) ∧ 0 < frame + (- frame_bytes + 2) ∧
  ∀ p, parameter_bytes f = Some p → frame + (FirstParameterOffset + p) ≤ 65536.

Section Rounds.
Context (f : IRFunction) (locals : list (SymbolId * Symbol)) (frame : Z) (definitions : list (option IRInstruction)).
Hypothesis Hssa : ssa f.
Hypothesis Hunsigned : unsigned f.
Hypothesis Hdefinitions : ∀ v i, 0 ≤ v → definitions !! Z.to_nat v = Some (Some i) → ∃ d k, defines f d k i ∧ i_result i = v.
Notation runs := (runs f locals frame).
Notation sound := (sound f locals frame).

Lemma get_set s r x v : 0 ≤ r → get (set_facts (<[Z.to_nat r := x]> (m_facts s)) s) v = get s v ∨
  v = r ∧ get (set_facts (<[Z.to_nat r := x]> (m_facts s)) s) v = x.
Proof.
  intros Hr. unfold get, nth_or, zlen. cbn [m_facts set_facts]. rewrite length_insert.
  destruct (_ || _) eqn:E; [by left|]. destruct (Z.ltb_spec v 0); [by left|]. bool_facts.
  destruct (decide (v = r)) as [->|Hne]; [|left; by rewrite list_lookup_insert_ne by lia].
  right. split; [done|]. by rewrite list_lookup_insert_eq by lia.
Qed.

Lemma transfer_models s d k i st w : sound s → defines f d k i → 0 ≤ i_result i → runs st → st_values st (i_result i) = Some w →
  models frame (transfer s locals definitions i) w.
Proof.
  intros Hs Hd Hpos Hr Hw. destruct (decide (i_opcode i = OpPhi)) as [Hop|Hop].
  - unfold transfer. rewrite bool_decide_false by congruence. rewrite bool_decide_true by done.
    eapply phi_sound; try done. destruct (i_operands i !! 0%nat); [rewrite get_in_al; apply Hs|apply pow2_1].
  - destruct (value_origin f locals frame _ _ _ Hr Hw) as [(b & n & j & ρ & c & Hr' & Hj & _ & Hrj & Hc)|
      (b & n & j & ρ & c & e & m & phi & q & t & _ & _ & _ & Hphi & Hopp & Hrp & _)].
    + destruct (ssa_unique _ Hssa _ _ _ _ _ _ Hj Hd Hrj) as [-> ->]. assert (j = i) as ->.
      { destruct Hj as [Hj _], Hd as [Hd _]. rewrite Hd in Hj. by injection Hj. }
      by eapply (transfer_sound f locals frame definitions Hssa Hdefinitions s d k i ρ c w).
    + destruct (ssa_unique _ Hssa _ _ _ _ _ _ (phi_defines _ _ _ _ Hphi Hopp) Hd Hrp) as [-> ->]. destruct Hd as [Hd _]. congruence.
Qed.

Lemma sound_set s d k i : sound s → defines f d k i → 0 ≤ i_result i →
  sound (set_facts (<[Z.to_nat (i_result i) := transfer s locals definitions i]> (m_facts s)) s).
Proof.
  intros Hs Hd Hpos. destruct (transfer_static f locals frame definitions Hssa Hdefinitions s i d k Hs Hd Hpos) as [Hp Hk].
  split; try apply Hs.
  - intros st v w Hr Hw. destruct (get_set s (i_result i) (transfer s locals definitions i) v Hpos) as [->|[-> ->]]; [by apply (so_models _ _ _ s Hs st)|].
    by eapply transfer_models.
  - intros v. destruct (get_set s (i_result i) (transfer s locals definitions i) v Hpos) as [->|[-> ->]]; [by apply (so_scalar _ _ _ s Hs)|done].
  - intros v. destruct (get_set s (i_result i) (transfer s locals definitions i) v Hpos) as [->|[-> ->]]; [by apply (so_pow2 _ _ _ s Hs)|done].
Qed.

(** The displacement of an address about which something is known does not wrap. *)
Definition unwrapped (s : AddressProof) : Prop := ∀ d k i ρ c a x, defines f d k i → i_opcode i = OpPointerOffset →
  nearRam (i_type i) = true → kind (get s (i_result i)) ≠ Unknown → runs (mkState d k ρ c) → ρ (operand_of i 0) = Some a → ρ (operand_of i 1) = Some x →
  0 ≤ a + offset_of i x ≤ 65535.

Lemma displaced_unwrapped s A D a x : sound s → models frame A a → among D x → kind (displaced s A D) ≠ Unknown → 0 ≤ a + x ≤ 65535.
Proof.
  intros Hs HA [Hx _] Hk. unfold displaced in Hk. destruct (_ && _) eqn:E1 in Hk; [done|]. destruct (_ || _) eqn:E2 in Hk; [done|].
  cbn [kind low high] in Hk. bool_facts. unfold models in HA. destruct (kind A); cbn in E1; try done; decides; cbn [andb negb] in Hk.
  - destruct HA as (o & -> & Ho & _). destruct (negb _ || _ || _) eqn:E3 in Hk; [done|]. bool_facts.
    destruct (so_frame _ _ _ s Hs) as (_ & HF1 & HF2); [done|]. lia.
  - destruct HA as [Ha _]. destruct (_ || _) eqn:E3 in Hk; [done|]. bool_facts. lia.
Qed.

Lemma nearRam_unscalar t : nearRam t = true → kind (scalarRange t) = Unknown.
Proof.
  unfold nearRam. intros H. bool_facts. unfold scalarRange, IRScalarFold.scalar.
  by rewrite (proj2 (Z.eqb_neq (pointer_level t) 0)) by lia.
Qed.

Lemma transfer_unwrapped s d k i ρ c a x : sound s → defines f d k i → i_opcode i = OpPointerOffset → nearRam (i_type i) = true →
  runs (mkState d k ρ c) → ρ (operand_of i 0) = Some a → ρ (operand_of i 1) = Some x → kind (transfer s locals definitions i) ≠ Unknown →
  0 ≤ a + offset_of i x ≤ 65535.
Proof.
  intros Hs Hd Hop Hn Hr Ha0 Hx Hk. unfold transfer in Hk. rewrite (so_blocks _ _ _ s Hs _ _ _ Hd), (nearRam_unscalar _ Hn) in Hk.
  rewrite Hop in Hk. rewrite (bool_decide_false (_ = OpConstant)), (bool_decide_false (_ = OpPhi)), (bool_decide_false (_ = OpAddress)),
    (bool_decide_false (_ = OpCast)), (bool_decide_true (OpPointerOffset = _)), (bool_decide_false (Unknown = _)) in Hk by done.
  cbn [andb negb] in Hk. destruct (nearRam (i_type i) && _ && _ && _ && _ && _) eqn:E in Hk; [|done]. bool_facts.
  rewrite transfer_offset_displaced in Hk. destruct (_ || _) in Hk; [done|].
  assert (∀ n a, ρ (operand_of i n) = Some a → (n < length (i_operands i))%nat →
    ∃ v, i_operands i !! n = Some v ∧ ρ v = Some a) as Hops.
  { intros n u Hu Hlt. destruct (lookup_lt_is_Some_2 _ _ Hlt) as [v Hv]. exists v. split; [done|]. unfold operand_of in Hu. by rewrite Hv in Hu. }
  unfold zlen in *. destruct (Hops 0%nat a Ha0) as (u & Eu & Hu); [lia|]. destruct (Hops 1%nat x Hx) as (v & Ev & Hv); [lia|].
  rewrite Eu, Ev in *. eapply (displaced_unwrapped s (get_in s u (Z.of_nat d))); [done| | |exact Hk].
  - by apply (get_in_models f locals frame s (mkState d k ρ c)).
  - apply offset_among; [done| |rewrite get_in_al; apply Hs]. by apply (get_in_among f locals frame s (mkState d k ρ c)).
Qed.

Definition good (s : AddressProof) : Prop := sound s ∧ unwrapped s.

Lemma good_set s d k i : good s → defines f d k i → 0 ≤ i_result i →
  good (set_facts (<[Z.to_nat (i_result i) := transfer s locals definitions i]> (m_facts s)) s).
Proof.
  intros [Hs Hu] Hd Hpos. split; [by eapply sound_set|]. intros d' k' j ρ c a x Hj Hop Hn Hk Hr Ha Hx.
  destruct (get_set s (i_result i) (transfer s locals definitions i) (i_result j) Hpos) as [E|[E1 E2]]; [rewrite E in Hk; by eapply Hu|].
  destruct (ssa_unique _ Hssa _ _ _ _ _ _ Hj Hd E1) as [-> ->]. assert (j = i) as ->.
  { destruct Hj as [Hj _], Hd as [Hd _]. rewrite Hd in Hj. by injection Hj. }
  rewrite E2 in Hk. by eapply (transfer_unwrapped s d k i).
Qed.

(** A round leaves the rest of the proof as it was. *)
Definition same_setting (s s' : AddressProof) : Prop :=
  m_frame_low s' = m_frame_low s ∧ m_frame_end s' = m_frame_end s ∧ m_checked_frame s' = m_checked_frame s ∧ m_block_count s' = m_block_count s.

Lemma round_good r i d k : good (rd_proof r) → instr_at f d k = Some i → good (rd_proof (round_instruction locals definitions r i)) ∧
  same_setting (rd_proof r) (rd_proof (round_instruction locals definitions r i)).
Proof.
  intros Hs Hi. unfold round_instruction. destruct (_ || _) eqn:E; [done|]. bool_facts. destruct (_ <? _); [done|].
  destruct (bool_decide _); [done|]. split; [|done]. cbn. eapply good_set; [done| |by eapply un_results].
  split; [done|]. apply (ssa_result _ Hssa _ _ _ Hi). intros Ev. by rewrite Ev in *.
Qed.

Lemma rounds_good n : ∀ work s, good s → good (rounds locals definitions f n work s) ∧ same_setting s (rounds locals definitions f n work s).
Proof.
  induction n as [|n IH]; intros work s Hs; cbn [rounds]; [done|].
  set (r := foldl _ _ _). assert (good (rd_proof r) ∧ same_setting s (rd_proof r)) as [Hr Hsame].
  { apply (foldl_inv (λ r, good (rd_proof r) ∧ same_setting s (rd_proof r))); [done|]. intros r' i Hi [Hr' Hs'].
    unfold all_instructions in Hi. apply list_elem_of_bind in Hi as (b & Hi & Hb). apply list_elem_of_lookup in Hb as [d Hd].
    destruct (in_block f _ _ _ Hd Hi) as [k Hk]. destruct (round_good r' i d k Hr' Hk) as [H1 H2]. split; [done|].
    destruct Hs' as (? & ? & ? & ?), H2 as (? & ? & ? & ?). unfold same_setting. split_and!; congruence. }
  destruct (_ || _); [done|]. destruct (IH (rd_work r) (rd_proof r) Hr) as [H1 H2]. split; [done|].
  destruct Hsame as (? & ? & ? & ?), H2 as (? & ? & ? & ?). unfold same_setting. split_and!; congruence.
Qed.
End Rounds.

(* ------------------------------------------------------------------ *)
(** ** The whole analysis *)

(** What the questions rely on. *)
Record proved (f : IRFunction) (locals : list (SymbolId * Symbol)) (frame : Z) (s : AddressProof) : Prop := {
  pr_good : good f locals frame s;
  pr_blocks : m_block_count s = zlen (f_blocks f)
}.

Lemma refined_sound f locals frame definitions a s : ssa f → unsigned f → canonical f → parts f a →
  (∀ v i, 0 ≤ v → definitions !! Z.to_nat v = Some (Some i) → ∃ d k, defines f d k i ∧ i_result i = v) →
  (∀ d k i, defines f d k i → definition definitions (i_result i) = Some i) →
  sound f locals frame s →
  let r := refine f definitions a (length (m_facts s)) in sound f locals frame (set_refined (r_inductions r) (r_constraints r) s).
Proof.
  intros Hssa Hun Hcan Ha Hdef Hcomp Hs r.
  destruct (refine_sound f locals frame definitions a Hssa Hdef Hcomp Ha Hcan Hun (length (m_facts s))) as [Hi Hc].
  split; try apply Hs.
  - intros st v w m c Hr Hw Hm Hv. by apply (Hc _ _ _ _ Hm Hv st).
  - intros v x Hv Hx Hk. by apply (Hi v x Hv Hx Hk).
Qed.

Lemma ok_inj {A} (x y : A) : Ok x = Ok y → x = y.
Proof. by intros [= ->]. Qed.

Lemma run_proved f locals frame frame_bytes checked_frame s : verifyFunction f = Ok tt → unsigned f → canonical f →
  frame_ok f frame frame_bytes checked_frame → run f locals frame_bytes checked_frame = Ok s →
  s = no_proof ∨ proved f locals frame s.
Proof.
  intros Hv Hun Hcan Hframe. pose proof (verified_ssa f Hv) as Hssa. unfold run. destruct (_ || _); [intros [= <-]; by left|].
  destruct (fold_option (check_block f) _ _); [|intros [= <-]; by left].
  destruct (parameter_bytes f) as [parameters|] eqn:Ep; [|intros [= <-]; by left].
  destruct (fold_option enter_block _ _) as [t|] eqn:Et; [|intros [= <-]; by left].
  apply (tables_entered f Hssa Hun) in Et. set (s0 := mkProof _ _ _ _ _ _ _ _).
  pose proof (table_definitions f Hun t Et) as Hdef. pose proof (table_complete f Hssa Hun t Et) as Hcomp.
  assert (∀ s, m_facts s = t_facts t → m_definition_blocks s = t_blocks t → m_inductions s = [] → m_constraints s = [] →
    m_checked_frame s = checked_frame → m_frame_low s = - frame_bytes + 2 → m_frame_end s = FirstParameterOffset + parameters → sound f locals frame s) as Hinit.
  { intros s1 E1 E2 E3 E4 E5 E6 E7. pose proof (table_fact f Hun t Et s1) as Hfact. split.
    - intros st v w Hr Hw. destruct (Hfact v E1) as [->|(ty & Hty & ->)]; [done|]. apply scalarRange_models. intros Hsc.
      by eapply (value_holds f locals frame Hssa st).
    - intros v Hk. destruct (Hfact v E1) as [E|(ty & Hty & E)]; rewrite E in Hk; [done|]. exists ty. split; [done|]. by apply scalarRange_kind.
    - intros v. destruct (Hfact v E1) as [->|(ty & _ & ->)]; [apply pow2_1|rewrite scalarRange_al; apply pow2_1].
    - intros st v w m c _ _ Hm. by rewrite E4 in Hm.
    - intros v x _ Hx. by rewrite E3 in Hx.
    - intros d k i Hd. by apply (table_block f Hssa Hun t Et d k i s1).
    - rewrite E5, E6, E7. intros Hck. destruct (Hframe Hck) as (H1 & H2 & H3). split; [done|]. split; [done|]. by apply H3. }
  assert (∀ s1, m_facts s1 = t_facts t → unwrapped f locals frame s1) as Hunw.
  { intros s1 E1 d k i ρ c a x Hd Hop Hn Hk. destruct (table_fact f Hun t Et s1 (i_result i) E1) as [E|(ty & Hty & E)]; rewrite E in Hk; [done|].
    rewrite <- (type_of_definition f Hssa _ _ _ _ Hd Hty), (nearRam_unscalar _ Hn) in Hk. done. }
  intros H. apply result_bind_ok in H as (s1 & H1 & H2). apply ok_inj in H2 as <-. right.
  assert (good f locals frame s1 ∧ m_block_count s1 = zlen (f_blocks f)) as [Hgood Hcount].
  { assert (sound f locals frame s0) as Hs0 by (by apply Hinit).
    destruct (refineControlFlow f (t_definitions t) s0) as [s2|e] eqn:Er.
    - injection H1 as <-. unfold refineControlFlow in Er. destruct (_ || _) in Er.
      + injection Er as <-. split; [split; [done|by apply Hunw]|done].
      + apply result_bind_ok in Er as (cfg & Ha%analyze_parts & [= <-]). split; [split; [|by apply Hunw]|done]. by apply refined_sound.
    - destruct e; try done. injection H1 as <-. split; [split; [by apply Hinit|by apply Hunw]|done]. }
  destruct (rounds_good f locals frame (t_definitions t) Hssa Hun Hdef 64 0 s1 Hgood) as [Hg (_ & _ & _ & Hbc)].
  split; [done|congruence].
Qed.
