(* ===== verification/IRExec.v ===== *)
(** * IRExec: running a function

    An interpreter of the executions [IRRun] describes, with a list of choices for
    what memory, calls and the screen deliver: [exec_runs] says that what it reaches
    is reached, so that examples can be computed. *)

From stdpp Require Import functions.
From S2P Require Import Prelude Target Types Token IR ScalarFold Graph IRVerify IRSound.
From S2P Require Import ControlFlow FlowSound LoopSound Liveness Analysis AddressProof IRRun AddressSound.

Section Exec.
Context (f : IRFunction) (locals : list (SymbolId * Symbol)) (frame : Z).

Definition producer (v : Z) : option IRInstruction :=
  List.find (λ i, producesValue i && (i_result i =? v)) (all_instructions f).

Fixpoint read_inputs (ρ : environment) (vs : list Z) : option (list IRScalarFold.Operand) :=
  match vs with
  | [] => Some []
  | v :: vs =>
      i ← producer v;
      w ← ρ v;
      rest ← read_inputs ρ vs;
      if IRScalarFold.scalar (i_type i) then Some (IRScalarFold.mkOperand (Some (i_type i)) w :: rest) else None
  end.

Definition compute_value (choice : Z) (ρ : environment) (i : IRInstruction) : option Z :=
  let any := Some (if IRScalarFold.scalar (i_type i) then convert choice (i_type i) else choice) in
  match i_opcode i with
  | OpConstant =>
      if IRScalarFold.scalar (i_type i) then Some (convert (i_immediate i) (i_type i))
      else Some (if nearRam (i_type i) then i_immediate i else choice)
  | OpAddress =>
      if negb (nearRam (i_type i)) then any
      else if String.eqb (i_operation i) "temporary" then Some (frame + i_immediate i)
      else if String.eqb (i_operation i) "member" then a ← ρ (operand_of i 0); Some (u16 (a + i_immediate i))
      else local ← find_local locals (i_symbol_id i); Some (frame + stackOffset local)
  | OpPointerOffset =>
      if negb (nearRam (i_type i)) then any
      else a ← ρ (operand_of i 0); x ← ρ (operand_of i 1);
           Some (u16 (if is_operation i "-" then a - x * i_immediate i else a + x * i_immediate i))
  | OpUnary | OpBinary | OpBitExtract | OpCast =>
      if IRScalarFold.scalar (i_type i) then inputs ← read_inputs ρ (i_operands i); IRScalarFold.evaluate i inputs else None
  | _ => any
  end.

(** The phis of [code] on the edge from [p]. *)
Definition incoming_index (p : nat) (i : IRInstruction) : option nat := fst <$> list_find (λ t, Z.to_nat t = p) (i_targets i).
Definition enter (code : list IRInstruction) (p : nat) (ρ : environment) : environment := λ v,
  match List.find (λ i, is_op (i_opcode i) OpPhi && (i_result i =? v)) code with
  | Some i => match incoming_index p i with Some j => ρ (operand_of i j) | None => None end
  | None => ρ v
  end.

Definition advance (choice : Z) (s : state) : option state :=
  i ← instr_at f (st_block s) (st_index s);
  if isTerminator i then
    '(n, counts) ←
      match i_opcode i with
      | OpCondBranch => c ← st_values s (operand_of i 0); Some ((if (c =? 0)%Z then 1 else 0)%nat, st_counts s)
      | OpHardwareLoop => c ← st_values s (operand_of i 0); Some (0%nat, <[i_loop_id i := u16 c]> (st_counts s))
      | OpHardwareLoopEnd =>
          let c := u16 (st_counts s (i_loop_id i) - 1) in
          Some ((if (c =? 0)%Z then 1 else 0)%nat, <[i_loop_id i := c]> (st_counts s))
      | _ => Some (Z.to_nat choice, st_counts s)
      end;
    t ← i_targets i !! n;
    Some (mkState (Z.to_nat t) 0 (enter (instructions_of f (Z.to_nat t)) (st_block s) (st_values s)) counts)
  else if producesValue i && negb (is_op (i_opcode i) OpPhi) then
    w ← compute_value choice (st_values s) i;
    Some (mkState (st_block s) (S (st_index s)) (<[i_result i := Some w]> (st_values s)) (st_counts s))
  else Some (mkState (st_block s) (S (st_index s)) (st_values s) (st_counts s)).

Fixpoint exec (choices : list Z) (s : state) : option state :=
  match choices with
  | [] => Some s
  | c :: choices => s ← advance c s; exec choices s
  end.
Definition start : state := mkState (entry_of f) 0 (λ _, None) (λ _, 0).

Hypothesis Hssa : ssa f.

Lemma find_some_elem {A} (P : A → bool) l x : List.find P l = Some x → x ∈ l ∧ P x = true.
Proof. intros H%List.find_some. by rewrite list_elem_of_In. Qed.

Lemma producer_type v i : producer v = Some i → value_type f v (i_type i).
Proof.
  intros [Hi H]%find_some_elem. bool_facts. unfold all_instructions in Hi. apply list_elem_of_bind in Hi as (b & Hi & Hb).
  apply list_elem_of_lookup in Hb as [d Hd], Hi as [k Hk]. exists d, k, i. split_and!; try done. unfold instr_at. by rewrite Hd.
Qed.

Lemma read_inputs_unique ρ vs inputs inputs' : read_inputs ρ vs = Some inputs →
  Forall2 (λ v o, ∃ t w, value_type f v t ∧ IRScalarFold.scalar t = true ∧ ρ v = Some w ∧ o = IRScalarFold.mkOperand (Some t) w) vs inputs' →
  inputs' = inputs.
Proof.
  intros H Hf. revert inputs H. induction Hf as [|v o vs os (t & w & Ht & _ & Hw & ->) _ IH]; intros inputs H; cbn in H; [by injection H as <-|].
  destruct (producer v) as [i|] eqn:Ei; [|done]. cbn in H. rewrite Hw in H. cbn in H. destruct (read_inputs ρ vs) as [rest|]; [|done]. cbn in H.
  destruct (IRScalarFold.scalar (i_type i)); [|done]. injection H as <-. rewrite (IH rest eq_refl).
  by rewrite (value_types_agree f Hssa v t (i_type i) Ht (producer_type _ _ Ei)).
Qed.

Lemma evaluate_holds i inputs w : IRScalarFold.scalar (i_type i) = true → IRScalarFold.evaluate i inputs = Some w → holds (i_type i) w.
Proof.
  intros Hs H. unfold IRScalarFold.evaluate in H. destruct (_ || _ || _); [done|]. destruct (IRScalarFold.convert_operands _ _); [|done]. cbn in H.
  match type of H with (?x ≫= _) = _ => destruct x; [|done] end. injection H as <-. by apply convert_holds, scalar_level.
Qed.

Lemma near_not_scalar t : nearRam t = true → IRScalarFold.scalar t = true → False.
Proof. unfold nearRam. intros Hn Hs%scalar_level. bool_facts. lia. Qed.

Lemma compute_value_computes choice ρ i w : compute_value choice ρ i = Some w → computes f locals frame ρ i w.
Proof.
  intros H. unfold computes, compute_value in *.
  assert (∀ x, Some (if IRScalarFold.scalar (i_type i) then convert x (i_type i) else x) = Some w →
    IRScalarFold.scalar (i_type i) = true → holds (i_type i) w) as Hany.
  { intros x [= <-] Hs. rewrite Hs. by apply convert_holds, scalar_level. }
  assert (IRScalarFold.scalar (i_type i) = true → (inputs ← read_inputs ρ (i_operands i); IRScalarFold.evaluate i inputs) = Some w →
    holds (i_type i) w ∧ ∀ inputs', inputs_of f ρ i inputs' → IRScalarFold.evaluate i inputs' = Some w) as Hfold.
  { intros Hs Hev. destruct (read_inputs ρ (i_operands i)) as [inputs|] eqn:Hin; [|done]. cbn in Hev. split; [by eapply evaluate_holds|].
    intros inputs' Hin'. by rewrite (read_inputs_unique _ _ _ _ Hin Hin'). }
  destruct (i_opcode i) eqn:Hop; try (split; [by apply (Hany choice)|done]).
  - destruct (IRScalarFold.scalar (i_type i)) eqn:Hs; injection H as <-.
    + split; [intros _; by apply convert_holds, scalar_level|]. split; [done|]. intros Hn. by destruct (near_not_scalar _ Hn Hs).
    + split; [done|]. split; [done|]. intros Hn. by rewrite Hn.
  - destruct (nearRam (i_type i)) eqn:Hn; cbn [negb] in H; [|split; [by apply (Hany choice)|done]].
    split; [intros Hs; by destruct (near_not_scalar _ Hn Hs)|]. intros _.
    destruct (String.eqb_spec (i_operation i) "temporary") as [E|N1].
    { injection H as <-. rewrite E. done. }
    destruct (String.eqb_spec (i_operation i) "member") as [E|N2].
    { destruct (ρ (operand_of i 0)) as [a|] eqn:Ea; [|done]. injection H as <-. split; [|by rewrite E]. intros _ a' Ha'. congruence. }
    destruct (find_local locals (i_symbol_id i)) as [l|]; [|done]. injection H as <-. split; [done|]. split; [done|]. intros _ l' [= <-]. done.
  - destruct (nearRam (i_type i)) eqn:Hn; cbn [negb] in H; [|split; [by apply (Hany choice)|done]].
    split; [intros Hs; by destruct (near_not_scalar _ Hn Hs)|]. intros _ a x Ha Hx. rewrite Ha, Hx in H. by injection H as <-.
  - destruct (IRScalarFold.scalar (i_type i)); [|done]. destruct (Hfold eq_refl H). done.
  - destruct (IRScalarFold.scalar (i_type i)); [|done]. destruct (Hfold eq_refl H). done.
  - destruct (IRScalarFold.scalar (i_type i)); [|done]. destruct (Hfold eq_refl H). done.
  - destruct (IRScalarFold.scalar (i_type i)) eqn:Hs; [|done]. destruct (Hfold eq_refl H). split; [done|]. split; [|done].
    intros Hn. by destruct (near_not_scalar _ Hn Hs).
Qed.

(** ** Steps *)

(** A block's phis have different results. *)
Lemma enter_enters b p ρ : enters f p b ρ (enter (instructions_of f b) p ρ) ∨
  ∃ k i, instr_at f b k = Some i ∧ i_opcode i = OpPhi ∧ incoming_index p i = None.
Proof.
  destruct (decide (Exists (λ i, i_opcode i = OpPhi ∧ incoming_index p i = None) (instructions_of f b))) as [He|He].
  { right. apply Exists_exists in He as (i & Hi & Hop & Hn). apply list_elem_of_lookup in Hi as [k Hk]. exists k, i. by rewrite instr_at_of. }
  left. intros v. unfold enter. destruct (List.find _ (instructions_of f b)) as [i|] eqn:Ef.
  - left. apply find_some_elem in Ef as [Hi H]. bool_facts. pose proof Hi as Hi'. apply list_elem_of_lookup in Hi as [k Hk].
    destruct (incoming_index p i) as [j|] eqn:Ej; [|destruct He; apply Exists_exists; by exists i].
    unfold incoming_index in Ej. destruct (list_find _ (i_targets i)) as [[j' t]|] eqn:El; [|done]. injection Ej as <-.
    apply list_find_Some in El as (Ht & Ep & _). exists k, i, j', t. rewrite instr_at_of. done.
  - right. split; [|done]. intros k i Hi Hop E. rewrite instr_at_of in Hi. apply list_elem_of_lookup_2, list_elem_of_In in Hi.
    pose proof (List.find_none _ _ Ef i Hi) as Hn. cbn in Hn. by rewrite Hop, E, Z.eqb_refl in Hn.
Qed.

Lemma advance_step choice s s' : runs f locals frame s → advance choice s = Some s' → step f locals frame s s'.
Proof.
  destruct s as [b k ρ c]. intros Hr. unfold advance. cbn [st_block st_index st_values st_counts].
  destruct (instr_at f b k) as [i|] eqn:Hi; [|done]. cbn [mbind option_bind]. destruct (isTerminator i) eqn:Ht.
  - intros H. destruct (match i_opcode i with OpCondBranch => _ | _ => _ end) as [[n counts]|] eqn:Ej; [|done]. cbn in H.
    destruct (i_targets i !! n) as [t|] eqn:En; [|done]. injection H as <-.
    eapply (step_jump _ _ _ _ _ i _ _ n t); try done.
    + unfold jumps. cbn [st_values st_counts]. destruct (i_opcode i); try (by injection Ej as <- <-).
      * destruct (ρ (operand_of i 0)) as [x|]; [|done]. injection Ej as <- <-. by exists x.
      * destruct (ρ (operand_of i 0)) as [x|]; [|done]. injection Ej as <- <-. by exists x.
    + destruct (enter_enters (Z.to_nat t) b ρ) as [|(q & phi & Hphi & Hop & Hn)]; [done|]. exfalso.
      pose proof (jump_edge _ _ _ _ _ _ Hi Ht En) as He. apply (ssa_phi_preds _ Hssa _ _ _ _ Hphi Hop) in He.
      apply list_elem_of_fmap in He as (t' & -> & Ht'). unfold incoming_index in Hn.
      destruct (list_find _ (i_targets phi)) eqn:El; [done|]. apply list_find_None in El. rewrite Forall_forall in El. by apply (El t').
  - destruct (producesValue i && _) eqn:Ep.
    + bool_facts. destruct (compute_value choice ρ i) as [w|] eqn:Ew; [|done]. intros [= <-]. apply step_value; try done. by eapply compute_value_computes.
    + intros [= <-]. apply (step_skip _ _ _ _ _ i); [done|done|]. apply andb_false_iff in Ep as [?|?]; [by left|right]. bool_facts. done.
Qed.

Lemma exec_runs choices s s' : runs f locals frame s → exec choices s = Some s' → runs f locals frame s'.
Proof.
  revert s. induction choices as [|x choices IH]; intros s Hr; cbn [exec]; [by intros [= <-]|].
  destruct (advance x s) as [s1|] eqn:E; [|done]. cbn. apply IH. eapply runs_step; [done|]. by eapply advance_step.
Qed.

(** What a computed execution reaches. *)
Lemma exec_reaches choices (P : state → bool) : (match exec choices start with Some s => P s | None => false end) = true →
  ∃ s, runs f locals frame s ∧ P s = true.
Proof.
  destruct (exec choices start) as [s|] eqn:E; [|done]. intros HP. exists s. split; [|done]. eapply exec_runs; [|exact E]. constructor.
Qed.
End Exec.
