(* ===== verification/AddressProps.v ===== *)
(** * AddressProps: what the back end may rely on

    The answers of [GSUAddressProof] against the run-time checks they replace: the
    four questions, for any execution of a verified function in the shape
    [AddressCond.canonical] describes. *)

From stdpp Require Import functions.
From S2P Require Import Prelude Target Types Pointer Token IR ScalarFold Graph IRVerify IRSound.
From S2P Require Import ControlFlow FlowSound LoopSound Liveness Analysis AddressProof IRRun AddressSound AddressCond AddressLoop AddressCount AddressRun IRExec.

Lemma no_proof_get v : get no_proof v = no_fact.
Proof. unfold get, nth_or. cbn. destruct (_ || _); [done|]. by destruct (v <? 0). Qed.
Lemma no_proof_get_in v b : get_in no_proof v b = no_fact.
Proof. unfold get_in. by rewrite no_proof_get. Qed.
Lemma no_proof_access v t n : provesAccess no_proof v t n ≠ Ok true.
Proof.
  unfold provesAccess. destruct (_ || _); [done|]. rewrite no_proof_get. destruct (pointeeType t); cbn; [|done]. by destruct (_ && _).
Qed.

(** A width or alignment that divides a bank. *)
Lemma divides_alignment x al w : x ∈ [1; 2; 4; 8; 16; 32; 64; 128] → pow2 al → x ≤ al → (al | w) → w mod x = 0.
Proof.
  intros Hx Hal Hle Hw. apply Z.mod_divide; [apply pow2_members in Hx; lia|].
  etransitivity; [|exact Hw]. apply pow2_divide; [|done..].
  repeat (apply elem_of_cons in Hx as [->|Hx]); [..|by apply elem_of_nil in Hx];
    [by exists 0|by exists 1|by exists 2|by exists 3|by exists 4|by exists 5|by exists 6|by exists 7].
Qed.

(** The alignment an access of [width] bytes has to have. *)
Definition access_alignment (pointee : CType) (width : Z) : Z := if width =? 1 then 1 else storageAlignment pointee.

Section Answers.
Context (f : IRFunction) (locals : list (SymbolId * Symbol)) (frame frame_bytes : Z) (checked_frame : bool) (s : AddressProof).
Hypothesis Hverified : verifyFunction f = Ok tt.
Hypothesis Hunsigned : unsigned f.
Hypothesis Hcanonical : canonical f.
Hypothesis Hframe : frame_ok f frame frame_bytes checked_frame.
Hypothesis Hrun : run f locals frame_bytes checked_frame = Ok s.
Notation runs := (runs f locals frame).

Lemma answers : s = no_proof ∨ proved f locals frame s.
Proof. by eapply run_proved. Qed.

(** An access the facts prove is valid. *)
Lemma access_valid v pointer pointee width st w : pointeeType pointer = Ok pointee →
  storageAlignment pointee ≤ 128 → pow2_or_zero (storageAlignment pointee) = true →
  provesAccess s v pointer width = Ok true → runs st → st_values st v = Some w →
  kind (get s v) ≠ Unknown ∧ nearRam pointer = true ∧ Pointer.valid w SpaceRam false width (access_alignment pointee width).
Proof.
  intros Hpt Hmax Hpow Hp Hr Hw. destruct answers as [->|[[Hs _] _]]; [by destruct (no_proof_access v pointer width)|].
  pose proof (so_models _ _ _ s Hs st v w Hr Hw) as Hm. pose proof (so_pow2 _ _ _ s Hs v) as Pa.
  unfold provesAccess in Hp. rewrite Hpt in Hp. destruct (_ || _) eqn:E in Hp; [done|]. cbn in Hp. injection Hp as Hp.
  destruct (_ && _) eqn:E1 in Hp; [done|]. bool_facts. unfold access_alignment.
  set (x := if width =? 1 then 1 else storageAlignment pointee).
  assert (x ∈ [1; 2; 4; 8; 16; 32; 64; 128] ∧ x ≤ al (get s v)) as [Hx Hxa].
  { unfold x. destruct (Z.eqb_spec width 1); [split; [left|apply pow2_pos in Pa; lia]|].
    rewrite (proj2 (Z.ltb_lt 1 width)) in E1 by lia. cbn in E1. bool_facts. split; [apply pow2_small; [lia|done]|lia]. }
  assert ((0 < w ≤ 65536 - width) ∧ (al (get s v) | w) ∧ kind (get s v) ≠ Unknown) as (Hw' & Hal & Hk).
  { unfold models in Hm. destruct (kind (get s v)) eqn:Hk; cbn in Hp; try done; decides.
    - destruct Hm as (o & -> & Ho & Ao & Hal). bool_facts. destruct (so_frame _ _ _ s Hs) as (F1 & F2 & F3); [done|].
      split; [lia|]. split; [|done]. apply Z.divide_add_r; [|done]. etransitivity; [|exact F1]. apply pow2_divide; [done|apply pow2_2|done].
    - destruct Hm as [Hm Hal]. bool_facts. split; [lia|]. by split. }
  split; [done|]. split; [done|]. pose proof (divides_alignment _ _ _ Hx Pa Hxa Hal) as Hmod.
  assert (x ≠ 0) by (intros E0; rewrite E0 in Hx; set_solver).
  split; rewrite ?(proj2 (Z.eqb_neq x 0)) by done; try lia; try done.
  - by rewrite (Z.mod_small w 65536) by lia.
  - rewrite (Z.mod_small w 65536) by lia. lia.
Qed.
End Answers.

(** C14. An access the analysis proves needs no run-time check: whatever path the
    function takes, when the address has been computed [Pointer.validate] accepts it
    for that width and the pointee's alignment.  The function is one the verifier
    accepts, in [canonical] shape, and its frame lies in the bank. *)
Theorem proves_access_sound (f : IRFunction) (locals : list (SymbolId * Symbol)) (frame frame_bytes : Z) (checked_frame : bool)
    (s : AddressProof) (v : IRValueId) (pointer pointee : CType) (width : Z) (st : state) (w : Z) :
  verifyFunction f = Ok tt → unsigned f → canonical f → frame_ok f frame frame_bytes checked_frame →
  run f locals frame_bytes checked_frame = Ok s → pointeeType pointer = Ok pointee →
  storageAlignment pointee ≤ 128 → pow2_or_zero (storageAlignment pointee) = true →
  provesAccess s v pointer width = Ok true → runs f locals frame st → st_values st v = Some w →
  Pointer.validate w SpaceRam false width (access_alignment pointee width) = Ok tt.
Proof.
  intros Hv Hu Hc Hf Hr Hp H1 H2 Hpa Hst Hw.
  destruct (access_valid f locals frame frame_bytes checked_frame s Hv Hu Hc Hf Hr v pointer pointee width st w Hp H1 H2 Hpa Hst Hw) as (_ & _ & Hval).
  apply Pointer.validate_valid; [apply Hval|done].
Qed.

(** C15. The bounds given for a value in a block contain it whenever that block runs:
    ranges of types, inductions of guarded and counted loops, conditions of branches
    and their propagation are sound together. *)
Theorem scalar_bounds_sound (f : IRFunction) (locals : list (SymbolId * Symbol)) (frame frame_bytes : Z) (checked_frame : bool)
    (s : AddressProof) (v : IRValueId) (st : state) (w l h : Z) :
  verifyFunction f = Ok tt → unsigned f → canonical f → frame_ok f frame frame_bytes checked_frame →
  run f locals frame_bytes checked_frame = Ok s → scalarBounds s v (Z.of_nat (st_block st)) = Some (l, h) →
  runs f locals frame st → st_values st v = Some w → l ≤ w ≤ h.
Proof.
  intros Hv Hu Hc Hf Hr Hb Hst Hw. unfold scalarBounds in Hb. destruct (_ || _) in Hb; [done|].
  destruct (run_proved f locals frame frame_bytes checked_frame s Hv Hu Hc Hf Hr) as [->|[[Hs _] _]]; [by rewrite no_proof_get_in in Hb|].
  destruct (_ || _) eqn:E in Hb; [done|]. injection Hb as <- <-. bool_facts.
  apply (get_in_among f locals frame s st v w Hs Hst Hw). by bool_facts.
Qed.

(** Operands of a multiplication that the analysis calls bytes are bytes when it
    is reached, so an 8 by 8 bit multiplication gives the product. *)
Theorem multiply_kind_sound (f : IRFunction) (locals : list (SymbolId * Symbol)) (frame frame_bytes : Z) (checked_frame : bool)
    (s : AddressProof) (d k : nat) (i : IRInstruction) (ρ : environment) (c : Z → Z) (a b : Z) :
  verifyFunction f = Ok tt → unsigned f → canonical f → frame_ok f frame frame_bytes checked_frame →
  run f locals frame_bytes checked_frame = Ok s → IRRun.defines f d k i → runs f locals frame (mkState d k ρ c) →
  ρ (operand_of i 0) = Some a → ρ (operand_of i 1) = Some b →
  match multiplyKind s i with
  | SignedByte => -128 ≤ a ≤ 127 ∧ -128 ≤ b ≤ 127
  | UnsignedByte => 0 ≤ a ≤ 255 ∧ 0 ≤ b ≤ 255
  | FullWord => True
  end.
Proof.
  intros Hv Hu Hc Hf Hr Hd Hst Ha Hb. unfold multiplyKind. destruct (_ || _ || _); [done|].
  destruct (run_proved f locals frame frame_bytes checked_frame s Hv Hu Hc Hf Hr) as [->|[[Hs _] _]]; [by rewrite no_proof_get_in|].
  rewrite (so_blocks _ _ _ s Hs _ _ _ Hd). destruct (_ || _) eqn:E; [done|]. bool_facts.
  pose proof (get_in_among f locals frame s (mkState d k ρ c) _ a Hs Hst Ha) as Ha'.
  pose proof (get_in_among f locals frame s (mkState d k ρ c) _ b Hs Hst Hb) as Hb'. cbn [st_block] in *.
  destruct Ha' as [Ha' _]; [done|]. destruct Hb' as [Hb' _]; [done|].
  destruct (_ && _ && _ && _) eqn:E1; [bool_facts; lia|]. clear E1. destruct (_ && _ && _ && _) eqn:E2; [bool_facts; lia|done].
Qed.

(** The near address a step gives. *)
Lemma near_add a index stride align : Pointer.valid a SpaceRam false stride align → -65535 ≤ index ≤ 65535 →
  Pointer.valid (a + index * stride) SpaceRam false stride align → Pointer.add a index stride SpaceRam false align = Ok (a + index * stride).
Proof.
  intros Ha Hi Hr. unfold Pointer.add. rewrite (proj2 (Pointer.validate_valid a _ _ _ _ ltac:(apply Ha)) Ha). cbn [mbind result_mbind result_bind].
  destruct (Pointer.v_near _ _ _ _ _ Ha eq_refl) as [Ha1 _]. pose proof (Pointer.v_range _ _ _ _ _ Ha) as [Ha0 _].
  destruct (Pointer.v_near _ _ _ _ _ Hr eq_refl) as [Hr1 _]. pose proof (Pointer.v_range _ _ _ _ _ Hr) as [Hr0 _].
  pose proof (Pointer.v_fits _ _ _ _ _ Hr) as Hfit. rewrite Z.mod_small in Hfit by lia.
  rewrite (proj2 (Z.ltb_ge index (-65535))), (proj2 (Z.ltb_ge 65535 index)) by lia. cbn.
  rewrite land_65535, (Z.mod_small a) by lia. rewrite orb_true_r.
  rewrite (proj2 (Z.ltb_ge (a + index * stride) 0)), (proj2 (Z.ltb_ge (65536 - stride) (a + index * stride))) by lia. cbn.
  assert (Z.land a 16711680 = 0) as ->.
  { change 16711680 with (Z.shiftl 255 16). apply Z.bits_inj'. intros n Hn. rewrite Z.land_spec, Z.bits_0, Z.shiftl_spec by done.
    destruct (Z.ltb_spec n 16); [rewrite (Z.testbit_neg_r 255) by lia; apply andb_false_r|].
    rewrite <- (Z.mod_small a (2 ^ 16)) by lia. by rewrite Z.mod_pow2_bits_high by lia. }
  rewrite Z.lor_0_l. cbn [throw_if mbind result_mbind result_bind].
  by rewrite (proj2 (Pointer.validate_valid (a + index * stride) SpaceRam false stride align Hr0) Hr).
Qed.

(** C16. An offset the analysis proves needs no check either: [Pointer.add] accepts
    the address, the displacement and the result, which is what the unchecked
    instruction computes. *)
Theorem proves_offset_sound (f : IRFunction) (locals : list (SymbolId * Symbol)) (frame frame_bytes : Z) (checked_frame : bool)
    (s : AddressProof) (d k : nat) (i : IRInstruction) (pointee : CType) (ρ : environment) (c : Z → Z) (a x : Z) :
  verifyFunction f = Ok tt → unsigned f → canonical f → frame_ok f frame frame_bytes checked_frame →
  run f locals frame_bytes checked_frame = Ok s → pointeeType (i_type i) = Ok pointee →
  storageAlignment pointee ≤ 128 → pow2_or_zero (storageAlignment pointee) = true → provesOffset s i = Ok true →
  IRRun.defines f d k i → runs f locals frame (mkState d k ρ c) → ρ (operand_of i 0) = Some a → ρ (operand_of i 1) = Some x →
  ∃ w, computes f locals frame ρ i w ∧
    Pointer.add a (if is_operation i "-" then - x else x) (i_immediate i) SpaceRam false (access_alignment pointee (i_immediate i)) = Ok w.
Proof.
  intros Hv Hu Hc Hf Hr Hp H1 H2 Hpo Hd Hst Ha Hx. unfold provesOffset in Hpo. destruct (_ || _) eqn:E in Hpo; [done|].
  repeat (apply orb_false_iff in E as [E ?]). bool_facts. destruct (_ && _) eqn:E1 in Hpo; [|done].
  apply result_bind_ok in Hpo as (before & Hbefore & Hpo). destruct before; [|done].
  pose proof (access_valid f locals frame frame_bytes checked_frame s Hv Hu Hc Hf Hr) as Hval.
  destruct (Hval _ _ _ _ _ _ Hp H1 H2 Hbefore Hst Ha) as (_ & Hn & Va).
  destruct (run_proved f locals frame frame_bytes checked_frame s Hv Hu Hc Hf Hr) as [->|[[Hs Hun] _]]; [by destruct (no_proof_access _ _ _ Hpo)|].
  set (w := u16 (a + offset_of i x)).
  assert (computes f locals frame ρ i w) as Hcomp.
  { split. { intros Hsc. apply scalar_level in Hsc. unfold nearRam in Hn. bool_facts. lia. }
    rewrite E. intros _ a' x' Ha' Hx'. rewrite Ha in Ha'. rewrite Hx in Hx'. injection Ha' as <-. injection Hx' as <-.
    unfold w, offset_of. f_equal. destruct (is_operation i "-"); lia. }
  exists w. split; [done|].
  assert (runs f locals frame (mkState d (S k) (<[i_result i := Some w]> ρ) c)) as Hnext.
  { eapply runs_step; [exact Hst|]. destruct Hd as [Hi Hpv]. apply step_value; [done|unfold isTerminator; by rewrite E|done|by rewrite E|done]. }
  destruct (Hval _ _ _ _ _ w Hp H1 H2 Hpo Hnext) as (Hk & _ & Vw); [cbn; by rewrite fn_lookup_insert|].
  pose proof (Hun d k i ρ c a x Hd E Hn Hk Hst Ha Hx) as Hrange.
  assert (w = a + offset_of i x) as Ew by (apply uwrap_small; cbn; lia).
  rewrite (so_blocks _ _ _ s Hs _ _ _ Hd) in E1. bool_facts.
  destruct (get_in_among f locals frame s (mkState d k ρ c) _ x Hs Hst Hx) as [Hxb _]; [done|]. cbn [st_block] in Hxb.
  replace (a + offset_of i x) with (a + (if is_operation i "-" then - x else x) * i_immediate i) in Ew by (unfold offset_of; destruct (is_operation i "-"); lia).
  rewrite Ew in Vw |- *. apply near_add; [done| |done]. destruct (is_operation i "-"); nia.
Qed.

(* ------------------------------------------------------------------ *)
(** ** What the shape is needed for *)

Definition near_word : CType := mkType BaseWord "" 2 false 1 false 0 SpaceRam [false] [SpaceRam] false false [no_quals] 0 0 "".
Definition near_element : CType := mkType BaseWord "" 2 false 0 false 0 SpaceRam [] [] false false [] 0 0 "".
Definition value_is (v x : Z) (b : nat) (st : state) : bool :=
  bool_decide (st_block st = b) && bool_decide (st_values st v = Some x).

(** A loop whose latch is also the latch of a loop around it: the inner loop counts 5,
    the outer one 4, and the inner header tests 4. *)
Definition shared_latch : IRFunction :=
  let blk n code := mkBlock n "" code in
  mkFunction "f" "f" word [] 2 false false
    [blk 0 [plain_instr OpConstant word 1 [] [] "" 0 0; plain_instr OpConstant word 2 [] [] "" 3 0; plain_instr OpConstant word 3 [] [] "" 1 0;
            plain_instr OpAddress near_word 10 [] [] "temporary" (-2) 0; plain_instr OpBranch default_type 0 [] [1] "" 0 0];
     blk 1 [plain_instr OpPhi word 4 [1; 6] [0; 3] "" 0 0; plain_instr OpBranch default_type 0 [] [2] "" 0 0];
     blk 2 [plain_instr OpPhi word 5 [1; 7] [1; 3] "" 0 0; plain_instr OpBinary boolean 8 [4; 2] [] "<" 0 0;
            plain_instr OpCondBranch default_type 0 [8] [3; 4] "" 0 0];
     blk 3 [plain_instr OpBinary word 6 [4; 3] [] "+" 0 0; plain_instr OpBinary word 7 [5; 3] [] "+" 0 0;
            plain_instr OpLoadIndirect word 9 [10] [] "" 0 0; plain_instr OpCondBranch default_type 0 [9] [2; 1] "" 0 0];
     blk 4 [plain_instr OpReturn word 0 [5] [] "" 0 0]]
    0 10 false [] [].

(** An entry block that tests what it loads, and repeats. *)
Definition entry_loop : IRFunction :=
  let blk n code := mkBlock n "" code in
  mkFunction "f" "f" word [] 2 false false
    [blk 0 [plain_instr OpAddress near_word 4 [] [] "temporary" (-2) 0; plain_instr OpLoadIndirect word 1 [4] [] "" 0 0;
            plain_instr OpConstant word 2 [] [] "" 5 0; plain_instr OpBinary boolean 3 [1; 2] [] "<" 0 0;
            plain_instr OpCondBranch default_type 0 [3] [0; 1] "" 0 0];
     blk 1 [plain_instr OpReturn word 0 [1] [] "" 0 0]]
    0 4 false [] [].

(** A branch that goes to the same block either way. *)
Definition same_target : IRFunction :=
  let blk n code := mkBlock n "" code in
  mkFunction "f" "f" word [] 2 false false
    [blk 0 [plain_instr OpAddress near_word 4 [] [] "temporary" (-2) 0; plain_instr OpLoadIndirect word 1 [4] [] "" 0 0;
            plain_instr OpConstant word 2 [] [] "" 5 0; plain_instr OpBinary boolean 3 [1; 2] [] "==" 0 0;
            plain_instr OpCondBranch default_type 0 [3] [1; 1] "" 0 0];
     blk 1 [plain_instr OpReturn word 0 [1] [] "" 0 0]]
    0 4 false [] [].

(** The bounds of [v] in block [b] of [f] are [l] and [h], and an execution reaches it
    with [x] there. *)
Definition escapes (f : IRFunction) (v x : Z) (b : nat) (l h : Z) : Prop :=
  verifyFunction f = Ok tt ∧ unsigned f ∧ (∃ s, run f [] 4 true = Ok s ∧ scalarBounds s v (Z.of_nat b) = Some (l, h)) ∧
  ∃ st, runs f [] 100 st ∧ st_block st = b ∧ st_values st v = Some x.

Lemma escapes_computed f v x b l h choices : verifyFunction f = Ok tt → unsignedb f = true →
  (match run f [] 4 true with Ok s => bool_decide (scalarBounds s v (Z.of_nat b) = Some (l, h)) | Err _ => false end) = true →
  (match exec f [] 100 choices (start f) with Some st => value_is v x b st | None => false end) = true → escapes f v x b l h.
Proof.
  intros Hv Hu Hr He. split; [done|]. split; [by apply unsigned_check|]. split.
  - destruct (run f [] 4 true) as [s|]; [|done]. exists s. split; [done|]. by bool_facts.
  - destruct (exec_reaches f [] 100 (verified_ssa f Hv) choices (value_is v x b) He) as (st & Hst & H). exists st. split; [done|].
    unfold value_is in H. by bool_facts.
Qed.

(** C17. The verifier alone is not enough for the analysis: it accepts functions with a
    latch of two loops, with an entry block that is a loop header, and with a branch
    to one block, for which the bounds the analysis gives exclude a value that occurs. *)
Theorem bounds_need_shape :
  escapes shared_latch 5 4 2 0 3 ∧ escapes entry_loop 1 9 0 (-32768) 4 ∧ escapes same_target 1 9 1 5 5.
Proof.
  split; [|split].
  - apply (escapes_computed _ _ _ _ _ _ (replicate 7 0 ++ concat (replicate 4 [0; 0; 0; 0; 0; 1; 0]))); vm_compute; reflexivity.
  - apply (escapes_computed _ _ _ _ _ _ [9; 9]); vm_compute; reflexivity.
  - apply (escapes_computed _ _ _ _ _ _ [9; 9; 9; 9; 9]); vm_compute; reflexivity.
Qed.

(* ------------------------------------------------------------------ *)
(** ** Witnesses *)

(** A loop over an array of four words in the frame: 7 is the address of element 5,
    and 8 the square of 5. *)
Definition stepping : IRFunction :=
  let blk n code := mkBlock n "" code in
  mkFunction "step" "step" word [] 10 false false
    [blk 0 [plain_instr OpConstant word 1 [] [] "" 0 0; plain_instr OpConstant word 2 [] [] "" 4 0; plain_instr OpConstant word 3 [] [] "" 1 0;
            plain_instr OpAddress near_word 4 [] [] "temporary" (-10) 0; plain_instr OpBranch default_type 0 [] [1] "" 0 0];
     blk 1 [plain_instr OpPhi word 5 [1; 9] [0; 2] "" 0 0; plain_instr OpBinary boolean 6 [5; 2] [] "<" 0 0;
            plain_instr OpCondBranch default_type 0 [6] [2; 3] "" 0 0];
     blk 2 [plain_instr OpPointerOffset near_word 7 [4; 5] [] "+" 2 0; plain_instr OpBinary word 8 [5; 5] [] "*" 0 0;
            plain_instr OpBinary word 9 [5; 3] [] "+" 0 0; plain_instr OpBranch default_type 0 [] [1] "" 0 0];
     blk 3 [plain_instr OpReturn word 0 [5] [] "" 0 0]]
    0 9 false [] [].
Example stepping_verified : verifyFunction stepping = Ok tt.
Proof. vm_compute. reflexivity. Qed.
Lemma stepping_unsigned : unsigned stepping.
Proof. apply unsigned_check. reflexivity. Qed.
Lemma stepping_canonical : canonical stepping.
Proof. apply canonical_check; [apply verified_ssa, stepping_verified|]. vm_compute. reflexivity. Qed.
Lemma stepping_frame : frame_ok stepping 100 12 true.
Proof. intros _. split; [by exists 50|]. split; [lia|]. intros p [= <-]. unfold FirstParameterOffset. lia. Qed.

(** The third time round, in the body. *)
Definition third_round (rest : list Z) : list Z := replicate 5 0 ++ concat (replicate 2 (replicate 7 0)) ++ [0; 0; 0] ++ rest.
Lemma stepping_reaches rest (P : state → bool) :
  (match exec stepping [] 100 (third_round rest) (start stepping) with Some st => P st | None => false end) = true →
  ∃ st, runs stepping [] 100 st ∧ P st = true.
Proof. apply exec_reaches, verified_ssa, stepping_verified. Qed.

(** The analysis of the sample, and its answers. *)
Definition stepping_answers (s : AddressProof) : Prop :=
  provesAccess s 7 near_word 2 = Ok true ∧ scalarBounds s 5 2 = Some (0, 3)
  ∧ provesOffset s (plain_instr OpPointerOffset near_word 7 [4; 5] [] "+" 2 0) = Ok true
  ∧ multiplyKind s (plain_instr OpBinary word 8 [5; 5] [] "*" 0 0) = SignedByte.
Lemma stepping_analyzed : ∃ s, run stepping [] 12 true = Ok s ∧ stepping_answers s.
Proof.
  assert (match run stepping [] 12 true with Ok s => stepping_answers s | Err _ => False end) as H by (vm_compute; done).
  destruct (run stepping [] 12 true) as [s|]; [by exists s|done].
Qed.

Lemma proves_access_sound_witness : Pointer.validate 94 SpaceRam false 2 2 = Ok tt.
Proof.
  destruct stepping_analyzed as (s & E & Ha & Hb3 & Ho & Hm).
  destruct (stepping_reaches [0] (value_is 7 94 2) ltac:(vm_compute; reflexivity)) as (st & Hst & H3).
  apply andb_true_iff in H3 as [_ H3%bool_decide_eq_true].
  exact (proves_access_sound stepping [] 100 12 true s 7 near_word near_element 2 st 94 stepping_verified stepping_unsigned stepping_canonical stepping_frame E
    eq_refl ltac:(vm_compute; discriminate) eq_refl Ha Hst H3).
Defined.

Lemma scalar_bounds_sound_witness : ∃ w, 0 ≤ w ≤ 3.
Proof.
  destruct stepping_analyzed as (s & E & Ha & Hb3 & Ho & Hm).
  destruct (stepping_reaches [0] (value_is 5 2 2) ltac:(vm_compute; reflexivity)) as ([b k ρ c] & Hst & H3).
  apply andb_true_iff in H3 as [Hb%bool_decide_eq_true H3%bool_decide_eq_true]. cbn in Hb, H3. subst b. exists 2.
  exact (scalar_bounds_sound stepping [] 100 12 true s 5 (mkState 2 k ρ c) 2 0 3 stepping_verified stepping_unsigned stepping_canonical stepping_frame E
    Hb3 Hst H3).
Defined.

Definition body_start (st : state) : bool := value_is 5 2 2 st && value_is 4 90 2 st && bool_decide (st_index st = 0%nat).
Lemma proves_offset_sound_witness : ∃ w, Pointer.add 90 2 2 SpaceRam false 2 = Ok w.
Proof.
  destruct stepping_analyzed as (s & E & Ha & Hb3 & Ho & Hm).
  destruct (stepping_reaches [] body_start ltac:(vm_compute; reflexivity))
    as ([b k ρ c] & Hst & H3).
  apply andb_true_iff in H3 as [H3 Hk%bool_decide_eq_true]. apply andb_true_iff in H3 as [H5 H4].
  apply andb_true_iff in H5 as [Hb%bool_decide_eq_true H5%bool_decide_eq_true]. apply andb_true_iff in H4 as [_ H4%bool_decide_eq_true].
  cbn in Hb, Hk, H4, H5. subst b k.
  destruct (proves_offset_sound stepping [] 100 12 true s 2 0 (plain_instr OpPointerOffset near_word 7 [4; 5] [] "+" 2 0) near_element ρ c 90 2 stepping_verified
    stepping_unsigned stepping_canonical stepping_frame E eq_refl ltac:(vm_compute; discriminate) eq_refl Ho
    ltac:(split; reflexivity) Hst H4 H5) as (w & _ & Hw).
  exists w. exact Hw.
Defined.
