(* ===== verification/DivModFusion.v ===== *)
(** * DivModFusion: quotient and remainder by one division

    Models [IRDivModFusion.cpp]: of two divisions of the same words, one under the
    other in the dominator tree, the first becomes a [DivMod], which keeps the other
    component, and the second reads it.  The loop over the dominator tree keeps its
    blocks to visit in a vector; here the head of the list is its back.

    [IRVerify.verify] is [IRVerifier::verify]. *)

From S2P Require Import Prelude Target Types Token IR ScalarFold Graph IRVerify ControlFlow.

(* ------------------------------------------------------------------ *)
(** ** The table of definitions *)

Definition word (t : CType) : bool :=
  bool_decide (base t = BaseWord) && (pointer_level t =? 0) && (array_size t =? 0) && (sizeInBytes t =? 2).

Record Position := mkPosition { p_block : nat; p_index : nat }.

Definition enter_position (b : IRBasicBlock) (t : list Position) (ni : nat * IRInstruction) : result (list Position) :=
  if value_isValid (i_result ni.2) then set_at t (i_result ni.2) (mkPosition (Z.to_nat (b_id b)) ni.1) else Ok t.
Definition definition_table (f : IRFunction) : result (list Position) :=
  foldM (λ t b, foldM (enter_position b) t (indexed (b_instructions b)))
    (replicate (S (Z.to_nat (f_value_count f))) (mkPosition 0 0)) (f_blocks f).

(** [function.blocks.at(p.block).instructions.at(p.index)] *)
Definition instruction_at (blocks : list IRBasicBlock) (p : Position) : result IRInstruction :=
  b ← at_ blocks (Z.of_nat (p_block p)); at_ (b_instructions b) (Z.of_nat (p_index p)).
Definition definition (definitions : list Position) (blocks : list IRBasicBlock) (id : IRValueId) : result IRInstruction :=
  p ← at_ definitions id; instruction_at blocks p.

(* ------------------------------------------------------------------ *)
(** ** Equal constants *)

Definition ConstantKey : Type := bool * string * Z.
Definition constant_key (i : IRInstruction) : ConstantKey :=
  (is_unsigned (i_type i), enum_name (i_type i), convert (i_immediate i) (i_type i)).

Definition enter_identity (definitions : list Position) (blocks : list IRBasicBlock)
    (s : gmap ConstantKey Z * list Z) (id : Z) : result (gmap ConstantKey Z * list Z) :=
  i ← definition definitions blocks id;
  if is_op (i_opcode i) OpConstant && word (i_type i) then
    let constants := match s.1 !! constant_key i with Some _ => s.1 | None => <[constant_key i := id]> s.1 end in
    identity ← set_at s.2 id (default id (constants !! constant_key i));
    Ok (constants, identity)
  else
    identity ← set_at s.2 id id;
    Ok (s.1, identity).
Definition identities (f : IRFunction) (definitions : list Position) : result (list Z) :=
  s ← foldM (enter_identity definitions (f_blocks f)) (∅, replicate (length definitions) 0)
        (Z.of_nat <$> seq 1 (Z.to_nat (f_value_count f)));
  Ok s.2.

(* ------------------------------------------------------------------ *)
(** ** Matching *)

Definition Key : Type := Z * Z * bool * string.

(** The function so far, the divisions of each key that nothing was paired with,
    the counters, and whether the work limit ended the pass. *)
Record Fusing := mkFusing {
  fu_blocks : list IRBasicBlock;
  fu_available : gmap Key (list Position);
  fu_work : Z;
  fu_pairs : Z;
  fu_stopped : bool
}.

Definition set_instruction (p : Position) (i : IRInstruction) (blocks : list IRBasicBlock) : list IRBasicBlock :=
  alter (λ b, mkBlock (b_id b) (b_label b) (<[p_index p := i]> (b_instructions b))) (p_block p) blocks.
Definition with_opcode (op : IROpcode) (operands : list IRValueId) (i : IRInstruction) : IRInstruction :=
  mkInstr op (i_type i) (i_result i) operands (i_targets i) (i_loop_target i) (i_loop_id i) (i_case_values i)
    (i_has_default_target i) (i_immediate i) (i_operation i) (i_symbol i) (i_symbol_id i) (i_memory_volatile i)
    (i_in_plot_context i) (i_is_live_range_split i) (i_initialization_values i) (i_compiler_generated_loop i) (i_source i).
Definition paired (i : IRInstruction) : IRInstruction := with_opcode OpDivMod (i_operands i) i.
Definition selected (pair : IRValueId) (i : IRInstruction) : IRInstruction := with_opcode OpDivModResult [pair] i.

Definition put (p : Position) (i : IRInstruction) (s : Fusing) : Fusing :=
  mkFusing (set_instruction p i (fu_blocks s)) (fu_available s) (fu_work s) (fu_pairs s) (fu_stopped s).
Definition count_pair (s : Fusing) : Fusing :=
  mkFusing (fu_blocks s) (fu_available s) (fu_work s) (fu_pairs s + 1) (fu_stopped s).
Definition count_work (s : Fusing) : Fusing :=
  mkFusing (fu_blocks s) (fu_available s) (fu_work s + 1) (fu_pairs s) (25000000 <? fu_work s + 1).
Definition offer (key : Key) (p : Position) (s : Fusing) : Fusing :=
  mkFusing (fu_blocks s) (<[key := default [] (fu_available s !! key) ++ [p]]> (fu_available s)) (fu_work s) (fu_pairs s)
    (fu_stopped s).

Section Fuse.
Context (cfg : IRControlFlow) (definitions : list Position) (identity : list Z).

(** The candidates, last first; whether one was taken. *)
Fixpoint match_candidate (at_ : Position) (i : IRInstruction) (candidates : list Position) (s : Fusing)
    : result (Fusing * bool) :=
  match candidates with
  | [] => Ok (s, false)
  | p :: candidates =>
      let s := count_work s in
      if fu_stopped s then Ok (s, false) else
      first ← instruction_at (fu_blocks s) p;
      if String.eqb (i_operation first) (i_operation i)
         || negb (dominates_ (reach cfg) (m_dominators cfg) (p_block p) (p_block at_))
      then match_candidate at_ i candidates s
      else if is_op (i_opcode first) OpBinary && (256 <=? fu_pairs s) then match_candidate at_ i candidates s
      else
        let s := if is_op (i_opcode first) OpBinary then count_pair (put p (paired first) s) else s in
        Ok (put at_ (selected (i_result first) i) s, true)
  end.

(** A division by zero or by a power of two, which has shorter code. *)
Definition cheap (d : IRInstruction) : bool :=
  is_op (i_opcode d) OpConstant &&
  let magnitude := Z.abs (convert (i_immediate d) (i_type d)) in
  (magnitude =? 0) || (Z.land magnitude (magnitude - 1) =? 0).

Definition matching_type (i operand : IRInstruction) : bool :=
  word (i_type operand) && Bool.eqb (is_unsigned (i_type operand)) (is_unsigned (i_type i))
  && String.eqb (enum_name (i_type operand)) (enum_name (i_type i)).

Definition is_division (i : IRInstruction) : bool :=
  is_op (i_opcode i) OpBinary && (String.eqb (i_operation i) "/" || String.eqb (i_operation i) "%")
  && word (i_type i) && (zlen (i_operands i) =? 2).

Definition key_of (i : IRInstruction) : result Key :=
  x ← at_ identity (default InvalidValue (i_operands i !! 0%nat));
  y ← at_ identity (default InvalidValue (i_operands i !! 1%nat));
  Ok (x, y, is_unsigned (i_type i), enum_name (i_type i)).

Definition fuse_instruction (b : nat) (s : Fusing) (n : nat) : result Fusing :=
  if fu_stopped s then Ok s else
  i ← instruction_at (fu_blocks s) (mkPosition b n);
  if negb (is_division i) then Ok s else
  a ← definition definitions (fu_blocks s) (default InvalidValue (i_operands i !! 0%nat));
  d ← definition definitions (fu_blocks s) (default InvalidValue (i_operands i !! 1%nat));
  if negb (matching_type i a) || negb (matching_type i d) || cheap d then Ok s else
  key ← key_of i;
  '(s, matched) ← match_candidate (mkPosition b n) i (rev (default [] (fu_available s !! key))) s;
  Ok (if (matched : bool) || fu_stopped s then s else offer key (mkPosition b n) s).

(** The dominator tree, a block before those under it. *)
Fixpoint traverse (fuel : nat) (stack : list nat) (s : Fusing) : result Fusing :=
  match stack, fuel with
  | [], _ => Ok s
  | b :: stack, S fuel =>
      if fu_stopped s then Ok s else
      body ← at_ (fu_blocks s) (Z.of_nat b);
      s ← foldM (fuse_instruction b) s (seq 0 (length (b_instructions body)));
      traverse fuel (adjacent (children cfg) b ++ stack) s
  | _ :: _, O => Err (RuntimeError "")
  end.
End Fuse.

Definition with_blocks (f : IRFunction) (blocks : list IRBasicBlock) : IRFunction :=
  mkFunction (f_name f) (f_link_name f) (f_return_type f) (f_parameters f) (f_total_local_alloc_size f) (f_is_cached f)
    (f_needs_implicit_return f) blocks (f_entry f) (f_value_count f) (f_storage_layout_valid f) (f_storage_layout f)
    (f_immutable_local_arrays f).

Definition pairs_of (f : IRFunction) : Z := zlen (List.filter (λ i, is_op (i_opcode i) OpDivMod) (f_blocks f ≫= b_instructions)).

(** One block of fuel per block: the tree holds each once. *)
Definition fuse (f : IRFunction) : result IRFunction :=
  cfg ← analyze f;
  definitions ← definition_table f;
  identity ← identities f definitions;
  s ← traverse cfg definitions identity (length (f_blocks f)) [Z.to_nat (f_entry f)]
        (mkFusing (f_blocks f) ∅ 0 (pairs_of f) false);
  Ok (with_blocks f (fu_blocks s)).

(** [IRDivModFusion::run] *)
Definition run (m : IRModule) : result IRModule :=
  verify m;;
  functions ← mapM_r fuse (m_functions m);
  let m := mkModule functions (m_target m) (m_bitmap m) in
  verify m;;
  Ok m.
