(* ===== verification/PairRun.v ===== *)
(** * PairRun: executions with quotient and remainder pairs

    The executions of [IRRun] with a place for the component a [DivMod] keeps: it
    is written when the pair is computed and read by [DivModResult], whatever has
    happened to the operands since. *)

From stdpp Require Import functions.
From S2P Require Import Prelude Target Types Token IR ScalarFold Graph IRVerify IRSound.
From S2P Require Import LoopIds ControlFlow FlowSound LoopSound Liveness Analysis AddressProof IRRun.

(* ------------------------------------------------------------------ *)
(** ** Semantics *)

(** The division of an instruction, and its other component. *)
Definition component (op : string) (i : IRInstruction) : IRInstruction :=
  plain_instr OpBinary (i_type i) (i_result i) (i_operands i) [] op 0 0.
Definition complement (op : string) : string := if String.eqb op "/" then "%" else "/".

(** The second components, by the number of the first. *)
Notation kept := (Z → option Z).

Section Steps.
Context (f : IRFunction) (locals : list (SymbolId * Symbol)) (frame : Z).

Inductive pair_step : state * kept → state * kept → Prop :=
  | pair_other s s' h i :
      instr_at f (st_block s) (st_index s) = Some i → i_opcode i ≠ OpDivMod → i_opcode i ≠ OpDivModResult →
      step f locals frame s s' → pair_step (s, h) (s', h)
  | pair_divide b k i ρ c h inputs w u :
      instr_at f b k = Some i → i_opcode i = OpDivMod → inputs_of f ρ i inputs →
      IRScalarFold.evaluate (component (i_operation i) i) inputs = Some w →
      IRScalarFold.evaluate (component (complement (i_operation i)) i) inputs = Some u →
      pair_step (mkState b k ρ c, h) (mkState b (S k) (<[i_result i := Some w]> ρ) c, <[i_result i := Some u]> h)
  | pair_select b k i ρ c h w :
      instr_at f b k = Some i → i_opcode i = OpDivModResult → h (operand_of i 0) = Some w →
      (IRScalarFold.scalar (i_type i) = true → holds (i_type i) w) →
      pair_step (mkState b k ρ c, h) (mkState b (S k) (<[i_result i := Some w]> ρ) c, h).

Inductive pair_runs : state * kept → Prop :=
  | pair_start c : pair_runs (mkState (entry_of f) 0 (λ _, None) c, λ _, None)
  | pair_next x y : pair_runs x → pair_step x y → pair_runs y.

Lemma evaluated_holds i inputs w : IRScalarFold.evaluate i inputs = Some w → holds (i_type i) w.
Proof.
  unfold IRScalarFold.evaluate. destruct (_ || _) eqn:E; [done|]. apply orb_false_iff in E as [E _].
  apply orb_false_iff in E as [E%negb_false_iff _].
  destruct (IRScalarFold.convert_operands _ _) as [values|]; [|done]. cbn.
  destruct (match i_opcode i with OpBitExtract => _ | _ => _ end) as [r|]; [|done]. cbn. intros [= <-].
  apply convert_holds. unfold IRScalarFold.scalar in E. by bool_facts.
Qed.

(** A pair is one way for [IRRun] to compute the values. *)
Lemma pair_step_step x y : pair_step x y → step f locals frame x.1 y.1.
Proof.
  destruct 1 as [s s' h i _ _ _ Hs|b k i ρ c h inputs w u Hi Ho Hin Hw _|b k i ρ c h w Hi Ho _ Hh]; cbn; [done| |].
  - assert (producesValue i = true) by (unfold producesValue; by rewrite Ho).
    apply step_value; [done| |done|by rewrite Ho|]; [unfold isTerminator; by rewrite Ho|].
    split; [|by rewrite Ho]. intros _. by apply evaluated_holds in Hw.
  - apply step_value; [done| | |by rewrite Ho|]; [unfold isTerminator; by rewrite Ho|unfold producesValue; by rewrite Ho|].
    split; [done|by rewrite Ho].
Qed.
Lemma pair_runs_runs x : pair_runs x → runs f locals frame x.1.
Proof. induction 1; [constructor|]. econstructor; [done|by apply pair_step_step]. Qed.
End Steps.

(* ------------------------------------------------------------------ *)
(** ** Operands stay as they were read *)

Section Kept.
Context (f : IRFunction) (locals : list (SymbolId * Symbol)) (frame : Z).
Hypothesis Hssa : ssa f.
Notation step := (step f locals frame).
Notation Valid := (Valid f locals frame).

Lemma precedes_step s s' d k j : step s s' → defines f d k j → precedes f d k (st_block s') (st_index s') →
  precedes f d k (st_block s) (st_index s) ∨ st_block s = d ∧ st_index s = k.
Proof.
  intros Hs Hd Hp. destruct Hs as [b n i ρ c Hi _ _|b n i ρ c w Hi _ _ _ _|b n i ρ c m t ρ' c' Hi Ht _ Hm Hin]; cbn in *.
  - destruct (precedes_succ _ _ _ _ _ Hp) as [?|[-> ->]]; auto.
  - destruct (precedes_succ _ _ _ _ _ Hp) as [?|[-> ->]]; auto.
  - left. by eapply (precedes_pred f Hssa); [| | |eapply jump_edge|].
Qed.

Lemma precedes_chain d k b n c m : reachable (cfg f) 0 d → precedes f d k b n → precedes f b n c m → precedes f d k c m.
Proof.
  intros Hr [[-> ?]|[Hne Hd]] [[-> ?]|[Hne' Hd']]; [left; split; [done|lia]|by right|by right|].
  right. split; [|by eapply dominates_trans]. intros ->. apply Hne. by eapply dominates_antisym.
Qed.

(** Where an instruction precedes, a step does not change what it has read. *)
Lemma operands_kept s s' d k j v : Valid s → step s s' → defines f d k j → i_opcode j ≠ OpPhi →
  precedes f d k (st_block s') (st_index s') → v ∈ i_operands j → st_values s' v = st_values s v.
Proof.
  intros HV Hs Hd Hop Hp Hv. pose proof (va_reach _ _ _ _ HV) as Hr. pose proof (precedes_step _ _ _ _ _ Hs Hd Hp) as Hb.
  assert (reachable (cfg f) 0 d) as Hrd by (destruct Hb as [Hb|[<- _]]; [by eapply precedes_reach|done]).
  destruct Hs as [b n i ρ c Hi _ _|b n i ρ c w Hi _ Hpv _ _|b n i ρ c m t ρ' c' Hi Ht _ Hm Hin]; cbn in *; [done| |].
  - rewrite fn_lookup_insert_ne; [done|]. intros E. subst v.
    assert (defines f b n i) as Hdi by done.
    pose proof (operand_elsewhere f Hssa _ _ _ _ _ _ Hd Hop Hrd Hdi Hv) as Hp'. destruct Hb as [Hb|[-> ->]].
    + by eapply precedes_asym.
    + destruct Hp' as [[_ ?]|[? _]]; [lia|done].
  - destruct (Hin v) as [(q & phi & jj & t' & Hphi & Hop' & Hr' & _)|[_ E]]; [|done]. subst v.
    pose proof (operand_elsewhere f Hssa _ _ _ _ _ _ Hd Hop Hrd (phi_defines f _ _ _ Hphi Hop') Hv) as Hp'.
    destruct Hp as [[_ ?]|[Hne Hdom]]; [lia|]. destruct Hp' as [[? _]|[_ Hdom']]; [congruence|].
    destruct Hne. eapply dominates_antisym; [|exact Hdom|exact Hdom']. done.
Qed.
End Kept.
