(* ===== verification/FusionSound.v ===== *)
(** * FusionSound: pairing divisions keeps every execution

    A function and its image under [DivModFusion.fuse] reach the same states: block,
    instruction, values and loop counters.  [rewriting] says what the pass may change;
    [pair_forward] and [pair_backward] are the two simulations; the rest shows that the
    pass keeps to it. *)

From stdpp Require Import functions.
From S2P Require Import Prelude Target Types Token IR ScalarFold Graph IRVerify IRSound.
From S2P Require Import LoopIds ControlFlow FlowSound LoopSound Liveness Analysis AddressProof IRRun PairRun DivModFusion.

Notation word := DivModFusion.word.

(* ------------------------------------------------------------------ *)
(** ** What the pass may change *)

(** A division of the words [x] and [y]. *)
Record division (f : IRFunction) (i : IRInstruction) (x y : IRValueId) : Prop := {
  dv_opcode : i_opcode i = OpBinary;
  dv_operation : i_operation i = "/"%string ∨ i_operation i = "%"%string;
  dv_word : word (i_type i) = true;
  dv_operands : i_operands i = [x; y];
  dv_types : ∀ v, v ∈ [x; y] → ∃ t, value_type f v t ∧ word t = true ∧ is_unsigned t = is_unsigned (i_type i)
}.

(** Two names of one value: the same, or constants with the same key. *)
Definition constant_of (f : IRFunction) (v : IRValueId) (key : ConstantKey) : Prop :=
  ∃ d k i, defines f d k i ∧ i_result i = v ∧ i_opcode i = OpConstant ∧ word (i_type i) = true ∧ constant_key i = key.
Definition same_value (f : IRFunction) (x y : IRValueId) : Prop :=
  x = y ∨ ∃ key, constant_of f x key ∧ constant_of f y key.

Section Rewriting.
Context (f : IRFunction) (g : nat → nat → option IRInstruction).
Inductive rewritten (b k : nat) (i : IRInstruction) : IRInstruction → Prop :=
  | rw_same : rewritten b k i i
  | rw_paired x y : division f i x y → rewritten b k i (paired i)
  | rw_selected x y d n j u v :
      division f i x y → instr_at f d n = Some j → division f j u v → g d n = Some (paired j) →
      i_operation j ≠ i_operation i → precedes f d n b k → is_unsigned (i_type j) = is_unsigned (i_type i) →
      same_value f u x → same_value f v y → rewritten b k i (selected (i_result j) i).
Definition rewriting : Prop := ∀ b k,
  match instr_at f b k with Some i => ∃ i', g b k = Some i' ∧ rewritten b k i i' | None => g b k = None end.
End Rewriting.

(* ------------------------------------------------------------------ *)
(** ** Divisions of words *)

Lemma word_type t : word t = true → base t = BaseWord ∧ pointer_level t = 0 ∧ array_size t = 0.
Proof. unfold DivModFusion.word. intros H. by bool_facts. Qed.
Lemma word_scalar t : word t = true → IRScalarFold.scalar t = true.
Proof. intros (Hb & Hp & Ha)%word_type. unfold IRScalarFold.scalar. by rewrite Hb, Hp, Ha. Qed.

(** The word with the low bits of [x]. *)
Definition as_word (unsigned : bool) (x : Z) : Z := if unsigned then uwrap 16 x else swrap 16 x.
Lemma convert_word t x : word t = true → convert x t = as_word (is_unsigned t) x.
Proof.
  intros (Hb & Hp & _)%word_type. rewrite convert_wrap by (rewrite ?Hb; done). unfold width, as_word. by rewrite Hb.
Qed.

Lemma evaluate_division op i tx ty a c :
  word (i_type i) = true → zlen (i_operands i) = 2 → word tx = true → word ty = true →
  is_unsigned tx = is_unsigned (i_type i) → is_unsigned ty = is_unsigned (i_type i) →
  let cw := as_word (is_unsigned (i_type i)) in
  IRScalarFold.evaluate (component op i) [IRScalarFold.mkOperand (Some tx) a; IRScalarFold.mkOperand (Some ty) c]
  = cw <$> IRScalarFold.fold_binary op (cw a) (cw c).
Proof.
  intros Hi Hn Hx Hy Ex Ey cw. unfold zlen in Hn. destruct (i_operands i) as [|x [|y [|]]] eqn:Eo; cbn in Hn; try lia.
  unfold IRScalarFold.evaluate, component, plain_instr. cbn [i_type i_operands i_opcode i_operation]. rewrite Eo.
  rewrite (word_scalar _ Hi). cbn. rewrite (word_scalar _ Hx), (word_scalar _ Hy). cbn.
  rewrite (convert_word tx), (convert_word ty), Ex, Ey by done. fold cw.
  destruct (IRScalarFold.fold_binary op (cw a) (cw c)); cbn; [|done]. by rewrite convert_word.
Qed.

Lemma evaluate_component i inputs : i_opcode i = OpBinary →
  IRScalarFold.evaluate i inputs = IRScalarFold.evaluate (component (i_operation i) i) inputs.
Proof. intros Ho. unfold IRScalarFold.evaluate, component, plain_instr. cbn. by rewrite Ho. Qed.

(** Both components exist or neither. *)
Lemma fold_complement op x y w : op = "/"%string ∨ op = "%"%string → IRScalarFold.fold_binary op x y = Some w →
  ∃ u, IRScalarFold.fold_binary (complement op) x y = Some u.
Proof. intros [-> | ->]; unfold IRScalarFold.fold_binary; cbn; destruct (y =? 0); naive_solver. Qed.
Lemma complement_other p q : p = "/"%string ∨ p = "%"%string → q = "/"%string ∨ q = "%"%string → p ≠ q → complement p = q.
Proof. intros [-> | ->] [-> | ->]; done. Qed.

(* ------------------------------------------------------------------ *)
(** ** Values in a reached state *)

Section Values.
Context (f : IRFunction) (locals : list (SymbolId * Symbol)) (frame : Z).
Hypothesis Hssa : ssa f.
Notation Valid := (Valid f locals frame).

Lemma value_type_one v t u : value_type f v t → value_type f v u → t = u.
Proof.
  intros (b & k & i & Hi & Hp & Hr & <-) (b' & k' & i' & Hi' & Hp' & Hr' & <-).
  destruct (ssa_unique _ Hssa b k i b' k' i') as [-> ->]; [by split|by split|congruence|]. congruence.
Qed.
Lemma inputs_one ρ i l l' : inputs_of f ρ i l → inputs_of f ρ i l' → l = l'.
Proof.
  unfold inputs_of. intros H. revert l'. induction H as [|v o vs os (t & w & Ht & _ & Hw & ->) _ IH]; intros l' H'; inversion H' as [|? o' ? os' (t' & w' & Ht' & _ & Hw' & ->) Hos]; subst; [done|].
  f_equal; [|by apply IH]. assert (w = w') as -> by congruence. by rewrite (value_type_one v t t').
Qed.

(** The operands of a division precede what it precedes. *)
Lemma division_operand s d n j x y v : Valid s → instr_at f d n = Some j → division f j x y → v ∈ [x; y] →
  precedes f d n (st_block s) (st_index s) ∨ st_block s = d ∧ st_index s = n →
  ∃ e m i, defines f e m i ∧ i_result i = v ∧ precedes f e m (st_block s) (st_index s).
Proof.
  intros HV Hj Hd Hv Hp. pose proof (va_reach _ _ _ _ HV) as Hr.
  assert (reachable (cfg f) 0 d) as Hrd by (destruct Hp as [Hp|[<- _]]; [by eapply precedes_reach|done]).
  destruct (ssa_use _ Hssa d n j v Hj) as (e & m & i & Hi & Hres & He); [by rewrite (dv_opcode _ _ _ _ Hd)|by rewrite (dv_operands _ _ _ _ Hd)|done|].
  exists e, m, i. split; [done|]. split; [done|]. destruct Hp as [Hp|[<- <-]]; [|done].
  eapply precedes_chain; [by eapply precedes_reach|exact He|exact Hp].
Qed.
(** The operands of a division that is being computed or has been. *)
Lemma division_inputs s d n j x y : Valid s → instr_at f d n = Some j → division f j x y →
  precedes f d n (st_block s) (st_index s) ∨ st_block s = d ∧ st_index s = n →
  ∃ tx ty a c, st_values s x = Some a ∧ st_values s y = Some c ∧
    word tx = true ∧ word ty = true ∧ is_unsigned tx = is_unsigned (i_type j) ∧ is_unsigned ty = is_unsigned (i_type j) ∧
    inputs_of f (st_values s) j [IRScalarFold.mkOperand (Some tx) a; IRScalarFold.mkOperand (Some ty) c].
Proof.
  intros HV Hj Hd Hp. assert (∀ v, v ∈ [x; y] → ∃ w, st_values s v = Some w) as Hval.
  { intros v Hv. destruct (division_operand s d n j x y v HV Hj Hd Hv Hp) as (e & m & i & Hi & <- & He).
    apply (va_defined _ _ _ _ HV e m i Hi). by left. }
  destruct (Hval x) as [a Ha]; [set_solver|]. destruct (Hval y) as [c Hc]; [set_solver|].
  destruct (dv_types _ _ _ _ Hd x) as (tx & Htx & Hwx & Hux); [set_solver|].
  destruct (dv_types _ _ _ _ Hd y) as (ty & Hty & Hwy & Huy); [set_solver|].
  exists tx, ty, a, c. split_and!; try done. unfold inputs_of. rewrite (dv_operands _ _ _ _ Hd).
  repeat constructor; [exists tx, a|exists ty, c]; (split; [done|]; split; [by apply word_scalar|done]).
Qed.

Lemma division_evaluates i x y tx ty a c op : division f i x y → word tx = true → word ty = true →
  is_unsigned tx = is_unsigned (i_type i) → is_unsigned ty = is_unsigned (i_type i) →
  let cw := as_word (is_unsigned (i_type i)) in
  IRScalarFold.evaluate (component op i) [IRScalarFold.mkOperand (Some tx) a; IRScalarFold.mkOperand (Some ty) c]
  = cw <$> IRScalarFold.fold_binary op (cw a) (cw c).
Proof. intros Hd. intros. apply evaluate_division; try done; [apply Hd|by rewrite (dv_operands _ _ _ _ Hd)]. Qed.

(** A constant that precedes has its value. *)
Lemma constant_value s v key w d n j : Valid s → constant_of f v key → defines f d n j → i_result j = v →
  precedes f d n (st_block s) (st_index s) → st_values s v = Some w → w = key.2.
Proof.
  intros HV (e & m & i & Hi & Hr & Hop & Hw & <-) Hj <- Hp Hv.
  destruct (ssa_unique _ Hssa _ _ _ _ _ _ Hi Hj Hr) as [-> ->]. destruct (va_equation _ _ _ _ HV _ _ _ Hi) as (w' & Hw' & Hc); [by rewrite Hop|done|].
  rewrite Hr in Hw'. assert (w = w') as -> by congruence. destruct Hc as [_ Hc]. rewrite Hop in Hc. by apply Hc, word_scalar.
Qed.
Lemma same_value_eq s x y a c : Valid s → same_value f x y →
  (∀ v, v ∈ [x; y] → ∃ d n j, defines f d n j ∧ i_result j = v ∧ precedes f d n (st_block s) (st_index s)) →
  st_values s x = Some a → st_values s y = Some c → a = c.
Proof.
  intros HV [->|(key & Hx & Hy)] Hp Ha Hc; [congruence|].
  destruct (Hp x) as (d & n & j & Hj & Hr & Hpx); [set_solver|]. destruct (Hp y) as (e & m & i & Hi & Hr' & Hpy); [set_solver|].
  rewrite (constant_value s x key a d n j), (constant_value s y key c e m i); done.
Qed.

End Values.

(* ------------------------------------------------------------------ *)
(** ** The simulations *)

(** Functions whose values have the same types compute the same. *)
Lemma inputs_types f f' ρ i l : (∀ v t, value_type f v t ↔ value_type f' v t) → inputs_of f ρ i l → inputs_of f' ρ i l.
Proof.
  intros Ht H. refine (Forall2_impl _ _ _ _ H _). intros v o (t & w & Hv & R). exists t, w. split; [by apply Ht|done].
Qed.
Lemma computes_types f f' locals frame ρ i w : (∀ v t, value_type f v t ↔ value_type f' v t) →
  computes f locals frame ρ i w → computes f' locals frame ρ i w.
Proof.
  intros Ht [Hh H]. assert (∀ v t, value_type f' v t ↔ value_type f v t) as Ht' by (intros; symmetry; apply Ht).
  split; [done|]. destruct (i_opcode i); try done;
    try (intros Hs inputs Hin; apply (H Hs); by eapply inputs_types).
  destruct H as [Hn Hs]. split.
  - intros Hnear t a Hv. apply (Hn Hnear). by apply Ht.
  - intros Hscalar inputs Hin. apply (Hs Hscalar). by eapply inputs_types.
Qed.

Section Simulation.
Context (f f' : IRFunction) (locals : list (SymbolId * Symbol)) (frame : Z).
Hypothesis Hssa : ssa f.
Hypothesis Hselect : ∀ b k i, instr_at f b k = Some i → i_opcode i = OpDivModResult →
  ∃ d n j, defines f d n j ∧ i_result j = operand_of i 0 ∧ i_opcode j = OpDivMod.
Hypothesis Hentry : f_entry f' = f_entry f.
Hypothesis Hrw : rewriting f (instr_at f').

(** *** What stays *)

Lemma rewritten_at b k i : instr_at f b k = Some i → ∃ i', instr_at f' b k = Some i' ∧ rewritten f (instr_at f') b k i i'.
Proof. intros Hi. pose proof (Hrw b k) as H. by rewrite Hi in H. Qed.
Lemma rewritten_from b k i' : instr_at f' b k = Some i' → ∃ i, instr_at f b k = Some i ∧ rewritten f (instr_at f') b k i i'.
Proof.
  intros Hi. pose proof (Hrw b k) as H. destruct (instr_at f b k) as [i|]; [|congruence].
  destruct H as (j & Hj & H). exists i. split; [done|]. congruence.
Qed.
Lemma rewritten_data b k i i' : rewritten f (instr_at f') b k i i' →
  i_type i' = i_type i ∧ i_result i' = i_result i ∧ producesValue i' = producesValue i ∧
  (i' = i ∨ i_opcode i = OpBinary ∧ (i_opcode i' = OpDivMod ∨ i_opcode i' = OpDivModResult)).
Proof.
  unfold producesValue. destruct 1 as [|x y H|x y d n j u v H _ _ _ _ _ _]; [| |]; cbn; rewrite ?(dv_opcode _ _ _ _ H); split_and!; auto.
Qed.
Lemma unchanged_opcode b k i i' : rewritten f (instr_at f') b k i i' → i_opcode i ≠ OpBinary → i' = i.
Proof. intros (_ & _ & _ & [->|[? _]])%rewritten_data ?; done. Qed.
Lemma unchanged_opcode' b k i i' : rewritten f (instr_at f') b k i i' → i_opcode i' ≠ OpDivMod → i_opcode i' ≠ OpDivModResult → i' = i.
Proof. intros (_ & _ & _ & [->|[_ [?|?]]])%rewritten_data ??; done. Qed.

Lemma value_type_iff v t : value_type f' v t ↔ value_type f v t.
Proof.
  split; intros (b & k & i & Hi & Hp & Hr & Ht).
  - apply rewritten_from in Hi as (j & Hj & (E1 & E2 & E3 & _)%rewritten_data). exists b, k, j. rewrite <- E1, <- E2, <- E3. done.
  - apply rewritten_at in Hi as (j & Hj & (E1 & E2 & E3 & _)%rewritten_data). exists b, k, j. rewrite E1, E2, E3. done.
Qed.
Lemma computes_iff ρ i w : computes f' locals frame ρ i w ↔ computes f locals frame ρ i w.
Proof. split; apply computes_types; intros v t; [apply value_type_iff|symmetry; apply value_type_iff]. Qed.
Lemma enters_iff p b ρ ρ' : enters f' p b ρ ρ' ↔ enters f p b ρ ρ'.
Proof.
  assert (∀ k i, i_opcode i = OpPhi → instr_at f' b k = Some i ↔ instr_at f b k = Some i) as Hphi.
  { intros k i Ho. split; intros Hi.
    - apply rewritten_from in Hi as (j & Hj & H). apply unchanged_opcode' in H; [by subst|congruence..].
    - destruct (rewritten_at _ _ _ Hi) as (j & Hj & H). apply unchanged_opcode in H; [by subst|congruence]. }
  unfold enters. split; intros H v; (destruct (H v) as [(k & i & j & t & Hi & Ho & R)|[Hno E]];
    [left; exists k, i, j, t; split; [by apply Hphi|done]|right; split; [|done]; intros k i Hi Ho; apply (Hno k i); [by apply Hphi|done]]).
Qed.

(** The same instruction steps the same way. *)
Lemma step_same b k i s' ρ c : instr_at f b k = Some i → instr_at f' b k = Some i →
  step f locals frame (mkState b k ρ c) s' ↔ step f' locals frame (mkState b k ρ c) s'.
Proof.
  intros Hi Hi'. split; inversion 1; subst.
  - assert (i0 = i) as -> by congruence. by apply (step_skip f' locals frame b k i).
  - assert (i0 = i) as -> by congruence. apply step_value; try done. by apply computes_iff.
  - assert (i0 = i) as -> by congruence. eapply step_jump; try done. by apply enters_iff.
  - assert (i0 = i) as -> by congruence. by apply (step_skip f locals frame b k i).
  - assert (i0 = i) as -> by congruence. apply step_value; try done. by apply computes_iff.
  - assert (i0 = i) as -> by congruence. eapply step_jump; try done. by apply enters_iff.
Qed.

(** *** The relation *)

(** Instruction [j] has become a pair, and what the pair keeps for it. *)
Definition new_pair (d n : nat) (j : IRInstruction) (x y : IRValueId) : Prop :=
  instr_at f d n = Some j ∧ division f j x y ∧ instr_at f' d n = Some (paired j).
Definition other_component (ρ : environment) (h : kept) (j : IRInstruction) : Prop :=
  ∃ inputs w, inputs_of f ρ j inputs ∧ IRScalarFold.evaluate (component (complement (i_operation j)) j) inputs = Some w ∧
    h (i_result j) = Some w.
Record related (s : state) (h h' : kept) : Prop := {
  re_old : ∀ d n j, instr_at f d n = Some j → i_opcode j = OpDivMod → h (i_result j) = h' (i_result j);
  re_new : ∀ d n j x y, new_pair d n j x y → precedes f d n (st_block s) (st_index s) → other_component (st_values s) h' j
}.

Lemma division_defines d n j x y : instr_at f d n = Some j → division f j x y → defines f d n j.
Proof. intros Hj Hd. split; [done|]. unfold producesValue. by rewrite (dv_opcode _ _ _ _ Hd). Qed.
Lemma divmod_defines b k i : instr_at f b k = Some i → i_opcode i = OpDivMod → defines f b k i.
Proof. intros Hi Ho. split; [done|]. unfold producesValue. by rewrite Ho. Qed.

Lemma inputs_ext (ρ ρ' : environment) i l : (∀ v, v ∈ i_operands i → ρ' v = ρ v) → inputs_of f ρ i l → inputs_of f ρ' i l.
Proof.
  unfold inputs_of. intros Hv H. revert Hv. induction H as [|v o vs os (t & w & ? & ? & ? & ?) _ IH]; intros Hv; constructor.
  - exists t, w. rewrite Hv by set_solver. done.
  - apply IH. intros v' ?. apply Hv. set_solver.
Qed.

Lemma related_next s s1 h h' h1 h1' : Valid f locals frame s → step f locals frame s s1 → related s h h' →
  (∀ d n j, instr_at f d n = Some j → i_opcode j = OpDivMod → h1 (i_result j) = h1' (i_result j)) →
  (∀ d n j x y, new_pair d n j x y → ¬ (st_block s = d ∧ st_index s = n) → h1' (i_result j) = h' (i_result j)) →
  (∀ j x y, new_pair (st_block s) (st_index s) j x y → other_component (st_values s) h1' j) →
  related s1 h1 h1'.
Proof.
  intros HV Hs Hr Hold Hother Hhere. split; [done|]. intros d n j x y Hj Hp. destruct Hj as (Hj & Hd & Hj').
  pose proof (division_defines _ _ _ _ _ Hj Hd) as Hdef. assert (i_opcode j ≠ OpPhi) as Hop by (by rewrite (dv_opcode _ _ _ _ Hd)).
  assert (other_component (st_values s) h1' j) as (inputs & w & Hin & Hw & Hh).
  { destruct (decide (st_block s = d ∧ st_index s = n)) as [[<- <-]|Hne]; [by eapply Hhere|].
    destruct (precedes_step f locals frame Hssa s s1 d n j Hs Hdef Hp) as [Hb|?]; [|done].
    destruct (re_new _ _ _ Hr d n j x y (conj Hj (conj Hd Hj')) Hb) as (inputs & w & Hin & Hw & Hh). exists inputs, w.
    split; [done|]. split; [done|]. rewrite (Hother d n j x y); done. }
  exists inputs, w. split; [|done]. revert Hin. apply inputs_ext. intros v Hv. by eapply operands_kept.
Qed.

(** A step at an instruction that is not a new pair keeps the relation. *)
Lemma related_same s s1 h h' i i' : Valid f locals frame s → step f locals frame s s1 → related s h h' →
  instr_at f (st_block s) (st_index s) = Some i → instr_at f' (st_block s) (st_index s) = Some i' → i_opcode i' ≠ OpDivMod →
  related s1 h h'.
Proof.
  intros HV Hs Hr Hi Hi' Hop. apply (related_next s s1 h h' h h'); try done; [apply Hr|].
  intros j x y (Hj & Hd & Hj'). exfalso. apply Hop. rewrite Hi' in Hj'. by injection Hj' as ->.
Qed.
(** A pair of the source writes the same on both sides. *)
Lemma related_old b k ρ c s1 h h' i u : Valid f locals frame (mkState b k ρ c) → step f locals frame (mkState b k ρ c) s1 →
  related (mkState b k ρ c) h h' → instr_at f b k = Some i → i_opcode i = OpDivMod →
  related s1 (<[i_result i := Some u]> h) (<[i_result i := Some u]> h').
Proof.
  intros HV Hs Hr Hi Hop. apply (related_next (mkState b k ρ c) s1 h h'); try done; cbn.
  - intros d n j Hj Hoj. destruct (decide (i_result j = i_result i)) as [->|Hne]; [by rewrite !fn_lookup_insert|].
    rewrite !fn_lookup_insert_ne by done. by eapply Hr.
  - intros d n j x y (Hj & Hd & _) Hne. rewrite fn_lookup_insert_ne; [done|]. intros E. apply Hne.
    destruct (ssa_unique _ Hssa _ _ _ _ _ _ (divmod_defines _ _ _ Hi Hop) (division_defines _ _ _ _ _ Hj Hd) E) as [-> ->]. done.
  - intros j x y (Hj & Hd & _). exfalso. assert (j = i) as -> by congruence. pose proof (dv_opcode _ _ _ _ Hd). congruence.
Qed.
(** A new pair. *)
Lemma related_paired b k ρ c s1 h h' i x y inputs u : Valid f locals frame (mkState b k ρ c) →
  step f locals frame (mkState b k ρ c) s1 → related (mkState b k ρ c) h h' → new_pair b k i x y → inputs_of f ρ i inputs →
  IRScalarFold.evaluate (component (complement (i_operation i)) i) inputs = Some u →
  related s1 h (<[i_result i := Some u]> h').
Proof.
  intros HV Hs Hr (Hi & Hd & Hi') Hin Hu. pose proof (division_defines _ _ _ _ _ Hi Hd) as Hdef.
  apply (related_next (mkState b k ρ c) s1 h h'); try done; cbn.
  - intros d n j Hj Hoj. rewrite fn_lookup_insert_ne; [by eapply Hr|]. intros E.
    destruct (ssa_unique _ Hssa _ _ _ _ _ _ Hdef (divmod_defines _ _ _ Hj Hoj) E) as [-> ->].
    pose proof (dv_opcode _ _ _ _ Hd). congruence.
  - intros d n j x' y' (Hj & Hdj & _) Hne. rewrite fn_lookup_insert_ne; [done|]. intros E. apply Hne.
    by destruct (ssa_unique _ Hssa _ _ _ _ _ _ Hdef (division_defines _ _ _ _ _ Hj Hdj) E) as [-> ->].
  - intros j x' y' (Hj & _ & _). assert (j = i) as -> by congruence. exists inputs, u. by rewrite fn_lookup_insert.
Qed.

(** *** One step *)

(** What a second division computes is what the pair kept. *)
Lemma selected_value s h h' i x y d n j u v : Valid f locals frame s → related s h h' →
  instr_at f (st_block s) (st_index s) = Some i → division f i x y → new_pair d n j u v → i_operation j ≠ i_operation i →
  precedes f d n (st_block s) (st_index s) → is_unsigned (i_type j) = is_unsigned (i_type i) → same_value f u x → same_value f v y →
  ∃ inputs w, inputs_of f (st_values s) i inputs ∧ IRScalarFold.evaluate i inputs = Some w ∧ h' (i_result j) = Some w.
Proof.
  intros HV Hr Hi Hd Hj Hop Hp Hu Hx Hy. pose proof (re_new _ _ _ Hr d n j u v Hj Hp) as (inputs & w & Hin & Hw & Hh).
  destruct Hj as (Hj & Hdj & _).
  destruct (division_inputs f locals frame Hssa s _ _ i x y HV Hi Hd (or_intror (conj eq_refl eq_refl))) as (tx & ty & a & c & Ha & Hc & Wx & Wy & Ux & Uy & Hii).
  destruct (division_inputs f locals frame Hssa s d n j u v HV Hj Hdj (or_introl Hp)) as (tu & tv & a' & c' & Ha' & Hc' & Wu & Wv & Uu & Uv & Hij).
  assert (a' = a) as ->.
  { eapply (same_value_eq f locals frame Hssa s u x); try done. intros z Hz. apply elem_of_cons in Hz as [->|Hz].
    - eapply (division_operand f locals frame Hssa s d n j u v u); eauto; set_solver.
    - assert (z = x) as -> by set_solver. eapply (division_operand f locals frame Hssa s _ _ i x y x); eauto; set_solver. }
  assert (c' = c) as ->.
  { eapply (same_value_eq f locals frame Hssa s v y); try done. intros z Hz. apply elem_of_cons in Hz as [->|Hz].
    - eapply (division_operand f locals frame Hssa s d n j u v v); eauto; set_solver.
    - assert (z = y) as -> by set_solver. eapply (division_operand f locals frame Hssa s _ _ i x y y); eauto; set_solver. }
  eexists _, w. split; [exact Hii|]. split; [|done]. rewrite evaluate_component by apply Hd.
  rewrite (inputs_one f Hssa _ _ _ _ Hin Hij) in Hw.
  rewrite (division_evaluates f j u v) in Hw by done. rewrite (division_evaluates f i x y) by done.
  rewrite (complement_other _ (i_operation i) (dv_operation _ _ _ _ Hdj) (dv_operation _ _ _ _ Hd)) in Hw by done.
  by rewrite Hu in Hw.
Qed.

Lemma division_computes ρ i x y inputs w : division f i x y → inputs_of f ρ i inputs → IRScalarFold.evaluate i inputs = Some w →
  computes f locals frame ρ i w.
Proof.
  intros Hd Hin Hw. split; [intros _; by apply evaluated_holds in Hw|]. rewrite (dv_opcode _ _ _ _ Hd). intros _ inputs' Hin'.
  by rewrite (inputs_one f Hssa _ _ _ _ Hin' Hin).
Qed.
Lemma division_steps b k ρ c i x y w : instr_at f b k = Some i → division f i x y → computes f locals frame ρ i w →
  step f locals frame (mkState b k ρ c) (mkState b (S k) (<[i_result i := Some w]> ρ) c).
Proof.
  intros Hi Hd Hc. pose proof (dv_opcode _ _ _ _ Hd) as Ho.
  apply step_value; try done; [unfold isTerminator; by rewrite Ho|by eapply division_defines|by rewrite Ho].
Qed.

Lemma division_step b k ρ c i x y s1 : instr_at f b k = Some i → division f i x y → step f locals frame (mkState b k ρ c) s1 →
  ∃ w, computes f locals frame ρ i w ∧ s1 = mkState b (S k) (<[i_result i := Some w]> ρ) c.
Proof.
  intros Hi Hd Hs. pose proof (dv_opcode _ _ _ _ Hd) as Ho.
  assert (isTerminator i = false) as Hti by (unfold isTerminator; by rewrite Ho).
  assert (producesValue i = true) as Hpv by (by eapply division_defines).
  inversion Hs as [? ? j ? ? Hj _ Hp|? ? j ? ? w Hj Ht Hp Hop Hc|? ? j ? ? n t ρ' c' Hj Ht]; subst; assert (j = i) as -> by congruence.
  - destruct Hp; congruence.
  - by exists w.
  - congruence.
Qed.

Lemma pair_forward s h h' s1 h1 : Valid f locals frame s → related s h h' → pair_step f locals frame (s, h) (s1, h1) →
  ∃ h1', pair_step f' locals frame (s, h') (s1, h1') ∧ related s1 h1 h1'.
Proof.
  intros HV Hr Hs. pose proof (pair_step_step f locals frame _ _ Hs) as Hst. cbn in Hst.
  inversion Hs as [s' s1' h0 i Hi Hd Hsel Hstep|b k i ρ c h0 inputs w u Hi Ho Hin Hw Hu|b k i ρ c h0 w Hi Ho Hh Hty]; subst.
  - destruct s as [b k ρ c]. cbn in Hi. destruct (rewritten_at _ _ _ Hi) as (i' & Hi' & R). destruct R as [|x y Hdi|x y d n j u v Hdi Hj Hdj Hgj Hop Hp Hus Hx Hy].
    + exists h'. split.
      * eapply pair_other; [exact Hi'|done..|]. by eapply step_same.
      * by eapply related_same.
    + destruct (division_step _ _ _ _ _ _ _ _ Hi Hdi Hstep) as (w & Hc & ->).
      destruct (division_inputs f locals frame Hssa _ _ _ i x y HV Hi Hdi (or_intror (conj eq_refl eq_refl))) as (tx & ty & a & e & Ha & He & Wx & Wy & Ux & Uy & Hin).
      cbn in Hin. destruct Hc as [_ Hc]. rewrite (dv_opcode _ _ _ _ Hdi) in Hc.
      pose proof (Hc (word_scalar _ (dv_word _ _ _ _ Hdi)) _ Hin) as Hw. rewrite evaluate_component in Hw by apply Hdi.
      pose proof Hw as Hw'. rewrite (division_evaluates f i x y) in Hw' by done. apply fmap_Some in Hw' as (r & Hr' & _).
      destruct (fold_complement _ _ _ _ (dv_operation _ _ _ _ Hdi) Hr') as (q & Hq).
      eexists. split.
      * eapply (pair_divide f' locals frame b k (paired i) ρ c h'); [exact Hi'|done|eapply inputs_types; [|exact Hin]; symmetry; apply value_type_iff|exact Hw|].
        cbn. change (component ?o (paired i)) with (component o i). rewrite (division_evaluates f i x y) by done. by rewrite Hq.
      * apply (related_paired b k ρ c _ _ _ i x y _ _ HV Hst Hr (conj Hi (conj Hdi Hi')) Hin).
        rewrite (division_evaluates f i x y) by done. by rewrite Hq.
    + destruct (division_step _ _ _ _ _ _ _ _ Hi Hdi Hstep) as (w & Hc & ->).
      destruct (selected_value _ _ _ i x y d n j u v HV Hr Hi Hdi (conj Hj (conj Hdj Hgj)) Hop Hp Hus Hx Hy) as (inputs & w' & Hin & Hw & Hh).
      destruct Hc as [Hhold Hc]. rewrite (dv_opcode _ _ _ _ Hdi) in Hc. cbn in Hin.
      assert (w' = w) as -> by (specialize (Hc (word_scalar _ (dv_word _ _ _ _ Hdi)) _ Hin); congruence).
      exists h'. split.
      * by apply (pair_select f' locals frame b k (selected (i_result j) i)).
      * by eapply related_same.
  - destruct (rewritten_at _ _ _ Hi) as (i' & Hi' & R). apply unchanged_opcode in R as ->; [|congruence].
    eexists. split; [|by eapply related_old].
    eapply pair_divide; [exact Hi'|done| |done..]. eapply inputs_types; [|exact Hin]. symmetry. apply value_type_iff.
  - destruct (rewritten_at _ _ _ Hi) as (i' & Hi' & R). apply unchanged_opcode in R as ->; [|congruence].
    exists h'. split; [|by eapply related_same; try done; rewrite Ho].
    apply pair_select; try done. destruct (Hselect _ _ _ Hi Ho) as (d & n & j & Hj & E & Hoj).
    rewrite <- E, <- (re_old _ _ _ Hr d n j), E; [done|apply Hj|done].
Qed.

Lemma pair_backward s h h' s1 h1' : Valid f locals frame s → related s h h' → pair_step f' locals frame (s, h') (s1, h1') →
  ∃ h1, pair_step f locals frame (s, h) (s1, h1) ∧ related s1 h1 h1'.
Proof.
  intros HV Hr Hs.
  inversion Hs as [s' s1' h0 i' Hi' Hd Hsel Hstep|b k i' ρ c h0 inputs w u Hi' Ho Hin Hw Hu|b k i' ρ c h0 w Hi' Ho Hh Hty]; subst.
  - destruct s as [b k ρ c]. cbn in Hi'. destruct (rewritten_from _ _ _ Hi') as (i & Hi & R). apply unchanged_opcode' in R as ->; [|done..].
    assert (step f locals frame (mkState b k ρ c) s1) as Hst by (by eapply step_same).
    exists h. split; [by eapply pair_other|by eapply related_same].
  - destruct (rewritten_from _ _ _ Hi') as (i & Hi & R). apply inputs_types with (f' := f) in Hin; [|apply value_type_iff].
    destruct R as [|x y Hdi|x y d n j u' v Hdi]; [| |done].
    + assert (pair_step f locals frame (mkState b k ρ c, h) (mkState b (S k) (<[i_result i := Some w]> ρ) c, <[i_result i := Some u]> h)) as Hst
        by (by eapply pair_divide).
      eexists. split; [exact Hst|]. apply pair_step_step in Hst. by eapply related_old.
    + change (component ?o (paired i)) with (component o i) in Hw, Hu. cbn [paired with_opcode i_operation i_result] in Hw, Hu, Hs |- *.
      change (inputs_of f ρ i inputs) in Hin. rewrite <- (evaluate_component i) in Hw by apply Hdi.
      pose proof (division_steps _ _ _ c _ _ _ _ Hi Hdi (division_computes _ _ _ _ _ _ Hdi Hin Hw)) as Hst.
      exists h. split; [|by eapply (related_paired b k ρ c _ _ _ i x y _ _ HV Hst Hr (conj Hi (conj Hdi Hi')) Hin)].
      eapply pair_other; [exact Hi|by rewrite (dv_opcode _ _ _ _ Hdi)..|exact Hst].
  - destruct (rewritten_from _ _ _ Hi') as (i & Hi & R).
    destruct R as [|x y Hdi|x y d n j u v Hdi Hj Hdj Hgj Hop Hp Hus Hx Hy]; [|done|].
    + destruct (Hselect _ _ _ Hi Ho) as (d & n & j & Hj & E & Hoj).
      assert (pair_step f locals frame (mkState b k ρ c, h) (mkState b (S k) (<[i_result i := Some w]> ρ) c, h)) as Hst.
      { apply pair_select; try done. rewrite <- E, (re_old _ _ _ Hr d n j), E; [done|apply Hj|done]. }
      exists h. split; [exact Hst|]. apply pair_step_step in Hst. eapply related_same; [done..|exact Hi|exact Hi'|by rewrite Ho].
    + destruct (selected_value _ _ _ i x y d n j u v HV Hr Hi Hdi (conj Hj (conj Hdj Hgj)) Hop Hp Hus Hx Hy) as (inputs & w' & Hin & Hw & Hh').
      assert (w' = w) as -> by (cbn in Hh; unfold operand_of in Hh; cbn in Hh; congruence).
      pose proof (division_steps _ _ _ c _ _ _ _ Hi Hdi (division_computes _ _ _ _ _ _ Hdi Hin Hw)) as Hst.
      exists h. split; [|by eapply related_same].
      eapply pair_other; [exact Hi|by rewrite (dv_opcode _ _ _ _ Hdi)..|exact Hst].
Qed.

Lemma related_start c : related (mkState (entry_of f) 0 (λ _, None) c) (λ _, None) (λ _, None).
Proof.
  split; [done|]. cbn. rewrite (ssa_entry _ Hssa). intros d n j x y _ [[_ ?]|[Hne Hdom]]; [lia|].
  assert (d ∈ [0%nat]) by (apply Hdom; constructor). set_solver.
Qed.

(** The same states are reached. *)
Lemma forward_runs x : pair_runs f locals frame x → ∃ h', pair_runs f' locals frame (x.1, h') ∧ related x.1 x.2 h'.
Proof.
  induction 1 as [c|[s h] [s1 h1] Hx (h' & Hr & Hrel) Hs].
  - exists (λ _, None). split; [|apply related_start]. cbn. unfold entry_of. rewrite <- Hentry. apply pair_start.
  - pose proof (runs_valid f locals frame Hssa _ (pair_runs_runs _ _ _ _ Hx)) as HV.
    destruct (pair_forward _ _ _ _ _ HV Hrel Hs) as (h1' & Hs' & Hrel'). exists h1'. split; [|done]. by eapply pair_next.
Qed.
Lemma backward_runs x : pair_runs f' locals frame x → ∃ h, pair_runs f locals frame (x.1, h) ∧ related x.1 h x.2.
Proof.
  induction 1 as [c|[s h'] [s1 h1'] Hx (h & Hr & Hrel) Hs].
  - exists (λ _, None). cbn. unfold entry_of. rewrite Hentry. split; [apply (pair_start f)|apply related_start].
  - pose proof (runs_valid f locals frame Hssa _ (pair_runs_runs _ _ _ _ Hr)) as HV.
    destruct (pair_backward _ _ _ _ _ HV Hrel Hs) as (h1 & Hs' & Hrel'). exists h1. split; [|done]. by eapply pair_next.
Qed.
End Simulation.
