(* ===== verification/FusionPass.v ===== *)
(** * FusionPass: what the pass pairing divisions does

    [DivModFusion.fuse] changes a function only as [FusionSound.rewriting] allows: its
    table of definitions and its numbering of constants are right, candidates precede
    the instruction that takes them, and the walk of the dominator tree meets every
    block once, within its fuel. *)

From stdpp Require Import functions.
From S2P Require Import Prelude Target Types Token IR ScalarFold Graph IRVerify IRSound.
From S2P Require Import LoopIds ControlFlow FlowSound LoopSound Liveness Analysis AddressProof IRRun PairRun DivModFusion FusionSound.

(* ------------------------------------------------------------------ *)
(** ** The table of definitions *)

Section Table.
Context (f : IRFunction).
Hypothesis Hssa : ssa f.

(** The definitions before instruction [k] of block [b] are in the table. *)
Definition entered (b k : nat) (t : list Position) : Prop :=
  ∀ d n i, d = b ∧ (n < k)%nat ∨ (d < b)%nat → instr_at f d n = Some i → value_isValid (i_result i) = true →
    0 ≤ i_result i ∧ t !! Z.to_nat (i_result i) = Some (mkPosition d n).

Lemma result_defines d n i : instr_at f d n = Some i → value_isValid (i_result i) = true → defines f d n i.
Proof.
  intros Hi Hv. split; [done|]. eapply (ssa_result _ Hssa); [done|]. unfold value_isValid in Hv. by bool_facts.
Qed.

Lemma enter_position_entered b k blk i t t' : f_blocks f !! b = Some blk → b_instructions blk !! k = Some i →
  entered b k t → enter_position blk t (k, i) = Ok t' → entered b (S k) t'.
Proof.
  intros Hb Hi Ht H d n j Hdn Hj Hv. assert (instr_at f b k = Some i) as Hbk by (unfold instr_at; by rewrite Hb).
  unfold enter_position in H. cbn in H. destruct (decide (d = b ∧ n = k)) as [[-> ->]|Hne].
  - assert (j = i) as -> by congruence. rewrite Hv in H. apply set_at_ok in H as [Hr ->]. split; [lia|].
    rewrite (ssa_ids _ Hssa _ _ Hb), Nat2Z.id. apply list_lookup_insert_eq. unfold zlen in Hr. lia.
  - destruct (Ht d n j) as [H0 Hl]; [lia|done..|]. destruct (value_isValid (i_result i)) eqn:Hvi; [|by injection H as <-].
    apply set_at_ok in H as [Hr ->]. split; [done|]. rewrite list_lookup_insert_ne; [done|]. intros E. apply Hne.
    destruct (ssa_unique _ Hssa _ _ _ _ _ _ (result_defines _ _ _ Hj Hv) (result_defines _ _ _ Hbk Hvi)) as [-> ->]; [lia|done].
Qed.

Lemma definition_table_entered t : definition_table f = Ok t → entered (length (f_blocks f)) 0 t.
Proof.
  apply (foldM_count (λ b t, entered b 0 t)).
  - intros b blk s s' Hb Hs H. assert (entered b (length (b_instructions blk)) s') as He.
    { eapply (foldM_indexed (λ k t, entered b k t)); [|exact Hs|exact H]. intros k i u u' Hi. by apply enter_position_entered. }
    intros d n i Hdn Hi Hv. apply He; [|done..]. destruct (decide (d = b)) as [->|]; [|lia]. left. split; [done|].
    unfold instr_at in Hi. rewrite Hb in Hi. by eapply lookup_lt_Some.
  - intros d n i [[_ ?]|?]; lia.
Qed.
Lemma definition_position t d k i : definition_table f = Ok t → defines f d k i →
  0 ≤ i_result i ∧ t !! Z.to_nat (i_result i) = Some (mkPosition d k).
Proof.
  intros Ht Hd. apply (definition_table_entered t Ht d k i).
  - right. destruct Hd as [Hi _]. unfold instr_at in Hi. destruct (f_blocks f !! d) eqn:E; [|done]. by eapply lookup_lt_Some.
  - apply Hd.
  - pose proof (proj1 (ssa_valid _ Hssa _ _ _ Hd)). unfold value_isValid. by apply negb_true_iff, Z.eqb_neq.
Qed.
End Table.

Lemma at_nat {A} (l : list A) n x : at_ l (Z.of_nat n) = Ok x ↔ l !! n = Some x.
Proof. rewrite at_ok, Nat2Z.id. split; [by intros [_ ?]|split; [lia|done]]. Qed.
Lemma instruction_at_ok f bs b k i : instruction_at bs (mkPosition b k) = Ok i ↔ instr_at (with_blocks f bs) b k = Some i.
Proof.
  unfold instruction_at, instr_at. cbn. rewrite bind_Some. split.
  - intros H. apply result_bind_ok in H as (blk & Hb%at_nat & Hi%at_nat). eauto.
  - intros (blk & Hb%at_nat & Hi%at_nat). by rewrite Hb.
Qed.
Lemma definition_at f t bs d k i j : ssa f → definition_table f = Ok t → defines f d k j →
  definition t bs (i_result j) = Ok i ↔ instr_at (with_blocks f bs) d k = Some i.
Proof.
  intros Hssa Ht Hd. destruct (definition_position f Hssa t d k j Ht Hd) as [H0 Hl]. unfold definition.
  rewrite (proj2 (at_ok t (i_result j) (mkPosition d k)) (conj H0 Hl)). apply instruction_at_ok.
Qed.

(* ------------------------------------------------------------------ *)
(** ** The numbering of constants *)

Section Identities.
Context (f : IRFunction) (t : list Position).
Notation definition := (definition t (f_blocks f)).

Definition word_constant (i : IRInstruction) : Prop := i_opcode i = OpConstant ∧ DivModFusion.word (i_type i) = true.

Record numbered_to (k : nat) (s : gmap ConstantKey Z * list Z) : Prop := {
  nt_constants : ∀ key v, s.1 !! key = Some v → ∃ i, definition v = Ok i ∧ word_constant i ∧ constant_key i = key;
  nt_identity : ∀ v, 1 ≤ v ≤ Z.of_nat k → ∃ i z, definition v = Ok i ∧ s.2 !! Z.to_nat v = Some z ∧
    ((¬ word_constant i ∧ z = v) ∨ (word_constant i ∧ s.1 !! constant_key i = Some z))
}.

Lemma enter_identity_numbered k s s' : numbered_to k s → enter_identity t (f_blocks f) s (Z.of_nat (S k)) = Ok s' →
  numbered_to (S k) s'.
Proof.
  intros [H1 H2] H. unfold enter_identity in H. apply result_bind_ok in H as (i & Hi & H).
  destruct (_ && _) eqn:E.
  - apply result_bind_ok in H as (l & Hl & [= <-]). apply set_at_ok in Hl as [Hr ->]. bool_facts. unfold zlen in Hr.
    assert (word_constant i) as Hw by done.
    set (constants := match s.1 !! constant_key i with Some _ => s.1 | None => <[constant_key i := Z.of_nat (S k)]> s.1 end) in *.
    assert (∃ z, constants !! constant_key i = Some z) as [z Hz].
    { unfold constants. destruct (s.1 !! constant_key i) eqn:Es; [eauto|]. rewrite lookup_insert_eq. eauto. }
    assert (∀ key v, s.1 !! key = Some v → constants !! key = Some v) as Hmono.
    { intros key v Hv. unfold constants. destruct (s.1 !! constant_key i) eqn:Es; [done|]. rewrite lookup_insert_ne; congruence. }
    split; cbn.
    + intros key v Hv. unfold constants in Hv. destruct (s.1 !! constant_key i) eqn:Es; [by apply H1|].
      apply lookup_insert_Some in Hv as [[<- <-]|[_ Hv]]; [|by apply H1]. by exists i.
    + intros v Hv. rewrite Hz. cbn. destruct (decide (v = Z.of_nat (S k))) as [->|Hne].
      * exists i, z. split; [done|]. split; [apply list_lookup_insert_eq; lia|]. by right.
      * destruct (H2 v) as (j & y & Hj & Hy & R); [lia|]. exists j, y. split; [done|].
        rewrite list_lookup_insert_ne by lia. split; [done|]. destruct R as [?|[? ?]]; [by left|right; auto].
  - apply result_bind_ok in H as (l & Hl & [= <-]). apply set_at_ok in Hl as [Hr ->]. unfold zlen in Hr. split; cbn; [done|].
    intros v Hv. destruct (decide (v = Z.of_nat (S k))) as [->|Hne].
    + exists i, (Z.of_nat (S k)). split; [done|]. split; [apply list_lookup_insert_eq; lia|]. left. split; [|done].
      intros [Ho Hw]. rewrite Ho, Hw in E. done.
    + destruct (H2 v) as (j & y & Hj & Hy & R); [lia|]. exists j, y. rewrite list_lookup_insert_ne by lia. done.
Qed.

Lemma identities_numbered l : identities f t = Ok l → ∃ constants, numbered_to (Z.to_nat (f_value_count f)) (constants, l).
Proof.
  unfold identities. intros H. apply result_bind_ok in H as ([constants l'] & H & [= <-]). exists constants.
  replace (Z.to_nat (f_value_count f)) with (length (Z.of_nat <$> seq 1 (Z.to_nat (f_value_count f)))) by (by rewrite length_fmap, length_seq).
  refine (foldM_count numbered_to _ _ _ _ _ _ H); [|split; cbn; [done|intros v Hv; lia]]. intros k v s s' Hk Hs Hv.
  rewrite list_lookup_fmap in Hk. destruct (seq _ _ !! k) eqn:E; [|done]. apply lookup_seq in E as [-> _]. injection Hk as <-.
  by apply (enter_identity_numbered k s).
Qed.
End Identities.

(** Values with one number are one value. *)
Lemma identity_same f t l x y z : ssa f → definition_table f = Ok t → identities f t = Ok l →
  (∃ d k i, defines f d k i ∧ i_result i = x) → (∃ d k i, defines f d k i ∧ i_result i = y) →
  at_ l x = Ok z → at_ l y = Ok z → same_value f x y.
Proof.
  intros Hssa Ht Hl (d & k & i & Hi & <-) (e & m & j & Hj & <-) Hx Hy.
  destruct (identities_numbered f t l Hl) as [constants [H1 H2]]. apply at_ok in Hx as [_ Hx], Hy as [_ Hy].
  pose proof (proj1 (definition_position f Hssa t d k i Ht Hi)). pose proof (proj1 (definition_position f Hssa t e m j Ht Hj)).
  destruct (ssa_valid _ Hssa _ _ _ Hi) as [Ni Vi], (ssa_valid _ Hssa _ _ _ Hj) as [Nj Vj].
  assert (∀ d k i, defines f d k i → definition t (f_blocks f) (i_result i) = Ok i) as Hdef.
  { intros d' k' i' Hd. apply (definition_at f t (f_blocks f) d' k' i' i' Hssa Ht Hd). apply Hd. }
  destruct (H2 (i_result i)) as (i' & u & Ei & Eu & Ri); [unfold InvalidValue in *; lia|].
  destruct (H2 (i_result j)) as (j' & v & Ej & Ev & Rj); [unfold InvalidValue in *; lia|].
  rewrite (Hdef _ _ _ Hi) in Ei. rewrite (Hdef _ _ _ Hj) in Ej. injection Ei as <-. injection Ej as <-. cbn in *.
  assert (u = z) as -> by congruence. assert (v = z) as -> by congruence.
  destruct Ri as [[Wi ->]|[Wi Ci]], Rj as [[Wj E]|[Wj Cj]].
  - left. done.
  - exfalso. apply H1 in Cj as (c & Hc & Wc & _). rewrite (Hdef _ _ _ Hi) in Hc. by injection Hc as <-.
  - exfalso. apply H1 in Ci as (c & Hc & Wc & _). rewrite E, (Hdef _ _ _ Hj) in Hc. by injection Hc as <-.
  - right. apply H1 in Ci as (c & Hc & _ & Kc), Cj as (c' & Hc' & _ & Kc'). assert (c' = c) as -> by congruence.
    exists (constant_key c). split.
    + exists d, k, i. destruct Wi. by rewrite Kc.
    + exists e, m, j. destruct Wj. by rewrite Kc'.
Qed.

(* ------------------------------------------------------------------ *)
(** ** Changing one instruction *)

Lemma set_instruction_at f p i bs b k old : instr_at (with_blocks f bs) (p_block p) (p_index p) = Some old →
  instr_at (with_blocks f (set_instruction p i bs)) b k
  = if decide (b = p_block p ∧ k = p_index p) then Some i else instr_at (with_blocks f bs) b k.
Proof.
  unfold instr_at, set_instruction. cbn. intros (blk & Hb & Hi)%bind_Some. destruct (decide (b = p_block p)) as [->|Hne].
  - rewrite list_lookup_alter_eq, Hb. cbn. destruct (decide (k = p_index p)) as [->|Hk].
    + rewrite decide_True by done. apply list_lookup_insert_eq. by eapply lookup_lt_Some.
    + rewrite decide_False by naive_solver. by apply list_lookup_insert_ne.
  - rewrite list_lookup_alter_ne by done. by rewrite decide_False by naive_solver.
Qed.

(** A rewriting goes on when only divisions change. *)
Lemma rewritten_mono f (g g' : nat → nat → option IRInstruction) b k i i' :
  (∀ d n j, g d n = Some j → i_opcode j = OpDivMod → g' d n = Some j) → rewritten f g b k i i' → rewritten f g' b k i i'.
Proof.
  intros Hg [|x y H|x y d n j u v H Hj Hdj Hgj Ho Hp Hu Hx Hy]; [constructor|by econstructor|].
  eapply rw_selected; eauto.
Qed.

Section Matching.
Context (f : IRFunction) (a : IRControlFlow) (t : list Position) (identity : list Z).
Hypothesis Hssa : ssa f.
Hypothesis Ha : parts f a.
Hypothesis Ht : definition_table f = Ok t.
Hypothesis Hidentity : identities f t = Ok identity.
Notation cur s := (instr_at (with_blocks f (fu_blocks s))).
Notation reached := (reachable (IRSound.cfg f) 0).

(** A division that was met, and is still there or heads a pair. *)
Definition candidate (g : nat → nat → option IRInstruction) (key : Key) (p : Position) : Prop :=
  ∃ j x y, instr_at f (p_block p) (p_index p) = Some j ∧ division f j x y ∧ key_of identity j = Ok key ∧
    (g (p_block p) (p_index p) = Some j ∨ g (p_block p) (p_index p) = Some (paired j)).

Record passing (seen : nat → nat → Prop) (s : Fusing) : Prop := {
  ps_rewriting : rewriting f (cur s);
  ps_available : ∀ key p, p ∈ default [] (fu_available s !! key) → seen (p_block p) (p_index p) ∧ candidate (cur s) key p
}.

Lemma passing_weaken (seen seen' : nat → nat → Prop) s : (∀ d k, seen d k → seen' d k) → passing seen s → passing seen' s.
Proof. intros H [H1 H2]. split; [done|]. intros key p Hp. destruct (H2 key p Hp). auto. Qed.
Lemma passing_counters seen s s' : fu_blocks s' = fu_blocks s → fu_available s' = fu_available s → passing seen s → passing seen s'.
Proof. intros E1 E2 [H1 H2]. split; by rewrite ?E1, ?E2. Qed.

Lemma put_paired seen s p j x y : passing seen s → instr_at f (p_block p) (p_index p) = Some j → division f j x y →
  cur s (p_block p) (p_index p) = Some j → passing seen (put p (paired j) s).
Proof.
  intros [H1 H2] Hj Hd Hc. pose proof (λ b k, set_instruction_at f p (paired j) (fu_blocks s) b k j Hc) as E.
  assert (∀ d n i, cur s d n = Some i → i_opcode i = OpDivMod → cur (put p (paired j) s) d n = Some i) as Hmono.
  { intros d n i Hi Ho. cbn. rewrite E, decide_False; [done|]. intros [-> ->]. pose proof (dv_opcode _ _ _ _ Hd). congruence. }
  split.
  - intros b k. cbn. rewrite E. pose proof (H1 b k) as H. destruct (decide _) as [[-> ->]|Hne].
    + rewrite Hj. exists (paired j). split; [done|]. by eapply rw_paired.
    + destruct (instr_at f b k); [|done]. destruct H as (i' & Hi' & R). exists i'. split; [done|]. by eapply rewritten_mono.
  - intros key q Hq. destruct (H2 key q Hq) as [Hs (i & u & v & Hi & Hdi & Hk & Hg)]. split; [done|].
    exists i, u, v. do 3 (split; [done|]). cbn. rewrite E. destruct (decide _) as [[Eb Ek]|]; [|done].
    right. rewrite Eb, Ek in Hi. congruence.
Qed.

Lemma put_selected seen s b n i x y d m j u v : passing seen s → ¬ seen b n → instr_at f b n = Some i → division f i x y →
  cur s b n = Some i → instr_at f d m = Some j → division f j u v → cur s d m = Some (paired j) → i_operation j ≠ i_operation i →
  precedes f d m b n → is_unsigned (i_type j) = is_unsigned (i_type i) → same_value f u x → same_value f v y →
  passing seen (put (mkPosition b n) (selected (i_result j) i) s).
Proof.
  intros [H1 H2] Hn Hi Hd Hc Hj Hdj Hcj Ho Hp Hu Hx Hy.
  pose proof (λ d k, set_instruction_at f (mkPosition b n) (selected (i_result j) i) (fu_blocks s) d k i Hc) as E. cbn in E.
  assert (∀ d k l, cur s d k = Some l → i_opcode l = OpDivMod → cur (put (mkPosition b n) (selected (i_result j) i) s) d k = Some l) as Hmono.
  { intros e k l Hl Hol. cbn. rewrite E, decide_False; [done|]. intros [-> ->]. pose proof (dv_opcode _ _ _ _ Hd). congruence. }
  split.
  - intros e k. cbn. rewrite E. pose proof (H1 e k) as H. destruct (decide _) as [[-> ->]|Hne].
    + rewrite Hi. eexists. split; [done|]. eapply rw_selected; eauto.
    + destruct (instr_at f e k); [|done]. destruct H as (i' & Hi' & R). exists i'. split; [done|]. by eapply rewritten_mono.
  - intros key q Hq. destruct (H2 key q Hq) as [Hs (l & u' & v' & Hl & Hdl & Hk & Hg)]. split; [done|].
    exists l, u', v'. do 3 (split; [done|]). cbn. rewrite E. destruct (decide _) as [[Eb Ek]|]; [|done].
    rewrite Eb, Ek in Hs. done.
Qed.

Lemma dominating d k b n : dominates_ (reach a) (m_dominators a) d b = true → (d = b → k < n)%nat → precedes f d k b n.
Proof.
  intros [_ H]%(parts_dominates_ f a (ssa_ids _ Hssa) Ha) Hlt. rewrite (parts_dominates f a (ssa_ids _ Hssa) Ha) in H.
  rewrite (ssa_entry _ Hssa) in H. destruct (decide (d = b)) as [E|Hne]; [left; auto|by right].
Qed.

Lemma division_operand_defined j x y v : division f j x y → v ∈ [x; y] → ∃ d k i, defines f d k i ∧ i_result i = v.
Proof. intros Hd Hv. destruct (dv_types _ _ _ _ Hd v Hv) as (_ & (d & k & i & Hi & Hp & Hr & _) & _). exists d, k, i. done. Qed.

(** Divisions with one key divide one value by another. *)
Lemma key_same i j x y u v key : division f i x y → division f j u v → key_of identity i = Ok key → key_of identity j = Ok key →
  is_unsigned (i_type j) = is_unsigned (i_type i) ∧ same_value f u x ∧ same_value f v y.
Proof.
  intros Hi Hj Ki Kj. unfold key_of in *. rewrite (dv_operands _ _ _ _ Hi) in Ki. rewrite (dv_operands _ _ _ _ Hj) in Kj. cbn in *.
  apply result_bind_ok in Ki as (p & Hp & Ki). apply result_bind_ok in Ki as (q & Hq & [= <-]).
  apply result_bind_ok in Kj as (p' & Hp' & Kj). apply result_bind_ok in Kj as (q' & Hq' & [= -> -> Hu He]). split; [done|].
  pose proof (λ w, division_operand_defined _ _ _ w Hi) as Di. pose proof (λ w, division_operand_defined _ _ _ w Hj) as Dj.
  split; (eapply (identity_same f t identity); [done..| | |eassumption|eassumption]); first [by apply Di; constructor|by apply Dj; constructor|by apply Di; do 2 constructor|by apply Dj; do 2 constructor].
Qed.

Lemma match_candidate_passing seen b n i x y key l s s' matched : passing seen s → ¬ seen b n → (∀ k, seen b k → (k < n)%nat) →
  instr_at f b n = Some i → division f i x y → key_of identity i = Ok key → cur s b n = Some i →
  (∀ p, p ∈ l → seen (p_block p) (p_index p) ∧ candidate (cur s) key p) →
  match_candidate a (mkPosition b n) i l s = Ok (s', matched) →
  passing seen s' ∧ (matched = false → cur s' b n = Some i).
Proof.
  intros Hp Hns Hlt Hi Hd Hk. revert s Hp. induction l as [|p l IH]; intros s Hp Hc Hl H; cbn [match_candidate] in H.
  { by injection H as <- <-. }
  assert (passing seen (count_work s)) as Hp1 by (by apply (passing_counters seen s)).
  destruct (fu_stopped (count_work s)). { by injection H as <- <-. }
  apply result_bind_ok in H as (first & Hfirst & H).
  assert (passing seen (count_work s) → match_candidate a (mkPosition b n) i l (count_work s) = Ok (s', matched) →
    passing seen s' ∧ (matched = false → cur s' b n = Some i)) as Hnext.
  { intros Hq. apply IH; [done..|]. intros q Hql. apply (Hl q). by right. }
  destruct (_ || _) eqn:E in H; [by apply Hnext|]. destruct (_ && _) eqn:E1 in H; [by apply Hnext|].
  apply orb_false_iff in E as [Eop%String.eqb_neq Edom%negb_false_iff]. clear Hnext IH.
  destruct (Hl p) as [Hs (j & u & v & Hj & Hdj & Hkj & Hg)]; [by left|].
  destruct p as [d m]. cbn in *. apply (instruction_at_ok f) in Hfirst.
  destruct (key_same i j x y u v key Hd Hdj Hk Hkj) as (Hu & Hx & Hy).
  assert (precedes f d m b n) as Hprec by (apply dominating; [done|]; intros ->; by apply Hlt).
  assert ((d, m) ≠ (b, n)) as Hne by (intros [= -> ->]; done).
  destruct Hg as [Hg|Hg]; rewrite Hg in Hfirst; injection Hfirst as <-.
  - rewrite (dv_opcode _ _ _ _ Hdj) in H. cbn in H. injection H as <- <-. split; [|done].
    eapply (put_selected seen _ b n i x y d m j u v); try done.
    + eapply passing_counters; [| |eapply (put_paired seen s (mkPosition d m) j u v)]; done.
    + pose proof (set_instruction_at f (mkPosition d m) (paired j) (fu_blocks s) b n j Hg) as E2.
      rewrite decide_False in E2 by (cbn; naive_solver). exact (eq_trans E2 Hc).
    + pose proof (set_instruction_at f (mkPosition d m) (paired j) (fu_blocks s) d m j Hg) as E2.
      rewrite decide_True in E2 by done. exact E2.
  - cbn in H. injection H as <- <-. split; [|done]. by eapply (put_selected seen _ b n i x y d m j u v).
Qed.

(** *** One instruction *)

Hypothesis Huse : ∀ d k i, defines f d k i → 1 ≤ i_result i ≤ f_value_count f.

Lemma match_candidate_returns p i l s : (∀ q, q ∈ l → ∃ j, cur s (p_block q) (p_index q) = Some j) →
  ∃ r, match_candidate a p i l s = Ok r.
Proof.
  revert s. induction l as [|q l IH]; intros s Hl; cbn [match_candidate]; [by eexists|].
  destruct (fu_stopped _); [by eexists|]. destruct (Hl q) as [j Hj]; [by left|]. destruct q as [d m].
  rewrite (proj2 (instruction_at_ok f (fu_blocks (count_work s)) d m j) Hj). cbn [mbind result_mbind result_bind].
  destruct (_ || _); [|destruct (_ && _); [|by eexists]]; apply IH; intros q Hq; apply (Hl q); by right.
Qed.

(** An operand's definition, as the pass reads it: rewritten, with its type. *)
Lemma operand_definition s v b n i : rewriting f (cur s) → instr_at f b n = Some i → i_opcode i ≠ OpPhi → v ∈ i_operands i → reached b →
  ∃ j, definition t (fu_blocks s) v = Ok j ∧ value_type f v (i_type j) ∧ ∃ z, at_ identity v = Ok z.
Proof.
  intros Hrw Hi Hop Hv Hb. destruct (ssa_use _ Hssa b n i v Hi Hop Hv Hb) as (d & k & j & Hd & <- & _).
  pose proof (Hrw d k) as H. rewrite (proj1 Hd) in H. destruct H as (j' & Hj' & R). exists j'. split; [|split].
  - by apply (definition_at f t (fu_blocks s) d k j' j Hssa Ht Hd).
  - exists d, k, j. destruct (rewritten_data f (with_blocks f (fu_blocks s)) d k j j' R) as (-> & _). split_and!; try done; apply Hd.
  - destruct (identities_numbered f t identity Hidentity) as [constants [_ H2]].
    destruct (H2 (i_result j)) as (j1 & z & _ & Hz & _); [pose proof (Huse _ _ _ Hd); lia|]. exists z. apply at_ok.
    pose proof (Huse _ _ _ Hd). split; [lia|done].
Qed.

Lemma fuse_instruction_passing (seen seen' : nat → nat → Prop) b n s : passing seen s → ¬ seen b n → (∀ k, seen b k → (k < n)%nat) →
  (∀ d k, seen d k → seen' d k) → seen' b n → is_Some (instr_at f b n) → reached b →
  ∃ s', fuse_instruction a t identity b s n = Ok s' ∧ passing seen' s'.
Proof.
  intros Hs Hns Hlt Hmono Hseen [i0 Hi0] Hb. unfold fuse_instruction. pose proof (passing_weaken seen seen' s Hmono Hs) as Hs'.
  destruct (fu_stopped s); [by eauto|]. pose proof (ps_rewriting _ _ Hs b n) as H. rewrite Hi0 in H. destruct H as (i & Hi & R).
  rewrite (proj2 (instruction_at_ok f (fu_blocks s) b n i) Hi). cbn [mbind result_mbind result_bind].
  destruct (is_division i) eqn:Hdiv; cbn [negb]; [|by eauto]. unfold is_division in Hdiv. bool_facts.
  assert (i = i0) as -> by (destruct (rewritten_data f (with_blocks f (fu_blocks s)) b n i0 i R) as (_ & _ & _ & [?|[_ [?|?]]]); congruence).
  assert (∃ x y, i_operands i0 = [x; y]) as (x & y & Hxy).
  { destruct (i_operands i0) as [|x [|y [|z l]]]; unfold zlen in *; cbn in *; try lia. by exists x, y. }
  assert (i_opcode i0 ≠ OpPhi) as Hphi by congruence.
  destruct (operand_definition s x b n i0 (ps_rewriting _ _ Hs) Hi0 Hphi) as (ix & Ex & Tx & zx & Zx); [rewrite Hxy; by left|done|].
  destruct (operand_definition s y b n i0 (ps_rewriting _ _ Hs) Hi0 Hphi) as (iy & Ey & Ty & zy & Zy); [rewrite Hxy; right; by left|done|].
  assert (i_operands i0 !! 0%nat = Some x ∧ i_operands i0 !! 1%nat = Some y) as [Ox Oy] by (by rewrite Hxy).
  rewrite Ox, Oy. cbn [default from_option id]. rewrite Ex, Ey. cbn [mbind result_mbind result_bind].
  destruct (_ || cheap _) eqn:Hm; [by eauto|]. apply orb_false_iff in Hm as [Hm _]. apply orb_false_iff in Hm as [Mx My].
  apply negb_false_iff in Mx, My. unfold matching_type in Mx, My. bool_facts.
  assert (division f i0 x y) as Hd.
  { split; [done| |done|done|].
    - apply orb_true_iff in H2 as [?%String.eqb_eq|?%String.eqb_eq]; auto.
    - intros v Hv. rewrite !elem_of_cons, elem_of_nil in Hv. destruct Hv as [->|[->|[]]]; eexists; split_and!; try done; by apply eqb_prop. }
  unfold key_of. rewrite Ox, Oy. cbn [default from_option id]. rewrite Zx, Zy. cbn [mbind result_mbind result_bind].
  set (key := (zx, zy, is_unsigned (i_type i0), enum_name (i_type i0))).
  assert (key_of identity i0 = Ok key) as Hkey by (unfold key_of; rewrite Ox, Oy; cbn [default from_option id]; by rewrite Zx, Zy).
  assert (∀ q, q ∈ rev (default [] (fu_available s !! key)) → seen (p_block q) (p_index q) ∧ candidate (cur s) key q) as Hq.
  { intros q Hq. apply (ps_available _ _ Hs). by rewrite list_elem_of_In, <-in_rev, <-list_elem_of_In in Hq. }
  destruct (match_candidate_returns (mkPosition b n) i0 (rev (default [] (fu_available s !! key))) s) as [[s1 matched] Em].
  { intros q (_ & j & u & v & _ & _ & _ & [?|?])%Hq; by eexists. }
  destruct (match_candidate_passing seen b n i0 x y key _ s s1 matched Hs Hns Hlt Hi0 Hd Hkey Hi Hq Em) as [Hs1 Hunmatched].
  eexists. split; [apply result_bind_ok; exists (s1, matched); split; [exact Em|reflexivity]|].
  apply (passing_weaken seen seen' s1 Hmono) in Hs1. destruct matched; [done|]. cbn [orb].
  destruct (fu_stopped s1); [done|]. destruct Hs1 as [Hrw1 Havail]. split; [done|].
  intros key' q. cbn [fu_available offer]. destruct (decide (key' = key)) as [->|Hne].
  - rewrite lookup_insert_eq. cbn [default from_option id]. intros [Hin|Hin%list_elem_of_singleton]%elem_of_app; [by apply Havail|subst q].
    split; [done|]. exists i0, x, y. do 3 (split; [done|]). left. by apply Hunmatched.
  - rewrite lookup_insert_ne by done. apply Havail.
Qed.

(** *** One block *)

Lemma foldM_seq {T} (P : nat → T → Prop) (g : T → nat → result T) n : ∀ start s, P start s →
  (∀ k s, (start ≤ k < start + n)%nat → P k s → ∃ s', g s k = Ok s' ∧ P (1 + k)%nat s') →
  ∃ s', foldM g s (seq start n) = Ok s' ∧ P (start + n)%nat s'.
Proof.
  induction n as [|n IH]; intros start s Hs Hg; cbn [seq foldM].
  - exists s. by rewrite Nat.add_0_r.
  - destruct (Hg start s) as (s1 & -> & H1); [lia|done|]. cbn [mbind result_mbind result_bind].
    replace (start + S n)%nat with (S start + n)%nat by lia. apply IH; [done|]. intros k s2 Hk. apply Hg. lia.
Qed.

Lemma fuse_block_passing visited b body s : b ∉ visited → reached b → passing (λ d k, d ∈ visited) s →
  at_ (fu_blocks s) (Z.of_nat b) = Ok body →
  ∃ s', foldM (fuse_instruction a t identity b) s (seq 0 (length (b_instructions body))) = Ok s' ∧ passing (λ d k, d ∈ b :: visited) s'.
Proof.
  intros Hb Hr Hs Hbody%at_nat.
  assert (∀ k, (k < length (b_instructions body))%nat → is_Some (instr_at f b k)) as Hin.
  { intros k Hk. pose proof (ps_rewriting _ _ Hs b k) as H. destruct (instr_at f b k); [done|].
    exfalso. apply lookup_lt_is_Some in Hk as [i Hi]. unfold instr_at in H. cbn in H. rewrite Hbody in H. cbn in H. congruence. }
  destruct (foldM_seq (λ n, passing (λ d k, d ∈ visited ∨ d = b ∧ (k < n)%nat)) (fuse_instruction a t identity b)
    (length (b_instructions body)) 0 s) as (s' & E & H).
  - eapply passing_weaken; [|exact Hs]. auto.
  - intros k s1 Hk H1. eapply (fuse_instruction_passing _ _ b k s1 H1); auto with lia.
    + intros [?|[_ ?]]; [done|lia].
    + intros n [?|[_ ?]]; [done|done].
    + intros d n [?|[-> ?]]; [by left|right; split; [done|lia]].
  - exists s'. split; [done|]. eapply passing_weaken; [|exact H]. intros d k [?|[-> _]]; [by right|by left].
Qed.

(** *** The walk over the dominator tree *)

Record walked (visited stack : list nat) : Prop := {
  wa_once : NoDup (visited ++ stack);
  wa_reached : ∀ b, b ∈ visited ++ stack → reached b;
  wa_parent : ∀ b, b ∈ visited ++ stack → b = 0%nat ∨ ∃ p, p ∈ visited ∧ idom_of (immediate_dominator a) b = Some p
}.

Lemma children_idom p b : b ∈ adjacent (children a) p ↔ idom_of (immediate_dominator a) b = Some p.
Proof.
  rewrite (pa_children _ _ Ha), (pa_idoms _ _ Ha). destruct (parts_doms f a (ssa_ids _ Hssa) Ha) as [Hwf Hd].
  eapply find_children_correct; [exact (parts_graph f a (ssa_ids _ Hssa) Ha)|exact (parts_reach f a (ssa_ids _ Hssa) Ha)|done..].
Qed.
Lemma children_once p : NoDup (adjacent (children a) p).
Proof.
  rewrite (pa_children _ _ Ha). unfold adjacent, find_children. rewrite list_lookup_fmap.
  destruct (seq 0 _ !! p); cbn [fmap option_fmap option_map from_option id]; [|constructor].
  apply NoDup_ListNoDup, List.NoDup_filter, seq_NoDup.
Qed.
Lemma reached_lt b : reached b → (b < length (f_blocks f))%nat.
Proof.
  intros Hb. destruct (parts_flow f a (ssa_ids _ Hssa) Ha) as (_ & _ & H). apply H, (parts_reach f a (ssa_ids _ Hssa) Ha).
  apply (parts_reachable f a (ssa_ids _ Hssa) Ha). by rewrite (ssa_entry _ Hssa).
Qed.

Lemma walked_next visited stack b : walked visited (b :: stack) → walked (b :: visited) (adjacent (children a) b ++ stack).
Proof.
  intros [H1 H2 H3]. assert ((b :: visited) ++ adjacent (children a) b ++ stack ≡ₚ adjacent (children a) b ++ visited ++ b :: stack) as Hperm.
  { transitivity (adjacent (children a) b ++ (b :: visited) ++ stack); [by rewrite !app_assoc, (Permutation_app_comm (b :: visited))|].
    f_equiv. apply Permutation_middle. }
  assert (∀ x, x ∈ adjacent (children a) b → reached x ∧ x ≠ 0%nat) as Hchild.
  { intros x Hx%children_idom. apply (parts_idom f a (ssa_ids _ Hssa) Ha) in Hx as (Hr & Hne & _).
    apply (parts_reachable f a (ssa_ids _ Hssa) Ha) in Hr. by rewrite (ssa_entry _ Hssa) in *. }
  split.
  - rewrite Hperm. apply NoDup_app. split; [|split; [|done]].
    + apply children_once.
    + intros x Hx Hin. destruct (Hchild x Hx) as [_ Hne]. apply children_idom in Hx.
      destruct (H3 x Hin) as [?|(p & Hp & E)]; [done|]. assert (p = b) as -> by congruence.
      apply NoDup_app in H1 as (_ & H1 & _). apply (H1 b Hp). by left.
  - intros x. rewrite Hperm. intros [Hx|Hx]%elem_of_app; [by apply Hchild|by apply H2].
  - intros x. rewrite Hperm. intros [Hx|Hx]%elem_of_app.
    + right. exists b. split; [by left|by apply children_idom].
    + destruct (H3 x Hx) as [?|(p & Hp & E)]; [by left|right]. exists p. split; [by right|done].
Qed.

Lemma walked_length visited stack : walked visited stack → (length visited + length stack ≤ length (f_blocks f))%nat.
Proof.
  intros [H1 H2 _]. rewrite <-length_app.
  transitivity (length (seq 0 (length (f_blocks f)))); [|by rewrite length_seq].
  apply NoDup_incl_length; [by apply NoDup_ListNoDup|]. intros b Hb%list_elem_of_In. apply list_elem_of_In, elem_of_seq. split; [lia|]. by apply reached_lt, H2.
Qed.

Hypothesis Hfull : ∀ b, (b < length (f_blocks f))%nat → is_Some (instr_at f b 0).

Lemma traverse_passing fuel : ∀ visited stack s, walked visited stack → passing (λ d k, d ∈ visited) s →
  (length (f_blocks f) ≤ length visited + fuel)%nat →
  ∃ s', traverse a t identity fuel stack s = Ok s' ∧ rewriting f (cur s').
Proof.
  induction fuel as [|fuel IH]; intros visited stack s Hw Hs Hfuel; cbn [traverse].
  - destruct stack as [|b stack]; [exists s; split; [done|apply Hs]|]. pose proof (walked_length _ _ Hw). cbn in *. lia.
  - destruct stack as [|b stack]; [exists s; split; [done|apply Hs]|].
    destruct (fu_stopped s); [exists s; split; [done|apply Hs]|].
    assert (reached b) as Hr by (apply (wa_reached _ _ Hw); set_solver).
    destruct (Hfull b) as [i Hi]; [by apply reached_lt|].
    pose proof (ps_rewriting _ _ Hs b 0%nat) as H. rewrite Hi in H. destruct H as (i' & Hi' & _).
    unfold instr_at in Hi'. apply bind_Some in Hi' as (body & Hbody & _). cbn in Hbody.
    rewrite (proj2 (at_nat _ b body) Hbody). cbn [mbind result_mbind result_bind].
    assert (b ∉ visited) as Hb.
    { intros Hb. pose proof (wa_once _ _ Hw) as H. apply NoDup_app in H as (_ & H & _). apply (H b Hb). by left. }
    destruct (fuse_block_passing visited b body s Hb Hr Hs) as (s1 & E & Hs1); [by apply at_nat|].
    rewrite E. cbn [mbind result_mbind result_bind]. apply (IH (b :: visited)); [by apply walked_next|done|cbn; lia].
Qed.
End Matching.
