(* ===== verification/FusionProps.v ===== *)
(** * FusionProps: pairing divisions keeps the executions of a function

    The functions the pass makes of verified ones. *)

From stdpp Require Import functions.
From S2P Require Import Prelude Target Types Token IR ScalarFold Graph IRVerify IRSound IRTyping.
From S2P Require Import LoopIds ControlFlow FlowSound LoopSound Liveness Analysis AddressProof IRRun PairRun DivModFusion FusionSound FusionPass.

(* ------------------------------------------------------------------ *)
(** ** What the pass needs of a verified function *)

(** The values are the numbers from 1 to [value_count]. *)
Lemma verified_values f : verifyFunction f = Ok tt →
  (∀ v, 1 ≤ v ≤ f_value_count f → ∃ d k i, defines f d k i ∧ i_result i = v) ∧
  (∀ d k i, defines f d k i → 1 ≤ i_result i ≤ f_value_count f).
Proof.
  intros Hv. pose proof (verified_facts f Hv) as (p & reach & doms & Hf). pose proof (fa_pass _ _ _ _ Hf) as Hp.
  pose proof (fa_values _ _ _ _ Hf) as Hval. unfold verify_values in Hval.
  apply result_bind_ok in Hval as ([] & Hsize%throw_if_ok%negb_false_iff%Z.eqb_eq & Hval). rewrite forM_ok, Forall_forall in Hval.
  assert (∀ v, 1 ≤ v ≤ f_value_count f → is_Some (definitions p !! v)) as Hall.
  { intros v Hr. specialize (Hval v ltac:(apply elem_of_seqZ; lia)). apply throw_if_ok, bool_decide_eq_false in Hval.
    by destruct (definitions p !! v). }
  split.
  - intros v [d Hd]%Hall. destruct (p_definition _ _ _ Hp _ _ Hd) as (i & Hi & Hpv & Hr & _).
    by exists (d_block d), (d_instruction d), i.
  - intros d k i [Hi Hpv]. pose proof (p_defined _ _ _ Hp d k i I Hi Hpv) as E.
    assert ((list_to_set (seqZ 1 (f_value_count f)) : gset Z) ≡ dom (definitions p)) as Heq.
    { apply set_subseteq_size_equiv.
      - intros v Hin. apply elem_of_dom, Hall. apply elem_of_list_to_set, elem_of_seqZ in Hin. lia.
      - rewrite size_dom, size_list_to_set by (apply NoDup_seqZ). rewrite length_seqZ. lia. }
    assert (i_result i ∈ dom (definitions p)) as Hin by (apply elem_of_dom; by eexists).
    rewrite <- Heq in Hin. apply elem_of_list_to_set, elem_of_seqZ in Hin. lia.
Qed.

(** A selection reads a pair. *)
Lemma verified_select f b k i : verifyFunction f = Ok tt → instr_at f b k = Some i → i_opcode i = OpDivModResult →
  ∃ d n j, defines f d n j ∧ i_result j = operand_of i 0 ∧ i_opcode j = OpDivMod.
Proof.
  intros Hv Hi Ho. destruct (verified_facts f Hv) as (p & reach & doms & Hf).
  pose proof (fa_second _ _ _ _ Hf _ _ _ Hi) as H. unfold pass2_instruction in H.
  apply result_bind_ok in H as ([] & _ & H). apply result_bind_ok in H as ([] & _ & H). apply result_bind_ok in H as ([] & _ & H).
  pose proof (typing_ok _ _ _ _ Hf b k i Hi H) as Ht. unfold typing_rule in Ht. rewrite Ho in Ht.
  destruct Ht as (x & j & Hx & _ & (d & n & Hj & Hpv & Hr) & Hjo & _). exists d, n, j.
  split; [done|]. unfold operand_of. by rewrite Hx.
Qed.

(* ------------------------------------------------------------------ *)
(** ** The tables are made *)

Section Tables.
Context (f : IRFunction).
Hypothesis Hssa : ssa f.
Hypothesis Hdefined : ∀ v, 1 ≤ v ≤ f_value_count f → ∃ d k i, defines f d k i ∧ i_result i = v.
Hypothesis Hrange : ∀ d k i, defines f d k i → 1 ≤ i_result i ≤ f_value_count f.

Lemma definition_table_returns : ∃ t, definition_table f = Ok t.
Proof.
  destruct (foldM_returns (λ t, length t = S (Z.to_nat (f_value_count f))) (λ t b, foldM (enter_position b) t (indexed (b_instructions b)))
    (f_blocks f) (replicate (S (Z.to_nat (f_value_count f))) (mkPosition 0 0))) as (t & Ht & _); [by rewrite length_replicate| |by exists t].
  intros t blk [b Hb]%list_elem_of_lookup Hlen. apply foldM_returns; [done|].
  intros u [k i] Hin%elem_of_indexed Hu. unfold enter_position. cbn [fst snd].
  destruct (value_isValid (i_result i)) eqn:Hv; [|by eauto].
  assert (defines f b k i) as Hd by (apply result_defines; [done|unfold instr_at; by rewrite Hb|done]).
  pose proof (Hrange _ _ _ Hd). eexists. split; [apply set_at_ok; split; [unfold zlen; lia|reflexivity]|]. by rewrite length_insert.
Qed.

Lemma identities_returns t : definition_table f = Ok t → ∃ l, identities f t = Ok l.
Proof.
  intros Ht. unfold identities.
  assert (length t = S (Z.to_nat (f_value_count f))) as Hlen.
  { revert Ht. unfold definition_table. intros Ht.
    refine (foldM_count (λ _ t, length t = S (Z.to_nat (f_value_count f))) _ _ _ _ _ _ Ht); [|by rewrite length_replicate].
    intros _ blk s s' _ Hs H. refine (foldM_count (λ _ t, length t = S (Z.to_nat (f_value_count f))) _ _ _ _ _ Hs H).
    intros _ [k i] u u' _ Hu Hst. unfold enter_position in Hst. cbn [fst snd] in Hst. destruct (value_isValid _); [|by injection Hst as <-].
    apply set_at_ok in Hst as [_ ->]. by rewrite length_insert. }
  destruct (foldM_returns (λ s, length s.2 = S (Z.to_nat (f_value_count f))) (enter_identity t (f_blocks f))
    (Z.of_nat <$> seq 1 (Z.to_nat (f_value_count f))) (∅, replicate (length t) 0)) as (s & -> & _); [cbn; by rewrite length_replicate| |by eexists].
  intros [constants l] v (n & -> & Hn%elem_of_seq)%list_elem_of_fmap Hl. cbn [snd] in Hl.
  destruct (Hdefined (Z.of_nat n)) as (d & k & i & Hd & Hr); [lia|]. unfold enter_identity.
  assert (definition t (f_blocks f) (Z.of_nat n) = Ok i) as E by (rewrite <-Hr; exact (proj2 (definition_at f t (f_blocks f) d k i i Hssa Ht Hd) (proj1 Hd))).
  rewrite E. cbn [mbind result_mbind result_bind fst snd].
  assert (∀ x, ∃ l', set_at l (Z.of_nat n) x = Ok l' ∧ length l' = S (Z.to_nat (f_value_count f))) as Hset.
  { intros x. eexists. split; [apply set_at_ok; split; [unfold zlen; lia|reflexivity]|]. by rewrite length_insert. }
  destruct (_ && _); (edestruct Hset as (l' & -> & Hl'); cbn [mbind result_mbind result_bind]; eexists; split; [done|done]).
Qed.
End Tables.

(* ------------------------------------------------------------------ *)
(** ** The pass *)

(** The pass returns whenever the analysis does, with a function that is a
    [rewriting] of its own and differs in the instructions only. *)
Lemma fuse_rewriting f a : verifyFunction f = Ok tt → analyze f = Ok a →
  ∃ blocks, fuse f = Ok (with_blocks f blocks) ∧ rewriting f (instr_at (with_blocks f blocks)).
Proof.
  intros Hv Ha. pose proof (verified_ssa f Hv) as Hssa. destruct (verified_values f Hv) as [Hdefined Hrange].
  destruct (definition_table_returns f Hssa Hrange) as [t Ht]. destruct (identities_returns f Hssa Hdefined t Ht) as [identity Hi].
  pose proof (analyze_parts f a Ha) as Hp.
  assert (∀ b, (b < length (f_blocks f))%nat → is_Some (instr_at f b 0)) as Hfull.
  { intros b [blk Hb]%lookup_lt_is_Some. destruct (verified_facts f Hv) as (p & reach & doms & Hf).
    destruct (fa_last _ _ _ _ Hf b blk Hb) as (i & Hl & _). unfold instr_at. rewrite Hb. cbn.
    destruct (b_instructions blk); [done|by eexists]. }
  unfold fuse. rewrite Ha. cbn [mbind result_mbind result_bind]. rewrite Ht. cbn [mbind result_mbind result_bind].
  rewrite Hi. cbn [mbind result_mbind result_bind].
  destruct (traverse_passing f a t identity Hssa Hp Ht Hi Hrange Hfull (length (f_blocks f)) [] [Z.to_nat (f_entry f)]
    (mkFusing (f_blocks f) ∅ 0 (pairs_of f) false)) as (s & Es & Hrw).
  - pose proof (ssa_entry _ Hssa) as He. unfold entry_of in He. rewrite He.
    assert (reachable (IRSound.cfg f) 0 0) as Hr by (exists [0%nat]; constructor).
    split; [by repeat constructor; set_solver|..]; intros b Hb; cbn in Hb; apply list_elem_of_singleton in Hb as ->; [done|by left].
  - split; [|intros key p Hin; cbn in Hin; rewrite lookup_empty in Hin; by apply not_elem_of_nil in Hin].
    intros b k. cbn. destruct (instr_at f b k) as [i|] eqn:E.
    + exists i. split; [exact E|constructor].
    + exact E.
  - cbn. lia.
  - rewrite Es. cbn [mbind result_mbind result_bind]. by exists (fu_blocks s).
Qed.

(** C18. Pairing keeps the executions.  For a verified function whose graph the
    analysis accepts, the pass returns a function, which differs in its instructions
    only and has the same executions: the same blocks and instructions are reached
    with the same values, the second component of a division being kept from where
    the pair is computed to where it is selected. *)
Theorem fusion_keeps_executions (f : IRFunction) (a : IRControlFlow) (locals : list (SymbolId * Symbol)) (frame : Z) :
  verifyFunction f = Ok tt → analyze f = Ok a →
  ∃ blocks, fuse f = Ok (with_blocks f blocks) ∧
    ∀ s, (∃ h, pair_runs f locals frame (s, h)) ↔ (∃ h, pair_runs (with_blocks f blocks) locals frame (s, h)).
Proof.
  intros Hv Ha. destruct (fuse_rewriting f a Hv Ha) as (blocks & E & Hrw). exists blocks. split; [done|].
  pose proof (verified_ssa f Hv) as Hssa. intros s. split; intros [h Hr].
  - destruct (forward_runs f (with_blocks f blocks) locals frame Hssa (λ b k i, verified_select f b k i Hv) eq_refl Hrw _ Hr) as (h' & H & _).
    by exists h'.
  - destruct (backward_runs f (with_blocks f blocks) locals frame Hssa (λ b k i, verified_select f b k i Hv) eq_refl Hrw _ Hr) as (h' & H & _).
    by exists h'.
Qed.

(* ------------------------------------------------------------------ *)
(** ** A function with a pair *)

(** [100 / 7 + 100 % 7], the remainder in a second block with a constant of its own. *)
Definition divided : IRFunction :=
  let blk n code := mkBlock n "" code in
  mkFunction "divided" "divided" IRSound.word [] 0 false false
    [blk 0 [plain_instr OpConstant IRSound.word 1 [] [] "" 100 0; plain_instr OpConstant IRSound.word 2 [] [] "" 7 0;
            plain_instr OpBinary IRSound.word 3 [1; 2] [] "/" 0 0; plain_instr OpBranch default_type 0 [] [1] "" 0 0];
     blk 1 [plain_instr OpConstant IRSound.word 4 [] [] "" 7 0; plain_instr OpBinary IRSound.word 5 [1; 4] [] "%" 0 0;
            plain_instr OpBinary IRSound.word 6 [3; 5] [] "+" 0 0; plain_instr OpReturn IRSound.word 0 [6] [] "" 0 0]]
    0 6 false [] [].

Example divided_fused : (λ f, (λ b, i_opcode <$> b_instructions b) <$> f_blocks f) <$> fuse divided
  = Ok [[OpConstant; OpConstant; OpDivMod; OpBranch]; [OpConstant; OpDivModResult; OpBinary; OpReturn]].
Proof. vm_compute. reflexivity. Qed.

(** The executions of [divided] start the same way as those of what the pass makes. *)
Lemma fusion_keeps_executions_witness : ∃ f', fuse divided = Ok f' ∧
  (∃ h, pair_runs divided [] 0 (mkState 0 0 (λ _, None) (λ _, 0), h)) ∧ (∃ h, pair_runs f' [] 0 (mkState 0 0 (λ _, None) (λ _, 0), h)).
Proof.
  assert (verifyFunction divided = Ok tt) as Hv by (vm_compute; reflexivity).
  destruct (analyze divided) as [a|] eqn:Ha; [|vm_compute in Ha; discriminate Ha].
  destruct (fusion_keeps_executions divided a [] 0 Hv Ha) as (blocks & E & H).
  assert (∃ h, pair_runs divided [] 0 (mkState 0 0 (λ _, None) (λ _, 0), h)) as Hs by (exists (λ _, None); exact (pair_start divided [] 0 _)).
  exists (with_blocks divided blocks). split; [exact E|]. split; [exact Hs|exact (proj1 (H _) Hs)].
Defined.
