(* ===== verification/Cost.v ===== *)
(** * Cost: the cost model of register allocation

    Models [GSUCostModel.hpp]: saturating costs, the cost of the moves an
    allocation needs, and the cost of a whole allocation.  The locations it
    reads are those of [LinearScanAllocator.hpp], which are defined here. *)

From S2P Require Import Prelude Target Types Token IR Graph ControlFlow.

(** ** Saturating costs *)

Definition max_u64 : Z := 2 ^ 64 - 1.
Definition saturatedAdd (a b : Z) : Z := if max_u64 - a <? b then max_u64 else a + b.
Definition saturatedMultiply (a b : Z) : Z :=
  if negb (b =? 0) && (max_u64 / b <? a) then max_u64 else a * b.

Record GSUCost := mkCost { fetch_bytes : Z; ram_bytes : Z }.
Definition add_cost (c cost : GSUCost) (weight : Z) : GSUCost :=
  mkCost (saturatedAdd (fetch_bytes c) (saturatedMultiply (fetch_bytes cost) weight))
    (saturatedAdd (ram_bytes c) (saturatedMultiply (ram_bytes cost) weight)).
Definition pressureScore (c : GSUCost) (fetch_clocks : Z) : Z :=
  saturatedAdd (saturatedMultiply (fetch_bytes c) fetch_clocks) (saturatedMultiply (ram_bytes c) 5).

Definition literalBytes (value : Z) : Z := if (value <=? 127) || (0xff80 <=? value) then 2 else 3.
Definition blockWeight (depth : Z) : Z := Z.shiftl 1 (Z.min depth 3 * 6).
Definition copy : GSUCost := mkCost 2 0.
Definition spillLoad (displacement : Z) (far : bool) : GSUCost :=
  mkCost (literalBytes (u16 displacement) + 4 + (if far then 4 else 0)) (if far then 4 else 2).
Definition spillStore (displacement : Z) (far : bool) : GSUCost :=
  mkCost (literalBytes (u16 displacement) + (if far then 13 else 4)) (if far then 4 else 2).
Definition preserveCall : GSUCost := mkCost 8 4.

Definition scalarCallBytes (arguments : Z) : Z :=
  let area := saturatedMultiply arguments 2 in
  let cleanup := if area =? 0 then 0 else if area <=? 15 then 3
                 else literalBytes (u16 (Z.min 65535 area)) + 2 in
  saturatedAdd (5 + cleanup) (saturatedMultiply arguments 3).

Definition scalar (t : CType) : bool :=
  (pointer_level t =? 0) && (array_size t =? 0)
  && (bool_decide (base t = BaseWord) || bool_decide (base t = BaseByte) || bool_decide (base t = BaseBool)).

(** ** Locations *)

Record LinearScanLocation := mkLoc {
  has_register : bool;
  rematerializable : bool;
  boundary_spill : bool;
  physical_register : Z;
  l_start : Z;
  l_end : Z;
  spill_slot : Z
}.

Notation Locations := (gmap Z LinearScanLocation).

Definition in_register (r : Z) (l : LinearScanLocation) : LinearScanLocation :=
  mkLoc true (rematerializable l) (boundary_spill l) r (l_start l) (l_end l) (spill_slot l).
Definition in_slot (s : Z) (l : LinearScanLocation) : LinearScanLocation :=
  mkLoc (has_register l) (rematerializable l) (boundary_spill l) (physical_register l) (l_start l) (l_end l) s.
Definition spanning (first last : Z) (l : LinearScanLocation) : LinearScanLocation :=
  mkLoc (has_register l) (rematerializable l) (boundary_spill l) (physical_register l) first last (spill_slot l).

(** [m.emplace(k, x)] *)
Definition insert_new {A} (m : gmap Z A) (k : Z) (x : A) : gmap Z A :=
  match m !! k with Some _ => m | None => <[k := x]> m end.

(** ** The cost of an allocation *)

Section Allocation.
Context (f : IRFunction) (locations : Locations) (call_live : gmap Z (gset Z)) (cfg : IRControlFlow)
        (size_policy : bool).

Definition definitions_of : gmap Z IRInstruction :=
  foldl (λ m b, foldl (λ m i, if value_isValid (i_result i) then insert_new m (i_result i) i else m) m
                  (b_instructions b)) ∅ (f_blocks f).

Definition displacement (l : LinearScanLocation) : Z :=
  let slot := Z.max 0 (spill_slot l) in
  - Z.min 65535 (u64 (Z.max 0 (f_total_local_alloc_size f) + u32 (2 * u32 (slot + 1)))).

Definition read_cost (value : IRValueId) : result GSUCost :=
  match locations !! value with
  | None => Ok (mkCost 0 0)
  | Some p =>
      if rematerializable p then Ok (mkCost 0 0)
      else if has_register p then Ok copy
      else d ← map_at definitions_of value; Ok (spillLoad (displacement p) (isFarPointer (i_type d)))
  end.

Definition sameLocation (a b : IRValueId) : bool :=
  (a =? b) ||
  match locations !! a, locations !! b with
  | Some x, Some y =>
      (has_register x && has_register y && (physical_register x =? physical_register y))
      || (negb (has_register x) && negb (has_register y) && (0 <=? spill_slot x)
          && (spill_slot x =? spill_slot y))
  | _, _ => false
  end.

(** The cost of writing a result. *)
Definition write_cost (dest : option LinearScanLocation) (t : CType) (c : GSUCost) (weight : Z) : GSUCost :=
  match dest with
  | Some d =>
      if rematerializable d then c
      else add_cost c (if has_register d then copy else spillStore (displacement d) (isFarPointer t)) weight
  | None => c
  end.

Definition edge_weight (block : IRBlockId) : result Z :=
  if size_policy then Ok 1 else d ← at_ (loop_depth cfg) block; Ok (blockWeight (Z.of_nat d)).

Definition phi_cost (i : IRInstruction) (dest : option LinearScanLocation) (c : GSUCost) : result GSUCost :=
  foldM (λ c nv, let '(n, v) := nv in
    if sameLocation (i_result i) v then Ok c else
    w ← edge_weight (default InvalidBlock (i_targets i !! n));
    rc ← read_cost v;
    Ok (write_cost dest (i_type i) (add_cost c rc w) w)) c (indexed (i_operands i)).

Definition two_address (i : IRInstruction) : bool :=
  (is_op (i_opcode i) OpUnary && existsb (String.eqb (i_operation i)) ["~"; "!"; "-"]%string)
  || (is_op (i_opcode i) OpBinary && existsb (String.eqb (i_operation i)) ["+"; "-"; "&"; "|"; "^"]%string).

Definition instruction_cost (i : IRInstruction) (dest : option LinearScanLocation) (position weight : Z)
    (c : GSUCost) : result GSUCost :=
  let tied := match dest, i_operands i with
              | Some d, v :: _ => has_register d && sameLocation (i_result i) v && two_address i
              | _, _ => false end in
  c ← foldM (λ c nv, let '(n, v) := nv in
        if negb tied || negb (Nat.eqb n 0) then rc ← read_cost v; Ok (add_cost c rc weight) else Ok c)
      c (indexed (i_operands i));
  let c := if tied then c else write_cost dest (i_type i) c weight in
  Ok (if is_op (i_opcode i) OpCall
      then foldl (λ c (e : Z * LinearScanLocation),
             if has_register e.2 && match call_live !! position with Some s => bool_decide (e.1 ∈ s) | None => false end
             then add_cost c preserveCall weight else c) c (map_to_list locations)
      else c).

Definition allocation : result GSUCost :=
  '(c, _) ← foldM (λ s b, foldM (λ (s : GSUCost * Z) i,
      weight ← edge_weight (b_id b);
      let dest := if value_isValid (i_result i) then locations !! i_result i else None in
      c ← (if is_op (i_opcode i) OpPhi then phi_cost i dest s.1 else instruction_cost i dest s.2 weight s.1);
      Ok (c, s.2 + 1)) s (b_instructions b)) (mkCost 0 0, 0) (f_blocks f);
  Ok c.
End Allocation.

(* ------------------------------------------------------------------ *)
(** ** Saturation *)

Lemma saturatedAdd_min a b : 0 ≤ a ≤ max_u64 → 0 ≤ b → saturatedAdd a b = Z.min (a + b) max_u64.
Proof. intros. unfold saturatedAdd. destruct (Z.ltb_spec (max_u64 - a) b); lia. Qed.

Lemma saturatedMultiply_min a b : 0 ≤ a → 0 ≤ b → saturatedMultiply a b = Z.min (a * b) max_u64.
Proof.
  intros Ha Hb. unfold saturatedMultiply. destruct (Z.eqb_spec b 0) as [->|Hne]; cbn [negb andb].
  - rewrite Z.mul_0_r. unfold max_u64. lia.
  - destruct (Z.ltb_spec (max_u64 / b) a) as [Hlt|Hge].
    + pose proof (Z.mul_succ_div_gt max_u64 b ltac:(lia)). nia.
    + pose proof (Z.mul_div_le max_u64 b ltac:(lia)). nia.
Qed.
