(* ===== verification/Allocator.v ===== *)
(** * Allocator: global register allocation

    Models the optimizing half of [LinearScanAllocator.cpp]: [runGlobalImpl]
    (interference graph, colouring, spill slots, [improvePhiLocations]),
    [runGlobal] with its choice between two candidates and its table of spare
    registers, and the queries.  The maps and sets of the code are [gmap] and
    [gset]; where the order of their iteration matters the elements are taken
    in ascending order. *)

From S2P Require Import Prelude Target Types Token IR Graph ControlFlow Cost.

Record Allocator := mkAllocator {
  m_locations : Locations;
  m_call_live : gmap Z (gset Z);
  m_spare_registers : gmap Z (list Z);
  m_boundary_store : gmap Z (list Z);
  m_boundary_reload : gmap Z (list Z)
}.

Definition find (a : Allocator) (v : IRValueId) : option LinearScanLocation := m_locations a !! v.
Definition liveAcrossCall (a : Allocator) (v : IRValueId) (position : Z) : bool :=
  match m_call_live a !! position with Some s => bool_decide (v ∈ s) | None => false end.
Definition spareRegisters (a : Allocator) (position : Z) : list Z := default [] (m_spare_registers a !! position).
Definition boundaryStores (a : Allocator) (block : Z) : list Z := default [] (m_boundary_store a !! block).
Definition boundaryReloads (a : Allocator) (block : Z) : list Z := default [] (m_boundary_reload a !! block).

(** The elements of a set in ascending order. *)
Definition ascending (s : gset Z) : list Z := merge_sort Z.le (elements s).

Notation ValueGraph := (gmap Z (gset Z)).
Notation PhiAffinity := (gmap (Z * Z) Z).
Definition edgeKey (a b : Z) : Z * Z := (Z.min a b, Z.max a b).
Definition neighbors (g : ValueGraph) (v : Z) : gset Z := default ∅ (g !! v).
(** [g[a].insert(b)] *)
Definition add_neighbor (a b : Z) (g : ValueGraph) : ValueGraph := <[a := {[b]} ∪ neighbors g a]> g.

(* ------------------------------------------------------------------ *)
(** ** Positions and weights *)

Record Points := mkPoints {
  p_begin : list Z; p_end : list Z; p_locations : Locations; p_far : gset Z; p_position : Z
}.

Definition collect_instruction (s : Points) (i : IRInstruction) : Points :=
  let remat := is_op (i_opcode i) OpConstant || (is_op (i_opcode i) OpAddress && String.eqb (i_operation i) "") in
  let valid := value_isValid (i_result i) in
  mkPoints (p_begin s) (p_end s)
    (if valid then insert_new (p_locations s) (i_result i)
                     (mkLoc false remat false 0 (p_position s) (p_position s) (-1))
     else p_locations s)
    (if valid && isFarPointer (i_type i) then {[i_result i]} ∪ p_far s else p_far s)
    (p_position s + 1).

(** [position - 1] on [std::size_t]. *)
Definition before_position (position : Z) : Z := if position =? 0 then 2 ^ 64 - 1 else position - 1.

Definition collect_block (s : Points) (b : IRBasicBlock) : Points :=
  let s := mkPoints (<[Z.to_nat (b_id b) := p_position s]> (p_begin s)) (p_end s) (p_locations s) (p_far s)
             (p_position s) in
  let s := foldl collect_instruction s (b_instructions b) in
  mkPoints (p_begin s) (<[Z.to_nat (b_id b) := before_position (p_position s)]> (p_end s)) (p_locations s) (p_far s)
    (p_position s).

Definition collect (f : IRFunction) : Points :=
  let zeros := replicate (length (f_blocks f)) 0 in
  foldl collect_block (mkPoints zeros zeros ∅ ∅ 0) (f_blocks f).

Section Weights.
Context (f : IRFunction) (cfg : IRControlFlow) (begins ends : list Z) (far : gset Z)
        (cost_priority size_policy : bool).

Record Touched := mkTouched { t_locations : Locations; t_weight : gmap Z Z }.

(** What one use adds to the weight. *)
Definition use_cost (depth : Z) : Z :=
  u64 ((if size_policy then 1 else blockWeight depth)
       * (if cost_priority
          then if size_policy then u64 (fetch_bytes (spillLoad (-2) false) - fetch_bytes copy)
               else u64 (pressureScore (spillLoad (-2) false) 1 - pressureScore copy 1)
          else 1)).

Definition touch (s : Touched) (point : Z) (value : IRValueId) (depth : Z) (use : bool) : result Touched :=
  l ← map_at (t_locations s) value;
  Ok (mkTouched (<[value := spanning (Z.min (l_start l) point) (Z.max (l_end l) point) l]> (t_locations s))
       (if use then <[value := u64 (default 0 (t_weight s !! value) + use_cost depth)]> (t_weight s)
        else t_weight s)).

Definition touch_operands (b : IRBlockId) (position : Z) (i : IRInstruction) (s : Touched) : result Touched :=
  foldM (λ s ov, let '(o, v) := ov in
    if is_op (i_opcode i) OpPhi then
      edge ← at_ (i_targets i) (Z.of_nat o);
      point ← at_ ends edge; depth ← at_ (loop_depth cfg) edge;
      touch s point v (Z.of_nat depth) true
    else depth ← at_ (loop_depth cfg) b; touch s position v (Z.of_nat depth) true) s (indexed (i_operands i)).

Definition block_index (b : IRBasicBlock) : nat := Z.to_nat (b_id b).
Definition point_of (points : list Z) (b : IRBasicBlock) : Z := default 0 (points !! block_index b).
Definition depth_at (b : IRBasicBlock) : Z := Z.of_nat (default 0%nat (loop_depth cfg !! block_index b)).

(** The values that survive the block stretch their intervals, but are no uses. *)
Definition touch_live (values : gset Z) (point depth : Z) (s : Touched) : result Touched :=
  foldM (λ s v, touch s point v depth false) s (ascending values).

(** ** Values live across calls *)

Record CallScan := mkScan {
  c_live : gset Z; c_position : Z; c_calls : gmap Z (gset Z); c_entries : Z; c_weight : gmap Z Z
}.

Definition save_value (locations : Locations) (depth : Z) (i : IRInstruction) (position : Z)
    (s : CallScan) (v : Z) : result CallScan :=
  l ← map_at locations v;
  if rematerializable l || bool_decide (v ∈ far) then Ok s else
  throw_if (1000000 <? c_entries s + 1) (error_at "O2 call-liveness resource limit exceeded." (i_source i));;
  let penalty := if size_policy then fetch_bytes preserveCall
                 else u64 (pressureScore preserveCall 1 * blockWeight depth) in
  let priority := default 0 (c_weight s !! v) in
  Ok (mkScan (c_live s) (c_position s)
       (<[position := {[v]} ∪ default ∅ (c_calls s !! position)]> (c_calls s)) (c_entries s + 1)
       (if cost_priority then <[v := if penalty <? priority then priority - penalty else 1]> (c_weight s)
        else c_weight s)).

Definition scan_calls (locations : Locations) (depth : Z) (s : CallScan) (i : IRInstruction) : result CallScan :=
  let live := if value_isValid (i_result i) then c_live s ∖ {[i_result i]} else c_live s in
  let s := mkScan live (c_position s) (c_calls s) (c_entries s) (c_weight s) in
  s ← (if is_op (i_opcode i) OpCall
       then foldM (save_value locations depth i (c_position s))
              (mkScan live (c_position s)
                 (<[c_position s := default ∅ (c_calls s !! c_position s)]> (c_calls s)) (c_entries s) (c_weight s))
              (ascending live)
       else Ok s);
  Ok (mkScan (if is_op (i_opcode i) OpPhi then c_live s else c_live s ∪ list_to_set (i_operands i))
       (if c_position s =? 0 then 0 else c_position s - 1) (c_calls s) (c_entries s) (c_weight s)).

(** The second pass over the blocks. *)
Record Weighing := mkWeighing { w_touched : Touched; w_calls : gmap Z (gset Z); w_entries : Z }.

Definition weigh_block (w : Weighing) (b : IRBasicBlock) : result Weighing :=
  '(t, _) ← foldM (λ (s : Touched * Z) i,
              t ← touch_operands (b_id b) s.2 i s.1; Ok (t, s.2 + 1))
            (w_touched w, point_of begins b) (b_instructions b);
  t ← touch_live (set_of (live_in cfg) (block_index b)) (point_of begins b) (depth_at b) t;
  t ← touch_live (set_of (live_out cfg) (block_index b)) (point_of ends b) (depth_at b) t;
  s ← foldM (scan_calls (t_locations t) (depth_at b))
        (mkScan (set_of (live_out cfg) (block_index b)) (point_of ends b) (w_calls w) (w_entries w) (t_weight t))
        (rev (b_instructions b));
  Ok (mkWeighing (mkTouched (t_locations t) (c_weight s)) (c_calls s) (c_entries s)).

Definition weigh (locations : Locations) : result Weighing :=
  foldM weigh_block (mkWeighing (mkTouched locations ∅) ∅ 0) (f_blocks f).

(** ** Induction values *)

(** A phi of a header that takes a value from a latch, and that value. *)
Definition induction_of (loop : Loop) (phi : IRInstruction) : gset Z :=
  let carried := omap (λ vt : Z * Z, if bool_decide (Z.to_nat vt.2 ∈ latches loop) then Some vt.1 else None)
                   (zip (i_operands phi) (i_targets phi)) in
  match last carried with
  | None => ∅
  | Some update => {[i_result phi]} ∪ (if value_isValid update then {[update]} else ∅)
  end.

Definition inductions : gset Z :=
  if size_policy then ∅ else
  ⋃ ((λ loop, ⋃ (induction_of loop <$> phis_of f (header loop))) <$> loops cfg).

(** ** The order of colouring *)

Definition check_registers (allocatable : list Z) : result (list Z) :=
  registers ← foldM (λ rs reg,
      throw_if (negb (bool_decide (reg ∈ [2; 4; 5; 7; 8; 14])))
        (RuntimeError "Global allocator: register has a fixed GSU/ABI role.");;
      Ok (if bool_decide (reg ∈ rs) then rs else rs ++ [reg])) [] allocatable;
  Ok (merge_sort Z.le registers).

Section Order.
Context (locations : Locations) (weight : gmap Z Z).

Definition weight_of (v : Z) : Z := default 0 (weight !! v).
Definition start_of (v : Z) : Z := match locations !! v with Some l => l_start l | None => 0 end.

Definition before (a b : Z) : bool :=
  if negb (weight_of a =? weight_of b) then weight_of b <? weight_of a
  else if negb (Bool.eqb (bool_decide (a ∈ inductions)) (bool_decide (b ∈ inductions)))
  then bool_decide (a ∈ inductions)
  else if negb (start_of a =? start_of b) then start_of a <? start_of b
  else a <? b.

Definition not_after (a b : Z) : Prop := before b a = false.
#[global] Instance not_after_dec : RelDecision not_after.
Proof. intros a b. unfold not_after. apply _. Defined.

(** A value the colouring handles. *)
Definition eligible_at (v : Z) (l : LinearScanLocation) : bool :=
  negb (rematerializable l) && negb (bool_decide (v ∈ far)) && match weight !! v with Some _ => true | None => false end.
Definition eligible (v : Z) : result bool := l ← map_at locations v; Ok (eligible_at v l).

Definition ordered : list Z :=
  merge_sort not_after
    (fst <$> List.filter (λ e, eligible_at e.1 e.2) (map_to_list locations)).
End Order.

(** ** The interference graph *)

Record Conflicts := mkConflicts {
  interference : ValueGraph; preferences : ValueGraph; affinity : PhiAffinity; g_edges : Z
}.

Definition conflict (locations : Locations) (weight : gmap Z Z) (a b : Z) (g : Conflicts) : result Conflicts :=
  if a =? b then Ok g else
  ea ← eligible locations weight a;
  if negb ea then Ok g else
  eb ← eligible locations weight b;
  if negb eb then Ok g else
  if bool_decide (b ∈ neighbors (interference g) a) then Ok g else
  throw_if (1000000 <? g_edges g + 1)
    (CompileError "O2 register-interference resource limit exceeded." 1 1);;
  Ok (mkConflicts (add_neighbor b a (add_neighbor a b (interference g))) (preferences g) (affinity g)
        (g_edges g + 1)).

Definition prefer (a b : Z) (g : Conflicts) : Conflicts :=
  mkConflicts (interference g) (add_neighbor b a (add_neighbor a b (preferences g))) (affinity g) (g_edges g).
Definition attract (a b amount : Z) (g : Conflicts) : Conflicts :=
  mkConflicts (interference g) (preferences g)
    (<[edgeKey a b := u64 (default 0 (affinity g !! edgeKey a b) + amount)]> (affinity g)) (g_edges g).

Definition tied_form (i : IRInstruction) : bool :=
  two_address i || (is_op (i_opcode i) OpCast && (pointer_level (i_type i) =? 0)).

Definition both_eligible (locations : Locations) (weight : gmap Z Z) (a b : Z) : result bool :=
  and_r (eligible locations weight a) (eligible locations weight b).

Definition phi_preferences (locations : Locations) (weight : gmap Z Z) (i : IRInstruction) (g : Conflicts)
    : result Conflicts :=
  foldM (λ g nv, let '(n, v) := nv in
    let g := prefer (i_result i) v g in
    e ← both_eligible locations weight (i_result i) v;
    if e && negb (i_result i =? v) then
      (if size_policy then Ok (attract (i_result i) v 1 g)
       else t ← at_ (i_targets i) (Z.of_nat n); d ← at_ (loop_depth cfg) t;
            Ok (attract (i_result i) v (blockWeight (Z.of_nat d)) g))
    else Ok g) g (indexed (i_operands i)).

Definition tied_preferences (locations : Locations) (weight : gmap Z Z) (b : IRBlockId) (i : IRInstruction)
    (g : Conflicts) : result Conflicts :=
  match i_operands i with
  | input :: _ =>
      if tied_form i && value_isValid (i_result i) && negb (input =? i_result i) then
        e ← both_eligible locations weight input (i_result i);
        if (e : bool) then
          let g := prefer (i_result i) input g in
          if size_policy then Ok (attract (i_result i) input 1 g)
          else d ← at_ (loop_depth cfg) b; Ok (attract (i_result i) input (blockWeight (Z.of_nat d)) g)
        else Ok g
      else Ok g
  | [] => Ok g
  end.

(** The eligible ones of a list of values. *)
Definition add_eligible (locations : Locations) (weight : gmap Z Z) (s : gset Z) (values : list Z)
    : result (gset Z) :=
  foldM (λ s v, e ← eligible locations weight v; Ok (if (e : bool) then {[v]} ∪ s else s)) s values.

Definition interfere (locations : Locations) (weight : gmap Z Z) (b : IRBlockId) (s : gset Z * Conflicts)
    (i : IRInstruction) : result (gset Z * Conflicts) :=
  let '(live, g) := s in
  '(live, g) ← (if value_isValid (i_result i) then
                  e ← eligible locations weight (i_result i);
                  g ← (if (e : bool)
                       then foldM (λ g v, conflict locations weight (i_result i) v g) g (ascending live)
                       else Ok g);
                  Ok (live ∖ {[i_result i]}, g)
                else Ok (live, g));
  if is_op (i_opcode i) OpPhi then g ← phi_preferences locations weight i g; Ok (live, g)
  else
    g ← tied_preferences locations weight b i g;
    live ← add_eligible locations weight live (i_operands i);
    Ok (live, g).

Definition interfere_block (locations : Locations) (weight : gmap Z Z) (g : Conflicts) (b : IRBasicBlock)
    : result Conflicts :=
  live ← add_eligible locations weight ∅ (ascending (set_of (live_out cfg) (block_index b)));
  '(_, g) ← foldM (interfere locations weight (b_id b)) (live, g) (rev (b_instructions b));
  Ok g.

Definition conflicts (locations : Locations) (weight : gmap Z Z) : result Conflicts :=
  foldM (interfere_block locations weight) (mkConflicts ∅ ∅ ∅ 0) (f_blocks f).
End Weights.

(* ------------------------------------------------------------------ *)
(** ** Colouring *)

(** The historical homes first. *)
Definition home_preference (reg : Z) : Z :=
  if reg =? 5 then 0 else if reg =? 7 then 1 else if reg =? 8 then 2 else 100 + reg.

(** The affinity already gained by putting [value] in each register. *)
Definition register_scores (registers : list Z) (g : Conflicts) (locations : Locations) (value : Z)
    : result (gmap Z Z) :=
  foldM (λ scores p,
    other ← map_at locations p;
    match affinity g !! edgeKey value p with
    | Some a =>
        if has_register other
        then Ok (<[physical_register other := u64 (default 0 (scores !! physical_register other) + a)]> scores)
        else Ok scores
    | None => Ok scores
    end) (list_to_map ((λ r, (r, 0)) <$> registers)) (ascending (neighbors (preferences g) value)).

Definition choice_order (scores : gmap Z Z) (a b : Z) : Prop :=
  let sa := default 0 (scores !! a) in let sb := default 0 (scores !! b) in
  sb < sa ∨ sa = sb ∧ home_preference a ≤ home_preference b.
#[global] Instance choice_order_dec scores : RelDecision (choice_order scores).
Proof. intros a b. unfold choice_order. apply _. Defined.

Definition holds_register (locations : Locations) (reg : Z) (neighbor : Z) : result bool :=
  other ← map_at locations neighbor; Ok (has_register other && (physical_register other =? reg)).

Definition occupied (locations : Locations) (g : Conflicts) (value reg : Z) : result bool :=
  foldM (λ o neighbor, h ← holds_register locations reg neighbor; Ok (o || h)) false
    (ascending (neighbors (interference g) value)).

(** The first free choice. *)
Fixpoint first_choice (locations : Locations) (g : Conflicts) (value : Z) (choices : list Z)
    : result (option Z) :=
  match choices with
  | [] => Ok None
  | reg :: choices =>
      o ← occupied locations g value reg;
      if (o : bool) then first_choice locations g value choices else Ok (Some reg)
  end.

Definition colour (registers : list Z) (g : Conflicts) (locations : Locations) (value : Z) : result Locations :=
  l ← map_at locations value;
  scores ← register_scores registers g locations value;
  c ← first_choice locations g value (merge_sort (choice_order scores) registers);
  Ok (match c with Some reg => <[value := in_register reg l]> locations | None => locations end).

(** ** Spill slots *)

Definition slots_of (locations : Locations) (values : gset Z) : result (gset Z) :=
  foldM (λ s v, l ← map_at locations v; Ok (if 0 <=? spill_slot l then {[spill_slot l]} ∪ s else s)) ∅
    (ascending values).

(** [while (occupied.count(slot)) ++slot;] *)
Fixpoint free_slot (used : gset Z) (fuel : nat) (slot : Z) : Z :=
  match fuel with
  | O => slot
  | S fuel => if bool_decide (slot ∈ used) then free_slot used fuel (slot + 1) else slot
  end.

(** The slot of a preferred value that no neighbour uses. *)
Fixpoint preferred_slot (locations : Locations) (used : gset Z) (values : list Z) : result (option Z) :=
  match values with
  | [] => Ok None
  | v :: values =>
      l ← map_at locations v;
      if (0 <=? spill_slot l) && negb (bool_decide (spill_slot l ∈ used)) then Ok (Some (spill_slot l))
      else preferred_slot locations used values
  end.

Definition spill (g : Conflicts) (locations : Locations) (value : Z) : result Locations :=
  l ← map_at locations value;
  if has_register l then Ok locations else
  used ← slots_of locations (neighbors (interference g) value);
  p ← preferred_slot locations used (ascending (neighbors (preferences g) value));
  let l := match p with Some s => in_slot s l | None => l end in
  let l := if spill_slot l <? 0 then in_slot (free_slot used (S (size used)) 0) l else l in
  Ok (<[value := l]> locations).

(* ------------------------------------------------------------------ *)
(** ** Improving phi locations *)

Definition MaxWork : Z := 2500000.

Section Improve.
Context (interf prefs : ValueGraph) (aff : PhiAffinity).

(** [stopped]: the work limit was hit and the function has returned. *)
Record Improving := mkImproving {
  im_locations : Locations; im_work : Z; im_changed : bool; im_stopped : bool
}.
Definition stop (s : Improving) : Improving := mkImproving (im_locations s) (im_work s) (im_changed s) true.

(** The Kempe chain of [source]: its component in the two colours.  [None] when
    the work limit is hit. *)
Definition chain_step (locations : Locations) (ra rb : Z) (s : option (gset Z * list Z * Z)) (next : Z)
    : result (option (gset Z * list Z * Z)) :=
  match s with
  | None => Ok None
  | Some (component, pending, work) =>
      if MaxWork <? work + 1 then Ok None else
      l ← map_at locations next;
      Ok (Some (if has_register l && ((physical_register l =? ra) || (physical_register l =? rb))
                   && negb (bool_decide (next ∈ component))
                then ({[next]} ∪ component, next :: pending, work + 1)
                else (component, pending, work + 1)))
  end.

Fixpoint chain (locations : Locations) (ra rb : Z) (fuel : nat) (component : gset Z) (pending : list Z) (work : Z)
    : result (option (gset Z * Z)) :=
  match pending, fuel with
  | value :: pending, S fuel =>
      r ← foldM (chain_step locations ra rb) (Some (component, pending, work)) (ascending (neighbors interf value));
      match r with
      | Some (component, pending, work) => chain locations ra rb fuel component pending work
      | None => Ok None
      end
  | _, _ => Ok (Some (component, work))
  end.

(** The affinity edges at the component, one unit of work per preference. *)
Definition affected_edges (component : gset Z) (work : Z) : option (list (Z * Z) * Z) :=
  foldl (λ s value, foldl (λ s next,
      match s with
      | None => None
      | Some (es, work) =>
          if MaxWork <? work + 1 then None else
          let key := edgeKey value next in
          Some (match aff !! key with
                | Some _ => if bool_decide (key ∈ es) then es else key :: es
                | None => es end, work + 1)
      end) s (ascending (neighbors prefs value))) (Some ([], work)) (ascending component).

Definition swapped (locations : Locations) (component : gset Z) (ra rb value : Z) : result Z :=
  l ← map_at locations value;
  let reg := physical_register l in
  Ok (if negb (bool_decide (value ∈ component)) then reg else if reg =? ra then rb else ra).

(** What the interchange gains; [None] when the work limit is hit. *)
Definition gain_of (locations : Locations) (component : gset Z) (ra rb : Z) (es : list (Z * Z)) (work : Z)
    : result (option (Z * Z)) :=
  foldM (λ s key,
    match s with
    | None => Ok None
    | Some (gain, work) =>
        if MaxWork <? work + 1 then Ok None else
        x ← map_at locations key.1; y ← map_at locations key.2;
        if negb (has_register x) || negb (has_register y) then Ok (Some (gain, work + 1)) else
        let same := physical_register x =? physical_register y in
        sx ← swapped locations component ra rb key.1; sy ← swapped locations component ra rb key.2;
        a ← map_at aff key;
        Ok (Some (swrap 64 (gain + (Z.b2z (sx =? sy) - Z.b2z same) * swrap 64 a), work + 1))
    end) (Some (0, work)) es.

Definition interchange (locations : Locations) (component : gset Z) (ra rb : Z) : result Locations :=
  foldM (λ locations v,
    reg ← swapped locations component ra rb v; l ← map_at locations v;
    Ok (<[v := mkLoc (has_register l) (rematerializable l) (boundary_spill l) reg (l_start l) (l_end l)
                 (spill_slot l)]> locations)) locations (ascending component).

Definition improve_edge (s : Improving) (source target : Z) : result Improving :=
  if im_stopped s then Ok s else
  let locations := im_locations s in
  a ← map_at locations source; b ← map_at locations target;
  let ra := physical_register a in let rb := physical_register b in
  if negb (has_register a) || negb (has_register b) || (ra =? rb) then Ok s else
  c ← chain locations ra rb (S (size locations)) {[source]} [source] (im_work s);
  match c with
  | None => Ok (stop s)
  | Some (component, work) =>
      let s := mkImproving locations work (im_changed s) false in
      if bool_decide (target ∈ component) then Ok s else
      match affected_edges component work with
      | None => Ok (stop s)
      | Some (es, work) =>
          g ← gain_of locations component ra rb es work;
          match g with
          | None => Ok (stop s)
          | Some (gain, work) =>
              if gain <=? 0 then Ok (mkImproving locations work (im_changed s) false)
              else ls ← interchange locations component ra rb; Ok (mkImproving ls work true false)
          end
      end
  end.

(** The phi edges by descending affinity. *)
Definition edge_order (a b : Z * Z) : Prop :=
  let wa := default 0 (aff !! a) in let wb := default 0 (aff !! b) in
  wb < wa ∨ wa = wb ∧ (a.1 < b.1 ∨ a.1 = b.1 ∧ a.2 ≤ b.2).
#[global] Instance edge_order_dec : RelDecision edge_order.
Proof. intros a b. unfold edge_order. apply _. Defined.
Definition ordered_edges : list (Z * Z) := merge_sort edge_order (fst <$> map_to_list aff).

(** A round; the second one only when the first changed something. *)
Definition improve_round (s : Improving) : result Improving :=
  foldM (λ s e, s ← improve_edge s e.1 e.2; improve_edge s e.2 e.1)
    (mkImproving (im_locations s) (im_work s) false (im_stopped s)) ordered_edges.

(** The slots of preferred values that no neighbour uses; [None] when the work
    limit is hit. *)
Definition slot_choices (locations : Locations) (key : Z) (own work : Z) : result (option (gset Z * Z)) :=
  o ← foldM (λ (s : option (gset Z * Z)) other,
        match s with
        | None => Ok None
        | Some (used, work) =>
            if MaxWork <? work + 1 then Ok None else
            l ← map_at locations other;
            Ok (Some (if 0 <=? spill_slot l then {[spill_slot l]} ∪ used else used, work + 1))
        end) (Some (∅, work)) (ascending (neighbors interf key));
  match o with
  | None => Ok None
  | Some (used, work) =>
      foldM (λ (s : option (gset Z * Z)) other,
        match s with
        | None => Ok None
        | Some (choices, work) =>
            if MaxWork <? work + 1 then Ok None else
            l ← map_at locations other;
            Ok (Some (if (0 <=? spill_slot l) && negb (bool_decide (spill_slot l ∈ used))
                      then {[spill_slot l]} ∪ choices else choices, work + 1))
        end) (Some ({[own]}, work)) (ascending (neighbors prefs key))
  end.

Definition slot_score (locations : Locations) (key slot : Z) : result Z :=
  foldM (λ value other,
    match aff !! edgeKey key other with
    | Some a => l ← map_at locations other; Ok (if spill_slot l =? slot then u64 (value + a) else value)
    | None => Ok value
    end) 0 (ascending (neighbors prefs key)).

(** Choosing among the slots: (locations, best, work, stopped). *)
Definition try_slot (key cost : Z) (s : Locations * Z * Z * bool) (slot : Z) : result (Locations * Z * Z * bool) :=
  let '(locations, best, work, stopped) := s in
  if (stopped : bool) then Ok s else
  if MaxWork - work <? cost then Ok (locations, best, work, true) else
  next ← slot_score locations key slot;
  l ← map_at locations key;
  Ok (if best <? next then (<[key := in_slot slot l]> locations, next, work + cost, false)
      else (locations, best, work + cost, false)).

Definition improve_slot (s : Improving) (key : Z) : result Improving :=
  if im_stopped s then Ok s else
  let locations := im_locations s in
  l ← map_at locations key;
  if has_register l || (spill_slot l <? 0) then Ok s else
  c ← slot_choices locations key (spill_slot l) (im_work s);
  match c with
  | None => Ok (stop s)
  | Some (choices, work) =>
      let cost := Z.of_nat (size (neighbors prefs key)) + 1 in
      if MaxWork - work <? cost then Ok (stop s) else
      best ← slot_score locations key (spill_slot l);
      '(ls, _, work, stopped) ← foldM (try_slot key cost) (locations, best, work + cost, false) (ascending choices);
      Ok (mkImproving ls work (im_changed s) stopped)
  end.

Definition improve_slots (s : Improving) : result Improving :=
  foldM improve_slot s (ascending (dom (im_locations s))).

Definition improvePhiLocations (locations : Locations) : result Locations :=
  s ← improve_round (mkImproving locations 0 false false);
  s ← (if im_changed s && negb (im_stopped s) then improve_round s else Ok s);
  s ← improve_slots s;
  s ← improve_slots s;
  Ok (im_locations s).
End Improve.

(* ------------------------------------------------------------------ *)
(** ** The allocator *)

Definition runGlobalImpl (f : IRFunction) (allocatable : list Z) (cost_priority size_policy : bool)
    : result Allocator :=
  cfg ← analyze f;
  let p := collect f in
  w ← weigh f cfg (p_begin p) (p_end p) (p_far p) cost_priority size_policy (p_locations p);
  let locations := t_locations (w_touched w) in
  let weight := t_weight (w_touched w) in
  registers ← check_registers allocatable;
  let order := ordered f cfg (p_far p) size_policy locations weight in
  g ← conflicts f cfg (p_far p) size_policy locations weight;
  locations ← foldM (colour registers g) locations order;
  locations ← foldM (spill g) locations order;
  locations ← improvePhiLocations (interference g) (preferences g) (affinity g) locations;
  Ok (mkAllocator locations (w_calls w) ∅ ∅ ∅).

(** ** Spare registers *)

(** [None] once the work limit has cleared the table. *)
Definition busy_registers (locations : Locations) (live : gset Z) (work : Z) : option (gset Z * Z) :=
  foldl (λ s v,
    match s with
    | None => None
    | Some (busy, work) =>
        if 1000000 <? work + 1 then None else
        Some (match locations !! v with
              | Some l => if has_register l then {[physical_register l]} ∪ busy else busy
              | None => busy end, work + 1)
    end) (Some (∅, work)) (ascending live).

Record Spare := mkSpare { sp_live : gset Z; sp_point : Z; sp_work : Z; sp_table : gmap Z (list Z) }.

Definition spare_step (locations : Locations) (allocatable : list Z) (s : option Spare) (i : IRInstruction)
    : option Spare :=
  match s with
  | None => None
  | Some s =>
      if 1000000 <? sp_work s + 1 then None else
      let point := sp_point s - 1 in
      let live := if is_op (i_opcode i) OpPhi then sp_live s else sp_live s ∪ list_to_set (i_operands i) in
      let valid := value_isValid (i_result i) in
      let live := if valid then {[i_result i]} ∪ live else live in
      match busy_registers locations live (sp_work s + 1) with
      | None => None
      | Some (busy, work) =>
          Some (mkSpare (if valid then live ∖ {[i_result i]} else live) point work
            (<[point := default [] (sp_table s !! point)
                        ++ List.filter (λ reg, negb (bool_decide (reg ∈ busy))) allocatable]> (sp_table s)))
      end
  end.

Definition spare_block (cfg : IRControlFlow) (locations : Locations) (allocatable : list Z)
    (s : result (option (Z * Z * gmap Z (list Z)))) (b : IRBasicBlock) : result (option (Z * Z * gmap Z (list Z))) :=
  s ← s;
  match s with
  | None => Ok None
  | Some (last, work, table) =>
      let last := last + zlen (b_instructions b) in
      live ← at_ (live_out cfg) (b_id b);
      Ok (match foldl (spare_step locations allocatable) (Some (mkSpare live last work table)) (rev (b_instructions b)) with
          | Some s => Some (last, sp_work s, sp_table s)
          | None => None
          end)
  end.

Definition spare_table (f : IRFunction) (cfg : IRControlFlow) (locations : Locations) (allocatable : list Z)
    : result (gmap Z (list Z)) :=
  s ← foldl (spare_block cfg locations allocatable) (Ok (Some (0, 0, ∅))) (f_blocks f);
  Ok (match s with Some (_, _, table) => table | None => ∅ end).

(** The cheaper of the two candidates, the first unless the second wins. *)
Definition better (size_policy : bool) (before after : GSUCost) : bool :=
  negb (if size_policy then fetch_bytes before <=? fetch_bytes after
        else (pressureScore before 1 <=? pressureScore after 1)
             || (pressureScore before 5 <? pressureScore after 5)).

Definition runGlobal (f : IRFunction) (allocatable : list Z) (policy : OptimizationLevel) : result Allocator :=
  let size_policy := bool_decide (policy = OptSize) in
  first ← runGlobalImpl f allocatable false size_policy;
  a ← (if (f_value_count f <=? 4096) && (zlen (f_blocks f) <=? 256) then
         cfg ← analyze f;
         before ← allocation f (m_locations first) (m_call_live first) cfg size_policy;
         second ← runGlobalImpl f allocatable true size_policy;
         after ← allocation f (m_locations second) (m_call_live second) cfg size_policy;
         Ok (if better size_policy before after then second else first)
       else Ok first);
  cfg ← analyze f;
  table ← spare_table f cfg (m_locations a) allocatable;
  Ok (mkAllocator (m_locations a) (m_call_live a) table (m_boundary_store a) (m_boundary_reload a)).
