(* ===== verification/AllocSound.v ===== *)
(** * AllocSound: the allocator never clobbers a live value

    Proofs about [Allocator]: the interference graph joins every result with
    every value live across its definition, colouring and spilling keep
    neighbours apart, and the rearrangements of [improvePhiLocations] preserve
    that. *)

From S2P Require Import Prelude Target Types Token IR Graph IRVerify IRSound ControlFlow FlowSound LoopSound.
From S2P Require Import Liveness Analysis Cost Allocator.

Lemma elem_of_ascending s x : x ∈ ascending s ↔ x ∈ s.
Proof. unfold ascending. rewrite merge_sort_Permutation. apply elem_of_elements. Qed.

Lemma NoDup_ascending s : NoDup (ascending s).
Proof. unfold ascending. rewrite merge_sort_Permutation. apply NoDup_elements. Qed.

Lemma map_at_ok {A} (m : gmap Z A) k x : map_at m k = Ok x ↔ m !! k = Some x.
Proof. unfold map_at. destruct (m !! k); naive_solver. Qed.

(* ------------------------------------------------------------------ *)
(** ** Graphs and colourings *)

Lemma neighbors_add a b c g : neighbors (add_neighbor a b g) c = if decide (c = a) then {[b]} ∪ neighbors g a else neighbors g c.
Proof.
  unfold neighbors, add_neighbor. destruct (decide (c = a)) as [->|Hne].
  - by rewrite lookup_insert_eq.
  - by rewrite lookup_insert_ne.
Qed.

Definition joined (g : ValueGraph) (a b : Z) : Prop := b ∈ neighbors g a.

Lemma joined_add a b g x y :
  joined (add_neighbor b a (add_neighbor a b g)) x y ↔ joined g x y ∨ x = a ∧ y = b ∨ x = b ∧ y = a.
Proof. unfold joined. rewrite !neighbors_add. repeat case_decide; set_solver. Qed.

(** Two values that do not share a home. *)
Definition apart (x y : LinearScanLocation) : Prop :=
  ¬ (has_register x ∧ has_register y ∧ physical_register x = physical_register y) ∧
  ¬ (0 ≤ spill_slot x ∧ spill_slot x = spill_slot y).

Lemma apart_sym x y : apart x y → apart y x.
Proof. unfold apart. intuition lia. Qed.

Definition coloured (g : ValueGraph) (m : Locations) : Prop :=
  ∀ a b x y, joined g a b → m !! a = Some x → m !! b = Some y → apart x y.

(** What stays of a location: everything but the home. *)
Definition same_value (x y : LinearScanLocation) : Prop :=
  rematerializable x = rematerializable y ∧ boundary_spill x = boundary_spill y
  ∧ l_start x = l_start y ∧ l_end x = l_end y.

(** Locations derived from [m0] by giving homes to the values of [order]. *)
Record placed (g : ValueGraph) (regs order : list Z) (m0 m : Locations) : Prop := {
  pl_coloured : coloured g m;
  pl_same v : match m0 !! v, m !! v with Some x, Some y => same_value x y | None, None => True | _, _ => False end;
  pl_register v x : m !! v = Some x → has_register x → physical_register x ∈ regs;
  pl_either v x : m !! v = Some x → has_register x → spill_slot x < 0;
  pl_outside v x : m !! v = Some x → v ∉ order → ¬ has_register x ∧ spill_slot x < 0
}.

Section Placing.
Context (g : ValueGraph) (regs order : list Z) (m0 : Locations).
Hypothesis Hsym : ∀ a b, joined g a b → joined g b a.
Hypothesis Hirr : ∀ a, ¬ joined g a a.

(** Giving one value a home that its neighbours do not use. *)
Lemma placed_insert m v x y :
  placed g regs order m0 m → m !! v = Some x → same_value x y → v ∈ order →
  (has_register y → physical_register y ∈ regs ∧ spill_slot y < 0) →
  (∀ n z, joined g v n → m !! n = Some z → apart y z) →
  placed g regs order m0 (<[v := y]> m).
Proof.
  intros [Hc Hs Hr He Ho] Hv Hxy Hin Hy Hn. split.
  - intros a b xa xb Hab Ha Hb. apply lookup_insert_Some in Ha as [[<- <-]|[Hva Ha]];
      apply lookup_insert_Some in Hb as [[<- <-]|[Hvb Hb]].
    + by destruct (Hirr v).
    + by apply (Hn b).
    + apply apart_sym, (Hn a); [by apply Hsym|done].
    + by apply (Hc a b).
  - intros w. destruct (decide (w = v)) as [->|Hne].
    + rewrite lookup_insert_eq. specialize (Hs v). rewrite Hv in Hs. destruct (m0 !! v); [|done].
      unfold same_value in *. intuition congruence.
    + rewrite lookup_insert_ne by done. apply Hs.
  - intros w z [[<- <-]|[_ Hw]]%lookup_insert_Some; [apply Hy | by apply (Hr w)].
  - intros w z [[<- <-]|[_ Hw]]%lookup_insert_Some; [apply Hy | by apply (He w)].
  - intros w z [[<- <-]|[_ Hw]]%lookup_insert_Some; [done | by apply Ho].
Qed.

(** ** Colouring *)

Lemma occupied_false G m v reg : interference G = g → occupied m G v reg = Ok false →
  ∀ n z, joined g v n → m !! n = Some z → ¬ (has_register z ∧ physical_register z = reg).
Proof.
  intros HG H n z Hn Hz. unfold occupied in H. rewrite HG in H.
  assert (n ∈ ascending (neighbors g v)) as Hin by by apply elem_of_ascending. revert H Hin.
  assert (∀ l o, foldM (λ o neighbor, h ← holds_register m reg neighbor; Ok (o || h)) o l = Ok false →
    o = false ∧ (n ∈ l → ¬ (has_register z ∧ physical_register z = reg))) as Hf.
  { induction l as [|x l IH]; intros o H; cbn [foldM] in H.
    - injection H as ->. split; [done|]. by intros ?%elem_of_nil.
    - apply result_bind_ok in H as (o' & Ho & H). apply result_bind_ok in Ho as (h & Hh & [= <-]).
      apply IH in H as [E H]. apply orb_false_iff in E as [-> ->]. split; [done|].
      intros [->|Hin]%elem_of_cons; [|auto]. unfold holds_register in Hh.
      apply result_bind_ok in Hh as (z' & Hz'%map_at_ok & [= Hh]). simplify_eq.
      intros [H1 H2]. rewrite H2, Z.eqb_refl in Hh. by destruct (has_register z). }
  intros H Hin. by apply (Hf _ _ H).
Qed.

Lemma first_choice_ok G m v choices reg : first_choice m G v choices = Ok (Some reg) →
  reg ∈ choices ∧ occupied m G v reg = Ok false.
Proof.
  induction choices as [|r choices IH]; intros H; cbn [first_choice] in H; [done|].
  apply result_bind_ok in H as ([] & Ho & H).
  - apply IH in H as [H1 H2]. split; [by right|done].
  - injection H as <-. split; [by left|done].
Qed.

(** While colouring there are no slots yet. *)
Definition no_slots (m : Locations) : Prop := ∀ v x, m !! v = Some x → spill_slot x < 0.

Lemma colour_placed G m v m' : interference G = g → v ∈ order →
  placed g regs order m0 m ∧ no_slots m → colour regs G m v = Ok m' → placed g regs order m0 m' ∧ no_slots m'.
Proof.
  intros HG Hin [Hp Hn] H. unfold colour in H. apply result_bind_ok in H as (l & Hl%map_at_ok & H).
  apply result_bind_ok in H as (scores & _ & H). apply result_bind_ok in H as ([reg|] & Hc & [= <-]); [|done].
  apply first_choice_ok in Hc as [Hreg Hocc]. rewrite merge_sort_Permutation in Hreg. split.
  - apply (placed_insert _ _ l); try done.
    + intros _. split; [done|]. by apply (Hn v l).
    + intros n z Hj Hz. split; cbn [has_register physical_register spill_slot in_register].
      * intros (_ & H1 & H2). by apply (occupied_false G m v reg HG Hocc n z).
      * pose proof (Hn v l Hl). lia.
  - intros w z [[<- <-]|[_ Hw]]%lookup_insert_Some; [by apply (Hn v l) | by apply (Hn w)].
Qed.

(** ** Spilling *)

Lemma slots_of_correct m vs s : slots_of m vs = Ok s →
  ∀ x, x ∈ s ↔ ∃ v l, v ∈ vs ∧ m !! v = Some l ∧ spill_slot l = x ∧ 0 ≤ x.
Proof.
  intros H x. unfold slots_of in H.
  apply (foldM_collect _ (λ v x, ∃ l, m !! v = Some l ∧ spill_slot l = x ∧ 0 ≤ x)) with (v := x) in H.
  - rewrite H. setoid_rewrite elem_of_ascending. set_solver.
  - intros t v t' _ Ht y. apply result_bind_ok in Ht as (l & Hl%map_at_ok & [= <-]).
    destruct (Z.leb_spec 0 (spill_slot l)).
    + rewrite elem_of_union, elem_of_singleton. split; [|naive_solver].
      intros [->|]; [right; by exists l | by left].
    + split; [by left|]. intros [|(l' & Hl' & <- & Hpos)]; [done|]. simplify_eq. lia.
Qed.

(** Among [size used + 1] slots one is free. *)
Lemma free_slot_spec used fuel slot :
  (∀ k, slot ≤ k < slot + Z.of_nat fuel → k ∈ used) ∨ free_slot used fuel slot ∉ used ∧ slot ≤ free_slot used fuel slot.
Proof.
  revert slot. induction fuel as [|fuel IH]; intros slot; cbn [free_slot]; [left; lia|].
  case_bool_decide as Hin; [|right; split; [done|lia]].
  destruct (IH (slot + 1)) as [H|[H1 H2]]; [left|right; split; [done|lia]].
  intros k Hk. destruct (decide (k = slot)) as [->|]; [done|]. apply H. lia.
Qed.

Lemma free_slot_free used : free_slot used (S (size used)) 0 ∉ used ∧ 0 ≤ free_slot used (S (size used)) 0.
Proof.
  destruct (free_slot_spec used (S (size used)) 0) as [H|H]; [exfalso|done].
  assert (list_to_set (seqZ 0 (Z.of_nat (S (size used)))) ⊆ used) as Hsub.
  { intros k Hk%elem_of_list_to_set%elem_of_seqZ. apply H. lia. }
  apply subseteq_size in Hsub. rewrite size_list_to_set in Hsub by apply NoDup_seqZ.
  rewrite length_seqZ in Hsub. lia.
Qed.

Lemma preferred_slot_ok m used vs s : preferred_slot m used vs = Ok (Some s) → s ∉ used ∧ 0 ≤ s.
Proof.
  induction vs as [|v vs IH]; intros H; cbn [preferred_slot] in H; [done|].
  apply result_bind_ok in H as (l & _ & H). destruct (_ && _) eqn:E; [|by apply IH].
  injection H as <-. apply andb_true_iff in E as [E1%Z.leb_le E2%negb_true_iff%bool_decide_eq_false]. done.
Qed.

Lemma spill_placed G m v m' : interference G = g → v ∈ order →
  placed g regs order m0 m → spill G m v = Ok m' → placed g regs order m0 m'.
Proof.
  intros HG Hin Hp H. unfold spill in H. apply result_bind_ok in H as (l & Hl%map_at_ok & H).
  destruct (has_register l) eqn:Er; [by injection H as <-|].
  apply result_bind_ok in H as (used & Hu & H). rewrite HG in Hu.
  apply result_bind_ok in H as (p & Hpref & <-%Ok_inj).
  assert (∀ n z, joined g v n → m !! n = Some z → 0 ≤ spill_slot z → spill_slot z ∈ used) as Hused.
  { intros n z Hj Hz Hpos. apply (slots_of_correct _ _ _ Hu). by exists n, z. }
  assert (∀ s n z, s ∉ used → joined g v n → m !! n = Some z → apart (in_slot s l) z) as Hap.
  { intros s n z Hs Hj Hz. split; cbn; [rewrite Er; naive_solver|]. intros [H1 ->]. by eapply Hs, Hused. }
  set (l1 := match p with Some s => in_slot s l | None => l end).
  assert (has_register l1 = false ∧ same_value l l1) as [Er1 Hs1].
  { unfold l1. by destruct p. }
  apply (placed_insert _ _ l); try done.
  - unfold same_value in *. by destruct (spill_slot l1 <? 0).
  - destruct (spill_slot l1 <? 0); cbn; by rewrite Er1.
  - intros n z Hj Hz. destruct (Z.ltb_spec (spill_slot l1) 0).
    + assert (in_slot (free_slot used (S (size used)) 0) l1 = in_slot (free_slot used (S (size used)) 0) l) as ->.
      { unfold l1. by destruct p. }
      apply (Hap _ n); [|done..]. apply free_slot_free.
    + unfold l1 in *. destruct p as [s|]; [|by apply (pl_coloured _ _ _ _ _ Hp v n)].
      apply (Hap s n); [|done..]. by apply preferred_slot_ok in Hpref as [? _].
Qed.

(** After its turn a value has a home, and keeps it. *)
Definition housed (m : Locations) (v : Z) : Prop := ∃ x, m !! v = Some x ∧ (has_register x ∨ 0 ≤ spill_slot x).

Lemma spill_housed G m v m' : spill G m v = Ok m' → housed m' v ∧ ∀ w, housed m w → housed m' w.
Proof.
  intros H. unfold spill in H. apply result_bind_ok in H as (l & Hl%map_at_ok & H).
  destruct (has_register l) eqn:Er.
  { injection H as <-. split; [|done]. exists l. split; [done|]. left. by rewrite Er. }
  apply result_bind_ok in H as (used & _ & H). apply result_bind_ok in H as (p & Hpref & <-%Ok_inj).
  set (l1 := match p with Some s => in_slot s l | None => l end).
  set (l2 := if spill_slot l1 <? 0 then _ else l1).
  assert (0 ≤ spill_slot l2) as Hl2.
  { unfold l2. destruct (Z.ltb_spec (spill_slot l1) 0); [apply free_slot_free | done]. }
  split; [exists l2; rewrite lookup_insert_eq; eauto|]. intros w (x & Hx & Hh).
  destruct (decide (w = v)) as [->|Hne]; [exists l2; rewrite lookup_insert_eq; eauto|].
  exists x. by rewrite lookup_insert_ne.
Qed.

(** ** Kempe chains *)

Definition two_coloured (m : Locations) (ra rb n : Z) : Prop :=
  ∃ l, m !! n = Some l ∧ has_register l ∧ (physical_register l = ra ∨ physical_register l = rb).

Lemma chain_steps m ra rb ns C P w C' P' w' :
  foldM (chain_step m ra rb) (Some (C, P, w)) ns = Ok (Some (C', P', w')) →
  C ⊆ C' ∧ (∀ x, x ∈ P → x ∈ P') ∧ (∀ n, n ∈ ns → two_coloured m ra rb n → n ∈ C')
  ∧ (∀ x, x ∈ C' → x ∈ C ∨ two_coloured m ra rb x ∧ x ∈ P') ∧ (∀ x, x ∈ P' → x ∈ P ∨ x ∈ C')
  ∧ (length P' + size C = length P + size C')%nat.
Proof.
  assert (∀ ns, foldM (chain_step m ra rb) None ns = Ok None) as Hnone.
  { clear. intros ns. by induction ns. }
  revert C P w. induction ns as [|n ns IH]; intros C P w H; cbn [foldM] in H.
  - injection H as <- <- <-. split_and!; try done; [by intros n ?%elem_of_nil|naive_solver..].
  - apply result_bind_ok in H as (s & Hs & H). unfold chain_step in Hs.
    destruct (MaxWork <? w + 1). { injection Hs as <-. by rewrite Hnone in H. }
    apply result_bind_ok in Hs as (l & Hl%map_at_ok & <-%Ok_inj).
    destruct (has_register l && _ && _) eqn:E.
    + apply andb_true_iff in E as [[E1 E2%orb_true_iff]%andb_true_iff Hnin%negb_true_iff%bool_decide_eq_false].
      destruct (IH _ _ _ H) as (H1 & H2 & H3 & H4 & H5 & H6).
      assert (two_coloured m ra rb n) as Hn.
      { exists l. split; [done|]. split; [by rewrite E1|]. destruct E2 as [E2%Z.eqb_eq|E2%Z.eqb_eq]; auto. }
      split_and!.
      * set_solver.
      * intros x Hx. apply H2. by right.
      * intros x [->|Hx]%elem_of_cons Hc; [set_solver | auto].
      * intros x [[->%elem_of_singleton|Hx]%elem_of_union|Hx]%H4; [right; split; [done|apply H2; by left]|by left|by right].
      * intros x [[->|Hx]%elem_of_cons|Hx]%H5; [right; set_solver|by left|by right].
      * rewrite size_union in H6 by set_solver. rewrite size_singleton in H6. cbn [length] in H6. lia.
    + destruct (IH _ _ _ H) as (H1 & H2 & H3 & H4 & H5 & H6). split_and!; try done.
      intros x [->|Hx]%elem_of_cons Hc; [|auto]. apply H1. destruct Hc as (l' & Hl' & Hr & Hp). simplify_eq.
      assert (has_register l = true) as Er by (by destruct (has_register l)).
      rewrite Er in E. cbn [andb] in E. apply andb_false_iff in E as [E|E].
      * exfalso. apply orb_false_iff in E as [?%Z.eqb_neq ?%Z.eqb_neq]. naive_solver.
      * by apply negb_false_iff, bool_decide_eq_true in E.
Qed.

Lemma chain_closed m ra rb fuel C P w C' w' :
  chain g m ra rb fuel C P w = Ok (Some (C', w')) →
  (∀ x, x ∈ C → two_coloured m ra rb x) → (∀ x, x ∈ P → x ∈ C) →
  (∀ x n, x ∈ C → x ∈ P ∨ (joined g x n → two_coloured m ra rb n → n ∈ C)) →
  (length P + (size m - size C) ≤ fuel)%nat →
  C ⊆ C' ∧ (∀ x, x ∈ C' → two_coloured m ra rb x) ∧
  ∀ x n, x ∈ C' → joined g x n → two_coloured m ra rb n → n ∈ C'.
Proof.
  revert C P w. induction fuel as [|fuel IH]; intros C P w H Hc HP Hcl Hf.
  - destruct P; [|cbn in Hf; lia]. cbn [chain] in H. injection H as <- <-. split_and!; try done.
    intros x n Hx Hj Hn. destruct (Hcl x n Hx) as [?%elem_of_nil|]; [done|auto].
  - destruct P as [|v P]; cbn [chain] in H.
    { injection H as <- <-. split_and!; try done.
      intros x n Hx Hj Hn. destruct (Hcl x n Hx) as [?%elem_of_nil|]; [done|auto]. }
    apply result_bind_ok in H as ([[[C1 P1] w1]|] & H1 & H); [|done].
    apply chain_steps in H1 as (S1 & S2 & S3 & S4 & S5 & S6).
    assert (∀ x, x ∈ C1 → two_coloured m ra rb x) as Hc1 by (intros x [|[]]%S4; auto).
    assert (∀ D : gset Z, (∀ x, x ∈ D → two_coloured m ra rb x) → (size D ≤ size m)%nat) as Hsize.
    { intros D HD. rewrite <- size_dom. apply subseteq_size. intros x Hx. destruct (HD x Hx) as (l & Hl & _).
      by apply elem_of_dom_2 in Hl. }
    destruct (IH C1 P1 w1 H) as (R1 & R2 & R3); [done| | | |].
    + intros x [Hx|Hx]%S5; [|done]. apply S1, HP. by right.
    + intros x n [Hx|[_ Hx]]%S4; [|by left]. destruct (Hcl x n Hx) as [[->|Hx']%elem_of_cons|Hx'].
      * right. intros Hj Hn. apply S3; [|done]. by apply elem_of_ascending.
      * left. auto.
      * right. auto.
    + pose proof (Hsize C Hc). pose proof (Hsize C1 Hc1). cbn [length] in Hf. lia.
    + split_and!; [set_solver|done|done].
Qed.

(** ** Interchanges *)

Definition recoloured (r : Z) (l : LinearScanLocation) : LinearScanLocation :=
  mkLoc (has_register l) (rematerializable l) (boundary_spill l) r (l_start l) (l_end l) (spill_slot l).
Definition swap_of (ra rb r : Z) : Z := if r =? ra then rb else ra.

Lemma interchange_lookup m C ra rb m' : interchange m C ra rb = Ok m' →
  ∀ v, m' !! v = if decide (v ∈ C) then (λ l, recoloured (swap_of ra rb (physical_register l)) l) <$> m !! v
                 else m !! v.
Proof.
  intros H v. unfold interchange in H.
  assert (∀ ns m1, NoDup ns → (∀ x, x ∈ ns → x ∈ C ∧ m1 !! x = m !! x) →
    foldM (λ locations v,
      reg ← swapped locations C ra rb v; l ← map_at locations v;
      Ok (<[v := recoloured reg l]> locations)) m1 ns = Ok m' →
    m' !! v = if decide (v ∈ ns) then (λ l, recoloured (swap_of ra rb (physical_register l)) l) <$> m !! v
              else m1 !! v) as Hf.
  { clear H. induction ns as [|x ns IH]; intros m1 Hn Hns H; cbn [foldM] in H.
    - injection H as ->. by rewrite decide_False by apply not_elem_of_nil.
    - apply NoDup_cons in Hn as [Hx Hn]. apply result_bind_ok in H as (m2 & H2 & H).
      apply result_bind_ok in H2 as (reg & Hreg & H2). apply result_bind_ok in H2 as (l & Hl%map_at_ok & <-%Ok_inj).
      unfold swapped in Hreg. apply result_bind_ok in Hreg as (l' & Hl'%map_at_ok & <-%Ok_inj). simplify_eq.
      destruct (Hns x ltac:(by left)) as [HxC Hxm]. rewrite bool_decide_true in H by done. cbn [negb] in H.
      rewrite (IH _ Hn) in H || apply (IH _ Hn) in H.
      + rewrite H. destruct (decide (v = x)) as [->|Hne].
        * rewrite (decide_False (P := x ∈ ns)), decide_True by (done || by left). rewrite lookup_insert_eq.
          rewrite <- Hxm, Hl'. done.
        * rewrite lookup_insert_ne by done. destruct (decide (v ∈ ns)) as [Hv|Hv].
          -- by rewrite decide_True by by right.
          -- rewrite decide_False; [done|]. by intros [|]%elem_of_cons.
      + intros y Hy. destruct (Hns y ltac:(by right)) as [HyC Hym]. split; [done|].
        rewrite lookup_insert_ne; [done|]. by intros ->. }
  rewrite (Hf (ascending C) m); [|apply NoDup_ascending|by intros x ?%elem_of_ascending|exact H].
  destruct (decide (v ∈ C)), (decide (v ∈ ascending C)) as [Hv|Hv]; rewrite elem_of_ascending in Hv; done.
Qed.

Lemma interchange_placed m C ra rb m' :
  placed g regs order m0 m → ra ≠ rb → ra ∈ regs → rb ∈ regs →
  (∀ x, x ∈ C → two_coloured m ra rb x) →
  (∀ x n, x ∈ C → joined g x n → two_coloured m ra rb n → n ∈ C) →
  interchange m C ra rb = Ok m' →
  placed g regs order m0 m' ∧ ∀ w, housed m w → housed m' w.
Proof.
  intros [Hc Hs Hr He Ho] Hne Ha Hb HC Hcl H. pose proof (interchange_lookup _ _ _ _ _ H) as Hm.
  assert (∀ v x, m' !! v = Some x → ∃ l, m !! v = Some l ∧ has_register x = has_register l
    ∧ spill_slot x = spill_slot l ∧ same_value l x
    ∧ if decide (v ∈ C) then physical_register x = swap_of ra rb (physical_register l) else x = l) as Hinv.
  { intros v x. rewrite Hm. destruct (decide (v ∈ C)).
    - intros (l & Hl & ->)%fmap_Some. exists l. unfold same_value. done.
    - intros Hx. exists x. unfold same_value. done. }
  assert (∀ a x b y, m !! a = Some x → m !! b = Some y → joined g a b → has_register x → has_register y →
    (if decide (a ∈ C) then swap_of ra rb (physical_register x) else physical_register x)
    ≠ (if decide (b ∈ C) then swap_of ra rb (physical_register y) else physical_register y)) as Hdiff.
  { intros a x b y Hx Hy Hj Hrx Hry. destruct (Hc a b x y Hj Hx Hy) as [Hap _].
    assert (∀ c z, m !! c = Some z → c ∈ C → physical_register z = ra ∨ physical_register z = rb) as Htwo.
    { intros c z Hz Hcc. destruct (HC c Hcc) as (l & Hl & _ & Hp). by simplify_eq. }
    assert (∀ c d z u, joined g c d → m !! c = Some z → m !! d = Some u → c ∈ C → d ∉ C → has_register u →
      physical_register u ≠ ra ∧ physical_register u ≠ rb) as Hout.
    { intros c d z u Hcd Hz Hu Hcc Hdd Hru. destruct (decide (physical_register u = ra ∨ physical_register u = rb)).
      - destruct Hdd. apply (Hcl c d); [done..|]. by exists u.
      - naive_solver. }
    unfold swap_of. destruct (decide (a ∈ C)) as [HaC|HaC], (decide (b ∈ C)) as [HbC|HbC].
    - pose proof (Htwo a x Hx HaC). pose proof (Htwo b y Hy HbC).
      destruct (Z.eqb_spec (physical_register x) ra), (Z.eqb_spec (physical_register y) ra); naive_solver congruence.
    - pose proof (Hout a b x y Hj Hx Hy HaC HbC Hry). destruct (_ =? _); naive_solver congruence.
    - pose proof (Hout b a y x (Hsym _ _ Hj) Hy Hx HbC HaC Hrx). destruct (_ =? _); naive_solver congruence.
    - naive_solver. }
  split; [split|].
  - intros a b x y Hj Hx Hy. destruct (Hinv a x Hx) as (lx & Hlx & Erx & Esx & _ & Hpx).
    destruct (Hinv b y Hy) as (ly & Hly & Ery & Esy & _ & Hpy). destruct (Hc a b lx ly Hj Hlx Hly) as [_ Hslots].
    split; [|by rewrite Esx, Esy]. rewrite Erx, Ery. intros (H1 & H2 & H3).
    apply (Hdiff a lx b ly Hlx Hly Hj H1 H2). destruct (decide (a ∈ C)), (decide (b ∈ C)); congruence.
  - intros v. specialize (Hs v). rewrite Hm. destruct (decide (v ∈ C)); [|done].
    destruct (m0 !! v), (m !! v); cbn; done.
  - intros v x Hx Hrx. destruct (Hinv v x Hx) as (l & Hl & Er & _ & _ & Hp). rewrite Er in Hrx.
    destruct (decide (v ∈ C)); [|subst; by apply (Hr v)]. rewrite Hp. unfold swap_of. by destruct (_ =? _).
  - intros v x Hx Hrx. destruct (Hinv v x Hx) as (l & Hl & Er & Es & _). rewrite Er in Hrx. rewrite Es.
    by apply (He v).
  - intros v x Hx Hv. destruct (Hinv v x Hx) as (l & Hl & -> & -> & _). by apply (Ho v).
  - intros w (l & Hl & Hh). destruct (m' !! w) as [x|] eqn:E.
    + destruct (Hinv w x E) as (l' & Hl' & Er & Es & _). simplify_eq. exists x. rewrite Er, Es. done.
    + rewrite Hm, Hl in E. by destruct (decide (w ∈ C)).
Qed.

Lemma improve_edge_placed prefs aff s u v s' :
  placed g regs order m0 (im_locations s) → improve_edge g prefs aff s u v = Ok s' →
  placed g regs order m0 (im_locations s') ∧ ∀ w, housed (im_locations s) w → housed (im_locations s') w.
Proof.
  intros Hp H. unfold improve_edge in H. destruct (im_stopped s); [by injection H as <-|].
  apply result_bind_ok in H as (a & Ha%map_at_ok & H). apply result_bind_ok in H as (b & Hb%map_at_ok & H).
  cbv zeta in H. destruct (_ || _) eqn:E; [by injection H as <-|].
  apply orb_false_iff in E as [[Ea%negb_false_iff Eb%negb_false_iff]%orb_false_iff Hne%Z.eqb_neq].
  apply result_bind_ok in H as ([[C w]|] & Hch & H); [|by injection H as <-].
  destruct (bool_decide (v ∈ C)); [by injection H as <-|].
  destruct (affected_edges _ _ _ _) as [[es w2]|]; [|by injection H as <-].
  apply result_bind_ok in H as ([[gain w3]|] & _ & H); [|by injection H as <-].
  destruct (gain <=? 0); [by injection H as <-|]. apply result_bind_ok in H as (m' & Hm' & <-%Ok_inj).
  cbn [im_locations]. apply chain_closed in Hch as (_ & H2 & H3).
  - apply (interchange_placed _ C (physical_register a) (physical_register b)); try done.
    + apply (pl_register _ _ _ _ _ Hp u a Ha). by rewrite Ea.
    + apply (pl_register _ _ _ _ _ Hp v b Hb). by rewrite Eb.
  - intros x ->%elem_of_singleton. exists a. rewrite Ea. auto.
  - intros x ->%list_elem_of_singleton. set_solver.
  - intros x n ->%elem_of_singleton. left. by left.
  - cbn [length]. rewrite size_singleton. lia.
Qed.

Lemma improve_round_placed prefs aff s s' :
  placed g regs order m0 (im_locations s) → improve_round g prefs aff s = Ok s' →
  placed g regs order m0 (im_locations s') ∧ ∀ w, housed (im_locations s) w → housed (im_locations s') w.
Proof.
  intros Hp H. unfold improve_round in H.
  refine (foldM_inv (λ t, placed g regs order m0 (im_locations t)
    ∧ ∀ w, housed (im_locations s) w → housed (im_locations t) w) _ _ _ _ _ _ H); [|by split].
  intros t e t' _ [Ht Hh] He. apply result_bind_ok in He as (t1 & H1 & H2).
  apply improve_edge_placed in H1 as [P1 Q1]; [|done]. apply improve_edge_placed in H2 as [P2 Q2]; [|done].
  split; [done|]. auto.
Qed.

(** ** Slots of phis *)

(** Folds of the counters, which give up with [None]. *)
Lemma foldM_option {A S} (f : option S → A → result (option S)) (P : S → Prop) l s s' :
  (∀ x, f None x = Ok None) → (∀ s x s', x ∈ l → P s → f (Some s) x = Ok (Some s') → P s') →
  P s → foldM f (Some s) l = Ok (Some s') → P s'.
Proof.
  intros Hnone Hstep. revert s. induction l as [|x l IH]; intros s Hs H; cbn [foldM] in H; [by injection H as <-|].
  apply result_bind_ok in H as ([s1|] & H1 & H).
  - apply (IH) with (s := s1); [|by eapply Hstep; [left|..]|done]. intros; eapply Hstep; [by right|done..].
  - exfalso. clear -H Hnone. induction l as [|y l IHl]; cbn [foldM] in H; [done|]. rewrite Hnone in H. auto.
Qed.

Lemma slot_choices_ok prefs m key own work choices work' :
  slot_choices g prefs m key own work = Ok (Some (choices, work')) →
  ∀ s, s ∈ choices → s = own ∨ 0 ≤ s ∧ ∀ n z, joined g key n → m !! n = Some z → 0 ≤ spill_slot z → spill_slot z ≠ s.
Proof.
  intros H. unfold slot_choices in H. apply result_bind_ok in H as ([[used w]|] & Hu & H); [|done].
  assert (∀ n z, n ∈ ascending (neighbors g key) → m !! n = Some z → 0 ≤ spill_slot z → spill_slot z ∈ used) as Hused.
  { revert Hu. generalize (∅ : gset Z) work. generalize (ascending (neighbors g key)) as l.
    assert (∀ l u w0 used w, foldM (λ (s : option (gset Z * Z)) other,
        match s with None => Ok None | Some (used, work) =>
            if MaxWork <? work + 1 then Ok None else
            l ← map_at m other;
            Ok (Some (if 0 <=? spill_slot l then {[spill_slot l]} ∪ used else used, work + 1)) end)
        (Some (u, w0)) l = Ok (Some (used, w)) →
      u ⊆ used ∧ ∀ n z, n ∈ l → m !! n = Some z → 0 ≤ spill_slot z → spill_slot z ∈ used) as Hf.
    { clear. induction l as [|x l IH]; intros u w0 used w H; cbn [foldM] in H.
      - injection H as <- <-. split; [done|]. by intros n z ?%elem_of_nil.
      - destruct (MaxWork <? w0 + 1).
        { exfalso. cbn [mbind result_mbind result_bind] in H. clear IH. induction l as [|y l IHl]; [done|auto]. }
        apply result_bind_ok in H as (s1 & H1 & H). apply result_bind_ok in H1 as (lx & Hlx%map_at_ok & <-%Ok_inj).
        apply IH in H as [H1 H2]. split; [destruct (0 <=? spill_slot lx); set_solver|].
        intros n z [->|Hn]%elem_of_cons Hz Hpos; [|by apply (H2 n)]. simplify_eq.
        rewrite (proj2 (Z.leb_le _ _) Hpos) in H1. set_solver. }
    intros l u w0 Hu n z Hn. by apply (Hf l u w0 used w Hu). }
  refine (foldM_option _ (λ s, ∀ x, x ∈ s.1 → x = own ∨ 0 ≤ x ∧ ∀ n z, joined g key n → m !! n = Some z →
    0 ≤ spill_slot z → spill_slot z ≠ x) _ _ _ _ _ _ H).
  - done.
  - intros [cs w1] o [cs' w1'] _ Hcs Hs. destruct (MaxWork <? w1 + 1); [done|].
    apply result_bind_ok in Hs as (l & Hl%map_at_ok & E%Ok_inj). injection E as <- <-. cbn [fst] in *.
    destruct (_ && _) eqn:E; [|done]. apply andb_true_iff in E as [E1%Z.leb_le E2%negb_true_iff%bool_decide_eq_false].
    intros x [->%elem_of_singleton|Hx]%elem_of_union; [|auto]. right. split; [done|].
    intros n z Hj Hz Hpos Heq. apply E2. rewrite <- Heq. apply (Hused n); [by apply elem_of_ascending|done..].
  - cbn [fst]. intros x ->%elem_of_singleton. by left.
Qed.

Lemma improve_slot_placed prefs aff s key s' :
  placed g regs order m0 (im_locations s) → improve_slot g prefs aff s key = Ok s' →
  placed g regs order m0 (im_locations s') ∧ ∀ w, housed (im_locations s) w → housed (im_locations s') w.
Proof.
  intros Hp H. unfold improve_slot in H. destruct (im_stopped s); [by injection H as <-|]. cbv zeta in H.
  apply result_bind_ok in H as (l & Hl%map_at_ok & H). destruct (_ || _) eqn:E; [by injection H as <-|].
  apply orb_false_iff in E as [Er Es%Z.ltb_ge]. apply result_bind_ok in H as ([[cs w]|] & Hcs & H); [|by injection H as <-].
  destruct (MaxWork - w <? _); [by injection H as <-|]. apply result_bind_ok in H as (best & _ & H).
  apply result_bind_ok in H as ([[[ls b] w'] st] & Hf & <-%Ok_inj). cbn [im_locations].
  pose proof (slot_choices_ok _ _ _ _ _ _ _ Hcs) as Hok.
  assert (key ∈ order) as Hin.
  { destruct (decide (key ∈ order)) as [|Hn]; [done|]. destruct (pl_outside _ _ _ _ _ Hp key l Hl Hn). lia. }
  set (m := im_locations s) in *.
  set (P := λ t : Locations * Z * Z * bool, placed g regs order m0 t.1.1.1 ∧
    (∀ w, housed m w → housed t.1.1.1 w) ∧ (∀ n, n ≠ key → t.1.1.1 !! n = m !! n) ∧
    ∃ z, t.1.1.1 !! key = Some z ∧ has_register z = false ∧ same_value l z).
  assert (P (ls, b, w', st)) as (H1 & H2 & _); [|done].
  assert (∀ l', (∀ x, x ∈ l' → x ∈ cs) → ∀ t t', P t → foldM (try_slot prefs aff key
    (Z.of_nat (size (neighbors prefs key)) + 1)) t l' = Ok t' → P t') as Hfold.
  { induction l' as [|slot l' IH]; intros Hl' t t' Ht H; cbn [foldM] in H; [by injection H as <-|].
    apply result_bind_ok in H as (t1 & H1 & H). apply (IH ltac:(intros; apply Hl'; by right) t1 t'); [|done].
    destruct t as [[[m1 b1] w1] st1]. unfold try_slot in H1. destruct st1; [by injection H1 as <-|].
    destruct (MaxWork - w1 <? _); [by injection H1 as <-|]. apply result_bind_ok in H1 as (nx & _ & H1).
    apply result_bind_ok in H1 as (z & Hz%map_at_ok & <-%Ok_inj). destruct (b1 <? nx); [|done].
    destruct Ht as (Hp1 & Hh1 & Ho1 & z' & Hz' & Erz & Hsz). cbn [fst] in *.
    assert (z' = z) as -> by congruence.
    unfold P. cbn [fst]. split_and!.
    - apply (placed_insert m1 key z); try done.
      + intros Hrz. cbn [has_register in_slot] in Hrz. by rewrite Erz in Hrz.
      + intros n u Hj Hu. assert (n ≠ key) as Hnk by (intros ->; by apply (Hirr key)).
        rewrite Ho1 in Hu by done. split; cbn [has_register physical_register spill_slot in_slot].
        * rewrite Erz. naive_solver.
        * intros [Hpos Heq]. destruct (Hok slot ltac:(apply Hl'; by left)) as [->|[_ Hfree]].
          -- destruct (pl_coloured _ _ _ _ _ Hp key n l u Hj Hl Hu) as [_ Hs]. apply Hs. lia.
          -- apply (Hfree n u Hj Hu); lia.
    - intros v Hv. destruct (decide (v = key)) as [->|Hne].
      + exists (in_slot slot z). rewrite lookup_insert_eq. split; [done|]. right. cbn.
        destruct (Hok slot ltac:(apply Hl'; by left)) as [->|[? _]]; lia.
      + destruct (Hh1 v Hv) as (u & Hu & Hhu). exists u. by rewrite lookup_insert_ne.
    - intros n Hn. rewrite lookup_insert_ne by done. by apply Ho1.
    - exists (in_slot slot z). by rewrite lookup_insert_eq. }
  apply (Hfold (ascending cs)) with (t := (m, best, w + (Z.of_nat (size (neighbors prefs key)) + 1), false)).
  - intros x. apply elem_of_ascending.
  - unfold P. cbn [fst]. split_and!; try done. by exists l.
  - done.
Qed.

Lemma improve_slots_placed prefs aff s s' :
  placed g regs order m0 (im_locations s) → improve_slots g prefs aff s = Ok s' →
  placed g regs order m0 (im_locations s') ∧ ∀ w, housed (im_locations s) w → housed (im_locations s') w.
Proof.
  intros Hp H. unfold improve_slots in H.
  refine (foldM_inv (λ t, placed g regs order m0 (im_locations t)
    ∧ ∀ w, housed (im_locations s) w → housed (im_locations t) w) _ _ _ _ _ _ H); [|by split].
  intros t e t' _ [Ht Hh] He. apply improve_slot_placed in He as [P1 Q1]; [|done]. split; [done|]. auto.
Qed.

Lemma improvePhiLocations_placed prefs aff m m' :
  placed g regs order m0 m → improvePhiLocations g prefs aff m = Ok m' →
  placed g regs order m0 m' ∧ ∀ w, housed m w → housed m' w.
Proof.
  intros Hp H. unfold improvePhiLocations in H. apply result_bind_ok in H as (s1 & H1 & H).
  apply improve_round_placed in H1 as [P1 Q1]; [|done]. apply result_bind_ok in H as (s2 & H2 & H).
  assert (placed g regs order m0 (im_locations s2) ∧ ∀ w, housed (im_locations s1) w → housed (im_locations s2) w)
    as [P2 Q2].
  { destruct (_ && _); [by apply improve_round_placed in H2|by injection H2 as <-]. }
  apply result_bind_ok in H as (s3 & H3 & H). apply improve_slots_placed in H3 as [P3 Q3]; [|done].
  apply result_bind_ok in H as (s4 & H4 & <-%Ok_inj). apply improve_slots_placed in H4 as [P4 Q4]; [|done].
  split; [done|]. auto 10.
Qed.
End Placing.
