(* ===== verification/AllocLive.v ===== *)
(** * AllocLive: what the allocator knows about live values

    Proofs about the backward scans of [Allocator]: the interference graph, the
    values saved across calls and the spare registers all follow the exact
    liveness of [Analysis].  At the end the properties of [runGlobal]. *)

From S2P Require Import Prelude Target Types Token IR Graph IRVerify IRSound ControlFlow FlowSound LoopSound.
From S2P Require Import Liveness Analysis Cost Allocator AllocSound.

(* ------------------------------------------------------------------ *)
(** ** Liveness inside a block *)

Lemma exposed_cons i l v : exposed (i :: l) v ↔
  i_opcode i ≠ OpPhi ∧ v ∈ i_operands i ∨ ¬ defines i v ∧ exposed l v.
Proof.
  unfold exposed. split.
  - intros ([|k] & x & Hk & Ho & Hv & Hj).
    + injection Hk as <-. by left.
    + right. split; [by apply (Hj 0%nat i ltac:(lia))|]. exists k, x. split_and!; try done.
      intros j i' Hlt Hi'. by apply (Hj (S j) i' ltac:(lia)).
  - intros [[Ho Hv]|[Hd (k & x & Hk & Ho & Hv & Hj)]].
    + exists 0%nat, i. split_and!; try done. lia.
    + exists (S k), x. split_and!; try done. intros [|j] i' Hlt Hi'; [by injection Hi' as <-|].
      apply (Hj j i'); [lia|done].
Qed.

(** [v] is live at the start of the code [l] that ends with [out] live. *)
Definition live_before (l : list IRInstruction) (out : Z → Prop) (v : Z) : Prop :=
  exposed l v ∨ out v ∧ ∀ i, i ∈ l → ¬ defines i v.

Lemma live_before_nil out v : live_before [] out v ↔ out v.
Proof.
  unfold live_before. split; [intros [(k & i & Hk & _)|[H _]]; done|]. intros H. right.
  split; [done|]. by intros i ?%elem_of_nil.
Qed.

Lemma live_before_cons i l out v : live_before (i :: l) out v ↔
  i_opcode i ≠ OpPhi ∧ v ∈ i_operands i ∨ ¬ defines i v ∧ live_before l out v.
Proof.
  unfold live_before. rewrite exposed_cons. setoid_rewrite elem_of_cons. naive_solver.
Qed.

Lemma live_before_ext l (out out' : Z → Prop) v : (out v ↔ out' v) → live_before l out v ↔ live_before l out' v.
Proof. unfold live_before. naive_solver. Qed.

(** [v] is live just after instruction [k] of block [b]. *)
Definition live_past (f : IRFunction) (b k : nat) (v : Z) : Prop :=
  live_before (drop (S k) (instructions_of f b)) (live_out_of f b) v.

Lemma elem_result i v : v ∈ (if value_isValid (i_result i) then {[i_result i]} else ∅ : gset Z) ↔ defines i v.
Proof. unfold defines. destruct (value_isValid (i_result i)); set_solver. Qed.

(* ------------------------------------------------------------------ *)
(** ** The interference graph *)

Section Interference.
Context (cfg : IRControlFlow) (far : gset Z) (size_policy : bool) (m : Locations) (weight : gmap Z Z).

Definition elig (v : Z) : Prop := ∃ l, m !! v = Some l ∧ eligible_at far weight v l = true.

Lemma eligible_ok v e : eligible far m weight v = Ok e → (e = true ↔ elig v).
Proof.
  unfold eligible. intros H. apply result_bind_ok in H as (l & Hl%map_at_ok & <-%Ok_inj). unfold elig. naive_solver.
Qed.

Record graph_inv (g : Conflicts) : Prop := {
  gi_sym a b : joined (interference g) a b → joined (interference g) b a;
  gi_irr a : ¬ joined (interference g) a a
}.

Definition grows (g g' : Conflicts) : Prop :=
  graph_inv g' ∧ ∀ x y, joined (interference g) x y → joined (interference g') x y.

Lemma grows_refl g : graph_inv g → grows g g.
Proof. by split. Qed.

Lemma grows_trans g g' g'' : grows g g' → grows g' g'' → grows g g''.
Proof. intros [_ H1] [H2 H3]. split; auto. Qed.

(** Changes of the preferences only. *)
Lemma grows_same g g' : graph_inv g → interference g' = interference g → grows g g'.
Proof. intros [Hs Hi] E. split; [split|]; rewrite E; auto. Qed.

Lemma conflict_ok a b g g' : graph_inv g → conflict far m weight a b g = Ok g' →
  grows g g' ∧ (a ≠ b → elig a → elig b → joined (interference g') a b).
Proof.
  intros Hg H. unfold conflict in H. destruct (Z.eqb_spec a b) as [->|Hne].
  { injection H as <-. split; [by apply grows_refl|done]. }
  apply result_bind_ok in H as (ea & Ha%eligible_ok & H). destruct ea; cbn [negb] in H.
  2: { injection H as <-. split; [by apply grows_refl|]. intros _ ?%Ha. done. }
  apply result_bind_ok in H as (eb & Hb%eligible_ok & H). destruct eb; cbn [negb] in H.
  2: { injection H as <-. split; [by apply grows_refl|]. intros _ _ ?%Hb. done. }
  case_bool_decide as Hin. { injection H as <-. split; [by apply grows_refl|done]. }
  apply result_bind_ok in H as (u & _ & <-%Ok_inj). split; [split; [split|]|]; cbn [interference].
  - intros x y. rewrite !joined_add. intros [?%(gi_sym _ Hg)|]; tauto.
  - intros x. rewrite joined_add. intros [?%(gi_irr _ Hg)|]; naive_solver.
  - intros x y Hxy. apply joined_add. by left.
  - intros _ _ _. apply joined_add. by right; left.
Qed.

Lemma conflict_fold a l g g' : graph_inv g → foldM (λ g v, conflict far m weight a v g) g l = Ok g' →
  grows g g' ∧ ∀ w, w ∈ l → a ≠ w → elig a → elig w → joined (interference g') a w.
Proof.
  revert g. induction l as [|x l IH]; intros g Hg H; cbn [foldM] in H.
  - injection H as <-. split; [by apply grows_refl|]. by intros w ?%elem_of_nil.
  - apply result_bind_ok in H as (g1 & H1 & H). apply conflict_ok in H1 as [G1 J1]; [|done].
    destruct (IH g1) as [G2 J2]; [apply G1|done|]. split; [by eapply grows_trans|].
    intros w [->|Hw]%elem_of_cons Hne Ha Hw'; [|auto]. apply G2. auto.
Qed.

Lemma phi_preferences_ok i g g' : phi_preferences cfg far size_policy m weight i g = Ok g' →
  interference g' = interference g.
Proof.
  intros H. unfold phi_preferences in H. refine (foldM_inv (λ t, interference t = interference g) _ _ _ _ _ _ H); [|done].
  intros t [n v] t' _ Ht Hs. cbv zeta in Hs. apply result_bind_ok in Hs as (e & _ & Hs).
  destruct (e && _); [|by injection Hs as <-]. destruct size_policy; [by injection Hs as <-|].
  apply result_bind_ok in Hs as (t0 & _ & Hs). apply result_bind_ok in Hs as (d & _ & [= <-]). done.
Qed.

Lemma tied_preferences_ok b i g g' : tied_preferences cfg far size_policy m weight b i g = Ok g' →
  interference g' = interference g.
Proof.
  intros H. unfold tied_preferences in H. destruct (i_operands i) as [|input l]; [by injection H as <-|].
  destruct (_ && _); [|by injection H as <-]. apply result_bind_ok in H as ([] & _ & H); [|by injection H as <-].
  destruct size_policy; [by injection H as <-|]. apply result_bind_ok in H as (d & _ & [= <-]). done.
Qed.

Lemma add_eligible_ok s l s' : add_eligible far m weight s l = Ok s' → ∀ v, v ∈ s' ↔ v ∈ s ∨ v ∈ l ∧ elig v.
Proof.
  intros H v. unfold add_eligible in H. apply (foldM_collect _ (λ x v, v = x ∧ elig v)) with (v := v) in H.
  - rewrite H. naive_solver.
  - intros t x t' _ Ht w. apply result_bind_ok in Ht as ([] & He%eligible_ok & <-%Ok_inj); set_solver.
Qed.

Lemma interfere_ok b i live g live' g' : graph_inv g → interfere cfg far size_policy m weight b (live, g) i = Ok (live', g') →
  grows g g'
  ∧ (∀ w, w ∈ live' ↔ i_opcode i ≠ OpPhi ∧ w ∈ i_operands i ∧ elig w ∨ w ∈ live ∧ ¬ defines i w)
  ∧ (∀ v w, defines i v → w ∈ live → v ≠ w → elig v → elig w → joined (interference g') v w).
Proof.
  intros Hg H. unfold interfere in H. apply result_bind_ok in H as ([live1 g1] & H1 & H).
  assert (grows g g1 ∧ (∀ w, w ∈ live1 ↔ w ∈ live ∧ ¬ defines i w)
    ∧ ∀ v w, defines i v → w ∈ live → v ≠ w → elig v → elig w → joined (interference g1) v w) as (G1 & L1 & J1).
  { destruct (value_isValid (i_result i)) eqn:Ev.
    - apply result_bind_ok in H1 as (e & He%eligible_ok & H1). apply result_bind_ok in H1 as (g2 & H2 & [= <- <-]).
      assert (∀ v, defines i v ↔ v = i_result i) as Hd.
      { intros v. unfold defines. rewrite Ev. naive_solver. }
      split_and!; [| |].
      + destruct e; [by apply conflict_fold in H2 as [? _]|injection H2 as <-; by apply grows_refl].
      + intros w. rewrite Hd. set_solver.
      + intros v w ->%Hd Hw Hne Hev Hew. destruct e; [|by apply He in Hev].
        apply conflict_fold in H2 as [_ H2]; [|done]. apply H2; try done. by apply elem_of_ascending.
    - injection H1 as <- <-. assert (∀ v, ¬ defines i v) as Hd by (intros v [Hv _]; by rewrite Ev in Hv).
      split_and!; [by apply grows_refl|naive_solver|naive_solver]. }
  destruct (is_op (i_opcode i) OpPhi) eqn:Eo.
  - apply is_op_phi in Eo. apply result_bind_ok in H as (g2 & E%phi_preferences_ok & [= <- <-]).
    split_and!; [| |].
    + eapply grows_trans; [done|]. apply grows_same; [apply G1|done].
    + intros w. rewrite L1. naive_solver.
    + rewrite E. exact J1.
  - assert (i_opcode i ≠ OpPhi) as Hop by (intros ?%is_op_phi; congruence).
    apply result_bind_ok in H as (g2 & E%tied_preferences_ok & H).
    apply result_bind_ok in H as (live2 & Hl & [= <- <-]). split_and!; [| |].
    + eapply grows_trans; [done|]. apply grows_same; [apply G1|done].
    + intros w. rewrite (add_eligible_ok _ _ _ Hl), L1. naive_solver.
    + rewrite E. exact J1.
Qed.

(** The scan of a block, from its end. *)
Lemma interfere_scan b code live g live' g' :
  graph_inv g → (∀ w, w ∈ live → elig w) →
  foldM (interfere cfg far size_policy m weight b) (live, g) (rev code) = Ok (live', g') →
  grows g g' ∧ (∀ w, w ∈ live' ↔ elig w ∧ live_before code (.∈ live) w)
  ∧ ∀ k i v w, code !! k = Some i → defines i v → v ≠ w → elig v → elig w →
      live_before (drop (S k) code) (.∈ live) w → joined (interference g') v w.
Proof.
  intros Hg Hlive. revert live' g'. induction code as [|i code IH]; intros live' g' H; cbn [rev] in H.
  - injection H as <- <-. split_and!; [by apply grows_refl| |done].
    intros w. rewrite live_before_nil. naive_solver.
  - rewrite foldM_app in H. apply result_bind_ok in H as ([live1 g1] & H1 & H). cbn [foldM] in H.
    apply result_bind_ok in H as ([live2 g2] & H2 & [= <- <-]). destruct (IH _ _ H1) as (G1 & L1 & J1).
    apply interfere_ok in H2 as (G2 & L2 & J2); [|apply G1]. split_and!.
    + by eapply grows_trans.
    + intros w. rewrite L2, L1, live_before_cons. naive_solver.
    + intros [|k] i' v w Hi Hd Hne Hev Hew Hlb.
      * injection Hi as <-. rewrite skipn_cons in Hlb. apply J2; try done. by apply L1.
      * apply G2. by apply (J1 k i').
Qed.

(** Every block of the function. *)
Lemma conflicts_ok f g : ids_ok f → conflicts f cfg far size_policy m weight = Ok g →
  graph_inv g ∧ ∀ b k i v w, instr_at f b k = Some i → defines i v → v ≠ w → elig v → elig w →
    live_before (drop (S k) (instructions_of f b)) (.∈ set_of (live_out cfg) b) w → joined (interference g) v w.
Proof.
  intros Hid H. unfold conflicts in H.
  assert (∀ bs g0 g', graph_inv g0 → foldM (interfere_block cfg far size_policy m weight) g0 bs = Ok g' →
    grows g0 g' ∧ ∀ blk k i v w, blk ∈ bs → b_instructions blk !! k = Some i → defines i v → v ≠ w → elig v → elig w →
      live_before (drop (S k) (b_instructions blk)) (.∈ set_of (live_out cfg) (block_index blk)) w →
      joined (interference g') v w) as Hf.
  { induction bs as [|blk bs IH]; intros g0 g' Hg0 Hb; cbn [foldM] in Hb.
    - injection Hb as <-. split; [by apply grows_refl|]. by intros blk k i v w ?%elem_of_nil.
    - apply result_bind_ok in Hb as (g1 & H1 & Hb). unfold interfere_block in H1.
      apply result_bind_ok in H1 as (live & Hl & H1). apply result_bind_ok in H1 as ([live' g1'] & H1 & <-%Ok_inj).
      pose proof (add_eligible_ok _ _ _ Hl) as Hlive. setoid_rewrite elem_of_ascending in Hlive.
      apply interfere_scan in H1 as (G1 & _ & J1); [|done|intros w [?%elem_of_empty|[_ ?]]%Hlive; done].
      destruct (IH g1' g') as [G2 J2]; [apply G1|done|]. split; [by eapply grows_trans|].
      intros blk' k i v w [->|Hin]%elem_of_cons Hi Hd Hne Hev Hew Hlb; [|by apply (J2 blk' k i)].
      apply G2, (J1 k i); try done. eapply live_before_ext; [|exact Hlb]. cbn. rewrite Hlive. set_solver. }
  assert (graph_inv (mkConflicts ∅ ∅ ∅ 0)) as H0.
  { split; unfold joined, neighbors; cbn [interference]; intros a; rewrite lookup_empty; cbn; set_solver. }
  destruct (Hf _ _ _ H0 H) as [G J]. split; [apply G|]. intros b k i v w Hi Hd Hne Hev Hew Hlb.
  unfold instr_at, instructions_of in *. destruct (f_blocks f !! b) as [blk|] eqn:Eb; [|done].
  apply (J blk k i); try done; [by eapply list_elem_of_lookup_2|].
  unfold block_index. rewrite (Hid b blk Eb), Nat2Z.id. done.
Qed.
End Interference.

(* ------------------------------------------------------------------ *)
(** ** Positions *)

(** The number of an instruction in the order of emission. *)
Definition first_position (f : IRFunction) (b : nat) : Z :=
  Z.of_nat (sum_list_with (λ blk, length (b_instructions blk)) (take b (f_blocks f))).
Definition position_of (f : IRFunction) (b k : nat) : Z := first_position f b + Z.of_nat k.

Lemma first_position_S f b blk : f_blocks f !! b = Some blk →
  first_position f (S b) = first_position f b + zlen (b_instructions blk).
Proof.
  intros H. unfold first_position, zlen. rewrite (take_S_r _ _ _ H).
  assert (∀ l, sum_list_with (λ blk, length (b_instructions blk)) (l ++ [blk])
    = (sum_list_with (λ blk, length (b_instructions blk)) l + length (b_instructions blk))%nat) as E.
  { induction l as [|x l IH]; cbn; lia. }
  rewrite E. lia.
Qed.

Lemma first_position_mono f b c : (b ≤ c)%nat → first_position f b ≤ first_position f c.
Proof.
  induction 1 as [|c Hle IH]; [lia|]. destruct (f_blocks f !! c) as [blk|] eqn:E.
  - rewrite (first_position_S f c blk E). unfold zlen. lia.
  - apply lookup_ge_None_1 in E. unfold first_position in *.
    rewrite (take_ge _ (S c)) by lia. rewrite (take_ge _ c) in IH by lia. done.
Qed.

Lemma position_bound f b k i : instr_at f b k = Some i →
  first_position f b ≤ position_of f b k < first_position f (S b).
Proof.
  unfold instr_at. destruct (f_blocks f !! b) as [blk|] eqn:E; [|done]. cbn. intros Hk%lookup_lt_Some.
  rewrite (first_position_S f b blk E). unfold position_of, zlen. lia.
Qed.

Lemma position_inj f b k i c j i' : instr_at f b k = Some i → instr_at f c j = Some i' →
  position_of f b k = position_of f c j → b = c ∧ k = j.
Proof.
  intros Hb Hc E. pose proof (position_bound _ _ _ _ Hb). pose proof (position_bound _ _ _ _ Hc).
  assert (b = c) as ->.
  { destruct (Nat.lt_trichotomy b c) as [Hlt|[|Hlt]]; [|done|].
    - pose proof (first_position_mono f (S b) c Hlt). lia.
    - pose proof (first_position_mono f (S c) b Hlt). lia. }
  split; [done|]. unfold position_of in E. lia.
Qed.

(** Values before they have homes. *)
Definition fresh (m : Locations) : Prop := ∀ v l, m !! v = Some l → has_register l = false ∧ spill_slot l = -1.

Lemma collect_instruction_ok s i : fresh (p_locations s) →
  let s' := collect_instruction s i in
  fresh (p_locations s') ∧ p_begin s' = p_begin s ∧ p_end s' = p_end s ∧ p_position s' = p_position s + 1
  ∧ (∀ v, v ∈ p_far s' ↔ v ∈ p_far s ∨ defines i v ∧ isFarPointer (i_type i)).
Proof.
  intros Hf. cbn. split_and!; [|done..|].
  - destruct (value_isValid (i_result i)); [|done]. unfold insert_new.
    destruct (p_locations s !! i_result i); [done|]. intros v l [[<- <-]|[_ H]]%lookup_insert_Some; [done|by apply (Hf v)].
  - intros v. unfold defines. destruct (value_isValid (i_result i)), (isFarPointer (i_type i)); cbn [andb]; set_solver.
Qed.

Lemma collect_instructions_ok s l : fresh (p_locations s) →
  let s' := foldl collect_instruction s l in
  fresh (p_locations s') ∧ p_begin s' = p_begin s ∧ p_end s' = p_end s ∧ p_position s' = p_position s + zlen l
  ∧ (∀ v, v ∈ p_far s' ↔ v ∈ p_far s ∨ ∃ i, i ∈ l ∧ defines i v ∧ isFarPointer (i_type i)).
Proof.
  revert s. induction l as [|i l IH]; intros s Hf; cbn [foldl].
  - cbn zeta. split_and!; try done; [unfold zlen; cbn; lia|]. intros v. setoid_rewrite elem_of_nil. naive_solver.
  - destruct (collect_instruction_ok s i Hf) as (H1 & H2 & H3 & H4 & H5).
    destruct (IH _ H1) as (R1 & R2 & R3 & R4 & R5). cbn zeta. split_and!; [exact R1|congruence..| |].
    + rewrite R4, H4. unfold zlen. cbn [length]. lia.
    + intros v. rewrite R5, H5. setoid_rewrite elem_of_cons. naive_solver.
Qed.

Lemma collect_ok f : ids_ok f →
  fresh (p_locations (collect f))
  ∧ (∀ b blk, f_blocks f !! b = Some blk → p_begin (collect f) !! b = Some (first_position f b)
       ∧ (b_instructions blk ≠ [] → p_end (collect f) !! b = Some (first_position f b + zlen (b_instructions blk) - 1)))
  ∧ (∀ v, v ∈ p_far (collect f) ↔ ∃ b k i, instr_at f b k = Some i ∧ defines i v ∧ isFarPointer (i_type i)).
Proof.
  intros Hid. unfold collect. set (n := length (f_blocks f)). set (zeros := replicate n 0).
  assert (∀ bs b0 s, f_blocks f = take b0 (f_blocks f) ++ bs → (b0 ≤ n)%nat → fresh (p_locations s) →
    length (p_begin s) = n → length (p_end s) = n → p_position s = first_position f b0 →
    let s' := foldl collect_block s bs in
    fresh (p_locations s')
    ∧ (∀ b blk, (b0 ≤ b)%nat → f_blocks f !! b = Some blk → p_begin s' !! b = Some (first_position f b)
       ∧ (b_instructions blk ≠ [] → p_end s' !! b = Some (first_position f b + zlen (b_instructions blk) - 1)))
    ∧ (∀ b, (b < b0)%nat → p_begin s' !! b = p_begin s !! b ∧ p_end s' !! b = p_end s !! b)
    ∧ (∀ v, v ∈ p_far s' ↔ v ∈ p_far s ∨ ∃ blk i, blk ∈ bs ∧ i ∈ b_instructions blk ∧ defines i v ∧ isFarPointer (i_type i)))
    as Hfold.
  { induction bs as [|blk bs IH]; intros b0 s Hbs Hle Hf Hlb Hle' Hp; cbn [foldl].
    - cbn zeta. split_and!; try done.
      + intros b blk Hb Hblk. exfalso. apply lookup_lt_Some in Hblk. rewrite app_nil_r in Hbs.
        apply (f_equal length) in Hbs. rewrite length_take in Hbs. lia.
      + intros v. setoid_rewrite elem_of_nil. naive_solver.
    - assert (f_blocks f !! b0 = Some blk) as Hblk.
      { rewrite Hbs, lookup_app_r by (rewrite length_take; lia). rewrite length_take.
        replace (b0 - b0 `min` length (f_blocks f))%nat with 0%nat by lia. done. }
      set (s1 := mkPoints (<[Z.to_nat (b_id blk) := p_position s]> (p_begin s)) (p_end s) (p_locations s) (p_far s)
             (p_position s)).
      destruct (collect_instructions_ok s1 (b_instructions blk) Hf) as (H1 & H2 & H3 & H4 & H5).
      set (s2 := foldl collect_instruction s1 (b_instructions blk)) in *.
      assert (Z.to_nat (b_id blk) = b0) as Hb0 by (rewrite (Hid b0 blk Hblk); lia).
      assert (collect_block s blk = mkPoints (<[b0 := p_position s]> (p_begin s))
        (<[b0 := before_position (p_position s2)]> (p_end s)) (p_locations s2) (p_far s2) (p_position s2)) as Es.
      { unfold collect_block. fold s1. fold s2. rewrite H2, H3. cbn [s1 p_begin p_end]. by rewrite Hb0. }
      rewrite Es. destruct (IH (S b0) (mkPoints (<[b0 := p_position s]> (p_begin s))
        (<[b0 := before_position (p_position s2)]> (p_end s)) (p_locations s2) (p_far s2) (p_position s2)))
        as (R1 & R2 & R3 & R4); cbn [p_begin p_end p_locations p_position p_far].
      + by rewrite (take_S_r _ _ _ Hblk), <- app_assoc.
      + apply lookup_lt_Some in Hblk. unfold n. lia.
      + done.
      + by rewrite length_insert.
      + by rewrite length_insert.
      + rewrite H4, (first_position_S f b0 blk Hblk). cbn [s1 p_position]. lia.
      + apply lookup_lt_Some in Hblk as Hlt. fold n in Hlt. cbn zeta. split_and!; [done| | |].
        * intros b blk' Hb Hblk'. destruct (decide (b = b0)) as [->|Hne]; [|apply R2; [lia|done]].
          assert (blk' = blk) as -> by congruence. destruct (R3 b0 ltac:(lia)) as [-> ->]. cbn [p_begin p_end].
          rewrite !list_lookup_insert_eq by lia. split; [by rewrite Hp|]. intros Hne. f_equal.
          rewrite H4. cbn [s1 p_position]. unfold before_position. rewrite Hp.
          destruct (b_instructions blk); [done|]. unfold zlen in *. cbn [length] in *.
          rewrite (proj2 (Z.eqb_neq _ _)); [lia|]. unfold first_position. lia.
        * intros b Hb. destruct (R3 b ltac:(lia)) as [-> ->]. cbn [p_begin p_end].
          by rewrite !list_lookup_insert_ne by lia.
        * intros v. rewrite R4. cbn [p_far]. rewrite H5. cbn [s1 p_far]. setoid_rewrite elem_of_cons. naive_solver. }
  destruct (Hfold (f_blocks f) 0%nat (mkPoints zeros zeros ∅ ∅ 0)) as (R1 & R2 & _ & R4); try done.
  - lia.
  - apply length_replicate.
  - apply length_replicate.
  - split_and!; [done| |].
    + intros b blk. apply R2. lia.
    + intros v. rewrite R4. cbn [p_far]. split.
      * intros [?%elem_of_empty|(blk & i & Hb & Hi & Hd & Hfar)]; [done|].
        apply list_elem_of_lookup in Hb as [b Hb]. apply list_elem_of_lookup in Hi as [k Hk].
        exists b, k, i. unfold instr_at. rewrite Hb. done.
      * intros (b & k & i & Hi & Hd & Hfar). right. unfold instr_at in Hi.
        destruct (f_blocks f !! b) as [blk|] eqn:E; [|done]. cbn in Hi. exists blk, i.
        split_and!; try done; by eapply list_elem_of_lookup_2.
Qed.
