(* ===== verification/AllocWeigh.v ===== *)
(** * AllocWeigh: weights and values live across calls

    Proofs about the forward and backward passes of [Allocator.weigh]: every
    used value gets a weight, locations keep their homes, and the values
    recorded at a call are exactly those live across it that a register could
    hold. *)

From S2P Require Import Prelude Target Types Token IR Graph IRVerify IRSound ControlFlow FlowSound LoopSound.
From S2P Require Import Liveness Analysis Cost Allocator AllocSound AllocLive.

(* ------------------------------------------------------------------ *)
(** ** Weights and values live across calls *)

(** Locations that differ only in their intervals. *)
Definition stretched (m m' : Locations) : Prop := ∀ v,
  match m !! v, m' !! v with
  | Some x, Some y => ∃ a b, y = spanning a b x
  | None, None => True
  | _, _ => False
  end.

Lemma stretched_refl m : stretched m m.
Proof. intros v. destruct (m !! v) as [[]|]; [|done]. by eexists _, _. Qed.

Lemma stretched_trans m m' m'' : stretched m m' → stretched m' m'' → stretched m m''.
Proof.
  intros H1 H2 v. specialize (H1 v). specialize (H2 v).
  destruct (m !! v), (m' !! v), (m'' !! v); try done. destruct H1 as (a & b & ->), H2 as (c & d & ->).
  by exists c, d.
Qed.

Lemma stretched_fresh m m' : stretched m m' → fresh m → fresh m'.
Proof.
  intros H Hf v l Hl. specialize (H v). rewrite Hl in H. destruct (m !! v) as [x|] eqn:E; [|done].
  destruct H as (a & b & ->). exact (Hf v x E).
Qed.

Lemma stretched_lookup m m' v y : stretched m m' → m' !! v = Some y →
  ∃ x, m !! v = Some x ∧ rematerializable y = rematerializable x.
Proof.
  intros H Hy. specialize (H v). rewrite Hy in H. destruct (m !! v) as [x|]; [|done].
  destruct H as (a & b & ->). by exists x.
Qed.

Definition wider (w w' : gmap Z Z) : Prop := ∀ v, is_Some (w !! v) → is_Some (w' !! v).

Lemma wider_refl w : wider w w.
Proof. by intros v. Qed.
#[local] Hint Resolve wider_refl stretched_refl : core.

Lemma wider_insert w v x : wider w (<[v := x]> w).
Proof. intros u Hu. apply lookup_insert_is_Some'. by right. Qed.

Section Weigh.
Context (f : IRFunction) (cfg : IRControlFlow) (begins ends : list Z) (far : gset Z) (cp sp : bool).

(** A value with a weight and a location. *)
Definition used (s : Touched) (v : Z) : Prop := is_Some (t_weight s !! v) ∧ is_Some (t_locations s !! v).

Lemma used_mono s s' v : stretched (t_locations s) (t_locations s') → wider (t_weight s) (t_weight s') →
  used s v → used s' v.
Proof.
  intros Hs Hw [H1 [x Hx]]. split; [by apply Hw|]. specialize (Hs v). rewrite Hx in Hs.
  destruct (t_locations s' !! v); [by eexists|done].
Qed.

Lemma touch_ok s point v depth use s' : touch cp sp s point v depth use = Ok s' →
  stretched (t_locations s) (t_locations s') ∧ wider (t_weight s) (t_weight s')
  ∧ (use = true → used s' v).
Proof.
  intros H. unfold touch in H. apply result_bind_ok in H as (l & Hl%map_at_ok & <-%Ok_inj). cbn. split_and!.
  - intros u. destruct (decide (u = v)) as [->|Hne].
    + rewrite Hl, lookup_insert_eq. by eexists _, _.
    + rewrite lookup_insert_ne by done. destruct (t_locations s !! u) as [[]|]; [|done]. by eexists _, _.
  - destruct use; [apply wider_insert|done].
  - intros ->. split; cbn [t_weight t_locations]; rewrite lookup_insert_eq; by eexists.
Qed.

(** A fold of touches. *)
Lemma touch_fold {A} (g : Touched → A → result Touched) (P : A → Z → Prop) l s s' :
  (∀ s x s', x ∈ l → g s x = Ok s' → stretched (t_locations s) (t_locations s') ∧ wider (t_weight s) (t_weight s')
    ∧ ∀ v, P x v → used s' v) →
  foldM g s l = Ok s' →
  stretched (t_locations s) (t_locations s') ∧ wider (t_weight s) (t_weight s')
  ∧ ∀ x v, x ∈ l → P x v → used s' v.
Proof.
  revert s. induction l as [|x l IH]; intros s Hg H; cbn [foldM] in H.
  - injection H as <-. split_and!; [apply stretched_refl|done|]. by intros x v ?%elem_of_nil.
  - apply result_bind_ok in H as (s1 & H1 & H). destruct (Hg _ _ _ ltac:(by left) H1) as (A1 & B1 & C1).
    destruct (IH s1) as (A2 & B2 & C2); [intros; eapply Hg; [by right|done]|done|].
    split_and!; [by eapply stretched_trans|by intros v ?%B1%B2|].
    intros y v [->|Hy]%elem_of_cons Hv; [by apply (used_mono s1), C1|by apply (C2 y)].
Qed.

Lemma touch_operands_ok b position i s s' : touch_operands cfg ends cp sp b position i s = Ok s' →
  stretched (t_locations s) (t_locations s') ∧ wider (t_weight s) (t_weight s')
  ∧ ∀ v, v ∈ i_operands i → used s' v.
Proof.
  intros H. unfold touch_operands in H.
  apply (touch_fold _ (λ (ov : nat * Z) v, ov.2 = v)) in H as (A & B & C).
  - split_and!; [done..|]. intros v Hv. apply list_elem_of_lookup in Hv as [o Ho].
    by apply (C (o, v)); [apply elem_of_indexed|].
  - intros t [o v] t' _ Ht. cbn [snd].
    assert (∃ point depth, touch cp sp t point v depth true = Ok t') as (point & depth & Hto).
    { destruct (is_op (i_opcode i) OpPhi).
      - apply result_bind_ok in Ht as (e & _ & Ht). apply result_bind_ok in Ht as (p & _ & Ht).
        apply result_bind_ok in Ht as (d & _ & Ht). eauto.
      - apply result_bind_ok in Ht as (d & _ & Ht). eauto. }
    apply touch_ok in Hto as (A & B & C). split_and!; [done..|]. intros w <-. by apply C.
Qed.

Lemma touch_live_ok vs point depth s s' : touch_live cp sp vs point depth s = Ok s' →
  stretched (t_locations s) (t_locations s') ∧ wider (t_weight s) (t_weight s').
Proof.
  intros H. unfold touch_live in H. apply (touch_fold _ (λ _ _, False)) in H as (A & B & _); [done|].
  intros t v t' _ Ht%touch_ok. by destruct Ht as (? & ? & _).
Qed.

(** ** Calls *)

Definition savable (m : Locations) (v : Z) : Prop :=
  ∃ l, m !! v = Some l ∧ rematerializable l = false ∧ v ∉ far.
Definition calls_at (s : CallScan) (p : Z) : gset Z := default ∅ (c_calls s !! p).

Lemma save_values m depth i pos l s s' : foldM (save_value far cp sp m depth i pos) s l = Ok s' →
  c_live s' = c_live s ∧ c_position s' = c_position s ∧ wider (c_weight s) (c_weight s')
  ∧ ∀ p w, w ∈ calls_at s' p ↔ w ∈ calls_at s p ∨ p = pos ∧ w ∈ l ∧ savable m w.
Proof.
  revert s. induction l as [|v l IH]; intros s H; cbn [foldM] in H.
  - injection H as <-. split_and!; try done. intros p w. rewrite elem_of_nil. naive_solver.
  - apply result_bind_ok in H as (s1 & H1 & H). apply IH in H as (A & B & C & D). unfold save_value in H1.
    apply result_bind_ok in H1 as (lv & Hl%map_at_ok & H1).
    destruct (rematerializable lv || bool_decide (v ∈ far)) eqn:E.
    + injection H1 as <-. split_and!; try done. intros p w. rewrite D, elem_of_cons.
      assert (¬ savable m v) as Hn.
      { intros (l' & Hl' & Hr & Hf). simplify_eq. rewrite Hr in E. cbn in E. by apply bool_decide_eq_true in E. }
      naive_solver.
    + apply result_bind_ok in H1 as (u & _ & <-%Ok_inj). cbn [c_live c_position c_weight] in *.
      apply orb_false_iff in E as [E1 E2%bool_decide_eq_false]. split_and!; try done.
      * intros w Hw. apply C. destruct cp; [by apply wider_insert|done].
      * intros p w. rewrite D, elem_of_cons. unfold calls_at. cbn [c_calls].
        assert (savable m v) as Hs by by exists lv.
        destruct (decide (p = pos)) as [->|Hne].
        -- rewrite lookup_insert_eq. cbn. set_solver.
        -- rewrite lookup_insert_ne by done. naive_solver.
Qed.

Definition is_call (i : IRInstruction) : Prop := i_opcode i = OpCall.

Lemma scan_calls_ok m depth s i s' : scan_calls far cp sp m depth s i = Ok s' →
  wider (c_weight s) (c_weight s')
  ∧ c_position s' = (if c_position s =? 0 then 0 else c_position s - 1)
  ∧ (∀ w, w ∈ c_live s' ↔ i_opcode i ≠ OpPhi ∧ w ∈ i_operands i ∨ ¬ defines i w ∧ w ∈ c_live s)
  ∧ ∀ p w, w ∈ calls_at s' p ↔ w ∈ calls_at s p ∨
      p = c_position s ∧ is_call i ∧ w ∈ c_live s ∧ ¬ defines i w ∧ savable m w.
Proof.
  intros H. unfold scan_calls in H. cbv zeta in H. cbn [c_position c_calls c_entries c_weight c_live] in H.
  set (live := if value_isValid (i_result i) then c_live s ∖ {[i_result i]} else c_live s) in *.
  assert (∀ w, w ∈ live ↔ w ∈ c_live s ∧ ¬ defines i w) as Hlive.
  { intros w. unfold live, defines. destruct (value_isValid (i_result i)); set_solver. }
  apply result_bind_ok in H as (s1 & H1 & <-%Ok_inj). cbn [c_weight c_position c_live].
  assert (c_live s1 = live ∧ c_position s1 = c_position s ∧ wider (c_weight s) (c_weight s1)
    ∧ ∀ p w, w ∈ calls_at s1 p ↔ w ∈ calls_at s p ∨ p = c_position s ∧ is_call i ∧ w ∈ live ∧ savable m w)
    as (L & P & W & D).
  { unfold is_call. destruct (is_op (i_opcode i) OpCall) eqn:Ec.
    - apply bool_decide_eq_true in Ec. apply save_values in H1 as (A & B & C & D). cbn [c_live c_position c_weight] in *.
      split_and!; try done. intros p w. rewrite D, elem_of_ascending. unfold calls_at. cbn [c_calls].
      destruct (decide (p = c_position s)) as [->|Hne].
      + rewrite lookup_insert_eq. cbn. naive_solver.
      + rewrite lookup_insert_ne by done. naive_solver.
    - apply bool_decide_eq_false in Ec. injection H1 as <-. split_and!; try done. unfold calls_at. cbn [c_calls]. naive_solver. }
  split_and!; [done|by rewrite P| |].
  - intros w. destruct (is_op (i_opcode i) OpPhi) eqn:Eo.
    + apply is_op_phi in Eo. rewrite L, Hlive. naive_solver.
    + assert (i_opcode i ≠ OpPhi) by (intros ?%is_op_phi; congruence).
      rewrite elem_of_union, elem_of_list_to_set, L, Hlive. naive_solver.
  - intros p w. change (calls_at (mkScan _ _ (c_calls s1) _ _) p) with (calls_at s1 p). rewrite D, Hlive. naive_solver.
Qed.

Lemma scan_block m depth base code s s' : 0 ≤ base → (code ≠ [] ∨ 1 ≤ base) →
  c_position s = base + zlen code - 1 → foldM (scan_calls far cp sp m depth) s (rev code) = Ok s' →
  wider (c_weight s) (c_weight s') ∧ c_position s' = Z.max 0 (base - 1)
  ∧ (∀ w, w ∈ c_live s' ↔ live_before code (.∈ c_live s) w)
  ∧ ∀ p w, w ∈ calls_at s' p ↔ w ∈ calls_at s p ∨ ∃ k i, p = base + Z.of_nat k ∧ code !! k = Some i ∧ is_call i
      ∧ live_before (drop (S k) code) (.∈ c_live s) w ∧ ¬ defines i w ∧ savable m w.
Proof.
  revert base s'. induction code as [|i code IH]; intros base s' Hb Hne Hp H; cbn [rev] in H.
  - injection H as <-. split_and!; [done|rewrite Hp; unfold zlen; cbn; destruct Hne; [done|lia]| |].
    + intros w. by rewrite live_before_nil.
    + intros p w. split; [by left|]. intros [|(k & i & _ & Hk & _)]; done.
  - rewrite foldM_app in H. apply result_bind_ok in H as (s1 & H1 & H). cbn [foldM] in H.
    apply result_bind_ok in H as (s2 & H2 & [= <-]).
    destruct (IH (base + 1) s1) as (W1 & P1 & L1 & C1); [lia|right; lia| |done|].
    { rewrite Hp. unfold zlen. cbn [length]. lia. }
    apply scan_calls_ok in H2 as (W2 & P2 & L2 & C2).
    assert (c_position s1 = base) as Eb by lia. split_and!.
    + intros v Hv. by apply W2, W1.
    + rewrite P2, Eb. destruct (Z.eqb_spec base 0); lia.
    + intros w. rewrite L2, L1, live_before_cons. done.
    + intros p w. rewrite C2, C1, Eb. split.
      * intros [[|(k & i' & -> & Hk & Hrest)]|(-> & Hc & Hl & Hd & Hs)]; [by left|right|right].
        -- exists (S k), i'. split; [lia|]. done.
        -- exists 0%nat, i. split; [lia|]. split; [done|]. split; [done|]. rewrite skipn_cons. by rewrite <- L1.
      * intros [|([|k] & i' & -> & Hk & Hc & Hl & Hd & Hs)]; [by left; left| |].
        -- right. injection Hk as <-. rewrite skipn_cons, <- L1 in Hl. split; [lia|]. done.
        -- left. right. exists k, i'. split; [lia|]. done.
Qed.

(** ** All blocks *)

Definition recorded (w : Weighing) (p v : Z) : Prop := v ∈ default (∅ : gset Z) (w_calls w !! p).

(** What one block adds to the weights and the calls. *)
Record weighs (w : Weighing) (blk : IRBasicBlock) (w' : Weighing) : Prop := {
  ws_locations : stretched (t_locations (w_touched w)) (t_locations (w_touched w'));
  ws_weight : wider (t_weight (w_touched w)) (t_weight (w_touched w'));
  ws_uses i v : i ∈ b_instructions blk → v ∈ i_operands i → used (w_touched w') v;
  ws_calls base p v : 0 ≤ base → b_instructions blk ≠ [] → point_of begins blk = base →
    point_of ends blk = base + zlen (b_instructions blk) - 1 →
    recorded w' p v ↔ recorded w p v ∨ ∃ k i, p = base + Z.of_nat k ∧ b_instructions blk !! k = Some i ∧ is_call i
      ∧ live_before (drop (S k) (b_instructions blk)) (.∈ set_of (live_out cfg) (block_index blk)) v
      ∧ ¬ defines i v ∧ savable (t_locations (w_touched w')) v
}.

Lemma scan_wider m depth l s s' : foldM (scan_calls far cp sp m depth) s l = Ok s' → wider (c_weight s) (c_weight s').
Proof.
  revert s. induction l as [|i l IH]; intros s H; cbn [foldM] in H; [by injection H as <-|].
  apply result_bind_ok in H as (s1 & H1%scan_calls_ok & H). destruct H1 as [W1 _].
  intros v Hv. by eapply IH, W1.
Qed.

Lemma weigh_block_ok w blk w' : weigh_block cfg begins ends far cp sp w blk = Ok w' → weighs w blk w'.
Proof.
  intros H. unfold weigh_block in H. apply result_bind_ok in H as ([t1 pos] & H1 & H).
  apply result_bind_ok in H as (t2 & H2%touch_live_ok & H). apply result_bind_ok in H as (t3 & H3%touch_live_ok & H).
  apply result_bind_ok in H as (s & Hs & <-%Ok_inj).
  assert (stretched (t_locations (w_touched w)) (t_locations t1) ∧ wider (t_weight (w_touched w)) (t_weight t1)
    ∧ ∀ i v, i ∈ b_instructions blk → v ∈ i_operands i → used t1 v) as (A1 & B1 & C1).
  { clear H2 H3 Hs. revert H1. generalize (w_touched w) (point_of begins blk). generalize (b_instructions blk) as l.
    induction l as [|i l IH]; intros t p H; cbn [foldM] in H.
    - injection H as <- <-. split_and!; [done..|]. by intros i v ?%elem_of_nil.
    - apply result_bind_ok in H as ([t' p'] & Ht & H). apply result_bind_ok in Ht as (t'' & Ht & [= <- <-]).
      apply touch_operands_ok in Ht as (A & B & C). destruct (IH _ _ H) as (A' & B' & C').
      split_and!; [by eapply stretched_trans|by intros v ?%B%B'|].
      intros i' v [->|Hi]%elem_of_cons Hv; [by apply (used_mono t''), C|by apply (C' i')]. }
  destruct H2 as [A2 B2], H3 as [A3 B3]. pose proof (scan_wider _ _ _ _ _ Hs) as Ws. cbn [c_weight] in Ws.
  split; cbn [w_touched t_locations t_weight].
  - eapply stretched_trans; [exact A1|]. by eapply stretched_trans.
  - by intros v ?%B1%B2%B3%Ws.
  - intros i v Hi Hv. apply (used_mono t3); [done..|]. apply (used_mono t2); [done..|].
    apply (used_mono t1); [done..|]. by apply (C1 i).
  - intros base p v Hb Hne Hbeg Hend.
    apply (scan_block _ _ base) in Hs as (_ & _ & _ & C); [|done|by left|by cbn [c_position]].
    apply C.
Qed.

Lemma savable_stretched m m' v : stretched m m' → savable m v ↔ savable m' v.
Proof.
  intros H. specialize (H v). unfold savable. destruct (m !! v) as [x|], (m' !! v) as [y|]; naive_solver.
Qed.

Lemma weigh_ok m w : ids_ok f → weigh f cfg begins ends far cp sp m = Ok w →
  stretched m (t_locations (w_touched w))
  ∧ (∀ b k i v, instr_at f b k = Some i → v ∈ i_operands i → used (w_touched w) v)
  ∧ ((∀ b blk, f_blocks f !! b = Some blk → b_instructions blk ≠ [] ∧ begins !! b = Some (first_position f b)
        ∧ ends !! b = Some (first_position f b + zlen (b_instructions blk) - 1)) →
     ∀ p v, recorded w p v ↔ ∃ b k i, instr_at f b k = Some i ∧ p = position_of f b k ∧ is_call i
       ∧ live_before (drop (S k) (instructions_of f b)) (.∈ set_of (live_out cfg) b) v ∧ ¬ defines i v ∧ savable m v).
Proof.
  intros Hid H. unfold weigh in H.
  assert (∀ bs w0 w1, foldM (weigh_block cfg begins ends far cp sp) w0 bs = Ok w1 →
    stretched (t_locations (w_touched w0)) (t_locations (w_touched w1))
    ∧ wider (t_weight (w_touched w0)) (t_weight (w_touched w1))
    ∧ (∀ blk i v, blk ∈ bs → i ∈ b_instructions blk → v ∈ i_operands i → used (w_touched w1) v)
    ∧ ((∀ blk, blk ∈ bs → b_instructions blk ≠ [] ∧ ∃ b, f_blocks f !! b = Some blk ∧ begins !! b = Some (first_position f b)
        ∧ ends !! b = Some (first_position f b + zlen (b_instructions blk) - 1)) →
      ∀ p v, recorded w1 p v ↔ recorded w0 p v ∨ ∃ blk b k i, blk ∈ bs ∧ f_blocks f !! b = Some blk
        ∧ b_instructions blk !! k = Some i ∧ p = position_of f b k ∧ is_call i
        ∧ live_before (drop (S k) (b_instructions blk)) (.∈ set_of (live_out cfg) b) v ∧ ¬ defines i v
        ∧ savable (t_locations (w_touched w1)) v)) as Hfold.
  { induction bs as [|blk bs IH]; intros w0 w1 Hb; cbn [foldM] in Hb.
    - injection Hb as <-. split_and!; [done..| |].
      + by intros blk i v ?%elem_of_nil.
      + intros _ p v. setoid_rewrite elem_of_nil. naive_solver.
    - apply result_bind_ok in Hb as (w2 & H2%weigh_block_ok & Hb). destruct H2 as [A2 B2 C2 D2].
      destruct (IH _ _ Hb) as (A1 & B1 & C1 & D1). split_and!.
      + by eapply stretched_trans.
      + by intros v ?%B2%B1.
      + intros blk' i v [->|Hin]%elem_of_cons Hi Hv; [by apply (used_mono (w_touched w2)), (C2 i)|by apply (C1 blk' i)].
      + intros Hall p v. destruct (Hall blk ltac:(by left)) as (Hne & b0 & Hb0 & Hbeg & Hend).
        assert (block_index blk = b0) as Eb0 by (unfold block_index; rewrite (Hid b0 blk Hb0); lia).
        rewrite D1 by (intros x Hx; apply Hall; by right).
        rewrite (D2 (first_position f b0)).
        * rewrite Eb0. setoid_rewrite (savable_stretched _ _ _ A1). setoid_rewrite elem_of_cons. split.
          -- intros [[|(k & i & -> & Hk & Hr)]|(blk' & b & k & i & Hin & Hr)]; [by left|right|right].
             ++ exists blk, b0, k, i. split_and!; try done; [by left|apply Hr..].
             ++ exists blk', b, k, i. split; [by right|done].
          -- intros [|(blk' & b & k & i & [->|Hin] & Hbb & Hk & -> & Hr)]; [by left; left| |].
             ++ left. right. assert (b = b0) as ->.
                { unfold block_index in Eb0. rewrite (Hid b blk Hbb) in Eb0. lia. }
                exists k, i. done.
             ++ right. exists blk', b, k, i. done.
        * unfold first_position. lia.
        * done.
        * unfold point_of. by rewrite Eb0, Hbeg.
        * unfold point_of. by rewrite Eb0, Hend. }
  destruct (Hfold _ _ _ H) as (A & _ & C & D). split_and!; [done| |].
  - intros b k i v Hi Hv. unfold instr_at in Hi. destruct (f_blocks f !! b) as [blk|] eqn:E; [|done]. cbn in Hi.
    by apply (C blk i); [eapply list_elem_of_lookup_2|eapply list_elem_of_lookup_2|].
  - intros Hall p v. rewrite D.
    + unfold recorded at 1. cbn [w_calls]. rewrite lookup_empty. cbn. setoid_rewrite (savable_stretched _ _ _ A). split.
      * intros [?%elem_of_empty|(blk & b & k & i & _ & Hb & Hk & Hr)]; [done|]. exists b, k, i.
        unfold instr_at, instructions_of. by rewrite Hb.
      * intros (b & k & i & Hi & Hr). right. unfold instr_at, instructions_of in *.
        destruct (f_blocks f !! b) as [blk|] eqn:E; [|done]. cbn in Hi. exists blk, b, k, i.
        split; [by eapply list_elem_of_lookup_2|done].
    + intros blk Hin. apply list_elem_of_lookup in Hin as [b Hb]. destruct (Hall b blk Hb) as (H1 & H2 & H3).
      split; [done|]. by exists b.
Qed.
End Weigh.
