(* ===== verification/AllocProps.v ===== *)
(** * AllocProps: what the global allocator promises

    The properties of [Allocator.runGlobal]: no definition clobbers the home of
    a live value, every used value can be found again, calls save exactly what
    lives across them, and spare registers hold nothing live. *)

From S2P Require Import Prelude Target Types Token IR Graph IRVerify IRSound ControlFlow FlowSound LoopSound.
From S2P Require Import Liveness Analysis Cost Allocator AllocSound AllocLive AllocWeigh.

(* ------------------------------------------------------------------ *)
(** ** One run *)

Definition far_values (f : IRFunction) (v : Z) : Prop :=
  ∃ b k i, instr_at f b k = Some i ∧ defines i v ∧ isFarPointer (i_type i).

(** The registers the backend leaves to the allocator. *)
Definition general_registers : list Z := [2; 4; 5; 7; 8; 14].

(** The sets at the end of blocks as the analysis found them. *)
Definition out_set (cfg : IRControlFlow) (b : nat) (v : Z) : Prop := v ∈ set_of (live_out cfg) b.

Record allocated (f : IRFunction) (cfg : IRControlFlow) (registers : list Z) (a : Allocator) : Prop := {
  al_apart b k i v w x y : instr_at f b k = Some i → defines i v → v ≠ w →
    live_before (drop (S k) (instructions_of f b)) (out_set cfg b) w →
    find a v = Some x → find a w = Some y → apart x y;
  al_home b k i v : instr_at f b k = Some i → v ∈ i_operands i → ∃ x, find a v = Some x ∧
    (rematerializable x ∨ far_values f v ∨ has_register x ∨ 0 ≤ spill_slot x);
  al_register v x : find a v = Some x → has_register x →
    physical_register x ∈ registers ∧ physical_register x ∈ general_registers;
  al_calls p v : (∀ b blk, f_blocks f !! b = Some blk → b_instructions blk ≠ []) →
    liveAcrossCall a v p = true ↔ ∃ b k i, instr_at f b k = Some i ∧ p = position_of f b k ∧ i_opcode i = OpCall
      ∧ live_before (drop (S k) (instructions_of f b)) (out_set cfg b) v ∧ ¬ defines i v ∧ ¬ far_values f v
      ∧ ∃ x, find a v = Some x ∧ rematerializable x = false
}.

Lemma check_registers_ok allocatable rs : check_registers allocatable = Ok rs →
  ∀ r, r ∈ rs → r ∈ allocatable ∧ r ∈ general_registers.
Proof.
  intros H. unfold check_registers in H. apply result_bind_ok in H as (rs' & H & <-%Ok_inj).
  intros r Hr. rewrite merge_sort_Permutation in Hr. revert r Hr.
  refine (foldM_inv (λ t, ∀ r, r ∈ t → r ∈ allocatable ∧ r ∈ general_registers) _ _ _ _ _ _ H).
  - intros t x t' Hx Ht Hs. apply result_bind_ok in Hs as ([] & Hin%throw_if_ok & <-%Ok_inj).
    apply negb_false_iff, bool_decide_eq_true in Hin. destruct (bool_decide (x ∈ t)); [done|].
    intros r [Hr|Hr%list_elem_of_singleton]%elem_of_app; [auto|by subst].
  - by intros r ?%elem_of_nil.
Qed.

Section Run.
Context (f : IRFunction) (cfg : IRControlFlow) (far : gset Z) (sp : bool) (m : Locations) (weight : gmap Z Z).

Lemma elem_of_ordered v : v ∈ ordered f cfg far sp m weight ↔ elig far m weight v.
Proof.
  unfold ordered. rewrite merge_sort_Permutation, list_elem_of_fmap. unfold elig. split.
  - intros ([v' l] & -> & Hin). cbn. apply list_elem_of_In, filter_In in Hin as [Hin He].
    apply list_elem_of_In, elem_of_map_to_list in Hin. eauto.
  - intros (l & Hl & He). exists (v, l). split; [done|]. apply list_elem_of_In, filter_In. split; [|done].
    by apply list_elem_of_In, elem_of_map_to_list.
Qed.

Lemma fresh_placed g regs order : fresh m → placed g regs order m m ∧ no_slots m.
Proof.
  intros Hf. split; [split|].
  - intros a b x y _ Hx Hy. destruct (Hf a x Hx) as [E1 E2], (Hf b y Hy) as [E3 E4].
    split; [rewrite E1; by intros [? _]|lia].
  - intros v. destruct (m !! v); [|done]. unfold same_value. done.
  - intros v x Hx Hr. destruct (Hf v x Hx) as [E _]. by rewrite E in Hr.
  - intros v x Hx Hr. destruct (Hf v x Hx) as [E _]. by rewrite E in Hr.
  - intros v x Hx _. destruct (Hf v x Hx) as [-> ->]. split; [by intros []|lia].
  - intros v x Hx. destruct (Hf v x Hx) as [_ ->]. lia.
Qed.

(** Colouring, spilling and improving, in sequence. *)
Lemma homes_placed g regs m1 m2 m3 :
  fresh m → graph_inv g →
  foldM (colour regs g) m (ordered f cfg far sp m weight) = Ok m1 →
  foldM (spill g) m1 (ordered f cfg far sp m weight) = Ok m2 →
  improvePhiLocations (interference g) (preferences g) (affinity g) m2 = Ok m3 →
  placed (interference g) regs (ordered f cfg far sp m weight) m m3
  ∧ ∀ v, v ∈ ordered f cfg far sp m weight → housed m3 v.
Proof.
  intros Hf [Hs Hi] H1 H2 H3. set (order := ordered f cfg far sp m weight) in *.
  assert (placed (interference g) regs order m m1 ∧ no_slots m1) as [P1 _].
  { refine (foldM_inv (λ t, placed (interference g) regs order m t ∧ no_slots t) _ _ _ _ _ _ H1).
    - intros t v t' Hv Ht Hc. by eapply (colour_placed (interference g) regs order m Hs Hi g).
    - by apply fresh_placed. }
  assert (∀ l t t', (∀ v, v ∈ l → v ∈ order) → placed (interference g) regs order m t → foldM (spill g) t l = Ok t' →
    placed (interference g) regs order m t' ∧ (∀ v, v ∈ l → housed t' v) ∧ ∀ v, housed t v → housed t' v) as Hsp.
  { induction l as [|v l IH]; intros t t' Hl Ht H; cbn [foldM] in H.
    - injection H as <-. split_and!; try done. by intros v ?%elem_of_nil.
    - apply result_bind_ok in H as (t1 & Hv & H). pose proof (spill_housed _ _ _ _ Hv) as [H4 H5].
      apply (spill_placed (interference g) regs order m Hs Hi g) in Hv; [|done|apply Hl; by left|done].
      destruct (IH t1 t') as (R1 & R2 & R3); [intros; apply Hl; by right|done|done|].
      split_and!; [done| |auto]. intros w [->|Hw]%elem_of_cons; auto. }
  destruct (Hsp order m1 m2) as (P2 & Q2 & _); [done..|].
  apply (improvePhiLocations_placed (interference g) regs order m Hs Hi) in H3 as [P3 Q3]; [|done].
  split; [done|]. auto.
Qed.
End Run.

Lemma runGlobalImpl_ok f allocatable cp sp a : ids_ok f → runGlobalImpl f allocatable cp sp = Ok a →
  ∃ cfg, analyze f = Ok cfg ∧ allocated f cfg allocatable a.
Proof.
  intros Hid H. unfold runGlobalImpl in H. apply result_bind_ok in H as (cfg & Hcfg & H). cbv zeta in H.
  apply result_bind_ok in H as (w & Hw & H). apply result_bind_ok in H as (rs & Hrs & H).
  apply result_bind_ok in H as (g & Hg & H). apply result_bind_ok in H as (m1 & H1 & H).
  apply result_bind_ok in H as (m2 & H2 & H). apply result_bind_ok in H as (m3 & H3 & <-%Ok_inj).
  exists cfg. split; [done|]. destruct (collect_ok f Hid) as (Hfresh & Hpoints & Hfar).
  apply weigh_ok in Hw as (Hst & Huse & Hcalls); [|done].
  set (m := t_locations (w_touched w)) in *. set (weight := t_weight (w_touched w)) in *.
  set (far := p_far (collect f)) in *.
  destruct (conflicts_ok cfg far sp m weight f g Hid Hg) as [Hgi Hj].
  destruct (homes_placed f cfg far sp m weight g rs m1 m2 m3) as [P Hh]; try done.
  { by apply (stretched_fresh (p_locations (collect f))). }
  assert (∀ v x, m3 !! v = Some x → elig far m weight v ∨ ¬ has_register x ∧ spill_slot x < 0) as Hout.
  { intros v x Hx. destruct (decide (v ∈ ordered f cfg far sp m weight)) as [Hin|Hn].
    - left. by apply elem_of_ordered in Hin.
    - right. by apply (pl_outside _ _ _ _ _ P v). }
  assert (∀ v, far_values f v ↔ v ∈ far) as Hfv by (intros v; by rewrite Hfar).
  split; unfold find, liveAcrossCall; cbn [m_locations m_call_live].
  - intros b k i v u x y Hi Hd Hne Hl Hx Hy.
    destruct (Hout v x Hx) as [Hev|[Hrx Hsx]]; [|split; [naive_solver|lia]].
    destruct (Hout u y Hy) as [Heu|[Hry Hsy]]; [|split; [naive_solver|lia]].
    apply (pl_coloured _ _ _ _ _ P v u); [|done..]. by apply (Hj b k i).
  - intros b k i v Hi Hv. destruct (Huse b k i v Hi Hv) as [[wt Hwt] [l Hl]]. fold m weight in Hl, Hwt.
    pose proof (pl_same _ _ _ _ _ P v) as Hs. rewrite Hl in Hs. destruct (m3 !! v) as [x|] eqn:Ex; [|done].
    exists x. split; [done|]. destruct (eligible_at far weight v l) eqn:Ee.
    + destruct (Hh v) as (x' & Hx' & Hhome); [by apply elem_of_ordered; exists l|]. simplify_eq. tauto.
    + unfold eligible_at in Ee. rewrite Hwt, andb_true_r in Ee. apply andb_false_iff in Ee as [Ee|Ee].
      * left. apply negb_false_iff in Ee. destruct Hs as [<- _]. by rewrite Ee.
      * right. left. apply Hfv. by apply negb_false_iff, bool_decide_eq_true in Ee.
  - intros v x Hx Hr. apply (check_registers_ok _ _ Hrs). by apply (pl_register _ _ _ _ _ P v).
  - intros p v Hne.
    assert ((match w_calls w !! p with Some s => bool_decide (v ∈ s) | None => false end) = true ↔ recorded w p v) as ->.
    { unfold recorded. destruct (w_calls w !! p); cbn; [apply bool_decide_eq_true|]. set_solver. }
    rewrite Hcalls.
    2: { intros b blk Hb. destruct (Hpoints b blk Hb) as [? He]. pose proof (Hne b blk Hb). auto. }
    assert (savable far (p_locations (collect f)) v ↔
      ¬ far_values f v ∧ ∃ x, m3 !! v = Some x ∧ rematerializable x = false) as Hsv.
    { rewrite (savable_stretched far _ _ _ Hst). rewrite Hfv. unfold savable. fold m.
      pose proof (pl_same _ _ _ _ _ P v) as Hs. destruct (m !! v) as [l|], (m3 !! v) as [x|]; try done.
      - destruct Hs as [E _]. split; [intros (l' & [= <-] & Hr & Hf)|intros (Hf & x' & [= <-] & Hr)].
        + split; [done|]. exists x. by rewrite <- E.
        + exists l. by rewrite E.
      - split; [by intros (? & ? & _)|by intros (_ & ? & ? & _)]. }
    setoid_rewrite Hsv. unfold is_call, out_set. done.
Qed.

(* ------------------------------------------------------------------ *)
(** ** Spare registers *)

Section Spares.
Context (f : IRFunction) (cfg : IRControlFlow) (locations : Locations) (allocatable : list Z).

(** The values an instruction or what follows it still needs. *)
Definition busy_at (b k : nat) (i : IRInstruction) (w : Z) : Prop :=
  live_before (drop (S k) (instructions_of f b)) (out_set cfg b) w ∨ defines i w
  ∨ i_opcode i ≠ OpPhi ∧ w ∈ i_operands i.

Definition spare_safe (p reg : Z) : Prop :=
  reg ∈ allocatable ∧ ∀ b k i w x, instr_at f b k = Some i → p = position_of f b k → busy_at b k i w →
    locations !! w = Some x → has_register x → physical_register x ≠ reg.
Definition table_safe (table : gmap Z (list Z)) : Prop :=
  ∀ p reg, reg ∈ default [] (table !! p) → spare_safe p reg.

Lemma busy_registers_ok live work busy work' : busy_registers locations live work = Some (busy, work') →
  ∀ w x, w ∈ live → locations !! w = Some x → has_register x → physical_register x ∈ busy.
Proof.
  unfold busy_registers.
  set (step := λ (s : option (gset Z * Z)) v, match s with Some _ => _ | None => _ end).
  assert (∀ l, foldl step None l = None) as Hnone by (intros l; by induction l).
  assert (∀ l B n B' n', foldl step (Some (B, n)) l = Some (B', n') →
    B ⊆ B' ∧ ∀ w x, w ∈ l → locations !! w = Some x → has_register x → physical_register x ∈ B') as Hf.
  { induction l as [|v l IH]; intros B n B' n' H; cbn [foldl] in H.
    - injection H as <- <-. split; [done|]. by intros w x ?%elem_of_nil.
    - unfold step at 2 in H. destruct (1000000 <? n + 1); [by rewrite Hnone in H|]. apply IH in H as [H1 H2].
      split.
      + destruct (locations !! v) as [l'|]; [destruct (has_register l'); set_solver|done].
      + intros w x [->|Hw]%elem_of_cons Hx Hr; [|by apply (H2 w)]. rewrite Hx in H1.
        destruct (has_register x); [set_solver|done]. }
  intros H w x Hw. apply Hf in H as [_ H]. by apply H, elem_of_ascending.
Qed.

Lemma spare_none l : foldl (spare_step locations allocatable) None l = None.
Proof. by induction l. Qed.

Hypothesis Hself : ∀ b k i w, instr_at f b k = Some i → i_opcode i ≠ OpPhi → w ∈ i_operands i → ¬ defines i w.

Lemma spare_scan b j code s s' :
  code = drop j (instructions_of f b) →
  foldl (spare_step locations allocatable) (Some s) (rev code) = Some s' →
  sp_point s = position_of f b j + zlen code → (∀ w, w ∈ sp_live s ↔ out_set cfg b w) → table_safe (sp_table s) →
  sp_point s' = position_of f b j ∧ (∀ w, w ∈ sp_live s' ↔ live_before code (out_set cfg b) w) ∧ table_safe (sp_table s').
Proof.
  revert j s'. induction code as [|i code IH]; intros j s' Hcode H Hp Hl Ht; cbn [rev] in H.
  - injection H as <-. split_and!; [rewrite Hp; unfold zlen; cbn; lia| |done].
    intros w. by rewrite Hl, live_before_nil.
  - rewrite foldl_app in H. cbn [foldl] in H.
    destruct (foldl (spare_step locations allocatable) (Some s) (rev code)) as [s1|] eqn:E1; [|done].
    assert (instructions_of f b !! j = Some i) as Hi.
    { rewrite <- (Nat.add_0_r j), <- lookup_drop, <- Hcode. done. }
    assert (code = drop (S j) (instructions_of f b)) as Hcode'.
    { rewrite <- Nat.add_1_r, <- drop_drop, <- Hcode. done. }
    destruct (IH (S j) s1) as (P1 & L1 & T1); [done..| |done|done|].
    { rewrite Hp. unfold position_of, zlen. cbn [length]. lia. }
    assert (instr_at f b j = Some i) as Hat by (by rewrite instr_at_of).
    unfold spare_step in H. destruct (1000000 <? sp_work s1 + 1); [done|]. cbv zeta in H.
    set (live2 := if value_isValid (i_result i) then {[i_result i]} ∪ _ else _) in H.
    destruct (busy_registers locations live2 (sp_work s1 + 1)) as [[busy w']|] eqn:Eb; [|done].
    injection H as <-. cbn [sp_point sp_live sp_table].
    assert (∀ w, w ∈ live2 ↔ busy_at b j i w) as Hbusy.
    { intros w. unfold live2, busy_at, defines. rewrite <- Hcode', <- L1.
      destruct (is_op (i_opcode i) OpPhi) eqn:Eo.
      - apply is_op_phi in Eo. destruct (value_isValid (i_result i)); set_solver.
      - assert (i_opcode i ≠ OpPhi) by (intros ?%is_op_phi; congruence).
        destruct (value_isValid (i_result i)); set_solver. }
    assert (sp_point s1 - 1 = position_of f b j) as Epos by (rewrite P1; unfold position_of; lia).
    split_and!; [done| |].
    + intros w. rewrite live_before_cons, <- L1.
      assert (w ∈ (if value_isValid (i_result i) then live2 ∖ {[i_result i]} else live2) ↔ w ∈ live2 ∧ ¬ defines i w) as ->.
      { unfold defines. destruct (value_isValid (i_result i)); set_solver. }
      rewrite Hbusy. unfold busy_at. rewrite <- Hcode', <- L1. pose proof (Hself b j i w Hat). naive_solver.
    + intros p reg. rewrite Epos. destruct (decide (p = position_of f b j)) as [->|Hne].
      * rewrite lookup_insert_eq. cbn [default from_option id]. intros [Hin|Hin]%elem_of_app; [by apply T1|].
        apply list_elem_of_In, filter_In in Hin as [Hin Hfree%negb_true_iff%bool_decide_eq_false].
        split; [by apply list_elem_of_In|]. intros c k i' w x Hi' Hpos Hw Hx Hr Heq.
        destruct (position_inj _ _ _ _ _ _ _ Hat Hi' Hpos) as [-> ->]. rewrite Hat in Hi'. injection Hi' as <-.
        apply Hfree. rewrite <- Heq. apply (busy_registers_ok _ _ _ _ Eb w); [by apply Hbusy|done..].
      * rewrite lookup_insert_ne by done. apply T1.
Qed.

Lemma spare_table_safe table : ids_ok f → spare_table f cfg locations allocatable = Ok table → table_safe table.
Proof.
  intros Hid H. unfold spare_table in H. apply result_bind_ok in H as (s & Hs & <-%Ok_inj).
  assert (∀ l e, foldl (spare_block cfg locations allocatable) (Err e) l = Err e) as Herr by (intros l e; by induction l).
  assert (∀ l, foldl (spare_block cfg locations allocatable) (Ok None) l = Ok None) as Hnone by (intros l; by induction l).
  assert (∀ bs b0 work table s, f_blocks f = take b0 (f_blocks f) ++ bs → table_safe table →
    foldl (spare_block cfg locations allocatable) (Ok (Some (first_position f b0, work, table))) bs = Ok s →
    match s with Some (_, _, table) => table_safe table | None => True end) as Hf.
  { clear Hs s. induction bs as [|blk bs IH]; intros b0 work table s Hbs Ht H; cbn [foldl] in H.
    - by injection H as <-.
    - assert (f_blocks f !! b0 = Some blk) as Hblk.
      { assert (b0 ≤ length (f_blocks f))%nat as Hle.
        { destruct (decide (b0 ≤ length (f_blocks f))%nat) as [|Hgt]; [done|]. exfalso.
          rewrite take_ge in Hbs by lia. apply (f_equal length) in Hbs. rewrite length_app in Hbs. cbn in Hbs. lia. }
        rewrite Hbs, lookup_app_r by (rewrite length_take; lia). rewrite length_take.
        by replace (b0 - b0 `min` length (f_blocks f))%nat with 0%nat by lia. }
      unfold spare_block at 2 in H. cbn [mbind result_mbind result_bind] in H.
      destruct (at_ (live_out cfg) (b_id blk)) as [live|e] eqn:El;
        [|cbn [mbind result_mbind result_bind] in H; by rewrite Herr in H].
      cbn [mbind result_mbind result_bind] in H. apply at_ok in El as [_ El]. rewrite (Hid b0 blk Hblk), Nat2Z.id in El.
      destruct (foldl (spare_step _ _) _ _) as [s1|] eqn:E1; [|rewrite Hnone in H; by injection H as <-].
      assert (instructions_of f b0 = b_instructions blk) as Hcode by (unfold instructions_of; by rewrite Hblk).
      apply (spare_scan b0 0) in E1 as (_ & _ & T1).
      + rewrite <- (first_position_S f b0 blk Hblk) in H. apply (IH (S b0) _ _ _) in H; [done| |done].
        by rewrite (take_S_r _ _ _ Hblk), <- app_assoc.
      + by rewrite Hcode.
      + cbn [sp_point]. unfold position_of. lia.
      + intros w. cbn [sp_live]. unfold out_set, set_of. by rewrite El.
      + done. }
  assert (table_safe ∅) as H0 by (intros p reg; rewrite lookup_empty; by intros ?%elem_of_nil).
  assert (first_position f 0 = 0) as E0 by done.
  pose proof (Hf (f_blocks f) 0%nat 0 ∅ s eq_refl H0) as Hend. rewrite E0 in Hend. specialize (Hend Hs).
  by destruct s as [[[] ?]|].
Qed.
End Spares.

(* ------------------------------------------------------------------ *)
(** ** The allocator as a whole *)

Lemma verified_no_self f b k i w : verifyFunction f = Ok tt → instr_at f b k = Some i → i_opcode i ≠ OpPhi →
  w ∈ i_operands i → ¬ defines i w.
Proof.
  intros (p & reach & ds & Hf)%verified_facts Hi Hop Hw [Hv <-].
  pose proof (p_checked _ _ _ (fa_pass _ _ _ _ Hf) _ _ _ I Hi) as [_ _ _ Hr _ _].
  destruct Hr as [(Hpv & _)|(_ & Hinv)]; [|by rewrite Hinv in Hv].
  pose proof (p_defined _ _ _ (fa_pass _ _ _ _ Hf) _ _ _ I Hi Hpv) as Hd.
  pose proof (fa_second _ _ _ _ Hf _ _ _ Hi) as H. unfold pass2_instruction in H.
  rewrite bool_decide_false in H by done.
  apply result_bind_ok in H as ([] & _ & H). apply result_bind_ok in H as ([] & Huses & _).
  rewrite forM_ok, Forall_forall in Huses. specialize (Huses _ Hw). unfold verify_use in Huses.
  apply result_bind_ok in Huses as (d & Hd'%map_at_ok & Huse). cbn [v_defs] in Hd'. rewrite Hd in Hd'.
  injection Hd' as <-. cbn [d_block d_instruction] in Huse. rewrite Nat.eqb_refl in Huse.
  apply throw_if_ok, Nat.leb_gt in Huse. lia.
Qed.

Lemma verified_nonempty f b blk : verifyFunction f = Ok tt → f_blocks f !! b = Some blk → b_instructions blk ≠ [].
Proof.
  intros (p & reach & ds & Hf)%verified_facts Hb E. destruct (fa_last _ _ _ _ Hf b blk Hb) as (i & Hi & _).
  by rewrite E in Hi.
Qed.

Lemma runGlobal_ok f allocatable policy a : ids_ok f → runGlobal f allocatable policy = Ok a →
  ∃ cfg, analyze f = Ok cfg ∧ allocated f cfg allocatable a
    ∧ spare_table f cfg (m_locations a) allocatable = Ok (m_spare_registers a).
Proof.
  intros Hid H. unfold runGlobal in H. cbv zeta in H. apply result_bind_ok in H as (a1 & H1 & H).
  apply result_bind_ok in H as (a2 & H2 & H). apply result_bind_ok in H as (cfg & Hcfg & H).
  apply result_bind_ok in H as (table & Ht & <-%Ok_inj).
  assert (∃ cp, runGlobalImpl f allocatable cp (bool_decide (policy = OptSize)) = Ok a2) as [cp Ha2].
  { destruct (_ && _); [|exists false; by injection H2 as <-].
    apply result_bind_ok in H2 as (cfg' & _ & H2). apply result_bind_ok in H2 as (before & _ & H2).
    apply result_bind_ok in H2 as (second & Hs & H2). apply result_bind_ok in H2 as (after & _ & <-%Ok_inj).
    destruct (better _ _ _); by eexists. }
  destruct (runGlobalImpl_ok _ _ _ _ _ Hid Ha2) as (cfg' & Hcfg' & Hal). rewrite Hcfg in Hcfg'. injection Hcfg' as <-.
  exists cfg. split; [done|]. split; [|done]. destruct Hal. by split.
Qed.

Lemma out_set_live f cfg b w : ids_ok f → analyze f = Ok cfg → reaches f b → out_set cfg b w ↔ live_out_of f b w.
Proof. intros Hid Hc Hb. by apply (analyze_exact f cfg Hid Hc b w). Qed.

(** C11. The allocation never loses a live value: when an instruction writes its
    result, every other value still needed afterwards is elsewhere, in another
    register or another spill slot. *)
Theorem alloc_no_clobber (f : IRFunction) (allocatable : list Z) (policy : OptimizationLevel) (a : Allocator)
    (b k : nat) (i : IRInstruction) (v w : IRValueId) (x y : LinearScanLocation) :
  ids_ok f → runGlobal f allocatable policy = Ok a → reaches f b →
  instr_at f b k = Some i → defines i v → v ≠ w → live_past f b k w →
  find a v = Some x → find a w = Some y → apart x y.
Proof.
  intros Hid Ha Hb Hi Hd Hne Hl Hx Hy. destruct (runGlobal_ok _ _ _ _ Hid Ha) as (cfg & Hcfg & Hal & _).
  apply (al_apart _ _ _ _ Hal b k i v w); try done. eapply live_before_ext; [|exact Hl]. by apply out_set_live.
Qed.

(** C13. Every used value can be read back: it is a constant or plain address, a far
    pointer with its own frame slot, or has exactly one home, a register the
    backend gave to the allocator or a spill slot. *)
Theorem alloc_homes (f : IRFunction) (allocatable : list Z) (policy : OptimizationLevel) (a : Allocator)
    (b k : nat) (i : IRInstruction) (v : IRValueId) :
  ids_ok f → runGlobal f allocatable policy = Ok a → instr_at f b k = Some i → v ∈ i_operands i →
  ∃ x, find a v = Some x ∧
    (rematerializable x ∨ far_values f v ∨
     (has_register x ∧ physical_register x ∈ allocatable ∧ physical_register x ∈ general_registers) ∨
     (¬ has_register x ∧ 0 ≤ spill_slot x)).
Proof.
  intros Hid Ha Hi Hv. destruct (runGlobal_ok _ _ _ _ Hid Ha) as (cfg & Hcfg & Hal & _).
  destruct (al_home _ _ _ _ Hal b k i v Hi Hv) as (x & Hx & H). exists x. split; [done|].
  pose proof (al_register _ _ _ _ Hal v x Hx) as Hr. destruct (has_register x) eqn:E.
  - do 2 right. left. by specialize (Hr I).
  - destruct H as [|[|[|]]]; [by left|by right; left|done|do 3 right]. split; [by intros []|done].
Qed.

(** C12. A call saves exactly what must survive it: the values recorded at its
    position are those needed afterwards and not written by the call, other
    than rematerializable values and far pointers. *)
Theorem alloc_calls (f : IRFunction) (allocatable : list Z) (policy : OptimizationLevel) (a : Allocator)
    (b k : nat) (i : IRInstruction) (v : IRValueId) :
  verifyFunction f = Ok tt → runGlobal f allocatable policy = Ok a → reaches f b →
  instr_at f b k = Some i → i_opcode i = OpCall →
  liveAcrossCall a v (position_of f b k) = true ↔
    live_past f b k v ∧ ¬ defines i v ∧ ¬ far_values f v ∧ ∃ x, find a v = Some x ∧ rematerializable x = false.
Proof.
  intros Hv Ha Hb Hi Hop. pose proof (verified_ids f Hv) as Hid.
  destruct (runGlobal_ok _ _ _ _ Hid Ha) as (cfg & Hcfg & Hal & _).
  rewrite (al_calls _ _ _ _ Hal) by (intros ??; by apply verified_nonempty).
  assert (live_past f b k v ↔ live_before (drop (S k) (instructions_of f b)) (out_set cfg b) v) as ->.
  { apply live_before_ext. symmetry. by apply out_set_live. }
  split.
  - intros (c & j & i' & Hi' & Hpos & _ & Hl & Hd & Hrest).
    destruct (position_inj _ _ _ _ _ _ _ Hi Hi' Hpos) as [-> ->]. rewrite Hi in Hi'. by injection Hi' as <-.
  - intros (Hl & Hd & Hrest). by exists b, k, i.
Qed.

(** A register lent at an instruction is free there: it holds neither the
    result, nor an operand, nor any value needed afterwards. *)
Theorem alloc_spare (f : IRFunction) (allocatable : list Z) (policy : OptimizationLevel) (a : Allocator)
    (b k : nat) (i : IRInstruction) (reg : Z) (w : IRValueId) (x : LinearScanLocation) :
  verifyFunction f = Ok tt → runGlobal f allocatable policy = Ok a → reaches f b →
  instr_at f b k = Some i → reg ∈ spareRegisters a (position_of f b k) →
  live_past f b k w ∨ defines i w ∨ i_opcode i ≠ OpPhi ∧ w ∈ i_operands i →
  find a w = Some x → has_register x → reg ∈ allocatable ∧ physical_register x ≠ reg.
Proof.
  intros Hv Ha Hb Hi Hreg Hw Hx Hr. pose proof (verified_ids f Hv) as Hid.
  destruct (runGlobal_ok _ _ _ _ Hid Ha) as (cfg & Hcfg & _ & Ht).
  apply spare_table_safe in Ht; [|by intros ????; apply verified_no_self|done].
  destruct (Ht _ _ Hreg) as [Hin Hsafe]. split; [done|]. apply (Hsafe b k i w x); try done.
  unfold busy_at. destruct Hw as [Hw|Hw]; [left|by right].
  eapply live_before_ext; [|exact Hw]. by apply out_set_live.
Qed.

(* ------------------------------------------------------------------ *)
(** ** Witnesses *)

(** Two calls whose results are added. *)
Definition calling : IRFunction :=
  let call r := mkInstr OpCall word r [] [] InvalidBlock 0 [] false 0 "" "g" 0 false false false [] false no_token in
  mkFunction "sum" "sum" word [] 0 false false
    [mkBlock 0 "" [call 1; call 2; plain_instr OpBinary word 3 [1; 2] [] "+" 0 0;
                   plain_instr OpReturn word 0 [3] [] "" 0 0]]
    0 3 false [] [].

Example calling_verified : verifyFunction calling = Ok tt.
Proof. vm_compute. reflexivity. Qed.

Lemma calling_reaches : reaches calling 0.
Proof. exists [0%nat]. constructor. Qed.

(** With three registers each value of the sample has its own where it must;
    with none everything is spilled. *)
Example counting_allocated : ∃ a x y, runGlobal counting [5; 7; 8] OptO2 = Ok a ∧
  find a 3 = Some x ∧ physical_register x = 5 ∧ find a 4 = Some y ∧ physical_register y = 7.
Proof. vm_compute. do 3 eexists. split_and!; reflexivity. Qed.

Lemma alloc_no_clobber_witness : ∃ a x y, runGlobal calling [5; 7; 8] OptO2 = Ok a ∧
  find a 2 = Some x ∧ find a 1 = Some y ∧ has_register x ∧ has_register y ∧ apart x y.
Proof.
  destruct (runGlobal calling [5; 7; 8] OptO2) as [a|] eqn:E; [|vm_compute in E; discriminate E].
  destruct (find a 2) as [x|] eqn:Ex; [|vm_compute in E; injection E as <-; vm_compute in Ex; discriminate Ex].
  destruct (find a 1) as [y|] eqn:Ey; [|vm_compute in E; injection E as <-; vm_compute in Ey; discriminate Ey].
  exists a, x, y. assert (has_register x ∧ has_register y) as [Hx Hy].
  { vm_compute in E. injection E as <-. vm_compute in Ex, Ey. injection Ex as <-. injection Ey as <-. vm_compute. split; exact I. }
  assert (apart x y) as Ha.
  { eapply (alloc_no_clobber calling [5; 7; 8] OptO2 a 0 1 _ 2 1 x y (verified_ids _ calling_verified) E calling_reaches eq_refl).
    - split; [exact I | reflexivity].
    - discriminate.
    - left. exists 0%nat. eexists. split_and!; [reflexivity|discriminate|by left|]. intros j i' Hj. inversion Hj.
    - exact Ex.
    - exact Ey. }
  exact (conj eq_refl (conj Ex (conj Ey (conj Hx (conj Hy Ha))))).
Defined.

Lemma alloc_homes_witness : ∃ a x, runGlobal calling [] OptO2 = Ok a ∧ find a 1 = Some x ∧
  (rematerializable x ∨ far_values calling 1 ∨
   (has_register x ∧ physical_register x ∈ [] ∧ physical_register x ∈ general_registers) ∨
   (¬ has_register x ∧ 0 ≤ spill_slot x)).
Proof.
  destruct (runGlobal calling [] OptO2) as [a|] eqn:E; [|vm_compute in E; discriminate E].
  destruct (alloc_homes calling [] OptO2 a 0 2 _ 1 (verified_ids _ calling_verified) E eq_refl) as (x & Hx & H).
  - by left.
  - exists a, x. exact (conj eq_refl (conj Hx H)).
Defined.

Lemma alloc_calls_witness : ∃ a, runGlobal calling [5; 7; 8] OptO2 = Ok a ∧ live_past calling 0 1 1.
Proof.
  destruct (runGlobal calling [5; 7; 8] OptO2) as [a|] eqn:E; [|vm_compute in E; discriminate E].
  exists a. split; [reflexivity|].
  refine (proj1 (proj1 (alloc_calls calling [5; 7; 8] OptO2 a 0 1 _ 1 calling_verified E calling_reaches eq_refl _) _)).
  - reflexivity.
  - vm_compute in E. injection E as <-. vm_compute. reflexivity.
Defined.

Lemma alloc_spare_witness : ∃ a x, runGlobal calling [5; 7; 8] OptO2 = Ok a ∧ find a 1 = Some x ∧
  physical_register x ≠ 8.
Proof.
  destruct (runGlobal calling [5; 7; 8] OptO2) as [a|] eqn:E; [|vm_compute in E; discriminate E].
  destruct (find a 1) as [x|] eqn:Ex; [|vm_compute in E; injection E as <-; vm_compute in Ex; discriminate Ex].
  exists a, x. split; [reflexivity|]. split; [exact Ex|].
  refine (proj2 (alloc_spare calling [5; 7; 8] OptO2 a 0 2 _ 8 1 x calling_verified E calling_reaches eq_refl _ _ Ex _)).
  - vm_compute in E. injection E as <-. apply (bool_decide_unpack _). vm_compute. exact I.
  - right. right. split; [discriminate|by left].
  - vm_compute in E. injection E as <-. vm_compute in Ex. injection Ex as <-. exact I.
Defined.
