(* ===== verification/Object.v ===== *)
(** * Object: the relocatable object file

    Models [ObjectFile.hpp], [ObjectFile.cpp] and [alignment] of
    [GSUCodeLayout.hpp]: the object record, its validation, the version-7
    writer and the reader of versions 3 to 7.  A stream is the list of bytes
    not read yet; a reader takes it and returns what it read with the rest.
    What a writer puts on the stream is a list of bytes; opening and closing
    the file is not modelled. *)

From S2P Require Import Prelude Target.

Inductive RelocationType := ADDR16_JAL | ADDR16_IWT | ADDR24_BANK | ADDR24_OFFSET | ADDR16_RAM.
Inductive SymbolSection := CODE | DATA | RAM.

#[global] Instance RelocationType_eq_dec : EqDecision RelocationType.
Proof. solve_decision. Defined.
#[global] Instance SymbolSection_eq_dec : EqDecision SymbolSection.
Proof. solve_decision. Defined.

Definition reloc_code (t : RelocationType) : Z :=
  match t with
  | ADDR16_JAL => 0 | ADDR16_IWT => 1 | ADDR24_BANK => 2 | ADDR24_OFFSET => 3 | ADDR16_RAM => 4
  end.
Definition section_code (s : SymbolSection) : Z := match s with CODE => 0 | DATA => 1 | RAM => 2 end.

(** [static_cast<RelocationType>(type)] and the like, on bytes the reader has
    checked. *)
Definition reloc_of (z : Z) : RelocationType :=
  if z =? 0 then ADDR16_JAL else if z =? 1 then ADDR16_IWT else if z =? 2 then ADDR24_BANK
  else if z =? 3 then ADDR24_OFFSET else ADDR16_RAM.
Definition section_of (z : Z) : SymbolSection :=
  if z =? 0 then CODE else if z =? 1 then DATA else RAM.
Definition target_of (z : Z) : TargetKind := if z =? 0 then GSU else SPC700.
Definition mapping_of (z : Z) : MemoryMapping := if z =? 0 then LoROM else HiROM.

Record SymbolEntry := mkSymbol {
  s_name : string;
  s_section : SymbolSection;
  s_offset : Z   (* uint32_t *)
}.

Record RelocationEntry := mkRelocation {
  target_symbol_name : string;
  section_to_patch : SymbolSection;
  patch_offset : Z;   (* uint32_t *)
  r_type : RelocationType
}.

Record ObjectFile := mkObject {
  code_section : list Z;
  data_section : list Z;
  ram_section : list Z;
  symbol_table : list SymbolEntry;
  relocation_table : list RelocationEntry;
  config : CompilerConfig;
  data_alignment : Z;   (* std::uint8_t *)
  ram_alignment : Z     (* std::uint8_t *)
}.

#[global] Instance SymbolEntry_eq_dec : EqDecision SymbolEntry.
Proof. solve_decision. Defined.
#[global] Instance RelocationEntry_eq_dec : EqDecision RelocationEntry.
Proof. solve_decision. Defined.
#[global] Instance ObjectFile_eq_dec : EqDecision ObjectFile.
Proof. solve_decision. Defined.

(** [ObjectFile()] *)
Definition empty_object : ObjectFile := mkObject [] [] [] [] [] default_config 1 2.

Definition CurrentFormatVersion : Z := 7.
Definition MaxSectionBytes : Z := 64 * 1024 * 1024.
Definition MaxObjectBytes : Z := 128 * 1024 * 1024.
Definition MaxStringBytes : Z := 4096.
Definition MaxSymbolCount : Z := 1000000.
Definition MaxRelocationCount : Z := 1000000.

(** The section a symbol or relocation names. *)
Definition section_bytes (o : ObjectFile) (s : SymbolSection) : list Z :=
  match s with CODE => code_section o | DATA => data_section o | RAM => ram_section o end.

(** ** Validation *)

Definition CacheAlignmentSymbol : string := chr 1 +:+ "__disco_cache_align16".

Definition alignment (o : ObjectFile) : result Z :=
  match List.find (λ s, bool_decide (s_name s = CacheAlignmentSymbol)) (symbol_table o) with
  | None => Ok 1
  | Some s =>
      throw_if (negb (bool_decide (target (config o) = GSU))
                || negb (bool_decide (s_section s = CODE)) || negb (s_offset s =? 0))
        (RuntimeError "Invalid GSU CACHE alignment hint.");;
      Ok 16
  end.

(** A power of two in 1..128. *)
Definition bad_alignment (limit a : Z) : bool :=
  (a =? 0) || (limit <? a) || negb (Z.land a (a - 1) =? 0).

Definition valid_name (name : string) : result unit :=
  throw_if (bool_decide (name = "") || (MaxStringBytes <? slen name)
            || ((front name =? 1) && (slen name =? 1)))
    (RuntimeError "Object file: invalid symbol name length.");;
  forM_ (λ ib : nat * Z, let '(index, byte) := ib in
    throw_if (((byte <? 32) && negb (Nat.eqb index 0 && (byte =? 1))) || (byte =? 127))
      (RuntimeError "Object file: symbol names cannot contain control characters."))
    (indexed (bytes_of_string name)).

Definition charge (serialized_bytes bytes : Z) : result Z :=
  throw_if ((MaxObjectBytes <? serialized_bytes) || (MaxObjectBytes - serialized_bytes <? bytes))
    (RuntimeError "Object file exceeds the supported total size limit.");;
  Ok (serialized_bytes + bytes).

(** How many bytes of the instruction at the patch offset must exist, and how
    many of them the linker rewrites. *)
Definition patch_size (t : RelocationType) : Z := match t with ADDR24_BANK => 2 | _ => 3 end.
Definition operand_size (t : RelocationType) : Z := match t with ADDR24_BANK => 1 | _ => 2 end.

Definition validate_relocation (r : RelocationEntry) (o : ObjectFile) : result unit :=
  throw_if (section_code DATA <? section_code (section_to_patch r))
    (RuntimeError "Object file: invalid relocation section.");;
  throw_if (reloc_code ADDR16_RAM <? reloc_code (r_type r))
    (RuntimeError "Object file: invalid relocation type.");;
  throw_if (bool_decide (target_symbol_name r = ""))
    (RuntimeError "Object file has a relocation without a target symbol.");;
  let section := if bool_decide (section_to_patch r = CODE) then code_section o else data_section o in
  throw_if (zlen section <? patch_offset r + patch_size (r_type r))
    (RuntimeError "Object file relocation extends beyond its section.").

Definition validate_symbol (o : ObjectFile) (s : Z * gset string) (symbol : SymbolEntry)
    : result (Z * gset string) :=
  let '(bytes, names) := s in
  valid_name (s_name symbol);;
  throw_if (section_code RAM <? section_code (s_section symbol))
    (RuntimeError "Object file: invalid symbol section.");;
  throw_if (zlen (section_bytes o (s_section symbol)) <? s_offset symbol)
    (RuntimeError "Object file has a symbol outside its section.");;
  bytes ← charge bytes (9 + slen (s_name symbol));
  throw_if (bool_decide (s_name symbol ∈ names))
    (RuntimeError ("Object file has a duplicate symbol: " +:+ s_name symbol));;
  Ok (bytes, {[ s_name symbol ]} ∪ names).

(** The operand bytes a relocation rewrites. *)
Record Span := mkSpan { sp_section : SymbolSection; sp_begin : Z; sp_end : Z }.

Definition span (r : RelocationEntry) : Span :=
  let b := patch_offset r + 1 in mkSpan (section_to_patch r) b (b + operand_size (r_type r)).

Definition validate_entry (o : ObjectFile) (s : Z * list Span) (r : RelocationEntry)
    : result (Z * list Span) :=
  let '(bytes, spans) := s in
  throw_if (bool_decide (target_symbol_name r = CacheAlignmentSymbol))
    (RuntimeError "Object file: CACHE layout hint is not an addressable symbol.");;
  valid_name (target_symbol_name r);;
  validate_relocation r o;;
  bytes ← charge bytes (10 + slen (target_symbol_name r));
  Ok (bytes, spans ++ [span r]).

(** The order [std::sort] is given, as its reflexive closure. *)
Definition span_le (l r : Span) : Prop :=
  if bool_decide (sp_section l = sp_section r) then sp_begin l ≤ sp_begin r
  else section_code (sp_section l) < section_code (sp_section r).

#[global] Instance span_le_dec l r : Decision (span_le l r).
Proof. unfold span_le. destruct (bool_decide _); apply _. Defined.

Fixpoint overlapping (spans : list Span) : bool :=
  match spans with
  | previous :: (current :: _) as rest =>
      (bool_decide (sp_section current = sp_section previous)
       && (sp_begin current <? sp_end previous)) || overlapping rest
  | _ => false
  end.

Definition validate (o : ObjectFile) : result unit :=
  alignment o;;
  throw_if ((1 <? target_code (target (config o))) || (1 <? mapping_code (mapping (config o))))
    (RuntimeError "Object file: invalid target configuration.");;
  Bitmap.validate (bitmap (config o));;
  throw_if (Bitmap.enabled (bitmap (config o)) && negb (bool_decide (target (config o) = GSU)))
    (RuntimeError "Bitmap configuration requires GSU.");;
  throw_if (bad_alignment 128 (data_alignment o) || bad_alignment 128 (ram_alignment o))
    (RuntimeError "Object file: section alignment must be a power of two in 1..128.");;
  throw_if ((MaxSectionBytes <? zlen (code_section o)) || (MaxSectionBytes <? zlen (data_section o))
            || (65536 <? zlen (ram_section o)))
    (RuntimeError "Object file section exceeds the supported size limit.");;
  throw_if ((MaxSymbolCount <? zlen (symbol_table o))
            || (MaxRelocationCount <? zlen (relocation_table o)))
    (RuntimeError "Object file table exceeds the supported entry limit.");;
  bytes ← charge (35 + (if Bitmap.enabled (bitmap (config o)) then 10 else 0)
                  + zlen (code_section o) + zlen (data_section o) + zlen (ram_section o)) 0;
  '(bytes, _) ← foldM (validate_symbol o) (bytes, ∅) (symbol_table o);
  '(bytes, spans) ← foldM (validate_entry o) (bytes, []) (relocation_table o);
  throw_if (overlapping (merge_sort span_le spans))
    (RuntimeError "Object file has overlapping relocation operands.");;
  throw_if (MaxObjectBytes <? bytes)
    (RuntimeError "Object file exceeds the supported total size limit.").

(** ** The writer *)

Definition write_u32_le (value : Z) : list Z :=
  [Z.land value 255; Z.land (Z.shiftr value 8) 255; Z.land (Z.shiftr value 16) 255;
   Z.land (Z.shiftr value 24) 255].

Definition write_u8 (value : Z) : list Z := [value].

Definition write_string (s : string) : list Z :=
  let len := u32 (slen s) in write_u32_le len ++ take (Z.to_nat len) (bytes_of_string s).

Definition write_vec (vec : list Z) : list Z :=
  let size := u32 (zlen vec) in write_u32_le size ++ take (Z.to_nat size) vec.

Definition write_bitmap (b : BitmapConfig) : list Z :=
  write_u8 (if Bitmap.enabled b then 1 else 0) ++
  if Bitmap.enabled b then
    write_u8 (if Bitmap.object_mode b then 1 else 0) ++ write_u8 (Bitmap.depth b) ++
    write_u32_le (Bitmap.height b) ++ write_u32_le (Bitmap.base b)
  else [].

Definition write_symbol (s : SymbolEntry) : list Z :=
  write_string (s_name s) ++ write_u8 (section_code (s_section s)) ++ write_u32_le (s_offset s).

Definition write_relocation (r : RelocationEntry) : list Z :=
  write_string (target_symbol_name r) ++ write_u8 (section_code (section_to_patch r)) ++
  write_u32_le (patch_offset r) ++ write_u8 (reloc_code (r_type r)).

Definition magic : list Z := bytes_of_string "DISCO".

Definition serialize (o : ObjectFile) : list Z :=
  magic ++ write_u8 CurrentFormatVersion ++
  write_u8 (target_code (target (config o))) ++ write_u8 (mapping_code (mapping (config o))) ++
  write_u32_le (code_start_address (config o)) ++
  write_u8 (data_alignment o) ++ write_u8 (ram_alignment o) ++ write_bitmap (bitmap (config o)) ++
  write_vec (code_section o) ++ write_vec (data_section o) ++ write_vec (ram_section o) ++
  write_u32_le (u32 (zlen (symbol_table o))) ++ (symbol_table o ≫= write_symbol) ++
  write_u32_le (u32 (zlen (relocation_table o))) ++ (relocation_table o ≫= write_relocation).

(** What [write] puts in the file, when the stream does not fail. *)
Definition write (o : ObjectFile) : result (list Z) := validate o;; Ok (serialize o).

(** ** The reader *)

Definition truncated (field_name : string) : error :=
  RuntimeError ("Object file: truncated " +:+ field_name +:+ ".").

Definition remaining_bytes (stream : list Z) : Z := zlen stream.

Definition read_u8 (field_name : string) (stream : list Z) : result (Z * list Z) :=
  match stream with
  | value :: stream => Ok (value, stream)
  | [] => Err (truncated field_name)
  end.

Definition read_u32_le (field_name : string) (stream : list Z) : result (Z * list Z) :=
  match stream with
  | b0 :: b1 :: b2 :: b3 :: stream =>
      Ok (Z.lor (Z.lor (Z.lor b0 (Z.shiftl b1 8)) (Z.shiftl b2 16)) (Z.shiftl b3 24), stream)
  | _ => Err (truncated field_name)
  end.

Definition read_string (field_name : string) (stream : list Z) : result (string * list Z) :=
  '(len, stream) ← read_u32_le field_name stream;
  throw_if ((MaxStringBytes <? len) || (remaining_bytes stream <? len))
    (RuntimeError ("Object file: invalid " +:+ field_name +:+ " length."));;
  Ok (string_of_bytes (take (Z.to_nat len) stream), drop (Z.to_nat len) stream).

Definition read_vec (max_elements : Z) (field_name : string) (stream : list Z)
    : result (list Z * list Z) :=
  '(size, stream) ← read_u32_le field_name stream;
  throw_if ((max_elements <? size) || (remaining_bytes stream <? size))
    (RuntimeError ("Object file: invalid " +:+ field_name +:+ " size."));;
  Ok (take (Z.to_nat size) stream, drop (Z.to_nat size) stream).

(** [for (i = 0; i < count; ++i) table[i] = read(in);] *)
Fixpoint read_table {A} (read : list Z → result (A * list Z)) (count : nat) (stream : list Z)
    : result (list A * list Z) :=
  match count with
  | O => Ok ([], stream)
  | S count =>
      '(x, stream) ← read stream;
      '(table, stream) ← read_table read count stream;
      Ok (x :: table, stream)
  end.

Definition read_bitmap (version : Z) (kind : TargetKind) (stream : list Z)
    : result (BitmapConfig * list Z) :=
  if version <? 7 then Ok (Bitmap.default, stream) else
  '(enabled, stream) ← read_u8 "bitmap presence" stream;
  throw_if (1 <? enabled) (RuntimeError "Object file: invalid bitmap presence flag.");;
  if enabled =? 0 then Ok (Bitmap.default, stream) else
  '(mode, stream) ← read_u8 "bitmap mode" stream;
  throw_if ((1 <? mode) || negb (bool_decide (kind = GSU)))
    (RuntimeError "Object file: invalid bitmap target/mode.");;
  '(depth, stream) ← read_u8 "bitmap depth" stream;
  '(height, stream) ← read_u32_le "bitmap height" stream;
  throw_if (256 <? height) (RuntimeError "Object file: invalid bitmap height.");;
  '(base, stream) ← read_u32_le "bitmap base" stream;
  let b := Bitmap.mkBitmap true (negb (mode =? 0)) (u16 height) depth base in
  Bitmap.validate b;;
  Ok (b, stream).

Section Reader.
(** The name of the source, for messages. *)
Context (path : string).
Definition bad (what : string) : error := RuntimeError (what +:+ path).

Definition read_symbol (version : Z) (obj : ObjectFile) (stream : list Z)
    : result (SymbolEntry * list Z) :=
  '(name, stream) ← read_string "symbol name" stream;
  '(section, stream) ← read_u8 "symbol section" stream;
  throw_if (section_code (if 5 <=? version then RAM else DATA) <? section)
    (bad "Object file has an invalid symbol section: ");;
  '(offset, stream) ← read_u32_le "symbol offset" stream;
  throw_if (zlen (section_bytes obj (section_of section)) <? offset)
    (bad "Object file has a symbol outside its section: ");;
  Ok (mkSymbol name (section_of section) offset, stream).

Definition read_relocation (version : Z) (obj : ObjectFile) (stream : list Z)
    : result (RelocationEntry * list Z) :=
  '(name, stream) ← read_string "relocation target name" stream;
  '(section, stream) ← read_u8 "relocation section" stream;
  throw_if (section_code DATA <? section) (bad "Object file has an invalid relocation section: ");;
  '(offset, stream) ← read_u32_le "relocation offset" stream;
  '(type, stream) ← read_u8 "relocation type" stream;
  throw_if (reloc_code (if 5 <=? version then ADDR16_RAM else ADDR24_OFFSET) <? type)
    (bad "Object file has an invalid relocation type: ");;
  let r := mkRelocation name (section_of section) offset (reloc_of type) in
  validate_relocation r obj;;
  Ok (r, stream).

(** The header up to the bitmap: version, target, mapping, origin and the
    two alignments. *)
Definition read_header (stream : list Z)
    : result ((Z * TargetKind * MemoryMapping * Z * Z * Z) * list Z) :=
  throw_if (negb (bool_decide (take 5 stream = magic)))
    (bad "File is not a valid DiscoC object file: ");;
  '(version, stream) ← read_u8 "format version" (drop 5 stream);
  throw_if ((version <? 3) || (CurrentFormatVersion <? version))
    (bad "File has an unsupported DiscoC object format version: ");;
  '(target, stream) ← read_u8 "target" stream;
  throw_if (target_code SPC700 <? target) (bad "File has an invalid compiler target: ");;
  '(mapping, stream) ← read_u8 "memory mapping" stream;
  '(start, stream) ← read_u32_le "code start address" stream;
  throw_if (mapping_code HiROM <? mapping) (bad "File has an invalid target configuration: ");;
  '(data_align, stream) ←
    (if version <? 4 then Ok (data_alignment empty_object, stream) else
     '(a, stream) ← read_u8 "DATA alignment" stream;
     throw_if (bad_alignment (if 6 <=? version then 128 else 2) a)
       (RuntimeError "Object file: invalid DATA alignment.");;
     Ok (a, stream));
  '(ram_align, stream) ←
    (if version <? 6 then Ok (ram_alignment empty_object, stream) else
     '(a, stream) ← read_u8 "RAM alignment" stream;
     throw_if (bad_alignment 128 a) (RuntimeError "Object file: invalid RAM alignment.");;
     Ok (a, stream));
  Ok ((version, target_of target, mapping_of mapping, start, data_align, ram_align), stream).

Definition read_stream (stream : list Z) : result ObjectFile :=
  throw_if (MaxObjectBytes <? remaining_bytes stream)
    (bad "Object file exceeds the supported total size limit: ");;
  '((version, kind, mapping, start, data_align, ram_align), stream) ← read_header stream;
  '(bitmap, stream) ← read_bitmap version kind stream;
  '(code, stream) ← read_vec MaxSectionBytes "code section" stream;
  '(data, stream) ← read_vec MaxSectionBytes "data section" stream;
  '(ram, stream) ← (if version <? 5 then Ok ([], stream)
                    else read_vec 65536 "RAM section" stream);
  let cfg := mkConfig kind mapping start (optimize_loop_setup default_config)
    (optimization default_config) (require_no_spills default_config)
    (warn_on_cache_overflow default_config) bitmap in
  let obj := mkObject code data ram [] [] cfg data_align ram_align in
  '(sym_count, stream) ← read_u32_le "symbol count" stream;
  throw_if ((MaxSymbolCount <? sym_count) || (remaining_bytes stream / 10 <? sym_count))
    (bad "Object file has an invalid symbol count: ");;
  '(symbols, stream) ← read_table (read_symbol version obj) (Z.to_nat sym_count) stream;
  '(reloc_count, stream) ← read_u32_le "relocation count" stream;
  throw_if ((MaxRelocationCount <? reloc_count) || (remaining_bytes stream / 11 <? reloc_count))
    (bad "Object file has an invalid relocation count: ");;
  '(relocations, stream) ← read_table (read_relocation version obj) (Z.to_nat reloc_count) stream;
  throw_if (negb (bool_decide (stream = []))) (bad "Object file has trailing data: ");;
  let obj := mkObject code data ram symbols relocations cfg data_align ram_align in
  validate obj;;
  Ok obj.
End Reader.

Definition readBytes (bytes : list Z) : result ObjectFile :=
  throw_if (MaxObjectBytes <? zlen bytes)
    (RuntimeError "Object file exceeds the supported total size limit.");;
  read_stream "<memory>" bytes.

(* ------------------------------------------------------------------ *)
(** ** What a valid object is *)

(** The ranges of the C++ fields. *)
Record wf (o : ObjectFile) : Prop := {
  wf_code : bytes_ok (code_section o);
  wf_data : bytes_ok (data_section o);
  wf_ram : bytes_ok (ram_section o);
  wf_symbols : Forall (λ s, 0 ≤ s_offset s < 2 ^ 32) (symbol_table o);
  wf_relocations : Forall (λ r, 0 ≤ patch_offset r < 2 ^ 32) (relocation_table o);
  wf_start : 0 ≤ code_start_address (config o) < 2 ^ 32;
  wf_bitmap : Bitmap.wf (bitmap (config o));
  wf_data_alignment : byte_ok (data_alignment o);
  wf_ram_alignment : byte_ok (ram_alignment o)
}.

(** A symbol name: not empty, not too long, printable but for a leading
    [\x01], which needs more behind it. *)
Record good_name (name : string) : Prop := {
  gn_length : 0 < slen name ≤ MaxStringBytes;
  gn_prefix : name ≠ chr 1;
  gn_printable i b : bytes_of_string name !! i = Some b → b ≠ 127 ∧ (32 ≤ b ∨ (i = 0%nat ∧ b = 1))
}.

Definition good_symbol (o : ObjectFile) (s : SymbolEntry) : Prop :=
  good_name (s_name s) ∧ s_offset s ≤ zlen (section_bytes o (s_section s)).

Definition good_relocation (o : ObjectFile) (r : RelocationEntry) : Prop :=
  good_name (target_symbol_name r) ∧ target_symbol_name r ≠ CacheAlignmentSymbol
  ∧ section_to_patch r ≠ RAM
  ∧ patch_offset r + patch_size (r_type r) ≤ zlen (section_bytes o (section_to_patch r)).

(** Two relocations rewrite different bytes. *)
Definition disjoint_spans (a b : Span) : Prop :=
  sp_section a = sp_section b → sp_end a ≤ sp_begin b ∨ sp_end b ≤ sp_begin a.

Fixpoint symbols_size (l : list SymbolEntry) : Z :=
  match l with [] => 0 | s :: l => 9 + slen (s_name s) + symbols_size l end.
Fixpoint relocations_size (l : list RelocationEntry) : Z :=
  match l with [] => 0 | r :: l => 10 + slen (target_symbol_name r) + relocations_size l end.

(** The size of the file, in closed form. *)
Definition object_size (o : ObjectFile) : Z :=
  35 + (if Bitmap.enabled (bitmap (config o)) then 10 else 0)
  + zlen (code_section o) + zlen (data_section o) + zlen (ram_section o)
  + symbols_size (symbol_table o) + relocations_size (relocation_table o).

Record Valid (o : ObjectFile) : Prop := {
  v_hint s : s ∈ symbol_table o → s_name s = CacheAlignmentSymbol →
    target (config o) = GSU ∧ s_section s = CODE ∧ s_offset s = 0;
  v_bitmap : Bitmap.validate (bitmap (config o)) = Ok tt;
  v_bitmap_target : Bitmap.enabled (bitmap (config o)) = true → target (config o) = GSU;
  v_data_alignment : data_alignment o ∈ [1; 2; 4; 8; 16; 32; 64; 128];
  v_ram_alignment : ram_alignment o ∈ [1; 2; 4; 8; 16; 32; 64; 128];
  v_code : zlen (code_section o) ≤ MaxSectionBytes;
  v_data : zlen (data_section o) ≤ MaxSectionBytes;
  v_ram : zlen (ram_section o) ≤ 65536;
  v_symbol_count : zlen (symbol_table o) ≤ MaxSymbolCount;
  v_relocation_count : zlen (relocation_table o) ≤ MaxRelocationCount;
  v_symbols : Forall (good_symbol o) (symbol_table o);
  v_names : NoDup (s_name <$> symbol_table o);
  v_relocations : Forall (good_relocation o) (relocation_table o);
  v_spans : pairwise (λ a b, disjoint_spans (span a) (span b)) (relocation_table o);
  v_size : object_size o ≤ MaxObjectBytes
}.

(** ** Characterisation of the checks *)

Lemma slen_nonneg s : 0 ≤ slen s.
Proof. unfold slen. lia. Qed.

Lemma slen_zero s : slen s = 0 ↔ s = "".
Proof. destruct s; [done|]. split; [unfold slen; cbn [String.length]; lia | done]. Qed.

Lemma front_chr s x : slen s = 1 → 0 ≤ x < 256 → front s = x ↔ s = chr x.
Proof.
  destruct s as [|c [|c' s]]; unfold slen; cbn [String.length]; try lia. intros _ Hx. cbn [front].
  unfold chr. split.
  - intros <-. by rewrite ascii_of_z_of_ascii.
  - intros [= ->]. by apply z_of_ascii_of_z.
Qed.

Lemma valid_name_ok name : valid_name name = Ok tt ↔ good_name name.
Proof.
  pose proof (slen_nonneg name) as Hn. pose proof (slen_zero name) as H0.
  unfold valid_name. rewrite result_bind_ok. setoid_rewrite throw_if_ok. setoid_rewrite forM_indexed.
  setoid_rewrite throw_if_ok. split.
  - intros ([] & Hb & Hc). bool_facts. split.
    + destruct (Z.eq_dec (slen name) 0) as [E|E]; [by apply H0 in E | lia].
    + intros ->. done.
    + intros i b Hi. specialize (Hc i b Hi). bool_facts. split; [done|].
      destruct (Z.ltb_spec b 32); [right | by left]. cbn in *. bool_facts.
      apply Nat.eqb_eq in H3. done.
  - intros [Hl Hp Hc]. exists tt. split.
    + rewrite !orb_false_iff, !bool_decide_eq_false, Z.ltb_ge, andb_false_iff, !Z.eqb_neq.
      split; [split; [intros E; apply H0 in E; lia | lia]|].
      destruct (Z.eq_dec (slen name) 1) as [E|]; [left|by right].
      intros Hf. apply Hp. by apply front_chr.
    + intros i b Hi. destruct (Hc i b Hi) as [? Hr].
      rewrite orb_false_iff, Z.eqb_neq, andb_false_iff, Z.ltb_ge. split; [|done].
      destruct Hr as [?|[-> ->]]; [by left | by right].
Qed.

Lemma charge_ok b n b' : b ≤ MaxObjectBytes → charge b n = Ok b' ↔ b' = b + n ∧ b' ≤ MaxObjectBytes.
Proof.
  intros Hb. unfold charge. rewrite result_bind_ok. setoid_rewrite throw_if_ok.
  rewrite (proj2 (Z.ltb_ge _ _) Hb). cbn [orb]. setoid_rewrite Z.ltb_ge. split.
  - intros ([] & ? & [= <-]). lia.
  - intros [-> ?]. exists tt. split; [lia | done].
Qed.

Lemma validate_relocation_ok r o :
  validate_relocation r o = Ok tt ↔
  target_symbol_name r ≠ "" ∧ section_to_patch r ≠ RAM
  ∧ patch_offset r + patch_size (r_type r) ≤ zlen (section_bytes o (section_to_patch r)).
Proof.
  assert (section_to_patch r ≠ RAM →
    (if bool_decide (section_to_patch r = CODE) then code_section o else data_section o)
    = section_bytes o (section_to_patch r)) as E by by destruct (section_to_patch r).
  unfold validate_relocation. cbv zeta. split.
  - intros H. apply result_bind_ok in H as ([] & Hs%throw_if_ok & H).
    apply result_bind_ok in H as ([] & _ & H). apply result_bind_ok in H as ([] & Hn%throw_if_ok & H).
    apply throw_if_ok in H. bool_facts.
    assert (section_to_patch r ≠ RAM) as Hr by by destruct (section_to_patch r).
    rewrite E in * by done. done.
  - intros (Hn & Hr & Hl). rewrite E by done.
    assert (section_code DATA <? section_code (section_to_patch r) = false) as ->
      by by destruct (section_to_patch r).
    assert (reloc_code ADDR16_RAM <? reloc_code (r_type r) = false) as -> by by destruct (r_type r).
    rewrite bool_decide_false by done. rewrite !throw_if_false. cbn -[zlen].
    apply throw_if_ok. by apply Z.ltb_ge.
Qed.

Lemma validate_symbol_ok o b N s b' N' :
  b ≤ MaxObjectBytes →
  validate_symbol o (b, N) s = Ok (b', N') ↔
  good_symbol o s ∧ b' = b + (9 + slen (s_name s)) ∧ b' ≤ MaxObjectBytes
  ∧ s_name s ∉ N ∧ N' = {[ s_name s ]} ∪ N.
Proof.
  intros Hb. unfold validate_symbol, good_symbol.
  assert (section_code RAM <? section_code (s_section s) = false) as -> by by destruct (s_section s).
  rewrite <- valid_name_ok. rewrite throw_if_false. split.
  - intros H. apply result_bind_ok in H as ([] & Hv & H). apply result_bind_ok in H as ([] & _ & H).
    apply result_bind_ok in H as ([] & Ho%throw_if_ok & H). apply result_bind_ok in H as (c & Hc & H).
    apply charge_ok in Hc as [-> Hc]; [|done]. apply result_bind_ok in H as ([] & Hd%throw_if_ok & H).
    injection H as <- <-. bool_facts. done.
  - intros ([Hv Ho] & -> & Hm & Hd & ->). rewrite Hv. cbn -[zlen slen].
    rewrite (proj2 (throw_if_ok _ _ tt) (proj2 (Z.ltb_ge _ _) Ho)). cbn -[zlen slen].
    rewrite (proj2 (charge_ok _ _ _ Hb) (conj eq_refl Hm)). cbn -[zlen slen].
    by rewrite bool_decide_false.
Qed.

Lemma validate_entry_ok o b S r b' S' :
  b ≤ MaxObjectBytes →
  validate_entry o (b, S) r = Ok (b', S') ↔
  good_relocation o r ∧ b' = b + (10 + slen (target_symbol_name r)) ∧ b' ≤ MaxObjectBytes
  ∧ S' = S ++ [span r].
Proof.
  intros Hb. unfold validate_entry, good_relocation. split.
  - intros H. apply result_bind_ok in H as ([] & Hh%throw_if_ok & H).
    apply result_bind_ok in H as ([] & Hv%valid_name_ok & H).
    apply result_bind_ok in H as ([] & Hr%validate_relocation_ok & H).
    apply result_bind_ok in H as (c & Hc & H). apply charge_ok in Hc as [-> Hc]; [|done].
    injection H as <- <-. bool_facts. naive_solver.
  - intros ((Hv & Hh & Hs & Ho) & -> & Hm & ->).
    rewrite bool_decide_false by done. rewrite throw_if_false. cbn -[zlen slen].
    rewrite (proj2 (valid_name_ok _) Hv). cbn -[zlen slen].
    assert (validate_relocation r o = Ok tt) as ->.
    { apply validate_relocation_ok. split; [|done]. intros E. destruct Hv as [Hl _ _]. rewrite E in Hl.
      change (slen "") with 0 in Hl. lia. }
    cbn -[zlen slen]. by rewrite (proj2 (charge_ok _ _ _ Hb) (conj eq_refl Hm)).
Qed.

Lemma symbols_size_nonneg l : 0 ≤ symbols_size l.
Proof. induction l as [|s l IH]; cbn [symbols_size]; [lia|]. pose proof (slen_nonneg (s_name s)). lia. Qed.

Lemma relocations_size_nonneg l : 0 ≤ relocations_size l.
Proof. induction l as [|r l IH]; cbn [relocations_size]; [lia|]. pose proof (slen_nonneg (target_symbol_name r)). lia. Qed.

Lemma validate_symbols_ok o l b N b' :
  b ≤ MaxObjectBytes →
  (∃ N', foldM (validate_symbol o) (b, N) l = Ok (b', N')) ↔
  Forall (good_symbol o) l ∧ NoDup (s_name <$> l) ∧ (∀ s, s ∈ l → s_name s ∉ N)
  ∧ b' = b + symbols_size l ∧ b' ≤ MaxObjectBytes.
Proof.
  revert b N. induction l as [|s l IH]; intros b N Hb; cbn [foldM].
  - cbn [symbols_size]. rewrite Z.add_0_r. split.
    + intros [N' [= <- <-]]. split; [constructor|]. split; [constructor|]. split; [by intros s ?%elem_of_nil|done].
    + intros (_ & _ & _ & -> & _). by exists N.
  - cbn [symbols_size fmap list_fmap]. rewrite Forall_cons, NoDup_cons. split.
    + intros [N' H]. apply result_bind_ok in H as ([b1 N1] & H1 & H2).
      apply validate_symbol_ok in H1 as (Hg & -> & Hm & Hd & ->); [|done].
      destruct (proj1 (IH (b + (9 + slen (s_name s))) ({[s_name s]} ∪ N) Hm)) as (Hf & Hn & Hd' & -> & Hm'); [eauto|].
      split; [done|]. split; [split; [|done]|split; [|split; [|done]]].
      * intros (s' & Es & Hs')%list_elem_of_fmap. apply (Hd' s' Hs'). rewrite <- Es. set_solver.
      * intros s' [->|Hs']%elem_of_cons; [done|]. specialize (Hd' s' Hs'). set_solver.
      * lia.
    + intros ([Hg Hf] & [Hn Hnd] & Hd & -> & Hm).
      pose proof (symbols_size_nonneg l).
      destruct (proj2 (IH (b + (9 + slen (s_name s))) ({[s_name s]} ∪ N) ltac:(lia))) as [N' HN'].
      { split; [done|]. split; [done|]. split; [|lia].
        intros s' Hs'. rewrite not_elem_of_union, not_elem_of_singleton. split; [|by apply Hd; right].
        intros E. apply Hn. apply list_elem_of_fmap. eauto. }
      exists N'. apply result_bind_ok. eexists. split.
      * apply validate_symbol_ok; [done|]. split; [done|]. split; [reflexivity|]. split; [lia|].
        split; [apply Hd; left | reflexivity].
      * exact HN'.
Qed.

Lemma validate_entries_ok o l b S b' S' :
  b ≤ MaxObjectBytes →
  foldM (validate_entry o) (b, S) l = Ok (b', S') ↔
  Forall (good_relocation o) l ∧ b' = b + relocations_size l ∧ b' ≤ MaxObjectBytes
  ∧ S' = S ++ (span <$> l).
Proof.
  revert b S. induction l as [|r l IH]; intros b S Hb; cbn [foldM].
  - cbn. rewrite app_nil_r, Z.add_0_r. split; [intros [= <- <-] | intros (_ & -> & _ & ->)]; naive_solver.
  - cbn [relocations_size fmap list_fmap].
    pose proof (relocations_size_nonneg l). rewrite Forall_cons. split.
    + intros H1. apply result_bind_ok in H1 as ([b1 S1] & H1 & H2).
      apply validate_entry_ok in H1 as (Hg & -> & Hm & ->); [|done].
      apply IH in H2 as (Hf & -> & Hm' & ->); [|done]. rewrite <- app_assoc. naive_solver lia.
    + intros ([Hg Hf] & -> & Hm & ->). apply result_bind_ok. eexists (_, _). split.
      * apply validate_entry_ok; [done|]. split; [done|]. split; [reflexivity|]. split; [lia|reflexivity].
      * apply IH; [lia|]. split; [done|]. split; [lia|]. split; [lia|].
        rewrite <- app_assoc. done.
Qed.

#[global] Instance disjoint_spans_sym : Symmetric disjoint_spans.
Proof. unfold disjoint_spans. intros a b H E. symmetry in E. destruct (H E); auto. Qed.

Lemma span_le_alt l r :
  span_le l r ↔ section_code (sp_section l) < section_code (sp_section r)
    ∨ (sp_section l = sp_section r ∧ sp_begin l ≤ sp_begin r).
Proof.
  unfold span_le. case_bool_decide as E; [rewrite E|]; split; auto; intros [?|[??]]; auto; lia || done.
Qed.

#[global] Instance span_le_trans : Transitive span_le.
Proof.
  intros a b c. rewrite !span_le_alt. intros [?|[E1 ?]] [?|[E2 ?]].
  - left. lia.
  - rewrite <- E2. auto.
  - rewrite E1. auto.
  - right. split; [congruence | lia].
Qed.

#[global] Instance span_le_total : Total span_le.
Proof.
  intros a b. rewrite !span_le_alt.
  destruct (decide (sp_section a = sp_section b)) as [E|E].
  - rewrite E. destruct (Z_le_gt_dec (sp_begin a) (sp_begin b)); [left | right]; right; auto with lia.
  - destruct (sp_section a), (sp_section b); cbn; try done; auto with lia.
Qed.

(** The test of neighbours decides whether any two spans overlap, because the
    list is sorted. *)
Lemma overlapping_sorted l :
  Forall (λ s, sp_begin s < sp_end s) l → StronglySorted span_le l →
  overlapping l = false ↔ pairwise disjoint_spans l.
Proof.
  induction l as [|a [|b l] IH]; intros Hne Hs.
  - split; [intros _ i j x y _ [=] | done].
  - split; [|done]. intros _. apply pairwise_cons; [apply _|]. split; [constructor|]. intros i j x y _ [=].
  - rewrite pairwise_cons, Forall_cons by apply _.
    apply Forall_cons in Hne as [Ha Hne]. apply StronglySorted_inv in Hs as [Hs Hab].
    rewrite <- (IH Hne Hs). apply Forall_cons in Hab as [Hab _].
    apply Forall_cons in Hne as [Hb _]. apply StronglySorted_inv in Hs as [_ Hbl].
    cbn [overlapping]. fold (overlapping (b :: l)).
    rewrite orb_false_iff, andb_false_iff, bool_decide_eq_false, Z.ltb_ge.
    apply span_le_alt in Hab. split; [intros [Hov Ho] | intros [[Hd _] Ho]].
    + split; [|done]. split; [intros E; destruct Hov; [by symmetry in E | by left]|].
      eapply Forall_impl; [exact Hbl|]. intros c Hbc Eac. apply span_le_alt in Hbc. left.
      destruct Hab as [?|[Eab ?]]; [rewrite Eac in *; destruct Hbc as [?|[E ?]]; [lia | rewrite E in *; lia]|].
      destruct Hbc as [?|[Ebc ?]]; [rewrite Eab in Eac; rewrite Eac in *; lia|].
      destruct Hov as [Hov|Hov]; [by symmetry in Eab | lia].
    + split; [|done]. destruct (decide (sp_section b = sp_section a)) as [E|]; [right | by left].
      destruct Hab as [Hab|[_ Hab]]; [rewrite E in Hab; lia|]. destruct (Hd (eq_sym E)); lia.
Qed.

Lemma span_nonempty r : sp_begin (span r) < sp_end (span r).
Proof. destruct r as [? ? ? []]; cbn; lia. Qed.

Lemma overlapping_spans (l : list RelocationEntry) :
  overlapping (merge_sort span_le (span <$> l)) = false
  ↔ pairwise (λ a b, disjoint_spans (span a) (span b)) l.
Proof.
  rewrite <- (pairwise_fmap disjoint_spans span).
  rewrite overlapping_sorted.
  - split; apply pairwise_perm; [|symmetry]; apply merge_sort_Permutation.
  - rewrite merge_sort_Permutation. apply Forall_fmap, Forall_true. apply span_nonempty.
  - apply (StronglySorted_merge_sort _).
Qed.

Lemma bad_alignment_false a :
  bad_alignment 128 a = false ↔ a ∈ [1; 2; 4; 8; 16; 32; 64; 128].
Proof.
  split.
  - unfold bad_alignment. intros H. bool_facts. apply pow2_small; [|by apply Z.eqb_eq].
    split; [|done]. destruct (Z_lt_le_dec a 0) as [Hn|]; [|lia].
    assert (Z.land a (a - 1) < 0); [apply Z.land_neg; lia | lia].
  - intros H. repeat (apply elem_of_cons in H as [->|H]; [done|]). by apply elem_of_nil in H.
Qed.

Lemma alignment_ok o : NoDup (s_name <$> symbol_table o) →
  (∃ a, alignment o = Ok a) ↔
  ∀ s, s ∈ symbol_table o → s_name s = CacheAlignmentSymbol →
    target (config o) = GSU ∧ s_section s = CODE ∧ s_offset s = 0.
Proof.
  intros Hn. unfold alignment.
  destruct (List.find _ _) as [s|] eqn:Ef.
  - apply find_some in Ef as [Hs Es]. apply list_elem_of_In in Hs. apply bool_decide_eq_true in Es. split.
    + intros [a H]. apply result_bind_ok in H as ([] & H%throw_if_ok & _). bool_facts.
      intros s' Hs' Es'. replace s' with s; [done|].
      apply list_elem_of_lookup in Hs as [i Hi], Hs' as [j Hj].
      assert (i = j) as ->; [|congruence]. eapply NoDup_lookup; [exact Hn| |].
      * rewrite list_lookup_fmap, Hi. cbn. by rewrite Es.
      * rewrite list_lookup_fmap, Hj. cbn. by rewrite Es'.
    + intros H. destruct (H s Hs Es) as (-> & -> & ->). exists 16. by rewrite !bool_decide_true.
  - split; [|eauto]. intros _ s Hs Es. exfalso.
    apply list_elem_of_In in Hs. eapply find_none in Hs; [|exact Ef]. cbn in Hs.
    by rewrite bool_decide_true in Hs.
Qed.

Lemma object_size_unfold o :
  object_size o = 35 + (if Bitmap.enabled (bitmap (config o)) then 10 else 0)
    + zlen (code_section o) + zlen (data_section o) + zlen (ram_section o)
    + symbols_size (symbol_table o) + relocations_size (relocation_table o).
Proof. done. Qed.

Lemma charge_inv b n b' : charge b n = Ok b' → b' = b + n ∧ b' ≤ MaxObjectBytes.
Proof. unfold charge. intros ([] & Hc%throw_if_ok & [= <-])%result_bind_ok. bool_facts. lia. Qed.

Lemma validate_accepts o : validate o = Ok tt → Valid o.
Proof.
  intros H. unfold validate in H.
  apply result_bind_ok in H as (al & Hal & H). apply result_bind_ok in H as ([] & _ & H).
  apply result_bind_ok in H as ([] & Hbm & H). apply result_bind_ok in H as ([] & Hbt%throw_if_ok & H).
  apply result_bind_ok in H as ([] & Hda%throw_if_ok & H).
  apply result_bind_ok in H as ([] & Hsz%throw_if_ok & H).
  apply result_bind_ok in H as ([] & Hct%throw_if_ok & H).
  apply result_bind_ok in H as (b0 & Hb0 & H). apply result_bind_ok in H as ([b1 names] & Hs & H).
  apply result_bind_ok in H as ([b2 spans] & Hr & H).
  apply result_bind_ok in H as ([] & Hov%throw_if_ok & H). apply throw_if_ok in H.
  apply orb_false_iff in Hda as [Hda Hra]. apply bad_alignment_false in Hda, Hra.
  apply charge_inv in Hb0 as [Eb Hb0]. bool_facts.
  destruct (proj1 (validate_symbols_ok o _ _ ∅ b1 Hb0) (ex_intro _ names Hs))
    as (Hsf & Hnd & _ & -> & Hm).
  apply validate_entries_ok in Hr as (Hrf & -> & Hm' & ->); [|done].
  rewrite app_nil_l in Hov. apply overlapping_spans in Hov.
  split; try done.
  - apply alignment_ok; eauto.
  - intros E. rewrite E in Hbt. cbn [andb] in Hbt. by bool_facts.
  - rewrite object_size_unfold. lia.
Qed.

Lemma valid_validate o : Valid o → validate o = Ok tt.
Proof.
  intros [Hh Hbm Hbt Hda Hra Hc Hd Hr Hsn Hrn Hsf Hnd Hrf Hov Hm]. unfold validate.
  destruct (proj2 (alignment_ok o Hnd) Hh) as [al ->]. cbn [mbind result_mbind result_bind].
  rewrite object_size_unfold in Hm.
  pose proof (symbols_size_nonneg (symbol_table o)). pose proof (relocations_size_nonneg (relocation_table o)).
  assert ((1 <? target_code (target (config o))) || (1 <? mapping_code (mapping (config o))) = false) as ->
    by by destruct (target _), (mapping _).
  rewrite Hbm. cbn [mbind result_mbind result_bind]. rewrite throw_if_false.
  assert (Bitmap.enabled (bitmap (config o)) && negb (bool_decide (target (config o) = GSU)) = false) as ->.
  { destruct (Bitmap.enabled _); [|done]. by rewrite bool_decide_true by auto. }
  apply bad_alignment_false in Hda, Hra. rewrite Hda, Hra, !(proj2 (Z.ltb_ge _ _)) by done.
  cbn [orb]. rewrite !throw_if_false. cbn [mbind result_mbind result_bind].
  match goal with |- context [charge ?b 0] => set (b0 := b) end.
  assert (b0 ≤ MaxObjectBytes) as Hb0 by (unfold b0; lia).
  rewrite (proj2 (charge_ok b0 0 b0 Hb0)) by lia. cbn [mbind result_mbind result_bind].
  destruct (proj2 (validate_symbols_ok o (symbol_table o) b0 ∅ (b0 + symbols_size (symbol_table o)) Hb0)) as [names ->].
  { split; [done|]. split; [done|]. split; [set_solver|]. split; [reflexivity|unfold b0; lia]. }
  cbn [mbind result_mbind result_bind].
  rewrite (proj2 (validate_entries_ok o (relocation_table o) (b0 + symbols_size (symbol_table o)) []
    (b0 + symbols_size (symbol_table o) + relocations_size (relocation_table o))
    (span <$> relocation_table o) ltac:(unfold b0; lia))) by (split; [done|split; [reflexivity|split; [unfold b0; lia|reflexivity]]]).
  cbn [mbind result_mbind result_bind]. rewrite (proj2 (overlapping_spans _) Hov).
  rewrite throw_if_false. cbn [mbind result_mbind result_bind]. apply throw_if_ok, Z.ltb_ge. unfold b0. lia.
Qed.

(* ------------------------------------------------------------------ *)
(** ** Readers and writers as codecs *)

(** [read] reads back what [enc] writes for the values [P] allows, and reads
    nothing else. *)
Record Codec {A} (P : A → Prop) (enc : A → list Z) (read : list Z → result (A * list Z)) : Prop := {
  codec_read x rest : P x → read (enc x ++ rest) = Ok (x, rest);
  codec_inv stream x rest :
    bytes_ok stream → read stream = Ok (x, rest) → P x ∧ bytes_ok rest ∧ stream = enc x ++ rest
}.

Lemma codec_u8 f : Codec byte_ok write_u8 (read_u8 f).
Proof.
  split; [done|]. intros [|b s] x rest Hs [=]; subst. apply Forall_cons in Hs as [? ?]. done.
Qed.

Lemma codec_u32 f : Codec (λ x, 0 ≤ x < 2 ^ 32) write_u32_le (read_u32_le f).
Proof.
  split.
  - intros x rest Hx. unfold write_u32_le, read_u32_le. cbn [app]. do 2 f_equal.
    rewrite !land_255, shiftr_8, shiftr_16, shiftr_24, shiftl_8, shiftl_16, shiftl_24.
    rewrite (lor_fields_8 _ (x mod 256)) by (apply Z.mod_pos_bound; lia).
    rewrite (Z.lor_comm _ (_ * 65536)), lor_fields_16 by zmod.
    rewrite Z.lor_comm, (lor_fields 24) by zmod. change (2 ^ 24) with 16777216. zmod.
  - intros [|b0 [|b1 [|b2 [|b3 s]]]] x rest Hs [=]; subst.
    unfold bytes_ok in Hs. rewrite !Forall_cons in Hs. destruct Hs as (H0 & H1 & H2 & H3 & Hs).
    unfold byte_ok in *.
    rewrite shiftl_8, shiftl_16, shiftl_24, lor_fields_8, (Z.lor_comm _ (_ * 65536)), lor_fields_16 by (done || lia).
    rewrite Z.lor_comm, (lor_fields 24) by lia. change (2 ^ 24) with 16777216.
    split; [lia|]. split; [done|]. unfold write_u32_le.
    rewrite !land_255, shiftr_8, shiftr_16, shiftr_24. cbn [app]. repeat f_equal; zmod.
Qed.

Lemma u32_small x : 0 ≤ x < 2 ^ 32 → u32 x = x.
Proof. apply (uwrap_small 32). Qed.

Lemma write_vec_small v : zlen v < 2 ^ 32 → write_vec v = write_u32_le (zlen v) ++ v.
Proof.
  intros H. pose proof (zlen_nonneg v). unfold write_vec. rewrite u32_small by lia.
  rewrite take_ge by (unfold zlen; lia). done.
Qed.

Lemma write_string_small s : slen s < 2 ^ 32 → write_string s = write_u32_le (slen s) ++ bytes_of_string s.
Proof.
  intros H. pose proof (slen_nonneg s). unfold write_string. rewrite u32_small by lia.
  rewrite take_ge; [done|]. pose proof (length_bytes_of_string s). unfold zlen in *. lia.
Qed.

Lemma take_zlen {A} (l k : list A) : take (Z.to_nat (zlen l)) (l ++ k) = l.
Proof. apply take_app_length'. unfold zlen. lia. Qed.

Lemma drop_zlen {A} (l k : list A) : drop (Z.to_nat (zlen l)) (l ++ k) = k.
Proof. apply drop_app_length'. unfold zlen. lia. Qed.

Lemma zlen_take {A} n (l : list A) : 0 ≤ n ≤ zlen l → zlen (take (Z.to_nat n) l) = n.
Proof. unfold zlen. intros. rewrite length_take. lia. Qed.

Lemma codec_vec limit f : limit < 2 ^ 32 →
  Codec (λ v, bytes_ok v ∧ zlen v ≤ limit) write_vec (read_vec limit f).
Proof.
  intros Hl. split.
  - intros v rest [Hv Hn]. pose proof (zlen_nonneg v). rewrite write_vec_small by lia.
    unfold read_vec, remaining_bytes. rewrite <- app_assoc.
    rewrite (codec_read _ _ _ (codec_u32 f)) by lia. cbn [mbind result_mbind result_bind].
    rewrite zlen_app. pose proof (zlen_nonneg rest). rewrite !(proj2 (Z.ltb_ge _ _)) by lia.
    cbn [orb mbind result_mbind result_bind throw_if]. rewrite throw_if_false, take_zlen, drop_zlen. done.
  - intros stream v rest Hs H. unfold read_vec, remaining_bytes in H.
    apply result_bind_ok in H as ([n s] & Hn & H).
    apply (codec_inv _ _ _ (codec_u32 f)) in Hn as (Hn & Hs' & ->); [|done].
    apply result_bind_ok in H as ([] & Hc%throw_if_ok & [= <- <-]). bool_facts.
    pose proof (zlen_take n s ltac:(lia)) as Ht.
    split; [split; [by apply Forall_take | lia]|]. split; [by apply Forall_drop|].
    rewrite write_vec_small by lia. by rewrite Ht, <- app_assoc, take_drop.
Qed.

Lemma bytes_of_string_of_bytes l : bytes_ok l → bytes_of_string (string_of_bytes l) = l.
Proof.
  intros H. unfold bytes_of_string, string_of_bytes. rewrite String.list_ascii_of_string_of_list_ascii.
  rewrite <- list_fmap_compose. rewrite <- (list_fmap_id l) at 2. apply list_fmap_ext.
  intros i b Hb. apply z_of_ascii_of_z. by eapply Forall_lookup_1 in H.
Qed.

Lemma codec_string f : Codec (λ s, slen s ≤ MaxStringBytes) write_string (read_string f).
Proof.
  assert (MaxStringBytes < 2 ^ 32) as Hl by done. split.
  - intros v rest Hn. pose proof (slen_nonneg v). rewrite write_string_small by lia.
    unfold read_string, remaining_bytes. rewrite <- app_assoc.
    rewrite (codec_read _ _ _ (codec_u32 f)) by lia. cbn [mbind result_mbind result_bind].
    rewrite zlen_app, length_bytes_of_string. pose proof (zlen_nonneg rest).
    rewrite !(proj2 (Z.ltb_ge _ _)) by lia.
    cbn [orb mbind result_mbind result_bind throw_if].
    rewrite throw_if_false, <- length_bytes_of_string, take_zlen, drop_zlen, string_of_bytes_of_string.
    done.
  - intros stream v rest Hs H. unfold read_string, remaining_bytes in H.
    apply result_bind_ok in H as ([n s] & Hn & H).
    apply (codec_inv _ _ _ (codec_u32 f)) in Hn as (Hn & Hs' & ->); [|done].
    apply result_bind_ok in H as ([] & Hc%throw_if_ok & [= <- <-]). bool_facts.
    assert (bytes_ok (take (Z.to_nat n) s)) as Hb by by apply Forall_take.
    pose proof (zlen_take n s ltac:(lia)) as Ht.
    assert (slen (string_of_bytes (take (Z.to_nat n) s)) = n) as El
      by by rewrite <- length_bytes_of_string, bytes_of_string_of_bytes.
    split; [lia|]. split; [by apply Forall_drop|].
    rewrite write_string_small by lia.
    by rewrite El, bytes_of_string_of_bytes, <- app_assoc, take_drop.
Qed.

Lemma codec_table {A} (P : A → Prop) enc read n : Codec P enc read →
  Codec (λ l, length l = n ∧ Forall P l) (λ l, l ≫= enc) (read_table read n).
Proof.
  intros [Hr Hi]. induction n as [|n IH]; split.
  - intros [|x l] rest [Hn _]; [done | discriminate Hn].
  - intros s l rest Hs [= <- <-]. done.
  - intros [|x l] rest [Hn Hf]; [discriminate Hn|]. apply Forall_cons in Hf as [Hx Hf].
    cbn [read_table mbind list_bind]. rewrite <- app_assoc, Hr by done.
    cbn [mbind result_mbind result_bind].
    rewrite (codec_read _ _ _ IH); [done|]. split; [by injection Hn | done].
  - intros s l rest Hs H. cbn [read_table] in H.
    apply result_bind_ok in H as ([x s1] & H1 & H). apply result_bind_ok in H as ([l' s2] & H2 & [= <- <-]).
    apply Hi in H1 as (Hx & Hs1 & ->); [|done].
    apply (codec_inv _ _ _ IH) in H2 as ((Hn & Hf) & Hs2 & ->); [|done].
    split; [split; [by cbn; rewrite Hn | by constructor]|]. split; [done|].
    cbn [mbind list_bind]. by rewrite <- app_assoc.
Qed.

(** One field of a record, forwards and backwards. *)
Ltac read_field C := rewrite (codec_read _ _ _ C); [cbn [mbind result_mbind result_bind] | ].
Ltac pass_check := rewrite throw_if_false; cbn [mbind result_mbind result_bind].
Ltac inv_field C H x Hx :=
  let s := fresh "s" in let H1 := fresh in let Hs := fresh "Hs" in
  apply result_bind_ok in H as ([x s] & H1 & H);
  apply (codec_inv _ _ _ C) in H1 as (Hx & Hs & ->); [|assumption].
Ltac inv_check H Hc := apply result_bind_ok in H as ([] & Hc%throw_if_ok & H).

Lemma section_of_code s : section_of (section_code s) = s.
Proof. by destruct s. Qed.

Lemma section_code_of z : 0 ≤ z ≤ 2 → section_code (section_of z) = z.
Proof. unfold section_of. case_tests; cbn; lia. Qed.

Lemma reloc_of_code t : reloc_of (reloc_code t) = t.
Proof. by destruct t. Qed.

Lemma reloc_code_of z : 0 ≤ z ≤ 4 → reloc_code (reloc_of z) = z.
Proof. unfold reloc_of. case_tests; cbn; lia. Qed.

Lemma section_code_byte s : byte_ok (section_code s).
Proof. destruct s; cbn; unfold byte_ok; lia. Qed.

Lemma reloc_code_byte t : byte_ok (reloc_code t).
Proof. destruct t; cbn; unfold byte_ok; lia. Qed.

Lemma codec_symbol path o :
  Codec (λ s, slen (s_name s) ≤ MaxStringBytes ∧ 0 ≤ s_offset s < 2 ^ 32
              ∧ s_offset s ≤ zlen (section_bytes o (s_section s)))
    write_symbol (read_symbol path 7 o).
Proof.
  split.
  - intros [name sec off] rest (Hn & Ho & Hl). cbn [s_name s_offset s_section] in *.
    unfold read_symbol, write_symbol. cbn [s_name s_offset s_section]. rewrite <- !app_assoc.
    read_field (codec_string "symbol name"); [|done].
    read_field (codec_u8 "symbol section"); [|apply section_code_byte].
    assert (section_code (if 5 <=? 7 then RAM else DATA) <? section_code sec = false) as ->
      by by destruct sec.
    pass_check. read_field (codec_u32 "symbol offset"); [|done].
    rewrite section_of_code, (proj2 (Z.ltb_ge _ _) Hl). by pass_check.
  - intros stream s rest Hs H. unfold read_symbol in H.
    inv_field (codec_string "symbol name") H name Hn.
    inv_field (codec_u8 "symbol section") H sec Hsec. inv_check H Hc.
    inv_field (codec_u32 "symbol offset") H off Hoff. inv_check H Ho.
    injection H as <- <-. bool_facts. cbn [s_name s_offset s_section section_code Z.leb] in *.
    change (section_code (if 5 <=? 7 then RAM else DATA)) with 2 in Hc. unfold byte_ok in Hsec.
    split; [done|]. split; [done|]. unfold write_symbol. cbn [s_name s_offset s_section].
    rewrite section_code_of by lia. by rewrite <- !app_assoc.
Qed.

Lemma codec_relocation path o :
  Codec (λ r, slen (target_symbol_name r) ≤ MaxStringBytes ∧ 0 ≤ patch_offset r < 2 ^ 32
              ∧ validate_relocation r o = Ok tt)
    write_relocation (read_relocation path 7 o).
Proof.
  split.
  - intros [name sec off ty] rest (Hn & Ho & Hv). cbn [target_symbol_name patch_offset] in *.
    unfold read_relocation, write_relocation.
    cbn [target_symbol_name patch_offset section_to_patch r_type]. rewrite <- !app_assoc.
    read_field (codec_string "relocation target name"); [|done].
    read_field (codec_u8 "relocation section"); [|apply section_code_byte].
    assert (section_code DATA <? section_code sec = false) as ->
      by (apply validate_relocation_ok in Hv as (_ & Hv & _); by destruct sec).
    pass_check. read_field (codec_u32 "relocation offset"); [|done].
    read_field (codec_u8 "relocation type"); [|apply reloc_code_byte].
    assert (reloc_code (if 5 <=? 7 then ADDR16_RAM else ADDR24_OFFSET) <? reloc_code ty = false) as ->
      by by destruct ty.
    pass_check. rewrite section_of_code, reloc_of_code. cbv zeta. rewrite Hv. done.
  - intros stream r rest Hs H. unfold read_relocation in H.
    inv_field (codec_string "relocation target name") H name Hn.
    inv_field (codec_u8 "relocation section") H sec Hsec. inv_check H Hc.
    inv_field (codec_u32 "relocation offset") H off Hoff.
    inv_field (codec_u8 "relocation type") H ty Hty. inv_check H Hd. cbv zeta in H.
    apply result_bind_ok in H as ([] & Hv & [= <- <-]). bool_facts.
    change (section_code DATA) with 1 in Hc.
    change (reloc_code (if 5 <=? 7 then ADDR16_RAM else ADDR24_OFFSET)) with 4 in Hd.
    unfold byte_ok in Hsec, Hty.
    split; [done|]. split; [done|]. unfold write_relocation.
    cbn [target_symbol_name patch_offset section_to_patch r_type].
    rewrite section_code_of, reloc_code_of by lia. by rewrite <- !app_assoc.
Qed.

(** What the reader makes of a disabled bitmap. *)
Definition canonical_bitmap (b : BitmapConfig) : BitmapConfig :=
  if Bitmap.enabled b then b else Bitmap.default.

Lemma bitmap_height b : Bitmap.enabled b = true → Bitmap.validate b = Ok tt → 0 ≤ Bitmap.height b →
  Bitmap.height b ≤ 256.
Proof.
  unfold Bitmap.validate. intros ->. cbn [negb]. intros H Hp. inv_check H Hc. clear H. bool_facts.
  repeat match goal with H : _ && _ = false |- _ => apply andb_false_iff in H; destruct H end;
    bool_facts; try lia; congruence.
Qed.

Lemma codec_bitmap kind :
  Codec (λ b, canonical_bitmap b = b ∧ Bitmap.wf b ∧ Bitmap.validate b = Ok tt
              ∧ (Bitmap.enabled b = true → kind = GSU))
    write_bitmap (read_bitmap 7 kind).
Proof.
  split.
  - intros b rest (Hc & (Hh & Hd & Hb) & Hv & Hk). unfold read_bitmap, write_bitmap.
    change (7 <? 7) with false. cbv iota. rewrite <- app_assoc.
    read_field (codec_u8 "bitmap presence"); [|destruct (Bitmap.enabled b); done].
    assert (1 <? (if Bitmap.enabled b then 1 else 0) = false) as -> by by destruct (Bitmap.enabled b).
    pass_check. pose proof (bitmap_height b) as Hmax. unfold canonical_bitmap in Hc.
    destruct (Bitmap.enabled b) eqn:Ee; cbn [Z.eqb].
    + rewrite <- !app_assoc.
      read_field (codec_u8 "bitmap mode"); [|destruct (Bitmap.object_mode b); done].
      rewrite Hk by done. rewrite bool_decide_true by done.
      assert ((1 <? (if Bitmap.object_mode b then 1 else 0)) || negb true = false) as ->
        by by destruct (Bitmap.object_mode b).
      pass_check. read_field (codec_u8 "bitmap depth"); [|done].
      read_field (codec_u32 "bitmap height"); [|lia].
      rewrite (proj2 (Z.ltb_ge _ _)) by (apply Hmax; auto; lia).
      pass_check. read_field (codec_u32 "bitmap base"); [|done].
      assert (Bitmap.mkBitmap true (negb ((if Bitmap.object_mode b then 1 else 0) =? 0))
                (u16 (Bitmap.height b)) (Bitmap.depth b) (Bitmap.base b) = b) as ->.
      { rewrite (uwrap_small 16) by done. destruct b as [e [] h d a]; cbn in *; by rewrite Ee. }
      cbv zeta. by rewrite Hv.
    + by rewrite Hc.
  - intros stream b rest Hs H. unfold read_bitmap in H. change (7 <? 7) with false in H. cbv iota in H.
    inv_field (codec_u8 "bitmap presence") H en Hen. inv_check H Hc.
    destruct (Z.eqb_spec en 0) as [->|Hne].
    { injection H as <- <-. split; [|done]. split; [done|]. split; [|done].
      unfold Bitmap.wf. cbn. lia. }
    inv_field (codec_u8 "bitmap mode") H mode Hmode. inv_check H Hm.
    inv_field (codec_u8 "bitmap depth") H depth Hdepth.
    inv_field (codec_u32 "bitmap height") H height Hheight. inv_check H Hh.
    inv_field (codec_u32 "bitmap base") H base Hbase. cbv zeta in H.
    apply result_bind_ok in H as ([] & Hv & [= <- <-]). bool_facts. unfold byte_ok in *.
    rewrite (uwrap_small 16) in * by lia.
    split; [split; [done|]; split; [unfold Bitmap.wf; cbn; lia|done]|].
    split; [done|]. unfold write_bitmap. cbn [Bitmap.enabled Bitmap.object_mode Bitmap.depth Bitmap.height Bitmap.base].
    replace en with 1 by lia.
    replace (if negb (mode =? 0) then 1 else 0) with mode by (case_tests; cbn; lia).
    by rewrite <- !app_assoc.
Qed.

Definition write_header (k : TargetKind) (m : MemoryMapping) (start da ra : Z) : list Z :=
  magic ++ write_u8 CurrentFormatVersion ++ write_u8 (target_code k) ++ write_u8 (mapping_code m) ++
  write_u32_le start ++ write_u8 da ++ write_u8 ra.

Lemma read_write_header path k m start da ra rest :
  0 ≤ start < 2 ^ 32 → byte_ok da → byte_ok ra →
  bad_alignment 128 da = false → bad_alignment 128 ra = false →
  read_header path (write_header k m start da ra ++ rest) = Ok ((7, k, m, start, da, ra), rest).
Proof.
  intros Hs Hda Hra Bda Bra. unfold read_header, write_header.
  rewrite <- !app_assoc. change 5%nat with (length magic). rewrite take_app_length, drop_app_length.
  rewrite bool_decide_true by done. pass_check.
  read_field (codec_u8 "format version"); [|done].
  change ((CurrentFormatVersion <? 3) || (CurrentFormatVersion <? CurrentFormatVersion)) with false.
  pass_check. read_field (codec_u8 "target"); [|by destruct k].
  assert (target_code SPC700 <? target_code k = false) as -> by by destruct k.
  pass_check. read_field (codec_u8 "memory mapping"); [|by destruct m].
  read_field (codec_u32 "code start address"); [|done].
  assert (mapping_code HiROM <? mapping_code m = false) as -> by by destruct m.
  pass_check. change (CurrentFormatVersion <? 4) with false. change (CurrentFormatVersion <? 6) with false.
  change (6 <=? CurrentFormatVersion) with true. cbv iota.
  read_field (codec_u8 "DATA alignment"); [|done]. rewrite Bda. pass_check.
  read_field (codec_u8 "RAM alignment"); [|done]. rewrite Bra. pass_check.
  by destruct k, m.
Qed.

Lemma read_header_inv path stream k m start da ra rest :
  bytes_ok stream → read_header path stream = Ok ((7, k, m, start, da, ra), rest) →
  0 ≤ start < 2 ^ 32 ∧ byte_ok da ∧ byte_ok ra ∧ bytes_ok rest
  ∧ stream = write_header k m start da ra ++ rest.
Proof.
  intros Hs H. unfold read_header in H. inv_check H Hm. bool_facts.
  rewrite <- (take_drop 5 stream) in Hs. apply bytes_ok_app in Hs as [_ Hs].
  rewrite <- (take_drop 5 stream), Hm. remember (drop 5 stream) as s eqn:Es. clear Es Hm stream.
  inv_field (codec_u8 "format version") H v Hv. inv_check H Hc.
  inv_field (codec_u8 "target") H kc Hk. inv_check H Hkc.
  inv_field (codec_u8 "memory mapping") H mc Hmc.
  inv_field (codec_u32 "code start address") H st Hst. inv_check H Hmm.
  apply result_bind_ok in H as ([da' s'] & Hda & H). apply result_bind_ok in H as ([ra' s''] & Hra & H).
  injection H as -> <- <- -> -> -> ->.
  change (7 <? 4) with false in Hda. change (7 <? 6) with false in Hra. cbv iota in Hda, Hra.
  inv_field (codec_u8 "DATA alignment") Hda a Ha. inv_check Hda Hba. injection Hda as -> ->.
  inv_field (codec_u8 "RAM alignment") Hra b Hb. inv_check Hra Hbb. injection Hra as -> ->.
  split; [done|]. split; [done|]. split; [done|]. split; [done|].
  unfold write_header. rewrite <- !app_assoc. change CurrentFormatVersion with 7.
  change (target_code SPC700) with 1 in Hkc. change (mapping_code HiROM) with 1 in Hmm. bool_facts.
  unfold byte_ok in *.
  replace (target_code (target_of kc)) with kc by (unfold target_of; case_tests; cbn; lia).
  replace (mapping_code (mapping_of mc)) with mc by (unfold mapping_of; case_tests; cbn; lia).
  done.
Qed.

(** ** The round trip *)

(** What a file keeps of an object: the compiler switches of the configuration
    and the parameters of a disabled bitmap are not stored. *)
Definition canonical_config (c : CompilerConfig) : CompilerConfig :=
  mkConfig (target c) (mapping c) (code_start_address c) (optimize_loop_setup default_config)
    (optimization default_config) (require_no_spills default_config)
    (warn_on_cache_overflow default_config) (canonical_bitmap (bitmap c)).

Definition canonical (o : ObjectFile) : ObjectFile :=
  mkObject (code_section o) (data_section o) (ram_section o) (symbol_table o) (relocation_table o)
    (canonical_config (config o)) (data_alignment o) (ram_alignment o).

Lemma canonical_bitmap_enabled b : Bitmap.enabled (canonical_bitmap b) = Bitmap.enabled b.
Proof. unfold canonical_bitmap. by destruct (Bitmap.enabled b) eqn:E. Qed.

Lemma valid_canonical o : Valid o → Valid (canonical o).
Proof.
  intros []. split; cbn [canonical config canonical_config target bitmap]; try assumption.
  - unfold canonical_bitmap. by destruct (Bitmap.enabled (bitmap (config o))).
  - by rewrite canonical_bitmap_enabled.
  - rewrite object_size_unfold in *.
    cbn [canonical config canonical_config bitmap code_section data_section ram_section symbol_table relocation_table].
    by rewrite canonical_bitmap_enabled.
Qed.

Lemma serialize_header o :
  serialize o = write_header (target (config o)) (mapping (config o)) (code_start_address (config o))
    (data_alignment o) (ram_alignment o) ++ write_bitmap (bitmap (config o)) ++
  write_vec (code_section o) ++ write_vec (data_section o) ++ write_vec (ram_section o) ++
  write_u32_le (u32 (zlen (symbol_table o))) ++ (symbol_table o ≫= write_symbol) ++
  write_u32_le (u32 (zlen (relocation_table o))) ++ (relocation_table o ≫= write_relocation).
Proof. unfold serialize, write_header. by rewrite <- !app_assoc. Qed.

Lemma write_bitmap_canonical b : write_bitmap (canonical_bitmap b) = write_bitmap b.
Proof.
  unfold write_bitmap. rewrite canonical_bitmap_enabled. unfold canonical_bitmap.
  by destruct (Bitmap.enabled b) eqn:E.
Qed.

(** The serialized entries have the sizes validation charges for. *)
Lemma zlen_u32 x : zlen (write_u32_le x) = 4.
Proof. done. Qed.

Lemma zlen_write_string s : slen s < 2 ^ 32 → zlen (write_string s) = 4 + slen s.
Proof.
  intros. rewrite write_string_small by done. by rewrite zlen_app, zlen_u32, length_bytes_of_string.
Qed.

Lemma zlen_write_vec v : zlen v < 2 ^ 32 → zlen (write_vec v) = 4 + zlen v.
Proof. intros. rewrite write_vec_small by done. by rewrite zlen_app. Qed.

Lemma zlen_symbols l : Forall (λ s, slen (s_name s) < 2 ^ 32) l →
  zlen (l ≫= write_symbol) = symbols_size l.
Proof.
  induction 1 as [|s l Hs _ IH]; [done|]. cbn [mbind list_bind symbols_size] in *.
  rewrite zlen_app, IH. unfold write_symbol. rewrite !zlen_app, zlen_write_string, zlen_u32 by done.
  unfold write_u8. rewrite zlen_cons, zlen_nil. lia.
Qed.

Lemma zlen_relocations l : Forall (λ r, slen (target_symbol_name r) < 2 ^ 32) l →
  zlen (l ≫= write_relocation) = relocations_size l.
Proof.
  induction 1 as [|s l Hs _ IH]; [done|]. cbn [mbind list_bind relocations_size] in *.
  rewrite zlen_app, IH. unfold write_relocation.
  rewrite !zlen_app, zlen_write_string, zlen_u32 by done.
  unfold write_u8. rewrite !zlen_cons, zlen_nil. lia.
Qed.

Lemma good_name_slen n : good_name n → slen n < 2 ^ 32.
Proof. intros [Hl _ _]. unfold MaxStringBytes in Hl. lia. Qed.

Lemma zlen_serialize o : Valid o → zlen (serialize o) = object_size o.
Proof.
  intros []. unfold MaxSectionBytes in *. rewrite serialize_header, object_size_unfold.
  rewrite !zlen_app, !zlen_write_vec, zlen_symbols, zlen_relocations; try lia.
  - unfold write_header, write_bitmap. destruct (Bitmap.enabled _); rewrite ?zlen_app, ?zlen_u32;
      change (zlen magic) with 5; unfold write_u8; rewrite ?zlen_cons, ?zlen_nil; lia.
  - eapply Forall_impl; [done|]. intros r [Hg _]. by apply good_name_slen.
  - eapply Forall_impl; [done|]. intros r [Hg _]. by apply good_name_slen.
Qed.

Lemma symbols_size_count l : Forall (λ s, good_name (s_name s)) l → 10 * zlen l ≤ symbols_size l.
Proof.
  induction 1 as [|s l [Hl _ _] _ IH]; [done|]. cbn [symbols_size]. rewrite zlen_cons. lia.
Qed.

Lemma relocations_size_count l :
  Forall (λ r, good_name (target_symbol_name r)) l → 11 * zlen l ≤ relocations_size l.
Proof.
  induction 1 as [|s l [Hl _ _] _ IH]; [done|]. cbn [relocations_size]. rewrite zlen_cons. lia.
Qed.

(** What the tables need, from validity and the ranges of the fields. *)
Lemma symbols_codec_ok o : wf o → Valid o →
  Forall (λ s, slen (s_name s) ≤ MaxStringBytes ∧ 0 ≤ s_offset s < 2 ^ 32
              ∧ s_offset s ≤ zlen (section_bytes o (s_section s))) (symbol_table o).
Proof.
  intros Hw Hv. pose proof (wf_symbols o Hw) as H1. pose proof (v_symbols o Hv) as H2.
  rewrite Forall_forall in H1, H2 |- *. intros s Hs. destruct (H2 s Hs) as [[? _ _] ?].
  split; [lia|]. split; [by apply H1 | done].
Qed.

Lemma relocations_codec_ok o : wf o → Valid o →
  Forall (λ r, slen (target_symbol_name r) ≤ MaxStringBytes ∧ 0 ≤ patch_offset r < 2 ^ 32
              ∧ validate_relocation r o = Ok tt) (relocation_table o).
Proof.
  intros Hw Hv. pose proof (wf_relocations o Hw) as H1. pose proof (v_relocations o Hv) as H2.
  rewrite Forall_forall in H1, H2 |- *. intros s Hs. destruct (H2 s Hs) as ([Hl _ _] & _ & ? & ?).
  split; [lia|]. split; [by apply H1|]. apply validate_relocation_ok. split; [|done].
  intros E. rewrite E in Hl. change (slen "") with 0 in Hl. lia.
Qed.

Lemma read_serialize path o : wf o → Valid o → read_stream path (serialize o) = Ok (canonical o).
Proof.
  intros Hw Hv. pose proof (zlen_serialize o Hv) as Hz. pose proof (v_size o Hv) as Hsz.
  pose proof (symbols_codec_ok o Hw Hv) as Hsy. pose proof (relocations_codec_ok o Hw Hv) as Hre.
  pose proof (valid_validate _ (valid_canonical o Hv)) as Hfinal. pose proof Hv as Hv'.
  destruct Hw, Hv. unfold MaxSymbolCount, MaxRelocationCount in *.
  unfold read_stream, remaining_bytes, MaxSymbolCount, MaxRelocationCount.
  rewrite Hz, (proj2 (Z.ltb_ge _ _)) by done. pass_check. rewrite serialize_header.
  rewrite read_write_header by (done || by apply bad_alignment_false). cbn [mbind result_mbind result_bind].
  rewrite <- write_bitmap_canonical. read_field (codec_bitmap (target (config o))).
  2: { pose proof (valid_canonical o Hv') as []. cbn [canonical canonical_config config bitmap target] in *.
       split; [unfold canonical_bitmap; by destruct (Bitmap.enabled (bitmap (config o))) eqn:Ee; rewrite ?Ee|].
       split; [unfold canonical_bitmap; destruct (Bitmap.enabled _); [done | unfold Bitmap.wf; cbn; lia]|].
       done. }
  read_field (codec_vec MaxSectionBytes "code section" ltac:(done)); [|done].
  read_field (codec_vec MaxSectionBytes "data section" ltac:(done)); [|done].
  change (7 <? 5) with false. cbv iota.
  read_field (codec_vec 65536 "RAM section" ltac:(done)); [|done].
  pose proof (zlen_nonneg (symbol_table o)). pose proof (zlen_nonneg (relocation_table o)).
  rewrite (u32_small (zlen (symbol_table o))), (u32_small (zlen (relocation_table o))) by lia.
  read_field (codec_u32 "symbol count"); [|lia]. rewrite !zlen_app, zlen_u32, zlen_symbols, zlen_relocations.
  2: { eapply Forall_impl; [exact v_relocations0|]. intros r [Hg _]. by apply good_name_slen. }
  2: { eapply Forall_impl; [exact v_symbols0|]. intros r [Hg _]. by apply good_name_slen. }
  pose proof (symbols_size_count (symbol_table o) ltac:(eapply Forall_impl; [exact v_symbols0|by intros ? []])).
  pose proof (relocations_size_count (relocation_table o)
    ltac:(eapply Forall_impl; [exact v_relocations0|by intros ? []])).
  rewrite !(proj2 (Z.ltb_ge _ _)) by zmod. cbn [orb]. pass_check.
  read_field (codec_table _ _ _ (Z.to_nat (zlen (symbol_table o))) (codec_symbol path
    (mkObject (code_section o) (data_section o) (ram_section o) [] [] (canonical_config (config o))
       (data_alignment o) (ram_alignment o)))).
  2: { split; [unfold zlen; lia|]. exact Hsy. }
  read_field (codec_u32 "relocation count"); [|lia]. rewrite zlen_relocations.
  2: { eapply Forall_impl; [exact v_relocations0|]. intros r [Hg _]. by apply good_name_slen. }
  rewrite !(proj2 (Z.ltb_ge _ _)) by zmod. cbn [orb]. pass_check.
  rewrite <- (app_nil_r (relocation_table o ≫= write_relocation)).
  read_field (codec_table _ _ _ (Z.to_nat (zlen (relocation_table o))) (codec_relocation path
    (mkObject (code_section o) (data_section o) (ram_section o) [] [] (canonical_config (config o))
       (data_alignment o) (ram_alignment o)))).
  2: { split; [unfold zlen; lia|]. exact Hre. }
  rewrite bool_decide_true by done. pass_check.
  unfold canonical in Hfinal |- *. unfold canonical_config in *. rewrite Hfinal. done.
Qed.

(** The byte after the magic is the version. *)
Lemma read_header_version path stream v k m start da ra rest :
  read_header path stream = Ok ((v, k, m, start, da, ra), rest) → stream !! 5%nat = Some v.
Proof.
  intros H. unfold read_header in H. inv_check H Hm.
  apply result_bind_ok in H as ([v' s] & Hv & H).
  assert (stream !! 5%nat = Some v') as ->.
  { change 5%nat with (5 + 0)%nat. rewrite <- lookup_drop.
    destruct (drop 5 stream); [discriminate Hv|]. by injection Hv as -> ->. }
  f_equal. inv_check H Hc.
  apply result_bind_ok in H as ([k' s1] & _ & H). inv_check H Hc1.
  apply result_bind_ok in H as ([m' s2] & _ & H). apply result_bind_ok in H as ([st s3] & _ & H).
  inv_check H Hc2. apply result_bind_ok in H as ([da' s4] & _ & H).
  apply result_bind_ok in H as ([ra' s5] & _ & H). by injection H.
Qed.

Lemma read_canonical path bs o :
  bytes_ok bs → bs !! 5%nat = Some 7 → read_stream path bs = Ok o →
  wf o ∧ canonical o = o ∧ serialize o = bs.
Proof.
  intros Hb H7 H. unfold read_stream in H. inv_check H Hmax.
  apply result_bind_ok in H as ([[[[[[v k] m] st] da] ra] s0] & Hh & H).
  pose proof (read_header_version _ _ _ _ _ _ _ _ _ Hh) as Hv. rewrite H7 in Hv. injection Hv as <-.
  apply read_header_inv in Hh as (Hst & Hda & Hra & Hs0 & ->); [|done].
  inv_field (codec_bitmap k) H bm Hbm.
  inv_field (codec_vec MaxSectionBytes "code section" ltac:(done)) H code Hcode.
  inv_field (codec_vec MaxSectionBytes "data section" ltac:(done)) H data Hdata.
  change (7 <? 5) with false in H. cbv iota in H.
  inv_field (codec_vec 65536 "RAM section" ltac:(done)) H ram Hram. cbv zeta in H.
  inv_field (codec_u32 "symbol count") H ns Hns. inv_check H Hnc.
  match type of H with context [read_symbol path 7 ?o'] => set (obj := o') in * end.
  inv_field (codec_table _ _ _ (Z.to_nat ns) (codec_symbol path obj)) H syms Hsyms.
  inv_field (codec_u32 "relocation count") H nr Hnr. inv_check H Hrc.
  inv_field (codec_table _ _ _ (Z.to_nat nr) (codec_relocation path obj)) H rels Hrels.
  inv_check H He. apply result_bind_ok in H as ([] & Hval & [= <-]). bool_facts. subst.
  apply validate_accepts in Hval. destruct Hsyms as [Els Hsyms], Hrels as [Elr Hrels].
  destruct Hcode, Hdata, Hram, Hbm as (Hcb & Hwb & Hvb & Hkb).
  assert (zlen syms = ns ∧ zlen rels = nr) as [En Er] by (unfold zlen; lia).
  split; [|split].
  - split; cbn [code_section data_section ram_section symbol_table relocation_table config code_start_address bitmap data_alignment ram_alignment];
      try done.
    + eapply Forall_impl; [exact Hsyms|]. by intros s (_ & ? & _).
    + eapply Forall_impl; [exact Hrels|]. by intros r (_ & ? & _).
  - unfold canonical, canonical_config. cbn. by rewrite Hcb.
  - rewrite serialize_header.
    cbn [code_section data_section ram_section symbol_table relocation_table config code_start_address bitmap data_alignment ram_alignment target mapping].
    rewrite En, Er, !u32_small by done. by rewrite app_nil_r.
Qed.

(** ** Reading any version *)

(** A reader yields values in range and leaves bytes. *)
Definition Yields {A} (P : A → Prop) (read : list Z → result (A * list Z)) : Prop :=
  ∀ s x rest, bytes_ok s → read s = Ok (x, rest) → P x ∧ bytes_ok rest.

Lemma codec_yields {A} (P : A → Prop) enc read : Codec P enc read → Yields P read.
Proof. intros C s x rest Hs H. apply (codec_inv _ _ _ C) in H as (? & ? & _); done. Qed.

Lemma yields_table {A} (P : A → Prop) read n : Yields P read → Yields (Forall P) (read_table read n).
Proof.
  intros HY. induction n as [|n IH]; intros s l rest Hs H; cbn [read_table] in H.
  - injection H as <- <-. auto.
  - apply result_bind_ok in H as ([x s1] & H1 & H). apply result_bind_ok in H as ([l' s2] & H2 & [= <- <-]).
    apply HY in H1 as [Hx Hs1]; [|done]. apply IH in H2 as [Hl Hs2]; [|done]. auto.
Qed.

(** The next field of a record whose values are bounded by a codec. *)
Ltac yield_field C H x Hx :=
  let s := fresh "s" in let H1 := fresh in let Hs := fresh "Hs" in
  apply result_bind_ok in H as ([x s] & H1 & H);
  apply (codec_yields _ _ _ C) in H1 as [Hx Hs]; [|assumption].

Lemma yields_symbol path v o : Yields (λ s, 0 ≤ s_offset s < 2 ^ 32) (read_symbol path v o).
Proof.
  intros stream s rest Hs H. unfold read_symbol in H.
  yield_field (codec_string "symbol name") H name Hn. yield_field (codec_u8 "symbol section") H sec Hsec.
  inv_check H Hc. yield_field (codec_u32 "symbol offset") H off Hoff. inv_check H Ho. by injection H as <- <-.
Qed.

Lemma yields_relocation path v o : Yields (λ r, 0 ≤ patch_offset r < 2 ^ 32) (read_relocation path v o).
Proof.
  intros stream r rest Hs H. unfold read_relocation in H.
  yield_field (codec_string "relocation target name") H name Hn.
  yield_field (codec_u8 "relocation section") H sec Hsec. inv_check H Hc.
  yield_field (codec_u32 "relocation offset") H off Hoff.
  yield_field (codec_u8 "relocation type") H ty Hty. inv_check H Hd. cbv zeta in H.
  apply result_bind_ok in H as ([] & _ & [= <- <-]). done.
Qed.

Lemma yields_bitmap v kind : Yields Bitmap.wf (read_bitmap v kind).
Proof.
  destruct (Z_lt_le_dec v 7) as [Hv|Hv].
  - intros s b rest Hs H. unfold read_bitmap in H. rewrite (proj2 (Z.ltb_lt _ _) Hv) in H.
    injection H as <- <-. split; [unfold Bitmap.wf; cbn; lia | done].
  - intros s b rest Hs H. assert (read_bitmap v kind s = read_bitmap 7 kind s) as E.
    { unfold read_bitmap. by rewrite (proj2 (Z.ltb_ge _ _) Hv). }
    rewrite E in H. apply (codec_yields _ _ _ (codec_bitmap kind)) in H as [(_ & ? & _) ?]; done.
Qed.

Lemma yields_header path :
  Yields (λ h : Z * TargetKind * MemoryMapping * Z * Z * Z,
    let '(_, _, _, start, da, ra) := h in 0 ≤ start < 2 ^ 32 ∧ byte_ok da ∧ byte_ok ra) (read_header path).
Proof.
  intros stream h rest Hs H. unfold read_header in H. inv_check H Hm.
  assert (bytes_ok (drop 5 stream)) as Hd by by apply Forall_drop.
  yield_field (codec_u8 "format version") H v Hv. inv_check H Hc.
  yield_field (codec_u8 "target") H kc Hk. inv_check H Hkc.
  yield_field (codec_u8 "memory mapping") H mc Hmc.
  yield_field (codec_u32 "code start address") H st Hst. inv_check H Hmm.
  apply result_bind_ok in H as ([da s'] & Hda & H). apply result_bind_ok in H as ([ra s''] & Hra & H).
  injection H as <- <-.
  assert (byte_ok da ∧ bytes_ok s') as [Hda' Hs'].
  { destruct (v <? 4); [by injection Hda as <- <-|].
    yield_field (codec_u8 "DATA alignment") Hda a Ha. inv_check Hda Hb. by injection Hda as <- <-. }
  assert (byte_ok ra ∧ bytes_ok s'') as [Hra' Hs''].
  { destruct (v <? 6); [by injection Hra as <- <-|].
    yield_field (codec_u8 "RAM alignment") Hra a Ha. inv_check Hra Hb. by injection Hra as <- <-. }
  done.
Qed.

Lemma read_stream_wf path bs o : bytes_ok bs → read_stream path bs = Ok o → wf o ∧ Valid o.
Proof.
  intros Hb H. unfold read_stream in H. inv_check H Hmax.
  apply result_bind_ok in H as ([[[[[[v k] m] st] da] ra] s0] & Hh & H).
  apply yields_header in Hh as [(Hst & Hda & Hra) Hs0]; [|done].
  apply result_bind_ok in H as ([bm s1] & Hbm & H). apply yields_bitmap in Hbm as [Hbm Hs1]; [|done].
  yield_field (codec_vec MaxSectionBytes "code section" ltac:(done)) H code Hcode.
  yield_field (codec_vec MaxSectionBytes "data section" ltac:(done)) H data Hdata.
  apply result_bind_ok in H as ([ram s3] & Hram & H). cbv zeta in H.
  assert (bytes_ok ram ∧ bytes_ok s3) as [Hrb Hs3].
  { destruct (v <? 5); [injection Hram as <- <-; split; [constructor | done]|].
    apply (codec_yields _ _ _ (codec_vec 65536 "RAM section" ltac:(done))) in Hram as [[? ?] ?]; done. }
  yield_field (codec_u32 "symbol count") H ns Hns. inv_check H Hnc.
  apply result_bind_ok in H as ([syms s5] & Hsy & H).
  apply (yields_table _ _ _ (yields_symbol _ _ _)) in Hsy as [Hsy Hs5]; [|done].
  yield_field (codec_u32 "relocation count") H nr Hnr. inv_check H Hrc.
  apply result_bind_ok in H as ([rels s7] & Hre & H).
  apply (yields_table _ _ _ (yields_relocation _ _ _)) in Hre as [Hre Hs7]; [|done].
  inv_check H He. apply result_bind_ok in H as ([] & Hval%validate_accepts & [= <-]).
  split; [|done]. destruct Hcode, Hdata. by split.
Qed.

(* ------------------------------------------------------------------ *)
(** ** Properties *)

Lemma canonical_idempotent o : canonical (canonical o) = canonical o.
Proof.
  unfold canonical, canonical_config. cbn. f_equal. f_equal. unfold canonical_bitmap.
  destruct (Bitmap.enabled (bitmap (config o))) eqn:E; [by rewrite E | done].
Qed.

(** C31. The object-file round trip: what [write] puts in a file, [readBytes]
    reads back as the same object, up to the compiler switches and the
    parameters of a disabled bitmap, which a file does not store. *)
Theorem write_read (o : ObjectFile) (bytes : list Z) :
  wf o → write o = Ok bytes →
  readBytes bytes = Ok (canonical o) ∧ zlen bytes = object_size o.
Proof.
  intros Hw H. apply result_bind_ok in H as ([] & Hv%validate_accepts & [= <-]).
  pose proof (zlen_serialize o Hv) as Hz. split; [|done].
  unfold readBytes. rewrite Hz, (proj2 (Z.ltb_ge _ _)) by apply (v_size o Hv).
  pass_check. by apply read_serialize.
Qed.

(** C32. Whatever bytes [readBytes] accepts, of any version, the object it
    returns is valid, with every field in range; and the version-7 format has
    one encoding per object: writing the object again gives the bytes it was
    read from. *)
Theorem read_write (bytes : list Z) (o : ObjectFile) :
  bytes_ok bytes → readBytes bytes = Ok o →
  wf o ∧ Valid o ∧ (bytes !! 5%nat = Some CurrentFormatVersion → canonical o = o ∧ write o = Ok bytes).
Proof.
  intros Hb H. unfold readBytes in H. inv_check H Hm.
  destruct (read_stream_wf _ _ _ Hb H) as [Hw Hv]. split; [done|]. split; [done|]. intros H7.
  destruct (read_canonical _ _ _ Hb H7 H) as (_ & Hc & Hs). split; [done|].
  unfold write. by rewrite (valid_validate _ Hv), Hs.
Qed.

(** C33. The validator accepts exactly the valid objects: named sections and
    counts in their limits, distinct printable symbol names inside their
    sections, relocations inside their sections that rewrite pairwise
    disjoint bytes, and a file within the total size limit.  The running size
    charges and the sort-and-scan overlap test decide those properties. *)
Theorem validate_exact (o : ObjectFile) : validate o = Ok tt ↔ Valid o.
Proof. split; [apply validate_accepts | apply valid_validate]. Qed.

(** ** A concrete object *)

(** A function that loads the address of a global, with a symbol in each
    section and a framebuffer. *)
Definition sample : ObjectFile :=
  mkObject [255; 0; 0; 248; 0; 0] [1; 2] [0; 0; 0]
    [mkSymbol "main" CODE 0; mkSymbol CacheAlignmentSymbol CODE 0; mkSymbol "table" DATA 1;
     mkSymbol "counter" RAM 2]
    [mkRelocation "main" CODE 0 ADDR16_JAL; mkRelocation "table" CODE 3 ADDR24_OFFSET]
    (mkConfig GSU LoROM 32768 false Baseline false true (Bitmap.mkBitmap true false 128 4 1024)) 2 1.

Lemma sample_wf : wf sample.
Proof.
  split; cbn; unfold bytes_ok, byte_ok, Bitmap.wf; cbn; repeat (lia || done || constructor).
Qed.

Lemma write_read_witness :
  wf sample ∧ write sample = Ok (serialize sample)
  ∧ readBytes (serialize sample) = Ok (canonical sample)
  ∧ zlen (serialize sample) = object_size sample.
Proof.
  split; [apply sample_wf|]. assert (write sample = Ok (serialize sample)) as Hw by (vm_compute; reflexivity).
  split; [exact Hw|]. apply (write_read sample (serialize sample) sample_wf Hw).
Defined.

Lemma read_write_witness :
  bytes_ok (serialize sample) ∧ readBytes (serialize sample) = Ok sample ∧ Valid sample
  ∧ write sample = Ok (serialize sample).
Proof.
  assert (bytes_ok (serialize sample)) as Hb.
  { unfold bytes_ok, byte_ok.
    apply Forall_forall. intros x Hx.
    assert (forallb (λ x, (0 <=? x) && (x <? 256)) (serialize sample) = true) as Ha by (vm_compute; reflexivity).
    rewrite forallb_forall in Ha. specialize (Ha x (proj1 (list_elem_of_In _ _) Hx)). bool_facts. lia. }
  assert (readBytes (serialize sample) = Ok sample) as Hr by (vm_compute; reflexivity).
  destruct (read_write (serialize sample) sample Hb Hr) as (_ & Hv & H7).
  split; [exact Hb|]. split; [exact Hr|]. split; [exact Hv|]. apply H7. reflexivity.
Defined.
