(* ===== verification/Startup.v ===== *)
(** * Startup: the runtime initialisation stub

    Models [RuntimeInitialization.hpp]: the GSU code the linker puts in front
    of the payload, which selects the RAM bank, sets the stack pointer, clears
    and fills the static RAM and jumps to the entry point. *)

From S2P Require Import Prelude.

Record RuntimeInitialization := mkInit {
  bytes : list Z;
  entry_patch : Z   (* std::size_t *)
}.

Definition no_init : RuntimeInitialization := mkInit [] 0.

(** [IWT reg, value] *)
Definition word (reg value : Z) : list Z := [Z.lor 240 reg; u8 value; u8 (Z.shiftr value 8)].

(** [IBT] where the sign extension gives the word, [IWT] elsewhere. *)
Definition literal (reg value : Z) : list Z :=
  if (value <=? 127) || (65408 <=? value) then [Z.lor 160 reg; u8 value] else word reg value.

(** The loop over the initial image, a word at a time from [address]; a last
    odd byte is stored by itself. *)
Fixpoint init_words (address : Z) (image : list Z) : list Z :=
  match image with
  | [] => []
  | [low] =>
      if low =? 0 then []
      else literal 1 (u16 address) ++ literal 0 (u16 (Z.lor low 0)) ++ [61; 49]
  | low :: high :: rest =>
      (if (low =? 0) && (high =? 0) then []
       else literal 1 (u16 address) ++ literal 0 (u16 (Z.lor low (Z.shiftl high 8))) ++ [49])
      ++ init_words (address + 2) rest
  end.

(** The code that clears and fills the image. *)
Definition init_image (ram_origin : Z) (initial_image : list Z) : list Z :=
  match initial_image with
  | [] => []
  | _ =>
      literal 0 0 ++ literal 1 ram_origin ++ literal 2 (u16 (zlen initial_image)) ++
      [61; 49; 209; 226; 8; 250; 1] ++ init_words ram_origin initial_image
  end.

Definition makeRuntimeInitialization (bank stack ram_origin : Z) (initial_image : list Z)
    : result RuntimeInitialization :=
  throw_if ((1 <? bank) || (65536 - ram_origin <? zlen initial_image)
            || negb (Z.land ram_origin 1 =? 0))
    (RuntimeError "Runtime RAM initialization exceeds its aligned bank allocation.");;
  let prologue := literal 0 bank ++ [62; 223] ++ literal 10 stack ++ init_image ram_origin initial_image in
  Ok (mkInit (prologue ++ word 15 0 ++ [1]) (zlen prologue + 1)).
