(* ===== verification/Link.v ===== *)
(** * Link: the linker

    Models [LinkerDriver.cpp] and the symbol names of [ABI.hpp] it uses: the
    options, the loading of the object files, the placement of static RAM, the
    layout of code and data, the symbol table and the relocation pass.  What is
    left out is text output, the assembly export, the manifest and the writing
    of the payload; [file] stands for the contents of the file system. *)

From S2P Require Import Prelude Target Literal Object Startup.

Definition StackLimitPrefix : string := "__disco_stack_limit_".
Definition NearRamBankSymbol : string := "__disco_near_ram_bank".
Definition NearRomBankSymbol : string := "__disco_near_rom_bank".
Definition ImmutablePoolPrefix : string := chr 1 +:+ "__disco_pool_".

(** ** Options *)

(** [std::stoul(text, &consumed, base)]: as [stoll], but a minus wraps around
    and the magnitude has 64 bits. *)
Definition stoul (l : list Z) (base : Z) : result (Z * nat) :=
  let '(spaces, l1) := skip_space l in
  let '(minus, sign, l2) := read_sign l1 in
  let '(b, prefix, l3) := read_prefix base l2 in
  let '(magnitude, n) := read_digits b 0 0 l3 in
  if Nat.eqb n 0 then Err InvalidArgument
  else if 2 ^ 64 <=? magnitude then Err OutOfRange
  else Ok (if (minus : bool) then u64 (- magnitude) else magnitude, (spaces + sign + prefix + n)%nat).

Definition parseOptionNumber (text : string) (maximum : Z) : result Z :=
  throw_if (bool_decide (text = "") || (10 <? slen text) || (front text =? 45) || (front text =? 43)
            || isSpace (front text))
    (RuntimeError ("Invalid numeric option value: " +:+ text));;
  match stoul (bytes_of_string text) 0 with
  | Err InvalidArgument => Err (RuntimeError ("Invalid numeric option value: " +:+ text))
  | Err OutOfRange => Err (RuntimeError ("Numeric option value is out of range: " +:+ text))
  | Err e => Err e
  | Ok (value, consumed) =>
      throw_if (negb (Z.of_nat consumed =? slen text) || (maximum <? value))
        (RuntimeError ("Numeric option value is out of range: " +:+ text));;
      Ok (u32 value)
  end.

Definition parseTarget (name : string) : result TargetKind :=
  if bool_decide (name = "gsu") || bool_decide (name = "superfx") then Ok GSU
  else if bool_decide (name = "spc700") then Ok SPC700
  else Err (RuntimeError ("Unsupported target '" +:+ name +:+ "'. Use 'gsu' or 'spc700'.")).

Record Options := mkOptions {
  object_files : list string;
  out_filepath : string;
  assembly_filepath : string;
  entry_name : string;
  origin : option Z;              (* origin_override *)
  initialize_runtime : bool;
  runtime_options : bool;
  ram_bank : Z;
  stack_pointer : Z;
  rom_bank : option Z;            (* rom_bank_override *)
  ram_origin : Z;
  host_globals : bool;
  expected_target : option TargetKind;
  expected_mapping : option MemoryMapping;
  execution : Placement.Execution
}.

Definition default_options : Options :=
  mkOptions [] "new.bin" "" "main" None false false 0 8192 None 1024 false None None Placement.Automatic.

Definition set_object (f : string) (o : Options) : Options :=
  mkOptions (object_files o ++ [f]) (out_filepath o) (assembly_filepath o) (entry_name o) (origin o)
    (initialize_runtime o) (runtime_options o) (ram_bank o) (stack_pointer o) (rom_bank o)
    (ram_origin o) (host_globals o) (expected_target o) (expected_mapping o) (execution o).
Definition set_out (f : string) (o : Options) : Options :=
  mkOptions (object_files o) f (assembly_filepath o) (entry_name o) (origin o)
    (initialize_runtime o) (runtime_options o) (ram_bank o) (stack_pointer o) (rom_bank o)
    (ram_origin o) (host_globals o) (expected_target o) (expected_mapping o) (execution o).
Definition set_assembly (f : string) (o : Options) : Options :=
  mkOptions (object_files o) (out_filepath o) f (entry_name o) (origin o)
    (initialize_runtime o) (runtime_options o) (ram_bank o) (stack_pointer o) (rom_bank o)
    (ram_origin o) (host_globals o) (expected_target o) (expected_mapping o) (execution o).
Definition set_entry (e : string) (o : Options) : Options :=
  mkOptions (object_files o) (out_filepath o) (assembly_filepath o) e (origin o)
    (initialize_runtime o) true (ram_bank o) (stack_pointer o) (rom_bank o)
    (ram_origin o) (host_globals o) (expected_target o) (expected_mapping o) (execution o).
Definition set_origin (a : Z) (o : Options) : Options :=
  mkOptions (object_files o) (out_filepath o) (assembly_filepath o) (entry_name o) (Some a)
    (initialize_runtime o) (runtime_options o) (ram_bank o) (stack_pointer o) (rom_bank o)
    (ram_origin o) (host_globals o) (expected_target o) (expected_mapping o) (execution o).
Definition set_init (b : bool) (o : Options) : Options :=
  mkOptions (object_files o) (out_filepath o) (assembly_filepath o) (entry_name o) (origin o)
    b (runtime_options o) (ram_bank o) (stack_pointer o) (rom_bank o)
    (ram_origin o) (host_globals o) (expected_target o) (expected_mapping o) (execution o).
Definition set_ram_bank (b : Z) (o : Options) : Options :=
  mkOptions (object_files o) (out_filepath o) (assembly_filepath o) (entry_name o) (origin o)
    (initialize_runtime o) (runtime_options o) b (stack_pointer o) (rom_bank o)
    (ram_origin o) (host_globals o) (expected_target o) (expected_mapping o) (execution o).
Definition set_stack (s : Z) (o : Options) : Options :=
  mkOptions (object_files o) (out_filepath o) (assembly_filepath o) (entry_name o) (origin o)
    (initialize_runtime o) true (ram_bank o) s (rom_bank o)
    (ram_origin o) (host_globals o) (expected_target o) (expected_mapping o) (execution o).
Definition set_rom_bank (b : Z) (o : Options) : Options :=
  mkOptions (object_files o) (out_filepath o) (assembly_filepath o) (entry_name o) (origin o)
    (initialize_runtime o) (runtime_options o) (ram_bank o) (stack_pointer o) (Some b)
    (ram_origin o) (host_globals o) (expected_target o) (expected_mapping o) (execution o).
Definition set_ram_origin (a : Z) (o : Options) : Options :=
  mkOptions (object_files o) (out_filepath o) (assembly_filepath o) (entry_name o) (origin o)
    (initialize_runtime o) (runtime_options o) (ram_bank o) (stack_pointer o) (rom_bank o)
    a (host_globals o) (expected_target o) (expected_mapping o) (execution o).
Definition set_host (b : bool) (o : Options) : Options :=
  mkOptions (object_files o) (out_filepath o) (assembly_filepath o) (entry_name o) (origin o)
    (initialize_runtime o) (runtime_options o) (ram_bank o) (stack_pointer o) (rom_bank o)
    (ram_origin o) b (expected_target o) (expected_mapping o) (execution o).
Definition set_target (t : TargetKind) (o : Options) : Options :=
  mkOptions (object_files o) (out_filepath o) (assembly_filepath o) (entry_name o) (origin o)
    (initialize_runtime o) (runtime_options o) (ram_bank o) (stack_pointer o) (rom_bank o)
    (ram_origin o) (host_globals o) (Some t) (expected_mapping o) (execution o).
Definition set_mapping (m : MemoryMapping) (o : Options) : Options :=
  mkOptions (object_files o) (out_filepath o) (assembly_filepath o) (entry_name o) (origin o)
    (initialize_runtime o) (runtime_options o) (ram_bank o) (stack_pointer o) (rom_bank o)
    (ram_origin o) (host_globals o) (expected_target o) (Some m) (execution o).
Definition set_execution (e : Placement.Execution) (o : Options) : Options :=
  mkOptions (object_files o) (out_filepath o) (assembly_filepath o) (entry_name o) (origin o)
    (initialize_runtime o) (runtime_options o) (ram_bank o) (stack_pointer o) (rom_bank o)
    (ram_origin o) (host_globals o) (expected_target o) (expected_mapping o) e.

(** The options with a value of the two groups; [None] for another argument. *)
Definition value_option (arg value : string) (o : Options) : option (result Options) :=
  let named s := bool_decide (arg = s) in
  if named "--target" then Some (t ← parseTarget value; Ok (set_target t o))
  else if named "--memory-mapping" then Some (
    throw_if (negb (bool_decide (value = "lorom")) && negb (bool_decide (value = "hirom")))
      (RuntimeError "Unsupported memory mapping; use lorom or hirom.");;
    Ok (set_mapping (if bool_decide (value = "lorom") then LoROM else HiROM) o))
  else if named "--execution-memory" then Some (
    throw_if (negb (bool_decide (value = "rom")) && negb (bool_decide (value = "ram")))
      (RuntimeError "Execution memory must be rom or ram.");;
    Ok (set_execution (if bool_decide (value = "rom") then Placement.ExecRom else Placement.ExecRam) o))
  else if named "--origin" then Some (n ← parseOptionNumber value 16777215; Ok (set_origin n o))
  else if named "--ram-bank" then Some (n ← parseOptionNumber value 1; Ok (set_ram_bank n o))
  else if named "--ram-origin" then Some (n ← parseOptionNumber value 65535; Ok (set_ram_origin n o))
  else if named "--rom-bank" then Some (n ← parseOptionNumber value 95; Ok (set_rom_bank n o))
  else if named "--stack-pointer" then Some (n ← parseOptionNumber value 65534; Ok (set_stack n o))
  else if named "--entry" then Some (Ok (set_entry value o))
  else if named "--emit-asm" then Some (Ok (set_assembly value o))
  else None.

(** The argument loop: [inr status] is [return status] after the usage text or
    a message. *)
Fixpoint parse_arguments (arguments : list string) (o : Options) : result (Options + Z) :=
  match arguments with
  | [] => Ok (inl o)
  | arg :: rest =>
      if bool_decide (arg = "--help") || bool_decide (arg = "-h") then Ok (inr 0)
      else if bool_decide (arg = "-o") then
        match rest with [] => Ok (inr 1) | value :: rest => parse_arguments rest (set_out value o) end
      else if bool_decide (arg = "--no-init-runtime") then parse_arguments rest (set_init false o)
      else if bool_decide (arg = "--no-host-initialized-globals") then
        parse_arguments rest (set_host false o)
      else if bool_decide (arg = "--no-emit-asm") then parse_arguments rest (set_assembly "" o)
      else if bool_decide (arg = "--init-runtime") then parse_arguments rest (set_init true o)
      else if bool_decide (arg = "--host-initialized-globals") then
        parse_arguments rest (set_host true o)
      else if bool_decide (is_Some (value_option arg "" o)) then
        match rest with
        | [] => Err (RuntimeError (arg +:+ " requires a value."))
        | value :: rest =>
            match value_option arg value o with
            | Some r => o ← r; parse_arguments rest o
            | None => Err (RuntimeError ("Unknown linker option: " +:+ arg))
            end
        end
      else if negb (bool_decide (arg = "")) && (front arg =? 45) then
        Err (RuntimeError ("Unknown linker option: " +:+ arg))
      else parse_arguments rest (set_object arg o)
  end.

(** The checks on the options as a whole.  [samePath] is the file system's
    notion of two names of one file. *)
Definition check_options (samePath : string → string → bool) (o : Options) : result unit :=
  throw_if (runtime_options o && negb (initialize_runtime o))
    (RuntimeError "Runtime options require --init-runtime.");;
  throw_if (negb (Z.land (ram_origin o) 1 =? 0))
    (RuntimeError "Static RAM origin must be word-aligned.");;
  throw_if (host_globals o && initialize_runtime o)
    (RuntimeError "Choose runtime initialization or host-initialized globals, not both.");;
  throw_if (initialize_runtime o && ((stack_pointer o <? 8) || negb (Z.land (stack_pointer o) 1 =? 0)))
    (RuntimeError "Initial stack pointer must be even and within 0x0008..0xFFFE.");;
  throw_if (negb (bool_decide (assembly_filepath o = "")) && samePath (assembly_filepath o) (out_filepath o))
    (RuntimeError "Binary and assembly output paths must be different.");;
  forM_ (λ input,
    throw_if (samePath input (out_filepath o)
              || (negb (bool_decide (assembly_filepath o = "")) && samePath input (assembly_filepath o)))
      (RuntimeError "Output path must not overwrite an input object.")) (object_files o).

(** ** Loading *)

Definition checkedAddress (value : Z) (what : string) : result Z :=
  throw_if (4294967295 <? value)
    (RuntimeError ("Linker Error: " +:+ what +:+ " exceeds the address range."));;
  Ok value.

Definition with_origin (o : Options) (c : CompilerConfig) : CompilerConfig :=
  match origin o with Some a => with_start a c | None => c end.

Definition expect_target (o : Options) (c : CompilerConfig) : result unit :=
  throw_if (match expected_target o with Some t => negb (bool_decide (target c = t)) | None => false end)
    (RuntimeError "Manifest/CLI target does not match input objects.");;
  throw_if (match expected_mapping o with Some m => negb (bool_decide (mapping c = m)) | None => false end)
    (RuntimeError "Manifest/CLI mapping does not match input objects.").

(** The running totals of the input loop. *)
Record Loaded := mkLoaded {
  ld_objects : list ObjectFile;
  ld_code : Z;
  ld_data : Z;
  ld_ram : Z;
  ld_record : Z
}.

Definition load_object (o : Options) (s : Loaded) (object : ObjectFile) : result Loaded :=
  (match ld_objects s with [] => expect_target o (config object) | _ => Ok tt end);;
  throw_if (MaxObjectBytes - ld_record s <? object_size object)
    (RuntimeError "Combined link inputs exceed the supported 128 MiB record budget.");;
  (match ld_objects s with
   | [] => Ok tt
   | front :: _ =>
       throw_if (negb (config_eqb (with_origin o (config front)) (with_origin o (config object))))
         (RuntimeError "Input objects use incompatible target configurations.")
   end);;
  let s' := mkLoaded (ld_objects s ++ [object]) (ld_code s) (ld_data s) (ld_ram s)
              (ld_record s + object_size object) in
  if bool_decide (target (config object) = GSU) then
    let s' := mkLoaded (ld_objects s') (ld_code s + zlen (code_section object))
                (ld_data s + zlen (data_section object)) (ld_ram s + zlen (ram_section object))
                (ld_record s') in
    MemoryMap.validatePayload (code_start_address (with_origin o (config object))) (ld_code s') (ld_data s');;
    throw_if (65536 - ram_origin o <? ld_ram s')
      (RuntimeError "Static storage crosses a RAM bank boundary.");;
    Ok s'
  else Ok s'.

Section Files.
(** The contents of a file, or the error of opening it. *)
Context (file : string → result (list Z)).

(** [ObjectFile::read] *)
Definition read_object (path : string) : result ObjectFile :=
  bytes ← file path; read_stream path bytes.

Definition load (o : Options) : result (list ObjectFile) :=
  s ← foldM (λ s path, object ← read_object path; load_object o s object)
        (mkLoaded [] 0 0 0 0) (object_files o);
  Ok (ld_objects s).
End Files.

(** ** The configuration of the whole program *)

Definition merge_config (o : Options) (config : CompilerConfig) (object : ObjectFile)
    : result CompilerConfig :=
  let candidate := with_origin o (Object.config object) in
  throw_if (negb (config_eqb candidate config))
    (RuntimeError "Input objects use incompatible target configurations.");;
  if Bitmap.enabled (bitmap candidate) then
    throw_if (Bitmap.enabled (bitmap config) && negb (Bitmap.eqb (bitmap config) (bitmap candidate)))
      (RuntimeError "Input objects select conflicting host bitmap configurations.");;
    Ok (with_bitmap (bitmap candidate) config)
  else Ok config.

Definition program_config (o : Options) (objects : list ObjectFile) : result CompilerConfig :=
  match objects with
  | [] => Err (RuntimeError "Error: No input object files specified.")
  | front :: rest =>
      expect_target o (Object.config front);;
      let config := with_origin o (Object.config front) in
      (if bool_decide (execution o = Placement.Automatic) then Ok tt else
         throw_if (negb (bool_decide (target config = GSU)))
           (RuntimeError "Execution-memory configuration is GSU-only.");;
         let region := if bool_decide (execution o = Placement.ExecRam) then MemoryMap.Ram else MemoryMap.Rom in
         throw_if (negb (bool_decide (MemoryMap.region (code_start_address config) = region)))
           (RuntimeError "Origin does not match selected execution memory."));;
      config ← foldM (merge_config o) config rest;
      Bitmap.validate (bitmap config);;
      throw_if (initialize_runtime o && negb (bool_decide (target config = GSU)))
        (RuntimeError "Runtime initialization is only supported for GSU.");;
      Ok config
  end.

(** The near ROM bank. *)
Definition near_rom_bank (o : Options) (config : CompilerConfig) : Z :=
  match rom_bank o with
  | Some b => b
  | None => let bank := Z.shiftr (code_start_address config) 16 in if bank <=? 95 then bank else 0
  end.

(** ** Layout *)

(** [while (address % alignment) ++address;]: how often the body runs.  The
    alignments are at most 255, the largest [std::uint8_t]. *)
Fixpoint pad_loop (fuel : nat) (address alignment : Z) : nat :=
  match fuel with
  | O => O
  | S fuel => if address mod alignment =? 0 then O else S (pad_loop fuel (address + 1) alignment)
  end.
Definition padding (address alignment : Z) : nat := pad_loop 256 address alignment.

(** Static RAM: the image and where each object's part starts. *)
Definition place_ram (o : Options) (s : list Z * list Z) (object : ObjectFile)
    : result (list Z * list Z) :=
  let '(final_ram, ram_bases) := s in
  let final_ram := final_ram ++ replicate (padding (ram_origin o + zlen final_ram) (ram_alignment object)) 0 in
  throw_if ((65536 - ram_origin o <? zlen final_ram)
            || (65536 - ram_origin o - zlen final_ram <? zlen (ram_section object)))
    (RuntimeError "Static storage crosses a RAM bank boundary.");;
  Ok (final_ram ++ ram_section object, ram_bases ++ [zlen final_ram]).

(** The global symbol table: addresses, sections, whether a code symbol names
    an instruction, and whether the entry does. *)
Record Symbols := mkSymbols {
  final_addresses : gmap string Z;
  final_sections : gmap string SymbolSection;
  code_targets : gmap string bool;
  entry_is_instruction : bool
}.
Definition no_symbols : Symbols := mkSymbols ∅ ∅ ∅ false.

(** A name private to its object. *)
Definition is_local (name : string) : bool := negb (bool_decide (name = "")) && (front name =? 1).

(** [map.emplace(k, v)] keeps an entry that is there. *)
Definition emplace {A} (m : gmap string A) (k : string) (v : A) : gmap string A :=
  match m !! k with Some _ => m | None => <[k := v]> m end.

(** [0x700000u | (ram_bank << 16)] *)
Definition ram_base (o : Options) : Z := Z.lor 7340032 (Z.shiftl (ram_bank o) 16).

Definition define_ram (o : Options) (base : Z) (t : Symbols) (symbol : SymbolEntry) : result Symbols :=
  if negb (bool_decide (s_section symbol = RAM)) || is_local (s_name symbol) then Ok t else
  throw_if (bool_decide (is_Some (final_addresses t !! s_name symbol)))
    (RuntimeError ("Duplicate global symbol: " +:+ s_name symbol));;
  a ← checkedAddress (ram_origin o + base + s_offset symbol) "RAM symbol address";
  Ok (mkSymbols (emplace (final_addresses t) (s_name symbol) (Z.lor (ram_base o) a))
        (emplace (final_sections t) (s_name symbol) RAM) (code_targets t) (entry_is_instruction t)).

Definition duplicate (name : string) : error :=
  RuntimeError ("Linker Error: Symbol '" +:+ name +:+ "' defined multiple times.").

Definition define_code (o : Options) (obj : ObjectFile) (address : Z) (t : Symbols)
    (sym : SymbolEntry) : result Symbols :=
  if negb (bool_decide (s_section sym = CODE)) || is_local (s_name sym) then Ok t else
  throw_if (bool_decide (is_Some (final_addresses t !! s_name sym))) (duplicate (s_name sym));;
  a ← checkedAddress (address + s_offset sym) "code symbol address";
  let instruction := s_offset sym <? zlen (code_section obj) in
  Ok (mkSymbols (<[s_name sym := a]> (final_addresses t)) (<[s_name sym := CODE]> (final_sections t))
        (emplace (code_targets t) (s_name sym) instruction)
        (if bool_decide (s_name sym = entry_name o) then instruction else entry_is_instruction t)).

Definition define_data (address : Z) (t : Symbols) (sym : SymbolEntry) : result Symbols :=
  if negb (bool_decide (s_section sym = DATA)) || is_local (s_name sym) then Ok t else
  throw_if (bool_decide (is_Some (final_addresses t !! s_name sym))) (duplicate (s_name sym));;
  a ← checkedAddress (address + s_offset sym) "data symbol address";
  Ok (mkSymbols (<[s_name sym := a]> (final_addresses t)) (<[s_name sym := DATA]> (final_sections t))
        (code_targets t) (entry_is_instruction t)).

(** A name the pointer ABI keeps for itself. *)
Definition reserved_name (name : string) : bool :=
  bool_decide (name = NearRamBankSymbol) || bool_decide (name = NearRomBankSymbol)
  || starts_with StackLimitPrefix name.

Definition place_code (o : Options) (config : CompilerConfig) (s : list Z * list Z * Symbols)
    (obj : ObjectFile) : result (list Z * list Z * Symbols) :=
  let '(final_code, code_bases, t) := s in
  code_alignment ← alignment obj;
  let final_code := final_code ++
    replicate (padding (code_start_address config + zlen final_code) code_alignment) 1 in
  forM_ (λ sym, throw_if (reserved_name (s_name sym))
    (RuntimeError ("Symbol name is reserved for the pointer ABI: " +:+ s_name sym))) (symbol_table obj);;
  t ← foldM (define_code o obj (code_start_address config + zlen final_code)) t (symbol_table obj);
  Ok (final_code ++ code_section obj, code_bases ++ [zlen final_code], t).

Definition place_data (data_start_address : Z) (s : list Z * Symbols) (obj : ObjectFile)
    : result (list Z * Symbols) :=
  let '(final_data, t) := s in
  let final_data := final_data ++
    replicate (padding (data_start_address + zlen final_data) (data_alignment obj)) 0 in
  t ← foldM (define_data (data_start_address + zlen final_data)) t (symbol_table obj);
  Ok (final_data ++ data_section obj, t).

(** The program before its relocations are patched. *)
Record Layout := mkLayout {
  l_config : CompilerConfig;
  l_ram : list Z;
  l_ram_bases : list Z;
  l_startup : RuntimeInitialization;
  l_code : list Z;
  l_code_bases : list Z;
  l_data : list Z;
  l_data_start : Z;
  l_symbols : Symbols
}.

(** The alignment of DATA: the largest among the objects that have any. *)
Definition payload_alignment (objects : list ObjectFile) : Z :=
  foldl (λ a object, if bool_decide (data_section object = []) then a else Z.max a (data_alignment object))
    1 objects.

(** The payload bound, checked as the sections add up. *)
Definition check_sizes (config : CompilerConfig) (startup_size : Z) (objects : list ObjectFile)
    : result unit :=
  if bool_decide (target config = GSU) then
    MemoryMap.validatePayload (code_start_address config) 0 0;;
    foldM (λ s object,
      let code_bytes := fst s + zlen (code_section object) in
      let data_bytes := snd s + zlen (data_section object) in
      MemoryMap.validatePayload (code_start_address config) code_bytes data_bytes;;
      Ok (code_bytes, data_bytes)) (startup_size, 0) objects;;
    Ok tt
  else Ok tt.

Definition layout (o : Options) (config : CompilerConfig) (objects : list ObjectFile) : result Layout :=
  '(final_ram, ram_bases) ← foldM (place_ram o) ([], []) objects;
  throw_if (negb (bool_decide (final_ram = [])) && negb (initialize_runtime o) && negb (host_globals o))
    (RuntimeError "Static globals require --init-runtime or --host-initialized-globals.");;
  throw_if (negb (bool_decide (final_ram = [])) && negb (bool_decide (target config = GSU)))
    (RuntimeError "Static storage placement is currently GSU-only.");;
  startup ← (if initialize_runtime o
             then makeRuntimeInitialization (u8 (ram_bank o)) (u16 (stack_pointer o)) (u16 (ram_origin o)) final_ram
             else Ok no_init);
  check_sizes config (zlen (bytes startup)) objects;;
  t ← foldM (λ t ob, foldM (define_ram o (snd ob)) t (symbol_table (fst ob))) no_symbols
        (zip objects ram_bases);
  '(final_code, code_bases, t) ← foldM (place_code o config) (bytes startup, [], t) objects;
  let final_code := final_code ++
    replicate (padding (code_start_address config + zlen final_code) (payload_alignment objects)) 1 in
  data_start_address ← checkedAddress (code_start_address config + zlen final_code) "data section address";
  '(final_data, t) ← foldM (place_data data_start_address) ([], t) objects;
  (if bool_decide (target config = GSU)
   then MemoryMap.validatePayload (code_start_address config) (zlen final_code) (zlen final_data)
   else Ok tt);;
  Ok (mkLayout config final_ram ram_bases startup final_code code_bases final_data data_start_address t).

(** ** Overlap checks *)

(** [begin, end) of the framebuffer. *)
Definition framebuffer (config : CompilerConfig) : Z * Z :=
  let b := u32 (7340032 + Bitmap.base (bitmap config)) in (b, b + Bitmap.sizeBytes (bitmap config)).

Definition overlaps (buffer : Z * Z) (address bytes : Z) : bool :=
  negb (bytes =? 0) && (address <? snd buffer) && (fst buffer <? address + bytes).

Definition payload_size (l : Layout) : Z := zlen (l_code l) + zlen (l_data l).

Definition check_overlaps (o : Options) (l : Layout) : result unit :=
  let config := l_config l in
  (if Bitmap.enabled (bitmap config) then
     let buffer := framebuffer config in
     throw_if (overlaps buffer (code_start_address config) (payload_size l))
       (RuntimeError "Bitmap framebuffer overlaps the linked RAM payload.");;
     throw_if (overlaps buffer (7340032 + Z.shiftl (ram_bank o) 16 + ram_origin o) (zlen (l_ram l)))
       (RuntimeError "Bitmap framebuffer overlaps static RAM.");;
     throw_if (initialize_runtime o
               && overlaps buffer (7340032 + Z.shiftl (ram_bank o) 16 + stack_pointer o) 2)
       (RuntimeError "Bitmap framebuffer overlaps the initial stack word.")
   else Ok tt);;
  if bool_decide (l_ram l = []) then Ok tt else
  let ram_start := Z.lor (ram_base o) (ram_origin o) in
  let ram_end := ram_start + zlen (l_ram l) in
  let payload_end := code_start_address config + payload_size l in
  throw_if ((ram_start <? payload_end) && (code_start_address config <? ram_end))
    (RuntimeError "Static RAM overlaps the linked payload.");;
  throw_if (initialize_runtime o && (stack_pointer o <=? ram_origin o + zlen (l_ram l)))
    (RuntimeError "Static RAM must end below the initial stack pointer.").

(** The startup's jump to the entry. *)
Definition patch_entry (o : Options) (l : Layout) : result (list Z) :=
  if negb (initialize_runtime o) then Ok (l_code l) else
  let config := l_config l in
  match final_addresses (l_symbols l) !! entry_name o with
  | None => Err (RuntimeError ("Runtime entry must name an instruction in CODE: " +:+ entry_name o))
  | Some entry =>
      section ← map_at (final_sections (l_symbols l)) (entry_name o);
      throw_if (negb (bool_decide (section = CODE)) || negb (entry_is_instruction (l_symbols l)))
        (RuntimeError ("Runtime entry must name an instruction in CODE: " +:+ entry_name o));;
      MemoryMap.validateNearTarget (code_start_address config) entry;;
      code ← set_at (l_code l) (entry_patch (l_startup l)) (u8 entry);
      code ← set_at code (entry_patch (l_startup l) + 1) (u8 (Z.shiftr entry 8));
      let stack_address := Z.lor (ram_base o) (stack_pointer o) in
      let payload_end := l_data_start l + zlen (l_data l) in
      throw_if ((stack_address <? payload_end) && (code_start_address config <? stack_address + 2))
        (RuntimeError "Initial stack word overlaps the linked payload.");;
      Ok code
  end.

(** The lowest address the stack may reach, as an offset in its bank: above
    static RAM, and above what [reserve_below_stack] finds under it. *)
Definition reserve (o : Options) (floor begin end_ : Z) : result Z :=
  let base := 7340032 + Z.shiftl (ram_bank o) 16 in
  if (begin <? base + stack_pointer o) && (base <? end_) then
    a ← checkedAddress (end_ - base) "Stack reservation"; Ok (Z.max floor a)
  else Ok floor.

Definition stack_floor (o : Options) (l : Layout) : result Z :=
  let config := l_config l in
  let floor := if bool_decide (l_ram l = []) then 0
               else u32 (Z.land (ram_origin o + zlen (l_ram l) + 1) 4294967294) in
  floor ← (if Bitmap.enabled (bitmap config) then
             let buffer := framebuffer config in reserve o floor (fst buffer) (snd buffer)
           else Ok floor);
  if initialize_runtime o && bool_decide (MemoryMap.region (code_start_address config) = MemoryMap.Ram)
     && (Z.shiftr (code_start_address config) 16 =? 112 + ram_bank o)
  then reserve o floor (code_start_address config) (code_start_address config + payload_size l)
  else Ok floor.

(** ** Relocation *)

Section Relocation.
Context (o : Options) (l : Layout) (floor : Z).

(** [name.substr(1)] *)
Definition rest_of (name : string) : string :=
  match name with EmptyString => EmptyString | String _ s => s end.

Definition is_pool (name : string) : bool := starts_with ImmutablePoolPrefix name.

(** Where an object's sections were placed. *)
Record Bases := mkBases { b_ram : Z; b_code : Z; b_data : Z }.

(** The address a section of the object starts at. *)
Definition section_address (b : Bases) (s : SymbolSection) : Z :=
  match s with
  | CODE => code_start_address (l_config l) + b_code b
  | DATA => l_data_start l + b_data b
  | RAM => ram_base o + ram_origin o + b_ram b
  end.

Definition find_local (obj : ObjectFile) (name : string) : option SymbolEntry :=
  List.find (λ s, is_local (s_name s) && bool_decide (s_name s = name)) (symbol_table obj).

(** The target of a relocation: its address, its section and whether it is
    an instruction. *)
Definition resolve (obj : ObjectFile) (b : Bases) (reloc : RelocationEntry)
    : result (Z * SymbolSection * bool) :=
  let name := target_symbol_name reloc in
  if is_local name then
    match find_local obj name with
    | None => Err (RuntimeError ("Linker Error: Undefined local symbol '" +:+ rest_of name +:+ "'."))
    | Some s =>
        throw_if (is_pool name && (negb (bool_decide (s_section s = DATA))
                                   || (zlen (data_section obj) <=? s_offset s)))
          (RuntimeError "Immutable local-array pool requires a nonempty private DATA target.");;
        a ← checkedAddress (section_address b (s_section s) + s_offset s) "local branch target address";
        Ok (a, s_section s, bool_decide (s_section s = CODE) && (s_offset s <? zlen (code_section obj)))
    end
  else if starts_with StackLimitPrefix name then
    throw_if (negb (bool_decide (r_type reloc = ADDR16_RAM)) || negb (bool_decide (target (l_config l) = GSU)))
      (RuntimeError "Stack-limit symbol requires a GSU RAM relocation.");;
    required ← parseOptionNumber (String.substring (String.length StackLimitPrefix)
      (String.length name - String.length StackLimitPrefix) name) 65535;
    throw_if (65535 - required <? floor)
      (RuntimeError "Reserved RAM leaves no room for the requested stack frame.");;
    throw_if (initialize_runtime o && (stack_pointer o <? floor + required))
      (RuntimeError "Initial stack pointer leaves no room for the requested stack frame.");;
    Ok (7340032 + Z.shiftl (ram_bank o) 16 + floor + required, RAM, false)
  else if bool_decide (name = NearRamBankSymbol) || bool_decide (name = NearRomBankSymbol) then
    throw_if (negb (bool_decide (target (l_config l) = GSU)) || negb (bool_decide (r_type reloc = ADDR24_BANK)))
      (RuntimeError "Bank-context symbol requires a GSU bank-byte relocation.");;
    let bank := near_rom_bank o (l_config l) in
    Ok (if bool_decide (name = NearRamBankSymbol) then ram_base o
        else Z.lor (Z.shiftl bank 16) (if bank <=? 63 then 32768 else 0), CODE, false)
  else
    match final_addresses (l_symbols l) !! name with
    | None => Err (RuntimeError ("Linker Error: Undefined symbol '" +:+ name +:+ "'."))
    | Some a =>
        section ← map_at (final_sections (l_symbols l)) name;
        instruction ← (if bool_decide (section = CODE) then map_at (code_targets (l_symbols l)) name
                       else Ok false);
        Ok (a, section, instruction)
    end.

Definition uses_near_rom (obj : ObjectFile) : bool :=
  existsb (λ r, bool_decide (target_symbol_name r = NearRomBankSymbol)) (relocation_table obj).

(** The checks that a target fits the relocation. *)
Definition check_target (obj : ObjectFile) (reloc : RelocationEntry) (target_addr : Z)
    (target_section : SymbolSection) (instruction : bool) : result unit :=
  let origin := code_start_address (l_config l) in
  let type := r_type reloc in
  throw_if (bool_decide (type = ADDR16_JAL) && negb instruction)
    (RuntimeError ("Call relocation must target an instruction in CODE: " +:+ target_symbol_name reloc));;
  throw_if (16777215 <? target_addr)
    (RuntimeError "Relocation target exceeds the 24-bit address range.");;
  if bool_decide (target (l_config l) = GSU) then
    if bool_decide (type = ADDR16_RAM) then
      let pool := is_pool (target_symbol_name reloc) in
      throw_if (pool && (negb (bool_decide (target_section = DATA))
                         || negb (bool_decide (MemoryMap.region origin = MemoryMap.Ram))
                         || negb (bool_decide (MemoryMap.region target_addr = MemoryMap.Ram))
                         || negb (Z.shiftr origin 16 =? 112 + ram_bank o)))
        (RuntimeError "Immutable local-array pool requires copied RAM payload placement in the selected near RAM bank.");;
      throw_if (negb (bool_decide (target_section = RAM)) && negb pool)
        (RuntimeError "RAM relocation must target static RAM or a stack limit.");;
      throw_if (negb (Z.shiftr target_addr 16 =? 112 + ram_bank o))
        (RuntimeError "RAM relocation target is outside the near RAM bank.")
    else if bool_decide (type = ADDR16_JAL) || bool_decide (type = ADDR16_IWT) then
      throw_if (bool_decide (type = ADDR16_IWT) && bool_decide (target_section = DATA) && uses_near_rom obj
                && (negb (bool_decide (MemoryMap.region target_addr = MemoryMap.Rom))
                    || negb (Z.shiftr target_addr 16 =? near_rom_bank o (l_config l))))
        (RuntimeError "Near ROM data relocation does not match the selected ROM bank; separate RAM-code/ROM-data placement is unsupported.");;
      MemoryMap.validateNearTarget origin target_addr
    else MemoryMap.validateAddress target_addr
  else
    throw_if ((bool_decide (type = ADDR16_JAL) || bool_decide (type = ADDR16_IWT)) && (65535 <? target_addr))
      (RuntimeError "Relocation target exceeds the 16-bit address range.").

(** Writing the operand after the opcode at [index]. *)
Definition patch (bytes : list Z) (index : Z) (type : RelocationType) (target_addr : Z) : list Z :=
  let i := Z.to_nat index in
  match type with
  | ADDR24_BANK => <[S i := Z.land (Z.shiftr target_addr 16) 255]> bytes
  | _ => <[S (S i) := Z.land (Z.shiftr target_addr 8) 255]> (<[S i := Z.land target_addr 255]> bytes)
  end.

Definition relocate (obj : ObjectFile) (b : Bases) (s : list Z * list Z) (reloc : RelocationEntry)
    : result (list Z * list Z) :=
  let '(final_code, final_data) := s in
  '(target_addr, target_section, instruction) ← resolve obj b reloc;
  check_target obj reloc target_addr target_section instruction;;
  let in_code := bool_decide (section_to_patch reloc = CODE) in
  let section := if in_code then final_code else final_data in
  let index := (if in_code then b_code b else b_data b) + patch_offset reloc in
  throw_if (zlen section <? index + patch_size (r_type reloc))
    (RuntimeError "Linker Error: relocation extends beyond its section.");;
  let section := patch section index (r_type reloc) target_addr in
  Ok (if in_code then (section, final_data) else (final_code, section)).

(** The relocations of one object, and the DATA base of the next. *)
Definition relocate_object (s : list Z * list Z * Z) (ob : nat * ObjectFile)
    : result (list Z * list Z * Z) :=
  let '(sections, data_base) := s in
  let '(current_object, obj) := ob in
  code_base ← at_ (l_code_bases l) (Z.of_nat current_object);
  let data_base := data_base
    + Z.of_nat (padding (l_data_start l + data_base) (data_alignment obj)) in
  b_ram ← at_ (l_ram_bases l) (Z.of_nat current_object);
  sections ← foldM (relocate obj (mkBases b_ram code_base data_base)) sections (relocation_table obj);
  Ok (sections, data_base + zlen (data_section obj)).
End Relocation.

Record Linked := mkLinked {
  k_code : list Z;
  k_data : list Z;
  k_layout : Layout;
  k_floor : Z
}.

Definition final_rom (k : Linked) : list Z := k_code k ++ k_data k.

(** From the objects to the patched payload. *)
Definition link (o : Options) (objects : list ObjectFile) : result Linked :=
  config ← program_config o objects;
  l ← layout o config objects;
  check_overlaps o l;;
  code ← patch_entry o l;
  floor ← stack_floor o l;
  '(sections, _) ← foldM (relocate_object o l floor) (code, l_data l, 0) (indexed objects);
  Ok (mkLinked (fst sections) (snd sections) l floor).

(** [runLinker] up to the output: parse, check, load and link. *)
Definition runLinker (samePath : string → string → bool) (file : string → result (list Z))
    (arguments : list string) : result (Linked + Z) :=
  if bool_decide (arguments = []) then Ok (inr 1) else
  parsed ← parse_arguments arguments default_options;
  match parsed with
  | inr status => Ok (inr status)
  | inl o =>
      check_options samePath o;;
      if bool_decide (object_files o = []) then Ok (inr 1) else
      objects ← load file o;
      k ← link o objects;
      Ok (inl k)
  end.
