(* ===== verification/LinkSound.v ===== *)
(** * LinkSound: what a successful link guarantees

    The images the linker builds contain every section where the bases say
    ([Placed]); the symbol table maps every global name to its one definition;
    and the relocation pass writes the address of each target into its operand
    and nothing else. *)

From S2P Require Import Prelude Target Literal Object Startup Link.

(* ------------------------------------------------------------------ *)
(** ** Padding *)

Lemma pad_loop_spec fuel address alignment :
  0 < alignment → (- address) mod alignment ≤ Z.of_nat fuel →
  Z.of_nat (pad_loop fuel address alignment) = (- address) mod alignment.
Proof.
  intros Ha. revert address. induction fuel as [|fuel IH]; intros address Hf; cbn [pad_loop].
  - pose proof (Z.mod_pos_bound (- address) alignment Ha). lia.
  - destruct (Z.eqb_spec (address mod alignment) 0) as [E|E].
    + symmetry. apply Z.mod_opp_l_z; lia.
    + assert ((- (address + 1)) mod alignment = (- address) mod alignment - 1) as Hs.
      { pose proof (Z.mod_pos_bound address alignment Ha). rewrite (Z.mod_opp_l_nz address) by lia.
        destruct (Z.eq_dec (address mod alignment) (alignment - 1)) as [E1|E1].
        - rewrite Z.mod_opp_l_z; [lia|lia|]. rewrite <- Zplus_mod_idemp_l, E1.
          replace (alignment - 1 + 1) with alignment by lia. apply Z.mod_same. lia.
        - assert ((address + 1) mod alignment = address mod alignment + 1) as E2.
          { rewrite <- Zplus_mod_idemp_l. apply Z.mod_small. lia. }
          rewrite Z.mod_opp_l_nz by lia. lia. }
      rewrite Nat2Z.inj_succ, IH, Hs by lia. lia.
Qed.

(** The loop stops at the next multiple of the alignment. *)
Lemma padding_spec address alignment : 0 < alignment ≤ 256 →
  Z.of_nat (padding address alignment) = (- address) mod alignment.
Proof.
  intros Ha. apply pad_loop_spec; [lia|]. pose proof (Z.mod_pos_bound (- address) alignment). lia.
Qed.

Lemma padding_aligned address alignment : 0 < alignment ≤ 256 →
  (address + Z.of_nat (padding address alignment)) mod alignment = 0.
Proof.
  intros Ha. rewrite padding_spec by done. rewrite Zplus_mod_idemp_r.
  replace (address + - address) with 0 by lia. apply Z.mod_0_l. lia.
Qed.

(* ------------------------------------------------------------------ *)
(** ** Images *)

(** The sections [secs] lie in the image at [bases], in order and without
    overlap. *)
Record Placed (img : list Z) (bases : list Z) (secs : list (list Z)) : Prop := {
  pl_length : length bases = length secs;
  pl_bound i b s : bases !! i = Some b → secs !! i = Some s → 0 ≤ b ∧ b + zlen s ≤ zlen img;
  pl_content i b s j x : bases !! i = Some b → secs !! i = Some s → s !! j = Some x →
    img !! (Z.to_nat b + j)%nat = Some x;
  pl_order i j b s b' : (i < j)%nat → bases !! i = Some b → secs !! i = Some s →
    bases !! j = Some b' → b + zlen s ≤ b'
}.

Lemma Placed_nil img : Placed img [] [].
Proof. split; done. Qed.

Lemma Placed_app img tail bases secs : Placed img bases secs → Placed (img ++ tail) bases secs.
Proof.
  intros [Hl Hb Hc Ho]. split; [done| | |done].
  - intros i b s H1 H2. specialize (Hb i b s H1 H2). rewrite zlen_app. pose proof (zlen_nonneg tail). lia.
  - intros i b s j x H1 H2 H3. apply lookup_app_l_Some. by eapply Hc.
Qed.

Lemma lookup_snoc_cases {A} (l : list A) x i y :
  (l ++ [x]) !! i = Some y → (l !! i = Some y ∧ (i < length l)%nat) ∨ (i = length l ∧ y = x).
Proof.
  intros H. apply lookup_app_Some in H as [H|[H1 H2]].
  - left. split; [done|]. by apply lookup_lt_Some in H.
  - right. destruct (i - length l)%nat as [|k] eqn:E; cbn in H2; [|done]. injection H2 as <-. split; [lia|done].
Qed.

Lemma Placed_snoc img bases secs s :
  Placed img bases secs → Placed (img ++ s) (bases ++ [zlen img]) (secs ++ [s]).
Proof.
  intros HP. destruct (Placed_app _ s _ _ HP) as [_ Hb Hc _]. destruct HP as [Hl Hb0 _ Ho].
  assert (∀ i b s', (bases ++ [zlen img]) !! i = Some b → (secs ++ [s]) !! i = Some s' →
    (bases !! i = Some b ∧ secs !! i = Some s') ∨ (i = length bases ∧ b = zlen img ∧ s' = s)) as Hcases.
  { intros i b s' [[H1 ?]|[? ->]]%lookup_snoc_cases [[H2 ?]|[? ->]]%lookup_snoc_cases; auto; lia. }
  split.
  - rewrite !length_app. cbn. lia.
  - intros i b s' H1 H2. destruct (Hcases _ _ _ H1 H2) as [[??]|(? & -> & ->)]; [eauto|].
    rewrite zlen_app. pose proof (zlen_nonneg img). lia.
  - intros i b s' j x H1 H2 Hx. destruct (Hcases _ _ _ H1 H2) as [[??]|(? & -> & ->)]; [eauto|].
    rewrite lookup_app_r by (unfold zlen; lia). rewrite <- Hx. f_equal. unfold zlen. lia.
  - intros i j b s' b' Hij H1 H2 H3.
    destruct (Hcases _ _ _ H1 H2) as [[H4 H5]|(-> & -> & ->)].
    + apply lookup_snoc_cases in H3 as [[H3 _]|[_ ->]]; [eauto|]. by destruct (Hb0 i b s' H4 H5).
    + apply lookup_lt_Some in H3. rewrite length_app in H3. cbn in H3. lia.
Qed.

(** A position of one section is not one of another. *)
Lemma Placed_disjoint img bases secs i j b b' s s' x y :
  Placed img bases secs → i ≠ j →
  bases !! i = Some b → secs !! i = Some s → bases !! j = Some b' → secs !! j = Some s' →
  0 ≤ x < zlen s → 0 ≤ y < zlen s' → b + x ≠ b' + y.
Proof.
  intros HP Hij H1 H2 H3 H4 Hx Hy. destruct (Nat.lt_total i j) as [Hlt|[E|Hlt]]; [|done|].
  - pose proof (pl_order _ _ _ HP i j b s b' Hlt H1 H2 H3). lia.
  - pose proof (pl_order _ _ _ HP j i b' s' b Hlt H3 H4 H1). lia.
Qed.

(* ------------------------------------------------------------------ *)
(** ** Writes to an image *)

Definition write1 (img : list Z) (w : nat * Z) : list Z := <[w.1 := w.2]> img.
Definition writes (img : list Z) (ws : list (nat * Z)) : list Z := foldl write1 img ws.

Lemma writes_app img ws ws' : writes img (ws ++ ws') = writes (writes img ws) ws'.
Proof. apply foldl_app. Qed.

Lemma writes_length img ws : length (writes img ws) = length img.
Proof.
  revert img. induction ws as [|w ws IH]; intros img; cbn; [done|].
  unfold writes in IH. rewrite IH. apply length_insert.
Qed.

Lemma writes_other img ws p : p ∉ ws.*1 → writes img ws !! p = img !! p.
Proof.
  revert img. induction ws as [|w ws IH]; intros img Hp; cbn; [done|].
  cbn in Hp. apply not_elem_of_cons in Hp as [H1 H2]. unfold writes in IH. rewrite IH by done.
  apply list_lookup_insert_ne. congruence.
Qed.

Lemma writes_here img ws p v :
  NoDup ws.*1 → (p, v) ∈ ws → (p < length img)%nat → writes img ws !! p = Some v.
Proof.
  revert img. induction ws as [|w ws IH]; intros img Hn Hin Hp; [by apply elem_of_nil in Hin|].
  cbn in Hn. apply NoDup_cons in Hn as [Hw Hn]. apply elem_of_cons in Hin as [<-|Hin].
  - change (writes img ((p, v) :: ws)) with (writes (<[p:=v]> img) ws).
    rewrite writes_other by done. by apply list_lookup_insert_eq.
  - apply IH; [done|done|]. unfold write1. by rewrite length_insert.
Qed.

(* ------------------------------------------------------------------ *)
(** ** The symbol table *)

(** A definition: name, address, section, and whether it is an instruction. *)
Definition definition : Type := string * (Z * SymbolSection * bool).

(** The table holds exactly the definitions processed so far, one per name. *)
Record Table (defs : list definition) (t : Symbols) : Prop := {
  tb_unique : NoDup defs.*1;
  tb_sound n a : final_addresses t !! n = Some a → ∃ sec ins, (n, (a, sec, ins)) ∈ defs;
  tb_complete n a sec ins : (n, (a, sec, ins)) ∈ defs →
    final_addresses t !! n = Some a ∧ final_sections t !! n = Some sec;
  tb_targets n a ins : (n, (a, CODE, ins)) ∈ defs → code_targets t !! n = Some ins;
  tb_defined n : is_Some (final_sections t !! n) ∨ is_Some (code_targets t !! n) →
    is_Some (final_addresses t !! n)
}.

Lemma Table_nil : Table [] no_symbols.
Proof.
  split.
  - constructor.
  - intros n a H. cbn in H. by rewrite lookup_empty in H.
  - by intros n a sec ins ?%elem_of_nil.
  - by intros n a ins ?%elem_of_nil.
  - intros n. cbn. rewrite !lookup_empty. intros [[? [=]]|[? [=]]].
Qed.

Lemma elem_of_fst {A B} (l : list (A * B)) a b : (a, b) ∈ l → a ∈ l.*1.
Proof. intros H. apply list_elem_of_fmap. by exists (a, b). Qed.

(** Adding a definition of a new name. *)
Lemma Table_snoc defs t n a sec ins tgt e :
  Table defs t → final_addresses t !! n = None →
  tgt = (if bool_decide (sec = CODE) then <[n := ins]> (code_targets t) else code_targets t) →
  Table (defs ++ [(n, (a, sec, ins))])
    (mkSymbols (<[n := a]> (final_addresses t)) (<[n := sec]> (final_sections t)) tgt e).
Proof.
  intros [Hu Hs Hc Ht Hd] Hn ->.
  assert (n ∉ defs.*1) as Hnew.
  { intros ([n' [[a' sec'] ins']] & -> & Hin)%list_elem_of_fmap. apply Hc in Hin as [Hin _].
    cbn in Hn. by rewrite Hn in Hin. }
  assert (∀ n' v, (n', v) ∈ defs → n' ≠ n) as Hne by (intros n' v Hin ->; by apply elem_of_fst in Hin).
  split; cbn [final_addresses final_sections code_targets].
  - rewrite fmap_app. apply NoDup_app. split; [done|]. split; [|apply NoDup_singleton].
    intros x Hx ->%list_elem_of_singleton. by apply Hnew.
  - intros n' a' H. destruct (decide (n = n')) as [<-|].
    + rewrite lookup_insert_eq in H. injection H as <-. exists sec, ins. apply elem_of_app. right.
      by apply list_elem_of_singleton.
    + rewrite lookup_insert_ne in H by done. apply Hs in H as (sec' & ins' & H).
      exists sec', ins'. apply elem_of_app. by left.
  - intros n' a' sec' ins' [H|H]%elem_of_app.
    + specialize (Hne _ _ H). rewrite !lookup_insert_ne by congruence. eauto.
    + apply list_elem_of_singleton in H. injection H as -> -> -> ->. by rewrite !lookup_insert_eq.
  - intros n' a' ins' [H|H]%elem_of_app.
    + specialize (Hne _ _ H). destruct (bool_decide _); rewrite ?lookup_insert_ne by congruence; eauto.
    + apply list_elem_of_singleton in H. injection H as -> -> <- ->.
      rewrite bool_decide_true by done. by rewrite lookup_insert_eq.
  - intros n' H. destruct (decide (n = n')) as [<-|]; [rewrite lookup_insert_eq; eauto|].
    rewrite lookup_insert_ne by done. apply Hd.
    destruct H as [H|H]; [left; by rewrite lookup_insert_ne in H | right].
    destruct (bool_decide _); [by rewrite lookup_insert_ne in H | done].
Qed.

(** The definitions one object contributes to a section. *)
Definition object_defs (sec : SymbolSection) (address : SymbolEntry → Z) (obj : ObjectFile)
    : list definition :=
  omap (λ s, if bool_decide (s_section s = sec) && negb (is_local (s_name s))
             then Some (s_name s, (address s, sec,
                          bool_decide (sec = CODE) && (s_offset s <? zlen (code_section obj))))
             else None) (symbol_table obj).

(** How one of the three definition loops extends the table. *)
Lemma define_fold (step : Symbols → SymbolEntry → result Symbols)
    (g : SymbolEntry → option definition) :
  (∀ defs t s t', Table defs t → step t s = Ok t' →
     Table (defs ++ match g s with Some d => [d] | None => [] end) t') →
  ∀ l defs t t', Table defs t → foldM step t l = Ok t' → Table (defs ++ omap g l) t'.
Proof.
  intros Hstep l. induction l as [|s l IH]; intros defs t t' HT H; cbn [foldM] in H.
  - injection H as <-. cbn. by rewrite app_nil_r.
  - apply result_bind_ok in H as (t1 & H1 & H2). apply Hstep with (1 := HT) in H1.
    specialize (IH _ _ _ H1 H2). cbn [omap list_omap]. rewrite <- app_assoc in IH.
    by destruct (g s).
Qed.

Lemma emplace_none {A} (m : gmap string A) k v : m !! k = None → emplace m k v = <[k := v]> m.
Proof. unfold emplace. by intros ->. Qed.

Lemma Table_fresh defs t n : Table defs t → final_addresses t !! n = None →
  final_sections t !! n = None ∧ code_targets t !! n = None.
Proof.
  intros HT Hn. pose proof (tb_defined _ _ HT n) as Hd. rewrite Hn in Hd.
  destruct (final_sections t !! n), (code_targets t !! n); try done;
    (assert (is_Some (@None Z)) as [? [=]] by (apply Hd; eauto)).
Qed.

Lemma define_ram_table o base obj defs t t' :
  Table defs t → foldM (define_ram o base) t (symbol_table obj) = Ok t' →
  Table (defs ++ object_defs RAM (λ s, Z.lor (ram_base o) (ram_origin o + base + s_offset s)) obj) t'.
Proof.
  intros HT. apply define_fold; [|done]. clear. intros defs t s t' HT H. unfold define_ram in H.
  destruct (bool_decide_reflect (s_section s = RAM)) as [Es|]; cbn [negb orb andb] in *;
    [|injection H as <-; by rewrite app_nil_r].
  destruct (is_local (s_name s)); cbn [negb] in *; [injection H as <-; by rewrite app_nil_r|].
  apply result_bind_ok in H as ([] & Hn%throw_if_ok & H).
  apply result_bind_ok in H as (a & Ha & [= <-]). bool_facts. apply eq_None_not_Some in Hn.
  apply result_bind_ok in Ha as ([] & _ & [= <-]).
  destruct (Table_fresh _ _ _ HT Hn) as [Hsn _]. rewrite !emplace_none by done.
  by apply Table_snoc.
Qed.

Lemma define_code_table o obj address defs t t' :
  Table defs t → foldM (define_code o obj address) t (symbol_table obj) = Ok t' →
  Table (defs ++ object_defs CODE (λ s, address + s_offset s) obj) t'.
Proof.
  intros HT. apply define_fold; [|done]. clear. intros defs t s t' HT H. unfold define_code in H.
  destruct (bool_decide_reflect (s_section s = CODE)) as [Es|]; cbn [negb orb andb] in *;
    [|injection H as <-; by rewrite app_nil_r].
  destruct (is_local (s_name s)); cbn [negb] in *; [injection H as <-; by rewrite app_nil_r|].
  apply result_bind_ok in H as ([] & Hn%throw_if_ok & H).
  apply result_bind_ok in H as (a & Ha & [= <-]). bool_facts. apply eq_None_not_Some in Hn.
  apply result_bind_ok in Ha as ([] & _ & [= <-]).
  destruct (Table_fresh _ _ _ HT Hn) as [_ Htn]. rewrite emplace_none by done.
  by apply Table_snoc.
Qed.

Lemma define_data_table obj address defs t t' :
  Table defs t → foldM (define_data address) t (symbol_table obj) = Ok t' →
  Table (defs ++ object_defs DATA (λ s, address + s_offset s) obj) t'.
Proof.
  intros HT. apply define_fold; [|done]. clear. intros defs t s t' HT H. unfold define_data in H.
  destruct (bool_decide_reflect (s_section s = DATA)) as [Es|]; cbn [negb orb andb] in *;
    [|injection H as <-; by rewrite app_nil_r].
  destruct (is_local (s_name s)); cbn [negb] in *; [injection H as <-; by rewrite app_nil_r|].
  apply result_bind_ok in H as ([] & Hn%throw_if_ok & H).
  apply result_bind_ok in H as (a & Ha & [= <-]). bool_facts. apply eq_None_not_Some in Hn.
  apply result_bind_ok in Ha as ([] & _ & [= <-]).
  by apply Table_snoc.
Qed.

(* ------------------------------------------------------------------ *)
(** ** The layout loops *)

(** The symbols the objects contribute to a section, by the objects' bases. *)
Definition section_defs (sec : SymbolSection) (address : Z → SymbolEntry → Z)
    (objs : list ObjectFile) (bases : list Z) : list definition :=
  mjoin (zip_with (λ obj b, object_defs sec (address b) obj) objs bases).

Lemma place_ram_fold o objs ram bases secs ram' bases' :
  Placed ram bases secs → foldM (place_ram o) (ram, bases) objs = Ok (ram', bases') →
  ∃ new, bases' = bases ++ new ∧ Placed ram' bases' (secs ++ (ram_section <$> objs))
    ∧ Forall2 (λ b obj, 0 < ram_alignment obj ≤ 256 → (ram_origin o + b) mod ram_alignment obj = 0) new objs
    ∧ (zlen ram ≤ 65536 - ram_origin o → zlen ram' ≤ 65536 - ram_origin o).
Proof.
  revert ram bases secs. induction objs as [|obj objs IH]; intros ram bases secs HP H; cbn [foldM] in H.
  - injection H as <- <-. exists []. cbn. rewrite !app_nil_r. auto.
  - apply result_bind_ok in H as ([ram1 bases1] & H1 & H2). unfold place_ram in H1. cbv zeta in H1.
    set (pad := replicate _ 0) in H1. apply result_bind_ok in H1 as ([] & Hc%throw_if_ok & [= <- <-]).
    apply (IH _ _ (secs ++ [ram_section obj])) in H2 as (new & -> & HP' & Ha & Hz);
      [|by apply Placed_snoc, Placed_app].
    exists (zlen (ram ++ pad) :: new). rewrite <- (app_assoc secs) in HP'. rewrite <- !app_assoc in *. split; [done|]. split; [done|]. split.
    + constructor; [|done]. intros Hal. rewrite zlen_app, Z.add_assoc.
      unfold pad at 1, zlen at 2. rewrite length_replicate. by apply padding_aligned.
    + intros _. apply Hz. bool_facts. rewrite app_assoc, zlen_app. lia.
Qed.

Lemma place_code_fold o config objs code bases secs t defs code' bases' t' :
  Placed code bases secs → Table defs t →
  foldM (place_code o config) (code, bases, t) objs = Ok (code', bases', t') →
  ∃ new, bases' = bases ++ new ∧ Placed code' bases' (secs ++ (code_section <$> objs))
    ∧ Table (defs ++ section_defs CODE (λ b s, code_start_address config + b + s_offset s) objs new) t'
    ∧ Forall2 (λ b obj, ∃ a, alignment obj = Ok a ∧ (code_start_address config + b) mod a = 0
                 ∧ Forall (λ s, reserved_name (s_name s) = false) (symbol_table obj)) new objs
    ∧ Forall (λ b, zlen code ≤ b) new
    ∧ ∃ tail, code' = code ++ tail.
Proof.
  revert code bases secs t defs.
  induction objs as [|obj objs IH]; intros code bases secs t defs HP HT H; cbn [foldM] in H.
  - injection H as <- <- <-. exists []. cbn. rewrite !app_nil_r. do 3 (split; [done|]). do 2 (split; [constructor|]).
    exists []. by rewrite app_nil_r.
  - apply result_bind_ok in H as ([[code1 bases1] t1] & H1 & H2). unfold place_code in H1.
    apply result_bind_ok in H1 as (al & Hal & H1). cbv zeta in H1. set (pad := replicate _ 1) in H1.
    apply result_bind_ok in H1 as ([] & Hres & H1). apply result_bind_ok in H1 as (t2 & Ht & [= <- <- <-]).
    apply (define_code_table _ _ _ _ _ _ HT) in Ht.
    apply (IH _ _ (secs ++ [code_section obj]) _ _) with (2 := Ht) in H2
      as (new & -> & HP' & HT' & Ha & Hb & tail & ->); [|by apply Placed_snoc, Placed_app].
    exists (zlen (code ++ pad) :: new). rewrite <- (app_assoc secs) in HP'. rewrite <- !app_assoc in HP' |- *.
    split; [done|]. split; [done|]. split; [|split; [|split]].
    + unfold section_defs in *. cbn [zip_with mjoin list_join foldr]. by rewrite <- app_assoc in HT'.
    + constructor; [|done]. exists al. split; [done|]. split.
      * assert (al = 1 ∨ al = 16) as Hcase.
        { unfold alignment in Hal. destruct (List.find _ _); [|injection Hal; auto].
          apply result_bind_ok in Hal as ([] & _ & [= <-]). auto. }
        rewrite zlen_app, Z.add_assoc. unfold pad at 1, zlen at 2. rewrite length_replicate.
        apply padding_aligned. lia.
      * apply forM_ok in Hres. eapply Forall_impl; [exact Hres|]. by intros s ?%throw_if_ok.
    + pose proof (zlen_nonneg pad). pose proof (zlen_nonneg (code_section obj)). rewrite !zlen_app in *.
      constructor; [lia|]. eapply Forall_impl; [exact Hb|]. intros b' Hb'. cbv beta in Hb' |- *. lia.
    + exists (pad ++ code_section obj ++ tail). by rewrite !app_assoc.
Qed.

(** The DATA bases, which the layout and the relocation pass both compute. *)
Fixpoint data_bases (start base : Z) (objs : list ObjectFile) : list Z :=
  match objs with
  | [] => []
  | obj :: objs =>
      let b := base + Z.of_nat (padding (start + base) (data_alignment obj)) in
      b :: data_bases start (b + zlen (data_section obj)) objs
  end.

Lemma place_data_fold start objs data bases secs t defs data' t' :
  Placed data bases secs → Table defs t →
  foldM (place_data start) (data, t) objs = Ok (data', t') →
  let new := data_bases start (zlen data) objs in
  Placed data' (bases ++ new) (secs ++ (data_section <$> objs))
  ∧ Table (defs ++ section_defs DATA (λ b s, start + b + s_offset s) objs new) t'
  ∧ Forall2 (λ b obj, 0 < data_alignment obj ≤ 256 → (start + b) mod data_alignment obj = 0) new objs.
Proof.
  revert data bases secs t defs.
  induction objs as [|obj objs IH]; intros data bases secs t defs HP HT H; cbn [foldM] in H.
  - injection H as <- <-. cbn. rewrite !app_nil_r. by do 2 (split; [done|]).
  - apply result_bind_ok in H as ([data1 t1] & H1 & H2). unfold place_data in H1.
    cbv zeta in H1. set (pad := replicate _ 0) in H1.
    apply result_bind_ok in H1 as (t2 & Ht & [= <- <-]).
    apply (define_data_table _ _ _ _ _ HT) in Ht.
    assert (zlen (data ++ pad) = zlen data + Z.of_nat (padding (start + zlen data) (data_alignment obj))) as Eb.
    { rewrite zlen_app. unfold pad at 1, zlen at 2. by rewrite length_replicate. }
    apply (IH _ (bases ++ [zlen (data ++ pad)]) (secs ++ [data_section obj]) _ _) with (2 := Ht) in H2
      as (HP' & HT' & Ha); [|by apply Placed_snoc, Placed_app].
    rewrite (zlen_app (data ++ pad)), Eb in HP', HT', Ha. cbn [data_bases]. cbv zeta.
    rewrite <- (app_assoc secs), <- !app_assoc in HP'. split; [done|]. split.
    + unfold section_defs in *. cbn [zip_with mjoin list_join foldr]. by rewrite <- app_assoc in HT'.
    + constructor; [|done]. intros Hal. rewrite Z.add_assoc. by apply padding_aligned.
Qed.

Lemma define_all_ram o objs bases defs t t' :
  Table defs t → length bases = length objs →
  foldM (λ t ob, foldM (define_ram o (snd ob)) t (symbol_table (fst ob))) t (zip objs bases) = Ok t' →
  Table (defs ++ section_defs RAM (λ b s, Z.lor (ram_base o) (ram_origin o + b + s_offset s)) objs bases) t'.
Proof.
  revert bases defs t. induction objs as [|obj objs IH]; intros [|b bases] defs t HT Hl H; try done.
  - injection H as <-. by rewrite app_nil_r.
  - cbn [zip_with foldM] in H. apply result_bind_ok in H as (t1 & H1 & H2). cbn [fst snd] in H1.
    apply (define_ram_table _ _ _ _ _ _ HT) in H1. injection Hl as Hl.
    apply (IH _ _ _ H1 Hl) in H2. unfold section_defs in *. cbn [zip_with mjoin list_join foldr].
    by rewrite <- app_assoc in H2.
Qed.

(** ** What the layout establishes *)

Definition data_bases_of (l : Layout) (objects : list ObjectFile) : list Z :=
  data_bases (l_data_start l) 0 objects.

(** Every definition of the program, RAM before CODE before DATA. *)
Definition program_defs (o : Options) (l : Layout) (objects : list ObjectFile) : list definition :=
  section_defs RAM (λ b s, Z.lor (ram_base o) (ram_origin o + b + s_offset s)) objects (l_ram_bases l)
  ++ section_defs CODE (λ b s, code_start_address (l_config l) + b + s_offset s) objects (l_code_bases l)
  ++ section_defs DATA (λ b s, l_data_start l + b + s_offset s) objects (data_bases_of l objects).

Record LayoutOk (o : Options) (objects : list ObjectFile) (l : Layout) : Prop := {
  lo_ram : Placed (l_ram l) (l_ram_bases l) (ram_section <$> objects);
  lo_code : Placed (l_code l) (l_code_bases l) (code_section <$> objects);
  lo_data : Placed (l_data l) (data_bases_of l objects) (data_section <$> objects);
  lo_table : Table (program_defs o l objects) (l_symbols l);
  lo_data_start : l_data_start l = code_start_address (l_config l) + zlen (l_code l);
  lo_startup : if initialize_runtime o
    then makeRuntimeInitialization (u8 (ram_bank o)) (u16 (stack_pointer o)) (u16 (ram_origin o)) (l_ram l)
         = Ok (l_startup l)
    else l_startup l = no_init;
  lo_prefix : ∃ tail, l_code l = bytes (l_startup l) ++ tail;
  lo_code_after : Forall (λ b, zlen (bytes (l_startup l)) ≤ b) (l_code_bases l);
  lo_payload : target (l_config l) = GSU →
    MemoryMap.validatePayload (code_start_address (l_config l)) (zlen (l_code l)) (zlen (l_data l)) = Ok tt;
  lo_ram_size : 0 ≤ ram_origin o ≤ 65536 → ram_origin o + zlen (l_ram l) ≤ 65536;
  lo_ram_aligned : Forall2 (λ b obj, 0 < ram_alignment obj ≤ 256 → (ram_origin o + b) mod ram_alignment obj = 0)
    (l_ram_bases l) objects;
  lo_code_aligned : Forall2 (λ b obj, ∃ a, alignment obj = Ok a
      ∧ (code_start_address (l_config l) + b) mod a = 0
      ∧ Forall (λ s, reserved_name (s_name s) = false) (symbol_table obj)) (l_code_bases l) objects;
  lo_data_aligned : Forall2 (λ b obj, 0 < data_alignment obj ≤ 256 →
      (l_data_start l + b) mod data_alignment obj = 0) (data_bases_of l objects) objects
}.

Lemma layout_ok o config objects l :
  layout o config objects = Ok l → l_config l = config ∧ LayoutOk o objects l.
Proof.
  intros H. unfold layout in H.
  apply result_bind_ok in H as ([ram ram_bases] & Hram & H).
  apply result_bind_ok in H as ([] & _ & H). apply result_bind_ok in H as ([] & _ & H).
  apply result_bind_ok in H as (startup & Hst & H). apply result_bind_ok in H as ([] & _ & H).
  apply result_bind_ok in H as (t0 & Ht0 & H).
  apply result_bind_ok in H as ([[code code_bases] t1] & Hcode & H). cbv zeta in H.
  apply result_bind_ok in H as (start & Hstart & H).
  apply result_bind_ok in H as ([data t2] & Hdata & H).
  apply result_bind_ok in H as ([] & Hpay & [= <-]).
  apply result_bind_ok in Hstart as ([] & _ & [= <-]).
  set (final := code ++ _) in *.
  apply (place_ram_fold _ _ _ _ []) in Hram as (new & -> & Hram & Hra & Hrs); [|apply Placed_nil].
  cbn [app] in *. pose proof (pl_length _ _ _ Hram) as Hlen. rewrite length_fmap in Hlen.
  apply (define_all_ram _ _ _ _ _ _ Table_nil Hlen) in Ht0.
  apply (place_code_fold _ _ _ _ _ [] _ _ _ _ _ (Placed_nil _) Ht0) in Hcode
    as (newc & -> & Hcode & Ht1 & Hca & Hcb & tail & ->).
  apply (place_data_fold _ _ _ [] [] _ _ _ _ (Placed_nil _) Ht1) in Hdata as (Hdata & Ht2 & Hda).
  cbn [app] in *. split; [done|].
  split; cbn [l_config l_ram l_ram_bases l_startup l_code l_code_bases l_data l_data_start l_symbols]; try done.
  - by apply Placed_app.
  - unfold program_defs. by rewrite app_assoc.
  - destruct (initialize_runtime o); [done | by injection Hst].
  - exists (tail ++ replicate (padding (code_start_address config + zlen (bytes startup ++ tail))
      (payload_alignment objects)) 1). unfold final. by rewrite app_assoc.
  - intros E. by rewrite bool_decide_true in Hpay.
  - intros Ho. change (zlen (@nil Z)) with 0 in Hrs. lia.
Qed.

(* ------------------------------------------------------------------ *)
(** ** The relocation pass *)

Definition patch_writes (index : Z) (type : RelocationType) (addr : Z) : list (nat * Z) :=
  let i := Z.to_nat index in
  match type with
  | ADDR24_BANK => [(S i, Z.land (Z.shiftr addr 16) 255)]
  | _ => [(S i, Z.land addr 255); (S (S i), Z.land (Z.shiftr addr 8) 255)]
  end.

Lemma patch_as_writes img index type addr : patch img index type addr = writes img (patch_writes index type addr).
Proof. by destruct type. Qed.

Section Pass.
Context (o : Options) (l : Layout) (floor : Z).

Definition target_of_reloc (obj : ObjectFile) (b : Bases) (r : RelocationEntry) : Z :=
  match resolve o l floor obj b r with Ok (a, _, _) => a | Err _ => 0 end.

(** The base, in its image, of the section a relocation patches. *)
Definition patch_base (in_code : bool) (b : Bases) : Z := if in_code then b_code b else b_data b.

Definition reloc_writes (in_code : bool) (obj : ObjectFile) (b : Bases) (r : RelocationEntry)
    : list (nat * Z) :=
  if Bool.eqb in_code (bool_decide (section_to_patch r = CODE))
  then patch_writes (patch_base in_code b + patch_offset r) (r_type r) (target_of_reloc obj b r)
  else [].

Definition object_writes (in_code : bool) (obj : ObjectFile) (b : Bases) : list (nat * Z) :=
  mjoin (reloc_writes in_code obj b <$> relocation_table obj).

(** A relocation the pass went through. *)
Definition relocated (obj : ObjectFile) (b : Bases) (r : RelocationEntry) : Prop :=
  ∃ addr sec ins, resolve o l floor obj b r = Ok (addr, sec, ins)
    ∧ check_target o l obj r addr sec ins = Ok tt.

Lemma relocate_writes obj b code data r code' data' :
  relocate o l floor obj b (code, data) r = Ok (code', data') →
  relocated obj b r ∧ code' = writes code (reloc_writes true obj b r)
  ∧ data' = writes data (reloc_writes false obj b r).
Proof.
  intros H. unfold relocate in H. apply result_bind_ok in H as ([[addr sec] ins] & Hr & H).
  apply result_bind_ok in H as ([] & Hc & H). cbv zeta in H.
  apply result_bind_ok in H as ([] & Hb & H). split; [by exists addr, sec, ins|].
  unfold reloc_writes, target_of_reloc, patch_base. rewrite Hr.
  destruct (bool_decide (section_to_patch r = CODE)); injection H as <- <-; cbn [Bool.eqb];
    rewrite patch_as_writes; done.
Qed.

Lemma relocate_all obj b rs code data code' data' :
  foldM (relocate o l floor obj b) (code, data) rs = Ok (code', data') →
  Forall (relocated obj b) rs
  ∧ code' = writes code (mjoin (reloc_writes true obj b <$> rs))
  ∧ data' = writes data (mjoin (reloc_writes false obj b <$> rs)).
Proof.
  revert code data. induction rs as [|r rs IH]; intros code data H; cbn [foldM] in H.
  - by injection H as <- <-.
  - apply result_bind_ok in H as ([c1 d1] & H1 & H2).
    apply relocate_writes in H1 as (Hr & -> & ->). apply IH in H2 as (Hrs & -> & ->).
    cbn [fmap list_fmap mjoin list_join foldr]. by rewrite !writes_app; auto.
Qed.

(** The bases the pass uses, object by object from the [k]th. *)
Lemma relocate_objects objs k code data d code' data' d' :
  foldM (relocate_object o l floor) (code, data, d) (zip (seq k (length objs)) objs)
    = Ok (code', data', d') →
  ∃ bs : list Bases,
    b_data <$> bs = data_bases (l_data_start l) d objs
    ∧ (∀ j b, bs !! j = Some b →
         l_ram_bases l !! (k + j)%nat = Some (b_ram b) ∧ l_code_bases l !! (k + j)%nat = Some (b_code b))
    ∧ (∀ j obj b, objs !! j = Some obj → bs !! j = Some b → Forall (relocated obj b) (relocation_table obj))
    ∧ code' = writes code (mjoin (zip_with (object_writes true) objs bs))
    ∧ data' = writes data (mjoin (zip_with (object_writes false) objs bs)).
Proof.
  revert k code data d. induction objs as [|obj objs IH]; intros k code data d H.
  - injection H as <- <- <-. exists []. repeat split; done.
  - cbn [length seq zip_with foldM] in H. apply result_bind_ok in H as ([[c1 d1] n1] & H1 & H2).
    unfold relocate_object in H1.
    apply result_bind_ok in H1 as (cb & Hcb & H1). cbv zeta in H1.
    apply result_bind_ok in H1 as (rb & Hrb & H1).
    apply result_bind_ok in H1 as ([c2 d2] & H1 & [= <- <- <-]).
    apply at_ok in Hcb as [_ Hcb], Hrb as [_ Hrb]. rewrite Nat2Z.id in Hcb, Hrb.
    set (dd := d + _) in *. apply relocate_all in H1 as (Hall & -> & ->).
    apply IH in H2 as (bs & Hbs & Hlk & Hrl & -> & ->).
    exists (mkBases rb cb dd :: bs). split; [|split; [|split; [|split]]].
    + cbn [fmap list_fmap data_bases b_data]. fold dd. by rewrite Hbs.
    + intros [|j] b; cbn [lookup list_lookup].
      * intros [= <-]. by rewrite Nat.add_0_r.
      * intros Hj. replace (k + S j)%nat with (S k + j)%nat by lia. by apply Hlk.
    + intros [|j] obj' b; cbn [lookup list_lookup]; [by intros [= <-] [= <-] | apply Hrl].
    + cbn [zip_with mjoin list_join foldr]. by rewrite writes_app.
    + cbn [zip_with mjoin list_join foldr]. by rewrite writes_app.
Qed.
End Pass.

(** ** The writes do not collide *)

Definition apart {A} (l l' : list (nat * A)) : Prop := ∀ p, p ∈ l.*1 → p ∉ l'.*1.

#[global] Instance apart_sym {A} : Symmetric (@apart A).
Proof. intros l l' H p Hp Hp'. by apply (H p). Qed.

Lemma elem_of_join_fst {A} (ls : list (list (nat * A))) p :
  p ∈ (mjoin ls).*1 ↔ ∃ l, l ∈ ls ∧ p ∈ l.*1.
Proof.
  rewrite list_elem_of_fmap. split.
  - intros ([q v] & -> & Hin). apply list_elem_of_join in Hin as (l & Hin & Hl).
    exists l. split; [done|]. by eapply elem_of_fst.
  - intros (l & Hl & ([q v] & -> & Hin)%list_elem_of_fmap). exists (q, v). split; [done|].
    apply list_elem_of_join. eauto.
Qed.

Lemma NoDup_join_fst {A} (ls : list (list (nat * A))) :
  Forall (λ l, NoDup l.*1) ls → pairwise apart ls → NoDup (mjoin ls).*1.
Proof.
  induction 1 as [|l ls Hl _ IH]; intros Hp; [constructor|].
  apply pairwise_cons in Hp as [Ha Hp]; [|apply _]. cbn [mjoin list_join foldr].
  rewrite fmap_app. apply NoDup_app. split; [done|]. split; [|by apply IH].
  intros p H1 H2. apply elem_of_join_fst in H2 as (l' & Hl' & H2).
  rewrite Forall_forall in Ha. exact (Ha l' Hl' p H1 H2).
Qed.

Lemma patch_writes_nodup index type addr : NoDup (patch_writes index type addr).*1.
Proof.
  destruct type; cbn [patch_writes fmap list_fmap fst];
    repeat (apply NoDup_cons; split; [rewrite ?list_elem_of_singleton; try apply not_elem_of_nil; lia|]);
    apply NoDup_nil_2.
Qed.

Lemma elem_of_patch_writes index type addr p : 0 ≤ index →
  p ∈ (patch_writes index type addr).*1 ↔ index + 1 ≤ Z.of_nat p < index + 1 + operand_size type.
Proof.
  intros Hi. destruct type; cbn [patch_writes fmap list_fmap fst operand_size];
    rewrite ?elem_of_cons, elem_of_nil; lia.
Qed.

(** Where an object's writes lie: in a span of one of its relocations. *)
Lemma elem_of_reloc_writes o l floor in_code obj b r p :
  0 ≤ patch_base in_code b → 0 ≤ patch_offset r →
  p ∈ (reloc_writes o l floor in_code obj b r).*1 →
  in_code = bool_decide (section_to_patch r = CODE)
  ∧ sp_begin (span r) ≤ Z.of_nat p - patch_base in_code b < sp_end (span r).
Proof.
  intros Hb Ho Hp. unfold reloc_writes in Hp. destruct (eqb_spec in_code (bool_decide (section_to_patch r = CODE)));
    [|by apply elem_of_nil in Hp].
  split; [done|]. apply elem_of_patch_writes in Hp; [|lia]. cbn [span sp_begin sp_end]. lia.
Qed.

(** The section of an object that [in_code] stands for. *)
Definition patched_section (in_code : bool) (obj : ObjectFile) : list Z :=
  if in_code then code_section obj else data_section obj.

Lemma reloc_section in_code r : section_to_patch r ≠ RAM →
  in_code = bool_decide (section_to_patch r = CODE) ↔
  section_to_patch r = (if in_code then CODE else DATA).
Proof. destruct in_code, (section_to_patch r); split; done. Qed.

Lemma elem_of_object_writes o l floor in_code obj b p :
  Valid obj → wf obj → 0 ≤ patch_base in_code b →
  p ∈ (object_writes o l floor in_code obj b).*1 →
  ∃ r, r ∈ relocation_table obj ∧ section_to_patch r = (if in_code then CODE else DATA)
    ∧ sp_begin (span r) ≤ Z.of_nat p - patch_base in_code b < sp_end (span r)
    ∧ 0 ≤ Z.of_nat p - patch_base in_code b < zlen (patched_section in_code obj).
Proof.
  intros Hv Hw Hb (ws & (r & -> & Hr)%list_elem_of_fmap & Hp)%elem_of_join_fst.
  pose proof (wf_relocations obj Hw) as Hwr. pose proof (v_relocations obj Hv) as Hvr.
  rewrite Forall_forall in Hwr, Hvr. specialize (Hwr r Hr). destruct (Hvr r Hr) as (_ & _ & Hnr & Hbd).
  apply elem_of_reloc_writes in Hp as [Hs Hp]; [|done|lia]. apply reloc_section in Hs; [|done].
  exists r. split; [done|]. split; [done|]. split; [done|]. rewrite Hs in Hbd.
  unfold patched_section. destruct in_code; cbn [section_bytes span sp_begin sp_end] in *;
    destruct (r_type r); cbn [operand_size patch_size] in *; lia.
Qed.

Lemma object_writes_nodup o l floor in_code obj b :
  Valid obj → wf obj → 0 ≤ patch_base in_code b → NoDup (object_writes o l floor in_code obj b).*1.
Proof.
  intros Hv Hw Hb. apply NoDup_join_fst.
  - apply Forall_fmap, Forall_true. intros r. unfold compose, reloc_writes.
    destruct (eqb _ _); [apply patch_writes_nodup | constructor].
  - apply pairwise_fmap. intros i j r r' Hij Hi Hj p Hp Hp'.
    pose proof (wf_relocations obj Hw) as Hwr. pose proof (v_relocations obj Hv) as Hvr.
    rewrite Forall_forall in Hwr, Hvr.
    assert (r ∈ relocation_table obj) as Hin by by eapply list_elem_of_lookup_2.
    assert (r' ∈ relocation_table obj) as Hin' by by eapply list_elem_of_lookup_2.
    destruct (Hvr r Hin) as (_ & _ & Hnr & _), (Hvr r' Hin') as (_ & _ & Hnr' & _).
    apply elem_of_reloc_writes in Hp as [Hs Hp]; [|done|by apply Hwr].
    apply elem_of_reloc_writes in Hp' as [Hs' Hp']; [|done|by apply Hwr].
    apply reloc_section in Hs; [|done]. apply reloc_section in Hs'; [|done].
    destruct (v_spans obj Hv i j r r' Hij Hi Hj); [by cbn; rewrite Hs, Hs' | lia | lia].
Qed.

(** What the pass needs of the bases of one image. *)
Lemma program_writes_nodup o l floor in_code objs bs img :
  Forall Valid objs → Forall wf objs →
  Placed img (patch_base in_code <$> bs) (patched_section in_code <$> objs) →
  NoDup (mjoin (zip_with (object_writes o l floor in_code) objs bs)).*1.
Proof.
  intros Hv Hw HP. rewrite Forall_forall in Hv, Hw.
  assert (∀ i obj b, objs !! i = Some obj → bs !! i = Some b →
    Valid obj ∧ wf obj ∧ 0 ≤ patch_base in_code b) as Hi.
  { intros i obj b Ho Hb. split; [by eapply Hv, list_elem_of_lookup_2|].
    split; [by eapply Hw, list_elem_of_lookup_2|].
    eapply (pl_bound _ _ _ HP i); rewrite list_lookup_fmap; [by rewrite Hb | by rewrite Ho]. }
  apply NoDup_join_fst.
  - apply Forall_lookup. intros i ws (obj & b & -> & Ho & Hb)%lookup_zip_with_Some.
    destruct (Hi _ _ _ Ho Hb) as (? & ? & ?). by apply object_writes_nodup.
  - intros i j ws ws' Hij (obj & b & -> & Ho & Hb)%lookup_zip_with_Some
      (obj' & b' & -> & Ho' & Hb')%lookup_zip_with_Some p Hp Hp'.
    destruct (Hi _ _ _ Ho Hb) as (? & ? & ?), (Hi _ _ _ Ho' Hb') as (? & ? & ?).
    apply elem_of_object_writes in Hp as (_ & _ & _ & _ & Hp); [|done..].
    apply elem_of_object_writes in Hp' as (_ & _ & _ & _ & Hp'); [|done..].
    eapply (Placed_disjoint _ _ _ i j (patch_base in_code b) (patch_base in_code b')); [exact HP|exact Hij|..];
      rewrite ?list_lookup_fmap, ?Hb, ?Ho, ?Hb', ?Ho'; [done..|exact Hp|exact Hp'|]. lia.
Qed.

(* ------------------------------------------------------------------ *)
(** ** The linked program *)

(** Where the sections of each object were placed. *)
Definition object_bases (l : Layout) (objects : list ObjectFile) : list Bases :=
  zip_with (λ rc d, mkBases rc.1 rc.2 d) (zip (l_ram_bases l) (l_code_bases l)) (data_bases_of l objects).

(** The operand of an instruction in an image, as the processor reads it. *)
Definition read_operand (img : list Z) (index : Z) (type : RelocationType) : option Z :=
  let i := Z.to_nat index in
  match type with
  | ADDR24_BANK => img !! S i
  | _ => low ← img !! S i; high ← img !! S (S i); Some (low + 256 * high)
  end.

(** The part of an address an operand holds. *)
Definition operand_value (type : RelocationType) (addr : Z) : Z :=
  match type with ADDR24_BANK => addr / 65536 mod 256 | _ => addr mod 65536 end.

Lemma object_bases_lookup l objects i b :
  object_bases l objects !! i = Some b ↔
  l_ram_bases l !! i = Some (b_ram b) ∧ l_code_bases l !! i = Some (b_code b)
  ∧ data_bases_of l objects !! i = Some (b_data b).
Proof.
  unfold object_bases. rewrite lookup_zip_with_Some. split.
  - intros ([r c] & d & -> & [Hr Hc]%lookup_zip_Some & Hd). done.
  - intros (Hr & Hc & Hd). exists (b_ram b, b_code b), (b_data b). split; [by destruct b|].
    split; [|done]. by apply lookup_zip_Some.
Qed.

Lemma object_bases_length o objects l : LayoutOk o objects l →
  length (object_bases l objects) = length objects.
Proof.
  intros HL. pose proof (pl_length _ _ _ (lo_ram _ _ _ HL)) as H1.
  pose proof (pl_length _ _ _ (lo_code _ _ _ HL)) as H2. pose proof (pl_length _ _ _ (lo_data _ _ _ HL)) as H3.
  rewrite length_fmap in H1, H2, H3. unfold object_bases. rewrite !length_zip_with. lia.
Qed.

Lemma object_bases_data o objects l : LayoutOk o objects l →
  b_data <$> object_bases l objects = data_bases_of l objects.
Proof.
  intros HL. pose proof (pl_length _ _ _ (lo_ram _ _ _ HL)) as H1.
  pose proof (pl_length _ _ _ (lo_code _ _ _ HL)) as H2. pose proof (pl_length _ _ _ (lo_data _ _ _ HL)) as H3.
  rewrite length_fmap in H1, H2, H3.
  apply list_eq_same_length with (n := length objects);
    [done | rewrite length_fmap; by apply object_bases_length with o|].
  intros i x y _. rewrite list_lookup_fmap. intros (b & (_ & _ & Hd)%object_bases_lookup & ->)%fmap_Some Hy.
  congruence.
Qed.

Lemma object_bases_code o objects l : LayoutOk o objects l →
  b_code <$> object_bases l objects = l_code_bases l.
Proof.
  intros HL. pose proof (pl_length _ _ _ (lo_ram _ _ _ HL)) as H1.
  pose proof (pl_length _ _ _ (lo_code _ _ _ HL)) as H2. pose proof (pl_length _ _ _ (lo_data _ _ _ HL)) as H3.
  rewrite length_fmap in H1, H2, H3.
  apply list_eq_same_length with (n := length objects);
    [done | rewrite length_fmap; by apply object_bases_length with o|].
  intros i x y _. rewrite list_lookup_fmap. intros (b & (_ & Hc & _)%object_bases_lookup & ->)%fmap_Some Hy.
  congruence.
Qed.

(** The jump of the startup code is patched inside that code. *)
Lemma patch_entry_writes o objects l code :
  LayoutOk o objects l → patch_entry o l = Ok code →
  ∃ ws, code = writes (l_code l) ws
    ∧ ∀ p, p ∈ ws.*1 → Z.of_nat p < zlen (bytes (l_startup l)).
Proof.
  intros HL H. unfold patch_entry in H. pose proof (lo_startup _ _ _ HL) as Hst.
  destruct (initialize_runtime o); cbn [negb] in H;
    [|injection H as <-; exists []; split; [done | by intros p ?%elem_of_nil]].
  destruct (final_addresses _ !! _) as [entry|]; [|done].
  apply result_bind_ok in H as (sec & _ & H). apply result_bind_ok in H as ([] & _ & H).
  cbv zeta in H. apply result_bind_ok in H as ([] & _ & H).
  apply result_bind_ok in H as (c1 & Hc1 & H). apply result_bind_ok in H as (c2 & Hc2 & H).
  apply result_bind_ok in H as ([] & _ & [= <-]).
  apply set_at_ok in Hc1 as [H1 ->]. apply set_at_ok in Hc2 as [H2 ->].
  apply result_bind_ok in Hst as ([] & _ & [= Est]). cbv zeta in *.
  set (prologue := literal 0 _ ++ _) in Est. rewrite <- Est in *. cbn [bytes entry_patch] in *.
  exists [(Z.to_nat (zlen prologue + 1), u8 entry); (Z.to_nat (zlen prologue + 1 + 1), u8 (Z.shiftr entry 8))].
  split; [done|]. intros p. cbn [fmap list_fmap fst]. rewrite !elem_of_cons, elem_of_nil, !zlen_app.
  rewrite !zlen_cons, zlen_nil. lia.
Qed.

(** The parts of a successful link. *)
Record LinkOk (o : Options) (objects : list ObjectFile) (k : Linked) : Prop := {
  lk_layout : LayoutOk o objects (k_layout k);
  lk_laid : ∃ config, layout o config objects = Ok (k_layout k);
  lk_config : program_config o objects = Ok (l_config (k_layout k));
  lk_overlaps : check_overlaps o (k_layout k) = Ok tt;
  lk_floor : stack_floor o (k_layout k) = Ok (k_floor k);
  lk_relocated i obj b r : objects !! i = Some obj → object_bases (k_layout k) objects !! i = Some b →
    r ∈ relocation_table obj → relocated o (k_layout k) (k_floor k) obj b r;
  lk_code : ∃ code, patch_entry o (k_layout k) = Ok code ∧
    k_code k = writes code (mjoin (zip_with (object_writes o (k_layout k) (k_floor k) true)
                 objects (object_bases (k_layout k) objects)));
  lk_data : k_data k = writes (l_data (k_layout k))
    (mjoin (zip_with (object_writes o (k_layout k) (k_floor k) false)
       objects (object_bases (k_layout k) objects)))
}.

Lemma link_ok o objects k : link o objects = Ok k → LinkOk o objects k.
Proof.
  intros H. unfold link in H. apply result_bind_ok in H as (config & Hcf & H).
  apply result_bind_ok in H as (l & Hl & H). apply result_bind_ok in H as ([] & Hov & H).
  apply result_bind_ok in H as (code & Hcode & H). apply result_bind_ok in H as (floor & Hfl & H).
  apply result_bind_ok in H as ([[c d] n] & Hr & [= <-]).
  pose proof (ex_intro (λ c, layout o c objects = Ok l) config Hl) as Hlaid.
  apply layout_ok in Hl as [<- HL]. unfold indexed in Hr. apply relocate_objects in Hr
    as (bs & Hbd & Hbs & Hrel & -> & ->).
  assert (bs = object_bases l objects) as ->.
  { assert (length bs = length objects) as Hlen.
    { rewrite <- (length_fmap b_data bs), Hbd. pose proof (pl_length _ _ _ (lo_data _ _ _ HL)) as H3.
      by rewrite length_fmap in H3. }
    apply list_eq_same_length with (n := length objects); [by apply object_bases_length with o|done|].
    intros i x y _ Hx (Hr & Hc & Hd)%object_bases_lookup. destruct (Hbs i x Hx) as [Hr' Hc'].
    assert (data_bases_of l objects !! i = Some (b_data x)) as Hd'.
    { unfold data_bases_of. rewrite <- Hbd, list_lookup_fmap, Hx. done. }
    destruct x as [x1 x2 x3], y as [y1 y2 y3]. cbn [b_ram b_code b_data] in *. cbn [Nat.add] in *. congruence. }
  split; cbn [k_layout k_floor k_code k_data]; try done.
  - intros i obj b r Ho Hb Hr. specialize (Hrel i obj b Ho Hb). rewrite Forall_forall in Hrel. eauto.
  - by exists code.
Qed.

(** The linked image of CODE or of DATA, and its layout before relocation. *)
Definition image (k : Linked) (in_code : bool) : list Z := if in_code then k_code k else k_data k.
Definition layout_image (l : Layout) (in_code : bool) : list Z := if in_code then l_code l else l_data l.
Definition in_code (r : RelocationEntry) : bool := bool_decide (section_to_patch r = CODE).

Lemma placed_image o objects k ic : LinkOk o objects k →
  Placed (layout_image (k_layout k) ic) (patch_base ic <$> object_bases (k_layout k) objects)
    (patched_section ic <$> objects).
Proof.
  intros HK. pose proof (lk_layout _ _ _ HK) as HL. destruct ic; cbn [layout_image].
  - replace (patch_base true <$> _) with (b_code <$> object_bases (k_layout k) objects) by done.
    rewrite (object_bases_code _ _ _ HL). apply (lo_code _ _ _ HL).
  - replace (patch_base false <$> _) with (b_data <$> object_bases (k_layout k) objects) by done.
    rewrite (object_bases_data _ _ _ HL). apply (lo_data _ _ _ HL).
Qed.

Lemma link_image o objects k ic : LinkOk o objects k →
  ∃ base, image k ic = writes base (mjoin (zip_with (object_writes o (k_layout k) (k_floor k) ic)
                         objects (object_bases (k_layout k) objects)))
    ∧ length base = length (layout_image (k_layout k) ic)
    ∧ ∀ p, (ic = true → zlen (bytes (l_startup (k_layout k))) ≤ Z.of_nat p) →
        base !! p = layout_image (k_layout k) ic !! p.
Proof.
  intros HK. destruct ic; cbn [image layout_image].
  - destruct (lk_code _ _ _ HK) as (code & Hp & ->). exists code.
    destruct (patch_entry_writes _ _ _ _ (lk_layout _ _ _ HK) Hp) as (ws & -> & Hws).
    split; [done|]. split; [apply writes_length|]. intros p Hge. apply writes_other.
    intros Hin%Hws. specialize (Hge eq_refl). lia.
  - exists (l_data (k_layout k)). split; [apply (lk_data _ _ _ HK)|]. done.
Qed.

(** The startup code lies below every object's code. *)
Lemma base_after_startup o objects k i b : LinkOk o objects k →
  object_bases (k_layout k) objects !! i = Some b →
  zlen (bytes (l_startup (k_layout k))) ≤ b_code b.
Proof.
  intros HK (_ & Hc & _)%object_bases_lookup. pose proof (lo_code_after _ _ _ (lk_layout _ _ _ HK)) as Ha.
  rewrite Forall_forall in Ha. by eapply Ha, list_elem_of_lookup_2.
Qed.

Lemma link_bases o objects k i obj : LinkOk o objects k → objects !! i = Some obj →
  ∃ b, object_bases (k_layout k) objects !! i = Some b.
Proof.
  intros HK Ho. apply lookup_lt_is_Some_2.
  rewrite (object_bases_length o) by apply (lk_layout _ _ _ HK). by eapply lookup_lt_Some.
Qed.

Lemma object_section_bound o objects k ic i obj b : LinkOk o objects k →
  objects !! i = Some obj → object_bases (k_layout k) objects !! i = Some b →
  0 ≤ patch_base ic b
  ∧ patch_base ic b + zlen (patched_section ic obj) ≤ zlen (layout_image (k_layout k) ic).
Proof.
  intros HK Ho Hb. eapply (pl_bound _ _ _ (placed_image _ _ _ ic HK) i);
    rewrite list_lookup_fmap; [by rewrite Hb | by rewrite Ho].
Qed.

(** What a write of the pass leaves in the final image. *)
Lemma link_written o objects k ic i obj b r p v :
  LinkOk o objects k → Forall wf objects → Forall Valid objects →
  objects !! i = Some obj → object_bases (k_layout k) objects !! i = Some b →
  r ∈ relocation_table obj →
  (p, v) ∈ reloc_writes o (k_layout k) (k_floor k) ic obj b r →
  image k ic !! p = Some v.
Proof.
  intros HK Hw Hv Ho Hb Hr Hin. destruct (link_image _ _ _ ic HK) as (base & -> & Hlen & _).
  destruct (object_section_bound _ _ _ ic _ _ _ HK Ho Hb) as [Hb0 Hbd].
  assert ((p, v) ∈ object_writes o (k_layout k) (k_floor k) ic obj b) as Hobj.
  { apply list_elem_of_join. eexists. split; [exact Hin|]. by apply list_elem_of_fmap_2. }
  apply writes_here.
  - eapply program_writes_nodup; [done|done|]. by eapply placed_image.
  - apply list_elem_of_join. eexists. split; [exact Hobj|].
    apply list_elem_of_lookup. exists i. apply lookup_zip_with_Some. eauto.
  - rewrite Hlen. apply elem_of_fst in Hobj. rewrite Forall_forall in Hv, Hw.
    apply elem_of_object_writes in Hobj as (_ & _ & _ & _ & Hp);
      [|by eapply Hv, list_elem_of_lookup_2|by eapply Hw, list_elem_of_lookup_2|done].
    unfold zlen in *. lia.
Qed.

Lemma land_low x : Z.land x 255 + 256 * Z.land (Z.shiftr x 8) 255 = x mod 65536.
Proof. rewrite !land_255, shiftr_8. zmod. Qed.

Lemma read_patch_writes img index type addr :
  Forall (λ w, img !! w.1 = Some w.2) (patch_writes index type addr) →
  read_operand img index type = Some (operand_value type addr).
Proof.
  intros H. unfold read_operand, operand_value. cbv zeta.
  destruct type; cbn [patch_writes] in H; rewrite ?Forall_cons in H; cbn [fst snd] in H.
  3: { destruct H as [-> _]. by rewrite land_255, shiftr_16. }
  all: destruct H as (-> & -> & _); cbn [mbind option_bind]; by rewrite land_low.
Qed.

(** The operand of a relocation in the final image. *)
Lemma link_operand o objects k i obj b r addr sec ins :
  LinkOk o objects k → Forall wf objects → Forall Valid objects →
  objects !! i = Some obj → object_bases (k_layout k) objects !! i = Some b →
  r ∈ relocation_table obj →
  resolve o (k_layout k) (k_floor k) obj b r = Ok (addr, sec, ins) →
  read_operand (image k (in_code r)) (patch_base (in_code r) b + patch_offset r) (r_type r)
  = Some (operand_value (r_type r) addr).
Proof.
  intros HK Hw Hv Ho Hb Hr Hres. apply read_patch_writes, Forall_forall. intros [p v] Hin.
  eapply link_written; try done. unfold reloc_writes, target_of_reloc. rewrite Hres.
  unfold in_code. by rewrite eqb_reflx.
Qed.

(** C27. Relocation is correct.  In a linked program every relocation of every
    input object was resolved to a target that passes the target checks, and
    the operand it names, at the object's base plus the relocation's offset,
    holds that target's address: its bank byte, or its low sixteen bits. *)
Theorem link_relocates o objects k i obj r :
  Forall wf objects → Forall Valid objects → link o objects = Ok k →
  objects !! i = Some obj → r ∈ relocation_table obj →
  ∃ b addr sec ins, object_bases (k_layout k) objects !! i = Some b
    ∧ resolve o (k_layout k) (k_floor k) obj b r = Ok (addr, sec, ins)
    ∧ check_target o (k_layout k) obj r addr sec ins = Ok tt
    ∧ read_operand (image k (in_code r)) (patch_base (in_code r) b + patch_offset r) (r_type r)
      = Some (operand_value (r_type r) addr).
Proof.
  intros Hw Hv HK%link_ok Ho Hr. destruct (link_bases _ _ _ _ _ HK Ho) as [b Hb].
  destruct (lk_relocated _ _ _ HK _ _ _ _ Ho Hb Hr) as (addr & sec & ins & Hres & Hchk).
  exists b, addr, sec, ins. split; [done|]. split; [done|]. split; [done|].
  by eapply link_operand.
Qed.

(** C28. The linker changes nothing else.  Every byte of every CODE and DATA
    section that no relocation of its object covers is in the linked image
    unchanged, at the object's base plus its offset. *)
Theorem link_preserves o objects k i obj ic j x :
  Forall wf objects → Forall Valid objects → link o objects = Ok k →
  objects !! i = Some obj → patched_section ic obj !! j = Some x →
  (∀ r, r ∈ relocation_table obj → in_code r = ic →
     ¬ (sp_begin (span r) ≤ Z.of_nat j < sp_end (span r))) →
  ∃ b, object_bases (k_layout k) objects !! i = Some b
    ∧ image k ic !! (Z.to_nat (patch_base ic b) + j)%nat = Some x.
Proof.
  intros Hw Hv HK%link_ok Ho Hx Hout. destruct (link_bases _ _ _ _ _ HK Ho) as [b Hb]. exists b.
  split; [done|]. destruct (link_image _ _ _ ic HK) as (base & -> & Hlen & Hbase).
  destruct (object_section_bound _ _ _ ic _ _ _ HK Ho Hb) as [Hb0 Hbd].
  assert ((patch_base ic <$> object_bases (k_layout k) objects) !! i = Some (patch_base ic b)) as Hlb
    by by rewrite list_lookup_fmap, Hb.
  assert ((patched_section ic <$> objects) !! i = Some (patched_section ic obj)) as Hls
    by by rewrite list_lookup_fmap, Ho.
  assert (Z.of_nat j < zlen (patched_section ic obj)) as Hj
    by (apply lookup_lt_Some in Hx; unfold zlen; lia).
  rewrite writes_other.
  - rewrite Hbase; [by eapply (pl_content _ _ _ (placed_image _ _ _ ic HK))|].
    intros ->. pose proof (base_after_startup _ _ _ _ _ HK Hb). cbn [patch_base]. lia.
  - intros (ws & Hws & Hp)%elem_of_join_fst.
    apply list_elem_of_lookup in Hws as (i' & (obj' & b' & -> & Ho' & Hb')%lookup_zip_with_Some).
    rewrite Forall_forall in Hw, Hv.
    destruct (object_section_bound _ _ _ ic _ _ _ HK Ho' Hb') as [Hb0' _].
    apply elem_of_object_writes in Hp as (r & Hr & Hs & Hsp & Hp);
      [|by eapply Hv, list_elem_of_lookup_2|by eapply Hw, list_elem_of_lookup_2|done].
    destruct (decide (i' = i)) as [->|Hne].
    + assert (obj' = obj) as -> by congruence. assert (b' = b) as -> by congruence.
      apply (Hout r Hr); [unfold in_code; rewrite Hs; by destruct ic | lia].
    + eapply (Placed_disjoint _ _ _ i' i (patch_base ic b') (patch_base ic b) _ _ _ (Z.of_nat j)
        (placed_image _ _ _ ic HK) Hne);
        rewrite ?list_lookup_fmap, ?Hb', ?Ho', ?Hb, ?Ho; [done..|exact Hp| |]; lia.
Qed.

(* ------------------------------------------------------------------ *)
(** ** Symbols *)

(** A global symbol of object [i]. *)
Definition global_symbol (objects : list ObjectFile) (i : nat) (s : SymbolEntry) : Prop :=
  ∃ obj, objects !! i = Some obj ∧ s ∈ symbol_table obj ∧ is_local (s_name s) = false.

(** The address the linker gives a global symbol. *)
Definition global_address (o : Options) (l : Layout) (b : Bases) (s : SymbolEntry) : Z :=
  match s_section s with
  | RAM => Z.lor (ram_base o) (ram_origin o + b_ram b + s_offset s)
  | sec => section_address o l b sec + s_offset s
  end.

Lemma elem_of_object_defs sec address obj n v :
  (n, v) ∈ object_defs sec address obj ↔
  ∃ s, s ∈ symbol_table obj ∧ s_section s = sec ∧ is_local (s_name s) = false ∧ n = s_name s
    ∧ v = (address s, sec, bool_decide (sec = CODE) && (s_offset s <? zlen (code_section obj))).
Proof.
  unfold object_defs. rewrite list_elem_of_omap. split.
  - intros (s & Hs & H). exists s.
    destruct (bool_decide_reflect (s_section s = sec)); [|done]. destruct (is_local (s_name s)); [done|].
    by injection H as <- <-.
  - intros (s & Hs & Hsec & Hl & -> & ->). exists s. split; [done|].
    by rewrite bool_decide_true, Hl.
Qed.

Lemma elem_of_section_defs sec address objs bases n v :
  (n, v) ∈ section_defs sec address objs bases ↔
  ∃ i obj b, objs !! i = Some obj ∧ bases !! i = Some b ∧ (n, v) ∈ object_defs sec (address b) obj.
Proof.
  unfold section_defs. rewrite list_elem_of_join. split.
  - intros (d & Hin & Hd). apply list_elem_of_lookup in Hd as (i & (obj & b & -> & Ho & Hb)%lookup_zip_with_Some).
    by exists i, obj, b.
  - intros (i & obj & b & Ho & Hb & Hin). eexists. split; [exact Hin|].
    apply list_elem_of_lookup. exists i. apply lookup_zip_with_Some. eauto.
Qed.

(** The definitions of the program, by object. *)
Lemma elem_of_program_defs o objects l n a sec ins : LayoutOk o objects l →
  (n, (a, sec, ins)) ∈ program_defs o l objects ↔
  ∃ i obj b s, objects !! i = Some obj ∧ object_bases l objects !! i = Some b ∧ s ∈ symbol_table obj
    ∧ is_local (s_name s) = false ∧ n = s_name s ∧ a = global_address o l b s ∧ sec = s_section s
    ∧ ins = bool_decide (sec = CODE) && (s_offset s <? zlen (code_section obj)).
Proof.
  intros HL. unfold program_defs. rewrite !elem_of_app, !elem_of_section_defs.
  setoid_rewrite elem_of_object_defs. split.
  - assert (∀ i obj, objects !! i = Some obj → ∃ b, object_bases l objects !! i = Some b) as Hex.
    { intros i obj Ho. apply lookup_lt_is_Some_2. rewrite (object_bases_length o) by done. by eapply lookup_lt_Some. }
    intros [H|[H|H]]; destruct H as (i & obj & b0 & Ho & Hb0 & s & Hs & Hsec & Hl & -> & [= -> -> ->]);
      destruct (Hex _ _ Ho) as [b Hb]; pose proof Hb as (Hr & Hc & Hd)%object_bases_lookup;
      exists i, obj, b, s; unfold global_address, section_address; rewrite Hsec;
      (repeat split; try done); congruence.
  - intros (i & obj & b & s & Ho & Hb & Hs & Hl & -> & -> & -> & ->).
    apply object_bases_lookup in Hb as (Hr & Hc & Hd). unfold global_address, section_address.
    destruct (s_section s) eqn:Es; [right; left | right; right | left];
      (eexists i, obj, _; split; [done|]; split; [eassumption|]; exists s; done).
Qed.

Lemma NoDup_join_index {A} (ls : list (list A)) i j l l' x :
  NoDup (mjoin ls) → ls !! i = Some l → ls !! j = Some l' → x ∈ l → x ∈ l' → i = j.
Proof.
  revert i j. induction ls as [|k ls IH]; intros i j Hn Hi Hj Hx Hx'; [done|].
  cbn [mjoin list_join foldr] in Hn. apply NoDup_app in Hn as (_ & Hd & Hn).
  assert (∀ q m, ls !! q = Some m → x ∈ m → x ∈ mjoin ls) as Hin.
  { intros q m Hq Hm. apply list_elem_of_join. exists m. split; [done|]. by eapply list_elem_of_lookup_2. }
  destruct i as [|i], j as [|j]; cbn in Hi, Hj.
  - done.
  - injection Hi as ->. destruct (Hd x Hx). eauto.
  - injection Hj as ->. destruct (Hd x Hx'). eauto.
  - f_equal. by apply (IH i j).
Qed.

Lemma section_defs_unique sec address objs bases i j obj obj' b b' n v v' :
  NoDup (section_defs sec address objs bases).*1 →
  objs !! i = Some obj → bases !! i = Some b → objs !! j = Some obj' → bases !! j = Some b' →
  (n, v) ∈ object_defs sec (address b) obj → (n, v') ∈ object_defs sec (address b') obj' → i = j.
Proof.
  intros Hn Ho Hb Ho' Hb' H1 H2. unfold section_defs in Hn.
  assert (∀ ls : list (list definition), (mjoin ls).*1 = mjoin (fmap fst <$> ls)) as E.
  { induction ls as [|l ls IH]; [done|]. cbn [mjoin list_join foldr fmap list_fmap].
    rewrite fmap_app. f_equal. exact IH. }
  rewrite E in Hn. eapply (NoDup_join_index _ i j _ _ n Hn).
  - rewrite list_lookup_fmap. erewrite (proj2 (lookup_zip_with_Some _ _ _ _ _)) by eauto. done.
  - rewrite list_lookup_fmap. erewrite (proj2 (lookup_zip_with_Some _ _ _ _ _)) by eauto. done.
  - by eapply elem_of_fst.
  - by eapply elem_of_fst.
Qed.

Lemma NoDup_app_disjoint {A} (l k : list A) x : NoDup (l ++ k) → x ∈ l → x ∈ k → False.
Proof. intros (_ & H & _)%NoDup_app Hl Hk. exact (H x Hl Hk). Qed.

Lemma global_defined o objects l i obj b s : LayoutOk o objects l →
  objects !! i = Some obj → object_bases l objects !! i = Some b → s ∈ symbol_table obj →
  is_local (s_name s) = false →
  (s_name s, (global_address o l b s, s_section s,
     bool_decide (s_section s = CODE) && (s_offset s <? zlen (code_section obj)))) ∈ program_defs o l objects.
Proof. intros HL Ho Hb Hs Hg. apply elem_of_program_defs; [done|]. by exists i, obj, b, s. Qed.

(** Two global symbols of one name belong to one object. *)
Lemma global_unique o objects l i j s s' : LayoutOk o objects l →
  global_symbol objects i s → global_symbol objects j s' → s_name s = s_name s' → i = j.
Proof.
  intros HL (obj & Ho & Hs & Hg) (obj' & Ho' & Hs' & Hg') En.
  assert (∀ q x, objects !! q = Some x → ∃ b, object_bases l objects !! q = Some b) as Hex.
  { intros q x Hq. apply lookup_lt_is_Some_2. rewrite (object_bases_length o) by done. by eapply lookup_lt_Some. }
  destruct (Hex _ _ Ho) as [b Hb], (Hex _ _ Ho') as [b' Hb'].
  pose proof (global_defined _ _ _ _ _ _ _ HL Ho Hb Hs Hg) as Hd.
  pose proof (global_defined _ _ _ _ _ _ _ HL Ho' Hb' Hs' Hg') as Hd'. rewrite <- En in Hd'.
  pose proof (tb_unique _ _ (lo_table _ _ _ HL)) as Hn.
  pose proof (tb_complete _ _ (lo_table _ _ _ HL) _ _ _ _ Hd) as [_ Hsec].
  pose proof (tb_complete _ _ (lo_table _ _ _ HL) _ _ _ _ Hd') as [_ Hsec'].
  assert (s_section s = s_section s') as Es by congruence.
  apply object_bases_lookup in Hb as (Hr & Hc & Hdt), Hb' as (Hr' & Hc' & Hdt').
  unfold program_defs in Hn. rewrite !fmap_app in Hn. apply NoDup_app in Hn as (Hnr & _ & Hn).
  apply NoDup_app in Hn as (Hnc & _ & Hnd).
  destruct (s_section s) eqn:Es1.
  - eapply (section_defs_unique _ _ _ _ i j obj obj' _ _ (s_name s) _ _ Hnc Ho Hc Ho' Hc');
      apply elem_of_object_defs; [exists s | exists s']; done.
  - eapply (section_defs_unique _ _ _ _ i j obj obj' _ _ (s_name s) _ _ Hnd Ho Hdt Ho' Hdt');
      apply elem_of_object_defs; [exists s | exists s']; done.
  - eapply (section_defs_unique _ _ _ _ i j obj obj' _ _ (s_name s) _ _ Hnr Ho Hr Ho' Hr');
      apply elem_of_object_defs; [exists s | exists s']; done.
Qed.

(** Symbol resolution is sound and complete: every global symbol of every
    object has the address of its definition in the table, the table has no
    other names, and no name is defined twice. *)
Theorem link_symbols o objects k :
  Forall Valid objects → link o objects = Ok k →
  let t := l_symbols (k_layout k) in
  (∀ i s, global_symbol objects i s → ∃ b, object_bases (k_layout k) objects !! i = Some b
     ∧ final_addresses t !! s_name s = Some (global_address o (k_layout k) b s)
     ∧ final_sections t !! s_name s = Some (s_section s))
  ∧ (∀ n, is_Some (final_addresses t !! n) → ∃ i s, global_symbol objects i s ∧ s_name s = n)
  ∧ (∀ i j s s', global_symbol objects i s → global_symbol objects j s' → s_name s = s_name s' →
       i = j ∧ s = s').
Proof.
  intros Hv HK%link_ok. cbv zeta. pose proof (lk_layout _ _ _ HK) as HL.
  pose proof (lo_table _ _ _ HL) as HT. split; [|split].
  - intros i s (obj & Ho & Hs & Hg). destruct (link_bases _ _ _ _ _ HK Ho) as [b Hb]. exists b.
    split; [done|]. eapply (tb_complete _ _ HT). by eapply global_defined.
  - intros n [a Ha]. destruct (tb_sound _ _ HT _ _ Ha) as (sec & ins & Hin).
    apply (elem_of_program_defs _ _ _ _ _ _ _ HL) in Hin as (i & obj & b & s & Ho & _ & Hs & Hg & -> & _).
    exists i, s. split; [by exists obj | done].
  - intros i j s s' Hi Hj En. pose proof (global_unique _ _ _ _ _ _ _ HL Hi Hj En) as <-. split; [done|].
    destruct Hi as (obj & Ho & Hs & _), Hj as (obj' & Ho' & Hs' & _).
    assert (obj' = obj) as -> by congruence. rewrite Forall_forall in Hv.
    pose proof (v_names _ (Hv obj ltac:(by eapply list_elem_of_lookup_2))) as Hn.
    apply list_elem_of_lookup in Hs as [p Hp], Hs' as [q Hq].
    assert (p = q) as ->; [|congruence]. eapply NoDup_lookup; [exact Hn| |].
    + rewrite list_lookup_fmap, Hp. done.
    + rewrite list_lookup_fmap, Hq. cbn. by rewrite En.
Qed.

(* ------------------------------------------------------------------ *)
(** ** Calls *)

(** What resolves to an instruction lies in the code of an object. *)
Lemma resolve_instruction o objects k floor i obj b r addr sec :
  LinkOk o objects k → objects !! i = Some obj → object_bases (k_layout k) objects !! i = Some b →
  resolve o (k_layout k) floor obj b r = Ok (addr, sec, true) →
  ∃ j obj' b' s, objects !! j = Some obj' ∧ object_bases (k_layout k) objects !! j = Some b'
    ∧ s ∈ symbol_table obj' ∧ s_name s = target_symbol_name r ∧ s_section s = CODE
    ∧ addr = code_start_address (l_config (k_layout k)) + b_code b' + s_offset s
    ∧ s_offset s < zlen (code_section obj').
Proof.
  intros HK Ho Hb H. pose proof (lk_layout _ _ _ HK) as HL. unfold resolve in H. cbv zeta in H.
  destruct (is_local (target_symbol_name r)).
  { destruct (find_local obj (target_symbol_name r)) as [s|] eqn:Ef; [|done].
    apply find_some in Ef as [Hs Hf%andb_true_iff]. destruct Hf as [_ Hf%bool_decide_eq_true].
    apply list_elem_of_In in Hs. apply result_bind_ok in H as ([] & _ & H).
    apply result_bind_ok in H as (a & Ha & [= <- <- Hi]). bool_facts.
    apply result_bind_ok in Ha as ([] & _ & [= <-]).
    exists i, obj, b, s. rewrite H. cbn [section_address]. by repeat split. }
  destruct (starts_with StackLimitPrefix _).
  { apply result_bind_ok in H as ([] & _ & H). apply result_bind_ok in H as (req & _ & H).
    apply result_bind_ok in H as ([] & _ & H). by apply result_bind_ok in H as ([] & _ & [=]). }
  destruct (bool_decide _ || bool_decide _).
  { by apply result_bind_ok in H as ([] & _ & [=]). }
  destruct (final_addresses _ !! _) as [a|] eqn:Ea; [|done].
  apply result_bind_ok in H as (sec' & Hsec & H). apply result_bind_ok in H as (ins & Hins & [= <- -> ->]).
  pose proof (lo_table _ _ _ HL) as HT. destruct (tb_sound _ _ HT _ _ Ea) as (sec' & ins & Hin).
  pose proof (tb_complete _ _ HT _ _ _ _ Hin) as [_ Hse].
  unfold map_at in Hsec. rewrite Hse in Hsec. injection Hsec as ->.
  destruct (bool_decide_reflect (sec = CODE)) as [->|]; [|done].
  unfold map_at in Hins. rewrite (tb_targets _ _ HT _ _ _ Hin) in Hins. injection Hins as ->.
  apply (elem_of_program_defs _ _ _ _ _ _ _ HL) in Hin
    as (j & obj' & b' & s & Hj & Hb' & Hs & _ & En & -> & Es & Ei).
  symmetry in Ei. bool_facts. exists j, obj', b', s. unfold global_address. rewrite <- Es.
  by repeat split.
Qed.

Lemma validateNearTarget_bank x y : MemoryMap.validateNearTarget x y = Ok tt → x / 65536 = y / 65536.
Proof.
  unfold MemoryMap.validateNearTarget, MemoryMap.bank. rewrite !shiftr_16. intros H.
  apply result_bind_ok in H as ([] & _ & H). apply result_bind_ok in H as ([] & _ & H%throw_if_ok).
  by bool_facts.
Qed.

(** Calls land on code.  In a linked GSU program the operand of every call
    relocation, in the bank the program runs in, is the address of a byte of
    the CODE section of some input object, where the linked image placed it. *)
Theorem link_calls o objects k i obj r :
  Forall wf objects → Forall Valid objects → link o objects = Ok k →
  target (l_config (k_layout k)) = GSU →
  objects !! i = Some obj → r ∈ relocation_table obj → r_type r = ADDR16_JAL →
  let start := code_start_address (l_config (k_layout k)) in
  ∃ b v j obj' b' offset, object_bases (k_layout k) objects !! i = Some b
    ∧ read_operand (image k (in_code r)) (patch_base (in_code r) b + patch_offset r) ADDR16_JAL = Some v
    ∧ objects !! j = Some obj' ∧ object_bases (k_layout k) objects !! j = Some b'
    ∧ 0 ≤ offset < zlen (code_section obj')
    ∧ start / 65536 * 65536 + v = start + b_code b' + offset
    ∧ start + b_code b' + offset < start + zlen (k_code k).
Proof.
  intros Hw Hv Hk Hgsu Ho Hr Hj. cbv zeta. pose proof (link_ok _ _ _ Hk) as HK.
  destruct (link_bases _ _ _ _ _ HK Ho) as [b Hb].
  destruct (lk_relocated _ _ _ HK _ _ _ _ Ho Hb Hr) as (addr & sec & ins & Hres & Hchk).
  pose proof (link_operand _ _ _ _ _ _ _ _ _ _ HK Hw Hv Ho Hb Hr Hres) as Hop.
  rewrite Hj in Hop. unfold check_target in Hchk. rewrite Hj in Hchk. cbv zeta in Hchk.
  apply result_bind_ok in Hchk as ([] & Hins%throw_if_ok & Hchk).
  rewrite bool_decide_true in Hins by done. cbn [andb] in Hins. apply negb_false_iff in Hins as ->.
  apply result_bind_ok in Hchk as ([] & Hmax%throw_if_ok & Hchk).
  rewrite (bool_decide_true (target _ = GSU)) in Hchk by done. decides. cbn [orb andb] in Hchk.
  rewrite throw_if_false in Hchk. cbn [mbind result_mbind result_bind] in Hchk.
  apply validateNearTarget_bank in Hchk.
  destruct (resolve_instruction _ _ _ _ _ _ _ _ _ _ HK Ho Hb Hres)
    as (j & obj' & b' & s & Ho' & Hb' & Hs & _ & _ & -> & Hlt).
  rewrite Forall_forall in Hw. pose proof (wf_symbols _ (Hw obj' ltac:(by eapply list_elem_of_lookup_2))) as Hsy.
  rewrite Forall_forall in Hsy. specialize (Hsy s Hs).
  exists b, (operand_value ADDR16_JAL (code_start_address (l_config (k_layout k)) + b_code b' + s_offset s)),
    j, obj', b', (s_offset s).
  split; [done|]. split; [done|]. split; [done|]. split; [done|]. split; [lia|]. split.
  - cbn [operand_value]. zmod.
  - destruct (object_section_bound _ _ _ true _ _ _ HK Ho' Hb') as [_ Hbd]. cbn [patch_base patched_section layout_image] in Hbd.
    destruct (link_image _ _ _ true HK) as (base & E & Hlen & _). cbn [image layout_image] in *.
    assert (zlen (k_code k) = zlen (l_code (k_layout k))) as -> by (unfold zlen; by rewrite E, writes_length, Hlen).
    lia.
Qed.

(* ------------------------------------------------------------------ *)
(** ** Memory *)

(** Two ranges of memory, by start and size, without a common byte. *)
Definition disjoint_ranges (a n b m : Z) : Prop := n = 0 ∨ m = 0 ∨ a + n ≤ b ∨ b + m ≤ a.

(** The ranges the option parser enforces. *)
Definition options_wf (o : Options) : Prop :=
  0 ≤ ram_bank o ≤ 1 ∧ 0 ≤ ram_origin o ≤ 65535 ∧ 0 ≤ stack_pointer o ≤ 65534.

Lemma ram_base_add o x : options_wf o → 0 ≤ x < 65536 →
  Z.lor (ram_base o) x = 7340032 + Z.shiftl (ram_bank o) 16 + x.
Proof.
  intros (Hb & _ & _) Hx. unfold ram_base. assert (ram_bank o = 0 ∨ ram_bank o = 1) as [-> | ->] by lia.
  - change (Z.lor 7340032 (Z.shiftl 0 16)) with (112 * 65536). rewrite lor_fields_16 by done. done.
  - change (Z.lor 7340032 (Z.shiftl 1 16)) with (113 * 65536). rewrite lor_fields_16 by done. done.
Qed.

Lemma overlaps_false buffer a n : overlaps buffer a n = false →
  disjoint_ranges (fst buffer) (snd buffer - fst buffer) a n.
Proof. unfold overlaps, disjoint_ranges. intros H. repeat (apply andb_false_iff in H as [H|H]); bool_facts; lia. Qed.

Lemma final_rom_size o objects k : LinkOk o objects k → zlen (final_rom k) = payload_size (k_layout k).
Proof.
  intros HK. unfold final_rom, payload_size. rewrite zlen_app.
  assert (∀ ic, zlen (image k ic) = zlen (layout_image (k_layout k) ic)) as Hi.
  { intros ic. destruct (link_image _ _ _ ic HK) as (base & -> & Hlen & _). unfold zlen.
    by rewrite writes_length, Hlen. }
  pose proof (Hi true) as H1. pose proof (Hi false) as H2. cbn [image layout_image] in H1, H2. lia.
Qed.

(** Static RAM against the payload and the stack. *)
Lemma static_ram_apart o objects k : options_wf o → LinkOk o objects k →
  l_ram (k_layout k) = [] ∨
    (disjoint_ranges (code_start_address (l_config (k_layout k))) (payload_size (k_layout k))
       (7340032 + Z.shiftl (ram_bank o) 16 + ram_origin o) (zlen (l_ram (k_layout k)))
     ∧ (initialize_runtime o = true → ram_origin o + zlen (l_ram (k_layout k)) < stack_pointer o)).
Proof.
  intros (Hb & Hor & Hsp) HK. pose proof (lk_overlaps _ _ _ HK) as Hov.
  unfold check_overlaps in Hov. cbv zeta in Hov. apply result_bind_ok in Hov as ([] & _ & Hov).
  destruct (bool_decide_reflect (l_ram (k_layout k) = [])); [by left|right].
  apply result_bind_ok in Hov as ([] & Ho1%throw_if_ok & Ho2%throw_if_ok).
  rewrite ram_base_add in Ho1 by (unfold options_wf; lia). split.
  - unfold disjoint_ranges. apply andb_false_iff in Ho1 as [H|H]; bool_facts; lia.
  - intros Ei. rewrite Ei in Ho2. cbn [andb] in Ho2. bool_facts. lia.
Qed.

(** A GSU payload stays in its bank. *)
Lemma payload_in_bank o objects k : LinkOk o objects k → target (l_config (k_layout k)) = GSU →
  code_start_address (l_config (k_layout k)) mod 65536 + payload_size (k_layout k) ≤ 65536
  ∧ MemoryMap.region (code_start_address (l_config (k_layout k))) ≠ MemoryMap.Unmapped.
Proof.
  intros HK Eg. pose proof (lo_payload _ _ _ (lk_layout _ _ _ HK) Eg) as Hp. unfold MemoryMap.validatePayload in Hp.
  apply result_bind_ok in Hp as ([] & Hv%throw_if_ok & Hp). cbv zeta in Hp. apply throw_if_ok in Hp.
  rewrite land_65535 in Hp. unfold payload_size. apply orb_false_iff in Hp as [H1 H2].
  pose proof (zlen_nonneg (l_code (k_layout k))). pose proof (Z.mod_pos_bound (code_start_address (l_config (k_layout k))) 65536).
  bool_facts. rewrite (uwrap_small 64) in H2 by lia. split; [lia|done].
Qed.

(** C29. The memory of a linked program does not overlap: its payload, its
    static RAM, the host's framebuffer and the initial stack word occupy
    pairwise disjoint ranges, static RAM ends below the initial stack pointer,
    and a GSU payload stays inside one bank. *)
Theorem link_memory o objects k :
  options_wf o → link o objects = Ok k →
  let config := l_config (k_layout k) in
  let start := code_start_address config in
  let size := zlen (final_rom k) in
  let ram := 7340032 + Z.shiftl (ram_bank o) 16 + ram_origin o in
  let ram_size := zlen (l_ram (k_layout k)) in
  let stack := 7340032 + Z.shiftl (ram_bank o) 16 + stack_pointer o in
  let fb := fst (framebuffer config) in
  let fb_size := snd (framebuffer config) - fb in
  disjoint_ranges start size ram ram_size
  ∧ (target config = GSU → start mod 65536 + size ≤ 65536)
  ∧ (Bitmap.enabled (bitmap config) = true →
       disjoint_ranges fb fb_size start size ∧ disjoint_ranges fb fb_size ram ram_size
       ∧ (initialize_runtime o = true → disjoint_ranges fb fb_size stack 2))
  ∧ (initialize_runtime o = true →
       disjoint_ranges stack 2 start size ∧ (ram_size = 0 ∨ ram + ram_size < stack)).
Proof.
  intros Ho HK%link_ok. cbv zeta. rewrite (final_rom_size _ _ _ HK).
  pose proof (lk_layout _ _ _ HK) as HL. pose proof (lk_overlaps _ _ _ HK) as Hov.
  unfold check_overlaps in Hov. cbv zeta in Hov. apply result_bind_ok in Hov as ([] & Hfb & _).
  pose proof (static_ram_apart o objects k Ho HK) as Hram.
  split; [|split; [|split]].
  - destruct Hram as [->|[Hd _]]; [right; left; done | done].
  - intros Eg. by apply (payload_in_bank o objects k).
  - intros Eb. rewrite Eb in Hfb. apply result_bind_ok in Hfb as ([] & H1%throw_if_ok & Hfb).
    apply result_bind_ok in Hfb as ([] & H2%throw_if_ok & H3%throw_if_ok).
    apply overlaps_false in H1, H2. split; [done|]. split; [done|]. intros Ei. rewrite Ei in H3.
    by apply overlaps_false in H3.
  - intros Ei. split.
    + destruct (lk_code _ _ _ HK) as (code & Hp & _). unfold patch_entry in Hp. rewrite Ei in Hp.
      cbn [negb] in Hp. destruct (final_addresses _ !! _) as [entry|]; [|done].
      apply result_bind_ok in Hp as (sec & _ & Hp). apply result_bind_ok in Hp as ([] & _ & Hp).
      cbv zeta in Hp. apply result_bind_ok in Hp as ([] & _ & Hp).
      apply result_bind_ok in Hp as (c1 & _ & Hp). apply result_bind_ok in Hp as (c2 & _ & Hp).
      apply result_bind_ok in Hp as ([] & Hst%throw_if_ok & _).
      destruct Ho as (Hb & Hor & Hsp). rewrite ram_base_add in Hst by (unfold options_wf; lia).
      pose proof (lo_data_start _ _ _ HL). unfold disjoint_ranges, payload_size.
      apply andb_false_iff in Hst as [H0|H0]; bool_facts; lia.
    + destruct Hram as [->|[_ Hr]]; [by left | right]. specialize (Hr Ei). lia.
Qed.

(* ------------------------------------------------------------------ *)
(** ** From the command line *)

Lemma digit_in_nonneg base c d : digit_in base c = Some d → 0 ≤ d.
Proof.
  unfold digit_in, digit_of. intros H.
  destruct ((48 <=? c) && (c <=? 57)) eqn:E1; [|destruct ((97 <=? c) && (c <=? 122)) eqn:E2;
    [|destruct ((65 <=? c) && (c <=? 90)) eqn:E3; [|done]]]; cbn in H; bool_facts;
    (destruct (Z.ltb_spec (if false then 0 else _) base) as [Hlt|Hlt] || idtac);
    repeat case_match; simplify_eq; lia.
Qed.

Lemma read_digits_nonneg base acc n l : 0 ≤ base → 0 ≤ acc → 0 ≤ fst (read_digits base acc n l).
Proof.
  intros Hb. revert acc n. induction l as [|c l IH]; intros acc n Ha; cbn [read_digits]; [done|].
  destruct (digit_in base c) as [d|] eqn:E; [|done]. apply digit_in_nonneg in E. apply IH. nia.
Qed.

Lemma stoul_range l base v n : 0 ≤ base → stoul l base = Ok (v, n) → 0 ≤ v < 2 ^ 64.
Proof.
  intros Hb H. unfold stoul in H. destruct (skip_space l) as [sp l1].
  destruct (read_sign l1) as [[minus sg] l2]. destruct (read_prefix base l2) as [[b p] l3] eqn:Ep.
  assert (0 ≤ b) as Hb'.
  { unfold read_prefix in Ep. cbv zeta in Ep. repeat case_match; simplify_eq; lia. }
  pose proof (read_digits_nonneg b 0 0 l3 Hb' ltac:(lia)) as Hm.
  destruct (read_digits b 0 0 l3) as [m k]. cbn [fst] in Hm.
  destruct (Nat.eqb k 0); [done|]. destruct (Z.leb_spec (2 ^ 64) m); [done|].
  destruct minus; injection H as <- <-; [|lia]. apply (uwrap_range 64). lia.
Qed.

Lemma parseOptionNumber_range text maximum v :
  maximum < 2 ^ 32 → parseOptionNumber text maximum = Ok v → 0 ≤ v ≤ maximum.
Proof.
  intros Hm H. unfold parseOptionNumber in H. apply result_bind_ok in H as ([] & _ & H).
  destruct (stoul _ 0) as [[w n]|e] eqn:E; [|by destruct e].
  apply stoul_range in E; [|done]. apply result_bind_ok in H as ([] & Hc%throw_if_ok & [= <-]).
  bool_facts. rewrite (uwrap_small 32) by lia. lia.
Qed.

(* ------------------------------------------------------------------ *)
(** ** A concrete link *)

(** Two objects: [main] calls [f] and loads the address of [table]; [f] loads
    the offset of a static variable. *)
Definition sample_config : CompilerConfig :=
  with_bitmap (Bitmap.mkBitmap true false 128 4 65536) default_config.
Definition sample_main : ObjectFile :=
  mkObject [255; 0; 0; 240; 0; 0; 1; 0] [] [] [mkSymbol "main" CODE 0]
    [mkRelocation "f" CODE 0 ADDR16_JAL; mkRelocation "table" CODE 3 ADDR24_OFFSET] sample_config 1 2.
Definition sample_f : ObjectFile :=
  mkObject [1; 241; 0; 0; 0] [5; 6; 7] [9] [mkSymbol "f" CODE 1; mkSymbol "table" DATA 1; mkSymbol "v" RAM 0]
    [mkRelocation "v" CODE 1 ADDR16_RAM] default_config 4 2.
Definition sample_objects : list ObjectFile := [sample_main; sample_f].
Definition sample_file (path : string) : result (list Z) :=
  if bool_decide (path = "main.o") then Ok (serialize sample_main)
  else if bool_decide (path = "f.o") then Ok (serialize sample_f)
  else Err (RuntimeError ("Failed to open object file for reading: " +:+ path)).
Definition sample_arguments : list string := ["--init-runtime"; "main.o"; "f.o"; "-o"; "out.bin"].
Definition sample_options : Options :=
  match parse_arguments sample_arguments default_options with Ok (inl o) => o | _ => default_options end.

(** The startup code, the two CODE sections, padding and DATA. *)
Example sample_rom :
  final_rom <$> link sample_options sample_objects
  = Ok [160; 0; 62; 223; 250; 0; 32; 160; 0; 241; 0; 4; 162; 1; 61; 49; 209; 226; 8; 250; 1;
        241; 0; 4; 160; 9; 61; 49; 255; 32; 128; 1; 255; 41; 128; 240; 49; 128; 1; 0;
        1; 241; 0; 4; 0; 1; 1; 1; 5; 6; 7].
Proof. vm_compute. reflexivity. Qed.

Ltac forall_wf := repeat constructor; unfold bytes_ok, byte_ok, Bitmap.wf; cbn; repeat (lia || done || constructor).

Lemma sample_objects_wf : Forall wf sample_objects.
Proof. forall_wf. Qed.

Lemma sample_objects_valid : Forall Valid sample_objects.
Proof.
  apply Forall_cons. split; [|apply Forall_cons; split; [|by apply Forall_nil]];
    apply validate_accepts; vm_compute; reflexivity.
Qed.

(** The link of the sample, with the facts about it that evaluation gives. *)
Lemma sample_link : ∃ k, link sample_options sample_objects = Ok k
  ∧ target (l_config (k_layout k)) = GSU ∧ zlen (final_rom k) = 51.
Proof.
  assert ((λ k, (target (l_config (k_layout k)), zlen (final_rom k)))
    <$> link sample_options sample_objects = Ok (GSU, 51)) as E by (vm_compute; reflexivity).
  destruct (link sample_options sample_objects) as [k|]; [|discriminate E].
  exists k. by injection E.
Qed.

Lemma link_relocates_witness : ∃ k b, link sample_options sample_objects = Ok k
  ∧ object_bases (k_layout k) sample_objects !! 0%nat = Some b
  ∧ is_Some (read_operand (k_code k) (b_code b) ADDR16_JAL).
Proof.
  destruct sample_link as (k & Hk & _).
  destruct (link_relocates sample_options sample_objects k 0 sample_main (mkRelocation "f" CODE 0 ADDR16_JAL)
    sample_objects_wf sample_objects_valid Hk eq_refl ltac:(left)) as (b & addr & sec & ins & Hb & _ & _ & Hop).
  exists k, b. split; [exact Hk|]. split; [exact Hb|].
  cbn [in_code section_to_patch r_type patch_offset patch_base] in Hop.
  rewrite Z.add_0_r in Hop. eexists. exact Hop.
Defined.

Lemma link_preserves_witness : ∃ k b, link sample_options sample_objects = Ok k
  ∧ object_bases (k_layout k) sample_objects !! 1%nat = Some b
  ∧ image k true !! (Z.to_nat (b_code b) + 4)%nat = Some 0.
Proof.
  destruct sample_link as (k & Hk & _).
  destruct (link_preserves sample_options sample_objects k 1 sample_f true 4 0
    sample_objects_wf sample_objects_valid Hk eq_refl eq_refl) as (b & Hb & Hx).
  { intros r Hr _. apply list_elem_of_singleton in Hr as ->. cbn. lia. }
  exists k, b. split; [exact Hk|]. split; [exact Hb | exact Hx].
Defined.

Lemma link_symbols_witness : ∃ k, link sample_options sample_objects = Ok k
  ∧ is_Some (final_addresses (l_symbols (k_layout k)) !! "table").
Proof.
  destruct sample_link as (k & Hk & _). exists k. split; [exact Hk|].
  destruct (link_symbols sample_options sample_objects k sample_objects_valid Hk) as (H & _ & _).
  destruct (H 1%nat (mkSymbol "table" DATA 1)) as (b & _ & Ha & _).
  { exists sample_f. split; [reflexivity|]. split; [right; left | reflexivity]. }
  eexists. exact Ha.
Defined.

Lemma link_calls_witness : ∃ k b v, link sample_options sample_objects = Ok k
  ∧ object_bases (k_layout k) sample_objects !! 0%nat = Some b
  ∧ read_operand (image k true) (b_code b + 0) ADDR16_JAL = Some v.
Proof.
  destruct sample_link as (k & Hk & Hg & _).
  destruct (link_calls sample_options sample_objects k 0 sample_main (mkRelocation "f" CODE 0 ADDR16_JAL)
    sample_objects_wf sample_objects_valid Hk Hg eq_refl ltac:(left) eq_refl)
    as (b & v & j & obj' & b' & offset & Hb & Hv & _).
  exists k, b, v. split; [exact Hk|]. split; [exact Hb | exact Hv].
Defined.

Lemma link_memory_witness : ∃ k, options_wf sample_options ∧ link sample_options sample_objects = Ok k
  ∧ code_start_address (l_config (k_layout k)) mod 65536 + 51 ≤ 65536.
Proof.
  destruct sample_link as (k & Hk & Hg & Hz). exists k.
  assert (options_wf sample_options) as Ho by (vm_compute; repeat split; discriminate).
  split; [exact Ho|]. split; [exact Hk|].
  destruct (link_memory sample_options sample_objects k Ho Hk) as (_ & H & _).
  rewrite <- Hz. exact (H Hg).
Defined.
