(* ===== verification/LinkCommand.v ===== *)
(** * LinkCommand: what a run of the linker links

    The command line of [discld] read declaratively: its arguments are items, an
    option with the value behind it or a single argument; a setting is what its last
    item says, the inputs are the arguments that are no options ([follows]).
    [runLinker] obeys it, holds every setting in its range ([permitted]), and links
    the objects its inputs hold ([loaded]). *)

From S2P Require Import Prelude Target Literal Object Startup Link LinkSound.

(* ------------------------------------------------------------------ *)
(** ** Command lines *)

Notation Item := (string * option string)%type.

(** The options that take the next argument as their value. *)
Definition valued : list string :=
  ["-o"; "--target"; "--memory-mapping"; "--execution-memory"; "--origin"; "--ram-bank"; "--ram-origin"; "--rom-bank";
   "--stack-pointer"; "--entry"; "--emit-asm"]%string.

Fixpoint split_arguments (arguments : list string) : list Item :=
  match arguments with
  | [] => []
  | arg :: rest =>
      if bool_decide (arg ∈ valued)
      then match rest with [] => [(arg, None)] | value :: rest => (arg, Some value) :: split_arguments rest end
      else (arg, None) :: split_arguments rest
  end.

(** An argument that is not an option. *)
Definition positional (arg : string) : bool := bool_decide (arg = "") || negb (front arg =? 45).
Definition inputs (items : list Item) : list string := List.filter positional (fst <$> items).

(** [a'] is what the last item of a name in [names] says, or [a]. *)
Definition set_by {A} (items : list Item) (names : list string) (says : Item → A → Prop) (a a' : A) : Prop :=
  match last (filter (λ it : Item, it.1 ∈ names) items) with Some it => says it a' | None => a' = a end.

Definition text_is (it : Item) (a : string) : Prop := it.2 = Some a.
Definition number_is (maximum : Z) (it : Item) (a : Z) : Prop := ∃ v, it.2 = Some v ∧ parseOptionNumber v maximum = Ok a.
Definition some_is {A} (says : Item → A → Prop) (it : Item) (a : option A) : Prop := ∃ x, a = Some x ∧ says it x.
Definition word_is {A} (words : list (string * A)) (it : Item) (a : A) : Prop := ∃ v, it.2 = Some v ∧ (v, a) ∈ words.
Definition switched (on : string) (it : Item) (a : bool) : Prop := a = bool_decide (it.1 = on).

(** The settings [o'] are those of [items], and those of [o] elsewhere. *)
Record follows (items : list Item) (o o' : Options) : Prop := {
  fo_inputs : object_files o' = object_files o ++ inputs items;
  fo_output : set_by items ["-o"] text_is (out_filepath o) (out_filepath o');
  fo_assembly : set_by items ["--emit-asm"; "--no-emit-asm"]
    (λ it a, if bool_decide (it.1 = "--emit-asm") then text_is it a else a = "") (assembly_filepath o) (assembly_filepath o');
  fo_entry : set_by items ["--entry"] text_is (entry_name o) (entry_name o');
  fo_origin : set_by items ["--origin"] (some_is (number_is 0xffffff)) (origin o) (origin o');
  fo_init : set_by items ["--init-runtime"; "--no-init-runtime"] (switched "--init-runtime")
    (initialize_runtime o) (initialize_runtime o');
  fo_runtime : runtime_options o' = runtime_options o || existsb (λ it, bool_decide (it.1 ∈ ["--stack-pointer"; "--entry"])) items;
  fo_ram_bank : set_by items ["--ram-bank"] (number_is 1) (ram_bank o) (ram_bank o');
  fo_stack : set_by items ["--stack-pointer"] (number_is 0xfffe) (stack_pointer o) (stack_pointer o');
  fo_rom_bank : set_by items ["--rom-bank"] (some_is (number_is 0x5f)) (rom_bank o) (rom_bank o');
  fo_ram_origin : set_by items ["--ram-origin"] (number_is 0xffff) (ram_origin o) (ram_origin o');
  fo_host : set_by items ["--host-initialized-globals"; "--no-host-initialized-globals"]
    (switched "--host-initialized-globals") (host_globals o) (host_globals o');
  fo_target : set_by items ["--target"] (some_is (word_is [("gsu", GSU); ("superfx", GSU); ("spc700", SPC700)]))
    (expected_target o) (expected_target o');
  fo_mapping : set_by items ["--memory-mapping"] (some_is (word_is [("lorom", LoROM); ("hirom", HiROM)]))
    (expected_mapping o) (expected_mapping o');
  fo_execution : set_by items ["--execution-memory"] (word_is [("rom", Placement.ExecRom); ("ram", Placement.ExecRam)])
    (execution o) (execution o')
}.

(** The ranges, and the settings that may not stand together. *)
Record permitted (o : Options) : Prop := {
  pe_origin : ∀ a, origin o = Some a → 0 ≤ a ≤ 0xffffff;
  pe_rom_bank : ∀ b, rom_bank o = Some b → 0 ≤ b ≤ 0x5f;
  pe_ram_bank : 0 ≤ ram_bank o ≤ 1;
  pe_ram_origin : 0 ≤ ram_origin o ≤ 0xfffe ∧ ram_origin o mod 2 = 0;
  pe_stack : 0 ≤ stack_pointer o ≤ 0xfffe;
  pe_initial_stack : initialize_runtime o = true → 8 ≤ stack_pointer o ∧ stack_pointer o mod 2 = 0;
  pe_runtime : runtime_options o = true → initialize_runtime o = true;
  pe_host : host_globals o = true → initialize_runtime o = false
}.

(** No output is written over an input or over the other. *)
Definition outputs_apart (samePath : string → string → bool) (o : Options) : Prop :=
  (assembly_filepath o ≠ "" → samePath (assembly_filepath o) (out_filepath o) = false) ∧
  ∀ input, input ∈ object_files o → samePath input (out_filepath o) = false ∧
    (assembly_filepath o ≠ "" → samePath input (assembly_filepath o) = false).

(** The objects in the input files: one each, in order, valid, for one target,
    mapping and origin, as asked for, within the budget. *)
Record loaded (file : string → result (list Z)) (o : Options) (objects : list ObjectFile) : Prop := {
  lo_read : Forall2 (λ path object, ∃ bytes, file path = Ok bytes ∧ read_stream path bytes = Ok object) (object_files o) objects;
  lo_wf : Forall wf objects;
  lo_valid : Forall Valid objects;
  lo_one : ∀ x y, x ∈ objects → y ∈ objects → target (config x) = target (config y) ∧ mapping (config x) = mapping (config y) ∧
    (origin o = None → code_start_address (config x) = code_start_address (config y));
  lo_target : ∀ t x, expected_target o = Some t → x ∈ objects → target (config x) = t;
  lo_mapping : ∀ m x, expected_mapping o = Some m → x ∈ objects → mapping (config x) = m;
  lo_budget : foldr Z.add 0 (object_size <$> objects) ≤ MaxObjectBytes
}.

(* ------------------------------------------------------------------ *)
(** ** The loop over the arguments *)

Lemma set_by_nil {A} names says (a : A) : set_by [] names says a a.
Proof. reflexivity. Qed.
Lemma set_by_one {A} it names says (a a1 : A) :
  (if bool_decide (it.1 ∈ names) then says it a1 else a1 = a) → set_by [it] names says a a1.
Proof. unfold set_by. rewrite filter_cons. case_bool_decide; [by rewrite decide_True by done|by rewrite decide_False by done]. Qed.
Lemma set_by_app {A} items items' names says (a a1 a2 : A) :
  set_by items names says a a1 → set_by items' names says a1 a2 → set_by (items ++ items') names says a a2.
Proof.
  unfold set_by. rewrite filter_app, last_app. intros H1 H2. destruct (last (filter _ items')); [done|]. by subst a2.
Qed.

Lemma follows_nil o : follows [] o o.
Proof. split; try apply set_by_nil; [by rewrite app_nil_r|by rewrite orb_false_r]. Qed.
Lemma follows_app items items' o o1 o2 : follows items o o1 → follows items' o1 o2 → follows (items ++ items') o o2.
Proof.
  intros H1 H2. destruct H1, H2. split; try (by eapply set_by_app).
  - rewrite fo_inputs1, fo_inputs0, <-app_assoc. f_equal. unfold inputs. by rewrite fmap_app, List.filter_app.
  - by rewrite fo_runtime1, fo_runtime0, existsb_app, orb_assoc.
Qed.

Lemma valued_dashed arg : arg ∈ valued → positional arg = false.
Proof. unfold valued. intros H. repeat (apply elem_of_cons in H as [->|H]; [done|]). by apply not_elem_of_nil in H. Qed.

(** One item with a known name: which settings it decides. *)
Ltac decided :=
  match goal with
  | |- context [bool_decide ?P] => let b := eval vm_compute in (bool_decide P) in
      lazymatch b with true => idtac | false => idtac end; change (bool_decide P) with b; cbv iota
  end.
Ltac one_option := split; first [reflexivity | exact (eq_sym (app_nil_r _)) | apply set_by_one; repeat decided; try done
  | cbn; rewrite ?orb_true_r, ?orb_false_r; reflexivity | idtac].


Lemma number_says maximum name value n : parseOptionNumber value maximum = Ok n → number_is maximum (name, Some value) n.
Proof. intros H. by exists value. Qed.
Lemma some_says {A} (says : Item → A → Prop) it x : says it x → some_is says it (Some x).
Proof. intros H. by exists x. Qed.
Lemma word_says {A} (words : list (string * A)) name value x : (value, x) ∈ words → word_is words (name, Some value) x.
Proof. intros H. by exists value. Qed.

(** Every option with a value. *)
Lemma value_option_follows arg value o o' : value_option arg value o = Some (Ok o') → arg ∈ valued ∧ follows [(arg, Some value)] o o'.
Proof.
  intros H. unfold value_option in H.
  repeat match type of H with (if bool_decide (arg = ?s) then _ else _) = _ =>
    destruct (bool_decide_reflect (arg = s)) as [->|_] end; try discriminate H;
    injection H as H; (split; [by apply (bool_decide_unpack _); vm_compute|]);
    try (apply result_bind_ok in H as (n & Hn & [= <-])); try subst o'; one_option; try apply some_says; try (by apply number_says); apply word_says.
  - unfold parseTarget in Hn. destruct (_ || _) eqn:E; [|case_bool_decide; [|done]]; injection Hn as <-; [|subst; by repeat constructor].
    apply orb_true_iff in E as [->%bool_decide_eq_true| ->%bool_decide_eq_true]; by repeat constructor.
  - apply throw_if_ok in Hn. do 2 case_bool_decide; subst; try done; by repeat constructor.
  - apply throw_if_ok in Hn. do 2 case_bool_decide; subst; try done; by repeat constructor.
Qed.

(** The options without a value, and [-o]. *)
Lemma flag_follows (arg : string) o o' : (arg, o') ∈ [("--no-init-runtime", set_init false o); ("--no-host-initialized-globals", set_host false o);
    ("--no-emit-asm", set_assembly "" o); ("--init-runtime", set_init true o); ("--host-initialized-globals", set_host true o)]%string →
  arg ∉ valued ∧ follows [(arg, None)] o o'.
Proof.
  intros H. rewrite !elem_of_cons, elem_of_nil in H.
  destruct H as [[= -> ->]|[[= -> ->]|[[= -> ->]|[[= -> ->]|[[= -> ->]|[]]]]]];
    (split; [by apply (bool_decide_unpack _); vm_compute|one_option]).
Qed.
Lemma output_follows value o : follows [("-o"%string, Some value)] o (set_out value o).
Proof. one_option. Qed.

(** An argument that is no option names an input. *)
Lemma input_follows arg o : positional arg = true → follows [(arg, None)] o (set_object arg o).
Proof.
  intros Hp. assert (∀ names, forallb (λ s, negb (positional s)) names = true → arg ∉ names) as Hnot.
  { intros names Hn Hin. rewrite forallb_forall in Hn. rewrite list_elem_of_In in Hin. specialize (Hn _ Hin). by rewrite Hp in Hn. }
  split; try (apply set_by_one; rewrite bool_decide_false by (by apply Hnot); reflexivity).
  - cbn. by rewrite Hp.
  - cbn [existsb fst]. rewrite bool_decide_false by (by apply Hnot). by rewrite orb_false_r.
Qed.

Lemma split_valued arg value rest : arg ∈ valued → split_arguments (arg :: value :: rest) = [(arg, Some value)] ++ split_arguments rest.
Proof. intros H. cbn [split_arguments]. by rewrite bool_decide_true. Qed.
Lemma split_single arg rest : arg ∉ valued → split_arguments (arg :: rest) = [(arg, None)] ++ split_arguments rest.
Proof. intros H. cbn [split_arguments]. by rewrite bool_decide_false. Qed.

Lemma parse_arguments_follows arguments o o' : parse_arguments arguments o = Ok (inl o') → follows (split_arguments arguments) o o'.
Proof.
  revert o. induction arguments as [arguments IH] using (induction_ltof1 _ (@length string)). intros o H.
  destruct arguments as [|arg rest]; [injection H as <-; apply follows_nil|].
  assert (∀ o1, parse_arguments rest o1 = Ok (inl o') → arg ∉ valued ∧ follows [(arg, None)] o o1 →
    follows (split_arguments (arg :: rest)) o o') as Hflag.
  { intros o1 H1 [Hv Hf]. rewrite split_single by done. eapply follows_app; [done|]. apply IH; [unfold ltof; cbn; lia|done]. }
  assert (∀ value tail o1, rest = value :: tail → parse_arguments tail o1 = Ok (inl o') → arg ∈ valued → follows [(arg, Some value)] o o1 →
    follows (split_arguments (arg :: rest)) o o') as Hvalue.
  { intros value tail o1 -> H1 Hv Hf. rewrite split_valued by done. eapply follows_app; [done|]. apply IH; [unfold ltof; cbn; lia|done]. }
  cbn [parse_arguments] in H. destruct (_ || _); [done|].
  destruct (bool_decide_reflect (arg = "-o")) as [->|_].
  { destruct rest as [|value tail]; [done|]. eapply Hvalue; [done|exact H|by constructor|apply output_follows]. }
  repeat match type of H with (if bool_decide (arg = ?s) then _ else _) = _ =>
    destruct (bool_decide_reflect (arg = s)) as [->|_]; [eapply Hflag; [exact H|]; apply flag_follows; by repeat constructor|] end.
  case_bool_decide as Hs.
  - destruct rest as [|value tail]; [done|]. destruct (value_option arg value o) as [r|] eqn:Er; [|done].
    apply result_bind_ok in H as (o1 & -> & H). destruct (value_option_follows _ _ _ _ Er). by eapply Hvalue.
  - destruct (negb _ && _) eqn:Hp; [done|]. eapply Hflag; [exact H|]. assert (positional arg = true) as Hpos.
    { unfold positional. apply andb_false_iff in Hp as [->%negb_false_iff| ->]; [done|]. by rewrite orb_true_r. }
    split; [|by apply input_follows]. intros Hv%valued_dashed. congruence.
Qed.

(* ------------------------------------------------------------------ *)
(** ** The checks *)

Lemma set_by_number (P : Z → Prop) maximum items names a a' : maximum < 2 ^ 32 → (∀ x, 0 ≤ x ≤ maximum → P x) → P a →
  set_by items names (number_is maximum) a a' → P a'.
Proof.
  unfold set_by. intros Hm HP Ha H. destruct (last _); [|by subst a'].
  destruct H as (v & _ & Hn). apply HP. by eapply parseOptionNumber_range.
Qed.
Lemma set_by_some (P : Z → Prop) maximum items names a : maximum < 2 ^ 32 → (∀ x, 0 ≤ x ≤ maximum → P x) →
  set_by items names (some_is (number_is maximum)) None a → ∀ x, a = Some x → P x.
Proof.
  unfold set_by. intros Hm HP H x ->. destruct (last _); [|done].
  destruct H as (y & [= <-] & v & _ & Hn). apply HP. by eapply parseOptionNumber_range.
Qed.

Lemma even_land x : Z.land x 1 = 0 → x mod 2 = 0.
Proof. intros H. change 1 with (Z.ones 1) in H. rewrite Z.land_ones in H by lia. done. Qed.

Lemma checked_permitted samePath items o : follows items default_options o → check_options samePath o = Ok tt → permitted o.
Proof.
  intros Hf H. unfold check_options in H.
  apply result_bind_ok in H as ([] & H1%throw_if_ok & H). apply result_bind_ok in H as ([] & H2%throw_if_ok & H).
  apply result_bind_ok in H as ([] & H3%throw_if_ok & H). apply result_bind_ok in H as ([] & H4%throw_if_ok & _).
  apply negb_false_iff, Z.eqb_eq in H2. pose proof (even_land _ H2) as Heven.
  pose proof (fo_ram_bank _ _ _ Hf) as B. apply (set_by_number (λ x, 0 ≤ x ≤ 1) 1) in B; [|lia|done|cbn; lia].
  pose proof (fo_ram_origin _ _ _ Hf) as R. apply (set_by_number (λ x, 0 ≤ x ≤ 65535) 65535) in R; [|lia|done|cbn; lia].
  pose proof (fo_stack _ _ _ Hf) as S. apply (set_by_number (λ x, 0 ≤ x ≤ 65534) 65534) in S; [|lia|done|cbn; lia].
  split; try done.
  - intros a. by eapply (set_by_some (λ x, 0 ≤ x ≤ 0xffffff)); [..|exact (fo_origin _ _ _ Hf)].
  - intros b. by eapply (set_by_some (λ x, 0 ≤ x ≤ 0x5f)); [..|exact (fo_rom_bank _ _ _ Hf)].
  - split; [|done]. cbv beta in *. assert (ram_origin o ≠ 65535) by (intros E; by rewrite E in Heven). lia.
  - intros Hi. rewrite Hi in H4. cbn in H4. apply orb_false_iff in H4 as [H4%Z.ltb_ge H5%negb_false_iff%Z.eqb_eq].
    split; [done|by apply even_land].
  - intros Hr. rewrite Hr in H1. by destruct (initialize_runtime o).
  - intros Hh. rewrite Hh in H3. by destruct (initialize_runtime o).
Qed.

Lemma checked_apart samePath o : check_options samePath o = Ok tt → outputs_apart samePath o.
Proof.
  intros H. unfold check_options in H. do 4 apply result_bind_ok in H as ([] & _ & H).
  apply result_bind_ok in H as ([] & H1%throw_if_ok & H). rewrite forM_ok, Forall_forall in H. split.
  - intros Ha. by rewrite (bool_decide_false _ Ha) in H1.
  - intros input Hin. specialize (H input Hin). apply throw_if_ok, orb_false_iff in H as [H2 H3]. split; [done|].
    intros Ha. by rewrite (bool_decide_false _ Ha) in H3.
Qed.

(** Such options are what the theorems on memory and on booting ask for. *)
Lemma permitted_wf o : permitted o → options_wf o.
Proof. intros []. unfold options_wf. lia. Qed.

(* ------------------------------------------------------------------ *)
(** ** Loading *)

(** One target, mapping and, unless the command line gives it, origin. *)
Definition matching (o : Options) (x y : ObjectFile) : Prop :=
  target (config x) = target (config y) ∧ mapping (config x) = mapping (config y) ∧
  (origin o = None → code_start_address (config x) = code_start_address (config y)).

Lemma matching_of o x y : config_eqb (with_origin o (config x)) (with_origin o (config y)) = true → matching o x y.
Proof. rewrite config_eqb_spec. unfold with_origin, matching. destruct (origin o); naive_solver. Qed.

(** What the input loop has loaded. *)
Record loading (o : Options) (s : Loaded) : Prop := {
  ll_front : ∀ x, head (ld_objects s) = Some x → (∀ t, expected_target o = Some t → target (config x) = t) ∧
    (∀ m, expected_mapping o = Some m → mapping (config x) = m);
  ll_one : ∀ x y, head (ld_objects s) = Some x → y ∈ ld_objects s → matching o x y;
  ll_record : ld_record s = foldr Z.add 0 (object_size <$> ld_objects s);
  ll_budget : ld_record s ≤ MaxObjectBytes
}.

Lemma sum_snoc l x : foldr Z.add 0 (l ++ [x]) = foldr Z.add 0 l + x.
Proof. induction l as [|y l IH]; cbn; [lia|]. rewrite IH. lia. Qed.

Lemma load_object_loading o s object s' : loading o s → load_object o s object = Ok s' →
  loading o s' ∧ ld_objects s' = ld_objects s ++ [object].
Proof.
  intros [L1 L2 L3 L4] H. unfold load_object in H. apply result_bind_ok in H as ([] & Hx & H).
  apply result_bind_ok in H as ([] & Hb%throw_if_ok%Z.ltb_ge & H). apply result_bind_ok in H as ([] & Hm & H). cbv zeta in H.
  assert (ld_objects s' = ld_objects s ++ [object] ∧ ld_record s' = ld_record s + object_size object) as [Eo Er].
  { destruct (bool_decide _); [|by injection H as <-]. apply result_bind_ok in H as ([] & _ & H).
    by apply result_bind_ok in H as ([] & _ & [= <-]). }
  split; [|done]. split.
  - rewrite Eo. intros x. destruct (ld_objects s) as [|front l] eqn:E; [|by apply L1]. intros [= <-].
    unfold expect_target in Hx. apply result_bind_ok in Hx as ([] & H1%throw_if_ok & H2%throw_if_ok).
    split; intros z Hz; rewrite Hz in *; [apply negb_false_iff, bool_decide_eq_true in H1|apply negb_false_iff, bool_decide_eq_true in H2]; done.
  - rewrite Eo. intros x y. destruct (ld_objects s) as [|front l] eqn:E; cbn; intros [= <-].
    + intros Hy%list_elem_of_singleton. by subst y.
    + intros [->|[Hy|Hy%list_elem_of_singleton]%elem_of_app]%elem_of_cons; [done|apply L2; [done|by right]|subst y].
      apply throw_if_ok, negb_false_iff in Hm. by apply matching_of.
  - rewrite Eo, Er, fmap_app. change (object_size <$> [object]) with [object_size object]. by rewrite sum_snoc, L3.
  - rewrite Er. lia.
Qed.

Lemma load_loaded (file : string → result (list Z)) o paths s s' :
  (∀ path bytes, file path = Ok bytes → bytes_ok bytes) → loading o s →
  foldM (λ s path, object ← read_object file path; load_object o s object) s paths = Ok s' →
  ∃ objects, Forall2 (λ path object, ∃ bytes, file path = Ok bytes ∧ read_stream path bytes = Ok object) paths objects
    ∧ ld_objects s' = ld_objects s ++ objects ∧ Forall wf objects ∧ Forall Valid objects ∧ loading o s'.
Proof.
  intros Hf. revert s. induction paths as [|path paths IH]; intros s Hs H; cbn [foldM] in H.
  - injection H as <-. exists []. rewrite app_nil_r. split_and!; try done; constructor.
  - apply result_bind_ok in H as (s1 & H1 & H2). apply result_bind_ok in H1 as (object & Hr & H1).
    destruct (load_object_loading _ _ _ _ Hs H1) as [Hs1 E1]. apply (IH _ Hs1) in H2 as (objects & Hm & -> & Hw & Hv & Hs').
    apply result_bind_ok in Hr as (bytes & Hb & Hr). destruct (read_stream_wf _ _ _ (Hf _ _ Hb) Hr) as [Hwf Hval].
    exists (object :: objects). split; [constructor; [by exists bytes|done]|]. rewrite E1, <-app_assoc.
    split; [done|]. split; [by constructor|]. split; [by constructor|done].
Qed.

(** C30. A run of the linker that produces a payload is a link of the objects its
    command line names.  The options are those of the command line: each setting what
    its last item says, numbers read in range, the inputs the arguments that are no
    options, in order and at least one.  The settings are in their ranges and none
    contradicts another; no output has the name of an input or of the other output.
    The objects are those the input files hold, one each and in order, all valid, of
    one target, mapping and origin, those asked for if any were, within the budget. *)
Theorem runLinker_links (samePath : string → string → bool) (file : string → result (list Z)) arguments k :
  (∀ path bytes, file path = Ok bytes → bytes_ok bytes) →
  runLinker samePath file arguments = Ok (inl k) →
  ∃ o objects, follows (split_arguments arguments) default_options o ∧ object_files o ≠ [] ∧ permitted o
    ∧ outputs_apart samePath o ∧ loaded file o objects ∧ link o objects = Ok k.
Proof.
  intros Hf H. unfold runLinker in H. destruct (bool_decide _); [done|].
  apply result_bind_ok in H as ([o|st] & Hp & H); [|done]. apply parse_arguments_follows in Hp.
  apply result_bind_ok in H as ([] & Hc & H). case_bool_decide as Hne; [done|].
  apply result_bind_ok in H as (objects & Hl & H). apply result_bind_ok in H as (k' & Hk & [= <-]).
  unfold load in Hl. apply result_bind_ok in Hl as (s & Hs & [= <-]).
  apply (load_loaded _ _ _ _ _ Hf) in Hs as (objects & Hr & Ho & Hw & Hv & [L1 L2 L3 L4]); [|by split].
  cbn [ld_objects app] in Ho. rewrite Ho in *. exists o, objects. split; [done|]. split; [done|].
  split; [by eapply checked_permitted|]. split; [by apply checked_apart|]. split; [|done].
  destruct objects as [|front rest]; [by apply Forall2_nil_inv_r in Hr|]. specialize (L2 front). destruct (L1 front eq_refl) as [Lt Lm].
  split; try done.
  - intros x y Hx%(L2 _ eq_refl) Hy%(L2 _ eq_refl). unfold matching in *. naive_solver congruence.
  - intros t x Ht Hx%(L2 _ eq_refl). rewrite <-(Lt t Ht). symmetry. apply Hx.
  - intros m x Hm Hx%(L2 _ eq_refl). rewrite <-(Lm m Hm). symmetry. apply Hx.
  - by rewrite <- L3.
Qed.

(* ------------------------------------------------------------------ *)
(** ** A concrete run *)

Lemma sample_file_bytes path bytes : sample_file path = Ok bytes → bytes_ok bytes.
Proof.
  assert (∀ l, forallb (λ x, (0 <=? x) && (x <? 256)) l = true → bytes_ok l) as Hall.
  { intros l Hl. apply Forall_forall. intros x Hx. rewrite forallb_forall in Hl.
    specialize (Hl x (proj1 (list_elem_of_In _ _) Hx)). unfold byte_ok. bool_facts. lia. }
  unfold sample_file. intros H. repeat (destruct (bool_decide _); [injection H as <-; apply Hall; vm_compute; reflexivity|]).
  discriminate H.
Qed.

Lemma runLinker_links_witness : ∃ k o objects,
  runLinker (λ a b, bool_decide (a = b)) sample_file sample_arguments = Ok (inl k)
  ∧ object_files o = ["main.o"; "f.o"]%string ∧ out_filepath o = "out.bin"%string ∧ permitted o
  ∧ loaded sample_file o objects ∧ link o objects = Ok k.
Proof.
  assert ((λ r, match r with inl _ => true | inr _ => false end)
    <$> runLinker (λ a b, bool_decide (a = b)) sample_file sample_arguments = Ok true) as E
    by (vm_compute; reflexivity).
  destruct (runLinker (λ a b, bool_decide (a = b)) sample_file sample_arguments) as [[k|]|] eqn:Er;
    [|discriminate E|discriminate E].
  destruct (runLinker_links (λ a b, bool_decide (a = b)) sample_file sample_arguments k sample_file_bytes Er)
    as (o & objects & Hf & _ & Hp & _ & Hl & Hk).
  exists k, o, objects. split; [reflexivity|]. split; [exact (fo_inputs _ _ _ Hf)|]. split.
  { assert (Some "out.bin"%string = Some (out_filepath o)) as H by exact (fo_output _ _ _ Hf). by injection H. }
  split; [exact Hp|]. split; [exact Hl|exact Hk].
Defined.
