(* ===== verification/AsmText.v ===== *)
(** * AsmText: the text of the assembler

    Models the reading half of [Assembler.cpp]: white space, identifiers,
    operands, numbers, registers, and the parser that cuts a source into lines
    and takes the configuration from its [.define]s.  A text is a [string]; the
    character classes are those of the C locale. *)

From S2P Require Import Prelude Target Token Lexer Literal.

(** ** Characters *)

Notation code_of := z_of_ascii.

Definition quote : string := chr 34.

(** [" \t\r\n"] *)
Definition blank (c : Ascii.ascii) : bool :=
  let z := code_of c in (z =? 32) || (z =? 9) || (z =? 13) || (z =? 10).
(** What [operator>>] skips. *)
Definition space (c : Ascii.ascii) : bool := isSpace (code_of c).
Definition is_char (z : Z) (c : Ascii.ascii) : bool := code_of c =? z.
Definition alpha (c : Ascii.ascii) : bool :=
  let z := code_of c in ((65 <=? z) && (z <=? 90)) || ((97 <=? z) && (z <=? 122)).
Definition digit (c : Ascii.ascii) : bool := (48 <=? code_of c) && (code_of c <=? 57).

Definition lower_char (c : Ascii.ascii) : Ascii.ascii :=
  if (65 <=? code_of c) && (code_of c <=? 90) then ascii_of_z (code_of c + 32) else c.
Fixpoint lower (s : string) : string :=
  match s with "" => "" | String c s => String (lower_char c) (lower s) end.

(** ** Pieces of a text *)

Fixpoint drop_while (p : Ascii.ascii → bool) (s : string) : string :=
  match s with String c r => if p c then drop_while p r else s | "" => "" end.
Fixpoint take_until (p : Ascii.ascii → bool) (s : string) : string :=
  match s with String c r => if p c then "" else String c (take_until p r) | "" => "" end.
Fixpoint drop_until (p : Ascii.ascii → bool) (s : string) : string :=
  match s with String c r => if p c then s else drop_until p r | "" => "" end.
Fixpoint drop_trailing (p : Ascii.ascii → bool) (s : string) : string :=
  match s with
  | "" => ""
  | String c r =>
      let r := drop_trailing p r in
      if p c && bool_decide (r = "") then "" else String c r
  end.

Definition trim (s : string) : string := drop_trailing blank (drop_while blank s).

(** [s.find_first_of(...)] *)
Fixpoint find_char (p : Ascii.ascii → bool) (s : string) : option nat :=
  match s with
  | "" => None
  | String c r => if p c then Some O else S <$> find_char p r
  end.
Fixpoint skip (n : nat) (s : string) : string :=
  match n, s with S n, String _ r => skip n r | _, _ => s end.
Fixpoint first_chars (n : nat) (s : string) : string :=
  match n, s with S n, String c r => String c (first_chars n r) | _, _ => "" end.
Fixpoint last_char (s : string) : option Ascii.ascii :=
  match s with "" => None | String c "" => Some c | String _ r => last_char r end.
Definition front_is (z : Z) (s : string) : bool := match s with String c _ => is_char z c | "" => false end.
Definition back_is (z : Z) (s : string) : bool := match last_char s with Some c => is_char z c | None => false end.
(** [s.substr(1)] and [s.substr(k, s.size() - k - 1)] *)
Definition inner (k : nat) (s : string) : string := first_chars (String.length s - k - 1) (skip k s).

(** The lines of [std::getline]. *)
Fixpoint split_lines (s : string) : list string :=
  match s with
  | "" => []
  | String c r =>
      if is_char 10 c then "" :: split_lines r
      else match split_lines r with
           | l :: ls => String c l :: ls
           | [] => [String c ""]
           end
  end.

(** The words [operator>>] reads from a stream, one after the other. *)
Fixpoint words (fuel : nat) (s : string) : list string :=
  match fuel, drop_while space s with
  | S fuel, String _ _ as s => take_until space s :: words fuel (drop_until space s)
  | _, _ => []
  end.

(** ** Identifiers and operands *)

Definition name_char (c : Ascii.ascii) : bool := is_char 95 c || is_char 46 c || is_char 36 c.
Fixpoint all_chars (p : Ascii.ascii → bool) (s : string) : bool :=
  match s with "" => true | String c r => p c && all_chars p r end.
Definition isIdentifier (s : string) : bool :=
  match s with
  | "" => false
  | String c r => (alpha c || name_char c) && all_chars (λ c, alpha c || digit c || name_char c) r
  end.

(** Operands are cut at commas outside quotes and parentheses. *)
Fixpoint split_loop (text current : string) (parentheses : Z) (quoted : bool) : list string :=
  match text with
  | "" => let tail := trim current in if bool_decide (tail = "") then [] else [tail]
  | String c text =>
      let quoted := if is_char 34 c then negb quoted else quoted in
      if quoted then split_loop text (current +:+ String c "") parentheses quoted else
      let parentheses := if is_char 40 c then parentheses + 1 else parentheses in
      let parentheses := if is_char 41 c then parentheses - 1 else parentheses in
      if is_char 44 c && (parentheses =? 0) then trim current :: split_loop text "" parentheses quoted
      else split_loop text (current +:+ String c "") parentheses quoted
  end.
Definition splitOperands (text : string) : list string := split_loop text "" 0 false.

Definition withoutHash (value : string) : string :=
  let value := trim value in
  trim (if front_is 35 value then skip 1 value else value).

(** ** Numbers and registers *)

(** A number, with the sign and the base prefix removed before [std::stoll]. *)
Definition parseNumber (text : string) : option Z :=
  let token := withoutHash text in
  let negative := front_is 45 token in
  let token := if negative || front_is 43 token then skip 1 token else token in
  let '(base, token) :=
    if front_is 36 token then (16, skip 1 token)
    else if (1 <? slen token) && front_is 37 token then (2, skip 1 token) else (0, token) in
  if bool_decide (token = "") then None else
  match stoll (bytes_of_string token) base with
  | Ok (parsed, consumed) =>
      if negb (Z.of_nat consumed =? slen token) || (parsed <? 0) then None
      else Some (if negative then - parsed else parsed)
  | Err _ => None
  end.

(** -1 for what is no register. *)
Definition parseRegister (text : string) : Z :=
  let name := lower (trim text) in
  if bool_decide (name = "sp") then 10
  else if bool_decide (name = "pc") then 15
  else if (slen name <? 2) || negb (front_is 114 name) then -1
  else match parseNumber (skip 1 name) with
       | Some value => if (value <? 0) || (15 <? value) then -1 else value
       | None => -1
       end.

Definition parseMemoryRegister (text : string) : Z :=
  let value := trim text in
  if (slen value <? 4) || negb (front_is 40 value) || negb (back_is 41 value) then -1
  else parseRegister (inner 1 value).

(* ------------------------------------------------------------------ *)
(** ** Lines *)

Inductive Section_ := SecNone | SecCode | SecData | SecRam.
#[global] Instance Section_eq_dec : EqDecision Section_.
Proof. solve_decision. Defined.

Record ParsedLine := mkLine {
  line_number : Z;
  line_section : Section_;
  label : string;
  operation : string;
  operands : list string
}.

(** [CompilerError("Assembler: " + message, line, 1)] *)
Definition fail {A} (message : string) (line : Z) : result A :=
  Err (CompileError ("Assembler: " +:+ message) line 1).

(** What the [.define]s set. *)
Record Settings := mkSettings {
  st_config : CompilerConfig;
  st_data_alignment : Z;
  st_ram_alignment : Z;
  st_cache_alignment : bool;
  st_defined : gset string
}.
Definition default_settings : Settings := mkSettings default_config 1 2 false ∅.

Definition with_config (c : CompilerConfig) (s : Settings) : Settings :=
  mkSettings c (st_data_alignment s) (st_ram_alignment s) (st_cache_alignment s) (st_defined s).

Definition config_names : list string :=
  ["__DISCO_MEMORY_MAPPING"; "__DISCO_CODE_START_ADDRESS"; "__DISCO_DATA_ALIGNMENT"; "__DISCO_RAM_ALIGNMENT";
   "__DISCO_CODE_ALIGNMENT"; "__DISCO_BITMAP_SCBR"; "__DISCO_BITMAP_SCMR"].

(** [SCBR] and [SCMR]. *)
Definition bitmap_definition (name value : string) (line : Z) (s : Settings) : result Settings :=
  match parseNumber value with
  | None => fail "Invalid bitmap register value." line
  | Some number =>
      if (number <? 0) || (255 <? number) then fail "Invalid bitmap register value." line else
      let b := bitmap (st_config s) in
      if bool_decide (name = "__DISCO_BITMAP_SCBR") then
        Ok (with_config (with_bitmap (Bitmap.mkBitmap true (Bitmap.object_mode b) (Bitmap.height b) (Bitmap.depth b)
                                        (Z.shiftl number 10)) (st_config s)) s)
      else if negb (Z.land number (Z.lnot 0x27) =? 0) || (Z.land number 3 =? 2)
      then fail "Invalid bitmap SCMR mode bits (ownership bits are host-owned)." line
      else
        let depth := if Z.land number 3 =? 3 then 8 else if Z.land number 3 =? 1 then 4 else 2 in
        let object_mode := Z.land number 0x24 =? 0x24 in
        let height := if object_mode then 256 else if negb (Z.land number 0x20 =? 0) then 192
                      else if negb (Z.land number 4 =? 0) then 160 else 128 in
        Ok (with_config (with_bitmap (Bitmap.mkBitmap true object_mode height depth (Bitmap.base b)) (st_config s)) s)
  end.

Definition mapping_definition (value : string) (line : Z) (s : Settings) : result Settings :=
  m ← (if bool_decide (value = "lorom") then Ok LoROM
       else if bool_decide (value = "hirom") then Ok HiROM
       else fail "memory mapping must be lorom or hirom." line);
  let c := with_mapping m (st_config s) in
  Ok (with_config (if bool_decide ("__DISCO_CODE_START_ADDRESS" ∈ st_defined s) then c
                   else with_start (if bool_decide (m = LoROM) then 0x008000 else 0x408000) c) s).

Definition alignment_definition (name value : string) (line : Z) (s : Settings) : result Settings :=
  match parseNumber value with
  | Some a =>
      if (a <? 1) || (128 <? a) || negb (Z.land a (a - 1) =? 0)
      then fail "Section alignment must be a power of two in 1..128." line
      else Ok (if bool_decide (name = "__DISCO_DATA_ALIGNMENT")
               then mkSettings (st_config s) a (st_ram_alignment s) (st_cache_alignment s) (st_defined s)
               else mkSettings (st_config s) (st_data_alignment s) a (st_cache_alignment s) (st_defined s))
  | None => fail "Section alignment must be a power of two in 1..128." line
  end.

Definition parseConfigDefinition (rest : string) (line : Z) (s : Settings) : result Settings :=
  match words (S (String.length rest)) rest with
  | [name; value] =>
      if negb (bool_decide (name ∈ config_names)) then fail ("unsupported .define name '" +:+ name +:+ "'.") line else
      if bool_decide (name ∈ st_defined s) then fail ("duplicate configuration definition '" +:+ name +:+ "'.") line else
      let s := mkSettings (st_config s) (st_data_alignment s) (st_ram_alignment s) (st_cache_alignment s)
                 ({[name]} ∪ st_defined s) in
      if bool_decide (name = "__DISCO_CODE_ALIGNMENT") then
        if bool_decide (value = "16")
        then Ok (mkSettings (st_config s) (st_data_alignment s) (st_ram_alignment s) true (st_defined s))
        else fail "GSU CODE alignment hint must be 16." line
      else if bool_decide (name ∈ ["__DISCO_BITMAP_SCBR"; "__DISCO_BITMAP_SCMR"]) then bitmap_definition name value line s
      else if bool_decide (name = "__DISCO_MEMORY_MAPPING") then mapping_definition value line s
      else if bool_decide (name ∈ ["__DISCO_DATA_ALIGNMENT"; "__DISCO_RAM_ALIGNMENT"])
      then alignment_definition name value line s
      else match parseNumber value with
           | Some address =>
               if (address <? 0) || (0xFFFFFF <? address) then fail "code start address must fit in 24 bits." line
               else Ok (with_config (with_start address (st_config s)) s)
           | None => fail "code start address must fit in 24 bits." line
           end
  | _ => fail ".define expects one reserved configuration name and value." line
  end.

(** ** The parser *)

Record Parser := mkParser { p_lines : list ParsedLine; p_current : Section_; p_number : Z; p_settings : Settings }.

(** The label of a line, when the colon comes before any blank, and the rest. *)
Definition split_label (raw : string) (line : Z) : result (string * string) :=
  match find_char (is_char 58) raw with
  | None => Ok ("", raw)
  | Some colon =>
      if match find_char (λ c, is_char 32 c || is_char 9 c) raw with None => true | Some w => Nat.ltb colon w end then
        let l := trim (first_chars colon raw) in
        if isIdentifier l then Ok (l, trim (skip (S colon) raw)) else fail ("invalid label '" +:+ l +:+ "'.") line
      else Ok ("", raw)
  end.

Definition segment_of (operands : list string) (line : Z) : result Section_ :=
  match operands with
  | [operand] =>
      let name := lower operand in
      if bool_decide (name = quote +:+ "code" +:+ quote) then Ok SecCode
      else if bool_decide (name = quote +:+ "data" +:+ quote) then Ok SecData
      else if bool_decide (name = quote +:+ "ram" +:+ quote) then Ok SecRam
      else fail ("unsupported segment " +:+ operand +:+ ".") line
  | _ => fail ".segment expects one name." line
  end.

Definition parse_line (p : Parser) (raw : string) : result Parser :=
  let number := p_number p + 1 in
  let raw := trim (take_until (is_char 59) raw) in
  if bool_decide (raw = "") then Ok (mkParser (p_lines p) (p_current p) number (p_settings p)) else
  '(l, raw) ← split_label raw number;
  if negb (bool_decide (l = "")) && bool_decide (raw = "")
  then Ok (mkParser (p_lines p ++ [mkLine number (p_current p) l "" []]) (p_current p) number (p_settings p)) else
  let statement := drop_while space raw in
  let op := lower (take_until space statement) in
  let rest := drop_until space statement in
  s ← (if bool_decide (op = ".define") then parseConfigDefinition rest number (p_settings p) else Ok (p_settings p));
  let line := mkLine number (p_current p) l op (splitOperands rest) in
  current ← (if bool_decide (op = ".segment") then segment_of (operands line) number else Ok (p_current p));
  Ok (mkParser (p_lines p ++ [line]) current number s).

Definition parse (source : string) : result (list ParsedLine * Settings) :=
  p ← foldM parse_line (mkParser [] SecNone 0 default_settings) (split_lines source);
  Ok (p_lines p, p_settings p).
