(* ===== verification/Encode.v ===== *)
(** * Encode: the instruction encoder of the assembler

    Models [encodeInstruction] of [Assembler.cpp] and everything it calls.  An
    encoder is run twice: without an output, to learn the size of an instruction,
    and with one.  The output carries the bytes of the section, if there is one,
    the relocations and the branches to be resolved; an encoder returns it with
    the size it reports. *)

From S2P Require Import Prelude Target Object AsmText.

Record BranchFixup := mkFixup { f_patch : Z; f_target : string; f_line : Z }.

Record Output := mkOutput {
  out : option (list Z);
  o_relocations : list RelocationEntry;
  o_fixups : list BranchFixup
}.

Notation "o |> f" := (f o) (at level 60, right associativity, only parsing).
Notation "f >> g" := (λ o, g (f o)) (at level 58, left associativity, only parsing).

Definition emitByte (value : Z) (o : Output) : Output :=
  mkOutput ((λ l, l ++ [u8 value]) <$> out o) (o_relocations o) (o_fixups o).
Definition emitWord (value : Z) (o : Output) : Output :=
  emitByte (Z.land (Z.shiftr value 8) 0xff) (emitByte (Z.land value 0xff) o).
(** [if (out) m_object.relocation_table.push_back(...)] *)
Definition addRelocation (r : RelocationEntry) (o : Output) : Output :=
  match out o with
  | Some _ => mkOutput (out o) (o_relocations o ++ [r]) (o_fixups o)
  | None => o
  end.
Definition addFixup (f : BranchFixup) (o : Output) : Output :=
  match out o with
  | Some _ => mkOutput (out o) (o_relocations o) (o_fixups o ++ [f])
  | None => o
  end.
(** [out ? out->size() : 0] *)
Definition patch_at (o : Output) : Z := match out o with Some l => zlen l | None => 0 end.

Definition symbolSection (s : Section_) : SymbolSection :=
  match s with SecCode => CODE | SecData => DATA | _ => RAM end.

Definition InternalSymbolPrefix : string := chr 1.

(** A name in a table of the code. *)
Fixpoint assoc (op : string) (table : list (string * Z)) : option Z :=
  match table with
  | [] => None
  | (name, opcode) :: table => if String.eqb op name then Some opcode else assoc op table
  end.
Definition one_of (op : string) (names : list string) : bool := existsb (String.eqb op) names.

(** ** Operands *)

Section Operands.
Context (line : ParsedLine).
Notation err m := (fail m (line_number line)).

(** [line.operands[n]], which [requireOperands] has checked. *)
Definition operand (n : nat) : string := default "" (operands line !! n).
Definition operand_count : Z := zlen (operands line).

Definition requireOperands (count : Z) : result unit :=
  if negb (operand_count =? count)
  then err (operation line +:+ " expects " +:+ pretty count +:+ " operand(s).") else Ok tt.

Definition requireRegister (operand : string) : result Z :=
  let reg := parseRegister operand in
  if reg <? 0 then err ("invalid register '" +:+ operand +:+ "'.") else Ok reg.

Definition requireMemoryRegister (operand : string) : result Z :=
  let reg := parseMemoryRegister operand in
  if (reg <? 0) || (11 <? reg) then err ("invalid indirect register '" +:+ operand +:+ "'.") else Ok reg.

Definition requireWord (operand : string) : result Z :=
  match parseNumber operand with
  | Some value =>
      if (value <? -32768) || (65535 <? value)
      then err ("expected a 16-bit numeric value, got '" +:+ operand +:+ "'.") else Ok (u16 value)
  | None => err ("expected a 16-bit numeric value, got '" +:+ operand +:+ "'.")
  end.

Definition requireByte (operand : string) : result Z :=
  match parseNumber operand with
  | Some value =>
      if (value <? 0) || (255 <? value)
      then err ("expected an 8-bit numeric value, got '" +:+ operand +:+ "'.") else Ok (u8 value)
  | None => err ("expected an 8-bit numeric value, got '" +:+ operand +:+ "'.")
  end.

(** [name.compare(0, p.size(), p) == 0 && name.back() == ')'], with something
    between: the text inside [p...)]. *)
Definition wrapped (p name : string) : option string :=
  if (slen p + 1 <? slen name) && starts_with p name && back_is 41 name
  then Some (inner (String.length p) name) else None.

Definition emitImmediateWord (reg : Z) (text : string) (relocation : RelocationType) (o : Output) : result Output :=
  let patch := patch_at o in
  let o := emitByte (Z.lor 0xf0 reg) o in
  match parseNumber text with
  | Some value =>
      if (value <? -32768) || (65535 <? value) then err "word immediate is out of range."
      else Ok (emitWord (u16 value) o)
  | None =>
      let name := withoutHash text in
      let '(name, relocation) :=
        match wrapped "lo24(" name with Some n => (n, ADDR24_OFFSET) | None => (name, relocation) end in
      let '(name, relocation) :=
        match wrapped "ram(" name with Some n => (n, ADDR16_RAM) | None => (name, relocation) end in
      if negb (isIdentifier name) then err ("invalid symbolic immediate '" +:+ text +:+ "'.") else
      Ok (addRelocation (mkRelocation name (symbolSection (line_section line)) (u32 patch) relocation) (emitWord 0 o))
  end.

(** ** Branches *)

Definition branches : list (string * Z) :=
  [("bra", 0x05); ("bge", 0x06); ("blt", 0x07); ("bne", 0x08); ("beq", 0x09); ("bpl", 0x0a); ("bmi", 0x0b);
   ("bcc", 0x0c); ("bcs", 0x0d); ("bvc", 0x0e); ("bvs", 0x0f)].

(** The branch on the opposite condition. *)
Definition inverse (opcode : Z) : result Z :=
  if (6 <=? opcode) && (opcode <=? 15) then Ok (Z.lxor opcode 1) else Err OutOfRange.

Definition absolute_jump (patch : Z) : RelocationEntry :=
  mkRelocation (InternalSymbolPrefix +:+ operand 0) CODE (u32 patch) ADDR16_IWT.

Definition encodeBranch (relaxed : gset Z) (opcode : Z) (o : Output) : result (Output * Z) :=
  requireOperands 1;;
  if negb (bool_decide (line_section line = SecCode))
  then err ("branches are only valid in .segment " +:+ quote +:+ "CODE" +:+ quote +:+ ".") else
  let patch := patch_at o in
  if bool_decide (line_number line ∈ relaxed) then
    if bool_decide (operation line = "bra") then
      Ok (o |> (emitByte 0xff >> emitWord 0 >> addRelocation (absolute_jump patch) >> emitByte 0x01), 4)
    else
      i ← inverse opcode;
      Ok (o |> (emitByte i >> emitByte 5 >> emitByte 0x01 >> emitByte 0xff >> emitWord 0
                >> addRelocation (absolute_jump (patch + 3)) >> emitByte 0x01), 7)
  else Ok (o |> (emitByte opcode >> emitByte 0 >> addFixup (mkFixup (patch + 1) (operand 0) (line_number line))), 2).

(** ** Arithmetic *)

Record Arithmetic := mkArithmetic {
  a_base : Z; a_immediate_alt1 : bool; a_immediate_alt3 : bool; a_register_alt1 : bool; a_register_alt3 : bool
}.

Definition arithmetic_of (op : string) : option Arithmetic :=
  let named s := String.eqb op s in
  if named "add" || named "adc" then Some (mkArithmetic 0x50 false (named "adc") (named "adc") false)
  else if named "sub" || named "sbc" then Some (mkArithmetic 0x60 false false (named "sbc") false)
  else if named "mult" || named "umult" then Some (mkArithmetic 0x80 false (named "umult") (named "umult") false)
  else if named "cmp" then Some (mkArithmetic 0x60 false false false true)
  else if named "and" || named "or" then Some (mkArithmetic (if named "and" then 0x71 else 0xc1) false false false false)
  else if named "bic" || named "xor" then Some (mkArithmetic (if named "bic" then 0x71 else 0xc1) true false true false)
  else None.

(** The logical operations, which have no form for R0. *)
Definition logical (op : string) : bool := one_of op ["and"; "or"; "bic"; "xor"].

Definition prefix_if (b : bool) (value : Z) (o : Output) : Output := if b then emitByte value o else o.
Definition size_if (b : bool) : Z := if b then 1 else 0.

Definition register_form (a : Arithmetic) (source : Z) (o : Output) : Output :=
  o |> (prefix_if (a_register_alt1 a) 0x3d >> prefix_if (a_register_alt3 a) 0x3f
        >> emitByte (a_base a + (if logical (operation line) then source - 1 else source))).
Definition register_size (a : Arithmetic) : Z := size_if (a_register_alt1 a) + size_if (a_register_alt3 a).

Definition arithmetic1 (a : Arithmetic) (o : Output) : result (Output * Z) :=
  let op := operation line in
  match parseNumber (operand 0) with
  | Some value =>
      if one_of op ["cmp"; "sbc"] then err "this arithmetic operation has no immediate form." else
      if (value <? (if logical op then 1 else 0)) || (15 <? value)
      then err "immediate arithmetic value is out of range." else
      Ok (o |> (emitByte (if a_immediate_alt1 a then 0x3d else if a_immediate_alt3 a then 0x3f else 0x3e)
                >> emitByte (a_base a + value - (if logical op then 1 else 0))), 2)
  | None =>
      reg ← requireRegister (operand 0);
      if (reg =? 0) && logical op then err "register R0 is not valid for this operation." else
      Ok (register_form a reg o, 1 + register_size a)
  end.

Definition arithmetic2 (a : Arithmetic) (o : Output) : result (Output * Z) :=
  let op := operation line in
  dest ← requireRegister (operand 0);
  match parseNumber (operand 1) with
  | Some value =>
      if (value <? 0) || (15 <? value) || String.eqb op "cmp"
      then err "invalid two-operand immediate arithmetic form." else
      Ok (o |> (prefix_if (negb (dest =? 0)) (0x20 + dest) >> emitByte 0x3e >> emitByte (a_base a + value)),
          2 + size_if (negb (dest =? 0)))
  | None =>
      source ← requireRegister (operand 1);
      Ok (register_form a source (prefix_if (negb (dest =? 0)) (0x20 + dest) o),
          1 + size_if (negb (dest =? 0)) + register_size a)
  end.

Definition arithmetic3 (a : Arithmetic) (o : Output) : result (Output * Z) :=
  let op := operation line in
  requireOperands 3;;
  dest ← requireRegister (operand 0);
  left ← requireRegister (operand 1);
  if negb (dest =? left)
  then err "three-operand arithmetic requires destination and left operand to match." else
  let o := prefix_if (negb (dest =? 0)) (0x20 + dest) o in
  match parseNumber (operand 2) with
  | Some value =>
      if one_of op ["cmp"; "sbc"] || (value <? 0) || (15 <? value)
      then err "immediate arithmetic value is out of range." else
      Ok (o |> (emitByte 0x3e >> emitByte (a_base a + value)), 2 + size_if (negb (dest =? 0)))
  | None =>
      source ← requireRegister (operand 2);
      Ok (register_form a source o, 1 + size_if (negb (dest =? 0)) + register_size a)
  end.

Definition encodeArithmetic (o : Output) : result (Output * Z) :=
  match arithmetic_of (operation line) with
  | None => Ok (o, 0)
  | Some a =>
      if operand_count =? 1 then arithmetic1 a o
      else if operand_count =? 2 then arithmetic2 a o
      else arithmetic3 a o
  end.

(** ** Moves and memory *)

Definition with_reg (reg : Z) (o : Output) : Output := prefix_if (negb (reg =? 0)) (0x20 + reg) o.
Definition with_size (reg : Z) : Z := size_if (negb (reg =? 0)).

Definition encodeMove (o : Output) : result (Output * Z) :=
  let op := operation line in
  requireOperands 2;;
  let byte := String.eqb op "moveb" in
  let destination := parseRegister (operand 0) in
  let source := parseRegister (operand 1) in
  let destination_memory := parseMemoryRegister (operand 0) in
  let source_memory := parseMemoryRegister (operand 1) in
  if (0 <=? destination) && (0 <=? source) then
    if negb (String.eqb op "move") then err "MOVEB/MOVEW register-to-register form is unsupported." else
    Ok (o |> (emitByte (0x20 + source) >> emitByte (0x10 + destination)), 2)
  else if (0 <=? destination) && (0 <=? source_memory) then
    if negb byte && String.eqb op "move" then
      Ok (o |> (with_reg destination >> emitByte (0x40 + source_memory)), if destination =? 0 then 1 else 2)
    else
      Ok (o |> (with_reg destination >> prefix_if byte 0x3d >> emitByte (0x40 + source_memory)),
          with_size destination + size_if byte + 1)
  else if (0 <=? destination_memory) && (0 <=? source) then
    Ok (o |> (with_reg source >> prefix_if byte 0x3d >> emitByte (0x30 + destination_memory)),
        with_size source + size_if byte + 1)
  else if (0 <=? destination) && front_is 35 (operand 1) then
    if negb (String.eqb op "move") then err "MOVEB/MOVEW immediate form is unsupported." else
    match parseNumber (operand 1) with
    | None => o ← emitImmediateWord destination (operand 1) ADDR16_IWT o; Ok (o, 3)
    | Some value =>
        if (0 <=? value) && (value <=? 255)
        then Ok (o |> (emitByte (0xa0 + destination) >> emitByte value), 2)
        else Ok (o |> (emitByte (0xf0 + destination) >> emitWord (u16 value)), 3)
    end
  else err "unsupported MOVE operand form.".

Definition encodeAccess (o : Output) : result (Output * Z) :=
  let op := operation line in
  let store := one_of op ["stw"; "stb"] in
  let byte := one_of op ["stb"; "ldb"] in
  if operand_count =? 1 then
    memory ← requireMemoryRegister (operand 0);
    Ok (o |> (prefix_if byte 0x3d >> emitByte ((if store then 0x30 else 0x40) + memory)), if byte then 2 else 1)
  else
    requireOperands 2;;
    memory ← requireMemoryRegister (if store then operand 0 else operand 1);
    reg ← requireRegister (if store then operand 1 else operand 0);
    Ok (o |> (with_reg reg >> prefix_if byte 0x3d >> emitByte ((if store then 0x30 else 0x40) + memory)),
        with_size reg + size_if byte + 1).

Definition encodeStack (o : Output) : result (Output * Z) :=
  let op := operation line in
  requireOperands 1;;
  reg ← requireRegister (operand 0);
  let size := if reg =? 0 then 3 else 4 in
  Ok (if String.eqb op "push" then o |> (with_reg reg >> emitByte 0x3a >> emitByte 0xea >> emitByte 0xea)
      else if String.eqb op "pop" then o |> (emitByte 0xda >> emitByte 0xda >> with_reg reg >> emitByte 0x4a)
      else if String.eqb op "pushb" then o |> (with_reg reg >> emitByte 0x3d >> emitByte 0x3a >> emitByte 0xe0)
      else o |> (emitByte 0xd0 >> with_reg reg >> emitByte 0x3d >> emitByte 0x4a), size).

Definition encodeAbsolute (o : Output) : result (Output * Z) :=
  let op := operation line in
  requireOperands 2;;
  let load := one_of op ["lm"; "lms"] in
  reg ← requireRegister (if load then operand 0 else operand 1);
  address ← requireWord (if load then operand 1 else operand 0);
  let alt := if load then 0x3d else 0x3e in
  if one_of op ["lms"; "sms"] then
    if negb (Z.land address 1 =? 0) || (510 <? address) then err "short memory address must be even and <= 510." else
    Ok (o |> (emitByte alt >> emitByte (0xa0 + reg) >> emitByte (Z.shiftr address 1)), 3)
  else Ok (o |> (emitByte alt >> emitByte (0xf0 + reg) >> emitWord address), 4).

Definition encodeImmediate (o : Output) : result (Output * Z) :=
  requireOperands 2;;
  reg ← requireRegister (operand 0);
  if String.eqb (operation line) "ibt" then
    let patch := patch_at o in
    let o := emitByte (0xa0 + reg) o in
    let text := withoutHash (operand 1) in
    if front_is 94 text then
      let name := skip 1 text in
      if negb (isIdentifier name) then err "invalid bank relocation symbol." else
      Ok (o |> (emitByte 0 >> addRelocation (mkRelocation name (symbolSection (line_section line)) (u32 patch) ADDR24_BANK)), 2)
    else b ← requireByte text; Ok (emitByte b o, 2)
  else o ← emitImmediateWord reg (operand 1) ADDR16_IWT o; Ok (o, 3).

(** ** Instructions *)

Definition implied : list (string * Z) :=
  [("stop", 0x00); ("nop", 0x01); ("cache", 0x02); ("lsr", 0x03); ("rol", 0x04); ("loop", 0x3c); ("plot", 0x4c);
   ("color", 0x4e); ("swap", 0x4d); ("not", 0x4f); ("merge", 0x70); ("msbk", 0x90); ("sex", 0x95); ("asr", 0x96);
   ("ror", 0x97); ("lob", 0x9e); ("hib", 0xc0); ("getc", 0xdf); ("getb", 0xef)].

Definition alternates : list (string * Z) := [("alt1", 0x3d); ("alt2", 0x3e); ("alt3", 0x3f)].
(** The prefix and the opcode of the instructions that are two bytes. *)
Definition prefixed (op : string) : option (Z * Z) :=
  if one_of op ["rpix"; "cmode"; "div2"; "ramb"; "romb"; "getbh"; "getbl"; "getbs"] then
    Some (if one_of op ["rpix"; "cmode"; "div2"] then 0x3d else if String.eqb op "ramb" then 0x3e else 0x3f,
          if String.eqb op "rpix" then 0x4c else if String.eqb op "cmode" then 0x4e
          else if String.eqb op "div2" then 0x96 else if one_of op ["ramb"; "romb"] then 0xdf else 0xef)
  else None.
Definition selectors_of : list (string * Z) := [("to", 0x10); ("with", 0x20); ("from", 0xb0)].

Definition encodeInstruction (relaxed : gset Z) (o : Output) : result (Output * Z) :=
  let op := operation line in
  match assoc op branches with
  | Some opcode => encodeBranch relaxed opcode o
  | None =>
  match assoc op implied with
  | Some opcode => requireOperands 0;; Ok (emitByte opcode o, 1)
  | None =>
  match assoc op alternates with
  | Some opcode => requireOperands 0;; Ok (emitByte opcode o, 1)
  | None =>
  match prefixed op with
  | Some (alt, opcode) => requireOperands 0;; Ok (o |> (emitByte alt >> emitByte opcode), 2)
  | None =>
  match assoc op selectors_of with
  | Some base => requireOperands 1;; reg ← requireRegister (operand 0); Ok (emitByte (base + reg) o, 1)
  | None =>
  if one_of op ["inc"; "dec"] then
    requireOperands 1;; reg ← requireRegister (operand 0);
    if reg =? 15 then err "increment/decrement cannot target R15." else
    Ok (emitByte ((if String.eqb op "inc" then 0xd0 else 0xe0) + reg) o, 1)
  else if one_of op ["jmp"; "ljmp"] then
    requireOperands 1;; reg ← requireRegister (operand 0);
    if (reg <? 8) || (13 <? reg) then err "JMP requires a register from R8 to R13." else
    Ok (o |> (prefix_if (String.eqb op "ljmp") 0x3d >> emitByte (0x98 + reg - 8)),
        if String.eqb op "ljmp" then 2 else 1)
  else if String.eqb op "link" then
    requireOperands 1;; value ← requireByte (withoutHash (operand 0));
    if (value <? 1) || (4 <? value) then err "LINK immediate must be in 1..4." else
    Ok (emitByte (0x91 + value - 1) o, 1)
  else if String.eqb op "jal" then
    requireOperands 1;;
    o ← emitImmediateWord 15 ("#" +:+ operand 0) ADDR16_JAL (emitByte 0x94 o); Ok (o, 4)
  else if String.eqb op "ret" then requireOperands 0;; Ok (emitByte 0x9b o, 1)
  else if one_of op ["ibt"; "iwt"; "lea"] then encodeImmediate o
  else if one_of op ["move"; "moveb"; "movew"] then encodeMove o
  else if one_of op ["stw"; "stb"; "ldw"; "ldb"] then encodeAccess o
  else if one_of op ["push"; "pop"; "pushb"; "popb"] then encodeStack o
  else if one_of op ["add"; "adc"; "sub"; "sbc"; "mult"; "umult"; "cmp"; "and"; "bic"; "or"; "xor"]
  then encodeArithmetic o
  else if one_of op ["lm"; "lms"; "sm"; "sms"] then encodeAbsolute o
  else err ("unknown instruction or directive '" +:+ op +:+ "'.")
  end end end end end.
End Operands.
