(* ===== verification/EncodeSound.v ===== *)
(** * EncodeSound: what the encoder emits does not depend on where

    Every instruction is a [Template]: bytes, relocations and branch fixups
    relative to its first byte, and [emit] puts a template at the end of an
    output.  [encodeInstruction_template] shows that an encoder either fails
    with one error whatever the output, or emits one template and reports its
    length, so that the run without output that measures an instruction agrees
    with the run that emits it. *)

From S2P Require Import Prelude Target Object AsmText Encode.

Record Template := mkTemplate {
  t_bytes : list Z;
  t_relocations : list RelocationEntry;
  t_fixups : list BranchFixup
}.

Definition size (t : Template) : Z := zlen (t_bytes t).

Definition move_relocation (base : Z) (r : RelocationEntry) : RelocationEntry :=
  mkRelocation (target_symbol_name r) (section_to_patch r) (base + patch_offset r) (r_type r).
Definition narrow (r : RelocationEntry) : RelocationEntry :=
  mkRelocation (target_symbol_name r) (section_to_patch r) (u32 (patch_offset r)) (r_type r).
Definition move_fixup (base : Z) (f : BranchFixup) : BranchFixup :=
  mkFixup (base + f_patch f) (f_target f) (f_line f).

Definition t_app (t u : Template) : Template :=
  mkTemplate (t_bytes t ++ t_bytes u) (t_relocations t ++ (move_relocation (size t) <$> t_relocations u))
    (t_fixups t ++ (move_fixup (size t) <$> t_fixups u)).
Definition t_bytes_of (bytes : list Z) : Template := mkTemplate bytes [] [].

Definition emit (t : Template) (o : Output) : Output :=
  match out o with
  | None => o
  | Some l =>
      mkOutput (Some (l ++ t_bytes t))
        (o_relocations o ++ (narrow <$> (move_relocation (zlen l) <$> t_relocations t)))
        (o_fixups o ++ (move_fixup (zlen l) <$> t_fixups t))
  end.

Lemma size_app t u : size (t_app t u) = size t + size u.
Proof. apply zlen_app. Qed.

Lemma emit_app t u o : emit u (emit t o) = emit (t_app t u) o.
Proof.
  destruct o as [[l|] rs fs]; [|done]. cbn. unfold emit. cbn. f_equal.
  - by rewrite app_assoc.
  - rewrite !fmap_app, <-app_assoc. do 2 f_equal. rewrite <-!list_fmap_compose. apply list_fmap_ext.
    intros i r _. cbn. unfold narrow, move_relocation, size. cbn. rewrite zlen_app. do 2 f_equal. lia.
  - rewrite !fmap_app, <-app_assoc. do 2 f_equal. rewrite <-!list_fmap_compose. apply list_fmap_ext.
    intros i f _. cbn. unfold move_fixup, size. cbn. rewrite zlen_app. f_equal. lia.
Qed.

Lemma emit_nothing o : emit (t_bytes_of []) o = o.
Proof. destruct o as [[l|] rs fs]; [|done]. cbn. by rewrite !app_nil_r. Qed.

(** ** Emitters *)

Definition emitter (g : Output → Output) (t : Template) : Prop := ∀ o, g o = emit t o.

Lemma emitter_id : emitter (λ o, o) (t_bytes_of []).
Proof. intros o. by rewrite emit_nothing. Qed.

Lemma emitter_then g h t u : emitter g t → emitter h u → emitter (λ o, h (g o)) (t_app t u).
Proof. intros Hg Hh o. by rewrite Hg, Hh, emit_app. Qed.

Lemma emitByte_emits v : emitter (emitByte v) (t_bytes_of [u8 v]).
Proof. intros [[l|] rs fs]; [|done]. unfold emitByte, emit. cbn. by rewrite !app_nil_r. Qed.

Lemma emitWord_emits v : emitter (emitWord v) (t_bytes_of [u8 (Z.land v 0xff); u8 (Z.land (Z.shiftr v 8) 0xff)]).
Proof. intros [[l|] rs fs]; [|done]. unfold emitWord, emitByte, emit. cbn. by rewrite !app_nil_r, <-app_assoc. Qed.

Lemma emitter_byte g t v : emitter g t → emitter (λ o, emitByte v (g o)) (t_app t (t_bytes_of [u8 v])).
Proof. intros H. apply (emitter_then _ _ _ _ H), emitByte_emits. Qed.
Lemma emitter_word g t v :
  emitter g t → emitter (λ o, emitWord v (g o)) (t_app t (t_bytes_of [u8 (Z.land v 0xff); u8 (Z.land (Z.shiftr v 8) 0xff)])).
Proof. intros H. apply (emitter_then _ _ _ _ H), emitWord_emits. Qed.
Lemma emitter_prefix g t b v :
  emitter g t → emitter (λ o, prefix_if b v (g o)) (t_app t (t_bytes_of (if b then [u8 v] else []))).
Proof.
  intros H. apply (emitter_then _ _ _ _ H). intros o. unfold prefix_if. destruct b; [apply emitByte_emits|].
  by rewrite emit_nothing.
Qed.

(** A relocation of what [g] emits. *)
Lemma emitter_relocation g t name s k ty :
  emitter g t →
  emitter (λ o, addRelocation (mkRelocation name s (u32 (patch_at o + k)) ty) (g o))
    (mkTemplate (t_bytes t) (t_relocations t ++ [mkRelocation name s k ty]) (t_fixups t)).
Proof.
  intros H [[l|] rs fs]; rewrite H; [|done]. unfold addRelocation, emit, patch_at. cbn.
  rewrite !fmap_app, <-app_assoc. reflexivity.
Qed.

Lemma emitter_fixup g t k target line :
  emitter g t →
  emitter (λ o, addFixup (mkFixup (patch_at o + k) target line) (g o))
    (mkTemplate (t_bytes t) (t_relocations t) (t_fixups t ++ [mkFixup k target line])).
Proof.
  intros H [[l|] rs fs]; rewrite H; [|done]. unfold addFixup, emit, patch_at. cbn.
  rewrite !fmap_app, <-app_assoc. reflexivity.
Qed.

(** ** The shapes of templates *)

Section Shapes.
Context (line : ParsedLine) (relaxed : gset Z).

Definition plain (t : Template) : Prop := t_relocations t = [] ∧ t_fixups t = [].

(** A relocation inside the instruction, against a name of the source. *)
Definition symbolic (t : Template) : Prop :=
  t_fixups t = [] ∧ ∃ r, t_relocations t = [r] ∧ isIdentifier (target_symbol_name r) = true
    ∧ section_to_patch r = symbolSection (line_section line)
    ∧ 0 ≤ patch_offset r ∧ patch_offset r + patch_size (r_type r) ≤ size t.

Definition is_branch : Prop := assoc (operation line) branches ≠ None ∧ line_section line = SecCode ∧ zlen (operands line) = 1.

(** The two bytes of a branch, the second to be patched. *)
Definition short_branch (opcode : Z) : Template :=
  mkTemplate [opcode; 0] [] [mkFixup 1 (operand line 0) (line_number line)].
(** [IWT R15, target; NOP]. *)
Definition far_jump : Template :=
  mkTemplate [0xff; 0; 0; 1] [mkRelocation (InternalSymbolPrefix +:+ operand line 0) CODE 0 ADDR16_IWT] [].
(** The branch on the opposite condition around it, with its delay slot. *)
Definition far_branch (opcode : Z) : Template :=
  mkTemplate [Z.lxor opcode 1; 5; 1; 0xff; 0; 0; 1]
    [mkRelocation (InternalSymbolPrefix +:+ operand line 0) CODE 3 ADDR16_IWT] [].

Definition branch_template (opcode : Z) : Template :=
  if bool_decide (line_number line ∈ relaxed)
  then if bool_decide (operation line = "bra") then far_jump else far_branch opcode
  else short_branch opcode.

Definition branching (t : Template) : Prop :=
  is_branch ∧ ∃ opcode, assoc (operation line) branches = Some opcode ∧ t = branch_template opcode.

Definition shape (t : Template) : Prop :=
  bytes_ok (t_bytes t) ∧ (if assoc (operation line) branches then branching t else plain t ∨ symbolic t).

(** An encoder that fails the same way or emits one template on every output. *)
Definition uniform (f : Output → result (Output * Z)) : Prop :=
  (∃ e, ∀ o, f o = Err e) ∨ ∃ t, shape t ∧ ∀ o, f o = Ok (emit t o, size t).

End Shapes.

Definition template_plain (t : Template) : Prop := bytes_ok (t_bytes t) ∧ plain t.

Lemma bytes_of_ok l : Forall (λ x, ∃ v, x = u8 v) l → bytes_ok l.
Proof. intros H. eapply Forall_impl; [exact H|]. intros x [v ->]. apply u8_range. Qed.

Lemma opcode_of_branch op opcode : assoc op branches = Some opcode → 5 ≤ opcode ≤ 15 ∧ (op ≠ "bra" → 6 ≤ opcode).
Proof.
  unfold branches. cbn [assoc]. intros H.
  repeat (case_match; [injection H as <-; split; [lia|]; intros Hn; first [lia | by apply String.eqb_eq in H0]|]).
  done.
Qed.

(** ** Encoders *)

Section Encoders.
Context (line : ParsedLine) (relaxed : gset Z).
Notation uniform := (uniform line relaxed).

Lemma uniform_err e : uniform (λ _, Err e).
Proof. left. by exists e. Qed.

(** A test the output has no part in. *)
Lemma uniform_bind {A} (m : result A) (f : A → Output → result (Output * Z)) :
  (∀ a, m = Ok a → uniform (f a)) → uniform (λ o, m ≫= λ a, f a o).
Proof. intros H. destruct m as [a|e]; [exact (H a eq_refl)|apply uniform_err]. Qed.

(** An instruction of plain bytes: how many they are is all there is to check. *)
Definition emits (g : Output → Output) (n : Z) : Prop :=
  ∃ bytes, bytes_ok bytes ∧ zlen bytes = n ∧ emitter g (t_bytes_of bytes).

Lemma emits_id : emits (λ o, o) 0.
Proof. exists []. split; [constructor|]. split; [done|exact emitter_id]. Qed.
Lemma emits_then g h n m : emits g n → emits h m → emits (λ o, h (g o)) (n + m).
Proof.
  intros (b & Hb & <- & Hg) (c & Hc & <- & Hh). exists (b ++ c).
  split_and!; [by apply bytes_ok_app|apply zlen_app|exact (emitter_then _ _ _ _ Hg Hh)].
Qed.
Lemma emits_byte g n v : emits g n → emits (λ o, emitByte v (g o)) (n + 1).
Proof.
  intros H. apply emits_then; [done|]. exists [u8 v].
  split_and!; [apply Forall_singleton, u8_range|done|apply emitByte_emits].
Qed.
Lemma emits_word g n v : emits g n → emits (λ o, emitWord v (g o)) (n + 2).
Proof.
  intros H. unfold emitWord. replace (n + 2) with (n + 1 + 1) by lia.
  apply (emits_byte (λ o, emitByte (Z.land v 255) (g o))), emits_byte, H.
Qed.

Lemma uniform_emits g n m : assoc (operation line) branches = None → emits g n → n = m → uniform (λ o, Ok (g o, m)).
Proof.
  intros Hop (b & Hb & <- & Hg) <-. right. exists (t_bytes_of b). split.
  - unfold shape. rewrite Hop. split; [done|]. by left.
  - intros o. by rewrite Hg.
Qed.
End Encoders.

Ltac emitting :=
  repeat first [apply emits_byte | apply emits_word | apply emits_id].

(** Splits an encoder along its tests and leaves its plain instructions proved. *)
Ltac encoding :=
  repeat first
    [ apply uniform_err
    | match goal with
      | |- uniform _ _ (λ o, _ ≫= _) => apply uniform_bind; intros ? ?
      | |- context [if ?b then _ else _] => destruct b eqn:?
      | |- context [match parseNumber ?t with _ => _ end] => destruct (parseNumber t) eqn:?
      end ];
  try solve [discriminate | eapply uniform_emits; [done|emitting|reflexivity]].

Section Instructions.
Context (line : ParsedLine) (relaxed : gset Z) (Hop : assoc (operation line) branches = None).
Notation uniform := (uniform line relaxed).

(** What a byte with a word behind it and a relocation is. *)
Lemma emitImmediateWord_template reg text ty :
  patch_size ty = 3 →
  (∃ e, ∀ o, emitImmediateWord line reg text ty o = Err e)
  ∨ ∃ t, bytes_ok (t_bytes t) ∧ size t = 3 ∧ (plain t ∨ symbolic line t)
         ∧ ∀ o, emitImmediateWord line reg text ty o = Ok (emit t o).
Proof.
  intros Hty. unfold emitImmediateWord. destruct (parseNumber text) as [v|].
  - case_match; [left; by eexists|right].
    destruct (emits_word (emitByte (Z.lor 240 reg)) 1 (u16 v)) as (b & Hb & Hn & He).
    { apply (emits_byte (λ o, o) 0), emits_id. }
    exists (t_bytes_of b). split_and!; [done|done|by left; split|]. intros o. by rewrite <-He.
  - cbv zeta.
    destruct (match wrapped "lo24(" (withoutHash text) with
              | Some n => (n, ADDR24_OFFSET) | None => (withoutHash text, ty) end) as [name ty1] eqn:E1.
    destruct (match wrapped "ram(" name with Some n => (n, ADDR16_RAM) | None => (name, ty1) end) as [name2 ty2] eqn:E2.
    assert (patch_size ty2 = 3) as H2 by (clear -Hty E1 E2; repeat case_match; by simplify_eq).
    destruct (isIdentifier name2) eqn:Hname; cbn [negb]; [right|left; by eexists].
    destruct (emits_word (emitByte (Z.lor 240 reg)) 1 0) as (b & Hb & Hn & He).
    { apply (emits_byte (λ o, o) 0), emits_id. }
    pose proof (emitter_relocation _ _ name2 (symbolSection (line_section line)) 0 ty2 He) as Hr. cbn in Hr.
    set (r := mkRelocation name2 (symbolSection (line_section line)) 0 ty2) in *.
    exists (mkTemplate b [r] []). split_and!; [exact Hb|exact Hn| |intros o; rewrite <-Hr; by rewrite Z.add_0_r].
    right. split; [done|]. exists r. split_and!; [reflexivity|exact Hname|done|done|].
    cbn. unfold size. cbn. rewrite H2. lia.
Qed.

Lemma emitImmediateWord_uniform g n reg text ty :
  patch_size ty = 3 → emits g n →
  uniform (λ o, emitImmediateWord line reg text ty (g o) ≫= λ o, Ok (o, n + 3)).
Proof.
  intros Hty (b & Hb & Hn & Hg). destruct (emitImmediateWord_template reg text ty Hty) as [(e & He)|(t & Ht & Hs & Hp & He)].
  { left. exists e. intros o. by rewrite He. }
  assert (size (t_app (t_bytes_of b) t) = n + 3) as Hsize by (rewrite size_app, Hs; unfold size; cbn; by rewrite Hn).
  right. exists (t_app (t_bytes_of b) t). split; [|intros o; rewrite He, Hg, Hsize; cbn [mbind result_mbind result_bind]; by rewrite emit_app].
  unfold shape. rewrite Hop. split; [by apply bytes_ok_app|].
  destruct Hp as [[H1 H2]|[H1 (r & Hr & ? & ? & ? & ?)]]; [left|right].
  - split; cbn; [by rewrite H1|by rewrite H2].
  - split; [cbn; by rewrite H1|]. exists (move_relocation n r). cbn -[size].
    rewrite Hr, Hsize, <-Hs, <-Hn. pose proof (zlen_nonneg b). unfold size at 1. cbn [t_bytes_of t_bytes].
    split_and!; [done..|lia|lia].
Qed.

Lemma encodeMove_uniform : uniform (encodeMove line).
Proof.
  unfold encodeMove, with_reg, with_size, prefix_if, size_if. cbn beta zeta. encoding.
  apply (emitImmediateWord_uniform (λ o, o) 0); [done|apply emits_id].
Qed.

Lemma encodeAccess_uniform : uniform (encodeAccess line).
Proof. unfold encodeAccess, with_reg, with_size, prefix_if, size_if. cbn beta zeta. encoding. Qed.

Lemma encodeStack_uniform : uniform (encodeStack line).
Proof. unfold encodeStack, with_reg, prefix_if. cbn beta zeta. encoding. Qed.

Lemma encodeAbsolute_uniform : uniform (encodeAbsolute line).
Proof. unfold encodeAbsolute. cbn beta zeta. encoding. Qed.

Lemma encodeArithmetic_uniform : uniform (encodeArithmetic line).
Proof.
  unfold encodeArithmetic. destruct (arithmetic_of (operation line)) as [a|] eqn:Ha; [|].
  - unfold arithmetic1, arithmetic2, arithmetic3, register_form, register_size, prefix_if, size_if. cbn beta zeta.
    encoding.
  - encoding.
Qed.

Lemma encodeImmediate_uniform : uniform (encodeImmediate line).
Proof.
  unfold encodeImmediate. cbn beta zeta. encoding.
  - right. set (r := mkRelocation (skip 1 (withoutHash (operand line 1))) (symbolSection (line_section line)) 0 ADDR24_BANK).
    exists (mkTemplate [u8 (160 + a0); 0] [r] []). split.
    + unfold shape. rewrite Hop. split; [repeat constructor; first [apply u8_range|done]|]. right. split; [done|].
      exists r. apply negb_false_iff in Heqb1. split_and!; done.
    + intros o. f_equal. f_equal.
      pose proof (emitter_relocation _ _ (target_symbol_name r) (section_to_patch r) 0 ADDR24_BANK
        (emitter_byte _ _ 0 (emitter_byte _ _ (160 + a0) emitter_id)) o) as He. cbn in He.
      rewrite Z.add_0_r in He. exact He.
  - apply (emitImmediateWord_uniform (λ o, o) 0); [done|apply emits_id].
Qed.

Lemma encodeInstruction_uniform : uniform (encodeInstruction line relaxed).
Proof.
  unfold encodeInstruction. rewrite Hop. cbn beta zeta. unfold prefix_if.
  destruct (assoc _ implied); [encoding|]. destruct (assoc _ alternates); [encoding|].
  destruct (prefixed _) as [[alt opcode]|]; [encoding|]. destruct (assoc _ selectors_of); [encoding|].
  encoding.
  all: first
    [ exact encodeMove_uniform | exact encodeAccess_uniform | exact encodeStack_uniform | exact encodeAbsolute_uniform
    | exact encodeArithmetic_uniform | exact encodeImmediate_uniform
    | apply (emitImmediateWord_uniform (emitByte 148) 1); [done|apply (emits_byte (λ o, o) 0), emits_id] ].
Qed.
End Instructions.

(** ** Branches *)

Lemma inverse_byte opcode : 6 ≤ opcode ≤ 15 → 6 ≤ Z.lxor opcode 1 ≤ 15.
Proof.
  intros H. assert (opcode = 6 ∨ opcode = 7 ∨ opcode = 8 ∨ opcode = 9 ∨ opcode = 10 ∨ opcode = 11 ∨ opcode = 12
    ∨ opcode = 13 ∨ opcode = 14 ∨ opcode = 15) as Hc by lia.
  repeat destruct Hc as [->|Hc]; subst; by cbn.
Qed.

Section Branch.
Context (line : ParsedLine) (relaxed : gset Z) (opcode : Z) (Hop : assoc (operation line) branches = Some opcode).

Lemma encodeBranch_template o :
  line_section line = SecCode → zlen (operands line) = 1 →
  encodeBranch line relaxed opcode o = Ok (emit (branch_template line relaxed opcode) o, size (branch_template line relaxed opcode)).
Proof.
  intros Hs Hn. destruct (opcode_of_branch _ _ Hop) as [H1 H2].
  unfold encodeBranch, requireOperands, operand_count, branch_template. rewrite Hn, Hs.
  rewrite (bool_decide_eq_true_2 (SecCode = SecCode)) by done. cbn.
  case_bool_decide as Hr; [case_bool_decide as Hb|].
  - destruct o as [[l|] rs fs]; [|done]. unfold emit, emitWord, emitByte, narrow, move_relocation. cbn -[Z.add].
    by rewrite app_nil_r, <-!app_assoc, Z.add_0_r.
  - assert (inverse opcode = Ok (Z.lxor opcode 1)) as ->.
    { unfold inverse. pose proof (H2 Hb). replace (_ && _) with true; [done|]. symmetry. apply andb_true_iff. split; lia. }
    cbn [mbind result_mbind result_bind].
    assert (u8 (Z.lxor opcode 1) = Z.lxor opcode 1) as E
      by (apply uwrap_small; pose proof (inverse_byte opcode ltac:(auto with lia)); lia).
    destruct o as [[l|] rs fs]; [|done]. unfold emit, emitWord, emitByte, narrow, move_relocation. cbn -[Z.add Z.lxor].
    by rewrite E, app_nil_r, <-!app_assoc.
  - assert (u8 opcode = opcode) as E by (apply uwrap_small; lia).
    destruct o as [[l|] rs fs]; [|done]. unfold emit, emitByte. cbn -[Z.add]. by rewrite E, app_nil_r, <-!app_assoc.
Qed.

Lemma encodeBranch_uniform : uniform line relaxed (encodeBranch line relaxed opcode).
Proof.
  destruct (decide (zlen (operands line) = 1)) as [Hn|Hn]; [destruct (decide (line_section line = SecCode)) as [Hs|Hs]|].
  - right. exists (branch_template line relaxed opcode). split; [|intros o; by apply encodeBranch_template].
    destruct (opcode_of_branch _ _ Hop) as [H1 H2]. unfold shape. rewrite Hop. split.
    + unfold branch_template. repeat case_bool_decide; repeat constructor; try lia; cbn; try done.
      all: pose proof (inverse_byte opcode ltac:(auto with lia)); lia.
    + split; [split_and!; [by rewrite Hop|done|done]|by exists opcode].
  - left. eexists. intros o. unfold encodeBranch, requireOperands, operand_count. rewrite Hn. cbn.
    by rewrite bool_decide_eq_false_2.
  - left. eexists. intros o. unfold encodeBranch, requireOperands, operand_count.
    by rewrite (proj2 (Z.eqb_neq _ _) Hn).
Qed.
End Branch.

Lemma encodeInstruction_template line relaxed : uniform line relaxed (encodeInstruction line relaxed).
Proof.
  destruct (assoc (operation line) branches) as [opcode|] eqn:Hop; [|by apply encodeInstruction_uniform].
  unfold encodeInstruction. rewrite Hop. by apply encodeBranch_uniform.
Qed.
