(* ===== verification/Assembler.v ===== *)
(** * Assembler: the two passes of the assembler

    Models [AssemblerImpl] of [Assembler.cpp] over the parsed lines of [AsmText]
    and the encoder of [Encode]: [firstPass] lays the labels out from the sizes
    of a run without output, [relaxBranches] lengthens the branches that do not
    reach and lays out again until nothing changes, [secondPass] emits,
    [resolveBranches] patches the displacements, and the labels other parts of
    the object need become symbols.

    The members of the class that a pass writes are its state: [Pass] for the
    first pass (the exports survive a repetition, everything else is reset) and
    [Emission] for the second.  [size_t] offsets are integers: they are sums of
    instruction sizes over the lines of a source text in memory. *)

From S2P Require Import Prelude Target Object AsmText Encode.

(** [SymbolDefinition] *)
Record SymbolDefinition := mkDefinition { d_section : SymbolSection; d_offset : Z }.

Record Pass := mkPass {
  symbols : gmap string SymbolDefinition;
  exports : gset string;
  code_offsets_by_line : gmap Z Z;
  code : Z;
  data : Z;
  ram : Z
}.

Definition requireSection (line : ParsedLine) : result unit :=
  if bool_decide (line_section line = SecNone)
  then fail "statement appears before a .segment directive." (line_number line) else Ok tt.

Definition currentOffset (s : Section_) (p : Pass) : Z :=
  match s with SecCode => code p | SecData => data p | _ => ram p end.

(** [offsetFor(...) += size] *)
Definition advance_offset (s : Section_) (size : Z) (p : Pass) : Pass :=
  let grow (t : Section_) (x : Z) := if bool_decide (s = t) then x + size else x in
  mkPass (symbols p) (exports p) (code_offsets_by_line p) (grow SecCode (code p)) (grow SecData (data p))
    (if bool_decide (s = SecCode) || bool_decide (s = SecData) then ram p else ram p + size).

Definition defineLabel (line : ParsedLine) (p : Pass) : result Pass :=
  if bool_decide (label line = "") then Ok p else
  requireSection line;;
  match symbols p !! label line with
  | Some _ => fail ("duplicate label '" +:+ label line +:+ "'.") (line_number line)
  | None =>
      Ok (mkPass (<[label line := mkDefinition (symbolSection (line_section line)) (currentOffset (line_section line) p)]>
                    (symbols p))
            (exports p) (code_offsets_by_line p) (code p) (data p) (ram p))
  end.

(** The lines that emit nothing. *)
Definition silent (line : ParsedLine) : bool :=
  one_of (operation line) [""; ".segment"; ".export"; ".setcpu"; ".include"; ".define"].
Definition is_data (line : ParsedLine) : bool := one_of (operation line) [".byte"; ".word"].

Definition add_export (line : ParsedLine) (p : Pass) (name : string) : result Pass :=
  if negb (isIdentifier name) then fail ("invalid export name '" +:+ name +:+ "'.") (line_number line)
  else Ok (mkPass (symbols p) ({[name]} ∪ exports p) (code_offsets_by_line p) (code p) (data p) (ram p)).

Definition note_line (line : ParsedLine) (p : Pass) : Pass :=
  if bool_decide (line_section line = SecCode)
  then mkPass (symbols p) (exports p) (<[line_number line := code p]> (code_offsets_by_line p)) (code p) (data p) (ram p)
  else p.

(** [encodeInstruction(line, nullptr, false)] *)
Definition dry : Output := mkOutput None [] [].

Definition line_size (relaxed : gset Z) (line : ParsedLine) : result Z :=
  if is_data line then
    if bool_decide (operands line = []) then fail (operation line +:+ " expects at least one value.") (line_number line)
    else Ok (zlen (operands line) * (if bool_decide (operation line = ".byte") then 1 else 2))
  else if bool_decide (line_section line = SecRam)
  then fail "RAM initial images contain data directives, not instructions." (line_number line)
  else snd <$> encodeInstruction line relaxed dry.

Definition pass_line (relaxed : gset Z) (p : Pass) (line : ParsedLine) : result Pass :=
  p ← defineLabel line p;
  if silent line then
    if bool_decide (operation line = ".export") then foldM (add_export line) p (operands line) else Ok p
  else
    requireSection line;;
    let p := note_line line p in
    size ← line_size relaxed line;
    Ok (advance_offset (line_section line) size p).

Definition firstPass (lines : list ParsedLine) (relaxed : gset Z) (exported : gset string) : result Pass :=
  p ← foldM (pass_line relaxed) (mkPass ∅ exported ∅ 0 0 0) lines;
  if 65536 <? ram p then fail "RAM initial image exceeds one bank." 1 else Ok p.

(** ** Branch relaxation *)

Definition in_range (distance : Z) : bool := negb ((distance <? -128) || (127 <? distance)).

Definition relax_line (p : Pass) (s : gset Z * bool) (line : ParsedLine) : result (gset Z * bool) :=
  let '(relaxed, changed) := s in
  if negb (bool_decide (line_section line = SecCode)) || bool_decide (operation line = "")
     || bool_decide (assoc (operation line) branches = None) || negb (zlen (operands line) =? 1)
     || bool_decide (line_number line ∈ relaxed)
  then Ok s else
  match symbols p !! operand line 0 with
  | None => fail ("undefined branch label '" +:+ operand line 0 +:+ "'.") (line_number line)
  | Some symbol =>
      if negb (bool_decide (d_section symbol = CODE))
      then fail "branch target must be in the code section." (line_number line) else
      match code_offsets_by_line p !! line_number line with
      | None => Err OutOfRange
      | Some source =>
          if in_range (d_offset symbol - (source + 2)) then Ok s
          else Ok ({[line_number line]} ∪ relaxed, true)
      end
  end.

(** The loop, with one round of fuel; what it leaves when the fuel runs out is
    not a result. *)
Fixpoint relaxBranches (fuel : nat) (lines : list ParsedLine) (relaxed : gset Z) (p : Pass) :
    result (option (gset Z * Pass)) :=
  match fuel with
  | O => Ok None
  | S fuel =>
      '(relaxed, changed) ← foldM (relax_line p) (relaxed, false) lines;
      if (changed : bool) then p ← firstPass lines relaxed (exports p); relaxBranches fuel lines relaxed p
      else Ok (Some (relaxed, p))
  end.

(** ** The second pass *)

(** [m_object.code_section] and so on, with the tables that grow. *)
Record Emission := mkEmission {
  e_code : list Z;
  e_data : list Z;
  e_ram : list Z;
  e_relocations : list RelocationEntry;
  e_fixups : list BranchFixup
}.

(** [output(section)] *)
Definition output (s : Section_) (e : Emission) : list Z :=
  match s with SecCode => e_code e | SecData => e_data e | _ => e_ram e end.

Definition set_output (s : Section_) (bytes : list Z) (e : Emission) : Emission :=
  match s with
  | SecCode => mkEmission bytes (e_data e) (e_ram e) (e_relocations e) (e_fixups e)
  | SecData => mkEmission (e_code e) bytes (e_ram e) (e_relocations e) (e_fixups e)
  | _ => mkEmission (e_code e) (e_data e) bytes (e_relocations e) (e_fixups e)
  end.

(** The emission with the output an encoder leaves. *)
Definition with_output (s : Section_) (o : Output) (e : Emission) : Emission :=
  set_output s (default [] (out o)) (mkEmission (e_code e) (e_data e) (e_ram e) (o_relocations o) (o_fixups o)).

Definition encode_value (line : ParsedLine) (o : Output) (operand : string) : result Output :=
  match parseNumber operand with
  | None => fail "data values must be numeric." (line_number line)
  | Some value =>
      if bool_decide (operation line = ".byte") then
        if (value <? 0) || (255 <? value) then fail ".byte value is outside 0..255." (line_number line)
        else Ok (emitByte (u8 value) o)
      else
        if (value <? -32768) || (65535 <? value) then fail ".word value is outside 16-bit range." (line_number line)
        else Ok (emitWord (u16 value) o)
  end.

Definition encodeData (line : ParsedLine) (o : Output) : result Output :=
  foldM (encode_value line) o (operands line).

Definition emit_line (relaxed : gset Z) (e : Emission) (line : ParsedLine) : result Emission :=
  if silent line then Ok e else
  requireSection line;;
  let o := mkOutput (Some (output (line_section line) e)) (e_relocations e) (e_fixups e) in
  o ← (if is_data line then encodeData line o else fst <$> encodeInstruction line relaxed o);
  Ok (with_output (line_section line) o e).

Definition secondPass (lines : list ParsedLine) (relaxed : gset Z) : result Emission :=
  foldM (emit_line relaxed) (mkEmission [] [] [] [] []) lines.

(** ** Branches and symbols *)

Definition resolve_fixup (symbols : gmap string SymbolDefinition) (code_section : list Z) (fixup : BranchFixup) :
    result (list Z) :=
  match symbols !! f_target fixup with
  | None => fail ("undefined branch label '" +:+ f_target fixup +:+ "'.") (f_line fixup)
  | Some symbol =>
      if negb (bool_decide (d_section symbol = CODE))
      then fail "branch target must be in the code section." (f_line fixup) else
      let distance := d_offset symbol - (f_patch fixup + 1) in
      if negb (in_range distance) then fail "branch target is out of range [-128, 127]." (f_line fixup) else
      set_at code_section (f_patch fixup) (u8 distance)
  end.

Definition resolveBranches (symbols : gmap string SymbolDefinition) (fixups : list BranchFixup) (code_section : list Z) :
    result (list Z) :=
  foldM (resolve_fixup symbols) code_section fixups.

Definition internal_name (name : string) : string := InternalSymbolPrefix +:+ name.

Record Privates := mkPrivates {
  pv_added : gset string;
  pv_symbols : list SymbolEntry;
  pv_relocations : list RelocationEntry
}.

(** [if (added.insert(name).second) symbol_table.push_back(...)] *)
Definition add_private (name : string) (s : SymbolSection) (offset : Z) (v : Privates) : Privates :=
  if bool_decide (name ∈ pv_added v) then v else
  mkPrivates ({[name]} ∪ pv_added v) (pv_symbols v ++ [mkSymbol (internal_name name) s (u32 offset)]) (pv_relocations v).

Definition private_relocation (p : Pass) (v : Privates) (r : RelocationEntry) : Privates :=
  let keep (r : RelocationEntry) (v : Privates) := mkPrivates (pv_added v) (pv_symbols v) (pv_relocations v ++ [r]) in
  let name := target_symbol_name r in
  match symbols p !! name with
  | Some symbol =>
      if bool_decide (name ∈ exports p) then keep r v else
      keep (mkRelocation (internal_name name) (section_to_patch r) (patch_offset r) (r_type r))
        (add_private name (d_section symbol) (d_offset symbol) v)
  | None => keep r v
  end.

Definition private_target (p : Pass) (relaxed : gset Z) (v : Privates) (line : ParsedLine) : Privates :=
  if negb (bool_decide (line_number line ∈ relaxed)) then v else
  match symbols p !! operand line 0 with
  | None => v
  | Some symbol => add_private (operand line 0) CODE (d_offset symbol) v
  end.

Definition addInternalSymbols (p : Pass) (relaxed : gset Z) (lines : list ParsedLine) (relocations : list RelocationEntry) :
    Privates :=
  foldl (private_target p relaxed) (foldl (private_relocation p) (mkPrivates ∅ [] []) relocations) lines.

(** [std::set<std::string>] iterates in the order of the strings' bytes. *)
Definition string_le (a b : string) : Prop := Is_true (String.leb a b).
#[global] Instance string_le_dec : RelDecision string_le.
Proof. intros a b. unfold string_le. apply _. Defined.

Definition in_order (names : gset string) : list string := merge_sort string_le (elements names).

Definition exported_symbol (p : Pass) (name : string) : result SymbolEntry :=
  match symbols p !! name with
  | None => fail ("exported symbol '" +:+ name +:+ "' is not defined.") 1
  | Some symbol => Ok (mkSymbol name (d_section symbol) (u32 (d_offset symbol)))
  end.

Definition addExportedSymbols (p : Pass) : result (list SymbolEntry) :=
  mapM_r (exported_symbol p) (in_order (exports p)).

(** ** The assembler *)

Definition bitmap_definitions : list string := ["__DISCO_BITMAP_SCBR"; "__DISCO_BITMAP_SCMR"].

Definition assemble_fuel (lines : list ParsedLine) : nat := S (length lines).

Definition cache_hint (s : Settings) : list SymbolEntry :=
  if st_cache_alignment s then [mkSymbol CacheAlignmentSymbol CODE 0] else [].

(** [m_object] with everything the passes have found. *)
Definition build (s : Settings) (code_section : list Z) (e : Emission) (v : Privates) (exported : list SymbolEntry) :
    ObjectFile :=
  mkObject code_section (e_data e) (e_ram e) (cache_hint s ++ pv_symbols v ++ exported) (pv_relocations v)
    (st_config s) (st_data_alignment s) (st_ram_alignment s).

Definition assemble_lines (lines : list ParsedLine) (s : Settings) : result ObjectFile :=
  p ← firstPass lines ∅ ∅;
  relaxation ← relaxBranches (assemble_fuel lines) lines ∅ p;
  match relaxation with
  | None => Err (LogicError "out of fuel")
  | Some (relaxed, p) =>
      e ← secondPass lines relaxed;
      code_section ← resolveBranches (symbols p) (e_fixups e) (e_code e);
      let v := addInternalSymbols p relaxed lines (e_relocations e) in
      exported ← addExportedSymbols p;
      Ok (build s code_section e v exported)
  end.

Definition assemble (source : string) : result ObjectFile :=
  '(lines, s) ← parse source;
  if Bitmap.enabled (bitmap (st_config s)) && negb (forallb (λ d, bool_decide (d ∈ st_defined s)) bitmap_definitions)
  then fail "Bitmap metadata requires both SCBR and SCMR definitions." 1 else
  Bitmap.validate (bitmap (st_config s));;
  assemble_lines lines s.

(** ** Examples *)

Definition newline : string := chr 10.
Definition text (lines : list string) : string := fold_right (λ l rest, l +:+ newline +:+ rest) "" lines.
Definition code_segment : string := ".segment " +:+ quote +:+ "CODE" +:+ quote.

Example assemble_short :
  assemble (text [code_segment; "start: iwt r1,#start"; "bne start"; "nop"; ".export start"])
  = Ok (mkObject [0xf1; 0; 0; 0x08; 0xfb; 0x01] [] [] [mkSymbol "start" CODE 0] [mkRelocation "start" CODE 0 ADDR16_IWT]
          default_config 1 2).
Proof. vm_compute. reflexivity. Qed.
