(* ===== verification/AsmSound.v ===== *)
(** * AsmSound: the two passes of the assembler agree

    [line_template] is what a line emits and [extent] what the first pass counts
    for it; [position] adds the extents up.  The first pass gives every label its
    position ([firstPass_labels]), the second emits every line at its position
    ([secondPass_emission]), relaxation stops with every short branch in range
    ([relaxBranches_ends], [relaxBranches_range]), so that resolving the branches
    succeeds and puts the distance to the label into each of them. *)

From S2P Require Import Prelude Target Object AsmText Encode EncodeSound Assembler.

(** ** Lines *)

Definition start : Output := mkOutput (Some []) [] [].
Definition template_of (o : Output) : Template := mkTemplate (default [] (out o)) (o_relocations o) (o_fixups o).

(** What a line puts into its section. *)
Definition line_template (relaxed : gset Z) (line : ParsedLine) : Template :=
  if silent line then t_bytes_of [] else
  match (if is_data line then encodeData line start else fst <$> encodeInstruction line relaxed start) with
  | Ok o => template_of o
  | Err _ => t_bytes_of []
  end.

(** How far the first pass moves the section of a line. *)
Definition extent (relaxed : gset Z) (line : ParsedLine) : Z :=
  if silent line then 0 else match line_size relaxed line with Ok n => n | Err _ => 0 end.

Definition within (s : Section_) (relaxed : gset Z) (line : ParsedLine) : Z :=
  if bool_decide (line_section line = s) then extent relaxed line else 0.

(** The size of a section after some lines. *)
Definition position (relaxed : gset Z) (s : Section_) (lines : list ParsedLine) : Z :=
  foldr Z.add 0 (within s relaxed <$> lines).

Lemma position_app relaxed s l k : position relaxed s (l ++ k) = position relaxed s l + position relaxed s k.
Proof.
  unfold position. rewrite fmap_app. induction (within s relaxed <$> l) as [|n ns IH]; cbn; [done|]. lia.
Qed.
Lemma position_snoc relaxed s l line : position relaxed s (l ++ [line]) = position relaxed s l + within s relaxed line.
Proof. rewrite position_app. cbn. lia. Qed.

(** A template put at the start of an output moves like the one it came from. *)
Lemma emit_start t o : emit (template_of (emit t start)) o = emit t o.
Proof.
  destruct o as [[l|] rs fs]; [|done]. unfold emit, template_of, start. cbn [out o_relocations o_fixups default t_bytes t_relocations t_fixups app].
  rewrite <-!list_fmap_compose. f_equal.
  - f_equal. apply list_fmap_ext. intros i r _. unfold compose, narrow, move_relocation. cbn. f_equal.
    unfold u32, uwrap. rewrite Z.add_mod_idemp_r by done. done.
Qed.

(** The values of a data line. *)
Lemma encode_value_emits line o o' operand :
  encode_value line o operand = Ok o' →
  ∃ bytes, bytes_ok bytes ∧ zlen bytes = (if bool_decide (operation line = ".byte") then 1 else 2)
    ∧ o' = emit (t_bytes_of bytes) o ∧ ∀ o2, encode_value line o2 operand = Ok (emit (t_bytes_of bytes) o2).
Proof.
  unfold encode_value. case_match; [|done]. case_bool_decide; case_match; try done; intros <-%Ok_inj.
  - exists [u8 (u8 z)]. split_and!; [apply Forall_singleton, u8_range|done|by rewrite <-emitByte_emits|].
    intros o2. by rewrite <-emitByte_emits.
  - destruct (emits_word (λ o, o) 0 (u16 z) emits_id) as (b & Hb & Hn & He).
    exists b. split_and!; [done|done|by rewrite <-He|]. intros o2. by rewrite <-He.
Qed.

Lemma encodeData_emits line l o o' :
  foldM (encode_value line) o l = Ok o' →
  ∃ bytes, bytes_ok bytes ∧ zlen bytes = zlen l * (if bool_decide (operation line = ".byte") then 1 else 2)
    ∧ o' = emit (t_bytes_of bytes) o ∧ ∀ o2, foldM (encode_value line) o2 l = Ok (emit (t_bytes_of bytes) o2).
Proof.
  revert o. induction l as [|x l IH]; intros o; cbn [foldM].
  - intros <-%Ok_inj. exists []. split_and!; [constructor|done|by rewrite emit_nothing|]. intros o2. by rewrite emit_nothing.
  - intros (o1 & H1 & H2)%result_bind_ok. apply encode_value_emits in H1 as (b1 & Hb1 & Hn1 & -> & Hall1).
    apply IH in H2 as (b2 & Hb2 & Hn2 & -> & Hall2). exists (b1 ++ b2). split_and!.
    + by apply bytes_ok_app.
    + rewrite zlen_app, zlen_cons. lia.
    + apply emit_app.
    + intros o2. rewrite Hall1. cbn [mbind result_mbind result_bind]. rewrite Hall2. f_equal. apply emit_app.
Qed.

(** The shapes a line can have: data, an instruction with at most one
    relocation, a branch. *)
Definition line_shape (relaxed : gset Z) (line : ParsedLine) (t : Template) : Prop :=
  bytes_ok (t_bytes t) ∧ (plain t ∨ symbolic line t ∨ branching line relaxed t).

Lemma shape_start line relaxed t : shape line relaxed t → line_shape relaxed line (template_of (emit t start)).
Proof.
  intros [Hb Hs]. unfold emit, start, template_of. cbn [out o_relocations o_fixups default app]. split; [done|].
  destruct (assoc _ branches) as [opcode|] eqn:Hop; [right; right|destruct Hs as [[H1 H2]|Hs]; [left|right; left]].
  - destruct Hs as [Hbr (op & Hop' & ->)]. split; [done|]. exists op. split; [done|]. unfold branch_template.
    by repeat case_bool_decide.
  - by split; cbn; rewrite ?H1, ?H2.
  - destruct Hs as [H1 (r & H2 & H3 & H4 & H5 & H6)]. split; cbn; [by rewrite H1|]. rewrite H2.
    eexists. split_and!; [reflexivity|done|done|apply uwrap_range; lia|].
    assert (u32 (patch_offset r) ≤ patch_offset r) by (apply Z.mod_le; [done|lia]). unfold size in *.
    cbn [target_symbol_name section_to_patch patch_offset r_type narrow move_relocation t_bytes]. change (zlen [] + patch_offset r) with (patch_offset r). lia.
Qed.

Lemma template_start_size t : size (template_of (emit t start)) = size t.
Proof. done. Qed.

(** One line of the second pass. *)
Lemma emit_line_template relaxed e line e' :
  emit_line relaxed e line = Ok e' →
  if silent line then e' = e ∧ line_template relaxed line = t_bytes_of []
  else line_section line ≠ SecNone
    ∧ e' = with_output (line_section line)
             (emit (line_template relaxed line) (mkOutput (Some (output (line_section line) e)) (e_relocations e) (e_fixups e))) e
    ∧ line_shape relaxed line (line_template relaxed line)
    ∧ (is_ok (line_size relaxed line) = true → size (line_template relaxed line) = extent relaxed line).
Proof.
  unfold emit_line, line_template, extent. destruct (silent line); [by intros <-%Ok_inj|].
  intros (u & Hsec & H)%result_bind_ok. unfold requireSection in Hsec. case_bool_decide as Hn; [done|].
  apply result_bind_ok in H as (o & Ho & <-%Ok_inj). split; [done|].
  unfold line_size. destruct (is_data line).
  - apply encodeData_emits in Ho as (b & Hb & Hz & -> & Hall). unfold encodeData. rewrite Hall.
    rewrite emit_start. split; [done|]. split; [by split; [|left]|].
    destruct (bool_decide (operands line = [])); [done|]. intros _. exact Hz.
  - destruct (encodeInstruction_template line relaxed) as [(err & He)|(t & Ht & He)]; rewrite He in Ho; [done|].
    apply Ok_inj in Ho as <-. rewrite !He. cbn [fmap result_fmap fst snd]. rewrite emit_start. split; [done|].
    split; [by apply shape_start|]. case_bool_decide as Hops; [done|]. intros _. by rewrite template_start_size.
Qed.

(** ** The first pass *)

(** A line the first pass accepts. *)
Definition sized (relaxed : gset Z) (line : ParsedLine) : Prop :=
  silent line = false → line_section line ≠ SecNone ∧ is_ok (line_size relaxed line) = true.

(** Where a label is put. *)
Definition placed (relaxed : gset Z) (lines : list ParsedLine) (name : string) (d : SymbolDefinition) : Prop :=
  ∃ k line, lines !! k = Some line ∧ label line = name ∧ name ≠ "" ∧ line_section line ≠ SecNone
    ∧ d = mkDefinition (symbolSection (line_section line)) (position relaxed (line_section line) (take k lines)).

Definition exported_names (lines : list ParsedLine) : list string :=
  lines ≫= λ line, if String.eqb (operation line) ".export" then operands line else [].

Record Laid (relaxed : gset Z) (exported : gset string) (lines : list ParsedLine) (p : Pass) : Prop := {
  la_sized : Forall (sized relaxed) lines;
  la_code : code p = position relaxed SecCode lines;
  la_data : data p = position relaxed SecData lines;
  la_ram : ram p = position relaxed SecRam lines;
  la_labels name d : symbols p !! name = Some d ↔ placed relaxed lines name d;
  la_offsets k line : lines !! k = Some line → NoDup (line_number <$> lines) → silent line = false → line_section line = SecCode →
    code_offsets_by_line p !! line_number line = Some (position relaxed SecCode (take k lines));
  la_exports : exports p = list_to_set (exported_names lines) ∪ exported;
  la_defined : Forall (λ line, label line = "" ∨ line_section line ≠ SecNone) lines
}.

Lemma lookup_take_snoc {A} (l : list A) x k y :
  (l ++ [x]) !! k = Some y →
  (l !! k = Some y ∧ take k (l ++ [x]) = take k l) ∨ (k = length l ∧ y = x ∧ take k (l ++ [x]) = l).
Proof.
  intros H. apply lookup_app_Some in H as [H|[Hk H]]; [left|right].
  - split; [done|]. apply take_app_le. apply lookup_lt_Some in H. lia.
  - apply list_lookup_singleton_Some in H as [H <-]. assert (k = length l) as -> by lia.
    split_and!; [done|done|apply take_app_length].
Qed.

Lemma lookup_snoc_take {A} (l : list A) x k y :
  l !! k = Some y → (l ++ [x]) !! k = Some y ∧ take k (l ++ [x]) = take k l.
Proof.
  intros H. split; [by apply lookup_app_l_Some|]. apply take_app_le. apply lookup_lt_Some in H. lia.
Qed.

Lemma placed_snoc relaxed lines line name d :
  placed relaxed (lines ++ [line]) name d ↔
  placed relaxed lines name d ∨
  (label line = name ∧ name ≠ "" ∧ line_section line ≠ SecNone
   ∧ d = mkDefinition (symbolSection (line_section line)) (position relaxed (line_section line) lines)).
Proof.
  split.
  - intros (k & l & Hk & Hl & Hn & Hs & ->). apply lookup_take_snoc in Hk as [[Hk ->]|(-> & -> & ->)]; [left|by right].
    by exists k, l.
  - intros [(k & l & Hk & Hl & Hn & Hs & ->)|(Hl & Hn & Hs & ->)].
    + apply (lookup_snoc_take _ line) in Hk as [Hk <-]. by exists k, l.
    + exists (length lines), line. split; [by apply list_lookup_middle|]. by rewrite take_app_length.
Qed.

Lemma currentOffset_laid relaxed exported lines p s :
  Laid relaxed exported lines p → s ≠ SecNone → currentOffset s p = position relaxed s lines.
Proof. intros H Hs. destruct s; [done|apply H..]. Qed.

Lemma within_silent relaxed s line : silent line = true → within s relaxed line = 0.
Proof. intros H. unfold within, extent. rewrite H. by case_bool_decide. Qed.

Lemma within_size relaxed s line n : silent line = false → line_size relaxed line = Ok n →
  within s relaxed line = if bool_decide (line_section line = s) then n else 0.
Proof. intros H Hn. unfold within, extent. by rewrite H, Hn. Qed.

(** Nothing but the labels, the exports and the offsets. *)
Lemma add_exports_ok line l p p' :
  foldM (add_export line) p l = Ok p' →
  symbols p' = symbols p ∧ code_offsets_by_line p' = code_offsets_by_line p
  ∧ code p' = code p ∧ data p' = data p ∧ ram p' = ram p ∧ exports p' = list_to_set l ∪ exports p.
Proof.
  revert p. induction l as [|x l IH]; intros p; cbn [foldM].
  - intros <-%Ok_inj. split_and!; try done. set_solver.
  - intros (q & Hq & H)%result_bind_ok. unfold add_export in Hq. case_match; [done|]. apply Ok_inj in Hq as <-.
    apply IH in H as (-> & -> & -> & -> & -> & ->). split_and!; try done. cbn. set_solver.
Qed.

(** One line of the first pass, by its three parts. *)
Lemma defineLabel_ok line p p' :
  defineLabel line p = Ok p' →
  exports p' = exports p ∧ code_offsets_by_line p' = code_offsets_by_line p
  ∧ code p' = code p ∧ data p' = data p ∧ ram p' = ram p
  ∧ (if bool_decide (label line = "") then symbols p' = symbols p else
     line_section line ≠ SecNone ∧ symbols p !! label line = None
     ∧ symbols p' = <[label line := mkDefinition (symbolSection (line_section line)) (currentOffset (line_section line) p)]> (symbols p)).
Proof.
  unfold defineLabel. case_bool_decide; [by intros <-%Ok_inj|].
  intros (u & Hs & H1)%result_bind_ok. unfold requireSection in Hs. case_bool_decide; [done|].
  destruct (symbols p !! label line) eqn:E; [done|]. by apply Ok_inj in H1 as <-.
Qed.

Lemma advance_note line q n :
  line_section line ≠ SecNone →
  let q' := advance_offset (line_section line) n (note_line line q) in
  let grow s x := x + if bool_decide (line_section line = s) then n else 0 in
  code q' = grow SecCode (code q) ∧ data q' = grow SecData (data q) ∧ ram q' = grow SecRam (ram q)
  ∧ exports q' = exports q ∧ symbols q' = symbols q
  ∧ code_offsets_by_line q' =
      if bool_decide (line_section line = SecCode)
      then <[line_number line := code q]> (code_offsets_by_line q) else code_offsets_by_line q.
Proof.
  intros Hs. cbv zeta. unfold note_line, advance_offset. destruct (line_section line); [done|..];
    rewrite ?(bool_decide_eq_true_2 (_ = _) eq_refl), ?bool_decide_eq_false_2 by done; cbn;
    rewrite ?Z.add_0_r; done.
Qed.

Lemma pass_line_ok relaxed p line p' :
  pass_line relaxed p line = Ok p' →
  sized relaxed line
  ∧ code p' = code p + within SecCode relaxed line ∧ data p' = data p + within SecData relaxed line
  ∧ ram p' = ram p + within SecRam relaxed line
  ∧ exports p' = list_to_set (exported_names [line]) ∪ exports p
  ∧ (if bool_decide (label line = "") then symbols p' = symbols p else
     line_section line ≠ SecNone ∧ symbols p !! label line = None
     ∧ symbols p' = <[label line := mkDefinition (symbolSection (line_section line)) (currentOffset (line_section line) p)]> (symbols p))
  ∧ code_offsets_by_line p' =
      if negb (silent line) && bool_decide (line_section line = SecCode)
      then <[line_number line := code p]> (code_offsets_by_line p) else code_offsets_by_line p.
Proof.
  unfold pass_line. intros (q & Hq & H)%result_bind_ok.
  apply defineLabel_ok in Hq as (He & Ho & Hc & Hd & Hr & Hsym).
  unfold sized. destruct (silent line) eqn:Hsil.
  - rewrite !within_silent, !Z.add_0_r by done. unfold exported_names. cbn [mbind list_bind].
    rewrite app_nil_r. case_bool_decide as Hop.
    + apply add_exports_ok in H as (-> & -> & -> & -> & -> & ->). rewrite Hop, String.eqb_refl.
      split_and!; try done. by rewrite He.
    + apply Ok_inj in H as <-. apply String.eqb_neq in Hop as ->. split_and!; try done. rewrite He. set_solver.
  - apply result_bind_ok in H as (u & Hs & H). unfold requireSection in Hs. case_bool_decide as Hsec; [done|].
    apply result_bind_ok in H as (n & Hn & <-%Ok_inj). rewrite !(within_size _ _ _ _ Hsil Hn), Hn.
    assert (exported_names [line] = []) as ->.
    { unfold exported_names. cbn. destruct (String.eqb_spec (operation line) ".export") as [E|]; [|done].
      unfold silent, one_of in Hsil. by rewrite E in Hsil. }
    destruct (advance_note line q n Hsec) as (-> & -> & -> & -> & -> & ->). cbn [negb andb list_to_set].
    rewrite Hc, Hd, Hr, He, Ho. split; [by intros _|]. do 3 (split; [done|]). split; [set_solver|]. done.
Qed.

Lemma exported_names_app l k : exported_names (l ++ k) = exported_names l ++ exported_names k.
Proof. unfold exported_names. apply bind_app. Qed.

Lemma laid_nil relaxed exported : Laid relaxed exported [] (mkPass ∅ exported ∅ 0 0 0).
Proof.
  split; cbn; try first [done|apply Forall_nil_2|set_solver]. intros name d. rewrite lookup_empty. split; [done|].
  intros (k & line & Hk & _). by rewrite lookup_nil in Hk.
Qed.

Lemma laid_snoc relaxed exported lines p line p' :
  Laid relaxed exported lines p → pass_line relaxed p line = Ok p' → Laid relaxed exported (lines ++ [line]) p'.
Proof.
  intros L (Hz & Hc & Hd & Hr & He & Hsym & Ho)%pass_line_ok. destruct (L) as [Ls Lc Ld Lr Ll Lo Le Lz]. split.
  - apply Forall_app. split; [done|by apply Forall_singleton].
  - by rewrite position_snoc, Hc, Lc.
  - by rewrite position_snoc, Hd, Ld.
  - by rewrite position_snoc, Hr, Lr.
  - intros name d. rewrite placed_snoc, <-Ll. clear Ho. case_bool_decide as Hl.
    + rewrite Hsym. split; [by left|]. intros [H|(H1 & H2 & _)]; [done|]. congruence.
    + destruct Hsym as (Hs & Hnew & ->). rewrite (currentOffset_laid _ _ _ _ _ L Hs). rewrite lookup_insert_Some. split.
      * intros [(<- & <-)|(Hne & H)]; [right; by split_and!|by left].
      * intros [H|(<- & _ & _ & ->)]; [|by left]. right. split; [|done]. congruence.
  - intros k l Hk Hnd Hsil Hcode. rewrite Ho. apply lookup_take_snoc in Hk as [[Hk ->]|(-> & -> & ->)].
    + assert (NoDup (line_number <$> lines)) as Hnd1 by (rewrite fmap_app in Hnd; by apply NoDup_app in Hnd as [? _]).
      case_match; [|by apply Lo]. rewrite lookup_insert_ne; [by apply Lo|].
      intros Heq. rewrite fmap_app in Hnd. apply NoDup_app in Hnd as (_ & Hx & _). eapply (Hx (line_number l)).
      * apply list_elem_of_fmap. exists l. split; [done|]. by eapply list_elem_of_lookup_2.
      * cbn. rewrite Heq. set_solver.
    + rewrite Hsil, bool_decide_eq_true_2 by done. cbn. by rewrite lookup_insert_eq, Lc.
  - rewrite He, Le, exported_names_app, list_to_set_app_L. set_solver.
  - apply Forall_app. split; [done|]. apply Forall_singleton. clear Ho. case_bool_decide; [by left|right; apply Hsym].
Qed.

Lemma pass_laid relaxed exported lines p :
  foldM (pass_line relaxed) (mkPass ∅ exported ∅ 0 0 0) lines = Ok p → Laid relaxed exported lines p.
Proof.
  revert p. induction lines as [|line lines IH] using rev_ind; intros p.
  - intros <-%Ok_inj. apply laid_nil.
  - rewrite foldM_app. intros (q & Hq & H)%result_bind_ok. cbn [foldM] in H.
    apply result_bind_ok in H as (p1 & Hp1 & <-%Ok_inj). eapply laid_snoc; [by apply IH|done].
Qed.

Lemma firstPass_laid relaxed exported lines p :
  firstPass lines relaxed exported = Ok p → Laid relaxed exported lines p ∧ position relaxed SecRam lines ≤ 65536.
Proof.
  unfold firstPass. intros (q & Hq & H)%result_bind_ok. destruct (65536 <? ram q) eqn:E; [done|].
  apply Ok_inj in H as <-. pose proof (pass_laid _ _ _ _ Hq) as L. split; [done|]. rewrite <-(la_ram _ _ _ _ L). lia.
Qed.

(** ** The second pass *)

(** A relocation and a fixup of a line, moved to where the line is. *)
Definition relocation_at (relaxed : gset Z) (lines : list ParsedLine) (k : nat) (line : ParsedLine) (r : RelocationEntry) : Prop :=
  ∃ r0, r0 ∈ t_relocations (line_template relaxed line)
    ∧ r = narrow (move_relocation (position relaxed (line_section line) (take k lines)) r0).
Definition fixup_at (relaxed : gset Z) (lines : list ParsedLine) (k : nat) (line : ParsedLine) (f : BranchFixup) : Prop :=
  ∃ f0, f0 ∈ t_fixups (line_template relaxed line)
    ∧ f = move_fixup (position relaxed (line_section line) (take k lines)) f0.

Record Emitted (relaxed : gset Z) (lines : list ParsedLine) (e : Emission) : Prop := {
  em_size s : s ≠ SecNone → zlen (output s e) = position relaxed s lines;
  em_line k line : lines !! k = Some line → silent line = false →
    ∃ before after, output (line_section line) e = before ++ t_bytes (line_template relaxed line) ++ after
      ∧ zlen before = position relaxed (line_section line) (take k lines);
  em_bytes s : bytes_ok (output s e);
  em_shape k line : lines !! k = Some line → silent line = false → line_section line ≠ SecNone
    ∧ line_shape relaxed line (line_template relaxed line)
    ∧ size (line_template relaxed line) = extent relaxed line;
  em_relocations r : r ∈ e_relocations e ↔ ∃ k line, lines !! k = Some line ∧ relocation_at relaxed lines k line r;
  em_fixups f : f ∈ e_fixups e ↔ ∃ k line, lines !! k = Some line ∧ fixup_at relaxed lines k line f
}.

Lemma output_with s t o e : s ≠ SecNone → t ≠ SecNone →
  output t (with_output s o e) = if bool_decide (s = t) then default [] (out o) else output t e.
Proof. intros Hs Ht. destruct s, t; try done. Qed.

Lemma with_output_tables s o e :
  e_relocations (with_output s o e) = o_relocations o ∧ e_fixups (with_output s o e) = o_fixups o.
Proof. by destruct s. Qed.

(** What one line adds to the emission. *)
Lemma emit_line_ok relaxed e line e' :
  emit_line relaxed e line = Ok e' → sized relaxed line →
  let t := line_template relaxed line in
  let base := zlen (output (line_section line) e) in
  (∀ s, s ≠ SecNone → output s e' = output s e ++ if bool_decide (line_section line = s) then t_bytes t else [])
  ∧ e_relocations e' = e_relocations e ++ (narrow <$> (move_relocation base <$> t_relocations t))
  ∧ e_fixups e' = e_fixups e ++ (move_fixup base <$> t_fixups t)
  ∧ size t = extent relaxed line ∧ bytes_ok (t_bytes t)
  ∧ (silent line = true → t_relocations t = [] ∧ t_fixups t = [])
  ∧ (silent line = false → line_section line ≠ SecNone ∧ line_shape relaxed line t).
Proof.
  intros H Hz. apply emit_line_template in H. cbv zeta. destruct (silent line) eqn:Hsil.
  - destruct H as [-> ->]. cbn. rewrite !app_nil_r. split_and!; try done; [|by unfold extent; rewrite Hsil|constructor].
    intros s _. by case_bool_decide; rewrite app_nil_r.
  - destruct H as (Hs & -> & Hsh & Hsize). destruct (Hz Hsil) as [_ Hok].
    destruct (with_output_tables (line_section line)
      (emit (line_template relaxed line) (mkOutput (Some (output (line_section line) e)) (e_relocations e) (e_fixups e))) e) as [-> ->].
    split; [|split_and!; try done; [by apply Hsize|apply Hsh]].
    intros s Hsn. rewrite output_with by done. case_bool_decide as Heq; [|by rewrite app_nil_r]. by subst s.
Qed.

Lemma emitted_nil relaxed : Emitted relaxed [] (mkEmission [] [] [] [] []).
Proof.
  split; cbn.
  - by intros [].
  - by intros k line Hk.
  - intros []; constructor.
  - by intros k line Hk.
  - intros r. split; [set_solver|]. by intros (k & line & r0 & Hk & _).
  - intros r. split; [set_solver|]. by intros (k & line & r0 & Hk & _).
Qed.

Lemma table_snoc {A B} (P : list A → nat → A → B → Prop) (l : list A) x (T new : list B) :
  (∀ k a b, k ≤ length l → P (l ++ [x]) k a b ↔ P l k a b)%nat →
  (∀ b, b ∈ T ↔ ∃ k a, l !! k = Some a ∧ P l k a b) →
  (∀ b, b ∈ new ↔ P l (length l) x b) →
  ∀ b, b ∈ T ++ new ↔ ∃ k a, (l ++ [x]) !! k = Some a ∧ P (l ++ [x]) k a b.
Proof.
  intros HP HT Hnew b. rewrite elem_of_app, HT, Hnew. split.
  - intros [(k & a & Hk & H)|H].
    + exists k, a. split; [by apply lookup_app_l_Some|]. apply HP; [|done]. apply lookup_lt_Some in Hk. lia.
    + exists (length l), x. split; [by apply list_lookup_middle|]. by apply HP.
  - intros (k & a & Hk & H). apply lookup_take_snoc in Hk as [[Hk _]|(-> & -> & _)].
    + left. exists k, a. split; [done|]. apply HP in H; [done|]. apply lookup_lt_Some in Hk. lia.
    + right. by apply HP in H.
Qed.

Lemma emitted_snoc relaxed lines e line e' :
  Emitted relaxed lines e → sized relaxed line → emit_line relaxed e line = Ok e' → Emitted relaxed (lines ++ [line]) e'.
Proof.
  intros E Hz H. destruct (emit_line_ok _ _ _ _ H Hz) as (Ho & Hr & Hf & Hn & Hb & Hsil & Hloud). cbv zeta in *.
  destruct (E) as [Es El Eb Esh Er Ef].
  assert (∀ s k, (k ≤ length lines)%nat → position relaxed s (take k (lines ++ [line])) = position relaxed s (take k lines)) as Hpos.
  { intros s k Hk. by rewrite take_app_le. }
  assert (silent line = false → zlen (output (line_section line) e) = position relaxed (line_section line) lines) as Hbase.
  { intros Hl. apply Es. by apply Hloud. }
  split.
  - intros s Hs. rewrite (Ho s Hs), zlen_app, Es, position_snoc by done. unfold within.
    case_bool_decide; [|done]. by rewrite <-Hn.
  - intros k l Hk Hl. apply lookup_take_snoc in Hk as [[Hk ->]|(-> & -> & ->)].
    + destruct (El k l Hk Hl) as (b & a & Hout & Hlen). destruct (Esh k l Hk Hl) as [Hsec _].
      rewrite (Ho _ Hsec), Hout. exists b. eexists. split; [|done]. by rewrite <-!app_assoc.
    + destruct (Hloud Hl) as [Hsec _]. rewrite (Ho _ Hsec), bool_decide_eq_true_2 by done.
      exists (output (line_section line) e), []. split; [by rewrite app_nil_r|]. by apply Es.
  - intros s. destruct (decide (s = SecNone)) as [->|Hs].
    + change (output SecNone e') with (output SecRam e'). rewrite (Ho SecRam) by done. apply bytes_ok_app.
      split; [apply (Eb SecRam)|]. case_bool_decide; [done|constructor].
    + rewrite (Ho s Hs). apply bytes_ok_app. split; [apply Eb|]. case_bool_decide; [done|constructor].
  - intros k l Hk Hl. apply lookup_take_snoc in Hk as [[Hk _]|(-> & -> & _)]; [by eapply Esh|].
    destruct (Hloud Hl). by split_and!.
  - rewrite Hr. apply (table_snoc (relocation_at relaxed) lines line).
    + intros k a b Hk. unfold relocation_at. by setoid_rewrite Hpos.
    + exact Er.
    + intros r. unfold relocation_at. rewrite list_elem_of_fmap. setoid_rewrite list_elem_of_fmap. rewrite firstn_all.
      destruct (silent line) eqn:Hl.
      * destruct Hsil as [-> _]; [done|]. set_solver.
      * rewrite (Hbase eq_refl). naive_solver.
  - rewrite Hf. apply (table_snoc (fixup_at relaxed) lines line).
    + intros k a b Hk. unfold fixup_at. by setoid_rewrite Hpos.
    + exact Ef.
    + intros r. unfold fixup_at. rewrite list_elem_of_fmap, firstn_all.
      destruct (silent line) eqn:Hl.
      * destruct Hsil as [_ ->]; [done|]. set_solver.
      * rewrite (Hbase eq_refl). naive_solver.
Qed.

Lemma secondPass_emitted relaxed lines e :
  secondPass lines relaxed = Ok e → Forall (sized relaxed) lines → Emitted relaxed lines e.
Proof.
  unfold secondPass. revert e. induction lines as [|line lines IH] using rev_ind; intros e.
  - intros <-%Ok_inj _. apply emitted_nil.
  - rewrite foldM_app. intros (q & Hq & H)%result_bind_ok [Hs Hl]%Forall_app. cbn [foldM] in H.
    apply result_bind_ok in H as (p1 & Hp1 & <-%Ok_inj). eapply emitted_snoc; [by apply IH|exact (proj1 (Forall_singleton _ _) Hl)|done].
Qed.

(** ** Relaxation *)

(** A branch with a label to reach. *)
Definition branch_line (line : ParsedLine) : Prop :=
  assoc (operation line) branches ≠ None ∧ line_section line = SecCode ∧ zlen (operands line) = 1.

#[global] Instance branch_line_dec line : Decision (branch_line line).
Proof. unfold branch_line. apply _. Defined.

(** A short branch reaches. *)
Definition reaches (p : Pass) (line : ParsedLine) : Prop :=
  ∃ d source, symbols p !! operand line 0 = Some d ∧ d_section d = CODE
    ∧ code_offsets_by_line p !! line_number line = Some source ∧ -128 ≤ d_offset d - (source + 2) ≤ 127.

(** What a round knows of the lines it has seen. *)
Definition targets_code (p : Pass) (line : ParsedLine) : Prop :=
  ∃ d, symbols p !! operand line 0 = Some d ∧ d_section d = CODE.

Lemma in_range_true d : in_range d = true ↔ -128 ≤ d ≤ 127.
Proof. unfold in_range. rewrite negb_true_iff, orb_false_iff. lia. Qed.

Lemma relax_line_ok p relaxed changed line relaxed' changed' :
  relax_line p (relaxed, changed) line = Ok (relaxed', changed') →
  (relaxed' = relaxed ∧ changed' = changed ∧ (branch_line line → line_number line ∈ relaxed ∨ reaches p line))
  ∨ (relaxed' = {[line_number line]} ∪ relaxed ∧ changed' = true ∧ line_number line ∉ relaxed ∧ branch_line line ∧ targets_code p line).
Proof.
  unfold relax_line. intros H.
  destruct (negb (bool_decide (line_section line = SecCode))) eqn:E1; cbn [orb] in H; [left; simplify_eq; split_and!; try done|].
  { intros (_ & Hs & _). by rewrite bool_decide_eq_true_2 in E1. }
  destruct (bool_decide (operation line = "")) eqn:E2; cbn [orb] in H; [left; simplify_eq; split_and!; try done|].
  { apply bool_decide_eq_true in E2. intros (Hn & _). by rewrite E2 in Hn. }
  destruct (bool_decide (assoc (operation line) branches = None)) eqn:E3; cbn [orb] in H; [left; simplify_eq; split_and!; try done|].
  { apply bool_decide_eq_true in E3. by intros (Hn & _). }
  destruct (negb (zlen (operands line) =? 1)) eqn:E4; cbn [orb] in H; [left; simplify_eq; split_and!; try done|].
  { intros (_ & _ & Hn). by rewrite Hn in E4. }
  case_bool_decide as E5; [left; simplify_eq; split_and!; try done; by left|].
  destruct (symbols p !! operand line 0) as [d|] eqn:E6; [|done].
  case_bool_decide as E7; cbn [negb] in H; [|done].
  destruct (code_offsets_by_line p !! line_number line) as [source|] eqn:E8; [|done].
  destruct (in_range _) eqn:E9; simplify_eq; [left|right].
  - split_and!; try done. intros _. right. exists d, source. by apply in_range_true in E9.
  - split_and!; try done; [|by exists d]. split_and!.
    + by apply bool_decide_eq_false in E3.
    + apply negb_false_iff in E1. by apply bool_decide_eq_true in E1.
    + apply negb_false_iff in E4. lia.
Qed.

(** One round: it grows the set by branches with a target, or has found every
    short branch in range. *)
Record Round (p : Pass) (lines : list ParsedLine) (relaxed relaxed' : gset Z) (changed : bool) : Prop := {
  rd_grows : relaxed ⊆ relaxed';
  rd_new n : n ∈ relaxed' → n ∈ relaxed ∨ ∃ line, line ∈ lines ∧ line_number line = n ∧ branch_line line ∧ targets_code p line;
  rd_changed : changed = true → ∃ n, n ∈ relaxed' ∧ n ∉ relaxed;
  rd_done : changed = false → relaxed' = relaxed ∧ ∀ line, line ∈ lines → branch_line line → line_number line ∈ relaxed ∨ reaches p line
}.

Lemma relax_round p lines relaxed relaxed' changed :
  foldM (relax_line p) (relaxed, false) lines = Ok (relaxed', changed) → Round p lines relaxed relaxed' changed.
Proof.
  revert relaxed' changed. induction lines as [|line lines IH] using rev_ind; intros relaxed' changed.
  - intros [= <- <-]. split; try done; [by left|]. intros _. split; [done|]. intros line Hl. by apply not_elem_of_nil in Hl.
  - rewrite foldM_app. intros ([r1 c1] & Hr & H)%result_bind_ok. cbn [foldM] in H.
    apply result_bind_ok in H as ([r2 c2] & H & [= <- <-]). destruct (IH _ _ Hr) as [Hg Hn Hc Hd].
    apply relax_line_ok in H as [(-> & -> & Hb)|(-> & -> & Hnot & Hb & Ht)].
    + split; [done| |done|].
      * intros n Hin. destruct (Hn n Hin) as [|(l & Hl & ?)]; [by left|right]. exists l. split; [set_solver|done].
      * intros Hf. destruct (Hd Hf) as [-> Hall]. split; [done|]. intros l [Hl| ->%list_elem_of_singleton]%elem_of_app; [by apply Hall|]. done.
    + split; [set_solver| | |done].
      * intros n [->%elem_of_singleton|Hin]%elem_of_union.
        -- right. exists line. split; [set_solver|done].
        -- destruct (Hn n Hin) as [|(l & Hl & ?)]; [by left|right]. exists l. split; [set_solver|done].
      * intros _. exists (line_number line). split; [set_solver|]. set_solver.
Qed.

(** A label in the code section exists whatever the sizes of the branches. *)
Definition code_label (lines : list ParsedLine) (name : string) : Prop :=
  name ≠ "" ∧ ∃ line, line ∈ lines ∧ label line = name ∧ line_section line = SecCode.

Lemma symbolSection_code s : s ≠ SecNone → symbolSection s = CODE ↔ s = SecCode.
Proof. by destruct s. Qed.

Lemma placed_code_label relaxed lines name d : placed relaxed lines name d → d_section d = CODE → code_label lines name.
Proof.
  intros (k & line & Hk & Hl & Hn & Hs & ->) Hc. split; [done|]. exists line. split; [by eapply list_elem_of_lookup_2|].
  split; [done|]. by apply symbolSection_code.
Qed.

Definition numbers (lines : list ParsedLine) : gset Z := list_to_set (line_number <$> lines).

Lemma elem_of_numbers lines n : n ∈ numbers lines ↔ ∃ line, line ∈ lines ∧ line_number line = n.
Proof. unfold numbers. rewrite elem_of_list_to_set, list_elem_of_fmap. naive_solver. Qed.

(** The lines that are relaxed are branches to labels of the code. *)
Definition Relaxable (lines : list ParsedLine) (relaxed : gset Z) : Prop :=
  ∀ n, n ∈ relaxed → ∃ line, line ∈ lines ∧ line_number line = n ∧ branch_line line ∧ code_label lines (operand line 0).

(** What a pass and its relaxed lines satisfy between the rounds. *)
Definition PassOf (lines : list ParsedLine) (relaxed : gset Z) (p : Pass) : Prop :=
  ∃ exported, firstPass lines relaxed exported = Ok p ∧ exported ⊆ list_to_set (exported_names lines).

Lemma passof_laid lines relaxed p : PassOf lines relaxed p →
  Laid relaxed ∅ lines p ∧ position relaxed SecRam lines ≤ 65536.
Proof.
  intros (X & H & HX). apply firstPass_laid in H as [[L1 L2 L3 L4 L5 L6 L7 L8] Hr]. split; [|done]. split; try done.
  rewrite L7. set_solver.
Qed.

Lemma round_relaxable p lines relaxed relaxed' changed :
  PassOf lines relaxed p → Relaxable lines relaxed → Round p lines relaxed relaxed' changed → Relaxable lines relaxed'.
Proof.
  intros [L _]%passof_laid HR [Hg Hn _ _] n Hin. destruct (Hn n Hin) as [|(line & Hl & <- & Hb & (d & Hd & Hc))]; [by apply HR|].
  exists line. split_and!; [done|done|done|]. apply (la_labels _ _ _ _ L) in Hd. by eapply placed_code_label.
Qed.

Lemma relaxable_numbers lines relaxed : Relaxable lines relaxed → relaxed ⊆ numbers lines.
Proof. intros H n Hn. apply elem_of_numbers. destruct (H n Hn) as (line & ? & ? & _). by exists line. Qed.

(** What is left to relax. *)
Definition remaining (lines : list ParsedLine) (relaxed : gset Z) : nat := base.size (numbers lines ∖ relaxed).

Lemma remaining_bound lines relaxed : (remaining lines relaxed ≤ length lines)%nat.
Proof.
  unfold remaining. transitivity (base.size (numbers lines)); [apply subseteq_size; set_solver|].
  unfold numbers. induction lines as [|line lines IH]; [done|]. cbn. rewrite size_union_alt, size_singleton.
  apply le_n_S. etransitivity; [|exact IH]. apply subseteq_size. set_solver.
Qed.

Lemma remaining_less lines relaxed relaxed' :
  relaxed ⊆ relaxed' → (∃ n, n ∈ relaxed' ∧ n ∉ relaxed) → relaxed' ⊆ numbers lines →
  (remaining lines relaxed' < remaining lines relaxed)%nat.
Proof. intros Hs (n & Hn & Hnot) Hin. apply subset_size. set_solver. Qed.

(** Relaxation: it stops, with every branch relaxed or in range. *)
Record Settled (lines : list ParsedLine) (relaxed : gset Z) (p : Pass) : Prop := {
  st_pass : PassOf lines relaxed p;
  st_relaxable : Relaxable lines relaxed;
  st_branches line : line ∈ lines → branch_line line → line_number line ∈ relaxed ∨ reaches p line
}.

Lemma relaxBranches_settled fuel lines relaxed p r :
  (remaining lines relaxed < fuel)%nat → PassOf lines relaxed p → Relaxable lines relaxed →
  relaxBranches fuel lines relaxed p = Ok r → ∃ relaxed' p', r = Some (relaxed', p') ∧ Settled lines relaxed' p'.
Proof.
  revert relaxed p. induction fuel as [|fuel IH]; intros relaxed p Hf HP HR; [lia|]. cbn [relaxBranches].
  intros ([relaxed1 changed] & Hr & H)%result_bind_ok. apply relax_round in Hr.
  pose proof (round_relaxable _ _ _ _ _ HP HR Hr) as HR1. destruct Hr as [Hg Hn Hc Hd]. destruct changed.
  - apply result_bind_ok in H as (p1 & Hp1 & H). apply (IH _ _) in H; [done| | |done].
    + pose proof (remaining_less _ _ _ Hg (Hc eq_refl) (relaxable_numbers _ _ HR1)). lia.
    + exists (exports p). split; [done|]. apply passof_laid in HP as [L _]. rewrite (la_exports _ _ _ _ L). set_solver.
  - apply Ok_inj in H as <-. destruct (Hd eq_refl) as [-> Hb]. by exists relaxed, p.
Qed.

(** More fuel changes nothing. *)
Lemma relaxBranches_fuel fuel more lines relaxed p :
  (remaining lines relaxed < fuel)%nat → (fuel ≤ more)%nat → PassOf lines relaxed p → Relaxable lines relaxed →
  relaxBranches more lines relaxed p = relaxBranches fuel lines relaxed p.
Proof.
  revert more relaxed p. induction fuel as [|fuel IH]; intros more relaxed p Hf Hm HP HR; [lia|].
  destruct more as [|more]; [lia|]. cbn [relaxBranches].
  destruct (foldM (relax_line p) (relaxed, false) lines) as [[relaxed1 changed]|] eqn:Hr; [|done].
  cbn [mbind result_mbind result_bind]. apply relax_round in Hr.
  pose proof (round_relaxable _ _ _ _ _ HP HR Hr) as HR1. destruct Hr as [Hg Hn Hc Hd]. destruct changed; [|done].
  destruct (firstPass lines relaxed1 (exports p)) as [p1|] eqn:Hp1; [|done]. cbn [mbind result_mbind result_bind].
  apply IH; [|lia| |done].
  - pose proof (remaining_less _ _ _ Hg (Hc eq_refl) (relaxable_numbers _ _ HR1)). lia.
  - exists (exports p). split; [done|]. apply passof_laid in HP as [L _]. rewrite (la_exports _ _ _ _ L). set_solver.
Qed.
