(* ===== verification/AsmProps.v ===== *)
(** * AsmProps: what the assembler's objects are

    From the agreement of the passes ([AsmSound]): resolving the branches of a
    settled program succeeds ([resolve_emitted]), the relocations lie apart
    inside their sections, the symbols stand at the positions of their labels,
    and with that the object is one [ObjectFile::validate] accepts. *)

From S2P Require Import Prelude Target Object AsmText Encode EncodeSound Assembler AsmSound.

(** ** Positions *)

Lemma line_size_nonneg relaxed line n : line_size relaxed line = Ok n → 0 ≤ n.
Proof.
  unfold line_size. destruct (is_data line).
  - destruct (bool_decide (operands line = [])); [done|]. intros <-%Ok_inj. pose proof (zlen_nonneg (operands line)).
    case_match; lia.
  - destruct (bool_decide (line_section line = SecRam)); [done|].
    destruct (encodeInstruction_template line relaxed) as [(e & He)|(t & _ & He)]; rewrite He; [done|].
    intros <-%Ok_inj. cbn. apply zlen_nonneg.
Qed.

Lemma within_nonneg s relaxed line : 0 ≤ within s relaxed line.
Proof.
  unfold within, extent. case_bool_decide; [|done]. case_match; [done|].
  destruct (line_size relaxed line) eqn:E; [|done]. by eapply line_size_nonneg.
Qed.

Lemma position_nonneg relaxed s lines : 0 ≤ position relaxed s lines.
Proof.
  unfold position. induction lines as [|line lines IH]; cbn; [done|]. pose proof (within_nonneg s relaxed line). lia.
Qed.

Lemma position_take relaxed s lines k : position relaxed s (take k lines) ≤ position relaxed s lines.
Proof.
  rewrite <-(take_drop k lines) at 2. rewrite position_app. pose proof (position_nonneg relaxed s (drop k lines)). lia.
Qed.

(** The lines of a section do not overlap. *)
Lemma position_apart relaxed s lines i j line :
  lines !! i = Some line → (i < j)%nat →
  position relaxed s (take i lines) + within s relaxed line ≤ position relaxed s (take j lines).
Proof.
  intros Hi Hij. rewrite <-position_snoc, <-(take_S_r lines i line Hi).
  replace (take (S i) lines) with (take (S i) (take j lines)) by (rewrite take_take; f_equal; lia). apply position_take.
Qed.

Lemma position_end relaxed s lines k line :
  lines !! k = Some line → position relaxed s (take k lines) + within s relaxed line ≤ position relaxed s lines.
Proof.
  intros Hk. rewrite <-position_snoc, <-(take_S_r lines k line Hk). apply position_take.
Qed.

(** ** Resolving the branches *)

Definition fixup_value (symbols : gmap string SymbolDefinition) (f : BranchFixup) (v : Z) : Prop :=
  ∃ d, symbols !! f_target f = Some d ∧ d_section d = CODE ∧ in_range (d_offset d - (f_patch f + 1)) = true
    ∧ v = u8 (d_offset d - (f_patch f + 1)).

Lemma resolve_fixups symbols fixups code :
  (∀ f, f ∈ fixups → 0 ≤ f_patch f < zlen code ∧ ∃ v, fixup_value symbols f v) →
  (∀ f g, f ∈ fixups → g ∈ fixups → f_patch f = f_patch g → f_target f = f_target g) →
  ∃ code', resolveBranches symbols fixups code = Ok code' ∧ zlen code' = zlen code
    ∧ (∀ f v, f ∈ fixups → fixup_value symbols f v → code' !! Z.to_nat (f_patch f) = Some v)
    ∧ (∀ i, (∀ f, f ∈ fixups → Z.to_nat (f_patch f) ≠ i) → code' !! i = code !! i).
Proof.
  unfold resolveBranches. revert code. induction fixups as [|f fixups IH]; intros code Hok Hfun; cbn [foldM].
  - exists code. split_and!; try done. intros f v Hf. by apply not_elem_of_nil in Hf.
  - destruct (Hok f ltac:(left)) as [Hin (v & d & Hd & Hc & Hr & Hv)].
    assert (resolve_fixup symbols code f = Ok (<[Z.to_nat (f_patch f) := v]> code)) as ->.
    { unfold resolve_fixup. rewrite Hd, bool_decide_eq_true_2 by done. cbn [negb]. rewrite Hr. cbn [negb].
      apply set_at_ok. by subst v. }
    cbn [mbind result_mbind result_bind].
    destruct (IH (<[Z.to_nat (f_patch f) := v]> code)) as (code' & Hcode & Hlen & Hset & Hkeep).
    + intros g Hg. unfold zlen. rewrite length_insert. apply Hok. by right.
    + intros g h Hg Hh. apply Hfun; by right.
    + exists code'. split; [done|]. split; [rewrite Hlen; unfold zlen; by rewrite length_insert|].
      assert (code' !! Z.to_nat (f_patch f) = Some v) as Hf.
      { destruct (decide (f_patch f ∈ f_patch <$> fixups)) as [(g & Hp & Hg)%list_elem_of_fmap|Hno].
        - rewrite Hp. apply Hset; [done|]. exists d.
          assert (f_target g = f_target f) as -> by (apply Hfun; [by right|by left|done]). by rewrite <-Hp.
        - rewrite Hkeep; [apply list_lookup_insert_eq; unfold zlen in Hin; lia|].
          intros g Hg Hp. apply Hno, list_elem_of_fmap. exists g. split; [|done]. destruct (Hok g ltac:(by right)) as [? _]. lia. }
      split.
      * intros g w [->|Hg]%elem_of_cons (d' & Hd' & Hc' & Hr' & ->); [|by apply Hset; [done|exists d']].
        rewrite Hf. rewrite Hd in Hd'. injection Hd' as <-. by rewrite Hv.
      * intros i Hi. rewrite Hkeep; [|intros g Hg; apply Hi; by right]. apply list_lookup_insert_ne. apply Hi. left.
Qed.

(** ** The branches of an emission *)

Lemma silent_template relaxed line : silent line = true → line_template relaxed line = t_bytes_of [].
Proof. intros H. unfold line_template. by rewrite H. Qed.

(** The operations of the lines that are no instructions are no branches. *)
Lemma branch_operation op : assoc op branches ≠ None →
  one_of op [""; ".segment"; ".export"; ".setcpu"; ".include"; ".define"] = false ∧ one_of op [".byte"; ".word"] = false.
Proof.
  intros H. split; apply not_true_iff_false; intros (x & Hx & ->%String.eqb_eq)%existsb_exists; apply H; clear H;
    repeat (destruct Hx as [<-|Hx]; [done|]); done.
Qed.

Lemma branch_line_template relaxed line :
  branch_line line → silent line = false ∧
  ∃ opcode, assoc (operation line) branches = Some opcode ∧ line_template relaxed line = branch_template line relaxed opcode.
Proof.
  intros (Hop & Hs & Hn). destruct (branch_operation _ Hop) as [Hsil Hdata]. split; [done|].
  destruct (assoc (operation line) branches) as [opcode|] eqn:Ho; [|done]. exists opcode. split; [done|].
  unfold line_template, silent, is_data. rewrite Hsil, Hdata. unfold encodeInstruction. rewrite Ho.
  rewrite (encodeBranch_template _ _ _ Ho _ Hs Hn). cbn [fmap result_fmap fst]. unfold branch_template.
  by repeat case_bool_decide.
Qed.

Section Assembled.
Context (lines : list ParsedLine) (relaxed : gset Z) (p : Pass) (e : Emission).
Context (Hnd : NoDup (line_number <$> lines)) (HS : Settled lines relaxed p) (HE : Emitted relaxed lines e).

Notation at_ k line := (position relaxed (line_section line) (take k lines)).

Lemma assembled_laid : Laid relaxed ∅ lines p.
Proof. by apply (passof_laid _ _ _ (st_pass _ _ _ HS)). Qed.

(** A fixup is the displacement of a short branch. *)
Lemma fixup_branch k line f :
  lines !! k = Some line → fixup_at relaxed lines k line f →
  silent line = false ∧ branch_line line ∧ line_number line ∉ relaxed
  ∧ f = mkFixup (at_ k line + 1) (operand line 0) (line_number line)
  ∧ ∃ opcode, assoc (operation line) branches = Some opcode ∧ line_template relaxed line = short_branch line opcode.
Proof.
  intros Hk (f0 & Hf0 & ->). destruct (silent line) eqn:Hsil.
  { rewrite silent_template in Hf0 by done. by apply not_elem_of_nil in Hf0. }
  destruct (em_shape _ _ _ HE k line Hk Hsil) as (_ & [_ Hsh] & _).
  destruct Hsh as [[_ H]|[[H _]|[Hb (opcode & Hop & Ht)]]]; [rewrite H in Hf0; by apply not_elem_of_nil in Hf0..|].
  rewrite Ht in Hf0. unfold branch_template in Hf0, Ht. case_bool_decide as Hr.
  { case_bool_decide; by apply not_elem_of_nil in Hf0. }
  apply list_elem_of_singleton in Hf0 as ->. split_and!; try done; by exists opcode.
Qed.

(** A short branch is where it should be and reaches its label. *)
Lemma short_branch_reaches k line :
  lines !! k = Some line → silent line = false → branch_line line → line_number line ∉ relaxed →
  ∃ d, symbols p !! operand line 0 = Some d ∧ d_section d = CODE ∧ -128 ≤ d_offset d - (at_ k line + 2) ≤ 127.
Proof.
  intros Hk Hsil Hb Hr. destruct (st_branches _ _ _ HS line) as [|(d & source & Hd & Hc & Hs & Hin)]; [by eapply list_elem_of_lookup_2|done|done|].
  exists d. split_and!; try done.
  - destruct Hb as (_ & Hsec & _). rewrite (la_offsets _ _ _ _ assembled_laid k line Hk Hnd Hsil Hsec) in Hs. injection Hs as <-.
    rewrite Hsec. lia.
  - destruct Hb as (_ & Hsec & _). rewrite (la_offsets _ _ _ _ assembled_laid k line Hk Hnd Hsil Hsec) in Hs. injection Hs as <-.
    rewrite Hsec. lia.
Qed.

Lemma line_span k line :
  lines !! k = Some line → silent line = false →
  0 ≤ at_ k line ∧ at_ k line + size (line_template relaxed line) ≤ zlen (output (line_section line) e).
Proof.
  intros Hk Hsil. destruct (em_shape _ _ _ HE k line Hk Hsil) as (Hs & _ & Hn).
  rewrite (em_size _ _ _ HE) by done. split; [apply position_nonneg|]. rewrite Hn.
  pose proof (position_end relaxed (line_section line) lines k line Hk) as H. unfold within in H.
  by rewrite bool_decide_eq_true_2 in H.
Qed.

(** Different lines of a section occupy different bytes. *)
Lemma lines_apart i j l1 l2 x :
  lines !! i = Some l1 → lines !! j = Some l2 → silent l1 = false → silent l2 = false → line_section l1 = line_section l2 →
  at_ i l1 ≤ x < at_ i l1 + size (line_template relaxed l1) → at_ j l2 ≤ x < at_ j l2 + size (line_template relaxed l2) →
  i = j.
Proof.
  assert (∀ i j l1 l2, lines !! i = Some l1 → silent l1 = false → line_section l1 = line_section l2 → (i < j)%nat →
    at_ i l1 + size (line_template relaxed l1) ≤ at_ j l2) as Hmono.
  { intros a b x1 x2 Ha Hs Hsec Hab. destruct (em_shape _ _ _ HE a x1 Ha Hs) as (_ & _ & ->).
    pose proof (position_apart relaxed (line_section x1) lines a b x1 Ha Hab) as H. unfold within in H.
    rewrite bool_decide_eq_true_2 in H by done. by rewrite <-Hsec. }
  intros Hi Hj S1 S2 Hsec H1 H2. destruct (Nat.lt_total i j) as [Hlt|[->|Hlt]]; [|done|].
  - pose proof (Hmono _ _ _ _ Hi S1 Hsec Hlt). lia.
  - pose proof (Hmono _ _ _ _ Hj S2 (eq_sym Hsec) Hlt). lia.
Qed.

(** The displacement a short branch gets. *)
Definition displacement (d : SymbolDefinition) (k : nat) (line : ParsedLine) : Z := d_offset d - (at_ k line + 2).

Lemma resolve_emitted :
  ∃ code', resolveBranches (symbols p) (e_fixups e) (e_code e) = Ok code' ∧ zlen code' = zlen (e_code e)
    ∧ (∀ k line d, lines !! k = Some line → silent line = false → branch_line line → line_number line ∉ relaxed →
         symbols p !! operand line 0 = Some d → code' !! Z.to_nat (at_ k line + 1) = Some (u8 (displacement d k line)))
    ∧ (∀ i, (∀ k line, lines !! k = Some line → silent line = false → branch_line line → line_number line ∉ relaxed →
               Z.to_nat (at_ k line + 1) ≠ i) → code' !! i = e_code e !! i).
Proof.
  destruct (resolve_fixups (symbols p) (e_fixups e) (e_code e)) as (code' & Hres & Hlen & Hset & Hkeep).
  - intros f (k & line & Hk & Hf)%(em_fixups _ _ _ HE).
    destruct (fixup_branch k line f Hk Hf) as (Hsil & Hb & Hr & -> & opcode & Hop & Ht). cbn [f_patch].
    destruct (line_span k line Hk Hsil) as [H0 H1]. rewrite Ht in H1. destruct Hb as (Hbr & Hsec & Hn).
    rewrite Hsec in *. cbn [output] in H1. change (size (short_branch line opcode)) with 2 in H1. split; [lia|].
    destruct (short_branch_reaches k line) as (d & Hd & Hc & Hin); [done..|]. rewrite Hsec in Hin.
    eexists. exists d. split_and!; [exact Hd|done| |reflexivity]. cbn [f_patch]. apply in_range_true. lia.
  - intros f g (k & l1 & Hk & Hf)%(em_fixups _ _ _ HE) (j & l2 & Hj & Hg)%(em_fixups _ _ _ HE).
    destruct (fixup_branch k l1 f Hk Hf) as (S1 & B1 & _ & -> & o1 & _ & T1).
    destruct (fixup_branch j l2 g Hj Hg) as (S2 & B2 & _ & -> & o2 & _ & T2). cbn [f_patch f_target]. intros Hp.
    assert (k = j) as ->; [|congruence].
    assert (line_section l1 = line_section l2) as Hsec by (destruct B1 as (_ & -> & _), B2 as (_ & -> & _); done).
    eapply (lines_apart k j l1 l2 (at_ k l1)); [done..|rewrite T1; change (size (short_branch l1 o1)) with 2; lia|rewrite T2; change (size (short_branch l2 o2)) with 2; lia].
  - exists code'. split_and!; try done.
    + intros k line d Hk Hsil Hb Hr Hd.
      destruct (short_branch_reaches k line) as (d' & Hd' & Hc & Hin); [done..|]. rewrite Hd in Hd'. injection Hd' as <-.
      destruct (branch_line_template relaxed line Hb) as (_ & opcode & _ & Ht).
      unfold branch_template in Ht. rewrite bool_decide_eq_false_2 in Ht by done.
      apply (Hset (mkFixup (at_ k line + 1) (operand line 0) (line_number line))).
      * apply (em_fixups _ _ _ HE). exists k, line. split; [done|]. unfold fixup_at. rewrite Ht. eexists.
        split; [by left|]. done.
      * exists d. cbn [f_patch f_target]. split_and!; [done|done|apply in_range_true; lia|]. unfold displacement. f_equal. lia.
    + intros i Hi. apply Hkeep. intros f (k & line & Hk & Hf)%(em_fixups _ _ _ HE).
      destruct (fixup_branch k line f Hk Hf) as (Hsil & Hb & Hr & -> & _). by apply Hi.
Qed.
End Assembled.

(** ** The relocations *)

(** What the relocation of a line is against: a name of the source, or the
    private name of the label of a relaxed branch. *)
Definition target_name (relaxed : gset Z) (line : ParsedLine) (name : string) : Prop :=
  isIdentifier name = true ∨ (name = internal_name (operand line 0) ∧ branch_line line ∧ line_number line ∈ relaxed).

Lemma relocation_shape relaxed line t :
  line_shape relaxed line t →
  t_relocations t = [] ∨ ∃ r, t_relocations t = [r] ∧ target_name relaxed line (target_symbol_name r)
    ∧ section_to_patch r = symbolSection (line_section line) ∧ 0 ≤ patch_offset r
    ∧ patch_offset r + patch_size (r_type r) ≤ size t.
Proof.
  intros [_ [[H _]|[[_ (r & Hr & Hn & Hs & H0 & H1)]|[Hb (opcode & _ & ->)]]]]; [by left|right|].
  - exists r. split_and!; try done. by left.
  - unfold branch_template. case_bool_decide as Hrel; [right|by left]. pose proof Hb as (_ & Hsec & _). rewrite Hsec.
    case_bool_decide; eexists; (split; [reflexivity|]); split_and!; try done; by right.
Qed.

(** The relocations of an emission. *)
Definition inside (e : Emission) (r : RelocationEntry) : Prop :=
  ∃ s, s ≠ SecNone ∧ s ≠ SecRam ∧ section_to_patch r = symbolSection s
    ∧ 0 ≤ patch_offset r ∧ patch_offset r + patch_size (r_type r) ≤ zlen (output s e).

Record Apart (e : Emission) : Prop := {
  ap_inside : Forall (inside e) (e_relocations e);
  ap_disjoint : (∀ s, zlen (output s e) < 2 ^ 32) →
    pairwise (λ a b, disjoint_spans (span a) (span b)) (e_relocations e)
}.

Lemma inside_grows e e' r : (∀ s, s ≠ SecNone → zlen (output s e) ≤ zlen (output s e')) → inside e r → inside e' r.
Proof.
  intros Hg (s & Hn & Hr & Hs & H0 & H1). exists s. split_and!; try done. pose proof (Hg s Hn). lia.
Qed.

#[global] Instance disjoint_spans_sym : Symmetric (λ a b : RelocationEntry, disjoint_spans (span a) (span b)).
Proof. intros a b H Heq. destruct (H (eq_sym Heq)); [by right|by left]. Qed.

Lemma operand_in_patch t : 1 + operand_size t = patch_size t.
Proof. by destruct t. Qed.

(** An instruction in the RAM section is refused. *)
Lemma ram_plain relaxed line e e' :
  emit_line relaxed e line = Ok e' → sized relaxed line → silent line = false → line_section line = SecRam →
  t_relocations (line_template relaxed line) = [].
Proof.
  intros He Hz Hsil Hs. destruct (Hz Hsil) as [_ Hok]. unfold line_size in Hok. unfold line_template, emit_line in *.
  rewrite Hsil in *. destruct (is_data line).
  - apply result_bind_ok in He as (_ & _ & He). apply result_bind_ok in He as (o & Ho & _).
    apply encodeData_emits in Ho as (b & _ & _ & _ & Hall). unfold encodeData. by rewrite Hall.
  - by rewrite bool_decide_eq_true_2 in Hok.
Qed.

Lemma line_relocation relaxed line e e' :
  emit_line relaxed e line = Ok e' → sized relaxed line →
  t_relocations (line_template relaxed line) = [] ∨
  ∃ r, t_relocations (line_template relaxed line) = [r] ∧ target_name relaxed line (target_symbol_name r)
    ∧ line_section line ≠ SecNone ∧ line_section line ≠ SecRam
    ∧ section_to_patch r = symbolSection (line_section line) ∧ 0 ≤ patch_offset r
    ∧ patch_offset r + patch_size (r_type r) ≤ size (line_template relaxed line).
Proof.
  intros He Hz. destruct (emit_line_ok _ _ _ _ He Hz) as (_ & _ & _ & _ & _ & Hsil & Hloud).
  destruct (silent line) eqn:Hl; [left; by apply Hsil|]. destruct (Hloud eq_refl) as [Hsec Hsh].
  destruct (relocation_shape _ _ _ Hsh) as [|(r & Hr & Hrest)]; [by left|].
  destruct (decide (line_section line = SecRam)) as [Hram|Hram]; [left; by eapply ram_plain|right].
  exists r. naive_solver.
Qed.

Lemma outputs_grow relaxed line e e' :
  emit_line relaxed e line = Ok e' → sized relaxed line → ∀ s, zlen (output s e) ≤ zlen (output s e').
Proof.
  intros He Hz. destruct (emit_line_ok _ _ _ _ He Hz) as (Ho & _).
  assert (∀ s, s ≠ SecNone → zlen (output s e) ≤ zlen (output s e')) as Hgrow.
  { intros s Hs. rewrite (Ho s Hs), zlen_app.
    pose proof (zlen_nonneg (if bool_decide (line_section line = s) then t_bytes (line_template relaxed line) else [])). lia. }
  intros [| | |]; [exact (Hgrow SecRam ltac:(done))|by apply Hgrow..].
Qed.

Lemma apart_snoc relaxed line e e' :
  Apart e → emit_line relaxed e line = Ok e' → sized relaxed line → Apart e'.
Proof.
  intros [Hin Hdis] He Hz. pose proof (outputs_grow _ _ _ _ He Hz) as Hgrow.
  destruct (emit_line_ok _ _ _ _ He Hz) as (Ho & Hr & _). cbv zeta in *.
  assert (Forall (inside e') (e_relocations e)) as Hin'.
  { eapply Forall_impl; [exact Hin|]. intros r. apply inside_grows. intros s _. apply Hgrow. }
  assert ((∀ s, zlen (output s e') < 2 ^ 32) → pairwise (λ a b, disjoint_spans (span a) (span b)) (e_relocations e)) as Hdis'.
  { intros Hs. apply Hdis. intros s. eapply Z.le_lt_trans; [apply Hgrow|apply Hs]. }
  destruct (line_relocation _ _ _ _ He Hz) as [Hnil|(r & Hnew & _ & Hs1 & Hs2 & Hsec & H0 & H1)].
  { rewrite Hnil, app_nil_r in Hr. split; by rewrite Hr. }
  rewrite Hnew in Hr. cbn in Hr. pose proof (Ho _ Hs1) as Hout. rewrite bool_decide_eq_true_2 in Hout by done.
  assert (zlen (output (line_section line) e') = zlen (output (line_section line) e) + size (line_template relaxed line)) as Hlen
    by (rewrite Hout; apply zlen_app).
  set (base := zlen (output (line_section line) e)) in *. pose proof (zlen_nonneg (output (line_section line) e)) as Hbase.
  split; rewrite Hr.
  - apply Forall_app. split; [done|]. apply Forall_singleton. exists (line_section line). cbn [narrow move_relocation section_to_patch patch_offset r_type].
    pose proof (uwrap_range 32 (base + patch_offset r)). assert (u32 (base + patch_offset r) ≤ base + patch_offset r) by (apply Z.mod_le; [lia|done]).
    unfold u32 in *. split_and!; try done; lia.
  - intros Hsmall. pose proof (Hsmall (line_section line)) as Hb32. eapply pairwise_perm; [apply Permutation_cons_append|].
    apply pairwise_cons; [apply _|]. split; [|by apply Hdis'].
    eapply Forall_impl; [exact Hin|]. intros r1 (s & Hn & Hrr & Hs & Hp0 & Hp1) Heq. right.
    unfold span in *. cbn [sp_section sp_begin sp_end narrow move_relocation section_to_patch patch_offset r_type] in *.
    rewrite Hsec, Hs in Heq. assert (s = line_section line) as -> by (destruct s, (line_section line); done).
    assert (u32 (base + patch_offset r) = base + patch_offset r) as ->.
    { apply uwrap_small. pose proof (operand_in_patch (r_type r)). destruct (r_type r); cbn in *; lia. }
    pose proof (operand_in_patch (r_type r1)). lia.
Qed.

Lemma secondPass_apart relaxed lines e :
  secondPass lines relaxed = Ok e → Forall (sized relaxed) lines → Apart e.
Proof.
  unfold secondPass. intros H Hs. refine (foldM_inv Apart _ _ (mkEmission [] [] [] [] []) e _ _ H); [|split; [constructor|]].
  - intros e1 line e2 Hin Ha He. eapply apart_snoc; [done|done|]. rewrite Forall_forall in Hs. by apply Hs.
  - intros _ i j a b _ Ha. done.
Qed.

(** ** Private and exported symbols *)

Definition renamed (p : Pass) (r : RelocationEntry) : RelocationEntry :=
  match symbols p !! target_symbol_name r with
  | Some _ =>
      if bool_decide (target_symbol_name r ∈ exports p) then r
      else mkRelocation (internal_name (target_symbol_name r)) (section_to_patch r) (patch_offset r) (r_type r)
  | None => r
  end.

(** The private symbols made so far. *)
Record Private (p : Pass) (v : Privates) : Prop := {
  pr_symbols s : s ∈ pv_symbols v ↔ ∃ name d, name ∈ pv_added v ∧ symbols p !! name = Some d
    ∧ s = mkSymbol (internal_name name) (d_section d) (u32 (d_offset d));
  pr_known name : name ∈ pv_added v → is_Some (symbols p !! name);
  pr_names : NoDup (s_name <$> pv_symbols v)
}.

Lemma internal_name_inj a b : internal_name a = internal_name b → a = b.
Proof. intros H. change (String (ascii_of_z 1) a = String (ascii_of_z 1) b) in H. by injection H. Qed.

Lemma add_private_ok p v name d :
  Private p v → symbols p !! name = Some d → Private p (add_private name (d_section d) (d_offset d) v)
    ∧ pv_added (add_private name (d_section d) (d_offset d) v) = {[name]} ∪ pv_added v
    ∧ pv_relocations (add_private name (d_section d) (d_offset d) v) = pv_relocations v.
Proof.
  intros [Hs Hk Hn] Hd. unfold add_private. case_bool_decide as Hin.
  - split; [done|]. split; [set_solver|done].
  - split; [|done]. split; cbn.
    + intros s. rewrite elem_of_app, Hs. split.
      * intros [(n & d' & Hn' & Hd' & ->)| ->%list_elem_of_singleton]; [exists n, d'|exists name, d]; set_solver.
      * intros (n & d' & [->%elem_of_singleton|Hn']%elem_of_union & Hd' & ->); [right|left; by exists n, d'].
        rewrite Hd in Hd'. injection Hd' as <-. set_solver.
    + intros n [->%elem_of_singleton|Hn']%elem_of_union; [by rewrite Hd|by apply Hk].
    + rewrite fmap_app. apply NoDup_app. split; [done|]. split; [|apply NoDup_singleton].
      intros n (s & -> & Hs')%list_elem_of_fmap Hx%list_elem_of_singleton. cbn in Hx.
      apply Hs in Hs' as (n' & d' & Hn' & _ & ->). cbn in Hx. apply internal_name_inj in Hx. congruence.
Qed.

Lemma private_relocations_ok p relocations v :
  Private p v →
  let v' := foldl (private_relocation p) v relocations in
  Private p v' ∧ pv_relocations v' = pv_relocations v ++ (renamed p <$> relocations)
  ∧ (∀ name, name ∈ pv_added v' ↔ name ∈ pv_added v ∨
       (is_Some (symbols p !! name) ∧ name ∉ exports p ∧ ∃ r, r ∈ relocations ∧ target_symbol_name r = name)).
Proof.
  revert v. induction relocations as [|r rs IH]; intros v Hv; cbn [foldl].
  { split; [done|]. split; [by rewrite app_nil_r|]. intros name. split; [by left|]. intros [|(_ & _ & r & Hr & _)]; [done|].
    by apply not_elem_of_nil in Hr. }
  set (v1 := private_relocation p v r).
  assert (Private p v1 ∧ pv_relocations v1 = pv_relocations v ++ [renamed p r]
    ∧ ∀ name, name ∈ pv_added v1 ↔ name ∈ pv_added v ∨
       (is_Some (symbols p !! name) ∧ name ∉ exports p ∧ target_symbol_name r = name)) as (H1 & H2 & H3).
  { unfold v1, private_relocation, renamed. destruct (symbols p !! target_symbol_name r) as [d|] eqn:Hd.
    - case_bool_decide as Hx.
      + split; [by destruct Hv|]. split; [done|]. intros name. cbn. split; [by left|]. intros [|(_ & Hn & <-)]; done.
      + destruct (add_private_ok p v _ d Hv Hd) as ([A1 A2 A3] & A4 & A5). split; [by split|]. split; [cbn; by rewrite A5|].
        intros name. cbn. rewrite A4. split.
        * intros [->%elem_of_singleton|Hn]%elem_of_union; [right; by rewrite Hd|by left].
        * intros [Hn|(_ & _ & <-)]; set_solver.
    - split; [by destruct Hv|]. split; [done|]. intros name. cbn. split; [by left|]. intros [|([? Hn] & _ & <-)]; [done|congruence]. }
  destruct (IH v1 H1) as (I1 & I2 & I3). split; [done|]. split; [by rewrite I2, H2, <-app_assoc|].
  intros name. rewrite I3, H3. split.
  - intros [[|(? & ? & <-)]|(? & ? & r' & ? & <-)]; [by left|right..]; split_and!; try done; eexists; (split; [|done]); set_solver.
  - intros [|(Hs & Hx & r' & [->|Hr']%elem_of_cons & <-)]; [by left; left|left; by right|right]. split_and!; try done. by exists r'.
Qed.

Lemma private_targets_ok p relaxed lines v :
  Private p v → (∀ line d, line ∈ lines → line_number line ∈ relaxed → symbols p !! operand line 0 = Some d → d_section d = CODE) →
  let v' := foldl (private_target p relaxed) v lines in
  Private p v' ∧ pv_relocations v' = pv_relocations v
  ∧ (∀ name, name ∈ pv_added v' ↔ name ∈ pv_added v ∨
       ∃ line, line ∈ lines ∧ line_number line ∈ relaxed ∧ operand line 0 = name ∧ is_Some (symbols p !! name)).
Proof.
  revert v. induction lines as [|line lines IH]; intros v Hv Hcode; cbn [foldl].
  { split_and!; try done. intros name. split; [by left|]. intros [|(l & Hl & _)]; [done|]. by apply not_elem_of_nil in Hl. }
  set (v1 := private_target p relaxed v line).
  assert (Private p v1 ∧ pv_relocations v1 = pv_relocations v
    ∧ ∀ name, name ∈ pv_added v1 ↔ name ∈ pv_added v ∨
       (line_number line ∈ relaxed ∧ operand line 0 = name ∧ is_Some (symbols p !! name))) as (H1 & H2 & H3).
  { unfold v1, private_target. case_bool_decide as Hr; cbn [negb].
    - destruct (symbols p !! operand line 0) as [d|] eqn:Hd.
      + rewrite <-(Hcode line d) by (done || left). destruct (add_private_ok p v _ d Hv Hd) as (A1 & A2 & A3).
        split_and!; try done. intros name. rewrite A2. split.
        * intros [->%elem_of_singleton|Hn]%elem_of_union; [right; by rewrite Hd|by left].
        * intros [Hn|(_ & <- & _)]; set_solver.
      + split_and!; try done. intros name. split; [by left|]. intros [|(_ & <- & [? Hn])]; [done|congruence].
    - split_and!; try done. intros name. split; [by left|]. by intros [|(? & _)]. }
  destruct (IH v1 H1) as (I1 & I2 & I3); [intros l d Hl; apply Hcode; by right|]. split; [done|]. split; [by rewrite I2, H2|].
  intros name. rewrite I3, H3. split.
  - intros [[|(? & <- & ?)]|(l & ? & ? & <- & ?)]; [by left|right..]; [exists line|exists l]; set_solver.
  - intros [|(l & [->|Hl]%elem_of_cons & ? & <- & ?)]; [by left; left|left; by right|right]. by exists l.
Qed.
