(* ===== verification/AsmObject.v ===== *)
(** * AsmObject: the theorems about assembled objects *)

From S2P Require Import Prelude Target Object AsmText Encode EncodeSound Assembler AsmSound AsmProps.

(** ** What the parser leaves *)

Definition alignment_ok (a : Z) : Prop := a ∈ [1; 2; 4; 8; 16; 32; 64; 128].

Record SettingsOk (s : Settings) : Prop := {
  so_target : target (st_config s) = GSU;
  so_start : 0 ≤ code_start_address (st_config s) < 2 ^ 32;
  so_bitmap : Bitmap.wf (bitmap (st_config s));
  so_data : alignment_ok (st_data_alignment s);
  so_ram : alignment_ok (st_ram_alignment s)
}.

Lemma bitmap_definition_ok name value line s s' :
  bitmap_definition name value line s = Ok s' → SettingsOk s → SettingsOk s'.
Proof.
  unfold bitmap_definition. intros H [H1 H2 (H3 & H4 & H5) H6 H7]. destruct (parseNumber value) as [n|]; [|done].
  destruct ((n <? 0) || (255 <? n)) eqn:Hn; [done|]. assert (0 ≤ n ≤ 255) as Hr by (apply orb_false_iff in Hn; lia).
  case_bool_decide.
  - apply Ok_inj in H as <-. split; try done. cbn. split_and!; try done; rewrite Z.shiftl_mul_pow2 by done; cbn; lia.
  - destruct (negb (Z.land n (Z.lnot 39) =? 0) || (Z.land n 3 =? 2)); [done|].
    apply Ok_inj in H as <-. split; try done. unfold Bitmap.wf. cbn [Bitmap.height Bitmap.depth Bitmap.base bitmap st_config with_config with_bitmap].
    split; [repeat case_match; lia|]. split; [repeat case_match; lia|done].
Qed.

Lemma alignment_definition_ok name value line s s' :
  alignment_definition name value line s = Ok s' → SettingsOk s → SettingsOk s'.
Proof.
  unfold alignment_definition. intros H [H1 H2 H3 H4 H5]. destruct (parseNumber value) as [a|]; [|done].
  destruct ((a <? 1) || (128 <? a) || negb (Z.land a (a - 1) =? 0)) eqn:Ha; [done|].
  assert (alignment_ok a) as Hok.
  { apply bad_alignment_false. unfold bad_alignment. apply orb_false_iff in Ha as [[Ha1 Ha2]%orb_false_iff Ha3].
    rewrite Ha2, Ha3. apply orb_false_iff. split; [apply orb_false_iff; lia|done]. }
  apply Ok_inj in H as <-. by case_bool_decide; split.
Qed.

Lemma parseConfigDefinition_ok rest line s s' :
  parseConfigDefinition rest line s = Ok s' → SettingsOk s → SettingsOk s'.
Proof.
  unfold parseConfigDefinition. intros H Hs. destruct (words _ rest) as [|name [|value [|]]]; try done.
  case_bool_decide; [|done]. cbn [negb] in H. case_bool_decide; [done|].
  set (s1 := mkSettings (st_config s) (st_data_alignment s) (st_ram_alignment s) (st_cache_alignment s)
    ({[name]} ∪ st_defined s)) in H. assert (SettingsOk s1) as Hs1 by (by destruct Hs).
  case_bool_decide.
  { case_bool_decide; [|done]. apply Ok_inj in H as <-. by destruct Hs. }
  destruct (bool_decide (name ∈ ["__DISCO_BITMAP_SCBR"; "__DISCO_BITMAP_SCMR"])); [by eapply bitmap_definition_ok|].
  destruct (bool_decide (name = "__DISCO_MEMORY_MAPPING")).
  { unfold mapping_definition in H. apply result_bind_ok in H as (m & _ & <-%Ok_inj). destruct Hs1 as [A1 A2 A3 A4 A5].
    destruct (bool_decide ("__DISCO_CODE_START_ADDRESS" ∈ _)); [by split|]. split; try done. cbn. by case_bool_decide. }
  destruct (bool_decide (name ∈ ["__DISCO_DATA_ALIGNMENT"; "__DISCO_RAM_ALIGNMENT"])); [by eapply alignment_definition_ok|].
  destruct (parseNumber value) as [a|]; [|done].
  destruct ((a <? 0) || (0xFFFFFF <? a)) eqn:Ha; [done|]. apply Ok_inj in H as <-. destruct Hs1. split; try done. cbn.
  apply orb_false_iff in Ha. lia.
Qed.

Record ParserOk (p : Parser) : Prop := {
  po_numbers line : line ∈ p_lines p → line_number line ≤ p_number p;
  po_distinct : NoDup (line_number <$> p_lines p);
  po_labels line : line ∈ p_lines p → label line = "" ∨ isIdentifier (label line) = true;
  po_settings : SettingsOk (p_settings p)
}.

Lemma split_label_ok raw line l rest : split_label raw line = Ok (l, rest) → l = "" ∨ isIdentifier l = true.
Proof.
  unfold split_label. destruct (find_char _ raw); [|by intros [= <- _]; left]. case_match; [|by intros [= <- _]; left].
  destruct (isIdentifier _) eqn:E; [|done]. intros [= <- _]. by right.
Qed.

(** A line with the next number. *)
Lemma parser_snoc p line s current :
  ParserOk p → line_number line = p_number p + 1 → (label line = "" ∨ isIdentifier (label line) = true) → SettingsOk s →
  ParserOk (mkParser (p_lines p ++ [line]) current (p_number p + 1) s).
Proof.
  intros [H1 H2 H3 H4] Hn Hl Hs. split; cbn; [| | |done].
  - intros l [Hin| ->%list_elem_of_singleton]%elem_of_app; [|lia]. specialize (H1 l Hin). lia.
  - rewrite fmap_app. apply NoDup_app. split; [done|]. split; [|apply NoDup_singleton].
    intros n (l & -> & Hin)%list_elem_of_fmap Hx%list_elem_of_singleton. specialize (H1 l Hin). lia.
  - intros l [Hin| ->%list_elem_of_singleton]%elem_of_app; [by apply H3|done].
Qed.

Lemma parse_line_ok p raw p' : parse_line p raw = Ok p' → ParserOk p → ParserOk p'.
Proof.
  unfold parse_line. intros H Hp. case_bool_decide.
  { apply Ok_inj in H as <-. destruct Hp as [H1 H2 H3 H4]. split; try done. cbn. intros l Hl. specialize (H1 l Hl). lia. }
  apply result_bind_ok in H as ([l rest] & Hl & H). apply split_label_ok in Hl.
  destruct (_ && _); [apply Ok_inj in H as <-; apply parser_snoc; try done; apply Hp|].
  apply result_bind_ok in H as (s & Hs & H). apply result_bind_ok in H as (current & _ & <-%Ok_inj).
  apply parser_snoc; try done. case_bool_decide; [|apply Ok_inj in Hs as <-; apply Hp].
  eapply parseConfigDefinition_ok; [done|apply Hp].
Qed.

Record Parsed (lines : list ParsedLine) (s : Settings) : Prop := {
  pa_distinct : NoDup (line_number <$> lines);
  pa_labels line : line ∈ lines → label line = "" ∨ isIdentifier (label line) = true;
  pa_settings : SettingsOk s
}.

Lemma parse_ok source lines s : parse source = Ok (lines, s) → Parsed lines s.
Proof.
  unfold parse. intros (p & Hp & [= <- <-])%result_bind_ok.
  assert (ParserOk p) as [H1 H2 H3 H4]; [|by split].
  refine (foldM_inv ParserOk _ _ (mkParser [] SecNone 0 default_settings) p _ _ Hp).
  - intros q raw q' _ Hq H. by eapply parse_line_ok.
  - split; cbn; [by intros ? ?%not_elem_of_nil|constructor|by intros ? ?%not_elem_of_nil|].
    split; [done|done|by repeat split|left|right; left].
Qed.

(** ** Everything the assembler has found *)

(** The branches the assembler lengthens. *)
Definition relaxed_lines (lines : list ParsedLine) : gset Z :=
  match (p ← firstPass lines ∅ ∅; relaxBranches (assemble_fuel lines) lines ∅ p) with
  | Ok (Some (relaxed, _)) => relaxed
  | _ => ∅
  end.

(** The object with the passes that made it. *)
Record Assembly (lines : list ParsedLine) (s : Settings) (relaxed : gset Z) (p : Pass) (e : Emission) (o : ObjectFile) : Prop := {
  as_distinct : NoDup (line_number <$> lines);
  as_settled : Settled lines relaxed p;
  as_emitted : Emitted relaxed lines e;
  as_apart : Apart e;
  as_resolved : resolveBranches (symbols p) (e_fixups e) (e_code e) = Ok (code_section o);
  as_object : ∃ exported, addExportedSymbols p = Ok exported
    ∧ o = build s (code_section o) e (addInternalSymbols p relaxed lines (e_relocations e)) exported;
  as_relaxed : relaxed = relaxed_lines lines
}.

(** Relaxation of a program that has passed once ends settled. *)
Lemma relax_settled lines p0 r :
  firstPass lines ∅ ∅ = Ok p0 → relaxBranches (assemble_fuel lines) lines ∅ p0 = Ok r →
  ∃ relaxed p, r = Some (relaxed, p) ∧ Settled lines relaxed p.
Proof.
  intros Hp Hr. apply (relaxBranches_settled _ _ _ _ _) in Hr; [done| | |].
  - unfold assemble_fuel. pose proof (remaining_bound lines ∅). lia.
  - exists ∅. split; [done|]. set_solver.
  - intros n Hn. by apply not_elem_of_empty in Hn.
Qed.

Lemma assemble_assembly lines s o :
  Parsed lines s → assemble_lines lines s = Ok o → ∃ relaxed p e, Assembly lines s relaxed p e o.
Proof.
  intros HP. unfold assemble_lines. intros (p0 & Hp0 & H)%result_bind_ok. apply result_bind_ok in H as (r & Hr & H).
  destruct (relax_settled _ _ _ Hp0 Hr) as (relaxed & p & -> & HS).
  apply result_bind_ok in H as (e & He & H). apply result_bind_ok in H as (c & Hc & H).
  apply result_bind_ok in H as (x & Hx & <-%Ok_inj).
  assert (Forall (sized relaxed) lines) as Hz by apply (la_sized _ _ _ _ (assembled_laid _ _ _ HS)).
  exists relaxed, p, e. split.
  - apply HP.
  - done.
  - by apply secondPass_emitted.
  - by eapply secondPass_apart.
  - done.
  - by exists x.
  - unfold relaxed_lines. rewrite Hp0. cbn [mbind result_mbind result_bind]. by rewrite Hr.
Qed.

Lemma assemble_parsed source o :
  assemble source = Ok o → ∃ lines s relaxed p e, parse source = Ok (lines, s) ∧ Parsed lines s
    ∧ Bitmap.validate (bitmap (st_config s)) = Ok tt ∧ Assembly lines s relaxed p e o.
Proof.
  unfold assemble. intros ([lines s] & Hs & H)%result_bind_ok. case_match; [done|].
  apply result_bind_ok in H as ([] & Hb & H). pose proof (parse_ok _ _ _ Hs) as HP.
  destruct (assemble_assembly _ _ _ HP H) as (relaxed & p & e & HA). by exists lines, s, relaxed, p, e.
Qed.

(** ** The image *)

(** [bytes] are in a section from a position on. *)
Definition stands (section : list Z) (position : Z) (bytes : list Z) : Prop :=
  ∀ i b, bytes !! i = Some b → section !! (Z.to_nat position + i)%nat = Some b.

Definition section_of (o : ObjectFile) (s : Section_) : list Z :=
  match s with SecCode => code_section o | SecData => data_section o | _ => ram_section o end.

Section Image.
Context (lines : list ParsedLine) (s : Settings) (relaxed : gset Z) (p : Pass) (e : Emission) (o : ObjectFile).
Context (A : Assembly lines s relaxed p e o).

Notation at_ k line := (position relaxed (line_section line) (take k lines)).

Lemma section_size x : x ≠ SecNone → zlen (section_of o x) = position relaxed x lines.
Proof.
  intros Hx. rewrite <-(em_size _ _ _ (as_emitted _ _ _ _ _ _ A)) by done.
  destruct (resolve_emitted lines relaxed p e (as_distinct _ _ _ _ _ _ A) (as_settled _ _ _ _ _ _ A) (as_emitted _ _ _ _ _ _ A))
    as (c & Hc & Hlen & _). rewrite (as_resolved _ _ _ _ _ _ A) in Hc. injection Hc as <-.
  destruct (as_object _ _ _ _ _ _ A) as (x0 & _ & Ho). destruct x; [done|exact Hlen|rewrite Ho; done..].
Qed.

(** What a line emits is in the emission where the line is. *)
Lemma emitted_stands k line :
  lines !! k = Some line → silent line = false → stands (output (line_section line) e) (at_ k line) (t_bytes (line_template relaxed line)).
Proof.
  intros Hk Hsil i b Hb. destruct (em_line _ _ _ (as_emitted _ _ _ _ _ _ A) k line Hk Hsil) as (before & after & -> & Hlen).
  rewrite <-Hlen. unfold zlen. rewrite Nat2Z.id, lookup_app_r by lia. replace (_ + i - _)%nat with i by lia.
  by apply lookup_app_l_Some.
Qed.

(** A line that is not a short branch is not touched by the resolution. *)
Lemma line_stands k line :
  lines !! k = Some line → silent line = false → ¬ (branch_line line ∧ line_number line ∉ relaxed) →
  stands (section_of o (line_section line)) (at_ k line) (t_bytes (line_template relaxed line)).
Proof.
  intros Hk Hsil Hnb i b Hb. pose proof (emitted_stands k line Hk Hsil i b Hb) as Hst.
  destruct (as_object _ _ _ _ _ _ A) as (x0 & _ & Ho).
  destruct (em_shape _ _ _ (as_emitted _ _ _ _ _ _ A) k line Hk Hsil) as (Hsec & _).
  destruct (decide (line_section line = SecCode)) as [Hcode|Hcode]; [|by rewrite Ho; destruct (line_section line)].
  destruct (resolve_emitted lines relaxed p e (as_distinct _ _ _ _ _ _ A) (as_settled _ _ _ _ _ _ A) (as_emitted _ _ _ _ _ _ A))
    as (c & Hc & _ & _ & Hkeep). rewrite (as_resolved _ _ _ _ _ _ A) in Hc. injection Hc as <-.
  rewrite Hcode in Hst |- *. cbn [section_of output] in *. rewrite Hkeep; [done|].
  intros j l Hj Hsl Hbl Hrl Heq. destruct (branch_line_template relaxed l Hbl) as (_ & opcode & _ & Ht).
  unfold branch_template in Ht. rewrite bool_decide_eq_false_2 in Ht by done.
  assert (k = j) as ->; [|rewrite Hk in Hj; injection Hj as ->; by apply Hnb]. pose proof Hbl as (_ & Hlc & _).
  pose proof (position_nonneg relaxed SecCode (take k lines)). pose proof (position_nonneg relaxed SecCode (take j lines)).
  apply lookup_lt_Some in Hb.
  pose proof (lines_apart lines relaxed e (as_emitted _ _ _ _ _ _ A) k j line l
    (position relaxed SecCode (take k lines) + Z.of_nat i) Hk Hj Hsil Hsl) as Hap.
  rewrite Hcode, Hlc, Ht in Hap. change (size (short_branch l opcode)) with 2 in Hap. rewrite Hlc in Heq.
  apply Hap; [done|unfold size, zlen; lia|lia].
Qed.

(** A short branch, with its displacement. *)
Lemma short_stands k line :
  lines !! k = Some line → branch_line line → line_number line ∉ relaxed →
  ∃ opcode j target, assoc (operation line) branches = Some opcode
    ∧ lines !! j = Some target ∧ label target = operand line 0 ∧ line_section target = SecCode
    ∧ -128 ≤ at_ j target - (at_ k line + 2) ≤ 127
    ∧ stands (code_section o) (at_ k line) [opcode; u8 (at_ j target - (at_ k line + 2))].
Proof.
  intros Hk Hb Hr. destruct (branch_line_template relaxed line Hb) as (Hsil & opcode & Hop & Ht).
  unfold branch_template in Ht. rewrite bool_decide_eq_false_2 in Ht by done.
  pose proof (as_settled _ _ _ _ _ _ A) as HS. pose proof (as_emitted _ _ _ _ _ _ A) as HE.
  destruct (short_branch_reaches lines relaxed p (as_distinct _ _ _ _ _ _ A) HS k line) as (d & Hd & Hc & Hin); [done..|].
  pose proof Hd as (j & target & Hj & Hl & Hn & Hsec & ->)%(la_labels _ _ _ _ (assembled_laid _ _ _ HS)).
  cbn [d_section d_offset] in *. apply (symbolSection_code _ Hsec) in Hc.
  destruct (resolve_emitted lines relaxed p e (as_distinct _ _ _ _ _ _ A) HS HE) as (c & Hcode & _ & Hset & Hkeep).
  rewrite (as_resolved _ _ _ _ _ _ A) in Hcode. injection Hcode as <-. pose proof Hb as (_ & Hlc & _).
  pose proof (position_nonneg relaxed SecCode (take k lines)) as H0.
  exists opcode, j, target. do 4 (split; [done|]). split; [exact Hin|]. intros [|[|i]] b Hi; [..|by destruct i].
  - injection Hi as <-. pose proof (emitted_stands k line Hk Hsil 0%nat opcode) as Hst. rewrite Ht, Hlc in Hst. specialize (Hst eq_refl).
    cbn [output] in Hst. rewrite Hlc. rewrite Hkeep; [done|].
    intros j' l Hj' Hsl Hbl Hrl Heq. destruct (branch_line_template relaxed l Hbl) as (_ & opcode' & _ & Ht').
    unfold branch_template in Ht'. rewrite bool_decide_eq_false_2 in Ht' by done. pose proof Hbl as (_ & Hlc' & _).
    pose proof (position_nonneg relaxed SecCode (take j' lines)). rewrite Hlc' in Heq.
    assert (k = j') as <-; [|rewrite Hk in Hj'; lia].
    pose proof (lines_apart lines relaxed e HE k j' line l (position relaxed SecCode (take k lines)) Hk Hj' Hsil Hsl) as Hap.
    rewrite Hlc, Hlc', Ht, Ht' in Hap. change (size (short_branch l opcode')) with 2 in Hap.
    change (size (short_branch line opcode)) with 2 in Hap. apply Hap; [done|lia|lia].
  - injection Hi as <-. specialize (Hset k line _ Hk Hsil Hb Hr Hd). unfold displacement in Hset. cbn [d_offset] in Hset.
    rewrite Hlc in *. replace (Z.to_nat (position relaxed SecCode (take k lines)) + 1)%nat
      with (Z.to_nat (position relaxed SecCode (take k lines) + 1)) by lia. exact Hset.
Qed.
End Image.

(** ** The tables *)

Lemma internal_not_identifier name : isIdentifier (internal_name name) = false.
Proof. done. Qed.

Lemma exported_symbols_ok p names exported :
  mapM_r (exported_symbol p) names = Ok exported →
  s_name <$> exported = names
  ∧ ∀ sym, sym ∈ exported ↔ ∃ name d, name ∈ names ∧ symbols p !! name = Some d
      ∧ sym = mkSymbol name (d_section d) (u32 (d_offset d)).
Proof.
  revert exported. induction names as [|name names IH]; intros exported; cbn [mapM_r].
  - intros <-%Ok_inj. split; [done|]. intros sym. split; [by intros ?%not_elem_of_nil|]. intros (n & d & Hn & _). by apply not_elem_of_nil in Hn.
  - intros (y & Hy & H)%result_bind_ok. apply result_bind_ok in H as (ys & Hys & <-%Ok_inj).
    unfold exported_symbol in Hy. destruct (symbols p !! name) as [d|] eqn:Hd; [|done]. apply Ok_inj in Hy as <-.
    destruct (IH _ Hys) as [I1 I2]. split; [cbn; by rewrite I1|]. intros sym. rewrite elem_of_cons, I2. split.
    + intros [->|(n & d' & ? & ? & ?)]; [exists name, d|exists n, d']; set_solver.
    + intros (n & d' & [->|Hn]%elem_of_cons & Hd' & ->); [left|right; by exists n, d']. rewrite Hd in Hd'. by injection Hd' as <-.
Qed.

Section Tables.
Context (lines : list ParsedLine) (s : Settings) (relaxed : gset Z) (p : Pass) (e : Emission) (o : ObjectFile).
Context (HP : Parsed lines s) (A : Assembly lines s relaxed p e o).
Notation at_ k line := (position relaxed (line_section line) (take k lines)).

Let L : Laid relaxed ∅ lines p := assembled_laid _ _ _ (as_settled _ _ _ _ _ _ A).

Lemma label_identifier name d : symbols p !! name = Some d → isIdentifier name = true.
Proof.
  intros (k & line & Hk & Hl & Hn & _)%(la_labels _ _ _ _ L).
  destruct (pa_labels _ _ HP line) as [|]; [by eapply list_elem_of_lookup_2|congruence|congruence].
Qed.

(** The label a relaxed branch jumps to. *)
Lemma relaxed_target line :
  line ∈ lines → line_number line ∈ relaxed →
  branch_line line ∧ ∃ j target, lines !! j = Some target ∧ label target = operand line 0 ∧ line_section target = SecCode
    ∧ symbols p !! operand line 0 = Some (mkDefinition CODE (at_ j target)).
Proof.
  intros Hl Hr. destruct (st_relaxable _ _ _ (as_settled _ _ _ _ _ _ A) _ Hr) as (line' & Hl' & Hn & Hb & (Hne & target & Ht & Hlab & Hc)).
  assert (line' = line) as ->.
  { apply list_elem_of_lookup in Hl as [i Hi], Hl' as [i' Hi'].
    assert (i = i') as <-; [|congruence]. apply (NoDup_lookup _ i i' (line_number line) (as_distinct _ _ _ _ _ _ A)).
    - by rewrite list_lookup_fmap, Hi.
    - rewrite list_lookup_fmap, Hi'. cbn. by rewrite Hn. }
  split; [done|]. apply list_elem_of_lookup in Ht as [j Hj]. exists j, target. split_and!; try done.
  apply (la_labels _ _ _ _ L). exists j, target. split_and!; try done; by rewrite Hc.
Qed.

Lemma internal_symbols_ok :
  let v := addInternalSymbols p relaxed lines (e_relocations e) in
  Private p v ∧ pv_relocations v = renamed p <$> e_relocations e
  ∧ ∀ name, name ∈ pv_added v ↔
      (is_Some (symbols p !! name) ∧ name ∉ exports p ∧ ∃ r, r ∈ e_relocations e ∧ target_symbol_name r = name)
      ∨ ∃ line, line ∈ lines ∧ line_number line ∈ relaxed ∧ operand line 0 = name.
Proof.
  unfold addInternalSymbols.
  destruct (private_relocations_ok p (e_relocations e) (mkPrivates ∅ [] [])) as (H1 & H2 & H3).
  { split; [|set_solver|constructor]. intros sym. split; [by intros ?%not_elem_of_nil|]. intros (n & d & Hn & _). set_solver. }
  destruct (private_targets_ok p relaxed lines _ H1) as (K1 & K2 & K3).
  { intros line d Hl Hr Hd. destruct (relaxed_target line Hl Hr) as (_ & j & target & _ & _ & _ & Hs). rewrite Hs in Hd. by injection Hd as <-. }
  split; [done|]. split; [by rewrite K2, H2|]. intros name. rewrite K3, H3. split.
  - intros [[?%not_elem_of_empty|?]|(line & ? & ? & ? & _)]; [done|by left|right; by exists line].
  - intros [?|(line & Hl & Hr & <-)]; [by left; right|right]. exists line. split_and!; try done.
    destruct (relaxed_target line Hl Hr) as (_ & j & target & _ & _ & _ & ->). done.
Qed.

Lemma symbol_table_ok sym :
  sym ∈ symbol_table o ↔ sym ∈ cache_hint s ∨ ∃ name d, symbols p !! name = Some d
    ∧ ((name ∈ pv_added (addInternalSymbols p relaxed lines (e_relocations e)) ∧ sym = mkSymbol (internal_name name) (d_section d) (u32 (d_offset d)))
       ∨ (name ∈ exports p ∧ sym = mkSymbol name (d_section d) (u32 (d_offset d)))).
Proof.
  destruct (as_object _ _ _ _ _ _ A) as (exported & Hx & Ho). apply exported_symbols_ok in Hx as [_ Hx].
  destruct internal_symbols_ok as ([Hv _ _] & _ & _). rewrite Ho. cbn [build symbol_table].
  rewrite !elem_of_app, Hv, Hx. unfold in_order. setoid_rewrite merge_sort_Permutation. setoid_rewrite elem_of_elements. naive_solver.
Qed.

Definition hint_label : string := "__disco_cache_align16".

Lemma hint_name : CacheAlignmentSymbol = internal_name hint_label.
Proof. reflexivity. Qed.

Lemma symbol_names : symbols p !! hint_label = None → NoDup (s_name <$> symbol_table o).
Proof.
  intros Hhint. destruct (as_object _ _ _ _ _ _ A) as (exported & Hx & Ho). apply exported_symbols_ok in Hx as [Hn Hx].
  destruct internal_symbols_ok as ([Hv _ Hd] & _ & _). rewrite Ho. cbn [build symbol_table]. rewrite !fmap_app, Hn.
  set (v := addInternalSymbols _ _ _ _) in *.
  assert (∀ n, n ∈ s_name <$> pv_symbols v → ∃ name, n = internal_name name ∧ is_Some (symbols p !! name)) as Hpv.
  { intros n (sym & -> & (name & d & _ & H & ->)%Hv)%list_elem_of_fmap. exists name. by rewrite H. }
  assert (∀ n, n ∈ in_order (exports p) → isIdentifier n = true) as Hex.
  { intros n H. rewrite <-Hn in H. apply list_elem_of_fmap in H as (sym & -> & (name & d & _ & H & ->)%Hx). by eapply label_identifier. }
  assert (∀ n, n ∈ s_name <$> cache_hint s → n = internal_name hint_label) as Hh.
  { unfold cache_hint. destruct (st_cache_alignment s); cbn; [by intros n ->%list_elem_of_singleton|by intros n ?%not_elem_of_nil]. }
  apply NoDup_app. split; [|split].
  - unfold cache_hint. destruct (st_cache_alignment s); [apply NoDup_singleton|apply NoDup_nil_2].
  - intros n ->%Hh [(name & Heq & H)%Hpv|H%Hex]%elem_of_app; [|done].
    apply internal_name_inj in Heq as <-. rewrite Hhint in H. by destruct H.
  - apply NoDup_app. split; [done|]. split.
    + by intros n (name & -> & _)%Hpv H%Hex.
    + unfold in_order. rewrite merge_sort_Permutation. apply NoDup_elements.
Qed.

Lemma relocation_table_ok : relocation_table o = renamed p <$> e_relocations e.
Proof.
  destruct (as_object _ _ _ _ _ _ A) as (exported & _ & Ho). rewrite Ho. cbn. apply internal_symbols_ok.
Qed.

(** Renaming touches nothing but the name. *)
Lemma renamed_fields r :
  section_to_patch (renamed p r) = section_to_patch r ∧ patch_offset (renamed p r) = patch_offset r ∧ r_type (renamed p r) = r_type r.
Proof. unfold renamed. by repeat case_match. Qed.

Lemma renamed_span r : span (renamed p r) = span r.
Proof. unfold span. by destruct (renamed_fields r) as (-> & -> & ->). Qed.

(** The name a relocation ends up with. *)
Lemma renamed_name r :
  target_symbol_name (renamed p r) = target_symbol_name r
  ∨ (target_symbol_name (renamed p r) = internal_name (target_symbol_name r) ∧ is_Some (symbols p !! target_symbol_name r)).
Proof. unfold renamed. destruct (symbols p !! target_symbol_name r) eqn:E; [|by left]. case_bool_decide; [by left|right]. done. Qed.

(** A relocation comes from a line. *)
Lemma emitted_relocation r :
  r ∈ e_relocations e → isIdentifier (target_symbol_name r) = true
  ∨ ∃ line, line ∈ lines ∧ line_number line ∈ relaxed ∧ target_symbol_name r = internal_name (operand line 0).
Proof.
  intros (k & line & Hk & r0 & Hr0 & ->)%(em_relocations _ _ _ (as_emitted _ _ _ _ _ _ A)). cbn [narrow move_relocation target_symbol_name].
  destruct (silent line) eqn:Hsil; [rewrite silent_template in Hr0 by done; by apply not_elem_of_nil in Hr0|].
  destruct (em_shape _ _ _ (as_emitted _ _ _ _ _ _ A) k line Hk Hsil) as (_ & Hsh & _).
  destruct (relocation_shape _ _ _ Hsh) as [Hnil|(r1 & Hone & Hname & _)]; [rewrite Hnil in Hr0; by apply not_elem_of_nil in Hr0|].
  rewrite Hone in Hr0. apply list_elem_of_singleton in Hr0 as ->. destruct Hname as [|(Hname & _ & Hr)]; [by left|right].
  exists line. split_and!; try done. by eapply list_elem_of_lookup_2.
Qed.
End Tables.

(** ** References *)

Section References.
Context (lines : list ParsedLine) (s : Settings) (relaxed : gset Z) (p : Pass) (e : Emission) (o : ObjectFile).
Context (HP : Parsed lines s) (A : Assembly lines s relaxed p e o).

(** A relocation against a label of the source has a symbol. *)
Lemma reference_resolved r line :
  r ∈ e_relocations e → line ∈ lines → label line ≠ "" →
  target_symbol_name (renamed p r) = label line ∨ target_symbol_name (renamed p r) = internal_name (label line) →
  target_symbol_name (renamed p r) ∈ s_name <$> symbol_table o.
Proof.
  intros Hr Hl Hne Hname. destruct (internal_symbols_ok _ _ _ _ _ _ HP A) as (_ & _ & Hadded).
  assert (∀ sym, sym ∈ symbol_table o → s_name sym ∈ s_name <$> symbol_table o) as Hin.
  { intros sym H. apply list_elem_of_fmap. by exists sym. }
  pose proof (assembled_laid _ _ _ (as_settled _ _ _ _ _ _ A)) as L.
  destruct (symbols p !! target_symbol_name r) as [d|] eqn:Hd.
  - unfold renamed in *. rewrite Hd in *. case_bool_decide as Hx.
    + refine (Hin (mkSymbol _ _ _) (proj2 (symbol_table_ok _ _ _ _ _ _ HP A _) (or_intror (ex_intro _ _ (ex_intro _ d (conj Hd (or_intror (conj Hx eq_refl)))))))).
    + refine (Hin (mkSymbol (internal_name _) _ _) (proj2 (symbol_table_ok _ _ _ _ _ _ HP A _) (or_intror (ex_intro _ _ (ex_intro _ d (conj Hd (or_introl (conj _ eq_refl)))))))).
      apply Hadded. left. rewrite Hd. split_and!; [done|done|by exists r].
  - unfold renamed in *. rewrite Hd in *. destruct (emitted_relocation _ _ _ _ _ _ A r Hr) as [Hid|(l & Hll & Hlr & Heq)].
    + exfalso. destruct Hname as [Hname|Hname]; [|by rewrite Hname in Hid].
      apply list_elem_of_lookup in Hl as [k Hk]. pose proof (la_defined _ _ _ _ L) as Hdef. rewrite Forall_lookup in Hdef.
      destruct (Hdef k line Hk) as [|Hsec]; [done|]. rewrite Hname in Hd. apply eq_None_not_Some in Hd. apply Hd. eexists.
      apply (la_labels _ _ _ _ L). exists k, line. split_and!; done.
    + rewrite Heq. destruct (relaxed_target _ _ _ _ _ _ A l Hll Hlr) as (_ & j & target & _ & _ & _ & Hsym).
      refine (Hin (mkSymbol (internal_name _) _ _) (proj2 (symbol_table_ok _ _ _ _ _ _ HP A _) (or_intror (ex_intro _ _ (ex_intro _ _ (conj Hsym (or_introl (conj _ eq_refl)))))))).
      apply Hadded. right. by exists l.
Qed.

(** The relocation on the jump of a lengthened branch. *)
Lemma far_relocation k line :
  lines !! k = Some line → line_number line ∈ relaxed → branch_line line →
  mkRelocation (internal_name (operand line 0)) CODE
    (u32 (position relaxed (line_section line) (take k lines) + if bool_decide (operation line = "bra") then 0 else 3)) ADDR16_IWT
  ∈ renamed p <$> e_relocations e.
Proof.
  intros Hk Hr Hb. destruct (branch_line_template relaxed line Hb) as (_ & opcode & _ & Ht).
  unfold branch_template in Ht. rewrite bool_decide_eq_true_2 in Ht by done.
  set (r := mkRelocation _ _ _ _). assert (renamed p r = r) as Hren.
  { unfold renamed. cbn [r target_symbol_name]. destruct (symbols p !! internal_name (operand line 0)) eqn:E; [|done].
    apply (label_identifier _ _ _ _ _ _ HP A) in E. done. }
  rewrite <-Hren. apply list_elem_of_fmap_2, (em_relocations _ _ _ (as_emitted _ _ _ _ _ _ A)). exists k, line. split; [done|].
  unfold relocation_at. rewrite Ht. unfold r. case_bool_decide; eexists; (split; [by left|reflexivity]).
Qed.
End References.

(** ** Names *)

Lemma identifier_char c : (alpha c || digit c || name_char c) = true → 32 ≤ z_of_ascii c ∧ z_of_ascii c ≠ 127.
Proof.
  unfold alpha, digit, name_char, is_char. lia.
Qed.

Lemma identifier_bytes name : isIdentifier name = true → ∀ i b, bytes_of_string name !! i = Some b → 32 ≤ b ∧ b ≠ 127.
Proof.
  destruct name as [|c r]; [done|]. cbn [isIdentifier bytes_of_string]. intros [Hc Hr]%andb_true_iff.
  intros [|i] b; cbn; [intros [= <-]; apply identifier_char; apply orb_true_iff in Hc as [->| ->]; by rewrite ?orb_true_r|].
  revert i. induction r as [|c' r IH]; intros i Hb; [done|]. cbn in Hr. apply andb_true_iff in Hr as [Hc' Hr].
  destruct i as [|i]; [|by apply (IH Hr i)]. cbn in Hb. injection Hb as <-. by apply identifier_char.
Qed.

Lemma good_identifier name : isIdentifier name = true → slen name ≤ MaxStringBytes → good_name name.
Proof.
  intros Hn Hl. pose proof (identifier_bytes name Hn) as Hb. split.
  - destruct name; [done|]. split; [|done]. rewrite <-length_bytes_of_string. cbn. unfold zlen. cbn. lia.
  - intros ->. by destruct (Hb 0%nat 1).
  - intros i b Hi. destruct (Hb i b Hi). split; [done|by left].
Qed.

Lemma good_internal name : isIdentifier name = true → slen (internal_name name) ≤ MaxStringBytes → good_name (internal_name name).
Proof.
  intros Hn Hl. pose proof (identifier_bytes name Hn) as Hb. split.
  - split; [|done]. unfold slen, internal_name. change (String.length (InternalSymbolPrefix +:+ name)) with (S (String.length name)). lia.
  - intros H. destruct name; [done|]. apply (f_equal String.length) in H. by cbn in H.
  - intros [|i] b Hi; [cbn in Hi; injection Hi as <-; split; [done|by right]|].
    destruct (Hb i b Hi). split; [done|by left].
Qed.

(** ** The theorems *)

(** What a source assembles from, with the passes. *)
Lemma assembled source lines s o :
  parse source = Ok (lines, s) → assemble source = Ok o →
  Parsed lines s ∧ Bitmap.validate (bitmap (st_config s)) = Ok tt ∧ ∃ p e, Assembly lines s (relaxed_lines lines) p e o.
Proof.
  intros Hs (lines' & s' & relaxed & p & e & Hs' & HP & Hb & HA)%assemble_parsed. rewrite Hs in Hs'. injection Hs' as <- <-.
  split_and!; try done. exists p, e. by rewrite <-(as_relaxed _ _ _ _ _ _ HA).
Qed.

Notation place lines k line := (position (relaxed_lines lines) (line_section line) (take k lines)).

(** C20. The passes agree: in an assembled object every line stands in its
    section where the sizes counted before it say, and the sections hold nothing
    else.  A branch that was not lengthened is its opcode and the distance from
    the instruction behind it to the line of its label, which is in range. *)
Theorem assemble_image (source : string) (lines : list ParsedLine) (s : Settings) (o : ObjectFile) :
  parse source = Ok (lines, s) → assemble source = Ok o →
  (∀ x, x ≠ SecNone → zlen (section_of o x) = position (relaxed_lines lines) x lines)
  ∧ (∀ k line, lines !! k = Some line → silent line = false → ¬ (branch_line line ∧ line_number line ∉ relaxed_lines lines) →
       stands (section_of o (line_section line)) (place lines k line) (t_bytes (line_template (relaxed_lines lines) line)))
  ∧ (∀ k line, lines !! k = Some line → branch_line line → line_number line ∉ relaxed_lines lines →
       ∃ opcode j target, assoc (operation line) branches = Some opcode
         ∧ lines !! j = Some target ∧ label target = operand line 0 ∧ line_section target = SecCode
         ∧ -128 ≤ place lines j target - (place lines k line + 2) ≤ 127
         ∧ stands (code_section o) (place lines k line) [opcode; u8 (place lines j target - (place lines k line + 2))]).
Proof.
  intros Hs Ho. destruct (assembled _ _ _ _ Hs Ho) as (_ & _ & p & e & HA). split_and!.
  - intros x. by eapply section_size.
  - intros k line. by eapply line_stands.
  - intros k line. by eapply short_stands.
Qed.

(** C21. In a program no label of which has the reserved name of the layout hint,
    [__disco_cache_align16], every label referred to is resolved inside the object: a
    symbol is the layout hint or stands where a line with its label stands, no
    two symbols share a name, a relocation against a label of the source has
    its symbol, and a lengthened branch has a relocation on its jump against a
    private symbol at its label. *)
Theorem assemble_symbols (source : string) (lines : list ParsedLine) (s : Settings) (o : ObjectFile) :
  parse source = Ok (lines, s) → assemble source = Ok o → (∀ line, line ∈ lines → label line ≠ hint_label) →
  NoDup (s_name <$> symbol_table o)
  ∧ (∀ sym, sym ∈ symbol_table o → sym ∈ cache_hint s ∨ ∃ k line, lines !! k = Some line ∧ label line ≠ ""
       ∧ (s_name sym = label line ∨ s_name sym = internal_name (label line))
       ∧ s_section sym = symbolSection (line_section line) ∧ s_offset sym = u32 (place lines k line))
  ∧ (∀ r line, r ∈ relocation_table o → line ∈ lines → label line ≠ "" →
       target_symbol_name r = label line ∨ target_symbol_name r = internal_name (label line) →
       target_symbol_name r ∈ s_name <$> symbol_table o)
  ∧ (∀ k line, lines !! k = Some line → line_number line ∈ relaxed_lines lines →
       branch_line line ∧ ∃ j target, lines !! j = Some target ∧ label target = operand line 0 ∧ line_section target = SecCode
         ∧ mkSymbol (internal_name (operand line 0)) CODE (u32 (place lines j target)) ∈ symbol_table o
         ∧ mkRelocation (internal_name (operand line 0)) CODE
             (u32 (place lines k line + if bool_decide (operation line = "bra") then 0 else 3)) ADDR16_IWT ∈ relocation_table o).
Proof.
  intros Hs Ho Hh. destruct (assembled _ _ _ _ Hs Ho) as (HP & _ & p & e & HA).
  pose proof (assembled_laid _ _ _ (as_settled _ _ _ _ _ _ HA)) as HL.
  pose proof (symbol_table_ok _ _ _ _ _ _ HP HA) as Hsym. destruct (internal_symbols_ok _ _ _ _ _ _ HP HA) as (_ & Hrel & Hadded).
  split; [|split; [|split]].
  - eapply symbol_names; [done|done|]. apply eq_None_not_Some. intros [d (k & line & Hk & Hl & _)%(la_labels _ _ _ _ HL)].
    apply (Hh line); [by eapply list_elem_of_lookup_2|done].
  - intros sym [|(name & d & Hd & Hcase)]%Hsym; [by left|right].
    apply (la_labels _ _ _ _ HL) in Hd as (k & line & Hk & <- & Hn & Hsec & ->). exists k, line.
    destruct Hcase as [[_ ->]|[_ ->]]; split_and!; try done; [by right|by left].
  - intros r line Hr Hl Hne Hname. rewrite (relocation_table_ok _ _ _ _ _ _ HP HA) in Hr.
    apply list_elem_of_fmap in Hr as (r0 & -> & Hr0). eapply reference_resolved; eauto.
  - intros k line Hk Hr. destruct (relaxed_target _ _ _ _ _ _ HA line) as (Hb & j & target & Hj & Hl & Hc & Hd); [by eapply list_elem_of_lookup_2|done|].
    split; [done|]. exists j, target. split_and!; try done.
    + apply Hsym. right. exists (operand line 0). eexists. split; [exact Hd|]. left. split; [|done]. apply Hadded. right.
      exists line. split_and!; [by eapply list_elem_of_lookup_2|done|done].
    + rewrite (relocation_table_ok _ _ _ _ _ _ HP HA). eapply far_relocation; eauto.
Qed.

(** C22. Relaxation stops: there is fuel for a round per line, which is enough
    because every round but the last lengthens a branch, and more fuel changes
    nothing.  It stops where every branch that is still short reaches its label,
    so that resolving the branches never fails. *)
Theorem relaxation_resolves (source : string) (lines : list ParsedLine) (s : Settings) (p0 : Pass) :
  parse source = Ok (lines, s) → firstPass lines ∅ ∅ = Ok p0 →
  relaxBranches (assemble_fuel lines) lines ∅ p0 ≠ Ok None
  ∧ (∀ fuel, (assemble_fuel lines ≤ fuel)%nat → relaxBranches fuel lines ∅ p0 = relaxBranches (assemble_fuel lines) lines ∅ p0)
  ∧ (∀ relaxed p e, relaxBranches (assemble_fuel lines) lines ∅ p0 = Ok (Some (relaxed, p)) → secondPass lines relaxed = Ok e →
       ∃ code, resolveBranches (symbols p) (e_fixups e) (e_code e) = Ok code ∧ zlen code = zlen (e_code e)).
Proof.
  intros Hs Hp. apply parse_ok in Hs as HP. split; [|split].
  - intros Hr. by destruct (relax_settled _ _ _ Hp Hr) as (? & ? & ? & _).
  - intros fuel Hf. apply relaxBranches_fuel; [|done| |].
    + unfold assemble_fuel. pose proof (remaining_bound lines ∅). lia.
    + exists ∅. split; [done|]. set_solver.
    + intros n Hn. by apply not_elem_of_empty in Hn.
  - intros relaxed p e Hr He. destruct (relax_settled _ _ _ Hp Hr) as (relaxed' & p' & [= <- <-] & HS).
    assert (Forall (sized relaxed) lines) as Hz by apply (la_sized _ _ _ _ (assembled_laid _ _ _ HS)).
    destruct (resolve_emitted lines relaxed p e (pa_distinct _ _ HP) HS (secondPass_emitted _ _ _ He Hz)) as (c & Hc & Hlen & _).
    by exists c.
Qed.

(** The size limits of object files. *)
Record Limits (o : ObjectFile) : Prop := {
  li_code : zlen (code_section o) ≤ MaxSectionBytes;
  li_data : zlen (data_section o) ≤ MaxSectionBytes;
  li_symbol_count : zlen (symbol_table o) ≤ MaxSymbolCount;
  li_relocation_count : zlen (relocation_table o) ≤ MaxRelocationCount;
  li_names : Forall (λ n, slen n ≤ MaxStringBytes) ((s_name <$> symbol_table o) ++ (target_symbol_name <$> relocation_table o));
  li_size : object_size o ≤ MaxObjectBytes
}.

Lemma resolved_bytes symbols fixups code code' :
  resolveBranches symbols fixups code = Ok code' → bytes_ok code → bytes_ok code'.
Proof.
  intros H Hb. refine (foldM_inv bytes_ok _ _ code code' _ Hb H). intros c f c' _ Hc Hf. unfold resolve_fixup in Hf.
  destruct (symbols !! f_target f) as [d|]; [|done]. case_bool_decide; [|done]. cbn [negb] in Hf. case_match; [done|].
  apply set_at_ok in Hf as [_ ->]. apply Forall_insert; [done|apply u8_range].
Qed.

Section Validity.
Context (lines : list ParsedLine) (s : Settings) (relaxed : gset Z) (p : Pass) (e : Emission) (o : ObjectFile).
Context (HP : Parsed lines s) (A : Assembly lines s relaxed p e o).
Context (Hhint : ∀ line, line ∈ lines → label line ≠ hint_label).

Let L : Laid relaxed ∅ lines p := assembled_laid _ _ _ (as_settled _ _ _ _ _ _ A).

Lemma label_not_hint name d : symbols p !! name = Some d → name ≠ hint_label.
Proof. intros (k & line & Hk & <- & _)%(la_labels _ _ _ _ L). apply Hhint. by eapply list_elem_of_lookup_2. Qed.

Lemma no_hint : symbols p !! hint_label = None.
Proof. destruct (symbols p !! hint_label) as [d|] eqn:E; [|done]. by apply label_not_hint in E. Qed.

Lemma assembly_wf : wf o.
Proof.
  destruct (as_object _ _ _ _ _ _ A) as (exported & _ & Ho). destruct (pa_settings _ _ HP) as [S1 S2 S3 S4 S5].
  pose proof (em_bytes _ _ _ (as_emitted _ _ _ _ _ _ A)) as Hb.
  assert (∀ a, alignment_ok a → byte_ok a) as Ha.
  { intros a H. unfold byte_ok. repeat (apply elem_of_cons in H as [->|H]; [lia|]). by apply elem_of_nil in H. }
  split.
  - eapply resolved_bytes; [apply (as_resolved _ _ _ _ _ _ A)|apply (Hb SecCode)].
  - rewrite Ho. apply (Hb SecData).
  - rewrite Ho. apply (Hb SecRam).
  - apply Forall_forall. intros sym [H|(name & d & _ & [[_ ->]|[_ ->]])]%(symbol_table_ok _ _ _ _ _ _ HP A); [|apply uwrap_range; lia..].
    unfold cache_hint in H. destruct (st_cache_alignment s); [by apply list_elem_of_singleton in H as ->|by apply not_elem_of_nil in H].
  - apply Forall_forall. intros r Hr. rewrite (relocation_table_ok _ _ _ _ _ _ HP A) in Hr. apply list_elem_of_fmap in Hr as (r0 & -> & Hr0).
    destruct (renamed_fields p r0) as (_ & -> & _).
    apply (em_relocations _ _ _ (as_emitted _ _ _ _ _ _ A)) in Hr0 as (k & line & _ & r1 & _ & ->). apply uwrap_range. lia.
  - rewrite Ho. exact S2.
  - rewrite Ho. exact S3.
  - rewrite Ho. by apply Ha.
  - rewrite Ho. by apply Ha.
Qed.

(** The offset of a label is within its section. *)
Lemma label_inside name d : symbols p !! name = Some d → u32 (d_offset d) ≤ zlen (section_bytes o (d_section d)).
Proof.
  intros (k & line & Hk & _ & _ & Hs & ->)%(la_labels _ _ _ _ L). cbn [d_section d_offset].
  transitivity (position relaxed (line_section line) (take k lines)); [apply Z.mod_le; [apply position_nonneg|done]|].
  transitivity (position relaxed (line_section line) lines); [apply position_take|].
  rewrite <-(section_size _ _ _ _ _ _ A) by done. by destruct (line_section line).
Qed.

Lemma symbol_good sym : sym ∈ symbol_table o → slen (s_name sym) ≤ MaxStringBytes → good_symbol o sym.
Proof.
  intros [H|(name & d & Hd & Hcase)]%(symbol_table_ok _ _ _ _ _ _ HP A) Hl.
  - unfold cache_hint in H. destruct (st_cache_alignment s); [apply list_elem_of_singleton in H as ->|by apply not_elem_of_nil in H].
    split; [by apply good_internal|apply zlen_nonneg].
  - pose proof (label_identifier _ _ _ _ _ _ HP A _ _ Hd) as Hid. pose proof (label_inside _ _ Hd) as Hin.
    destruct Hcase as [[_ ->]|[_ ->]]; (split; [|done]); [by apply good_internal|by apply good_identifier].
Qed.

Lemma relocation_good r :
  r ∈ relocation_table o → slen (target_symbol_name r) ≤ MaxStringBytes → good_relocation o r.
Proof.
  rewrite (relocation_table_ok _ _ _ _ _ _ HP A). intros (r0 & -> & Hr0)%list_elem_of_fmap Hl.
  assert (good_name (target_symbol_name (renamed p r0)) ∧ target_symbol_name (renamed p r0) ≠ CacheAlignmentSymbol) as [Hg Hne].
  { rewrite hint_name. destruct (renamed_name p r0) as [Heq|[Heq [d Hd]]]; rewrite Heq in *.
    - destruct (emitted_relocation _ _ _ _ _ _ A r0 Hr0) as [Hid|(line & Hline & Hr & Hname)].
      + split; [by apply good_identifier|]. intros H. rewrite H in Hid. done.
      + rewrite Hname in *. destruct (relaxed_target _ _ _ _ _ _ A line Hline Hr) as (_ & j & target & Hj & _ & _ & Hd).
        split; [apply good_internal; [by eapply (label_identifier _ _ _ _ _ _ HP A)|done]|].
        intros H%internal_name_inj. by apply label_not_hint in Hd.
    - split; [apply good_internal; [by eapply (label_identifier _ _ _ _ _ _ HP A)|done]|].
      intros H%internal_name_inj. by apply label_not_hint in Hd. }
  pose proof (ap_inside _ (as_apart _ _ _ _ _ _ A)) as Hin. rewrite Forall_forall in Hin.
  destruct (Hin r0 Hr0) as (x & Hx & Hram & Hsec & H0 & H1). destruct (renamed_fields p r0) as (E1 & E2 & E3).
  split; [done|]. split; [done|]. rewrite E1, E2, E3, Hsec. split; [by destruct x|].
  rewrite (em_size _ _ _ (as_emitted _ _ _ _ _ _ A) x Hx), <-(section_size _ _ _ _ _ _ A x Hx) in H1. by destruct x.
Qed.
End Validity.

(** C23. What the assembler makes of a program no label of which has the reserved
    name of the layout hint, [__disco_cache_align16], is an object file when it is
    within the limits on section sizes, counts, name lengths and total size:
    [ObjectFile::validate] accepts it, so that it is written and read back. *)
Theorem assemble_valid (source : string) (lines : list ParsedLine) (s : Settings) (o : ObjectFile) :
  parse source = Ok (lines, s) → assemble source = Ok o → (∀ line, line ∈ lines → label line ≠ hint_label) → Limits o →
  validate o = Ok tt ∧ wf o.
Proof.
  intros Hs Ho Hh [L1 L2 L3 L4 L5 L6]. destruct (assembled _ _ _ _ Hs Ho) as (HP & Hb & p & e & HA).
  split; [|by eapply assembly_wf]. apply valid_validate. destruct (as_object _ _ _ _ _ _ HA) as (exported & _ & Hobj).
  destruct (pa_settings _ _ HP) as [S1 S2 S3 S4 S5]. apply Forall_app in L5 as [Ln Lr].
  rewrite Forall_fmap, Forall_forall in Ln. rewrite Forall_fmap, Forall_forall in Lr.
  assert (config o = st_config s) as Hc by (by rewrite Hobj).
  split; try done; rewrite ?Hc; try done.
  - intros sym Hsym Hname. apply (symbol_table_ok _ _ _ _ _ _ HP HA) in Hsym as [H|(name & d & Hd & [[_ ->]|[_ ->]])].
    + unfold cache_hint in H. destruct (st_cache_alignment s); [by apply list_elem_of_singleton in H as ->|by apply not_elem_of_nil in H].
    + cbn in Hname. rewrite hint_name in Hname. apply internal_name_inj in Hname. by apply (label_not_hint _ _ _ _ _ _ HA Hh) in Hd.
    + cbn in Hname. apply (label_identifier _ _ _ _ _ _ HP HA) in Hd. by rewrite Hname in Hd.
  - by rewrite Hobj.
  - by rewrite Hobj.
  - rewrite Hobj. cbn. pose proof (section_size _ _ _ _ _ _ HA SecRam ltac:(done)) as Hr. rewrite Hobj in Hr. cbn in Hr. rewrite Hr.
    apply (passof_laid _ _ _ (st_pass _ _ _ (as_settled _ _ _ _ _ _ HA))).
  - apply Forall_forall. intros sym Hsym. eapply symbol_good; [done|done|done|]. by apply Ln.
  - eapply symbol_names; [done|done|]. by eapply no_hint.
  - apply Forall_forall. intros r Hr. eapply relocation_good; [done|done|done|done|]. by apply Lr.
  - rewrite (relocation_table_ok _ _ _ _ _ _ HP HA). apply pairwise_fmap.
    assert (pairwise (λ a b, disjoint_spans (span a) (span b)) (e_relocations e)) as Hd.
    { apply (ap_disjoint _ (as_apart _ _ _ _ _ _ HA)). intros x.
      assert (∀ x, x ≠ SecNone → zlen (output x e) < 2 ^ 32) as Hx.
      { intros y Hy. rewrite (em_size _ _ _ (as_emitted _ _ _ _ _ _ HA) y Hy), <-(section_size _ _ _ _ _ _ HA y Hy).
        unfold MaxSectionBytes in *. destruct y; cbn [section_of]; [done|lia|lia|].
        pose proof (section_size _ _ _ _ _ _ HA SecRam ltac:(done)) as Hr. cbn [section_of] in Hr. rewrite Hr.
        eapply Z.le_lt_trans; [apply (passof_laid _ _ _ (st_pass _ _ _ (as_settled _ _ _ _ _ _ HA)))|done]. }
      destruct x; [exact (Hx SecRam ltac:(done))|by apply Hx..]. }
    intros i j a b Hij Ha Hb'. rewrite !renamed_span. by eapply Hd.
Qed.

(** ** A program with short and lengthened branches *)

Definition far_source : string :=
  text ([code_segment; "start: bne done"; "beq start"; "iwt r1,#table"] ++ repeat "nop" 130 ++
        ["bra start"; "done: stop"; ".segment " +:+ quote +:+ "DATA" +:+ quote; "table: .word 1,$ff"; ".export start"]).

(** Takes what a computation returns. *)
Ltac computed t H := destruct t eqn:H; [|vm_compute in H; discriminate H].

Lemma assemble_image_witness :
  ∃ lines s o, parse far_source = Ok (lines, s) ∧ assemble far_source = Ok o
    ∧ zlen (section_of o SecCode) = position (relaxed_lines lines) SecCode lines
    ∧ zlen (code_section o) = 147 ∧ relaxed_lines lines = {[2; 135]}.
Proof.
  computed (parse far_source) Hp. destruct a as [lines s]. computed (assemble far_source) Ho. exists lines, s, a.
  split; [done|]. split; [done|]. split; [exact (proj1 (assemble_image far_source lines s a Hp Ho) SecCode ltac:(done))|].
  split; [vm_compute in Ho; injection Ho as <-; reflexivity|].
  vm_compute in Hp. injection Hp as <- <-. apply (bool_decide_unpack _). vm_compute. exact I.
Defined.

Lemma far_source_labels lines s : parse far_source = Ok (lines, s) → ∀ line, line ∈ lines → label line ≠ hint_label.
Proof.
  intros Hp. vm_compute in Hp. injection Hp as <- <-. apply Forall_forall. apply (bool_decide_unpack _). vm_compute. exact I.
Qed.

Lemma assemble_symbols_witness :
  ∃ lines s o, parse far_source = Ok (lines, s) ∧ assemble far_source = Ok o ∧ NoDup (s_name <$> symbol_table o)
    ∧ symbol_table o = [mkSymbol (internal_name "table") DATA 0; mkSymbol (internal_name "done") CODE 146;
                        mkSymbol (internal_name "start") CODE 0; mkSymbol "start" CODE 0].
Proof.
  computed (parse far_source) Hp. destruct a as [lines s]. computed (assemble far_source) Ho. exists lines, s, a.
  split; [done|]. split; [done|].
  split; [exact (proj1 (assemble_symbols far_source lines s a Hp Ho (far_source_labels lines s Hp)))|].
  vm_compute in Ho. injection Ho as <-. reflexivity.
Defined.

Lemma relaxation_resolves_witness :
  ∃ lines s p0, parse far_source = Ok (lines, s) ∧ firstPass lines ∅ ∅ = Ok p0
    ∧ relaxBranches (assemble_fuel lines) lines ∅ p0 ≠ Ok None.
Proof.
  computed (parse far_source) Hp. destruct a as [lines s]. destruct (firstPass lines ∅ ∅) as [p0|] eqn:H0;
    [|vm_compute in Hp; injection Hp as <- <-; vm_compute in H0; discriminate H0].
  exists lines, s, p0. split; [done|]. split; [done|]. exact (proj1 (relaxation_resolves far_source lines s p0 Hp H0)).
Defined.

Lemma assemble_valid_witness :
  ∃ lines s o, parse far_source = Ok (lines, s) ∧ assemble far_source = Ok o ∧ validate o = Ok tt ∧ wf o.
Proof.
  computed (parse far_source) Hp. destruct a as [lines s]. computed (assemble far_source) Ho. exists lines, s, a.
  split; [done|]. split; [done|].
  apply (assemble_valid far_source lines s a Hp Ho (far_source_labels lines s Hp)).
  vm_compute in Ho. injection Ho as <-.
  split; [by vm_compute|by vm_compute|by vm_compute|by vm_compute| |by vm_compute].
  apply (bool_decide_unpack _). vm_compute. exact I.
Defined.

(** ** What the encoder accepts beyond the documented forms *)

(** The bytes of a program of one instruction. *)
Definition assembles_to (instruction : string) : result (list Z) := code_section <$> assemble (text [code_segment; instruction]).

(** [AND #1] and the second operand of [AND R1, #1] are different instructions:
    the forms with two and three operands do not subtract the one the logical
    opcodes start from. *)
Lemma logical_immediate_forms :
  assembles_to "and #1" = Ok [0x3e; 0x71] ∧ assembles_to "and r1,#1" = Ok [0x21; 0x3e; 0x72] ∧ assembles_to "and r1,r1,#1" = Ok [0x21; 0x3e; 0x72].
Proof. vm_compute. done. Qed.

(** With two operands [ADC], [UMULT], [BIC] and [XOR] lose their prefix. *)
Lemma immediate_prefix_forms :
  assembles_to "adc #1" = Ok [0x3f; 0x51] ∧ assembles_to "adc r1,#1" = Ok [0x21; 0x3e; 0x51] ∧ assembles_to "add r1,#1" = assembles_to "adc r1,#1"
  ∧ assembles_to "bic r1,#1" = assembles_to "and r1,#1" ∧ assembles_to "xor r1,#1" = assembles_to "or r1,#1".
Proof. vm_compute. done. Qed.

(** [MOVE] with an indirect register above R11 is another instruction, and one
    with a value above 16 bits is cut. *)
Lemma move_unchecked :
  assembles_to "move r0,(r12)" = assembles_to "plot" ∧ assembles_to "move (r12),r0" = assembles_to "loop" ∧ assembles_to "move r1,#65537" = assembles_to "iwt r1,#1".
Proof. vm_compute. done. Qed.

(** Exporting a name twice is not an error. *)
Lemma duplicate_export_accepted :
  assemble (text [code_segment; "start: stop"; ".export start"; ".export start"]) = assemble (text [code_segment; "start: stop"; ".export start"]).
Proof. vm_compute. done. Qed.

(** A label may take the name of the layout hint, which makes the object invalid. *)
Lemma hint_label_invalid :
  (o ← assemble (text [code_segment; "nop"; "__disco_cache_align16: stop"; "iwt r1,#__disco_cache_align16"]); validate o)
  = Err (RuntimeError "Invalid GSU CACHE alignment hint.").
Proof. vm_compute. done. Qed.
