(* ===== verification/Machine.v ===== *)
(** * Machine: the GSU instruction model

    Models [tests/GSUInstructionModel.hpp] and [tests/GSUGraphicsModel.hpp],
    the repository's executable reference of the target: a machine with a
    one-byte prefetch pipeline, register selectors and ALT prefixes, the two RAM
    banks, the cartridge ROM, the instruction cache and the pixel cache.  The
    counters kept for statistics are left out.  A memory is a finite map whose
    absent cells are zero, with the bounds of the vector checked. *)

From S2P Require Import Prelude.

Notation Memory := (gmap Z Z).
Definition RamSize : Z := 131072.
Definition RomSize : Z := 2097152.

(** [v.at(i)] and [v.at(i) = x] on the vector of [size] bytes. *)
Definition peek (size : Z) (m : Memory) (i : Z) : result Z :=
  if (0 <=? i) && (i <? size) then Ok (default 0 (m !! i)) else Err OutOfRange.
Definition poke (size : Z) (m : Memory) (i x : Z) : result Memory :=
  if (0 <=? i) && (i <? size) then Ok (<[i := u8 x]> m) else Err OutOfRange.

(* ------------------------------------------------------------------ *)
(** ** Graphics *)

Module Graphics.

Record Cache := mkCache { group : Z; pending : Z; pixels : list Z }.
Definition no_cache : Cache := mkCache 65536 0 (replicate 8 0).

Record State := mkState { colr : Z; por : Z; mode : Z; base : Z; first : Cache; second : Cache }.
Definition initial : State := mkState 0 0 1 24 no_cache no_cache.

Definition options (value : Z) (g : State) : State :=
  mkState (colr g) (Z.land value 31) (mode g) (base g) (first g) (second g).
Definition color (value : Z) (g : State) : State :=
  mkState (if negb (Z.land (por g) 4 =? 0) then Z.lor (Z.land (colr g) 0xf0) (Z.shiftr value 4)
           else if negb (Z.land (por g) 8 =? 0) then Z.lor (Z.land (colr g) 0xf0) (Z.land value 15)
           else value) (por g) (mode g) (base g) (first g) (second g).

Definition depth (g : State) : Z :=
  if Z.land (mode g) 3 =? 3 then 8 else if Z.land (mode g) 3 =? 0 then 2 else 4.

Definition address (g : State) (x y : Z) : Z :=
  let tile :=
    if negb (Z.land (por g) 16 =? 0) || (Z.land (mode g) 0x24 =? 0x24)
    then (y / 128) * 512 + (x / 128) * 256 + ((y mod 128) / 8) * 16 + (x mod 128) / 8
    else
      let height := if negb (Z.land (mode g) 0x20 =? 0) then 192
                    else if negb (Z.land (mode g) 4 =? 0) then 160 else 128 in
      (x / 8) * (height / 8) + y / 8 in
  base g * 1024 + tile * depth g * 8 + Z.land y 7 * 2.

(** One bit plane of the eight pixels of a cache. *)
Definition plane_bits (c : Cache) (plane bits : Z) : Z :=
  foldl (λ bits pixel,
    if Z.testbit (pending c) pixel then
      let bit := Z.shiftl 1 (7 - pixel) in
      Z.lor (Z.land bits (255 - bit))
        (if Z.testbit (default 0 (pixels c !! Z.to_nat pixel)) plane then bit else 0)
    else bits) bits (seqZ 0 8).

Definition flush (g : State) (c : Cache) (ram : Memory) : result (Cache * Memory) :=
  if pending c =? 0 then Ok (c, ram) else
  let start := address g (group c mod 32 * 8) (group c / 32) in
  ram ← foldM (λ ram plane,
      let offset := start + plane / 2 * 16 + plane mod 2 in
      bits ← peek RamSize ram offset; poke RamSize ram offset (plane_bits c plane bits)) ram (seqZ 0 (depth g));
  Ok (mkCache (group c) 0 (pixels c), ram).

Definition plot (x y : Z) (g : State) (ram : Memory) : result (State * Memory) :=
  let value := colr g in
  if (Z.land (por g) 1 =? 0)
     && (if (depth g =? 8) && (Z.land (por g) 8 =? 0) then value =? 0 else Z.land value 15 =? 0)
  then Ok (g, ram) else
  let value := if negb (Z.land (por g) 2 =? 0) && negb (depth g =? 8)
               then if negb (Z.land (Z.lxor x y) 1 =? 0) then Z.shiftr value 4 else Z.land value 15
               else value in
  let here := y * 32 + x / 8 in
  '(g, ram) ← (if group (first g) =? here then Ok (g, ram) else
      '(_, ram) ← flush g (second g) ram;
      Ok (mkState (colr g) (por g) (mode g) (base g) (mkCache here 0 (replicate 8 0)) (first g), ram));
  let c := first g in
  let c := mkCache (group c) (Z.lor (pending c) (Z.shiftl 1 (x mod 8))) (<[Z.to_nat (x mod 8) := value]> (pixels c)) in
  if pending c =? 255 then
    '(_, ram) ← flush g (second g) ram;
    Ok (mkState (colr g) (por g) (mode g) (base g) (mkCache (group c) 0 (pixels c)) c, ram)
  else Ok (mkState (colr g) (por g) (mode g) (base g) c (second g), ram).

Definition read (x y : Z) (g : State) (ram : Memory) : result (Z * State * Memory) :=
  '(c1, ram) ← flush g (second g) ram;
  '(c0, ram) ← flush g (first g) ram;
  let start := address g x y in
  value ← foldM (λ value plane,
      b ← peek RamSize ram (start + plane / 2 * 16 + plane mod 2);
      Ok (Z.lor value (Z.shiftl (Z.land (Z.shiftr b (7 - x mod 8)) 1) plane))) 0 (seqZ 0 (depth g));
  Ok (value, mkState (colr g) (por g) (mode g) (base g) c0 c1, ram).

End Graphics.

(* ------------------------------------------------------------------ *)
(** ** The machine *)

Record Selectors := mkSelectors { source : Z; destination : Z; prefix : bool; alt1 : bool; alt2 : bool }.
Definition plain : Selectors := mkSelectors 0 0 false false false.

Record Flags := mkFlags { zero : bool; sign : bool; carry : bool; overflow : bool }.

Record InstructionCache := mkICache { cached : list Z; cache_valid : list bool; cache_base : Z }.
Definition cold_cache : InstructionCache := mkICache (replicate 512 0) (replicate 32 false) 0.

Record Machine := mkMachine {
  registers : list Z;
  pipeline : Z;
  selectors : Selectors;
  flags : Flags;
  pc_written : bool;
  ram : Memory;
  ram_bank : Z;
  ram_address : Z;
  rom_bank : Z;
  icache : InstructionCache;
  graphics : Graphics.State
}.

Definition reg (m : Machine) (i : Z) : Z := default 0 (registers m !! Z.to_nat i).

Definition set_reg (i v : Z) (m : Machine) : Machine :=
  mkMachine (<[Z.to_nat i := u16 v]> (registers m)) (pipeline m) (selectors m) (flags m) (pc_written m) (ram m)
    (ram_bank m) (ram_address m) (rom_bank m) (icache m) (graphics m).
Definition with_pipeline (v : Z) (m : Machine) : Machine :=
  mkMachine (registers m) v (selectors m) (flags m) (pc_written m) (ram m)
    (ram_bank m) (ram_address m) (rom_bank m) (icache m) (graphics m).
Definition with_selectors (s : Selectors) (m : Machine) : Machine :=
  mkMachine (registers m) (pipeline m) s (flags m) (pc_written m) (ram m)
    (ram_bank m) (ram_address m) (rom_bank m) (icache m) (graphics m).
Definition with_flags (f : Flags) (m : Machine) : Machine :=
  mkMachine (registers m) (pipeline m) (selectors m) f (pc_written m) (ram m)
    (ram_bank m) (ram_address m) (rom_bank m) (icache m) (graphics m).
Definition with_pc (b : bool) (m : Machine) : Machine :=
  mkMachine (registers m) (pipeline m) (selectors m) (flags m) b (ram m)
    (ram_bank m) (ram_address m) (rom_bank m) (icache m) (graphics m).
Definition with_ram (r : Memory) (m : Machine) : Machine :=
  mkMachine (registers m) (pipeline m) (selectors m) (flags m) (pc_written m) r
    (ram_bank m) (ram_address m) (rom_bank m) (icache m) (graphics m).
Definition with_banks (ramb ramaddr romb : Z) (m : Machine) : Machine :=
  mkMachine (registers m) (pipeline m) (selectors m) (flags m) (pc_written m) (ram m)
    ramb ramaddr romb (icache m) (graphics m).
Definition with_icache (c : InstructionCache) (m : Machine) : Machine :=
  mkMachine (registers m) (pipeline m) (selectors m) (flags m) (pc_written m) (ram m)
    (ram_bank m) (ram_address m) (rom_bank m) c (graphics m).
Definition with_graphics (g : Graphics.State) (m : Machine) : Machine :=
  mkMachine (registers m) (pipeline m) (selectors m) (flags m) (pc_written m) (ram m)
    (ram_bank m) (ram_address m) (rom_bank m) (icache m) g.

Definition write (i v : Z) (m : Machine) : Machine :=
  let m := set_reg i v m in if i =? 15 then with_pc true m else m.
Definition resetSelectors (m : Machine) : Machine := with_selectors plain m.
Definition setZeroSign (v : Z) (m : Machine) : Machine :=
  let f := flags m in with_flags (mkFlags (v =? 0) (negb (Z.land v 0x8000 =? 0)) (carry f) (overflow f)) m.

(** What a finished ALU operation does: the result, Z and S, the selectors. *)
Definition result_word (v : Z) (m : Machine) : Machine :=
  resetSelectors (setZeroSign v (write (destination (selectors m)) v m)).

Definition signed8 (v : Z) : Z := if v <? 128 then v else v - 256.
Definition signed16 (v : Z) : Z := if v <? 32768 then v else v - 65536.

Definition romIndex (address : Z) : result Z :=
  let bank := Z.shiftr address 16 in
  let offset := Z.land address 65535 in
  if (bank <? 0x40) && (0x8000 <=? offset) then Ok (bank * 32768 + offset - 0x8000)
  else if (0x40 <=? bank) && (bank <=? 0x5f) then Ok ((bank - 0x40) * 65536 + offset)
  else Err (RuntimeError "invalid GSU-visible ROM data address").

Section Run.
(** The payload, its origin in its bank, and the cartridge. *)
Context (code : list Z) (origin program_bank : Z) (rom : Memory).

Definition programByte (m : Machine) (address : Z) : result Z :=
  if (program_bank =? 0x70) || (program_bank =? 0x71)
  then peek RamSize (ram m) ((program_bank - 0x70) * 65536 + address)
  else i ← romIndex (Z.lor (Z.shiftl program_bank 16) address); peek RomSize rom i.

(** Fills a line of the instruction cache. *)
Definition fill_line (m : Machine) (pc line : Z) : result InstructionCache :=
  bytes ← mapM_r (λ byte, programByte m (u16 (Z.land pc 0xfff0 + byte))) (seqZ 0 16);
  let c := icache m in
  Ok (mkICache (take (Z.to_nat (line * 16)) (cached c) ++ bytes ++ drop (Z.to_nat (line * 16 + 16)) (cached c))
        (<[Z.to_nat line := true]> (cache_valid c)) (cache_base c)).

Definition fetch (m : Machine) : result (Machine * Z) :=
  let pc := reg m 15 in
  throw_if ((pc <? origin) || (zlen code <=? pc - origin))
    (RuntimeError ("GSU fetched outside the linked payload at PC=" +:+ pretty pc));;
  let cache_offset := u16 (pc - cache_base (icache m)) in
  if cache_offset <? 512 then
    let line := cache_offset / 16 in
    c ← (if default false (cache_valid (icache m) !! Z.to_nat line) then Ok (icache m) else fill_line m pc line);
    Ok (with_icache c m, default 0 (cached c !! Z.to_nat cache_offset))
  else b ← programByte m pc; Ok (m, b).

Definition operand (m : Machine) : result (Machine * Z) :=
  let value := pipeline m in
  '(m, next) ← fetch (set_reg 15 (reg m 15 + 1) m);
  Ok (with_pipeline next m, value).

(** [word(address)] in the current bank. *)
Definition load_word (m : Machine) (address : Z) : result Z :=
  throw_if (1 <? ram_bank m) (RuntimeError "invalid RAM bank in expectation");;
  let index := ram_bank m * 65536 + address in
  low ← peek RamSize (ram m) index; high ← peek RamSize (ram m) (Z.lxor index 1);
  Ok (Z.lor low (Z.shiftl high 8)).

(** A byte, or a word at the address and its neighbour. *)
Definition store (byte : bool) (address value : Z) (m : Machine) : result Machine :=
  r ← poke RamSize (ram m) address value;
  r ← (if byte then Ok r else poke RamSize r (Z.lxor address 1) (Z.shiftr value 8));
  Ok (resetSelectors (with_ram r m)).

Definition branch_taken (op : Z) (f : Flags) : bool :=
  if op =? 5 then true
  else if op =? 6 then Bool.eqb (sign f) (overflow f)
  else if op =? 7 then negb (Bool.eqb (sign f) (overflow f))
  else if op =? 8 then negb (zero f) else if op =? 9 then zero f
  else if op =? 10 then negb (sign f) else if op =? 11 then sign f
  else if op =? 12 then negb (carry f) else if op =? 13 then carry f
  else if op =? 14 then negb (overflow f) else overflow f.

Definition shift_value (op : Z) (alt : bool) (c : bool) (source : Z) : Z * bool :=
  if op =? 4 then (u16 (Z.lor (Z.shiftl source 1) (if c then 1 else 0)), negb (Z.land source 0x8000 =? 0))
  else
    let v := Z.lor (Z.shiftr source 1)
               (if op =? 0x96 then Z.land source 0x8000 else if (op =? 0x97) && c then 0x8000 else 0) in
    (u16 (if (op =? 0x96) && alt && (source =? 0xffff) then v + 1 else v), negb (Z.land source 1 =? 0)).

(** ADD, ADC, SUB, SBC and CMP. *)
Definition add_sub (op index : Z) (m : Machine) : Machine :=
  let s := selectors m in
  let f := flags m in
  let left := reg m (source s) in
  let immediate := alt2 s && ((op <? 0x60) || negb (alt1 s)) in
  let right := if immediate then index else reg m index in
  if op <? 0x60 then
    let sum := left + right + (if alt1 s && carry f then 1 else 0) in
    let value := u16 sum in
    resetSelectors (write (destination s) value (setZeroSign value
      (with_flags (mkFlags (zero f) (sign f) (65535 <? sum)
         (negb (Z.land (Z.land (65535 - Z.lxor left right) (Z.lxor left value)) 0x8000 =? 0))) m)))
  else
    let difference := left - right - (if alt1 s && negb (alt2 s) && negb (carry f) then 1 else 0) in
    let value := u16 difference in
    let m := setZeroSign value
      (with_flags (mkFlags (zero f) (sign f) (0 <=? difference)
         (negb (Z.land (Z.land (Z.lxor left right) (Z.lxor left value)) 0x8000 =? 0))) m) in
    resetSelectors (if alt1 s && alt2 s then m else write (destination s) value m).

Definition multiply (op index : Z) (m : Machine) : Machine :=
  let s := selectors m in
  let right := if alt2 s then index else reg m index in
  let l := Z.land (reg m (source s)) 255 in
  let r := Z.land right 255 in
  result_word (u16 (if alt1 s then l * r else signed8 l * signed8 r)) m.

Definition between (a b x : Z) : bool := (a <=? x) && (x <=? b).

(** One opcode; [pipeline] already holds the byte behind it. *)
Definition execute (op : Z) (m : Machine) : result Machine :=
  let index := Z.land op 15 in
  let s := selectors m in
  let f := flags m in
  let source_value := reg m (source s) in
  if op =? 1 then Ok (resetSelectors m)
  else if op =? 2 then
    let next_base := Z.land (reg m 15) 0xfff0 in
    Ok (resetSelectors
      (if cache_base (icache m) =? next_base then m
       else with_icache (mkICache (cached (icache m)) (replicate 32 false) next_base) m))
  else if between 5 15 op then
    '(m, raw) ← operand m;
    Ok (if branch_taken op f then write 15 (u16 (reg m 15 + signed8 raw)) m else m)
  else if between 0x10 0x1f op then
    Ok (if prefix s then resetSelectors (write index source_value m)
        else with_selectors (mkSelectors (source s) index (prefix s) (alt1 s) (alt2 s)) m)
  else if between 0x20 0x2f op then
    Ok (with_selectors (mkSelectors index index true (alt1 s) (alt2 s)) m)
  else if between 0x30 0x3b op then
    store (alt1 s) (ram_bank m * 65536 + reg m index) source_value
      (with_banks (ram_bank m) (reg m index) (rom_bank m) m)
  else if op =? 0x3c then
    let m := set_reg 12 (reg m 12 - 1) m in
    let m := setZeroSign (reg m 12) m in
    Ok (resetSelectors (if zero (flags m) then m else write 15 (reg m 13) m))
  else if between 0x3d 0x3f op then
    Ok (with_selectors (mkSelectors (source s) (destination s) false
          (if op =? 0x3e then alt1 s else true) (if op =? 0x3d then alt2 s else true)) m)
  else if between 0x40 0x4b op then
    let address := reg m index in
    let m := with_banks (ram_bank m) address (rom_bank m) m in
    v ← (if alt1 s then peek RamSize (ram m) (ram_bank m * 65536 + address) else load_word m address);
    Ok (resetSelectors (write (destination s) v m))
  else if op =? 0x4c then
    if alt1 s then
      '(v, g, r) ← Graphics.read (u8 (reg m 1)) (u8 (reg m 2)) (graphics m) (ram m);
      Ok (result_word v (with_ram r (with_graphics g m)))
    else
      '(g, r) ← Graphics.plot (u8 (reg m 1)) (u8 (reg m 2)) (graphics m) (ram m);
      let m := with_ram r (with_graphics g m) in
      Ok (resetSelectors (set_reg 1 (reg m 1 + 1) m))
  else if op =? 0x4e then
    Ok (resetSelectors (with_graphics
      ((if alt1 s then Graphics.options else Graphics.color) (u8 source_value) (graphics m)) m))
  else if (op =? 0x9f) && alt1 s then
    let product := u32 (signed16 source_value * signed16 (reg m 6)) in
    let m := set_reg 4 product m in
    let m := write (destination s) (Z.shiftr product 16) m in
    Ok (resetSelectors (setZeroSign (reg m (destination s)) m))
  else if (op =? 0x9e) || (op =? 0xc0) then
    let v := Z.land (if op =? 0x9e then source_value else Z.shiftr source_value 8) 255 in
    Ok (resetSelectors (with_flags (mkFlags (v =? 0) (negb (Z.land v 0x80 =? 0)) (carry f) (overflow f))
          (write (destination s) v m)))
  else if op =? 0x4d then
    Ok (result_word (u16 (Z.lor (Z.shiftr source_value 8) (Z.shiftl source_value 8))) m)
  else if op =? 0x95 then
    let low := Z.land source_value 255 in
    Ok (result_word (if low <? 128 then low else Z.lor low 0xff00) m)
  else if op =? 0x4f then Ok (result_word (u16 (65535 - source_value)) m)
  else if (op =? 0x03) || (op =? 0x04) || (op =? 0x96) || (op =? 0x97) then
    let '(v, c) := shift_value op (alt1 s) (carry f) source_value in
    Ok (result_word v (with_flags (mkFlags (zero f) (sign f) c (overflow f)) m))
  else if between 0xc1 0xcf op then
    let right := if alt2 s then index else reg m index in
    Ok (result_word (if alt1 s then Z.lxor source_value right else Z.lor source_value right) m)
  else if between 0x71 0x7f op then
    let right := if alt2 s then index else reg m index in
    Ok (result_word (Z.land source_value (if alt1 s then 65535 - right else right)) m)
  else if between 0x80 0x8f op then Ok (multiply op index m)
  else if between 0x50 0x6f op then Ok (add_sub op index m)
  else if op =? 0x90 then store false (ram_bank m * 65536 + ram_address m) source_value m
  else if between 0x91 0x94 op then Ok (resetSelectors (set_reg 11 (reg m 15 + op - 0x90) m))
  else if between 0x98 0x9d op && negb (alt1 s) then Ok (resetSelectors (write 15 (reg m index) m))
  else if between 0xa0 0xaf op && negb (alt1 s) && negb (alt2 s) then
    '(m, byte) ← operand m;
    Ok (resetSelectors (write index (if byte <? 128 then byte else Z.lor byte 0xff00) m))
  else if between 0xb0 0xbf op then
    Ok (if prefix s then
          let v := reg m index in
          let m := setZeroSign v (write (destination s) v m) in
          resetSelectors (with_flags (mkFlags (zero (flags m)) (sign (flags m)) (carry f)
                                        (negb (Z.land v 0x80 =? 0))) m)
        else with_selectors (mkSelectors index (destination s) (prefix s) (alt1 s) (alt2 s)) m)
  else if op =? 0xdf then
    if negb (alt2 s) then
      i ← romIndex (Z.lor (Z.shiftl (rom_bank m) 16) (reg m 14));
      b ← peek RomSize rom i;
      Ok (resetSelectors (with_graphics (Graphics.color b (graphics m)) m))
    else Ok (resetSelectors
      (if alt1 s then with_banks (ram_bank m) (ram_address m) (Z.land source_value 0x7f) m
       else with_banks (Z.land source_value 1) (ram_address m) (rom_bank m) m))
  else if op =? 0xef then
    i ← romIndex (Z.lor (Z.shiftl (rom_bank m) 16) (reg m 14));
    fetched ← peek RomSize rom i;
    let v := if alt1 s && alt2 s then (if fetched <? 128 then fetched else Z.lor fetched 0xff00)
             else if alt1 s then Z.lor (Z.land source_value 255) (Z.shiftl fetched 8)
             else if alt2 s then Z.lor (Z.land source_value 0xff00) fetched
             else fetched in
    Ok (resetSelectors (write (destination s) v m))
  else if between 0xd0 0xde op || between 0xe0 0xee op then
    let m := write index (reg m index + (if op <? 0xe0 then 1 else -1)) m in
    Ok (resetSelectors (setZeroSign (reg m index) m))
  else if (0xf0 <=? op) && negb (alt1 s) && negb (alt2 s) then
    '(m, low) ← operand m;
    '(m, high) ← operand m;
    Ok (resetSelectors (write index (Z.lor low (Z.shiftl high 8)) m))
  else Err (RuntimeError ("unsupported GSU opcode in execution regression: " +:+ pretty op)).

(** One round of [run]: [true] once STOP is reached. *)
Definition step (m : Machine) : result (bool * Machine) :=
  let opcode := pipeline m in
  '(m, next) ← fetch m;
  let m := with_pc false (with_pipeline next m) in
  if opcode =? 0 then Ok (true, m) else
  m ← execute opcode m;
  Ok (false, if pc_written m then m else set_reg 15 (reg m 15 + 1) m).

Fixpoint run_steps (instruction_limit : nat) (m : Machine) : result Machine :=
  match instruction_limit with
  | O => Err (RuntimeError "GSU execution exceeded the instruction limit")
  | S n => '(stopped, m) ← step m; if (stopped : bool) then Ok m else run_steps n m
  end.

Definition run (instruction_limit : Z) (m : Machine) : result Machine :=
  throw_if ((instruction_limit =? 0) || (100000000 <? instruction_limit)) InvalidArgument;;
  run_steps (Z.to_nat instruction_limit) m.
End Run.

(** The constructor: the payload is copied to its place in RAM or ROM. *)
Definition place (size : Z) (m : Memory) (at_ : Z) (code : list Z) : result Memory :=
  foldM (λ m ib, let '(i, b) := ib in poke size m (at_ + Z.of_nat i) b) m (indexed code).

Definition load (code : list Z) (address initial_sp initial_ram_bank : Z) : result (Machine * Memory) :=
  let origin := u16 address in
  let bank := Z.shiftr address 16 in
  throw_if (bool_decide (code = []) || (65536 - origin <? zlen code))
    (RuntimeError "payload does not fit in the program bank");;
  let registers := <[15%nat := origin]> (<[11%nat := 0x5555]> (<[10%nat := initial_sp]> (<[9%nat := 0x4444]> (replicate 16 0)))) in
  let in_ram := (bank =? 0x70) || (bank =? 0x71) in
  r ← (if in_ram then place RamSize ∅ ((bank - 0x70) * 65536 + origin) code else Ok ∅);
  rom ← (if in_ram then Ok ∅ else
         foldM (λ m ib, let '(i, b) := ib in
           j ← romIndex (Z.lor (Z.shiftl bank 16) (origin + Z.of_nat i)); poke RomSize m j b) ∅ (indexed code));
  Ok (mkMachine registers 1 plain (mkFlags false false false false) false r initial_ram_bank 0
        (if bank <=? 0x5f then u8 bank else 0) cold_cache Graphics.initial, rom).
