(* ===== verification/MachineRun.v ===== *)
(** * MachineRun: reasoning about runs of the GSU

    A payload that is in memory and, where cached, coherently cached is fetched
    as it is; the rules of this file run single instructions of it.  A rule
    takes what has to hold of the rest of the run from the state after the
    instruction. *)

From S2P Require Import Prelude Machine.

(** The machine gets to a state in which [P] holds. *)
Inductive runs (step : Machine → result (bool * Machine)) (P : Machine → Prop) : Machine → Prop :=
  | runs_done m : P m → runs step P m
  | runs_step m m' : step m = Ok (false, m') → runs step P m' → runs step P m.

Lemma runs_bind step P Q m : runs step P m → (∀ m', P m' → runs step Q m') → runs step Q m.
Proof. induction 1; eauto using runs_step. Qed.

(** Memory that stays within its bounds. *)
Lemma peek_ok size m i : 0 ≤ i < size → peek size m i = Ok (default 0 (m !! i)).
Proof. intros. unfold peek. by replace ((0 <=? i) && (i <? size)) with true by lia. Qed.
Lemma poke_ok size m i x : 0 ≤ i < size → poke size m i x = Ok (<[i := u8 x]> m).
Proof. intros. unfold poke. by replace ((0 <=? i) && (i <? size)) with true by lia. Qed.
Lemma peek_bound size m i x : peek size m i = Ok x → 0 ≤ i < size.
Proof. unfold peek. destruct (_ && _) eqn:E; [lia|done]. Qed.

Definition byte_at (m : Memory) (i : Z) : Z := default 0 (m !! i).

(** The word at an even address and its neighbour. *)
Lemma lxor_even a : a mod 2 = 0 → Z.lxor a 1 = a + 1.
Proof. intros H. symmetry. apply Z.add_nocarry_lxor. by rewrite (land_mask 1). Qed.

(** A branch and its opposite. *)
Lemma branch_taken_inverse op f : 6 ≤ op ≤ 15 → branch_taken (Z.lxor op 1) f = negb (branch_taken op f).
Proof.
  intros H. assert (op = 6 ∨ op = 7 ∨ op = 8 ∨ op = 9 ∨ op = 10 ∨ op = 11 ∨ op = 12 ∨ op = 13 ∨ op = 14 ∨ op = 15) as Hc by lia.
  repeat destruct Hc as [->|Hc]; subst; unfold branch_taken; cbn; by rewrite ?negb_involutive.
Qed.

Lemma bra_taken f : branch_taken 5 f = true.
Proof. done. Qed.

Section Payload.
Context (code : list Z) (origin program_bank : Z) (rom : Memory).
Notation step := (step code origin program_bank rom).
Notation programByte := (programByte program_bank rom).
Notation fetch := (fetch code origin program_bank rom).

(** The payload fits in its bank, which the GSU can execute. *)
Record Fits : Prop := {
  fit_origin : 0 ≤ origin;
  fit_size : origin + zlen code ≤ 65536;
  fit_bytes : bytes_ok code;
  fit_bank : 0 ≤ program_bank < 0x40 ∧ 0x8000 ≤ origin ∨ 0x40 ≤ program_bank ≤ 0x5f
             ∨ program_bank = 0x70 ∨ program_bank = 0x71
}.
Hypothesis fits : Fits.

Definition in_ram : bool := (program_bank =? 0x70) || (program_bank =? 0x71).
(** The RAM cells the payload occupies. *)
Definition occupied (i : Z) : Prop :=
  in_ram = true ∧ (program_bank - 0x70) * 65536 + origin ≤ i < (program_bank - 0x70) * 65536 + origin + zlen code.

(** The instruction cache holds payload bytes where it is valid. *)
Record Cached (c : InstructionCache) : Prop := {
  ca_base : 0 ≤ cache_base c < 65536 ∧ cache_base c mod 16 = 0;
  ca_size : length (cached c) = 512%nat;
  ca_lines : length (cache_valid c) = 32%nat;
  ca_bytes : ∀ a b o, code !! a = Some b → u16 (origin + Z.of_nat a - cache_base c) = o → o < 512 →
             cache_valid c !! Z.to_nat (o / 16) = Some true → cached c !! Z.to_nat o = Some b
}.

(** The payload is in memory. *)
Definition resident (m : Machine) : Prop :=
  ∀ a b, code !! a = Some b → programByte m (origin + Z.of_nat a) = Ok b.

Record Coherent (m : Machine) : Prop := {
  co_resident : resident m;
  co_cached : Cached (icache m)
}.

Lemma code_size a b : code !! a = Some b → (Z.of_nat a < zlen code)%Z ∧ 0 ≤ b < 256.
Proof.
  intros H. pose proof (lookup_lt_Some _ _ _ H). split; [unfold zlen; lia|].
  exact (Forall_lookup_1 _ _ _ _ (fit_bytes fits) H).
Qed.

Lemma romIndex_ok bank a : 0 ≤ bank → 0 ≤ a < 65536 →
  bank < 0x40 ∧ 0x8000 ≤ a ∨ 0x40 ≤ bank ≤ 0x5f →
  ∃ i, romIndex (Z.lor (Z.shiftl bank 16) a) = Ok i ∧ 0 ≤ i < RomSize.
Proof.
  intros Hb Ha H. unfold romIndex. rewrite shiftl_16, lor_fields_16 by lia.
  rewrite shiftr_16, land_65535. replace ((bank * 65536 + a) / 65536) with bank by zmod.
  replace ((bank * 65536 + a) mod 65536) with a by zmod. unfold RomSize.
  destruct H as [[? ?]|[? ?]].
  - replace ((bank <? 64) && (32768 <=? a)) with true by lia. eexists. split; [done|lia].
  - replace ((bank <? 64) && (32768 <=? a)) with false by lia.
    replace ((64 <=? bank) && (bank <=? 95)) with true by lia. eexists. split; [done|lia].
Qed.

Lemma programByte_ok m a : 0 ≤ a < 65536 → (program_bank < 0x40 → 0x8000 ≤ a) →
  ∃ b, programByte m a = Ok b.
Proof.
  intros Ha Hlow. unfold programByte. destruct (fit_bank fits) as [[? ?]|[?|[-> | ->]]].
  - replace ((program_bank =? 112) || (program_bank =? 113)) with false by lia.
    destruct (romIndex_ok program_bank a) as (i & -> & Hi); [lia..|].
    cbn [mbind result_mbind result_bind]. rewrite peek_ok by done. eauto.
  - replace ((program_bank =? 112) || (program_bank =? 113)) with false by lia.
    destruct (romIndex_ok program_bank a) as (i & -> & Hi); [lia..|].
    cbn [mbind result_mbind result_bind]. rewrite peek_ok by done. eauto.
  - change ((112 =? 112) || (112 =? 113)) with true. cbv iota. rewrite peek_ok by (unfold RamSize; lia). eauto.
  - change ((113 =? 112) || (113 =? 113)) with true. cbv iota. rewrite peek_ok by (unfold RamSize; lia). eauto.
Qed.

Lemma mapM_r_lookup {A B} (f : A → result B) l : (∀ x, x ∈ l → is_ok (f x) = true) →
  ∃ ys, mapM_r f l = Ok ys ∧ length ys = length l ∧ ∀ k x, l !! k = Some x → ∃ y, ys !! k = Some y ∧ f x = Ok y.
Proof.
  induction l as [|x l IH]; intros H; cbn [mapM_r].
  - exists []. done.
  - assert (is_ok (f x) = true) as Hx by (apply H; left). destruct (f x) as [y|] eqn:E; [|done].
    destruct IH as (ys & Hys & Hlen & Hl); [intros; apply H; by right|].
    cbn [mbind result_mbind result_bind]. rewrite Hys. exists (y :: ys). split; [done|].
    split; [cbn; lia|]. intros [|k] z Hz; cbn in *; [|by apply Hl]. injection Hz as <-. eauto.
Qed.

(** Two addresses with offsets in one cache line. *)
Lemma line_byte base o o' x x' :
  base mod 16 = 0 → 0 ≤ x < 65536 → 0 ≤ x' < 65536 →
  o = (x - base) mod 65536 → (x' - base) mod 65536 = o' → o' / 16 = o / 16 →
  u16 (x / 16 * 16 + o' mod 16) = x'.
Proof.
  intros Hb Hx Hx' Ho Ho' Hl.
  pose proof (Z.div_mod (x - base) 65536 ltac:(lia)). pose proof (Z.div_mod (x' - base) 65536 ltac:(lia)).
  pose proof (Z.div_mod o 16 ltac:(lia)). pose proof (Z.div_mod o' 16 ltac:(lia)).
  pose proof (Z.div_mod base 16 ltac:(lia)). pose proof (Z.mod_pos_bound o 16 ltac:(lia)).
  pose proof (Z.mod_pos_bound o' 16 ltac:(lia)).
  assert (x / 16 * 16 = x - o mod 16) as E by zmod.
  assert (x / 16 * 16 ≤ 65520) by zmod. rewrite uwrap_small; lia.
Qed.

(** The line of an address, in full. *)
Lemma line_address pc : 0 ≤ pc < 65536 → Z.land pc 0xfff0 = pc / 16 * 16.
Proof. intros. change 0xfff0 with (2 ^ 16 - 2 ^ 4). rewrite land_high by lia. by rewrite Z.mod_small by lia. Qed.

Lemma fill_line_cached m a b o : Coherent m → code !! a = Some b →
  o = u16 (origin + Z.of_nat a - cache_base (icache m)) → o < 512 →
  ∃ c, fill_line program_bank rom m (origin + Z.of_nat a) (o / 16) = Ok c ∧ Cached c ∧ cached c !! Z.to_nat o = Some b.
Proof.
  intros [Hres Hc] Ha Ho Hlt. pose proof (code_size _ _ Ha) as [Hsize _]. pose proof (fit_size fits). pose proof (fit_origin fits).
  destruct (ca_base _ Hc) as [Hb1 Hb2]. unfold uwrap in Ho. change (2 ^ 16) with 65536 in Ho.
  assert (0 ≤ o) by zmod. unfold fill_line. rewrite line_address by lia.
  destruct (mapM_r_lookup (λ byte, programByte m (u16 ((origin + Z.of_nat a) / 16 * 16 + byte))) (seqZ 0 16))
    as (ys & -> & Hlen & Hys).
  { intros k Hk%elem_of_seqZ. destruct (programByte_ok m (u16 ((origin + Z.of_nat a) / 16 * 16 + k))) as [x ->];
      [apply u16_range| |done].
    intros Hlow. destruct (fit_bank fits) as [[_ ?]|?]; [|lia]. rewrite uwrap_small by zmod. zmod. }
  cbn [mbind result_mbind result_bind]. eexists. split; [done|].
  rewrite length_seqZ in Hlen. change (Z.to_nat 16) with 16%nat in Hlen.
  assert (∀ a' b' o', code !! a' = Some b' → u16 (origin + Z.of_nat a' - cache_base (icache m)) = o' → o' < 512 →
     (cache_valid (icache m) !! Z.to_nat (o' / 16) = Some true ∨ o' / 16 = o / 16) →
     (take (Z.to_nat (o / 16 * 16)) (cached (icache m)) ++ ys ++ drop (Z.to_nat (o / 16 * 16 + 16)) (cached (icache m)))
       !! Z.to_nat o' = Some b') as Hall.
  { intros a' b' o' Ha' Ho' Hlt' Hv. pose proof (code_size _ _ Ha') as [Hsize' _].
    pose proof (ca_size _ Hc) as Hcs. assert (0 ≤ o') by (rewrite <- Ho'; apply u16_range).
    assert (o / 16 * 16 + 16 ≤ 512) by zmod.
    destruct (decide (o' / 16 = o / 16)) as [Hl|Hl].
    - assert (o' = o / 16 * 16 + o' mod 16 ∧ 0 ≤ o' mod 16 < 16 ∧ 0 ≤ o / 16) as (E' & ? & ?) by zmod.
      rewrite lookup_app_r by (rewrite length_take; lia). rewrite length_take, Hcs.
      rewrite lookup_app_l by (rewrite Hlen; lia).
      destruct (Hys (Z.to_nat (o' mod 16)) (o' mod 16)) as (y & Hy & Hp).
      { apply lookup_seqZ. lia. }
      replace (Z.to_nat o' - Z.to_nat (o / 16 * 16) `min` 512)%nat with (Z.to_nat (o' mod 16)) by lia.
      rewrite Hy. f_equal. unfold uwrap in Ho'. change (2 ^ 16) with 65536 in Ho'.
      assert (u16 ((origin + Z.of_nat a) / 16 * 16 + o' mod 16) = origin + Z.of_nat a') as E
        by (apply (line_byte (cache_base (icache m)) o o'); lia).
      rewrite E in Hp. rewrite (Hres _ _ Ha') in Hp. by injection Hp.
    - destruct Hv as [Hv|]; [|done]. pose proof (ca_bytes _ Hc a' b' o' Ha' Ho' Hlt' Hv) as Hold.
      destruct (Z_lt_le_dec o' (o / 16 * 16)).
      + rewrite lookup_app_l by (rewrite length_take; lia). by rewrite lookup_take_lt by lia.
      + assert (o / 16 * 16 + 16 ≤ o') by zmod.
        assert (0 ≤ o / 16) by zmod. rewrite lookup_app_r by (rewrite length_take; lia).
        rewrite length_take, Hcs, lookup_app_r by (rewrite Hlen; lia).
        rewrite Hlen, lookup_drop, <- Hold. f_equal. lia. }
  split; [|apply (Hall a b o Ha); [by rewrite Ho|done|by right]].
  pose proof (ca_lines _ Hc). pose proof (ca_size _ Hc).
  split; cbn [cached cache_valid cache_base].
  - done.
  - rewrite !length_app, length_take, length_drop. zmod.
  - by rewrite length_insert.
  - intros a' b' o' Ha' Ho' Hlt' Hv. apply (Hall a' b' o' Ha' Ho' Hlt').
    destruct (decide (o' / 16 = o / 16)) as [|Hne]; [by right|left].
    rewrite list_lookup_insert_ne in Hv; [done|]. assert (0 ≤ o') by (rewrite <- Ho'; apply u16_range). zmod.
Qed.

Lemma with_icache_id m : with_icache (icache m) m = m.
Proof. by destruct m. Qed.

(** A fetch from the payload reads its byte. *)
Lemma fetch_ok m a b : Coherent m → code !! a = Some b → reg m 15 = origin + Z.of_nat a →
  ∃ c, fetch m = Ok (with_icache c m, b) ∧ Cached c.
Proof.
  intros Hm Ha Hpc. unfold fetch. rewrite Hpc. pose proof (code_size _ _ Ha) as [Hsize _].
  replace ((origin + Z.of_nat a <? origin) || (zlen code <=? origin + Z.of_nat a - origin)) with false by lia.
  rewrite throw_if_false. cbn [mbind result_mbind result_bind].
  destruct (Z.ltb_spec (u16 (origin + Z.of_nat a - cache_base (icache m))) 512) as [Hlt|Hge].
  - destruct (cache_valid (icache m) !! Z.to_nat (u16 (origin + Z.of_nat a - cache_base (icache m)) / 16)) as [[]|] eqn:Hv;
      cbn [default].
    + cbn [from_option id]. exists (icache m). split; [|apply Hm].
      cbn [mbind result_mbind result_bind]. by rewrite (ca_bytes _ (co_cached _ Hm) a b _ Ha eq_refl Hlt Hv).
    + cbn [from_option id]. destruct (fill_line_cached m a b _ Hm Ha eq_refl Hlt) as (c & -> & Hc & Hb). exists c.
      cbn [mbind result_mbind result_bind]. by rewrite Hb.
    + cbn [from_option id]. destruct (fill_line_cached m a b _ Hm Ha eq_refl Hlt) as (c & -> & Hc & Hb). exists c.
      cbn [mbind result_mbind result_bind]. by rewrite Hb.
  - rewrite (co_resident _ Hm a b Ha). exists (icache m). rewrite with_icache_id. split; [done|apply Hm].
Qed.

(* ------------------------------------------------------------------ *)
(** ** States of a run *)

(** Byte [a] of the payload is in the pipeline, behind the opcode that is being
    executed. *)
Record Mid (a : nat) (m : Machine) : Prop := {
  mid_coherent : Coherent m;
  mid_pc : reg m 15 = origin + Z.of_nat a;
  mid_pipe : code !! a = Some (pipeline m);
  mid_regs : length (registers m) = 16%nat
}.

(** The instruction at [a] is about to be executed. *)
Record Ready (a : nat) (s : Selectors) (m : Machine) : Prop := {
  rd_coherent : Coherent m;
  rd_pc : reg m 15 = u16 (origin + Z.of_nat a + 1);
  rd_pipe : code !! a = Some (pipeline m);
  rd_regs : length (registers m) = 16%nat;
  rd_selectors : selectors m = s
}.

(** The instruction at [a] is in the delay slot of a jump to [t]. *)
Record Delayed (a t : nat) (s : Selectors) (m : Machine) : Prop := {
  dl_coherent : Coherent m;
  dl_pc : reg m 15 = origin + Z.of_nat t;
  dl_pipe : code !! a = Some (pipeline m);
  dl_regs : length (registers m) = 16%nat;
  dl_selectors : selectors m = s
}.

(** Everything a program can see but the program counter. *)
Record Keeps (m m' : Machine) : Prop := {
  kp_reg : ∀ r, 0 ≤ r < 15 → reg m' r = reg m r;
  kp_selectors : selectors m' = selectors m;
  kp_flags : flags m' = flags m;
  kp_ram : ram m' = ram m;
  kp_bank : ram_bank m' = ram_bank m;
  kp_address : ram_address m' = ram_address m;
  kp_rom : rom_bank m' = rom_bank m;
  kp_graphics : graphics m' = graphics m
}.

Lemma Keeps_refl m : Keeps m m.
Proof. by split. Qed.
Lemma Keeps_trans m1 m2 m3 : Keeps m1 m2 → Keeps m2 m3 → Keeps m1 m3.
Proof.
  intros H1 H2. split; [|destruct H1, H2; congruence..].
  intros r Hr. by rewrite (kp_reg _ _ H2 r Hr), (kp_reg _ _ H1 r Hr).
Qed.

Lemma reg_set_eq i v m : 0 ≤ i < Z.of_nat (length (registers m)) → reg (set_reg i v m) i = u16 v.
Proof. intros Hi. unfold reg, set_reg. cbn [registers]. by rewrite list_lookup_insert_eq by lia. Qed.
Lemma reg_set_ne i j v m : 0 ≤ i → 0 ≤ j → i ≠ j → reg (set_reg i v m) j = reg m j.
Proof. intros. unfold reg, set_reg. cbn [registers]. by rewrite list_lookup_insert_ne by lia. Qed.

Lemma resident_ram m m' : ram m' = ram m → resident m → resident m'.
Proof. intros E H a b Ha. specialize (H a b Ha). unfold Machine.programByte in *. by rewrite E. Qed.

Lemma Coherent_ext m m' : ram m' = ram m → icache m' = icache m → Coherent m → Coherent m'.
Proof. intros Hr Hi [H1 H2]. split; [by apply (resident_ram m)|by rewrite Hi]. Qed.

(** Stores outside the payload leave it in memory. *)
Lemma resident_outside m m' : (∀ i, occupied i → byte_at (ram m') i = byte_at (ram m) i) → resident m → resident m'.
Proof.
  intros E H a b Ha. specialize (H a b Ha). pose proof (code_size _ _ Ha) as [? _].
  unfold Machine.programByte in *. fold in_ram in *. destruct in_ram eqn:Hin; [|done].
  pose proof (peek_bound _ _ _ _ H) as Hb. rewrite peek_ok in H |- * by done.
  unfold byte_at in E. rewrite E; [done|]. split; [done|lia].
Qed.

(** One round: the next byte is fetched and the opcode executed. *)
Definition advance (m : Machine) : Machine := if pc_written m then m else set_reg 15 (reg m 15 + 1) m.

Lemma step_fetch m a (next : Z) t :
  Coherent m → length (registers m) = 16%nat → code !! t = Some next → reg m 15 = origin + Z.of_nat t →
  pipeline m = a → a ≠ 0 →
  ∃ m1, step m = (m2 ← execute code origin program_bank rom a m1; Ok (false, advance m2)) ∧
    Mid t m1 ∧ Keeps m m1 ∧ pc_written m1 = false.
Proof.
  intros Hm Hlen Ht Hpc <- Hne. destruct (fetch_ok m t next Hm Ht Hpc) as (c & Hf & Hc).
  exists (with_pc false (with_pipeline next (with_icache c m))). split; [|split; [|split]].
  - unfold Machine.step. rewrite Hf. cbn [mbind result_mbind result_bind].
    by replace (pipeline m =? 0) with false by lia.
  - split; try done. split; [|done]. apply (resident_ram m); [done|apply Hm].
  - by split.
  - done.
Qed.

Lemma ready_step m a s op next :
  Ready a s m → code !! a = Some op → code !! S a = Some next → op ≠ 0 →
  ∃ m1, step m = (m2 ← execute code origin program_bank rom op m1; Ok (false, advance m2)) ∧
    Mid (S a) m1 ∧ Keeps m m1 ∧ pc_written m1 = false.
Proof.
  intros [Hco Hpc Hpipe Hr Hs] Hop Hn Hne. apply (step_fetch m op next (S a)); try done.
  - pose proof (code_size _ _ Hn) as [? _]. pose proof (fit_size fits). pose proof (fit_origin fits).
    rewrite Hpc, uwrap_small; lia.
  - congruence.
Qed.

(** The operand byte of an instruction. *)
Lemma operand_ok m a value next :
  Mid a m → code !! a = Some value → code !! S a = Some next →
  ∃ m', operand code origin program_bank rom m = Ok (m', value) ∧ Mid (S a) m' ∧ Keeps m m' ∧
    pc_written m' = pc_written m.
Proof.
  intros [Hco Hpc Hpipe Hr] Hv Hn. unfold operand.
  pose proof (code_size _ _ Hn) as [? _]. pose proof (fit_size fits). pose proof (fit_origin fits).
  assert (reg (set_reg 15 (reg m 15 + 1) m) 15 = origin + Z.of_nat (S a)) as Hpc'.
  { rewrite reg_set_eq by lia. rewrite uwrap_small; lia. }
  destruct (fetch_ok (set_reg 15 (reg m 15 + 1) m) (S a) next) as (c & -> & Hc); [|done..|].
  { by apply (Coherent_ext m). }
  cbn [mbind result_mbind result_bind]. eexists. split; [f_equal; f_equal; congruence|]. split; [|split].
  - split; try done.
    + split; [|done]. apply (resident_ram m); [done|apply Hco].
    + cbn [registers with_pipeline with_icache set_reg]. by rewrite length_insert.
  - split; try done. intros r Hlt. apply (reg_set_ne 15 r); lia.
  - done.
Qed.

(** The state behind an instruction that does not jump. *)
Lemma advance_ready m1 m2 a :
  Mid a m1 → pc_written m2 = false → reg m2 15 = reg m1 15 → pipeline m2 = pipeline m1 →
  icache m2 = icache m1 → resident m2 → length (registers m2) = 16%nat →
  Ready a (selectors m2) (advance m2) ∧ Keeps m2 (advance m2).
Proof.
  intros [Hco Hpc Hpipe Hr] Hw H15 Hp Hi Hres Hlen. unfold advance. rewrite Hw.
  pose proof (fit_size fits). pose proof (fit_origin fits). pose proof (code_size _ _ Hpipe) as [? _]. split.
  - split; cbn [icache ram pipeline set_reg selectors].
    + split; [by apply (resident_ram m2)|]. cbn [icache set_reg]. rewrite Hi. apply Hco.
    + rewrite reg_set_eq by lia. f_equal. lia.
    + congruence.
    + cbn [registers set_reg]. by rewrite length_insert.
    + done.
  - split; try done. intros r Hlt. apply (reg_set_ne 15 r); lia.
Qed.

(* ------------------------------------------------------------------ *)
(** ** Jumps *)

(** A NOP clears the selectors and changes nothing else. *)
Lemma step_nop m a s :
  Ready a s m → code !! a = Some 1 → is_Some (code !! S a) →
  ∃ m', step m = Ok (false, m') ∧ Ready (S a) plain m' ∧ Keeps (resetSelectors m) m'.
Proof.
  intros Hm Ha [n Hn]. destruct (ready_step m a s 1 n Hm Ha Hn) as (m1 & Hstep & Hmid & Hk & Hpw); [done|].
  exists (advance (resetSelectors m1)). split; [by rewrite Hstep|].
  destruct (advance_ready m1 (resetSelectors m1) (S a) Hmid) as [Hr Hk2]; try done; [apply Hmid..|].
  split; [done|]. destruct Hk, Hk2. split; try done; [|etransitivity; eassumption..].
  intros r Hlt. etransitivity; [by apply kp_reg1|]. by apply kp_reg0.
Qed.

(** In a delay slot too. *)
Lemma step_delay_nop m a t s :
  Delayed a t s m → code !! a = Some 1 → is_Some (code !! t) →
  ∃ m', step m = Ok (false, m') ∧ Ready t plain m' ∧ Keeps (resetSelectors m) m'.
Proof.
  intros [Hco Hpc Hpipe Hr Hs] Ha [n Hn].
  destruct (step_fetch m 1 n t) as (m1 & Hstep & Hmid & Hk & Hpw); try done; [congruence|].
  exists (advance (resetSelectors m1)). split; [by rewrite Hstep|].
  destruct (advance_ready m1 (resetSelectors m1) t Hmid) as [Hr' Hk2]; try done; [apply Hmid..|].
  split; [done|]. destruct Hk, Hk2. split; try done; [|etransitivity; eassumption..].
  intros r Hlt. etransitivity; [by apply kp_reg1|]. by apply kp_reg0.
Qed.

(** The NOP a machine starts with. *)
Lemma step_nop_first m t (b : Z) : Coherent m → length (registers m) = 16%nat → pipeline m = 1 →
  reg m 15 = origin + Z.of_nat t → code !! t = Some b →
  ∃ m', step m = Ok (false, m') ∧ Ready t plain m' ∧ Keeps (resetSelectors m) m'.
Proof.
  intros Hco Hlen Hpipe Hpc Hb. destruct (step_fetch m 1 b t) as (m1 & Hstep & Hmid & Hk & Hpw); try done.
  exists (advance (resetSelectors m1)). split; [by rewrite Hstep|].
  destruct (advance_ready m1 (resetSelectors m1) t Hmid) as [Hr' Hk2]; try done; [apply Hmid..|].
  split; [done|]. destruct Hk, Hk2. split; try done; [|etransitivity; eassumption..].
  intros r Hlt. etransitivity; [by apply kp_reg1|]. by apply kp_reg0.
Qed.

(** The state behind an instruction that jumps. *)
Lemma jump_delayed m1 a t s v :
  Mid a m1 → selectors m1 = s → u16 v = origin + Z.of_nat t →
  Delayed a t s (write 15 v m1) ∧ Keeps m1 (write 15 v m1) ∧ advance (write 15 v m1) = write 15 v m1.
Proof.
  intros [Hco Hpc Hpipe Hr] Hs Ht.
  assert (reg (write 15 v m1) 15 = origin + Z.of_nat t) as E.
  { rewrite <- Ht. apply (reg_set_eq 15). lia. }
  split; [|split; [|done]].
  - split; try done.
    + split; [by apply (resident_ram m1), Hco|apply Hco].
    + cbn. by rewrite length_insert.
  - split; try done. intros r Hlt. apply (reg_set_ne 15 r); lia.
Qed.

(** A short branch: taken, it executes the byte behind it on the way. *)
Lemma step_branch m a s op d n t :
  Ready a s m → code !! a = Some op → 5 ≤ op ≤ 15 → code !! S a = Some d → code !! S (S a) = Some n →
  Z.of_nat t = Z.of_nat a + 2 + signed8 d → is_Some (code !! t) →
  ∃ m', step m = Ok (false, m') ∧ Keeps m m' ∧
    (if branch_taken op (flags m) then Delayed (S (S a)) t s m' else Ready (S (S a)) s m').
Proof.
  intros Hm Ha Hop Hd Hn Ht [b Hb].
  destruct (ready_step m a s op d Hm Ha Hd) as (m1 & Hstep & Hmid & Hk & Hpw); [lia|].
  destruct (operand_ok m1 (S a) d n Hmid Hd Hn) as (m2 & Ho & Hmid2 & Hk2 & Hpw2).
  assert (execute code origin program_bank rom op m1 =
    Ok (if branch_taken op (flags m) then write 15 (u16 (reg m2 15 + signed8 d)) m2 else m2)) as He.
  { unfold execute. replace (op =? 1) with false by lia. replace (op =? 2) with false by lia.
    replace (between 5 15 op) with true by (unfold between; lia). rewrite Ho.
    cbn [mbind result_mbind result_bind]. by rewrite (kp_flags _ _ Hk). }
  rewrite He in Hstep. cbn [mbind result_mbind result_bind] in Hstep.
  assert (selectors m2 = s) as Hs2.
  { rewrite (kp_selectors _ _ Hk2), (kp_selectors _ _ Hk). apply Hm. }
  destruct (branch_taken op (flags m)).
  - destruct (jump_delayed m2 (S (S a)) t s (u16 (reg m2 15 + signed8 d)) Hmid2 Hs2) as (Hdl & Hk3 & Hadv).
    { rewrite (mid_pc _ _ Hmid2). pose proof (code_size _ _ Hb) as [? _]. pose proof (fit_size fits).
      pose proof (fit_origin fits). rewrite uwrap_small by apply u16_range. rewrite uwrap_small by lia. lia. }
    rewrite Hadv in Hstep. eexists. split; [exact Hstep|]. split; [|done]. eauto using Keeps_trans.
  - destruct (advance_ready m2 m2 (S (S a)) Hmid2) as [Hr Hk3]; try done; [congruence|apply Hmid2..|].
    eexists. split; [exact Hstep|]. rewrite <- Hs2. split; [|done]. eauto using Keeps_trans.
Qed.
(* ------------------------------------------------------------------ *)
(** ** Rules for straight-line code *)

(** What the code the linker generates works on: the registers but the program
    counter, the current RAM bank, the RAM and the zero flag. *)
Record View := mkView { v_regs : list Z; v_ram : Memory; v_bank : Z; v_zero : bool }.
Definition view (m : Machine) : View := mkView (take 15 (registers m)) (ram m) (ram_bank m) (zero (flags m)).

Definition v_reg (w : View) (i : Z) : Z := default 0 (v_regs w !! Z.to_nat i).
Definition v_set (i v : Z) (w : View) : View := mkView (<[Z.to_nat i := u16 v]> (v_regs w)) (v_ram w) (v_bank w) (v_zero w).
Definition v_with_ram (r : Memory) (w : View) : View := mkView (v_regs w) r (v_bank w) (v_zero w).
Definition v_with_bank (b : Z) (w : View) : View := mkView (v_regs w) (v_ram w) b (v_zero w).
Definition v_with_zero (z : bool) (w : View) : View := mkView (v_regs w) (v_ram w) (v_bank w) z.

Lemma view_reg m i : 0 ≤ i < 15 → v_reg (view m) i = reg m i.
Proof. intros. unfold v_reg, reg, view. cbn [v_regs]. by rewrite lookup_take_lt by lia. Qed.

Lemma view_keeps m m' : Keeps m m' → length (registers m) = 16%nat → length (registers m') = 16%nat → view m' = view m.
Proof.
  intros [Hr _ Hf Hram Hb _ _ _] L1 L2. unfold view. rewrite Hf, Hram, Hb. f_equal.
  apply list_eq. intros i. destruct (decide (i < 15)%nat) as [Hi|Hi].
  - rewrite !lookup_take_lt by lia. specialize (Hr (Z.of_nat i) ltac:(lia)). unfold reg in Hr. rewrite Nat2Z.id in Hr.
    destruct (lookup_lt_is_Some_2 (registers m) i) as [x Hx]; [lia|].
    destruct (lookup_lt_is_Some_2 (registers m') i) as [y Hy]; [lia|].
    rewrite Hx, Hy in *. cbn in Hr. congruence.
  - by rewrite !lookup_take_ge by lia.
Qed.

Section Rules.
Context (P : Machine → Prop).

(** From every state with the view [w] at instruction [a] the run gets to [P]. *)
Definition goes_with (a : nat) (s : Selectors) (w : View) : Prop :=
  ∀ m, Ready a s m → view m = w → runs step P m.
Notation goes a w := (goes_with a plain w).

(** What an instruction that neither jumps nor has operands does. *)
Definition performs (op : Z) (s : Selectors) (w : View) (s' : Selectors) (w' : View) : Prop :=
  ∀ m a, Mid a m → selectors m = s → view m = w → pc_written m = false →
  ∃ m', execute code origin program_bank rom op m = Ok m' ∧ pc_written m' = false ∧ reg m' 15 = reg m 15 ∧
    pipeline m' = pipeline m ∧ icache m' = icache m ∧ resident m' ∧ length (registers m') = 16%nat ∧
    selectors m' = s' ∧ view m' = w'.

Lemma goes_step a op s w s' w' :
  code !! a = Some op → is_Some (code !! S a) → op ≠ 0 → performs op s w s' w' →
  goes_with (S a) s' w' → goes_with a s w.
Proof.
  intros Hop [next Hn] Hne Hp Hgo m Hm Hw.
  destruct (ready_step m a s op next Hm Hop Hn Hne) as (m1 & Hstep & Hmid & Hk & Hpw).
  destruct (Hp m1 (S a) Hmid) as (m2 & He & Hw2 & H15 & Hpipe & Hi & Hres & Hlen & Hs & Hv); [| |done|].
  { rewrite (kp_selectors _ _ Hk). apply Hm. }
  { rewrite (view_keeps m m1); [done..|apply Hm|apply Hmid]. }
  rewrite He in Hstep. cbn [mbind result_mbind result_bind] in Hstep.
  destruct (advance_ready m1 m2 (S a) Hmid Hw2 H15 Hpipe Hi Hres Hlen) as [Hr Hk2].
  eapply runs_step; [exact Hstep|]. rewrite Hs in Hr. apply Hgo; [done|].
  rewrite (view_keeps m2 (advance m2)); [done..|apply Hr].
Qed.

End Rules.
End Payload.
