(* ===== verification/StartupRun.v ===== *)
(** * StartupRun: the startup code on the machine

    Runs the code of [RuntimeInitialization.hpp] on the GSU instruction model:
    wherever the linker puts it, it selects the RAM bank, sets the stack pointer,
    fills the static RAM with the initial image, touches no other cell, and
    reaches the entry point. *)

From S2P Require Import Prelude Machine MachineRun Startup.

(** [IWT] and [IBT] of any register. *)
Lemma register_cases r : 0 ≤ r < 16 → r ∈ seqZ 0 16.
Proof. intros. apply elem_of_seqZ. lia. Qed.

Ltac each_register H :=
  apply register_cases in H; vm_compute seqZ in H;
  repeat (apply elem_of_cons in H as [-> | H]); [..| by apply elem_of_nil in H].

Section Boot.
Context (code : list Z) (origin program_bank : Z) (rom : Memory) (fits : Fits code origin program_bank).
Notation execute := (execute code origin program_bank rom).
Notation operand := (operand code origin program_bank rom).
Notation step := (step code origin program_bank rom).

Lemma execute_iwt r m : 0 ≤ r < 16 → selectors m = plain →
  execute (Z.lor 240 r) m =
    ('(m, low) ← operand m; '(m, high) ← operand m;
     Ok (resetSelectors (write r (Z.lor low (Z.shiftl high 8)) m))).
Proof. intros Hr Hs. unfold Machine.execute. rewrite Hs. each_register Hr; reflexivity. Qed.

Lemma execute_ibt r m : 0 ≤ r < 16 → selectors m = plain →
  execute (Z.lor 160 r) m =
    ('(m, byte) ← operand m;
     Ok (resetSelectors (write r (if byte <? 128 then byte else Z.lor byte 0xff00) m))).
Proof. intros Hr Hs. unfold Machine.execute. rewrite Hs. each_register Hr; reflexivity. Qed.

(** The bytes [l] are at [a] in the payload. *)
Definition holds (a : nat) (l : list Z) : Prop := ∀ k b, l !! k = Some b → code !! (a + k)%nat = Some b.

Lemma holds_app a l k : holds a (l ++ k) ↔ holds a l ∧ holds (a + length l) k.
Proof.
  unfold holds. split.
  - intros H. split.
    + intros i b Hi. apply H. by apply lookup_app_l_Some.
    + intros i b Hi. rewrite <- Nat.add_assoc. apply H. rewrite lookup_app_r by lia. by replace (length l + i - length l)%nat with i by lia.
  - intros [H1 H2] i b [Hi|[Hi Hk]]%lookup_app_Some; [by apply H1|].
    specialize (H2 _ _ Hk). by replace (a + length l + (i - length l))%nat with (a + i)%nat in H2 by lia.
Qed.
Lemma holds_cons a b l : holds a (b :: l) ↔ code !! a = Some b ∧ holds (S a) l.
Proof.
  rewrite (holds_app a [b] l). cbn [length]. replace (a + 1)%nat with (S a) by lia. unfold holds. split; intros [H ?]; (split; [|done]).
  - rewrite <- (Nat.add_0_r a). by apply H.
  - intros [|k] x Hx; [|done]. injection Hx as <-. by rewrite Nat.add_0_r.
Qed.

Lemma word_value v : 0 ≤ v < 65536 → u16 (Z.lor (u8 v) (Z.shiftl (u8 (Z.shiftr v 8)) 8)) = v.
Proof.
  intros Hv. rewrite shiftl_8, shiftr_8. unfold uwrap. change (2 ^ 8) with 256. change (2 ^ 16) with 65536.
  rewrite lor_fields_8 by (unfold byte_ok; zmod). zmod.
Qed.
Lemma byte_value v : 0 ≤ v < 65536 → (v <=? 127) || (65408 <=? v) = true →
  u16 (if u8 v <? 128 then u8 v else Z.lor (u8 v) 0xff00) = v.
Proof.
  intros Hv Hs. unfold uwrap. change (2 ^ 8) with 256. change (2 ^ 16) with 65536.
  destruct (Z.ltb_spec (v mod 256) 128); [zmod|].
  change 0xff00 with (255 * 256). rewrite lor_fields_8 by (unfold byte_ok; zmod). zmod.
Qed.

(** [IWT R15]: a jump. *)
Lemma step_jump m a n t :
  Ready code origin program_bank rom a plain m → holds a (word 15 (origin + Z.of_nat t)) →
  code !! (a + 3)%nat = Some n → is_Some (code !! t) →
  ∃ m', step m = Ok (false, m') ∧ Keeps m m' ∧ Delayed code origin program_bank rom (a + 3) t plain m'.
Proof.
  intros Hm Hb Hn [b Ht]. unfold word in Hb. rewrite !holds_cons in Hb. destruct Hb as (H0 & H1 & H2 & _).
  pose proof (code_size _ _ _ fits _ _ Ht) as [? _]. pose proof (fit_size _ _ _ fits). pose proof (fit_origin _ _ _ fits).
  destruct (ready_step code origin program_bank rom fits m a plain _ _ Hm H0 H1) as (m1 & Hstep & Hmid & Hk & Hpw); [done|].
  rewrite execute_iwt in Hstep by (lia || by rewrite (kp_selectors _ _ Hk), (rd_selectors _ _ _ _ _ _ _ Hm)).
  destruct (operand_ok code origin program_bank rom fits m1 _ _ _ Hmid H1 H2) as (m2 & Ho & Hmid2 & Hk2 & Hpw2).
  rewrite Ho in Hstep. cbn [mbind result_mbind result_bind] in Hstep.
  assert (code !! S (S (S a)) = Some n) as Hn' by (by replace (S (S (S a))) with (a + 3)%nat by lia).
  destruct (operand_ok code origin program_bank rom fits m2 _ _ _ Hmid2 H2 Hn') as (m3 & Ho3 & Hmid3 & Hk3 & Hpw3).
  rewrite Ho3 in Hstep. cbn [mbind result_mbind result_bind] in Hstep.
  assert (selectors m3 = plain) as Hs3.
  { rewrite (kp_selectors _ _ Hk3), (kp_selectors _ _ Hk2), (kp_selectors _ _ Hk). apply Hm. }
  destruct (jump_delayed code origin program_bank rom m3 (S (S (S a))) t plain
    (Z.lor (u8 (origin + Z.of_nat t)) (Z.shiftl (u8 (Z.shiftr (origin + Z.of_nat t) 8)) 8)) Hmid3 Hs3) as (Hdl & Hk4 & Hadv).
  { rewrite word_value by lia. done. }
  set (m4 := write 15 (Z.lor (u8 (origin + Z.of_nat t)) (Z.shiftl (u8 (Z.shiftr (origin + Z.of_nat t) 8)) 8)) m3) in *.
  assert (resetSelectors m4 = m4) as Hreset.
  { unfold resetSelectors. rewrite <- (dl_selectors _ _ _ _ _ _ _ _ Hdl). by destruct m4. }
  rewrite Hreset, Hadv in Hstep. exists m4. split; [exact Hstep|].
  replace (a + 3)%nat with (S (S (S a))) by lia. split; [|done]. eauto using Keeps_trans.
Qed.

Section Rules.
Context (P : Machine → Prop).
Notation goes a w := (goes_with code origin program_bank rom P a plain w).

(** A register write behind operands. *)
Lemma goes_write m a r v w :
  Mid code origin program_bank rom a m → pc_written m = false → view m = w → 0 ≤ r < 15 →
  goes a (v_set r v w) → runs step P (advance (resetSelectors (write r v m))).
Proof.
  intros Hmid Hpw Hw Hr Hgo. pose proof (mid_regs _ _ _ _ _ _ Hmid) as Hlen.
  assert (write r v m = set_reg r v m) as -> by (unfold write; by replace (r =? 15) with false by lia).
  destruct (advance_ready code origin program_bank rom fits m (resetSelectors (set_reg r v m)) a Hmid) as [Hready Hk].
  - done.
  - etransitivity; [|apply (reg_set_ne r 15 v); lia]. done.
  - done.
  - done.
  - apply (resident_ram code origin program_bank rom m); [done|apply Hmid].
  - cbn [registers resetSelectors with_selectors set_reg]. by rewrite length_insert.
  - apply Hgo; [exact Hready|]. rewrite (view_keeps _ _ Hk); [|by cbn; rewrite length_insert|apply Hready].
    rewrite <- Hw. unfold view, v_set. cbn. f_equal. by rewrite take_insert_lt by lia.
Qed.

Lemma goes_iwt a r v w :
  0 ≤ r < 15 → 0 ≤ v < 65536 → holds a (word r v) → is_Some (code !! (a + 3)%nat) →
  goes (a + 3)%nat (v_set r v w) → goes a w.
Proof.
  intros Hr Hv Hb [next Hn] Hgo m Hm Hw.
  unfold word in Hb. rewrite !holds_cons in Hb. destruct Hb as (H0 & H1 & H2 & _).
  destruct (ready_step code origin program_bank rom fits m a plain _ _ Hm H0 H1) as (m1 & Hstep & Hmid & Hk & Hpw).
  { intros E. apply Z.lor_eq_0_iff in E as [E _]. lia. }
  rewrite execute_iwt in Hstep by (lia || by rewrite (kp_selectors _ _ Hk), (rd_selectors _ _ _ _ _ _ _ Hm)).
  destruct (operand_ok code origin program_bank rom fits m1 _ _ _ Hmid H1 H2) as (m2 & Ho & Hmid2 & Hk2 & Hpw2).
  rewrite Ho in Hstep. cbn [mbind result_mbind result_bind] in Hstep.
  assert (code !! S (S (S a)) = Some next) as Hn' by (by replace (S (S (S a))) with (a + 3)%nat by lia).
  destruct (operand_ok code origin program_bank rom fits m2 _ _ _ Hmid2 H2 Hn') as (m3 & Ho3 & Hmid3 & Hk3 & Hpw3).
  rewrite Ho3 in Hstep. cbn [mbind result_mbind result_bind] in Hstep.
  eapply runs_step; [exact Hstep|]. replace (a + 3)%nat with (S (S (S a))) in Hgo by lia.
  eapply goes_write; [done|congruence| |done|].
  - rewrite (view_keeps m m3); [done| |apply Hm|apply Hmid3]. eauto using Keeps_trans.
  - unfold v_set. rewrite word_value by done.
    unfold v_set in Hgo. rewrite uwrap_small in Hgo by done. done.
Qed.

Lemma goes_ibt a r v w :
  0 ≤ r < 15 → 0 ≤ v < 65536 → (v <=? 127) || (65408 <=? v) = true →
  holds a [Z.lor 160 r; u8 v] → is_Some (code !! (a + 2)%nat) →
  goes (a + 2)%nat (v_set r v w) → goes a w.
Proof.
  intros Hr Hv Hs Hb [next Hn] Hgo m Hm Hw.
  rewrite !holds_cons in Hb. destruct Hb as (H0 & H1 & _).
  destruct (ready_step code origin program_bank rom fits m a plain _ _ Hm H0 H1) as (m1 & Hstep & Hmid & Hk & Hpw).
  { intros E. apply Z.lor_eq_0_iff in E as [E _]. lia. }
  rewrite execute_ibt in Hstep by (lia || by rewrite (kp_selectors _ _ Hk), (rd_selectors _ _ _ _ _ _ _ Hm)).
  assert (code !! S (S a) = Some next) as Hn' by (by replace (S (S a)) with (a + 2)%nat by lia).
  destruct (operand_ok code origin program_bank rom fits m1 _ _ _ Hmid H1 Hn') as (m2 & Ho & Hmid2 & Hk2 & Hpw2).
  rewrite Ho in Hstep. cbn [mbind result_mbind result_bind] in Hstep.
  eapply runs_step; [exact Hstep|]. replace (a + 2)%nat with (S (S a)) in Hgo by lia.
  eapply goes_write; [done|congruence| |done|].
  - rewrite (view_keeps m m2); [done| |apply Hm|apply Hmid2]. eauto using Keeps_trans.
  - unfold v_set. rewrite byte_value by done.
    unfold v_set in Hgo. rewrite uwrap_small in Hgo by done. done.
Qed.

(** [IBT] or [IWT], as the generator chooses. *)
Lemma goes_literal a r v w :
  0 ≤ r < 15 → 0 ≤ v < 65536 → holds a (literal r v) → is_Some (code !! (a + length (literal r v))%nat) →
  goes (a + length (literal r v))%nat (v_set r v w) → goes a w.
Proof.
  intros Hr Hv Hb Hn Hgo. unfold literal in *. destruct (_ || _) eqn:E; cbn [length word] in *.
  - by eapply goes_ibt.
  - by eapply goes_iwt.
Qed.

(** *** Instructions without operands *)

Notation performs := (performs code origin program_bank rom).

Lemma performs_alt2 w : performs 0x3e plain w (mkSelectors 0 0 false false true) w.
Proof.
  intros m a Hmid Hs Hw Hpw. eexists. split; [unfold Machine.execute; rewrite Hs; reflexivity|].
  split_and!; try done; [|apply Hmid]. apply (resident_ram code origin program_bank rom m); [done|apply Hmid].
Qed.
Lemma performs_alt1 w : performs 0x3d plain w (mkSelectors 0 0 false true false) w.
Proof.
  intros m a Hmid Hs Hw Hpw. eexists. split; [unfold Machine.execute; rewrite Hs; reflexivity|].
  split_and!; try done; [|apply Hmid]. apply (resident_ram code origin program_bank rom m); [done|apply Hmid].
Qed.
Lemma performs_nop w : performs 1 plain w plain w.
Proof.
  intros m a Hmid Hs Hw Hpw. eexists. split; [reflexivity|].
  split_and!; try done; [|apply Hmid]. apply (resident_ram code origin program_bank rom m); [done|apply Hmid].
Qed.

(** [RAMB] behind its prefix. *)
Lemma performs_ramb w :
  performs 0xdf (mkSelectors 0 0 false false true) w plain (v_with_bank (Z.land (v_reg w 0) 1) w).
Proof.
  intros m a Hmid Hs Hw Hpw. eexists. split; [unfold Machine.execute; rewrite Hs; reflexivity|].
  split_and!; try done.
  - apply (resident_ram code origin program_bank rom m); [done|apply Hmid].
  - apply Hmid.
  - rewrite <- Hw, view_reg by lia. reflexivity.
Qed.

Definition cell (w : View) : Z := v_bank w * 65536 + v_reg w 1.

(** [STB (R1)] and [STW (R1)]. *)
Lemma performs_stb w :
  0 ≤ cell w < RamSize → ¬ occupied code origin program_bank (cell w) →
  performs 0x31 (mkSelectors 0 0 false true false) w plain
    (v_with_ram (<[cell w := u8 (v_reg w 0)]> (v_ram w)) w).
Proof.
  intros Hc Hocc m a Hmid Hs Hw Hpw.
  assert (ram_bank m * 65536 + reg m 1 = cell w ∧ reg m 0 = v_reg w 0) as [E0 E1].
  { unfold cell. by rewrite <- Hw, !view_reg by lia. }
  exists (resetSelectors (with_ram (<[cell w := u8 (v_reg w 0)]> (v_ram w)) (with_banks (ram_bank m) (reg m 1) (rom_bank m) m))). split.
  { unfold Machine.execute. rewrite Hs.
    transitivity (store true (ram_bank m * 65536 + reg m 1) (reg m 0) (with_banks (ram_bank m) (reg m 1) (rom_bank m) m)); [reflexivity|].
    unfold store. rewrite E0, E1, poke_ok by done. by rewrite <- Hw. }
  split_and!; try done.
  - apply (resident_outside code origin program_bank rom fits m); [|apply Hmid].
    intros j Hj. unfold byte_at. cbn [ram resetSelectors with_selectors with_ram]. rewrite lookup_insert_ne by congruence.
    by rewrite <- Hw.
  - apply Hmid.
  - rewrite <- Hw. reflexivity.
Qed.

Lemma performs_stw w :
  0 ≤ cell w < RamSize - 1 → cell w mod 2 = 0 →
  ¬ occupied code origin program_bank (cell w) → ¬ occupied code origin program_bank (cell w + 1) →
  performs 0x31 plain w plain
    (v_with_ram (<[cell w + 1 := u8 (Z.shiftr (v_reg w 0) 8)]> (<[cell w := u8 (v_reg w 0)]> (v_ram w))) w).
Proof.
  intros Hc Heven Hocc Hocc' m a Hmid Hs Hw Hpw.
  assert (ram_bank m * 65536 + reg m 1 = cell w ∧ reg m 0 = v_reg w 0) as [E0 E1].
  { unfold cell. by rewrite <- Hw, !view_reg by lia. }
  exists (resetSelectors (with_ram (<[cell w + 1 := u8 (Z.shiftr (v_reg w 0) 8)]> (<[cell w := u8 (v_reg w 0)]> (v_ram w)))
            (with_banks (ram_bank m) (reg m 1) (rom_bank m) m))). split.
  { unfold Machine.execute. rewrite Hs.
    transitivity (store false (ram_bank m * 65536 + reg m 1) (reg m 0) (with_banks (ram_bank m) (reg m 1) (rom_bank m) m)); [reflexivity|].
    unfold store. rewrite E0, E1, poke_ok by lia. cbn [mbind result_mbind result_bind].
    rewrite lxor_even, poke_ok by lia. by rewrite <- Hw. }
  split_and!; try done.
  - apply (resident_outside code origin program_bank rom fits m); [|apply Hmid].
    intros j Hj. unfold byte_at. cbn [ram resetSelectors with_selectors with_ram].
    rewrite !lookup_insert_ne by congruence. by rewrite <- Hw.
  - apply Hmid.
  - rewrite <- Hw. reflexivity.
Qed.

(** [INC R1] and [DEC R2]. *)
Lemma performs_step op i d w :
  op = 0xd1 ∧ i = 1 ∧ d = 1 ∨ op = 0xe2 ∧ i = 2 ∧ d = -1 →
  performs op plain w plain (v_with_zero (u16 (v_reg w i + d) =? 0) (v_set i (v_reg w i + d) w)).
Proof.
  intros Hcase m a Hmid Hs Hw Hpw. pose proof (mid_regs _ _ _ _ _ _ Hmid) as Hlen.
  assert (reg m i = v_reg w i) as Ei by (rewrite <- Hw, view_reg by lia; done).
  assert (0 ≤ i < 15) as Hi by lia.
  exists (resetSelectors (setZeroSign (reg (set_reg i (reg m i + d) m) i) (set_reg i (reg m i + d) m))). split.
  { unfold Machine.execute. rewrite Hs. destruct Hcase as [(-> & -> & ->)|(-> & -> & ->)]; reflexivity. }
  split_and!; try done.
  - etransitivity; [|apply (reg_set_ne i 15 (reg m i + d)); lia]. done.
  - apply (resident_ram code origin program_bank rom m); [done|apply Hmid].
  - cbn [registers resetSelectors with_selectors setZeroSign with_flags set_reg]. by rewrite length_insert.
  - rewrite reg_set_eq, Ei by lia. rewrite <- Hw. unfold view, v_set, v_with_zero. cbn. f_equal.
    by rewrite take_insert_lt by lia.
Qed.

Lemma goes_performs a op s w s' w' :
  code !! a = Some op → is_Some (code !! S a) → op ≠ 0 → performs op s w s' w' →
  goes_with code origin program_bank rom P (S a) s' w' → goes_with code origin program_bank rom P a s w.
Proof. by apply goes_step. Qed.

Lemma view_reset m m' : Keeps (resetSelectors m) m' → length (registers m) = 16%nat → length (registers m') = 16%nat →
  view m' = view m.
Proof. intros Hk H1 H2. by rewrite (view_keeps _ _ Hk). Qed.

(** [BNE] and [IWT R15] with a NOP behind them. *)
Lemma goes_bne a d t w :
  holds a [8; d; 1] → is_Some (code !! (a + 3)%nat) →
  Z.of_nat t = Z.of_nat a + 2 + signed8 d → is_Some (code !! t) →
  (v_zero w = false → goes t w) → (v_zero w = true → goes (a + 3)%nat w) → goes a w.
Proof.
  intros Hb Hn Ht Hbt Htaken Hfall m Hm Hw. rewrite !holds_cons in Hb. destruct Hb as (H0 & H1 & H2 & _).
  destruct (step_branch code origin program_bank rom fits m a plain 8 d 1 t Hm H0 ltac:(lia) H1 H2 Ht Hbt)
    as (m1 & Hstep & Hk & Hcase).
  eapply runs_step; [exact Hstep|].
  assert (branch_taken 8 (flags m) = negb (v_zero w)) as E by (by rewrite <- Hw).
  rewrite E in Hcase. replace (a + 3)%nat with (S (S (S a))) in * by lia. destruct (v_zero w); cbn [negb] in Hcase.
  - destruct (step_nop code origin program_bank rom fits m1 _ _ Hcase H2 Hn) as (m2 & Hs2 & Hr2 & Hk2).
    eapply runs_step; [exact Hs2|]. apply Hfall; [done..|].
    rewrite (view_reset _ _ Hk2), (view_keeps _ _ Hk); [done|apply Hm|apply Hcase|apply Hcase|apply Hr2].
  - destruct (step_delay_nop code origin program_bank rom fits m1 _ _ _ Hcase H2 Hbt) as (m2 & Hs2 & Hr2 & Hk2).
    eapply runs_step; [exact Hs2|]. apply Htaken; [done..|].
    rewrite (view_reset _ _ Hk2), (view_keeps _ _ Hk); [done|apply Hm|apply Hcase|apply Hcase|apply Hr2].
Qed.

Lemma goes_jump a t w :
  holds a (word 15 (origin + Z.of_nat t) ++ [1]) → is_Some (code !! t) → goes t w → goes a w.
Proof.
  intros [Hb [H1 _]%holds_cons]%holds_app Hbt Hgo m Hm Hw. cbn [length word] in H1.
  destruct (step_jump m a 1 t Hm Hb H1 Hbt) as (m1 & Hstep & Hk & Hd). eapply runs_step; [exact Hstep|].
  destruct (step_delay_nop code origin program_bank rom fits m1 _ _ _ Hd H1 Hbt) as (m2 & Hs2 & Hr2 & Hk2).
  eapply runs_step; [exact Hs2|]. apply Hgo; [done..|].
  rewrite (view_reset _ _ Hk2), (view_keeps _ _ Hk); [done|apply Hm|apply Hd|apply Hd|apply Hr2].
Qed.
End Rules.

(* ------------------------------------------------------------------ *)
(** ** The startup code *)

Lemma v_reg_set_eq i v w : 0 ≤ i < 15 → length (v_regs w) = 15%nat → v_reg (v_set i v w) i = u16 v.
Proof. intros. unfold v_reg, v_set. cbn [v_regs]. by rewrite list_lookup_insert_eq by lia. Qed.
Lemma v_reg_set_ne i j v w : 0 ≤ i → 0 ≤ j → i ≠ j → v_reg (v_set i v w) j = v_reg w j.
Proof. intros. unfold v_reg, v_set. cbn [v_regs]. by rewrite list_lookup_insert_ne by lia. Qed.
Lemma v_set_length i v w : length (v_regs (v_set i v w)) = length (v_regs w).
Proof. apply length_insert. Qed.

Section Image.
Context (bank stack ram_origin : Z) (image : list Z) (before : Memory).
Context (Hbank : 0 ≤ bank ≤ 1) (Hro : 0 ≤ ram_origin < 65536) (Heven : ram_origin mod 2 = 0)
        (Hsize : ram_origin + zlen image ≤ 65536) (Hstack : 0 ≤ stack < 65536) (Himage : bytes_ok image).
Notation n := (zlen image).
Definition ram_base : Z := bank * 65536 + ram_origin.
Context (Hfree : ∀ i, ram_base ≤ i < ram_base + n → ¬ occupied code origin program_bank i).

Definition image_byte (i : Z) : Z := default 0 (image !! Z.to_nat i).
Definition inside (i k : Z) : bool := (ram_base <=? i) && (i <? ram_base + k).

(** While the first loop runs, [k] cells are cleared. *)
Record Clearing (k : Z) (w : View) : Prop := {
  cl_length : length (v_regs w) = 15%nat;
  cl_r0 : v_reg w 0 = 0;
  cl_r1 : v_reg w 1 = u16 (ram_origin + k);
  cl_r2 : v_reg w 2 = u16 (n - k);
  cl_stack : v_reg w 10 = stack;
  cl_bank : v_bank w = bank;
  cl_ram : ∀ i, byte_at (v_ram w) i = if inside i k then 0 else byte_at before i
}.

(** Behind it, [k] bytes of the image are in place. *)
Record Filling (k : Z) (w : View) : Prop := {
  fl_length : length (v_regs w) = 15%nat;
  fl_stack : v_reg w 10 = stack;
  fl_bank : v_bank w = bank;
  fl_ram : ∀ i, byte_at (v_ram w) i =
    if inside i k then image_byte (i - ram_base) else if inside i n then 0 else byte_at before i
}.

Lemma Clearing_filling w : Clearing n w → Filling 0 w.
Proof.
  intros []. split; try done. intros i. rewrite cl_ram0. unfold inside.
  replace ((ram_base <=? i) && (i <? ram_base + 0)) with false by lia. done.
Qed.

Context (P : Machine → Prop).
Notation goes a w := (goes_with code origin program_bank rom P a plain w).

(** The body of the first loop: [STB (R1)], [INC R1], [DEC R2]. *)
Definition clear_body (w : View) : View :=
  let w := v_with_ram (<[cell w := u8 (v_reg w 0)]> (v_ram w)) w in
  let w := v_with_zero (u16 (v_reg w 1 + 1) =? 0) (v_set 1 (v_reg w 1 + 1) w) in
  v_with_zero (u16 (v_reg w 2 + -1) =? 0) (v_set 2 (v_reg w 2 + -1) w).

Lemma Clearing_cell k w : Clearing k w → 0 ≤ k < n → cell w = ram_base + k.
Proof. intros Hw Hk. unfold cell, ram_base. rewrite (cl_bank _ _ Hw), (cl_r1 _ _ Hw), uwrap_small; lia. Qed.

Lemma goes_body a w k : holds a [61; 49; 209; 226] → is_Some (code !! (a + 4)%nat) → Clearing k w → 0 ≤ k < n →
  goes (a + 4)%nat (clear_body w) → goes a w.
Proof.
  intros Hb Hn Hw Hk Hgo. rewrite !holds_cons in Hb. destruct Hb as (H0 & H1 & H2 & H3 & _).
  pose proof (Clearing_cell k w Hw Hk) as Hcell. replace (a + 4)%nat with (S (S (S (S a)))) in * by lia.
  eapply (goes_performs P a 61); [done|eauto|done|apply performs_alt1|].
  eapply (goes_performs P (S a) 49); [done|eauto|done|apply performs_stb|].
  { rewrite Hcell. unfold ram_base, RamSize. lia. }
  { rewrite Hcell. apply Hfree. lia. }
  eapply (goes_performs P (S (S a)) 209); [done|eauto|done|apply (performs_step _ 1 1); by left|].
  eapply (goes_performs P (S (S (S a))) 226); [done|eauto|done|apply (performs_step _ 2 (-1)); by right|].
  exact Hgo.
Qed.

Lemma Clearing_step k w : Clearing k w → 0 ≤ k < n → Clearing (k + 1) (clear_body w) ∧ v_zero (clear_body w) = (k + 1 =? n).
Proof.
  intros Hw Hk. pose proof (Clearing_cell k w Hw Hk) as Hcell. destruct Hw as [Clen C0 C1 C2 Cs Cb Cram].
  set (w1 := v_with_ram (<[cell w := u8 (v_reg w 0)]> (v_ram w)) w).
  set (w2 := v_with_zero (u16 (v_reg w1 1 + 1) =? 0) (v_set 1 (v_reg w1 1 + 1) w1)).
  assert (clear_body w = v_with_zero (u16 (v_reg w2 2 + -1) =? 0) (v_set 2 (v_reg w2 2 + -1) w2)) as E by done.
  assert (v_reg w2 2 = u16 (n - k)) as R2.
  { etransitivity; [apply (v_reg_set_ne 1 2 _ w1); lia|]. done. }
  assert (v_reg w2 1 = u16 (ram_origin + (k + 1))) as R1.
  { etransitivity; [apply (v_reg_set_eq 1 _ w1); [lia|done]|]. change (v_reg w1 1) with (v_reg w 1).
    rewrite C1. unfold uwrap. rewrite Zplus_mod_idemp_l. f_equal. lia. }
  assert (∀ j, 0 ≤ j → j ≠ 1 → j ≠ 2 → v_reg (clear_body w) j = v_reg w j) as Rj.
  { intros j H0 H1 H2. etransitivity; [apply (v_reg_set_ne 2 j _ w2); lia|]. apply (v_reg_set_ne 1 j _ w1); lia. }
  assert (u16 (u16 (n - k) + -1) = u16 (n - (k + 1))) as Hdec.
  { unfold uwrap. rewrite Zplus_mod_idemp_l. f_equal. lia. }
  split; [|].
  - split.
    + rewrite E. cbn [v_regs v_with_zero]. rewrite v_set_length. unfold w2. cbn [v_regs v_with_zero]. by rewrite v_set_length.
    + rewrite Rj by lia. done.
    + rewrite <- R1. apply (v_reg_set_ne 2 1 _ w2); lia.
    + etransitivity; [apply (v_reg_set_eq 2 (v_reg w2 2 + -1) w2); [lia|]|]; [|by rewrite R2].
      unfold w2. cbn [v_regs v_with_zero]. by rewrite v_set_length.
    + rewrite Rj by lia. done.
    + done.
    + intros i. change (v_ram (clear_body w)) with (<[cell w := u8 (v_reg w 0)]> (v_ram w)).
      unfold byte_at. rewrite Hcell, C0. destruct (decide (i = ram_base + k)) as [->|Hne].
      * rewrite lookup_insert_eq. unfold inside. by replace (_ && _) with true by lia.
      * rewrite lookup_insert_ne by congruence. fold (byte_at (v_ram w) i). rewrite Cram. unfold inside.
        by replace (i <? ram_base + (k + 1)) with (i <? ram_base + k) by lia.
  - rewrite E. cbn [v_zero v_with_zero]. rewrite R2, Hdec. unfold uwrap. rewrite Z.mod_small; lia.
Qed.

Lemma goes_clear a : holds a [61; 49; 209; 226; 8; 250; 1] → is_Some (code !! (a + 7)%nat) →
  (∀ w, Clearing n w → goes (a + 7)%nat w) →
  ∀ rest k w, Z.of_nat (S rest) = n - k → 0 ≤ k → Clearing k w → goes a w.
Proof.
  intros Hb Hn Hgo. apply (holds_app a [61; 49; 209; 226]) in Hb as [Hb Hbne]. cbn [length] in Hbne.
  pose proof Hbne as [H4 _]%holds_cons. pose proof Hb as [H0 _]%holds_cons.
  induction rest as [|rest IH]; intros k w Hrest Hk Hw; (apply (goes_body a w k); [done|by eauto|done|lia|]);
    destruct (Clearing_step k w Hw ltac:(lia)) as [Hw' Hz];
    (apply (goes_bne P (a + 4) 250 a); [done|by replace (a + 4 + 3)%nat with (a + 7)%nat by lia|cbn; lia|by eauto|..]);
    rewrite Hz; intros E; bool_facts; try lia.
  - replace (a + 4 + 3)%nat with (a + 7)%nat by lia. apply Hgo. by rewrite <- E.
  - apply (IH (k + 1)); [lia..|done].
Qed.

(** One pair of the second phase. *)
Definition load_regs (k low high : Z) (w : View) : View :=
  v_set 0 (u16 (Z.lor low (Z.shiftl high 8))) (v_set 1 (u16 (ram_origin + k)) w).

Lemma goes_load a k low high w l :
  holds a (literal 1 (u16 (ram_origin + k)) ++ literal 0 (u16 (Z.lor low (Z.shiftl high 8))) ++ l) → l ≠ [] →
  (∀ a', holds a' l → a' = (a + (length (literal 1 (u16 (ram_origin + k))) + length (literal 0 (u16 (Z.lor low (Z.shiftl high 8))))))%nat →
     goes a' (load_regs k low high w)) → goes a w.
Proof.
  intros Hb Hl Hgo. apply holds_app in Hb as [H1 H2]. pose proof H2 as [H3 H4]%holds_app.
  assert (∀ b k, holds b k → k ≠ [] → is_Some (code !! b)) as Hsome.
  { intros b [|x k'] Hh Hne; [done|]. apply holds_cons in Hh as [-> _]. eauto. }
  apply (goes_literal P a 1 (u16 (ram_origin + k))); [lia|apply u16_range|done| |].
  { eapply Hsome; [exact H3|]. unfold literal, word. by destruct (_ || _). }
  eapply (goes_literal P _ 0); [lia|apply u16_range|done|by eapply Hsome|].
  apply Hgo; [exact H4|lia].
Qed.

Lemma load_regs_spec k low high w : Filling k w → 0 ≤ k < n → 0 ≤ low < 256 → 0 ≤ high < 256 →
  let w' := load_regs k low high w in
  Filling k w' ∧ cell w' = ram_base + k ∧ u8 (v_reg w' 0) = low ∧ u8 (Z.shiftr (v_reg w' 0) 8) = high.
Proof.
  intros [Flen Fs Fb Fram] Hk Hlow Hhigh. cbv zeta. set (w1 := v_set 1 (u16 (ram_origin + k)) w).
  assert (length (v_regs w1) = 15%nat) as L1 by (unfold w1; by rewrite v_set_length).
  assert (v_reg (load_regs k low high w) 0 = high * 256 + low) as R0.
  { etransitivity; [apply (v_reg_set_eq 0 _ w1); [lia|done]|]. rewrite shiftl_8, lor_fields_8 by (unfold byte_ok; lia).
    rewrite (uwrap_small 16 (high * 256 + low)) by lia. by rewrite uwrap_small by lia. }
  assert (v_reg (load_regs k low high w) 1 = ram_origin + k) as R1.
  { etransitivity; [apply (v_reg_set_ne 0 1 _ w1); lia|]. unfold w1. rewrite v_reg_set_eq by (done || lia).
    rewrite (uwrap_small 16 (ram_origin + k)) by lia. by rewrite uwrap_small by lia. }
  split_and!.
  - split; try done.
    + unfold load_regs. by rewrite !v_set_length.
    + etransitivity; [apply (v_reg_set_ne 0 10 _ w1); lia|]. etransitivity; [apply (v_reg_set_ne 1 10 _ w); lia|done].
  - unfold cell, ram_base. rewrite R1. change (v_bank (load_regs k low high w)) with (v_bank w). lia.
  - rewrite R0. unfold uwrap. change (2 ^ 8) with 256. zmod.
  - rewrite R0, shiftr_8. unfold uwrap. change (2 ^ 8) with 256. zmod.
Qed.

(** Behind the stores the image reaches [k + length bs]. *)
Lemma Filling_extend k w w' bs : Filling k w → length (v_regs w') = 15%nat → v_reg w' 10 = stack → v_bank w' = bank →
  0 ≤ k → k + zlen bs ≤ n → (∀ j b, bs !! j = Some b → image !! (Z.to_nat k + j)%nat = Some b) →
  (∀ i, byte_at (v_ram w') i = if (ram_base + k <=? i) && (i <? ram_base + k + zlen bs)
     then default 0 (bs !! Z.to_nat (i - (ram_base + k))) else byte_at (v_ram w) i) →
  Filling (k + zlen bs) w'.
Proof.
  intros [Flen Fs Fb Fram] H1 H2 H3 Hk Hn Hbs Hram. split; try done. intros i. rewrite Hram, Fram. unfold inside, image_byte.
  destruct (decide (ram_base + k ≤ i < ram_base + k + zlen bs)) as [Hi|Hi].
  - replace ((ram_base + k <=? i) && (i <? ram_base + k + zlen bs)) with true by lia.
    replace ((ram_base <=? i) && (i <? ram_base + (k + zlen bs))) with true by lia.
    destruct (lookup_lt_is_Some_2 bs (Z.to_nat (i - (ram_base + k)))) as [b Hb]; [unfold zlen in *; lia|].
    rewrite Hb. specialize (Hbs _ _ Hb). replace (Z.to_nat k + Z.to_nat (i - (ram_base + k)))%nat with (Z.to_nat (i - ram_base)) in Hbs by lia.
    by rewrite Hbs.
  - replace ((ram_base + k <=? i) && (i <? ram_base + k + zlen bs)) with false by lia.
    assert (0 ≤ zlen bs) by apply zlen_nonneg.
    by replace ((ram_base <=? i) && (i <? ram_base + (k + zlen bs))) with ((ram_base <=? i) && (i <? ram_base + k)) by lia.
Qed.

(** Zero bytes are in place already. *)
Lemma Filling_zeros k w bs : Filling k w → 0 ≤ k → k + zlen bs ≤ n → Forall (eq 0) bs →
  (∀ j b, bs !! j = Some b → image !! (Z.to_nat k + j)%nat = Some b) → Filling (k + zlen bs) w.
Proof.
  intros Hw Hk Hn Hz Hbs. pose proof Hw as []. apply (Filling_extend k w w bs); try done.
  intros i. destruct (_ && _) eqn:E; [|done]. bool_facts.
  destruct (lookup_lt_is_Some_2 bs (Z.to_nat (i - (ram_base + k)))) as [b Hb]; [unfold zlen in *; lia|].
  pose proof (Forall_lookup_1 _ _ _ _ Hz Hb) as <-. rewrite Hb, (fl_ram _ _ Hw). unfold inside.
  replace ((ram_base <=? i) && (i <? ram_base + k)) with false by lia.
  by replace ((ram_base <=? i) && (i <? ram_base + n)) with true by lia.
Qed.

(** The stores of one pair, and of a last odd byte. *)
Lemma goes_store_word a k low high w l :
  holds a (49 :: l) → l ≠ [] → Filling k w → cell w = ram_base + k → u8 (v_reg w 0) = low → u8 (Z.shiftr (v_reg w 0) 8) = high →
  0 ≤ k → k + 2 ≤ n → k mod 2 = 0 → image !! Z.to_nat k = Some low → image !! S (Z.to_nat k) = Some high →
  (∀ w', Filling (k + 2) w' → goes (S a) w') → goes a w.
Proof.
  intros Hb Hl Hw Hcell Hlow Hhigh Hk Hn Hek Hi0 Hi1 Hgo. apply holds_cons in Hb as [H0 H1].
  assert (is_Some (code !! S a)) as Hs by (destruct l; [done|]; apply holds_cons in H1 as [-> _]; eauto).
  eapply (goes_performs P a 49); [done|done|done|apply performs_stw|].
  - rewrite Hcell. unfold ram_base, RamSize. lia.
  - rewrite Hcell. unfold ram_base. zmod.
  - rewrite Hcell. apply Hfree. lia.
  - rewrite Hcell. apply Hfree. lia.
  - apply Hgo. apply (Filling_extend k w _ [low; high] Hw); try apply Hw; try done.
    + intros [|[|j]] b Hb; [| |done]; injection Hb as <-.
      * by rewrite Nat.add_0_r.
      * by rewrite Nat.add_1_r.
    + intros i. cbn [v_ram v_with_ram]. rewrite Hcell, Hlow, Hhigh. unfold byte_at. change (zlen [low; high]) with 2.
      destruct (decide (i = ram_base + k + 1)) as [->|N1]; [|destruct (decide (i = ram_base + k)) as [->|N0]].
      * rewrite lookup_insert_eq. replace ((ram_base + k <=? ram_base + k + 1) && (ram_base + k + 1 <? ram_base + k + 2)) with true by lia.
        by replace (ram_base + k + 1 - (ram_base + k)) with 1 by lia.
      * rewrite lookup_insert_ne, lookup_insert_eq by lia. replace (_ && _) with true by lia.
        by replace (ram_base + k - (ram_base + k)) with 0 by lia.
      * rewrite !lookup_insert_ne by congruence. by replace (_ && _) with false by lia.
Qed.

Lemma goes_store_byte a k low w l :
  holds a (61 :: 49 :: l) → l ≠ [] → Filling k w → cell w = ram_base + k → u8 (v_reg w 0) = low →
  0 ≤ k → k + 1 ≤ n → image !! Z.to_nat k = Some low →
  (∀ w', Filling (k + 1) w' → goes (S (S a)) w') → goes a w.
Proof.
  intros Hb Hl Hw Hcell Hlow Hk Hn Hi Hgo. rewrite !holds_cons in Hb. destruct Hb as (H0 & H1 & H2).
  assert (is_Some (code !! S (S a))) as Hs by (destruct l; [done|]; apply holds_cons in H2 as [-> _]; eauto).
  eapply (goes_performs P a 61); [done|eauto|done|apply performs_alt1|].
  eapply (goes_performs P (S a) 49); [done|done|done|apply performs_stb|].
  - rewrite Hcell. unfold ram_base, RamSize. lia.
  - rewrite Hcell. apply Hfree. lia.
  - apply Hgo. apply (Filling_extend k w _ [low] Hw); try apply Hw; try done.
    + intros [|j] b Hb; [|done]. injection Hb as <-. by rewrite Nat.add_0_r.
    + intros i. cbn [v_ram v_with_ram]. rewrite Hcell, Hlow. unfold byte_at. change (zlen [low]) with 1.
      destruct (decide (i = ram_base + k)) as [->|N0].
      * rewrite lookup_insert_eq. replace (_ && _) with true by lia.
        by replace (ram_base + k - (ram_base + k)) with 0 by lia.
      * rewrite lookup_insert_ne by congruence. by replace (_ && _) with false by lia.
Qed.

(** The rest of the image from offset [k] on. *)
Lemma goes_fill l (Hl : l ≠ []) : ∀ size rest k a w, (length rest < size)%nat →
  drop (Z.to_nat k) image = rest → 0 ≤ k ≤ n → k mod 2 = 0 →
  holds a (init_words (ram_origin + k) rest ++ l) → Filling k w →
  (∀ a' w', a' = (a + length (init_words (ram_origin + k) rest))%nat → Filling n w' → goes a' w') → goes a w.
Proof.
  induction size as [|size IH]; intros rest k a w Hsz Hrest Hk Hek Hb Hw Hgo; [lia|].
  assert (zlen rest = n - k) as Hlen by (rewrite <- Hrest; unfold zlen; rewrite length_drop; unfold zlen in *; lia).
  assert (∀ j b, rest !! j = Some b → image !! (Z.to_nat k + j)%nat = Some b ∧ 0 ≤ b < 256) as Hat.
  { intros j b Hj. rewrite <- Hrest, lookup_drop in Hj. split; [done|]. exact (Forall_lookup_1 _ _ _ _ Himage Hj). }
  destruct rest as [|low [|high rest]].
  - rewrite zlen_nil in Hlen. apply Hgo; [cbn; lia|]. by replace n with k by lia.
  - destruct (Hat 0%nat low eq_refl) as [Hi Hr]. rewrite Nat.add_0_r in Hi. unfold zlen in Hlen at 1. cbn [length] in Hlen.
    cbn [init_words] in Hb, Hgo. destruct (Z.eqb_spec low 0) as [->|Hne].
    + apply Hgo; [cbn; lia|]. replace n with (k + zlen [0]) by (change (zlen [0]) with 1; lia).
      apply Filling_zeros; [done|lia|change (zlen [0]) with 1; lia|by constructor|]. intros [|j] b Hj; [|done]. by apply Hat.
    + rewrite <- !app_assoc in Hb. change (Z.lor low 0) with (Z.lor low (Z.shiftl 0 8)) in Hb, Hgo.
      apply (goes_load a k low 0 w _ Hb); [done|]. intros a' Ha' Ea'.
      destruct (load_regs_spec k low 0 w Hw) as (Hw' & Hcell & Hl' & _); [lia..|].
      apply (goes_store_byte a' k low (load_regs k low 0 w) l); try done; try lia.
      intros w' Hw''. apply Hgo; [rewrite Ea', !length_app; cbn [length]; lia|]. by replace n with (k + 1) by lia.
  - destruct (Hat 0%nat low eq_refl) as [Hi Hr]. destruct (Hat 1%nat high eq_refl) as [Hi' Hr'].
    rewrite Nat.add_0_r in Hi. rewrite Nat.add_1_r in Hi'. rewrite !zlen_cons in Hlen. pose proof (zlen_nonneg rest).
    cbn [init_words] in Hb, Hgo. cbn [length] in Hsz.
    assert (drop (Z.to_nat (k + 2)) image = rest) as Hdrop.
    { replace (Z.to_nat (k + 2)) with (Z.to_nat k + 2)%nat by lia. rewrite <- drop_drop, Hrest. done. }
    rewrite <- !app_assoc in Hb. replace (ram_origin + k + 2) with (ram_origin + (k + 2)) in Hb, Hgo by lia.
    destruct ((low =? 0) && (high =? 0)) eqn:E.
    + bool_facts. subst low high. apply (IH rest (k + 2) a w); [lia|done|lia|zmod|done| |].
      * change (k + 2) with (k + zlen [0; 0]). apply Filling_zeros; [done|lia|change (zlen [0; 0]) with 2; lia|by repeat constructor|].
        intros [|[|j]] b Hj; [| |done]; by apply Hat.
      * intros a' w' Ha' Hw'. by apply Hgo.
    + rewrite <- !app_assoc in Hb. apply (goes_load a k low high w _ Hb); [done|]. intros a' Ha' Ea'.
      destruct (load_regs_spec k low high w Hw) as (Hw' & Hcell & Hl' & Hh'); [lia..|].
      apply (goes_store_word a' k low high (load_regs k low high w) (init_words (ram_origin + (k + 2)) rest ++ l)); try done; try lia.
      { by destruct (init_words (ram_origin + (k + 2)) rest). }
      intros w' Hw''. apply holds_cons in Ha' as [_ Ha']. apply (IH rest (k + 2) (S a') w'); [lia|done|lia|zmod|done|done|].
      intros a'' w'' Ha'' Hw3. apply Hgo; [|done]. rewrite Ha'', Ea', !length_app. cbn [length]. lia.
Qed.

Lemma literal_nonempty r v l : literal r v ++ l ≠ [].
Proof. unfold literal, word. by destruct (_ || _). Qed.

(** A literal with something behind it. *)
Lemma goes_literal_more a r v w l :
  0 ≤ r < 15 → 0 ≤ v < 65536 → l ≠ [] → holds a (literal r v ++ l) →
  (holds (a + length (literal r v)) l → goes (a + length (literal r v))%nat (v_set r v w)) → goes a w.
Proof.
  intros Hr Hv Hl Hb Hgo. apply holds_app in Hb as [H1 H2]. apply (goes_literal P a r v w); [done..| |by apply Hgo].
  destruct l as [|x l]; [done|]. apply holds_cons in H2 as [-> _]. eauto.
Qed.

Lemma goes_image a w l :
  holds a (init_image ram_origin image ++ l) → l ≠ [] → length (v_regs w) = 15%nat → v_reg w 10 = stack → v_bank w = bank →
  (∀ i, byte_at (v_ram w) i = byte_at before i) →
  (∀ a' w', a' = (a + length (init_image ram_origin image))%nat → Filling n w' → goes a' w') → goes a w.
Proof.
  intros Hb Hl Hlen Hs Hbk Hram Hgo. destruct (decide (image = [])) as [Ei|Hne].
  { apply Hgo; [rewrite Ei; cbn; lia|]. split; try done. intros i. rewrite Hram, Ei. unfold inside. rewrite zlen_nil.
    by replace (_ && _) with false by lia. }
  assert (init_image ram_origin image =
    literal 0 0 ++ literal 1 ram_origin ++ literal 2 (u16 n) ++ [61; 49; 209; 226; 8; 250; 1] ++ init_words ram_origin image) as Eimg
    by (by destruct image).
  rewrite Eimg in Hb, Hgo. rewrite <- !app_assoc in Hb.
  assert (0 < n) as Hn by (destruct image as [|x l']; [done|]; rewrite zlen_cons; pose proof (zlen_nonneg l'); lia).
  eapply (goes_literal_more a 0 0 w); [lia|lia| |exact Hb|]; [apply literal_nonempty|intros Hb1].
  eapply (goes_literal_more _ 1 ram_origin); [lia|done| |exact Hb1|]; [apply literal_nonempty|intros Hb2].
  eapply (goes_literal_more _ 2 (u16 n)); [lia|apply u16_range| |exact Hb2|]; [done|intros Hb3].
  set (w3 := v_set 2 (u16 n) (v_set 1 ram_origin (v_set 0 0 w))).
  set (a3 := (a + length (literal 0 0) + length (literal 1 ram_origin) + length (literal 2 (u16 n)))%nat) in *.
  assert (Clearing 0 w3) as Hc.
  { set (w1 := v_set 0 0 w). set (w2 := v_set 1 ram_origin w1).
    assert (length (v_regs w1) = 15%nat) as L1 by (unfold w1; by rewrite v_set_length).
    assert (length (v_regs w2) = 15%nat) as L2 by (unfold w2; by rewrite v_set_length).
    split; unfold w3; fold w1; fold w2.
    - by rewrite v_set_length.
    - rewrite v_reg_set_ne by lia. unfold w2. rewrite v_reg_set_ne by lia. unfold w1. by rewrite v_reg_set_eq by (done || lia).
    - rewrite v_reg_set_ne by lia. unfold w2. rewrite v_reg_set_eq by (done || lia). f_equal. lia.
    - rewrite v_reg_set_eq by (done || lia). rewrite (uwrap_small _ (u16 n)) by apply u16_range. f_equal. lia.
    - rewrite v_reg_set_ne by lia. unfold w2. rewrite v_reg_set_ne by lia. unfold w1. by rewrite v_reg_set_ne by lia.
    - done.
    - intros i. change (v_ram (v_set 2 (u16 n) w2)) with (v_ram w). rewrite Hram. unfold inside. by replace (_ && _) with false by lia. }
  apply holds_app in Hb3 as [Hb3 Hb4]. cbn [length] in Hb4.
  assert (is_Some (code !! (a3 + 7)%nat)) as Hsome.
  { destruct (init_words ram_origin image ++ l) as [|x k] eqn:E; [by apply app_eq_nil in E as [_ ?]|]. apply holds_cons in Hb4 as [-> _]. eauto. }
  apply (goes_clear a3 Hb3 Hsome) with (rest := Nat.pred (Z.to_nat n)) (k := 0); [|lia|lia|exact Hc].
  intros w4 Hw4. apply (goes_fill l Hl (S (length image)) image 0 (a3 + 7)%nat w4); try lia.
  - by rewrite drop_0.
  - done.
  - by rewrite Z.add_0_r.
  - by apply Clearing_filling.
  - intros a' w' Ha' Hw'. rewrite Z.add_0_r in Ha'. apply Hgo; [|done]. rewrite Ha'. unfold a3. rewrite !length_app. cbn [length]. lia.
Qed.

Lemma goes_prologue a w l :
  holds a (literal 0 bank ++ [62; 223] ++ literal 10 stack ++ init_image ram_origin image ++ l) → l ≠ [] →
  length (v_regs w) = 15%nat → (∀ i, byte_at (v_ram w) i = byte_at before i) →
  (∀ a' w', a' = (a + length (literal 0 bank ++ [62%Z; 223%Z] ++ literal 10 stack ++ init_image ram_origin image))%nat →
     Filling n w' → goes a' w') → goes a w.
Proof.
  intros Hb Hl Hlen Hram Hgo.
  eapply (goes_literal_more a 0 bank w); [lia|lia| |exact Hb|]; [done|intros Hb1].
  set (w1 := v_set 0 bank w). assert (length (v_regs w1) = 15%nat) as L1 by (unfold w1; by rewrite v_set_length).
  assert (Z.land (v_reg w1 0) 1 = bank) as Hbit.
  { unfold w1. rewrite v_reg_set_eq, uwrap_small by (done || lia). rewrite (land_mask 1) by lia. zmod. }
  apply (holds_app _ [62; 223]) in Hb1 as [Hr Hb2]. rewrite !holds_cons in Hr. destruct Hr as (H0 & H1 & _). cbn [length] in Hb2.
  set (b := (a + length (literal 0 bank))%nat) in *.
  assert (is_Some (code !! S (S b))) as Hsome.
  { replace (S (S b)) with (b + 2)%nat by lia.
    destruct (literal 10 stack ++ init_image ram_origin image ++ l) as [|x k] eqn:E; [by apply literal_nonempty in E|].
    apply holds_cons in Hb2 as [-> _]. eauto. }
  eapply (goes_performs P b 62); [done|eauto|done|apply performs_alt2|].
  eapply (goes_performs P (S b) 223); [done|done|done|apply performs_ramb|]. rewrite Hbit.
  replace (b + 2)%nat with (S (S b)) in Hb2 by lia.
  apply (goes_literal_more (S (S b)) 10 stack (v_with_bank bank w1) (init_image ram_origin image ++ l)); [lia|done| |done|].
  { by destruct (init_image ram_origin image). }
  intros Hb3. eapply (goes_image _ _ l Hb3 Hl).
  - by rewrite v_set_length.
  - rewrite v_reg_set_eq by (done || lia). by rewrite uwrap_small.
  - done.
  - done.
  - intros a' w' -> Hw'. apply Hgo; [|done]. unfold b. rewrite !length_app. cbn [length]. lia.
Qed.
End Image.

(** The startup code with the address of the entry patched in. *)
Definition patched (i : RuntimeInitialization) (entry : Z) : list Z :=
  <[Z.to_nat (entry_patch i + 1) := u8 (Z.shiftr entry 8)]> (<[Z.to_nat (entry_patch i) := u8 entry]> (bytes i)).

Lemma patched_eq bank stack ram_origin image i entry :
  makeRuntimeInitialization bank stack ram_origin image = Ok i →
  (bank ≤ 1 ∧ zlen image ≤ 65536 - ram_origin ∧ ram_origin mod 2 = 0) ∧
  patched i entry = (literal 0 bank ++ [62; 223] ++ literal 10 stack ++ init_image ram_origin image) ++ word 15 entry ++ [1].
Proof.
  unfold makeRuntimeInitialization. intros H. apply result_bind_ok in H as ([] & Hc%throw_if_ok & <-%Ok_inj).
  bool_facts. rewrite (land_mask 1) in * by lia. change (2 ^ 1) with 2 in *. split; [lia|].
  unfold patched. cbn [bytes entry_patch]. set (p := literal 0 bank ++ _).
  assert (Z.to_nat (zlen p + 1) = (length p + 1)%nat ∧ Z.to_nat (zlen p + 1 + 1) = (length p + 2)%nat) as [-> ->]
    by (unfold zlen; lia).
  rewrite insert_app_r, insert_app_r. done.
Qed.

(** A payload that starts with the startup code boots. *)
Lemma boots bank stack ram_origin image i t m :
  makeRuntimeInitialization bank stack ram_origin image = Ok i →
  0 ≤ bank → 0 ≤ stack < 65536 → 0 ≤ ram_origin < 65536 → bytes_ok image →
  holds 0 (patched i (origin + Z.of_nat t)) → is_Some (code !! t) →
  (∀ j, 0 ≤ j < zlen image → ¬ occupied code origin program_bank (bank * 65536 + ram_origin + j)) →
  Ready code origin program_bank rom 0 plain m →
  runs step (λ m', Ready code origin program_bank rom t plain m' ∧ reg m' 10 = stack ∧ ram_bank m' = bank ∧
    ∀ j, byte_at (ram m') j =
      if (bank * 65536 + ram_origin <=? j) && (j <? bank * 65536 + ram_origin + zlen image)
      then default 0 (image !! Z.to_nat (j - (bank * 65536 + ram_origin))) else byte_at (ram m) j) m.
Proof.
  intros Hi Hb Hs Hr Himg Hc Ht Hfree Hm. destruct (patched_eq bank stack ram_origin image i (origin + Z.of_nat t) Hi) as [(Hb1 & Hsz & Hev) E].
  rewrite E, <- !app_assoc in Hc.
  set (P := λ m', _). assert (∀ w', Filling bank stack ram_origin image (ram m) (zlen image) w' →
    goes_with code origin program_bank rom P t plain w') as Hend.
  { intros w' Hw' m' Hm' Hv. apply runs_done. split; [done|]. destruct Hw' as [_ F1 F2 F3]. subst w'.
    rewrite view_reg in F1 by lia. split; [done|]. split; [done|]. intros j. specialize (F3 j).
    unfold view in F3. cbn [v_ram] in F3. rewrite F3. unfold inside, image_byte, ram_base. by destruct (_ && _). }
  eapply (goes_prologue bank stack ram_origin image (ram m)) with (w := view m) (a := 0%nat) (l := word 15 (origin + Z.of_nat t) ++ [1]); try done; try lia.
  - intros j Hj. unfold ram_base in Hj. replace j with (bank * 65536 + ram_origin + (j - (bank * 65536 + ram_origin))) by lia. apply Hfree. lia.
  - cbn [view v_regs]. rewrite length_take, (rd_regs _ _ _ _ _ _ _ Hm). done.
  - intros a' w' -> Hw'. apply (goes_jump P _ t); [|done|by apply Hend].
    do 4 apply holds_app in Hc as [_ Hc]. rewrite !length_app. by rewrite !Nat.add_assoc in *.
Qed.
End Boot.
