(* ===== verification/Boot.v ===== *)
(** * Boot: a linked program on the machine

    Puts the linker and the machine together: the payload of a program linked
    with [--init-runtime], loaded at its address, boots.  The machine is the one
    of the repository's tests; the payload is loaded the way its constructor
    does. *)

From S2P Require Import Prelude Target Object Startup Link LinkSound Machine MachineRun StartupRun.

(* ------------------------------------------------------------------ *)
(** ** Loading *)

Lemma foldM_ext {A S} (f g : S → A → result S) l : (∀ s x, x ∈ l → f s x = g s x) → ∀ s, foldM f s l = foldM g s l.
Proof.
  intros H. induction l as [|x l IH]; intros s; cbn [foldM]; [done|]. rewrite H by left.
  destruct (g s x); cbn [mbind result_mbind result_bind]; [|done]. apply IH. intros s' y Hy. apply H. by right.
Qed.

Lemma poke_all size (f : nat → Z) l : ∀ s m,
  (∀ i, (s ≤ i < s + length l)%nat → 0 ≤ f i < size) →
  (∀ i j, (s ≤ i < s + length l)%nat → (s ≤ j < s + length l)%nat → f i = f j → i = j) →
  ∃ m', foldM (λ m ib, poke size m (f ib.1) ib.2) m (zip (seq s (length l)) l) = Ok m' ∧
    (∀ k b, l !! k = Some b → m' !! f (s + k)%nat = Some (u8 b)) ∧
    (∀ j, (∀ k, (s ≤ k < s + length l)%nat → f k ≠ j) → m' !! j = m !! j).
Proof.
  induction l as [|b l IH]; intros s m Hr Hinj; cbn [length seq zip zip_with foldM].
  - exists m. split; [done|]. split; [done|]. intros; done.
  - cbn [length] in Hr, Hinj. cbn [fst snd]. rewrite poke_ok by (apply Hr; lia).
    cbn [mbind result_mbind result_bind].
    destruct (IH (S s) (<[f s := u8 b]> m)) as (m' & -> & Hin & Hout).
    { intros i Hi. apply Hr. lia. }
    { intros i j Hi Hj. apply Hinj; lia. }
    exists m'. split; [done|]. split.
    + intros [|k] x Hx; cbn in Hx.
      * injection Hx as ->. rewrite Nat.add_0_r, Hout; [by rewrite lookup_insert_eq|].
        intros k Hk E. apply Hinj in E; lia.
      * rewrite <- Nat.add_succ_comm. by apply Hin.
    + intros j Hj. rewrite Hout by (intros; apply Hj; lia). apply lookup_insert_ne. apply Hj. lia.
Qed.

Section Load.
Context (code : list Z) (start : Z).
Notation origin := (start mod 65536).
Notation bank := (start / 65536).
Hypothesis Hstart : 0 ≤ start.
Hypothesis Hfits : Fits code origin bank.
Hypothesis Hcode : code ≠ [].

(** Where the constructor puts a byte of the payload. *)
Definition slot (i : nat) : Z :=
  if bank <? 0x40 then bank * 32768 + (origin + Z.of_nat i) - 0x8000
  else if bank <=? 0x5f then (bank - 0x40) * 65536 + (origin + Z.of_nat i)
  else (bank - 0x70) * 65536 + (origin + Z.of_nat i).

Lemma slot_rom i : (i < length code)%nat → in_ram bank = false →
  romIndex (Z.lor (Z.shiftl bank 16) (origin + Z.of_nat i)) = Ok (slot i) ∧ 0 ≤ slot i < RomSize.
Proof.
  intros Hi Hr. pose proof (fit_size _ _ _ Hfits) as Hs. unfold zlen in Hs.
  pose proof (fit_origin _ _ _ Hfits). unfold in_ram in Hr. unfold romIndex, slot.
  rewrite shiftl_16, lor_fields_16 by lia. rewrite shiftr_16, land_65535.
  replace ((bank * 65536 + (origin + Z.of_nat i)) / 65536) with bank by zmod.
  replace ((bank * 65536 + (origin + Z.of_nat i)) mod 65536) with (origin + Z.of_nat i) by zmod.
  unfold RomSize.
  destruct (fit_bank _ _ _ Hfits) as [[? ?]|[?|[Eb|Eb]]]; [| |by rewrite Eb in Hr..].
  - replace ((bank <? 64) && (32768 <=? origin + Z.of_nat i)) with true by lia.
    replace (bank <? 64) with true by lia. split; [done|lia].
  - replace ((bank <? 64) && (32768 <=? origin + Z.of_nat i)) with false by lia.
    replace ((64 <=? bank) && (bank <=? 95)) with true by lia.
    replace (bank <? 64) with false by lia. replace (bank <=? 95) with true by lia. split; [done|lia].
Qed.

Lemma slot_ram i : (i < length code)%nat → in_ram bank = true →
  slot i = (bank - 0x70) * 65536 + origin + Z.of_nat i ∧ 0 ≤ slot i < RamSize.
Proof.
  intros Hi Hr. pose proof (fit_size _ _ _ Hfits) as Hs. unfold zlen in Hs. pose proof (fit_origin _ _ _ Hfits).
  unfold in_ram in Hr. unfold slot, RamSize.
  replace (bank <? 64) with false by lia. replace (bank <=? 95) with false by lia. split; lia.
Qed.

Lemma slot_inj i j : slot i = slot j → i = j.
Proof. unfold slot. destruct (bank <? 64), (bank <=? 95); lia. Qed.

(** The machine [load] makes. *)
Record Loaded (sp : Z) (m : Machine) (rom : Memory) : Prop := {
  ld_resident : resident code origin bank rom m;
  ld_registers : length (registers m) = 16%nat;
  ld_pc : reg m 15 = origin;
  ld_pipeline : pipeline m = 1;
  ld_selectors : selectors m = plain;
  ld_icache : icache m = cold_cache
}.

Lemma cold_cached : Cached code origin cold_cache.
Proof.
  split; [done..|]. intros a b o Ha Ho Hlt Hv. cbn [cold_cache cache_valid] in Hv.
  by apply lookup_replicate in Hv as [? _].
Qed.

Lemma load_ok sp ram_bank : ∃ m rom, load code start sp ram_bank = Ok (m, rom) ∧ Loaded sp m rom.
Proof.
  pose proof (fit_size _ _ _ Hfits). pose proof (fit_origin _ _ _ Hfits).
  unfold load. unfold uwrap. change (2 ^ 16) with 65536. rewrite shiftr_16.
  rewrite bool_decide_false by done. replace (65536 - origin <? zlen code) with false by lia.
  cbn [orb]. rewrite throw_if_false. cbn [mbind result_mbind result_bind]. fold (in_ram bank).
  destruct (in_ram bank) eqn:Hr.
  - destruct (poke_all RamSize slot code 0 ∅) as (r & Hpoke & Hin & _).
    { intros i Hi. apply slot_ram; [lia|done]. }
    { intros i j _ _. apply slot_inj. }
    assert (place RamSize ∅ ((bank - 112) * 65536 + origin) code = Ok r) as ->.
    { rewrite <- Hpoke. unfold place, indexed. apply foldM_ext. intros m' [i b] Hib. cbn [fst snd].
      apply elem_of_indexed, lookup_lt_Some in Hib. by destruct (slot_ram i Hib Hr) as [-> _]. }
    cbn [mbind result_mbind result_bind]. eexists _, _. split; [done|]. split; try done.
    intros a b Ha. unfold programByte. fold (in_ram bank). rewrite Hr. cbn [ram].
    destruct (slot_ram a (lookup_lt_Some _ _ _ Ha) Hr) as [E Hb]. rewrite Z.add_assoc, <- E, peek_ok by done.
    specialize (Hin a b Ha). rewrite Nat.add_0_l in Hin. rewrite Hin. cbn. f_equal. apply uwrap_small. by destruct (code_size _ _ _ Hfits _ _ Ha).
  - destruct (poke_all RomSize slot code 0 ∅) as (r & Hpoke & Hin & _).
    { intros i Hi. apply slot_rom; [lia|done]. }
    { intros i j _ _. apply slot_inj. }
    cbn [mbind result_mbind result_bind].
    assert (foldM (λ m ib, let '(i, b) := ib in
           j ← romIndex (Z.lor (Z.shiftl bank 16) (origin + Z.of_nat i)); poke RomSize m j b) ∅ (indexed code) = Ok r) as ->.
    { rewrite <- Hpoke. unfold indexed. apply foldM_ext. intros m' [i b] Hib. cbn [fst snd].
      apply elem_of_indexed, lookup_lt_Some in Hib. by destruct (slot_rom i Hib Hr) as [-> _]. }
    cbn [mbind result_mbind result_bind]. eexists _, _. split; [done|]. split; try done.
    intros a b Ha. unfold programByte. fold (in_ram bank). rewrite Hr.
    destruct (slot_rom a (lookup_lt_Some _ _ _ Ha) Hr) as [E Hb]. rewrite E. cbn [mbind result_mbind result_bind].
    rewrite peek_ok by done. specialize (Hin a b Ha). rewrite Nat.add_0_l in Hin. rewrite Hin. cbn. f_equal. apply uwrap_small. by destruct (code_size _ _ _ Hfits _ _ Ha).
Qed.
End Load.

(** The first round executes the NOP the pipeline starts with. *)
Lemma boot_start code start sp m rom b : 0 ≤ start → Fits code (start mod 65536) (start / 65536) →
  Loaded code start sp m rom → code !! 0%nat = Some b →
  ∃ m', step code (start mod 65536) (start / 65536) rom m = Ok (false, m') ∧
    Ready code (start mod 65536) (start / 65536) rom 0 plain m' ∧ Keeps m m'.
Proof.
  intros Hs Hf [Hres Hlen Hpc Hpipe Hsel Hic] Hb.
  destruct (step_nop_first code _ _ rom Hf m 0 b) as (m' & Hstep & Hr & Hk); try done.
  - split; [done|]. rewrite Hic. apply cold_cached.
  - rewrite Hpc. cbn. lia.
  - exists m'. split; [done|]. split; [done|]. split; try apply Hk. by rewrite (kp_selectors _ _ Hk), Hsel.
Qed.

(* ------------------------------------------------------------------ *)
(** ** The bytes of a linked payload *)

Lemma writes_bytes img ws : bytes_ok img → Forall (λ w, byte_ok w.2) ws → bytes_ok (writes img ws).
Proof.
  revert img. induction ws as [|w ws IH]; intros img Hi Hw; [done|]. apply Forall_cons in Hw as [H1 H2].
  apply IH; [|done]. by apply Forall_insert.
Qed.

Lemma land_255_byte x : byte_ok (Z.land x 255).
Proof. rewrite land_255. unfold byte_ok. apply Z.mod_pos_bound. lia. Qed.

Lemma object_writes_bytes o l floor ic objects bs :
  Forall (λ w : nat * Z, byte_ok w.2) (mjoin (zip_with (object_writes o l floor ic) objects bs)).
Proof.
  apply Forall_forall. intros w (ws & Hw & (i & Hi)%list_elem_of_lookup)%list_elem_of_join.
  apply lookup_zip_with_Some in Hi as (obj & b & -> & _). unfold object_writes in Hw.
  apply list_elem_of_join in Hw as (ws & Hw & (r & -> & _)%list_elem_of_fmap).
  unfold reloc_writes in Hw. destruct (Bool.eqb _ _); [|by apply elem_of_nil in Hw].
  unfold patch_writes in Hw. destruct (r_type r);
    repeat (apply elem_of_cons in Hw as [->|Hw]; [apply land_255_byte|]); by apply elem_of_nil in Hw.
Qed.

Lemma replicate_bytes k b : byte_ok b → bytes_ok (replicate k b).
Proof. intros. by apply Forall_replicate. Qed.

Lemma literal_bytes r v : 0 ≤ r < 16 → bytes_ok (literal r v).
Proof.
  intros Hr. unfold literal, word. assert (byte_ok (Z.lor 160 r) ∧ byte_ok (Z.lor 240 r)) as [H1 H2].
  { unfold byte_ok. each_register Hr; vm_compute; repeat split; done. }
  destruct (_ || _); repeat constructor; try apply H1; try apply H2; apply u8_range.
Qed.

Lemma init_words_bytes : ∀ size address image, (length image < size)%nat → bytes_ok (init_words address image).
Proof.
  induction size as [|size IH]; intros address image Hs; [lia|]. destruct image as [|low [|high rest]]; cbn [init_words]; [constructor| |].
  - destruct (low =? 0); [constructor|]. rewrite !bytes_ok_app. split_and!; [by apply literal_bytes..|].
    repeat constructor; unfold byte_ok; lia.
  - apply bytes_ok_app. cbn [length] in Hs. split; [|apply IH; lia].
    destruct (_ && _); [constructor|]. rewrite !bytes_ok_app. split_and!; [by apply literal_bytes..|].
    repeat constructor; unfold byte_ok; lia.
Qed.

Lemma startup_bytes bank stack ram_origin image i :
  makeRuntimeInitialization bank stack ram_origin image = Ok i → bytes_ok (bytes i).
Proof.
  unfold makeRuntimeInitialization. intros H. apply result_bind_ok in H as ([] & _ & <-%Ok_inj). cbn [bytes].
  assert (∀ l, forallb (λ b, (0 <=? b) && (b <? 256)) l = true → bytes_ok l) as Hc.
  { intros l Hl. apply Forall_forall. intros x Hx%list_elem_of_In. rewrite forallb_forall in Hl.
    specialize (Hl x Hx). unfold byte_ok. lia. }
  rewrite !bytes_ok_app. split_and!; try (by apply literal_bytes); try (by apply Hc).
  unfold init_image. destruct image as [|x image]; [constructor|]. rewrite !bytes_ok_app.
  split_and!; try (by apply literal_bytes); [by apply Hc|].
  by apply (init_words_bytes (S (length (x :: image)))), Nat.lt_succ_diag_r.
Qed.

Lemma place_code_bytes o config s obj s' : wf obj → bytes_ok s.1.1 → place_code o config s obj = Ok s' → bytes_ok s'.1.1.
Proof.
  destruct s as [[code bases] t]. intros Hw Hb H. unfold place_code in H.
  apply result_bind_ok in H as (al & _ & H). cbv zeta in H. apply result_bind_ok in H as ([] & _ & H).
  apply result_bind_ok in H as (t' & _ & <-%Ok_inj). cbn [fst]. rewrite !bytes_ok_app. split_and!; [done| |apply Hw].
  by apply replicate_bytes.
Qed.

Lemma place_data_bytes start s obj s' : wf obj → bytes_ok s.1 → place_data start s obj = Ok s' → bytes_ok s'.1.
Proof.
  destruct s as [data t]. intros Hw Hb H. unfold place_data in H. cbv zeta in H.
  apply result_bind_ok in H as (t' & _ & <-%Ok_inj). cbn [fst]. rewrite !bytes_ok_app. split_and!; [done| |apply Hw].
  by apply replicate_bytes.
Qed.

Lemma place_ram_bytes o s obj s' : wf obj → bytes_ok s.1 → place_ram o s obj = Ok s' → bytes_ok s'.1.
Proof.
  destruct s as [ram bases]. intros Hw Hb H. unfold place_ram in H. cbv zeta in H.
  apply result_bind_ok in H as ([] & _ & <-%Ok_inj). cbn [fst]. rewrite !bytes_ok_app. split_and!; [done| |apply Hw].
  by apply replicate_bytes.
Qed.

(** The table marks the entry as an instruction only when its definition is one. *)
Record EntryKnown (o : Options) (t : Symbols) : Prop := {
  ek_entry : entry_is_instruction t = true → code_targets t !! entry_name o = Some true;
  ek_defined n : is_Some (code_targets t !! n) → is_Some (final_addresses t !! n)
}.

Lemma define_ram_entry o base t s t' : EntryKnown o t → define_ram o base t s = Ok t' → EntryKnown o t'.
Proof.
  intros [H1 H2] H. unfold define_ram in H. destruct (_ || _); [by injection H as <-|].
  apply result_bind_ok in H as ([] & _ & H). apply result_bind_ok in H as (a & _ & <-%Ok_inj).
  split; cbn [entry_is_instruction code_targets final_addresses]; [done|]. intros n Hn. apply H2 in Hn.
  unfold emplace. destruct (final_addresses t !! s_name s) eqn:E; [done|]. apply lookup_insert_is_Some'. by right.
Qed.

Lemma define_data_entry o address t s t' : EntryKnown o t → define_data address t s = Ok t' → EntryKnown o t'.
Proof.
  intros [H1 H2] H. unfold define_data in H. destruct (_ || _); [by injection H as <-|].
  apply result_bind_ok in H as ([] & _ & H). apply result_bind_ok in H as (a & _ & <-%Ok_inj).
  split; cbn [entry_is_instruction code_targets final_addresses]; [done|]. intros n Hn. apply H2 in Hn.
  apply lookup_insert_is_Some'. by right.
Qed.

Lemma define_code_entry o obj address t s t' : EntryKnown o t → define_code o obj address t s = Ok t' → EntryKnown o t'.
Proof.
  intros [H1 H2] H. unfold define_code in H. destruct (_ || _); [by injection H as <-|].
  apply result_bind_ok in H as ([] & Hn%throw_if_ok & H). apply result_bind_ok in H as (a & _ & <-%Ok_inj).
  bool_facts. assert (code_targets t !! s_name s = None) as Hfresh.
  { destruct (code_targets t !! s_name s) eqn:E; [|done]. destruct Hn. apply H2. by rewrite E. }
  rewrite emplace_none by done. split; cbn [entry_is_instruction code_targets final_addresses].
  - intros He. destruct (bool_decide_reflect (s_name s = entry_name o)) as [->|Hne].
    + rewrite lookup_insert_eq. by rewrite He.
    + rewrite lookup_insert_ne by done. by apply H1.
  - intros n [->|[_ Hd]]%lookup_insert_is_Some; [rewrite lookup_insert_eq; eauto|].
    apply lookup_insert_is_Some'. right. by apply H2.
Qed.

(** What these facts say of a layout. *)
Lemma layout_bytes o config objects l : Forall wf objects → layout o config objects = Ok l →
  bytes_ok (l_code l) ∧ bytes_ok (l_data l) ∧ bytes_ok (l_ram l) ∧ EntryKnown o (l_symbols l).
Proof.
  intros Hw H. rewrite Forall_forall in Hw. unfold layout in H. apply result_bind_ok in H as ([ram ram_bases] & Hram & H).
  apply result_bind_ok in H as ([] & _ & H). apply result_bind_ok in H as ([] & _ & H).
  apply result_bind_ok in H as (startup & Hst & H). apply result_bind_ok in H as ([] & _ & H).
  apply result_bind_ok in H as (t0 & Ht0 & H).
  apply result_bind_ok in H as ([[code code_bases] t1] & Hcode & H). cbv zeta in H.
  apply result_bind_ok in H as (start & _ & H). apply result_bind_ok in H as ([data t2] & Hdata & H).
  apply result_bind_ok in H as ([] & _ & <-%Ok_inj). cbn [l_code l_data l_ram l_symbols].
  assert (bytes_ok ram) as Hram'.
  { refine (foldM_inv (λ s, bytes_ok s.1) _ _ _ _ _ _ Hram); [|constructor]. intros s x s' Hx Hs. apply place_ram_bytes; [by apply Hw|done]. }
  assert (bytes_ok (bytes startup)) as Hsb.
  { destruct (initialize_runtime o); [by eapply startup_bytes|]. injection Hst as <-. constructor. }
  assert (EntryKnown o t0) as He0.
  { refine (foldM_inv (EntryKnown o) _ _ _ _ _ _ Ht0).
    - intros t x t' _ Ht Hf. refine (foldM_inv (EntryKnown o) _ _ _ _ _ Ht Hf). intros t3 s t4 _. apply define_ram_entry.
    - split; cbn; [done|]. intros n. rewrite lookup_empty. by intros [? [=]]. }
  assert (bytes_ok code ∧ EntryKnown o t1) as [Hc' He1].
  { refine (foldM_inv (λ s, bytes_ok s.1.1 ∧ EntryKnown o s.2) _ _ (bytes startup, [], t0) (code, code_bases, t1) _ (conj Hsb He0) Hcode).
    intros [[c b] t] obj s' Hx [Hs He] Hp. split; [eapply place_code_bytes; [by apply Hw| |exact Hp]; done|].
    unfold place_code in Hp. apply result_bind_ok in Hp as (al & _ & Hp). cbv zeta in Hp. apply result_bind_ok in Hp as ([] & _ & Hp).
    apply result_bind_ok in Hp as (t' & Hd & <-%Ok_inj). cbn [snd] in *.
    refine (foldM_inv (EntryKnown o) _ _ _ _ _ He Hd). intros t3 s t4 _. apply define_code_entry. }
  assert (bytes_ok []) as Hnil by constructor.
  assert (bytes_ok data ∧ EntryKnown o t2) as [Hd' He2].
  { refine (foldM_inv (λ s, bytes_ok s.1 ∧ EntryKnown o s.2) _ _ ([], t1) (data, t2) _ (conj Hnil He1) Hdata).
    intros [c t] obj s' Hx [Hs He] Hp. split; [eapply place_data_bytes; [by apply Hw| |exact Hp]; done|].
    unfold place_data in Hp. cbv zeta in Hp.
    apply result_bind_ok in Hp as (t' & Hd & <-%Ok_inj). cbn [snd] in *.
    refine (foldM_inv (EntryKnown o) _ _ _ _ _ He Hd). intros t3 s t4 _. apply define_data_entry. }
  split_and!; try done. apply bytes_ok_app. split; [done|]. by apply replicate_bytes.
Qed.

(* ------------------------------------------------------------------ *)
(** ** The linked payload *)

(** What [patch_entry] does when the program initialises the runtime. *)
Lemma patch_entry_ok o l code : initialize_runtime o = true → patch_entry o l = Ok code →
  ∃ entry, final_addresses (l_symbols l) !! entry_name o = Some entry ∧ final_sections (l_symbols l) !! entry_name o = Some CODE ∧
    entry_is_instruction (l_symbols l) = true ∧ entry / 65536 = code_start_address (l_config l) / 65536 ∧
    code = <[Z.to_nat (entry_patch (l_startup l) + 1) := u8 (Z.shiftr entry 8)]>
             (<[Z.to_nat (entry_patch (l_startup l)) := u8 entry]> (l_code l)).
Proof.
  unfold patch_entry. intros -> H. cbn [negb] in H. destruct (final_addresses _ !! _) as [entry|]; [|done].
  apply result_bind_ok in H as (sec & Hs & H). apply result_bind_ok in H as ([] & Hc%throw_if_ok & H). cbv zeta in H.
  apply result_bind_ok in H as ([] & Hn%validateNearTarget_bank & H).
  apply result_bind_ok in H as (c1 & [_ ->]%set_at_ok & H). apply result_bind_ok in H as (c2 & [_ ->]%set_at_ok & H).
  apply result_bind_ok in H as ([] & _ & <-%Ok_inj). exists entry. bool_facts. subst sec.
  unfold map_at in Hs. destruct (final_sections _ !! _); [|done]. injection Hs as ->. by split_and!.
Qed.

(** The entry is a byte of the payload's code. *)
Lemma entry_in_code o objects k entry : LinkOk o objects k → EntryKnown o (l_symbols (k_layout k)) →
  final_addresses (l_symbols (k_layout k)) !! entry_name o = Some entry →
  final_sections (l_symbols (k_layout k)) !! entry_name o = Some CODE →
  entry_is_instruction (l_symbols (k_layout k)) = true → Forall wf objects →
  0 ≤ entry - code_start_address (l_config (k_layout k)) < zlen (l_code (k_layout k)).
Proof.
  intros HK He Ha Hsec Hi Hw. pose proof (lk_layout _ _ _ HK) as HL. pose proof (lo_table _ _ _ HL) as HT.
  destruct (tb_sound _ _ HT _ _ Ha) as (sec & ins & Hin).
  pose proof (ek_entry _ _ He Hi) as Hct.
  pose proof Hin as (i & obj & b & s & Ho & Hb & Hs & Hl & En & -> & -> & Ei)%(elem_of_program_defs _ _ _ _ _ _ _ HL).
  pose proof (tb_complete _ _ HT _ _ _ _ Hin) as [_ Hse]. rewrite Hsec in Hse. injection Hse as Es. symmetry in Es.
  pose proof Hin as Hin'. rewrite Es in Hin'. apply (tb_targets _ _ HT) in Hin'. rewrite Hct in Hin'. injection Hin' as <-.
  rewrite Es in Ei. cbn in Ei.
  unfold global_address, section_address. rewrite Es.
  destruct (object_section_bound _ _ _ true _ _ _ HK Ho Hb) as [Hb0 Hbd]. cbn [patch_base patched_section layout_image] in *.
  rewrite Forall_forall in Hw. assert (wf obj) as Hwo by (eapply Hw, list_elem_of_lookup_2; exact Ho).
  pose proof (wf_symbols _ Hwo) as Hsy. rewrite Forall_forall in Hsy. specialize (Hsy s Hs). cbv beta in Hsy. lia.
Qed.

(** The bytes in front of the objects' code are not relocated. *)
Lemma startup_kept o objects k code p : Forall wf objects → Forall Valid objects → LinkOk o objects k →
  k_code k = writes code (mjoin (zip_with (object_writes o (k_layout k) (k_floor k) true)
               objects (object_bases (k_layout k) objects))) →
  Z.of_nat p < zlen (bytes (l_startup (k_layout k))) → k_code k !! p = code !! p.
Proof.
  intros Hw Hv HK -> Hp. apply writes_other. intros (ws & Hws & Hin)%elem_of_join_fst.
  apply list_elem_of_lookup in Hws as (i & (obj & b & -> & Ho & Hb)%lookup_zip_with_Some).
  rewrite Forall_forall in Hw, Hv.
  destruct (object_section_bound _ _ _ true _ _ _ HK Ho Hb) as [Hb0 _].
  apply elem_of_object_writes in Hin as (r & _ & _ & _ & Hpos);
    [|by eapply Hv, list_elem_of_lookup_2|by eapply Hw, list_elem_of_lookup_2|done].
  pose proof (base_after_startup _ _ _ _ _ HK Hb). cbn [patch_base] in Hpos. lia.
Qed.

(** A linked payload can be executed where it is linked. *)
Lemma linked_fits o objects k : Forall wf objects → link o objects = Ok k → target (l_config (k_layout k)) = GSU →
  bytes_ok (final_rom k) ∧ 0 ≤ code_start_address (l_config (k_layout k)) →
  Fits (final_rom k) (code_start_address (l_config (k_layout k)) mod 65536) (code_start_address (l_config (k_layout k)) / 65536).
Proof.
  intros Hw HK%link_ok Ht [Hb Hs]. destruct (payload_in_bank _ _ _ HK Ht) as [Hsz Hreg].
  rewrite <- (final_rom_size _ _ _ HK) in Hsz. split; [zmod|done|done|].
  set (start := code_start_address _) in *. unfold MemoryMap.region, MemoryMap.bank in Hreg.
  rewrite shiftr_16, land_65535 in Hreg. destruct (16777215 <? start); [done|].
  destruct ((start / 65536 <=? 63) && (32768 <=? start mod 65536)) eqn:E1; cbn [orb] in Hreg; [left; zmod|right].
  destruct ((64 <=? start / 65536) && (start / 65536 <=? 95)) eqn:E2; [left; lia|right].
  destruct ((start / 65536 =? 112) || (start / 65536 =? 113)) eqn:E3; [lia|done].
Qed.

(** Runtime initialisation is for the GSU. *)
Lemma init_is_gsu o objects k : LinkOk o objects k → initialize_runtime o = true → target (l_config (k_layout k)) = GSU.
Proof.
  intros HK Hi. pose proof (lk_config _ _ _ HK) as H. unfold program_config in H. destruct objects as [|front rest]; [done|].
  apply result_bind_ok in H as ([] & _ & H). cbv zeta in H. apply result_bind_ok in H as ([] & _ & H).
  apply result_bind_ok in H as (c & _ & H). apply result_bind_ok in H as ([] & _ & H).
  apply result_bind_ok in H as ([] & Ht%throw_if_ok & <-%Ok_inj). rewrite Hi in Ht. cbn [andb] in Ht. by bool_facts.
Qed.

(** The linked payload starts with the startup code for its entry. *)
Lemma linked_startup o objects k : Forall wf objects → Forall Valid objects → LinkOk o objects k → initialize_runtime o = true →
  0 ≤ code_start_address (l_config (k_layout k)) →
  ∃ entry, final_addresses (l_symbols (k_layout k)) !! entry_name o = Some entry ∧
    holds (final_rom k) 0 (patched (l_startup (k_layout k)) (entry mod 65536)) ∧
    0 ≤ entry - code_start_address (l_config (k_layout k)) < zlen (final_rom k) ∧
    entry / 65536 = code_start_address (l_config (k_layout k)) / 65536.
Proof.
  intros Hw Hv HK Hi Hstart. pose proof (lk_layout _ _ _ HK) as HL. destruct (lk_code _ _ _ HK) as (code & Hp & Hkc).
  destruct (lk_laid _ _ _ HK) as (config & (_ & _ & _ & He)%(layout_bytes _ _ _ _ Hw)).
  destruct (patch_entry_ok o _ code Hi Hp) as (entry & Ha & Hs & Hins & Hbank & Hcode).
  exists entry. split; [done|].
  pose proof (entry_in_code o objects k entry HK He Ha Hs Hins Hw) as Hin.
  assert (zlen (l_code (k_layout k)) ≤ zlen (final_rom k)) as Hle.
  { rewrite (final_rom_size _ _ _ HK). unfold payload_size. pose proof (zlen_nonneg (l_data (k_layout k))). lia. }
  split; [|split; [lia|done]].
  destruct (lo_prefix _ _ _ HL) as [tail Htail].
  pose proof (lo_startup _ _ _ HL) as Hst. rewrite Hi in Hst.
  assert (zlen (bytes (l_startup (k_layout k))) = entry_patch (l_startup (k_layout k)) + 3 ∧ 0 ≤ entry_patch (l_startup (k_layout k))) as [Hsz Hep].
  { unfold makeRuntimeInitialization in Hst. apply result_bind_ok in Hst as ([] & _ & <-%Ok_inj). cbn [bytes entry_patch].
    set (p := literal 0 _ ++ _). rewrite zlen_app. change (zlen (word 15 0 ++ [1])) with 4. pose proof (zlen_nonneg p). lia. }
  assert (patched (l_startup (k_layout k)) (entry mod 65536) = patched (l_startup (k_layout k)) entry) as ->.
  { unfold patched. rewrite !shiftr_8. unfold uwrap. change (2 ^ 8) with 256. f_equal; [zmod|]. f_equal. zmod. }
  assert (code = patched (l_startup (k_layout k)) entry ++ tail) as Hct.
  { rewrite Hcode, Htail. unfold zlen in Hsz. unfold patched. rewrite insert_app_l by lia.
    rewrite insert_app_l by (rewrite length_insert; lia). done. }
  intros p b Hb. pose proof (lookup_lt_Some _ _ _ Hb) as Hlt. cbn [Nat.add].
  unfold final_rom. assert (length (patched (l_startup (k_layout k)) entry) = length (bytes (l_startup (k_layout k)))) as Hlp
    by (unfold patched; by rewrite !length_insert).
  assert (k_code k !! p = Some b) as Hkb.
  { rewrite (startup_kept o objects k code p Hw Hv HK Hkc) by (unfold zlen; lia). rewrite Hct. by apply lookup_app_l_Some. }
  by apply lookup_app_l_Some.
Qed.

Lemma linked_bytes o objects k : Forall wf objects → LinkOk o objects k → bytes_ok (final_rom k) ∧ bytes_ok (l_ram (k_layout k)).
Proof.
  intros Hw HK. destruct (lk_laid _ _ _ HK) as (config & (Hc & Hd & Hr & _)%(layout_bytes _ _ _ _ Hw)). split; [|done].
  destruct (lk_code _ _ _ HK) as (code & Hp & Hkc). unfold final_rom. apply bytes_ok_app. split.
  - rewrite Hkc. apply writes_bytes; [|apply object_writes_bytes]. unfold patch_entry in Hp.
    destruct (negb _); [by injection Hp as <-|]. destruct (final_addresses _ !! _); [|done].
    apply result_bind_ok in Hp as (sec & _ & Hp). apply result_bind_ok in Hp as ([] & _ & Hp). cbv zeta in Hp.
    apply result_bind_ok in Hp as ([] & _ & Hp).
    apply result_bind_ok in Hp as (c1 & [_ ->]%set_at_ok & Hp). apply result_bind_ok in Hp as (c2 & [_ ->]%set_at_ok & Hp).
    apply result_bind_ok in Hp as ([] & _ & <-%Ok_inj). apply Forall_insert; [apply Forall_insert; [done|]|]; apply u8_range.
  - rewrite (lk_data _ _ _ HK). apply writes_bytes; [done|apply object_writes_bytes].
Qed.

(** C19. A program linked with [--init-runtime] boots: its payload, loaded at its
    address on a machine in any state of its RAM bank and stack pointer, runs the
    startup code to the first instruction of the entry symbol, with the stack
    pointer and the RAM bank of the options, the initial image in static RAM,
    clear selectors, and every other RAM cell as it was. *)
Theorem link_boots (o : Options) (objects : list ObjectFile) (k : Linked) (sp bank0 : Z) :
  Forall wf objects → Forall Valid objects → options_wf o → link o objects = Ok k → initialize_runtime o = true →
  0 ≤ code_start_address (l_config (k_layout k)) →
  let start := code_start_address (l_config (k_layout k)) in
  let base := Link.ram_bank o * 65536 + ram_origin o in
  let image := l_ram (k_layout k) in
  ∃ entry m rom, final_addresses (l_symbols (k_layout k)) !! entry_name o = Some entry
    ∧ Machine.load (final_rom k) start sp bank0 = Ok (m, rom)
    ∧ runs (Machine.step (final_rom k) (start mod 65536) (start / 65536) rom) (λ m',
        Ready (final_rom k) (start mod 65536) (start / 65536) rom (Z.to_nat (entry - start)) plain m'
        ∧ reg m' 10 = stack_pointer o ∧ ram_bank m' = Link.ram_bank o
        ∧ ∀ j, byte_at (ram m') j =
            if (base <=? j) && (j <? base + zlen image) then default 0 (image !! Z.to_nat (j - base))
            else byte_at (ram m) j) m.
Proof.
  intros Hw Hv Ho Hk Hinit Hstart. cbv zeta. pose proof (link_ok _ _ _ Hk) as HK. pose proof (lk_layout _ _ _ HK) as HL.
  set (start := code_start_address _) in *.
  pose proof (init_is_gsu _ _ _ HK Hinit) as Ht. destruct (linked_bytes _ _ _ Hw HK) as [Hbr Hbi].
  pose proof (linked_fits o objects k Hw Hk Ht (conj Hbr Hstart)) as Hfits. fold start in Hfits.
  destruct (linked_startup _ _ _ Hw Hv HK Hinit Hstart) as (entry & Ha & Hholds & Hin & Hbank). fold start in Hin, Hbank.
  pose proof (static_ram_apart _ _ _ Ho HK) as Hram. pose proof (lo_startup _ _ _ HL) as Hst. rewrite Hinit in Hst.
  destruct Ho as (Hb & Hro & Hsp). rewrite (uwrap_small 8 (Link.ram_bank o)), (uwrap_small 16 (stack_pointer o)), (uwrap_small 16 (ram_origin o)) in Hst by lia.
  assert (final_rom k ≠ []) as Hne by (intros E; clear Hram; assert (zlen (final_rom k) = 0) by (by rewrite E); lia).
  destruct (load_ok (final_rom k) start Hfits Hne sp bank0) as (m & rom & Hload & Hloaded).
  exists entry, m, rom. split; [done|]. split; [done|].
  destruct (final_rom k !! 0%nat) as [b|] eqn:Hfirst; [|by destruct (final_rom k)].
  destruct (boot_start (final_rom k) start sp m rom b Hstart Hfits Hloaded Hfirst) as (m0 & Hstep & Hready & Hkeep).
  eapply runs_step; [exact Hstep|].
  set (t := Z.to_nat (entry - start)).
  assert (entry mod 65536 = start mod 65536 + Z.of_nat t) as Et by (unfold t; zmod).
  rewrite Et in Hholds.
  assert (is_Some (final_rom k !! t)) as Hsome by (apply lookup_lt_is_Some; unfold t; unfold zlen in Hin; lia).
  eapply runs_bind.
  - apply (boots (final_rom k) _ _ rom Hfits (Link.ram_bank o) (stack_pointer o) (ram_origin o) (l_ram (k_layout k)) _ t m0 Hst);
      [lia|lia|lia|done|done|done| |done].
    intros j Hj [Hir Hocc]. unfold in_ram in Hir. destruct Hram as [E|[Hd _]]; [assert (zlen (l_ram (k_layout k)) = 0) by (by rewrite E); lia|].
    unfold disjoint_ranges in Hd. rewrite shiftl_16 in Hd. rewrite (final_rom_size _ _ _ HK) in Hocc. unfold payload_size in *.
    pose proof (Z.div_mod start 65536 ltac:(lia)). fold start in Hd. lia.
  - intros m' (Hr & H10 & Hbk & Hmem). apply runs_done. split; [done|]. split; [done|]. split; [done|].
    intros j. rewrite Hmem. by rewrite (kp_ram _ _ Hkeep).
Qed.

Lemma link_boots_witness : ∃ k entry, link sample_options sample_objects = Ok k
  ∧ final_addresses (l_symbols (k_layout k)) !! entry_name sample_options = Some entry.
Proof.
  destruct sample_link as (k & Hk & _).
  destruct (link_boots sample_options sample_objects k 0 0 sample_objects_wf sample_objects_valid) as (entry & m & rom & Ha & _).
  - vm_compute. repeat split; discriminate.
  - exact Hk.
  - reflexivity.
  - vm_compute in Hk. injection Hk as <-. vm_compute. discriminate.
  - exists k, entry. split; [exact Hk|exact Ha].
Defined.
