(* ===== verification/AsmRun.v ===== *)
(** * AsmRun: what a lengthened branch does on the machine

    The assembler replaces a branch that does not reach by a jump, behind the
    branch on the opposite condition where the branch has one.  On the machine
    of [Machine] a branch and the byte behind it, its delay slot, do what the
    replacement and the same byte do if that byte is a NOP ([far_branch_runs]).
    If it is not, they may differ: the short branch executes its delay slot when it
    is taken, the replacement does not ([lengthening_drops_slot]). *)

From S2P Require Import Prelude Target Object AsmText Encode EncodeSound Assembler AsmSound Startup Machine MachineRun StartupRun Boot.

(** The template with the address of its label, as the linker patches an [IWT]. *)
Definition linked (t : Template) (address : Z) : list Z :=
  match t_relocations t with
  | [r] => <[Z.to_nat (patch_offset r + 1) := u8 address]>
             (<[Z.to_nat (patch_offset r + 2) := u8 (Z.shiftr address 8)]> (t_bytes t))
  | _ => t_bytes t
  end.

(** The template with the displacement of its branch, as [resolveBranches] patches it. *)
Definition displaced (t : Template) (displacement : Z) : list Z :=
  match t_fixups t with
  | [x] => <[Z.to_nat (f_patch x) := u8 displacement]> (t_bytes t)
  | _ => t_bytes t
  end.

Lemma signed8_distance d : -128 ≤ d ≤ 127 → signed8 (u8 d) = d.
Proof.
  intros H. unfold signed8, uwrap. change (2 ^ 8) with 256. destruct (Z_lt_le_dec d 0).
  - replace (d mod 256) with (d + 256) by (rewrite <-(Z_mod_plus_full d 1 256), Z.mod_small; lia). case_match; lia.
  - rewrite Z.mod_small by lia. case_match; lia.
Qed.

(** What the encoder makes of a branch. *)
Lemma encode_branch_template line relaxed opcode o n :
  assoc (operation line) branches = Some opcode → encodeInstruction line relaxed start = Ok (o, n) →
  template_of o = branch_template line relaxed opcode ∧ n = size (branch_template line relaxed opcode).
Proof.
  intros Hop He. unfold encodeInstruction in He. rewrite Hop in He.
  assert (line_section line = SecCode ∧ zlen (operands line) = 1) as [Hs Hn].
  { unfold encodeBranch, requireOperands, operand_count in He. destruct (Z.eqb_spec (zlen (operands line)) 1); [|done].
    cbn [negb mbind result_mbind result_bind] in He. by destruct (bool_decide_reflect (line_section line = SecCode)). }
  rewrite (encodeBranch_template _ _ _ Hop _ Hs Hn) in He. injection He as <- <-. split; [|done].
  unfold branch_template. by repeat case_bool_decide.
Qed.

Section Run.
Context (code : list Z) (origin program_bank : Z) (rom : Memory) (fits : Fits code origin program_bank).
Notation step := (step code origin program_bank rom).
Notation Ready := (Ready code origin program_bank rom).
Notation holds := (holds code).

Lemma keeps_reset m m' : selectors m = plain → Keeps (resetSelectors m) m' → Keeps m m'.
Proof. intros Hs. replace (resetSelectors m) with m; [done|]. unfold resetSelectors. rewrite <-Hs. by destruct m. Qed.

(** [IWT R15] and the NOP behind it. *)
Lemma jump_runs m a t :
  Ready a plain m → holds a (word 15 (origin + Z.of_nat t) ++ [1]) → is_Some (code !! t) →
  runs step (λ m', Keeps m m' ∧ Ready t plain m') m.
Proof.
  intros Hm [Hw Hn]%holds_app Ht. cbn in Hn. rewrite holds_cons in Hn. destruct Hn as [Hn _].
  destruct (step_jump code origin program_bank rom fits m a 1 t Hm Hw Hn Ht) as (m1 & Hs1 & Hk1 & Hd1).
  destruct (step_delay_nop code origin program_bank rom fits m1 _ t plain Hd1 Hn Ht) as (m2 & Hs2 & Hr2 & Hk2).
  eapply runs_step; [exact Hs1|]. eapply runs_step; [exact Hs2|]. apply runs_done. split; [|done].
  eapply Keeps_trans; [done|]. eapply keeps_reset; [|done]. by apply Hd1.
Qed.

(** [Keeps] but for the selectors, which the NOPs reset. *)
Lemma keeps_reset_trans m m1 m2 : Keeps m m1 → Keeps (resetSelectors m1) m2 → Keeps (resetSelectors m) m2.
Proof.
  intros H1 H2. eapply Keeps_trans; [|done]. destruct H1. by split.
Qed.

(** The instruction at [a] goes to [t] or [next], as [opcode] says, on every machine
    ready for it with the selectors [s], and changes nothing else a program can see
    but the selectors, which it resets. *)
Definition goes (opcode : Z) (a t next : nat) (s : Selectors) : Prop := ∀ m, Ready a s m →
  runs step (λ m', Keeps (resetSelectors m) m' ∧ Ready (if branch_taken opcode (flags m) then t else next) plain m') m.

(** A branch with a NOP in its delay slot. *)
Lemma short_runs opcode (a t : nat) s : 5 ≤ opcode ≤ 15 → -128 ≤ Z.of_nat t - (Z.of_nat a + 2) ≤ 127 →
  holds a ([opcode; u8 (Z.of_nat t - (Z.of_nat a + 2))] ++ [1]) → is_Some (code !! t) → is_Some (code !! (a + 3)%nat) →
  goes opcode a t (a + 3) s.
Proof.
  intros Hop Hd Hb Ht Hn m Hm. cbn [app] in Hb. rewrite !holds_cons in Hb. destruct Hb as (B0 & B1 & B2 & _).
  destruct (step_branch code origin program_bank rom fits m a s _ _ 1 t Hm B0 ltac:(lia) B1 B2) as (m1 & Hs1 & Hk1 & Hcase);
    [rewrite signed8_distance by done; lia|done|].
  replace (a + 3)%nat with (S (S (S a))) in * by lia. destruct (branch_taken opcode (flags m)).
  - destruct (step_delay_nop code origin program_bank rom fits m1 _ t s Hcase B2 Ht) as (m2 & Hs2 & Hr2 & Hk2).
    eapply runs_step; [exact Hs1|]. eapply runs_step; [exact Hs2|]. apply runs_done. split; [|done]. by eapply keeps_reset_trans.
  - destruct (step_nop code origin program_bank rom fits m1 _ s Hcase B2 Hn) as (m2 & Hs2 & Hr2 & Hk2).
    eapply runs_step; [exact Hs1|]. eapply runs_step; [exact Hs2|]. apply runs_done. split; [|done]. by eapply keeps_reset_trans.
Qed.

(** A NOP between two instructions. *)
Lemma nop_runs m a : Ready a plain m → code !! a = Some 1 → is_Some (code !! S a) →
  runs step (λ m', Keeps m m' ∧ Ready (S a) plain m') m.
Proof.
  intros Hm Ha Hn. destruct (step_nop code origin program_bank rom fits m a plain Hm Ha Hn) as (m1 & Hs1 & Hr1 & Hk1).
  eapply runs_step; [exact Hs1|]. apply runs_done. split; [|done]. eapply keeps_reset; [|done]. by apply Hm.
Qed.

(** [IWT R15] is [LM] or [SM] behind a prefix, so [bra] needs plain selectors. *)
Lemma bra_runs (a t : nat) : holds a (word 15 (origin + Z.of_nat t) ++ [1]) → is_Some (code !! t) → ∀ next, goes 5 a t next plain.
Proof.
  intros Hb Ht next m Hm. rewrite bra_taken. eapply runs_bind; [by apply (jump_runs m a t)|].
  intros m' [Hk Hr]. apply runs_done. split; [|done]. eapply Keeps_trans; [|done]. by destruct Hm; split.
Qed.

(** The branch on the opposite condition around a jump, and a NOP behind. *)
Lemma long_runs opcode (a t : nat) s : 6 ≤ opcode ≤ 15 →
  holds a ([Z.lxor opcode 1; 5; 1] ++ word 15 (origin + Z.of_nat t) ++ [1; 1]) → is_Some (code !! t) → is_Some (code !! (a + 8)%nat) →
  goes opcode a t (a + 8) s.
Proof.
  intros Hop Hb Ht Hn m Hm. pose proof (branch_taken_inverse opcode (flags m) Hop) as Hinv. pose proof (inverse_byte opcode Hop) as Hop15.
  apply holds_app in Hb as [Hb Hj]. cbn [length] in Hj. rewrite !holds_cons in Hb. destruct Hb as (B0 & B1 & B2 & _).
  change (word 15 (origin + Z.of_nat t) ++ [1; 1]) with ((word 15 (origin + Z.of_nat t) ++ [1]) ++ [1]) in Hj.
  apply holds_app in Hj as [Hj Hlast]. rewrite holds_cons in Hlast. destruct Hlast as [Hlast _].
  change (length (word 15 (origin + Z.of_nat t) ++ [1])) with 4%nat in Hlast. replace (a + 3 + 4)%nat with (a + 7)%nat in Hlast by lia.
  assert (code !! S (S (S a)) = Some 0xff) as B3.
  { destruct (holds_app code (a + 3) (word 15 (origin + Z.of_nat t)) [1]) as [Hw _]. destruct (Hw Hj) as [Hw1 _].
    specialize (Hw1 0%nat _ eq_refl). by replace (a + 3 + 0)%nat with (S (S (S a))) in Hw1 by lia. }
  destruct (step_branch code origin program_bank rom fits m a s _ 5 1 (a + 7) Hm B0 ltac:(lia) B1 B2) as (m1 & Hs1 & Hk1 & Hcase);
    [unfold signed8; cbn; lia|by eexists|].
  rewrite Hinv in Hcase. destruct (branch_taken opcode (flags m)); cbn [negb] in Hcase.
  - destruct (step_nop code origin program_bank rom fits m1 _ s Hcase B2) as (m2 & Hs2 & Hr2 & Hk2); [by rewrite B3|].
    eapply runs_step; [exact Hs1|]. eapply runs_step; [exact Hs2|]. replace (S (S (S a))) with (a + 3)%nat in Hr2 by lia.
    eapply runs_bind; [by apply (jump_runs m2 (a + 3) t)|]. intros m3 [Hk3 Hr3]. apply runs_done. split; [|done].
    eapply Keeps_trans; [by eapply keeps_reset_trans|done].
  - destruct (step_delay_nop code origin program_bank rom fits m1 _ (a + 7) s Hcase B2) as (m2 & Hs2 & Hr2 & Hk2); [by eexists|].
    eapply runs_step; [exact Hs1|]. eapply runs_step; [exact Hs2|]. replace (a + 8)%nat with (S (a + 7)) in * by lia.
    eapply runs_bind; [by apply (nop_runs m2 (a + 7))|]. intros m3 [Hk3 Hr3]. apply runs_done. split; [|done].
    eapply Keeps_trans; [by eapply keeps_reset_trans|done].
Qed.
End Run.

(** C26. A lengthened branch with a NOP behind it does what the short branch with
    that NOP in its delay slot does.  Of two payloads, one holds what the encoder
    emits for a line it has not lengthened, with the distance to the label in range,
    the other what it emits for it lengthened, with the address of the label in the
    jump, and a NOP follows in both.  Then both go, under the same flags, to the label
    or to the byte behind the NOP, and change no register, flag or byte of memory on
    the way, and reset the selectors.  For [bra], whose replacement starts with [IWT],
    no prefix may stand before the branch. *)
Theorem far_branch_runs (line : ParsedLine) (near far : gset Z) (opcode n n' : Z) (o o' : Output)
    (code code' : list Z) (origin bank origin' bank' : Z) (rom rom' : Memory) (a t a' t' : nat) (s : Selectors) :
  assoc (operation line) branches = Some opcode → line_number line ∉ near → line_number line ∈ far →
  encodeInstruction line near start = Ok (o, n) → encodeInstruction line far start = Ok (o', n') →
  Fits code origin bank → Fits code' origin' bank' →
  -128 ≤ Z.of_nat t - (Z.of_nat a + 2) ≤ 127 →
  holds code a (displaced (template_of o) (Z.of_nat t - (Z.of_nat a + 2)) ++ [1]) →
  holds code' a' (linked (template_of o') (origin' + Z.of_nat t') ++ [1]) →
  is_Some (code !! t) → is_Some (code !! (a + Z.to_nat n + 1)%nat) →
  is_Some (code' !! t') → is_Some (code' !! (a' + Z.to_nat n' + 1)%nat) →
  (operation line = "bra"%string → s = plain) →
  goes code origin bank rom opcode a t (a + Z.to_nat n + 1) s ∧
  goes code' origin' bank' rom' opcode a' t' (a' + Z.to_nat n' + 1) s.
Proof.
  intros Hop Hnear Hfar He He' Hfit Hfit' Hd Hb Hb' Ht Hn Ht' Hn' Hs.
  destruct (encode_branch_template _ _ _ _ _ Hop He) as [Eo En]. destruct (encode_branch_template _ _ _ _ _ Hop He') as [Eo' En'].
  rewrite Eo in Hb. rewrite Eo' in Hb'. rewrite En in *. rewrite En' in *. clear Eo En Eo' En' He He'.
  unfold branch_template in *. rewrite (bool_decide_eq_false_2 (line_number line ∈ near)) in * by done.
  rewrite (bool_decide_eq_true_2 (line_number line ∈ far)) in * by done. destruct (opcode_of_branch _ _ Hop) as [H5 H6].
  change (Z.to_nat (size (short_branch line opcode))) with 2%nat in *. rewrite <-!Nat.add_assoc in *. split; [by apply short_runs|].
  case_bool_decide as Hbra.
  - rewrite Hbra in Hop. injection Hop as <-. rewrite (Hs Hbra).
    apply holds_app in Hb' as [Hb' _]. by apply bra_runs.
  - change (Z.to_nat (size (far_branch line opcode)) + 1)%nat with 8%nat in *. apply long_runs; auto with lia.
Qed.

(** A [beq] over two NOPs, as it is and lengthened, on machines that have just
    started. *)
Definition beq_line : ParsedLine := mkLine 7 SecCode "" "beq" ["done"].
Definition near_code : list Z := displaced (branch_template beq_line ∅ 9) (4 - 2) ++ [1; 1; 1; 1].
Definition far_code : list Z := linked (branch_template beq_line {[7]} 9) (0x8000 + 9) ++ [1; 1; 1].

Lemma near_fits : Fits near_code (32768 mod 65536) (32768 / 65536).
Proof.
  split; [by vm_compute|by vm_compute| |by vm_compute; left].
  apply (bool_decide_unpack _). vm_compute. exact I.
Qed.
Lemma far_fits : Fits far_code (32768 mod 65536) (32768 / 65536).
Proof.
  split; [by vm_compute|by vm_compute| |by vm_compute; left].
  apply (bool_decide_unpack _). vm_compute. exact I.
Qed.

Lemma far_branch_runs_witness : ∃ m rom m' rom',
  Ready near_code 0x8000 0 rom 0 plain m ∧ goes near_code 0x8000 0 rom 9 0 4 3 plain ∧
  Ready far_code 0x8000 0 rom' 0 plain m' ∧ goes far_code 0x8000 0 rom' 9 0 9 8 plain.
Proof.
  destruct (load_ok near_code 32768 near_fits ltac:(done) 0 0) as (m0 & rom & _ & Hl).
  destruct (boot_start near_code 32768 0 m0 rom 9 ltac:(lia) near_fits Hl eq_refl) as (m & _ & Hr & _).
  destruct (load_ok far_code 32768 far_fits ltac:(done) 0 0) as (m0' & rom' & _ & Hl').
  destruct (boot_start far_code 32768 0 m0' rom' 8 ltac:(lia) far_fits Hl' eq_refl) as (m' & _ & Hr' & _).
  destruct (encodeInstruction beq_line ∅ start) as [[o n]|] eqn:He; [|vm_compute in He; discriminate He].
  destruct (encodeInstruction beq_line {[7]} start) as [[o' n']|] eqn:He'; [|vm_compute in He'; discriminate He'].
  assert (n = 2 ∧ displaced (template_of o) (4 - 2) = take 2 near_code) as [-> Ho].
  { vm_compute in He. injection He as <- <-. vm_compute. done. }
  assert (n' = 7 ∧ linked (template_of o') (0x8000 + 9) = take 7 far_code) as [-> Ho'].
  { vm_compute in He'. injection He' as <- <-. vm_compute. done. }
  assert (goes near_code 0x8000 0 rom 9 0 4 3 plain ∧ goes far_code 0x8000 0 rom' 9 0 9 8 plain) as [H H'].
  { apply (far_branch_runs beq_line ∅ {[7]} 9 2 7 o o' near_code far_code 0x8000 0 0x8000 0 rom rom' 0 4 0 9 plain).
    - reflexivity.
    - apply not_elem_of_empty.
    - by apply elem_of_singleton.
    - exact He.
    - exact He'.
    - exact near_fits.
    - exact far_fits.
    - cbn. lia.
    - change (Z.of_nat 4 - (Z.of_nat 0 + 2)) with (4 - 2). rewrite Ho.
      intros k b Hk. by apply (prefix_lookup_Some _ near_code) in Hk; [|by exists [1; 1; 1]].
    - change (0x8000 + Z.of_nat 9) with (0x8000 + 9). rewrite Ho'.
      intros k b Hk. by apply (prefix_lookup_Some _ far_code) in Hk; [|by exists [1; 1]].
    - by eexists.
    - by eexists.
    - by eexists.
    - by eexists.
    - done. }
  exists m, rom, m', rom'. done.
Defined.

(** A [bne] over [inc r1], then [nop] and [stop]: with the short branch, taken, the
    increment is in its delay slot and is executed; lengthened, it is skipped. *)
Definition bne_line : ParsedLine := mkLine 7 SecCode "" "bne" ["done"].
Definition slot_code : list Z := displaced (branch_template bne_line ∅ 8) (4 - 2) ++ [0xd1; 1; 0; 1].
Definition lengthened_slot_code : list Z := linked (branch_template bne_line {[7]} 8) (0x8000 + 9) ++ [0xd1; 1; 0; 1].
Definition register_after (code : list Z) (r : Z) : result Z :=
  '(m, rom) ← load code 0x8000 0 0; m ← run code 0x8000 0 rom 100 m; Ok (reg m r).

Lemma lengthening_drops_slot : register_after slot_code 1 = Ok 1 ∧ register_after lengthened_slot_code 1 = Ok 0.
Proof. split; by vm_compute. Qed.
