(* ===== verification/Isa.v ===== *)
(** * Isa: straight-line code as a function on registers

    The instructions the code generator emits, as data with their bytes
    ([code_of]) and their effect on what a program can see ([exec]).  That they
    do on the machine of [Machine] what [exec] says is [exec_sound]; [goes_code]
    is the rule for a block of them in a payload, [goes_branch] and [goes_long]
    those for the jumps between blocks. *)

From S2P Require Import Prelude Machine MachineRun StartupRun.

(* ------------------------------------------------------------------ *)
(** ** What a program sees *)

(** The registers but the program counter, the flags, the RAM, its bank, and
    what no instruction of this file changes: the ROM bank and the graphics. *)
Record State := mkState { regs : list Z; fl : Flags; mem : Memory; bnk : Z; rest : Z * Graphics.State }.
Definition sees (m : Machine) : State :=
  mkState (take 15 (registers m)) (flags m) (ram m) (ram_bank m) (rom_bank m, graphics m).

Definition get (w : State) (i : Z) : Z := default 0 (regs w !! Z.to_nat i).
Definition put (i v : Z) (w : State) : State := mkState (<[Z.to_nat i := v]> (regs w)) (fl w) (mem w) (bnk w) (rest w).
Definition flagged (f : Flags) (w : State) : State := mkState (regs w) f (mem w) (bnk w) (rest w).
Definition stored (r : Memory) (w : State) : State := mkState (regs w) (fl w) r (bnk w) (rest w).

Definition word_ok (x : Z) : Prop := 0 ≤ x < 65536.
Record ok (w : State) : Prop := {
  ok_length : length (regs w) = 15%nat;
  ok_words : Forall word_ok (regs w);
  ok_bank : 0 ≤ bnk w ≤ 1
}.

Definition negative (v : Z) : bool := negb (Z.land v 0x8000 =? 0).
Definition zs (v : Z) (w : State) : State :=
  flagged (mkFlags (v =? 0) (negative v) (carry (fl w)) (overflow (fl w))) w.

(* ------------------------------------------------------------------ *)
(** ** Instructions *)

Inductive Instr :=
  | Nop | To (n : Z) | With (n : Z) | From (n : Z) | Alt1 | Alt2 | Alt3
  | Add (n : Z) | Sub (n : Z) | And (n : Z) | Or (n : Z) | Not | Lsr | Asr
  | Sex | Lob | Hib | Swap | Inc (n : Z) | Dec (n : Z)
  | Ibt (n v : Z) | Iwt (n v : Z) | Stw (n : Z) | Ldw (n : Z).

Definition code_of (i : Instr) : list Z :=
  match i with
  | Nop => [1] | To n => [Z.lor 0x10 n] | With n => [Z.lor 0x20 n] | From n => [Z.lor 0xb0 n]
  | Alt1 => [0x3d] | Alt2 => [0x3e] | Alt3 => [0x3f]
  | Add n => [Z.lor 0x50 n] | Sub n => [Z.lor 0x60 n] | And n => [Z.lor 0x70 n] | Or n => [Z.lor 0xc0 n]
  | Not => [0x4f] | Lsr => [0x03] | Asr => [0x96] | Sex => [0x95] | Lob => [0x9e] | Hib => [0xc0] | Swap => [0x4d]
  | Inc n => [Z.lor 0xd0 n] | Dec n => [Z.lor 0xe0 n]
  | Ibt n v => [Z.lor 0xa0 n; u8 v] | Iwt n v => Startup.word n v
  | Stw n => [Z.lor 0x30 n] | Ldw n => [Z.lor 0x40 n]
  end.

(** The register numbers an instruction can have. *)
Definition encodable (i : Instr) : bool :=
  match i with
  | To n | With n | From n | Inc n | Dec n | Add n | Sub n => between 0 14 n
  | And n | Or n => between 1 14 n
  | Ibt n v => between 0 14 n && (between 0 127 v || between 0xff80 0xffff v)
  | Iwt n v => between 0 14 n && between 0 65535 v
  | Stw n | Ldw n => between 0 11 n
  | _ => true
  end.

Definition is_plain (s : Selectors) : bool :=
  (source s =? 0) && (destination s =? 0) && negb (prefix s || alt1 s || alt2 s).

(** A finished operation: its result, its flags and the selectors. *)
Definition finish (s : Selectors) (v : Z) (w : State) : option (Selectors * State) :=
  Some (plain, put (destination s) v w).

Section Exec.
(** The cells a program may store to. *)
Context (writable : Z → bool).

Definition exec_add (n : Z) (s : Selectors) (w : State) : option (Selectors * State) :=
  let left := get w (source s) in
  let right := if alt2 s then n else get w n in
  let sum := left + right + (if alt1 s && carry (fl w) then 1 else 0) in
  let value := u16 sum in
  finish s value (flagged (mkFlags (value =? 0) (negative value) (65535 <? sum)
    (negb (Z.land (Z.land (65535 - Z.lxor left right) (Z.lxor left value)) 0x8000 =? 0))) w).

Definition exec_sub (n : Z) (s : Selectors) (w : State) : option (Selectors * State) :=
  let left := get w (source s) in
  let right := if alt2 s && negb (alt1 s) then n else get w n in
  let difference := left - right - (if alt1 s && negb (alt2 s) && negb (carry (fl w)) then 1 else 0) in
  let value := u16 difference in
  let w := flagged (mkFlags (value =? 0) (negative value) (0 <=? difference)
    (negb (Z.land (Z.land (Z.lxor left right) (Z.lxor left value)) 0x8000 =? 0))) w in
  if alt1 s && alt2 s then Some (plain, w) else finish s value w.

Definition exec_shift (op : Z) (s : Selectors) (w : State) : option (Selectors * State) :=
  if alt1 s then None else
  let '(v, c) := shift_value op false (carry (fl w)) (get w (source s)) in
  finish s v (zs v (flagged (mkFlags (zero (fl w)) (sign (fl w)) c (overflow (fl w))) w)).

Definition exec (i : Instr) (s : Selectors) (w : State) : option (Selectors * State) :=
  let x := get w (source s) in
  match i with
  | Nop => Some (plain, w)
  | To n => if prefix s then Some (plain, put n x w)
            else Some (mkSelectors (source s) n false (alt1 s) (alt2 s), w)
  | With n => Some (mkSelectors n n true (alt1 s) (alt2 s), w)
  | From n => if prefix s then None else Some (mkSelectors n (destination s) false (alt1 s) (alt2 s), w)
  | Alt1 => Some (mkSelectors (source s) (destination s) false true (alt2 s), w)
  | Alt2 => Some (mkSelectors (source s) (destination s) false (alt1 s) true, w)
  | Alt3 => Some (mkSelectors (source s) (destination s) false true true, w)
  | Add n => exec_add n s w
  | Sub n => exec_sub n s w
  | And n => if alt1 s then None else
             let v := Z.land x (if alt2 s then n else get w n) in finish s v (zs v w)
  | Or n => let r := if alt2 s then n else get w n in
            let v := if alt1 s then Z.lxor x r else Z.lor x r in finish s v (zs v w)
  | Not => let v := 65535 - x in finish s v (zs v w)
  | Lsr => exec_shift 0x03 s w
  | Asr => exec_shift 0x96 s w
  | Sex => let v := if x mod 256 <? 128 then x mod 256 else x mod 256 + 0xff00 in finish s v (zs v w)
  | Lob => let v := x mod 256 in
           finish s v (flagged (mkFlags (v =? 0) (negb (Z.land v 0x80 =? 0)) (carry (fl w)) (overflow (fl w))) w)
  | Hib => let v := x / 256 in
           finish s v (flagged (mkFlags (v =? 0) (negb (Z.land v 0x80 =? 0)) (carry (fl w)) (overflow (fl w))) w)
  | Swap => let v := x mod 256 * 256 + x / 256 in finish s v (zs v w)
  | Inc n => let v := u16 (get w n + 1) in Some (plain, put n v (zs v w))
  | Dec n => let v := u16 (get w n - 1) in Some (plain, put n v (zs v w))
  | Ibt n v | Iwt n v => if is_plain s then Some (plain, put n v w) else None
  | Stw n =>
      let a := bnk w * 65536 + get w n in
      if alt1 s || negb (a mod 2 =? 0) || negb (writable a) || negb (writable (a + 1)) then None
      else Some (plain, stored (<[a + 1 := u8 (Z.shiftr x 8)]> (<[a := u8 x]> (mem w))) w)
  | Ldw n =>
      let a := bnk w * 65536 + get w n in
      if alt1 s || negb (a mod 2 =? 0) then None
      else Some (plain, put (destination s) (u16 (Z.lor (byte_at (mem w) a) (Z.shiftl (byte_at (mem w) (a + 1)) 8))) w)
  end.

Fixpoint execs (l : list Instr) (s : Selectors) (w : State) : option (Selectors * State) :=
  match l with
  | [] => Some (s, w)
  | i :: l => if encodable i then '(s, w) ← exec i s w; execs l s w else None
  end.
End Exec.

(* ------------------------------------------------------------------ *)
(** ** The state behind an instruction *)

Lemma get_word w i : ok w → word_ok (get w i).
Proof.
  intros H. unfold get. destruct (regs w !! Z.to_nat i) as [x|] eqn:E; [|by split].
  exact (Forall_lookup_1 _ _ _ _ (ok_words _ H) E).
Qed.
Lemma put_ok i v w : ok w → word_ok v → ok (put i v w).
Proof. intros [H1 H2 H3] Hv. split; cbn; [by rewrite length_insert| |done]. apply Forall_insert; [done|intros; done]. Qed.
Lemma flagged_ok f w : ok w → ok (flagged f w).
Proof. by intros [??]. Qed.
Lemma stored_ok r w : ok w → ok (stored r w).
Proof. by intros [??]. Qed.

Lemma sees_get m i : 0 ≤ i < 15 → get (sees m) i = reg m i.
Proof. intros. unfold get, sees, reg. cbn [regs]. by rewrite lookup_take_lt by lia. Qed.
Lemma sees_set_reg i v m : 0 ≤ i < 15 → sees (set_reg i v m) = put i (u16 v) (sees m).
Proof. intros. unfold sees, put, set_reg. cbn. f_equal. by rewrite take_insert_lt by lia. Qed.
Lemma sees_write i v m : 0 ≤ i < 15 → sees (write i v m) = put i (u16 v) (sees m).
Proof. intros. unfold write. replace (i =? 15) with false by lia. by apply sees_set_reg. Qed.
Lemma sees_flags f m : sees (with_flags f m) = flagged f (sees m).
Proof. done. Qed.
Lemma sees_reset m : sees (resetSelectors m) = sees m.
Proof. done. Qed.
Lemma sees_zero_sign v m : sees (setZeroSign v m) = zs v (sees m).
Proof. done. Qed.
Lemma put_zs i v x w : put i v (zs x w) = zs x (put i v w).
Proof. done. Qed.

Lemma sees_keeps m m' : Keeps m m' → length (registers m) = 16%nat → length (registers m') = 16%nat → sees m' = sees m.
Proof.
  intros Hk L1 L2. pose proof (view_keeps _ _ Hk L1 L2) as Hv. destruct Hk. unfold view in Hv. injection Hv as Ht _ _ _.
  unfold sees. congruence.
Qed.

Definition sel_ok (s : Selectors) : Prop := 0 ≤ source s < 15 ∧ 0 ≤ destination s < 15.

Section Sound.
Context (code : list Z) (origin program_bank : Z) (rom : Memory) (fits : Fits code origin program_bank).
Notation execute := (execute code origin program_bank rom).
Notation Mid := (Mid code origin program_bank rom).
Notation resident := (resident code origin program_bank rom).

(** Changes that leave the program counter, the pipeline and the payload alone. *)
Record Quiet (m m' : Machine) : Prop := {
  qu_written : pc_written m' = pc_written m;
  qu_pc : reg m' 15 = reg m 15;
  qu_pipe : pipeline m' = pipeline m;
  qu_cache : icache m' = icache m;
  qu_length : length (registers m') = length (registers m);
  qu_resident : resident m → resident m'
}.

Lemma quiet_refl m : Quiet m m.
Proof. by split. Qed.
Lemma quiet_trans m1 m2 m3 : Quiet m1 m2 → Quiet m2 m3 → Quiet m1 m3.
Proof. intros [] []. split; [congruence..|tauto]. Qed.
Lemma quiet_set_reg i v m : 0 ≤ i < 15 → Quiet m (set_reg i v m).
Proof.
  intros. split; try done.
  - by rewrite reg_set_ne by lia.
  - cbn. apply length_insert.
Qed.
Lemma quiet_write i v m : 0 ≤ i < 15 → Quiet m (write i v m).
Proof. intros. unfold write. replace (i =? 15) with false by lia. by apply quiet_set_reg. Qed.
Lemma quiet_flags f m : Quiet m (with_flags f m).
Proof. by split. Qed.
Lemma quiet_selectors s m : Quiet m (with_selectors s m).
Proof. by split. Qed.
Lemma quiet_banks a b c m : Quiet m (with_banks a b c m).
Proof. by split. Qed.
Lemma quiet_ram r m : (∀ i, occupied code origin program_bank i → byte_at r i = byte_at (ram m) i) → Quiet m (with_ram r m).
Proof. intros. split; try done. by apply (resident_outside code origin program_bank rom fits). Qed.

(** [execute] does what [exec] says. *)
Definition does (op : Z) (s : Selectors) (w : State) (s' : Selectors) (w' : State) : Prop :=
  ∀ m, selectors m = s → sees m = w →
  ∃ m', execute op m = Ok m' ∧ Quiet m m' ∧ selectors m' = s' ∧ sees m' = w'.

Ltac quiet := repeat first
  [ apply quiet_refl | apply quiet_flags | apply quiet_selectors | apply quiet_banks
  | apply quiet_write; lia | apply quiet_set_reg; lia
  | eapply quiet_trans; [|apply quiet_flags] | eapply quiet_trans; [|apply quiet_selectors]
  | eapply quiet_trans; [|apply quiet_banks]
  | eapply quiet_trans; [|apply quiet_write; lia] | eapply quiet_trans; [|apply quiet_set_reg; lia] ].

Lemma does_as op s w s' w' (f : Machine → Machine) :
  (∀ m, selectors m = s → sees m = w →
     execute op m = Ok (f m) ∧ Quiet m (f m) ∧ selectors (f m) = s' ∧ sees (f m) = w') → does op s w s' w'.
Proof. intros H m Hs Hw. exists (f m). by apply H. Qed.

(** The part of [result_word]. *)
Lemma result_word_does v m s w :
  sel_ok s → word_ok v → selectors m = s → sees m = w →
  Quiet m (result_word v m) ∧ selectors (result_word v m) = plain ∧ sees (result_word v m) = put (destination s) v (zs v w).
Proof.
  intros [_ Hd] Hv Hs Hw. unfold result_word. rewrite Hs. split; [unfold resetSelectors, setZeroSign; quiet|]. split; [done|].
  rewrite sees_reset, sees_zero_sign, sees_write, Hw, uwrap_small by done. done.
Qed.

Lemma u16_word x : word_ok x → u16 x = x.
Proof. intros. by apply uwrap_small. Qed.
Lemma u16_ok x : word_ok (u16 x).
Proof. apply u16_range. Qed.

Lemma index_cases n : 0 ≤ n < 15 → n ∈ seqZ 0 15.
Proof. intros. apply elem_of_seqZ. lia. Qed.
Ltac each_index H :=
  let H' := fresh in
  pose proof (index_cases _ H) as H'; vm_compute seqZ in H';
  repeat (apply elem_of_cons in H' as [-> | H']); [..| by apply elem_of_nil in H'].

Lemma execute_to n m : 0 ≤ n < 15 →
  execute (Z.lor 0x10 n) m =
    Ok (if prefix (selectors m) then resetSelectors (write n (reg m (source (selectors m))) m)
        else with_selectors (mkSelectors (source (selectors m)) n (prefix (selectors m)) (alt1 (selectors m)) (alt2 (selectors m))) m).
Proof. intros Hn. each_index Hn; reflexivity. Qed.
Lemma execute_with n m : 0 ≤ n < 15 →
  execute (Z.lor 0x20 n) m = Ok (with_selectors (mkSelectors n n true (alt1 (selectors m)) (alt2 (selectors m))) m).
Proof. intros Hn. each_index Hn; reflexivity. Qed.
Lemma execute_from n m : 0 ≤ n < 15 → prefix (selectors m) = false →
  execute (Z.lor 0xb0 n) m =
    Ok (with_selectors (mkSelectors n (destination (selectors m)) (prefix (selectors m)) (alt1 (selectors m)) (alt2 (selectors m))) m).
Proof. intros Hn Hp. unfold Machine.execute. rewrite Hp. each_index Hn; reflexivity. Qed.
Lemma execute_add n m : 0 ≤ n < 15 → execute (Z.lor 0x50 n) m = Ok (add_sub (Z.lor 0x50 n) n m).
Proof. intros Hn. each_index Hn; reflexivity. Qed.
Lemma execute_sub n m : 0 ≤ n < 15 → execute (Z.lor 0x60 n) m = Ok (add_sub (Z.lor 0x60 n) n m).
Proof. intros Hn. each_index Hn; reflexivity. Qed.
Lemma execute_and n m : 1 ≤ n < 15 → execute (Z.lor 0x70 n) m =
  Ok (result_word (Z.land (reg m (source (selectors m)))
        (if alt1 (selectors m) then 65535 - (if alt2 (selectors m) then n else reg m n) else if alt2 (selectors m) then n else reg m n)) m).
Proof. intros Hn. assert (0 ≤ n < 15) as Hn' by lia. each_index Hn'; [lia|..]; reflexivity. Qed.
Lemma execute_or n m : 1 ≤ n < 15 → execute (Z.lor 0xc0 n) m =
  Ok (result_word (if alt1 (selectors m)
        then Z.lxor (reg m (source (selectors m))) (if alt2 (selectors m) then n else reg m n)
        else Z.lor (reg m (source (selectors m))) (if alt2 (selectors m) then n else reg m n)) m).
Proof. intros Hn. assert (0 ≤ n < 15) as Hn' by lia. each_index Hn'; [lia|..]; reflexivity. Qed.
Lemma execute_inc n m : 0 ≤ n < 15 → execute (Z.lor 0xd0 n) m =
  Ok (resetSelectors (setZeroSign (reg (write n (reg m n + 1) m) n) (write n (reg m n + 1) m))).
Proof. intros Hn. each_index Hn; reflexivity. Qed.
Lemma execute_dec n m : 0 ≤ n < 15 → execute (Z.lor 0xe0 n) m =
  Ok (resetSelectors (setZeroSign (reg (write n (reg m n + -1) m) n) (write n (reg m n + -1) m))).
Proof. intros Hn. each_index Hn; reflexivity. Qed.
Lemma execute_stw n m : 0 ≤ n < 12 → execute (Z.lor 0x30 n) m =
  store (alt1 (selectors m)) (ram_bank m * 65536 + reg m n) (reg m (source (selectors m)))
    (with_banks (ram_bank m) (reg m n) (rom_bank m) m).
Proof. intros Hn. assert (0 ≤ n < 15) as Hn' by lia. each_index Hn'; try lia; reflexivity. Qed.
Lemma execute_ldw n m : 0 ≤ n < 12 → alt1 (selectors m) = false → execute (Z.lor 0x40 n) m =
  (v ← load_word (with_banks (ram_bank m) (reg m n) (rom_bank m) m) (reg m n);
   Ok (resetSelectors (write (destination (selectors m)) v (with_banks (ram_bank m) (reg m n) (rom_bank m) m)))).
Proof. intros Hn Ha. assert (0 ≤ n < 15) as Hn' by lia. unfold Machine.execute. rewrite Ha. each_index Hn'; try lia; reflexivity. Qed.

Notation finishes s v w := (put (destination s) v w).

Lemma land_word x y : word_ok x → word_ok y → word_ok (Z.land x y).
Proof.
  intros Hx Hy. split; [apply Z.land_nonneg; by left; destruct Hx|].
  destruct (Z.eq_dec (Z.land x y) 0) as [->|]; [lia|]. apply (Z.log2_lt_pow2 _ 16); [pose proof (proj2 (Z.land_nonneg x y)); destruct Hx; lia|].
  pose proof (Z.log2_land x y ltac:(apply Hx) ltac:(apply Hy)).
  assert (Z.log2 x < 16) by (destruct (Z.eq_dec x 0) as [->|]; [done|]; apply Z.log2_lt_pow2; unfold word_ok in *; lia). lia.
Qed.
Lemma log2_word x : word_ok x → Z.log2 x < 16.
Proof. unfold word_ok. intros. destruct (Z.eq_dec x 0) as [->|]; [done|]. apply Z.log2_lt_pow2; lia. Qed.
Lemma lor_word x y : word_ok x → word_ok y → word_ok (Z.lor x y).
Proof.
  intros Hx Hy. pose proof (log2_word _ Hx). pose proof (log2_word _ Hy). unfold word_ok in *.
  assert (0 ≤ Z.lor x y) by (apply Z.lor_nonneg; lia). split; [done|].
  destruct (Z.eq_dec (Z.lor x y) 0) as [->|]; [lia|]. apply (Z.log2_lt_pow2 _ 16); [lia|]. rewrite Z.log2_lor by lia. lia.
Qed.
Lemma lxor_word x y : word_ok x → word_ok y → word_ok (Z.lxor x y).
Proof.
  intros Hx Hy. pose proof (log2_word _ Hx). pose proof (log2_word _ Hy). unfold word_ok in *.
  assert (0 ≤ Z.lxor x y) by (apply Z.lxor_nonneg; lia). split; [done|].
  destruct (Z.eq_dec (Z.lxor x y) 0) as [->|]; [lia|]. apply (Z.log2_lt_pow2 _ 16); [lia|]. pose proof (Z.log2_lxor x y). lia.
Qed.
Lemma shiftr_word x : word_ok x → word_ok (Z.shiftr x 1).
Proof. unfold word_ok. rewrite Z.shiftr_div_pow2 by lia. intros. change (2 ^ 1) with 2. zmod. Qed.
Lemma word_sign : word_ok 0x8000.
Proof. done. Qed.

(** ADD, ADC. *)
Lemma does_add writable n s w s' w' :
  0 ≤ n < 15 → sel_ok s → exec writable (Add n) s w = Some (s', w') → does (Z.lor 0x50 n) s w s' w'.
Proof.
  intros Hn [Hs Hd] He m Es Ew. eexists. split; [by apply execute_add|].
  assert (Z.lor 0x50 n <? 0x60 = true) as Hlt by (each_index Hn; done).
  unfold add_sub. rewrite Hlt, Es. cbn [orb]. rewrite andb_true_r.
  assert (reg m (source s) = get w (source s) ∧ reg m n = get w n) as [-> ->] by (rewrite <- Ew, !sees_get by lia; done).
  unfold exec, exec_add, finish in He. injection He as <- <-. rewrite <- Ew. cbn [sees fl].
  split; [|split; [done|]].
  - unfold resetSelectors, setZeroSign. quiet.
  - rewrite sees_reset, sees_write, sees_zero_sign by done. rewrite (u16_word (u16 _)) by apply u16_ok. done.
Qed.

(** SUB, SBC, CMP. *)
Lemma does_sub writable n s w s' w' :
  0 ≤ n < 15 → sel_ok s → exec writable (Sub n) s w = Some (s', w') → does (Z.lor 0x60 n) s w s' w'.
Proof.
  intros Hn [Hs Hd] He m Es Ew. eexists. split; [by apply execute_sub|].
  assert (Z.lor 0x60 n <? 0x60 = false) as Hlt by (each_index Hn; done).
  unfold add_sub. rewrite Hlt, Es. cbn [orb].
  assert (reg m (source s) = get w (source s) ∧ reg m n = get w n) as [-> ->] by (rewrite <- Ew, !sees_get by lia; done).
  unfold exec, exec_sub, finish in He. rewrite <- Ew in *. cbn [sees fl] in He.
  destruct (alt1 s && alt2 s) eqn:Hcmp; injection He as <- <-.
  - split; [unfold resetSelectors, setZeroSign; quiet|]. done.
  - split; [unfold resetSelectors, setZeroSign; quiet|]. split; [done|].
    rewrite sees_reset, sees_write, sees_zero_sign by done. rewrite (u16_word (u16 _)) by apply u16_ok. done.
Qed.

Lemma does_result op s w v :
  sel_ok s → word_ok v → (∀ m, selectors m = s → sees m = w → execute op m = Ok (result_word v m)) →
  does op s w plain (finishes s v (zs v w)).
Proof.
  intros Hs Hv He m Es Ew. eexists. split; [by apply He|]. by apply result_word_does.
Qed.

Lemma source_reads m s w : sel_ok s → sees m = w → reg m (source s) = get w (source s).
Proof. intros [Hs _] <-. by rewrite sees_get. Qed.
Lemma index_reads m n w : 0 ≤ n < 15 → sees m = w → reg m n = get w n.
Proof. intros Hn <-. by rewrite sees_get. Qed.

Lemma does_and writable n s w s' w' :
  1 ≤ n < 15 → sel_ok s → ok w → exec writable (And n) s w = Some (s', w') → does (Z.lor 0x70 n) s w s' w'.
Proof.
  intros Hn Hs Hw He. unfold exec, finish in He. destruct (alt1 s) eqn:Ha; [done|]. injection He as <- <-.
  apply does_result; [done| |].
  - apply land_word; [by apply get_word|]. destruct (alt2 s); [unfold word_ok; lia|by apply get_word].
  - intros m Es Ew. rewrite execute_and by done. rewrite Es, Ha, (source_reads m s w), (index_reads m n w) by (done || lia). done.
Qed.

Lemma does_or writable n s w s' w' :
  1 ≤ n < 15 → sel_ok s → ok w → exec writable (Or n) s w = Some (s', w') → does (Z.lor 0xc0 n) s w s' w'.
Proof.
  intros Hn Hs Hw He. unfold exec, finish in He. injection He as <- <-.
  apply does_result; [done| |].
  - assert (word_ok (if alt2 s then n else get w n)) by (destruct (alt2 s); [unfold word_ok; lia|by apply get_word]).
    destruct (alt1 s); [apply lxor_word|apply lor_word]; try done; by apply get_word.
  - intros m Es Ew. rewrite execute_or by done. rewrite Es, (source_reads m s w), (index_reads m n w) by (done || lia). done.
Qed.

Lemma does_not writable s w s' w' : sel_ok s → ok w → exec writable Not s w = Some (s', w') → does 0x4f s w s' w'.
Proof.
  intros Hs Hw He. injection He as <- <-. pose proof (get_word w (source s) Hw) as Hx. unfold word_ok in Hx.
  apply does_result; [done|unfold word_ok; lia|]. intros m Es Ew.
  transitivity (Ok (result_word (u16 (65535 - reg m (source (selectors m)))) m)); [reflexivity|].
  rewrite Es, (source_reads m s w), uwrap_small by (done || lia). done.
Qed.

Lemma byte_word x : word_ok x → word_ok (x mod 256).
Proof. unfold word_ok. intros. zmod. Qed.

Lemma does_sex writable s w s' w' : sel_ok s → ok w → exec writable Sex s w = Some (s', w') → does 0x95 s w s' w'.
Proof.
  intros Hs Hw He. injection He as <- <-. pose proof (get_word w (source s) Hw) as Hx. unfold word_ok in Hx.
  apply does_result; [done|unfold word_ok; destruct (_ <? _) eqn:E; zmod|]. intros m Es Ew.
  transitivity (Ok (result_word (if Z.land (reg m (source (selectors m))) 255 <? 128 then Z.land (reg m (source (selectors m))) 255
                   else Z.lor (Z.land (reg m (source (selectors m))) 255) 0xff00) m)); [reflexivity|].
  rewrite Es, (source_reads m s w), land_255 by done. do 2 f_equal. destruct (_ <? 128) eqn:E; [done|].
  change 0xff00 with (255 * 256) at 1. rewrite lor_fields_8 by (unfold byte_ok; zmod). lia.
Qed.

Lemma does_swap writable s w s' w' : sel_ok s → ok w → exec writable Swap s w = Some (s', w') → does 0x4d s w s' w'.
Proof.
  intros Hs Hw He. injection He as <- <-. pose proof (get_word w (source s) Hw) as Hx. unfold word_ok in Hx.
  apply does_result; [done|unfold word_ok; zmod|]. intros m Es Ew.
  transitivity (Ok (result_word (u16 (Z.lor (Z.shiftr (reg m (source (selectors m))) 8) (Z.shiftl (reg m (source (selectors m))) 8))) m));
    [reflexivity|].
  rewrite Es, (source_reads m s w) by done. do 2 f_equal. rewrite shiftr_8, shiftl_8, lor_fields_8 by (unfold byte_ok; zmod).
  unfold uwrap. change (2 ^ 16) with 65536. zmod.
Qed.

(** LOB and HIB: the sign is that of the byte. *)
Lemma does_byte op v s w :
  sel_ok s → word_ok v →
  (∀ m, selectors m = s → sees m = w → execute op m =
     Ok (resetSelectors (with_flags (mkFlags (v =? 0) (negb (Z.land v 0x80 =? 0)) (carry (flags m)) (overflow (flags m)))
           (write (destination s) v m)))) →
  does op s w plain (finishes s v (flagged (mkFlags (v =? 0) (negb (Z.land v 0x80 =? 0)) (carry (fl w)) (overflow (fl w))) w)).
Proof.
  intros [Hs Hd] Hv He m Es Ew. eexists. split; [by apply He|]. split; [unfold resetSelectors; quiet|]. split; [done|].
  rewrite sees_reset, sees_flags, sees_write, u16_word, <- Ew by done. done.
Qed.
Lemma does_lob writable s w s' w' : sel_ok s → ok w → exec writable Lob s w = Some (s', w') → does 0x9e s w s' w'.
Proof.
  intros Hs Hw He. unfold exec, finish in He. injection He as <- <-. pose proof (get_word w (source s) Hw) as Hx. unfold word_ok in Hx.
  apply does_byte; [done|by apply byte_word|]. intros m Es Ew. rewrite <- land_255, <- (source_reads m s w) by done.
  rewrite <- Es. reflexivity.
Qed.
Lemma does_hib writable s w s' w' : sel_ok s → ok w → exec writable Hib s w = Some (s', w') → does 0xc0 s w s' w'.
Proof.
  intros Hs Hw He. unfold exec, finish in He. injection He as <- <-. pose proof (get_word w (source s) Hw) as Hx. unfold word_ok in Hx.
  apply does_byte; [done|unfold word_ok; zmod|]. intros m Es Ew.
  replace (get w (source s) / 256) with (Z.land (Z.shiftr (get w (source s)) 8) 255)
    by (rewrite land_255, shiftr_8; zmod).
  rewrite <- (source_reads m s w) by done. rewrite <- Es. reflexivity.
Qed.

Lemma does_shift writable op i s w s' w' :
  op = 0x03 ∧ i = Lsr ∨ op = 0x96 ∧ i = Asr → sel_ok s → ok w → exec writable i s w = Some (s', w') → does op s w s' w'.
Proof.
  intros Hop Hs Hw He.
  assert (exec_shift op s w = Some (s', w')) as He' by (destruct Hop as [[-> ->]|[-> ->]]; done). clear He.
  unfold exec_shift in He'. destruct (alt1 s) eqn:Ha; [done|].
  destruct (shift_value op false (carry (fl w)) (get w (source s))) as [v c] eqn:Ev.
  unfold finish in He'. injection He' as <- <-.
  assert (word_ok v) as Hv.
  { unfold shift_value in Ev. destruct Hop as [[-> ->]|[-> ->]]; injection Ev as <- <-; apply u16_ok. }
  intros m Es Ew. eexists. split.
  - transitivity (let '(v, c) := shift_value op (alt1 s) (carry (flags m)) (reg m (source (selectors m))) in
                  Ok (result_word v (with_flags (mkFlags (zero (flags m)) (sign (flags m)) c (overflow (flags m))) m))).
    + rewrite <- Es. destruct Hop as [[-> ->]|[-> ->]]; reflexivity.
    + rewrite Ha, Es, (source_reads m s w) by done. replace (carry (flags m)) with (carry (fl w)) by (by rewrite <- Ew).
      rewrite Ev. reflexivity.
  - destruct (result_word_does v (with_flags (mkFlags (zero (flags m)) (sign (flags m)) c (overflow (flags m))) m) s
      (flagged (mkFlags (zero (flags m)) (sign (flags m)) c (overflow (flags m))) w)) as (Hq & Hsel & Hsee); [done..|by rewrite sees_flags, Ew|].
    split; [|split; [done|]].
    + eapply quiet_trans; [apply quiet_flags|exact Hq].
    + rewrite Hsee, <- Ew. done.
Qed.

(** INC and DEC. *)
Lemma does_step op n d s w :
  0 ≤ n < 15 → (∀ m, execute op m = Ok (resetSelectors (setZeroSign (reg (write n (reg m n + d) m) n) (write n (reg m n + d) m)))) →
  ok w → does op s w plain (put n (u16 (get w n + d)) (zs (u16 (get w n + d)) w)).
Proof.
  intros Hn He Hok m Es Ew. eexists. split; [apply He|].
  assert (reg (write n (reg m n + d) m) n = u16 (get w n + d)) as E.
  { unfold write. replace (n =? 15) with false by lia. rewrite (index_reads m n w) by done. rewrite reg_set_eq; [done|].
    pose proof (ok_length _ Hok) as Hl. rewrite <- Ew in Hl. cbn in Hl. rewrite length_take in Hl. lia. }
  rewrite E. split; [unfold resetSelectors, setZeroSign; quiet|]. split; [done|].
  rewrite sees_reset, sees_zero_sign, sees_write, (index_reads m n w), Ew by done. done.
Qed.

Lemma does_to writable n s w s' w' :
  0 ≤ n < 15 → sel_ok s → ok w → exec writable (To n) s w = Some (s', w') → does (Z.lor 0x10 n) s w s' w'.
Proof.
  intros Hn Hs Hok He m Es Ew. eexists. split; [by apply execute_to|]. rewrite Es. unfold exec in He.
  destruct (prefix s) eqn:Hp; injection He as <- <-.
  - split; [unfold resetSelectors; quiet|]. split; [done|].
    rewrite sees_reset, sees_write, (source_reads m s w), u16_word, Ew by (done || by apply get_word). done.
  - split; [quiet|]. split; [done|exact Ew].
Qed.

Lemma does_prefix op (f : Selectors → Selectors) s w :
  (∀ m, selectors m = s → execute op m = Ok (with_selectors (f (selectors m)) m)) → does op s w (f s) w.
Proof. intros H m Es Ew. eexists. split; [by apply H|]. rewrite Es. split; [quiet|]. by split. Qed.

Lemma occupied_range i : occupied code origin program_bank i → 0 ≤ i < RamSize.
Proof.
  intros [Hin Hi]. unfold in_ram in Hin. pose proof (fit_size _ _ _ fits). pose proof (fit_origin _ _ _ fits). unfold RamSize.
  assert (program_bank = 0x70 ∨ program_bank = 0x71) as [-> | ->] by lia; lia.
Qed.

Section Memory.
Context (writable : Z → bool).
Context (Hwritable : ∀ i, writable i = true → 0 ≤ i < RamSize ∧ ¬ occupied code origin program_bank i).

Lemma does_stw n s w s' w' :
  0 ≤ n < 12 → sel_ok s → exec writable (Stw n) s w = Some (s', w') → does (Z.lor 0x30 n) s w s' w'.
Proof.
  intros Hn Hs He. unfold exec in He.
  destruct (alt1 s || negb ((bnk w * 65536 + get w n) mod 2 =? 0) || negb (writable (bnk w * 65536 + get w n))
            || negb (writable (bnk w * 65536 + get w n + 1))) eqn:E; [done|].
  injection He as <- <-. rewrite !orb_false_iff, !negb_false_iff in E. destruct E as [[[Ha Heven%Z.eqb_eq] H1] H2].
  apply Hwritable in H1 as [R1 O1], H2 as [R2 O2]. intros m Es Ew. eexists. split.
  - rewrite execute_stw, Es, Ha, (source_reads m s w), (index_reads m n w) by (done || lia).
    assert (ram_bank m = bnk w) as -> by (by rewrite <- Ew).
    unfold store. rewrite poke_ok by done. cbn [mbind result_mbind result_bind].
    rewrite lxor_even, poke_ok by done. cbn [mbind result_mbind result_bind]. reflexivity.
  - assert (ram m = mem w) as Er by (by rewrite <- Ew). cbn [ram with_banks]. rewrite Er. split; [|split].
    + unfold resetSelectors. eapply quiet_trans; [|apply quiet_selectors]. eapply quiet_trans; [apply quiet_banks|].
      apply quiet_ram. intros i Hi. cbn [ram with_banks]. rewrite Er. unfold byte_at.
      rewrite !lookup_insert_ne by (intros <-; contradiction). done.
    + done.
    + rewrite <- Ew. reflexivity.
Qed.

Lemma does_ldw n s w s' w' :
  0 ≤ n < 12 → sel_ok s → ok w → exec writable (Ldw n) s w = Some (s', w') → does (Z.lor 0x40 n) s w s' w'.
Proof.
  intros Hn Hs Hok He. unfold exec in He.
  destruct (alt1 s || negb ((bnk w * 65536 + get w n) mod 2 =? 0)) eqn:E; [done|].
  injection He as <- <-. rewrite !orb_false_iff, !negb_false_iff in E. destruct E as [Ha Heven%Z.eqb_eq].
  intros m Es Ew. pose proof (get_word w n Hok) as Hg. pose proof (ok_bank _ Hok) as Hb. unfold word_ok in Hg.
  eexists. split.
  - rewrite execute_ldw, (index_reads m n w) by (congruence || lia). unfold load_word. cbn [ram_bank with_banks ram].
    assert (ram_bank m = bnk w ∧ ram m = mem w) as [-> ->] by (by rewrite <- Ew).
    replace (1 <? bnk w) with false by lia. rewrite throw_if_false. cbn [mbind result_mbind result_bind].
    rewrite lxor_even, !peek_ok by (unfold RamSize; zmod || done). cbn [mbind result_mbind result_bind]. reflexivity.
  - rewrite Es. split; [|split; [done|]].
    + unfold resetSelectors. eapply quiet_trans; [|apply quiet_selectors]. eapply quiet_trans; [apply quiet_banks|].
      apply quiet_write. apply Hs.
    + rewrite sees_reset, sees_write by apply Hs. rewrite <- Ew. done.
Qed.

(** Every instruction of one byte. *)
Lemma exec_sound i op s w s' w' :
  code_of i = [op] → encodable i = true → sel_ok s → ok w → exec writable i s w = Some (s', w') → does op s w s' w'.
Proof.
  intros Hop Henc Hs Hok He. destruct i; cbn [code_of Startup.word] in Hop; try discriminate Hop; injection Hop as <-;
    cbn [encodable] in Henc; unfold between in Henc.
  - injection He as <- <-. by apply (does_prefix _ (λ _, plain)).
  - by apply (does_to writable); [lia|..].
  - injection He as <- <-. apply (does_prefix _ (λ s, mkSelectors n n true (alt1 s) (alt2 s))). intros m _. apply execute_with. lia.
  - cbn in He. destruct (prefix s) eqn:Hp; [done|]. injection He as <- <-.
    replace false with (prefix s) by done. apply (does_prefix _ (λ s, mkSelectors n (destination s) (prefix s) (alt1 s) (alt2 s))).
    intros m Es. apply execute_from; [lia|congruence].
  - injection He as <- <-. by apply (does_prefix _ (λ s, mkSelectors (source s) (destination s) false true (alt2 s))).
  - injection He as <- <-. by apply (does_prefix _ (λ s, mkSelectors (source s) (destination s) false (alt1 s) true)).
  - injection He as <- <-. by apply (does_prefix _ (λ s, mkSelectors (source s) (destination s) false true true)).
  - apply (does_add writable); [lia|done..].
  - apply (does_sub writable); [lia|done..].
  - apply (does_and writable); [lia|done..].
  - apply (does_or writable); [lia|done..].
  - by apply (does_not writable).
  - by apply (does_shift writable _ Lsr); [left|..].
  - by apply (does_shift writable _ Asr); [right|..].
  - by apply (does_sex writable).
  - by apply (does_lob writable).
  - by apply (does_hib writable).
  - by apply (does_swap writable).
  - injection He as <- <-. apply does_step; [lia| |done]. intros m. apply execute_inc. lia.
  - injection He as <- <-. apply does_step; [lia| |done]. intros m. apply execute_dec. lia.
  - apply does_stw; [lia|done..].
  - apply does_ldw; [lia|done..].
Qed.

(* ------------------------------------------------------------------ *)
(** ** Rules *)

Lemma is_plain_eq s : is_plain s = true → s = plain.
Proof. destruct s as [x y [] [] []]; unfold is_plain; cbn; rewrite ?andb_false_r; try done. intros. unfold plain. f_equal; lia. Qed.

Ltac fine := unfold zs; repeat apply flagged_ok; assumption.
Lemma exec_ok i s w s' w' :
  encodable i = true → sel_ok s → ok w → exec writable i s w = Some (s', w') → ok w' ∧ sel_ok s'.
Proof.
  intros Henc Hs Hok He. pose proof (get_word w (source s) Hok) as Hx.
  assert (sel_ok plain) as Hp by (split; cbn; lia).
  assert (∀ j v w1, ok w1 → word_ok v → ok (put j v w1)) as Hput by (intros; by apply put_ok).
  assert (∀ n, 0 ≤ n < 15 → word_ok (if alt2 s then n else get w n)) as Hr
    by (intros; destruct (alt2 s); [unfold word_ok; lia|by apply get_word]).
  destruct i; cbn [encodable] in Henc; unfold between in Henc; cbn [exec] in He;
    unfold exec_add, exec_sub, exec_shift, finish in He.
  1: by injection He as <- <-.
  1: destruct (prefix s); injection He as <- <-; (split; [auto|]); [done|split; [apply Hs|cbn; lia]].
  1: injection He as <- <-; split; [done|split; cbn; lia].
  1: destruct (prefix s); [done|]; injection He as <- <-; split; [done|split; [cbn; lia|apply Hs]].
  1-3: injection He as <- <-; by split.
  1: injection He as <- <-; split; [|done]; apply Hput; [fine|apply u16_ok].
  1: destruct (alt1 s && alt2 s); injection He as <- <-; (split; [|done]); [fine|]; apply Hput; [fine|apply u16_ok].
  1: destruct (alt1 s); [done|]; injection He as <- <-; split; [|done]; apply Hput; [fine|]; apply land_word; [done|apply Hr; lia].
  1: injection He as <- <-; split; [|done]; apply Hput; [fine|]; destruct (alt1 s); [apply lxor_word|apply lor_word]; try done; apply Hr; lia.
  1: injection He as <- <-; split; [|done]; apply Hput; [fine|]; unfold word_ok in *; lia.
  1-2: destruct (alt1 s); [done|]; injection He as <- <-; split; [|done]; apply Hput; [fine|]; apply u16_ok.
  1: injection He as <- <-; split; [|done]; apply Hput; [fine|]; unfold word_ok in *; destruct (_ <? _); zmod.
  1-3: injection He as <- <-; split; [|done]; apply Hput; [fine|]; unfold word_ok in *; zmod.
  1-2: injection He as <- <-; split; [|done]; apply Hput; [fine|]; apply u16_ok.
  1-2: destruct (is_plain s); [|done]; injection He as <- <-; split; [|done]; apply Hput; [fine|]; unfold word_ok; lia.
  - destruct (_ || _) in He; [done|]. injection He as <- <-. split; [by apply stored_ok|done].
  - destruct (_ || _) in He; [done|]. injection He as <- <-. split; [|done]. apply Hput; [fine|]. apply u16_ok.
Qed.

Context (P : Machine → Prop).
Notation step := (step code origin program_bank rom).

(** From every state that looks like [w] at instruction [a], the run gets to [P]. *)
Definition goes (a : nat) (s : Selectors) (w : State) : Prop :=
  ok w → ∀ m, Ready code origin program_bank rom a s m → sees m = w → runs step P m.

Lemma goes_byte a op s w s' w' :
  code !! a = Some op → is_Some (code !! S a) → op ≠ 0 → does op s w s' w' → ok w' →
  goes (S a) s' w' → goes a s w.
Proof.
  intros Hop [next Hn] Hne Hp Hok' Hgo Hok m Hm Hw.
  destruct (ready_step code origin program_bank rom fits m a s op next Hm Hop Hn Hne) as (m1 & Hstep & Hmid & Hk & Hpw).
  destruct (Hp m1) as (m2 & He & Hq & Hs & Hv).
  { rewrite (kp_selectors _ _ Hk). apply Hm. }
  { rewrite (sees_keeps m m1); [done..|apply Hm|apply Hmid]. }
  rewrite He in Hstep. cbn [mbind result_mbind result_bind] in Hstep.
  destruct (advance_ready code origin program_bank rom fits m1 m2 (S a) Hmid) as [Hr Hk2].
  { rewrite (qu_written _ _ Hq). done. }
  { apply Hq. }
  { apply Hq. }
  { apply Hq. }
  { apply Hq, Hmid. }
  { rewrite (qu_length _ _ Hq). apply Hmid. }
  eapply runs_step; [exact Hstep|]. rewrite Hs in Hr. apply Hgo; [done|exact Hr|].
  rewrite (sees_keeps m2 (advance m2)); [done..| |apply Hr]. rewrite (qu_length _ _ Hq). apply Hmid.
Qed.

(** The load of a register, behind its operands. *)
Lemma goes_loaded m a n x v w :
  Mid a m → pc_written m = false → sees m = w → 0 ≤ n < 15 → u16 x = v → word_ok v → ok w →
  goes a plain (put n v w) → runs step P (advance (resetSelectors (write n x m))).
Proof.
  intros Hmid Hpw Hw Hn Hx Hv Hok Hgo. pose proof (mid_regs _ _ _ _ _ _ Hmid) as Hlen.
  pose proof (quiet_write n x m Hn) as Hq.
  destruct (advance_ready code origin program_bank rom fits m (resetSelectors (write n x m)) a Hmid) as [Hr Hk].
  { cbn. by rewrite (qu_written _ _ Hq). }
  { apply (qu_pc _ _ Hq). }
  { apply (qu_pipe _ _ Hq). }
  { apply (qu_cache _ _ Hq). }
  { apply (qu_resident _ _ Hq), Hmid. }
  { etransitivity; [apply (qu_length _ _ Hq)|done]. }
  apply Hgo; [by apply put_ok|exact Hr|].
  rewrite (sees_keeps _ _ Hk); [|etransitivity; [apply (qu_length _ _ Hq)|done]|apply Hr].
  rewrite sees_reset, sees_write by done. by rewrite Hx, Hw.
Qed.

Lemma goes_load_word a n v w :
  0 ≤ n < 15 → word_ok v → holds code a (Startup.word n v) → is_Some (code !! (a + 3)%nat) →
  goes (a + 3)%nat plain (put n v w) → goes a plain w.
Proof.
  intros Hn Hv Hb [next Hnext] Hgo Hok m Hm Hw.
  unfold Startup.word in Hb. rewrite !holds_cons in Hb. destruct Hb as (H0 & H1 & H2 & _).
  destruct (ready_step code origin program_bank rom fits m a plain _ _ Hm H0 H1) as (m1 & Hstep & Hmid & Hk & Hpw).
  { intros E. apply Z.lor_eq_0_iff in E as [E _]. lia. }
  rewrite execute_iwt in Hstep by (lia || by rewrite (kp_selectors _ _ Hk), (rd_selectors _ _ _ _ _ _ _ Hm)).
  destruct (operand_ok code origin program_bank rom fits m1 _ _ _ Hmid H1 H2) as (m2 & Ho & Hmid2 & Hk2 & Hpw2).
  rewrite Ho in Hstep. cbn [mbind result_mbind result_bind] in Hstep.
  assert (code !! S (S (S a)) = Some next) as Hn' by (by replace (S (S (S a))) with (a + 3)%nat by lia).
  destruct (operand_ok code origin program_bank rom fits m2 _ _ _ Hmid2 H2 Hn') as (m3 & Ho3 & Hmid3 & Hk3 & Hpw3).
  rewrite Ho3 in Hstep. cbn [mbind result_mbind result_bind] in Hstep.
  eapply runs_step; [exact Hstep|]. replace (a + 3)%nat with (S (S (S a))) in Hgo by lia.
  apply (goes_loaded m3 (S (S (S a))) n _ v w); try done; [congruence| |by apply word_value].
  rewrite (sees_keeps m m3); [done| |apply Hm|apply Hmid3]. eauto using Keeps_trans.
Qed.

Lemma goes_load_byte a n v w :
  0 ≤ n < 15 → 0 ≤ v ≤ 127 ∨ 0xff80 ≤ v < 65536 → holds code a [Z.lor 0xa0 n; u8 v] → is_Some (code !! (a + 2)%nat) →
  goes (a + 2)%nat plain (put n v w) → goes a plain w.
Proof.
  intros Hn Hv Hb [next Hnext] Hgo Hok m Hm Hw. rewrite !holds_cons in Hb. destruct Hb as (H0 & H1 & _).
  destruct (ready_step code origin program_bank rom fits m a plain _ _ Hm H0 H1) as (m1 & Hstep & Hmid & Hk & Hpw).
  { intros E. apply Z.lor_eq_0_iff in E as [E _]. lia. }
  rewrite execute_ibt in Hstep by (lia || by rewrite (kp_selectors _ _ Hk), (rd_selectors _ _ _ _ _ _ _ Hm)).
  assert (code !! S (S a) = Some next) as Hn' by (by replace (S (S a)) with (a + 2)%nat by lia).
  destruct (operand_ok code origin program_bank rom fits m1 _ _ _ Hmid H1 Hn') as (m2 & Ho & Hmid2 & Hk2 & Hpw2).
  rewrite Ho in Hstep. cbn [mbind result_mbind result_bind] in Hstep.
  eapply runs_step; [exact Hstep|]. replace (a + 2)%nat with (S (S a)) in Hgo by lia.
  apply (goes_loaded m2 (S (S a)) n _ v w); try done; [congruence| |apply byte_value; lia|unfold word_ok; lia].
  rewrite (sees_keeps m m2); [done| |apply Hm|apply Hmid2]. eauto using Keeps_trans.
Qed.

Lemma code_of_nonzero i op : encodable i = true → code_of i = [op] → op ≠ 0.
Proof.
  intros Henc Hop. destruct i; cbn [code_of Startup.word] in Hop; try discriminate Hop; injection Hop as <-; try done;
    intros E; apply Z.lor_eq_0_iff in E as [E _]; lia.
Qed.

Lemma goes_instr a i s w s' w' :
  encodable i = true → sel_ok s → exec writable i s w = Some (s', w') →
  holds code a (code_of i) → is_Some (code !! (a + length (code_of i))%nat) →
  goes (a + length (code_of i)) s' w' → goes a s w.
Proof.
  intros Henc Hs He Hb Hn Hgo Hok.
  destruct (exec_ok i s w s' w' Henc Hs Hok He) as [Hok' _].
  destruct (code_of i) as [|op [|b1 rest]] eqn:Hcode; [by destruct i| |].
  - rewrite holds_cons in Hb. destruct Hb as [Hb _]. cbn [length] in *. replace (a + 1)%nat with (S a) in * by lia.
    apply (goes_byte a op s w s' w'); try done; [by eapply code_of_nonzero|].
    by apply (exec_sound i op s w s' w').
  - destruct i; cbn [code_of] in Hcode; try discriminate Hcode; cbn [exec] in He;
      (destruct (is_plain s) eqn:Hp; [|done]); apply is_plain_eq in Hp as ->; injection He as <- <-;
      cbn [encodable] in Henc; unfold between in Henc.
    + injection Hcode as <- <- <-. cbn [length] in *. revert Hok. apply (goes_load_byte a n v w); (lia || done).
    + unfold Startup.word in Hcode. injection Hcode as <- <- <-. cbn [length] in *. revert Hok.
      apply (goes_load_word a n v w); (lia || done || (unfold word_ok; lia)).
Qed.

(** A block of instructions. *)
Lemma goes_code l : ∀ a s w s' w',
  sel_ok s → execs writable l s w = Some (s', w') → holds code a (concat (code_of <$> l)) →
  is_Some (code !! (a + length (concat (code_of <$> l)))%nat) →
  goes (a + length (concat (code_of <$> l))) s' w' → goes a s w.
Proof.
  induction l as [|i l IH]; intros a s w s' w' Hs He Hb Hn Hgo.
  - injection He as <- <-. cbn in Hgo. by rewrite Nat.add_0_r in Hgo.
  - cbn [execs] in He. destruct (encodable i) eqn:Henc; [|done].
    destruct (exec writable i s w) as [[s1 w1]|] eqn:He1; [|done]. cbn in He.
    cbn [fmap list_fmap concat] in *. rewrite length_app in *. rewrite Nat.add_assoc in *.
    apply holds_app in Hb as [Hb1 Hb2]. intros Hok. destruct (exec_ok i s w s1 w1 Henc Hs Hok He1) as [Hok1 Hs1].
    revert Hok. apply (goes_instr a i s w s1 w1); try done.
    + destruct (concat (code_of <$> l)) as [|b k] eqn:El; [by rewrite Nat.add_0_r in Hn|].
      rewrite holds_cons in Hb2. destruct Hb2 as [Hb2 _]. by eexists.
    + by apply (IH _ s1 w1 s' w').
Qed.

(* ------------------------------------------------------------------ *)
(** ** Jumps *)

(** What can stand in a delay slot: NOP, or CACHE. *)
Definition slot_ok (b : Z) : Prop := b = 1 ∨ b = 2.

Lemma cache_cached c next : Cached code origin c → 0 ≤ next < 65536 → next mod 16 = 0 →
  Cached code origin (mkICache (cached c) (replicate 32 false) next).
Proof.
  intros Hc Hn Hm. split; cbn [cached cache_valid cache_base]; [done|apply Hc|by rewrite length_replicate|].
  by intros x b o _ _ _ [? _]%lookup_replicate.
Qed.

Lemma slot_step m slot t :
  Coherent code origin program_bank rom m → length (registers m) = 16%nat → pipeline m = slot → slot_ok slot →
  reg m 15 = origin + Z.of_nat t → is_Some (code !! t) →
  ∃ m', step m = Ok (false, m') ∧ Ready code origin program_bank rom t plain m' ∧ Keeps (resetSelectors m) m'.
Proof.
  intros Hco Hlen Hpipe Hslot Hpc [b Hb].
  destruct (step_fetch code origin program_bank rom fits m slot b t) as (m1 & Hstep & Hmid & Hk & Hpw); try done;
    [by destruct Hslot as [-> | ->]|].
  pose proof (fit_size _ _ _ fits). pose proof (fit_origin _ _ _ fits). pose proof (code_size _ _ _ fits _ _ Hb) as [Hsz _].
  set (next := Z.land (reg m1 15) 0xfff0) in *.
  set (m2 := if (slot =? 1) || (cache_base (icache m1) =? next) then m1
             else with_icache (mkICache (cached (icache m1)) (replicate 32 false) next) m1).
  assert (execute slot m1 = Ok (resetSelectors m2)) as He.
  { unfold m2. destruct Hslot as [-> | ->]; [reflexivity|]. unfold Machine.execute.
    cbn [Z.eqb Pos.eqb]. reflexivity. }
  assert (Coherent code origin program_bank rom m2) as Hco2.
  { unfold m2. destruct (_ || _); [apply Hmid|]. split; [apply (resident_ram code origin program_bank rom m1); [done|apply Hmid]|].
    cbn [icache with_icache]. unfold next. rewrite (mid_pc _ _ _ _ _ _ Hmid), line_address by lia.
    apply cache_cached; [apply Hmid| |]; zmod. }
  assert (Keeps m1 m2) as Hk2 by (unfold m2; by destruct (_ || _)).
  assert (reg m2 15 = reg m1 15 ∧ registers m2 = registers m1 ∧ pipeline m2 = pipeline m1 ∧ pc_written m2 = false) as (E15 & Er & Ep & Ew)
    by (unfold m2; by destruct (_ || _)).
  rewrite He in Hstep. cbn [mbind result_mbind result_bind] in Hstep. exists (advance (resetSelectors m2)). split; [done|].
  unfold advance. cbn [resetSelectors pc_written with_selectors]. rewrite Ew.
  assert (reg (with_selectors plain m2) 15 = origin + Z.of_nat t) as E15' by (transitivity (reg m2 15); [done|rewrite E15; apply Hmid]).
  unfold resetSelectors. rewrite E15'. split.
  - split.
    + by apply (Coherent_ext code origin program_bank rom m2).
    + rewrite reg_set_eq; [f_equal; lia|]. cbn. rewrite Er, (mid_regs _ _ _ _ _ _ Hmid). lia.
    + cbn. rewrite Ep. apply Hmid.
    + cbn. rewrite length_insert, Er. apply Hmid.
    + done.
  - split; try (destruct Hk, Hk2; cbn in *; congruence).
    intros r Hr. rewrite reg_set_ne by lia. transitivity (reg m2 r); [done|].
    rewrite (kp_reg _ _ Hk2 r Hr), (kp_reg _ _ Hk r Hr). done.
Qed.

Lemma sees_slot m m' : Keeps (resetSelectors m) m' → length (registers m) = 16%nat → length (registers m') = 16%nat →
  sees m' = sees m.
Proof. intros Hk H1 H2. by rewrite (sees_keeps _ _ Hk). Qed.

(** A short branch and its slot. *)
Lemma goes_branch a op d slot t w :
  holds code a [op; d; slot] → 5 ≤ op ≤ 15 → slot_ok slot → is_Some (code !! (a + 3)%nat) →
  Z.of_nat t = Z.of_nat a + 2 + signed8 d → is_Some (code !! t) →
  (branch_taken op (fl w) = true → goes t plain w) →
  (branch_taken op (fl w) = false → goes (a + 3)%nat plain w) → goes a plain w.
Proof.
  intros Hb Hop Hslot Hn Ht Hbt Htaken Hfall Hok m Hm Hw. rewrite !holds_cons in Hb. destruct Hb as (H0 & H1 & H2 & _).
  destruct (step_branch code origin program_bank rom fits m a plain op d slot t Hm H0 Hop H1 H2 Ht Hbt) as (m1 & Hstep & Hk & Hcase).
  eapply runs_step; [exact Hstep|].
  assert (branch_taken op (flags m) = branch_taken op (fl w)) as E by (by rewrite <- Hw). rewrite E in Hcase.
  replace (a + 3)%nat with (S (S (S a))) in * by lia. destruct (branch_taken op (fl w)).
  - destruct (slot_step m1 slot t) as (m2 & Hs2 & Hr2 & Hk2); try done; [apply Hcase..| | |].
    { apply (dl_pipe _ _ _ _ _ _ _ _) in Hcase. congruence. }
    { by apply Hcase. }
    eapply runs_step; [exact Hs2|]. apply Htaken; try done.
    rewrite (sees_slot _ _ Hk2), (sees_keeps _ _ Hk); [done|apply Hm|apply Hcase|apply Hcase|apply Hr2].
  - destruct Hn as [n Hn].
    destruct (slot_step m1 slot (S (S (S a)))) as (m2 & Hs2 & Hr2 & Hk2); try done; [apply Hcase..| | |].
    { pose proof (rd_pipe _ _ _ _ _ _ _ Hcase). congruence. }
    { rewrite (rd_pc _ _ _ _ _ _ _ Hcase). pose proof (code_size _ _ _ fits _ _ Hn) as [? _].
      pose proof (fit_size _ _ _ fits). pose proof (fit_origin _ _ _ fits). rewrite uwrap_small; lia. }
    eapply runs_step; [exact Hs2|]. apply Hfall; try done.
    rewrite (sees_slot _ _ Hk2), (sees_keeps _ _ Hk); [done|apply Hm|apply Hcase|apply Hcase|apply Hr2].
Qed.

(** [IWT R15] and the NOP behind it. *)
Lemma goes_far a t w :
  holds code a (Startup.word 15 (origin + Z.of_nat t) ++ [1]) → is_Some (code !! t) → goes t plain w → goes a plain w.
Proof.
  intros [Hb [H1 _]%holds_cons]%holds_app Hbt Hgo Hok m Hm Hw. cbn [length Startup.word] in H1.
  destruct (step_jump code origin program_bank rom fits m a 1 t Hm Hb H1 Hbt) as (m1 & Hstep & Hk & Hd).
  eapply runs_step; [exact Hstep|].
  destruct (step_delay_nop code origin program_bank rom fits m1 _ _ _ Hd H1 Hbt) as (m2 & Hs2 & Hr2 & Hk2).
  eapply runs_step; [exact Hs2|]. apply Hgo; try done.
  rewrite (sees_slot _ _ Hk2), (sees_keeps _ _ Hk); [done|apply Hm|apply Hd|apply Hd|apply Hr2].
Qed.

Lemma goes_done a w : (∀ m, ok w → Ready code origin program_bank rom a plain m → sees m = w → P m) → goes a plain w.
Proof. intros H Hok m Hm Hw. apply runs_done. by apply H. Qed.
End Memory.
End Sound.
