(* ===== verification/Gen.v ===== *)
(** * Gen: the emitter of the code generator

    Models the emission helpers of [IRCodeGenerator.cpp] and
    [IRPointerCodeGenerator.cpp] with the two caches they keep,
    [GSUSpillCache.hpp] and [GSUStackCheckCredit.hpp]: bytes, literals, moves,
    pushes with their stack checks, guards with their fault islands, local
    labels and jumps, and the patching of branches.  [Gen] holds the members of
    the class these functions change, [Env] those they only read.  An emission
    is a function on [Gen] that can throw ([Emit]); [e >> k] is [e] and then
    [k].  A byte offset into the code is a [Z]. *)

From S2P Require Import Prelude Target Types Token IR Object.

(* ------------------------------------------------------------------ *)
(** ** GSUSpillCache *)

Module SpillCache.

(** The copies in register order, as [std::map] has them. *)
Record SpillCache := mkSpill { m_spare : list Z; m_copies : list (Z * IRValueId) }.

Definition clear : SpillCache := mkSpill [] [].

Definition enter (spare : list Z) (c : SpillCache) : SpillCache :=
  mkSpill spare (List.filter (λ e, existsb (Z.eqb (fst e)) spare) (m_copies c)).

Definition clobber (reg : Z) (c : SpillCache) : SpillCache :=
  mkSpill (m_spare c) (List.filter (λ e, negb (fst e =? reg)) (m_copies c)).

Definition find (value : IRValueId) (c : SpillCache) : Z :=
  match List.find (λ e, snd e =? value) (m_copies c) with Some (reg, _) => reg | None => -1 end.

(** The registers calls preserve for the caller's allocation. *)
Definition is_home (reg : Z) : bool := (reg =? 5) || (reg =? 7) || (reg =? 8).

Definition choose (remaining : gmap Z Z) (c : SpillCache) : Z :=
  match List.find (λ reg, is_home reg &&
          match find_key (m_copies c) reg with
          | None => true
          | Some v => match remaining !! v with None => true | Some uses => uses =? 0 end
          end) (m_spare c) with
  | Some reg => reg
  | None => -1
  end.

(** [m_copies[reg] = value], in key order. *)
Fixpoint insert (reg : Z) (value : IRValueId) (l : list (Z * IRValueId)) : list (Z * IRValueId) :=
  match l with
  | [] => [(reg, value)]
  | (k, v) :: l' => if reg <? k then (reg, value) :: l
                    else if reg =? k then (reg, value) :: l' else (k, v) :: insert reg value l'
  end.

Definition record (reg : Z) (value : IRValueId) (c : SpillCache) : SpillCache :=
  if value_isValid value && is_home reg && existsb (Z.eqb reg) (m_spare c)
  then mkSpill (m_spare c) (insert reg value (m_copies c)) else c.

End SpillCache.

(* ------------------------------------------------------------------ *)
(** ** GSUStackCheckCredit *)

Module Credit.
Definition covers (required bytes : Z) : bool := required <=? bytes.
Definition checked (required bytes : Z) : Z := Z.max bytes (Z.min required 65535).
Definition decrease (amount bytes : Z) : Z := if bytes <? amount then 0 else bytes - amount.
Definition increase (amount bytes : Z) : Z := bytes + Z.min amount (65535 - bytes).
End Credit.

(* ------------------------------------------------------------------ *)
(** ** The generator *)

Record RamWordAddress := mkRamWord { rw_source : IRValueId; rw_has_frame : bool; rw_frame_offset : Z }.
Definition no_ram_word : RamWordAddress := mkRamWord InvalidValue false 0.

Record BranchFixup := mkFixup {
  fx_patch : Z; fx_target : IRBlockId; fx_source : Token;
  fx_long : bool; fx_local : string; fx_serial : Z
}.

(** A branch inside the code of one instruction. *)
Record LocalBranchFixup := mkLocalFixup { lf_patch : Z; lf_target : Z; lf_source : Token }.

Record Gen := mkGen {
  g_code : list Z;
  g_symbols : list SymbolEntry;
  g_relocations : list RelocationEntry;
  g_accumulator : IRValueId;
  g_spill : SpillCache.SpillCache;
  g_credit : Z;
  g_last_ram : RamWordAddress;
  g_fixups : list BranchFixup;
  g_branch_serial : Z;
  g_label_serial : Z;
  g_faults : gmap Z Z;
  g_epilogue : string;
  g_helpers : gset bool;
  g_plotting : bool
}.

Record Env := mkEnv {
  e_optimization : OptimizationLevel;
  e_function : string;
  e_force_long : bool;
  e_long_functions : gset string;
  e_long_branches : gmap string (gset Z);
  e_manual_cache : bool;
  e_share_division : bool;
  e_division_candidates : gset bool;
  e_divmod_offsets : gmap Z Z;
  e_block_addresses : gmap Z Z
}.

Definition optimized (v : Env) : bool := negb (bool_decide (e_optimization v = Baseline)).
Definition globallyOptimized (v : Env) : bool := isGlobalOptimization (e_optimization v).
Definition sizeOptimized (v : Env) : bool := bool_decide (e_optimization v = OptSize).

Definition with_object (code : list Z) (symbols : list SymbolEntry) (relocations : list RelocationEntry) (g : Gen) : Gen :=
  mkGen code symbols relocations (g_accumulator g) (g_spill g) (g_credit g) (g_last_ram g) (g_fixups g)
    (g_branch_serial g) (g_label_serial g) (g_faults g) (g_epilogue g) (g_helpers g) (g_plotting g).
Definition with_accumulator (v : IRValueId) (g : Gen) : Gen :=
  mkGen (g_code g) (g_symbols g) (g_relocations g) v (g_spill g) (g_credit g) (g_last_ram g) (g_fixups g)
    (g_branch_serial g) (g_label_serial g) (g_faults g) (g_epilogue g) (g_helpers g) (g_plotting g).
Definition with_spill (c : SpillCache.SpillCache) (g : Gen) : Gen :=
  mkGen (g_code g) (g_symbols g) (g_relocations g) (g_accumulator g) c (g_credit g) (g_last_ram g) (g_fixups g)
    (g_branch_serial g) (g_label_serial g) (g_faults g) (g_epilogue g) (g_helpers g) (g_plotting g).
Definition with_credit (c : Z) (g : Gen) : Gen :=
  mkGen (g_code g) (g_symbols g) (g_relocations g) (g_accumulator g) (g_spill g) c (g_last_ram g) (g_fixups g)
    (g_branch_serial g) (g_label_serial g) (g_faults g) (g_epilogue g) (g_helpers g) (g_plotting g).
Definition with_last_ram (r : RamWordAddress) (g : Gen) : Gen :=
  mkGen (g_code g) (g_symbols g) (g_relocations g) (g_accumulator g) (g_spill g) (g_credit g) r (g_fixups g)
    (g_branch_serial g) (g_label_serial g) (g_faults g) (g_epilogue g) (g_helpers g) (g_plotting g).
Definition with_fixups (f : list BranchFixup) (serial : Z) (g : Gen) : Gen :=
  mkGen (g_code g) (g_symbols g) (g_relocations g) (g_accumulator g) (g_spill g) (g_credit g) (g_last_ram g) f
    serial (g_label_serial g) (g_faults g) (g_epilogue g) (g_helpers g) (g_plotting g).
Definition with_labels (serial : Z) (g : Gen) : Gen :=
  mkGen (g_code g) (g_symbols g) (g_relocations g) (g_accumulator g) (g_spill g) (g_credit g) (g_last_ram g) (g_fixups g)
    (g_branch_serial g) serial (g_faults g) (g_epilogue g) (g_helpers g) (g_plotting g).
Definition with_faults (f : gmap Z Z) (g : Gen) : Gen :=
  mkGen (g_code g) (g_symbols g) (g_relocations g) (g_accumulator g) (g_spill g) (g_credit g) (g_last_ram g) (g_fixups g)
    (g_branch_serial g) (g_label_serial g) f (g_epilogue g) (g_helpers g) (g_plotting g).
Definition with_epilogue (l : string) (g : Gen) : Gen :=
  mkGen (g_code g) (g_symbols g) (g_relocations g) (g_accumulator g) (g_spill g) (g_credit g) (g_last_ram g) (g_fixups g)
    (g_branch_serial g) (g_label_serial g) (g_faults g) l (g_helpers g) (g_plotting g).
Definition with_helpers (h : gset bool) (g : Gen) : Gen :=
  mkGen (g_code g) (g_symbols g) (g_relocations g) (g_accumulator g) (g_spill g) (g_credit g) (g_last_ram g) (g_fixups g)
    (g_branch_serial g) (g_label_serial g) (g_faults g) (g_epilogue g) h (g_plotting g).
Definition with_plotting (b : bool) (g : Gen) : Gen :=
  mkGen (g_code g) (g_symbols g) (g_relocations g) (g_accumulator g) (g_spill g) (g_credit g) (g_last_ram g) (g_fixups g)
    (g_branch_serial g) (g_label_serial g) (g_faults g) (g_epilogue g) (g_helpers g) b.

(** [m_object_file.code_section.size()] *)
Definition here (g : Gen) : Z := zlen (g_code g).

(** ** Emissions *)

Notation Emit := (Gen → result Gen) (only parsing).
Definition skip : Emit := λ g, Ok g.
Definition andthen (e k : Emit) : Emit := λ g, h ← e g; k h.
Notation "e >> k" := (andthen e k) (at level 60, right associativity).
Definition when (b : bool) (e : Emit) : Emit := if b then e else skip.
Definition pure (f : Gen → Gen) : Emit := λ g, Ok (f g).
Definition repeat_emit (n : nat) (e : Emit) : Emit := Nat.iter n (andthen e) skip.
Fixpoint each {A} (f : A → Emit) (l : list A) : Emit :=
  match l with [] => skip | x :: l => f x >> each f l end.

(** The registers with a role in the calling convention. *)
Definition AddressFaultRegister : Z := 6.
Definition FramePointerRegister : Z := 9.
Definition StackPointerRegister : Z := 10.
Definition LinkRegister : Z := 11.
Definition StackLimitPrefix : string := "__disco_stack_limit_".

Section Emission.
Context (v : Env).

Definition emitByte (byte : Z) : Emit := λ g,
  Ok (with_object (g_code g ++ [u8 byte]) (g_symbols g) (g_relocations g) (with_accumulator InvalidValue g)).
Definition emitWord (word : Z) : Emit := emitByte (Z.land word 255) >> emitByte (Z.land (Z.shiftr word 8) 255).

Definition clobber (reg : Z) : Emit := pure (λ g, with_spill (SpillCache.clobber reg (g_spill g)) g).
Definition clear_spill : Emit := pure (with_spill SpillCache.clear).
Definition forget_ram : Emit := pure (with_last_ram no_ram_word).
Definition reset_credit : Emit := pure (with_credit 0).

Definition emitWordLiteral (destination value : Z) : Emit :=
  clobber destination >> emitByte (Z.lor 0xf0 destination) >> emitWord value.

Definition emitRegisterLiteral (reg value : Z) : Emit :=
  clobber reg >>
  (if optimized v && negb (reg =? 15) && ((value <=? 127) || (0xff80 <=? value))
   then emitByte (Z.lor 0xa0 reg) >> emitByte value
   else emitWordLiteral reg value).

Definition emitLiteral (value : Z) : Emit := λ g,
  throw_if ((value <? -32768) || (65535 <? value))
    (CompileError "IR codegen: literal is outside the 16-bit GSU range." 0 0);;
  emitRegisterLiteral 0 (u16 value) g.

Definition emitMove (destination source : Z) : Emit := λ g,
  let cached := g_accumulator g in
  (clobber destination >>
   when (destination =? StackPointerRegister) reset_credit >>
   emitByte (Z.lor 0x20 source) >> emitByte (Z.lor 0x10 destination) >>
   when (globallyOptimized v && negb (destination =? 0)) (pure (with_accumulator cached))) g.

Definition addRelocation (symbol : string) (patch : Z) (type : RelocationType) : Emit :=
  pure (λ g, with_object (g_code g) (g_symbols g)
               (g_relocations g ++ [mkRelocation symbol CODE (u32 patch) type]) g).

(** A terminal island: the fault in its register and STOP. *)
Definition emitAddressFault (fault : Z) : Emit :=
  when (globallyOptimized v) (pure (λ g, with_faults (<[fault := here g]> (g_faults g)) g)) >>
  emitRegisterLiteral AddressFaultRegister fault >> emitByte 0 >> emitByte 1.

Definition emitGuard (success_branch fault : Z) : Emit := λ g,
  let fresh :=
    emitByte success_branch >> emitByte (if optimized v && ((fault <=? 127) || (0xff80 <=? fault)) then 5 else 6) >>
    emitByte 1 >> emitAddressFault fault in
  match g_faults g !! fault with
  | Some previous =>
      let distance := previous - here g - 2 in
      if globallyOptimized v && (6 <=? success_branch) && (success_branch <=? 15)
         && (-128 <=? distance) && (distance <=? 127)
      then (emitByte (Z.lxor success_branch 1) >> emitByte (Z.land distance 255) >> emitByte 1) g
      else fresh g
  | None => fresh g
  end.

Definition emitCompare (left right : Z) : Emit :=
  emitRegisterLiteral 3 right >> emitByte (Z.lor 0xb0 left) >> emitByte 0x3f >> emitByte 0x63.

Definition emitStackGuard (required : Z) (source : Token) : Emit := λ g,
  throw_if (65535 <? required) (error_at "Stack requirement exceeds one bank." source);;
  if globallyOptimized v && Credit.covers required (g_credit g) then Ok g else
  (let patch := here g in
   emitWordLiteral 3 0 >>
   addRelocation (StackLimitPrefix +:+ pretty required) patch ADDR16_RAM >>
   emitByte 0xba >> emitByte 0x3f >> emitByte 0x63 >>
   emitGuard 13 2 >>
   when (globallyOptimized v) (pure (λ g, with_credit (Credit.checked required (g_credit g)) g))) g.

Definition emitPush (reg : Z) : Emit :=
  forget_ram >> emitStackGuard 2 no_token >>
  when (negb (reg =? 0)) (emitByte (Z.lor 0x20 reg)) >>
  emitByte 0x3a >> emitByte 0xea >> emitByte 0xea >>
  when (globallyOptimized v) (pure (λ g, with_credit (Credit.decrease 2 (g_credit g)) g)).

Definition emitPop (reg : Z) : Emit :=
  clobber reg >> forget_ram >>
  emitByte 0xda >> emitByte 0xda >>
  when (negb (reg =? 0)) (emitByte (Z.lor 0x20 reg)) >>
  emitByte 0x4a >>
  when (globallyOptimized v) (pure (λ g, with_credit (Credit.increase 2 (g_credit g)) g)).

Definition emitStore (address value_reg : Z) (byte : bool) : Emit :=
  let temp := if value_reg =? 3 then 0 else 3 in
  let high := 11 <? address in
  forget_ram >>
  when high (emitMove temp address >> when (temp =? 0) (pure (with_accumulator InvalidValue))) >>
  when (negb (value_reg =? 0)) (emitByte (Z.lor 0x20 value_reg)) >>
  when byte (emitByte 0x3d) >>
  emitByte (Z.lor 0x30 (if high then temp else address)).

(** The chunks of fifteen an immediate operand can hold. *)
Fixpoint chunks (fuel : nat) (remaining : Z) : list Z :=
  match fuel with
  | O => []
  | S fuel => if 0 <? remaining then Z.min remaining 15 :: chunks fuel (remaining - Z.min remaining 15) else []
  end.

Definition emitImmediateArithmetic (op_base value : Z) (source : Token) : Emit := λ g,
  throw_if (value <? 0) (error_at "IR codegen: immediate arithmetic value cannot be negative." source);;
  (if optimized v && (30 <? value) && (value <=? 65535)
   then emitRegisterLiteral 3 (u16 value) >> emitByte (Z.lor op_base 3)
   else each (λ chunk, emitByte 0x3e >> emitByte (Z.lor op_base chunk)) (chunks (Z.to_nat value) value)) g.

Definition emitAdjustStack (bytes : Z) (add : bool) : Emit :=
  let op_base := if add then 0x50 else 0x60 in
  when (globallyOptimized v)
    (pure (λ g, with_credit ((if add then Credit.increase else Credit.decrease) bytes (g_credit g)) g)) >>
  (if optimized v && (15 <? bytes) && (bytes <=? 65535)
   then emitRegisterLiteral 3 (u16 bytes) >> emitByte 0x2a >> emitByte (Z.lor op_base 3)
   else each (λ chunk, emitByte 0x2a >> emitByte 0x3e >> emitByte (Z.lor op_base chunk)) (chunks (Z.to_nat bytes) bytes)).

Definition scratchRegister (g : Gen) : Z := if g_plotting g then 3 else 1.

(** ** Labels and branches *)

Definition longBranch (serial : Z) : bool :=
  e_force_long v || bool_decide (e_function v ∈ e_long_functions v)
  || match e_long_branches v !! e_function v with
     | Some serials => bool_decide (serial ∈ serials)
     | None => false
     end.

Definition localLabel (g : Gen) : string * Gen :=
  (chr 1 +:+ e_function v +:+ "@ptr" +:+ pretty (g_label_serial g), with_labels (g_label_serial g + 1) g).

Definition bindLabel (name : string) : Emit :=
  clear_spill >> pure (with_accumulator InvalidValue) >> forget_ram >> reset_credit >>
  pure (λ g, with_object (g_code g) (g_symbols g ++ [mkSymbol name CODE (u32 (here g))]) (g_relocations g) g).

Definition addFixup (f : BranchFixup) : Emit :=
  pure (λ g, with_fixups (g_fixups g ++ [f]) (g_branch_serial g) g).

Definition far_jump (name : string) (condition : Z) : Emit :=
  when (negb (condition =? 5)) (emitByte (Z.lxor condition 1) >> emitByte 5 >> emitByte 1) >>
  (λ g, (emitRegisterLiteral 15 0 >> addRelocation name (here g) ADDR16_IWT) g) >>
  emitByte 1.

Definition emitLocalJump (name : string) (condition : Z) : Emit := λ g,
  if optimized v then
    let serial := g_branch_serial g in
    let g := with_fixups (g_fixups g) (serial + 1) g in
    if longBranch serial then far_jump name condition g
    else
      (emitByte condition >>
       λ g, (emitByte 0 >> emitByte 1 >>
             addFixup (mkFixup (here g) InvalidBlock (token UNKNOWN name 0 0) false name serial)) g) g
  else far_jump name condition g.

Definition emitFunctionEpilogue : Emit :=
  let body :=
    emitMove StackPointerRegister FramePointerRegister >>
    (if String.eqb (e_function v) "main"
     then emitRegisterLiteral AddressFaultRegister 0 >> emitByte 0 >> emitByte 1
     else emitPop FramePointerRegister >> emitPop LinkRegister >>
          emitByte (Z.lor 0x90 LinkRegister) >> emitByte 1) in
  λ g,
  if globallyOptimized v then
    if negb (String.eqb (g_epilogue g) "") then emitLocalJump (g_epilogue g) 5 g
    else let '(label, g) := localLabel g in (pure (with_epilogue label) >> bindLabel label >> body) g
  else body g.

(** ** Patching *)

(** [labels.emplace]: the first symbol of a name. *)
Definition code_label (symbols : list SymbolEntry) (name : string) : option Z :=
  s_offset <$> List.find (λ s, bool_decide (s_section s = CODE) && String.eqb (s_name s) name) symbols.

Definition internalBlockSymbol (function : string) (block : IRBlockId) : string :=
  chr 1 +:+ function +:+ "#" +:+ pretty block.

(** The offset a fixup jumps to. *)
Definition fixup_target (symbols : list SymbolEntry) (f : BranchFixup) : result Z :=
  match (if String.eqb (fx_local f) "" then e_block_addresses v !! fx_target f
         else if optimized v then code_label symbols (fx_local f) else None) with
  | Some t => Ok t
  | None => Err (error_at "IR codegen: branch target was not emitted." (fx_source f))
  end.

(** What a round of [patchBranches] has to report: the branches to widen, and
    the baseline's [NeedsLongBranch]. *)
Inductive PatchResult := Patched (g : Gen) (widen : list Z) | NeedsLongBranch.

Definition patch_fixup (s : PatchResult) (f : BranchFixup) : result PatchResult :=
  match s with
  | NeedsLongBranch => Ok NeedsLongBranch
  | Patched g widen =>
      t ← fixup_target (g_symbols g) f;
      if fx_long f then
        g ← addRelocation (if String.eqb (fx_local f) "" then internalBlockSymbol (e_function v) (fx_target f) else fx_local f)
              (fx_patch f - 1) ADDR16_IWT g;
        Ok (Patched g widen)
      else
        let distance := t - (fx_patch f + 1) in
        if (distance <? -128) || (127 <? distance) then
          Ok (if optimized v then Patched g (widen ++ [fx_serial f]) else NeedsLongBranch)
        else
          code ← set_at (g_code g) (fx_patch f) (u8 distance);
          Ok (Patched (with_object code (g_symbols g) (g_relocations g) g) widen)
  end.

Definition patchBranches (g : Gen) : result PatchResult := foldM patch_fixup (Patched g []) (g_fixups g).

Definition patchLocalBranches (fixups : list LocalBranchFixup) : Emit :=
  reset_credit >>
  each (λ f g,
    let distance := lf_target f - (lf_patch f + 1) in
    throw_if ((distance <? -128) || (127 <? distance))
      (error_at "IR codegen: optimized switch branch is out of range." (lf_source f));;
    code ← set_at (g_code g) (lf_patch f) (u8 distance);
    Ok (with_object code (g_symbols g) (g_relocations g) g)) fixups.

End Emission.
