(* ===== verification/GenInt.v ===== *)
(** * GenInt: code for integer operations

    Models [IRIntegerCodeGenerator.cpp] and the scalar half of
    [IRCodeGenerator.cpp]: shifts, masks, constant arithmetic, the checked
    shifts and the division kernel, multiplication, comparisons and casts.

    These methods and [materialize], which loads a value into R0, call each
    other; [materialize] is an argument here ([Env] and the allocation are the
    other state they read). *)

From S2P Require Import Prelude Target Types Token IR Object ScalarFold Cost Allocator Gen.

(** What the code generator knows of the values of a function: their
    definitions, homes and frame slots, the uses of each, and the proofs of
    [GSUAddressProof] about products. *)
Inductive MultiplyKind := FullWord | SignedByte | UnsignedByte.
#[global] Instance MultiplyKind_eq_dec : EqDecision MultiplyKind.
Proof. solve_decision. Defined.

Record Values := mkValues {
  m_values : gmap Z IRInstruction;
  m_use_counts : gmap Z Z;
  m_spill_offsets : gmap Z Z;
  m_register_allocator : Allocator;
  multiplyKind : IRInstruction → MultiplyKind
}.

Definition producer (n : Values) (value : IRValueId) (source : Token) : result IRInstruction :=
  throw_if (negb (value_isValid value)) (error_at "IR codegen: invalid value reference." source);;
  match m_values n !! value with
  | Some i => Ok i
  | None => Err (error_at "IR codegen: value has no defining instruction." source)
  end.

Definition constantValue (n : Values) (value : IRValueId) : result (option Z) :=
  i ← producer n value no_token;
  Ok (if is_op (i_opcode i) OpConstant then Some (i_immediate i) else None).

(** The place of a value that has a register. *)
Definition register_of (n : Values) (value : IRValueId) : option Z :=
  l ← find (m_register_allocator n) value;
  if has_register l then Some (physical_register l) else None.

Definition usesRegisterAllocation (v : Env) (n : Values) (value : IRValueId) : bool :=
  match m_spill_offsets n !! value with
  | Some _ => false
  | None =>
      match register_of n value, m_use_counts n !! value with
      | Some _, Some uses => optimized v || (1 <? uses)
      | _, _ => false
      end
  end.


(* ------------------------------------------------------------------ *)
(** ** Shifts, masks and constant arithmetic *)

(** The shift count of a power of two below 2^16. *)
Definition powerOfTwo (value : Z) : option Z :=
  if (value =? 0) || negb (Z.land value (value - 1) =? 0) then None else Some (Z.log2 value).

Definition emitConstantShift (left : bool) (count : Z) (unsigned_right : bool) : Gen → result Gen :=
  when (8 <=? count)
    (emitByte (if left then 0x9e else 0xc0) >>
     (if left then emitByte 0x4d else when (negb unsigned_right) (emitByte 0x95))) >>
  repeat_emit (Z.to_nat (if 8 <=? count then count - 8 else count))
    (emitByte (if left then 0x50 else if unsigned_right then 0x03 else 0x96)).

Section Integer.
Context (v : Env) (n : Values).

Definition emitWordMask (mask : Z) : Gen → result Gen :=
  if (0 <? mask) && (mask <=? 15) then emitByte 0x3e >> emitByte (Z.lor 0x70 mask)
  else emitRegisterLiteral v 3 mask >> emitByte 0x73.

(** Two's complement of R0. *)
Definition negate : Gen → result Gen := emitByte 0x4f >> emitByte 0xd0.

Definition emitBoolNormalization : Gen → result Gen := λ g,
  let '(zero, g) := localLabel v g in
  let '(end_, g) := localLabel v g in
  (emitCompare v 0 0 >> emitLocalJump v zero 9 >>
   emitLiteral v 1 >> emitLocalJump v end_ 5 >>
   bindLabel zero >> emitLiteral v 0 >> bindLabel end_) g.

(** The rest of [emitCast] for a scalar target, behind its operand. *)
Definition scalar_cast (target source : CType) : Gen → result Gen :=
  if bool_decide (base target = BaseBool) then emitBoolNormalization
  else if sizeInBytes target =? 1 then emitByte 0x9e >> when (negb (is_unsigned target)) (emitByte 0x95)
  else if (sizeInBytes target =? 2) && (sizeInBytes source =? 1) && negb (is_unsigned source) then emitByte 0x95
  else skip.

(** ** Operations on R0 and the scratch register *)

(** Sign handling around the division: copies the sign of R1 (xor R3) to the
    stack, and makes R1 and R3 positive. *)
Definition make_positive (reg : Z) : Gen → result Gen := λ g,
  let '(positive, g) := localLabel v g in
  (emitByte (Z.lor 0xb0 reg) >> emitByte (Z.lor 0x10 reg) >> emitByte 0x3e >> emitByte 0x50 >>
   emitLocalJump v positive 10 >>
   emitMove v 0 reg >> negate >> emitMove v reg 0 >>
   bindLabel positive) g.

Definition push_signs : Gen → result Gen :=
  emitMove v 4 3 >> emitRegisterLiteral v 6 0x8000 >>
  emitMove v 0 1 >> emitByte 0x3d >> emitByte 0xc3 >> emitByte 0x76 >>
  emitPush v 0 >>
  emitMove v 3 4 >>
  emitMove v 0 1 >> emitByte 0x76 >> emitPush v 0 >>
  emitMove v 3 4.

Definition restore_sign (value sign : Z) : Gen → result Gen := λ g,
  let '(positive, g) := localLabel v g in
  (emitByte (Z.lor 0xb0 sign) >> emitByte 0x3f >> emitByte 0x64 >>
   emitLocalJump v positive 9 >>
   emitMove v 0 value >> negate >> emitMove v value 0 >>
   bindLabel positive) g.

(** [m_object_file.code_section.at(slot) = byte] *)
Definition setByte (slot byte : Z) : Gen → result Gen := λ g,
  code ← set_at (g_code g) slot byte;
  Ok (with_object code (g_symbols g) (g_relocations g) g).

(** The sixteen steps: R1 the dividend and quotient, R2 the remainder, R3 the
    divisor, R4 the count; [prepare] is what is emitted behind the labels. *)
Definition division_loop (prepare : Gen → result Gen) : Gen → result Gen := λ g,
  let '(loop, g) := localLabel v g in
  let '(subtract, g) := localLabel v g in
  let '(keep, g) := localLabel v g in
  (prepare >>
   bindLabel loop >>
   emitByte 0xb1 >> emitByte 0x11 >> emitByte 0x51 >>
   emitByte 0xb2 >> emitByte 0x12 >> emitByte 0x3d >> emitByte 0x52 >>
   emitLocalJump v subtract 13 >>
   emitByte 0xb2 >> emitByte 0x3f >> emitByte 0x63 >>
   emitLocalJump v keep 12 >>
   bindLabel subtract >>
   emitByte 0xb2 >> emitByte 0x12 >> emitByte 0x63 >>
   emitByte 0xd1 >>
   bindLabel keep >>
   emitByte 0xe4 >>
   emitLocalJump v loop 8) g.

(** [m_divmod_offsets.at(...)] into R3, and the address of that frame word. *)
Definition divmod_address (value : IRValueId) : Gen → result Gen := λ g,
  offset ← map_at (e_divmod_offsets v) value;
  (emitRegisterLiteral v 3 (u16 offset) >> emitByte 0xb9 >> emitByte 0x13 >> emitByte 0x53) g.

Definition is_divmod (i : IRInstruction) : bool := is_op (i_opcode i) OpDivMod.

(** The frame word of the component the instruction does not return. *)
Definition save_divmod (i : IRInstruction) : Gen → result Gen :=
  divmod_address (i_result i) >>
  emitStore v 3 (if String.eqb (i_operation i) "/" then 2 else 1) false.

Definition emitSharedDivision (i : IRInstruction) : Gen → result Gen := λ g,
  let unsigned := is_unsigned (i_type i) in
  let label := chr 1 +:+ "__disco_os_divmod_" +:+ (if unsigned then "u" else "s") in
  (emitMove v 4 (scratchRegister g) >>
   when (g_plotting g) (emitPush v 1 >> emitPush v 2) >>
   emitMove v 3 4 >> emitMove v 1 0 >>
   pure (λ g, with_helpers ({[unsigned]} ∪ g_helpers g) g) >>
   clear_spill >> forget_ram >>
   emitByte 0x94 >>
   (λ g, (emitWordLiteral 15 0 >> addRelocation label (here g) ADDR16_IWT) g) >>
   emitByte 1 >>
   reset_credit >>
   when (is_divmod i) (save_divmod i) >>
   emitMove v 0 (if String.eqb (i_operation i) "/" then 1 else 2) >>
   when (g_plotting g) (emitPop v 2 >> emitPop v 1)) g.

(** The checked shift by the scratch register. *)
Definition emit_shift (i : IRInstruction) : Gen → result Gen := λ g,
  (emitMove v 6 (scratchRegister g) >>
   emitCompare v 6 16 >>
   emitGuard v 12 5 >>
   (λ g,
     let '(loop, g) := localLabel v g in
     let '(end_, g) := localLabel v g in
     (emitCompare v 6 0 >>
      emitLocalJump v end_ 9 >>
      bindLabel loop >>
      emitByte (if String.eqb (i_operation i) "<<" then 0x50 else if is_unsigned (i_type i) then 0x03 else 0x96) >>
      emitByte 0xe6 >>
      emitLocalJump v loop 8 >>
      bindLabel end_) g)) g.

(** The division in line. *)
Definition emit_division (i : IRInstruction) : Gen → result Gen := λ g,
  let scratch := scratchRegister g in
  let plotting := g_plotting g in
  let signed_operation := negb (is_unsigned (i_type i)) in
  let division := String.eqb (i_operation i) "/" in
  ((if sizeOptimized v && negb plotting then emitMove v 3 scratch
    else emitMove v 4 scratch >> when plotting (emitPush v 1 >> emitPush v 2) >> emitMove v 3 4) >>
   emitMove v 1 0 >>
   emitRegisterLiteral v 6 0 >>
   emitByte 0xb3 >> emitByte 0x3f >> emitByte 0x66 >>
   (λ g,
     let division_guard_slot := here g + 2 in
     (emitGuard v 8 6 >>
      when signed_operation (push_signs >> make_positive 1 >> make_positive 3) >>
      emitRegisterLiteral v 2 0 >>
      emitRegisterLiteral v 4 16 >>
      division_loop (when (globallyOptimized v && negb (e_manual_cache v)) (setByte division_guard_slot 2))) g) >>
   when (negb (is_divmod i)) (emitMove v 0 (if division then 1 else 2)) >>
   when signed_operation
     (emitPop v 6 >> emitPop v 3 >> emitRegisterLiteral v 4 0 >>
      (if is_divmod i then restore_sign 1 3 >> restore_sign 2 6
       else
         emitByte (if division then 0xb3 else 0xb6) >> emitByte 0x3f >> emitByte 0x64 >>
         (λ g,
           let '(positive, g) := localLabel v g in
           (emitLocalJump v positive 9 >> negate >> bindLabel positive) g))) >>
   when (is_divmod i) (save_divmod i >> emitMove v 0 (if division then 1 else 2)) >>
   when plotting (emitPop v 2 >> emitPop v 1)) g.

Definition emitIntegerOperation (i : IRInstruction) : Gen → result Gen := λ g,
  let operation := i_operation i in
  if String.eqb operation "&" || String.eqb operation "|" || String.eqb operation "^" then
    (when (String.eqb operation "^") (emitByte 0x3d) >>
     emitByte (Z.lor (if String.eqb operation "&" then 0x70 else 0xc0) (scratchRegister g))) g
  else if String.eqb operation "<<" || String.eqb operation ">>" then emit_shift i g
  else if negb (String.eqb operation "/") && negb (String.eqb operation "%") then
    Err (error_at "IR codegen: unknown integer operation." (i_source i))
  else if sizeOptimized v && e_share_division v && bool_decide (is_unsigned (i_type i) ∈ e_division_candidates v)
  then emitSharedDivision i g
  else emit_division i g.

End Integer.

(** The division kernels shared by a program, emitted behind its functions.
    Each is patched on its own; [false] says that a branch has to be widened. *)
Definition division_helper (v : Env) (unsigned : bool) : Gen → result (Gen * bool) := λ g,
  let v := mkEnv (e_optimization v) ("__disco_os.divmod." +:+ (if unsigned then "u" else "s")) (e_force_long v)
             (e_long_functions v) (e_long_branches v) (e_manual_cache v) (e_share_division v)
             (e_division_candidates v) (e_divmod_offsets v) ∅ in
  let g := mkGen (g_code g) (g_symbols g) (g_relocations g) (g_accumulator g) SpillCache.clear 0 no_ram_word []
             0 0 ∅ (g_epilogue g) (g_helpers g) false in
  g ← (bindLabel (chr 1 +:+ "__disco_os_divmod_" +:+ (if unsigned then "u" else "s")) >>
       emitRegisterLiteral v 6 0 >> emitByte 0xb3 >> emitByte 0x3f >> emitByte 0x66 >> emitGuard v 8 6 >>
       when (negb unsigned) (push_signs v >> make_positive v 1 >> make_positive v 3) >>
       emitRegisterLiteral v 2 0 >> emitRegisterLiteral v 4 16 >>
       division_loop v skip >>
       when (negb unsigned)
         (emitPop v 6 >> emitPop v 3 >> emitRegisterLiteral v 4 0 >> restore_sign v 1 3 >> restore_sign v 2 6) >>
       emitByte 0x9b >> emitByte 1) g;
  p ← patchBranches v g;
  Ok (match p with Patched g widen => (g, bool_decide (widen = [])) | NeedsLongBranch => (g, false) end).

Definition emitDivisionHelpers (v : Env) : Gen → result (Gen * bool) := λ g,
  foldM (λ (s : Gen * bool) unsigned,
    if bool_decide (unsigned ∈ g_helpers g)
    then '(g, fits) ← division_helper v unsigned (fst s); Ok (g, snd s && fits) else Ok s)
    (g, true) [false; true].

(* ------------------------------------------------------------------ *)
(** ** Operations on values *)

Section Values.
Context (v : Env) (n : Values) (materialize : IRValueId → Gen → result Gen).

Definition operand_at (i : IRInstruction) (k : nat) : result IRValueId :=
  match i_operands i !! k with Some x => Ok x | None => Err OutOfRange end.

Definition emitBitExtract (i : IRInstruction) : Gen → result Gen := λ g,
  input ← operand_at i 0;
  (materialize input >> emitConstantShift false (i_immediate i) true >> emitWordMask v 1) g.

(** The operand and the literal of an operation on a constant. *)
Definition constant_operand (i : IRInstruction) : result (option (IRValueId * Z)) :=
  left ← operand_at i 0; right ← operand_at i 1;
  r ← constantValue n right;
  match r with
  | Some literal => Ok (Some (left, literal))
  | None =>
      if negb (String.eqb (i_operation i) "*") then Ok None else
      l ← constantValue n left;
      Ok (match l with Some literal => Some (right, literal) | None => None end)
  end.

(** The shift that does the operation, and whether its result is negated. *)
Definition constant_shift (i : IRInstruction) (raw : Z) : option (Z * bool) :=
  if String.eqb (i_operation i) "*" then
    match powerOfTwo raw with
    | Some count => Some (count, false)
    | None => count ← powerOfTwo (u16 (- raw)); Some (count, true)
    end
  else
    let negated := negb (is_unsigned (i_type i)) && negb (Z.land raw 0x8000 =? 0) in
    count ← powerOfTwo (if negated then u16 (- raw) else raw);
    Some (count, negated).

(** What follows the operand in R0. *)
Definition constant_code (i : IRInstruction) (count : Z) (negated : bool) : Gen → result Gen :=
  let mask := u16 (Z.shiftl 1 count - 1) in
  if String.eqb (i_operation i) "*" then emitConstantShift true count false >> when negated negate
  else if String.eqb (i_operation i) "%" && (count =? 0) then emitLiteral v 0
  else if is_unsigned (i_type i) then
    if String.eqb (i_operation i) "/" then emitConstantShift false count true else emitWordMask v mask
  else if String.eqb (i_operation i) "/" then
    when (negb (count =? 0))
      (λ g, let '(positive, g) := localLabel v g in
        (emitCompare v 0 0 >> emitLocalJump v positive 10 >>
         emitImmediateArithmetic v 0x50 mask (i_source i) >>
         bindLabel positive >>
         emitConstantShift false count false) g) >>
    when negated negate
  else λ g,
    let '(positive, g) := localLabel v g in
    let '(done, g) := localLabel v g in
    (emitCompare v 0 0 >> emitLocalJump v positive 10 >>
     negate >> emitWordMask v mask >> negate >> emitLocalJump v done 5 >>
     bindLabel positive >> emitWordMask v mask >> bindLabel done) g.

(** [None]: not done, and nothing was emitted. *)
Definition emitConstantArithmetic (i : IRInstruction) (g : Gen) : result (option Gen) :=
  if negb (String.eqb (i_operation i) "*" || String.eqb (i_operation i) "/" || String.eqb (i_operation i) "%")
     || negb (bool_decide (base (i_type i) = BaseWord)) || negb (pointer_level (i_type i) =? 0)
  then Ok None else
  c ← constant_operand i;
  match c with
  | None => Ok None
  | Some (input, literal) =>
      match constant_shift i (u16 literal) with
      | None => Ok None
      | Some (count, negated) =>
          g ← materialize input g;
          g ← constant_code i count negated g;
          Ok (Some g)
      end
  end.

Definition emitBinaryOperands (i : IRInstruction) : Gen → result Gen := λ g,
  left ← operand_at i 0; right ← operand_at i 1;
  immediate ← (if optimized v then
                 c ← constantValue n right;
                 match c with
                 | Some literal => p ← producer n right no_token; Ok (if pointer_level (i_type p) =? 0 then Some literal else None)
                 | None => Ok None
                 end
               else Ok None);
  match immediate with
  | Some literal => (materialize left >> λ g, emitRegisterLiteral v (scratchRegister g) (u16 literal) g) g
  | None =>
      match register_of n right with
      | Some r =>
          if optimized v then (materialize left >> λ g, emitMove v (scratchRegister g) r g) g
          else (materialize right >> emitPush v 0 >> materialize left >> λ g, emitPop v (scratchRegister g) g) g
      | None =>
          if optimized v then
            (materialize right >> emitMove v 6 0 >> materialize left >> λ g, emitMove v (scratchRegister g) 6 g) g
          else (materialize right >> emitPush v 0 >> materialize left >> λ g, emitPop v (scratchRegister g) g) g
      end
  end.

Definition emitDivMod (i : IRInstruction) : Gen → result Gen := λ g,
  throw_if (negb (globallyOptimized v)) (error_at "IR codegen: divmod requires the O2 backend." (i_source i));;
  (emitBinaryOperands i >> emitIntegerOperation v i) g.

Definition emitDivModResult (i : IRInstruction) : Gen → result Gen := λ g,
  throw_if (negb (globallyOptimized v)) (error_at "IR codegen: divmod.result requires the O2 backend." (i_source i));;
  pair ← operand_at i 0;
  (forget_ram >> divmod_address v pair >> emitByte 0x43) g.

(** [home]: the value is evaluated and can be loaded without effects. *)
Definition has_home (value : IRValueId) (source : Token) : result bool :=
  p ← producer n value source;
  if negb (pointer_level (i_type p) =? 0) then Ok false else
  c ← constantValue n value;
  Ok (match c with Some _ => true | None => false end || usesRegisterAllocation v n value
      || match m_spill_offsets n !! value with Some _ => true | None => false end).

Definition emitScalarComparison (i : IRInstruction) (reverse : bool) : Gen → result Gen := λ g,
  left ← operand_at i 0; right ← operand_at i 1;
  homes ← (if globallyOptimized v
           then h ← has_home left (i_source i); if (h : bool) then has_home right (i_source i) else Ok false
           else Ok false);
  let compare (source operand : Z) : Gen → result Gen :=
    let '(source, operand) := if reverse then (operand, source) else (source, operand) in
    when (negb (source =? 0)) (emitByte (Z.lor 0xb0 source)) >>
    emitByte 0x3f >> emitByte (Z.lor 0x60 operand) in
  if (homes : bool) then
    let a := if usesRegisterAllocation v n left then register_of n left else None in
    let b := if usesRegisterAllocation v n right then register_of n right else None in
    match a, b with
    | Some a, Some b => compare a b g
    | Some a, None => (materialize right >> compare a 0) g
    | None, Some b => (materialize left >> compare 0 b) g
    | None, None => (materialize right >> emitMove v 6 0 >> materialize left >> compare 0 6) g
    end
  else (emitBinaryOperands i >> compare 0 (scratchRegister g)) g.

(** [c] where it is a literal of four bits. *)
Definition small_immediate (low : Z) (c : option Z) : option Z :=
  l ← c; if (low <=? l) && (l <=? 15) then Some l else None.

Definition emitMultiply (i : IRInstruction) : Gen → result Gen := λ g,
  left ← operand_at i 0; right ← operand_at i 1;
  let kind := if globallyOptimized v then multiplyKind n i else FullWord in
  let short_product := negb (bool_decide (kind = FullWord)) in
  let unsigned_product := bool_decide (kind = UnsignedByte) in
  literal ← (if short_product then constantValue n right else Ok None);
  match small_immediate 0 literal with
  | Some l => (materialize left >> emitByte (if unsigned_product then 0x3f else 0x3e) >> emitByte (Z.lor 0x80 l)) g
  | None =>
      let place := register_of n right in
      match (if short_product then place else None) with
      | Some r => (materialize left >> when unsigned_product (emitByte 0x3d) >> emitByte (Z.lor 0x80 r)) g
      | None =>
          (match place with
           | Some r => emitMove v 6 r
           | None => materialize right >> emitMove v 6 0
           end >>
           materialize left >>
           (if short_product then when unsigned_product (emitByte 0x3d) >> emitByte 0x86
            else emitByte 0x3d >> emitByte 0x9f >> emitMove v 0 4)) g
      end
  end.

(** ** Comparisons: a branch over the two results *)

Inductive CompareLabel := TrueLabel | FalseLabel | EndLabel.

Definition compare_branches (operation : string) (unsigned : bool) : list (Z * CompareLabel) :=
  let less := if unsigned then 12 else 7 in
  let greater_equal := if unsigned then 13 else 6 in
  if String.eqb operation "==" then [(9, TrueLabel)]
  else if String.eqb operation "!=" then [(8, TrueLabel)]
  else if String.eqb operation "<" then [(less, TrueLabel)]
  else if String.eqb operation "<=" then [(less, TrueLabel); (9, TrueLabel)]
  else if String.eqb operation ">" then [(9, FalseLabel); (greater_equal, TrueLabel)]
  else if String.eqb operation ">="
  then (if globallyOptimized v then [] else [(less, FalseLabel)]) ++ [(greater_equal, TrueLabel)]
  else [].

(** [emit_local_branch], which returns the offset to patch. *)
Definition emit_local_branch (opcode : Z) (g : Gen) : result (Gen * Z) :=
  g ← emitByte opcode g;
  let patch := here g in
  g ← (emitByte 0 >> emitByte 1) g;
  Ok (g, patch).

Definition comparison_code (i : IRInstruction) (operation : string) (unsigned : bool) : Gen → result Gen := λ g,
  '(g, fixups) ← foldM (λ (s : Gen * list (Z * CompareLabel)) b,
     '(g, patch) ← emit_local_branch (fst b) (fst s);
     Ok (g, snd s ++ [(patch, snd b)])) (g, []) (compare_branches operation unsigned);
  let false_label := here g in
  g ← emitLiteral v 0 g;
  '(g, patch) ← emit_local_branch 5 g;
  let true_label := here g in
  g ← emitLiteral v 1 g;
  let end_label := here g in
  let target l := match l with TrueLabel => true_label | FalseLabel => false_label | EndLabel => end_label end in
  patchLocalBranches ((λ f, mkLocalFixup (fst f) (target (snd f)) (i_source i)) <$> (fixups ++ [(patch, EndLabel)])) g.

Definition is_comparison (operation : string) : bool := existsb (String.eqb operation) [">"; "<"; ">="; "<="; "=="; "!="]%string.

(** The mask that shows that the left operand of a shift is not negative. *)
Definition masked_nonnegative (input : IRInstruction) : result bool :=
  if is_op (i_opcode input) OpBinary && String.eqb (i_operation input) "&" then
    foldM (λ b operand,
      c ← constantValue n operand;
      Ok (b || match c with Some mask => Z.land (u64 mask) 0x8000 =? 0 | None => false end)) false (i_operands input)
  else Ok false.

(** The forms with an immediate operand; [None] when there is none. *)
Definition immediate_form (i : IRInstruction) (left right : IRValueId) : Gen → result (option Gen) := λ g,
  let op := i_operation i in
  right_value ← constantValue n right;
  left_value ← constantValue n left;
  let op_base := if String.eqb op "+" then 0x50 else if String.eqb op "-" then 0x60 else 0 in
  let done (e : Gen → result Gen) := g ← e g; Ok (Some g) in
  match (if op_base =? 0 then None else small_immediate 0 right_value),
        (if String.eqb op "+" then small_immediate 0 left_value else None) with
  | Some l, _ =>
      done (materialize left >>
            (if optimized v && (l =? 1) then emitByte (if op_base =? 0x50 then 0xd0 else 0xe0)
             else emitByte 0x3e >> emitByte (Z.lor op_base l)))
  | None, Some l => done (materialize right >> emitByte 0x3e >> emitByte (Z.lor op_base l))
  | None, None =>
      match (if optimized v then right_value else None) with
      | None => Ok None
      | Some l =>
          if (String.eqb op "&" || String.eqb op "|" || String.eqb op "^") && (1 <=? l) && (l <=? 15) then
            done (materialize left >> emitByte (if String.eqb op "^" then 0x3f else 0x3e) >>
                  emitByte (Z.lor (if String.eqb op "&" then 0x70 else 0xc0) l))
          else if (String.eqb op "<<" || String.eqb op ">>") && (0 <=? l) && (l <? 16) then
            g ← materialize left g;
            input ← producer n left (i_source i);
            masked ← masked_nonnegative input;
            g ← emitConstantShift (String.eqb op "<<") l (is_unsigned (i_type i) || masked) g;
            Ok (Some g)
          else Ok None
      end
  end.

Definition emitBinary (i : IRInstruction) : Gen → result Gen := λ g,
  match i_operands i with
  | [lhs; rhs] =>
      let op := i_operation i in
      constant ← (if optimized v then emitConstantArithmetic i g else Ok None);
      match constant with
      | Some g => Ok g
      | None =>
          if optimized v && String.eqb op "*" then emitMultiply i g else
          immediate ← immediate_form i lhs rhs g;
          match immediate with
          | Some g => Ok g
          | None =>
              let comparison := is_comparison op in
              let reverse := globallyOptimized v && (String.eqb op "<=" || String.eqb op ">") in
              g ← (if comparison then emitScalarComparison i reverse g else emitBinaryOperands i g);
              if existsb (String.eqb op) ["&"; "|"; "^"; "<<"; ">>"; "/"; "%"]%string then emitIntegerOperation v i g
              else if comparison then
                p ← producer n lhs (i_source i);
                comparison_code i (if reverse then if String.eqb op "<=" then ">=" else "<" else op)
                  (is_unsigned (i_type p)) g
              else if String.eqb op "+" then emitByte (Z.lor 0x50 (scratchRegister g)) g
              else if String.eqb op "-" then emitByte (Z.lor 0x60 (scratchRegister g)) g
              else if String.eqb op "*" then
                (emitMove v 6 (scratchRegister g) >> emitByte 0x3d >> emitByte 0x9f >> emitMove v 0 4) g
              else Err (error_at ("IR codegen: unsupported binary operation '" +:+ op +:+ "'.") (i_source i))
          end
      end
  | _ => Err (error_at "IR codegen: binary instruction must have two operands." (i_source i))
  end.

(** [Unary] of [materialize]. *)
Definition emit_unary (i : IRInstruction) : Gen → result Gen := λ g,
  input ← operand_at i 0;
  let narrow := when (usesByteStorage (i_type i)) (emitByte 0x9e >> when (negb (is_unsigned (i_type i))) (emitByte 0x95)) in
  if String.eqb (i_operation i) "!" then (materialize input >> emitByte 0x3f >> emitByte 0xc1) g
  else if String.eqb (i_operation i) "~" then (materialize input >> emitByte 0x4f >> narrow) g
  else
    c ← (if String.eqb (i_operation i) "-" then constantValue n input else Ok None);
    (match c with
     | Some literal => emitLiteral v (- literal)
     | None => materialize input >> negate
     end >> narrow) g.

End Values.
