(* ===== verification/GenRun.v ===== *)
(** * GenRun: emitted code on the machine

    [Realizes] says that a payload holds what a generator has emitted so far:
    its bytes, its branches patched with the distance to their labels, its
    relocations with the addresses of theirs.  [grows_*] show that every
    emission only adds to what is there; the rules [run_*] take an emission to
    what its code does on the machine. *)

From S2P Require Import Prelude Target Types Token IR Object Machine MachineRun StartupRun Isa Gen.

(** [patchBranches] and the linker write here. *)
Definition operand_size (t : RelocationType) : Z :=
  match t with ADDR24_BANK => 1 | _ => 2 end.
Definition fixup_end (f : BranchFixup) : Z := fx_patch f + (if fx_long f then 1 else 0).
Definition patched (g : Gen) (p : Z) : Prop :=
  (∃ f, f ∈ g_fixups g ∧ fx_patch f ≤ p ≤ fixup_end f) ∨
  (∃ r, r ∈ g_relocations g ∧ patch_offset r < p ≤ patch_offset r + 2).

(** The code of a fault island. *)
Definition island (v : Env) (fault : Z) : list Z :=
  (if optimized v && ((fault <=? 127) || (0xff80 <=? fault)) then [Z.lor 0xa0 6; u8 fault] else Startup.word 6 fault) ++ [0; 1].

(** Well-formed generator states: what is to be patched is inside the code, and
    the recorded islands are fault islands nothing patches. *)
Record Wf (v : Env) (g : Gen) : Prop := {
  wf_size : here g < 65536;
  wf_fixups : ∀ f, f ∈ g_fixups g → 0 < fx_patch f ∧ fixup_end f < here g;
  wf_distinct : ∀ i j f f', g_fixups g !! i = Some f → g_fixups g !! j = Some f' → i ≠ j →
    fixup_end f < fx_patch f' ∨ fixup_end f' < fx_patch f;
  wf_apart : ∀ f r, f ∈ g_fixups g → r ∈ g_relocations g →
    fixup_end f ≤ patch_offset r ∨ patch_offset r + 2 < fx_patch f;
  wf_relocations : ∀ r, r ∈ g_relocations g → 0 ≤ patch_offset r ∧ patch_offset r + 2 < here g;
  wf_islands : ∀ fault p, g_faults g !! fault = Some p → 0 ≤ p ∧ 0 ≤ fault < 65536 ∧
    ∀ k b, island v fault !! k = Some b → g_code g !! (Z.to_nat p + k)%nat = Some b ∧ ¬ patched g (p + Z.of_nat k)
}.

(** [g'] has all that [g] has, and patches none of it. *)
Record Extends (g g' : Gen) : Prop := {
  ex_code : g_code g `prefix_of` g_code g';
  ex_symbols : g_symbols g `prefix_of` g_symbols g';
  ex_fixups : ∃ l, g_fixups g' = g_fixups g ++ l ∧ ∀ f, f ∈ l → here g ≤ fx_patch f;
  ex_relocations : ∃ l, g_relocations g' = g_relocations g ++ l ∧ ∀ r, r ∈ l → here g ≤ patch_offset r;
  ex_plotting : g_plotting g' = g_plotting g;
  ex_faults : ∀ fault p, g_faults g' !! fault = Some p → g_faults g !! fault = Some p ∨ here g ≤ p
}.

Lemma extends_refl g : Extends g g.
Proof. split; try done; [..|by left]; (exists []; rewrite app_nil_r; split; [done|set_solver]). Qed.

Lemma extends_here g g' : Extends g g' → here g ≤ here g'.
Proof. intros [[l E]]. unfold here. rewrite E, zlen_app. pose proof (zlen_nonneg l). lia. Qed.

Lemma extends_trans g1 g2 g3 : Extends g1 g2 → Extends g2 g3 → Extends g1 g3.
Proof.
  intros H12 H23. pose proof (extends_here _ _ H12) as Hle.
  destruct H12 as [C1 S1 (f1 & F1 & P1) (r1 & R1 & Q1) L1 I1], H23 as [C2 S2 (f2 & F2 & P2) (r2 & R2 & Q2) L2 I2].
  split; [by etransitivity|by etransitivity| | |congruence|].
  - exists (f1 ++ f2). split; [by rewrite F2, F1, app_assoc|]. intros f [Hf|Hf]%elem_of_app; [by apply P1|].
    specialize (P2 f Hf). lia.
  - exists (r1 ++ r2). split; [by rewrite R2, R1, app_assoc|]. intros r [Hr|Hr]%elem_of_app; [by apply Q1|].
    specialize (Q2 r Hr). lia.
  - intros fault p Hp. destruct (I2 fault p Hp) as [H|H]; [by apply I1|right; lia].
Qed.

Lemma extends_patched g g' p : Extends g g' → patched g' p → p < here g → patched g p.
Proof.
  intros [_ _ (f & F & P) (r & R & Q) _ _] [(x & Hx & Hp)|(x & Hx & Hp)] Hlt.
  - rewrite F in Hx. apply elem_of_app in Hx as [Hx|Hx]; [by left; exists x|]. specialize (P x Hx). unfold fixup_end in *. lia.
  - rewrite R in Hx. apply elem_of_app in Hx as [Hx|Hx]; [by right; exists x|]. specialize (Q x Hx). lia.
Qed.

Lemma wf_unpatched v g p : Wf v g → here g ≤ p → ¬ patched g p.
Proof.
  intros H Hp [(f & Hf & Hlt)|(r & Hr & Hlt)].
  - pose proof (wf_fixups _ _ H f Hf). lia.
  - pose proof (wf_relocations _ _ H r Hr). lia.
Qed.

(** An emission that keeps states well formed, for code that fits in a bank. *)
Definition grows (v : Env) (e : Gen → result Gen) : Prop :=
  ∀ g g', e g = Ok g' → here g ≤ here g' ∧ (Wf v g → here g' < 65536 → Extends g g' ∧ Wf v g').

Lemma island_kept v g g' :
  Extends g g' → Wf v g → g_faults g' = g_faults g →
  ∀ fault p, g_faults g' !! fault = Some p → 0 ≤ p ∧ 0 ≤ fault < 65536 ∧
    ∀ k b, island v fault !! k = Some b → g_code g' !! (Z.to_nat p + k)%nat = Some b ∧ ¬ patched g' (p + Z.of_nat k).
Proof.
  intros He Hw Hf fault p Hp. rewrite Hf in Hp. destruct (wf_islands _ _ Hw _ _ Hp) as (H0 & Hr & Hi). split; [done|]. split; [done|].
  intros k b Hk. destruct (Hi k b Hk) as [Hb Hn]. split; [by eapply prefix_lookup_Some; [|apply He]|].
  intros Hpa. apply Hn. apply (extends_patched g g'); [done..|].
  apply lookup_lt_Some in Hb. unfold here, zlen. lia.
Qed.

(** Emissions that add bytes and nothing to patch. *)
Record Plain (g g' : Gen) (bytes : list Z) : Prop := {
  pl_code : g_code g' = g_code g ++ bytes;
  pl_symbols : g_symbols g' = g_symbols g;
  pl_fixups : g_fixups g' = g_fixups g;
  pl_relocations : g_relocations g' = g_relocations g;
  pl_faults : g_faults g' = g_faults g;
  pl_plotting : g_plotting g' = g_plotting g
}.

Lemma plain_here g g' l : Plain g g' l → here g' = here g + zlen l.
Proof. intros H. unfold here. by rewrite (pl_code _ _ _ H), zlen_app. Qed.

Lemma plain_extends g g' l : Plain g g' l → Extends g g'.
Proof.
  intros []. split.
  - rewrite pl_code0. by apply prefix_app_r.
  - by rewrite pl_symbols0.
  - exists []. rewrite app_nil_r. split; [done|set_solver].
  - exists []. rewrite app_nil_r. split; [done|set_solver].
  - done.
  - intros fault p. rewrite pl_faults0. by left.
Qed.
Lemma plain_patched g g' l p : Plain g g' l → patched g' p ↔ patched g p.
Proof. intros []. unfold patched. by rewrite pl_fixups0, pl_relocations0. Qed.
Lemma plain_wf v g g' l : Plain g g' l → Wf v g → here g' < 65536 → Wf v g'.
Proof.
  intros Hp Hw Hlt. pose proof (plain_extends _ _ _ Hp) as He. pose proof (extends_here _ _ He). split; [done|..].
  - intros f. rewrite (pl_fixups _ _ _ Hp). intros Hf. pose proof (wf_fixups _ _ Hw f Hf). lia.
  - intros i j f f'. rewrite (pl_fixups _ _ _ Hp). apply Hw.
  - intros f r. rewrite (pl_fixups _ _ _ Hp), (pl_relocations _ _ _ Hp). apply Hw.
  - intros r. rewrite (pl_relocations _ _ _ Hp). intros Hr. pose proof (wf_relocations _ _ Hw r Hr). lia.
  - apply (island_kept v g g'); [done..|apply Hp].
Qed.
Lemma plain_trans g1 g2 g3 l k : Plain g1 g2 l → Plain g2 g3 k → Plain g1 g3 (l ++ k).
Proof. intros [] []. split; try congruence. rewrite pl_code1, pl_code0. by rewrite app_assoc. Qed.

Definition appends (e : Gen → result Gen) (l : list Z) : Prop := ∀ g g', e g = Ok g' → Plain g g' l.

Lemma appends_grows v e l : appends e l → grows v e.
Proof.
  intros H g g' He. specialize (H g g' He). split; [by eapply extends_here, plain_extends|].
  intros Hw Hlt. split; [by eapply plain_extends|by eapply plain_wf].
Qed.

Lemma andthen_ok e k g g' : (e >> k) g = Ok g' ↔ ∃ g1, e g = Ok g1 ∧ k g1 = Ok g'.
Proof. unfold andthen. apply result_bind_ok. Qed.

Lemma appends_andthen e k l1 l2 : appends e l1 → appends k l2 → appends (e >> k) (l1 ++ l2).
Proof. intros He Hk g g' (g1 & H1 & H2)%andthen_ok. eapply plain_trans; [by apply He|by apply Hk]. Qed.
Lemma appends_byte b : appends (emitByte b) [u8 b].
Proof. intros g g' [= <-]. done. Qed.
Lemma appends_skip : appends skip [].
Proof. intros g g' [= <-]. split; try done. by rewrite app_nil_r. Qed.
Lemma appends_when b e l : appends e l → appends (when b e) (if b then l else []).
Proof. intros. destruct b; [done|apply appends_skip]. Qed.
Lemma appends_pure f :
  (∀ g, g_code (f g) = g_code g ∧ g_symbols (f g) = g_symbols g ∧ g_fixups (f g) = g_fixups g ∧
        g_relocations (f g) = g_relocations g ∧ g_faults (f g) = g_faults g ∧ g_plotting (f g) = g_plotting g) →
  appends (pure f) [].
Proof. intros H g g' [= <-]. destruct (H g) as (?&?&?&?&?&?). split; try done. by rewrite app_nil_r. Qed.
Lemma appends_eq e l l' : appends e l → l = l' → appends e l'.
Proof. by intros H <-. Qed.

Lemma grows_skip v : grows v skip.
Proof. eapply appends_grows, appends_skip. Qed.
Lemma grows_andthen v e k : grows v e → grows v k → grows v (e >> k).
Proof.
  intros He Hk g g' (g1 & H1 & H2)%andthen_ok. destruct (He g g1 H1) as [L1 X1], (Hk g1 g' H2) as [L2 X2].
  split; [lia|]. intros Hw Hlt. destruct (X1 Hw ltac:(lia)) as [E1 W1]. destruct (X2 W1 Hlt) as [E2 W2].
  split; [by eapply extends_trans|done].
Qed.
Lemma grows_when v b e : grows v e → grows v (when b e).
Proof. intros. destruct b; [done|apply grows_skip]. Qed.
Lemma grows_state v (e : Gen → Gen → result Gen) : (∀ g0, grows v (e g0)) → grows v (λ g, e g g).
Proof. intros H g g' He. by apply (H g). Qed.
Lemma grows_branch v (b : Gen → bool) e k : grows v e → grows v k → grows v (λ g, if b g then e g else k g).
Proof. intros He Hk g g' H. destruct (b g); [by apply He|by apply Hk]. Qed.
Lemma grows_throw v (b : bool) x e : grows v e → grows v (λ g, throw_if b x;; e g).
Proof. intros He g g' H. destruct b; [done|by apply He]. Qed.

(** A change of members that hold no code. *)
Lemma grows_pure v f :
  (∀ g, g_code (f g) = g_code g ∧ g_symbols (f g) = g_symbols g ∧ g_fixups (f g) = g_fixups g ∧
        g_relocations (f g) = g_relocations g ∧ g_faults (f g) = g_faults g ∧ g_plotting (f g) = g_plotting g) →
  grows v (pure f).
Proof. intros H. eapply appends_grows, appends_pure. done. Qed.

(* ------------------------------------------------------------------ *)
(** ** The emitters *)

#[export] Hint Resolve grows_skip : grows.
Create HintDb appends.
#[export] Hint Resolve appends_byte appends_skip : appends.

Section Emitters.
Context (v : Env).

Lemma appends_clobber r : appends (clobber r) [].
Proof. by apply appends_pure. Qed.
Lemma appends_credit f : appends (pure (λ g, with_credit (f (g_credit g)) g)) [].
Proof. by apply appends_pure. Qed.
Lemma appends_reset_credit : appends reset_credit [].
Proof. by apply appends_pure. Qed.
Lemma appends_forget_ram : appends forget_ram [].
Proof. by apply appends_pure. Qed.
Lemma appends_clear_spill : appends clear_spill [].
Proof. by apply appends_pure. Qed.
Lemma appends_accumulator x : appends (pure (with_accumulator x)) [].
Proof. by apply appends_pure. Qed.

Lemma u8_idem x : 0 ≤ x < 256 → u8 x = x.
Proof. intros. by apply uwrap_small. Qed.

Lemma lor_byte a b : 0 ≤ a < 256 → 0 ≤ b < 256 → 0 ≤ Z.lor a b < 256.
Proof.
  intros Ha Hb. assert (0 ≤ Z.lor a b) by (apply Z.lor_nonneg; lia). split; [done|].
  destruct (Z.eq_dec (Z.lor a b) 0) as [->|]; [lia|]. apply (Z.log2_lt_pow2 _ 8); [lia|].
  rewrite Z.log2_lor by lia.
  assert (∀ x, 0 ≤ x < 256 → Z.log2 x < 8) as Hl by (intros x Hx; destruct (Z.eq_dec x 0) as [->|]; [done|]; apply Z.log2_lt_pow2; lia).
  pose proof (Hl a Ha). pose proof (Hl b Hb). lia.
Qed.

(** A byte of an opcode with a register in it. *)
Lemma appends_op a r : 0 ≤ a < 256 → 0 ≤ r < 16 → appends (emitByte (Z.lor a r)) [Z.lor a r].
Proof. intros. eapply appends_eq; [apply appends_byte|]. rewrite u8_idem; [done|]. apply lor_byte; lia. Qed.

Lemma appends_word_literal r x : 0 ≤ r < 16 → 0 ≤ x < 65536 → appends (emitWordLiteral r x) (Startup.word r x).
Proof.
  intros Hr Hx. eapply appends_eq.
  - apply appends_andthen; [apply appends_clobber|]. apply appends_andthen; [apply appends_op; lia|].
    apply appends_andthen; apply appends_byte.
  - cbn [app]. unfold Startup.word. rewrite !land_255. unfold uwrap. change (2 ^ 8) with 256. by rewrite !Z.mod_mod by lia.
Qed.

(** What [emitRegisterLiteral] emits. *)
Definition literal_instr (r x : Z) : Instr :=
  if optimized v && ((x <=? 127) || (0xff80 <=? x)) then Ibt r x else Iwt r x.

Lemma appends_literal r x : 0 ≤ r < 15 → 0 ≤ x < 65536 → appends (emitRegisterLiteral v r x) (code_of (literal_instr r x)).
Proof.
  intros Hr Hx. unfold emitRegisterLiteral, literal_instr. replace (r =? 15) with false by lia. cbn [negb]. rewrite andb_true_r.
  eapply appends_eq; [apply appends_andthen; [apply appends_clobber|]|cbn [app]; reflexivity].
  destruct (_ && _).
  - eapply appends_eq; [apply appends_andthen; [apply appends_op; lia|apply appends_byte]|done].
  - apply appends_word_literal; lia.
Qed.

Lemma literal_encodable r x : 0 ≤ r < 15 → 0 ≤ x < 65536 → encodable (literal_instr r x) = true.
Proof.
  intros. unfold literal_instr. destruct (optimized v && _) eqn:E; cbn [encodable]; unfold between; lia.
Qed.
Lemma literal_exec writable r x w : exec writable (literal_instr r x) plain w = Some (plain, put r x w).
Proof. unfold literal_instr. by destruct (_ && _). Qed.

Lemma appends_move d s : 0 ≤ d < 16 → 0 ≤ s < 16 → appends (emitMove v d s) [Z.lor 0x20 s; Z.lor 0x10 d].
Proof.
  intros Hd Hs g g' H. unfold emitMove in H. revert g g' H.
  assert (∀ x, appends (clobber d >> when (d =? StackPointerRegister) reset_credit >> emitByte (Z.lor 32 s) >> emitByte (Z.lor 16 d) >>
                when (globallyOptimized v && negb (d =? 0)) (pure (with_accumulator x))) [Z.lor 0x20 s; Z.lor 0x10 d]) as Hx.
  { intros x. eapply appends_eq.
    - apply appends_andthen; [apply appends_clobber|]. apply appends_andthen; [apply appends_when, appends_reset_credit|].
      apply appends_andthen; [apply appends_op; lia|]. apply appends_andthen; [apply appends_op; lia|].
      apply appends_when, appends_accumulator.
    - by repeat case_match. }
  intros g g' H. by eapply Hx.
Qed.

(** An emission that also leaves something to patch in what it emits. *)
Lemma grows_patched g g1 g' l :
  Plain g g1 l → Wf v g → here g1 < 65536 →
  g_code g' = g_code g1 → g_symbols g' = g_symbols g1 → g_faults g' = g_faults g1 → g_plotting g' = g_plotting g1 →
  (∃ k, g_fixups g' = g_fixups g1 ++ k ∧ (length k ≤ 1)%nat ∧ ∀ f, f ∈ k → here g < fx_patch f ∧ fixup_end f < here g1) →
  (∃ k, g_relocations g' = g_relocations g1 ++ k ∧ (k = [] ∨ g_fixups g' = g_fixups g1) ∧
     ∀ r, r ∈ k → here g ≤ patch_offset r ∧ patch_offset r + 2 < here g1) →
  Extends g g' ∧ Wf v g'.
Proof.
  intros Hp Hw Hlt Hc Hs Hf Hpl (kf & Ef & H1 & Hkf) (kr & Er & Hone & Hkr). pose proof (plain_extends _ _ _ Hp) as Hx.
  pose proof (plain_wf v _ _ _ Hp Hw Hlt) as Hw1. assert (here g' = here g1) as Eh by (unfold here; by rewrite Hc).
  pose proof (zlen_nonneg (g_code g)).
  assert (Extends g g') as Hx'.
  { split; [rewrite Hc; apply Hx|rewrite Hs; apply Hx| | |rewrite Hpl; apply Hx|intros fault p; rewrite Hf; apply Hx].
    - exists kf. rewrite Ef, (pl_fixups _ _ _ Hp). split; [done|]. intros f Hin. specialize (Hkf f Hin). lia.
    - exists kr. rewrite Er, (pl_relocations _ _ _ Hp). split; [done|]. intros r Hin. specialize (Hkr r Hin). lia. }
  split; [done|]. split; [lia|..].
  - intros f. rewrite Ef, elem_of_app, Eh. intros [Hin|Hin]; [by apply (wf_fixups _ _ Hw1)|]. specialize (Hkf f Hin). unfold here in *. lia.
  - intros i j f f'. rewrite Ef. intros [Hi|[Hi Hi']]%lookup_app_Some [Hj|[Hj Hj']]%lookup_app_Some Hne.
    + by apply (wf_distinct _ _ Hw1 i j).
    + apply list_elem_of_lookup_2 in Hi, Hj'. specialize (Hkf _ Hj'). rewrite (pl_fixups _ _ _ Hp) in Hi.
      pose proof (wf_fixups _ _ Hw _ Hi). lia.
    + apply list_elem_of_lookup_2 in Hj, Hi'. specialize (Hkf _ Hi'). rewrite (pl_fixups _ _ _ Hp) in Hj.
      pose proof (wf_fixups _ _ Hw _ Hj). lia.
    + apply lookup_lt_Some in Hi', Hj'. lia.
  - intros f r. rewrite Ef, Er. intros [Hf'|Hf']%elem_of_app [Hr'|Hr']%elem_of_app.
    + by apply (wf_apart _ _ Hw1).
    + specialize (Hkr _ Hr'). rewrite (pl_fixups _ _ _ Hp) in Hf'. pose proof (wf_fixups _ _ Hw _ Hf'). lia.
    + specialize (Hkf _ Hf'). rewrite (pl_relocations _ _ _ Hp) in Hr'. pose proof (wf_relocations _ _ Hw _ Hr'). lia.
    + destruct Hone as [->|E]; [by apply elem_of_nil in Hr'|]. rewrite Ef in E.
      destruct kf; [by apply elem_of_nil in Hf'|]. apply (f_equal length) in E. rewrite length_app in E. cbn in E. lia.
  - intros r. rewrite Er, elem_of_app, Eh. intros [Hin|Hin]; [by apply (wf_relocations _ _ Hw1)|]. specialize (Hkr r Hin). unfold here in *. lia.
  - apply (island_kept v g g'); [done..|]. by rewrite Hf, (pl_faults _ _ _ Hp).
Qed.

(** An opcode with a relocated operand. *)
Lemma grows_relocated e l name type :
  appends e l → 3 ≤ zlen l → grows v (λ g, (e >> addRelocation name (here g) type) g).
Proof.
  intros He Hl g g' (g1 & H1 & H2)%andthen_ok. specialize (He g g1 H1). injection H2 as <-.
  pose proof (plain_here _ _ _ He) as Hh. split; [unfold here in *; cbn; lia|]. intros Hw Hlt.
  apply (grows_patched g g1 _ l He Hw); try done.
  - exists []. rewrite app_nil_r. split; [done|]. split; [cbn; lia|set_solver].
  - eexists. split; [reflexivity|]. split; [by right|]. intros r ->%list_elem_of_singleton. cbn [patch_offset].
    pose proof (wf_size _ _ Hw). pose proof (zlen_nonneg (g_code g)). rewrite uwrap_small by (unfold here in *; lia). lia.
Qed.

(** The branch of [emitLocalJump] that is patched. *)
Definition short_jump (name : string) (condition serial : Z) : Gen → result Gen :=
  emitByte condition >>
  λ g, (emitByte 0 >> emitByte 1 >> addFixup (mkFixup (here g) InvalidBlock (token UNKNOWN name 0 0) false name serial)) g.

Lemma short_jump_ok name condition serial g g' :
  short_jump name condition serial g = Ok g' → ∃ g1, Plain g g1 [u8 condition; 0; 1] ∧
    g_code g' = g_code g1 ∧ g_symbols g' = g_symbols g1 ∧ g_faults g' = g_faults g1 ∧ g_plotting g' = g_plotting g1 ∧
    g_relocations g' = g_relocations g1 ∧
    g_fixups g' = g_fixups g1 ++ [mkFixup (here g + 1) InvalidBlock (token UNKNOWN name 0 0) false name serial].
Proof.
  intros (g1 & H1 & H2)%andthen_ok. pose proof (appends_byte condition g g1 H1) as Hp1.
  apply andthen_ok in H2 as (g2 & H2 & H3). apply andthen_ok in H3 as (g3 & H3 & H4).
  pose proof (appends_byte 0 g1 g2 H2) as Hp2. pose proof (appends_byte 1 g2 g3 H3) as Hp3.
  exists g3. split; [exact (plain_trans _ _ _ _ _ Hp1 (plain_trans _ _ _ _ _ Hp2 Hp3))|]. injection H4 as <-.
  split_and!; try done. cbn. do 3 f_equal. rewrite (plain_here _ _ _ Hp1). done.
Qed.

Lemma grows_short name condition serial : grows v (short_jump name condition serial).
Proof.
  intros g g' (g1 & Hp & Hc & Hs & Hf & Hpl & Hr & Hfx)%short_jump_ok. pose proof (plain_here _ _ _ Hp) as Hh. change (zlen [u8 condition; 0; 1]) with 3 in Hh.
  assert (here g' = here g1) as Eh by (unfold here; by rewrite Hc). split; [lia|]. intros Hw Hlt.
  apply (grows_patched g g1 g' _ Hp Hw); try done; [lia| |].
  - eexists. split; [exact Hfx|]. split; [done|]. intros f ->%list_elem_of_singleton. unfold fixup_end. cbn [fx_patch fx_long]. lia.
  - exists []. rewrite app_nil_r. split; [done|set_solver].
Qed.

Lemma appends_iwt15 : appends (emitRegisterLiteral v 15 0) (Startup.word 15 0).
Proof.
  unfold emitRegisterLiteral. replace (optimized v && negb (15 =? 15) && _) with false by (by rewrite andb_false_r).
  eapply appends_eq; [apply appends_andthen; [apply appends_clobber|by apply appends_word_literal]|done].
Qed.

Lemma grows_far name condition : grows v (far_jump v name condition).
Proof.
  apply grows_andthen; [|apply grows_andthen].
  - apply grows_when. eapply appends_grows. repeat (apply appends_andthen || apply appends_byte).
  - by apply (grows_relocated _ _ name ADDR16_IWT appends_iwt15).
  - eapply appends_grows, appends_byte.
Qed.

Lemma grows_jump name condition : grows v (emitLocalJump v name condition).
Proof.
  intros g g' H. unfold emitLocalJump in H. destruct (optimized v); [|by eapply grows_far].
  assert (grows v (pure (λ g, with_fixups (g_fixups g) (g_branch_serial g + 1) g))) as Hp by by apply grows_pure.
  destruct (longBranch v (g_branch_serial g)).
  - eapply (grows_andthen v _ _ Hp (grows_far name condition)). exact H.
  - eapply (grows_andthen v _ _ Hp (grows_short name condition (g_branch_serial g))). exact H.
Qed.

Lemma grows_bind name : grows v (bindLabel name).
Proof.
  assert (∀ f, grows v (pure (λ g, with_object (g_code g) (g_symbols g ++ [f g]) (g_relocations g) g))) as Hb.
  { intros f g g' [= <-]. split; [done|]. intros Hw Hlt.
    split; [|by destruct Hw]. split; cbn; [done|by eexists| | |done|by left]; (exists []; rewrite app_nil_r; split; [done|set_solver]). }
  unfold bindLabel. repeat apply grows_andthen; try by apply grows_pure. apply Hb.
Qed.

Lemma grows_byte b : grows v (emitByte b).
Proof. eapply appends_grows, appends_byte. Qed.

Ltac grows := repeat match goal with
  | |- grows _ (andthen _ _) => apply grows_andthen
  | |- grows _ (emitByte _) => apply grows_byte
  | |- grows _ (emitLocalJump _ _ _) => apply grows_jump
  | |- grows _ (bindLabel _) => apply grows_bind
  | |- grows _ (when _ _) => apply grows_when
  | |- grows _ (pure _) => by apply grows_pure
  | |- grows _ skip => apply grows_skip
  | |- grows _ (if ?b then _ else _) => destruct b
  end.

Lemma grows_word_literal r x : grows v (emitWordLiteral r x).
Proof. unfold emitWordLiteral, emitWord, clobber. grows. Qed.
Lemma grows_literal r x : grows v (emitRegisterLiteral v r x).
Proof. unfold emitRegisterLiteral, clobber. grows. apply grows_word_literal. Qed.
Lemma grows_emitLiteral x : grows v (emitLiteral v x).
Proof. unfold emitLiteral. apply grows_throw, grows_literal. Qed.
Lemma grows_move d s : grows v (emitMove v d s).
Proof.
  intros g g' H. unfold emitMove in H. revert H. generalize (g_accumulator g). intros x H. revert g g' H.
  change (grows v (clobber d >> when (d =? StackPointerRegister) reset_credit >> emitByte (Z.lor 32 s) >> emitByte (Z.lor 16 d) >>
                when (globallyOptimized v && negb (d =? 0)) (pure (with_accumulator x)))).
  unfold clobber, reset_credit. grows.
Qed.
Lemma grows_compare r x : grows v (emitCompare v r x).
Proof. unfold emitCompare. grows; apply grows_literal. Qed.

(** The bytes of a fault island. *)
Lemma island_code fault : 0 ≤ fault < 65536 → island v fault = code_of (literal_instr 6 fault) ++ [0; 1].
Proof. intros. unfold island, literal_instr. destruct (_ && _); done. Qed.

Lemma appends_island fault :
  0 ≤ fault < 65536 → appends (emitRegisterLiteral v AddressFaultRegister fault >> emitByte 0 >> emitByte 1) (island v fault).
Proof.
  intros Hf. eapply appends_eq; [|symmetry; by apply island_code].
  apply appends_andthen; [by apply appends_literal|]. apply (appends_andthen _ _ [0] [1]); apply appends_byte.
Qed.

(** Where the recorded island of [fault] is if there is one. *)
Definition records (fault : Z) (p : Z) (g : Gen) : Gen :=
  if globallyOptimized v then with_faults (<[fault := p]> (g_faults g)) g else g.

Lemma emitAddressFault_ok fault g g' :
  0 ≤ fault < 65536 → emitAddressFault v fault g = Ok g' →
  Plain (records fault (here g) g) g' (island v fault).
Proof.
  intros Hf (g1 & H1 & H2)%andthen_ok. apply (appends_island fault Hf) in H2.
  replace (records fault (here g) g) with g1; [done|]. unfold records. destruct (globallyOptimized v); by injection H1 as <-.
Qed.

Lemma grows_fault fault : 0 ≤ fault < 65536 → grows v (emitAddressFault v fault).
Proof.
  intros Hf g g' H%emitAddressFault_ok; [|done].
  assert (Plain g (with_faults (g_faults g) g') (island v fault)) as Hp.
  { destruct H as [Hc Hs Hfx Hr _ Hpl]. unfold records in *. by split; destruct (globallyOptimized v). }
  pose proof (plain_here _ _ _ Hp) as Hh. change (here (with_faults (g_faults g) g')) with (here g') in Hh.
  pose proof (zlen_nonneg (island v fault)). split; [lia|]. intros Hw Hlt.
  pose proof (plain_extends _ _ _ Hp) as Hx. pose proof (plain_wf v _ _ _ Hp Hw Hlt) as Hw'.
  assert (g_faults g' = g_faults (records fault (here g) g)) as Ef by apply H. split.
  { destruct Hx as [X1 X2 X3 X4 X5 _]. split; try done. intros fault' p'. rewrite Ef. unfold records.
    destruct (globallyOptimized v); [|by left]. cbn [g_faults with_faults]. intros [[<- <-]|[_ ?]]%lookup_insert_Some; [by right|by left]. }
  split; [done|apply Hw'|apply Hw'|apply Hw'|apply Hw'|]. intros fault' p' Hl.
  rewrite Ef in Hl. unfold records in Hl.
  destruct (globallyOptimized v); [|by apply (wf_islands _ _ Hw')]. cbn [g_faults with_faults] in Hl.
  destruct (decide (fault' = fault)) as [->|Hne].
  - rewrite lookup_insert_eq in Hl. injection Hl as <-. split; [apply zlen_nonneg|]. split; [done|]. intros k b Hk.
    assert (g_code g' = g_code g ++ island v fault) as -> by apply Hp.
    replace (Z.to_nat (here g)) with (length (g_code g)) by (unfold here, zlen; lia). split.
    + rewrite lookup_app_r by lia. by replace (length (g_code g) + k - length (g_code g))%nat with k by lia.
    + intros Hpa. apply (wf_unpatched v g (here g + Z.of_nat k) Hw); [lia|].
      apply (proj1 (plain_patched _ _ _ _ Hp)). exact Hpa.
  - rewrite lookup_insert_ne in Hl by done. by apply (wf_islands _ _ Hw').
Qed.

Lemma grows_use e g g' : e g = Ok g' → grows v e →
  here g ≤ here g' ∧ (Wf v g → here g' < 65536 → Extends g g' ∧ Wf v g').
Proof. intros H G. by apply G. Qed.

Lemma grows_guard c fault : 0 ≤ fault < 65536 → grows v (emitGuard v c fault).
Proof.
  intros Hf g g' H. unfold emitGuard in H.
  destruct (g_faults g !! fault) as [p|]; [destruct (_ && _ && _ && _ && _)|]; apply (grows_use _ _ _ H);
    repeat first [by apply grows_fault | apply grows_andthen | apply grows_byte].
Qed.

Lemma grows_stack_guard required source : grows v (emitStackGuard v required source).
Proof.
  intros g g' H. unfold emitStackGuard in H. apply result_bind_ok in H as (u & Hu & H).
  destruct (_ && _); [by eapply grows_skip|]. cbv zeta in H.
  apply andthen_ok in H as (g1 & H1 & H2). apply andthen_ok in H2 as (g2 & H2 & H3).
  assert ((λ g, (emitWordLiteral 3 0 >> addRelocation (StackLimitPrefix +:+ pretty required) (here g) ADDR16_RAM) g) g = Ok g2) as H12
    by (cbv beta; rewrite andthen_ok; eauto).
  assert (grows v (emitByte 0xba >> emitByte 0x3f >> emitByte 0x63 >> emitGuard v 13 2 >>
            when (globallyOptimized v) (pure (λ g, with_credit (Credit.checked required (g_credit g)) g)))) as Hk.
  { repeat first [by apply grows_guard | apply grows_andthen | apply grows_byte | apply grows_when]. by apply grows_pure. }
  assert (appends (emitWordLiteral 3 0) (Startup.word 3 0)) as Ha by by apply appends_word_literal.
  pose proof (grows_relocated _ _ (StackLimitPrefix +:+ pretty required) ADDR16_RAM Ha ltac:(done)) as Hr.
  destruct (Hr g g2 H12) as [L1 X1], (Hk g2 g' H3) as [L2 X2].
  split; [lia|]. intros Hw Hlt. destruct (X1 Hw ltac:(lia)) as [E1 W1]. destruct (X2 W1 Hlt) as [E2 W2].
  split; [by eapply extends_trans|done].
Qed.

Lemma grows_push r : grows v (emitPush v r).
Proof.
  unfold emitPush, forget_ram.
  repeat first [apply grows_stack_guard | apply grows_byte | by apply grows_pure | apply grows_andthen | apply grows_when].
Qed.
Lemma grows_pop r : grows v (emitPop v r).
Proof. unfold emitPop, forget_ram, clobber. grows. Qed.

Lemma grows_label (k : string → Gen → result Gen) :
  (∀ l, grows v (k l)) → grows v (λ g, let '(l, g) := localLabel v g in k l g).
Proof.
  intros Hk g g' H. cbn in H.
  destruct (Hk _ _ _ H) as [L X]. split; [exact L|]. intros Hw Hlt.
  destruct X as [[] ?]; [by destruct Hw|done|]. split; [|done]. by split.
Qed.
End Emitters.

(* ------------------------------------------------------------------ *)
(** ** Payloads that hold what was emitted *)

Section Run.
Context (code : list Z) (origin program_bank : Z) (rom : Memory) (fits : Fits code origin program_bank).
(** Where the code of the generator starts in the payload, the offsets of its
    labels and the addresses the linker resolves names to. *)
Context (base : nat) (labels addresses : string → option Z).

Definition at_ (g : Gen) : nat := (base + length (g_code g))%nat.

(** The operand word behind an opcode at offset [p]. *)
Definition operand_is (p x : Z) : Prop :=
  code !! (base + Z.to_nat (p + 1))%nat = Some (u8 x) ∧ code !! (base + Z.to_nat (p + 2))%nat = Some (u8 (Z.shiftr x 8)).

(** [slot] is a delay slot that may become CACHE. *)
Record Realizes (slot : option Z) (g : Gen) : Prop := {
  rz_bytes : ∀ p b, g_code g !! p = Some b → ¬ patched g (Z.of_nat p) → slot ≠ Some (Z.of_nat p) →
    code !! (base + p)%nat = Some b;
  rz_slot : ∀ p, slot = Some p → 0 ≤ p < here g → ∃ b, code !! (base + Z.to_nat p)%nat = Some b ∧ slot_ok b;
  rz_size : (at_ g < length code)%nat;
  rz_fixups : ∀ f, f ∈ g_fixups g → fx_local f ≠ "" → fx_long f = false →
    ∃ t, labels (fx_local f) = Some t ∧ -128 ≤ t - (fx_patch f + 1) ≤ 127 ∧
      code !! (base + Z.to_nat (fx_patch f))%nat = Some (u8 (t - (fx_patch f + 1)));
  rz_relocations : ∀ r, r ∈ g_relocations g → r_type r = ADDR16_IWT ∨ r_type r = ADDR16_RAM →
    ∃ x, addresses (target_symbol_name r) = Some x ∧ operand_is (patch_offset r) x;
  rz_labels : ∀ s, s ∈ g_symbols g → s_section s = CODE →
    labels (s_name s) = Some (s_offset s) ∧ addresses (s_name s) = Some (origin + Z.of_nat base + s_offset s)
}.

Lemma realizes_extends slot g g' : Extends g g' → Realizes slot g' → Realizes slot g.
Proof.
  intros Hx [Hb Hs Hz Hf Hr Hl]. pose proof (extends_here _ _ Hx) as Hle. split.
  - intros p b Hp Hn Hs'. apply Hb; [by eapply prefix_lookup_Some; [|apply Hx]| |done].
    intros Hpa. apply Hn, (extends_patched g g'); [done..|]. apply lookup_lt_Some in Hp. unfold here, zlen. lia.
  - intros p Hp Hrange. apply Hs; [done|lia].
  - unfold at_ in *. pose proof (prefix_length _ _ (ex_code _ _ Hx)). lia.
  - intros f Hin. apply Hf. destruct (ex_fixups _ _ Hx) as (k & -> & _). apply elem_of_app. by left.
  - intros r Hin. apply Hr. destruct (ex_relocations _ _ Hx) as (k & -> & _). apply elem_of_app. by left.
  - intros s Hin. apply Hl. eapply elem_of_prefix; [done|apply Hx].
Qed.

(** The byte of the slot is set once it is known. *)
Lemma realizes_slot k g code' :
  set_at (g_code g) k 2 = Ok code' → ¬ patched g k →
  Realizes None (with_object code' (g_symbols g) (g_relocations g) g) → Realizes (Some k) g.
Proof.
  intros Hc Hn [Hb _ Hz Hf Hr Hl]. apply set_at_ok in Hc as [Hk ->]. cbn [g_code with_object] in *.
  assert (at_ (with_object (<[Z.to_nat k:=2]> (g_code g)) (g_symbols g) (g_relocations g) g) = at_ g) as Ea
    by (unfold at_; cbn; by rewrite length_insert).
  rewrite Ea in Hz. split; try done.
  - intros p b Hp Hn' Hs. apply Hb; [|done|done]. rewrite list_lookup_insert_ne; [done|]. intros Ek. apply Hs. f_equal. lia.
  - intros p [= <-] Hrange. exists 2. split; [|by right]. apply Hb; [|by rewrite Z2Nat.id by lia|done].
    apply list_lookup_insert_eq. unfold here, zlen in Hrange. lia.
Qed.

Context (v : Env) (writable : Z → bool).
Context (Hwritable : ∀ i, writable i = true → 0 ≤ i < RamSize ∧ ¬ occupied code origin program_bank i).
Context (P : Machine → Prop).
Notation goes := (goes code origin program_bank rom P).

(** The slot, if any, is not among the bytes emitted from [g] to [g']. *)
Definition away (slot : option Z) (g g' : Gen) : Prop := ∀ p, slot = Some p → p < here g ∨ here g' ≤ p.

Lemma here_at g : Z.of_nat (at_ g) = Z.of_nat base + here g.
Proof. unfold at_, here, zlen. lia. Qed.

Lemma code_at slot g p : Realizes slot g → (p ≤ length (g_code g))%nat → is_Some (code !! (base + p)%nat).
Proof. intros H Hp. apply lookup_lt_is_Some_2. pose proof (rz_size _ _ H). unfold at_ in *. lia. Qed.
Lemma code_at_here slot g : Realizes slot g → is_Some (code !! at_ g).
Proof. intros H. by eapply (code_at slot g). Qed.

(** Bytes just emitted are in the payload. *)
Lemma plain_holds slot g g' l :
  Plain g g' l → Wf v g → Realizes slot g' → away slot g g' → holds code (at_ g) l.
Proof.
  intros Hp Hw Hr Ha k b Hk. unfold at_. rewrite <- Nat.add_assoc. apply (rz_bytes _ _ Hr).
  - rewrite (pl_code _ _ _ Hp), lookup_app_r by lia. by replace (length (g_code g) + k - length (g_code g))%nat with k by lia.
  - rewrite (plain_patched _ _ _ _ Hp). apply (wf_unpatched v); [done|]. unfold here, zlen. lia.
  - intros [Hlt|Hge]%Ha; unfold here, zlen in *; [lia|]. rewrite (pl_code _ _ _ Hp), length_app in Hge.
    apply lookup_lt_Some in Hk. lia.
Qed.

Lemma at_plain g g' l : Plain g g' l → at_ g' = (at_ g + length l)%nat.
Proof. intros H. unfold at_. rewrite (pl_code _ _ _ H), length_app. lia. Qed.

(** Straight-line code. *)
Lemma run_instrs slot e l g g' s w s' w' :
  appends e (concat (code_of <$> l)) → e g = Ok g' → Wf v g → Realizes slot g' → away slot g g' →
  sel_ok s → execs writable l s w = Some (s', w') → goes (at_ g') s' w' → goes (at_ g) s w.
Proof.
  intros He H Hw Hr Ha Hs Hx Hgo. specialize (He g g' H). pose proof (at_plain _ _ _ He) as Ea.
  apply (goes_code code origin program_bank rom fits writable Hwritable P l (at_ g) s w s' w'); try done.
  - by apply (plain_holds slot g g').
  - rewrite <- Ea. by eapply code_at_here.
  - by rewrite <- Ea.
Qed.

Lemma signed8_u8 d : -128 ≤ d ≤ 127 → signed8 (u8 d) = d.
Proof. intros. unfold signed8, uwrap. change (2 ^ 8) with 256. destruct (_ <? _) eqn:E; zmod. Qed.

(** A jump to a label at offset [t]. *)
Lemma run_short slot name c serial g g' t w :
  short_jump name c serial g = Ok g' → name ≠ "" → Wf v g → Realizes slot g' → away slot g g' → 5 ≤ c ≤ 15 →
  labels name = Some t → 0 ≤ t → is_Some (code !! (base + Z.to_nat t)%nat) →
  (branch_taken c (fl w) = true → goes (base + Z.to_nat t) plain w) →
  (branch_taken c (fl w) = false → goes (at_ g') plain w) → goes (at_ g) plain w.
Proof.
  intros H Hname Hw Hr Ha Hc Hl Ht Hcode Htaken Hfall.
  destruct (short_jump_ok _ _ _ _ _ H) as (g1 & Hp & Ec & Es & Ef & Epl & Erl & Efx).
  destruct (rz_fixups _ _ Hr (mkFixup (here g + 1) InvalidBlock (token UNKNOWN name 0 0) false name serial))
    as (t' & Hl' & Hd & Hb); [rewrite Efx; apply elem_of_app; right; by left|done|done|].
  cbn [fx_local fx_patch] in *. rewrite Hl in Hl'. injection Hl' as <-.
  assert (at_ g' = (at_ g + 3)%nat) as Ea by (unfold at_; rewrite Ec, (pl_code _ _ _ Hp), length_app; cbn; lia).
  pose proof (zlen_nonneg (g_code g)) as Hnn.
  assert (∀ k b, [u8 c; 0; 1] !! k = Some b → k ≠ 1%nat → code !! (at_ g + k)%nat = Some b) as Hbytes.
  { intros k b Hk Hne. unfold at_. rewrite <- Nat.add_assoc. apply (rz_bytes _ _ Hr).
    - rewrite Ec, (pl_code _ _ _ Hp), lookup_app_r by lia. by replace (length (g_code g) + k - length (g_code g))%nat with k by lia.
    - intros [(f & Hin & Hf)|(r & Hin & Hf)].
      + rewrite Efx, (pl_fixups _ _ _ Hp) in Hin. apply elem_of_app in Hin as [Hin| ->%list_elem_of_singleton].
        * pose proof (wf_fixups _ _ Hw f Hin). unfold here, zlen in *. lia.
        * unfold fixup_end in Hf. cbn in Hf. unfold here, zlen in *. lia.
      + rewrite Erl, (pl_relocations _ _ _ Hp) in Hin. pose proof (wf_relocations _ _ Hw r Hin). unfold here, zlen in *. lia.
    - intros [Hlt|Hge]%Ha; unfold here, zlen in *; [lia|]. rewrite Ec, (pl_code _ _ _ Hp), length_app in Hge. cbn in Hge.
      apply lookup_lt_Some in Hk. cbn in Hk. lia. }
  apply (goes_branch code origin program_bank rom fits P (at_ g) c (u8 (t - (here g + 1 + 1))) 1 (base + Z.to_nat t) w).
  - rewrite !holds_cons. split_and!; [| | |by intros [|?] ? ?].
    + rewrite <- (Nat.add_0_r (at_ g)). apply (Hbytes 0%nat); [cbn; by rewrite u8_idem by lia|lia].
    + replace (S (at_ g)) with (base + Z.to_nat (here g + 1))%nat by (unfold at_, here, zlen; lia). exact Hb.
    + replace (S (S (at_ g))) with (at_ g + 2)%nat by lia. by apply (Hbytes 2%nat).
  - done.
  - by left.
  - rewrite <- Ea. by eapply code_at_here.
  - rewrite signed8_u8 by lia. pose proof (here_at g). lia.
  - done.
  - done.
  - by rewrite <- Ea.
Qed.

Lemma realizes_bound slot g : Realizes slot g → here g < 65536.
Proof.
  intros H. pose proof (rz_size _ _ H). pose proof (fit_size _ _ _ fits). pose proof (fit_origin _ _ _ fits).
  unfold at_, here, zlen in *. lia.
Qed.

(** What an emission in a realized payload leaves for the rest. *)
Lemma grown slot e g g' :
  e g = Ok g' → grows v e → Wf v g → Realizes slot g' → Extends g g' ∧ Wf v g' ∧ Realizes slot g.
Proof.
  intros H Hg Hw Hr. destruct (Hg g g' H) as [_ X]. destruct (X Hw (realizes_bound _ _ Hr)) as [Hx Hw'].
  split; [done|]. split; [done|]. by eapply realizes_extends.
Qed.

Lemma chain slot e k g g' :
  (e >> k) g = Ok g' → grows v e → grows v k → Wf v g → Realizes slot g' →
  ∃ g1, e g = Ok g1 ∧ k g1 = Ok g' ∧ Wf v g1 ∧ Realizes slot g1 ∧ Extends g g1 ∧ Extends g1 g' ∧ here g ≤ here g1 ≤ here g'.
Proof.
  intros (g1 & H1 & H2)%andthen_ok He Hk Hw Hr. destruct (He g g1 H1) as [L1 X1]. destruct (Hk g1 g' H2) as [L2 X2].
  pose proof (realizes_bound _ _ Hr). destruct (X1 Hw ltac:(lia)) as [E1 W1]. destruct (X2 W1 ltac:(lia)) as [E2 _].
  exists g1. split_and!; try done; [by eapply realizes_extends|lia..].
Qed.

(** [IWT] with an address the linker fills in. *)
Lemma relocated_word slot r name type g g1 g' :
  0 ≤ r < 16 → type = ADDR16_IWT ∨ type = ADDR16_RAM → Wf v g → Realizes slot g' → away slot g g' →
  Plain g g1 (Startup.word r 0) →
  Extends (with_object (g_code g1) (g_symbols g1) (g_relocations g1 ++ [mkRelocation name CODE (u32 (here g)) type]) g1) g' →
  ∃ x, addresses name = Some x ∧ holds code (at_ g) (Startup.word r x).
Proof.
  intros Hr0 Ht Hw Hr Ha Hp Hx. set (g2 := with_object _ _ _ _) in *.
  pose proof (realizes_bound _ _ Hr) as Hb. pose proof (extends_here _ _ Hx) as Hle. pose proof (plain_here _ _ _ Hp) as Hh.
  change (here g2) with (here g1) in Hle. change (zlen (Startup.word r 0)) with 3 in Hh. pose proof (zlen_nonneg (g_code g)).
  assert (0 ≤ here g) by apply zlen_nonneg. assert (u32 (here g) = here g) as Hu by (apply uwrap_small; lia).
  destruct (rz_relocations _ _ Hr (mkRelocation name CODE (u32 (here g)) type)) as (x & Hx1 & Hlo & Hhi); [|done|].
  { destruct (ex_relocations _ _ Hx) as (k & -> & _). cbn. apply elem_of_app. left. apply elem_of_app. right. by left. }
  exists x. split; [done|]. cbn [patch_offset] in *. rewrite Hu in *. unfold Startup.word. rewrite !holds_cons. split_and!.
  - unfold at_. rewrite <- (Nat.add_0_r (length (g_code g))), Nat.add_assoc.
    replace (base + length (g_code g) + 0)%nat with (base + length (g_code g))%nat by lia. apply (rz_bytes _ _ Hr).
    + eapply prefix_lookup_Some; [|apply Hx]. cbn. rewrite (pl_code _ _ _ Hp), lookup_app_r, Nat.sub_diag by lia. done.
    + change (Z.of_nat (length (g_code g))) with (here g). intros Hpa.
      apply (extends_patched g2 g') in Hpa; [|done|change (here g2) with (here g1); lia].
      destruct Hpa as [(f & Hin & Hf)|(q & Hin & Hf)].
      * cbn in Hin. rewrite (pl_fixups _ _ _ Hp) in Hin. pose proof (wf_fixups _ _ Hw f Hin). lia.
      * cbn in Hin. apply elem_of_app in Hin as [Hin| ->%list_elem_of_singleton]; [|cbn in Hf; lia].
        rewrite (pl_relocations _ _ _ Hp) in Hin. pose proof (wf_relocations _ _ Hw q Hin). lia.
    + change (Z.of_nat (length (g_code g))) with (here g). intros [Hlt|Hge]%Ha; lia.
  - replace (S (at_ g)) with (base + Z.to_nat (here g + 1))%nat by (unfold at_, here, zlen; lia). done.
  - replace (S (S (at_ g))) with (base + Z.to_nat (here g + 2))%nat by (unfold at_, here, zlen; lia). done.
  - by intros [|?] ? ?.
Qed.

Definition goto (name : string) : Gen → result Gen :=
  (λ g, (emitRegisterLiteral v 15 0 >> addRelocation name (here g) ADDR16_IWT) g) >> emitByte 1.

Lemma grows_goto name : grows v (goto name).
Proof.
  apply grows_andthen; [|apply grows_byte]. apply (grows_relocated _ _ _ name ADDR16_IWT (appends_iwt15 v)). done.
Qed.

Lemma run_goto slot name g g' t w :
  goto name g = Ok g' → Wf v g → Realizes slot g' → away slot g g' →
  addresses name = Some (origin + Z.of_nat (base + Z.to_nat t)) → is_Some (code !! (base + Z.to_nat t)%nat) →
  goes (base + Z.to_nat t) plain w → goes (at_ g) plain w.
Proof.
  intros H Hw Hr Ha Hn Hcode Hgo. apply andthen_ok in H as (g2 & H & H1). cbv beta in H. apply andthen_ok in H as (g1 & H & H2).
  pose proof (appends_iwt15 v g g1 H) as Hp. injection H2 as <-. pose proof (appends_byte 1 _ _ H1) as Hp1.
  pose proof (plain_here _ _ _ Hp) as Hh. pose proof (plain_here _ _ _ Hp1) as Hh1.
  change (zlen (Startup.word 15 0)) with 3 in Hh. change (zlen [u8 1]) with 1 in Hh1.
  change (here g' = here g1 + 1) in Hh1.
  destruct (relocated_word slot 15 name ADDR16_IWT g g1 g') as (x & Hx & Hb); [lia|by left|done|done|done|done|by eapply plain_extends|].
  rewrite Hn in Hx. injection Hx as <-.
  apply (goes_far code origin program_bank rom fits P (at_ g) (base + Z.to_nat t) w); [|done|done].
  apply holds_app. split; [exact Hb|]. change (length (Startup.word 15 (origin + Z.of_nat (base + Z.to_nat t)))) with 3%nat.
  assert (at_ (with_object (g_code g1) (g_symbols g1) (g_relocations g1 ++ [mkRelocation name CODE (u32 (here g)) ADDR16_IWT]) g1) = (at_ g + 3)%nat) as Ea.
  { unfold at_. cbn [g_code with_object]. rewrite (pl_code _ _ _ Hp), length_app. cbn. lia. }
  rewrite <- Ea. change [1] with [u8 1]. eapply (plain_holds slot _ g' _ Hp1).
  - assert (grows v (λ g, (emitRegisterLiteral v 15 0 >> addRelocation name (here g) ADDR16_IWT) g)) as Hg
      by by apply (grows_relocated _ _ _ name ADDR16_IWT (appends_iwt15 v)).
    apply (Hg g); [|done|]. { cbv beta. rewrite andthen_ok. eauto. }
    pose proof (realizes_bound _ _ Hr). change (here g1 < 65536). lia.
  - done.
  - intros p Hpp. change (p < here g1 ∨ here g' ≤ p). specialize (Ha p Hpp). lia.
Qed.

Lemma inverse_range c : 6 ≤ c ≤ 15 → 6 ≤ Z.lxor c 1 ≤ 15.
Proof.
  intros H. assert (c = 6 ∨ c = 7 ∨ c = 8 ∨ c = 9 ∨ c = 10 ∨ c = 11 ∨ c = 12 ∨ c = 13 ∨ c = 14 ∨ c = 15) as Hc by lia.
  by repeat destruct Hc as [->|Hc]; subst.
Qed.

Lemma run_far slot name c g g' t w :
  far_jump v name c g = Ok g' → Wf v g → Realizes slot g' → away slot g g' → 5 ≤ c ≤ 15 →
  addresses name = Some (origin + Z.of_nat (base + Z.to_nat t)) → is_Some (code !! (base + Z.to_nat t)%nat) →
  (branch_taken c (fl w) = true → goes (base + Z.to_nat t) plain w) →
  (branch_taken c (fl w) = false → goes (at_ g') plain w) → goes (at_ g) plain w.
Proof.
  intros H Hw Hr Ha Hc Hn Hcode Htaken Hfall. unfold far_jump in H. destruct (Z.eqb_spec c 5) as [->|Hne]; cbn [negb when] in H.
  - apply andthen_ok in H as (g1 & [= <-] & H). eapply (run_goto slot name g g' t w); try done. by apply Htaken.
  - apply andthen_ok in H as (g1 & H1 & H2).
    pose proof (appends_andthen _ _ _ _ (appends_byte (Z.lxor c 1)) (appends_andthen _ _ _ _ (appends_byte 5) (appends_byte 1)) g g1 H1) as Hp.
    pose proof (inverse_range c ltac:(lia)) as Hinv. cbn [app] in Hp. rewrite (u8_idem (Z.lxor c 1)) in Hp by lia.
    destruct (grows_goto name g1 g' H2) as [Hle X]. pose proof (plain_here _ _ _ Hp) as Hh.
    change (zlen [Z.lxor c 1; u8 5; u8 1]) with 3 in Hh. pose proof (realizes_bound _ _ Hr) as Hb.
    assert (Wf v g1) as Hw1 by (eapply plain_wf; [done..|lia]). destruct (X Hw1 Hb) as [Hx1 Hw'].
    assert (at_ g' = (at_ g + 7)%nat) as Ea.
    { apply andthen_ok in H2 as (g3 & H2 & H3). cbv beta in H2. apply andthen_ok in H2 as (g2 & H2 & H4).
      pose proof (appends_iwt15 v _ _ H2) as Hp2. injection H4 as <-. pose proof (appends_byte 1 _ _ H3) as Hp3.
      unfold at_. rewrite (pl_code _ _ _ Hp3). cbn [g_code with_object]. rewrite (pl_code _ _ _ Hp2), (pl_code _ _ _ Hp), !length_app. cbn. lia. }
    assert (Realizes slot g1) as Hr1 by by eapply realizes_extends.
    apply (goes_branch code origin program_bank rom fits P (at_ g) (Z.lxor c 1) 5 1 (at_ g') w).
    + apply (plain_holds slot g g1 _ Hp Hw Hr1). intros p Hpp. specialize (Ha p Hpp). lia.
    + lia.
    + by left.
    + pose proof (at_plain _ _ _ Hp) as E1. cbn [length] in E1. rewrite <- E1. by eapply code_at_here.
    + rewrite Ea. change (signed8 5) with 5. lia.
    + by eapply code_at_here.
    + rewrite branch_taken_inverse by lia. intros Ht%negb_true_iff. by apply Hfall.
    + rewrite branch_taken_inverse by lia. intros Ht%negb_false_iff.
      pose proof (at_plain _ _ _ Hp) as E1. cbn [length] in E1. rewrite <- E1.
      eapply (run_goto slot name g1 g' t w); try done; [|by apply Htaken]. intros p Hpp. specialize (Ha p Hpp). lia.
Qed.

(** [emitLocalJump]: to the label where the condition holds. *)
Lemma run_jump slot name c g g' t w :
  emitLocalJump v name c g = Ok g' → name ≠ "" → Wf v g → Realizes slot g' → away slot g g' → 5 ≤ c ≤ 15 →
  labels name = Some t → addresses name = Some (origin + Z.of_nat (base + Z.to_nat t)) → 0 ≤ t → is_Some (code !! (base + Z.to_nat t)%nat) →
  (branch_taken c (fl w) = true → goes (base + Z.to_nat t) plain w) →
  (branch_taken c (fl w) = false → goes (at_ g') plain w) → goes (at_ g) plain w.
Proof.
  intros H Hname Hw Hr Ha Hc Hl Hn Ht Hcode Htaken Hfall. unfold emitLocalJump in H.
  destruct (optimized v); [|by eapply run_far].
  change (at_ g) with (at_ (with_fixups (g_fixups g) (g_branch_serial g + 1) g)).
  assert (Wf v (with_fixups (g_fixups g) (g_branch_serial g + 1) g)) as Hw' by by destruct Hw.
  destruct (longBranch v (g_branch_serial g)).
  - by eapply (run_far slot name c).
  - by eapply (run_short slot name c (g_branch_serial g)).
Qed.

(** The offset of a label. *)
Lemma bound slot name g g' h :
  bindLabel name g = Ok g' → Wf v g → Extends g' h → Realizes slot h →
  labels name = Some (here g) ∧ addresses name = Some (origin + Z.of_nat (at_ g)) ∧ at_ g' = at_ g ∧ here g' = here g
  ∧ g_code g' = g_code g.
Proof.
  intros H Hw Hx Hr. injection H as <-. cbn in *. pose proof (wf_size _ _ Hw). assert (0 ≤ here g) by apply zlen_nonneg.
  destruct (rz_labels _ _ Hr (mkSymbol name CODE (u32 (here g)))) as [Hl Hn]; [|done|].
  { eapply elem_of_prefix; [|apply Hx]. cbn. apply elem_of_app. right. by left. }
  cbn [s_name s_offset] in *. rewrite uwrap_small in Hl, Hn by lia. split_and!; try done.
  rewrite Hn. f_equal. unfold at_, here, zlen. lia.
Qed.

Lemma at_base g : (base + Z.to_nat (here g))%nat = at_ g.
Proof. unfold at_, here, zlen. lia. Qed.

(* ------------------------------------------------------------------ *)
(** ** Guards *)

(** A fault island: the fault in R6, and STOP. *)
Lemma run_island a fault w :
  0 ≤ fault < 65536 → holds code a (island v fault) →
  (∀ m, pipeline m = 0 → sees m = put 6 fault w → P m) → goes a plain w.
Proof.
  intros Hf Hb HP. rewrite island_code in Hb by done. apply holds_app in Hb as [Hb Hz].
  assert (execs writable [literal_instr v 6 fault] plain w = Some (plain, put 6 fault w)) as Hx.
  { cbn [execs]. rewrite literal_encodable by lia. by rewrite literal_exec. }
  rewrite holds_cons in Hz. destruct Hz as [Hz _].
  apply (goes_code code origin program_bank rom fits writable Hwritable P [literal_instr v 6 fault] a plain w plain (put 6 fault w));
    cbn [fmap list_fmap concat]; rewrite ?app_nil_r; try done.
  apply goes_done. intros m _ Hm Hs. apply HP; [|done]. pose proof (rd_pipe _ _ _ _ _ _ _ Hm). congruence.
Qed.

(** No island has the slot in it. *)
Definition clear (slot : option Z) (g : Gen) : Prop :=
  ∀ p fault q, slot = Some p → g_faults g !! fault = Some q → q ≤ p → q + zlen (island v fault) ≤ p.

Lemma clear_none g : clear None g.
Proof. done. Qed.
Lemma clear_extends slot g g' : Extends g g' → clear slot g → (∀ p, slot = Some p → p < here g) → clear slot g'.
Proof. intros Hx Hc Hlt p fault q Hp Hq Hle. destruct (ex_faults _ _ Hx fault q Hq) as [H|H]; [by eapply Hc|]. specialize (Hlt p Hp). lia. Qed.
Lemma island_inside g fault q : Wf v g → g_faults g !! fault = Some q → 0 ≤ q ∧ q + zlen (island v fault) ≤ here g.
Proof.
  intros Hw Hq. destruct (wf_islands _ _ Hw _ _ Hq) as (H0 & _ & Hi). split; [done|].
  destruct (island v fault) as [|b l] eqn:E; [unfold island in E; by destruct (_ && _)|].
  destruct (Hi (length l) (List.last (b :: l) 0)) as [Hb _].
  { clear. revert b. induction l as [|c l IH]; intros b; [done|]. cbn [length lookup list_lookup]. apply (IH c). }
  apply lookup_lt_Some in Hb. unfold here, zlen. cbn [length]. lia.
Qed.
Lemma clear_start slot g : Wf v g → (∀ p, slot = Some p → here g ≤ p) → clear slot g.
Proof. intros Hw Hlt p fault q Hp Hq _. specialize (Hlt p Hp). pose proof (island_inside g fault q Hw Hq). lia. Qed.

Lemma holds_island slot g g' fault q :
  Wf v g → Extends g g' → Realizes slot g' → clear slot g → g_faults g !! fault = Some q →
  holds code (base + Z.to_nat q) (island v fault).
Proof.
  intros Hw Hx Hr Hc Hq k b Hk. destruct (wf_islands _ _ Hw _ _ Hq) as (H0 & _ & Hi). destruct (Hi k b Hk) as [Hb Hn].
  rewrite <- Nat.add_assoc. apply (rz_bytes _ _ (realizes_extends _ _ _ Hx Hr)); [done| |].
  - by replace (Z.of_nat (Z.to_nat q + k)) with (q + Z.of_nat k) by lia.
  - intros Hs. pose proof (Hc _ fault q Hs Hq ltac:(lia)). apply lookup_lt_Some in Hk. unfold zlen in *. lia.
Qed.

(** A byte emitted alone is in the payload, unless it is the slot. *)
Lemma byte_holds slot g g' b :
  emitByte b g = Ok g' → Wf v g → Realizes slot g' → slot ≠ Some (here g) → code !! at_ g = Some (u8 b).
Proof.
  intros H%appends_byte Hw Hr Hs. pose proof (plain_holds slot g g' [u8 b] H Hw Hr) as Hh.
  rewrite holds_cons in Hh. apply Hh. intros p Hp. pose proof (plain_here _ _ _ H) as E. change (zlen [u8 b]) with 1 in E.
  assert (p ≠ here g) by congruence. lia.
Qed.
Lemma slot_holds slot g g' b :
  emitByte b g = Ok g' → Wf v g → Realizes slot g' → slot_ok (u8 b) → ∃ x, code !! at_ g = Some x ∧ slot_ok x.
Proof.
  intros H Hw Hr Hb. destruct (decide (slot = Some (here g))) as [Hs|Hs]; [|eauto using byte_holds].
  destruct (rz_slot _ _ Hr _ Hs) as (x & Hx & Hok).
  { apply appends_byte, plain_here in H. change (zlen [u8 b]) with 1 in H. pose proof (zlen_nonneg (g_code g)). unfold here in *. lia. }
  exists x. split; [|done]. by rewrite at_base in Hx.
Qed.

(** The three bytes of a branch whose delay slot may be the slot. *)
Lemma branch_holds slot c d g g' :
  (emitByte c >> emitByte d >> emitByte 1) g = Ok g' → Wf v g → Realizes slot g' →
  (∀ p, slot = Some p → p < here g ∨ here g + 2 ≤ p) →
  ∃ x, holds code (at_ g) [u8 c; u8 d; x] ∧ slot_ok x ∧ Plain g g' [u8 c; u8 d; 1].
Proof.
  intros H Hw Hr Hs.
  pose proof (appends_andthen _ _ _ _ (appends_byte c) (appends_andthen _ _ _ _ (appends_byte d) (appends_byte 1)) g g' H) as Hp.
  apply andthen_ok in H as (g1 & H1 & H). apply andthen_ok in H as (g2 & H2 & H3).
  pose proof (appends_byte _ _ _ H1) as P1. pose proof (appends_byte _ _ _ H2) as P2. pose proof (appends_byte _ _ _ H3) as P3.
  pose proof (plain_here _ _ _ P1) as E1. pose proof (plain_here _ _ _ P2) as E2. pose proof (plain_here _ _ _ P3) as E3.
  cbn [zlen length] in E1, E2, E3. change (zlen _) with 1 in E1. change (zlen _) with 1 in E2. change (zlen _) with 1 in E3.
  pose proof (realizes_extends _ _ _ (plain_extends _ _ _ P3) Hr) as R2.
  pose proof (realizes_extends _ _ _ (plain_extends _ _ _ P2) R2) as R1. pose proof (realizes_bound _ _ R2). pose proof (realizes_bound _ _ R1).
  assert (Wf v g1) as W1 by (by eapply plain_wf). assert (Wf v g2) as W2 by (by eapply plain_wf).
  destruct (slot_holds slot g2 g' 1 H3 W2 Hr ltac:(by left)) as (x & Hx & Hok). exists x. split; [|done].
  pose proof (at_plain _ _ _ P1) as A1. pose proof (at_plain _ _ _ P2) as A2. cbn [length] in A1, A2.
  rewrite !holds_cons. split_and!; [| | |by intros [|?] ? ?].
  - apply (byte_holds slot g g1); [done..|]. intros Es. specialize (Hs _ Es). lia.
  - replace (S (at_ g)) with (at_ g1) by lia. apply (byte_holds slot g1 g2); [done..|]. intros Es. specialize (Hs _ Es). lia.
  - by replace (S (S (at_ g))) with (at_ g2) by lia.
Qed.

(** [emitGuard]: on, or out with the fault. *)
Lemma run_guard slot c fault g g' w :
  emitGuard v c fault g = Ok g' → Wf v g → Realizes slot g' → clear slot g → 6 ≤ c ≤ 15 → 0 ≤ fault < 65536 →
  (∀ p, slot = Some p → p < here g ∨ p = here g + 2 ∨ here g' ≤ p) →
  (branch_taken c (fl w) = true → goes (at_ g') plain w) →
  (branch_taken c (fl w) = false → ∀ m, pipeline m = 0 → sees m = put 6 fault w → P m) → goes (at_ g) plain w.
Proof.
  intros H Hw Hr Hc Hcr Hf Hs Hon Hout. unfold emitGuard in H.
  set (fresh := emitByte c >> emitByte (if optimized v && ((fault <=? 127) || (0xff80 <=? fault)) then 5 else 6) >>
    emitByte 1 >> emitAddressFault v fault) in H.
  assert (∀ g', fresh g = Ok g' → Realizes slot g' → (∀ p, slot = Some p → p < here g ∨ p = here g + 2 ∨ here g' ≤ p) →
    (branch_taken c (fl w) = true → goes (at_ g') plain w) → goes (at_ g) plain w) as Hfresh.
  { clear g' H Hr Hs Hon. intros g' H Hr Hs Hon. unfold fresh in H.
    apply andthen_ok in H as (g1 & H1 & H). apply andthen_ok in H as (g2 & H2 & H). apply andthen_ok in H as (g3 & H3 & H4).
    assert ((emitByte c >> emitByte (if optimized v && ((fault <=? 127) || (65408 <=? fault)) then 5 else 6) >> emitByte 1) g = Ok g3) as H13.
    { rewrite andthen_ok. exists g1. split; [done|]. rewrite andthen_ok. eauto. }
    destruct (grows_fault v fault Hf g3 g' H4) as [L4 X4].
    pose proof (realizes_bound _ _ Hr) as Hb.
    assert (Plain g g3 [u8 c; u8 (if optimized v && ((fault <=? 127) || (65408 <=? fault)) then 5 else 6); 1]) as Hp.
    { by apply (appends_andthen _ _ _ _ (appends_byte c) (appends_andthen _ _ _ _ (appends_byte _) (appends_byte 1))). }
    assert (Wf v g3) as W3 by (eapply plain_wf; [done..|lia]). destruct (X4 W3 Hb) as [E4 W4].
    pose proof (realizes_extends _ _ _ E4 Hr) as R3. pose proof (plain_here _ _ _ Hp) as E3. change (zlen _) with 3 in E3.
    destruct (branch_holds slot c _ g g3 H13 Hw R3) as (x & Hx & Hok & _).
    { intros p Hpp. destruct (Hs p Hpp) as [?|[?|?]]; lia. }
    apply emitAddressFault_ok in H4; [|done].
    assert (Plain g3 (with_faults (g_faults g3) g') (island v fault)) as Hpi.
    { destruct H4 as [? ? ? ? _ ?]. unfold records in *. by split; destruct (globallyOptimized v). }
    assert (Realizes slot (with_faults (g_faults g3) g')) as Rf by (by destruct Hr).
    pose proof (at_plain _ _ _ Hp) as A3. pose proof (at_plain _ _ _ Hpi) as A4. change (at_ (with_faults (g_faults g3) g')) with (at_ g') in A4.
    cbn [length] in A3.
    assert (length (island v fault) = if optimized v && ((fault <=? 127) || (65408 <=? fault)) then 4%nat else 5%nat) as Li
      by (unfold island; by destruct (_ && _)).
    rewrite u8_idem in Hx by lia.
    apply (goes_branch code origin program_bank rom fits P (at_ g) c
      (u8 (if optimized v && ((fault <=? 127) || (65408 <=? fault)) then 5 else 6)) x (at_ g') w); try done; [lia| | | |].
    - rewrite <- A3. by eapply code_at_here.
    - rewrite A4, A3, Li. destruct (_ && _); [change (signed8 (u8 5)) with 5|change (signed8 (u8 6)) with 6]; lia.
    - by eapply code_at_here.
    - intros Ht. rewrite <- A3. apply (run_island (at_ g3) fault w Hf); [|by apply Hout].
      apply (plain_holds slot g3 _ _ Hpi W3 Rf). intros p Hpp. change (here (with_faults (g_faults g3) g')) with (here g').
      destruct (Hs p Hpp) as [?|[?|?]]; lia. }
  destruct (g_faults g !! fault) as [q|] eqn:Hq; [|by apply (Hfresh g')].
  destruct (_ && _ && _ && _ && _) eqn:Hd; [|by apply (Hfresh g')]. clear Hfresh.
  rewrite !andb_true_iff, !Z.leb_le in Hd. destruct Hd as [[[[_ _] _] Hd1] Hd2].
  pose proof (plain_here _ _ _ (appends_andthen _ _ _ _ (appends_byte _) (appends_andthen _ _ _ _ (appends_byte _) (appends_byte 1)) g g' H)) as E3.
  change (zlen _) with 3 in E3.
  destruct (branch_holds slot _ _ g g' H Hw Hr) as (x & Hx & Hok & Hp).
  { intros p Hpp. destruct (Hs p Hpp) as [?|[?|?]]; lia. }
  pose proof (at_plain _ _ _ Hp) as A3. cbn [length] in A3. pose proof (inverse_range c Hcr) as Hinv.
  rewrite (u8_idem (Z.lxor c 1)) in Hx by lia.
  destruct (island_inside g fault q Hw Hq) as [H0 Hlen].
  pose proof (holds_island slot g g' fault q Hw (plain_extends _ _ _ Hp) Hr Hc Hq) as Hi.
  apply (goes_branch code origin program_bank rom fits P (at_ g) (Z.lxor c 1) _ x (base + Z.to_nat q) w Hx); try done; [lia| | | | |].
  - rewrite <- A3. by eapply code_at_here.
  - rewrite land_255. unfold uwrap. change (2 ^ 8) with 256. rewrite Z.mod_mod by lia. pose proof (here_at g).
    change ((q - here g - 2) mod 256) with (u8 (q - here g - 2)). rewrite signed8_u8 by lia. lia.
  - apply (code_at slot g' (Z.to_nat q) Hr). unfold here, zlen in *. lia.
  - rewrite branch_taken_inverse by lia. intros Ht%negb_true_iff. apply (run_island _ fault w Hf Hi). by apply Hout.
  - rewrite branch_taken_inverse by lia. intros Ht%negb_false_iff. rewrite <- A3. by apply Hon.
Qed.

Lemma guard_clear slot c fault g g' :
  emitGuard v c fault g = Ok g' → Wf v g → here g' < 65536 → 0 ≤ fault < 65536 →
  (∀ p, slot = Some p → here g + 2 = p) → clear slot g'.
Proof.
  intros H Hw Hb Hf Hs p fault' q Hp Hq Hle. specialize (Hs p Hp). unfold emitGuard in H.
  set (fresh := emitByte c >> emitByte (if optimized v && ((fault <=? 127) || (0xff80 <=? fault)) then 5 else 6) >>
    emitByte 1 >> emitAddressFault v fault) in H.
  assert (g_faults g !! fault' = Some q ∨ here g + 3 ≤ q) as [Hold|?]; [|pose proof (island_inside g fault' q Hw Hold); lia|lia].
  assert (fresh g = Ok g' → g_faults g !! fault' = Some q ∨ here g + 3 ≤ q) as Hfresh.
  { intros H'. unfold fresh in H'.
    apply andthen_ok in H' as (g1 & H1 & H'). apply andthen_ok in H' as (g2 & H2 & H'). apply andthen_ok in H' as (g3 & H3 & H4).
    assert (Plain g g3 [u8 c; u8 (if optimized v && ((fault <=? 127) || (65408 <=? fault)) then 5 else 6); 1]) as Hpl.
    { apply (appends_andthen _ _ _ _ (appends_byte c) (appends_andthen _ _ _ _ (appends_byte _) (appends_byte 1))).
      rewrite andthen_ok. exists g1. split; [done|]. rewrite andthen_ok. eauto. }
    pose proof (plain_here _ _ _ Hpl) as E3. change (zlen _) with 3 in E3.
    destruct (grows_fault v fault Hf g3 g' H4) as [L4 X4].
    destruct X4 as [X4 _]; [eapply plain_wf; [done..|lia]|done|].
    destruct (ex_faults _ _ X4 fault' q Hq) as [Hi|Hi]; [left|right; lia]. by rewrite <- (pl_faults _ _ _ Hpl). }
  destruct (g_faults g !! fault) as [x|]; [|by apply Hfresh]. destruct (_ && _ && _ && _ && _); [|by apply Hfresh].
  left. apply (appends_andthen _ _ _ _ (appends_byte _) (appends_andthen _ _ _ _ (appends_byte _) (appends_byte 1))) in H.
  by rewrite <- (pl_faults _ _ _ H).
Qed.
End Run.
