(* ===== verification/GenFlow.v ===== *)
(** * GenFlow: rules for emitted code

    [lands e w Q]: where the final code of a generator is in the payload, the
    code that [e] emits takes the machine from [w] to a state of [Q], or to
    what [P] allows.  The rules follow the emitter: straight-line code
    ([Lin]), guards, labels, forward branches, loops, pushes and pops. *)

From S2P Require Import Prelude Target Types Token IR Object Machine MachineRun StartupRun Isa Gen GenRun.

(* ------------------------------------------------------------------ *)
(** ** Straight-line emissions *)

(** The instruction of a byte. *)
Definition instr_of (b : Z) : option Instr :=
  if b =? 1 then Some Nop else if b =? 0x03 then Some Lsr
  else if between 0x10 0x1e b then Some (To (b - 0x10))
  else if between 0x20 0x2e b then Some (With (b - 0x20))
  else if between 0x30 0x3b b then Some (Stw (b - 0x30))
  else if b =? 0x3d then Some Alt1 else if b =? 0x3e then Some Alt2 else if b =? 0x3f then Some Alt3
  else if between 0x40 0x4b b then Some (Ldw (b - 0x40))
  else if b =? 0x4d then Some Swap else if b =? 0x4f then Some Not
  else if between 0x50 0x5e b then Some (Add (b - 0x50))
  else if between 0x60 0x6e b then Some (Sub (b - 0x60))
  else if between 0x71 0x7e b then Some (And (b - 0x70))
  else if b =? 0x95 then Some Sex else if b =? 0x96 then Some Asr else if b =? 0x9e then Some Lob
  else if between 0xb0 0xbe b then Some (From (b - 0xb0))
  else if b =? 0xc0 then Some Hib
  else if between 0xc1 0xce b then Some (Or (b - 0xc0))
  else if between 0xd0 0xde b then Some (Inc (b - 0xd0))
  else if between 0xe0 0xee b then Some (Dec (b - 0xe0))
  else None.

(** [e] emits the instructions [l] and nothing to patch. *)
Definition Lin (e : Gen → result Gen) (l : list Instr) : Prop := appends e (concat (code_of <$> l)).

Lemma lin_seq e k l1 l2 : Lin e l1 → Lin k l2 → Lin (e >> k) (l1 ++ l2).
Proof. intros H1 H2. unfold Lin. rewrite fmap_app, concat_app. by apply appends_andthen. Qed.
Lemma lin_none e k l : Lin e [] → Lin k l → Lin (e >> k) l.
Proof. apply (lin_seq e k [] l). Qed.
Lemma lin_one e k i l : Lin e [i] → Lin k l → Lin (e >> k) (i :: l).
Proof. apply (lin_seq e k [i] l). Qed.
Lemma lin_last e k l : Lin e l → Lin k [] → Lin (e >> k) l.
Proof. intros. rewrite <- (app_nil_r l). by apply lin_seq. Qed.
Lemma lin_byte b i : instr_of b = Some i → code_of i = [u8 b] → Lin (emitByte b) [i].
Proof. intros _ Hc. unfold Lin. cbn. rewrite Hc. apply appends_byte. Qed.
Lemma lin_literal v r x : 0 ≤ r < 15 → 0 ≤ x < 65536 → Lin (emitRegisterLiteral v r x) [literal_instr v r x].
Proof. intros. unfold Lin. cbn. rewrite app_nil_r. by apply appends_literal. Qed.
Lemma lin_move v d s : 0 ≤ d < 16 → 0 ≤ s < 16 → Lin (emitMove v d s) [With s; To d].
Proof. intros. unfold Lin. cbn. by apply appends_move. Qed.
Lemma lin_pure f :
  (∀ g, g_code (f g) = g_code g ∧ g_symbols (f g) = g_symbols g ∧ g_fixups (f g) = g_fixups g ∧
        g_relocations (f g) = g_relocations g ∧ g_faults (f g) = g_faults g ∧ g_plotting (f g) = g_plotting g) →
  Lin (pure f) [].
Proof. apply appends_pure. Qed.
Lemma lin_when b e l : Lin e l → Lin (when b e) (if b then l else []).
Proof. intros. destruct b; [done|apply appends_skip]. Qed.
Lemma lin_if (b : bool) e k l1 l2 : Lin e l1 → Lin k l2 → Lin (if b then e else k) (if b then l1 else l2).
Proof. by destruct b. Qed.
Lemma lin_skip : Lin skip [].
Proof. apply appends_skip. Qed.
Lemma lin_state (e : Gen → Gen → result Gen) l : (∀ g0, Lin (e g0) l) → Lin (λ g, e g g) l.
Proof. intros H g g' He. by apply (H g). Qed.

Lemma emitLiteral_in v x : -32768 ≤ x ≤ 65535 → emitLiteral v x = emitRegisterLiteral v 0 (u16 x).
Proof. intros. unfold emitLiteral. replace ((x <? -32768) || (65535 <? x)) with false by lia. done. Qed.
Lemma lin_emitLiteral v x : -32768 ≤ x ≤ 65535 → Lin (emitLiteral v x) [literal_instr v 0 (u16 x)].
Proof. intros. rewrite emitLiteral_in by done. apply lin_literal; [lia|apply u16_range]. Qed.

Lemma lin_as e l l' : Lin e l → l = l' → Lin e l'.
Proof. by intros ? <-. Qed.

Ltac lin_rec := lazymatch goal with
  | |- Lin (andthen _ _) _ => eapply lin_seq; [lin_rec|lin_rec]
  | |- Lin (emitByte _) _ => eapply lin_byte; [vm_compute; reflexivity|reflexivity]
  | |- Lin (emitRegisterLiteral _ _ _) _ => eapply lin_literal; [try lia|try lia]
  | |- Lin (emitMove _ _ _) _ => eapply lin_move; [lia|lia]
  | |- Lin (emitLiteral _ _) _ => eapply lin_emitLiteral; lia
  | |- Lin (emitCompare _ _ _) _ => unfold emitCompare; lin_rec
  | |- Lin (when true ?e) _ => change (when true e) with e; lin_rec
  | |- Lin (when false ?e) _ => change (when false e) with skip; lin_rec
  | |- Lin (when _ _) _ => eapply lin_when; lin_rec
  | |- Lin (if _ then _ else _) _ => eapply lin_if; [lin_rec|lin_rec]
  | |- Lin (pure _) _ => eapply lin_pure; done
  | |- Lin skip _ => eapply lin_skip
  | |- Lin forget_ram _ => eapply lin_pure; done
  | |- Lin reset_credit _ => eapply lin_pure; done
  | |- Lin clear_spill _ => eapply lin_pure; done
  | |- Lin (clobber _) _ => eapply lin_pure; done
  end.
Ltac lin := eapply lin_as; [lin_rec|cbn [app]; reflexivity].

(** ** Growth, syntactically *)

Ltac head_of e := lazymatch e with ?f _ => head_of f | _ => e end.
Ltac grow := lazymatch goal with
  | |- grows _ (andthen _ _) => apply grows_andthen; [grow|grow]
  | |- grows _ (emitByte _) => apply grows_byte
  | |- grows _ (emitLocalJump _ _ _) => apply grows_jump
  | |- grows _ (bindLabel _) => apply grows_bind
  | |- grows _ (when _ _) => apply grows_when; grow
  | |- grows _ (pure _) => apply grows_pure; done
  | |- grows _ skip => apply grows_skip
  | |- grows _ forget_ram => apply grows_pure; done
  | |- grows _ reset_credit => apply grows_pure; done
  | |- grows _ clear_spill => apply grows_pure; done
  | |- grows _ (clobber _) => apply grows_pure; done
  | |- grows _ (emitRegisterLiteral _ _ _) => apply grows_literal
  | |- grows _ (emitWordLiteral _ _) => apply grows_word_literal
  | |- grows _ (emitLiteral _ _) => apply grows_emitLiteral
  | |- grows _ (emitMove _ _ _) => apply grows_move
  | |- grows _ (emitCompare _ _ _) => apply grows_compare
  | |- grows _ (emitGuard _ _ _) => apply grows_guard; lia
  | |- grows _ (emitStackGuard _ _ _) => apply grows_stack_guard
  | |- grows _ (emitPush _ _) => apply grows_push
  | |- grows _ (emitPop _ _) => apply grows_pop
  | |- grows _ (if ?b then _ else _) => destruct b; grow
  | |- grows ?v (λ g, let '(l, h) := localLabel _ g in @?k l h) => apply (grows_label v k); intros ?; cbv beta; grow
  | |- grows _ (λ h, _) =>
      let g := fresh in let g' := fresh in let H := fresh in
      intros g g' H; cbv beta in H; apply (grows_use _ _ _ _ H); clear H; grow
  | |- grows _ ?e => first [solve [auto] | let h := head_of e in unfold h; grow]
  end.

(* ------------------------------------------------------------------ *)
(** ** States *)

Lemma get_put i x w : length (regs w) = 15%nat → 0 ≤ i < 15 → get (put i x w) i = x.
Proof. intros. unfold get, put. cbn [regs]. rewrite list_lookup_insert_eq by lia. done. Qed.
Lemma get_put_ne i j x w : 0 ≤ i → 0 ≤ j → i ≠ j → get (put i x w) j = get w j.
Proof. intros. unfold get, put. cbn [regs]. by rewrite list_lookup_insert_ne by lia. Qed.
Lemma get_flagged f w i : get (flagged f w) i = get w i.
Proof. done. Qed.
Lemma get_zs x w i : get (zs x w) i = get w i.
Proof. done. Qed.
Lemma get_stored m w i : get (stored m w) i = get w i.
Proof. done. Qed.
Lemma length_put i x w : length (regs (put i x w)) = length (regs w).
Proof. apply length_insert. Qed.

(** [w'] is [w] but for the flags and the registers of [l]. *)
Record same (l : list Z) (w w' : State) : Prop := {
  sm_reg : ∀ i, 0 ≤ i < 15 → i ∉ l → get w' i = get w i;
  sm_length : length (regs w') = length (regs w);
  sm_mem : mem w' = mem w;
  sm_bnk : bnk w' = bnk w;
  sm_rest : rest w' = rest w
}.

(** Membership in a list of register numbers. *)
Ltac outside :=
  repeat match goal with H : _ ∉ _ :: _ |- _ => apply not_elem_of_cons in H as [? H] end;
  repeat (apply not_elem_of_cons; split; [lia|]); apply not_elem_of_nil.
Ltac inside := repeat first [left; reflexivity | right].

Lemma same_refl l w : same l w w.
Proof. by split. Qed.
Lemma same_trans l w1 w2 w3 : same l w1 w2 → same l w2 w3 → same l w1 w3.
Proof. intros [R1 ????] [R2 ????]. split; try congruence. intros i Hi Hn. by rewrite R2, R1. Qed.
Lemma same_weaken l l' w w' : same l w w' → l ⊆ l' → same l' w w'.
Proof. intros [] H. split; try done. intros i Hi Hn. apply sm_reg0; [done|]. set_solver. Qed.
Lemma same_put l i x w w' : same l w w' → 0 ≤ i → i ∈ l → same l w (put i x w').
Proof.
  intros [] Hi Hin. split; try done; [|by rewrite length_put]. intros j Hj Hn.
  rewrite get_put_ne by (lia || (intros ->; contradiction)). auto.
Qed.
Lemma same_flagged l f w w' : same l w w' → same l w (flagged f w').
Proof. intros []. by split. Qed.
Lemma same_zs l x w w' : same l w w' → same l w (zs x w').
Proof. apply same_flagged. Qed.

(** The flags of a comparison of [x] with [y]. *)
Definition compared (x y : Z) : Flags :=
  let value := u16 (x - y) in
  mkFlags (value =? 0) (negative value) (0 <=? x - y)
    (negb (Z.land (Z.land (Z.lxor x y) (Z.lxor x value)) 0x8000 =? 0)).

Lemma land_sign x : negb (Z.land x 0x8000 =? 0) = Z.testbit x 15.
Proof.
  change 0x8000 with (2 ^ 15). destruct (Z.testbit x 15) eqn:E.
  - apply negb_true_iff, Z.eqb_neq. intros H. apply (f_equal (λ z, Z.testbit z 15)) in H.
    by rewrite Z.land_spec, E, Z.pow2_bits_true, Z.bits_0 in H by lia.
  - apply negb_false_iff, Z.eqb_eq, Z.bits_inj'. intros n Hn. rewrite Z.land_spec, Z.pow2_bits_eqb, Z.bits_0 by lia.
    destruct (Z.eqb_spec 15 n) as [<-|]; [by rewrite E|apply andb_false_r].
Qed.
Lemma testbit_sign x : word_ok x → Z.testbit x 15 = (32768 <=? x).
Proof.
  intros Hx. unfold word_ok in Hx. destruct (Z.leb_spec 32768 x).
  - apply Z.testbit_true; [lia|]. change (2 ^ 15) with 32768. zmod.
  - apply Z.testbit_false; [lia|]. change (2 ^ 15) with 32768. zmod.
Qed.
Lemma negative_word x : word_ok x → negative x = (32768 <=? x).
Proof. intros. unfold negative. by rewrite land_sign, testbit_sign. Qed.

Lemma compared_equal x y : word_ok x → word_ok y → zero (compared x y) = (x =? y).
Proof. unfold word_ok. intros. cbn. unfold uwrap. change (2 ^ 16) with 65536. apply Bool.eq_iff_eq_true. rewrite !Z.eqb_eq. zmod. Qed.
Lemma compared_carry x y : carry (compared x y) = (y <=? x).
Proof. cbn. apply Bool.eq_iff_eq_true. rewrite !Z.leb_le. lia. Qed.
Lemma compared_less x y : word_ok x → word_ok y →
  Bool.eqb (sign (compared x y)) (overflow (compared x y)) = (signed16 y <=? signed16 x).
Proof.
  intros Hx Hy. cbn. pose proof (u16_range (x - y)) as Hv. rewrite negative_word by done. rewrite land_sign, Z.land_spec, !Z.lxor_spec.
  rewrite !testbit_sign by done. unfold signed16, word_ok, uwrap in *. change (2 ^ 16) with 65536 in *.
  assert ((x - y) mod 65536 = x - y ∨ (x - y) mod 65536 = x - y + 65536) as [E|E] by zmod; rewrite E in *;
    destruct (Z.leb_spec 32768 x), (Z.leb_spec 32768 y), (Z.ltb_spec x 32768), (Z.ltb_spec y 32768); try lia; cbn;
    repeat match goal with |- context [?a <=? ?b] => destruct (Z.leb_spec a b) end; try done; lia.
Qed.

(** Words in the RAM. *)
Definition word_at (m : Memory) (a : Z) : Z := u16 (Z.lor (byte_at m a) (Z.shiftl (byte_at m (a + 1)) 8)).
Definition store_word (a x : Z) (m : Memory) : Memory := <[a + 1 := u8 (Z.shiftr x 8)]> (<[a := u8 x]> m).

Lemma word_at_stored a x m : word_ok x → word_at (store_word a x m) a = x.
Proof.
  intros Hx. unfold word_at, store_word, byte_at. rewrite lookup_insert_eq, lookup_insert_ne, lookup_insert_eq by lia. cbn.
  rewrite shiftl_8, shiftr_8. unfold word_ok in Hx. rewrite lor_fields_8 by (unfold byte_ok, uwrap; zmod).
  unfold uwrap. change (2 ^ 8) with 256. change (2 ^ 16) with 65536. zmod.
Qed.
Lemma byte_at_stored a x m i : i ≠ a → i ≠ a + 1 → byte_at (store_word a x m) i = byte_at m i.
Proof. intros. unfold store_word, byte_at. by rewrite !lookup_insert_ne by lia. Qed.
Lemma word_at_other a b x m : a + 2 ≤ b ∨ b + 2 ≤ a → word_at (store_word a x m) b = word_at m b.
Proof. intros. unfold word_at. by rewrite !byte_at_stored by lia. Qed.

(** The address of a word at an offset into the bank. *)
Definition in_bank (w : State) (a : Z) : Z := bnk w * 65536 + a.

(** Two groupings of one sequence of emissions. *)
Ltac regroup :=
  intros; unfold andthen;
  repeat match goal with
  | |- context [mbind _ (?e ?h)] => destruct (e h); cbn [mbind result_mbind result_bind]; [|reflexivity]
  end; try reflexivity.

(* ------------------------------------------------------------------ *)
(** ** The rules *)

Section Flow.
Context {code : list Z} {origin program_bank : Z} {rom : Memory} (fits : Fits code origin program_bank).
Context {base : nat} {labels addresses : string → option Z} {v : Env} {writable : Z → bool}.
Context (Hwritable : ∀ i, writable i = true → 0 ≤ i < RamSize ∧ ¬ occupied code origin program_bank i).
Context (P : Machine → Prop) (slot : option Z) (G : Gen).
Context (HG : Realizes code origin base labels addresses slot G).
Notation goes := (goes code origin program_bank rom P).
Notation at_ := (at_ base).
Notation Realizes := (Realizes code origin base labels addresses).

Definition lands (e : Gen → result Gen) (w : State) (Q : State → Prop) : Prop :=
  ∀ g g', e g = Ok g' → Wf v g → Extends g' G → away slot g g' → clear v slot g →
  (∀ w', Q w' → goes (at_ g') plain w') → goes (at_ g) plain w.

Lemma realizes_here g : Extends g G → Realizes slot g.
Proof. intros. eapply realizes_extends; [eassumption|exact HG]. Qed.

Lemma lands_ok e w Q : (ok w → lands e w Q) → lands e w Q.
Proof. intros H g g' He Hw Hx Ha Hc Hgo Hok. exact (H Hok g g' He Hw Hx Ha Hc Hgo Hok). Qed.
Lemma lands_mono e w Q R : lands e w R → (∀ w', R w' → Q w') → lands e w Q.
Proof. intros H HR g g' He Hw Hx Ha Hc Hgo. apply (H g g' He Hw Hx Ha Hc). eauto. Qed.
Lemma lands_ext e e' w Q : (∀ g, e g = e' g) → lands e' w Q → lands e w Q.
Proof. intros E H g g' He. apply (H g g'). by rewrite <- E. Qed.

(** What [g] keeps for the rest when [e] was emitted. *)
Lemma emitted e g g' :
  e g = Ok g' → grows v e → Wf v g → Extends g' G → away slot g g' → clear v slot g →
  Extends g g' ∧ Wf v g' ∧ here g ≤ here g' ∧ clear v slot g' ∧ g_plotting g' = g_plotting G.
Proof.
  intros H Hg Hw Hx Ha Hc. destruct (Hg g g' H) as [L X].
  destruct X as [X W]; [done|by eapply realizes_bound, realizes_here|]. split_and!; try done.
  - intros p fault q Hp Hq Hle. destruct (Ha p Hp) as [Hlt|Hge].
    + eapply (clear_extends v slot g g'); try done. intros p' Hp'. congruence.
    + pose proof (island_inside v g' fault q W Hq). lia.
  - symmetry. apply Hx.
Qed.

(** The first of two emissions and what is left. *)
Lemma first_of e k g g' :
  (e >> k) g = Ok g' → grows v e → grows v k → Wf v g → Extends g' G → away slot g g' → clear v slot g →
  ∃ g1, e g = Ok g1 ∧ k g1 = Ok g' ∧ Wf v g1 ∧ Extends g1 G ∧ away slot g g1 ∧ away slot g1 g' ∧ clear v slot g1.
Proof.
  intros H Ge Gk Hw Hx Ha Hc.
  destruct (chain code origin program_bank fits base labels addresses v slot e k g g' H Ge Gk Hw (realizes_here _ Hx))
    as (g1 & H1 & H2 & W1 & R1 & X1 & X2 & Hh).
  assert (Extends g1 G) as XG by by eapply extends_trans.
  assert (away slot g g1) as A1 by (intros p Hp; specialize (Ha p Hp); lia).
  assert (away slot g1 g') as A2 by (intros p Hp; specialize (Ha p Hp); lia).
  destruct (emitted e g g1 H1 Ge Hw XG A1 Hc) as (_ & _ & _ & C1 & _). eauto 10.
Qed.

Lemma lands_seq e k w R Q :
  grows v e → grows v k → lands e w R → (∀ w', R w' → lands k w' Q) → lands (e >> k) w Q.
Proof.
  intros Ge Gk He Hk g g' H Hw Hx Ha Hc Hgo.
  destruct (first_of e k g g' H Ge Gk Hw Hx Ha Hc) as (g1 & H1 & H2 & W1 & X1 & A1 & A2 & C1).
  apply (He g g1 H1 Hw X1 A1 Hc). intros w1 Hw1. by apply (Hk w1 Hw1 g1 g' H2).
Qed.

(** The same where the state in between is known. *)
Lemma lands_to e k w w1 Q : grows v e → grows v k → lands e w (eq w1) → lands k w1 Q → lands (e >> k) w Q.
Proof. intros Ge Gk He Hk. apply (lands_seq e k w (eq w1)); [done..|]. by intros ? <-. Qed.

(** The rest as what is to hold in between. *)
Lemma lands_then e k w Q : grows v e → grows v k → lands e w (λ w', lands k w' Q) → lands (e >> k) w Q.
Proof. intros Ge Gk He. by apply (lands_seq e k w (λ w', lands k w' Q)). Qed.

Lemma andthen_assoc e k l g : ((e >> k) >> l) g = (e >> k >> l) g.
Proof. unfold andthen. by destruct (e g). Qed.

Lemma guard_regroup (a b1 b2 b3 c : Gen → result Gen) (r : Gen → Gen → result Gen) g :
  ((λ g, (a >> r g) g) >> (b1 >> b2 >> b3) >> c) g = (a >> r g >> b1 >> b2 >> b3 >> c) g.
Proof.
  unfold andthen. destruct (a g) as [g1|]; [|done]. cbn. destruct (r g g1) as [g2|]; [|done]. cbn.
  destruct (b1 g2) as [g3|]; [|done]. cbn. destruct (b2 g3) as [g4|]; [|done]. done.
Qed.

(** The grouping of a sequence does not matter. *)
Lemma lands_assoc e k l w Q : lands ((e >> k) >> l) w Q → lands (e >> k >> l) w Q.
Proof. apply lands_ext. intros g. symmetry. apply andthen_assoc. Qed.

Lemma lands_skip w (Q : State → Prop) : Q w → lands skip w Q.
Proof. intros HQ g g' [= <-] _ _ _ _ Hgo. by apply Hgo. Qed.
Lemma lands_when (b : bool) e w (Q : State → Prop) : (b = true → lands e w Q) → (b = false → Q w) → lands (when b e) w Q.
Proof. intros H1 H2. destruct b; [by apply H1|apply lands_skip; by apply H2]. Qed.
Lemma lands_state (e : Gen → Gen → result Gen) w Q :
  (∀ g0, grows v (e g0)) → (∀ g0, g_plotting g0 = g_plotting G → lands (e g0) w Q) → lands (λ g, e g g) w Q.
Proof.
  intros Gr H g g' He Hw Hx Ha Hc. apply (H g); try done.
  destruct (emitted (e g) g g' He (Gr g) Hw Hx Ha Hc) as (X & _ & _ & _ & Ep). pose proof (ex_plotting _ _ X). congruence.
Qed.
Lemma lands_label (k : string → Gen → result Gen) w Q :
  (∀ l, l ≠ "" → lands (k l) w Q) → lands (λ g, let '(l, g) := localLabel v g in k l g) w Q.
Proof.
  intros H g g' He Hw Hx Ha Hc. cbn in He. refine (H _ _ _ _ He _ Hx Ha Hc); [done|by destruct Hw].
Qed.

(** Straight-line code. *)
Lemma lands_lin e l w w' (Q : State → Prop) :
  Lin e l → execs writable l plain w = Some (plain, w') → Q w' → lands e w Q.
Proof.
  intros Hl Hx HQ g g' He Hw HX Ha Hc Hgo.
  eapply (run_instrs code origin program_bank rom fits base labels addresses v writable Hwritable P slot e l g g' plain w
    plain w'); try done; [by apply realizes_here|by apply Hgo].
Qed.

Lemma lands_guard c fault w (Q : State → Prop) :
  6 ≤ c ≤ 15 → 0 ≤ fault < 65536 →
  (branch_taken c (fl w) = true → Q w) →
  (branch_taken c (fl w) = false → ∀ m, pipeline m = 0 → sees m = put 6 fault w → P m) → lands (emitGuard v c fault) w Q.
Proof.
  intros Hc Hf Hon Hout g g' He Hw Hx Ha Hcl Hgo.
  eapply (run_guard code origin program_bank rom fits base labels addresses v writable Hwritable P slot c fault g g' w); try done;
    [by apply realizes_here| |auto].
  intros p Hp. destruct (Ha p Hp); auto.
Qed.

(* ------------------------------------------------------------------ *)
(** ** Branches and loops *)

Lemma bound_here name g g' :
  bindLabel name g = Ok g' → Wf v g → Extends g' G →
  labels name = Some (here g) ∧ addresses name = Some (origin + Z.of_nat (base + Z.to_nat (here g))) ∧ at_ g' = at_ g
  ∧ here g' = here g ∧ 0 ≤ here g ∧ is_Some (code !! (base + Z.to_nat (here g))%nat).
Proof.
  intros H Hw Hx. destruct (bound code origin base labels addresses v slot name g g' G H Hw Hx HG) as (Hl & Hn & Ea & Eh & _).
  rewrite at_base. split_and!; try done; [apply zlen_nonneg|]. rewrite <- Ea. eapply code_at_here. by apply realizes_here.
Qed.

(** A jump to a bound label. *)
Lemma jump_to name c g g' gb gb' w :
  emitLocalJump v name c g = Ok g' → bindLabel name gb = Ok gb' → name ≠ "" → 5 ≤ c ≤ 15 →
  Wf v g → Extends g' G → away slot g g' → Wf v gb → Extends gb' G →
  (branch_taken c (fl w) = true → goes (at_ gb) plain w) →
  (branch_taken c (fl w) = false → goes (at_ g') plain w) → goes (at_ g) plain w.
Proof.
  intros Hj Hb Hn Hc Hw Hx Ha Hwb Hxb Ht Hf.
  destruct (bound_here name gb gb' Hb Hwb Hxb) as (Hl & Hn' & Ea & Eh & H0 & Hcode).
  eapply (run_jump code origin program_bank rom fits base labels addresses v P slot name c g g' (here gb) w); try done.
  { by apply realizes_here. }
  by rewrite at_base.
Qed.

Local Ltac first H g1 H1 H' :=
  let W := fresh "W" in let X := fresh "X" in let A1 := fresh "A" in let A2 := fresh "A" in let C := fresh "C" in
  destruct (first_of _ _ _ _ H) as (g1 & H1 & H' & W & X & A1 & A2 & C); [grow..|assumption|assumption|assumption|assumption|];
  clear H.

(** [if (!c) body]. *)
Lemma lands_unless name c body w Q :
  name ≠ "" → 5 ≤ c ≤ 15 → grows v body →
  (branch_taken c (fl w) = true → Q w) → (branch_taken c (fl w) = false → lands body w Q) →
  lands (emitLocalJump v name c >> body >> bindLabel name) w Q.
Proof.
  intros Hn Hc Gb Ht Hf g g' H Hw Hx Ha Hcl Hgo. first H g1 H1 H'. first H' g2 H2 H3.
  destruct (bound_here name g2 g' H3) as (_ & _ & Ea & _); [done..|]. rewrite Ea in Hgo.
  apply (jump_to name c g g1 g2 g' w H1 H3); try done; intros E.
  - by apply Hgo, Ht.
  - by apply (Hf E g1 g2 H2).
Qed.

(** [if (c) other else body]. *)
Lemma lands_if name end_ c body other w Q :
  name ≠ "" → end_ ≠ "" → 5 ≤ c ≤ 15 → grows v body → grows v other →
  (branch_taken c (fl w) = true → lands other w Q) → (branch_taken c (fl w) = false → lands body w Q) →
  lands (emitLocalJump v name c >> body >> emitLocalJump v end_ 5 >> bindLabel name >> other >> bindLabel end_) w Q.
Proof.
  intros Hn He Hc Gb Go Ht Hf g g' H Hw Hx Ha Hcl Hgo.
  first H g1 H1 H'. first H' g2 H2 H. first H g3 H3 H'. first H' g4 H4 H. first H g5 H5 H6.
  destruct (bound_here end_ g5 g' H6) as (_ & _ & Ea & _); [done..|]. rewrite Ea in Hgo.
  destruct (bound_here name g3 g4 H4) as (_ & _ & Ea4 & _); [done..|].
  apply (jump_to name c g g1 g3 g4 w H1 H4); try done; intros E.
  - rewrite <- Ea4. by apply (Ht E g4 g5 H5).
  - apply (Hf E g1 g2 H2); try done. intros w' HQ.
    apply (jump_to end_ 5 g2 g3 g5 g' w' H3 H6); try done. intros _. by apply Hgo.
Qed.

(** [if (c || (test, !d)) body], [c] and [d] the conditions of branches. *)
Lemma lands_either yes no c d test body w T Q :
  yes ≠ "" → no ≠ "" → 5 ≤ c ≤ 15 → 5 ≤ d ≤ 15 → grows v test → grows v body →
  (branch_taken c (fl w) = true → lands body w Q) →
  (branch_taken c (fl w) = false → lands test w T) →
  (∀ w', T w' → branch_taken d (fl w') = true → Q w') →
  (∀ w', T w' → branch_taken d (fl w') = false → lands body w' Q) →
  lands (emitLocalJump v yes c >> test >> emitLocalJump v no d >> bindLabel yes >> body >> bindLabel no) w Q.
Proof.
  intros Hn He Hc Hd Gt Gb Hyes Htest Hno Hbody g g' H Hw Hx Ha Hcl Hgo.
  first H g1 H1 H'. first H' g2 H2 H. first H g3 H3 H'. first H' g4 H4 H. first H g5 H5 H6.
  destruct (bound_here no g5 g' H6) as (_ & _ & Ea & _); [done..|]. rewrite Ea in Hgo.
  destruct (bound_here yes g3 g4 H4) as (_ & _ & Ea4 & _); [done..|].
  apply (jump_to yes c g g1 g3 g4 w H1 H4); try done; intros E.
  - rewrite <- Ea4. by apply (Hyes E g4 g5 H5).
  - apply (Htest E g1 g2 H2); try done. intros w' HT.
    apply (jump_to no d g2 g3 g5 g' w' H3 H6); try done; intros E'.
    + by apply Hgo, (Hno w' HT).
    + rewrite <- Ea4. by apply (Hbody w' HT E' g4 g5 H5).
Qed.

(** [do body while (c)]: [I n] holds where at most [n] more rounds follow this one. *)
Lemma lands_loop name c body (I : nat → State → Prop) w n Q :
  name ≠ "" → 5 ≤ c ≤ 15 → grows v body →
  (∀ n w, I n w → lands body w (λ w',
     (branch_taken c (fl w') = true → ∃ k, n = S k ∧ I k w') ∧ (branch_taken c (fl w') = false → Q w'))) →
  I n w → lands (bindLabel name >> body >> emitLocalJump v name c) w Q.
Proof.
  intros Hn Hc Gb Hstep Hinit g g' H Hw Hx Ha Hcl Hgo. first H g1 H1 H'. first H' g2 H2 H3.
  destruct (bound_here name g g1 H1) as (_ & _ & Ea & _); [done..|]. rewrite <- Ea.
  revert w Hinit. induction n as [|n IH]; intros w Hinit; apply (Hstep _ _ Hinit g1 g2 H2); try done; intros w' [Hl Hq];
    (apply (jump_to name c g2 g' g g1 w' H3 H1); try done; [|by intros; apply Hgo, Hq]);
    intros E; destruct (Hl E) as (k & Hk & HI); [done|]. injection Hk as <-. rewrite <- Ea. by apply IH.
Qed.

(* ------------------------------------------------------------------ *)
(** ** The stack *)

Lemma lands_move d s w (Q : State → Prop) :
  0 ≤ d < 15 → 0 ≤ s < 15 → Q (put d (get w s) w) → lands (emitMove v d s) w Q.
Proof.
  intros Hd Hs. apply (lands_lin _ [With s; To d]); [apply lin_move; lia|]. cbn [execs encodable].
  replace (between 0 14 s) with true by (unfold between; lia). replace (between 0 14 d) with true by (unfold between; lia). done.
Qed.
Lemma lands_literal r x w (Q : State → Prop) :
  0 ≤ r < 15 → 0 ≤ x < 65536 → Q (put r x w) → lands (emitRegisterLiteral v r x) w Q.
Proof.
  intros Hr Hx. apply (lands_lin _ [literal_instr v r x]); [by apply lin_literal|]. cbn [execs].
  by rewrite literal_encodable, literal_exec by lia.
Qed.

Lemma compare_execs r x w : 0 ≤ r < 15 → r ≠ 3 → 0 ≤ x < 65536 → length (regs w) = 15%nat →
  execs writable [literal_instr v 3 x; From r; Alt3; Sub 3] plain w = Some (plain, flagged (compared (get w r) x) (put 3 x w)).
Proof.
  intros Hr Hne Hx Hl. cbn [execs encodable]. rewrite literal_encodable, literal_exec by lia.
  replace (between 0 14 r) with true by (unfold between; lia). cbn. unfold exec_sub. cbn -[put get].
  rewrite get_put, get_put_ne, Z.sub_0_r by lia. done.
Qed.

Lemma lands_compare r x w (Q : State → Prop) : 0 ≤ r < 15 → r ≠ 3 → 0 ≤ x < 65536 → length (regs w) = 15%nat →
  Q (flagged (compared (get w r) x) (put 3 x w)) → lands (emitCompare v r x) w Q.
Proof.
  intros Hr Hne Hx Hl HQ. eapply lands_lin; [|by apply compare_execs|done].
  unfold emitCompare. apply (lin_seq _ _ [_] _); [by apply lin_literal; lia|].
  apply (lin_seq _ _ [From r] _); [|lin]. unfold Lin. cbn. apply appends_op; lia.
Qed.

(** Where the stack ends. *)
Context (stack_limit : Z) (Hlimit : addresses (StackLimitPrefix +:+ pretty 2) = Some stack_limit).
Context (limit_range : 0 ≤ stack_limit < 65536).

(** A word the linker fills in. *)
Lemma lands_address r name type x w (Q : State → Prop) :
  0 ≤ r < 15 → type = ADDR16_IWT ∨ type = ADDR16_RAM → addresses name = Some x → word_ok x →
  Q (put r x w) → lands (λ g, (emitWordLiteral r 0 >> addRelocation name (here g) type) g) w Q.
Proof.
  intros Hr Ht Hn Hx HQ g g' H Hw HX Ha Hc Hgo. apply andthen_ok in H as (g1 & H1 & H2).
  assert (Plain g g1 (Startup.word r 0)) as Hp by (by apply (appends_word_literal r 0); [lia..|]).
  injection H2 as <-.
  set (g2 := with_object _ _ _ _) in *.
  destruct (relocated_word code origin program_bank fits base labels addresses v slot r name type g g1 g2) as (y & Hy & Hb); try done;
    [lia|by apply realizes_here|apply extends_refl|].
  rewrite Hn in Hy. injection Hy as <-.
  assert (at_ g2 = (at_ g + 3)%nat) as Ea by (unfold GenRun.at_; cbn; rewrite (pl_code _ _ _ Hp), length_app; cbn; lia).
  eapply (goes_load_word code origin program_bank rom fits P (at_ g) r x w Hr Hx Hb); rewrite <- Ea.
  - eapply code_at_here. by apply realizes_here.
  - by apply Hgo.
Qed.

Lemma lands_stack_guard source w (Q : State → Prop) :
  length (regs w) = 15%nat → stack_limit ≤ get w 10 → Q w → (∀ f, Q (flagged f (put 3 stack_limit w))) →
  lands (emitStackGuard v 2 source) w Q.
Proof.
  intros Hl Hs H1 H2.
  assert (lands ((λ g, (emitWordLiteral 3 0 >> addRelocation (StackLimitPrefix +:+ pretty 2) (here g) ADDR16_RAM) g) >>
    (emitByte 0xba >> emitByte 0x3f >> emitByte 0x63) >> emitGuard v 13 2 >>
    when (globallyOptimized v) (pure (λ g, with_credit (Credit.checked 2 (g_credit g)) g))) w Q) as Hgo.
  { eapply lands_seq; [by apply (grows_relocated v _ _ _ _ (appends_word_literal 3 0 ltac:(lia) ltac:(lia)))|grow| |].
    { apply (lands_address 3 _ _ stack_limit); [lia|by right|exact Hlimit|exact limit_range|].
      exact (eq_refl (put 3 stack_limit w)). }
    intros w1 <-. eapply (lands_seq _ _ _ (λ w2, w2 = flagged (compared (get w 10) stack_limit) (put 3 stack_limit w))); [grow..| |].
    { eapply lands_lin; [lin| |reflexivity]. cbn -[put get]. rewrite get_put, get_put_ne, Z.sub_0_r by lia. done. }
    intros w2 ->. eapply (lands_seq _ _ _ (λ w2, w2 = flagged (compared (get w 10) stack_limit) (put 3 stack_limit w))); [grow..| |].
    { apply lands_guard; [lia..|done|]. intros Ht. exfalso. cbn [fl flagged] in Ht. unfold branch_taken in Ht. cbn [Z.eqb Pos.eqb] in Ht.
      rewrite compared_carry in Ht. lia. }
    intros w3 ->. apply lands_when; intros; [|apply H2]. eapply (lands_lin _ []); [lin|reflexivity|apply H2]. }
  intros g g' H. unfold emitStackGuard in H. apply result_bind_ok in H as (u & _ & H).
  destruct (_ && _) in H.
  - injection H as <-. intros _ _ _ _ Hq. by apply Hq.
  - cbv zeta in H. apply (Hgo g g'). rewrite <- H. apply guard_regroup.
Qed.

Lemma lands_push r w (Q : State → Prop) :
  length (regs w) = 15%nat → 0 ≤ r < 15 → r ∉ [3; 10] → stack_limit ≤ get w 10 → 2 ≤ get w 10 < 65536 →
  in_bank w (get w 10) mod 2 = 0 → writable (in_bank w (get w 10)) = true → writable (in_bank w (get w 10) + 1) = true →
  (∀ w', same [3; 10] (stored (store_word (in_bank w (get w 10)) (get w r) (mem w)) w) w' → get w' 10 = get w 10 - 2 → Q w') →
  lands (emitPush v r) w Q.
Proof.
  intros Hl Hr Hn Hs H10 Hev Hw1 Hw2 HQ. unfold emitPush.
  eapply (lands_seq _ _ _ (λ w1, w1 = w)); [grow..|eapply (lands_lin _ []); [lin|reflexivity|done]|].
  intros w1 ->. eapply (lands_seq _ _ _ (λ w1, same [3] w w1)); [grow..| |].
  { apply lands_stack_guard; [done..|apply same_refl|]. intros f. apply same_flagged, same_put; [apply same_refl|lia|by left]. }
  intros w1 [R1 L1 M1 B1 T1].
  assert (get w1 10 = get w 10 ∧ get w1 r = get w r) as [E10 Er] by (split; apply R1; (lia || outside)).
  set (w2 := put 10 (get w 10 - 2) (zs (get w 10 - 2) (put 10 (get w 10 - 1) (zs (get w 10 - 1)
    (stored (store_word (in_bank w (get w 10)) (get w r) (mem w)) w1))))).
  assert (execs writable ((if negb (r =? 0) then [With r] else []) ++ [Stw 10; Dec 10; Dec 10]) plain w1 = Some (plain, w2)) as Hx.
  { assert (execs writable [Stw 10; Dec 10; Dec 10] (if negb (r =? 0) then mkSelectors r r true false false else plain) w1 = Some (plain, w2)) as Hx.
    { cbn -[put get zs]. replace (source _) with r by (destruct (Z.eqb_spec r 0) as [->|]; done).
      replace (alt1 _) with false by (by destruct (r =? 0)).
      rewrite E10, Er, B1, M1. fold (in_bank w (get w 10)). rewrite Hev, Hw1, Hw2. cbn -[put get zs].
      rewrite get_stored, E10, get_put by (cbn; lia). rewrite (uwrap_small 16 (get w 10 - 1)), (uwrap_small 16) by lia.
      unfold w2. do 3 f_equal; [lia|]. by replace (get w 10 - 1 - 1) with (get w 10 - 2) by lia. }
    destruct (r =? 0); [exact Hx|]. cbn [negb app execs]. cbn [encodable exec mbind option_bind].
    replace (between 0 14 r) with true by (unfold between; lia). exact Hx. }
  eapply lands_lin; [|exact Hx|].
  - apply lin_seq; [apply lin_when|]. { unfold Lin. cbn. apply appends_op; lia. }
    apply lin_one; [lin|]. apply lin_one; [lin|]. apply lin_last; [lin|]. destruct (globallyOptimized v); lin.
  - apply HQ.
    + split; cbn; try done; [|by rewrite !length_insert, L1]. intros i Hi Hni. unfold w2.
      assert (i ≠ 10) by (intros ->; apply Hni; inside).
      rewrite get_put_ne, get_zs, get_put_ne, get_zs, !get_stored by lia. apply R1; [lia|]. outside.
    + unfold w2. rewrite get_put; [done| |lia]. cbn. rewrite length_insert. lia.
Qed.

Lemma lands_pop r w (Q : State → Prop) :
  length (regs w) = 15%nat → 0 ≤ r < 15 → r ≠ 10 → 0 ≤ get w 10 < 65534 → in_bank w (get w 10 + 2) mod 2 = 0 →
  (∀ w', same [r; 10] w w' → get w' 10 = get w 10 + 2 → get w' r = word_at (mem w) (in_bank w (get w 10 + 2)) → Q w') →
  lands (emitPop v r) w Q.
Proof.
  intros Hl Hr Hn H10 Hev HQ. unfold emitPop.
  set (x := word_at (mem w) (in_bank w (get w 10 + 2))).
  set (w1 := put 10 (get w 10 + 2) (zs (get w 10 + 2) (put 10 (get w 10 + 1) (zs (get w 10 + 1) w)))).
  set (w2 := put r x w1).
  assert (get w1 10 = get w 10 + 2) as E10 by (unfold w1; rewrite get_put; [done| |lia]; cbn; by rewrite length_insert).
  assert (execs writable ([Inc 10; Inc 10] ++ (if negb (r =? 0) then [With r] else []) ++ [Ldw 10]) plain w = Some (plain, w2)) as Hx.
  { assert (execs writable [Ldw 10] (if negb (r =? 0) then mkSelectors r r true false false else plain) w1 = Some (plain, w2)) as Hx.
    { cbn -[put get zs w1]. replace (destination _) with r by (destruct (Z.eqb_spec r 0) as [->|]; done).
      replace (alt1 _) with false by (by destruct (r =? 0)).
      rewrite E10. change (bnk w1) with (bnk w). change (mem w1) with (mem w). fold (in_bank w (get w 10 + 2)). rewrite Hev. done. }
    assert (∀ l, execs writable ([Inc 10; Inc 10] ++ l) plain w = execs writable l plain w1) as Hi.
    { intros l. cbn -[put get zs execs]. cbn [execs encodable between]. cbn -[put get zs execs].
      rewrite get_put by (cbn; lia). rewrite (uwrap_small 16 (get w 10 + 1)), (uwrap_small 16) by lia.
      unfold w1. by replace (get w 10 + 1 + 1) with (get w 10 + 2) by lia. }
    rewrite Hi. destruct (r =? 0); [exact Hx|]. cbn [negb app execs]. cbn [encodable exec mbind option_bind].
    replace (between 0 14 r) with true by (unfold between; lia). exact Hx. }
  eapply (lands_lin _ _ w w2 Q); [|exact Hx|].
  - apply lin_none; [lin|]. apply lin_none; [lin|]. apply lin_one; [lin|]. apply lin_one; [lin|].
    apply lin_seq; [apply lin_when; unfold Lin; cbn; apply appends_op; lia|].
    apply lin_last; [lin|]. destruct (globallyOptimized v); lin.
  - apply HQ.
    + unfold w2, w1. apply same_put; [|lia|by left]. repeat (apply same_put; [apply same_zs|lia|inside]). apply same_refl.
    + unfold w2. rewrite get_put_ne by lia. exact E10.
    + unfold w2. apply get_put; [|lia]. unfold w1. cbn. by rewrite !length_insert.
Qed.
End Flow.
