(* ===== verification/GenPatch.v ===== *)
(** * GenPatch: from the generator to the payload

    [patched_realizes]: a payload that holds the code [patchBranches] leaves,
    linked, realizes what the generator emitted.  Every branch has its distance
    and every relocated operand its address. *)

From S2P Require Import Prelude Target Types Token IR Object Machine MachineRun Isa Gen GenRun.

(** The operand of a relocation. *)
Definition relocated (h : Gen) (p : Z) : Prop :=
  ∃ r, r ∈ g_relocations h ∧ patch_offset r < p ≤ patch_offset r + 2.

(** What a round over fixups leaves. *)
Record Round (v : Env) (l : list BranchFixup) (a h : Gen) : Prop := {
  rd_symbols : g_symbols h = g_symbols a;
  rd_length : length (g_code h) = length (g_code a);
  rd_other : ∀ p, (∀ f, f ∈ l → fx_long f = false → fx_patch f ≠ Z.of_nat p) → g_code h !! p = g_code a !! p;
  rd_short : ∀ f, f ∈ l → fx_long f = false → ∃ t, fixup_target v (g_symbols a) f = Ok t ∧
    -128 ≤ t - (fx_patch f + 1) ≤ 127 ∧ g_code h !! Z.to_nat (fx_patch f) = Some (u8 (t - (fx_patch f + 1)));
  rd_old : ∀ r, r ∈ g_relocations a → r ∈ g_relocations h;
  rd_new : ∀ r, r ∈ g_relocations h → r ∈ g_relocations a ∨
    ∃ f, f ∈ l ∧ fx_long f = true ∧ patch_offset r = u32 (fx_patch f - 1)
}.

Lemma round_nil v a : Round v [] a a.
Proof. split; try done; [set_solver|by left]. Qed.

(** Patching ends without branches to widen only where there were none before. *)
Lemma patching_widen v l : ∀ s h widen,
  foldM (patch_fixup v) s l = Ok (Patched h widen) → ∃ a w, s = Patched a w ∧ (widen = [] → w = []).
Proof.
  induction l as [|f l IH]; intros s h widen H.
  - injection H as ->. eauto.
  - cbn in H. apply result_bind_ok in H as (s1 & H1 & H). apply IH in H as (a1 & w1 & -> & Hw1).
    destruct s as [a w|]; [|done]. exists a, w. split; [done|]. intros Hn. specialize (Hw1 Hn). subst w1.
    cbn in H1. apply result_bind_ok in H1 as (t & _ & H1). destruct (fx_long f).
    + by injection H1 as _ ->.
    + destruct (_ || _) in H1.
      * destruct (optimized v); [|done]. injection H1 as _ H1. destruct w; [done|discriminate].
      * apply result_bind_ok in H1 as (c & _ & H1). by injection H1 as _ ->.
Qed.

Definition short_at (f : BranchFixup) (p : nat) : Prop := fx_long f = false ∧ fx_patch f = Z.of_nat p.

(** One fixup. *)
Lemma patch_fixup_round v f a a1 :
  0 ≤ fx_patch f → patch_fixup v (Patched a []) f = Ok (Patched a1 []) → Round v [f] a a1.
Proof.
  intros H0 H. cbn in H. apply result_bind_ok in H as (t & Ht & H). destruct (fx_long f) eqn:Hlong.
  - injection H as <-.
    split; cbn; try done.
    + intros f' ->%list_elem_of_singleton. congruence.
    + intros r Hr. apply elem_of_app. by left.
    + intros r [Hr| ->%list_elem_of_singleton]%elem_of_app; [by left|]. right. exists f. split; [by left|]. by split.
  - destruct (_ || _) eqn:Hd in H; [destruct (optimized v); by simplify_eq|]. apply orb_false_iff in Hd as [Hd1 Hd2].
    apply result_bind_ok in H as (c & Hc & H). injection H as <-. apply set_at_ok in Hc as [Hr ->].
    split; cbn; try done.
    + apply length_insert.
    + intros p Hp. rewrite list_lookup_insert_ne; [done|]. intros E. apply (Hp f); [by left|done|lia].
    + intros f' ->%list_elem_of_singleton _. exists t. split; [done|]. split; [lia|]. apply list_lookup_insert_eq. unfold zlen in Hr. lia.
    + by left.
Qed.

Lemma round_cons v f l a b h :
  (∀ f', f' ∈ l → fx_long f = false → fx_long f' = false → fx_patch f' ≠ fx_patch f) →
  (∀ f', f' ∈ f :: l → 0 ≤ fx_patch f') →
  Round v [f] a b → Round v l b h → Round v (f :: l) a h.
Proof.
  intros Hd H0 R1 R2. split.
  - rewrite (rd_symbols _ _ _ _ R2). apply R1.
  - rewrite (rd_length _ _ _ _ R2). apply R1.
  - intros p Hp. rewrite (rd_other _ _ _ _ R2), (rd_other _ _ _ _ R1); [done|..].
    + intros f' ->%list_elem_of_singleton. apply Hp. by left.
    + intros f' Hf'. apply Hp. by right.
  - intros f' [->|Hin]%elem_of_cons Hs.
    + destruct (rd_short _ _ _ _ R1 f) as (t & Ht & Hr & Hc); [by left|done|]. exists t. split_and!; try done; try lia.
      rewrite (rd_other _ _ _ _ R2); [done|]. intros f' Hf' Hs'. specialize (Hd f' Hf' Hs Hs'). specialize (H0 f ltac:(by left)). lia.
    + destruct (rd_short _ _ _ _ R2 f') as (t & Ht & Hr & Hc); [done..|]. exists t. rewrite <- (rd_symbols _ _ _ _ R1). done.
  - intros r Hr. by apply R2, R1.
  - intros r Hr. apply (rd_new _ _ _ _ R2) in Hr as [Hr|(f' & Hf' & Hl)].
    + apply (rd_new _ _ _ _ R1) in Hr as [Hr|(f' & Hf' & Hl)]; [by left|]. right. exists f'.
      apply list_elem_of_singleton in Hf' as ->. split; [by left|done].
    + right. exists f'. split; [by right|done].
Qed.

(** Distinct fixups patch distinct places. *)
Definition apart (l : list BranchFixup) : Prop :=
  ∀ i j f f', l !! i = Some f → l !! j = Some f' → i ≠ j → fixup_end f < fx_patch f' ∨ fixup_end f' < fx_patch f.

Lemma patching_round v l : ∀ a h, (∀ f, f ∈ l → 0 ≤ fx_patch f) → apart l →
  foldM (patch_fixup v) (Patched a []) l = Ok (Patched h []) → Round v l a h.
Proof.
  induction l as [|f l IH]; intros a h H0 Hd H.
  - injection H as ->. apply round_nil.
  - cbn [foldM] in H. apply result_bind_ok in H as (s & H1 & H).
    destruct (patching_widen v l s h [] H) as (b & w & -> & Hw). rewrite (Hw eq_refl) in *.
    apply (round_cons v f l a b h).
    + intros f' Hf' Hs Hs'. apply list_elem_of_lookup in Hf' as (j & Hj).
      specialize (Hd 0%nat (S j) f f' eq_refl Hj ltac:(lia)). unfold fixup_end in Hd. rewrite Hs, Hs' in Hd. lia.
    + done.
    + apply patch_fixup_round; [|done]. apply H0. by left.
    + apply IH; [intros f' Hf'; apply H0; by right| |done].
      intros i j f1 f2 Hi Hj Hne. apply (Hd (S i) (S j)); [done..|lia].
Qed.

Section Payload.
Context (code : list Z) (origin : Z) (base : nat) (addresses : string → option Z).

(** The linked code of [h] in a payload. *)
Record Loaded (h : Gen) : Prop := {
  ld_bytes : ∀ p b, g_code h !! p = Some b → ¬ relocated h (Z.of_nat p) → code !! (base + p)%nat = Some b;
  ld_size : (at_ base h < length code)%nat;
  ld_relocations : ∀ r, r ∈ g_relocations h → r_type r = ADDR16_IWT ∨ r_type r = ADDR16_RAM →
    ∃ x, addresses (target_symbol_name r) = Some x ∧ operand_is code base (patch_offset r) x;
  ld_symbols : ∀ s, s ∈ g_symbols h → s_section s = CODE →
    addresses (s_name s) = Some (origin + Z.of_nat base + s_offset s)
}.

(** The first symbol of a name has the offset of every one. *)
Lemma code_label_at h s : Loaded h → s ∈ g_symbols h → s_section s = CODE → code_label (g_symbols h) (s_name s) = Some (s_offset s).
Proof.
  intros Hl Hs Hc. unfold code_label.
  destruct (List.find _ (g_symbols h)) as [s'|] eqn:Hf.
  - apply List.find_some in Hf as [Hin Hb]. apply andb_true_iff in Hb as [Hsec%bool_decide_eq_true Hname%String.eqb_eq].
    pose proof (ld_symbols _ Hl s Hs Hc) as E. apply list_elem_of_In in Hin. pose proof (ld_symbols _ Hl s' Hin Hsec) as E'.
    rewrite Hname, E in E'. injection E' as E'. cbn. f_equal. lia.
  - apply list_elem_of_In in Hs. apply (List.find_none _ _ Hf) in Hs. rewrite Hc, String.eqb_refl in Hs. by decides.
Qed.

(** What [patchBranches] leaves is what the emitted code needs. *)
Lemma patched_realizes v g h :
  patchBranches v g = Ok (Patched h []) → Wf v g → Loaded h →
  Realizes code origin base (code_label (g_symbols g)) addresses None g.
Proof.
  intros H Hw Hl. unfold patchBranches in H.
  apply patching_round in H; [|intros f Hf; pose proof (wf_fixups _ _ Hw f Hf); lia|intros i j f f'; apply (wf_distinct _ _ Hw)].
  pose proof (wf_size _ _ Hw) as Hsz.
  assert (∀ p, ¬ patched g p → ¬ relocated h p) as Hrel.
  { intros p Hn (r & Hr & Hp). apply (rd_new _ _ _ _ H) in Hr as [Hr|(f & Hf & Hlong & E)]; apply Hn.
    - right. by exists r.
    - left. exists f. split; [done|]. pose proof (wf_fixups _ _ Hw f Hf) as Hb. unfold fixup_end in *. rewrite Hlong in *.
      rewrite uwrap_small in E by lia. lia. }
  assert (∀ s, s ∈ g_symbols g → s ∈ g_symbols h) as Hsym by (intros s; by rewrite (rd_symbols _ _ _ _ H)).
  split.
  - intros p b Hp Hn _. apply (ld_bytes _ Hl); [|by apply Hrel]. rewrite (rd_other _ _ _ _ H); [done|].
    intros f Hf Hs E. apply Hn. left. exists f. split; [done|]. unfold fixup_end. rewrite Hs. lia.
  - done.
  - pose proof (ld_size _ Hl) as Hs. unfold at_ in *. by rewrite (rd_length _ _ _ _ H) in Hs.
  - intros f Hf Hloc Hs. destruct (rd_short _ _ _ _ H f Hf Hs) as (t & Ht & Hr & Hc). exists t. split_and!; try done; try lia.
    + unfold fixup_target in Ht. destruct (String.eqb_spec (fx_local f) ""); [done|].
      destruct (optimized v); [|done]. destruct (code_label _ _); [by injection Ht as ->|done].
    + pose proof (wf_fixups _ _ Hw f Hf). apply (ld_bytes _ Hl); [done|]. rewrite Z2Nat.id by lia. intros (r & Hrin & Hp).
      apply (rd_new _ _ _ _ H) in Hrin as [Hr'|(f' & Hf' & Hlong & E)].
      * pose proof (wf_apart _ _ Hw f r Hf Hr') as Hap. unfold fixup_end in *. rewrite Hs in *. lia.
      * pose proof (wf_fixups _ _ Hw f' Hf') as Hb. rewrite uwrap_small in E by (unfold fixup_end in Hb; rewrite Hlong in Hb; lia).
        apply list_elem_of_lookup in Hf as (i & Hi), Hf' as (j & Hj). destruct (decide (i = j)) as [->|Hne]; [congruence|].
        pose proof (wf_distinct _ _ Hw i j f f' Hi Hj Hne) as Hd. unfold fixup_end in *. rewrite Hs, Hlong in *. lia.
  - intros r Hr. apply (ld_relocations _ Hl). by apply H.
  - intros s Hs Hc. split; [|by apply (ld_symbols _ Hl); [apply Hsym|]].
    rewrite <- (rd_symbols _ _ _ _ H). by apply code_label_at; [|apply Hsym|].
Qed.

(** [Loaded], decided. *)
Definition relocated_b (h : Gen) (p : Z) : bool :=
  existsb (λ r, (patch_offset r <? p) && (p <=? patch_offset r + 2)) (g_relocations h).
Definition operand_b (p x : Z) : bool :=
  bool_decide (code !! (base + Z.to_nat (p + 1))%nat = Some (u8 x)) &&
  bool_decide (code !! (base + Z.to_nat (p + 2))%nat = Some (u8 (Z.shiftr x 8))).
Definition loaded_b (h : Gen) : bool :=
  forallb (λ pb, relocated_b h (Z.of_nat (fst pb)) || bool_decide (code !! (base + fst pb)%nat = Some (snd pb))) (indexed (g_code h)) &&
  Nat.ltb (at_ base h) (length code) &&
  forallb (λ r, match addresses (target_symbol_name r) with Some x => operand_b (patch_offset r) x | None => false end) (g_relocations h) &&
  forallb (λ s, negb (bool_decide (s_section s = CODE)) ||
    bool_decide (addresses (s_name s) = Some (origin + Z.of_nat base + s_offset s))) (g_symbols h).

Lemma loaded_b_sound h : loaded_b h = true → Loaded h.
Proof.
  unfold loaded_b. rewrite !andb_true_iff, !forallb_forall. intros [[[Hb Hs%Nat.ltb_lt] Hr] Hy]. split.
  - intros p b Hp Hn. apply elem_of_indexed, list_elem_of_In in Hp. apply Hb, orb_true_iff in Hp as [Hp|Hp%bool_decide_eq_true]; [|done].
    exfalso. apply Hn. apply existsb_exists in Hp as (r & Hin & Hp). exists r. split; [by apply list_elem_of_In|].
    cbn [fst] in Hp. lia.
  - done.
  - intros r Hin%list_elem_of_In _. specialize (Hr r Hin). destruct (addresses _) as [x|]; [|done]. exists x. split; [done|].
    apply andb_true_iff in Hr as [H1%bool_decide_eq_true H2%bool_decide_eq_true]. by split.
  - intros s Hin%list_elem_of_In Hc. specialize (Hy s Hin). rewrite Hc in Hy. decides. by apply bool_decide_eq_true in Hy.
Qed.

(** A final state of a generator, its code linked. *)
Definition linked_code (h : Gen) : list Z :=
  foldl (λ c r, match addresses (target_symbol_name r) with
    | Some x => <[Z.to_nat (patch_offset r + 2) := u8 (Z.shiftr x 8)]> (<[Z.to_nat (patch_offset r + 1) := u8 x]> c)
    | None => c
    end) (g_code h) (g_relocations h).
End Payload.

(** The first state of a generator. *)
Definition no_code : Gen := mkGen [] [] [] InvalidValue SpillCache.clear 0 no_ram_word [] 0 0 ∅ "" ∅ false.
Lemma no_code_wf v : Wf v no_code.
Proof. split; try done; set_solver. Qed.
