(* ===== verification/GenStack.v ===== *)
(** * GenStack: pushed words

    [pushed w0 l w]: since [w0] the words [l] were pushed.  [emitPush] adds one
    and [emitPop] takes one off, as long as there is [room]. *)

From S2P Require Import Prelude Target Types Token IR Object Machine MachineRun StartupRun Isa Gen GenRun GenFlow.

(** Registers that are kept. *)
Definition keeps (l : list Z) (w w' : State) : Prop := ∀ i, 0 ≤ i < 15 → i ∉ l → get w' i = get w i.

Lemma keeps_refl l w : keeps l w w.
Proof. done. Qed.
Lemma keeps_trans l w1 w2 w3 : keeps l w1 w2 → keeps l w2 w3 → keeps l w1 w3.
Proof. intros H1 H2 i Hi Hn. by rewrite H2, H1. Qed.
Lemma keeps_weaken l l' w w' : keeps l w w' → l ⊆ l' → keeps l' w w'.
Proof. intros H Hs i Hi Hn. apply H; [done|]. set_solver. Qed.
Lemma keeps_same l w w' : same l w w' → keeps l w w'.
Proof. intros H. exact (sm_reg _ _ _ H). Qed.

Section Stack.
Context (stack_limit : Z) (writable : Z → bool).

(** The [n] words from the stack pointer down are free. *)
Record room (n : Z) (w : State) : Prop := {
  rm_even : in_bank w (get w 10) mod 2 = 0;
  rm_limit : stack_limit + 2 * n ≤ get w 10 + 2;
  rm_range : 2 * n ≤ get w 10 < 65534;
  rm_writable : ∀ a, get w 10 - 2 * (n - 1) ≤ a < get w 10 + 2 → writable (in_bank w a) = true
}.

Record pushed (n : Z) (w0 : State) (l : list Z) (w : State) : Prop := {
  pu_sp : get w 10 = get w0 10 - 2 * zlen l;
  pu_words : ∀ i x, l !! i = Some x → word_at (mem w) (in_bank w0 (get w0 10 - 2 * Z.of_nat i)) = x;
  pu_mem : ∀ a, a < in_bank w0 (get w0 10) - 2 * (n - 1) ∨ in_bank w0 (get w0 10) + 2 ≤ a →
    byte_at (mem w) a = byte_at (mem w0) a;
  pu_bnk : bnk w = bnk w0;
  pu_rest : rest w = rest w0;
  pu_length : length (regs w) = length (regs w0)
}.

Lemma pushed_start n w : pushed n w [] w.
Proof. split; try done. unfold zlen. cbn. lia. Qed.
Lemma pushed_same n w0 l w w' k : pushed n w0 l w → same k w w' → 10 ∉ k → pushed n w0 l w'.
Proof.
  intros [Ps Pw Pm Pb Pt Pl] [Sr Sl Sm Sb St] H10. split; try congruence; [by rewrite Sr by (lia || done)|..]; intros; rewrite Sm; auto.
Qed.
Lemma room_weaken n n' w : room n w → 0 ≤ n' ≤ n → room n' w.
Proof. intros [] H. split; [done|lia..|]. intros a Ha. apply rm_writable0. lia. Qed.

Context {code : list Z} {origin program_bank : Z} {rom : Memory} (fits : Fits code origin program_bank).
Context {base : nat} {labels addresses : string → option Z} {v : Env}.
Context (Hwritable : ∀ i, writable i = true → 0 ≤ i < RamSize ∧ ¬ occupied code origin program_bank i).
Context (P : Machine → Prop) (slot : option Z) (G : Gen).
Context (HG : Realizes code origin base labels addresses slot G).
Context (Hlimit : addresses (StackLimitPrefix +:+ pretty 2) = Some stack_limit).
Context (limit_range : 0 ≤ stack_limit < 65536).
Notation lands := (lands (code:=code) (origin:=origin) (program_bank:=program_bank) (rom:=rom) (base:=base) (v:=v) P slot G).

Lemma push_on n w0 l r w (Q : State → Prop) :
  room n w0 → pushed n w0 l w → zlen l < n → length (regs w0) = 15%nat → 0 ≤ r < 15 → r ∉ [3; 10] → word_ok (get w r) →
  (∀ w', keeps [3; 10] w w' → pushed n w0 (l ++ [get w r]) w' → Q w') → lands (emitPush v r) w Q.
Proof.
  intros [Re Rl Rr Rw] [Ps Pw Pm Pb Pt Pl] Hn Hlen Hr Hni Hx HQ. pose proof (zlen_nonneg l).
  assert (∀ a, in_bank w a = in_bank w0 a) as Eb by (intros a; unfold in_bank; by rewrite Pb).
  apply (lands_push fits Hwritable P slot G HG stack_limit Hlimit limit_range r w); try done; try lia.
  - rewrite Eb, Ps. unfold in_bank in *. zmod.
  - rewrite Eb. apply Rw. lia.
  - rewrite Eb. replace (in_bank w0 (get w 10) + 1) with (in_bank w0 (get w 10 + 1)) by (unfold in_bank; lia). apply Rw. lia.
  - intros w' [Sr Sl Sm Sb St] E10. apply HQ; [exact Sr|]. rewrite Eb in *. split.
    + rewrite E10, Ps, zlen_app. change (zlen [get w r]) with 1. lia.
    + intros i x Hi. rewrite Sm. cbn [mem stored]. apply lookup_snoc_Some in Hi as [[Hi Hl]|[-> <-]].
      * rewrite word_at_other; [by apply Pw|]. rewrite Ps. unfold in_bank, zlen. lia.
      * replace (get w0 10 - 2 * Z.of_nat (length l)) with (get w 10) by (rewrite Ps; unfold zlen; lia). by apply word_at_stored.
    + intros a Ha. rewrite Sm. cbn [mem stored]. unfold in_bank in *. rewrite byte_at_stored by lia. by apply Pm.
    + by rewrite Sb.
    + by rewrite St.
    + by rewrite Sl.
Qed.

Lemma pop_on n w0 l x r w (Q : State → Prop) :
  room n w0 → pushed n w0 (l ++ [x]) w → zlen l < n → length (regs w0) = 15%nat → 0 ≤ r < 15 → r ≠ 10 →
  (∀ w', keeps [r; 10] w w' → get w' r = x → pushed n w0 l w' → Q w') → lands (emitPop v r) w Q.
Proof.
  intros [Re Rl Rr Rw] [Ps Pw Pm Pb Pt Pl] Hn Hlen Hr Hni HQ. pose proof (zlen_nonneg l).
  rewrite zlen_app in Ps. change (zlen [x]) with 1 in Ps.
  assert (∀ a, in_bank w a = in_bank w0 a) as Eb by (intros a; unfold in_bank; by rewrite Pb).
  apply (lands_pop fits Hwritable P slot G HG r w); try done; try lia.
  - rewrite Eb. unfold in_bank in *. zmod.
  - intros w' Sw E10 Er. apply HQ; [by apply keeps_same| |].
    + rewrite Er, Eb. replace (get w 10 + 2) with (get w0 10 - 2 * Z.of_nat (length l)) by (unfold zlen in *; lia).
      apply Pw. rewrite lookup_app_r by lia. by rewrite Nat.sub_diag.
    + destruct Sw as [Sr Sl Sm Sb St]. split; try congruence;
        [lia|intros i y Hi; rewrite Sm; apply Pw; by apply lookup_app_l_Some|intros; rewrite Sm; auto].
Qed.
End Stack.
