(* ===== verification/ShiftRun.v ===== *)
(** * ShiftRun: checked shifts on the machine

    The code of a shift by a value: the fault for counts of sixteen and more,
    the loop, and the result [IRScalarFold] folds to. *)

From S2P Require Import Prelude Target Types Token IR Object ScalarFold Machine MachineRun StartupRun Isa Gen GenInt GenRun GenFlow GenPatch.

(* ------------------------------------------------------------------ *)
(** ** Running straight-line code *)

Lemma execs_cons writable i l s w s' w' :
  encodable i = true → exec writable i s w = Some (s', w') → execs writable (i :: l) s w = execs writable l s' w'.
Proof. intros He Hx. cbn [execs]. by rewrite He, Hx. Qed.
Lemma execs_literal writable v r x l w :
  0 ≤ r < 15 → 0 ≤ x < 65536 → execs writable (literal_instr v r x :: l) plain w = execs writable l plain (put r x w).
Proof. intros. by rewrite (execs_cons writable _ _ _ _ plain (put r x w)) by (apply literal_encodable || apply literal_exec; lia). Qed.

(** CMP. *)
Lemma execs_cmp writable a b n l w :
  0 ≤ n < 15 → execs writable (Sub n :: l) (mkSelectors a b false true true) w =
    execs writable l plain (flagged (compared (get w a) (get w n)) w).
Proof.
  intros Hn. apply execs_cons; [cbn; unfold between; lia|]. cbn [exec]. unfold exec_sub. cbn [source alt1 alt2 andb negb].
  by rewrite Z.sub_0_r.
Qed.

Ltac wide := cbn [regs put flagged zs stored]; rewrite ?length_insert; assumption.
Ltac gets := repeat first
  [ rewrite get_flagged | rewrite get_zs | rewrite get_stored
  | rewrite get_put by first [lia | wide] | rewrite get_put_ne by lia ].
Ltac exec_step := first
  [ rewrite execs_literal by lia
  | rewrite execs_cmp by lia
  | erewrite execs_cons; [|reflexivity|cbn [exec prefix source destination alt1 alt2 plain]; reflexivity];
    cbn [source destination alt1 alt2 prefix plain andb orb negb] ].
Ltac exec := repeat exec_step; reflexivity.
Ltac same := repeat first
  [ apply same_refl | assumption | apply same_flagged | apply same_zs | apply same_put; [|lia|inside] ].

(* ------------------------------------------------------------------ *)
(** ** One bit *)

(** [x] shifted by one. *)
Definition shift_one (left unsigned : bool) (x : Z) : Z :=
  if left then u16 (x + x) else if unsigned then x / 2 else u16 (signed16 x / 2).

(** [x] shifted by [k]. *)
Definition shifted (left unsigned : bool) (x k : Z) : Z :=
  if left then u16 (x * 2 ^ k) else if unsigned then x / 2 ^ k else u16 (signed16 x / 2 ^ k).

Lemma shifted_zero left unsigned x : word_ok x → shifted left unsigned x 0 = x.
Proof.
  unfold word_ok. intros. unfold shifted. change (2 ^ 0) with 1. destruct left; [rewrite uwrap_small; lia|].
  destruct unsigned; [by rewrite Z.div_1_r|]. rewrite Z.div_1_r. unfold signed16, uwrap. change (2 ^ 16) with 65536.
  destruct (Z.ltb_spec x 32768); zmod.
Qed.

Lemma signed16_range x : word_ok x → -32768 ≤ signed16 x < 32768.
Proof. unfold word_ok, signed16. intros. destruct (Z.ltb_spec x 32768); lia. Qed.
Lemma signed16_u16 x : -32768 ≤ x < 32768 → signed16 (u16 x) = x.
Proof. intros. unfold signed16, uwrap. change (2 ^ 16) with 65536. destruct (Z.ltb_spec (x mod 65536) 32768); zmod. Qed.
Lemma u16_signed16 x : word_ok x → u16 (signed16 x) = x.
Proof. unfold word_ok, signed16, uwrap. change (2 ^ 16) with 65536. intros. destruct (Z.ltb_spec x 32768); zmod. Qed.
Lemma div_between a d : 0 < d → -32768 ≤ a < 32768 → -32768 ≤ a / d < 32768.
Proof. intros. split; [apply Z.div_le_lower_bound; nia|apply Z.div_lt_upper_bound; nia]. Qed.

Lemma shifted_word left unsigned x k : word_ok x → 0 ≤ k → word_ok (shifted left unsigned x k).
Proof.
  intros Hx Hk. unfold shifted. destruct left; [apply u16_range|]. destruct unsigned; [|apply u16_range].
  unfold word_ok in *. assert (0 < 2 ^ k) by lia. split; [apply Z.div_pos; lia|]. apply Z.div_lt_upper_bound; [lia|]. nia.
Qed.

Lemma shifted_succ left unsigned x k : word_ok x → 0 ≤ k →
  shift_one left unsigned (shifted left unsigned x k) = shifted left unsigned x (k + 1).
Proof.
  intros Hx Hk. unfold shift_one, shifted. rewrite Z.pow_add_r, Z.pow_1_r by lia. destruct left.
  - unfold uwrap. rewrite <- Z.add_mod by lia. f_equal. lia.
  - destruct unsigned; [by rewrite Z.div_div by lia|]. f_equal.
    rewrite signed16_u16 by (apply div_between; [lia|by apply signed16_range]). by rewrite Z.div_div by lia.
Qed.

(** The instruction that does it. *)
Definition shift_instr (left unsigned : bool) : Instr := if left then Add 0 else if unsigned then Lsr else Asr.
Definition shift_byte (left unsigned : bool) : Z := if left then 0x50 else if unsigned then 0x03 else 0x96.

Lemma asr_value x : word_ok x → u16 (Z.lor (Z.shiftr x 1) (Z.land x 0x8000)) = u16 (signed16 x / 2).
Proof.
  intros Hx. rewrite Z.shiftr_div_pow2 by lia. change (2 ^ 1) with 2.
  assert (Z.land x 0x8000 = if x <? 32768 then 0 else 1 * 2 ^ 15) as ->.
  { pose proof (land_sign x) as E. rewrite testbit_sign in E by done. destruct (Z.ltb_spec x 32768).
    - apply Z.eqb_eq, negb_false_iff. rewrite E. lia.
    - apply Z.bits_inj'. intros n Hn. change 32768 with (2 ^ 15). rewrite Z.mul_1_l, Z.land_spec, Z.pow2_bits_eqb by lia.
      destruct (Z.eqb_spec 15 n) as [<-|]; [|apply andb_false_r]. rewrite testbit_sign by done. lia. }
  unfold signed16, word_ok in *. destruct (Z.ltb_spec x 32768); [by rewrite Z.lor_0_r|].
  rewrite Z.lor_comm, lor_fields by (change (2 ^ 15) with 32768; zmod). unfold uwrap.
  change (2 ^ 15) with 32768. change (2 ^ 16) with 65536. zmod.
Qed.

Lemma shift_exec writable left unsigned w : ok w →
  ∃ f, exec writable (shift_instr left unsigned) plain w = Some (plain, put 0 (shift_one left unsigned (get w 0)) (flagged f w)).
Proof.
  intros Hok. pose proof (get_word w 0 Hok) as Hx. unfold shift_instr, shift_one. destruct left; [|destruct unsigned].
  - eexists. cbn [exec]. unfold exec_add, finish. cbn [source alt1 alt2 andb plain destination]. rewrite Z.add_0_r. reflexivity.
  - eexists. cbn [exec]. unfold exec_shift, finish, shift_value. cbn [source alt1 plain destination Z.eqb Pos.eqb andb].
    rewrite Z.lor_0_r, Z.shiftr_div_pow2 by lia. change (2 ^ 1) with 2.
    rewrite uwrap_small by (unfold word_ok in Hx; zmod). reflexivity.
  - eexists. cbn [exec]. unfold exec_shift, finish, shift_value. cbn [source alt1 plain destination Z.eqb Pos.eqb andb].
    rewrite asr_value by done. reflexivity.
Qed.

Lemma grows_shift v i : grows v (emit_shift v i).
Proof. unfold emit_shift. grow. Qed.

Section Shift.
Context {code : list Z} {origin program_bank : Z} {rom : Memory} (fits : Fits code origin program_bank).
Context {base : nat} {labels addresses : string → option Z} {v : Env} {writable : Z → bool}.
Context (Hwritable : ∀ i, writable i = true → 0 ≤ i < RamSize ∧ ¬ occupied code origin program_bank i).
Context (P : Machine → Prop) (slot : option Z) (G : Gen).
Context (HG : Realizes code origin base labels addresses slot G).
Notation lands := (lands (code:=code) (origin:=origin) (program_bank:=program_bank) (rom:=rom) (base:=base) (v:=v) P slot G).

(** One round of the loop. *)
Lemma shift_body left unsigned w (Q : State → Prop) :
  1 ≤ get w 6 → (∀ w', same [0; 6] w w' → get w' 0 = shift_one left unsigned (get w 0) → get w' 6 = get w 6 - 1 →
     zero (fl w') = (get w 6 =? 1) → Q w') →
  lands (emitByte (shift_byte left unsigned) >> emitByte 0xe6) w Q.
Proof.
  intros H6 HQ. apply lands_ok. intros Hok. destruct (shift_exec writable left unsigned w Hok) as (f & Hx).
  pose proof (ok_length _ Hok) as Hlen. pose proof (get_word w 6 Hok) as Hw6. unfold word_ok in Hw6.
  eapply (lands_lin fits Hwritable P slot G HG _ [shift_instr left unsigned; Dec 6]).
  - apply lin_one; [|lin]. unfold shift_byte, shift_instr. destruct left; [lin|destruct unsigned; lin].
  - assert (encodable (shift_instr left unsigned) = true) as He by (unfold shift_instr; by destruct left, unsigned).
    rewrite (execs_cons writable _ _ _ _ _ _ He Hx). exec.
  - rewrite get_put_ne, get_flagged by lia. rewrite uwrap_small by lia. apply HQ.
    + same.
    + by gets.
    + by gets.
    + cbn. lia.
Qed.

Lemma lands_shift i w (Q : State → Prop) :
  let scratch := if g_plotting G then 3 else 1 in
  let left := String.eqb (i_operation i) "<<" in
  (get w scratch < 16 → ∀ w', same [0; 3; 6] w w' →
     get w' 0 = shifted left (is_unsigned (i_type i)) (get w 0) (get w scratch) → Q w') →
  (16 ≤ get w scratch → ∀ m, pipeline m = 0 → get (sees m) 6 = 5 → P m) → lands (emit_shift v i) w Q.
Proof.
  intros scratch left HQ HP. apply lands_ok. intros Hok. pose proof (ok_length _ Hok) as Hlen.
  set (unsigned := is_unsigned (i_type i)) in *. unfold emit_shift.
  apply (lands_state fits P slot G HG (λ g0, emitMove v 6 (scratchRegister g0) >> _)); [intros; grow|].
  intros g0 Hp. assert (scratchRegister g0 = scratch) as -> by (unfold scratchRegister, scratch; by rewrite Hp).
  assert (0 ≤ scratch < 15 ∧ scratch ≠ 6) as [Hs Hs6] by (unfold scratch; destruct (g_plotting G); lia).
  pose proof (get_word w scratch Hok) as Hy. pose proof (get_word w 0 Hok) as Hx.
  eapply (lands_to fits P slot G HG); [grow..|apply (lands_move fits Hwritable P slot G HG 6 scratch); [lia..|reflexivity]|].
  set (w1 := put 6 (get w scratch) w). assert (get w1 6 = get w scratch) as E6 by (unfold w1; by gets).
  eapply (lands_to fits P slot G HG); [grow..|apply (lands_compare fits Hwritable P slot G HG 6 16); [lia..|unfold w1; wide|reflexivity]|].
  rewrite E6.
  eapply (lands_seq fits P slot G HG _ _ _ (λ w3, get w scratch < 16 ∧ w3 = flagged (compared (get w scratch) 16) (put 3 16 w1))); [grow..| |].
  { apply (lands_guard fits Hwritable P slot G HG 12 5); [lia..| |].
    - intros Ht. split; [|done]. unfold branch_taken in Ht. cbn [Z.eqb Pos.eqb fl flagged] in Ht. rewrite compared_carry in Ht. lia.
    - intros Ht m Hm Hsee. unfold branch_taken in Ht. cbn [Z.eqb Pos.eqb fl flagged] in Ht. rewrite compared_carry in Ht.
      apply HP; [lia|done|]. rewrite Hsee. unfold w1. by gets. }
  intros w3 [Hlt ->]. set (w3 := flagged _ _).
  apply (lands_label P slot G (λ loop g, let '(end_, g) := localLabel v g in
    (emitCompare v 6 0 >> emitLocalJump v end_ 9 >> bindLabel loop >> emitByte (shift_byte left unsigned) >>
     emitByte 230 >> emitLocalJump v loop 8 >> bindLabel end_) g)). intros loop Hloop.
  apply (lands_label P slot G (λ end_,
    emitCompare v 6 0 >> emitLocalJump v end_ 9 >> bindLabel loop >> emitByte (shift_byte left unsigned) >>
     emitByte 230 >> emitLocalJump v loop 8 >> bindLabel end_)). intros end_ Hend.
  apply (lands_ext P slot G _ (emitCompare v 6 0 >> emitLocalJump v end_ 9 >>
    (bindLabel loop >> (emitByte (shift_byte left unsigned) >> emitByte 230) >> emitLocalJump v loop 8) >> bindLabel end_));
    [regroup|].
  assert (get w3 6 = get w scratch ∧ get w3 0 = get w 0) as [E36 E30] by (split; unfold w3, w1; by gets).
  eapply (lands_to fits P slot G HG); [grow..|apply (lands_compare fits Hwritable P slot G HG 6 0); [lia..|unfold w3, w1; wide|reflexivity]|].
  rewrite E36. set (w4 := flagged _ _).
  assert (same [0; 3; 6] w w4) as S4 by (unfold w4, w3, w1; same).
  apply (lands_unless fits P slot G HG); [done|lia|grow| |].
  - intros Ht. unfold branch_taken in Ht. cbn [Z.eqb Pos.eqb fl flagged w4] in Ht. rewrite compared_equal in Ht by done.
    apply Z.eqb_eq in Ht. rewrite Ht in HQ. apply HQ; [lia|done|]. rewrite shifted_zero by done. unfold w4. gets. exact E30.
  - intros Ht. unfold branch_taken in Ht. cbn [Z.eqb Pos.eqb fl flagged w4] in Ht. rewrite compared_equal in Ht by done.
    apply (lands_loop fits P slot G HG loop 8 _ (λ k w', same [0; 3; 6] w w' ∧ get w' 6 = Z.of_nat k + 1 ∧ Z.of_nat k + 1 ≤ get w scratch ∧
      get w' 0 = shifted left unsigned (get w 0) (get w scratch - (Z.of_nat k + 1))) w4 (Z.to_nat (get w scratch - 1))); [done|lia|grow| |].
    + intros k w' (Sw & E6' & Hk & E0). apply shift_body; [lia|]. intros w5 S5 E50 E56 Ez.
      assert (same [0; 3; 6] w w5) as Sw5 by (eapply same_trans; [exact Sw|]; eapply same_weaken; [exact S5|set_solver]).
      assert (get w5 0 = shifted left unsigned (get w 0) (get w scratch - Z.of_nat k)) as E5.
      { rewrite E50, E0, shifted_succ by (lia || done). f_equal. lia. }
      unfold branch_taken. cbn [Z.eqb Pos.eqb]. rewrite Ez, E6'. split; intros Hb.
      * exists (k - 1)%nat. split; [lia|]. split_and!; [done|lia|lia|]. rewrite E5. f_equal. lia.
      * apply HQ; [done|done|]. rewrite E5. f_equal. lia.
    + unfold word_ok in *. split; [done|]. unfold w4. gets. rewrite E36, E30. split; [lia|]. split; [lia|].
      rewrite <- (shifted_zero left unsigned (get w 0)) at 1 by done. f_equal. lia.
Qed.
End Shift.
