(* ===== verification/DivRun.v ===== *)
(** * DivRun: division on the machine

    The division kernel in line: the sixteen rounds of shift and subtract
    compute quotient and remainder, the signs around it those of the
    quotient rounded toward zero, and a zero divisor stops the machine. *)

From S2P Require Import Prelude Target Types Token IR Object ScalarFold Machine MachineRun StartupRun Isa Gen GenInt GenRun GenFlow GenStack ShiftRun.

(* ------------------------------------------------------------------ *)
(** ** The rounds *)

(** With [k] rounds to go, R2 and R1. *)
Definition remainder (X d k : Z) : Z := (X / 2 ^ k) mod d.
Definition quotient (X d k : Z) : Z := (X mod 2 ^ k) * 2 ^ (16 - k) + X / 2 ^ k / d.

Lemma division_digit X d k : 0 ≤ X < 65536 → 0 < d < 65536 → 0 ≤ k < 16 →
  let r := remainder X d (k + 1) in let q := quotient X d (k + 1) in
  let full := r + r + (if 32768 <=? q then 1 else 0) in
  0 ≤ r < d ∧ 0 ≤ q < 65536 ∧ full < 2 * d ∧ u16 (q + q) < 65535 ∧
  quotient X d k = u16 (q + q) + (if d <=? full then 1 else 0) ∧
  remainder X d k = if d <=? full then full - d else full.
Proof.
  intros HX Hd Hk. unfold remainder, quotient. cbv zeta.
  set (p := 2 ^ k). set (m := 2 ^ (15 - k)).
  assert (2 ^ (k + 1) = 2 * p) as -> by (unfold p; rewrite Z.pow_add_r by lia; lia).
  assert (2 ^ (16 - (k + 1)) = m) as -> by (unfold m; f_equal; lia).
  assert (2 ^ (16 - k) = 2 * m) as -> by (unfold m; replace (16 - k) with (15 - k + 1) by lia; rewrite Z.pow_add_r by lia; lia).
  assert (p * m = 32768) as Hpm by (unfold p, m; rewrite <- Z.pow_add_r by lia; by replace (k + (15 - k)) with 15 by lia).
  assert (0 < p ∧ 0 < m) as [Hp Hm] by (unfold p, m; lia). clearbody p m.
  (* the bit shifted in *)
  set (H := X / (2 * p)). set (L := X mod p). set (b := X / p mod 2).
  assert (X / p = 2 * H + b) as Ehi.
  { unfold H, b. rewrite (Z.mul_comm 2 p), <- Z.div_div by lia. apply Z.div_mod. lia. }
  assert (X mod (2 * p) = b * p + L) as Elo.
  { unfold b, L. rewrite (Z.mul_comm 2 p), Z.rem_mul_r by lia. lia. }
  assert (0 ≤ b < 2) by (apply Z.mod_pos_bound; lia). assert (0 ≤ L < p) by (apply Z.mod_pos_bound; lia).
  assert (0 ≤ H < m) by (split; [apply Z.div_pos; lia|apply Z.div_lt_upper_bound; nia]).
  rewrite Elo, Ehi. pose proof (Z.div_mod H d ltac:(lia)) as EH. pose proof (Z.mod_pos_bound H d ltac:(lia)) as Hr.
  assert (0 ≤ H / d ≤ H) by (split; [apply Z.div_pos; lia|apply Z.div_le_upper_bound; nia]).
  clearbody H L b. set (h := H / d) in *. set (r := H mod d) in *. clearbody h r.
  assert (L * m + h < 32768) as Hlow by nia.
  replace ((b * p + L) * m + h) with (b * 32768 + (L * m + h)) by nia.
  assert (0 ≤ L * m + h) by nia. set (low := L * m + h) in *.
  assert (32768 <=? b * 32768 + low = (b =? 1)) as -> by (destruct (Z.eqb_spec b 1); lia).
  assert (u16 (b * 32768 + low + (b * 32768 + low)) = 2 * low) as ->.
  { unfold uwrap. change (2 ^ 16) with 65536. assert (b = 0 ∨ b = 1) as [-> | ->] by lia; zmod. }
  assert ((if b =? 1 then 1 else 0) = b) as -> by (destruct (Z.eqb_spec b 1); lia).
  assert ((2 * H + b) / d = 2 * h + (if d <=? r + r + b then 1 else 0)
        ∧ (2 * H + b) mod d = if d <=? r + r + b then r + r + b - d else r + r + b) as [-> ->].
  { destruct (Z.leb_spec d (r + r + b)); split; symmetry;
      [apply Z.div_unique with (r + r + b - d)|apply Z.mod_unique with (2 * h + 1)
      |apply Z.div_unique with (r + r + b)|apply Z.mod_unique with (2 * h)]; nia. }
  split_and!; try lia; nia.
Qed.

Lemma division_start X d : 0 ≤ X < 65536 → 0 < d → remainder X d 16 = 0 ∧ quotient X d 16 = X.
Proof.
  intros. unfold remainder, quotient. change (2 ^ 16) with 65536. rewrite (Z.div_small X), (Z.mod_small X) by lia.
  change (2 ^ (16 - 16)) with 1. rewrite Z.div_0_l, Z.mod_0_l by lia. lia.
Qed.
Lemma division_end X d : remainder X d 0 = X mod d ∧ quotient X d 0 = X / d.
Proof. unfold remainder, quotient. change (2 ^ 0) with 1. rewrite Z.div_1_r, Z.mod_1_r. lia. Qed.

(** ** Signs *)

Definition sign_word (x : Z) : Z := Z.land x 0x8000.
Lemma sign_word_zero x : word_ok x → (sign_word x =? 0) = (x <? 32768).
Proof.
  intros Hx. pose proof (land_sign x) as E. rewrite testbit_sign in E by done. unfold sign_word.
  destruct (Z.land x 32768 =? 0); cbn in E; lia.
Qed.
Lemma sign_word_ok x : word_ok x → word_ok (sign_word x).
Proof. intros. by apply land_word. Qed.
Lemma sign_word_xor x y : word_ok x → word_ok y →
  (sign_word (Z.lxor x y) =? 0) = Bool.eqb (x <? 32768) (y <? 32768).
Proof.
  intros Hx Hy. pose proof (land_sign (Z.lxor x y)) as E. rewrite Z.lxor_spec, !testbit_sign in E by done.
  unfold sign_word. destruct (Z.land _ 32768 =? 0), (Z.leb_spec 32768 x), (Z.leb_spec 32768 y), (Z.ltb_spec x 32768), (Z.ltb_spec y 32768);
    try lia; done.
Qed.

(** The magnitude of a signed word. *)
Definition magnitude (x : Z) : Z := Z.abs (signed16 x).
Lemma magnitude_range x : word_ok x → 0 ≤ magnitude x ≤ 32768.
Proof. intros Hx%signed16_range. unfold magnitude. lia. Qed.
Lemma magnitude_zero x : word_ok x → 0 < x → 0 < magnitude x.
Proof. unfold magnitude, signed16, word_ok. intros. destruct (Z.ltb_spec x 32768); lia. Qed.

(** What a kernel computes with, and the signs it keeps. *)
Definition operand (signed : bool) (x : Z) : Z := if signed then magnitude x else x.
Definition signs (signed : bool) (x y : Z) : list Z := if signed then [sign_word (Z.lxor x y); sign_word x] else [].

Section Division.
Context {code : list Z} {origin program_bank : Z} {rom : Memory} (fits : Fits code origin program_bank).
Context {base : nat} {labels addresses : string → option Z} {v : Env} {writable : Z → bool}.
Context (Hwritable : ∀ i, writable i = true → 0 ≤ i < RamSize ∧ ¬ occupied code origin program_bank i).
Context (P : Machine → Prop) (slot : option Z) (G : Gen).
Context (HG : Realizes code origin base labels addresses slot G).
Notation lands := (lands (code:=code) (origin:=origin) (program_bank:=program_bank) (rom:=rom) (base:=base) (v:=v) P slot G).

(** Doubling R1 into R2. *)
Definition double : Gen → result Gen :=
  emitByte 0xb1 >> emitByte 0x11 >> emitByte 0x51 >> emitByte 0xb2 >> emitByte 0x12 >> emitByte 0x3d >> emitByte 0x52.

Lemma lands_double w (Q : State → Prop) :
  ok w → (∀ w', same [1; 2] w w' → get w' 1 = u16 (get w 1 + get w 1) →
    get w' 2 = u16 (get w 2 + get w 2 + (if 32768 <=? get w 1 then 1 else 0)) →
    carry (fl w') = (65535 <? get w 2 + get w 2 + (if 32768 <=? get w 1 then 1 else 0)) → Q w') →
  lands double w Q.
Proof.
  intros Hok HQ. pose proof (ok_length _ Hok) as Hlen. pose proof (get_word w 1 Hok) as H1. unfold word_ok in H1.
  eapply (lands_lin fits Hwritable P slot G HG).
  - unfold double. lin.
  - exec.
  - assert ((65535 <? get w 1 + get w 1 + 0) = (32768 <=? get w 1)) as Ec by lia.
    apply HQ; [same|gets..|]; cbn [fl put flagged carry]; gets; rewrite ?Ec, ?Z.add_0_r; done.
Qed.

(** Subtracting the divisor, and the quotient's bit. *)
Definition subtract : Gen → result Gen := emitByte 0xb2 >> emitByte 0x12 >> emitByte 0x63 >> emitByte 0xd1.

Lemma lands_subtract w (Q : State → Prop) :
  ok w → (∀ w', same [1; 2] w w' → get w' 1 = u16 (get w 1 + 1) → get w' 2 = u16 (get w 2 - get w 3) → Q w') →
  lands subtract w Q.
Proof.
  intros Hok HQ. pose proof (ok_length _ Hok) as Hlen. eapply (lands_lin fits Hwritable P slot G HG).
  - unfold subtract. lin.
  - exec.
  - apply HQ; [same|gets..]; [done|]. by rewrite Z.sub_0_r.
Qed.

(** Invariant of the loop, with [k + 1] rounds to go. *)
Definition rounds_left (w0 : State) (X d : Z) (k : nat) (w : State) : Prop :=
  same [1; 2; 4] w0 w ∧ get w 4 = Z.of_nat k + 1 ∧ Z.of_nat k < 16 ∧
  get w 1 = quotient X d (Z.of_nat k + 1) ∧ get w 2 = remainder X d (Z.of_nat k + 1).

(** One round, up to the count. *)
Lemma lands_round yes no w0 X d k w (Q : State → Prop) :
  yes ≠ "" → no ≠ "" → 0 ≤ X < 65536 → 0 < d < 65536 → get w0 3 = d → rounds_left w0 X d k w →
  (∀ w', same [1; 2; 4] w0 w' → get w' 4 = Z.of_nat k + 1 → get w' 1 = quotient X d (Z.of_nat k) →
     get w' 2 = remainder X d (Z.of_nat k) → Q w') →
  lands (double >> emitLocalJump v yes 13 >> (emitByte 0xb2 >> emitByte 0x3f >> emitByte 0x63) >> emitLocalJump v no 12 >>
         bindLabel yes >> subtract >> bindLabel no) w Q.
Proof.
  intros Hyes Hno HX Hd H3 (Sw & E4 & Hk & E1 & E2) HQ. apply lands_ok. intros Hok.
  pose proof (division_digit X d (Z.of_nat k) HX Hd ltac:(lia)) as (Hr & Hq & Hfull & Hq2 & Equo & Erem).
  rewrite <- E1, <- E2 in *.
  apply (lands_then fits P slot G HG); [grow..|]. apply lands_double; [done|]. intros w1 S1 F1 F2 Fc. apply lands_ok. intros Hok1.
  assert (same [1; 2; 4] w w1) as S1' by (eapply same_weaken; [exact S1|set_solver]).
  assert (get w1 3 = d) as F3 by (rewrite (sm_reg _ _ _ S1) by (lia || outside); rewrite (sm_reg _ _ _ Sw) by (lia || outside); done).
  assert (get w1 4 = get w 4) as F4 by (apply (sm_reg _ _ _ S1); [lia|outside]).
  set (full := get w 2 + get w 2 + (if 32768 <=? get w 1 then 1 else 0)) in *.
  assert (0 ≤ full) as Hf0 by (unfold full; destruct (_ <=? _); lia).
  assert (∀ w2, same [1; 2] w w2 → same [1; 2; 4] w0 w2 ∧ get w2 4 = Z.of_nat k + 1) as Hkeep.
  { intros w2 S2. split; [eapply same_trans; [exact Sw|]; eapply same_weaken; [exact S2|set_solver]|].
    rewrite (sm_reg _ _ _ S2) by (lia || outside). done. }
  assert (d ≤ full → ∀ w', same [] w1 w' → lands subtract w' Q) as Hsub.
  { intros Hle w' S'. apply lands_ok. intros Hok'. apply lands_subtract; [done|]. intros w2 S2 G1 G2.
    rewrite (sm_reg _ _ _ S' 1), F1 in G1 by (lia || outside).
    rewrite (sm_reg _ _ _ S' 2), (sm_reg _ _ _ S' 3), F2, F3 in G2 by (lia || outside).
    destruct (Hkeep w2) as [K1 K2].
    { eapply same_trans; [exact S1|]. eapply same_trans; [eapply same_weaken; [exact S'|set_solver]|exact S2]. }
    apply HQ; [done|done|..].
    - rewrite G1, Equo. replace (d <=? full) with true by lia. apply uwrap_small. pose proof (u16_range (get w 1 + get w 1)). lia.
    - rewrite G2, Erem. replace (d <=? full) with true by lia. unfold uwrap. change (2 ^ 16) with 65536. zmod. }
  apply (lands_either fits P slot G HG yes no 13 12 _ _ w1
    (λ w', same [] w1 w' ∧ carry (fl w') = (d <=? full) ∧ full < 65536)); [done|done|lia|lia|grow|grow|..].
  - intros Ht. unfold branch_taken in Ht. cbn [Z.eqb Pos.eqb] in Ht. rewrite Fc in Ht. apply Hsub; [lia|apply same_refl].
  - intros Ht. unfold branch_taken in Ht. cbn [Z.eqb Pos.eqb] in Ht. rewrite Fc in Ht.
    eapply (lands_lin fits Hwritable P slot G HG); [lin|exec|].
    rewrite F2, F3. rewrite (uwrap_small 16 full) by lia. split; [same|]. split; [apply compared_carry|lia].
  - intros w' (S' & Ec & Hlt) Ht. unfold branch_taken in Ht. cbn [Z.eqb Pos.eqb] in Ht. rewrite Ec in Ht.
    destruct (Hkeep w') as [K1 K2]; [eapply same_trans; [exact S1|eapply same_weaken; [exact S'|set_solver]]|].
    apply HQ; [done|done|..]; rewrite !(sm_reg _ _ _ S') by (lia || outside).
    + rewrite F1, Equo. replace (d <=? full) with false by lia. lia.
    + rewrite F2, Erem. replace (d <=? full) with false by lia. apply uwrap_small. lia.
  - intros w' (S' & Ec & _) Ht. unfold branch_taken in Ht. cbn [Z.eqb Pos.eqb] in Ht. rewrite Ec in Ht.
    apply Hsub; [lia|done].
Qed.

(** The sixteen rounds. *)
Lemma lands_rounds loop yes no w (Q : State → Prop) :
  loop ≠ "" → yes ≠ "" → no ≠ "" → 0 < get w 3 → get w 2 = 0 → get w 4 = 16 →
  (∀ w', same [1; 2; 4] w w' → get w' 1 = get w 1 / get w 3 → get w' 2 = get w 1 mod get w 3 → Q w') →
  lands (bindLabel loop >>
    ((double >> emitLocalJump v yes 13 >> (emitByte 0xb2 >> emitByte 0x3f >> emitByte 0x63) >> emitLocalJump v no 12 >>
         bindLabel yes >> subtract >> bindLabel no) >> emitByte 0xe4) >> emitLocalJump v loop 8) w Q.
Proof.
  intros Hl Hy Hn H3 H2 H4 HQ. apply lands_ok. intros Hok.
  pose proof (get_word w 1 Hok) as HX. pose proof (get_word w 3 Hok) as Hd. unfold word_ok in *.
  apply (lands_loop fits P slot G HG loop 8 _ (rounds_left w (get w 1) (get w 3)) w 15%nat); [done|lia|grow| |].
  - intros k w1 HI. apply (lands_then fits P slot G HG); [grow..|]. apply (lands_round yes no w (get w 1) (get w 3) k w1); try done; [lia|].
    intros w2 S2 F4 F1 F2. apply lands_ok. intros Hok2. pose proof (ok_length _ Hok2).
    eapply (lands_lin fits Hwritable P slot G HG); [lin|exec|].
    destruct HI as (_ & _ & Hk & _ & _).
    assert (u16 (get w2 4 - 1) = Z.of_nat k) as E by (rewrite uwrap_small; lia). rewrite E.
    unfold branch_taken. cbn [Z.eqb Pos.eqb fl zs put flagged zero]. split; intros Hb.
    + exists (k - 1)%nat. split; [lia|]. unfold rounds_left. gets. replace (Z.of_nat (k - 1) + 1) with (Z.of_nat k) by lia.
      split_and!; try done; [same|lia].
    + assert (k = 0%nat) as -> by lia. destruct (division_end (get w 1) (get w 3)) as [Er Eq].
      apply HQ; [same|gets; by rewrite F1|gets; by rewrite F2].
  - destruct (division_start (get w 1) (get w 3)) as [Er Eq]; [lia..|].
    split; [apply same_refl|]. change (Z.of_nat 15 + 1) with 16. rewrite Er, Eq. split_and!; try done.
Qed.

Lemma lands_negate w (Q : State → Prop) :
  ok w → (∀ w', same [0] w w' → get w' 0 = u16 (- get w 0) → Q w') → lands negate w Q.
Proof.
  intros Hok HQ. pose proof (ok_length _ Hok) as Hlen. pose proof (get_word w 0 Hok) as H0. unfold word_ok in H0.
  eapply (lands_lin fits Hwritable P slot G HG); [unfold negate; lin|exec|]. apply HQ; [same|]. gets.
  unfold uwrap. change (2 ^ 16) with 65536. zmod.
Qed.

(** [make_positive]: the magnitude of a register. *)
Lemma lands_positive r w (Q : State → Prop) :
  r = 1 ∨ r = 3 → (∀ w', same [0; r] w w' → get w' r = magnitude (get w r) → Q w') → lands (make_positive v r) w Q.
Proof.
  intros Hr HQ. apply lands_ok. intros Hok. pose proof (ok_length _ Hok) as Hlen. pose proof (get_word w r Hok) as Hx.
  assert (0 ≤ r < 15 ∧ r ≠ 0) as [Hr15 Hr0] by lia. unfold make_positive.
  set (body := emitMove v 0 r >> negate >> emitMove v r 0).
  apply (lands_label P slot G (λ positive, emitByte (Z.lor 0xb0 r) >> emitByte (Z.lor 0x10 r) >> emitByte 0x3e >> emitByte 0x50 >>
   emitLocalJump v positive 10 >> emitMove v 0 r >> negate >> emitMove v r 0 >> bindLabel positive)). intros positive Hp.
  apply (lands_ext P slot G _ ((emitByte (Z.lor 0xb0 r) >> emitByte (Z.lor 0x10 r) >> emitByte 0x3e >> emitByte 0x50) >>
    emitLocalJump v positive 10 >> body >> bindLabel positive)); [unfold body; regroup|].
  apply (lands_then fits P slot G HG); [grow..|].
  assert (∃ f, execs writable [From r; To r; Alt2; Add 0] plain w = Some (plain, put r (get w r) (flagged f w)) ∧ sign f = negative (get w r)) as (f & Hx' & Hs).
  { destruct Hr as [-> | ->]; (eexists; split; [repeat exec_step; cbn [execs]; rewrite !Z.add_0_r, (uwrap_small 16) by exact Hx; reflexivity|done]). }
  eapply (lands_lin fits Hwritable P slot G HG _ [From r; To r; Alt2; Add 0]); [destruct Hr as [-> | ->]; lin|exact Hx'|].
  set (w1 := put r _ _). assert (same [0; r] w w1) as S1 by (unfold w1; same). assert (get w1 r = get w r) as E1 by (unfold w1; by gets).
  apply (lands_unless fits P slot G HG); [done|lia|unfold body; grow| |]; intros Ht; unfold branch_taken in Ht;
    cbn [Z.eqb Pos.eqb fl put flagged w1] in Ht; rewrite Hs, negative_word in Ht by done.
  - apply HQ; [done|]. rewrite E1. unfold magnitude, signed16. replace (get w r <? 32768) with true by lia. unfold word_ok in Hx. lia.
  - apply (lands_then fits P slot G HG); [grow..|]. apply (lands_move fits Hwritable P slot G HG); [lia..|].
    apply lands_ok. intros Hok2. apply (lands_then fits P slot G HG); [grow..|]. apply lands_negate; [done|]. intros w2 S2 E2.
    apply lands_ok. intros Hok3. pose proof (ok_length _ Hok3) as Hlen3. apply (lands_move fits Hwritable P slot G HG); [lia..|].
    apply HQ.
    + apply same_put; [|lia|inside]. eapply same_trans; [exact S1|]. eapply same_trans; [|eapply same_weaken; [exact S2|set_solver]].
      same.
    + gets. rewrite E2. assert (length (regs w1) = 15%nat) by (unfold w1; wide). rewrite get_put, E1 by (lia || done).
      unfold magnitude, signed16, word_ok, uwrap in *. change (2 ^ 16) with 65536. replace (get w r <? 32768) with false by lia. zmod.
Qed.

Context (stack_limit : Z) (Hlimit : addresses (StackLimitPrefix +:+ pretty 2) = Some stack_limit).
Context (limit_range : 0 ≤ stack_limit < 65536).
Context (n : Z) (w0 : State) (Hroom : room stack_limit writable n w0) (Hlen0 : length (regs w0) = 15%nat).
Notation pushed := (pushed n w0).

Lemma lands_push_on l r w (Q : State → Prop) :
  pushed l w → zlen l < n → 0 ≤ r < 15 → r ∉ [3; 10] →
  (∀ w', keeps [3; 10] w w' → pushed (l ++ [get w r]) w' → Q w') → lands (emitPush v r) w Q.
Proof.
  intros Hp Hn Hr Hni HQ. apply lands_ok. intros Hok.
  apply (push_on stack_limit writable fits Hwritable P slot G HG Hlimit limit_range n w0 l r w); try done. by apply get_word.
Qed.
Lemma lands_pop_on l x r w (Q : State → Prop) :
  pushed (l ++ [x]) w → zlen l < n → 0 ≤ r < 15 → r ≠ 10 →
  (∀ w', keeps [r; 10] w w' → get w' r = x → pushed l w' → Q w') → lands (emitPop v r) w Q.
Proof. intros. by eapply (pop_on stack_limit writable fits Hwritable P slot G HG). Qed.

(** The signs of quotient and remainder, on the stack. *)
Lemma lands_push_signs l w (Q : State → Prop) :
  pushed l w → zlen l + 2 ≤ n →
  (∀ w', keeps [0; 3; 4; 6; 10] w w' → get w' 3 = get w 3 →
     pushed ((l ++ [sign_word (Z.lxor (get w 1) (get w 3))]) ++ [sign_word (get w 1)]) w' → Q w') →
  lands (push_signs v) w Q.
Proof.
  intros Hp Hn HQ. apply lands_ok. intros Hok. pose proof (ok_length _ Hok) as Hlen.
  apply (lands_ext P slot G _ ((emitMove v 4 3 >> emitRegisterLiteral v 6 0x8000 >> emitMove v 0 1 >> emitByte 0x3d >> emitByte 0xc3 >> emitByte 0x76) >>
    emitPush v 0 >> (emitMove v 3 4 >> emitMove v 0 1 >> emitByte 0x76) >> emitPush v 0 >> emitMove v 3 4)); [unfold push_signs; regroup|].
  apply (lands_then fits P slot G HG); [grow..|].
  eapply (lands_lin fits Hwritable P slot G HG); [lin|exec|]. set (w1 := put 0 _ _).
  assert (same [0; 4; 6] w w1) as S1 by (unfold w1; same).
  assert (get w1 0 = sign_word (Z.lxor (get w 1) (get w 3)) ∧ get w1 4 = get w 3 ∧ get w1 6 = 0x8000) as (E0 & E4 & E6)
    by (unfold w1, sign_word; split_and!; by gets).
  clearbody w1. apply (lands_then fits P slot G HG); [grow..|].
  apply (lands_push_on l 0 w1); [by eapply pushed_same; [exact Hp|exact S1|outside]|lia|lia|outside|].
  intros w2 K2 Hp2. rewrite E0 in Hp2. apply (lands_then fits P slot G HG); [grow..|]. apply lands_ok. intros Hok2. pose proof (ok_length _ Hok2) as Hlen2.
  eapply (lands_lin fits Hwritable P slot G HG); [lin|exec|]. set (w3 := put 0 _ _).
  assert (same [0; 3] w2 w3) as S3 by (unfold w3; same).
  assert (get w2 1 = get w 1 ∧ get w2 4 = get w 3 ∧ get w2 6 = 0x8000) as (F1 & F4 & F6).
  { rewrite !K2 by (lia || outside). split_and!; [|done|done]. by rewrite (sm_reg _ _ _ S1) by (lia || outside). }
  assert (get w3 0 = sign_word (get w 1) ∧ get w3 4 = get w 3) as (G0 & G4)
    by (unfold w3, sign_word; split; gets; rewrite ?F1, ?F6; done).
  clearbody w3. apply (lands_then fits P slot G HG); [grow..|].
  apply (lands_push_on (l ++ [sign_word (Z.lxor (get w 1) (get w 3))]) 0 w3);
    [by eapply pushed_same; [exact Hp2|exact S3|outside]|rewrite zlen_app; change (zlen [_]) with 1; lia|lia|outside|].
  intros w4 K4 Hp4. rewrite G0 in Hp4. apply lands_ok. intros Hok4. pose proof (ok_length _ Hok4) as Hlen4.
  assert (get w4 4 = get w 3) as H4 by (rewrite K4 by (lia || outside); done).
  apply (lands_move fits Hwritable P slot G HG); [lia..|]. apply HQ.
  - intros i Hi Hni. rewrite get_put_ne by (lia || (intros <-; apply Hni; inside)).
    rewrite K4, (sm_reg _ _ _ S3), K2, (sm_reg _ _ _ S1) by (lia || (outside)). done.
  - by rewrite get_put.
  - eapply pushed_same; [exact Hp4| |instantiate (1 := [3]); outside]. same.
Qed.

(** [restore]: negated where the sign says so. *)
Lemma lands_restore r w x (Q : State → Prop) :
  r = 3 ∨ r = 6 → get w r = x → word_ok x →
  (∀ w', same [0; 4] w w' → get w' 0 = (if x =? 0 then get w 0 else u16 (- get w 0)) → Q w') →
  lands (emitRegisterLiteral v 4 0 >> emitByte (if r =? 3 then 0xb3 else 0xb6) >> emitByte 0x3f >> emitByte 0x64 >>
         (λ g, let '(positive, g) := localLabel v g in
               (emitLocalJump v positive 9 >> negate >> bindLabel positive) g)) w Q.
Proof.
  intros Hr Ex Hx HQ. apply lands_ok. intros Hok. pose proof (ok_length _ Hok) as Hlen.
  apply (lands_ext P slot G _ ((emitRegisterLiteral v 4 0 >> emitByte (if r =? 3 then 0xb3 else 0xb6) >> emitByte 0x3f >> emitByte 0x64) >>
    (λ g, let '(positive, g) := localLabel v g in (emitLocalJump v positive 9 >> negate >> bindLabel positive) g))); [regroup|].
  apply (lands_then fits P slot G HG); [grow..|].
  assert (execs writable [literal_instr v 4 0; From r; Alt3; Sub 4] plain w = Some (plain, flagged (compared x 0) (put 4 0 w))) as Hex.
  { destruct Hr as [-> | ->]; repeat exec_step; cbn [execs]; gets; by rewrite Ex. }
  eapply (lands_lin fits Hwritable P slot G HG); [|exact Hex|]; [destruct Hr as [-> | ->]; cbn [Z.eqb Pos.eqb]; lin|].
  set (w1 := flagged _ _). assert (same [0; 4] w w1) as S1 by (unfold w1; same).
  assert (get w1 0 = get w 0) as E1 by (unfold w1; by gets).
  apply (lands_label P slot G (λ positive, emitLocalJump v positive 9 >> negate >> bindLabel positive)). intros positive Hp.
  apply (lands_unless fits P slot G HG); [done|lia|grow| |]; intros Ht; unfold branch_taken in Ht;
    cbn [Z.eqb Pos.eqb fl flagged w1] in Ht; rewrite compared_equal in Ht by done.
  - apply HQ; [done|]. by rewrite Ht.
  - apply lands_ok. intros Hok1. apply lands_negate; [done|]. intros w2 S2 E2. apply HQ.
    + eapply same_trans; [exact S1|]. eapply same_weaken; [exact S2|set_solver].
    + by rewrite Ht, E2, E1.
Qed.

(* ------------------------------------------------------------------ *)
(** ** The parts of the division *)

(** What is on the stack while a kernel plots. *)
Definition saved (plotting : bool) (w : State) : list Z := if plotting then [get w 1; get w 2] else [].

Definition divide_head (scratch : Z) (plotting : bool) : Gen → result Gen :=
  (if sizeOptimized v && negb plotting then emitMove v 3 scratch
   else emitMove v 4 scratch >> when plotting (emitPush v 1 >> emitPush v 2) >> emitMove v 3 4) >>
  emitMove v 1 0 >> emitRegisterLiteral v 6 0 >> emitByte 0xb3 >> emitByte 0x3f >> emitByte 0x66.

(** Dividend and divisor in their registers, and the test for zero. *)
Definition loaded (w : State) (x y : Z) (w' : State) : Prop :=
  keeps [1; 3; 4; 6; 10] w w' ∧ get w' 1 = x ∧ get w' 3 = y ∧ zero (fl w') = (y =? 0).

Lemma lands_test w w1 x y l (Q : State → Prop) :
  keeps [3; 4; 10] w w1 → get w 0 = x → get w1 3 = y → word_ok y → pushed l w1 →
  (∀ w', loaded w x y w' → pushed l w' → Q w') →
  lands (emitMove v 1 0 >> emitRegisterLiteral v 6 0 >> emitByte 0xb3 >> emitByte 0x3f >> emitByte 0x66) w1 Q.
Proof.
  intros K E0 E3 Hy Hp HQ. apply lands_ok. intros Hok. pose proof (ok_length _ Hok) as Hlen.
  eapply (lands_lin fits Hwritable P slot G HG); [lin|exec|]. set (w2 := flagged _ _).
  assert (same [1; 6] w1 w2) as S by (unfold w2; same).
  apply HQ; [|eapply pushed_same; [exact Hp|exact S|outside]].
  split; [|split; [|split]].
  - intros i Hi Hn. rewrite (sm_reg _ _ _ S) by (lia || outside). apply K; [lia|]. outside.
  - unfold w2. gets. by rewrite K by (lia || outside).
  - rewrite (sm_reg _ _ _ S) by (lia || outside). exact E3.
  - unfold w2. cbn [fl flagged]. gets. rewrite E3. by apply compared_equal.
Qed.

Lemma lands_head (plotting : bool) (Q : State → Prop) :
  let scratch := if plotting then 3 else 1 in
  zlen (saved plotting w0) ≤ n →
  (∀ w', loaded w0 (get w0 0) (get w0 scratch) w' → pushed (saved plotting w0) w' → Q w') →
  lands (divide_head scratch plotting) w0 Q.
Proof.
  intros scratch Hn HQ. apply lands_ok. intros Hok. pose proof (get_word w0 scratch Hok) as Hy. unfold divide_head.
  assert (0 ≤ scratch < 15) as Hs by (unfold scratch; destruct plotting; lia).
  destruct (sizeOptimized v && negb plotting) eqn:Hsz.
  - apply andb_true_iff in Hsz as [_ Hpl%negb_true_iff]. apply (lands_then fits P slot G HG); [grow..|].
    apply (lands_move fits Hwritable P slot G HG); [lia..|]. set (w1 := put 3 _ _).
    assert (same [3] w0 w1) as S by (unfold w1; same).
    apply (lands_test w0 w1 (get w0 0) (get w0 scratch) (saved plotting w0)); try done.
    + eapply keeps_weaken; [apply keeps_same, S|set_solver].
    + unfold w1. by gets.
    + rewrite Hpl. eapply pushed_same; [apply pushed_start|exact S|outside].
  - apply (lands_then fits P slot G HG); [grow..|]. apply (lands_then fits P slot G HG); [grow..|].
    apply (lands_move fits Hwritable P slot G HG); [lia..|]. set (w1 := put 4 _ _).
    assert (same [4] w0 w1) as S by (unfold w1; same). assert (get w1 4 = get w0 scratch) as E4 by (unfold w1; by gets). clearbody w1.
    assert (pushed [] w1) as Hp1 by (eapply pushed_same; [apply pushed_start|exact S|outside]).
    apply (lands_seq fits P slot G HG _ _ _ (λ w2, keeps [3; 4; 10] w0 w2 ∧ get w2 4 = get w0 scratch ∧ pushed (saved plotting w0) w2)); [grow..| |].
    + apply lands_when; intros ->; [|split; [eapply keeps_weaken; [apply keeps_same, S|set_solver]|done]].
      change (zlen (saved true w0)) with 2 in Hn.
      apply (lands_then fits P slot G HG); [grow..|]. apply (lands_push_on [] 1 w1); [done|unfold zlen; cbn [length]; lia|lia|outside|].
      intros w2 K2 Hp2. apply (lands_push_on ([] ++ [get w1 1]) 2 w2); [done|change (zlen _) with 1; lia|lia|outside|].
      intros w3 K3 Hp3. split_and!.
      * intros i Hi Hni. rewrite K3, K2, (sm_reg _ _ _ S) by (lia || outside). done.
      * rewrite K3, K2 by (lia || outside). done.
      * rewrite K2, !(sm_reg _ _ _ S) in Hp3 by (lia || outside). exact Hp3.
    + intros w2 (K2 & E2 & Hp2). apply lands_ok. intros Hok2. pose proof (ok_length _ Hok2) as Hlen2.
      apply (lands_move fits Hwritable P slot G HG); [lia..|]. set (w3 := put 3 _ _). assert (same [3] w2 w3) as S3 by (unfold w3; same).
      apply (lands_test w0 w3 (get w0 0) (get w0 scratch) (saved plotting w0)); try done.
      * eapply keeps_trans; [exact K2|]. eapply keeps_weaken; [apply keeps_same, S3|set_solver].
      * unfold w3. by gets.
      * eapply pushed_same; [exact Hp2|exact S3|outside].
Qed.

Definition divide_signs (signed : bool) : Gen → result Gen :=
  when signed (push_signs v >> make_positive v 1 >> make_positive v 3) >>
  emitRegisterLiteral v 2 0 >> emitRegisterLiteral v 4 16.

(** The state in which the rounds start. *)
Record started (signed : bool) (x y : Z) (l : list Z) (w : State) : Prop := {
  st_keeps : keeps [0; 1; 2; 3; 4; 6; 10] w0 w;
  st_dividend : get w 1 = operand signed x;
  st_divisor : get w 3 = operand signed y;
  st_remainder : get w 2 = 0;
  st_count : get w 4 = 16;
  st_pushed : pushed (l ++ signs signed x y) w
}.

Lemma lands_literals (signed : bool) x y l w (Q : State → Prop) :
  keeps [0; 1; 3; 4; 6; 10] w0 w → get w 1 = operand signed x → get w 3 = operand signed y → pushed (l ++ signs signed x y) w →
  (∀ w', started signed x y l w' → Q w') → lands (emitRegisterLiteral v 2 0 >> emitRegisterLiteral v 4 16) w Q.
Proof.
  intros K E1 E3 Hp HQ. apply lands_ok. intros Hok. pose proof (ok_length _ Hok) as Hlen.
  eapply (lands_lin fits Hwritable P slot G HG); [lin|exec|]. set (w1 := put 4 _ _).
  assert (same [2; 4] w w1) as S by (unfold w1; same). apply HQ. split.
  - intros i Hi Hn. rewrite (sm_reg _ _ _ S) by (lia || outside). apply K; [lia|]. outside.
  - by rewrite (sm_reg _ _ _ S) by (lia || outside).
  - by rewrite (sm_reg _ _ _ S) by (lia || outside).
  - unfold w1. by gets.
  - unfold w1. by gets.
  - eapply pushed_same; [exact Hp|exact S|outside].
Qed.

Lemma lands_signs (signed : bool) x y l w (Q : State → Prop) :
  zlen l + (if signed then 2 else 0) ≤ n → loaded w0 x y w → pushed l w →
  (∀ w', started signed x y l w' → Q w') → lands (divide_signs signed) w Q.
Proof.
  intros Hn (K & E1 & E3 & _) Hp HQ. unfold divide_signs. apply (lands_then fits P slot G HG); [grow..|].
  apply lands_when; intros ->; [|apply (lands_literals false x y l); try done;
    [eapply keeps_weaken; [exact K|set_solver]|cbn; by rewrite app_nil_r]].
  apply (lands_then fits P slot G HG); [grow..|]. apply (lands_push_signs l w); [done|done|].
  intros w1 K1 F3 Hp1. rewrite E1, E3 in *. apply (lands_then fits P slot G HG); [grow..|].
  apply (lands_positive 1 w1); [by left|]. intros w2 S2 F1. apply (lands_positive 3 w2); [by right|]. intros w3 S3 G3.
  apply (lands_literals true x y l w3); [..|done].
  - intros i Hi Hni. rewrite (sm_reg _ _ _ S3), (sm_reg _ _ _ S2), K1 by (lia || outside). apply K; [lia|]. outside.
  - rewrite (sm_reg _ _ _ S3), F1, K1 by (lia || outside). by rewrite E1.
  - rewrite G3, (sm_reg _ _ _ S2), F3 by (lia || outside). done.
  - eapply pushed_same; [eapply pushed_same; [|exact S2|outside]|exact S3|outside]. by rewrite <- app_assoc in Hp1.
Qed.

(** The result in R0, with its sign, and what was saved. *)
Definition divide_tail (division signed plotting : bool) : Gen → result Gen :=
  emitMove v 0 (if division then 1 else 2) >>
  when signed
    (emitPop v 6 >> emitPop v 3 >> emitRegisterLiteral v 4 0 >> emitByte (if division then 0xb3 else 0xb6) >>
     emitByte 0x3f >> emitByte 0x64 >>
     (λ g, let '(positive, g) := localLabel v g in
           (emitLocalJump v positive 9 >> negate >> bindLabel positive) g)) >>
  when plotting (emitPop v 2 >> emitPop v 1).

Definition part (division : bool) (X d : Z) : Z := if division then X / d else X mod d.
Definition divided (division signed : bool) (x y : Z) : Z :=
  let m := part division (operand signed x) (operand signed y) in
  if signed then if sign_word (if division then Z.lxor x y else x) =? 0 then m else u16 (- m) else m.

(** After the rounds. *)
Record rounded (signed : bool) (x y : Z) (l : list Z) (w : State) : Prop := {
  ro_keeps : keeps [0; 1; 2; 3; 4; 6; 10] w0 w;
  ro_quotient : get w 1 = operand signed x / operand signed y;
  ro_remainder : get w 2 = operand signed x mod operand signed y;
  ro_pushed : pushed (l ++ signs signed x y) w
}.

(** The end of a division: its result, and the registers it leaves. *)
Definition finished (plotting : bool) (r : Z) (w' : State) : Prop :=
  get w' 0 = r ∧ pushed [] w' ∧ keeps (if plotting then [0; 3; 4; 6; 10] else [0; 1; 2; 3; 4; 6; 10]) w0 w'.

Lemma lands_signed (division : bool) x y l w (Q : State → Prop) :
  word_ok x → word_ok y → zlen l + 2 ≤ n → keeps [0; 1; 2; 3; 4; 6; 10] w0 w →
  get w 0 = part division (magnitude x) (magnitude y) → pushed (l ++ signs true x y) w →
  (∀ w', keeps [0; 1; 2; 3; 4; 6; 10] w0 w' → get w' 0 = divided division true x y → pushed l w' → Q w') →
  lands (emitPop v 6 >> emitPop v 3 >> emitRegisterLiteral v 4 0 >> emitByte (if division then 0xb3 else 0xb6) >>
     emitByte 0x3f >> emitByte 0x64 >>
     (λ g, let '(positive, g) := localLabel v g in
           (emitLocalJump v positive 9 >> negate >> bindLabel positive) g)) w Q.
Proof.
  intros Hx Hy Hn K E0 Hp HQ. pose proof (zlen_nonneg l). cbn [signs] in Hp.
  change (l ++ [sign_word (Z.lxor x y); sign_word x]) with (l ++ [sign_word (Z.lxor x y)] ++ [sign_word x]) in Hp. rewrite app_assoc in Hp.
  apply (lands_then fits P slot G HG); [grow..|].
  apply (lands_pop_on _ _ 6 w _ Hp); [rewrite zlen_app; unfold zlen in *; cbn [length]; lia|lia|lia|]. intros w1 K1 F6 Hp1.
  apply (lands_then fits P slot G HG); [grow..|].
  apply (lands_pop_on _ _ 3 w1 _ Hp1); [lia|lia|lia|]. intros w2 K2 F3 Hp2.
  assert (get w2 6 = sign_word x) as F6' by (rewrite K2 by (lia || outside); done).
  pose proof (lands_restore (if division then 3 else 6) w2 (if division then sign_word (Z.lxor x y) else sign_word x) Q) as Hres.
  replace ((if division then 3 else 6) =? 3) with division in Hres by (by destruct division).
  apply Hres; [destruct division; auto|by destruct division|destruct division; apply sign_word_ok; by try apply lxor_word|].
  intros w3 S3 G0. apply HQ.
  - intros i Hi Hni. rewrite (sm_reg _ _ _ S3), K2, K1 by (lia || outside). apply K; [lia|]. outside.
  - rewrite G0, K2, K1, E0 by (lia || outside). unfold divided. by destruct division.
  - eapply pushed_same; [exact Hp2|exact S3|outside].
Qed.

Lemma lands_tail (division signed plotting : bool) x y w (Q : State → Prop) :
  word_ok x → word_ok y → zlen (saved plotting w0) + (if signed then 2 else 0) ≤ n →
  rounded signed x y (saved plotting w0) w → (∀ w', finished plotting (divided division signed x y) w' → Q w') →
  lands (divide_tail division signed plotting) w Q.
Proof.
  intros Hx Hy Hn [K E1 E2 Hp] HQ. apply lands_ok. intros Hok. pose proof (ok_length _ Hok) as Hlen.
  unfold divide_tail. apply (lands_then fits P slot G HG); [grow..|].
  apply (lands_move fits Hwritable P slot G HG); [lia|destruct division; lia|]. set (w1 := put 0 _ _).
  assert (same [0] w w1) as S1 by (unfold w1; same).
  assert (get w1 0 = part division (operand signed x) (operand signed y)) as F0 by (unfold w1; gets; by destruct division). clearbody w1.
  assert (keeps [0; 1; 2; 3; 4; 6; 10] w0 w1) as K1.
  { eapply keeps_trans; [exact K|]. eapply keeps_weaken; [apply keeps_same, S1|set_solver]. }
  assert (pushed (saved plotting w0 ++ signs signed x y) w1) as Hp1 by (eapply pushed_same; [exact Hp|exact S1|outside]).
  apply (lands_seq fits P slot G HG _ _ _ (λ w2, keeps [0; 1; 2; 3; 4; 6; 10] w0 w2 ∧ get w2 0 = divided division signed x y
    ∧ pushed (saved plotting w0) w2)); [grow..| |].
  { apply lands_when; intros ->.
    - by apply (lands_signed division x y (saved plotting w0) w1).
    - rewrite app_nil_r in Hp1. split_and!; done. }
  intros w2 (K2 & F2 & Hp2). apply lands_when; intros ->; [|apply HQ; by split_and!].
  change (saved true w0) with ([get w0 1] ++ [get w0 2]) in Hp2. change (zlen (saved true w0)) with 2 in Hn.
  assert (2 ≤ n) by (destruct signed; lia).
  apply (lands_then fits P slot G HG); [grow..|].
  apply (lands_pop_on _ _ 2 w2 _ Hp2); [unfold zlen; cbn [length]; lia|lia|lia|]. intros w3 K3 G2 Hp3.
  apply (lands_pop_on [] _ 1 w3 _ Hp3); [unfold zlen; cbn [length]; lia|lia|lia|]. intros w4 K4 G1 Hp4.
  apply HQ. split_and!; [by rewrite K4, K3 by (lia || outside)|done|].
  intros i Hi Hni. destruct (decide (i = 1)) as [->|]; [done|]. destruct (decide (i = 2)) as [->|]; [by rewrite K4 by (lia || outside)|].
  rewrite K4, K3 by (lia || outside). apply K2; [lia|]. outside.
Qed.
End Division.

(* ------------------------------------------------------------------ *)
(** ** The delay slot of the guard *)

Lemma guard_unpatched v c fault g g' : emitGuard v c fault g = Ok g' → 0 ≤ fault < 65536 →
  g_fixups g' = g_fixups g ∧ g_relocations g' = g_relocations g ∧ here g + 3 ≤ here g'.
Proof.
  intros H Hf. unfold emitGuard in H.
  assert (∀ d k, appends (emitByte d >> emitByte k >> emitByte 1) [u8 d; u8 k; u8 1]) as Hthree.
  { intros d k. apply (appends_andthen _ _ [_] [_; _] (appends_byte d)). apply (appends_andthen _ _ [_] [_]); apply appends_byte. }
  set (fresh := emitByte c >> _) in H.
  assert (fresh g = Ok g' → g_fixups g' = g_fixups g ∧ g_relocations g' = g_relocations g ∧ here g + 3 ≤ here g') as Hfresh.
  { intros H'. unfold fresh in H'.
    assert (((emitByte c >> emitByte (if optimized v && ((fault <=? 127) || (0xff80 <=? fault)) then 5 else 6) >> emitByte 1)
             >> emitAddressFault v fault) g = Ok g') as H2 by (rewrite <- H'; by rewrite !andthen_assoc).
    apply andthen_ok in H2 as (g1 & H1 & H2). apply Hthree in H1. apply emitAddressFault_ok in H2; [|done].
    pose proof (plain_here _ _ _ H1) as E1. pose proof (plain_here _ _ _ H2) as E2. change (zlen _) with 3 in E1.
    assert (here (records v fault (here g1) g1) = here g1) as Er by (unfold records; by destruct (globallyOptimized v)).
    pose proof (zlen_nonneg (island v fault)). destruct H1 as [_ _ F1 R1 _ _], H2 as [_ _ F2 R2 _ _].
    split_and!; [| |lia]; unfold records in *; destruct (globallyOptimized v); cbn in *; congruence. }
  destruct (g_faults g !! fault); [|by apply Hfresh]. destruct (_ && _ && _ && _ && _); [|by apply Hfresh].
  apply Hthree in H. pose proof (plain_here _ _ _ H) as E. change (zlen _) with 3 in E. destruct H as [_ _ F R _ _].
  split_and!; [done|done|lia].
Qed.

Lemma setByte_wf v k g1 g2 :
  setByte k 2 g1 = Ok g2 → Wf v g1 → clear v (Some k) g1 → Wf v g2 ∧ here g2 = here g1 ∧ g_plotting g2 = g_plotting g1.
Proof.
  intros (c & Hc & H)%result_bind_ok Hw Hcl. injection H as <-. apply set_at_ok in Hc as [Hk ->].
  assert (here (with_object (<[Z.to_nat k:=2]> (g_code g1)) (g_symbols g1) (g_relocations g1) g1) = here g1) as Eh
    by (unfold here, zlen; cbn; by rewrite length_insert).
  split; [|done]. destruct Hw as [W1 W2 W3 W4 W5 W6]. split; rewrite ?Eh; try done.
  intros fault p Hp. destruct (W6 fault p Hp) as (H0 & Hf & Hi). split; [done|]. split; [done|].
  intros j b Hj. destruct (Hi j b Hj) as [Hb Hn]. split; [|done]. cbn [g_code with_object].
  rewrite list_lookup_insert_ne; [done|]. intros E. pose proof (Hcl k fault p eq_refl Hp ltac:(lia)).
  apply lookup_lt_Some in Hj. unfold zlen in *. lia.
Qed.

(** ** The parts are the whole *)

Definition divide_rounds (v : Env) (loop yes no : string) : Gen → result Gen :=
  bindLabel loop >>
    ((double >> emitLocalJump v yes 13 >> (emitByte 0xb2 >> emitByte 0x3f >> emitByte 0x63) >> emitLocalJump v no 12 >>
         bindLabel yes >> subtract >> bindLabel no) >> emitByte 0xe4) >> emitLocalJump v loop 8.

Lemma rounds_regroup v loop yes no : ∀ h,
  (bindLabel loop >>
   emitByte 0xb1 >> emitByte 0x11 >> emitByte 0x51 >>
   emitByte 0xb2 >> emitByte 0x12 >> emitByte 0x3d >> emitByte 0x52 >>
   emitLocalJump v yes 13 >>
   emitByte 0xb2 >> emitByte 0x3f >> emitByte 0x63 >>
   emitLocalJump v no 12 >>
   bindLabel yes >>
   emitByte 0xb2 >> emitByte 0x12 >> emitByte 0x63 >>
   emitByte 0xd1 >>
   bindLabel no >>
   emitByte 0xe4 >>
   emitLocalJump v loop 8) h = divide_rounds v loop yes no h.
Proof. unfold divide_rounds, double, subtract. regroup. Qed.

Lemma division_loop_split v prepare g g' :
  division_loop v prepare g = Ok g' → ∃ loop yes no g2, loop ≠ "" ∧ yes ≠ "" ∧ no ≠ "" ∧
    prepare (with_labels (g_label_serial g + 1 + 1 + 1) g) = Ok g2 ∧ divide_rounds v loop yes no g2 = Ok g'.
Proof.
  intros H. unfold division_loop in H. cbn [localLabel] in H.
  apply andthen_ok in H as (g2 & H1 & H2). do 3 eexists. exists g2.
  split; [|split; [|split; [|split; [exact H1|]]]]; [..|rewrite <- H2; symmetry; apply rounds_regroup]; done.
Qed.

Definition cached_loop (v : Env) : bool := globallyOptimized v && negb (e_manual_cache v).

Lemma kernel_regroup (o m l b1 b2 b3 f f' t s p : Gen → result Gen) g :
  (∀ h, f h = f' h) →
  ((o >> m >> l >> b1 >> b2 >> b3) >> f >> t >> s >> p) g =
  (o >> m >> l >> b1 >> b2 >> b3 >> f' >> when true t >> s >> when false skip >> p) g.
Proof.
  intros Hf. change (when true t) with t. change (when false skip) with skip. unfold skip. revert g. unfold andthen. intros g.
  destruct (o g) as [g1|]; [|done]. cbn. destruct (m g1) as [g2|]; [|done]. cbn. destruct (l g2) as [g3|]; [|done]. cbn.
  destruct (b1 g3) as [g4|]; [|done]. cbn. destruct (b2 g4) as [g5|]; [|done]. cbn. destruct (b3 g5) as [g6|]; [|done]. cbn.
  rewrite Hf. destruct (f' g6) as [g7|]; [|done]. cbn. destruct (t g7) as [g8|]; [|done]. cbn. by destruct (s g8).
Qed.

Lemma emit_division_split v i g g' :
  emit_division v i g = Ok g' → is_divmod i = false →
  let plotting := g_plotting g in let signed := negb (is_unsigned (i_type i)) in
  ∃ ga gb gc g2 g3 loop yes no, loop ≠ "" ∧ yes ≠ "" ∧ no ≠ "" ∧
    divide_head (v:=v) (if plotting then 3 else 1) plotting g = Ok ga ∧ emitGuard v 8 6 ga = Ok gb ∧
    divide_signs (v:=v) signed gb = Ok gc ∧
    when (cached_loop v) (setByte (here ga + 2) 2) (with_labels (g_label_serial gc + 1 + 1 + 1) gc) = Ok g2 ∧
    divide_rounds v loop yes no g2 = Ok g3 ∧ divide_tail (v:=v) (String.eqb (i_operation i) "/") signed plotting g3 = Ok g'.
Proof.
  intros H Hd plotting signed.
  assert ((divide_head (v:=v) (if plotting then 3 else 1) plotting >>
    (λ g, (emitGuard v 8 6 >> divide_signs (v:=v) signed >> division_loop v (when (cached_loop v) (setByte (here g + 2) 2))) g) >>
    divide_tail (v:=v) (String.eqb (i_operation i) "/") signed plotting) g = Ok g') as H'.
  { rewrite <- H. unfold emit_division, divide_head, divide_signs, divide_tail, scratchRegister. rewrite Hd.
    fold plotting. fold signed. apply kernel_regroup. intros h. fold (cached_loop v).
    generalize (division_loop v (when (cached_loop v) (setByte (here h + 2) 2))). intros k. revert h. regroup. }
  apply andthen_ok in H' as (ga & Ha & H'). apply andthen_ok in H' as (g3 & Hm & Ht). cbv beta in Hm.
  apply andthen_ok in Hm as (gb & Hb & Hm). apply andthen_ok in Hm as (gc & Hc & Hl).
  apply division_loop_split in Hl as (loop & yes & no & g2 & H1 & H2 & H3 & Hp & Hr).
  exists ga, gb, gc, g2, g3, loop, yes, no. split_and!; done.
Qed.

Lemma labels_extends k g : Extends g (with_labels k g).
Proof. split; try done; [..|by left]; (exists []; rewrite app_nil_r; split; [done|set_solver]). Qed.
Lemma labels_wf v k g : Wf v g → Wf v (with_labels k g).
Proof. by intros []. Qed.

Section Whole.
Context {code : list Z} {origin program_bank : Z} {rom : Memory} (fits : Fits code origin program_bank).
Context {base : nat} {labels addresses : string → option Z} {v : Env} {writable : Z → bool}.
Context (Hwritable : ∀ i, writable i = true → 0 ≤ i < RamSize ∧ ¬ occupied code origin program_bank i).
Context (P : Machine → Prop).
Context (stack_limit : Z) (Hlimit : addresses (StackLimitPrefix +:+ pretty 2) = Some stack_limit).
Context (limit_range : 0 ≤ stack_limit < 65536).
Notation goes := (goes code origin program_bank rom P).
Notation Realizes := (Realizes code origin base labels addresses).

(** The states between the parts, up to the rounds. *)
Lemma division_states signed scratch plotting g ga gb gc g2 g3 loop yes no :
  divide_head (v:=v) scratch plotting g = Ok ga → emitGuard v 8 6 ga = Ok gb → divide_signs (v:=v) signed gb = Ok gc →
  when (cached_loop v) (setByte (here ga + 2) 2) (with_labels (g_label_serial gc + 1 + 1 + 1) gc) = Ok g2 →
  divide_rounds v loop yes no g2 = Ok g3 → Wf v g → here g3 < 65536 →
  let slot := if cached_loop v then Some (here ga + 2) else None in
  Wf v ga ∧ Wf v gb ∧ Wf v g2 ∧ Wf v g3 ∧ Extends ga gc ∧ Extends gb gc ∧ Extends g2 g3 ∧
  clear v slot g ∧ clear v slot ga ∧ clear v slot gb ∧
  away slot g ga ∧ (∀ p, slot = Some p → p = here ga + 2) ∧ here ga + 3 ≤ here gb ∧
  at_ base g2 = at_ base gc ∧ (Realizes None g2 → Realizes slot gc).
Proof.
  intros Ha Hb Hc Hs Hr Hw Hlt slot.
  assert (grows v (divide_head (v:=v) scratch plotting)) as Gh by (unfold divide_head; grow).
  assert (grows v (divide_signs (v:=v) signed)) as Gs by (unfold divide_signs; grow).
  assert (grows v (divide_rounds v loop yes no)) as Gr by (unfold divide_rounds; grow).
  assert (grows v (emitGuard v 8 6)) as Gg by (apply grows_guard; lia).
  destruct (guard_unpatched _ _ _ _ _ Hb ltac:(lia)) as (Fx & Rl & Hh).
  destruct (Gh _ _ Ha) as [L1 X1], (Gg _ _ Hb) as [L2 X2], (Gs _ _ Hc) as [L3 X3], (Gr _ _ Hr) as [L4 X4].
  set (g1 := with_labels _ gc) in *.
  assert (∀ p, slot = Some p → p = here ga + 2) as Hslot by (unfold slot; intros p Hp; destruct (cached_loop v); [by injection Hp|done]).
  assert (here g2 = here g1 ∧ (Wf v g1 → clear v slot g1 → Wf v g2)) as [E2 W2].
  { unfold slot, when in *. destruct (cached_loop v); [|by injection Hs as <-]. split.
    - unfold setByte in Hs. apply result_bind_ok in Hs as (c & Hc' & [= <-]). apply set_at_ok in Hc' as [_ ->].
      unfold here, zlen. cbn. by rewrite length_insert.
    - intros W C. by apply (setByte_wf v _ g1 g2 Hs W C). }
  change (here g1) with (here gc) in E2. destruct (X1 Hw ltac:(lia)) as [Xa Wa]. destruct (X2 Wa ltac:(lia)) as [Xb Wb].
  destruct (X3 Wb ltac:(lia)) as [Xc Wc].
  assert (clear v slot gb) as Cb by (eapply guard_clear; [exact Hb|done|lia|lia|]; intros p Hp; symmetry; by apply Hslot).
  assert (clear v slot gc) as Cc by (eapply clear_extends; [exact Xc|done|]; intros p Hp; rewrite (Hslot p Hp); lia).
  specialize (W2 (labels_wf v _ gc Wc) Cc). destruct (X4 W2 Hlt) as [Xd Wd].
  split_and!; try done.
  - by eapply extends_trans.
  - eapply clear_start; [done|]. intros p Hp. rewrite (Hslot p Hp). lia.
  - eapply clear_start; [done|]. intros p Hp. rewrite (Hslot p Hp). lia.
  - intros p Hp. rewrite (Hslot p Hp). right. lia.
  - unfold at_, here, zlen in *. lia.
  - intros HR. unfold slot, when in *. destruct (cached_loop v) eqn:Ec.
    + unfold setByte in Hs. apply result_bind_ok in Hs as (c & Hc' & Hs). injection Hs as <-.
      apply (realizes_slot code origin base labels addresses (here ga + 2) gc c Hc'); [|by destruct HR].
      intros Hpa. apply (extends_patched gb gc _ Xc) in Hpa; [|lia].
      apply (wf_unpatched v ga (here ga + 2) Wa); [lia|]. unfold patched in *. by rewrite Fx, Rl in Hpa.
    + injection Hs as <-. by destruct HR.
Qed.

Lemma run_division i g g' G w :
  emit_division v i g = Ok g' → is_divmod i = false → Wf v g → Extends g' G → Realizes None G →
  let plotting := g_plotting g in let signed := negb (is_unsigned (i_type i)) in
  let y := get w (if plotting then 3 else 1) in
  let n := (if plotting then 2 else 0) + (if signed then 2 else 0) in
  room stack_limit writable n w →
  (y ≠ 0 → ∀ w', finished n w plotting (divided (String.eqb (i_operation i) "/") signed (get w 0) y) w' → goes (at_ base g') plain w') →
  (y = 0 → ∀ m, pipeline m = 0 → get (sees m) 6 = 6 → P m) → goes (at_ base g) plain w.
Proof.
  intros H Hd Hw HX HG plotting signed y n Hroom Hgo Hout Hok.
  pose proof (ok_length _ Hok) as Hlen. pose proof (get_word w 0 Hok) as Hx. pose proof (get_word w (if plotting then 3 else 1) Hok) as Hy.
  fold y in Hy. assert (zlen (saved plotting w) = if plotting then 2 else 0) as Hsv by (unfold saved; by destruct plotting).
  assert (zlen (saved plotting w) + (if signed then 2 else 0) = n) as Hsum by (by rewrite Hsv).
  destruct (emit_division_split v i g g' H Hd) as (ga & gb & gc & g2 & g3 & loop & yes & no & Hl & Hye & Hno & Ha & Hb & Hc & Hs & Hr & Ht).
  fold plotting signed in Ha, Hc, Ht.
  assert (grows v (divide_tail (v:=v) (String.eqb (i_operation i) "/") signed plotting)) as Gt by (unfold divide_tail; grow).
  pose proof (realizes_bound code origin program_bank fits base labels addresses None G HG) as HbG. pose proof (extends_here _ _ HX) as HleG.
  destruct (Gt _ _ Ht) as [Lt Xt].
  destruct (division_states signed _ plotting g ga gb gc g2 g3 loop yes no Ha Hb Hc Hs Hr Hw ltac:(lia))
    as (Wa & Wb & W2 & W3 & Xac & Xbc & X23 & Cg & Ca & Cb & Aga & Hslot & Hh & Eat & Hreal).
  set (slot := if cached_loop v then Some (here ga + 2) else None) in *.
  destruct (Xt W3 ltac:(lia)) as [X3 _]. assert (Extends g3 G) as X3G by by eapply extends_trans.
  assert (Realizes None g2) as R2 by (eapply realizes_extends; [|exact HG]; by eapply extends_trans).
  pose proof (Hreal R2) as Rc. revert Hok.
  apply (lands_head (v:=v) fits Hwritable P slot gc Rc stack_limit Hlimit limit_range n w Hroom Hlen plotting
           (λ w1, goes (at_ base ga) plain w1)) with (g' := ga); try done; [destruct signed; lia|].
  intros w1 Hld Hp1. fold y in Hld.
  apply (run_guard code origin program_bank rom fits base labels addresses v writable Hwritable P slot 8 6 ga gb w1 Hb); try done.
  { by eapply realizes_extends. }
  { intros p Hp. rewrite (Hslot p Hp). lia. }
  all: unfold branch_taken; cbn [Z.eqb Pos.eqb]; destruct Hld as (K1 & E1 & E3 & Ez); rewrite Ez; intros Htk.
  2: { intros m Hm Hsee. apply Hout; [lia|done|]. rewrite Hsee. destruct (decide (length (regs w1) = 15%nat)) as [Hl1|Hl1]; [by gets|].
       exfalso. apply Hl1. rewrite (pu_length _ _ _ _ Hp1). done. }
  apply (lands_signs (v:=v) fits Hwritable P slot gc Rc stack_limit Hlimit limit_range n w Hroom Hlen signed (get w 0) y (saved plotting w) w1
           (λ w2, goes (at_ base gc) plain w2)) with (g' := gc); try done;
    [lia| |apply extends_refl|intros p Hp; rewrite (Hslot p Hp); lia].
  intros w2 [K2 F1 F3 F2 F4 Hp2]. rewrite <- Eat.
  assert (0 < operand signed y) as Hdpos by (unfold operand, word_ok in *; destruct signed; [apply magnitude_zero; unfold word_ok|]; lia).
  apply (lands_rounds (v:=v) fits Hwritable P None G HG loop yes no w2 (λ w3, goes (at_ base g3) plain w3)) with (g' := g3); try done; [lia|].
  intros w3 S3 G1 G2. rewrite F1, F3 in *.
  apply (lands_tail (v:=v) fits Hwritable P None G HG stack_limit Hlimit limit_range n w Hroom Hlen (String.eqb (i_operation i) "/") signed plotting
           (get w 0) y w3 (λ w4, goes (at_ base g') plain w4)) with (g' := g'); try done; [lia| |].
  { split; [|done|done|by eapply pushed_same; [exact Hp2|exact S3|outside]].
    eapply keeps_trans; [exact K2|]. eapply keeps_weaken; [apply keeps_same, S3|set_solver]. }
  intros w4 Hfin. apply Hgo; [lia|done].
Qed.

End Whole.

(** The generator stays well formed. *)
Lemma division_wf v i g g' :
  emit_division v i g = Ok g' → is_divmod i = false → Wf v g → here g' < 65536 → Wf v g'.
Proof.
  intros H Hd Hw Hlt.
  destruct (emit_division_split v i g g' H Hd) as (ga & gb & gc & g2 & g3 & loop & yes & no & Hl & Hye & Hno & Ha & Hb & Hc & Hs & Hr & Ht).
  assert (grows v (divide_tail (v:=v) (String.eqb (i_operation i) "/") (negb (is_unsigned (i_type i))) (g_plotting g))) as Gt by (unfold divide_tail; grow).
  destruct (Gt _ _ Ht) as [Lt Xt].
  destruct (division_states (code:=[]) (origin:=0) (base:=0%nat) (labels:=λ _, None) (addresses:=λ _, None) _ _ _ g ga gb gc g2 g3 loop yes no Ha Hb Hc Hs Hr Hw ltac:(lia)) as (_ & _ & _ & W3 & _).
  by apply Xt.
Qed.
