(* ===== verification/ArithRun.v ===== *)
(** * ArithRun: the integer kernels against the constant folder

    What the code emitted for a shift or a division leaves in R0 is what
    [IRScalarFold] folds the same operation to; where the folder declines (a
    shift count outside 0 to 15, a zero divisor) the machine stops with the
    fault in R6.  [Placed] ties the emitted code to a payload: the function's
    branches patched by [patchBranches], the rest linked. *)

From S2P Require Import Prelude Target Types Token IR Object ScalarFold Machine MachineRun StartupRun Boot Isa Gen GenInt GenRun GenFlow GenPatch GenStack ShiftRun DivRun.

(* ------------------------------------------------------------------ *)
(** ** Values *)

Lemma quot_signs a b : b ≠ 0 → Z.quot a b = (if Bool.eqb (0 <=? a) (0 <=? b) then Z.abs a / Z.abs b else - (Z.abs a / Z.abs b)).
Proof.
  intros Hb. rewrite (Z.quot_div a b) by done.
  destruct (Z.leb_spec 0 a), (Z.leb_spec 0 b); cbn [Bool.eqb];
    repeat match goal with
    | H : 0 ≤ ?x |- _ => destruct (Z.eq_dec x 0) as [->|]; [|rewrite (Z.sgn_pos x) by lia]; clear H
    | H : ?x < 0 |- _ => rewrite (Z.sgn_neg x) by lia; clear H
    end; cbn [Z.sgn Z.abs]; rewrite ?Z.div_0_l by lia; lia.
Qed.
Lemma rem_signs a b : b ≠ 0 → Z.rem a b = (if 0 <=? a then Z.abs a mod Z.abs b else - (Z.abs a mod Z.abs b)).
Proof.
  intros Hb. rewrite (Z.rem_mod a b) by done. destruct (Z.leb_spec 0 a).
  - destruct (Z.eq_dec a 0) as [->|]; [cbn; by rewrite Z.mod_0_l by lia|]. rewrite (Z.sgn_pos a) by lia. lia.
  - rewrite (Z.sgn_neg a) by lia. lia.
Qed.

Lemma sign_of a : -32768 ≤ a < 32768 → (u16 a <? 32768) = (0 <=? a).
Proof. intros. unfold uwrap. change (2 ^ 16) with 65536. destruct (Z.leb_spec 0 a); apply Bool.eq_iff_eq_true; rewrite ?Z.ltb_lt; zmod. Qed.
Lemma magnitude_u16 a : -32768 ≤ a < 32768 → magnitude (u16 a) = Z.abs a.
Proof. intros. unfold magnitude. by rewrite signed16_u16. Qed.

Lemma divided_signed division a b : -32768 ≤ a < 32768 → -32768 ≤ b < 32768 → b ≠ 0 →
  divided division true (u16 a) (u16 b) = u16 (if division then Z.quot a b else Z.rem a b).
Proof.
  intros Ha Hb Hn. unfold divided, operand, part. rewrite !magnitude_u16 by done.
  assert (0 ≤ Z.abs a mod Z.abs b < 32768 ∨ 0 ≤ Z.abs a mod Z.abs b ≤ 32768) as Hm by (pose proof (Z.mod_pos_bound (Z.abs a) (Z.abs b)); lia).
  assert (0 ≤ Z.abs a / Z.abs b ≤ 32768) as Hq by (split; [apply Z.div_pos; lia|apply Z.div_le_upper_bound; nia]).
  destruct division.
  - rewrite sign_word_xor, !sign_of, quot_signs by (done || apply u16_range). destruct (Bool.eqb _ _); [|done]. rewrite uwrap_small; lia.
  - rewrite sign_word_zero, sign_of, rem_signs by (done || apply u16_range). destruct (0 <=? a); [|done]. rewrite uwrap_small; lia.
Qed.
Lemma divided_unsigned division a b : 0 ≤ a < 65536 → 0 < b < 65536 →
  divided division false (u16 a) (u16 b) = u16 (if division then Z.quot a b else Z.rem a b).
Proof.
  intros Ha Hb. unfold divided, operand, part. rewrite !(uwrap_small 16 a), !(uwrap_small 16 b) by lia.
  rewrite Z.quot_div_nonneg, Z.rem_mod_nonneg by lia. destruct division; rewrite uwrap_small; try done.
  - split; [apply Z.div_pos; lia|apply Z.div_lt_upper_bound; nia].
  - pose proof (Z.mod_pos_bound a b). lia.
Qed.

(** A shift and its value. *)
Lemma shifted_value left (unsigned : bool) a k : (if unsigned then 0 ≤ a < 65536 else -32768 ≤ a < 32768) → 0 ≤ k →
  shifted left unsigned (u16 a) k = u16 (if left then u16 a * 2 ^ k else Z.shiftr a k).
Proof.
  intros Ha Hk. unfold shifted. destruct left; [done|]. rewrite Z.shiftr_div_pow2 by lia. assert (0 < 2 ^ k) by lia. destruct unsigned.
  - rewrite (uwrap_small 16 a) by lia. rewrite uwrap_small; [done|]. split; [apply Z.div_pos; lia|apply Z.div_lt_upper_bound; nia].
  - by rewrite signed16_u16.
Qed.

(** A word type and the values it holds. *)
Definition word_type (t : CType) : Prop := pointer_level t = 0 ∧ base t = BaseWord.
Lemma word_holds t a : word_type t → ScalarFold.holds t a → if is_unsigned t then 0 ≤ a < 65536 else -32768 ≤ a < 32768.
Proof. intros [Hp Hb]. unfold ScalarFold.holds, width. rewrite Hb. decides. destruct (is_unsigned t); cbn; lia. Qed.

Lemma fold_shift op a b : op = "<<" ∨ op = ">>" → 
  IRScalarFold.fold_binary op a b =
    if (b <? 0) || (15 <? b) then None else Some (if String.eqb op "<<" then u16 a * 2 ^ b else Z.shiftr a b).
Proof.
  intros Hop. assert (Z.land a 65535 = u16 a) as E by apply land_mask_u16.
  destruct Hop as [-> | ->]; cbn; destruct ((b <? 0) || (15 <? b)) eqn:Hb; try done; f_equal.
  - rewrite E, Z.shiftl_mul_pow2 by lia. lia.
  - change (shift_right_value a b = Z.shiftr a b). apply shift_right_spec. lia.
Qed.
Lemma fold_divide op a b : op = "/" ∨ op = "%" →
  IRScalarFold.fold_binary op a b = if b =? 0 then None else Some (if String.eqb op "/" then Z.quot a b else Z.rem a b).
Proof. by intros [-> | ->]. Qed.

(* ------------------------------------------------------------------ *)
(** ** Emitted code in a payload *)

(** [e] emits from [g] to [g']; at the end of the function its branches are
    patched, and the linked code is at [base] of the payload. *)
Record Placed (v : Env) (code : list Z) (origin : Z) (base : nat) (addresses : string → option Z)
    (e : Gen → result Gen) (g g' : Gen) : Prop := {
  pl_emits : e g = Ok g';
  pl_start : Wf v g;
  pl_rest : ∃ final patched, Extends g' final ∧ Wf v final ∧ patchBranches v final = Ok (Patched patched []) ∧
    Loaded code origin base addresses patched
}.

Lemma placed_realizes v code origin base addresses e g g' : Placed v code origin base addresses e g g' →
  ∃ labels final, Extends g' final ∧ Realizes code origin base labels addresses None final.
Proof.
  intros [_ _ (G & h & HX & HW & Hp & Hl)]. exists (code_label (g_symbols G)), G. split; [done|]. by eapply patched_realizes.
Qed.

Lemma away_none g g' : away None g g'.
Proof. done. Qed.

(** [lands] for placed code. *)
Lemma placed_lands v code origin program_bank rom (fits : Fits code origin program_bank) base addresses e g g' m
    (P : Machine → Prop) (Q : State → Prop) :
  Placed v code origin base addresses e g g' →
  (∀ labels final, Realizes code origin base labels addresses None final → Extends g' final →
     g_plotting final = g_plotting g → lands (code:=code) (origin:=origin) (program_bank:=program_bank) (rom:=rom) (base:=base) (v:=v) P None final e (sees m) Q) →
  Extends g g' → Ready code origin program_bank rom (at_ base g) plain m → ok (sees m) →
  (∀ m', Ready code origin program_bank rom (at_ base g') plain m' → Q (sees m') → P m') →
  runs (step code origin program_bank rom) P m.
Proof.
  intros Hpl Hlands Hx Hm Hok HQ. destruct (placed_realizes _ _ _ _ _ _ _ _ Hpl) as (labels & G & HX & HR).
  apply (Hlands labels G HR HX) with (g := g) (g' := g'); try done; [|apply Hpl..|].
  - rewrite (ex_plotting _ _ HX). apply Hx.
  - intros w' Hw'. apply goes_done. intros m' _ Hm' Hs. apply HQ; [done|]. by rewrite Hs.
Qed.

(** What a program may write to here: nothing of the payload. *)
Definition free_cells (code : list Z) (origin program_bank : Z) (writable : Z → bool) : Prop :=
  ∀ i, writable i = true → 0 ≤ i < RamSize ∧ ¬ occupied code origin program_bank i.

(** A machine at the start of a payload, with given registers. *)
Lemma ready_with code start b r :
  0 ≤ start → Fits code (start mod 65536) (start / 65536) → code !! 0%nat = Some b → length r = 15%nat → Forall word_ok r →
  ∃ m rom, Ready code (start mod 65536) (start / 65536) rom 0 plain m ∧ ok (sees m) ∧ regs (sees m) = r ∧ bnk (sees m) = 0.
Proof.
  intros Hs Hf Hb Hl Hr. destruct (load_ok code start Hf ltac:(by intros ->) 0 0) as (m0 & rom & _ & Hld).
  destruct (boot_start code start 0 m0 rom b Hs Hf Hld Hb) as (m1 & _ & Hm1 & _).
  set (m := mkMachine (r ++ [reg m1 15]) (pipeline m1) (selectors m1) (flags m1) (pc_written m1) (ram m1) 0
    (ram_address m1) (rom_bank m1) (icache m1) (graphics m1)).
  assert (regs (sees m) = r) as Er by (cbn; by rewrite take_app_length').
  exists m, rom. split_and!; try done.
  - destruct Hm1 as [Hc Hpc Hpi Hlen Hsel]. split; try done.
    + by apply (Coherent_ext _ _ _ _ m1).
    + unfold reg. cbn. rewrite lookup_app_r by (rewrite Hl; cbn; lia). rewrite Hl. exact Hpc.
    + cbn. rewrite length_app, Hl. done.
  - split; [by rewrite Er|by rewrite Er|cbn; lia].
Qed.

Section Properties.
Context (code : list Z) (origin program_bank : Z) (rom : Memory) (fits : Fits code origin program_bank).
Context (base : nat) (addresses : string → option Z) (v : Env).
Notation Placed := (Placed v code origin base addresses).
Notation Ready := (Ready code origin program_bank rom).
Notation runs := (runs (step code origin program_bank rom)).

(** C25. Checked shifts. The code of a shift of words by a value computes what
    the constant folder computes: it ends behind the code with the folded
    value in R0 and all other registers but R3 and R6, the RAM and the banks as
    they were; where the folder declines, because the count is not in 0 to 15,
    it stops with fault 5 in R6. *)
Theorem shift_runs (i : IRInstruction) (a b : Z) (g g' : Gen) (m : Machine) :
  Placed (emit_shift v i) g g' →
  i_operation i = "<<" ∨ i_operation i = ">>" → word_type (i_type i) → ScalarFold.holds (i_type i) a → -32768 ≤ b < 65536 →
  Ready (at_ base g) plain m → ok (sees m) →
  get (sees m) 0 = u16 a → get (sees m) (if g_plotting g then 3 else 1) = u16 b →
  runs (λ m', match IRScalarFold.fold_binary (i_operation i) a b with
              | Some r => Ready (at_ base g') plain m' ∧ get (sees m') 0 = u16 r ∧ same [0; 3; 6] (sees m) (sees m')
              | None => pipeline m' = 0 ∧ get (sees m') 6 = 5
              end) m.
Proof.
  intros Hpl Hop Ht Ha Hb Hm Hok H0 Hs. apply (word_holds _ _ Ht) in Ha. rewrite fold_shift by done.
  assert (u16 b < 16 ↔ ((b <? 0) || (15 <? b)) = false) as Hrange.
  { rewrite orb_false_iff, !Z.ltb_ge. unfold uwrap. change (2 ^ 16) with 65536. split; intros; zmod. }
  destruct (placed_realizes _ _ _ _ _ _ _ _ Hpl) as (labels & G & HX & HR).
  destruct (grows_shift v i g g' (pl_emits _ _ _ _ _ _ _ _ Hpl)) as [L X]. pose proof (extends_here _ _ HX).
  pose proof (realizes_bound _ _ _ fits _ _ _ _ _ HR).
  destruct X as [X _]; [apply Hpl|lia|].
  eapply (placed_lands v code origin program_bank rom fits base addresses (emit_shift v i) g g' m _
    (λ w', u16 b < 16 ∧ same [0; 3; 6] (sees m) w' ∧ get w' 0 = shifted (String.eqb (i_operation i) "<<") (is_unsigned (i_type i)) (u16 a) (u16 b)));
    try done.
  - intros labels' final HR' HX' Hpf. apply (lands_shift fits (writable := λ _, false) ltac:(done) _ None final HR'); rewrite Hpf, Hs, ?H0.
    + intros Hlt w' S E. done.
    + intros Hge m' Hpipe E6. destruct ((b <? 0) || (15 <? b)) eqn:E; [done|]. assert (u16 b < 16) by by apply Hrange. lia.
  - intros m' Hm' (Hlt & S & E). pose proof Hlt as Hb'%Hrange. rewrite Hb'. split; [done|]. split; [|done].
    rewrite E, shifted_value by (done || apply u16_range). apply orb_false_iff in Hb' as [Hb1 Hb2]. by rewrite (uwrap_small 16 b) by lia.
Qed.

(** C24. Division. The code of a quotient or remainder of words, with the sixteen
    rounds in line, computes what the constant folder computes, signed and
    unsigned, in the baseline and the optimized code, while plotting or not: it
    ends behind the code with the folded value in R0, the stack pointer and the
    registers it does not use as they were, and the RAM unchanged but for the
    stack words it used; where the folder declines, because the divisor is zero,
    it stops with fault 6 in R6. *)
Theorem division_runs (writable : Z → bool) (stack_limit : Z) (i : IRInstruction) (a b : Z) (g g' : Gen) (m : Machine) :
  let plotting := g_plotting g in
  let n := (if plotting then 2 else 0) + (if negb (is_unsigned (i_type i)) then 2 else 0) in
  Placed (emit_division v i) g g' → is_divmod i = false →
  i_operation i = "/" ∨ i_operation i = "%" → word_type (i_type i) → ScalarFold.holds (i_type i) a → ScalarFold.holds (i_type i) b →
  free_cells code origin program_bank writable → addresses (StackLimitPrefix +:+ pretty 2) = Some stack_limit → 0 ≤ stack_limit < 65536 →
  Ready (at_ base g) plain m → ok (sees m) → room stack_limit writable n (sees m) →
  get (sees m) 0 = u16 a → get (sees m) (if plotting then 3 else 1) = u16 b →
  runs (λ m', match IRScalarFold.fold_binary (i_operation i) a b with
              | Some r => Ready (at_ base g') plain m' ∧ finished n (sees m) plotting (u16 r) (sees m')
              | None => pipeline m' = 0 ∧ get (sees m') 6 = 6
              end) m.
Proof.
  intros plotting n Hpl Hd Hop Ht Ha Hb Hfree Hlim Hrange Hm Hok Hroom H0 Hs.
  apply (word_holds _ _ Ht) in Ha, Hb. rewrite fold_divide by done.
  assert ((b =? 0) = (u16 b =? 0)) as Ez.
  { apply Bool.eq_iff_eq_true. rewrite !Z.eqb_eq. unfold uwrap. change (2 ^ 16) with 65536. destruct (is_unsigned (i_type i)); split; intros; zmod. }
  destruct (placed_realizes _ _ _ _ _ _ _ _ Hpl) as (labels & G & HX & HR).
  eapply (run_division (v:=v) (writable:=writable) fits Hfree _ stack_limit Hlim Hrange i g g' G (sees m)); try done; try by apply Hpl.
  - fold plotting. fold n. rewrite H0, Hs. intros Hn w' Hfin. apply goes_done. intros m' _ Hm' Hsee. rewrite Ez.
    replace (u16 b =? 0) with false by lia. split; [done|]. rewrite Hsee.
    assert (b ≠ 0) by (intros ->; done).
    destruct (is_unsigned (i_type i)); cbn [negb] in Hfin; [rewrite divided_unsigned in Hfin by lia|rewrite divided_signed in Hfin by done]; exact Hfin.
  - fold plotting. rewrite Hs. intros Hz m' Hpipe E6. rewrite Ez, Hz. done.
Qed.
End Properties.

(* ------------------------------------------------------------------ *)
(** ** Examples *)

Definition example_env (o : OptimizationLevel) : Env := mkEnv o "f" false ∅ ∅ false false ∅ ∅ ∅.
Definition example_binary (op : string) (unsigned : bool) : IRInstruction :=
  mkInstr OpBinary (scalar_type BaseWord 2 unsigned) 2 [0; 1] [] InvalidBlock 0 [] false 0 op "" 0 false false false [] false no_token.

(** A state that emitted nothing on failure. *)
Definition emitted_code (e : Gen → result Gen) : Gen := match e no_code with Ok g => g | Err _ => no_code end.
Definition patched_code (v : Env) (g : Gen) : Gen := match patchBranches v g with Ok (Patched h _) => h | _ => no_code end.

(** The linker's view of a function at the start of bank 0: its labels and the end of the stack. *)
Definition example_addresses (g : Gen) (name : string) : option Z :=
  if String.eqb name (StackLimitPrefix +:+ pretty 2) then Some 512
  else match code_label (g_symbols g) name with Some t => Some (32768 + t) | None => None end.

(** The payload: the function, and a STOP. *)
Definition example_payload (v : Env) (g : Gen) : list Z := linked_code (example_addresses g) (patched_code v g) ++ [0; 1].

Definition shift_example : Gen := emitted_code (emit_shift (example_env Baseline) (example_binary "<<" true)).
Definition division_example : Gen := emitted_code (emit_division (example_env OptO2) (example_binary "/" false)).


Lemma example_placed v e g g' :
  e no_code = Ok g → g' = g → Wf v g → patchBranches v g = Ok (Patched (patched_code v g) []) →
  loaded_b (example_payload v g) 32768 0 (example_addresses g) (patched_code v g) = true →
  Placed v (example_payload v g) 32768 0 (example_addresses g) e no_code g'.
Proof.
  intros He -> Hw Hp Hl. split; [done|apply no_code_wf|]. exists g, (patched_code v g). split_and!; try done; [apply extends_refl|].
  by apply loaded_b_sound.
Qed.

Definition rom_fits (code : list Z) : bool := (zlen code <=? 32768) && forallb (λ b, (0 <=? b) && (b <? 256)) code.
Lemma rom_fits_sound code : rom_fits code = true → Fits code (32768 mod 65536) (32768 / 65536).
Proof.
  intros [Hl Hb]%andb_true_iff. change (32768 mod 65536) with 32768. change (32768 / 65536) with 0. split; [done|lia| |by left; lia]. apply Forall_forall. intros b Hin.
  rewrite forallb_forall in Hb. apply list_elem_of_In, Hb in Hin. cbv beta in Hin. unfold byte_ok. lia.
Qed.

(** -7 / 2 rounds toward zero. *)
Lemma division_runs_witness :
  let code := example_payload (example_env OptO2) division_example in
  ∃ m rom, get (sees m) 0 = u16 (-7) ∧ get (sees m) 1 = 2 ∧
    runs (step code 32768 0 rom) (λ m', Ready code 32768 0 rom (at_ 0 division_example) plain m' ∧
      finished 2 (sees m) false (u16 (-3)) (sees m')) m.
Proof.
  intros code. assert (rom_fits code = true) as Hf by (vm_compute; reflexivity). apply rom_fits_sound in Hf.
  destruct (ready_with code 32768 (default 0 (code !! 0%nat)) ([u16 (-7); 2] ++ replicate 8 0 ++ [1024] ++ replicate 4 0))
    as (m & rom & Hm & Hok & Hr & Hbnk); [lia|exact Hf|vm_compute; reflexivity|reflexivity| |].
  { apply (bool_decide_unpack _). vm_compute. exact I. }
  assert (∀ i, get (sees m) i = default 0 (([u16 (-7); 2] ++ replicate 8 0 ++ [1024] ++ replicate 4 0) !! Z.to_nat i)) as Hget
    by (intros i; unfold get; by rewrite Hr).
  exists m, rom. split; [by rewrite Hget|]. split; [by rewrite Hget|].
  apply (division_runs code 32768 0 rom Hf 0 (example_addresses division_example) (example_env OptO2)
    (λ i, (0 <=? i) && (i <? RamSize)) 512 (example_binary "/" false) (-7) 2 no_code division_example m).
  - assert (emit_division (example_env OptO2) (example_binary "/" false) no_code = Ok division_example) as He by (vm_compute; reflexivity).
    refine (example_placed (example_env OptO2) (emit_division (example_env OptO2) (example_binary "/" false)) division_example division_example
      He eq_refl _ _ _); [|vm_compute; reflexivity|vm_compute; reflexivity].
    eapply division_wf; [exact He|reflexivity|apply no_code_wf|vm_compute; reflexivity].
  - reflexivity.
  - by left.
  - done.
  - change (-32768 ≤ -7 < 32768). lia.
  - change (-32768 ≤ 2 < 32768). lia.
  - intros i Hi. split; [lia|]. intros [? _]. done.
  - reflexivity.
  - lia.
  - exact Hm.
  - exact Hok.
  - split; rewrite ?Hget; unfold in_bank; rewrite ?Hbnk; [reflexivity|change (512 + 2 * 2 ≤ 1024 + 2); lia|change (2 * 2 ≤ 1024 < 65534); lia|].
    change (∀ a, 1022 ≤ a < 1026 → (0 <=? 0 * 65536 + a) && (0 * 65536 + a <? RamSize) = true). unfold RamSize. lia.
  - by rewrite Hget.
  - by rewrite Hget.
Defined.

(** 5 << 3. *)
Lemma shift_runs_witness :
  let code := example_payload (example_env Baseline) shift_example in
  ∃ m rom, get (sees m) 0 = 5 ∧ get (sees m) 1 = 3 ∧
    runs (step code 32768 0 rom) (λ m', Ready code 32768 0 rom (at_ 0 shift_example) plain m' ∧
      get (sees m') 0 = 40 ∧ same [0; 3; 6] (sees m) (sees m')) m.
Proof.
  intros code. assert (rom_fits code = true) as Hf by (vm_compute; reflexivity). apply rom_fits_sound in Hf.
  destruct (ready_with code 32768 (default 0 (code !! 0%nat)) ([5; 3] ++ replicate 13 0))
    as (m & rom & Hm & Hok & Hr & Hbnk); [lia|exact Hf|vm_compute; reflexivity|reflexivity| |].
  { apply (bool_decide_unpack _). vm_compute. exact I. }
  assert (∀ i, get (sees m) i = default 0 (([5; 3] ++ replicate 13 0) !! Z.to_nat i)) as Hget by (intros i; unfold get; by rewrite Hr).
  exists m, rom. split; [by rewrite Hget|]. split; [by rewrite Hget|].
  apply (shift_runs code 32768 0 rom Hf 0 (example_addresses shift_example) (example_env Baseline) (example_binary "<<" true) 5 3 no_code shift_example m).
  - assert (emit_shift (example_env Baseline) (example_binary "<<" true) no_code = Ok shift_example) as He by (vm_compute; reflexivity).
    refine (example_placed (example_env Baseline) (emit_shift (example_env Baseline) (example_binary "<<" true)) shift_example shift_example
      He eq_refl _ _ _); [|vm_compute; reflexivity|vm_compute; reflexivity].
    destruct (grows_shift _ _ _ _ He) as [_ X]. destruct X as [_ X]; [apply no_code_wf|vm_compute; reflexivity|exact X].
  - by left.
  - done.
  - change (0 ≤ 5 < 65536). lia.
  - lia.
  - exact Hm.
  - exact Hok.
  - by rewrite Hget.
  - by rewrite Hget.
Defined.
